(* ===== verification/_CoqProject ===== *)
-Q . S2P
Prelude.v
Bytes.v
Num.v
Quorum.v
Inflights.v
Progress.v
ProgressMap.v
Conf.v
Tracker.v
ConfChange.v
ConfChangeProps.v
Config.v
Lease.v
Prng.v
ReadOnly.v
Staging.v
Data.v
Frame.v
Entry.v
Storage.v
Shape.v
EngineLog.v
EngineStable.v
GroupEngine.v
Restart.v
Forwarded.v
Message.v
Wire.v
Codec.v
RecordIo.v
Conn.v
Link.v
Endpoint.v
Router.v
RouterInv.v
RouterSafety.v
Sample.v
Merge.v
Invariant.v
Persistence.v
Replication.v
Election.v
Propose.v
Handlers.v
Commit.v
Apply.v
Boot.v
Reads.v
Snapshot.v
Append.v
Drive.v
VoteFrame.v
Frames.v
ApplyFrame.v
PumpLoop.v
ApplyLoop.v
HandlerFrame.v
Vote.v
BootFrame.v
SnapshotFrame.v
VoteDrive.v
VoteSafety.v
Coordinator.v
Multi.v
MultiRemove.v
MultiFork.v
MultiRelay.v
MultiVerbs.v
MultiMerge.v
MultiInv.v
MultiSteps.v
MultiForkSteps.v
MultiService.v
MultiCrank.v
MultiAdmit.v
MultiRun.v
MultiSafety.v
MultiCoordinator.v
MultiCoordSafety.v
Driver.v
