(* ===== verification/Prelude.v ===== *)
(** * Sailing: a verification of the multi-group Raft library

    [sailing] is a sans-I/O Raft implementation.  The crate [sailing-proto]
    holds one consensus group ([endpoint/]), the data it is made of (terms,
    entries, quorums, progress, membership, configuration), the storage traits
    it is written against ([storage.rs]), a container that runs many groups
    over one engine ([multi/]), and a transport that carries messages over
    byte streams ([transport/]): frames, a record layer with a hello, one
    connection, a router over the connections of a host, and two coordinators
    that put the router in front of one endpoint or of the container.  The
    remaining crates drive it: sockets, timers, channels.  A driver feeds an
    endpoint messages, timeouts and storage completions; the endpoint answers
    through queues of messages and events and through writes submitted to a log
    and a stable store.  Nothing in the crate reads a clock, a socket or a
    random source, so every operation is a function from a state and its inputs
    to a state and its outputs, and that is how it is translated here: one
    definition per method, the receiver an argument and a result, an early
    return a branch, a [Result] a sum, a possible panic an [option].

    ** Conventions

    A [u64] is an [N] with the width written out where arithmetic meets it
    ([saturating_add], [checked_add], [wrapping_add]); a [usize] count is a
    [nat] (an [N] of 64 bits in [Driver], whose counters are atomics that wrap); bytes are [list byte]; a [VecDeque] is a list with its front first;
    [BTreeMap] and [HashMap] are finite maps, and [BTreeSet] a finite set,
    except where the order or the representation is the point ([ProgressMap]).
    Names carry the Rust type as a prefix: [Progress_maybe_update] is
    [Progress::maybe_update], and a field of a record carries the initials of
    its type.  [Clone] and [CheapClone], [Box] and [Arc] are the identity.  A
    store handed over by mutable reference is an argument and a result; a map of
    stores ([GroupStores]) is read and written back.  Debug assertions, log
    lines, metrics counters nothing reads and spare buffer capacity are not part
    of the model.

    Loops over collections are structural.  Loops that are not take fuel, and
    theorems show that it is not used up or that the result is the one of the
    loop:
    - the restart scans ([Restart.scan_loop]) and [Endpoint.superseded_loop] read
      at least one entry per round: the number of retained entries;
    - the apply loop and the replay of a restart ([Apply.apply_fuel],
      [Boot.replay_fuel]) apply an entry per round: the committed tail
      ([apply_committed_exact], [replay_complete]);
    - the pump of a peer's window ([Commit.pump_fuel]) moves the next index up
      within the log ([pump_loop_fuel]);
    - [Election.release_proved], [Drive.release_covered] remove one waiting
      element per round: the length of the queue;
    - the fork relay ([MultiRelay.drain_fuel]) resolves a fork or skips a queued
      group per round ([fork_drain_settles]); the container's polls skip a queued
      group per round: the length of the queue;
    - the flushes of the coordinators ([flush_loop], [flush_rounds]) take one
      queued message per round: the number queued ([coordinator_is_node],
      [flush_routes]);
    - the frame decoder ([Frame.push_loop]), a connection's intake
      ([Conn.handle_loop], [poll_loop]) and its outlet ([drain_loop],
      [RecordIo.flush_hello_loop]) consume a byte or a frame or leave: the number
      of bytes; the LEB128 codecs stop after ten bytes;
    - [ProgressMap]'s binary search halves an interval: its length.

    ** Files, from the leaves up

    Data and arithmetic.
    - [Prelude]: machine integers, [result] and its bind, record updates, node
      identifiers, list lemmas, the tactics [u64_lia] and [split_matches], the
      hint database [sailing].
    - [Bytes], [Num]: integer layouts; [Term], [Index], [OpId], [Instant],
      [Wall], [Now] ([num.rs], [time.rs]).
    - [Quorum] ([quorum/]): [MajorityConfig], [JointConfig]; the committed
      index is exactly the largest index every half has acknowledged by a
      majority, the vote result is exactly the verdict that no missing ballot
      can change, commit and vote quorums meet.
    - [Inflights], [Progress], [ProgressMap], [Tracker] ([inflights.rs],
      [progress/], [tracker/]): what the leader knows of its peers.  Theorems
      over every sequence of operations: the window's bounds, [match_index] is
      the largest acknowledgement, the sorted vector is a finite map, the
      tracker's conversions to and from a [ConfState].
    - [Conf], [ConfChange], [ConfChangeProps] ([conf/], [tracker/]): the
      membership changer refines an abstract map of voters and learners, never
      fails an internal check, and keeps quorum overlap across each step.
    - [Config], [Lease], [Prng] ([config/], [prng.rs], lease arithmetic of
      [endpoint/]): the commit wait of a new leader outlasts the lease of a
      deposed one whatever the clocks do within their bounds; randomised timeouts
      stay in range.
    - [ReadOnly], [Forwarded] ([read_only/], [endpoint/mod.rs]): a read round
      is credited exactly with the acknowledgements of its own token, tokens
      are not reused, a forwarded read is answered once and with its own
      context.
    - [Staging] ([storage.rs]): out-of-order, repeated snapshot chunks
      assemble the blob.
    - [Data], [Frame] ([data.rs], [transport/frame/]): canonical payload
      codecs; group headers and coalesced frames; the incremental decoder refines
      a byte-at-a-time reference.

    Stores.
    - [Entry], [Storage] ([entry.rs], [hard_state.rs], [storage.rs]): the data
      of the stores, the traits [LogStore] and [StableStore] as classes of
      operations, and the clauses of their documentation as classes of laws.
    - [Shape], [EngineLog], [EngineStable], [GroupEngine] ([multi/]): the
      in-memory engine.  Its log and its stable store satisfy the laws, with the
      ordering promise of [StableStore::submit_write] over an abstract store; the
      removal floor is exactly what a group's history warrants; fences and boot
      epochs survive every operation and crash.
    - [Restart] ([endpoint/mod.rs], [endpoint/restart.rs]): the decisions of a
      restart.  No committed entry is cut away, the lease fence covers every
      promise, the scans compute the maxima they are named for.

    Messages.
    - [Message] ([message/], [event.rs], [state_machine.rs]): the RPCs, the
      events, the state machine as a class of operations.
    - [Wire], [Codec] ([messages.proto], [wire/mod.rs]): the sizes a frame may
      have, the wire structures and the conversions to and from them.  Every
      message within the field bounds decodes to itself, what is decoded is within
      them and stands for the fields of its frame, and the encoder that caches
      snapshot metadata writes the bytes of the plain one.

    One consensus group.
    - [Endpoint] ([endpoint/mod.rs]): the state, field by field, with its queues
      and timers.
    - [Persistence], [Replication], [Election], [Handlers]
      ([endpoint/persistence.rs], [replication.rs], [snapshot.rs],
      [election.rs], [mod.rs]): what a node submits and withholds, what a
      leader sends (a snapshot chunk fits the frame limit), voting and standing
      for election.
    - [Merge] ([endpoint/merge.rs], [split.rs]): freezes, parks, claims and debts
      of a merge, the fork queue of a split.
    - [Propose] ([membership.rs], [read_mode.rs], [transfer.rs] and the
      proposals of the other files), [Commit] (the commit rule and what a
      leader owes to members it removed), [Apply] ([apply_committed]), [Reads]
      ([read_index.rs]), [Snapshot] ([snapshot.rs]), [Append] (the follower's
      side of replication and the answers a leader receives).
    - [Drive]: [handle_message], [handle_timeout], [handle_storage].
    - [Boot] ([restart.rs]): the endpoint a node builds from its stores.
    - [Sample]: a concrete node for the examples.
    - [Invariant], [VoteFrame], [Frames], [ApplyFrame], [SnapshotFrame],
      [HandlerFrame], [BootFrame], [Vote], [VoteDrive], [VoteSafety]: every
      operation keeps the endpoint well formed, and a node casts one vote per
      term through any sequence of messages, timeouts, completions, barriers and
      crashes, and casts none before it is on disk.  The Frame files show that
      the rest of the endpoint leaves the ballot alone.
    - [PumpLoop], [ApplyLoop]: the loops of replication and apply end, and
      applying in batches is applying the log one entry at a time.

    Many groups.
    - [Multi], [MultiRemove], [MultiFork], [MultiRelay], [MultiVerbs],
      [MultiMerge] ([multi/mod.rs]): the container [MultiRaft]: hosting and
      removal, output queues and polls, the fork relay and its install, the
      delegates to a group, the merge verbs and the merge service.  The engine,
      the stores of a group, the admission floors and the host's veto are
      classes ([MultiEngine], [GroupStores], [FloorStore], [ForkGate]).
    - [MultiInv], [MultiSteps], [MultiForkSteps], [MultiService], [MultiCrank],
      [MultiAdmit], [MultiRun]: the invariant of the container and that every call
      keeps it; [MultiCrank] also has what a resolution of the merge service says of
      the state it is reported in, [MultiRun] the runs of a container.
    - [MultiSafety]: over every run, no call panics and a group that fail-stops is
      queued for the host or was reported to it; what the calls on groups do to the
      family of endpoints is what the machine of that family alone does, one group
      at a time; a fork is relayed once, to a child that boots at term zero; the
      merge service accounts for every group it takes down and reports nothing its
      state does not bear out; the relay settles.

    Transport.
    - [RecordIo] ([transport/stream.rs], [passthrough/], [labeled/]): the record
      layer as a class with laws, the plain one, and the one that opens with a
      hello naming the cluster and the node.
    - [Conn] ([conn/]), [Link]: one connection; two connections over a TCP stream
      cut up anyhow are a reliable, ordered, authenticated channel.
    - [Router], [RouterInv], [RouterSafety] ([router/]): the table of a host's
      connections.  It stays consistent under every sequence of calls, hands over
      messages only under the name their connection authenticated, two hosts that
      dial each other keep the same connection, and housekeeping leaves nothing
      overdue.
    - [Coordinator] ([coordinator/mod.rs]): an endpoint behind a router is the node
      of [VoteSafety], whatever bytes arrive.
    - [MultiCoordinator], [MultiCoordSafety] ([coordinator/multi/]): the container
      behind a router.  It only makes calls the container's theorems are about;
      a frame passes the tombstone, debt and floor fences before it reaches a
      group; a group is told to quiesce only by the leader it follows; a flush
      routes or batches every queued message; the signals for the driver are
      bounded and delivered.

    Driver.
    - [Driver] ([sailing-driver]: [config.rs], [clock.rs], [wall_clock.rs],
      [error.rs], [shared.rs], [handle/mod.rs]): what the drivers share.  The
      budget of requests in flight holds under every interleaving of its atomic
      operations, and every request parked in the routing table is answered once.

    ** Parameters

    Code that is not in the repository is an argument.  The protobuf code the
    [buffa] generator emits: decoders ([Shape.BuffaDecode], [Wire.Buffa]), encoders
    ([MultiVerbs.BuffaEncode]), field sizes ([Wire.BuffaSizes]), with what the wire
    format promises of them ([Wire.Proto3], [Codec.BuffaSizeLaws],
    [Wire.BuffaWidths]: a decoded [u64] field is in range).  The outcome of a
    fallible allocation ([Staging], [EngineStable]), the random generator
    ([Prng.Rng]; an entry point that takes a seed takes the generator it builds),
    and the replicated application ([Message.StateMachine]).
    A store behind the traits is an instance of the classes of [Storage], a record
    layer one of [RecordIo]; the engine's and the labelled layer's instances show
    that their laws can hold.

    ** Not modelled

    The TLS record layer and the QUIC transport ([transport/tls/],
    [transport/quic/]) drive the state machines of [rustls] and [quinn-proto],
    whose behaviour is not in the repository.  The loops of the drivers
    ([sailing-compio], [sailing-reactor], and in [sailing-driver] the handle's
    futures and what is left of [shared.rs] for a plane of groups) are asynchronous
    code over sockets, timers and channels.  The storage conformance suite, the simulation and the
    benchmarks are test programs. *)

From stdpp Require Export base numbers list sorting gmap strings.
From Stdlib Require Export Lia.

(** ** Notation scope of the development *)

Declare Scope sailing_scope.
Delimit Scope sailing_scope with sailing.
Global Open Scope sailing_scope.
Global Open Scope N_scope.

(** ** Machine integers

    A Rust [u64] is an [N]; the functions below write out what each of the
    standard arithmetic methods does at the 64-bit boundary.  A [usize] that
    counts the elements of a collection is a [nat]. *)

Abbreviation u64 := N (only parsing).

Definition u64_max : N := 18446744073709551615.
Definition u64_mod : N := 18446744073709551616.

(** The values a [u64] can hold. *)
Definition is_u64 (n : N) : Prop := n ≤ u64_max.

#[global] Instance is_u64_dec n : Decision (is_u64 n) := _.

Definition saturating_add (a b : u64) : u64 := N.min (a + b) u64_max.
Definition saturating_sub (a b : u64) : u64 := a - b.
Definition checked_add (a b : u64) : option u64 :=
  if decide (a + b ≤ u64_max) then Some (a + b) else None.
Definition checked_sub (a b : u64) : option u64 :=
  if decide (b ≤ a) then Some (a - b) else None.
Definition wrapping_add (a b : u64) : u64 := (a + b) mod u64_mod.
Definition wrapping_sub (a b : u64) : u64 := (a + u64_mod - b) mod u64_mod.
Definition wrapping_mul (a b : u64) : u64 := (a * b) mod u64_mod.

Create HintDb sailing.
#[export] Hint Unfold is_u64 u64_max u64_mod saturating_add saturating_sub
  wrapping_add wrapping_sub wrapping_mul checked_add checked_sub : sailing.

(** Linear arithmetic on 64-bit values: unfold the width, then [lia]. *)
Ltac u64_lia :=
  unfold is_u64, saturating_add, saturating_sub, u64_max, u64_mod in *; lia.

(** Split every [match] of the goal and of the hypotheses, clearing the
    impossible branches. *)
Ltac split_matches :=
  repeat (case_match; simplify_eq/=; try done).

Lemma saturating_add_u64 a b : is_u64 (saturating_add a b).
Proof. u64_lia. Qed.

Lemma saturating_add_le a b : is_u64 a → a ≤ saturating_add a b.
Proof. u64_lia. Qed.

Lemma checked_add_Some a b c :
  checked_add a b = Some c ↔ c = a + b ∧ a + b ≤ u64_max.
Proof. unfold checked_add. case_decide; split; [by intros [= <-]|by intros [-> ?]|done|lia]. Qed.

Lemma wrapping_u64 n : is_u64 (n mod u64_mod).
Proof.
  unfold is_u64, u64_max.
  pose proof (N.mod_lt n u64_mod ltac:(done)). unfold u64_mod in *. lia.
Qed.

(** Subtracting what was added returns the old value, whatever wrapped. *)
Lemma wrapping_sub_mod s b :
  wrapping_sub ((s + b) mod u64_mod) (b mod u64_mod) = s mod u64_mod.
Proof. unfold wrapping_sub, u64_mod. zify. Z.to_euclidean_division_equations. lia. Qed.

#[export] Hint Resolve saturating_add_u64 saturating_add_le wrapping_u64 : sailing.

(** ** Fallible code

    Rust's [Result<T, E>], with the [?] operator as a bind. *)

Inductive result (T E : Type) := Ok (t : T) | Err (e : E).
Arguments Ok {_ _} _.
Arguments Err {_ _} _.

Definition result_bind {T U E} (r : result T E) (k : T → result U E) : result U E :=
  match r with Ok t => k t | Err e => Err e end.

Notation "'let?' x := r 'in' k" := (result_bind r (λ x, k))
  (at level 10, x binder, r at level 100, k at level 200) : sailing_scope.
Notation "'let?' ' x := r 'in' k" := (result_bind r (λ v, match v with x => k end))
  (at level 10, x pattern, r at level 100, k at level 200) : sailing_scope.

Definition is_ok {T E} (r : result T E) : bool :=
  match r with Ok _ => true | Err _ => false end.

Lemma result_bind_Ok {T U E} (r : result T E) (k : T → result U E) u :
  result_bind r k = Ok u ↔ ∃ t, r = Ok t ∧ k t = Ok u.
Proof. destruct r; simpl; naive_solver. Qed.

(** A guard that returns early with an error. *)
Lemma guard_Ok {T E} (b : bool) (e : E) (r : result T E) t :
  (if b then Err e else r) = Ok t ↔ b = false ∧ r = Ok t.
Proof. destruct b; naive_solver. Qed.

(** [for _ in 0..n] with a body that may return early.  The count is a machine
    integer, so the loop recurses on its binary representation and stops at the
    first error: its cost is the number of iterations that succeed. *)
Section for_range.
Context {S E : Type} (body : S → result S E).

Fixpoint for_nat (n : nat) (s : S) : result S E :=
  match n with O => Ok s | Datatypes.S n => result_bind (body s) (for_nat n) end.

Fixpoint for_pos (n : positive) (s : S) : result S E :=
  match n with
  | xH => body s
  | xO n => result_bind (for_pos n s) (for_pos n)
  | xI n => result_bind (body s) (λ s, result_bind (for_pos n s) (for_pos n))
  end.

Definition for_range (n : N) (s : S) : result S E :=
  match n with N0 => Ok s | Npos n => for_pos n s end.

Lemma for_nat_add m n s : for_nat (m + n) s = result_bind (for_nat m s) (for_nat n).
Proof. revert s. induction m as [|m IH]; intros s; simpl; [done|]. destruct (body s); simpl; auto. Qed.

Lemma for_pos_nat n s : for_pos n s = for_nat (Pos.to_nat n) s.
Proof.
  revert s. induction n as [n IH|n IH|]; intros s; cbn [for_pos].
  - rewrite Pos2Nat.inj_xI. cbn [for_nat]. destruct (body s) as [t|e]; cbn [result_bind]; [|done].
    replace (2 * Pos.to_nat n)%nat with (Pos.to_nat n + Pos.to_nat n)%nat by lia.
    rewrite for_nat_add, IH. destruct (for_nat (Pos.to_nat n) t); simpl; auto.
  - rewrite Pos2Nat.inj_xO.
    replace (2 * Pos.to_nat n)%nat with (Pos.to_nat n + Pos.to_nat n)%nat by lia.
    rewrite for_nat_add, IH. destruct (for_nat (Pos.to_nat n) s); simpl; auto.
  - change (Pos.to_nat 1) with 1%nat. cbn. by destruct (body s).
Qed.

(** The loop runs its body [n] times. *)
Lemma for_range_nat n s : for_range n s = for_nat (N.to_nat n) s.
Proof. destruct n; simpl; [done|]. apply for_pos_nat. Qed.
End for_range.

(** ** Counting

    [countb p l] is the number of elements of [l] that satisfy [p]: the value
    of a Rust loop that increments a counter, or of [filter(p).count()]. *)

Fixpoint countb {A} (p : A → bool) (l : list A) : nat :=
  match l with
  | [] => 0
  | x :: l => (if p x then 1 else 0) + countb p l
  end.

Section countb.
Context {A : Type}.
Implicit Types (p q : A → bool) (l : list A).

Lemma countb_app p l1 l2 : countb p (l1 ++ l2) = (countb p l1 + countb p l2)%nat.
Proof. induction l1 as [|x l1 IH]; simpl; lia. Qed.

Lemma countb_le_length p l : (countb p l ≤ length l)%nat.
Proof. induction l as [|x l IH]; simpl; [lia|]. destruct (p x); lia. Qed.

#[global] Instance countb_Permutation p : Proper ((≡ₚ) ==> (=)) (countb p).
Proof. induction 1; simpl; lia. Qed.

Lemma countb_ext p q l : (∀ x, x ∈ l → p x = q x) → countb p l = countb q l.
Proof.
  induction l as [|x l IH]; intros H; simpl; [done|].
  rewrite (H x) by set_solver. rewrite IH; [done|set_solver].
Qed.

Lemma countb_mono p q l :
  (∀ x, x ∈ l → p x = true → q x = true) → (countb p l ≤ countb q l)%nat.
Proof.
  induction l as [|x l IH]; intros H; simpl; [done|].
  pose proof (IH ltac:(set_solver)). pose proof (H x ltac:(set_solver)).
  destruct (p x), (q x); simpl; [lia|naive_solver|lia|lia].
Qed.

Lemma countb_all p l : (∀ x, x ∈ l → p x = true) → countb p l = length l.
Proof.
  induction l as [|x l IH]; intros H; simpl; [done|].
  rewrite H by set_solver. rewrite IH; [lia|set_solver].
Qed.

Lemma countb_none p l : (∀ x, x ∈ l → p x = false) → countb p l = 0%nat.
Proof.
  induction l as [|x l IH]; intros H; simpl; [done|].
  rewrite H by set_solver. rewrite IH; [lia|set_solver].
Qed.

Lemma countb_pos p l : (0 < countb p l)%nat → ∃ x, x ∈ l ∧ p x = true.
Proof.
  induction l as [|x l IH]; simpl; [lia|]. destruct (p x) eqn:E.
  - exists x. set_solver.
  - intros (y & ? & ?)%IH. exists y. set_solver.
Qed.

Lemma countb_or_and p q l :
  (countb p l + countb q l
   = countb (λ x, p x || q x) l + countb (λ x, p x && q x) l)%nat.
Proof. induction l as [|x l IH]; simpl; [lia|]. destruct (p x), (q x); simpl; lia. Qed.

(** Two majorities of one list share an element. *)
Lemma countb_pigeonhole p q l :
  (length l < countb p l + countb q l)%nat → ∃ x, x ∈ l ∧ p x = true ∧ q x = true.
Proof.
  intros H. rewrite countb_or_and in H.
  pose proof (countb_le_length (λ x, p x || q x) l).
  destruct (countb_pos (λ x, p x && q x) l) as (x & ? & Hx); [lia|].
  exists x. apply andb_true_iff in Hx. naive_solver.
Qed.

Lemma countb_fmap {B} (f : B → A) p (l : list B) :
  countb p (f <$> l) = countb (λ x, p (f x)) l.
Proof. induction l as [|x l IH]; csimpl; [done|]. by rewrite IH. Qed.

Lemma countb_filter p l : countb p l = length (filter (λ x, p x = true) l).
Proof.
  induction l as [|x l IH]; simpl; [done|]. rewrite filter_cons, IH.
  by destruct (p x).
Qed.

Lemma countb_elements `{!EqDecision A, !Countable A} p (X : gset A) :
  countb p (elements X) = size (filter (λ x, p x = true) X).
Proof.
  rewrite countb_filter. unfold size, set_size. simpl. apply Permutation_length, NoDup_Permutation.
  - apply NoDup_filter, NoDup_elements.
  - apply NoDup_elements.
  - intros x. rewrite list_elem_of_filter, !elem_of_elements, elem_of_filter. done.
Qed.
End countb.

(** ** Lists *)

Lemma filter_all {A} (P : A → Prop) `{!∀ x, Decision (P x)} (l : list A) :
  Forall P l → filter P l = l.
Proof.
  induction 1 as [|x l Hx Hl IH]; [done|]. by rewrite filter_cons_True, IH.
Qed.

Lemma take_drop_between {A} (l : list A) p r :
  (p ≤ r)%nat → take p l ++ drop p (take r l) ++ drop r l = l.
Proof.
  intros. rewrite app_assoc. replace (take p l) with (take p (take r l))
    by (rewrite take_take; f_equal; lia).
  by rewrite !take_drop.
Qed.

(** A [VecDeque] popped while a predicate holds of its front, or of its back. *)
Fixpoint drop_while {A} (p : A → bool) (l : list A) : list A :=
  match l with
  | [] => []
  | x :: l' => if p x then drop_while p l' else l
  end.

Definition drop_back_while {A} (p : A → bool) (l : list A) : list A :=
  reverse (drop_while p (reverse l)).

Section drop_while.
Context {A : Type}.
Implicit Types (p : A → bool) (l : list A).

Lemma drop_while_app p l1 l2 :
  Forall (λ x, p x = true) l1 → Forall (λ x, p x = false) l2 → drop_while p (l1 ++ l2) = l2.
Proof.
  induction 1 as [|x l1 Hx _ IH]; intros H2; cbn [app drop_while].
  - destruct H2 as [|x l2 Hx]; cbn [drop_while]; [done|by rewrite Hx].
  - rewrite Hx. auto.
Qed.

Lemma drop_back_while_app p l1 l2 :
  Forall (λ x, p x = false) l1 → Forall (λ x, p x = true) l2 → drop_back_while p (l1 ++ l2) = l1.
Proof.
  intros H1 H2. unfold drop_back_while. rewrite reverse_app, drop_while_app.
  - apply reverse_involutive.
  - by apply Forall_reverse.
  - by apply Forall_reverse.
Qed.
End drop_while.

(** The maximum of a list of counters, zero when it is empty. *)
Definition list_max (l : list N) : N := foldr N.max 0 l.

Lemma list_max_lub l n : list_max l ≤ n ↔ Forall (λ x, x ≤ n) l.
Proof.
  induction l as [|x l IH]; cbn [list_max foldr].
  - split; [constructor|lia].
  - rewrite N.max_lub_iff, Forall_cons. unfold list_max in IH. by rewrite IH.
Qed.

Lemma list_max_ge l x : x ∈ l → x ≤ list_max l.
Proof.
  intros Hx. pose proof (proj1 (list_max_lub l _) (N.le_refl _)) as H.
  by apply (proj1 (Forall_forall _ l) H).
Qed.

(** ** Record updates

    [r <| f := v |>] is [r] with the field [f] set to [v], [r <| f ::= g |>]
    with [g] applied to it.  A record type is updatable once its expansion into
    its own fields is declared ([Eta]); the setter of a field is derived from
    the expansion, so that it computes to a record constructor. *)

Class Eta (R : Type) := eta : R → R.
Class Setter {R T : Type} (get : R → T) := upd : (T → T) → R → R.
Arguments upd {_ _} _ {_} _ _.

Ltac derive_setter :=
  lazymatch goal with
  | |- @Setter ?R ?T ?get =>
      let f := fresh "f" in
      let r := fresh "r" in
      intros f r;
      let e := constr:(eta r) in
      let e := eval hnf in e in
      let e := eval pattern (get r) in e in
      lazymatch e with
      | ?g _ => let u := eval cbv beta in (g (f (get r))) in exact u
      end
  end.

#[global] Hint Extern 1 (Setter _) => derive_setter : typeclass_instances.

Notation "r <| f := v |>" := (upd f (λ _, v) r)
  (at level 1, left associativity, f at level 99, v at level 200) : sailing_scope.
Notation "r <| f ::= g |>" := (upd f g r)
  (at level 1, left associativity, f at level 99, g at level 200) : sailing_scope.

(** ** Node identifiers

    The [NodeId] marker trait of [sailing-proto/src/id.rs]: an [Ord] key that
    can be held in the [BTreeSet]/[BTreeMap] collections.  [CheapClone] is the
    identity on values.  The order is the one the collections iterate in. *)

Class NodeId (I : Type) := {
  nid_eq_dec :: EqDecision I;
  nid_countable :: Countable I;
  nid_cmp : I → I → comparison;
  nid_cmp_eq : ∀ x y, nid_cmp x y = Eq ↔ x = y;
  nid_cmp_opp : ∀ x y, nid_cmp y x = CompOpp (nid_cmp x y);
  nid_cmp_trans : ∀ x y z, nid_cmp x y = Lt → nid_cmp y z = Lt → nid_cmp x z = Lt;
}.

#[global] Program Instance N_NodeId : NodeId N := {| nid_cmp := N.compare |}.
Next Obligation. intros x y. apply N.compare_eq_iff. Qed.
Next Obligation. intros x y. apply N.compare_antisym. Qed.
Next Obligation. intros x y z. rewrite !N.compare_lt_iff. lia. Qed.

(** [while back.is_some_and(p) { pop_back() }] *)
Fixpoint pop_back_while {A} (p : A → bool) (q : list A) : list A :=
  match q with
  | [] => []
  | a :: q =>
      match pop_back_while p q with
      | [] => if p a then [] else [a]
      | q' => a :: q'
      end
  end.

(** The derived order of a pair. *)
Definition pair_cmp {A B} (ca : A → A → comparison) (cb : B → B → comparison) (p q : A * B)
  : comparison :=
  match ca p.1 q.1 with Eq => cb p.2 q.2 | c => c end.

Program Definition pair_order {A B} (OA : NodeId A) (OB : NodeId B) : NodeId (A * B) :=
  {| nid_cmp := pair_cmp nid_cmp nid_cmp |}.
Next Obligation.
  intros A B OA OB [x y] [x' y']. unfold pair_cmp. cbn.
  destruct (nid_cmp x x') eqn:E; [|split; [done|intros [= -> ->]; by rewrite (proj2 (nid_cmp_eq _ _)) in E]..].
  apply nid_cmp_eq in E as ->. rewrite nid_cmp_eq. naive_solver.
Qed.
Next Obligation.
  intros A B OA OB [x y] [x' y']. unfold pair_cmp. cbn. rewrite (nid_cmp_opp x x').
  destruct (nid_cmp x x'); [apply nid_cmp_opp|done..].
Qed.
Next Obligation.
  intros A B OA OB [x y] [x' y'] [x'' y'']. unfold pair_cmp. cbn.
  destruct (nid_cmp x x') eqn:E1; [| |done]; destruct (nid_cmp x' x'') eqn:E2; try done; intros H1 H2.
  - apply nid_cmp_eq in E1 as ->, E2 as ->. rewrite (proj2 (nid_cmp_eq _ _)) by done.
    by eapply nid_cmp_trans.
  - apply nid_cmp_eq in E1 as ->. by rewrite E2.
  - apply nid_cmp_eq in E2 as <-. by rewrite E1.
  - by rewrite (nid_cmp_trans _ _ _ E1 E2).
Qed.

Section node_id.
Context {I : Type} `{!NodeId I}.

Definition nid_lt (x y : I) : Prop := nid_cmp x y = Lt.
Definition nid_le (x y : I) : Prop := nid_cmp x y ≠ Gt.

#[global] Instance comparison_eq_dec : EqDecision comparison.
Proof. solve_decision. Defined.
#[global] Instance nid_lt_dec : RelDecision nid_lt.
Proof. intros x y. unfold nid_lt. apply _. Defined.
#[global] Instance nid_le_dec : RelDecision nid_le.
Proof. intros x y. unfold nid_le. apply _. Defined.

Lemma nid_cmp_refl x : nid_cmp x x = Eq.
Proof. by apply nid_cmp_eq. Qed.

Lemma nid_lt_irrefl x : ¬ nid_lt x x.
Proof. unfold nid_lt. by rewrite nid_cmp_refl. Qed.

Lemma nid_cmp_gt x y : nid_cmp x y = Gt ↔ nid_lt y x.
Proof. unfold nid_lt. rewrite (nid_cmp_opp x y). by destruct (nid_cmp x y). Qed.

Lemma nid_le_lt_eq x y : nid_le x y ↔ nid_lt x y ∨ x = y.
Proof.
  unfold nid_le, nid_lt. rewrite <- nid_cmp_eq.
  destruct (nid_cmp x y); naive_solver.
Qed.

#[global] Instance nid_lt_trans : Transitive nid_lt.
Proof. intros x y z. apply nid_cmp_trans. Qed.
#[global] Instance nid_le_trans : Transitive nid_le.
Proof.
  intros x y z. rewrite !nid_le_lt_eq.
  intros [?| ->] [?| ->]; eauto using nid_cmp_trans.
  left. by etrans.
Qed.
#[global] Instance nid_le_total : Total nid_le.
Proof.
  intros x y. unfold nid_le. rewrite (nid_cmp_opp x y).
  destruct (nid_cmp x y); simpl; auto.
Qed.
#[global] Instance nid_le_antisymm : AntiSymm (=) nid_le.
Proof.
  intros x y. rewrite !nid_le_lt_eq. intros [Hx|?] [Hy|?]; try done.
  exfalso. eapply nid_lt_irrefl. by etrans.
Qed.

(** *** [BTreeSet]

    A [BTreeSet<I>] is a finite set; [btree_iter] is its iterator, in
    ascending order and without duplicates. *)
Definition btree_iter (s : gset I) : list I := merge_sort nid_le (elements s).

Lemma btree_iter_elements s : btree_iter s ≡ₚ elements s.
Proof. apply merge_sort_Permutation. Qed.

Lemma elem_of_btree_iter x s : x ∈ btree_iter s ↔ x ∈ s.
Proof. by rewrite btree_iter_elements, elem_of_elements. Qed.

Lemma length_btree_iter s : length (btree_iter s) = size s.
Proof. by rewrite btree_iter_elements. Qed.

Lemma NoDup_btree_iter s : NoDup (btree_iter s).
Proof. rewrite btree_iter_elements. apply NoDup_elements. Qed.

Lemma btree_iter_sorted s : StronglySorted nid_lt (btree_iter s).
Proof.
  assert (StronglySorted nid_le (btree_iter s)) as Hle
    by (apply StronglySorted_merge_sort; apply _).
  pose proof (NoDup_btree_iter s) as Hnd.
  induction Hle as [|x l Hle IH Hall]; constructor.
  - apply IH. by apply NoDup_cons in Hnd as [_ ?].
  - apply NoDup_cons in Hnd as [Hx _]. rewrite Forall_forall in *.
    intros y Hy. destruct (proj1 (nid_le_lt_eq x y)) as [?| ->]; auto. done.
Qed.

Lemma sorted_lt_le (l : list I) : StronglySorted nid_lt l → StronglySorted nid_le l.
Proof.
  induction 1 as [|x l Hs IH Hall]; constructor; [done|].
  eapply Forall_impl; [done|]. intros y Hy. apply nid_le_lt_eq. by left.
Qed.

Lemma sorted_lt_NoDup (l : list I) : StronglySorted nid_lt l → NoDup l.
Proof.
  induction 1 as [|x l Hs IH Hall]; constructor; [|done].
  rewrite Forall_forall in Hall. intros Hx. by apply (nid_lt_irrefl x), Hall.
Qed.

(** The iterator of a set built from an ascending list is that list. *)
Lemma btree_iter_list_to_set (l : list I) :
  StronglySorted nid_lt l → btree_iter (list_to_set l) = l.
Proof.
  intros Hs. apply (StronglySorted_unique nid_le).
  - apply sorted_lt_le, btree_iter_sorted.
  - by apply sorted_lt_le.
  - apply NoDup_Permutation; [apply NoDup_btree_iter|by apply sorted_lt_NoDup|].
    intros x. by rewrite elem_of_btree_iter, elem_of_list_to_set.
Qed.
End node_id.
