(* ===== verification/Bytes.v ===== *)
(** * Bytes

    Byte strings ([Vec<u8>], [bytes::Bytes], [&\[u8\]]) as lists of bytes, and
    the fixed-width integer layouts of the Rust standard library that the
    sources use: [uN::to_le_bytes] / [from_le_bytes] and the big-endian pair.
    The width is a number of bytes: 2 for [u16], 4 for [u32], 8 for [u64]. *)

From Stdlib Require Export Strings.Byte.
From S2P Require Import Prelude.

Abbreviation bytes := (list byte) (only parsing).

#[global] Instance byte_eq_decision : EqDecision byte := Byte.byte_eq_dec.
#[global] Program Instance byte_countable : Countable byte :=
  inj_countable Byte.to_N Byte.of_N _.
Next Obligation. intros b. apply Byte.of_to_N. Qed.

(** The value of a byte, and the low byte of a number ([x as u8]). *)
Definition byte_val (b : byte) : N := Byte.to_N b.
Definition low_byte (n : N) : byte := default x00 (Byte.of_N (n mod 256)).

Lemma byte_val_lt b : byte_val b < 256.
Proof. pose proof (Byte.to_N_bounded b). unfold byte_val. lia. Qed.

Lemma byte_val_low n : byte_val (low_byte n) = n mod 256.
Proof.
  unfold byte_val, low_byte.
  pose proof (N.mod_lt n 256 ltac:(done)) as Hlt.
  destruct (Byte.of_N (n mod 256)) as [b|] eqn:E; simpl.
  - by apply Byte.to_of_N.
  - apply Byte.of_N_None_iff in E. lia.
Qed.

Lemma low_byte_val b : low_byte (byte_val b) = b.
Proof.
  unfold low_byte. pose proof (byte_val_lt b). rewrite N.mod_small by done.
  unfold byte_val. by rewrite Byte.of_to_N.
Qed.

#[global] Instance byte_val_inj : Inj (=) (=) byte_val.
Proof. intros a b E. by rewrite <- (low_byte_val a), E, low_byte_val. Qed.

(** ** The order of byte strings

    [Ord] of [\[u8\]] is lexicographic. *)

Fixpoint bytes_cmp (a b : bytes) : comparison :=
  match a, b with
  | [], [] => Eq
  | [], _ => Lt
  | _, [] => Gt
  | x :: a, y :: b =>
      match byte_val x ?= byte_val y with Eq => bytes_cmp a b | c => c end
  end.

Lemma bytes_cmp_eq a b : bytes_cmp a b = Eq ↔ a = b.
Proof.
  revert b. induction a as [|x a IH]; intros [|y b]; simpl; try done.
  destruct (byte_val x ?= byte_val y) eqn:E; [|split; [done|intros [= -> _]; by rewrite N.compare_refl in E]..].
  apply N.compare_eq_iff in E. apply (inj byte_val) in E as ->. rewrite IH. naive_solver.
Qed.

Lemma bytes_cmp_opp a b : bytes_cmp b a = CompOpp (bytes_cmp a b).
Proof.
  revert b. induction a as [|x a IH]; intros [|y b]; simpl; try done.
  rewrite (N.compare_antisym (byte_val x)). by destruct (_ ?= _); simpl.
Qed.

Lemma bytes_cmp_trans a b c : bytes_cmp a b = Lt → bytes_cmp b c = Lt → bytes_cmp a c = Lt.
Proof.
  revert b c. induction a as [|x a IH]; intros [|y b] [|z c]; simpl; try done.
  destruct (byte_val x ?= byte_val y) eqn:E1; try done;
    destruct (byte_val y ?= byte_val z) eqn:E2; try done.
  - apply N.compare_eq_iff in E1, E2. rewrite E1, E2, N.compare_refl. apply IH.
  - apply N.compare_eq_iff in E1. rewrite E1, E2. done.
  - apply N.compare_eq_iff in E2. rewrite <- E2, E1. done.
  - rewrite N.compare_lt_iff in E1, E2. pose proof (N.lt_trans _ _ _ E1 E2) as E.
    by rewrite <- N.compare_lt_iff in E; rewrite E.
Qed.

(** Byte strings as ordered keys. *)
Definition bytes_order : NodeId (list byte) :=
  {| nid_cmp := bytes_cmp; nid_cmp_eq := bytes_cmp_eq; nid_cmp_opp := bytes_cmp_opp;
     nid_cmp_trans := bytes_cmp_trans |}.

(** ** Little endian *)

Fixpoint to_le_bytes (w : nat) (n : N) : bytes :=
  match w with
  | O => []
  | S w => low_byte n :: to_le_bytes w (n / 256)
  end.

Fixpoint from_le_bytes (bs : bytes) : N :=
  match bs with
  | [] => 0
  | b :: bs => byte_val b + 256 * from_le_bytes bs
  end.

Lemma length_to_le_bytes w n : length (to_le_bytes w n) = w.
Proof. revert n. induction w as [|w IH]; intros n; simpl; [done|]. by rewrite IH. Qed.

Lemma from_to_le_bytes w n : from_le_bytes (to_le_bytes w n) = n mod 256 ^ N.of_nat w.
Proof.
  revert n. induction w as [|w IH]; intros n; simpl.
  - by rewrite N.mod_1_r.
  - rewrite byte_val_low, IH, Nat2N.inj_succ, N.pow_succ_r'.
    by rewrite N.Div0.mod_mul_r.
Qed.

Lemma from_le_bytes_bound bs : from_le_bytes bs < 256 ^ N.of_nat (length bs).
Proof.
  induction bs as [|b bs IH]; simpl; [done|].
  rewrite Nat2N.inj_succ, N.pow_succ_r'. pose proof (byte_val_lt b). nia.
Qed.

Lemma to_from_le_bytes bs : to_le_bytes (length bs) (from_le_bytes bs) = bs.
Proof.
  induction bs as [|b bs IH]; simpl; [done|].
  pose proof (byte_val_lt b) as Hb. f_equal.
  - rewrite <- (low_byte_val b) at 2. unfold low_byte. do 2 f_equal.
    rewrite N.mul_comm, N.Div0.mod_add. done.
  - etrans; [|exact IH]. f_equal.
    rewrite N.mul_comm, N.div_add, N.div_small by done. lia.
Qed.

(** ** Big endian *)

Definition to_be_bytes (w : nat) (n : N) : bytes := reverse (to_le_bytes w n).
Definition from_be_bytes (bs : bytes) : N := from_le_bytes (reverse bs).

Lemma length_to_be_bytes w n : length (to_be_bytes w n) = w.
Proof. unfold to_be_bytes. by rewrite length_reverse, length_to_le_bytes. Qed.

Lemma from_to_be_bytes w n : from_be_bytes (to_be_bytes w n) = n mod 256 ^ N.of_nat w.
Proof. unfold from_be_bytes, to_be_bytes. by rewrite reverse_involutive, from_to_le_bytes. Qed.

Lemma to_from_be_bytes bs : to_be_bytes (length bs) (from_be_bytes bs) = bs.
Proof.
  unfold from_be_bytes, to_be_bytes.
  by rewrite <- length_reverse, to_from_le_bytes, reverse_involutive.
Qed.

Lemma from_be_bytes_bound bs : from_be_bytes bs < 256 ^ N.of_nat (length bs).
Proof. unfold from_be_bytes. rewrite <- length_reverse. apply from_le_bytes_bound. Qed.

Lemma to_be_bytes_inj w m n :
  m < 256 ^ N.of_nat w → n < 256 ^ N.of_nat w →
  to_be_bytes w m = to_be_bytes w n → m = n.
Proof.
  intros Hm Hn E. apply (f_equal from_be_bytes) in E.
  rewrite !from_to_be_bytes, !N.mod_small in E; done.
Qed.

(** The [u64] instances of the two round trips. *)
Lemma is_u64_pow n : is_u64 n ↔ n < 256 ^ N.of_nat 8.
Proof. change (256 ^ N.of_nat 8) with u64_mod. u64_lia. Qed.

Lemma from_to_le_u64 n : is_u64 n → from_le_bytes (to_le_bytes 8 n) = n.
Proof. intros ?%is_u64_pow. by rewrite from_to_le_bytes, N.mod_small. Qed.

Lemma from_to_be_u64 n : is_u64 n → from_be_bytes (to_be_bytes 8 n) = n.
Proof. intros ?%is_u64_pow. by rewrite from_to_be_bytes, N.mod_small. Qed.

Create Rewrite HintDb sailing_len.
#[export] Hint Rewrite length_to_le_bytes length_to_be_bytes @length_app @length_cons
  @length_take @length_drop @length_replicate : sailing_len.

(** Compute the length of a byte string built from known pieces. *)
Ltac solve_len := autorewrite with sailing_len in *; simpl in *; lia.

#[global] Arguments to_le_bytes : simpl never.
#[global] Arguments from_le_bytes : simpl never.
