(* ===== verification/Num.v ===== *)
(** * Counters, operation ids and clocks

    - [Term] and [Index]: the [#\[repr(transparent)\]] [u64] counters of
      [sailing-proto/src/num.rs] (one macro instantiated twice);
    - [OpId]: the epoch-major storage correlation id of
      [sailing-proto/src/storage.rs];
    - [Duration], [Instant], [Wall], [Now]: [sailing-proto/src/time.rs] on top
      of [core::time::Duration]. *)

From S2P Require Import Prelude.

(** ** [Term] and [Index] *)

Abbreviation Term := N (only parsing).
Abbreviation Index := N (only parsing).

Definition counter_next (v : u64) : u64 := saturating_add v 1.

Definition counter_checked_next (v : u64) : option u64 :=
  match checked_add v 1 with
  | Some v => Some v
  | None => None
  end.

Lemma counter_next_lt v : v < u64_max → counter_next v = v + 1.
Proof. unfold counter_next. u64_lia. Qed.

Lemma counter_next_max v : u64_max ≤ v → counter_next v = u64_max.
Proof. unfold counter_next. u64_lia. Qed.

Lemma counter_next_u64 v : is_u64 (counter_next v).
Proof. apply saturating_add_u64. Qed.

Lemma counter_next_ge v : is_u64 v → v ≤ counter_next v.
Proof. apply saturating_add_le. Qed.

Lemma counter_next_mono v w : v ≤ w → counter_next v ≤ counter_next w.
Proof. unfold counter_next. u64_lia. Qed.

(** [next()] returns its argument exactly at the ceiling. *)
Lemma counter_next_fix v : is_u64 v → counter_next v = v ↔ v = u64_max.
Proof. unfold counter_next. u64_lia. Qed.

Lemma counter_checked_next_Some v w :
  counter_checked_next v = Some w ↔ w = v + 1 ∧ v < u64_max.
Proof.
  unfold counter_checked_next.
  destruct (checked_add v 1) as [c|] eqn:E.
  - apply checked_add_Some in E as [-> ?]. split; [intros [= <-]|intros [-> ?]]; [|done]. lia.
  - unfold checked_add in E. case_decide; [done|]. split; [done|lia].
Qed.

#[export] Hint Resolve counter_next_u64 counter_next_ge counter_next_mono : sailing.

(** ** [OpId] *)

Record OpId := { opid_epoch : u64; opid_seq : u64 }.

#[global] Instance OpId_eq_dec : EqDecision OpId.
Proof. solve_decision. Defined.

Definition OpId_ZERO : OpId := {| opid_epoch := 0; opid_seq := 0 |}.
Definition OpId_new (v : u64) : OpId := {| opid_epoch := 0; opid_seq := v |}.
Definition OpId_first_of_epoch (epoch : u64) : OpId := {| opid_epoch := epoch; opid_seq := 0 |}.
Definition OpId_next (o : OpId) : OpId :=
  {| opid_epoch := opid_epoch o; opid_seq := saturating_add (opid_seq o) 1 |}.

(** The derived [Ord]: lexicographic, the epoch first. *)
Definition OpId_ltb (a b : OpId) : bool :=
  (opid_epoch a <? opid_epoch b)
  || ((opid_epoch a =? opid_epoch b) && (opid_seq a <? opid_seq b)).

Definition OpId_leb (a b : OpId) : bool := negb (OpId_ltb b a).

Lemma OpId_ltb_lt a b :
  OpId_ltb a b = true ↔
  opid_epoch a < opid_epoch b ∨ opid_epoch a = opid_epoch b ∧ opid_seq a < opid_seq b.
Proof.
  unfold OpId_ltb.
  rewrite orb_true_iff, andb_true_iff, !N.ltb_lt, N.eqb_eq. done.
Qed.

Lemma OpId_leb_le a b :
  OpId_leb a b = true ↔
  opid_epoch a < opid_epoch b ∨ opid_epoch a = opid_epoch b ∧ opid_seq a ≤ opid_seq b.
Proof.
  unfold OpId_leb. rewrite negb_true_iff, <- not_true_iff_false, OpId_ltb_lt. lia.
Qed.

Lemma saturating_succ_or n : is_u64 n → saturating_add n 1 = n ∨ n < saturating_add n 1.
Proof. intros. u64_lia. Qed.

Lemma OpId_next_ltb o :
  is_u64 (opid_seq o) → OpId_next o ≠ o → OpId_ltb o (OpId_next o) = true.
Proof.
  destruct o as [ep sq]. unfold OpId_next. rewrite OpId_ltb_lt. cbn [opid_epoch opid_seq].
  intros Hu Hn. destruct (saturating_succ_or sq Hu) as [Hs|]; [|by right].
  destruct Hn. by rewrite Hs.
Qed.

Lemma OpId_ltb_trans a b c :
  OpId_ltb a b = true → OpId_ltb b c = true → OpId_ltb a c = true.
Proof. rewrite !OpId_ltb_lt. lia. Qed.

(** ** Durations and instants

    A [core::time::Duration] is its number of nanoseconds; the type holds
    [u64::MAX] seconds and 999,999,999 nanoseconds at most. *)

Abbreviation Duration := N (only parsing).
Definition Duration_MAX : N := u64_max * 1000000000 + 999999999.
Definition is_duration (d : N) : Prop := d ≤ Duration_MAX.

(** [Duration::saturating_add] / [saturating_sub]; [d1 + d2], which panics on
    overflow, is [Duration_add]. *)
Definition Duration_saturating_add (a b : Duration) : Duration := N.min (a + b) Duration_MAX.
Definition Duration_saturating_sub (a b : Duration) : Duration := a - b.
Definition Duration_add (a b : Duration) : option Duration :=
  if decide (a + b ≤ Duration_MAX) then Some (a + b) else None.
Definition Duration_as_millis (d : Duration) : N := d / 1000000.
Definition Duration_from_millis (ms : u64) : Duration := ms * 1000000.

Abbreviation Instant := N (only parsing).
Definition Instant_ORIGIN : Instant := 0.
Definition Instant_duration_since (self earlier : Instant) : Duration :=
  Duration_saturating_sub self earlier.
Definition Instant_add (self : Instant) (d : Duration) : Instant :=
  Duration_saturating_add self d.

Abbreviation Wall := N (only parsing).
Definition Wall_ABSENT : Wall := 0.
Definition Wall_is_absent (w : Wall) : bool := w =? 0.

Record Now := { now_mono : Instant; now_wall : Wall }.
Definition Now_monotonic (mono : Instant) : Now := {| now_mono := mono; now_wall := Wall_ABSENT |}.
Definition Now_synchronized (mono : Instant) (wall : Wall) : Now :=
  {| now_mono := mono; now_wall := wall |}.

Lemma Instant_add_ge t d : is_duration t → t ≤ Instant_add t d.
Proof. unfold Instant_add, Duration_saturating_add, is_duration. lia. Qed.

(** Elapsed time undoes addition unless the instant saturated. *)
Lemma Instant_since_add t d :
  t + d ≤ Duration_MAX → Instant_duration_since (Instant_add t d) t = d.
Proof.
  unfold Instant_duration_since, Instant_add, Duration_saturating_add, Duration_saturating_sub.
  lia.
Qed.
