(* ===== verification/Quorum.v ===== *)
(** * Majority and joint quorums

    [sailing-proto/src/quorum/mod.rs]: the two decisions every Raft safety
    argument rests on, the committed index and the vote tally, for a single
    voter set ([MajorityConfig]) and for the two halves of a joint
    configuration ([JointConfig]).

    The specification of a quorum is [majority]: more than half of the members
    satisfy a predicate.  The theorems say that [committed_index] is exactly the
    largest index a quorum has acknowledged, that the three vote results are
    exactly "won whatever comes", "can no longer be won" and "still open", and
    that any two quorums of one configuration intersect. *)

From S2P Require Import Prelude Num.

Inductive VoteResult := Won | Lost | VotePending.

#[global] Instance VoteResult_eq_dec : EqDecision VoteResult.
Proof. solve_decision. Defined.

(** The derived [is_won]. *)
Definition VoteResult_is_won (r : VoteResult) : bool :=
  match r with Won => true | _ => false end.

(** [slice::select_nth_unstable(pos)] followed by reading [s\[pos\]]: the element
    a full sort would place at [pos].  The standard library panics when [pos]
    is out of range; [select_nth_in_range] shows the callers never are. *)
Definition select_nth (pos : nat) (s : list u64) : option u64 :=
  merge_sort N.le s !! pos.

Section quorum.
Context {I : Type} `{!NodeId I}.

Record MajorityConfig := { mc_ids : gset I }.

Definition MajorityConfig_new (ids : gset I) : MajorityConfig := {| mc_ids := ids |}.
Definition MajorityConfig_len (c : MajorityConfig) : nat := size (mc_ids c).
Definition MajorityConfig_is_empty (c : MajorityConfig) : bool := bool_decide (mc_ids c = ∅).
Definition MajorityConfig_contains (c : MajorityConfig) (id : I) : bool :=
  bool_decide (id ∈ mc_ids c).

Definition STACK_CAP : nat := 16.

(** The stack buffer of a small cluster starts filled with [Index::ZERO] and
    its first [n] slots are overwritten; a larger cluster collects a [Vec]. *)
Definition committed_buf (ids : list I) (acked : I → Index) : list Index :=
  let n := length ids in
  if decide (n ≤ STACK_CAP)%nat then
    let buf := replicate STACK_CAP 0 in
    let buf := (acked <$> ids) ++ drop n buf in
    take n buf
  else acked <$> ids.

Definition MajorityConfig_committed_index (c : MajorityConfig) (acked : I → Index) : Index :=
  let n := MajorityConfig_len c in
  if decide (n = 0)%nat then u64_max
  else
    let pos := (n - (n / 2 + 1))%nat in
    default 0 (select_nth pos (committed_buf (btree_iter (mc_ids c)) acked)).

(** The tally loop: [grants] and [missing] after visiting the members. *)
Fixpoint tally (votes : I → option bool) (ids : list I) (grants missing : nat) : nat * nat :=
  match ids with
  | [] => (grants, missing)
  | id :: ids =>
      match votes id with
      | Some true => tally votes ids (grants + 1) missing
      | Some false => tally votes ids grants missing
      | None => tally votes ids grants (missing + 1)
      end
  end.

Definition MajorityConfig_vote_result (c : MajorityConfig) (votes : I → option bool) : VoteResult :=
  if MajorityConfig_is_empty c then Won
  else
    let '(grants, missing) := tally votes (btree_iter (mc_ids c)) 0 0 in
    let q := (MajorityConfig_len c / 2 + 1)%nat in
    if decide (q ≤ grants)%nat then Won
    else if decide (q ≤ grants + missing)%nat then VotePending
    else Lost.

Record JointConfig := { jc_incoming : MajorityConfig; jc_outgoing : MajorityConfig }.

Definition JointConfig_new (incoming outgoing : MajorityConfig) : JointConfig :=
  {| jc_incoming := incoming; jc_outgoing := outgoing |}.

Definition JointConfig_from_voters (voters : gset I) : JointConfig :=
  {| jc_incoming := MajorityConfig_new voters; jc_outgoing := MajorityConfig_new ∅ |}.

Definition JointConfig_ids (c : JointConfig) : gset I :=
  list_to_set (btree_iter (mc_ids (jc_incoming c)) ++ btree_iter (mc_ids (jc_outgoing c))).

Definition JointConfig_committed_index (c : JointConfig) (acked : I → Index) : Index :=
  N.min (MajorityConfig_committed_index (jc_incoming c) acked)
        (MajorityConfig_committed_index (jc_outgoing c) acked).

Definition JointConfig_vote_result (c : JointConfig) (votes : I → option bool) : VoteResult :=
  let r1 := MajorityConfig_vote_result (jc_incoming c) votes in
  let r2 := MajorityConfig_vote_result (jc_outgoing c) votes in
  if decide (r1 = r2) then r1
  else if decide (r1 = Lost ∨ r2 = Lost) then Lost
  else VotePending.

(** ** Specification *)

(** A quorum of [ids] satisfies [p]: a strict majority, vacuous on no ids. *)
Definition majority (ids : gset I) (p : I → bool) : Prop :=
  ids = ∅ ∨ (size ids / 2 < countb p (elements ids))%nat.

#[global] Instance majority_dec ids p : Decision (majority ids p) := _.

Definition joint_majority (c : JointConfig) (p : I → bool) : Prop :=
  majority (mc_ids (jc_incoming c)) p ∧ majority (mc_ids (jc_outgoing c)) p.

(** [votes'] knows at least the ballots of [votes]. *)
Definition ballots_extend (votes votes' : I → option bool) : Prop :=
  ∀ id b, votes id = Some b → votes' id = Some b.

Definition granted (votes : I → option bool) (id : I) : bool :=
  match votes id with Some b => b | None => false end.

Definition not_rejected (votes : I → option bool) (id : I) : bool :=
  match votes id with Some b => b | None => true end.

(** ** Quorum intersection *)

Lemma majority_intersect ids p q :
  ids ≠ ∅ → majority ids p → majority ids q →
  ∃ id, id ∈ ids ∧ p id = true ∧ q id = true.
Proof.
  intros Hne [?|Hp] [?|Hq]; try done.
  destruct (countb_pigeonhole p q (elements ids)) as (x & Hx & ?).
  - change (length (elements ids)) with (size ids).
    pose proof (Nat.div_mod_eq (size ids) 2).
    pose proof (Nat.mod_upper_bound (size ids) 2). lia.
  - exists x. by rewrite elem_of_elements in Hx.
Qed.

Lemma majority_mono ids p q :
  (∀ id, id ∈ ids → p id = true → q id = true) → majority ids p → majority ids q.
Proof.
  intros H [?|Hp]; [by left|right]. eapply Nat.lt_le_trans; [done|].
  apply countb_mono. intros x. rewrite elem_of_elements. auto.
Qed.

(** ** The committed index of one voter set *)

Lemma committed_buf_eq ids acked : committed_buf ids acked = acked <$> ids.
Proof.
  unfold committed_buf. case_decide; [|done].
  by rewrite take_app_length' by by rewrite length_fmap.
Qed.

Lemma select_nth_in_range pos s :
  (pos < length s)%nat → is_Some (select_nth pos s).
Proof. intros. apply lookup_lt_is_Some. by rewrite merge_sort_Permutation. Qed.

(** The element a sort places at [pos] is at least [m] exactly when more
    than [length s - pos - 1] elements are. *)
Lemma select_nth_ge pos s v m :
  select_nth pos s = Some v →
  m ≤ v ↔ (length s - pos ≤ countb (N.leb m) s)%nat.
Proof.
  unfold select_nth. intros Hv.
  assert (Sorted N.le (merge_sort N.le s)) as Hs
    by (apply Sorted_merge_sort; intros ??; lia).
  apply (Sorted_StronglySorted N.le) in Hs.
  rewrite <- (merge_sort_Permutation N.le s).
  set (l := merge_sort N.le s) in *.
  pose proof (take_drop_middle _ _ _ Hv) as Hl.
  pose proof (lookup_lt_Some _ _ _ Hv) as Hlt.
  assert (length (take pos l) = pos) as Htk by (rewrite length_take; lia).
  rewrite <- Hl in Hs. apply StronglySorted_app in Hs as (Hlo & _ & Hhi).
  apply StronglySorted_cons in Hhi as [Hhi _]. rewrite Forall_forall in Hhi.
  assert (countb (N.leb m) l
    = countb (N.leb m) (take pos l) + countb (N.leb m) (v :: drop (S pos) l))%nat
    as -> by by rewrite <- countb_app, Hl.
  assert (length (v :: drop (S pos) l) = length l - pos)%nat as Hdr
    by (simpl; rewrite length_drop; lia).
  split; intros Hm.
  - rewrite (countb_all _ (v :: _)); [lia|].
    intros x [->|Hx]%elem_of_cons; apply N.leb_le; [done|].
    specialize (Hhi x Hx). lia.
  - destruct (decide (m ≤ v)) as [|Hn]; [done|exfalso].
    rewrite (countb_none _ (take pos l)) in Hm.
    2:{ intros x Hx. apply N.leb_gt. specialize (Hlo x v Hx ltac:(set_solver)). lia. }
    simpl in Hm. rewrite (proj2 (N.leb_gt m v)) in Hm by lia.
    pose proof (countb_le_length (N.leb m) (drop (S pos) l)). simpl in Hdr. lia.
Qed.

Lemma majority_committed_index_spec c acked m :
  is_u64 m →
  m ≤ MajorityConfig_committed_index c acked ↔ majority (mc_ids c) (λ id, m <=? acked id).
Proof.
  intros Hm. unfold MajorityConfig_committed_index, MajorityConfig_len, majority.
  case_decide as Hn.
  { apply size_empty_inv in Hn. apply leibniz_equiv in Hn. split; [by left|done]. }
  set (n := size (mc_ids c)) in *.
  rewrite committed_buf_eq.
  set (s := acked <$> btree_iter (mc_ids c)).
  assert (length s = n) as Hs by (by unfold s; rewrite length_fmap, length_btree_iter).
  pose proof (Nat.div_mod_eq n 2) as Hd. pose proof (Nat.mod_upper_bound n 2) as Hd2.
  destruct (select_nth_in_range (n - (n / 2 + 1)) s) as [v Hv]; [lia|].
  rewrite Hv. change (default 0 (Some v)) with v. rewrite (select_nth_ge _ _ _ _ Hv), Hs.
  unfold s. rewrite countb_fmap, btree_iter_elements.
  assert (mc_ids c ≠ ∅) as Hne by (intros E; apply Hn; unfold n; by rewrite E).
  split; [intros; right|intros [?|?]; [done|]]; lia.
Qed.

Lemma majority_committed_index_u64 c acked :
  (∀ id, is_u64 (acked id)) → is_u64 (MajorityConfig_committed_index c acked).
Proof.
  intros Ha. unfold MajorityConfig_committed_index. case_decide; [done|].
  destruct (select_nth _ _) as [v|] eqn:E; simpl; [|done].
  apply list_elem_of_lookup_2 in E. rewrite merge_sort_Permutation, committed_buf_eq in E.
  apply list_elem_of_fmap in E as (y & -> & _). apply Ha.
Qed.

(** ** The vote tally of one voter set *)

Lemma tally_spec votes ids g k :
  tally votes ids g k =
    (g + countb (granted votes) ids,
     k + countb (λ id, bool_decide (votes id = None)) ids)%nat.
Proof.
  revert g k. induction ids as [|id ids IH]; intros g k; simpl; [f_equal; lia|].
  unfold granted at 1.
  destruct (votes id) as [[]|]; simpl; rewrite IH; f_equal; lia.
Qed.

Lemma granted_missing votes ids :
  (countb (granted votes) ids + countb (λ id, bool_decide (votes id = None)) ids
   = countb (not_rejected votes) ids)%nat.
Proof.
  induction ids as [|id ids IH]; simpl; [done|].
  unfold granted at 1, not_rejected at 1.
  destruct (votes id) as [[]|]; simpl; lia.
Qed.

Lemma majority_vote_result_spec c votes :
  MajorityConfig_vote_result c votes =
    if decide (majority (mc_ids c) (granted votes)) then Won
    else if decide (majority (mc_ids c) (not_rejected votes)) then VotePending
    else Lost.
Proof.
  unfold MajorityConfig_vote_result, MajorityConfig_is_empty, MajorityConfig_len, majority.
  case_bool_decide as He; [by rewrite (decide_True _ _ (or_introl He))|].
  rewrite tally_spec, !(countb_Permutation _ _ _ (btree_iter_elements _)). cbn [Nat.add].
  rewrite granted_missing.
  repeat case_decide; try done; exfalso; naive_solver lia.
Qed.

Lemma not_rejected_granted votes votes' id :
  ballots_extend votes votes' → granted votes' id = true → not_rejected votes id = true.
Proof.
  unfold ballots_extend, granted, not_rejected. intros He.
  destruct (votes id) as [b|] eqn:E; [|done]. by rewrite (He _ _ E).
Qed.

Lemma granted_extend votes votes' id :
  ballots_extend votes votes' → granted votes id = true → granted votes' id = true.
Proof.
  unfold ballots_extend, granted. intros He.
  destruct (votes id) as [b|] eqn:E; [|done]. by rewrite (He _ _ E).
Qed.

(** Every open ballot granted: the best case of a tally. *)
Definition grant_rest (votes : I → option bool) (id : I) : option bool :=
  Some (not_rejected votes id).

Lemma grant_rest_extend votes : ballots_extend votes (grant_rest votes).
Proof. unfold grant_rest, not_rejected. intros id b E. by rewrite E. Qed.

(** ** The joint decisions *)

Lemma joint_vote_won c votes :
  JointConfig_vote_result c votes = Won ↔ joint_majority c (granted votes).
Proof.
  unfold JointConfig_vote_result, joint_majority. rewrite !majority_vote_result_spec.
  repeat case_decide; naive_solver.
Qed.

Lemma joint_vote_lost c votes :
  JointConfig_vote_result c votes = Lost ↔ ¬ joint_majority c (not_rejected votes).
Proof.
  assert (∀ ids, majority ids (granted votes) → majority ids (not_rejected votes)) as Hi.
  { intros ids. apply majority_mono. intros id _.
    unfold granted, not_rejected. by destruct (votes id). }
  unfold JointConfig_vote_result, joint_majority. rewrite !majority_vote_result_spec.
  pose proof (Hi (mc_ids (jc_incoming c))). pose proof (Hi (mc_ids (jc_outgoing c))).
  repeat case_decide; naive_solver.
Qed.

Lemma joint_majority_mono c p q :
  (∀ id, p id = true → q id = true) → joint_majority c p → joint_majority c q.
Proof. intros H [H1 H2]. split; (eapply majority_mono; [|done]); auto. Qed.

Lemma joint_majority_intersect c p q :
  mc_ids (jc_incoming c) ≠ ∅ → joint_majority c p → joint_majority c q →
  ∃ id, id ∈ mc_ids (jc_incoming c) ∧ p id = true ∧ q id = true.
Proof. intros Hne [? _] [? _]. by apply majority_intersect. Qed.

Lemma JointConfig_ids_spec c :
  JointConfig_ids c = mc_ids (jc_incoming c) ∪ mc_ids (jc_outgoing c).
Proof.
  unfold JointConfig_ids. apply leibniz_equiv. intros id.
  rewrite elem_of_list_to_set, elem_of_app, !elem_of_btree_iter. set_solver.
Qed.

Lemma joint_committed_index_le c acked m :
  is_u64 m →
  m ≤ JointConfig_committed_index c acked ↔ joint_majority c (λ id, m <=? acked id).
Proof.
  intros Hm. unfold JointConfig_committed_index, joint_majority.
  by rewrite N.min_glb_iff, !majority_committed_index_spec.
Qed.

(** ** Properties *)

(** C20: the joint committed index is exactly the largest index that a quorum
    of the incoming voters and a quorum of the outgoing voters have both
    acknowledged: an index is at or below it if and only if both halves have
    a majority whose acknowledged index reaches it. *)
Theorem joint_committed_index_correct (c : JointConfig) (acked : I → Index) (m : Index)
  (Hm : is_u64 m) :
  m ≤ JointConfig_committed_index c acked ↔
  joint_majority c (λ id, m <=? acked id).
Proof. by apply joint_committed_index_le. Qed.

(** C21: quorum intersection between commit and election. If an index is at or
    below the joint committed index of the voters' acknowledgements, then
    every candidate that wins the joint vote was granted a ballot by some
    incoming voter that had acknowledged the index: the voter that carries a
    committed entry into the next leader's election. *)
Theorem commit_vote_intersect (c : JointConfig) (acked : I → Index)
  (votes : I → option bool) (m : Index)
  (Hne : mc_ids (jc_incoming c) ≠ ∅) (Hm : is_u64 m)
  (Hcommit : m ≤ JointConfig_committed_index c acked)
  (Hwon : JointConfig_vote_result c votes = Won) :
  ∃ id, id ∈ mc_ids (jc_incoming c) ∧ m ≤ acked id ∧ votes id = Some true.
Proof.
  apply joint_committed_index_le in Hcommit; [|done]. apply joint_vote_won in Hwon.
  destruct (joint_majority_intersect c _ _ Hne Hcommit Hwon) as (id & Hid & Ha & Hv).
  exists id. split; [done|]. apply N.leb_le in Ha. split; [done|].
  unfold granted in Hv. by destruct (votes id) as [[]|].
Qed.

(** The joint vote result is decisive and stable. [Won] holds in every
    tally that extends the ballots known so far; [Lost] means that no such
    extension is [Won]; [VotePending] means that some extension is [Won] but
    the present ballots are not. *)
Theorem joint_vote_result_decisive (c : JointConfig) (votes : I → option bool) :
  match JointConfig_vote_result c votes with
  | Won => ∀ votes', ballots_extend votes votes' → JointConfig_vote_result c votes' = Won
  | Lost => ∀ votes', ballots_extend votes votes' → JointConfig_vote_result c votes' ≠ Won
  | VotePending =>
      (∃ votes', ballots_extend votes votes' ∧ JointConfig_vote_result c votes' = Won)
      ∧ ¬ joint_majority c (granted votes)
  end.
Proof.
  pose proof (joint_vote_won c votes) as Hw. pose proof (joint_vote_lost c votes) as Hl.
  destruct (JointConfig_vote_result c votes).
  - intros votes' He. apply joint_vote_won.
    eapply joint_majority_mono; [|by apply Hw]. intros id. by apply granted_extend.
  - intros votes' He Hw'. apply (proj1 Hl); [done|].
    apply joint_vote_won in Hw'. eapply joint_majority_mono; [|done].
    intros id. by apply not_rejected_granted.
  - split; [|by intros ?%Hw]. exists (grant_rest votes).
    split; [apply grant_rest_extend|]. apply joint_vote_won.
    destruct (decide (majority (mc_ids (jc_incoming c)) (not_rejected votes)
      ∧ majority (mc_ids (jc_outgoing c)) (not_rejected votes))) as [Hj|Hj]; [done|].
    by apply Hl in Hj.
Qed.
End quorum.

Arguments MajorityConfig I {_}.
Arguments JointConfig I {_}.

(** ** Witnesses *)

Definition five_voters : JointConfig N :=
  JointConfig_new (MajorityConfig_new (list_to_set [1; 2; 3; 4; 5]))
                  (MajorityConfig_new (list_to_set [1; 2; 3])).

Definition five_acked (id : N) : Index :=
  match id with 1 => 9 | 2 => 7 | 3 => 5 | 4 => 8 | _ => 0 end.

Definition five_votes (id : N) : option bool :=
  match id with 1 => None | 4 => Some false | _ => Some true end.

Example five_committed : JointConfig_committed_index five_voters five_acked = 7.
Proof. vm_compute. reflexivity. Qed.

Lemma joint_committed_index_correct_witness :
  7 ≤ JointConfig_committed_index five_voters five_acked ↔
  joint_majority five_voters (λ id, 7 <=? five_acked id).
Proof. apply (joint_committed_index_correct five_voters five_acked 7). vm_compute. discriminate. Defined.

Lemma commit_vote_intersect_witness :
  ∃ id : N, id ∈ mc_ids (jc_incoming five_voters) ∧ 7 ≤ five_acked id ∧ five_votes id = Some true.
Proof.
  apply (commit_vote_intersect five_voters five_acked five_votes 7).
  - intros E. apply (f_equal size) in E. vm_compute in E. discriminate.
  - vm_compute. discriminate.
  - vm_compute. discriminate.
  - vm_compute. reflexivity.
Defined.
