(* ===== verification/Inflights.v ===== *)
(** * The in-flight window of one peer

    [sailing-proto/src/inflights.rs]: the [AppendEntries] messages sent to a
    peer and not yet acknowledged, capped by message count and by total bytes.
    The byte counter is a [u64] updated with [+=] and [-=]; the model writes
    the release-profile wrap-around out, and the theorems show that it tracks
    the queue exactly and never needs to wrap while the total fits. *)

From S2P Require Import Prelude Num.

Record Inflights := {
  infl_inflight : list (Index * u64);
  infl_max_msgs : nat;
  infl_max_bytes : u64;
  infl_bytes : u64;
}.

Definition Inflights_new (max_msgs : nat) (max_bytes : u64) : Inflights :=
  {| infl_inflight := []; infl_max_msgs := max_msgs; infl_max_bytes := max_bytes;
     infl_bytes := 0 |}.

Definition Inflights_full (f : Inflights) : bool :=
  (infl_max_msgs f <=? length (infl_inflight f))%nat
  || (negb (infl_max_bytes f =? 0) && (infl_max_bytes f <=? infl_bytes f)).

Definition Inflights_add (index : Index) (bytes : u64) (f : Inflights) : Inflights :=
  {| infl_inflight := infl_inflight f ++ [(index, bytes)];
     infl_max_msgs := infl_max_msgs f; infl_max_bytes := infl_max_bytes f;
     infl_bytes := wrapping_add (infl_bytes f) bytes |}.

(** The [while let Some(&(idx, b)) = front()] loop of [free_le]. *)
Fixpoint free_le_loop (to : Index) (q : list (Index * u64)) (bytes : u64)
  : list (Index * u64) * u64 :=
  match q with
  | (idx, b) :: q' =>
      if decide (to < idx) then (q, bytes)
      else free_le_loop to q' (wrapping_sub bytes b)
  | [] => ([], bytes)
  end.

Definition Inflights_free_le (to : Index) (f : Inflights) : Inflights :=
  let '(q, bytes) := free_le_loop to (infl_inflight f) (infl_bytes f) in
  {| infl_inflight := q; infl_max_msgs := infl_max_msgs f;
     infl_max_bytes := infl_max_bytes f; infl_bytes := bytes |}.

Definition Inflights_free_first_one (f : Inflights) : Inflights :=
  match infl_inflight f with
  | (_, b) :: q =>
      {| infl_inflight := q; infl_max_msgs := infl_max_msgs f;
         infl_max_bytes := infl_max_bytes f; infl_bytes := wrapping_sub (infl_bytes f) b |}
  | [] => f
  end.

Definition Inflights_reset (f : Inflights) : Inflights :=
  {| infl_inflight := []; infl_max_msgs := infl_max_msgs f;
     infl_max_bytes := infl_max_bytes f; infl_bytes := 0 |}.

(** ** Invariant *)

Fixpoint queue_bytes (q : list (Index * u64)) : N :=
  match q with [] => 0 | (_, b) :: q => b + queue_bytes q end.

(** Every size is a [u64] and the counter is the queue's total, modulo the
    width of the counter. *)
Definition Inflights_wf (f : Inflights) : Prop :=
  Forall (λ e, is_u64 e.2) (infl_inflight f)
  ∧ infl_bytes f = queue_bytes (infl_inflight f) mod u64_mod.

Lemma queue_bytes_app q1 q2 : queue_bytes (q1 ++ q2) = queue_bytes q1 + queue_bytes q2.
Proof. induction q1 as [|[i b] q1 IH]; simpl; lia. Qed.

Lemma is_u64_mod n : is_u64 n → n mod u64_mod = n.
Proof. intros. apply N.mod_small. u64_lia. Qed.

Lemma wrapping_sub_head b s : is_u64 b →
  wrapping_sub ((b + s) mod u64_mod) b = s mod u64_mod.
Proof.
  intros Hb. rewrite N.add_comm. pose proof (wrapping_sub_mod s b) as H.
  by rewrite (is_u64_mod b Hb) in H.
Qed.

Lemma Inflights_new_wf m b : Inflights_wf (Inflights_new m b).
Proof. by split. Qed.

Lemma Inflights_add_wf i b f : is_u64 b → Inflights_wf f → Inflights_wf (Inflights_add i b f).
Proof.
  intros Hb [Hq Hs]. split; simpl.
  - apply Forall_app. auto.
  - rewrite queue_bytes_app, Hs. simpl. rewrite N.add_0_r.
    unfold wrapping_add. by rewrite N.Div0.add_mod_idemp_l.
Qed.

Lemma free_le_loop_wf to q s :
  Forall (λ e, is_u64 e.2) q → s = queue_bytes q mod u64_mod →
  let '(q', s') := free_le_loop to q s in
  Forall (λ e, is_u64 e.2) q' ∧ s' = queue_bytes q' mod u64_mod ∧ q' `suffix_of` q.
Proof.
  revert s. induction q as [|[i b] q IH]; intros s Hq Hs; simpl; [done|].
  case_decide; [split_and!; try done|].
  apply Forall_cons in Hq as [Hb Hq]. simpl in Hb, Hs.
  specialize (IH (wrapping_sub s b) Hq).
  destruct (free_le_loop to q (wrapping_sub s b)) as [q' s'].
  destruct IH as (? & ? & ?); [by rewrite Hs, wrapping_sub_head|].
  split_and!; try done. by apply suffix_cons_r.
Qed.

Lemma Inflights_free_le_wf to f : Inflights_wf f → Inflights_wf (Inflights_free_le to f).
Proof.
  intros [Hq Hs]. pose proof (free_le_loop_wf to _ _ Hq Hs) as H.
  unfold Inflights_free_le, Inflights_wf.
  destruct (free_le_loop to (infl_inflight f) (infl_bytes f)) as [q s]; simpl. naive_solver.
Qed.

Lemma Inflights_free_first_one_wf f : Inflights_wf f → Inflights_wf (Inflights_free_first_one f).
Proof.
  intros [Hq Hs]. unfold Inflights_free_first_one, Inflights_wf in *.
  destruct (infl_inflight f) as [|[i b] q] eqn:E; [by rewrite E|].
  apply Forall_cons in Hq as [Hb Hq]. simpl in *. split; [done|].
  by rewrite Hs, wrapping_sub_head.
Qed.

Lemma Inflights_reset_wf f : Inflights_wf (Inflights_reset f).
Proof. by split. Qed.

#[export] Hint Resolve Inflights_new_wf Inflights_add_wf Inflights_free_le_wf
  Inflights_free_first_one_wf Inflights_reset_wf : sailing.

(** On a queue of increasing indices the loop frees exactly the entries at or
    below [to]. *)
Lemma free_le_loop_filter to q s :
  StronglySorted N.lt q.*1 →
  (free_le_loop to q s).1 = filter (λ e, to < e.1) q.
Proof.
  revert s. induction q as [|[i b] q IH]; intros s Hs; simpl; [done|].
  apply StronglySorted_cons in Hs as [Hall Hs]. rewrite filter_cons. simpl.
  case_decide as Hi; [|by apply IH]. simpl.
  f_equal. symmetry. apply filter_all. rewrite Forall_forall in Hall.
  apply Forall_forall. intros [j c] Hj. simpl.
  assert (i < j) by (apply Hall; by apply (list_elem_of_fmap_2 fst) in Hj). lia.
Qed.

Lemma Inflights_free_le_suffix to f :
  infl_inflight (Inflights_free_le to f) `suffix_of` infl_inflight f.
Proof.
  unfold Inflights_free_le. generalize (infl_bytes f) as s.
  induction (infl_inflight f) as [|[i b] q IH]; intros s; simpl; [done|].
  case_decide; simpl; [done|]. apply suffix_cons_r, IH.
Qed.

Lemma Inflights_free_first_one_suffix f :
  infl_inflight (Inflights_free_first_one f) `suffix_of` infl_inflight f.
Proof.
  unfold Inflights_free_first_one. destruct (infl_inflight f) as [|[i b] q] eqn:E; simpl.
  - by rewrite E.
  - by apply suffix_cons_r.
Qed.

Lemma queue_bytes_suffix q1 q2 : q1 `suffix_of` q2 → queue_bytes q1 ≤ queue_bytes q2.
Proof. intros [k ->]. rewrite queue_bytes_app. lia. Qed.

(** ** Runs

    What the leader does with a window: it records a message only after
    [full] answered [false], and frees on acknowledgements, on heartbeat
    responses and on a progress reset.  [limit] bounds the bytes of one
    message. *)

Inductive window_step (limit : u64) : Inflights → Inflights → Prop :=
| ws_add f index bytes :
    Inflights_full f = false → bytes ≤ limit → window_step limit f (Inflights_add index bytes f)
| ws_free_le f to : window_step limit f (Inflights_free_le to f)
| ws_free_first f : window_step limit f (Inflights_free_first_one f)
| ws_reset f : window_step limit f (Inflights_reset f).

Definition same_caps (f g : Inflights) : Prop :=
  infl_max_msgs g = infl_max_msgs f ∧ infl_max_bytes g = infl_max_bytes f.

Lemma window_step_caps limit f g : window_step limit f g → same_caps f g.
Proof.
  intros [f' i b ? ?|f' to|f'|f']; unfold same_caps; try done.
  - unfold Inflights_free_le. by destruct (free_le_loop _ _ _).
  - unfold Inflights_free_first_one. by destruct (infl_inflight f') as [|[]].
Qed.

Lemma window_step_wf limit f g :
  is_u64 limit → window_step limit f g → Inflights_wf f → Inflights_wf g.
Proof. intros Hl [f' i b ? ?|f' to|f'|f'] Hwf; auto with sailing. apply Inflights_add_wf; [u64_lia|done]. Qed.

(** The bound the window enforces, and that the counter has not wrapped. *)
Definition window_bounded (limit : u64) (f : Inflights) : Prop :=
  (length (infl_inflight f) ≤ infl_max_msgs f)%nat
  ∧ (infl_max_bytes f ≠ 0 →
     queue_bytes (infl_inflight f) ≤ infl_max_bytes f + limit
     ∧ infl_bytes f = queue_bytes (infl_inflight f)).

(** Dropping a prefix keeps the bound. *)
Lemma window_bounded_suffix limit f g :
  Inflights_wf g → infl_max_bytes f + limit ≤ u64_max →
  infl_inflight g `suffix_of` infl_inflight f → same_caps f g →
  window_bounded limit f → window_bounded limit g.
Proof.
  intros [_ Hwf] Hcap Hq [Hm Hb] [H1 H2]. unfold window_bounded. rewrite Hm, Hb. split.
  - apply suffix_length in Hq. lia.
  - intros Hne. apply queue_bytes_suffix in Hq. destruct (H2 Hne) as [? _].
    split; [lia|]. rewrite Hwf. apply is_u64_mod. u64_lia.
Qed.

Lemma Inflights_full_false f :
  Inflights_full f = false →
  (length (infl_inflight f) < infl_max_msgs f)%nat
  ∧ (infl_max_bytes f ≠ 0 → infl_bytes f < infl_max_bytes f).
Proof.
  unfold Inflights_full. rewrite orb_false_iff, andb_false_iff, negb_false_iff.
  rewrite Nat.leb_gt, N.eqb_eq, N.leb_gt. naive_solver.
Qed.

Lemma window_bounded_step limit f g :
  infl_max_bytes f + limit ≤ u64_max → window_step limit f g →
  Inflights_wf f → window_bounded limit f → window_bounded limit g.
Proof.
  intros Hcap Hstep Hwf Hb.
  assert (Hg : Inflights_wf g) by (eapply window_step_wf; [|done..]; u64_lia).
  pose proof (window_step_caps _ _ _ Hstep) as Hc.
  destruct Hstep as [f i b Hfull Hl|f to|f|f].
  - destruct (Inflights_full_false f Hfull) as [Hn Hs]. destruct Hb as [_ H2].
    split; simpl; [rewrite length_app; simpl; lia|]. intros Hne.
    destruct (H2 Hne) as [_ E]. specialize (Hs Hne). rewrite queue_bytes_app. simpl.
    split; [lia|]. rewrite E. unfold wrapping_add. rewrite is_u64_mod; u64_lia.
  - eapply window_bounded_suffix; eauto using Inflights_free_le_suffix.
  - eapply window_bounded_suffix; eauto using Inflights_free_first_one_suffix.
  - eapply window_bounded_suffix; eauto. apply suffix_nil.
Qed.

Lemma window_run limit f g :
  infl_max_bytes f + limit ≤ u64_max → rtc (window_step limit) f g →
  Inflights_wf f → window_bounded limit f →
  Inflights_wf g ∧ window_bounded limit g ∧ same_caps f g.
Proof.
  intros Hcap. induction 1 as [f|f f' g Hs _ IH]; intros Hwf Hb; [done|].
  destruct (window_step_caps _ _ _ Hs) as [Em Eb].
  destruct IH as (? & ? & [? ?]); [by rewrite Eb|..].
  - eapply window_step_wf; [|done..]; u64_lia.
  - by eapply window_bounded_step.
  - split_and!; try done. split; congruence.
Qed.

(** A window whose leader asks [full] before every [add] never holds more
    than [max_msgs] messages, over any interleaving of sends, acknowledgements,
    heartbeat frees and resets; with a byte cap, the bytes in flight overshoot
    it by at most one message and the [u64] counter is exactly the sum of the
    queue (it never wraps). *)
Theorem inflights_window_bound max_msgs max_bytes limit f :
  max_bytes + limit ≤ u64_max →
  rtc (window_step limit) (Inflights_new max_msgs max_bytes) f →
  (length (infl_inflight f) ≤ max_msgs)%nat
  ∧ (max_bytes ≠ 0 →
     queue_bytes (infl_inflight f) ≤ max_bytes + limit
     ∧ infl_bytes f = queue_bytes (infl_inflight f)).
Proof.
  intros Hcap Hrun.
  destruct (window_run limit (Inflights_new max_msgs max_bytes) f Hcap Hrun) as (_ & [H1 H2] & [Em Eb]).
  - apply Inflights_new_wf.
  - split; simpl; lia.
  - simpl in Em, Eb. by rewrite Em, Eb in *.
Qed.

Lemma inflights_window_bound_witness :
  let f := Inflights_add 6 30 (Inflights_free_le 5 (Inflights_add 5 90 (Inflights_new 2 100))) in
  (length (infl_inflight f) ≤ 2)%nat
  ∧ (100 ≠ 0 →
     queue_bytes (infl_inflight f) ≤ 100 + 100
     ∧ infl_bytes f = queue_bytes (infl_inflight f)).
Proof.
  apply (inflights_window_bound 2 100 100); [vm_compute; done|].
  eapply rtc_l; [apply (ws_add _ _ 5 90); [reflexivity|lia]|].
  eapply rtc_l; [apply (ws_free_le _ _ 5)|].
  eapply rtc_l; [apply (ws_add _ _ 6 30); [reflexivity|lia]|]. apply rtc_refl.
Defined.
