(* ===== verification/Progress.v ===== *)
(** * Replication progress of one peer

    [sailing-proto/src/progress/mod.rs]: the leader's view of a follower.  Each
    method of [Progress] is one definition; a sequence of method calls is a
    list of [ProgressOp], so that the theorems speak about every run the leader
    can make. *)

From S2P Require Import Prelude Num Inflights.

Inductive ProgressState :=
| Probe
| Replicate
| Snapshot (pending : Index) (acked_through : u64) (total : u64).

#[global] Instance ProgressState_eq_dec : EqDecision ProgressState.
Proof. solve_decision. Defined.

Record Progress := {
  pr_match_index : Index;
  pr_next_index : Index;
  pr_state : ProgressState;
  pr_inflight : Inflights;
  pr_msg_app_flow_paused : bool;
  pr_recent_active : bool;
}.

Definition Progress_new (next_index : Index) (max_inflight_msgs : nat)
    (max_inflight_bytes : u64) : Progress :=
  {| pr_match_index := 0; pr_next_index := next_index; pr_state := Probe;
     pr_inflight := Inflights_new max_inflight_msgs max_inflight_bytes;
     pr_msg_app_flow_paused := false; pr_recent_active := false |}.

Definition Progress_is_paused (p : Progress) : bool :=
  match pr_state p with
  | Probe => pr_msg_app_flow_paused p
  | Replicate => Inflights_full (pr_inflight p)
  | Snapshot _ _ _ => true
  end.

Definition Progress_set_next_index (n : Index) (p : Progress) : Progress :=
  {| pr_match_index := pr_match_index p; pr_next_index := n; pr_state := pr_state p;
     pr_inflight := pr_inflight p; pr_msg_app_flow_paused := pr_msg_app_flow_paused p;
     pr_recent_active := pr_recent_active p |}.

Definition Progress_set_recent_active (v : bool) (p : Progress) : Progress :=
  {| pr_match_index := pr_match_index p; pr_next_index := pr_next_index p;
     pr_state := pr_state p; pr_inflight := pr_inflight p;
     pr_msg_app_flow_paused := pr_msg_app_flow_paused p; pr_recent_active := v |}.

Definition Progress_clear_probe_pause (p : Progress) : Progress :=
  {| pr_match_index := pr_match_index p; pr_next_index := pr_next_index p;
     pr_state := pr_state p; pr_inflight := pr_inflight p;
     pr_msg_app_flow_paused := false; pr_recent_active := pr_recent_active p |}.

Definition Progress_sent_entries (last : Index) (bytes : u64) (p : Progress) : Progress :=
  match pr_state p with
  | Probe =>
      {| pr_match_index := pr_match_index p; pr_next_index := pr_next_index p;
         pr_state := pr_state p; pr_inflight := pr_inflight p;
         pr_msg_app_flow_paused := true; pr_recent_active := pr_recent_active p |}
  | Replicate =>
      {| pr_match_index := pr_match_index p;
         pr_next_index :=
           if decide (pr_next_index p ≤ last) then counter_next last else pr_next_index p;
         pr_state := pr_state p; pr_inflight := Inflights_add last bytes (pr_inflight p);
         pr_msg_app_flow_paused := pr_msg_app_flow_paused p;
         pr_recent_active := pr_recent_active p |}
  | Snapshot _ _ _ => p
  end.

Definition Progress_become_probe (p : Progress) : Progress :=
  {| pr_match_index := pr_match_index p; pr_next_index := counter_next (pr_match_index p);
     pr_state := Probe; pr_inflight := Inflights_reset (pr_inflight p);
     pr_msg_app_flow_paused := false; pr_recent_active := pr_recent_active p |}.

Definition Progress_become_replicate (p : Progress) : Progress :=
  {| pr_match_index := pr_match_index p; pr_next_index := counter_next (pr_match_index p);
     pr_state := Replicate; pr_inflight := Inflights_reset (pr_inflight p);
     pr_msg_app_flow_paused := false; pr_recent_active := pr_recent_active p |}.

Definition Progress_become_snapshot (pending_snapshot : Index) (total : u64) (p : Progress)
  : Progress :=
  if decide (pending_snapshot ≤ pr_match_index p) then Progress_become_probe p
  else
    {| pr_match_index := pr_match_index p; pr_next_index := pr_next_index p;
       pr_state := Snapshot pending_snapshot 0 total;
       pr_inflight := Inflights_reset (pr_inflight p);
       pr_msg_app_flow_paused := false; pr_recent_active := pr_recent_active p |}.

Definition Progress_snapshot_acked (offset : u64) (p : Progress) : Progress :=
  match pr_state p with
  | Snapshot pending acked total =>
      if decide (offset ≤ total) then
        {| pr_match_index := pr_match_index p; pr_next_index := pr_next_index p;
           pr_state := Snapshot pending offset total; pr_inflight := pr_inflight p;
           pr_msg_app_flow_paused := pr_msg_app_flow_paused p;
           pr_recent_active := pr_recent_active p |}
      else p
  | _ => p
  end.

(** Returns the boolean of the source with the updated progress. *)
Definition Progress_maybe_update (n : Index) (p : Progress) : bool * Progress :=
  let updated := bool_decide (pr_match_index p < n) in
  let p' :=
    {| pr_match_index := if updated then n else pr_match_index p;
       pr_next_index :=
         if decide (pr_next_index p ≤ n) then counter_next n else pr_next_index p;
       pr_state := pr_state p;
       pr_inflight := Inflights_free_le n (pr_inflight p);
       pr_msg_app_flow_paused := false; pr_recent_active := pr_recent_active p |} in
  (updated,
   match pr_state p' with
   | Snapshot pending _ _ => if decide (pending ≤ n) then Progress_become_probe p' else p'
   | _ => p'
   end).

Definition Progress_free_inflight_on_heartbeat (p : Progress) : Progress :=
  if bool_decide (pr_state p = Replicate) && Inflights_full (pr_inflight p) then
    {| pr_match_index := pr_match_index p; pr_next_index := pr_next_index p;
       pr_state := pr_state p; pr_inflight := Inflights_free_first_one (pr_inflight p);
       pr_msg_app_flow_paused := pr_msg_app_flow_paused p;
       pr_recent_active := pr_recent_active p |}
  else p.

Definition Progress_decrement (p : Progress) : Progress :=
  {| pr_match_index := pr_match_index p;
     pr_next_index := N.max (saturating_sub (pr_next_index p) 1) 1;
     pr_state := Probe; pr_inflight := Inflights_reset (pr_inflight p);
     pr_msg_app_flow_paused := false; pr_recent_active := pr_recent_active p |}.

(** ** Runs *)

(** One call of a method of [Progress]. *)
Inductive ProgressOp :=
| OpSent (last : Index) (bytes : u64)
| OpBecomeSnapshot (pending : Index) (total : u64)
| OpSnapshotAcked (offset : u64)
| OpBecomeReplicate
| OpBecomeProbe
| OpMaybeUpdate (n : Index)
| OpClearProbePause
| OpRecentActive (v : bool)
| OpHeartbeat
| OpDecrement
| OpSetNext (n : Index).

Definition progress_apply (p : Progress) (o : ProgressOp) : Progress :=
  match o with
  | OpSent last bytes => Progress_sent_entries last bytes p
  | OpBecomeSnapshot pending total => Progress_become_snapshot pending total p
  | OpSnapshotAcked offset => Progress_snapshot_acked offset p
  | OpBecomeReplicate => Progress_become_replicate p
  | OpBecomeProbe => Progress_become_probe p
  | OpMaybeUpdate n => (Progress_maybe_update n p).2
  | OpClearProbePause => Progress_clear_probe_pause p
  | OpRecentActive v => Progress_set_recent_active v p
  | OpHeartbeat => Progress_free_inflight_on_heartbeat p
  | OpDecrement => Progress_decrement p
  | OpSetNext n => Progress_set_next_index n p
  end.

Definition progress_run : Progress → list ProgressOp → Progress := foldl progress_apply.

(** The largest index acknowledged through [maybe_update] in a run. *)
Definition op_ack (o : ProgressOp) : Index :=
  match o with OpMaybeUpdate n => n | _ => 0 end.
Definition max_acked (ops : list ProgressOp) : Index := foldr (λ o m, N.max (op_ack o) m) 0 ops.

(** Message sizes are 64-bit values. *)
Definition op_u64 (o : ProgressOp) : Prop :=
  match o with OpSent _ bytes => is_u64 bytes | _ => True end.

(** ** Invariant

    Only a replicating peer has messages in flight, the byte counter of its
    window is right, and a peer that waits for a snapshot is really behind it,
    with its chunk cursor inside the blob. *)
Definition Progress_wf (p : Progress) : Prop :=
  Inflights_wf (pr_inflight p)
  ∧ match pr_state p with
    | Probe => infl_inflight (pr_inflight p) = []
    | Replicate => True
    | Snapshot pending acked total =>
        infl_inflight (pr_inflight p) = [] ∧ pr_match_index p < pending ∧ acked ≤ total
    end.

Lemma Inflights_free_le_nil n f :
  infl_inflight f = [] → infl_inflight (Inflights_free_le n f) = [].
Proof. intros E. unfold Inflights_free_le. by rewrite E. Qed.

Lemma Progress_new_wf n m b : Progress_wf (Progress_new n m b).
Proof. split; [apply Inflights_new_wf|done]. Qed.

Lemma Progress_maybe_update_wf n p : Progress_wf p → Progress_wf (Progress_maybe_update n p).2.
Proof.
  intros [Hf Hs]. unfold Progress_maybe_update. simpl. destruct (pr_state p) as [| |pend ack tot] eqn:E.
  - split; simpl; [auto with sailing|]. by apply Inflights_free_le_nil.
  - split; simpl; [auto with sailing|done].
  - destruct Hs as (Hq & Hm & Ha). case_decide; split; simpl; auto with sailing.
    split_and!; [by apply Inflights_free_le_nil| |done].
    case_bool_decide; lia.
Qed.

Lemma progress_apply_wf p o : op_u64 o → Progress_wf p → Progress_wf (progress_apply p o).
Proof.
  intros Ho Hp. destruct o; simpl in *;
    try (apply Progress_maybe_update_wf; done); destruct Hp as [Hf Hs].
  - unfold Progress_sent_entries, Progress_wf. destruct (pr_state p) eqn:E; simpl;
      rewrite ?E; auto with sailing.
  - unfold Progress_become_snapshot. case_decide; split; simpl; auto with sailing.
    split_and!; [done|lia..].
  - unfold Progress_snapshot_acked, Progress_wf. destruct (pr_state p) eqn:E; rewrite ?E; try done.
    case_decide; simpl; rewrite ?E; naive_solver.
  - split; simpl; auto with sailing.
  - split; simpl; auto with sailing.
  - by split.
  - by split.
  - unfold Progress_free_inflight_on_heartbeat.
    case_bool_decide as E; simpl; [|by split].
    destruct (Inflights_full _); [|by split]. split; simpl; [auto with sailing|]. by rewrite E.
  - split; simpl; auto with sailing.
  - by split.
Qed.

Lemma progress_run_wf ops p : Forall op_u64 ops → Progress_wf p → Progress_wf (progress_run p ops).
Proof.
  revert p. induction ops as [|o ops IH]; intros p Hops Hp; simpl; [done|].
  apply Forall_cons in Hops as [Ho Hops]. apply IH; [done|]. by apply progress_apply_wf.
Qed.

Lemma Progress_maybe_update_match n p :
  pr_match_index (Progress_maybe_update n p).2 = N.max (pr_match_index p) n.
Proof. unfold Progress_maybe_update; simpl. repeat case_match; simpl; repeat case_bool_decide; lia. Qed.

Lemma progress_apply_match p o :
  pr_match_index (progress_apply p o) = N.max (pr_match_index p) (op_ack o).
Proof.
  destruct o; simpl; rewrite ?N.max_0_r; try done.
  - unfold Progress_sent_entries. by destruct (pr_state p).
  - unfold Progress_become_snapshot. by case_decide.
  - unfold Progress_snapshot_acked. by repeat case_match.
  - apply Progress_maybe_update_match.
  - unfold Progress_free_inflight_on_heartbeat. by case_match.
Qed.

Lemma progress_run_match ops p :
  pr_match_index (progress_run p ops) = N.max (pr_match_index p) (max_acked ops).
Proof.
  revert p. induction ops as [|o ops IH]; intros p; simpl; [lia|].
  etrans; [apply IH|]. rewrite progress_apply_match. unfold max_acked; simpl.
  unfold max_acked. lia.
Qed.

(** C28: over any sequence of method calls, the match index of a peer is
    exactly the largest index it acknowledged, so it never moves back and no
    reject, snapshot or probe transition can raise it; the window counters stay
    exact (that of the bytes modulo [2^64], as the code wraps it), only a replicating peer has messages in flight, and a peer in
    [Snapshot] state is strictly behind the pending snapshot with its chunk
    cursor within the blob. *)
Theorem progress_run_correct ops next m b :
  Forall op_u64 ops →
  let p := progress_run (Progress_new next m b) ops in
  pr_match_index p = max_acked ops ∧ Progress_wf p.
Proof.
  intros Hops p. split; [unfold p; rewrite progress_run_match; simpl; lia|].
  apply progress_run_wf; [done|apply Progress_new_wf].
Qed.

Lemma progress_run_correct_witness :
  let ops := [OpBecomeReplicate; OpSent 4 10; OpMaybeUpdate 4; OpBecomeSnapshot 9 100;
              OpSnapshotAcked 50; OpMaybeUpdate 2] in
  let p := progress_run (Progress_new 1 8 0) ops in
  pr_match_index p = max_acked ops ∧ Progress_wf p.
Proof. apply progress_run_correct. repeat constructor; vm_compute; done. Defined.

(** A peer enters [Snapshot] state only when it is behind the snapshot, it
    is paused while it waits, and the acknowledgement that reaches the pending
    index, and no earlier one, resumes it: probing, not paused, from the index
    after the acknowledged one.  A peer that already covers the snapshot is
    probed instead, so no call leaves it paused with nothing left to wait
    for. *)
Theorem progress_snapshot_exit p pending total n :
  let q := Progress_become_snapshot pending total p in
  let q' := (Progress_maybe_update n q).2 in
  if decide (pending ≤ pr_match_index p) then
    pr_state q = Probe ∧ Progress_is_paused q = false
    ∧ pr_next_index q = counter_next (pr_match_index p)
  else
    Progress_is_paused q = true ∧
    (if decide (pending ≤ n) then
       pr_state q' = Probe ∧ Progress_is_paused q' = false ∧ pr_next_index q' = counter_next n
     else pr_state q' = Snapshot pending 0 total ∧ Progress_is_paused q' = true).
Proof.
  intros q q'. unfold q', q, Progress_become_snapshot. case_decide; [done|].
  split; [done|]. unfold Progress_maybe_update. simpl. case_decide; [|done].
  split_and!; try done. simpl. case_bool_decide; [done|lia].
Qed.
