(* ===== verification/ProgressMap.v ===== *)
(** * The per-peer progress table

    [ProgressMap] of [sailing-proto/src/tracker/mod.rs]: a [Vec] of
    identifier/progress pairs kept in ascending key order and searched with
    [slice::binary_search_by].  The search is modelled by the standard
    library's loop; the table is then shown to implement a finite map, which
    is the interface the tracker's theorems use.  Nothing depends on the type
    of the values. *)

From S2P Require Import Prelude.

(** ** [slice::binary_search_by] *)

Section binary_search.
Context {A : Type} (cmp : A → comparison).

(** [cmp] at a position of the slice; the loop only reads positions that are
    in bounds. *)
Definition cmp_at (l : list A) (i : nat) : comparison :=
  match l !! i with Some x => cmp x | None => Gt end.

(** The loop [while size > 1], with one unit of fuel per iteration. *)
Fixpoint bsearch_loop (fuel : nat) (l : list A) (base sz : nat) : nat :=
  match fuel with
  | O => base
  | S fuel =>
      if (sz <=? 1)%nat then base
      else
        let half := Nat.div2 sz in
        let mid := (base + half)%nat in
        bsearch_loop fuel l
          (match cmp_at l mid with Gt => base | _ => mid end) (sz - half)
  end.

(** [inl i] is [Ok(i)] and [inr i] is [Err(i)]. *)
Definition binary_search_by (l : list A) : nat + nat :=
  match l with
  | [] => inr O
  | _ =>
      let base := bsearch_loop (length l) l 0 (length l) in
      match cmp_at l base with
      | Eq => inl base
      | Lt => inr (S base)
      | Gt => inr base
      end
  end.

(** The slice is partitioned: once [cmp] answers [Gt] it does to the end, and
    before an answer other than [Gt] there are only [Lt]s. *)
Definition cmp_sorted (l : list A) : Prop :=
  ∀ i j, (i < j < length l)%nat → cmp_at l j ≠ Gt → cmp_at l i = Lt.

Lemma bsearch_loop_spec fuel l base sz :
  cmp_sorted l → (sz ≤ fuel)%nat → (1 ≤ sz)%nat → (base + sz ≤ length l)%nat →
  (base = O ∨ cmp_at l base ≠ Gt) →
  (∀ j, (base + sz ≤ j)%nat → cmp_at l j = Gt) →
  let b := bsearch_loop fuel l base sz in
  (b < length l)%nat ∧ (b = O ∨ cmp_at l b ≠ Gt) ∧ ∀ j, (b < j)%nat → cmp_at l j = Gt.
Proof.
  intros Hs. revert base sz. induction fuel as [|fuel IH]; intros base sz Hf H1 Hlen Hlo Hhi; [lia|].
  simpl. destruct (Nat.leb_spec sz 1) as [Hsz|Hsz].
  - split_and!; [lia|done|]. intros j Hj. apply Hhi. lia.
  - assert (1 ≤ Nat.div2 sz ∧ 2 * Nat.div2 sz ≤ sz)%nat.
    { pose proof (Nat.div2_odd sz). destruct (Nat.odd sz); simpl in *; lia. }
    destruct (cmp_at l (base + Nat.div2 sz)) eqn:E; apply IH; try lia; try done;
      try (right; congruence); intros j Hj; [apply Hhi; lia..|].
    destruct (decide (cmp_at l j = Gt)) as [|Ej]; [done|exfalso].
    destruct (decide (j = base + Nat.div2 sz)%nat) as [->|]; [done|].
    destruct (decide (j < length l)%nat).
    + rewrite (Hs (base + Nat.div2 sz)%nat j) in E; [done|lia|done].
    + apply Ej. unfold cmp_at. by rewrite lookup_ge_None_2 by lia.
Qed.

(** Where the search lands: [Ok] at an equal element, [Err] at the position
    that separates the smaller elements from the greater ones. *)
Lemma binary_search_by_spec l :
  cmp_sorted l →
  match binary_search_by l with
  | inl i => ∃ x, l !! i = Some x ∧ cmp x = Eq
  | inr i => (i ≤ length l)%nat
      ∧ Forall (λ x, cmp x = Lt) (take i l) ∧ Forall (λ x, cmp x = Gt) (drop i l)
  end.
Proof.
  intros Hs. destruct l as [|x0 l0]; [by simpl|].
  unfold binary_search_by. set (l := x0 :: l0) in *.
  destruct (bsearch_loop_spec (length l) l 0 (length l)) as (Hb & Hlo & Hhi);
    [done|lia|simpl; lia|lia|by left| |].
  { intros j Hj. unfold cmp_at. by rewrite lookup_ge_None_2 by lia. }
  set (b := bsearch_loop _ _ _ _) in *. destruct (lookup_lt_is_Some_2 l b Hb) as [x Hx].
  assert (Hat : ∀ i y, l !! i = Some y → cmp_at l i = cmp y)
    by (intros i y E; unfold cmp_at; by rewrite E).
  assert (Hdrop : Forall (λ x, cmp x = Gt) (drop (S b) l)).
  { apply Forall_lookup. intros i y Hy. rewrite lookup_drop in Hy.
    rewrite <- (Hat _ _ Hy). apply Hhi. lia. }
  assert (Htake : cmp_at l b ≠ Gt → Forall (λ x, cmp x = Lt) (take b l)).
  { intros Hne. apply Forall_lookup. intros i y [Hy Hi]%lookup_take_Some.
    rewrite <- (Hat _ _ Hy). by apply (Hs i b). }
  destruct (cmp_at l b) eqn:E.
  - exists x. by rewrite <- (Hat _ _ Hx).
  - split_and!; [lia| |done]. rewrite (take_S_r _ _ _ Hx). apply Forall_app.
    split; [by apply Htake|]. constructor; [|done]. by rewrite <- (Hat _ _ Hx).
  - destruct Hlo as [->|]; [|done]. split_and!; [lia|done|].
    simpl in Hx. injection Hx as <-. constructor; [|done]. by rewrite <- (Hat 0%nat x0).
Qed.
End binary_search.

(** ** The table *)

(** [struct ProgressMap { entries: Vec<(I, Progress)> }]. *)
Abbreviation ProgressMap I V := (list (I * V)).

Section progress_map.
Context {I : Type} `{!NodeId I} {V : Type}.
Implicit Types (m : list (I * V)) (id : I) (p : V).

Definition ProgressMap_new : ProgressMap I V := [].
Definition ProgressMap_keys (m : ProgressMap I V) : list I := m.*1.
Definition ProgressMap_clear (m : ProgressMap I V) : ProgressMap I V := [].

(** [values_mut], with the closure the caller runs on each value. *)
Definition ProgressMap_values_mut (f : V → V) (m : ProgressMap I V) : ProgressMap I V :=
  prod_map (λ k, k) f <$> m.

Definition pm_search (id : I) (m : ProgressMap I V) : nat + nat :=
  binary_search_by (λ e, nid_cmp e.1 id) m.

Definition ProgressMap_get (id : I) (m : ProgressMap I V) : option V :=
  match pm_search id m with
  | inl i => snd <$> m !! i
  | inr _ => None
  end.

(** [get_mut], with the mutation the caller performs through the reference. *)
Definition ProgressMap_get_mut (id : I) (f : V → V) (m : ProgressMap I V) : ProgressMap I V :=
  match pm_search id m with
  | inl i => alter (prod_map (λ k, k) f) i m
  | inr _ => m
  end.

Definition ProgressMap_contains_key (id : I) (m : ProgressMap I V) : bool :=
  match pm_search id m with inl _ => true | inr _ => false end.

Definition ProgressMap_insert (id : I) (p : V) (m : ProgressMap I V) : ProgressMap I V :=
  match pm_search id m with
  | inl i => alter (prod_map (λ k, k) (λ _, p)) i m
  | inr i => take i m ++ (id, p) :: drop i m
  end.

Definition ProgressMap_remove (id : I) (m : ProgressMap I V) : option V * ProgressMap I V :=
  match pm_search id m with
  | inl i => (snd <$> m !! i, delete i m)
  | inr _ => (None, m)
  end.

(** *** Representation: a strictly sorted table stands for a finite map. *)

Definition ProgressMap_wf (m : ProgressMap I V) : Prop := StronglySorted nid_lt m.*1.
Definition to_map (m : ProgressMap I V) : gmap I V := list_to_map m.

Lemma wf_split m1 id p m2 :
  ProgressMap_wf (m1 ++ (id, p) :: m2) →
  Forall (λ k, nid_lt k id) m1.*1 ∧ Forall (nid_lt id) m2.*1 ∧ ProgressMap_wf (m1 ++ m2).
Proof.
  unfold ProgressMap_wf. rewrite !fmap_app, fmap_cons, !StronglySorted_app, StronglySorted_cons.
  intros (H12 & H1 & H2 & H3). simpl in *. split_and!; try done.
  - apply Forall_forall. set_solver.
  - set_solver.
Qed.

Lemma wf_join m1 id p m2 :
  ProgressMap_wf (m1 ++ m2) →
  Forall (λ k, nid_lt k id) m1.*1 → Forall (nid_lt id) m2.*1 →
  ProgressMap_wf (m1 ++ (id, p) :: m2).
Proof.
  unfold ProgressMap_wf. rewrite !fmap_app, fmap_cons, !StronglySorted_app, StronglySorted_cons.
  rewrite !Forall_forall. intros (H12 & H1 & H2) Hlo Hhi. set_solver.
Qed.

Lemma lt_keys_not_elem id m : Forall (λ k, nid_lt k id) m.*1 → id ∉ m.*1.
Proof. rewrite Forall_forall. intros H Hin. by apply (nid_lt_irrefl id), H. Qed.

Lemma gt_keys_not_elem id m : Forall (nid_lt id) m.*1 → id ∉ m.*1.
Proof. rewrite Forall_forall. intros H Hin. by apply (nid_lt_irrefl id), H. Qed.

Lemma to_map_middle m1 id p m2 :
  id ∉ m1.*1 → to_map (m1 ++ (id, p) :: m2) = <[id := p]> (to_map (m1 ++ m2)).
Proof.
  intros H. unfold to_map. rewrite !list_to_map_app, list_to_map_cons.
  rewrite insert_union_r; [done|]. by apply not_elem_of_list_to_map_1.
Qed.

Lemma to_map_split_None m1 id m2 :
  Forall (λ k, nid_lt k id) m1.*1 → Forall (nid_lt id) m2.*1 → to_map (m1 ++ m2) !! id = None.
Proof.
  intros Hlo Hhi. apply not_elem_of_list_to_map_1. rewrite fmap_app, elem_of_app.
  pose proof (lt_keys_not_elem _ _ Hlo). pose proof (gt_keys_not_elem _ _ Hhi). naive_solver.
Qed.

Lemma pm_search_sorted id m : ProgressMap_wf m → cmp_sorted (λ e, nid_cmp e.1 id) m.
Proof.
  intros Hwf i j [Hij Hj]. unfold cmp_at.
  destruct (lookup_lt_is_Some_2 m j Hj) as [[kj vj] Ej].
  destruct (lookup_lt_is_Some_2 m i ltac:(lia)) as [[ki vi] Ei].
  rewrite Ei, Ej. simpl. intros Hne. apply nid_le_lt_eq in Hne.
  assert (Hlt : nid_lt ki kj).
  { rewrite <- (take_drop (S i) m) in Hwf. unfold ProgressMap_wf in Hwf.
    rewrite fmap_app in Hwf. eapply StronglySorted_app_1_elem_of; [exact Hwf|..].
    - apply list_elem_of_fmap. exists (ki, vi). split; [done|].
      apply (list_elem_of_lookup_2 _ i). by rewrite lookup_take_lt by lia.
    - apply list_elem_of_fmap. exists (kj, vj). split; [done|].
      apply (list_elem_of_lookup_2 _ (j - S i)%nat). rewrite lookup_drop.
      by replace (S i + (j - S i))%nat with j by lia. }
  destruct Hne as [Hne| ->]; [|done]. by eapply nid_lt_trans.
Qed.

(** What the search finds in a sorted table, as a decomposition of it. *)
Lemma pm_search_spec id m :
  ProgressMap_wf m →
  match pm_search id m with
  | inl i => ∃ m1 p m2, m = m1 ++ (id, p) :: m2 ∧ i = length m1
  | inr i => ∃ m1 m2, m = m1 ++ m2 ∧ i = length m1
      ∧ Forall (λ k, nid_lt k id) m1.*1 ∧ Forall (nid_lt id) m2.*1
  end.
Proof.
  intros Hwf. pose proof (binary_search_by_spec _ m (pm_search_sorted id m Hwf)) as H.
  fold (pm_search id m) in H. destruct (pm_search id m) as [i|i].
  - destruct H as ([k p] & Hi & Hk%nid_cmp_eq). simpl in Hk. subst k.
    exists (take i m), p, (drop (S i) m).
    rewrite (take_drop_middle _ _ _ Hi), length_take. apply lookup_lt_Some in Hi. split; [done|lia].
  - destruct H as (Hi & Hlo & Hhi). exists (take i m), (drop i m).
    rewrite take_drop, length_take. split_and!; [done|lia|..].
    + apply Forall_fmap. exact Hlo.
    + apply Forall_fmap. eapply Forall_impl; [exact Hhi|]. intros e. apply nid_cmp_gt.
Qed.

(** Case analysis on a search in a sorted table. *)
Ltac pm_cases id m Hwf :=
  pose proof (pm_search_spec id m Hwf) as Hsearch;
  destruct (pm_search id m) as [?i|?i];
  [destruct Hsearch as (m1 & p0 & m2 & -> & ->)
  |destruct Hsearch as (m1 & m2 & -> & -> & Hlo & Hhi)].

Lemma ProgressMap_get_spec id m : ProgressMap_wf m → ProgressMap_get id m = to_map m !! id.
Proof.
  intros Hwf. unfold ProgressMap_get. pm_cases id m Hwf.
  - apply wf_split in Hwf as (Hlo & _ & _). rewrite list_lookup_middle by done.
    by rewrite to_map_middle, lookup_insert_eq by by apply lt_keys_not_elem.
  - by rewrite to_map_split_None.
Qed.

Lemma ProgressMap_contains_key_get id m :
  ProgressMap_wf m → ProgressMap_contains_key id m = bool_decide (is_Some (ProgressMap_get id m)).
Proof.
  intros Hwf. unfold ProgressMap_get, ProgressMap_contains_key. pm_cases id m Hwf.
  - rewrite list_lookup_middle by done. symmetry. by apply bool_decide_eq_true.
  - symmetry. apply bool_decide_eq_false. by intros [? [=]].
Qed.

Lemma ProgressMap_contains_key_spec id m :
  ProgressMap_wf m → ProgressMap_contains_key id m = bool_decide (id ∈ dom (to_map m)).
Proof.
  intros Hwf. rewrite ProgressMap_contains_key_get, ProgressMap_get_spec by done.
  apply bool_decide_ext. by rewrite elem_of_dom.
Qed.

Lemma ProgressMap_get_mut_spec id f m :
  ProgressMap_wf m →
  ProgressMap_wf (ProgressMap_get_mut id f m)
  ∧ to_map (ProgressMap_get_mut id f m) = alter f id (to_map m).
Proof.
  intros Hwf. unfold ProgressMap_get_mut. pose proof Hwf as Hwf'. pm_cases id m Hwf.
  - rewrite <- (Nat.add_0_r (length m1)), alter_app_r. simpl.
    apply wf_split in Hwf as (Hlo & Hhi & Hwf). split; [by apply wf_join|].
    rewrite !to_map_middle by by apply lt_keys_not_elem. by rewrite alter_insert_eq.
  - split; [done|]. by rewrite alter_alt, to_map_split_None.
Qed.

Lemma ProgressMap_insert_spec id p m :
  ProgressMap_wf m →
  ProgressMap_wf (ProgressMap_insert id p m)
  ∧ to_map (ProgressMap_insert id p m) = <[id := p]> (to_map m).
Proof.
  intros Hwf. unfold ProgressMap_insert. pm_cases id m Hwf.
  - rewrite <- (Nat.add_0_r (length m1)), alter_app_r. simpl.
    apply wf_split in Hwf as (Hlo & Hhi & Hwf). split; [by apply wf_join|].
    rewrite !to_map_middle by by apply lt_keys_not_elem. by rewrite insert_insert_eq.
  - rewrite take_app_length, drop_app_length. split; [by apply wf_join|].
    by rewrite to_map_middle by by apply lt_keys_not_elem.
Qed.

Lemma ProgressMap_remove_spec id m :
  ProgressMap_wf m →
  ProgressMap_wf (ProgressMap_remove id m).2
  ∧ to_map (ProgressMap_remove id m).2 = delete id (to_map m)
  ∧ (ProgressMap_remove id m).1 = to_map m !! id.
Proof.
  intros Hwf. rewrite <- (ProgressMap_get_spec id m Hwf).
  unfold ProgressMap_remove, ProgressMap_get. pose proof Hwf as Hwf'. pm_cases id m Hwf; simpl.
  - apply wf_split in Hwf as (Hlo & Hhi & Hwf). rewrite delete_middle. split_and!; [done| |done].
    rewrite to_map_middle by by apply lt_keys_not_elem.
    by rewrite delete_insert_eq, delete_id by by apply to_map_split_None.
  - split_and!; [done| |done]. by rewrite delete_id by by apply to_map_split_None.
Qed.

Lemma ProgressMap_values_mut_spec f m :
  ProgressMap_wf m →
  ProgressMap_wf (ProgressMap_values_mut f m)
  ∧ to_map (ProgressMap_values_mut f m) = f <$> to_map m.
Proof.
  intros Hwf. unfold ProgressMap_values_mut, to_map, ProgressMap_wf. split.
  - by rewrite <- list_fmap_compose.
  - apply (list_to_map_fmap f m).
Qed.

Lemma ProgressMap_new_wf : ProgressMap_wf ProgressMap_new.
Proof. constructor. Qed.

Lemma ProgressMap_keys_spec id m :
  ProgressMap_wf m → id ∈ ProgressMap_keys m ↔ id ∈ dom (to_map m).
Proof. intros Hwf. unfold to_map. rewrite dom_list_to_map, elem_of_list_to_set. done. Qed.

(** A call of a mutating method. *)
Inductive PmOp :=
| PmInsert (id : I) (p : V)
| PmRemove (id : I)
| PmGetMut (id : I) (f : V → V)
| PmValuesMut (f : V → V)
| PmClear.

Definition pm_apply (m : ProgressMap I V) (o : PmOp) : ProgressMap I V :=
  match o with
  | PmInsert id p => ProgressMap_insert id p m
  | PmRemove id => (ProgressMap_remove id m).2
  | PmGetMut id f => ProgressMap_get_mut id f m
  | PmValuesMut f => ProgressMap_values_mut f m
  | PmClear => ProgressMap_clear m
  end.

(** The same call on the abstract map. *)
Definition pm_spec (m : gmap I V) (o : PmOp) : gmap I V :=
  match o with
  | PmInsert id p => <[id := p]> m
  | PmRemove id => delete id m
  | PmGetMut id f => alter f id m
  | PmValuesMut f => f <$> m
  | PmClear => ∅
  end.

Lemma pm_apply_spec m o :
  ProgressMap_wf m → ProgressMap_wf (pm_apply m o) ∧ to_map (pm_apply m o) = pm_spec (to_map m) o.
Proof.
  intros Hwf. destruct o; simpl.
  - by apply ProgressMap_insert_spec.
  - by destruct (ProgressMap_remove_spec id m Hwf) as (? & ? & _).
  - by apply ProgressMap_get_mut_spec.
  - by apply ProgressMap_values_mut_spec.
  - split; [constructor|done].
Qed.

Lemma pm_run_spec os m :
  ProgressMap_wf m →
  ProgressMap_wf (foldl pm_apply m os)
  ∧ to_map (foldl pm_apply m os) = foldl pm_spec (to_map m) os.
Proof.
  revert m. induction os as [|o os IH]; intros m Hwf; simpl; [done|].
  destruct (pm_apply_spec m o Hwf) as [Hwf' <-]. by apply IH.
Qed.

(** The sorted, binary-searched table implements a finite map.  After any
    sequence of insertions, removals, in-place updates and clears it is still
    strictly sorted and stands for the map those operations build, and [get],
    [contains_key] and [remove] answer as the map does. *)
Theorem progress_map_refines os id :
  let m := foldl pm_apply ProgressMap_new os in
  let g := foldl pm_spec ∅ os in
  ProgressMap_wf m ∧ to_map m = g
  ∧ ProgressMap_get id m = g !! id
  ∧ ProgressMap_contains_key id m = bool_decide (id ∈ dom g)
  ∧ (ProgressMap_remove id m).1 = g !! id.
Proof.
  intros m g. destruct (pm_run_spec os ProgressMap_new ProgressMap_new_wf) as [Hwf Hg].
  fold m in Hwf, Hg. change (to_map m = g) in Hg. rewrite <- Hg. split_and!; try done.
  - by apply ProgressMap_get_spec.
  - by apply ProgressMap_contains_key_spec.
  - by apply ProgressMap_remove_spec.
Qed.
End progress_map.
