(* ===== verification/Conf.v ===== *)
(** * Membership data

    [sailing-proto/src/conf/mod.rs]: the configuration state carried by
    snapshots ([ConfState]) and the payloads of configuration-change entries. *)

From S2P Require Import Prelude Bytes.

Inductive ConfChangeType := AddNode | RemoveNode | AddLearnerNode.

#[global] Instance ConfChangeType_eq_dec : EqDecision ConfChangeType.
Proof. solve_decision. Defined.

Inductive ConfChangeTransition := Auto | Implicit | Explicit.

#[global] Instance ConfChangeTransition_eq_dec : EqDecision ConfChangeTransition.
Proof. solve_decision. Defined.

Section conf.
Context {I : Type} `{!NodeId I}.

Record ConfState := {
  cs_voters : gset I;
  cs_learners : gset I;
  cs_voters_outgoing : gset I;
  cs_learners_next : gset I;
  cs_auto_leave : bool;
}.

#[global] Instance ConfState_eq_dec : EqDecision ConfState.
Proof. solve_decision. Defined.

Definition ConfState_default : ConfState :=
  {| cs_voters := ∅; cs_learners := ∅; cs_voters_outgoing := ∅; cs_learners_next := ∅;
     cs_auto_leave := false |}.

(** The iterator arguments are collected into sets. *)
Definition ConfState_new (voters learners voters_outgoing learners_next : list I)
    (auto_leave : bool) : ConfState :=
  {| cs_voters := list_to_set voters; cs_learners := list_to_set learners;
     cs_voters_outgoing := list_to_set voters_outgoing;
     cs_learners_next := list_to_set learners_next; cs_auto_leave := auto_leave |}.

Definition ConfState_from_voters (voters : list I) : ConfState :=
  {| cs_voters := list_to_set voters; cs_learners := ∅; cs_voters_outgoing := ∅;
     cs_learners_next := ∅; cs_auto_leave := false |}.

Definition ConfState_is_joint (cs : ConfState) : bool :=
  negb (bool_decide (cs_voters_outgoing cs = ∅)).

Definition ConfState_is_voter (cs : ConfState) (id : I) : bool :=
  bool_decide (id ∈ cs_voters cs).

Definition ConfState_is_learner (cs : ConfState) (id : I) : bool :=
  bool_decide (id ∈ cs_learners cs).

(** A loop that returns [false] on the first offending element is [existsb]. *)
Definition ConfState_is_valid (cs : ConfState) : bool :=
  if bool_decide (cs_voters cs = ∅) then false
  else if existsb (λ id, bool_decide (id ∈ cs_voters cs)
                         || bool_decide (id ∈ cs_voters_outgoing cs))
            (btree_iter (cs_learners cs)) then false
  else if existsb (λ id, negb (bool_decide (id ∈ cs_voters_outgoing cs))
                         || bool_decide (id ∈ cs_voters cs))
            (btree_iter (cs_learners_next cs)) then false
  else if negb (ConfState_is_joint cs)
          && (negb (bool_decide (cs_learners_next cs = ∅)) || cs_auto_leave cs) then false
  else true.

(** What [is_valid] decides. *)
Record ConfState_valid (cs : ConfState) : Prop := {
  csv_voters : cs_voters cs ≠ ∅;
  csv_learners : cs_learners cs ## cs_voters cs ∪ cs_voters_outgoing cs;
  csv_next_outgoing : cs_learners_next cs ⊆ cs_voters_outgoing cs;
  csv_next_incoming : cs_learners_next cs ## cs_voters cs;
  csv_simple : cs_voters_outgoing cs = ∅ → cs_auto_leave cs = false;
}.

Lemma existsb_btree_iter (f : I → bool) (s : gset I) :
  existsb f (btree_iter s) = false ↔ ∀ id, id ∈ s → f id = false.
Proof.
  rewrite <- not_true_iff_false, existsb_exists. split.
  - intros H id Hid. apply not_true_iff_false. intros Hf. apply H. exists id.
    split; [|done]. by apply list_elem_of_In, elem_of_btree_iter.
  - intros H (id & Hid & Hf). rewrite H in Hf; [done|].
    by apply elem_of_btree_iter, list_elem_of_In.
Qed.

Lemma if_false_negb (b c : bool) : (if b then false else c) = negb b && c.
Proof. by destruct b. Qed.

Lemma ConfState_is_valid_spec cs : ConfState_is_valid cs = true ↔ ConfState_valid cs.
Proof.
  unfold ConfState_is_valid, ConfState_is_joint.
  rewrite !if_false_negb, !andb_true_iff, !negb_true_iff, !existsb_btree_iter.
  setoid_rewrite orb_false_iff. setoid_rewrite negb_false_iff.
  setoid_rewrite bool_decide_eq_false. setoid_rewrite bool_decide_eq_true.
  rewrite negb_involutive, andb_false_iff, orb_false_iff, negb_false_iff.
  rewrite bool_decide_eq_true, bool_decide_eq_false. split.
  - intros (Hv & Hl & Hn & Hs & _). constructor; try done.
    + intros id Hid Hor. destruct (Hl id Hid). set_solver.
    + intros id Hid. by destruct (Hn id Hid).
    + intros id Hid. by destruct (Hn id Hid).
    + intros Ho. by destruct Hs as [?|[_ ?]].
  - intros [Hv Hl Ho Hi Hs]. split_and!; try done; [set_solver..|].
    destruct (decide (cs_voters_outgoing cs = ∅)) as [E|]; [right|by left].
    split; [|by apply Hs]. rewrite E in Ho. set_solver.
Qed.

(** ** Configuration changes *)

Record ConfChangeSingle := { ccs_ty : ConfChangeType; ccs_node : I }.

Definition ConfChangeSingle_new (ty : ConfChangeType) (node : I) : ConfChangeSingle :=
  {| ccs_ty := ty; ccs_node := node |}.

Record ConfChange := { cc_ty : ConfChangeType; cc_node : I; cc_context : list byte }.

Record ConfChangeV2 := {
  ccv2_transition : ConfChangeTransition;
  ccv2_changes : list ConfChangeSingle;
  ccv2_context : list byte;
}.

#[global] Instance ConfChangeSingle_eq_dec : EqDecision ConfChangeSingle.
Proof. solve_decision. Defined.
#[global] Instance ConfChange_eq_dec : EqDecision ConfChange.
Proof. solve_decision. Defined.
#[global] Instance ConfChangeV2_eq_dec : EqDecision ConfChangeV2.
Proof. solve_decision. Defined.

Definition ConfChange_into_v2 (c : ConfChange) : ConfChangeV2 :=
  {| ccv2_transition := Auto;
     ccv2_changes := [ {| ccs_ty := cc_ty c; ccs_node := cc_node c |} ];
     ccv2_context := cc_context c |}.

Definition ConfChangeV2_leave_joint : ConfChangeV2 :=
  {| ccv2_transition := Auto; ccv2_changes := []; ccv2_context := [] |}.
End conf.
Arguments ConfState I {_}.
Arguments ConfChangeSingle I : clear implicits.
Arguments ConfChange I : clear implicits.
Arguments ConfChangeV2 I : clear implicits.
