(* ===== verification/Tracker.v ===== *)
(** * The membership tracker

    [Tracker] of [sailing-proto/src/tracker/mod.rs]: the joint voter
    configuration, the learner sets and the per-peer progress table.  Its
    well-formedness is the invariant the configuration changer maintains; the
    quorum queries are shown to be the quorum decisions of [Quorum.v] on the
    tracked progress. *)

From S2P Require Import Prelude Bytes Num Quorum Inflights Progress ProgressMap Conf.

Section tracker.
Context {I : Type} `{!NodeId I}.

Record Tracker := {
  tr_voters : JointConfig I;
  tr_learners : gset I;
  tr_learners_next : gset I;
  tr_auto_leave : bool;
  tr_progress : ProgressMap I Progress;
}.

Definition Tracker_new : Tracker :=
  {| tr_voters := JointConfig_from_voters ∅; tr_learners := ∅; tr_learners_next := ∅;
     tr_auto_leave := false; tr_progress := ProgressMap_new |}.

(** The two halves of the voter configuration, as sets. *)
Definition tr_incoming (tr : Tracker) : gset I := mc_ids (jc_incoming (tr_voters tr)).
Definition tr_outgoing (tr : Tracker) : gset I := mc_ids (jc_outgoing (tr_voters tr)).

Definition set_tr_progress (p : ProgressMap I Progress) (tr : Tracker) : Tracker :=
  {| tr_voters := tr_voters tr; tr_learners := tr_learners tr;
     tr_learners_next := tr_learners_next tr; tr_auto_leave := tr_auto_leave tr;
     tr_progress := p |}.

Definition Tracker_is_joint (tr : Tracker) : bool :=
  negb (MajorityConfig_is_empty (jc_outgoing (tr_voters tr))).

Definition Tracker_is_voter (tr : Tracker) (id : I) : bool :=
  MajorityConfig_contains (jc_incoming (tr_voters tr)) id
  || MajorityConfig_contains (jc_outgoing (tr_voters tr)) id.

Definition Tracker_is_learner (tr : Tracker) (id : I) : bool :=
  bool_decide (id ∈ tr_learners tr).

Definition Tracker_progress (tr : Tracker) (id : I) : option Progress :=
  ProgressMap_get id (tr_progress tr).

(** [progress_mut] followed by the caller's mutation. *)
Definition Tracker_progress_mut (id : I) (f : Progress → Progress) (tr : Tracker) : Tracker :=
  set_tr_progress (ProgressMap_get_mut id f (tr_progress tr)) tr.

Definition Tracker_reset_recent_active (leader_id : I) (tr : Tracker) : Tracker :=
  let p := ProgressMap_values_mut (Progress_set_recent_active false) (tr_progress tr) in
  set_tr_progress (ProgressMap_get_mut leader_id (Progress_set_recent_active true) p) tr.

Definition Tracker_from_conf_state (cs : ConfState I) (last_index : Index)
    (max_inflight_msgs : nat) (max_inflight_bytes : u64) : Tracker :=
  let next := counter_next last_index in
  let p := foldl (λ p id,
      if negb (ProgressMap_contains_key id p) then
        ProgressMap_insert id (Progress_new next max_inflight_msgs max_inflight_bytes) p
      else p) ProgressMap_new
    (btree_iter (cs_voters cs) ++ btree_iter (cs_voters_outgoing cs)
     ++ btree_iter (cs_learners cs) ++ btree_iter (cs_learners_next cs)) in
  {| tr_voters := JointConfig_new (MajorityConfig_new (cs_voters cs))
                    (MajorityConfig_new (cs_voters_outgoing cs));
     tr_learners := cs_learners cs; tr_learners_next := cs_learners_next cs;
     tr_auto_leave := cs_auto_leave cs; tr_progress := p |}.

Definition Tracker_quorum_committed (tr : Tracker) : Index :=
  JointConfig_committed_index (tr_voters tr) (λ id,
    match ProgressMap_get id (tr_progress tr) with
    | Some p => pr_match_index p
    | None => 0
    end).

(** [votes] is the [BTreeMap] of recorded ballots. *)
Definition Tracker_vote_result (tr : Tracker) (votes : gmap I bool) : VoteResult :=
  JointConfig_vote_result (tr_voters tr) (λ id, votes !! id).

Definition Tracker_vote_result_by (tr : Tracker) (granted : I → bool) : VoteResult :=
  JointConfig_vote_result (tr_voters tr) (λ id, Some (granted id)).

Definition Tracker_quorum_active (tr : Tracker) : bool :=
  VoteResult_is_won (JointConfig_vote_result (tr_voters tr) (λ id,
    Some (match ProgressMap_get id (tr_progress tr) with
          | Some p => pr_recent_active p
          | None => false
          end))).

Definition Tracker_ids (tr : Tracker) : gset I :=
  JointConfig_ids (tr_voters tr) ∪ tr_learners tr ∪ tr_learners_next tr.

Definition Tracker_conf_state (tr : Tracker) : ConfState I :=
  ConfState_new (btree_iter (tr_incoming tr)) (btree_iter (tr_learners tr))
    (btree_iter (tr_outgoing tr)) (btree_iter (tr_learners_next tr)) (tr_auto_leave tr).

Definition Tracker_reset_progress (next_index : Index) (max_inflight_msgs : nat)
    (max_inflight_bytes : u64) (tr : Tracker) : Tracker :=
  set_tr_progress
    (foldl (λ p id,
       ProgressMap_insert id (Progress_new next_index max_inflight_msgs max_inflight_bytes) p)
       (ProgressMap_clear (tr_progress tr)) (btree_iter (Tracker_ids tr)))
    tr.

(** ** Invariant

    Exactly the members have a progress; learners are not voters of either
    half; staged demotions are outgoing voters that already left the incoming
    half; only a joint configuration can leave automatically. *)
Record Tracker_wf (tr : Tracker) : Prop := {
  twf_sorted : ProgressMap_wf (tr_progress tr);
  twf_members : dom (to_map (tr_progress tr)) = Tracker_ids tr;
  twf_learners : tr_learners tr ## tr_incoming tr ∪ tr_outgoing tr;
  twf_next_outgoing : tr_learners_next tr ⊆ tr_outgoing tr;
  twf_next_incoming : tr_learners_next tr ## tr_incoming tr;
  twf_simple : tr_outgoing tr = ∅ → tr_auto_leave tr = false;
}.

Lemma Tracker_ids_spec tr :
  Tracker_ids tr = tr_incoming tr ∪ tr_outgoing tr ∪ tr_learners tr ∪ tr_learners_next tr.
Proof. unfold Tracker_ids. by rewrite JointConfig_ids_spec. Qed.

Lemma Tracker_is_joint_spec tr : Tracker_is_joint tr = false ↔ tr_outgoing tr = ∅.
Proof.
  unfold Tracker_is_joint, MajorityConfig_is_empty, tr_outgoing.
  by rewrite negb_false_iff, bool_decide_eq_true.
Qed.

Lemma Tracker_new_wf : Tracker_wf Tracker_new.
Proof.
  constructor; try done; unfold tr_incoming, tr_outgoing; simpl; try set_solver.
  constructor.
Qed.

Lemma list_to_set_btree_iter (s : gset I) : list_to_set (btree_iter s) = s.
Proof. apply set_eq. intros x. by rewrite elem_of_list_to_set, elem_of_btree_iter. Qed.

Lemma Tracker_conf_state_spec tr :
  Tracker_conf_state tr =
  {| cs_voters := tr_incoming tr; cs_learners := tr_learners tr;
     cs_voters_outgoing := tr_outgoing tr; cs_learners_next := tr_learners_next tr;
     cs_auto_leave := tr_auto_leave tr |}.
Proof. unfold Tracker_conf_state, ConfState_new. by rewrite !list_to_set_btree_iter. Qed.

Lemma Tracker_wf_valid tr :
  Tracker_wf tr → tr_incoming tr ≠ ∅ → ConfState_valid (Tracker_conf_state tr).
Proof. intros [? ? ? ? ? ?] Hne. rewrite Tracker_conf_state_spec. by constructor. Qed.

(** *** Building the progress table *)

Lemma fold_insert_fresh (v : Progress) (p : ProgressMap I Progress) (X : gset I) ids :
  ProgressMap_wf p → to_map p = gset_to_gmap v X →
  let f := λ p id, if negb (ProgressMap_contains_key id p)
                   then ProgressMap_insert id v p else p in
  ProgressMap_wf (foldl f p ids)
  ∧ to_map (foldl f p ids) = gset_to_gmap v (X ∪ list_to_set ids).
Proof.
  intros Hwf Hp f. revert p X Hwf Hp. induction ids as [|id ids IH]; intros p X Hwf Hp; simpl.
  { split; [done|]. by rewrite union_empty_r_L. }
  replace (X ∪ ({[id]} ∪ list_to_set ids)) with (({[id]} ∪ X) ∪ list_to_set ids) by set_solver.
  apply IH; unfold f; rewrite ProgressMap_contains_key_spec, Hp, dom_gset_to_gmap by done.
  - case_bool_decide; simpl; [done|]. by apply ProgressMap_insert_spec.
  - case_bool_decide; simpl.
    + rewrite Hp. f_equal. set_solver.
    + destruct (ProgressMap_insert_spec id v p Hwf) as [_ ->].
      by rewrite Hp, gset_to_gmap_union_singleton.
Qed.

Lemma fold_insert_all (v : Progress) (p : ProgressMap I Progress) (X : gset I) ids :
  ProgressMap_wf p → to_map p = gset_to_gmap v X →
  let f := λ p id, ProgressMap_insert id v p in
  ProgressMap_wf (foldl f p ids)
  ∧ to_map (foldl f p ids) = gset_to_gmap v (X ∪ list_to_set ids).
Proof.
  intros Hwf Hp f. revert p X Hwf Hp. induction ids as [|id ids IH]; intros p X Hwf Hp; simpl.
  { split; [done|]. by rewrite union_empty_r_L. }
  replace (X ∪ ({[id]} ∪ list_to_set ids)) with (({[id]} ∪ X) ∪ list_to_set ids) by set_solver.
  destruct (ProgressMap_insert_spec id v p Hwf) as [Hwf' Hp'].
  apply IH; [done|]. unfold f. by rewrite Hp', Hp, gset_to_gmap_union_singleton.
Qed.

Lemma Tracker_from_conf_state_progress cs last m b :
  let tr := Tracker_from_conf_state cs last m b in
  ProgressMap_wf (tr_progress tr)
  ∧ to_map (tr_progress tr)
    = gset_to_gmap (Progress_new (counter_next last) m b) (Tracker_ids tr).
Proof.
  intros tr. edestruct (fold_insert_fresh (Progress_new (counter_next last) m b)
    ProgressMap_new ∅) as [Hwf Hm]; [apply ProgressMap_new_wf|done|].
  split; [exact Hwf|]. etrans; [exact Hm|]. f_equal. rewrite Tracker_ids_spec.
  unfold tr_incoming, tr_outgoing; simpl. rewrite !list_to_set_app_L, !list_to_set_btree_iter.
  set_solver.
Qed.

Lemma Tracker_from_conf_state_wf cs last m b :
  ConfState_valid cs → Tracker_wf (Tracker_from_conf_state cs last m b).
Proof.
  intros [Hv Hl Ho Hi Hs]. destruct (Tracker_from_conf_state_progress cs last m b) as [Hwf Hm].
  constructor; try done. by rewrite Hm, dom_gset_to_gmap.
Qed.

Lemma Tracker_reset_progress_spec next m b tr :
  Tracker_wf tr →
  Tracker_wf (Tracker_reset_progress next m b tr)
  ∧ to_map (tr_progress (Tracker_reset_progress next m b tr))
    = gset_to_gmap (Progress_new next m b) (Tracker_ids tr).
Proof.
  intros [? ? ? ? ? ?]. destruct (fold_insert_all (Progress_new next m b)
    (ProgressMap_clear (tr_progress tr)) ∅ (btree_iter (Tracker_ids tr))) as [Hwf Hm];
    [constructor|done|].
  rewrite list_to_set_btree_iter, union_empty_l_L in Hm.
  split; [constructor|]; try done.
  unfold Tracker_reset_progress. cbn [tr_progress set_tr_progress].
  by rewrite Hm, dom_gset_to_gmap.
Qed.

(** Changing one peer's progress changes no membership. *)
Lemma Tracker_progress_mut_spec id f tr :
  Tracker_wf tr →
  Tracker_wf (Tracker_progress_mut id f tr)
  ∧ ∀ id', Tracker_progress (Tracker_progress_mut id f tr) id'
      = if decide (id' = id) then f <$> Tracker_progress tr id else Tracker_progress tr id'.
Proof.
  intros Hwf. destruct (ProgressMap_get_mut_spec id f (tr_progress tr) (twf_sorted _ Hwf)) as [Hs Hm].
  destruct Hwf as [? Hdom ? ? ? ?]. split.
  - constructor; try done. simpl. by rewrite Hm, dom_alter_L.
  - intros id'. unfold Tracker_progress. simpl. rewrite !ProgressMap_get_spec, Hm by done.
    case_decide as E; [subst; by rewrite lookup_alter_eq|by rewrite lookup_alter_ne].
Qed.

Lemma Tracker_reset_recent_active_spec leader tr :
  Tracker_wf tr →
  Tracker_wf (Tracker_reset_recent_active leader tr)
  ∧ ∀ id, Tracker_progress (Tracker_reset_recent_active leader tr) id
      = Progress_set_recent_active (bool_decide (id = leader)) <$> Tracker_progress tr id.
Proof.
  intros Hwf.
  destruct (ProgressMap_values_mut_spec (Progress_set_recent_active false) (tr_progress tr)
    (twf_sorted _ Hwf)) as [Hs1 Hm1].
  destruct (ProgressMap_get_mut_spec leader (Progress_set_recent_active true) _ Hs1) as [Hs2 Hm2].
  destruct Hwf as [? Hdom ? ? ? ?]. split.
  - constructor; try done. simpl. by rewrite Hm2, Hm1, dom_alter_L, dom_fmap_L.
  - intros id. unfold Tracker_progress. simpl. rewrite !ProgressMap_get_spec, Hm2, Hm1 by done.
    case_bool_decide as E.
    + subst. rewrite lookup_alter_eq, lookup_fmap. by destruct (to_map _ !! leader).
    + rewrite lookup_alter_ne, lookup_fmap by done. done.
Qed.

(** ** Properties *)

(** Building a tracker from a configuration state and reading the state
    back is the identity, for any state; when the state passes [is_valid] the
    tracker is well formed, and its members are exactly the identifiers of the
    state, each with a fresh progress that starts after the last log index. *)
Theorem tracker_conf_state_roundtrip (cs : ConfState I) last m b :
  let tr := Tracker_from_conf_state cs last m b in
  Tracker_conf_state tr = cs
  ∧ (∀ id, Tracker_progress tr id =
       if decide (id ∈ cs_voters cs ∪ cs_voters_outgoing cs ∪ cs_learners cs ∪ cs_learners_next cs)
       then Some (Progress_new (counter_next last) m b) else None)
  ∧ (ConfState_is_valid cs = true → Tracker_wf tr).
Proof.
  intros tr. destruct (Tracker_from_conf_state_progress cs last m b) as [Hwf Hm].
  split_and!.
  - rewrite Tracker_conf_state_spec. by destruct cs.
  - intros id. unfold Tracker_progress. rewrite ProgressMap_get_spec by done. unfold tr.
    rewrite Hm, lookup_gset_to_gmap, Tracker_ids_spec. unfold tr_incoming, tr_outgoing; simpl.
    by case_decide; [rewrite option_guard_True|rewrite option_guard_False].
  - intros Hv%ConfState_is_valid_spec. by apply Tracker_from_conf_state_wf.
Qed.

(** The acknowledged index the leader holds for a peer. *)
Definition tracked_match (tr : Tracker) (id : I) : Index :=
  match Tracker_progress tr id with Some p => pr_match_index p | None => 0 end.

Definition tracked_active (tr : Tracker) (id : I) : bool :=
  match Tracker_progress tr id with Some p => pr_recent_active p | None => false end.

Lemma Tracker_quorum_active_spec tr :
  Tracker_quorum_active tr = true ↔ joint_majority (tr_voters tr) (tracked_active tr).
Proof.
  unfold Tracker_quorum_active.
  assert (∀ r, VoteResult_is_won r = true ↔ r = Won) as -> by (by intros []).
  rewrite joint_vote_won. split; by apply joint_majority_mono.
Qed.

(** The [recent_active] flags set since the last CheckQuorum window. *)
Definition mark_active (tr : Tracker) (heard : list I) : Tracker :=
  foldl (λ tr id, Tracker_progress_mut id (Progress_set_recent_active true) tr) tr heard.

Lemma mark_active_spec heard tr :
  Tracker_wf tr →
  tr_voters (mark_active tr heard) = tr_voters tr
  ∧ ∀ id, id ∈ Tracker_ids tr →
     tracked_active (mark_active tr heard) id = tracked_active tr id || bool_decide (id ∈ heard).
Proof.
  revert tr. induction heard as [|h heard IH]; intros tr Hwf; simpl.
  { split; [done|]. intros id _. by rewrite orb_false_r. }
  destruct (Tracker_progress_mut_spec h (Progress_set_recent_active true) tr Hwf) as [Hwf' Hp].
  destruct (IH _ Hwf') as [Hv Ha]. split; [done|]. intros id Hid. etrans; [by apply Ha|].
  unfold tracked_active at 1. rewrite Hp. unfold tracked_active. case_decide as E.
  - subst h. rewrite (bool_decide_eq_true_2 (id ∈ id :: heard)) by set_solver.
    rewrite orb_true_r. apply orb_true_intro. left. unfold Tracker_progress.
    rewrite ProgressMap_get_spec by apply Hwf.
    rewrite <- (twf_members _ Hwf), elem_of_dom in Hid. by destruct Hid as [p ->].
  - f_equal. apply bool_decide_ext. set_solver.
Qed.

Lemma joint_majority_ext (c : JointConfig I) p q :
  (∀ id, id ∈ JointConfig_ids c → p id = q id) → joint_majority c p ↔ joint_majority c q.
Proof.
  rewrite JointConfig_ids_spec. intros H.
  assert (H' : ∀ (p q : I → bool), (∀ id, id ∈ mc_ids (jc_incoming c) ∪ mc_ids (jc_outgoing c) →
    p id = q id) → joint_majority c p → joint_majority c q).
  { intros p' q' Hpq [H1 H2].
    split; (eapply majority_mono; [|done]); intros id Hid <-; symmetry; apply Hpq; set_solver. }
  split; apply H'; [done|]. intros id Hid. symmetry. by apply H.
Qed.

(** The CheckQuorum decision.  After a window is opened by resetting the
    activity flags, and the peers in [heard] have been marked active, the check
    passes exactly when the leader together with the peers it heard from form a
    quorum of both halves of the voter configuration. *)
Theorem check_quorum_correct (tr : Tracker) leader heard (Hwf : Tracker_wf tr) :
  Tracker_quorum_active (mark_active (Tracker_reset_recent_active leader tr) heard) = true
  ↔ joint_majority (tr_voters tr) (λ id, bool_decide (id = leader ∨ id ∈ heard)).
Proof.
  destruct (Tracker_reset_recent_active_spec leader tr Hwf) as [Hwf' Hp].
  destruct (mark_active_spec heard _ Hwf') as [Hv Ha].
  rewrite Tracker_quorum_active_spec, Hv. apply joint_majority_ext. intros id Hid.
  assert (Hin : id ∈ Tracker_ids tr).
  { rewrite Tracker_ids_spec. rewrite JointConfig_ids_spec in Hid. set_solver. }
  rewrite Ha by done. unfold tracked_active. rewrite Hp.
  unfold Tracker_progress. rewrite ProgressMap_get_spec by apply Hwf.
  rewrite <- (twf_members _ Hwf), elem_of_dom in Hin. destruct Hin as [p ->]. simpl.
  by rewrite bool_decide_or.
Qed.

(** *** Committed index and progress updates *)

Lemma Tracker_quorum_committed_spec tr m :
  is_u64 m →
  m ≤ Tracker_quorum_committed tr
  ↔ joint_majority (tr_voters tr) (λ id, m <=? tracked_match tr id).
Proof. intros Hm. unfold Tracker_quorum_committed. by rewrite joint_committed_index_le. Qed.
End tracker.
Arguments Tracker I {_}.

(** ** Witnesses *)

Definition three_state : ConfState N := ConfState_from_voters [1; 2; 3].
Definition three_tracker : Tracker N := Tracker_from_conf_state three_state 5 8 0.

Lemma three_tracker_wf : Tracker_wf three_tracker.
Proof. apply Tracker_from_conf_state_wf, ConfState_is_valid_spec. vm_compute. reflexivity. Qed.

Lemma check_quorum_correct_witness :
  Tracker_quorum_active (mark_active (Tracker_reset_recent_active 1 three_tracker) [3]) = true
  ↔ joint_majority (tr_voters three_tracker) (λ id, bool_decide (id = 1 ∨ id ∈ [3])).
Proof. exact (check_quorum_correct three_tracker 1 [3] three_tracker_wf). Defined.
