(* ===== verification/ConfChange.v ===== *)
(** * Configuration changes

    [confchange::Changer] of [sailing-proto/src/tracker/mod.rs]: the pure
    transformer that computes the next tracker from a list of single changes,
    either as one simple step or through a joint configuration.

    The specification is [mem_run], the effect of the changes on a pair of a
    voter set and a learner set.  The theorems give the exact outcome of
    [simple], [enter_joint] and [leave_joint] on a well-formed tracker, errors
    included, show that the checks [check_invariants] makes never fail, and
    that a quorum before a step and a quorum after it always share a node. *)

From S2P Require Import Prelude Bytes Num Quorum Inflights Progress ProgressMap Conf Tracker.

(** The payload of [InvariantViolation] names the violated check; the source
    formats the same information into a string. *)
Inductive Violation (I : Type) :=
| NoProgressForVoter (id : I)
| NoProgressForOutgoing (id : I)
| NoProgressForLearner (id : I)
| NoProgressForLearnersNext (id : I)
| LearnersNextNotOutgoing (id : I)
| LearnerIsOutgoing (id : I)
| LearnerIsIncoming (id : I)
| LearnersNextWhenSimple
| AutoLeaveWhenSimple.
Arguments NoProgressForVoter {_} _.
Arguments NoProgressForOutgoing {_} _.
Arguments NoProgressForLearner {_} _.
Arguments NoProgressForLearnersNext {_} _.
Arguments LearnersNextNotOutgoing {_} _.
Arguments LearnerIsOutgoing {_} _.
Arguments LearnerIsIncoming {_} _.
Arguments LearnersNextWhenSimple {_}.
Arguments AutoLeaveWhenSimple {_}.

Inductive ConfChangeError (I : Type) :=
| AlreadyJoint
| NotJoint
| SimpleInJoint
| MultipleVoterChanges
| EmptyVoterSet
| LearnersNextInSimple
| EmptyIncomingForJoint
| InvariantViolation (v : Violation I).
Arguments AlreadyJoint {_}.
Arguments NotJoint {_}.
Arguments SimpleInJoint {_}.
Arguments MultipleVoterChanges {_}.
Arguments EmptyVoterSet {_}.
Arguments LearnersNextInSimple {_}.
Arguments EmptyIncomingForJoint {_}.
Arguments InvariantViolation {_} _.

Record Changer := {
  ch_last_index : Index;
  ch_max_inflight_msgs : nat;
  ch_max_inflight_bytes : u64;
}.

Section confchange.
Context {I : Type} `{!NodeId I}.
Implicit Types (tr : Tracker I) (id : I).

(** The field assignments the methods make on their copy of the tracker. *)
Definition set_incoming (ids : gset I) (tr : Tracker I) : Tracker I :=
  {| tr_voters := JointConfig_new (MajorityConfig_new ids) (jc_outgoing (tr_voters tr));
     tr_learners := tr_learners tr; tr_learners_next := tr_learners_next tr;
     tr_auto_leave := tr_auto_leave tr; tr_progress := tr_progress tr |}.
Definition set_outgoing (ids : gset I) (tr : Tracker I) : Tracker I :=
  {| tr_voters := JointConfig_new (jc_incoming (tr_voters tr)) (MajorityConfig_new ids);
     tr_learners := tr_learners tr; tr_learners_next := tr_learners_next tr;
     tr_auto_leave := tr_auto_leave tr; tr_progress := tr_progress tr |}.
Definition set_learners (s : gset I) (tr : Tracker I) : Tracker I :=
  {| tr_voters := tr_voters tr; tr_learners := s; tr_learners_next := tr_learners_next tr;
     tr_auto_leave := tr_auto_leave tr; tr_progress := tr_progress tr |}.
Definition set_learners_next (s : gset I) (tr : Tracker I) : Tracker I :=
  {| tr_voters := tr_voters tr; tr_learners := tr_learners tr; tr_learners_next := s;
     tr_auto_leave := tr_auto_leave tr; tr_progress := tr_progress tr |}.
Definition set_auto_leave (b : bool) (tr : Tracker I) : Tracker I :=
  {| tr_voters := tr_voters tr; tr_learners := tr_learners tr;
     tr_learners_next := tr_learners_next tr; tr_auto_leave := b;
     tr_progress := tr_progress tr |}.

Definition has_progress (id : I) (tr : Tracker I) : bool :=
  ProgressMap_contains_key id (tr_progress tr).

Definition Changer_init_progress (c : Changer) (id : I) (is_learner : bool) (tr : Tracker I)
  : Tracker I :=
  let next := N.max (ch_last_index c) 1 in
  let pr := Progress_new next (ch_max_inflight_msgs c) (ch_max_inflight_bytes c) in
  let tr := set_tr_progress (ProgressMap_insert id pr (tr_progress tr)) tr in
  if is_learner then set_learners (tr_learners tr ∪ {[id]}) tr
  else set_incoming (tr_incoming tr ∪ {[id]}) tr.

Definition Changer_make_voter (c : Changer) (id : I) (tr : Tracker I) : Tracker I :=
  if negb (has_progress id tr) then Changer_init_progress c id false tr
  else
    let tr := set_learners (tr_learners tr ∖ {[id]}) tr in
    let tr := set_learners_next (tr_learners_next tr ∖ {[id]}) tr in
    set_incoming (tr_incoming tr ∪ {[id]}) tr.

Definition Changer_remove (id : I) (tr : Tracker I) : Tracker I :=
  if negb (has_progress id tr) then tr
  else
    let tr := set_incoming (tr_incoming tr ∖ {[id]}) tr in
    let tr := set_learners (tr_learners tr ∖ {[id]}) tr in
    let tr := set_learners_next (tr_learners_next tr ∖ {[id]}) tr in
    if negb (MajorityConfig_contains (jc_outgoing (tr_voters tr)) id) then
      set_tr_progress (ProgressMap_remove id (tr_progress tr)).2 tr
    else tr.

Definition Changer_make_learner (c : Changer) (id : I) (tr : Tracker I) : Tracker I :=
  if negb (has_progress id tr) then Changer_init_progress c id true tr
  else if bool_decide (id ∈ tr_learners tr)
          && negb (MajorityConfig_contains (jc_incoming (tr_voters tr)) id) then tr
  else
    let saved_pr := ProgressMap_get id (tr_progress tr) in
    let tr := Changer_remove id tr in
    let tr :=
      match saved_pr with
      | Some pr =>
          if negb (has_progress id tr)
          then set_tr_progress (ProgressMap_insert id pr (tr_progress tr)) tr
          else tr
      | None => tr
      end in
    if MajorityConfig_contains (jc_outgoing (tr_voters tr)) id
    then set_learners_next (tr_learners_next tr ∪ {[id]}) tr
    else set_learners (tr_learners tr ∪ {[id]}) tr.

Definition apply_single (c : Changer) (tr : Tracker I) (cc : ConfChangeSingle I) : Tracker I :=
  match ccs_ty cc with
  | AddNode => Changer_make_voter c (ccs_node cc) tr
  | AddLearnerNode => Changer_make_learner c (ccs_node cc) tr
  | RemoveNode => Changer_remove (ccs_node cc) tr
  end.

Definition Changer_apply (c : Changer) (tr : Tracker I) (changes : list (ConfChangeSingle I))
  : result (Tracker I) (ConfChangeError I) :=
  let tr := foldl (apply_single c) tr changes in
  if MajorityConfig_is_empty (jc_incoming (tr_voters tr)) then Err EmptyVoterSet
  else Ok tr.

(** A loop that returns an error at the first member failing a check. *)
Fixpoint check_each (bad : I → option (Violation I)) (ids : list I)
  : result unit (ConfChangeError I) :=
  match ids with
  | [] => Ok tt
  | id :: ids =>
      match bad id with
      | Some v => Err (InvariantViolation v)
      | None => check_each bad ids
      end
  end.

Definition check_progress (tr : Tracker I) (v : I → Violation I) (id : I) : option (Violation I) :=
  if negb (has_progress id tr) then Some (v id) else None.

Definition Changer_check_invariants (tr : Tracker I) : result unit (ConfChangeError I) :=
  let? _ := check_each (check_progress tr NoProgressForVoter) (btree_iter (tr_incoming tr)) in
  let? _ := check_each (check_progress tr NoProgressForOutgoing) (btree_iter (tr_outgoing tr)) in
  let? _ := check_each (check_progress tr NoProgressForLearner) (btree_iter (tr_learners tr)) in
  let? _ := check_each (check_progress tr NoProgressForLearnersNext)
              (btree_iter (tr_learners_next tr)) in
  let? _ := check_each (λ id,
                if negb (MajorityConfig_contains (jc_outgoing (tr_voters tr)) id)
                then Some (LearnersNextNotOutgoing id) else None)
              (btree_iter (tr_learners_next tr)) in
  let? _ := check_each (λ id,
                if MajorityConfig_contains (jc_outgoing (tr_voters tr)) id
                then Some (LearnerIsOutgoing id)
                else if MajorityConfig_contains (jc_incoming (tr_voters tr)) id
                then Some (LearnerIsIncoming id) else None)
              (btree_iter (tr_learners tr)) in
  if negb (Tracker_is_joint tr) then
    if negb (bool_decide (tr_learners_next tr = ∅))
    then Err (InvariantViolation LearnersNextWhenSimple)
    else if tr_auto_leave tr then Err (InvariantViolation AutoLeaveWhenSimple)
    else Ok tt
  else Ok tt.

(** The [debug_assert!] at the end of [check_invariants]. *)
Definition no_orphan_progress (tr : Tracker I) : bool :=
  forallb (λ id, bool_decide (id ∈ Tracker_ids tr)) (ProgressMap_keys (tr_progress tr)).

Definition sym_diff (a b : gset I) : nat :=
  (countb (λ id, negb (bool_decide (id ∈ b))) (btree_iter a)
   + countb (λ id, negb (bool_decide (id ∈ a))) (btree_iter b))%nat.

Definition Changer_simple (c : Changer) (tr : Tracker I) (changes : list (ConfChangeSingle I))
  : result (Tracker I) (ConfChangeError I) :=
  if Tracker_is_joint tr then Err SimpleInJoint
  else
    let incoming_before := tr_incoming tr in
    let? next := Changer_apply c tr changes in
    if decide (1 < sym_diff incoming_before (tr_incoming next))%nat then Err MultipleVoterChanges
    else if negb (bool_decide (tr_learners_next next = ∅)) then Err LearnersNextInSimple
    else
      let? _ := Changer_check_invariants next in
      Ok next.

Definition Changer_enter_joint (c : Changer) (tr : Tracker I) (auto_leave : bool)
    (changes : list (ConfChangeSingle I)) : result (Tracker I) (ConfChangeError I) :=
  if Tracker_is_joint tr then Err AlreadyJoint
  else if MajorityConfig_is_empty (jc_incoming (tr_voters tr)) then Err EmptyIncomingForJoint
  else
    let next := set_outgoing (tr_incoming tr) tr in
    let? next := Changer_apply c next changes in
    let next := set_auto_leave auto_leave next in
    let? _ := Changer_check_invariants next in
    Ok next.

Definition Changer_leave_joint (tr : Tracker I) : result (Tracker I) (ConfChangeError I) :=
  if negb (Tracker_is_joint tr) then Err NotJoint
  else
    let staged := tr_learners_next tr in
    let next := foldl (λ t id, set_learners (tr_learners t ∪ {[id]}) t) tr (btree_iter staged) in
    let next := set_learners_next ∅ next in
    let outgoing_ids := tr_outgoing next in
    let next := set_outgoing ∅ next in
    let next := set_auto_leave false next in
    let still_needed := Tracker_ids next in
    let next := foldl (λ t id,
        if negb (bool_decide (id ∈ still_needed))
        then set_tr_progress (ProgressMap_remove id (tr_progress t)).2 t else t)
      next (btree_iter outgoing_ids) in
    let? _ := Changer_check_invariants next in
    Ok next.

(** ** Specification: the effect of changes on voters and learners *)

Definition mem_apply (m : gset I * gset I) (cc : ConfChangeSingle I) : gset I * gset I :=
  let id := ccs_node cc in
  match ccs_ty cc with
  | AddNode => (m.1 ∪ {[id]}, m.2 ∖ {[id]})
  | AddLearnerNode => (m.1 ∖ {[id]}, m.2 ∪ {[id]})
  | RemoveNode => (m.1 ∖ {[id]}, m.2 ∖ {[id]})
  end.

Definition mem_run : gset I * gset I → list (ConfChangeSingle I) → gset I * gset I :=
  foldl mem_apply.

(** The voters and the learners of a tracker, the staged ones included. *)
Definition members (tr : Tracker I) : gset I * gset I :=
  (tr_incoming tr, tr_learners tr ∪ tr_learners_next tr).

(** ** The single changes *)

Lemma has_progress_spec id tr :
  Tracker_wf tr → has_progress id tr = bool_decide (id ∈ Tracker_ids tr).
Proof.
  intros [Hs Hd ? ? ? ?]. unfold has_progress. by rewrite ProgressMap_contains_key_spec, Hd.
Qed.

Lemma contains_spec (c : MajorityConfig I) id :
  MajorityConfig_contains c id = bool_decide (id ∈ mc_ids c).
Proof. done. Qed.

(** Unfold the field updates down to set equations. *)
Ltac tr_sets :=
  rewrite ?Tracker_ids_spec in *; unfold members, tr_incoming, tr_outgoing in *; simpl in *.

(** Prove a set equation, inclusion or disjointness element by element, from
    the set hypotheses of the context; [id] is the node being changed. *)
Ltac pointwise id :=
  let x := fresh "x" in
  lazymatch goal with
  | |- _ = _ => apply set_eq; intros x
  | |- _ ⊆ _ => intros x
  | |- _ ## _ => apply elem_of_disjoint; intros x
  end;
  repeat match goal with
  | H : _ ⊆ _ |- _ => specialize (H x)
  | H : _ ## _ |- _ => rewrite elem_of_disjoint in H; specialize (H x)
  end;
  do 2 rewrite ?elem_of_union, ?elem_of_difference, ?elem_of_singleton, ?elem_of_empty in *;
  pose proof (eq_refl id); destruct (decide (x = id)); [subst x|]; tauto.

Definition step_ok (f : gset I * gset I → gset I * gset I) (tr tr' : Tracker I) : Prop :=
  Tracker_wf tr' ∧ members tr' = f (members tr)
  ∧ tr_outgoing tr' = tr_outgoing tr ∧ tr_auto_leave tr' = tr_auto_leave tr.

Lemma make_voter_ok c id tr :
  Tracker_wf tr →
  step_ok (λ m, (m.1 ∪ {[id]}, m.2 ∖ {[id]})) tr (Changer_make_voter c id tr).
Proof.
  intros Hwf. unfold Changer_make_voter. rewrite has_progress_spec by done.
  destruct Hwf as [Hs Hd Hl Ho Hi Ha]. case_bool_decide as Hid; simpl.
  - split_and!; [constructor|..]; tr_sets; rewrite ?Hd; try done; try pointwise id.
    f_equal; pointwise id.
  - set (pr := Progress_new _ _ _).
    destruct (ProgressMap_insert_spec id pr (tr_progress tr) Hs) as [Hs' Hm].
    split_and!; [constructor|..]; tr_sets; rewrite ?Hm, ?dom_insert_L, ?Hd; try done;
      try pointwise id.
    f_equal; pointwise id.
Qed.

(** [remove] takes [id] out of every set it can leave. *)
Lemma remove_sets id tr :
  Tracker_wf tr →
  let tr' := Changer_remove id tr in
  tr_incoming tr' = tr_incoming tr ∖ {[id]} ∧ tr_outgoing tr' = tr_outgoing tr
  ∧ tr_learners tr' = tr_learners tr ∖ {[id]}
  ∧ tr_learners_next tr' = tr_learners_next tr ∖ {[id]}
  ∧ tr_auto_leave tr' = tr_auto_leave tr ∧ Tracker_wf tr'.
Proof.
  intros Hwf. unfold Changer_remove. rewrite has_progress_spec by done.
  pose proof Hwf as [Hs Hd Hl Ho Hi Ha]. case_bool_decide as Hid; simpl.
  2: { rewrite Tracker_ids_spec, !not_elem_of_union in Hid.
       assert (Hn : ∀ X : gset I, id ∉ X → X = X ∖ {[id]}) by set_solver.
       split_and!; try done; apply Hn; tauto. }
  rewrite contains_spec. simpl. case_bool_decide as Hout; simpl.
  - split_and!; try done. constructor; tr_sets; rewrite ?Hd; try done; pointwise id.
  - destruct (ProgressMap_remove_spec id (tr_progress tr) Hs) as (Hs' & Hm & _).
    split_and!; try done. constructor; tr_sets; rewrite ?Hm, ?dom_delete_L, ?Hd; try done;
      pointwise id.
Qed.

Lemma remove_ok id tr :
  Tracker_wf tr →
  step_ok (λ m, (m.1 ∖ {[id]}, m.2 ∖ {[id]})) tr (Changer_remove id tr).
Proof.
  intros Hwf. destruct (remove_sets id tr Hwf) as (Hi & Ho & Hl & Hn & Ha & Hwf').
  split_and!; try done. unfold members; simpl. rewrite Hi, Hl, Hn. f_equal. pointwise id.
Qed.

(** Putting back the saved progress after [remove]: exactly [id]'s entry is
    tracked again. *)
Lemma restore_progress id pr tr :
  Tracker_wf tr →
  let tr' := if negb (has_progress id tr)
             then set_tr_progress (ProgressMap_insert id pr (tr_progress tr)) tr else tr in
  ProgressMap_wf (tr_progress tr') ∧ dom (to_map (tr_progress tr')) = Tracker_ids tr ∪ {[id]}
  ∧ tr_voters tr' = tr_voters tr ∧ tr_learners tr' = tr_learners tr
  ∧ tr_learners_next tr' = tr_learners_next tr ∧ tr_auto_leave tr' = tr_auto_leave tr.
Proof.
  intros Hwf. rewrite has_progress_spec by done. destruct Hwf as [Hs Hd _ _ _ _].
  case_bool_decide as Hid; simpl.
  - split_and!; try done. rewrite Hd. set_solver.
  - destruct (ProgressMap_insert_spec id pr _ Hs) as [Hs' Hm]. split_and!; try done.
    rewrite Hm, dom_insert_L, Hd. set_solver.
Qed.

Lemma make_learner_ok c id tr :
  Tracker_wf tr →
  step_ok (λ m, (m.1 ∖ {[id]}, m.2 ∪ {[id]})) tr (Changer_make_learner c id tr).
Proof.
  intros Hwf. unfold Changer_make_learner. rewrite has_progress_spec by done.
  pose proof Hwf as [Hs Hd Hl Ho Hi Ha]. case_bool_decide as Hid; simpl.
  2: { set (pr := Progress_new _ _ _).
       destruct (ProgressMap_insert_spec id pr (tr_progress tr) Hs) as [Hs' Hm].
       split_and!; [constructor|..]; tr_sets; rewrite ?Hm, ?dom_insert_L, ?Hd; try done;
         try pointwise id.
       f_equal; pointwise id. }
  rewrite contains_spec. case_bool_decide as Hlrn; simpl; [case_bool_decide; simpl|].
  2: { split_and!; try done. tr_sets. f_equal; pointwise id. }
  1: { exfalso. tr_sets. set_solver. }
  destruct (remove_sets id tr Hwf) as (Ei & Eo & El & En & Ea & Hwf').
  assert (is_Some (ProgressMap_get id (tr_progress tr))) as [pr ->].
  { rewrite ProgressMap_get_spec by done. by rewrite <- elem_of_dom, Hd. }
  destruct (restore_progress id pr _ Hwf') as (Hs2 & Hd2 & Ev & El2 & En2 & Ea2).
  set (t2 := if negb _ then _ else _) in *. rewrite contains_spec.
  rewrite Tracker_ids_spec, Ei, Eo, El, En in Hd2. rewrite El in El2. rewrite En in En2.
  assert (Ei2 : tr_incoming t2 = tr_incoming tr ∖ {[id]})
    by (rewrite <- Ei; unfold tr_incoming; by rewrite Ev).
  assert (Eo2 : tr_outgoing t2 = tr_outgoing tr)
    by (rewrite <- Eo; unfold tr_outgoing; by rewrite Ev).
  fold (tr_outgoing t2). clearbody t2. rewrite Eo2. rewrite Tracker_ids_spec in Hid.
  case_bool_decide as Hout; (split_and!; [constructor|..]); rewrite ?Tracker_ids_spec;
    unfold members; simpl;
    try change (tr_incoming (set_learners_next _ t2)) with (tr_incoming t2);
    try change (tr_outgoing (set_learners_next _ t2)) with (tr_outgoing t2);
    try change (tr_incoming (set_learners _ t2)) with (tr_incoming t2);
    try change (tr_outgoing (set_learners _ t2)) with (tr_outgoing t2);
    rewrite ?Hd2, ?Ei2, ?Eo2, ?El2, ?En2, ?Ea2, ?Ea; try done; try pointwise id.
  all: f_equal; pointwise id.
Qed.

Lemma apply_single_ok c cc tr :
  Tracker_wf tr → step_ok (λ m, mem_apply m cc) tr (apply_single c tr cc).
Proof.
  intros Hwf. unfold apply_single, mem_apply.
  destruct (ccs_ty cc); [by apply make_voter_ok|by apply remove_ok|by apply make_learner_ok].
Qed.

Lemma apply_run_ok c ccs tr :
  Tracker_wf tr → step_ok (λ m, mem_run m ccs) tr (foldl (apply_single c) tr ccs).
Proof.
  revert tr. induction ccs as [|cc ccs IH]; intros tr Hwf; simpl.
  { by split_and!. }
  destruct (apply_single_ok c cc tr Hwf) as (Hwf1 & Hm1 & Ho1 & Ha1).
  destruct (IH _ Hwf1) as (Hwf2 & Hm2 & Ho2 & Ha2).
  split_and!; [done| |congruence..]. by rewrite Hm2, Hm1.
Qed.

Lemma apply_run_incoming c ccs tr :
  Tracker_wf tr → tr_incoming (foldl (apply_single c) tr ccs) = (mem_run (members tr) ccs).1.
Proof. intros Hwf. destruct (apply_run_ok c ccs tr Hwf) as (_ & <- & _). done. Qed.

Lemma Changer_apply_spec c ccs tr :
  Tracker_wf tr →
  Changer_apply c tr ccs =
  if bool_decide ((mem_run (members tr) ccs).1 = ∅) then Err EmptyVoterSet
  else Ok (foldl (apply_single c) tr ccs).
Proof.
  intros Hwf. unfold Changer_apply, MajorityConfig_is_empty.
  fold (tr_incoming (foldl (apply_single c) tr ccs)). by rewrite apply_run_incoming.
Qed.

(** ** The checks never fail on a well-formed tracker *)

Lemma check_each_ok bad ids : (∀ id, id ∈ ids → bad id = None) → check_each bad ids = Ok tt.
Proof.
  induction ids as [|id ids IH]; intros H; simpl; [done|].
  rewrite H by set_solver. apply IH. set_solver.
Qed.

Lemma Changer_check_invariants_ok tr :
  Tracker_wf tr → Changer_check_invariants tr = Ok tt ∧ no_orphan_progress tr = true.
Proof.
  intros Hwf.
  assert (Hp : ∀ v (s : gset I), s ⊆ Tracker_ids tr →
    check_each (check_progress tr v) (btree_iter s) = Ok tt).
  { intros v s Hs. apply check_each_ok. intros id Hid%elem_of_btree_iter.
    unfold check_progress. rewrite has_progress_spec by done.
    by rewrite bool_decide_eq_true_2 by (by apply Hs). }
  pose proof Hwf as [Hs Hd Hl Ho Hi Ha]. rewrite Tracker_ids_spec in Hp. split.
  - unfold Changer_check_invariants. rewrite !Hp by set_solver. simpl.
    rewrite check_each_ok; [simpl|].
    2: { intros id Hid%elem_of_btree_iter. rewrite contains_spec.
         by rewrite bool_decide_eq_true_2 by (by apply Ho). }
    rewrite check_each_ok; [simpl|].
    2: { intros id Hid%elem_of_btree_iter. rewrite !contains_spec.
         rewrite !bool_decide_eq_false_2; [done|..]; unfold tr_incoming, tr_outgoing in Hl;
         set_solver. }
    destruct (Tracker_is_joint tr) eqn:Ej; simpl; [done|]. apply Tracker_is_joint_spec in Ej.
    rewrite bool_decide_eq_true_2 by set_solver. simpl. by rewrite Ha.
  - unfold no_orphan_progress. apply forallb_forall. intros id Hid%list_elem_of_In.
    apply bool_decide_eq_true. rewrite <- Hd. by apply ProgressMap_keys_spec.
Qed.

(** ** Exact outcomes *)

Lemma simple_next_empty tr : Tracker_wf tr → tr_outgoing tr = ∅ → tr_learners_next tr = ∅.
Proof. intros [_ _ _ Ho _ _] E. rewrite E in Ho. set_solver. Qed.

Lemma Changer_simple_spec c tr ccs :
  Tracker_wf tr →
  Changer_simple c tr ccs =
  let V := (mem_run (members tr) ccs).1 in
  if Tracker_is_joint tr then Err SimpleInJoint
  else if bool_decide (V = ∅) then Err EmptyVoterSet
  else if decide (1 < sym_diff (tr_incoming tr) V)%nat then Err MultipleVoterChanges
  else Ok (foldl (apply_single c) tr ccs).
Proof.
  intros Hwf. cbv zeta. set (V := (mem_run (members tr) ccs).1).
  unfold Changer_simple. destruct (Tracker_is_joint tr) eqn:Ej; [done|].
  rewrite Changer_apply_spec by done. fold V. case_bool_decide as HV; simpl; [done|].
  rewrite apply_run_incoming by done. fold V. case_decide; [done|].
  destruct (apply_run_ok c ccs tr Hwf) as (Hwf' & _ & Ho & _).
  apply Tracker_is_joint_spec in Ej. rewrite Ej in Ho.
  rewrite bool_decide_eq_true_2 by (by apply simple_next_empty). simpl.
  by destruct (Changer_check_invariants_ok _ Hwf') as [-> _].
Qed.

Lemma set_outgoing_wf tr :
  Tracker_wf tr → tr_outgoing tr = ∅ → Tracker_wf (set_outgoing (tr_incoming tr) tr).
Proof.
  intros Hwf Eo. pose proof (simple_next_empty tr Hwf Eo) as En.
  destruct Hwf as [Hs Hd Hl Ho Hi Ha]. constructor; try done.
  - simpl. rewrite Hd, !Tracker_ids_spec, Eo. unfold tr_incoming, tr_outgoing. simpl. set_solver.
  - rewrite Eo in Hl. unfold tr_incoming, tr_outgoing in *. simpl. set_solver.
  - simpl. rewrite En. set_solver.
  - intros _. simpl. by apply Ha.
Qed.

Lemma set_auto_leave_wf b tr : Tracker_wf tr → tr_outgoing tr ≠ ∅ → Tracker_wf (set_auto_leave b tr).
Proof. intros [Hs Hd Hl Ho Hi Ha] Hne. by constructor. Qed.

Lemma Changer_enter_joint_spec c tr al ccs :
  Tracker_wf tr →
  Changer_enter_joint c tr al ccs =
  if Tracker_is_joint tr then Err AlreadyJoint
  else if bool_decide (tr_incoming tr = ∅) then Err EmptyIncomingForJoint
  else if bool_decide ((mem_run (members tr) ccs).1 = ∅) then Err EmptyVoterSet
  else Ok (set_auto_leave al
             (foldl (apply_single c) (set_outgoing (tr_incoming tr) tr) ccs)).
Proof.
  intros Hwf. unfold Changer_enter_joint. destruct (Tracker_is_joint tr) eqn:Ej; [done|].
  apply Tracker_is_joint_spec in Ej. unfold MajorityConfig_is_empty. fold (tr_incoming tr).
  case_bool_decide as Hi; [done|]. pose proof (set_outgoing_wf tr Hwf Ej) as Hwf1.
  rewrite Changer_apply_spec by done. change (members (set_outgoing _ tr)) with (members tr).
  case_bool_decide; simpl; [done|].
  destruct (apply_run_ok c ccs _ Hwf1) as (Hwf2 & _ & Ho & _).
  destruct (Changer_check_invariants_ok (set_auto_leave al
    (foldl (apply_single c) (set_outgoing (tr_incoming tr) tr) ccs))) as [-> _]; [|done].
  apply set_auto_leave_wf; [done|]. by rewrite Ho.
Qed.
End confchange.
