(* ===== verification/ConfChangeProps.v ===== *)
(** * Properties of configuration changes

    Leaving a joint configuration, what a change keeps of the tracked
    progress, the refinement of the whole changer to [mem_run], and quorum
    overlap between consecutive configurations. *)

From S2P Require Import Prelude Bytes Num Quorum Inflights Progress ProgressMap Conf Tracker.
From S2P Require Import ConfChange.

Section leave.
Context {I : Type} `{!NodeId I}.
Implicit Types (tr : Tracker I) (id : I).

Lemma fold_set_learners (l : list I) tr :
  foldl (λ t id, set_learners (tr_learners t ∪ {[id]}) t) tr l
  = set_learners (tr_learners tr ∪ list_to_set l) tr.
Proof.
  revert tr. induction l as [|id l IH]; intros tr; simpl.
  - rewrite union_empty_r_L. by destruct tr.
  - rewrite IH. unfold set_learners. simpl. f_equal. by rewrite (assoc_L (∪)).
Qed.

Lemma fold_remove_progress (needed : gset I) (l : list I) tr :
  ProgressMap_wf (tr_progress tr) →
  let tr' := foldl (λ t id, if negb (bool_decide (id ∈ needed))
               then set_tr_progress (ProgressMap_remove id (tr_progress t)).2 t else t) tr l in
  ∃ p, tr' = set_tr_progress p tr ∧ ProgressMap_wf p
    ∧ ∀ id, to_map p !! id = if decide (id ∈ l ∧ id ∉ needed) then None
                             else to_map (tr_progress tr) !! id.
Proof.
  revert tr. induction l as [|i l IH]; intros tr Hwf; cbn [foldl].
  { exists (tr_progress tr). split_and!; [by destruct tr|done|].
    intros id. rewrite decide_False; [done|]. set_solver. }
  case_bool_decide as Hi; simpl.
  - destruct (IH tr Hwf) as (p & -> & Hp & Hm). exists p. split_and!; try done.
    intros id. rewrite Hm. apply decide_ext. set_solver.
  - destruct (ProgressMap_remove_spec i (tr_progress tr) Hwf) as (Hwf' & Hm' & _).
    destruct (IH (set_tr_progress (ProgressMap_remove i (tr_progress tr)).2 tr) Hwf')
      as (p & -> & Hp & Hm).
    exists p. split_and!; try done. intros id. rewrite Hm. simpl. rewrite Hm'.
    destruct (decide (id = i)) as [->|Hne].
    + rewrite lookup_delete_eq, (decide_True (P := i ∈ i :: l ∧ i ∉ needed)) by set_solver.
      by case_decide.
    + rewrite lookup_delete_ne by done. apply decide_ext. set_solver.
Qed.

(** The tracker [leave_joint] produces before it drops stale progress. *)
Definition left_joint (tr : Tracker I) : Tracker I :=
  set_auto_leave false (set_outgoing ∅ (set_learners_next ∅
    (set_learners (tr_learners tr ∪ tr_learners_next tr) tr))).

Lemma left_joint_ids tr :
  Tracker_ids (left_joint tr) = tr_incoming tr ∪ tr_learners tr ∪ tr_learners_next tr.
Proof. rewrite Tracker_ids_spec. unfold tr_incoming, tr_outgoing. simpl. set_solver. Qed.

Lemma Changer_leave_joint_spec tr :
  Tracker_wf tr →
  if Tracker_is_joint tr then
    ∃ tr', Changer_leave_joint tr = Ok tr' ∧ Tracker_wf tr'
      ∧ tr_outgoing tr' = ∅ ∧ tr_auto_leave tr' = false
      ∧ (tr_incoming tr', tr_learners tr') = members tr
      ∧ ∀ id, id ∈ Tracker_ids tr' → Tracker_progress tr' id = Tracker_progress tr id
  else Changer_leave_joint tr = Err NotJoint.
Proof.
  intros Hwf. unfold Changer_leave_joint. destruct (Tracker_is_joint tr); cbn [negb]; [|done].
  rewrite fold_set_learners, list_to_set_btree_iter. fold (left_joint tr).
  change (tr_outgoing (set_learners_next _ _)) with (tr_outgoing tr).
  pose proof Hwf as [Hs Hd Hl Ho Hi Ha].
  destruct (fold_remove_progress (Tracker_ids (left_joint tr)) (btree_iter (tr_outgoing tr))
    (left_joint tr) Hs) as (p & E & Hp & Hm).
  rewrite E. set (tr' := set_tr_progress p (left_joint tr)).
  assert (Hids : Tracker_ids tr' = tr_incoming tr ∪ tr_learners tr ∪ tr_learners_next tr)
    by apply left_joint_ids.
  assert (Hm' : ∀ id, to_map p !! id =
    if decide (id ∈ tr_outgoing tr ∧ id ∉ tr_incoming tr ∪ tr_learners tr ∪ tr_learners_next tr)
    then None else to_map (tr_progress tr) !! id).
  { intros id. rewrite Hm. apply decide_ext. by rewrite elem_of_btree_iter, left_joint_ids. }
  clear Hm. rename Hm' into Hm.
  assert (Hwf' : Tracker_wf tr').
  { constructor.
    - exact Hp.
    - rewrite Hids. apply set_eq. intros id. rewrite elem_of_dom.
      change (tr_progress tr') with p. rewrite Hm, Tracker_ids_spec in *. case_decide as Hx.
      + split; [by intros [? ?]|]. tauto.
      + rewrite <- elem_of_dom, Hd. rewrite !elem_of_union in *.
        destruct (decide (id ∈ tr_outgoing tr)); [|tauto].
        destruct (decide (id ∈ tr_incoming tr ∪ tr_learners tr ∪ tr_learners_next tr)) as [Hy|Hy];
          rewrite !elem_of_union in Hy; tauto.
    - change (tr_learners tr ∪ tr_learners_next tr ## tr_incoming tr ∪ ∅).
      rewrite union_empty_r_L. apply disjoint_union_l. split; [|done].
      by apply disjoint_union_r in Hl as [? _].
    - apply empty_subseteq.
    - apply disjoint_empty_l.
    - by intros _. }
  destruct (Changer_check_invariants_ok tr' Hwf') as [-> _]. exists tr'. split_and!; try done.
  intros id. rewrite Hids. intros Hid. unfold Tracker_progress.
  rewrite !ProgressMap_get_spec by done. simpl. rewrite Hm. rewrite decide_False; [done|tauto].
Qed.
End leave.

(** ** Progress kept by a change *)

Section keep.
Context {I : Type} `{!NodeId I}.
Implicit Types (tr : Tracker I) (id : I).

(** [make_learner] removes the node and puts its saved progress back. *)
Lemma remove_restore_map n pr (m : ProgressMap I Progress) :
  ProgressMap_wf m → ProgressMap_get n m = Some pr →
  let m' := (ProgressMap_remove n m).2 in
  ProgressMap_contains_key n m' = false
  ∧ ∀ id, ProgressMap_get id (ProgressMap_insert n pr m') = ProgressMap_get id m.
Proof.
  intros Hs Hpr m'. destruct (ProgressMap_remove_spec n m Hs) as (Hs' & Hm & _).
  fold m' in Hs', Hm. split.
  - rewrite ProgressMap_contains_key_spec, Hm, dom_delete_L by done.
    apply bool_decide_eq_false. set_solver.
  - intros id. destruct (ProgressMap_insert_spec n pr m' Hs') as [Hs2 Hm2].
    rewrite ProgressMap_get_spec in Hpr by done.
    rewrite !ProgressMap_get_spec, Hm2, Hm by done. by rewrite insert_delete_id.
Qed.

Lemma make_learner_progress c n tr id :
  Tracker_wf tr → has_progress n tr = true →
  Tracker_progress (Changer_make_learner c n tr) id = Tracker_progress tr id.
Proof.
  intros Hwf Ep. pose proof (twf_sorted _ Hwf) as Hs. unfold Changer_make_learner, Tracker_progress.
  rewrite Ep. cbn [negb]. case_match; [done|].
  unfold has_progress in Ep. rewrite ProgressMap_contains_key_get in Ep by done.
  apply bool_decide_eq_true in Ep as [pr Hpr]. rewrite Hpr.
  assert (Ep : has_progress n tr = true).
  { unfold has_progress. rewrite ProgressMap_contains_key_get, Hpr by done. by apply bool_decide_eq_true. }
  unfold Changer_remove. rewrite Ep. cbn [negb].
  destruct (MajorityConfig_contains (jc_outgoing (tr_voters (set_learners_next _ _))) n) eqn:Eo;
    cbn [negb].
  - unfold has_progress at 1 in Ep. unfold has_progress.
    change (tr_progress (set_learners_next _ _)) with (tr_progress tr). rewrite Ep. cbn [negb].
    by case_match.
  - destruct (remove_restore_map n pr (tr_progress tr) Hs Hpr) as [Hk Hg]. unfold has_progress.
    cbn [tr_progress set_tr_progress set_learners set_learners_next set_incoming].
    rewrite Hk. cbn [negb]. by case_match; rewrite <- Hg.
Qed.

(** A change that does not remove [id] keeps the progress recorded for it. *)
Lemma apply_single_progress c cc tr id :
  Tracker_wf tr → id ∈ Tracker_ids tr → ccs_node cc ≠ id ∨ ccs_ty cc ≠ RemoveNode →
  Tracker_progress (apply_single c tr cc) id = Tracker_progress tr id.
Proof.
  intros Hwf Hid Hcc. unfold apply_single. set (n := ccs_node cc) in *.
  pose proof (has_progress_spec n tr Hwf) as Hn. pose proof (twf_sorted _ Hwf) as Hs.
  assert (Hins : ∀ pr, n ≠ id →
    ProgressMap_get id (ProgressMap_insert n pr (tr_progress tr)) = ProgressMap_get id (tr_progress tr)).
  { intros pr Hne. destruct (ProgressMap_insert_spec n pr _ Hs) as [Hs' Hm].
    by rewrite !ProgressMap_get_spec, Hm, lookup_insert_ne by done. }
  assert (Hrm : n ≠ id → ProgressMap_get id (ProgressMap_remove n (tr_progress tr)).2
    = ProgressMap_get id (tr_progress tr)).
  { intros Hne. destruct (ProgressMap_remove_spec n _ Hs) as (Hs' & Hm & _).
    by rewrite !ProgressMap_get_spec, Hm, lookup_delete_ne by done. }
  assert (Hfresh : has_progress n tr = false → n ≠ id).
  { rewrite Hn, bool_decide_eq_false. intros H ->. done. }
  unfold Tracker_progress. destruct (ccs_ty cc).
  - unfold Changer_make_voter. destruct (has_progress n tr); simpl; [done|]. auto.
  - unfold Changer_remove. destruct (has_progress n tr); simpl; [|done].
    destruct (MajorityConfig_contains _ n); simpl; [done|]. apply Hrm. naive_solver.
  - destruct (has_progress n tr) eqn:Ep; [by apply make_learner_progress|].
    unfold Changer_make_learner. rewrite Ep. apply Hins. auto.
Qed.

Lemma apply_run_progress c ccs tr id :
  Tracker_wf tr → id ∈ Tracker_ids tr →
  (∀ cc, cc ∈ ccs → ccs_node cc = id → ccs_ty cc ≠ RemoveNode) →
  Tracker_progress (foldl (apply_single c) tr ccs) id = Tracker_progress tr id.
Proof.
  revert tr. induction ccs as [|cc ccs IH]; intros tr Hwf Hid Hcc; cbn [foldl]; [done|].
  assert (Hcc' : ccs_node cc ≠ id ∨ ccs_ty cc ≠ RemoveNode).
  { destruct (decide (ccs_node cc = id)); [right; apply Hcc; [set_solver|done]|by left]. }
  pose proof (apply_single_progress c cc tr id Hwf Hid Hcc') as E.
  destruct (apply_single_ok c cc tr Hwf) as (Hwf' & _). etrans; [apply IH|exact E].
  - done.
  - unfold Tracker_progress in E. rewrite !ProgressMap_get_spec in E by apply Hwf || apply Hwf'.
    destruct Hwf as [_ Hd _ _ _ _], Hwf' as [_ Hd' _ _ _ _].
    rewrite <- Hd' , elem_of_dom, E, <- elem_of_dom, Hd. done.
  - intros cc' Hin. apply Hcc. set_solver.
Qed.
End keep.

(** ** Quorum overlap *)

Section overlap.
Context {I : Type} `{!NodeId I}.
Implicit Types (A B : gset I) (p q : I → bool).

Lemma sym_diff_spec A B : sym_diff A B = (size (A ∖ B) + size (B ∖ A))%nat.
Proof.
  assert (Hc : ∀ X Y : gset I, countb (λ id, negb (bool_decide (id ∈ Y))) (btree_iter X) = size (X ∖ Y)).
  { intros X Y. rewrite (countb_Permutation _ _ _ (btree_iter_elements X)), countb_elements.
    f_equal. apply set_eq. intros x. rewrite elem_of_filter, elem_of_difference.
    rewrite negb_true_iff, bool_decide_eq_false. tauto. }
  unfold sym_diff. by rewrite !Hc.
Qed.

(** Majorities of two voter sets that differ in at most one node intersect. *)
Lemma majority_overlap A B p q :
  A ≠ ∅ → B ≠ ∅ → (sym_diff A B ≤ 1)%nat → majority A p → majority B q →
  ∃ id, id ∈ A ∧ id ∈ B ∧ p id = true ∧ q id = true.
Proof.
  intros HA HB Hd [|Hp] [|Hq]; try done. rewrite sym_diff_spec in Hd.
  rewrite !countb_elements in *.
  set (P := filter (λ x, p x = true) A) in *. set (Q := filter (λ x, q x = true) B) in *.
  destruct (set_choose_or_empty (P ∩ Q)) as [[id Hid]|He].
  { exists id. unfold P, Q in Hid. rewrite elem_of_intersection, !elem_of_filter in Hid. tauto. }
  exfalso. assert (HPQ : (size (P ∪ Q) ≤ size (A ∪ B))%nat).
  { apply subseteq_size. unfold P, Q. intros x. rewrite !elem_of_union, !elem_of_filter. tauto. }
  rewrite size_union in HPQ by set_solver.
  assert (Hcomm : size (A ∪ B) = size (B ∪ A)) by (by rewrite (comm_L (∪))).
  rewrite (size_union_alt B A) in Hcomm. rewrite (size_union_alt A B) in *.
  pose proof (Nat.div_mod_eq (size A) 2). pose proof (Nat.div_mod_eq (size B) 2).
  pose proof (Nat.mod_upper_bound (size A) 2). pose proof (Nat.mod_upper_bound (size B) 2). lia.
Qed.

(** ** Properties *)

Lemma step_ok_learners c ccs (tr : Tracker I) :
  Tracker_wf tr → tr_outgoing tr = ∅ →
  (tr_incoming (foldl (apply_single c) tr ccs), tr_learners (foldl (apply_single c) tr ccs))
  = mem_run (tr_incoming tr, tr_learners tr) ccs.
Proof.
  intros Hwf Eo. destruct (apply_run_ok c ccs tr Hwf) as (Hwf' & Hm & Ho & _).
  rewrite Eo in Ho. unfold members in Hm.
  rewrite (simple_next_empty _ Hwf Eo), (simple_next_empty _ Hwf' Ho), !union_empty_r_L in Hm. done.
Qed.

(** A simple change does exactly what the change list says, or reports why
    not.  On a well-formed tracker [simple] refuses a joint configuration, an
    empty voter set and a change of more than one voter, in that order; in
    every other case it succeeds, with the voters and learners that applying
    the changes one by one to the two sets gives, a well-formed tracker that
    is a valid configuration, and the old progress of every member that no
    change removes. *)
Theorem simple_refines (c : Changer) (tr : Tracker I) ccs (Hwf : Tracker_wf tr) :
  let V := (mem_run (tr_incoming tr, tr_learners tr) ccs).1 in
  if Tracker_is_joint tr then Changer_simple c tr ccs = Err SimpleInJoint
  else if bool_decide (V = ∅) then Changer_simple c tr ccs = Err EmptyVoterSet
  else if decide (1 < sym_diff (tr_incoming tr) V)%nat
  then Changer_simple c tr ccs = Err MultipleVoterChanges
  else ∃ tr', Changer_simple c tr ccs = Ok tr' ∧ Tracker_wf tr'
    ∧ (tr_incoming tr', tr_learners tr') = mem_run (tr_incoming tr, tr_learners tr) ccs
    ∧ tr_outgoing tr' = ∅ ∧ ConfState_is_valid (Tracker_conf_state tr') = true
    ∧ ∀ id, id ∈ Tracker_ids tr →
        (∀ cc, cc ∈ ccs → ccs_node cc = id → ccs_ty cc ≠ RemoveNode) →
        Tracker_progress tr' id = Tracker_progress tr id.
Proof.
  cbv zeta. pose proof (Changer_simple_spec c tr ccs Hwf) as E. cbv zeta in E.
  destruct (Tracker_is_joint tr) eqn:Ej; [done|]. apply Tracker_is_joint_spec in Ej.
  unfold members in E. rewrite (simple_next_empty _ Hwf Ej), union_empty_r_L in E.
  case_bool_decide as HV; [done|]. case_decide; [done|].
  destruct (apply_run_ok c ccs tr Hwf) as (Hwf' & _ & Ho & _). rewrite Ej in Ho.
  pose proof (step_ok_learners c ccs tr Hwf Ej) as Hm.
  eexists. split; [exact E|]. split_and!; [done|done|done| |].
  - apply ConfState_is_valid_spec, Tracker_wf_valid; [done|]. by rewrite <- Hm in HV.
  - intros id Hid Hcc. by apply apply_run_progress.
Qed.

(** C26: a joint change is a simple change spread over two steps.  On a
    well-formed simple configuration [enter_joint] fails only on an empty voter
    set; otherwise it produces a well-formed joint configuration whose outgoing
    half is the old voter set and whose incoming half is the new one, and
    [leave_joint] on it succeeds, with the voters and the learners that
    applying the changes one by one gives. *)
Theorem joint_change_refines (c : Changer) (tr : Tracker I) al ccs
  (Hwf : Tracker_wf tr) (Hsimple : Tracker_is_joint tr = false) :
  let M := mem_run (tr_incoming tr, tr_learners tr) ccs in
  if bool_decide (tr_incoming tr = ∅)
  then Changer_enter_joint c tr al ccs = Err EmptyIncomingForJoint
  else if bool_decide (M.1 = ∅) then Changer_enter_joint c tr al ccs = Err EmptyVoterSet
  else ∃ tr1 tr2, Changer_enter_joint c tr al ccs = Ok tr1 ∧ Tracker_wf tr1
    ∧ ConfState_is_valid (Tracker_conf_state tr1) = true
    ∧ tr_outgoing tr1 = tr_incoming tr ∧ tr_incoming tr1 = M.1 ∧ tr_auto_leave tr1 = al
    ∧ Changer_leave_joint tr1 = Ok tr2 ∧ Tracker_wf tr2
    ∧ (tr_incoming tr2, tr_learners tr2) = M ∧ tr_outgoing tr2 = ∅.
Proof.
  cbv zeta. pose proof (Changer_enter_joint_spec c tr al ccs Hwf) as E. rewrite Hsimple in E.
  apply Tracker_is_joint_spec in Hsimple as Eo.
  unfold members in E. rewrite (simple_next_empty _ Hwf Eo), union_empty_r_L in E.
  case_bool_decide as HI; [done|]. case_bool_decide as HV; [done|].
  pose proof (set_outgoing_wf tr Hwf Eo) as Hwf0.
  destruct (apply_run_ok c ccs _ Hwf0) as (Hwf1 & Hm1 & Ho1 & Ha1).
  set (t := foldl (apply_single c) (set_outgoing (tr_incoming tr) tr) ccs) in *.
  change (members (set_outgoing _ tr)) with (tr_incoming tr, tr_learners tr ∪ tr_learners_next tr) in Hm1.
  rewrite (simple_next_empty _ Hwf Eo), union_empty_r_L in Hm1.
  change (tr_outgoing (set_outgoing _ tr)) with (tr_incoming tr) in Ho1.
  assert (Hwf2 : Tracker_wf (set_auto_leave al t)) by (apply set_auto_leave_wf; [done|by rewrite Ho1]).
  assert (Hi1 : tr_incoming t = (mem_run (tr_incoming tr, tr_learners tr) ccs).1) by (by rewrite <- Hm1).
  pose proof (Changer_leave_joint_spec _ Hwf2) as Hl.
  destruct (Tracker_is_joint (set_auto_leave al t)) eqn:Ej.
  2: { apply Tracker_is_joint_spec in Ej. change (tr_outgoing t = ∅) in Ej. congruence. }
  destruct Hl as (tr2 & Hl & Hwf3 & Ho3 & _ & Hm3 & _).
  exists (set_auto_leave al t), tr2. split_and!; try done.
  - apply ConfState_is_valid_spec, Tracker_wf_valid; [done|]. change (tr_incoming t ≠ ∅). by rewrite Hi1.
  - rewrite Hm3. exact Hm1.
Qed.

(** One committed configuration change. *)
Inductive conf_step : Tracker I → Tracker I → Prop :=
| cs_simple c tr ccs tr' : Changer_simple c tr ccs = Ok tr' → conf_step tr tr'
| cs_enter c tr al ccs tr' : Changer_enter_joint c tr al ccs = Ok tr' → conf_step tr tr'
| cs_leave tr tr' : Changer_leave_joint tr = Ok tr' → conf_step tr tr'.

(** What holds after each change: a well-formed tracker with voters. *)
Definition conf_inv (tr : Tracker I) : Prop := Tracker_wf tr ∧ tr_incoming tr ≠ ∅.

Lemma simple_step c tr ccs tr' :
  conf_inv tr → Changer_simple c tr ccs = Ok tr' →
  conf_inv tr' ∧ tr_outgoing tr = ∅ ∧ tr_outgoing tr' = ∅
  ∧ (sym_diff (tr_incoming tr) (tr_incoming tr') ≤ 1)%nat.
Proof.
  intros [Hwf Hne] E. rewrite Changer_simple_spec in E by done. cbv zeta in E.
  destruct (Tracker_is_joint tr) eqn:Ej; [done|]. apply Tracker_is_joint_spec in Ej.
  case_bool_decide as HV; [done|]. case_decide as Hd; [done|]. injection E as <-.
  destruct (apply_run_ok c ccs tr Hwf) as (Hwf' & Hm & Ho & _).
  rewrite <- (apply_run_incoming c) in HV, Hd by done. split_and!; try done; [congruence|lia].
Qed.

Lemma enter_joint_step c tr al ccs tr' :
  conf_inv tr → Changer_enter_joint c tr al ccs = Ok tr' →
  conf_inv tr' ∧ tr_outgoing tr = ∅ ∧ tr_outgoing tr' = tr_incoming tr.
Proof.
  intros [Hwf Hne] E. rewrite Changer_enter_joint_spec in E by done.
  destruct (Tracker_is_joint tr) eqn:Ej; [done|]. apply Tracker_is_joint_spec in Ej.
  case_bool_decide; [done|]. case_bool_decide as HV; [done|]. injection E as <-.
  pose proof (set_outgoing_wf tr Hwf Ej) as Hwf0.
  destruct (apply_run_ok c ccs _ Hwf0) as (Hwf1 & Hm1 & Ho1 & _).
  change (tr_outgoing (set_outgoing _ tr)) with (tr_incoming tr) in Ho1.
  split_and!; try done. split; [apply set_auto_leave_wf; [done|by rewrite Ho1]|].
  change (tr_incoming (set_auto_leave al ?t)) with (tr_incoming t).
  by rewrite apply_run_incoming.
Qed.

Lemma leave_joint_step tr tr' :
  conf_inv tr → Changer_leave_joint tr = Ok tr' →
  conf_inv tr' ∧ tr_incoming tr' = tr_incoming tr.
Proof.
  intros [Hwf Hne] E. pose proof (Changer_leave_joint_spec tr Hwf) as H.
  destruct (Tracker_is_joint tr); [|congruence].
  destruct H as (t & E' & Hwf' & _ & _ & Hm & _). assert (t = tr') as -> by congruence.
  unfold members in Hm. injection Hm as Hi _. unfold conf_inv. by rewrite Hi.
Qed.

Lemma conf_step_inv tr tr' : conf_inv tr → conf_step tr tr' → conf_inv tr'.
Proof.
  intros Hinv Hstep. destruct Hstep as [? ? ? ? E|? ? ? ? ? E|? ? E].
  - by apply simple_step in E as [? _].
  - by apply enter_joint_step in E as [? _].
  - by apply leave_joint_step in E as [? _].
Qed.

Lemma conf_run_inv tr tr' : conf_inv tr → rtc conf_step tr tr' → conf_inv tr'.
Proof. intros Hinv. induction 1; eauto using conf_step_inv. Qed.

Lemma conf_step_overlap tr tr' p q :
  conf_inv tr → conf_step tr tr' →
  joint_majority (tr_voters tr) p → joint_majority (tr_voters tr') q →
  ∃ id, p id = true ∧ q id = true.
Proof.
  intros Hinv Hstep [Hp1 Hp2] [Hq1 Hq2]. pose proof Hinv as [Hwf Hne].
  destruct Hstep as [? ? ? ? E|? ? ? ? ? E|? ? E].
  - apply simple_step in E as ([_ Hne'] & _ & _ & Hd); [|done].
    destruct (majority_overlap _ _ p q Hne Hne' Hd Hp1 Hq1) as (id & _ & _ & ? & ?). eauto.
  - apply enter_joint_step in E as (_ & _ & Ho); [|done].
    unfold tr_outgoing in Ho. rewrite Ho in Hq2.
    destruct (majority_intersect _ p q Hne Hp1 Hq2) as (id & _ & ? & ?). eauto.
  - apply leave_joint_step in E as [_ Hi]; [|done]. unfold tr_incoming in Hi. rewrite Hi in Hq1.
    destruct (majority_intersect _ p q Hne Hp1 Hq1) as (id & _ & ? & ?). eauto.
Qed.

(** C25: consecutive configurations cannot decide independently.  Starting from
    any valid configuration and making any sequence of successful simple,
    enter-joint and leave-joint changes, every quorum before a change and every
    quorum after it have a common node, and the configuration reached is valid. *)
Theorem conf_change_quorum_overlap (cs : ConfState I) last m b tr tr' p q
  (Hcs : ConfState_is_valid cs = true)
  (Hrun : rtc conf_step (Tracker_from_conf_state cs last m b) tr)
  (Hstep : conf_step tr tr')
  (Hp : joint_majority (tr_voters tr) p) (Hq : joint_majority (tr_voters tr') q) :
  (∃ id, p id = true ∧ q id = true)
  ∧ ConfState_is_valid (Tracker_conf_state tr') = true.
Proof.
  apply ConfState_is_valid_spec in Hcs.
  assert (Hinv : conf_inv tr).
  { eapply conf_run_inv; [|done]. split; [by apply Tracker_from_conf_state_wf|].
    by destruct Hcs. }
  split; [by eapply conf_step_overlap|]. apply ConfState_is_valid_spec.
  destruct (conf_step_inv _ _ Hinv Hstep). by apply Tracker_wf_valid.
Qed.

(** The errors that would report a fault of the changer itself. *)
Definition internal_error (r : result (Tracker I) (ConfChangeError I)) : bool :=
  match r with
  | Err LearnersNextInSimple | Err (InvariantViolation _) => true
  | _ => false
  end.

(** C27: the changer never reports its internal errors.  On a well-formed
    tracker no call returns [InvariantViolation] or [LearnersNextInSimple],
    whatever changes it is given, and leaving a joint configuration always
    succeeds, keeping the progress of every remaining member. *)
Theorem changer_no_internal_error (c : Changer) (tr : Tracker I) al ccs (Hwf : Tracker_wf tr) :
  internal_error (Changer_simple c tr ccs) = false
  ∧ internal_error (Changer_enter_joint c tr al ccs) = false
  ∧ (if Tracker_is_joint tr then
       ∃ tr', Changer_leave_joint tr = Ok tr' ∧ Tracker_wf tr'
         ∧ (tr_incoming tr', tr_learners tr') = (tr_incoming tr, tr_learners tr ∪ tr_learners_next tr)
         ∧ ∀ id, id ∈ Tracker_ids tr' → Tracker_progress tr' id = Tracker_progress tr id
     else Changer_leave_joint tr = Err NotJoint).
Proof.
  rewrite Changer_simple_spec, Changer_enter_joint_spec by done. cbv zeta.
  pose proof (Changer_leave_joint_spec tr Hwf) as H.
  destruct (Tracker_is_joint tr); split_and!; try done.
  - destruct H as (t & ? & ? & _ & _ & ? & ?). by exists t.
  - case_bool_decide; [done|]. by case_decide.
  - do 2 (case_bool_decide; [done|]). done.
Qed.
End overlap.

(** ** Witnesses *)

Definition demo_changer : Changer :=
  {| ch_last_index := 5; ch_max_inflight_msgs := 8; ch_max_inflight_bytes := 0 |}.

Definition swap_voter : list (ConfChangeSingle N) :=
  [ConfChangeSingle_new AddNode 4; ConfChangeSingle_new AddLearnerNode 3].

Lemma simple_refines_witness :
  ∃ tr', Changer_simple demo_changer three_tracker [ConfChangeSingle_new AddNode 4] = Ok tr'
    ∧ Tracker_wf tr'
    ∧ (tr_incoming tr', tr_learners tr')
      = mem_run (tr_incoming three_tracker, tr_learners three_tracker)
          [ConfChangeSingle_new AddNode 4]
    ∧ tr_outgoing tr' = ∅ ∧ ConfState_is_valid (Tracker_conf_state tr') = true
    ∧ ∀ id, id ∈ Tracker_ids three_tracker →
        (∀ cc, cc ∈ [ConfChangeSingle_new AddNode 4] → ccs_node cc = id → ccs_ty cc ≠ RemoveNode) →
        Tracker_progress tr' id = Tracker_progress three_tracker id.
Proof.
  exact (simple_refines demo_changer three_tracker [ConfChangeSingle_new AddNode 4]
    three_tracker_wf).
Defined.

Lemma joint_change_refines_witness :
  ∃ tr1 tr2, Changer_enter_joint demo_changer three_tracker true swap_voter = Ok tr1
    ∧ Tracker_wf tr1
    ∧ ConfState_is_valid (Tracker_conf_state tr1) = true
    ∧ tr_outgoing tr1 = tr_incoming three_tracker
    ∧ tr_incoming tr1 = (mem_run (tr_incoming three_tracker, tr_learners three_tracker) swap_voter).1
    ∧ tr_auto_leave tr1 = true
    ∧ Changer_leave_joint tr1 = Ok tr2 ∧ Tracker_wf tr2
    ∧ (tr_incoming tr2, tr_learners tr2)
      = mem_run (tr_incoming three_tracker, tr_learners three_tracker) swap_voter
    ∧ tr_outgoing tr2 = ∅.
Proof.
  exact (joint_change_refines demo_changer three_tracker true swap_voter three_tracker_wf eq_refl).
Defined.

(** The joint configuration reached from three voters by [swap_voter]. *)
Definition swap_joint : Tracker N :=
  match Changer_enter_joint demo_changer three_tracker true swap_voter with
  | Ok tr => tr
  | Err _ => three_tracker
  end.

Lemma conf_change_quorum_overlap_witness :
  (∃ id : N, negb (id =? 1) = true ∧ negb (id =? 2) = true)
  ∧ ConfState_is_valid (Tracker_conf_state swap_joint) = true.
Proof.
  apply (conf_change_quorum_overlap three_state 5 8 0 three_tracker swap_joint
    (λ id, negb (id =? 1)) (λ id, negb (id =? 2))).
  - vm_compute. reflexivity.
  - apply rtc_refl.
  - apply (cs_enter demo_changer _ true swap_voter). vm_compute. reflexivity.
  - split; apply (proj1 (bool_decide_eq_true (majority _ _))); vm_compute; reflexivity.
  - split; apply (proj1 (bool_decide_eq_true (majority _ _))); vm_compute; reflexivity.
Defined.

Lemma changer_no_internal_error_witness :
  internal_error (Changer_simple demo_changer three_tracker swap_voter) = false
  ∧ internal_error (Changer_enter_joint demo_changer three_tracker true swap_voter) = false
  ∧ Changer_leave_joint three_tracker = Err NotJoint.
Proof.
  exact (changer_no_internal_error demo_changer three_tracker true swap_voter three_tracker_wf).
Defined.
