(* ===== verification/Config.v ===== *)
(** * Endpoint configuration

    [sailing-proto/src/config/mod.rs]: the configuration record, its
    constructors, the validation every parsed configuration passes through, and
    the LeaseGuard commit-wait window.  Durations are nanoseconds; the window
    is computed in [u128], whose multiplication is checked.  The arithmetic
    theorem is the one the lease rests on: a successor that waits out the
    window on its own clock cannot finish before a deposed leader's lease has
    run out, whatever the two clocks do within the configured drift. *)

From S2P Require Import Prelude Num.

Inductive ReadOnlyOption := Safe | LeaseBased | LeaseGuard.

#[global] Instance ReadOnlyOption_eq_dec : EqDecision ReadOnlyOption.
Proof. solve_decision. Defined.

Definition ReadOnlyOption_as_u8 (o : ReadOnlyOption) : N :=
  match o with Safe => 0 | LeaseBased => 1 | LeaseGuard => 2 end.

Definition ReadOnlyOption_from_u8 (b : N) : option ReadOnlyOption :=
  match b with 0 => Some Safe | 1 => Some LeaseBased | 2 => Some LeaseGuard | _ => None end.

Inductive LeaseRefresh := RefreshOff | OnExpiry | Continuous.

#[global] Instance LeaseRefresh_eq_dec : EqDecision LeaseRefresh.
Proof. solve_decision. Defined.

Definition MAX_SNAPSHOT_CHUNK_BYTES : u64 := 60 * 1048576.
Definition MAX_ELECTION_TIMEOUT : Duration := Duration_from_millis 4294967295.

Inductive ConfigError :=
| ElectionNotGreaterThanHeartbeat (election heartbeat : Duration)
| ZeroHeartbeat
| IdNotAVoter
| LeaseGuardRequiresLeaseDuration
| LeaseGuardRequiresDriftBound
| LeaseTimingTooLong (lease drift election : Duration)
| ZeroInflight
| ZeroMaxSizePerMsg
| ZeroSnapshotThreshold
| SnapshotChunkBytesOutOfRange (value max : u64)
| EmptyVoters
| LeaseRequiresCheckQuorum
| BoundedUncertaintyInvalid (uncertainty : Duration) (lease : option Duration)
| LeaseRefreshRequiresLeaseGuard
| ElectionTimeoutTooLarge (election max : Duration).

Definition u128_max : N := 2 ^ 128 - 1.
Definition u128_checked_mul (a b : N) : option N :=
  if decide (a * b ≤ u128_max) then Some (a * b) else None.
(** [div_ceil] on a non-zero denominator. *)
Definition div_ceil (a b : N) : N := if a mod b =? 0 then a / b else a / b + 1.

Section config.
Context {I : Type} `{!NodeId I}.

Record Config := {
  cfg_id : I;
  cfg_voters : list I;
  cfg_election_timeout : Duration;
  cfg_heartbeat_interval : Duration;
  cfg_max_size_per_msg : u64;
  cfg_max_inflight_msgs : nat;
  cfg_max_inflight_bytes : u64;
  cfg_snapshot_threshold : nat;
  cfg_snapshot_chunk_bytes : u64;
  cfg_step_down_on_removal : bool;
  cfg_pre_vote : bool;
  cfg_check_quorum : bool;
  cfg_disable_proposal_forwarding : bool;
  cfg_read_only : ReadOnlyOption;
  cfg_lease_refresh : LeaseRefresh;
  cfg_lease_duration : option Duration;
  cfg_clock_drift_bound : option Duration;
  cfg_bounded_clock_uncertainty : option Duration;
  cfg_assumed_clock_rate_bound_ppm : N;
}.

(** The [Ok(Self { ... })] both constructors end with: every knob at its
    default. *)
Definition config_defaults (id : I) (voters : list I)
    (election_timeout heartbeat_interval : Duration) : Config :=
  {| cfg_id := id; cfg_voters := voters; cfg_election_timeout := election_timeout;
     cfg_heartbeat_interval := heartbeat_interval;
     cfg_max_size_per_msg := 1024 * 1024; cfg_max_inflight_msgs := 256;
     cfg_max_inflight_bytes := 0; cfg_snapshot_threshold := N.to_nat 10000;
     cfg_snapshot_chunk_bytes := 1048576; cfg_step_down_on_removal := true;
     cfg_pre_vote := false; cfg_check_quorum := false;
     cfg_disable_proposal_forwarding := false; cfg_read_only := Safe;
     cfg_lease_refresh := RefreshOff; cfg_lease_duration := None;
     cfg_clock_drift_bound := None; cfg_bounded_clock_uncertainty := None;
     cfg_assumed_clock_rate_bound_ppm := 1000 |}.

Definition Config_try_new_observer (id : I) (current_voters : list I)
    (election_timeout heartbeat_interval : Duration) : result Config ConfigError :=
  if heartbeat_interval =? 0 then Err ZeroHeartbeat
  else if election_timeout <=? heartbeat_interval then
    Err (ElectionNotGreaterThanHeartbeat election_timeout heartbeat_interval)
  else if MAX_ELECTION_TIMEOUT <? election_timeout then
    Err (ElectionTimeoutTooLarge election_timeout MAX_ELECTION_TIMEOUT)
  else Ok (config_defaults id current_voters election_timeout heartbeat_interval).

Definition Config_try_new (id : I) (voters : list I)
    (election_timeout heartbeat_interval : Duration) : result Config ConfigError :=
  if heartbeat_interval =? 0 then Err ZeroHeartbeat
  else if election_timeout <=? heartbeat_interval then
    Err (ElectionNotGreaterThanHeartbeat election_timeout heartbeat_interval)
  else if MAX_ELECTION_TIMEOUT <? election_timeout then
    Err (ElectionTimeoutTooLarge election_timeout MAX_ELECTION_TIMEOUT)
  else if negb (bool_decide (id ∈ voters)) then Err IdNotAVoter
  else Ok (config_defaults id voters election_timeout heartbeat_interval).

Definition Config_with_voter_set (c : Config) (voters : list I) : result Config ConfigError :=
  if bool_decide (voters = []) then Err EmptyVoters
  else if negb (bool_decide (cfg_id c ∈ voters)) then Err IdNotAVoter
  else Ok
    {| cfg_id := cfg_id c; cfg_voters := voters;
       cfg_election_timeout := cfg_election_timeout c;
       cfg_heartbeat_interval := cfg_heartbeat_interval c;
       cfg_max_size_per_msg := cfg_max_size_per_msg c;
       cfg_max_inflight_msgs := cfg_max_inflight_msgs c;
       cfg_max_inflight_bytes := cfg_max_inflight_bytes c;
       cfg_snapshot_threshold := cfg_snapshot_threshold c;
       cfg_snapshot_chunk_bytes := cfg_snapshot_chunk_bytes c;
       cfg_step_down_on_removal := cfg_step_down_on_removal c;
       cfg_pre_vote := cfg_pre_vote c; cfg_check_quorum := cfg_check_quorum c;
       cfg_disable_proposal_forwarding := cfg_disable_proposal_forwarding c;
       cfg_read_only := cfg_read_only c; cfg_lease_refresh := cfg_lease_refresh c;
       cfg_lease_duration := cfg_lease_duration c;
       cfg_clock_drift_bound := cfg_clock_drift_bound c;
       cfg_bounded_clock_uncertainty := cfg_bounded_clock_uncertainty c;
       cfg_assumed_clock_rate_bound_ppm := cfg_assumed_clock_rate_bound_ppm c |}.

Definition leaseguard_window_result (c : Config) : result u64 ConfigError :=
  match cfg_lease_duration c with
  | None => Err LeaseGuardRequiresLeaseDuration
  | Some lease =>
      match cfg_clock_drift_bound c with
      | None => Err LeaseGuardRequiresDriftBound
      | Some drift =>
          let too_long := LeaseTimingTooLong lease drift (cfg_election_timeout c) in
          let '(d, e) := (lease, drift) in
          if decide (e ≤ d ∧ 0 < d - e) then
            let denom := d - e in
            match u128_checked_mul d (d + e) with
            | None => Err too_long
            | Some num =>
                let w := div_ceil num denom in
                if (u64_max <? w) || (cfg_election_timeout c <=? w) then Err too_long
                else Ok w
            end
          else Err too_long
      end
  end.

Definition leaseguard_commit_wait_ns (c : Config) (mode : ReadOnlyOption) : option u64 :=
  if decide (mode ≠ LeaseGuard) then None
  else match leaseguard_window_result c with Ok w => Some w | Err _ => None end.

Definition failover_tier_valid (c : Config) (mode : ReadOnlyOption) : bool :=
  bool_decide (mode = LeaseGuard)
  && bool_decide (is_Some (leaseguard_commit_wait_ns c mode))
  && match cfg_bounded_clock_uncertainty c, cfg_lease_duration c with
     | Some unc, Some d => unc <? d
     | _, _ => false
     end.

Definition read_mode_change_valid (c : Config) (mode : ReadOnlyOption) : bool :=
  match mode with
  | Safe => true
  | LeaseBased => cfg_check_quorum c
  | LeaseGuard => is_ok (leaseguard_window_result c)
  end.

Definition Config_validate (c : Config) : result unit ConfigError :=
  if cfg_heartbeat_interval c =? 0 then Err ZeroHeartbeat
  else if cfg_election_timeout c <=? cfg_heartbeat_interval c then
    Err (ElectionNotGreaterThanHeartbeat (cfg_election_timeout c) (cfg_heartbeat_interval c))
  else if MAX_ELECTION_TIMEOUT <? cfg_election_timeout c then
    Err (ElectionTimeoutTooLarge (cfg_election_timeout c) MAX_ELECTION_TIMEOUT)
  else if (cfg_max_inflight_msgs c =? 0)%nat then Err ZeroInflight
  else if cfg_max_size_per_msg c =? 0 then Err ZeroMaxSizePerMsg
  else if bool_decide (cfg_voters c = []) then Err EmptyVoters
  else if (cfg_snapshot_threshold c =? 0)%nat then Err ZeroSnapshotThreshold
  else if (cfg_snapshot_chunk_bytes c =? 0)
          || (MAX_SNAPSHOT_CHUNK_BYTES <? cfg_snapshot_chunk_bytes c) then
    Err (SnapshotChunkBytesOutOfRange (cfg_snapshot_chunk_bytes c) MAX_SNAPSHOT_CHUNK_BYTES)
  else if bool_decide (cfg_read_only c = LeaseBased) && negb (cfg_check_quorum c) then
    Err LeaseRequiresCheckQuorum
  else if negb (bool_decide (cfg_lease_refresh c = RefreshOff))
          && negb (bool_decide (cfg_read_only c = LeaseGuard)) then
    Err LeaseRefreshRequiresLeaseGuard
  else
    let? _ :=
      if decide (cfg_read_only c = LeaseGuard) then
        let? _ := leaseguard_window_result c in Ok tt
      else Ok tt in
    match cfg_bounded_clock_uncertainty c with
    | Some unc =>
        if negb (failover_tier_valid c (cfg_read_only c)) then
          Err (BoundedUncertaintyInvalid unc (cfg_lease_duration c))
        else Ok tt
    | None => Ok tt
    end.

(** ** The commit-wait window *)

Lemma div_ceil_spec a b : 0 < b → a ≤ div_ceil a b * b ∧ div_ceil a b * b < a + b.
Proof.
  intros Hb. unfold div_ceil. pose proof (N.div_mod a b ltac:(lia)).
  pose proof (N.mod_lt a b ltac:(lia)). generalize dependent (a / b).
  generalize dependent (a mod b). intros r Hr q ->. destruct (N.eqb_spec r 0); nia.
Qed.

Lemma leaseguard_window_Ok c w :
  leaseguard_window_result c = Ok w →
  ∃ d e, cfg_lease_duration c = Some d ∧ cfg_clock_drift_bound c = Some e ∧ e < d
    ∧ d * (d + e) ≤ u128_max ∧ w = div_ceil (d * (d + e)) (d - e)
    ∧ w ≤ u64_max ∧ w < cfg_election_timeout c.
Proof.
  unfold leaseguard_window_result, u128_checked_mul.
  destruct (cfg_lease_duration c) as [d|]; [|done].
  destruct (cfg_clock_drift_bound c) as [e|]; [|done].
  case_decide as He; [|done]. case_decide as Hm; [|done].
  destruct (N.ltb_spec u64_max (div_ceil (d * (d + e)) (d - e))) as [|Hu]; [done|].
  destruct (N.leb_spec (cfg_election_timeout c) (div_ceil (d * (d + e)) (d - e))); [done|].
  intros [= <-]. exists d, e. split_and!; try done. lia.
Qed.

(** A clock reading [l] after [t] units of real time, with rate drift [e / d]. *)
Definition not_slower (d e t l : N) : Prop := t * (d - e) ≤ l * d.
Definition not_faster (d e t l : N) : Prop := l * d ≤ t * (d + e).

Lemma window_covers d e w tD lD tS lS :
  e < d → d * (d + e) ≤ w * (d - e) →
  not_slower d e tD lD → lD < d → not_faster d e tS lS → w ≤ lS → tD < tS.
Proof.
  unfold not_slower, not_faster. intros He Hw HD HlD HS HlS.
  assert (Hk : 0 < d - e) by lia. generalize dependent (d - e). intros k Hw HD Hk.
  assert (H1 : d * (d * (d + e)) ≤ d * (w * k)) by (by apply N.mul_le_mono_l).
  assert (H2 : w * (d * k) ≤ lS * (d * k)) by (by apply N.mul_le_mono_r).
  assert (H3 : lS * d * k ≤ tS * (d + e) * k) by (by apply N.mul_le_mono_r).
  assert (H4 : (d * d) * (d + e) ≤ (tS * k) * (d + e)) by nia.
  apply N.mul_le_mono_pos_r in H4; [|lia].
  assert (H5 : lD * d < d * d) by (apply N.mul_lt_mono_pos_r; lia).
  apply (N.mul_lt_mono_pos_r k); lia.
Qed.

(** ** Properties *)

(** C30: the commit-wait window outlasts the lease.  If the LeaseGuard timing
    validates to the window [w], the drift is below the lease, [w] is below the
    election timeout and is the smallest window with [w * (d - e) >= d * (d + e)];
    and for any two clocks whose rates drift by at most [e / d], every moment at
    which the deposed leader still holds its lease (its clock shows less than
    [d] since the entry) comes strictly before every moment at which the
    successor has finished waiting (its clock shows at least [w]). *)
Theorem commit_wait_outlasts_lease (c : Config) w d e
  (Hw : leaseguard_window_result c = Ok w)
  (Hd : cfg_lease_duration c = Some d) (He : cfg_clock_drift_bound c = Some e) :
  e < d ∧ w < cfg_election_timeout c ∧ is_u64 w
  ∧ (∀ w', d * (d + e) ≤ w' * (d - e) ↔ w ≤ w')
  ∧ (∀ tD lD tS lS,
       not_slower d e tD lD → lD < d → not_faster d e tS lS → w ≤ lS → tD < tS).
Proof.
  apply leaseguard_window_Ok in Hw as (d' & e' & Ed & Ee & Hlt & _ & -> & Hu & Hel).
  assert (d' = d) as -> by congruence. assert (e' = e) as -> by congruence.
  destruct (div_ceil_spec (d * (d + e)) (d - e) ltac:(lia)) as [H1 H2].
  split_and!; try done.
  - intros w'. split; [|intros; nia]. intros Hw'. apply N.lt_succ_r.
    apply (N.mul_lt_mono_pos_r (d - e)); lia.
  - intros tD lD tS lS HD HlD HS HlS. exact (window_covers d e _ tD lD tS lS Hlt H1 HD HlD HS HlS).
Qed.
End config.
Arguments Config I : clear implicits.

(** ** Witnesses *)

Definition lease_config : Config N :=
  {| cfg_id := 1; cfg_voters := [1; 2; 3]; cfg_election_timeout := Duration_from_millis 1000;
     cfg_heartbeat_interval := Duration_from_millis 100;
     cfg_max_size_per_msg := 1024; cfg_max_inflight_msgs := 256;
     cfg_max_inflight_bytes := 0; cfg_snapshot_threshold := 100;
     cfg_snapshot_chunk_bytes := 1048576; cfg_step_down_on_removal := true;
     cfg_pre_vote := true; cfg_check_quorum := true;
     cfg_disable_proposal_forwarding := false; cfg_read_only := LeaseGuard;
     cfg_lease_refresh := RefreshOff;
     cfg_lease_duration := Some (Duration_from_millis 500);
     cfg_clock_drift_bound := Some (Duration_from_millis 5);
     cfg_bounded_clock_uncertainty := None;
     cfg_assumed_clock_rate_bound_ppm := 1000 |}.

Lemma commit_wait_outlasts_lease_witness :
  let d := Duration_from_millis 500 in
  let e := Duration_from_millis 5 in
  let w := 510101011 in
  e < d ∧ w < cfg_election_timeout lease_config ∧ is_u64 w
  ∧ (∀ w', d * (d + e) ≤ w' * (d - e) ↔ w ≤ w')
  ∧ (∀ tD lD tS lS,
       not_slower d e tD lD → lD < d → not_faster d e tS lS → w ≤ lS → tD < tS).
Proof.
  apply (commit_wait_outlasts_lease lease_config); vm_compute; reflexivity.
Defined.
