(* ===== verification/Lease.v ===== *)
(** * Commit-wait inflation

    The successor's side of the LeaseGuard commit-wait,
    [sailing-proto/src/endpoint/election.rs] and [endpoint/mod.rs]: a window
    stamped by another leader is consumed on this node's clock, so its length
    is inflated by this node's own rate bound before it is waited out.  The
    endpoint methods read the configuration, the active read mode and the
    largest inherited window; those are the arguments here. *)

From S2P Require Import Prelude Num Config.

Section lease.
Context {I : Type} `{!NodeId I}.
Implicit Types c : Config I.

(** [Endpoint::leaseguard_timing]. *)
Definition leaseguard_timing (c : Config I) (mode : ReadOnlyOption)
  : option (Duration * Duration) :=
  match leaseguard_commit_wait_ns c mode with
  | None => None
  | Some _ =>
      match cfg_lease_duration c, cfg_clock_drift_bound c with
      | Some d, Some e => Some (d, e)
      | _, _ => None
      end
  end.

Definition u128_checked_add (a b : N) : option N :=
  if decide (a + b ≤ u128_max) then Some (a + b) else None.

Definition inflate_by_rational (window : u64) (num denom : N) : option u64 :=
  if denom =? 0 then None
  else match u128_checked_mul window num with
       | None => None
       | Some p => let x := div_ceil p denom in if u64_max <? x then None else Some x
       end.

Definition inflate_inherited_wait (c : Config I) (mode : ReadOnlyOption) (window : u64)
  : option u64 :=
  match leaseguard_timing c mode with
  | None =>
      let ppm := cfg_assumed_clock_rate_bound_ppm c in
      inflate_by_rational window (1000000 + ppm) 1000000
  | Some (delta, drift) =>
      match u128_checked_add delta drift with
      | None => None
      | Some num => inflate_by_rational window num delta
      end
  end.

Definition failover_inflated_commit_wait (c : Config I) (mode : ReadOnlyOption)
    (max_lease_window : u64) : option u64 :=
  match leaseguard_timing c mode with
  | None => None
  | Some (delta, drift) =>
      match u128_checked_add delta drift with
      | None => None
      | Some num => inflate_by_rational max_lease_window num delta
      end
  end.

(** ** Exactness *)

Lemma inflate_by_rational_Some window num denom x :
  inflate_by_rational window num denom = Some x →
  0 < denom ∧ window * num ≤ x * denom ∧ x * denom < window * num + denom ∧ is_u64 x.
Proof.
  unfold inflate_by_rational, u128_checked_mul. destruct (N.eqb_spec denom 0); [done|].
  case_decide; [|done]. destruct (N.ltb_spec u64_max (div_ceil (window * num) denom)); [done|].
  intros [= <-]. destruct (div_ceil_spec (window * num) denom ltac:(lia)). split_and!; try done. lia.
Qed.

(** The rate bound a successor inflates by, as the rational [e / d]. *)
Definition successor_rate (c : Config I) (mode : ReadOnlyOption) : N * N :=
  match leaseguard_timing c mode with
  | Some (d, e) => (d, e)
  | None => (1000000, cfg_assumed_clock_rate_bound_ppm c)
  end.

Lemma inflate_inherited_wait_Some c mode window x :
  inflate_inherited_wait c mode window = Some x →
  let '(d, e) := successor_rate c mode in
  0 < d ∧ window * (d + e) ≤ x * d ∧ x * d < window * (d + e) + d ∧ is_u64 x.
Proof.
  unfold inflate_inherited_wait, successor_rate.
  destruct (leaseguard_timing c mode) as [[d e]|]; [|apply inflate_by_rational_Some].
  unfold u128_checked_add. case_decide; [|done]. apply inflate_by_rational_Some.
Qed.

(** The inflated wait is safe across heterogeneous configurations.  Let a
    deposed leader have stamped the window [w] from its own lease [dD] and drift
    [eD], and let a successor wait out the inflation of any window at least as
    long, computed from its own timing or, without one, from the assumed rate
    bound.  Then every moment at which the deposed leader's clock still shows a
    live lease comes strictly before every moment at which the successor's
    clock shows the wait to be over, for any clocks within the two rate bounds. *)
Theorem inherited_wait_covers_lease (cD cS : Config I) mode w dD eD window x
  (Hw : leaseguard_window_result cD = Ok w)
  (HdD : cfg_lease_duration cD = Some dD) (HeD : cfg_clock_drift_bound cD = Some eD)
  (Hwin : w ≤ window)
  (Hx : inflate_inherited_wait cS mode window = Some x) :
  ∀ tD lD tS lS,
    not_slower dD eD tD lD → lD < dD →
    not_faster (successor_rate cS mode).1 (successor_rate cS mode).2 tS lS → x ≤ lS →
    tD < tS.
Proof.
  intros tD lD tS lS HD HlD HS HlS.
  apply leaseguard_window_Ok in Hw as (d' & e' & Ed & Ee & Hlt & _ & -> & _ & _).
  assert (d' = dD) as -> by congruence. assert (e' = eD) as -> by congruence.
  destruct (div_ceil_spec (dD * (dD + eD)) (dD - eD) ltac:(lia)) as [H1 _].
  apply inflate_inherited_wait_Some in Hx. destruct (successor_rate cS mode) as [dS eS].
  destruct Hx as (HdS & Hx & _ & _). simpl in HS. unfold not_slower, not_faster in *.
  assert (HwS : window ≤ tS).
  { apply (N.mul_le_mono_pos_r _ _ (dS + eS)); [lia|].
    assert (x * dS ≤ lS * dS) by (by apply N.mul_le_mono_r). lia. }
  assert (tD < div_ceil (dD * (dD + eD)) (dD - eD)); [|lia].
  apply (N.mul_lt_mono_pos_r (dD - eD)); [lia|].
  assert (lD * dD < dD * dD) by (apply N.mul_lt_mono_pos_r; lia). nia.
Qed.

(** On a node with validated LeaseGuard timing the failover commit-wait is
    the exact ceiling of [max_lease_window * (d + e) / d], never clamped: it is
    refused, rather than shortened, when it does not fit 64 bits. *)
Theorem failover_wait_exact (c : Config I) w max_window d e
  (Hw : leaseguard_window_result c = Ok w)
  (Hd : cfg_lease_duration c = Some d) (He : cfg_clock_drift_bound c = Some e)
  (Hwin : is_u64 max_window) :
  match failover_inflated_commit_wait c LeaseGuard max_window with
  | Some x => is_u64 x ∧ ∀ y, max_window * (d + e) ≤ y * d ↔ x ≤ y
  | None => u64_max < div_ceil (max_window * (d + e)) d ∨ u128_max < max_window * (d + e)
  end.
Proof.
  pose proof (leaseguard_window_Ok _ _ Hw) as (d' & e' & Ed & Ee & Hlt & Hm & _ & _ & _).
  assert (d' = d) as -> by congruence. assert (e' = e) as -> by congruence.
  unfold failover_inflated_commit_wait, leaseguard_timing, leaseguard_commit_wait_ns.
  rewrite decide_False by tauto. rewrite Hw, Hd, He.
  unfold u128_checked_add. rewrite decide_True by nia.
  destruct (inflate_by_rational max_window (d + e) d) as [x|] eqn:E.
  - apply inflate_by_rational_Some in E as (H0 & H1 & H2 & H3). split; [done|]. intros y.
    split; [|intros; nia]. intros Hy. apply N.lt_succ_r. apply (N.mul_lt_mono_pos_r d); lia.
  - unfold inflate_by_rational, u128_checked_mul in E. destruct (N.eqb_spec d 0); [lia|].
    case_decide; [|right; lia].
    destruct (N.ltb_spec u64_max (div_ceil (max_window * (d + e)) d)); [by left|done].
Qed.
End lease.

(** ** Witnesses *)

Lemma inherited_wait_covers_lease_witness :
  not_slower (Duration_from_millis 500) (Duration_from_millis 5) 505050504 499999999
  ∧ not_faster 1000000 1000 510101012 510611113 ∧ 505050504 < 510101012.
Proof.
  split_and!; [by vm_compute..|].
  apply (inherited_wait_covers_lease lease_config
           (config_defaults 2 [1; 2; 3] (Duration_from_millis 1000) (Duration_from_millis 100))
           Safe 510101011 (Duration_from_millis 500) (Duration_from_millis 5) 510101011 510611113
           ltac:(by vm_compute) ltac:(by vm_compute) ltac:(by vm_compute) ltac:(by vm_compute)
           ltac:(by vm_compute) 505050504 499999999 510101012 510611113); by vm_compute.
Defined.

Lemma failover_wait_exact_witness :
  is_u64 515202022
  ∧ ∀ y, 510101011 * (Duration_from_millis 500 + Duration_from_millis 5)
         ≤ y * Duration_from_millis 500 ↔ 515202022 ≤ y.
Proof.
  exact (failover_wait_exact lease_config 510101011 510101011
           (Duration_from_millis 500) (Duration_from_millis 5)
           eq_refl eq_refl eq_refl ltac:(vm_compute; discriminate)).
Defined.
