(* ===== verification/Prng.v ===== *)
(** * Randomised election timeouts

    [sailing-proto/src/prng.rs]: the SplitMix64 generator and the election
    timeout drawn from it.  A generator is the interface [Rng], which returns a
    64-bit word and the next state; [Prng] is the instance the endpoint uses. *)

From S2P Require Import Prelude Bytes Num Config.

(** The method of [rand::Rng] the timeout uses, and that a word is 64 bits. *)
Class Rng (R : Type) := {
  next_u64 : R → u64 * R;
  next_u64_bound : ∀ r, is_u64 (next_u64 r).1;
}.

Definition Prng := u64.
Definition Prng_new (seed : u64) : Prng := seed.

Definition Prng_try_next_u64 (p : Prng) : u64 * Prng :=
  let s := wrapping_add p 0x9E3779B97F4A7C15 in
  let z := s in
  let z := wrapping_mul (N.lxor z (N.shiftr z 30)) 0xBF58476D1CE4E5B9 in
  let z := wrapping_mul (N.lxor z (N.shiftr z 27)) 0x94D049BB133111EB in
  (N.lxor z (N.shiftr z 31), s).

Definition Prng_try_next_u32 (p : Prng) : N * Prng :=
  let '(v, p) := Prng_try_next_u64 p in (v mod 2 ^ 32, p).

(** [try_fill_bytes]: [n] whole 8-byte chunks, then the prefix of one more word
    for the remainder. *)
Fixpoint fill_chunks (n : nat) (p : Prng) : bytes * Prng :=
  match n with
  | O => ([], p)
  | S n =>
      let '(v, p) := Prng_try_next_u64 p in
      let '(rest, p) := fill_chunks n p in
      (to_le_bytes 8 v ++ rest, p)
  end.

Definition Prng_try_fill_bytes (len : nat) (p : Prng) : bytes * Prng :=
  let '(out, p) := fill_chunks (len / 8) p in
  let rem := (len mod 8)%nat in
  if (rem =? 0)%nat then (out, p)
  else
    let '(v, p) := Prng_try_next_u64 p in
    (out ++ take rem (to_le_bytes 8 v), p).

Lemma lxor_shiftr_u64 z k : is_u64 z → is_u64 (N.lxor z (N.shiftr z k)).
Proof.
  rewrite !is_u64_pow. change (256 ^ N.of_nat 8) with (2 ^ 64). intros Hz.
  destruct (decide (N.lxor z (N.shiftr z k) = 0)) as [->|Hne]; [done|].
  apply N.log2_lt_pow2; [lia|].
  eapply N.le_lt_trans; [apply N.log2_lxor|].
  assert (Hs : N.shiftr z k ≤ z) by (rewrite N.shiftr_div_pow2; apply N.Div0.div_le_upper_bound; nia).
  apply N.log2_le_mono in Hs. apply N.max_lub_lt; [|eapply N.le_lt_trans; [exact Hs|]];
    (destruct (decide (z = 0)) as [->|]; [done|apply N.log2_lt_pow2; lia]).
Qed.

#[global] Program Instance Prng_Rng : Rng Prng := {| next_u64 := Prng_try_next_u64 |}.
Next Obligation. intros p. unfold Prng_try_next_u64. simpl. apply lxor_shiftr_u64, wrapping_u64. Qed.

Section timeout.
Context {R : Type} `{!Rng R}.

(** [None] is the panic of the raw [Duration] addition. *)
Definition election_timeout (rng : R) (base : Duration) : option Duration * R :=
  let base_ms := Duration_as_millis base mod u64_mod in
  if 2 <=? base_ms then
    let '(v, rng) := next_u64 rng in
    (Duration_add base (Duration_from_millis (v mod base_ms)), rng)
  else
    let base_ns := base in
    if base_ns =? 0 then (Some base, rng)
    else
      let '(v, rng) := next_u64 rng in
      (Duration_add base (v mod base_ns), rng).

Lemma jitter_ms_lt base v :
  2 ≤ Duration_as_millis base mod u64_mod →
  Duration_from_millis (v mod (Duration_as_millis base mod u64_mod)) < base.
Proof.
  unfold Duration_as_millis, Duration_from_millis. intros Hb.
  pose proof (N.mod_lt v (base / 1000000 mod u64_mod) ltac:(lia)).
  pose proof (N.Div0.mod_le (base / 1000000) u64_mod).
  pose proof (N.Div0.mul_div_le base 1000000). nia.
Qed.

(** The randomised election timeout lies in [\[base, 2 * base)], draws
    exactly one word when the base is non-zero and none when it is zero, and
    never overflows for any base a validated configuration can have. *)
Theorem election_timeout_range (rng : R) (base : Duration) :
  base ≤ MAX_ELECTION_TIMEOUT →
  let '(t, rng') := election_timeout rng base in
  rng' = (if base =? 0 then rng else (next_u64 rng).2)
  ∧ ∃ d, t = Some d ∧ base ≤ d ∧ (if base =? 0 then d = 0 else d < 2 * base).
Proof.
  intros Hmax. unfold election_timeout, Duration_add.
  assert (Hfit : ∀ j, j < base → base + j ≤ Duration_MAX).
  { intros j Hj. transitivity (2 * MAX_ELECTION_TIMEOUT); [lia|]. vm_compute. discriminate. }
  destruct (N.leb_spec 2 (Duration_as_millis base mod u64_mod)) as [Hms|Hms].
  - destruct (next_u64 rng) as [v r]. pose proof (jitter_ms_lt base v Hms) as Hj.
    rewrite decide_True by auto. destruct (N.eqb_spec base 0) as [->|]; [by apply N.nlt_0_r in Hj|].
    split; [done|]. eexists. split; [done|]. lia.
  - destruct (N.eqb_spec base 0) as [->|Hb]; [split; [done|]; by exists 0|].
    destruct (next_u64 rng) as [v r]. pose proof (N.mod_lt v base Hb).
    generalize dependent (v mod base). intros j Hj.
    rewrite decide_True by auto. split; [done|]. eexists. split; [done|]. lia.
Qed.
End timeout.

(** ** Filling a buffer *)

Lemma length_fill_chunks n p : length (fill_chunks n p).1 = (8 * n)%nat.
Proof.
  revert p. induction n as [|n IH]; intros p; cbn [fill_chunks]; [done|].
  destruct (Prng_try_next_u64 p) as [v p']. specialize (IH p').
  destruct (fill_chunks n p') as [rest p'']; cbn [fst] in *.
  rewrite length_app, length_to_le_bytes. lia.
Qed.

Lemma length_fill_bytes len p : length (Prng_try_fill_bytes len p).1 = len.
Proof.
  unfold Prng_try_fill_bytes. pose proof (length_fill_chunks (len / 8) p) as Hc.
  destruct (fill_chunks (len / 8) p) as [out p'].
  pose proof (Nat.div_mod_eq len 8). pose proof (Nat.mod_upper_bound len 8).
  destruct (Nat.eqb_spec (len mod 8) 0); cbn [fst] in *; [lia|].
  destruct (Prng_try_next_u64 p') as [v p'']. cbn [fst].
  rewrite length_app, length_take, length_to_le_bytes. lia.
Qed.

(** ** Witness *)

Lemma election_timeout_range_witness :
  let '(t, rng') := election_timeout (Prng_new 7) (Duration_from_millis 1000) in
  rng' = (next_u64 (Prng_new 7)).2
  ∧ ∃ d, t = Some d ∧ Duration_from_millis 1000 ≤ d ∧ d < 2 * Duration_from_millis 1000.
Proof.
  exact (election_timeout_range (Prng_new 7) (Duration_from_millis 1000)
           ltac:(vm_compute; discriminate)).
Defined.
