(* ===== verification/ReadOnly.v ===== *)
(** * ReadIndex bookkeeping

    [sailing-proto/src/read_only/mod.rs]: the leader's pending linearizable
    reads, keyed by an internal round token (the big-endian bytes of a counter)
    and confirmed in FIFO order.  The theorems give the guarantee the quorum
    proof of a read needs: a token is never issued twice, an acknowledgement is
    credited only to the read whose token it echoes, and a token that has been
    confirmed or discarded can never confirm anything again. *)

From S2P Require Import Prelude Bytes Num Config.

Section read_only.
Context {I : Type} `{!NodeId I}.

Record ReadState := { rs_index : Index; rs_context : bytes }.

Record ReadIndexStatus := {
  ris_context : bytes;
  ris_req_from : option I;
  ris_index : Index;
  ris_acks : gset I;
}.

Definition ReadIndexStatus_new (context : bytes) (req_from : option I) (index : Index)
    (leader : I) : ReadIndexStatus :=
  {| ris_context := context; ris_req_from := req_from; ris_index := index;
     ris_acks := {[leader]} |}.

Definition ReadIndexStatus_into_parts (s : ReadIndexStatus) : bytes * option I * Index :=
  (ris_context s, ris_req_from s, ris_index s).

Record ReadOnly := {
  ro_option : ReadOnlyOption;
  ro_pending : gmap bytes ReadIndexStatus;
  ro_queue : list bytes;
  ro_next_round : u64;
}.

Definition ReadOnly_new (option : ReadOnlyOption) : ReadOnly :=
  {| ro_option := option; ro_pending := ∅; ro_queue := []; ro_next_round := 0 |}.

Definition ReadOnly_reset (option : ReadOnlyOption) (r : ReadOnly) : ReadOnly :=
  {| ro_option := option; ro_pending := ∅; ro_queue := []; ro_next_round := ro_next_round r |}.

Definition ReadOnly_set_option (option : ReadOnlyOption) (r : ReadOnly) : ReadOnly :=
  {| ro_option := option; ro_pending := ro_pending r; ro_queue := ro_queue r;
     ro_next_round := ro_next_round r |}.

Definition ReadOnly_context_in_flight (r : ReadOnly) (context : bytes) : bool :=
  existsb (λ kv, bool_decide (ris_req_from kv.2 = None) && bool_decide (ris_context kv.2 = context))
    (map_to_list (ro_pending r)).

(** The loop that removes the drained tokens and collects their statuses. *)
Fixpoint take_confirmed (tokens : list bytes) (pending : gmap bytes ReadIndexStatus)
  : list ReadIndexStatus * gmap bytes ReadIndexStatus :=
  match tokens with
  | [] => ([], pending)
  | t :: tokens =>
      match pending !! t with
      | Some s =>
          let '(out, pending) := take_confirmed tokens (delete t pending) in
          (s :: out, pending)
      | None => take_confirmed tokens pending
      end
  end.

Definition ReadOnly_advance (token : bytes) (r : ReadOnly) : list ReadIndexStatus * ReadOnly :=
  match list_find (λ c, c = token) (ro_queue r) with
  | None => ([], r)
  | Some (pos, _) =>
      let confirmed := take (S pos) (ro_queue r) in
      let '(out, pending) := take_confirmed confirmed (ro_pending r) in
      (out, {| ro_option := ro_option r; ro_pending := pending;
               ro_queue := drop (S pos) (ro_queue r); ro_next_round := ro_next_round r |})
  end.

Definition ReadOnly_last_pending_request_ctx (r : ReadOnly) : option bytes := last (ro_queue r).
Definition ReadOnly_is_empty (r : ReadOnly) : bool := bool_decide (ro_queue r = []).
Definition ReadOnly_len (r : ReadOnly) : nat := length (ro_queue r).

Definition ReadOnly_acks_for (r : ReadOnly) (token : bytes) : option (gset I) :=
  ris_acks <$> ro_pending r !! token.

(** [None] when the round counter is exhausted; the state is then unchanged. *)
Definition ReadOnly_add_request (index : Index) (context : bytes) (from : option I) (leader : I)
    (r : ReadOnly) : option bytes * ReadOnly :=
  let token := to_be_bytes 8 (ro_next_round r) in
  match checked_add (ro_next_round r) 1 with
  | None => (None, r)
  | Some next =>
      let status := ReadIndexStatus_new context from index leader in
      (Some token,
       {| ro_option := ro_option r; ro_pending := <[token := status]> (ro_pending r);
          ro_queue := ro_queue r ++ [token]; ro_next_round := next |})
  end.

Definition ReadOnly_recv_ack (from : I) (token : bytes) (r : ReadOnly) : nat * ReadOnly :=
  match ro_pending r !! token with
  | None => (0%nat, r)
  | Some s =>
      let s' := {| ris_context := ris_context s; ris_req_from := ris_req_from s;
                   ris_index := ris_index s; ris_acks := ris_acks s ∪ {[from]} |} in
      (size (ris_acks s'),
       {| ro_option := ro_option r; ro_pending := <[token := s']> (ro_pending r);
          ro_queue := ro_queue r; ro_next_round := ro_next_round r |})
  end.

(** ** Runs *)

Inductive RoOp :=
| RoReset (o : ReadOnlyOption)
| RoSetOption (o : ReadOnlyOption)
| RoAdvance (token : bytes)
| RoAdd (index : Index) (context : bytes) (from : option I) (leader : I)
| RoAck (from : I) (token : bytes).

Definition ro_apply (r : ReadOnly) (o : RoOp) : ReadOnly :=
  match o with
  | RoReset o => ReadOnly_reset o r
  | RoSetOption o => ReadOnly_set_option o r
  | RoAdvance token => (ReadOnly_advance token r).2
  | RoAdd index context from leader => (ReadOnly_add_request index context from leader r).2
  | RoAck from token => (ReadOnly_recv_ack from token r).2
  end.

Definition ro_run : ReadOnly → list RoOp → ReadOnly := foldl ro_apply.

(** The token of round [n]. *)
Definition round_token (n : N) : bytes := to_be_bytes 8 n.

(** ** Invariant: the queue holds the tokens of increasing rounds below the
    counter, and the pending map holds exactly the queued reads. *)
Definition ReadOnly_wf (r : ReadOnly) : Prop :=
  ∃ ns, ro_queue r = round_token <$> ns
    ∧ StronglySorted N.lt ns ∧ Forall (λ n, n < ro_next_round r) ns
    ∧ dom (ro_pending r) = list_to_set (ro_queue r) ∧ is_u64 (ro_next_round r).

Lemma round_token_inj m n : is_u64 m → is_u64 n → round_token m = round_token n → m = n.
Proof. rewrite !is_u64_pow. apply to_be_bytes_inj. Qed.

Lemma ReadOnly_new_wf o : ReadOnly_wf (ReadOnly_new o).
Proof. exists []. split_and!; try done; constructor. Qed.

Lemma rounds_NoDup ns (next : N) :
  StronglySorted N.lt ns → Forall (λ n, n < next) ns → is_u64 next → NoDup (round_token <$> ns).
Proof.
  intros Hs Hlt Hu. rewrite Forall_forall in Hlt. apply NoDup_fmap_2_strong.
  - intros m n Hm Hn. apply round_token_inj; apply Hlt in Hm, Hn; u64_lia.
  - clear Hlt. induction Hs as [|n ns Hs IH Hall]; constructor; [|done].
    rewrite Forall_forall in Hall. intros Hin. specialize (Hall n Hin). lia.
Qed.

Lemma wf_queue_NoDup r : ReadOnly_wf r → NoDup (ro_queue r).
Proof. intros (ns & -> & Hs & Hlt & _ & Hu). by eapply rounds_NoDup. Qed.

(** A token of a round below the counter differs from the next one issued. *)
Lemma next_token_fresh r n :
  is_u64 (ro_next_round r) → n < ro_next_round r → round_token n ≠ to_be_bytes 8 (ro_next_round r).
Proof. intros Hu Hn E%round_token_inj; u64_lia. Qed.

Lemma take_confirmed_spec tokens pending :
  NoDup tokens → (∀ t, t ∈ tokens → is_Some (pending !! t)) →
  let '(out, pending') := take_confirmed tokens pending in
  Some <$> out = (pending !!.) <$> tokens
  ∧ ∀ k, pending' !! k = if decide (k ∈ tokens) then None else pending !! k.
Proof.
  revert pending. induction tokens as [|t tokens IH]; intros pending Hnd Hin; cbn [take_confirmed].
  { split; [done|]. intros k. rewrite decide_False; [done|]. set_solver. }
  apply NoDup_cons in Hnd as [Ht Hnd]. destruct (Hin t ltac:(set_solver)) as [s Es]. rewrite Es.
  specialize (IH (delete t pending) Hnd). destruct (take_confirmed tokens _) as [out p'].
  assert (Hne : ∀ k, k ∈ tokens → delete t pending !! k = pending !! k).
  { intros k Hk. apply lookup_delete_ne. intros ->. done. }
  destruct IH as [Ho Hp].
  { intros k Hk. rewrite Hne by done. apply Hin. set_solver. }
  split.
  - csimpl. rewrite Es, Ho. f_equal. apply list_fmap_ext. intros i k Hk.
    apply Hne. by eapply list_elem_of_lookup_2.
  - intros k. rewrite Hp. destruct (decide (k = t)) as [->|Hk].
    + rewrite lookup_delete_eq, (decide_True (P := t ∈ t :: tokens)) by set_solver. by case_decide.
    + rewrite lookup_delete_ne by done. apply decide_ext. set_solver.
Qed.

(** What [advance] does to a well-formed manager. *)
Lemma ReadOnly_advance_spec token r :
  ReadOnly_wf r →
  let '(out, r') := ReadOnly_advance token r in
  if decide (token ∈ ro_queue r) then
    ∃ q1 q2, ro_queue r = q1 ++ [token] ++ q2 ∧ ¬ (token ∈ q1)
      ∧ Some <$> out = (ro_pending r !!.) <$> (q1 ++ [token])
      ∧ ro_queue r' = q2 ∧ ro_next_round r' = ro_next_round r
      ∧ ∀ k, ro_pending r' !! k = if decide (k ∈ q1 ++ [token]) then None else ro_pending r !! k
  else out = [] ∧ r' = r.
Proof.
  intros Hwf. unfold ReadOnly_advance.
  destruct (list_find (λ c, c = token) (ro_queue r)) as [[pos c]|] eqn:E.
  - apply list_find_Some in E as (Hpos & -> & Hfirst).
    pose proof (wf_queue_NoDup r Hwf) as Hnd. destruct Hwf as (ns & _ & _ & _ & Hdom & _).
    rewrite (take_S_r _ _ _ Hpos).
    pose proof (take_confirmed_spec (take pos (ro_queue r) ++ [token]) (ro_pending r)) as H.
    destruct (take_confirmed _ _) as [out p']. destruct H as [Ho Hp].
    { rewrite <- (take_S_r _ _ _ Hpos). eapply sublist_NoDup; [done|apply sublist_take]. }
    { intros t Ht. apply elem_of_dom. rewrite Hdom. apply elem_of_list_to_set.
      rewrite <- (take_S_r _ _ _ Hpos) in Ht. by eapply elem_of_take in Ht as (? & ?%list_elem_of_lookup_2 & _). }
    rewrite decide_True by (by eapply list_elem_of_lookup_2).
    exists (take pos (ro_queue r)), (drop (S pos) (ro_queue r)). split_and!; try done.
    + symmetry. by apply take_drop_middle.
    + intros (i & Hi & Hlt)%elem_of_take. by apply (Hfirst i token).
  - apply list_find_None in E. rewrite decide_False; [done|].
    rewrite Forall_forall in E. intros Hin. by apply (E token).
Qed.

Lemma ReadOnly_advance_wf token r : ReadOnly_wf r → ReadOnly_wf (ReadOnly_advance token r).2.
Proof.
  intros Hwf. pose proof (ReadOnly_advance_spec token r Hwf) as H.
  destruct (ReadOnly_advance token r) as [out r']; cbn [snd].
  case_decide; [|by destruct H as [_ ->]].
  destruct H as (q1 & q2 & Eq & Hni & _ & Eq' & En & Hp).
  pose proof (wf_queue_NoDup r Hwf) as Hnd. destruct Hwf as (ns & Ens & Hs & Hlt & Hdom & Hu).
  rewrite Ens, app_assoc in Eq. apply fmap_app_inv in Eq as (ns1 & ns2 & E1 & E2 & ->).
  exists ns2. rewrite En. apply Forall_app in Hlt as [_ Hlt].
  apply StronglySorted_app_1_r in Hs. split_and!; try done; [congruence|].
  apply set_eq. intros k. rewrite elem_of_dom, Hp, elem_of_list_to_set, Eq'.
  rewrite Ens, fmap_app in Hnd, Hdom. rewrite <- E1, <- E2 in Hnd, Hdom.
  apply NoDup_app in Hnd as (_ & Hdis & _). case_decide as Hk.
  - split; [by intros [? ?]|]. intros Hk2. by destruct (Hdis k Hk).
  - rewrite <- elem_of_dom, Hdom, elem_of_list_to_set, elem_of_app. tauto.
Qed.

Lemma ReadOnly_add_request_wf i c f l r :
  ReadOnly_wf r → ReadOnly_wf (ReadOnly_add_request i c f l r).2.
Proof.
  intros Hwf. unfold ReadOnly_add_request. destruct (checked_add _ 1) as [n|] eqn:E; [|done].
  apply checked_add_Some in E as [-> Hn]. destruct Hwf as (ns & Ens & Hs & Hlt & Hdom & Hu).
  exists (ns ++ [ro_next_round r]). cbn. split_and!.
  - by rewrite fmap_app, Ens.
  - apply StronglySorted_app_2; [|done|repeat constructor].
    rewrite Forall_forall in Hlt. intros x y Hx ->%list_elem_of_singleton. by apply Hlt.
  - apply Forall_app. split; [|repeat constructor; lia].
    eapply Forall_impl; [done|]. intros x Hx. simpl in Hx. lia.
  - rewrite dom_insert_L, Hdom, list_to_set_app_L. simpl. set_solver.
  - done.
Qed.

Lemma ReadOnly_recv_ack_wf f t r : ReadOnly_wf r → ReadOnly_wf (ReadOnly_recv_ack f t r).2.
Proof.
  intros (ns & Ens & Hs & Hlt & Hdom & Hu). unfold ReadOnly_recv_ack.
  destruct (ro_pending r !! t) as [s|] eqn:E; exists ns; split_and!; try done.
  cbn. rewrite dom_insert_L, Hdom. apply elem_of_dom_2 in E. rewrite Hdom in E. set_solver.
Qed.

Lemma ro_apply_wf r o : ReadOnly_wf r → ReadOnly_wf (ro_apply r o).
Proof.
  intros Hwf. destruct o; simpl; [| |by apply ReadOnly_advance_wf|by apply ReadOnly_add_request_wf
    |by apply ReadOnly_recv_ack_wf].
  - destruct Hwf as (_ & _ & _ & _ & _ & Hu). exists []. split_and!; try done; constructor.
  - done.
Qed.

Lemma ro_run_wf os r : ReadOnly_wf r → ReadOnly_wf (ro_run r os).
Proof.
  revert r. induction os as [|o os IH]; intros r Hwf; simpl; [done|]. apply IH. by apply ro_apply_wf.
Qed.

(** The effect of one operation on the entry of an already issued round. *)
Definition entry_step (token : bytes) (o : RoOp) (e : option ReadIndexStatus)
  : option ReadIndexStatus :=
  match o with
  | RoAck from t =>
      if decide (t = token) then
        (λ s, {| ris_context := ris_context s; ris_req_from := ris_req_from s;
                 ris_index := ris_index s; ris_acks := ris_acks s ∪ {[from]} |}) <$> e
      else e
  | _ => e
  end.

Lemma ro_apply_round r o : ReadOnly_wf r → ro_next_round r ≤ ro_next_round (ro_apply r o).
Proof.
  intros Hwf. destruct o; simpl; try done.
  - pose proof (ReadOnly_advance_spec token r Hwf) as H.
    destruct (ReadOnly_advance token r) as [out r']; cbn [snd].
    case_decide; [destruct H as (? & ? & _ & _ & _ & _ & -> & _)|destruct H as [_ ->]]; lia.
  - unfold ReadOnly_add_request. destruct (checked_add _ 1) as [n|] eqn:E; simpl; [|lia].
    apply checked_add_Some in E as [-> ?]. lia.
  - unfold ReadOnly_recv_ack. destruct (_ !! _); simpl; lia.
Qed.

Lemma ro_apply_entry r o n :
  ReadOnly_wf r → n < ro_next_round r →
  ro_pending (ro_apply r o) !! round_token n = None
  ∨ ro_pending (ro_apply r o) !! round_token n
    = entry_step (round_token n) o (ro_pending r !! round_token n).
Proof.
  intros Hwf Hn. destruct o; simpl; auto.
  - pose proof (ReadOnly_advance_spec token r Hwf) as H.
    destruct (ReadOnly_advance token r) as [out r']; cbn [snd].
    case_decide; [|destruct H as [_ ->]; auto].
    destruct H as (q1 & q2 & _ & _ & _ & _ & _ & Hp). rewrite Hp. case_decide; auto.
  - unfold ReadOnly_add_request. destruct (checked_add _ 1) eqn:E; simpl; [|auto].
    right. rewrite lookup_insert_ne; [done|]. apply not_eq_sym, next_token_fresh; [|done].
    by destruct Hwf as (_ & _ & _ & _ & _ & ?).
  - right. unfold ReadOnly_recv_ack. case_decide as Et.
    + subst token. destruct (ro_pending r !! round_token n) eqn:E; simpl; [|done].
      by rewrite lookup_insert_eq.
    + destruct (ro_pending r !! token) eqn:E; simpl; [|done]. by rewrite lookup_insert_ne.
Qed.

Lemma ro_run_round os r : ReadOnly_wf r → ro_next_round r ≤ ro_next_round (ro_run r os).
Proof.
  revert r. induction os as [|o os IH]; intros r Hwf; cbn; [lia|].
  etrans; [by apply (ro_apply_round r o)|]. by apply IH, ro_apply_wf.
Qed.

(** The nodes whose acknowledgement of [token] appears in a run. *)
Definition ackers (token : bytes) (os : list RoOp) : gset I :=
  list_to_set (omap (λ o, match o with
                          | RoAck from t => if decide (t = token) then Some from else None
                          | _ => None
                          end) os).

Definition with_acks (s : ReadIndexStatus) (acks : gset I) : ReadIndexStatus :=
  {| ris_context := ris_context s; ris_req_from := ris_req_from s; ris_index := ris_index s;
     ris_acks := ris_acks s ∪ acks |}.

Lemma entry_step_acks token o s os :
  (λ s, with_acks s (ackers token os)) <$> entry_step token o (Some s)
  = Some (with_acks s (ackers token (o :: os))).
Proof.
  unfold ackers. destruct o as [| | | |f t]; try done. csimpl. case_decide; [|done].
  csimpl. unfold with_acks. simpl. do 2 f_equal. by rewrite (assoc_L (∪)).
Qed.

Lemma ro_run_gone os r n :
  ReadOnly_wf r → n < ro_next_round r → ro_pending r !! round_token n = None →
  ro_pending (ro_run r os) !! round_token n = None.
Proof.
  revert r. induction os as [|o os IH]; intros r Hwf Hn Hp; [done|].
  change (ro_run r (o :: os)) with (ro_run (ro_apply r o) os). apply IH.
  - by apply ro_apply_wf.
  - pose proof (ro_apply_round r o Hwf). lia.
  - destruct (ro_apply_entry r o n Hwf Hn) as [|E]; [done|]. rewrite E, Hp.
    destruct o; simpl; try done. by case_decide.
Qed.

Lemma ro_run_entry os r n s :
  ReadOnly_wf r → n < ro_next_round r → ro_pending r !! round_token n = Some s →
  ro_pending (ro_run r os) !! round_token n = None
  ∨ ro_pending (ro_run r os) !! round_token n = Some (with_acks s (ackers (round_token n) os)).
Proof.
  revert r s. induction os as [|o os IH]; intros r s Hwf Hn Hp.
  { right. change (ro_run r []) with r. rewrite Hp. unfold with_acks, ackers. cbn. rewrite union_empty_r_L. by destruct s. }
  pose proof (ro_apply_wf r o Hwf) as Hwf'. pose proof (ro_apply_round r o Hwf) as Hr.
  change (ro_run r (o :: os)) with (ro_run (ro_apply r o) os).
  destruct (ro_apply_entry r o n Hwf Hn) as [E|E].
  { left. apply (ro_run_gone os); [done|lia|done]. }
  rewrite Hp in E. pose proof (entry_step_acks (round_token n) o s os) as Ha.
  destruct (entry_step (round_token n) o (Some s)) as [s'|] eqn:Es; [|done].
  destruct (IH (ro_apply r o) s') as [|E2]; [done|lia|done|by left|]. right.
  rewrite E2. exact Ha.
Qed.

Lemma ReadOnly_add_request_Some i c f l r token r' :
  ReadOnly_add_request i c f l r = (Some token, r') →
  token = round_token (ro_next_round r) ∧ ro_next_round r' = ro_next_round r + 1
  ∧ ro_pending r' !! token = Some (ReadIndexStatus_new c f i l).
Proof.
  unfold ReadOnly_add_request. destruct (checked_add _ 1) as [n|] eqn:E; [|done].
  apply checked_add_Some in E as [-> _]. intros [= <- <-]. split_and!; try done.
  cbn. by rewrite lookup_insert_eq.
Qed.

(** ** Properties *)

(** C29: an acknowledgement proves leadership only for the read whose round it
    echoes.  Whatever happened before ([before]) and after ([after]) a read was
    registered, the token it gets was not pending; and as long as the read is
    pending, its context, originator and commit index are the ones it was
    registered with and its acknowledgement set is exactly the leader together
    with the nodes that acknowledged this very token after the registration.
    Acknowledgements of earlier rounds, reused contexts and resets never count. *)
Theorem read_acks_exact opt before after index context from leader token r :
  ReadOnly_add_request index context from leader (ro_run (ReadOnly_new opt) before)
    = (Some token, r) →
  ro_pending (ro_run (ReadOnly_new opt) before) !! token = None
  ∧ ∀ s, ro_pending (ro_run r after) !! token = Some s →
      ris_context s = context ∧ ris_req_from s = from ∧ ris_index s = index
      ∧ ris_acks s = {[leader]} ∪ ackers token after.
Proof.
  intros Hadd. set (r0 := ro_run (ReadOnly_new opt) before) in *.
  assert (Hwf0 : ReadOnly_wf r0) by apply ro_run_wf, ReadOnly_new_wf.
  pose proof (ReadOnly_add_request_wf index context from leader r0 Hwf0) as Hwf. rewrite Hadd in Hwf.
  apply ReadOnly_add_request_Some in Hadd as (-> & Hn & Hs). split.
  - apply not_elem_of_dom. destruct Hwf0 as (ns & Ens & _ & Hlt & -> & Hu).
    rewrite elem_of_list_to_set, Ens, list_elem_of_fmap. intros (n & E & Hin).
    rewrite Forall_forall in Hlt. specialize (Hlt n Hin). simpl in Hlt.
    apply round_token_inj in E; u64_lia.
  - intros s E. destruct (ro_run_entry after r (ro_next_round r0) _ Hwf ltac:(lia) Hs) as [E'|E'];
      rewrite E' in E; [done|]. by injection E as <-.
Qed.

(** A round that is over stays over.  Once the token of an issued round is
    no longer pending (its read was confirmed or discarded), then after any
    further sequence of operations an acknowledgement echoing it counts for
    nothing and changes nothing, and advancing on it confirms nothing. *)
Theorem stale_token_inert opt before after n from :
  let r := ro_run (ReadOnly_new opt) before in
  let r' := ro_run r after in
  n < ro_next_round r → ro_pending r !! round_token n = None →
  ReadOnly_recv_ack from (round_token n) r' = (0%nat, r')
  ∧ ReadOnly_advance (round_token n) r' = ([], r').
Proof.
  intros r r' Hn Hp. assert (Hwf : ReadOnly_wf r) by apply ro_run_wf, ReadOnly_new_wf.
  pose proof (ro_run_gone after r n Hwf Hn Hp) as Hp'. fold r' in Hp'. split.
  - unfold ReadOnly_recv_ack. by rewrite Hp'.
  - pose proof (ro_run_wf after r Hwf) as Hwf'. fold r' in Hwf'.
    pose proof (ReadOnly_advance_spec (round_token n) r' Hwf') as H.
    destruct (ReadOnly_advance _ r') as [out r'']. rewrite decide_False in H.
    + by destruct H as [-> ->].
    + destruct Hwf' as (_ & _ & _ & _ & Hdom & _). intros Hin. apply not_elem_of_dom in Hp'.
      apply Hp'. rewrite Hdom. by apply elem_of_list_to_set.
Qed.

(** Confirmation is FIFO and complete.  In every reachable state, advancing
    on a queued token returns the statuses of exactly the reads queued up to and
    including it, oldest first, and leaves exactly the later ones pending. *)
Theorem advance_fifo opt before token :
  let r := ro_run (ReadOnly_new opt) before in
  token ∈ ro_queue r →
  let '(out, r') := ReadOnly_advance token r in
  ∃ q1 q2, ro_queue r = q1 ++ [token] ++ q2
    ∧ Some <$> out = (ro_pending r !!.) <$> (q1 ++ [token])
    ∧ ro_queue r' = q2
    ∧ dom (ro_pending r') = list_to_set q2
    ∧ ∀ k, k ∈ q2 → ro_pending r' !! k = ro_pending r !! k.
Proof.
  intros r Hin. assert (Hwf : ReadOnly_wf r) by apply ro_run_wf, ReadOnly_new_wf.
  pose proof (ReadOnly_advance_spec token r Hwf) as H.
  pose proof (ReadOnly_advance_wf token r Hwf) as Hwf'. pose proof (wf_queue_NoDup r Hwf) as Hnd.
  destruct (ReadOnly_advance token r) as [out r']. rewrite decide_True in H by done.
  destruct H as (q1 & q2 & Eq & _ & Ho & Eq' & _ & Hp). exists q1, q2. split_and!; try done.
  - destruct Hwf' as (_ & _ & _ & _ & Hdom & _). by rewrite <- Eq'.
  - intros k Hk. rewrite Hp. rewrite decide_False; [done|]. intros Hk'.
    rewrite Eq, app_assoc in Hnd. apply NoDup_app in Hnd as (_ & Hdis & _). by apply (Hdis k).
Qed.
End read_only.

(** ** Witnesses *)

Definition demo_reads : list (@RoOp N) :=
  [RoAdd 4 [x01] None 1; RoAck 2 (round_token 0); RoAdvance (round_token 0);
   RoAdd 5 [x01] None 1; RoAdd 6 [x02] None 1].

Lemma read_acks_exact_witness :
  let r := ro_run (ReadOnly_new Safe) demo_reads in
  ro_pending r !! round_token 3 = None
  ∧ ∀ s : @ReadIndexStatus N N_NodeId,
      ro_pending (ro_run (ReadOnly_add_request 7 [x03] None 1 r).2
        [RoAck 2 (round_token 1); RoAck 3 (round_token 3)]) !! round_token 3 = Some s →
      ris_context s = [x03] ∧ ris_req_from s = None ∧ ris_index s = 7
      ∧ ris_acks s = {[1]} ∪ ackers (round_token 3)
          [RoAck 2 (round_token 1); RoAck 3 (round_token 3)].
Proof.
  apply (read_acks_exact Safe demo_reads
    [RoAck 2 (round_token 1); RoAck 3 (round_token 3)] 7 [x03] None 1 (round_token 3)).
  vm_compute. reflexivity.
Defined.

Lemma stale_token_inert_witness :
  let r := ro_run (ReadOnly_new Safe) (take 4 demo_reads) in
  let r' := ro_run r (drop 4 demo_reads) in
  ReadOnly_recv_ack 3 (round_token 0) r' = (0%nat, r')
  ∧ ReadOnly_advance (round_token 0) r' = ([], r').
Proof.
  apply (stale_token_inert Safe (take 4 demo_reads) (drop 4 demo_reads) 0 3);
    vm_compute; reflexivity.
Defined.

Lemma advance_fifo_witness :
  let r := ro_run (ReadOnly_new Safe) demo_reads in
  let '(out, r') := ReadOnly_advance (round_token 1) r in
  ∃ q1 q2, ro_queue r = q1 ++ [round_token 1] ++ q2
    ∧ Some <$> out = (ro_pending r !!.) <$> (q1 ++ [round_token 1])
    ∧ ro_queue r' = q2
    ∧ dom (ro_pending r') = list_to_set q2
    ∧ ∀ k, k ∈ q2 → ro_pending r' !! k = ro_pending r !! k.
Proof.
  apply (advance_fifo Safe demo_reads (round_token 1)).
  apply (proj1 (bool_decide_eq_true _)). vm_compute. reflexivity.
Defined.
