(* ===== verification/Staging.v ===== *)
(** * Chunked snapshot staging

    [SnapshotStaging] and [resident_snapshot_chunk] of
    [sailing-proto/src/storage.rs]: the accumulator a receiver assembles a
    snapshot in, from chunks that may arrive late, twice or out of order, and
    the slicing of a resident blob on the sender's side.  A [usize] is 64 bits
    wide; the buffer allocation is fallible and its outcome is an argument.

    The specification is the set of covered byte positions.  The runs are the
    canonical (sorted, separated) representation of that set, the reported
    watermark is the length of the covered prefix, and a complete staging of a
    blob's chunks is the blob. *)

From S2P Require Import Prelude Bytes Num.

Definition MAX_STAGING_RUNS : nat := N.to_nat 1024.

Record SnapshotStaging := {
  st_boundary : Index;
  st_buf : bytes;
  st_runs : list (u64 * u64);
}.

(** [alloc len] tells whether [try_reserve_exact(len)] succeeds. *)
Definition SnapshotStaging_new (alloc : N → bool) (boundary : Index) (total_len max_bytes : u64)
  : option SnapshotStaging :=
  if max_bytes <? total_len then None
  else if negb (alloc total_len) then None
  else Some {| st_boundary := boundary; st_buf := replicate (N.to_nat total_len) x00; st_runs := [] |}.

Definition SnapshotStaging_total_len (s : SnapshotStaging) : u64 := N.of_nat (length (st_buf s)).

(** The merge loop; the last element of [merged] is the head of [acc]. *)
Fixpoint merge_runs (acc runs : list (u64 * u64)) : list (u64 * u64) :=
  match runs with
  | [] => reverse acc
  | (s, e) :: runs =>
      match acc with
      | (ls, le) :: acc' =>
          if s <=? le then merge_runs ((ls, N.max le e) :: acc') runs
          else merge_runs ((s, e) :: acc) runs
      | [] => merge_runs [(s, e)] runs
      end
  end.

Definition run_start_le (a b : u64 * u64) : Prop := a.1 ≤ b.1.
#[global] Instance run_start_le_dec : RelDecision run_start_le.
Proof. intros a b. unfold run_start_le. apply _. Defined.
#[global] Instance run_start_le_trans : Transitive run_start_le.
Proof. intros a b c. unfold run_start_le. lia. Qed.
#[global] Instance run_start_le_total : Total run_start_le.
Proof. intros a b. unfold run_start_le. lia. Qed.

(** [insert_run]: the flag is false for [None].  [sort_unstable_by_key] orders
    by start; runs that start together are merged whatever their order.  On
    [None] the pushed run stays in the sorted, unmerged list. *)
Definition insert_run (start stop : u64) (s : SnapshotStaging) : bool * SnapshotStaging :=
  if stop <=? start then (true, s)
  else
    let runs := merge_sort run_start_le (st_runs s ++ [(start, stop)]) in
    let merged := merge_runs [] runs in
    if decide (MAX_STAGING_RUNS < length merged)%nat then
      (false, {| st_boundary := st_boundary s; st_buf := st_buf s; st_runs := runs |})
    else
      (true, {| st_boundary := st_boundary s; st_buf := st_buf s; st_runs := merged |}).

Definition SnapshotStaging_contiguous (s : SnapshotStaging) : u64 :=
  match st_runs s with
  | (0, stop) :: _ => stop
  | _ => 0
  end.

Definition SnapshotStaging_is_complete (s : SnapshotStaging) : bool :=
  SnapshotStaging_contiguous s =? N.of_nat (length (st_buf s)).

Definition SnapshotStaging_accept (offset : u64) (data : bytes) (s : SnapshotStaging)
  : option u64 * SnapshotStaging :=
  let len := N.of_nat (length (st_buf s)) in
  let start := N.min offset len in
  let stop := N.min (saturating_add start (N.of_nat (length data))) len in
  let buf := take (N.to_nat start) (st_buf s)
             ++ take (N.to_nat (stop - start)) data
             ++ drop (N.to_nat stop) (st_buf s) in
  let s := {| st_boundary := st_boundary s; st_buf := buf; st_runs := st_runs s |} in
  let '(ok, s) := insert_run start stop s in
  if ok then (Some (SnapshotStaging_contiguous s), s) else (None, s).

(** [resident_snapshot_chunk] on a blob: the total length and the slice. *)
Definition resident_snapshot_chunk (blob : bytes) (offset len : u64) : u64 * bytes :=
  let total := N.of_nat (length blob) in
  let start := N.min offset total in
  let stop := N.min (saturating_add offset len) total in
  (total, take (N.to_nat (stop - start)) (drop (N.to_nat start) blob)).

(** ** Specification *)

(** The byte positions a list of runs covers. *)
Definition covered (runs : list (u64 * u64)) (x : N) : Prop :=
  ∃ r, r ∈ runs ∧ r.1 ≤ x < r.2.

(** Non-empty runs in order, with a gap between neighbours. *)
Fixpoint canonical (runs : list (u64 * u64)) : Prop :=
  match runs with
  | [] => True
  | (s, e) :: rest =>
      s < e ∧ match rest with [] => True | (s', _) :: _ => e < s' end ∧ canonical rest
  end.

Lemma covered_app l1 l2 x : covered (l1 ++ l2) x ↔ covered l1 x ∨ covered l2 x.
Proof. unfold covered. set_solver. Qed.
Lemma covered_cons r l x : covered (r :: l) x ↔ r.1 ≤ x < r.2 ∨ covered l x.
Proof. unfold covered. set_solver. Qed.
Lemma covered_nil x : covered [] x ↔ False.
Proof. unfold covered. set_solver. Qed.
#[global] Instance covered_Permutation : Proper ((≡ₚ) ==> (=) ==> iff) covered.
Proof. intros l1 l2 Hl x ? <-. unfold covered. by setoid_rewrite Hl. Qed.

Lemma canonical_snoc l s e :
  canonical l → s < e → (∀ r, last l = Some r → r.2 < s) → canonical (l ++ [(s, e)]).
Proof.
  induction l as [|[a b] l IH]; intros Hl Hse Hlast; simpl in *; [done|].
  destruct Hl as (Hab & Hb & Hl). split_and!; [done| |].
  - destruct l as [|[c d] l]; simpl; [by apply (Hlast (a, b))|done].
  - apply IH; [done..|]. intros r Hr. apply Hlast. destruct l; [done|exact Hr].
Qed.

Lemma canonical_snoc_inv l r :
  canonical (l ++ [r]) → canonical l ∧ r.1 < r.2 ∧ ∀ r', last l = Some r' → r'.2 < r.1.
Proof.
  destruct r as [s e]. induction l as [|[a b] l IH]; intros Hl; simpl in *.
  { split_and!; [done|by destruct Hl|done]. }
  destruct Hl as (Hab & Hb & Hl). destruct (IH Hl) as (Hc & Hse & Hlast).
  split_and!; try done.
  - by destruct l as [|[c d] l].
  - intros r' Hr'. destruct l as [|[c d] l]; [by injection Hr' as <-|by apply Hlast].
Qed.

(** ** Merging *)

Lemma canonical_rest_above s e rest x :
  canonical ((s, e) :: rest) → covered rest x → e < x.
Proof.
  revert s e. induction rest as [|[s' e'] rest IH]; intros s e Hc; [by rewrite covered_nil|].
  destruct Hc as (Hse & Hgap & Hc). rewrite covered_cons. intros [[? ?]|Hx]; [simpl in *; lia|].
  specialize (IH s' e' Hc Hx). destruct Hc as [? _]. lia.
Qed.

Lemma merge_runs_spec acc runs :
  canonical (reverse acc) → StronglySorted run_start_le runs →
  Forall (λ r, r.1 < r.2) runs →
  (∀ l r, head acc = Some l → r ∈ runs → l.1 ≤ r.1) →
  canonical (merge_runs acc runs)
  ∧ ∀ x, covered (merge_runs acc runs) x ↔ covered acc x ∨ covered runs x.
Proof.
  revert acc. induction runs as [|[s e] runs IH]; intros acc Hacc Hs Hne Hhd; simpl.
  { split; [done|]. intros x. rewrite covered_nil, (reverse_Permutation acc). tauto. }
  apply StronglySorted_cons in Hs as [Hall Hs]. apply Forall_cons in Hne as [Hse Hne].
  rewrite Forall_forall in Hall. simpl in Hse. destruct acc as [|[ls le] acc].
  { destruct (IH [(s, e)]) as [Hc Hx]; [by split_and!|done..| |].
    - intros l r [= <-] Hr. by apply Hall.
    - split; [done|]. intros x. rewrite Hx, !covered_cons, covered_nil. tauto. }
  rewrite reverse_cons in Hacc. destruct (canonical_snoc_inv _ _ Hacc) as (Hc & Hlse & Hlast).
  simpl in Hlse. assert (Hls : ls ≤ s) by (apply (Hhd (ls, le) (s, e)); [done|set_solver]).
  destruct (N.leb_spec s le) as [Hle|Hle].
  - destruct (IH ((ls, N.max le e) :: acc)) as [Hc' Hx]; [|done..| |].
    + rewrite reverse_cons. apply canonical_snoc; [done|lia|done].
    + intros l r [= <-] Hr. apply (Hhd (ls, le)); [done|set_solver].
    + split; [done|]. intros x. rewrite Hx, !covered_cons. simpl.
      assert (ls ≤ x < N.max le e ↔ ls ≤ x < le ∨ s ≤ x < e) by lia. tauto.
  - destruct (IH ((s, e) :: (ls, le) :: acc)) as [Hc' Hx]; [|done..| |].
    + rewrite reverse_cons, reverse_cons. apply canonical_snoc; [done|done|].
      intros r. rewrite last_snoc. by intros [= <-].
    + intros l r [= <-] Hr. by apply Hall.
    + split; [done|]. intros x. rewrite Hx, !covered_cons. tauto.
Qed.

Lemma canonical_nonempty runs : canonical runs → Forall (λ r, r.1 < r.2) runs.
Proof. induction runs as [|[s e] runs IH]; intros Hc; [done|]. destruct Hc as (? & _ & ?). auto. Qed.

(** Two canonical lists that cover the same positions are equal. *)
Lemma canonical_unique l1 l2 :
  canonical l1 → canonical l2 → (∀ x, covered l1 x ↔ covered l2 x) → l1 = l2.
Proof.
  revert l2. induction l1 as [|[s1 e1] l1 IH]; intros [|[s2 e2] l2] H1 H2 Hx; [done|..].
  - exfalso. destruct H2 as [? _]. apply (covered_nil s2), Hx, covered_cons. left. simpl. lia.
  - exfalso. destruct H1 as [? _]. apply (covered_nil s1), Hx, covered_cons. left. simpl. lia.
  - pose proof H1 as (Hse1 & _ & Hc1). pose proof H2 as (Hse2 & _ & Hc2).
    assert (Ha1 := λ x, canonical_rest_above s1 e1 l1 x H1).
    assert (Ha2 := λ x, canonical_rest_above s2 e2 l2 x H2).
    assert (Hx' : ∀ x, s1 ≤ x < e1 ∨ covered l1 x ↔ s2 ≤ x < e2 ∨ covered l2 x).
    { intros x. pose proof (Hx x) as H. rewrite !covered_cons in H. exact H. }
    assert (Es : s1 = s2).
    { destruct (proj1 (Hx' s1)) as [|Hc%Ha2]; [left; lia|..];
      destruct (proj2 (Hx' s2)) as [|Hc'%Ha1]; try (left; lia); lia. }
    assert (Ee : e1 = e2).
    { destruct (N.lt_trichotomy e1 e2) as [Hlt|[|Hlt]]; [exfalso|done|exfalso].
      - destruct (proj2 (Hx' e1)) as [|Hc%Ha1]; [left|..]; lia.
      - destruct (proj1 (Hx' e2)) as [|Hc%Ha2]; [left|..]; lia. }
    subst s2 e2. f_equal. apply IH; [done..|]. intros x. split; intros Hc.
    + destruct (proj1 (Hx' x) (or_intror Hc)) as [?|]; [|done]. apply Ha1 in Hc. lia.
    + destruct (proj2 (Hx' x) (or_intror Hc)) as [?|]; [|done]. apply Ha2 in Hc. lia.
Qed.

Lemma contiguous_spec s k :
  canonical (st_runs s) →
  k ≤ SnapshotStaging_contiguous s ↔ ∀ x, x < k → covered (st_runs s) x.
Proof.
  unfold SnapshotStaging_contiguous. intros Hc.
  assert (Hzero : ¬ covered (st_runs s) 0 → k ≤ 0 ↔ ∀ x, x < k → covered (st_runs s) x).
  { intros Hn. split; [lia|]. intros H. destruct (decide (k = 0)); [lia|].
    destruct Hn. apply H. lia. }
  destruct (st_runs s) as [|[[|a] e] rest].
  - apply Hzero. rewrite covered_nil. tauto.
  - clear Hzero. destruct Hc as (Hse & Hgap & Hc0). split.
    + intros Hk x Hx. rewrite covered_cons. left. simpl. lia.
    + intros H. destruct (decide (k ≤ e)); [done|]. exfalso.
      destruct (proj1 (covered_cons _ _ _) (H e ltac:(lia))) as [?|Hr]; [simpl in *; lia|].
      apply (canonical_rest_above 0 e rest e) in Hr; [lia|done].
  - apply Hzero. rewrite covered_cons. simpl. intros [?|Hr]; [lia|].
    apply (canonical_rest_above _ _ _ _ Hc) in Hr. lia.
Qed.

(** ** Invariant *)

Definition SnapshotStaging_wf (s : SnapshotStaging) : Prop :=
  canonical (st_runs s) ∧ (length (st_runs s) ≤ MAX_STAGING_RUNS)%nat
  ∧ ∀ x, covered (st_runs s) x → x < SnapshotStaging_total_len s.

Lemma insert_run_spec start stop s s' :
  SnapshotStaging_wf s → stop ≤ SnapshotStaging_total_len s →
  insert_run start stop s = (true, s') →
  SnapshotStaging_wf s' ∧ st_buf s' = st_buf s
  ∧ ∀ x, covered (st_runs s') x ↔ covered (st_runs s) x ∨ start ≤ x < stop.
Proof.
  intros (Hc & Hlen & Hb) Hstop. unfold insert_run.
  destruct (N.leb_spec stop start) as [Hle|Hlt].
  { intros [= <-]. split_and!; try done. intros x. intuition lia. }
  set (runs := merge_sort run_start_le (st_runs s ++ [(start, stop)])).
  case_decide as Hm; [done|]. intros [= <-]. simpl.
  assert (Hp : runs ≡ₚ st_runs s ++ [(start, stop)]) by apply merge_sort_Permutation.
  destruct (merge_runs_spec [] runs) as [Hc' Hx]; [done|apply StronglySorted_merge_sort; apply _| |done|].
  { rewrite Hp. apply Forall_app. split; [by apply canonical_nonempty|]. by constructor. }
  assert (Hx' : ∀ x, covered (merge_runs [] runs) x ↔ covered (st_runs s) x ∨ start ≤ x < stop).
  { intros x. rewrite Hx, Hp, covered_app, covered_cons, !covered_nil. simpl. tauto. }
  split_and!; try done. split_and!; simpl; [done|lia|].
  intros x. rewrite Hx'. intros [?|?]; [by apply Hb|]. unfold SnapshotStaging_total_len in *. simpl. lia.
Qed.

(** ** Accepting chunks *)

(** The buffer after a write: [data] between [start] and [stop], the old bytes
    elsewhere. *)
Definition write_buf (start stop : N) (data buf : bytes) : bytes :=
  take (N.to_nat start) buf ++ take (N.to_nat (stop - start)) data ++ drop (N.to_nat stop) buf.

Lemma length_write_buf start stop data buf :
  start ≤ stop → stop ≤ N.of_nat (length buf) → stop - start ≤ N.of_nat (length data) →
  length (write_buf start stop data buf) = length buf.
Proof.
  intros H1 H2 H3. unfold write_buf. rewrite !length_app, !length_take, length_drop. lia.
Qed.

Lemma lookup_write_buf start stop data buf (x : N) :
  start ≤ stop → stop ≤ N.of_nat (length buf) → stop - start ≤ N.of_nat (length data) →
  write_buf start stop data buf !! N.to_nat x =
  if decide (start ≤ x < stop) then data !! N.to_nat (x - start) else buf !! N.to_nat x.
Proof.
  intros H1 H2 H3. unfold write_buf. rewrite !lookup_app, !length_take.
  case_decide as Hx.
  - rewrite lookup_ge_None_2 by (rewrite length_take; lia).
    rewrite lookup_take_lt by lia.
    destruct (lookup_lt_is_Some_2 data (N.to_nat x - Nat.min (N.to_nat start) (length buf)))
      as [b Hb]; [lia|].
    rewrite Hb. symmetry. rewrite <- Hb. f_equal. lia.
  - destruct (decide (x < start)).
    + rewrite lookup_take_lt by lia.
      by destruct (lookup_lt_is_Some_2 buf (N.to_nat x) ltac:(lia)) as [b ->].
    + rewrite lookup_ge_None_2 by (rewrite length_take; lia).
      rewrite lookup_ge_None_2 by (rewrite length_take; lia).
      rewrite lookup_drop. f_equal. lia.
Qed.

Lemma accept_spec offset data s w s' :
  SnapshotStaging_wf s → is_u64 (SnapshotStaging_total_len s) →
  SnapshotStaging_accept offset data s = (Some w, s') →
  let len := SnapshotStaging_total_len s in
  SnapshotStaging_wf s' ∧ w = SnapshotStaging_contiguous s'
  ∧ length (st_buf s') = length (st_buf s)
  ∧ (∀ x, covered (st_runs s') x ↔
       covered (st_runs s) x ∨ offset ≤ x < offset + N.of_nat (length data) ∧ x < len)
  ∧ (∀ x, x < len → st_buf s' !! N.to_nat x =
       if decide (offset ≤ x < offset + N.of_nat (length data))
       then data !! N.to_nat (x - offset) else st_buf s !! N.to_nat x).
Proof.
  intros (Hc & Hl & Hb) Hu. unfold SnapshotStaging_accept. fold (SnapshotStaging_total_len s).
  set (len := SnapshotStaging_total_len s) in *. set (n := N.of_nat (length data)).
  set (start := N.min offset len). set (stop := N.min (saturating_add start n) len).
  assert (Hsat : stop = N.min (start + n) len) by (unfold stop; u64_lia).
  fold (write_buf start stop data (st_buf s)).
  set (s0 := {| st_boundary := _; st_buf := _; st_runs := _ |}).
  assert (Hlen : length (st_buf s0) = length (st_buf s)).
  { apply length_write_buf; unfold len, SnapshotStaging_total_len, n, start in *; lia. }
  assert (Hwf0 : SnapshotStaging_wf s0).
  { split_and!; try done. intros x Hx. unfold SnapshotStaging_total_len. rewrite Hlen. by apply Hb. }
  destruct (insert_run start stop s0) as [[] s1] eqn:E; [|done]. intros [= <- <-].
  destruct (insert_run_spec start stop s0 s1 Hwf0) as (Hwf1 & Hbuf & Hcov); [|done|].
  { unfold SnapshotStaging_total_len. rewrite Hlen. fold (SnapshotStaging_total_len s). fold len. lia. }
  split_and!; try done.
  - by rewrite Hbuf.
  - intros x. rewrite Hcov. change (st_runs s0) with (st_runs s).
    assert (start ≤ x < stop ↔ offset ≤ x < offset + n ∧ x < len) by (unfold start in *; lia). tauto.
  - intros x Hx. rewrite Hbuf. change (st_buf s0) with (write_buf start stop data (st_buf s)).
    rewrite lookup_write_buf; [|unfold len, SnapshotStaging_total_len, n, start in *; lia..].
    repeat case_decide; try done; try (unfold start in *; lia).
    f_equal. unfold start in *. lia.
Qed.

(** Writing bytes that are already there, over positions already covered. *)
Lemma insert_run_noop start stop s :
  SnapshotStaging_wf s → (∀ x, start ≤ x < stop → covered (st_runs s) x) →
  insert_run start stop s = (true, s).
Proof.
  intros (Hc & Hlen & Hb) Hcov. unfold insert_run.
  destruct (N.leb_spec stop start) as [Hle|Hlt]; [done|].
  set (runs := merge_sort run_start_le (st_runs s ++ [(start, stop)])).
  assert (Hp : runs ≡ₚ st_runs s ++ [(start, stop)]) by apply merge_sort_Permutation.
  destruct (merge_runs_spec [] runs) as [Hc' Hx]; [done|apply StronglySorted_merge_sort; apply _| |done|].
  { rewrite Hp. apply Forall_app. split; [by apply canonical_nonempty|]. by constructor. }
  assert (merge_runs [] runs = st_runs s) as ->.
  { apply canonical_unique; [done..|]. intros x.
    rewrite Hx, Hp, covered_app, covered_cons, !covered_nil. simpl. specialize (Hcov x). tauto. }
  rewrite decide_False by lia. by destruct s.
Qed.

Lemma accept_noop offset data s :
  SnapshotStaging_wf s → is_u64 (SnapshotStaging_total_len s) →
  (∀ x, offset ≤ x < offset + N.of_nat (length data) → x < SnapshotStaging_total_len s →
     covered (st_runs s) x ∧ st_buf s !! N.to_nat x = data !! N.to_nat (x - offset)) →
  SnapshotStaging_accept offset data s = (Some (SnapshotStaging_contiguous s), s).
Proof.
  intros Hwf Hu H. unfold SnapshotStaging_accept. fold (SnapshotStaging_total_len s).
  set (len := SnapshotStaging_total_len s) in *. set (n := N.of_nat (length data)) in *.
  set (start := N.min offset len). set (stop := N.min (saturating_add start n) len).
  assert (Hsat : stop = N.min (start + n) len) by (unfold stop; u64_lia).
  fold (write_buf start stop data (st_buf s)).
  assert (Hw : write_buf start stop data (st_buf s) = st_buf s).
  { apply list_eq. intros i. rewrite <- (Nat2N.id i).
    rewrite lookup_write_buf; [|unfold len, SnapshotStaging_total_len, n, start in *; lia..].
    case_decide as Hi; [|done]. destruct (H (N.of_nat i)) as [_ ->]; unfold start in *; [lia..|].
    f_equal. lia. }
  rewrite Hw. replace {| st_boundary := _; st_buf := _; st_runs := _ |} with s by (by destruct s).
  rewrite insert_run_noop; [done|done|]. intros x Hx. apply H; unfold start in *; lia.
Qed.

(** A sequence of chunks, stopping at the first refusal. *)
Fixpoint accept_all (chunks : list (u64 * bytes)) (s : SnapshotStaging) : option SnapshotStaging :=
  match chunks with
  | [] => Some s
  | (offset, data) :: chunks =>
      match SnapshotStaging_accept offset data s with
      | (Some _, s) => accept_all chunks s
      | (None, _) => None
      end
  end.

(** The chunk is a slice of [blob] at its offset. *)
Definition is_chunk (blob : bytes) (c : u64 * bytes) : Prop :=
  ∀ i, (i < length c.2)%nat → c.2 !! i = blob !! (N.to_nat c.1 + i)%nat.

Definition in_chunk (x : N) (c : u64 * bytes) : Prop := c.1 ≤ x < c.1 + N.of_nat (length c.2).

(** The staging holds [blob]'s bytes wherever it is covered. *)
Definition agrees (blob : bytes) (s : SnapshotStaging) : Prop :=
  length (st_buf s) = length blob
  ∧ ∀ x, covered (st_runs s) x → st_buf s !! N.to_nat x = blob !! N.to_nat x.

Lemma accept_all_spec blob chunks s s' :
  is_u64 (N.of_nat (length blob)) →
  SnapshotStaging_wf s → agrees blob s → Forall (is_chunk blob) chunks →
  accept_all chunks s = Some s' →
  SnapshotStaging_wf s' ∧ agrees blob s'
  ∧ ∀ x, x < N.of_nat (length blob) →
      covered (st_runs s') x ↔ covered (st_runs s) x ∨ Exists (in_chunk x) chunks.
Proof.
  intros Hu. revert s. induction chunks as [|[o d] chunks IH]; intros s Hwf [Hl Ha] Hch; simpl.
  { intros [= <-]. split_and!; try done. intros x _. rewrite Exists_nil. tauto. }
  apply Forall_cons in Hch as [Hd Hch].
  destruct (SnapshotStaging_accept o d s) as [[w|] s1] eqn:E; [|done].
  assert (El : SnapshotStaging_total_len s = N.of_nat (length blob))
    by (unfold SnapshotStaging_total_len; by rewrite Hl).
  apply accept_spec in E as (Hwf1 & _ & Hl1 & Hcov & Hbuf); [|done|by rewrite El].
  rewrite El in Hcov, Hbuf.
  intros Hrun. destruct (IH s1 Hwf1) as (Hwf' & Ha' & Hcov'); [|done..|].
  - split; [congruence|]. intros x [Hx|[Hx Hlt]]%Hcov.
    + assert (Hlt : x < N.of_nat (length blob))
        by (rewrite <- El; by destruct Hwf as (_ & _ & Hb); apply Hb).
      rewrite Hbuf by done. case_decide; [|by apply Ha].
      rewrite Hd by (simpl; lia). simpl. f_equal. lia.
    + rewrite Hbuf by done. rewrite decide_True by done.
      rewrite Hd by (simpl; lia). simpl. f_equal. lia.
  - split_and!; try done. intros x Hx. rewrite Hcov', Hcov, Exists_cons by done.
    unfold in_chunk at 2. simpl. tauto.
Qed.

Lemma SnapshotStaging_new_spec alloc boundary blob max s :
  SnapshotStaging_new alloc boundary (N.of_nat (length blob)) max = Some s →
  SnapshotStaging_wf s ∧ agrees blob s ∧ st_runs s = [] ∧ N.of_nat (length blob) ≤ max.
Proof.
  unfold SnapshotStaging_new. destruct (N.ltb_spec max (N.of_nat (length blob))); [done|].
  destruct (alloc _); [|done]. intros [= <-]. split_and!; try done; simpl.
  - split_and!; simpl; [done|lia|]. intros x. by rewrite covered_nil.
  - split; simpl; [by rewrite length_replicate, Nat2N.id|]. intros x. by rewrite covered_nil.
Qed.

Lemma agrees_prefix blob s c :
  agrees blob s → c ≤ SnapshotStaging_contiguous s → canonical (st_runs s) →
  take (N.to_nat c) (st_buf s) = take (N.to_nat c) blob.
Proof.
  intros [Hl Ha] Hc Hcan. apply list_eq. intros i.
  destruct (decide (i < N.to_nat c)%nat).
  - rewrite !lookup_take_lt by done. rewrite <- (Nat2N.id i). apply Ha.
    apply (contiguous_spec s c Hcan); [done|lia].
  - rewrite !lookup_ge_None_2; [done|rewrite length_take; lia..].
Qed.

(** ** Properties *)

(** C31: a staged transfer assembles the sender's blob.  Whatever slices of a
    blob are accepted, in whatever order, overlapping or repeated, the reported
    watermark is exactly the length of the prefix those slices cover, the
    staged bytes up to it are the blob's, the staging is complete exactly when
    the slices cover the whole blob, and then the buffer is the blob; the
    interval list never exceeds its cap. *)
Theorem staging_assembles alloc boundary max blob chunks s0 s :
  is_u64 (N.of_nat (length blob)) →
  SnapshotStaging_new alloc boundary (N.of_nat (length blob)) max = Some s0 →
  Forall (is_chunk blob) chunks →
  accept_all chunks s0 = Some s →
  let c := SnapshotStaging_contiguous s in
  (∀ k, k ≤ N.of_nat (length blob) →
     k ≤ c ↔ ∀ x, x < k → Exists (in_chunk x) chunks)
  ∧ take (N.to_nat c) (st_buf s) = take (N.to_nat c) blob
  ∧ (SnapshotStaging_is_complete s = true ↔
     ∀ x, x < N.of_nat (length blob) → Exists (in_chunk x) chunks)
  ∧ (SnapshotStaging_is_complete s = true → st_buf s = blob)
  ∧ (length (st_runs s) ≤ MAX_STAGING_RUNS)%nat.
Proof.
  intros Hu Hnew Hch Hrun c.
  destruct (SnapshotStaging_new_spec _ _ _ _ _ Hnew) as (Hwf0 & Ha0 & Hr0 & _).
  destruct (accept_all_spec blob chunks s0 s Hu Hwf0 Ha0 Hch Hrun) as (Hwf & Ha & Hcov).
  destruct Hwf as (Hcan & Hlen & Hb). pose proof Ha as [Hl _].
  assert (Hcov' : ∀ x, x < N.of_nat (length blob) →
    covered (st_runs s) x ↔ Exists (in_chunk x) chunks).
  { intros x Hx. rewrite Hcov, Hr0, covered_nil by done. tauto. }
  assert (Hk : ∀ k, k ≤ N.of_nat (length blob) →
    k ≤ c ↔ ∀ x, x < k → Exists (in_chunk x) chunks).
  { intros k Hk. unfold c. rewrite contiguous_spec by done.
    split; intros H x Hx; apply Hcov'; try apply H; lia. }
  assert (Hcl : c ≤ N.of_nat (length blob)).
  { destruct (decide (c = 0)); [lia|].
    assert (Hcov1 : covered (st_runs s) (c - 1)) by (apply (contiguous_spec s c Hcan); lia).
    apply Hb in Hcov1. unfold SnapshotStaging_total_len in Hcov1. lia. }
  split_and!; try done.
  - by apply agrees_prefix.
  - unfold SnapshotStaging_is_complete. rewrite N.eqb_eq, Hl, <- Hk by lia. fold c. lia.
  - unfold SnapshotStaging_is_complete. rewrite N.eqb_eq, Hl. fold c. intros Ec.
    pose proof (agrees_prefix blob s c Ha (N.le_refl _) Hcan) as Hp.
    rewrite Ec, Nat2N.id, !firstn_all2 in Hp by lia. done.
Qed.

(** Re-delivery is idempotent.  After any sequence of accepted slices of a
    blob, accepting one of them again is a no-op: it succeeds, reports the
    present watermark, and leaves the buffer and the intervals as they were. *)
Theorem staging_redelivery alloc boundary max blob chunks s0 s c :
  is_u64 (N.of_nat (length blob)) →
  SnapshotStaging_new alloc boundary (N.of_nat (length blob)) max = Some s0 →
  Forall (is_chunk blob) chunks →
  accept_all chunks s0 = Some s → c ∈ chunks →
  SnapshotStaging_accept c.1 c.2 s = (Some (SnapshotStaging_contiguous s), s).
Proof.
  intros Hu Hnew Hch Hrun Hin.
  destruct (SnapshotStaging_new_spec _ _ _ _ _ Hnew) as (Hwf0 & Ha0 & Hr0 & _).
  destruct (accept_all_spec blob chunks s0 s Hu Hwf0 Ha0 Hch Hrun) as (Hwf & [Hl Ha] & Hcov).
  assert (El : SnapshotStaging_total_len s = N.of_nat (length blob))
    by (unfold SnapshotStaging_total_len; by rewrite Hl).
  apply accept_noop; [done|by rewrite El|]. rewrite El. intros x Hx Hlt.
  assert (Hcx : covered (st_runs s) x).
  { apply Hcov; [done|]. right. apply Exists_exists. by exists c. }
  split; [done|]. rewrite Ha by done. rewrite Forall_forall in Hch.
  rewrite (Hch c Hin) by (unfold in_chunk in Hx; lia). f_equal. unfold in_chunk in Hx. lia.
Qed.

(** the sender's slices are slices: for any requested offset and length,
    [resident_snapshot_chunk] returns the blob's total length and bytes that
    are the blob's at that offset, so a receiver may stage them; and asking
    from the receiver's watermark with a positive length makes progress until
    the end of the blob. *)
Theorem resident_chunk_is_slice blob offset len :
  is_u64 (N.of_nat (length blob)) →
  let '(total, data) := resident_snapshot_chunk blob offset len in
  total = N.of_nat (length blob) ∧ is_chunk blob (offset, data)
  ∧ N.of_nat (length data) = N.min len (total - offset).
Proof.
  intros Hu. unfold resident_snapshot_chunk. set (total := N.of_nat (length blob)).
  split_and!; [done| |].
  - intros i Hi. simpl in *. rewrite length_take, length_drop in Hi.
    rewrite lookup_take_lt by lia. rewrite lookup_drop. f_equal. unfold total in *. lia.
  - rewrite length_take, length_drop. unfold total, saturating_add in *. u64_lia.
Qed.

(** ** Witnesses *)

Definition demo_blob : bytes := [x01; x02; x03; x04; x05].
Definition demo_chunks : list (u64 * bytes) :=
  [(3, [x04; x05]); (0, [x01; x02]); (1, [x02; x03; x04])].

Lemma demo_chunks_ok : Forall (is_chunk demo_blob) demo_chunks.
Proof.
  repeat constructor; intros i Hi; simpl in Hi;
    (destruct i as [|[|[|i]]]; [reflexivity| | |lia]); first [reflexivity|lia].
Qed.

Definition demo_staging (n : nat) : SnapshotStaging :=
  match SnapshotStaging_new (λ _, true) 9 5 100 with
  | Some s => default s (accept_all (take n demo_chunks) s)
  | None => {| st_boundary := 0; st_buf := []; st_runs := [] |}
  end.

Lemma staging_assembles_witness :
  let s := demo_staging 3 in
  let c := SnapshotStaging_contiguous s in
  (∀ k, k ≤ N.of_nat (length demo_blob) →
     k ≤ c ↔ ∀ x, x < k → Exists (in_chunk x) demo_chunks)
  ∧ take (N.to_nat c) (st_buf s) = take (N.to_nat c) demo_blob
  ∧ (SnapshotStaging_is_complete s = true ↔
     ∀ x, x < N.of_nat (length demo_blob) → Exists (in_chunk x) demo_chunks)
  ∧ (SnapshotStaging_is_complete s = true → st_buf s = demo_blob)
  ∧ (length (st_runs s) ≤ MAX_STAGING_RUNS)%nat.
Proof.
  apply (staging_assembles (λ _, true) 9 100 demo_blob demo_chunks (demo_staging 0) (demo_staging 3)).
  - vm_compute. discriminate.
  - vm_compute. reflexivity.
  - exact demo_chunks_ok.
  - vm_compute. reflexivity.
Defined.

Lemma staging_redelivery_witness :
  SnapshotStaging_accept 0 [x01; x02] (demo_staging 3)
  = (Some (SnapshotStaging_contiguous (demo_staging 3)), demo_staging 3).
Proof.
  apply (staging_redelivery (λ _, true) 9 100 demo_blob demo_chunks (demo_staging 0)
           (demo_staging 3) (0, [x01; x02])).
  - vm_compute. discriminate.
  - vm_compute. reflexivity.
  - exact demo_chunks_ok.
  - vm_compute. reflexivity.
  - apply (proj1 (bool_decide_eq_true _)). vm_compute. reflexivity.
Defined.

Lemma resident_chunk_is_slice_witness :
  let '(total, data) := resident_snapshot_chunk demo_blob 3 100 in
  total = N.of_nat (length demo_blob) ∧ is_chunk demo_blob (3, data)
  ∧ N.of_nat (length data) = N.min 100 (total - 3).
Proof. apply (resident_chunk_is_slice demo_blob 3 100). vm_compute. discriminate. Defined.
