(* ===== verification/Data.v ===== *)
(** * The element codec

    [sailing-proto/src/data.rs]: the [Data] trait as a class, the byte cursor
    its decoders read from, and its instances for the built-in types.  The
    trait's documented contract (decoding is total, a value round-trips, and
    distinct byte strings never decode to the same value) is the class
    [DataLaws]; every instance is proved to satisfy it.  [data_valid] is the
    range of the Rust type: a [u64] below 2^64, a collection whose length is a
    [u64]. *)

From S2P Require Import Prelude Bytes.

Inductive DecodeError :=
| UnexpectedEof
| Invalid (what : string).

(** ** [ByteCursor] *)

Record ByteCursor := { cur_buf : bytes; cur_pos : nat }.

Definition ByteCursor_new (buf : bytes) : ByteCursor := {| cur_buf := buf; cur_pos := 0 |}.

Definition ByteCursor_remaining (c : ByteCursor) : nat := (length (cur_buf c) - cur_pos c)%nat.

Definition ByteCursor_is_empty (c : ByteCursor) : bool := (ByteCursor_remaining c =? 0)%nat.

(** A position that overflows [usize] is past the end of any buffer, so the
    overflow check and the range check give the same error. *)
Definition ByteCursor_take_array (n : nat) (c : ByteCursor)
  : result (bytes * ByteCursor) DecodeError :=
  let stop := (cur_pos c + n)%nat in
  if (length (cur_buf c) <? stop)%nat then Err UnexpectedEof
  else Ok (take n (drop (cur_pos c) (cur_buf c)), {| cur_buf := cur_buf c; cur_pos := stop |}).

Definition ByteCursor_take_u8 (c : ByteCursor) : result (byte * ByteCursor) DecodeError :=
  match cur_buf c !! cur_pos c with
  | Some b => Ok (b, {| cur_buf := cur_buf c; cur_pos := S (cur_pos c) |})
  | None => Err UnexpectedEof
  end.

Definition ByteCursor_take_bytes (len : u64) (c : ByteCursor)
  : result (bytes * ByteCursor) DecodeError :=
  if N.of_nat (length (cur_buf c)) <? N.of_nat (cur_pos c) + len then Err UnexpectedEof
  else
    let len := N.to_nat len in
    Ok (take len (drop (cur_pos c) (cur_buf c)),
        {| cur_buf := cur_buf c; cur_pos := cur_pos c + len |}).

(** The bytes not yet consumed. *)
Definition cur_rest (c : ByteCursor) : bytes := drop (cur_pos c) (cur_buf c).

(** [c'] is [c] moved past [bs], within the buffer. *)
Definition consumed (c : ByteCursor) (bs : bytes) (c' : ByteCursor) : Prop :=
  cur_buf c' = cur_buf c ∧ cur_rest c = bs ++ cur_rest c'
  ∧ cur_pos c' = (cur_pos c + length bs)%nat ∧ (cur_pos c' ≤ length (cur_buf c))%nat.

(** ** The trait *)

Class Data (T : Type) := {
  data_encode : T → bytes;
  data_decode : ByteCursor → result (T * ByteCursor) DecodeError;
}.

Definition decode_exact {T} `{!Data T} (buf : bytes) : result T DecodeError :=
  let? '(value, cur) := data_decode (ByteCursor_new buf) in
  if negb (ByteCursor_is_empty cur) then Err (Invalid "trailing bytes after value")
  else Ok value.

(** The contract of an implementation. *)
Class DataLaws (T : Type) `{!Data T} := {
  data_valid : T → Prop;
  data_roundtrip : ∀ v c c', data_valid v → consumed c (data_encode v) c' →
    data_decode c = Ok (v, c');
  data_canonical : ∀ v c c', data_decode c = Ok (v, c') →
    data_valid v ∧ consumed c (data_encode v) c';
}.

(** Elements of a collection must take up space. *)
Class NonZeroWidth (T : Type) `{!Data T, !DataLaws T} :=
  nonzero_width : ∀ v, data_valid v → data_encode v ≠ [].

(** ** Cursor lemmas *)

Lemma cur_rest_app pre rest :
  cur_rest {| cur_buf := pre ++ rest; cur_pos := length pre |} = rest.
Proof. unfold cur_rest. simpl. apply drop_app_length. Qed.

Lemma consumed_intro c bs rest :
  (cur_pos c ≤ length (cur_buf c))%nat → cur_rest c = bs ++ rest →
  consumed c bs {| cur_buf := cur_buf c; cur_pos := (cur_pos c + length bs)%nat |}.
Proof.
  intros Hp E. split_and!; try done; unfold cur_rest in *; simpl.
  - rewrite <- drop_drop, E, drop_app_length. done.
  - apply (f_equal length) in E. rewrite length_app, length_drop in E. lia.
Qed.

Lemma consumed_unique c bs c1 c2 : consumed c bs c1 → consumed c bs c2 → c1 = c2.
Proof. destruct c1, c2. intros (? & _ & ? & _) (? & _ & ? & _). simpl in *. congruence. Qed.

Lemma consumed_trans c bs1 c1 bs2 c2 :
  consumed c bs1 c1 → consumed c1 bs2 c2 → consumed c (bs1 ++ bs2) c2.
Proof.
  intros (B1 & R1 & P1 & L1) (B2 & R2 & P2 & L2). split_and!; [congruence| | |congruence].
  - by rewrite R1, R2, app_assoc.
  - rewrite P2, P1, length_app. lia.
Qed.

Lemma consumed_split c bs1 bs2 c2 :
  consumed c (bs1 ++ bs2) c2 → ∃ c1, consumed c bs1 c1 ∧ consumed c1 bs2 c2.
Proof.
  intros (B & R & P & L). rewrite length_app in P. rewrite <- app_assoc in R.
  pose proof (consumed_intro c bs1 _ ltac:(lia) R) as H1.
  eexists. split; [exact H1|]. destruct H1 as (_ & R1 & _).
  rewrite R in R1. apply app_inv_head in R1. split_and!; simpl; [done|by rewrite <- R1|lia|done].
Qed.

Lemma consumed_remaining c bs c' :
  consumed c bs c' → ByteCursor_remaining c = (length bs + ByteCursor_remaining c')%nat.
Proof. intros (B & R & P & L). unfold ByteCursor_remaining. rewrite B. lia. Qed.

Lemma take_array_spec n c bs c' :
  ByteCursor_take_array n c = Ok (bs, c') ↔ length bs = n ∧ consumed c bs c'.
Proof.
  unfold ByteCursor_take_array.
  destruct (Nat.ltb_spec (length (cur_buf c)) (cur_pos c + n)) as [Hlt|Hle]; split; try done.
  - intros (<- & B & R & P & L). lia.
  - intros [= <- <-].
    assert (length (take n (drop (cur_pos c) (cur_buf c))) = n) as El
      by (rewrite length_take, length_drop; lia).
    split; [done|].
    pose proof (consumed_intro c (take n (drop (cur_pos c) (cur_buf c)))
      (drop n (drop (cur_pos c) (cur_buf c))) ltac:(lia)) as H. rewrite El in H. apply H.
    unfold cur_rest. by rewrite take_drop.
  - intros (<- & B & R & P & L). f_equal. f_equal.
    + unfold cur_rest in R. rewrite R. by rewrite take_app_length.
    + destruct c'. simpl in *. congruence.
Qed.

Lemma take_u8_spec c b c' : ByteCursor_take_u8 c = Ok (b, c') ↔ consumed c [b] c'.
Proof.
  unfold ByteCursor_take_u8. split.
  - destruct (cur_buf c !! cur_pos c) as [b'|] eqn:E; [|done]. intros [= -> <-].
    pose proof (lookup_lt_Some _ _ _ E) as Hlt.
    pose proof (consumed_intro c [b] (drop (S (cur_pos c)) (cur_buf c)) ltac:(lia)) as H.
    simpl in H. rewrite Nat.add_1_r in H. apply H. unfold cur_rest.
    by apply drop_S.
  - intros (B & R & P & L). unfold cur_rest in R. simpl in R, P.
    assert (cur_buf c !! cur_pos c = Some b) as ->.
    { rewrite <- (Nat.add_0_r (cur_pos c)), <- lookup_drop, R. done. }
    destruct c'. simpl in *. do 3 f_equal; [done|lia].
Qed.

Lemma take_bytes_spec len c bs c' :
  ByteCursor_take_bytes len c = Ok (bs, c') ↔ N.of_nat (length bs) = len ∧ consumed c bs c'.
Proof.
  rewrite <- (N2Nat.id len) at 2. rewrite Nat2N.inj_iff, <- take_array_spec.
  unfold ByteCursor_take_bytes, ByteCursor_take_array.
  destruct (N.ltb_spec (N.of_nat (length (cur_buf c))) (N.of_nat (cur_pos c) + len));
  destruct (Nat.ltb_spec (length (cur_buf c)) (cur_pos c + N.to_nat len)); try done; lia.
Qed.

(** ** Instances *)

#[global] Instance Data_u64 : Data u64 := {|
  data_encode := to_le_bytes 8;
  data_decode c := let? '(bs, c) := ByteCursor_take_array 8 c in Ok (from_le_bytes bs, c);
|}.

#[global] Program Instance DataLaws_u64 : DataLaws u64 := {| data_valid := is_u64 |}.
Next Obligation.
  intros v c c' Hv Hc. simpl. assert (ByteCursor_take_array 8 c = Ok (to_le_bytes 8 v, c')) as ->.
  { apply take_array_spec. by rewrite length_to_le_bytes. }
  simpl. by rewrite from_to_le_u64.
Qed.
Next Obligation.
  intros v c c' H. simpl in H. apply result_bind_Ok in H as ([bs c1] & E & H).
  injection H as <- <-. apply take_array_spec in E as [Hl Hc]. split.
  - apply is_u64_pow. rewrite <- Hl. apply from_le_bytes_bound.
  - simpl. by rewrite <- Hl, to_from_le_bytes.
Qed.

#[global] Instance NonZeroWidth_u64 : NonZeroWidth u64.
Proof. intros v _ E. apply (f_equal length) in E. change (length (to_le_bytes 8 v) = 0%nat) in E.
  by rewrite length_to_le_bytes in E.
Qed.

#[global] Instance Data_bool : Data bool := {|
  data_encode (b : bool) := [if b then x01 else x00];
  data_decode c :=
    let? '(b, c) := ByteCursor_take_u8 c in
    match b with
    | x00 => Ok (false, c)
    | x01 => Ok (true, c)
    | _ => Err (Invalid "bool")
    end;
|}.

#[global] Program Instance DataLaws_bool : DataLaws bool := {| data_valid _ := True |}.
Next Obligation. intros v c c' _ Hc. simpl. apply take_u8_spec in Hc as ->. by destruct v. Qed.
Next Obligation.
  intros v c c' H. simpl in H. apply result_bind_Ok in H as ([b c1] & E & H).
  apply take_u8_spec in E. split; [done|]. simpl. by destruct b; simplify_eq/=.
Qed.

#[global] Instance NonZeroWidth_bool : NonZeroWidth bool.
Proof. done. Qed.

#[global] Instance Data_unit : Data unit := {|
  data_encode _ := [x00];
  data_decode c :=
    let? '(b, c) := ByteCursor_take_u8 c in
    match b with
    | x00 => Ok (tt, c)
    | _ => Err (Invalid "unit")
    end;
|}.

#[global] Program Instance DataLaws_unit : DataLaws unit := {| data_valid _ := True |}.
Next Obligation. intros [] c c' _ Hc. simpl. by apply take_u8_spec in Hc as ->. Qed.
Next Obligation.
  intros v c c' H. simpl in H. apply result_bind_Ok in H as ([b c1] & E & H).
  apply take_u8_spec in E. split; [done|]. simpl. by destruct b; simplify_eq/=.
Qed.

#[global] Instance NonZeroWidth_unit : NonZeroWidth unit.
Proof. done. Qed.

(** [decode_len]: a [usize] is 64 bits, so the narrowing never fails. *)
Definition decode_len (c : ByteCursor) : result (u64 * ByteCursor) DecodeError := data_decode c.

Lemma decode_len_spec n c c' :
  decode_len c = Ok (n, c') ↔ is_u64 n ∧ consumed c (to_le_bytes 8 n) c'.
Proof.
  split; [exact (data_canonical (T := u64) n c c')|].
  intros [Hn Hc]. exact (data_roundtrip (T := u64) n c c' Hn Hc).
Qed.

(** A [Bytes] value; a type of its own, since [Vec<u8>] has another codec. *)
Record Blob := { blob_bytes : bytes }.

#[global] Instance Data_Blob : Data Blob := {|
  data_encode v := to_le_bytes 8 (N.of_nat (length (blob_bytes v))) ++ blob_bytes v;
  data_decode c :=
    let? '(len, c) := decode_len c in
    let? '(bs, c) := ByteCursor_take_bytes len c in
    Ok ({| blob_bytes := bs |}, c);
|}.

#[global] Program Instance DataLaws_Blob : DataLaws Blob :=
  {| data_valid v := is_u64 (N.of_nat (length (blob_bytes v))) |}.
Next Obligation.
  intros [bs] c c' Hv Hc. cbn [data_encode data_decode Data_Blob blob_bytes] in *.
  apply consumed_split in Hc as (c1 & H1 & H2).
  assert (decode_len c = Ok (N.of_nat (length bs), c1)) as -> by (by apply decode_len_spec).
  cbn [result_bind]. assert (ByteCursor_take_bytes (N.of_nat (length bs)) c1 = Ok (bs, c')) as ->; [|done].
  by apply take_bytes_spec.
Qed.
Next Obligation.
  intros v c c' H. cbn [data_encode data_decode Data_Blob blob_bytes] in *.
  apply result_bind_Ok in H as ([n c1] & E1 & H).
  apply result_bind_Ok in H as ([bs c2] & E2 & H). injection H as <- <-.
  apply decode_len_spec in E1 as [Hn H1]. apply take_bytes_spec in E2 as [<- H2].
  split; [done|]. by eapply consumed_trans.
Qed.

#[global] Instance NonZeroWidth_Blob : NonZeroWidth Blob.
Proof.
  intros v _ E. apply (f_equal length) in E. cbn [data_encode Data_Blob] in E.
  rewrite length_app, length_to_le_bytes in E. simpl in E. lia.
Qed.

(** *** Sequences of elements *)

Section items.
Context {T : Type} `{!Data T, !DataLaws T}.

Definition encode_items (l : list T) : bytes := mjoin (data_encode <$> l).

Lemma encode_items_app l1 l2 : encode_items (l1 ++ l2) = encode_items l1 ++ encode_items l2.
Proof. unfold encode_items. by rewrite fmap_app, join_app. Qed.

(** One iteration of a collection decoder: decode an element that must consume
    input, then [push] it onto the collection (which may reject it). *)
Definition item_step {C} (what : string) (push : T → C → result C DecodeError)
    (st : C * ByteCursor) : result (C * ByteCursor) DecodeError :=
  let '(coll, c) := st in
  let before := ByteCursor_remaining c in
  let? '(item, c) := data_decode c in
  if (ByteCursor_remaining c =? before)%nat then Err (Invalid what)
  else
    let? coll := push item coll in
    Ok (coll, c).
End items.

#[global] Instance Data_Vec {T} `{!Data T} : Data (list T) := {|
  data_encode l := to_le_bytes 8 (N.of_nat (length l)) ++ encode_items l;
  data_decode c :=
    let? '(len, c) := decode_len c in
    for_range (item_step "zero-width vec element" (λ item items, Ok (items ++ [item]))) len ([], c);
|}.

Section vec.
Context {T : Type} `{!Data T, !DataLaws T, !NonZeroWidth T}.

(** What a run of the collection loop reads: a sequence of valid elements,
    pushed one by one. *)
Lemma item_step_spec {C} what push (coll coll' : C) (c c' : ByteCursor) :
  item_step what push (coll, c) = Ok (coll', c') ↔
  ∃ v : T, data_valid v ∧ consumed c (data_encode v) c' ∧ push v coll = Ok coll'.
Proof.
  unfold item_step. split.
  - intros H. apply result_bind_Ok in H as ([v c1] & E & H). apply data_canonical in E as [Hv Hc].
    destruct (Nat.eqb_spec (ByteCursor_remaining c1) (ByteCursor_remaining c)); [done|].
    apply result_bind_Ok in H as (coll1 & Hp & H). injection H as <- <-. by exists v.
  - intros (v & Hv & Hc & Hp). rewrite (data_roundtrip v c c' Hv Hc). cbn [result_bind].
    pose proof (consumed_remaining _ _ _ Hc) as Hr. pose proof (nonzero_width v Hv) as Hne.
    destruct (Nat.eqb_spec (ByteCursor_remaining c') (ByteCursor_remaining c)) as [E|_].
    + destruct (data_encode v); [done|]. simpl in Hr. lia.
    + by rewrite Hp.
Qed.

Lemma vec_loop_spec what n items items' c c' :
  (cur_pos c ≤ length (cur_buf c))%nat →
  for_nat (item_step what (λ (item : T) items, Ok (items ++ [item]))) n (items, c) = Ok (items', c') ↔
  ∃ l, length l = n ∧ items' = items ++ l ∧ Forall data_valid l ∧ consumed c (encode_items l) c'.
Proof.
  revert items c. induction n as [|n IH]; intros items c Hpos; cbn [for_nat].
  - split.
    + intros [= <- <-]. exists []. rewrite app_nil_r.
      split_and!; try done; simpl; lia.
    + intros ([|] & ? & -> & _ & Hc); [|done]. rewrite app_nil_r.
      destruct c, c'. destruct Hc as (? & _ & ? & _). simpl in *. do 3 f_equal; [done|lia].
  - rewrite result_bind_Ok. split.
    + intros ([items1 c1] & E & H). apply item_step_spec in E as (v & Hv & Hc & [= <-]).
      pose proof Hc as (B1 & _ & _ & L1). apply IH in H as (l & <- & -> & Hl & Hc'); [|by rewrite B1].
      exists (v :: l). rewrite <- app_assoc.
      split_and!; [done|done|by constructor|by eapply consumed_trans].
    + intros (l & Hlen & -> & Hl & Hc). destruct l as [|v l]; [done|].
      apply Forall_cons in Hl as [Hv Hl]. injection Hlen as Hlen.
      change (encode_items (v :: l)) with (data_encode v ++ encode_items l) in Hc.
      apply consumed_split in Hc as (c1 & H1 & H2). pose proof H1 as (B1 & _ & _ & L1).
      exists (items ++ [v], c1). split; [apply item_step_spec; by exists v|].
      apply IH; [by rewrite B1|]. exists l. by rewrite <- app_assoc.
Qed.

#[global] Program Instance DataLaws_Vec : DataLaws (list T) :=
  {| data_valid l := is_u64 (N.of_nat (length l)) ∧ Forall data_valid l |}.
Next Obligation.
  intros l c c' [Hn Hl] Hc. cbn [data_encode data_decode Data_Vec] in *.
  apply consumed_split in Hc as (c1 & H1 & H2).
  assert (decode_len c = Ok (N.of_nat (length l), c1)) as -> by (by apply decode_len_spec).
  cbn [result_bind]. rewrite for_range_nat, Nat2N.id. destruct H1 as (B1 & _ & _ & L1).
  apply vec_loop_spec; [by rewrite B1|]. by exists l.
Qed.
Next Obligation.
  intros l c c' H. cbn [data_encode data_decode Data_Vec] in *.
  apply result_bind_Ok in H as ([n c1] & E & H). apply decode_len_spec in E as [Hn H1].
  rewrite for_range_nat in H. pose proof H1 as (B1 & _ & _ & L1).
  apply vec_loop_spec in H as (l' & Hlen & -> & Hl & H2); [|by rewrite B1].
  rewrite app_nil_l, Hlen, N2Nat.id. split; [done|]. by eapply consumed_trans.
Qed.
End vec.

(** *** [BTreeSet]: elements in strictly ascending order *)

Section set.
Context {T : Type} `{!NodeId T, !Data T}.

(** Reject an element at or below the largest one so far. *)
Definition set_push (elem : T) (s : gset T) : result (gset T) DecodeError :=
  if match last (btree_iter s) with
     | Some max => bool_decide (nid_le elem max)
     | None => false
     end
  then Err (Invalid "set elements must be strictly ascending")
  else Ok (s ∪ {[elem]}).

#[global] Instance Data_BTreeSet : Data (gset T) := {|
  data_encode s := to_le_bytes 8 (N.of_nat (size s)) ++ encode_items (btree_iter s);
  data_decode c :=
    let? '(len, c) := decode_len c in
    for_range (item_step "zero-width set element" set_push) len (∅, c);
|}.

Lemma set_push_spec elem (l : list T) s' :
  StronglySorted nid_lt l →
  set_push elem (list_to_set l) = Ok s' ↔
  StronglySorted nid_lt (l ++ [elem]) ∧ s' = list_to_set (l ++ [elem]).
Proof.
  intros Hs. unfold set_push. rewrite btree_iter_list_to_set by done.
  assert (Hsort : StronglySorted nid_lt (l ++ [elem]) ↔
    ∀ max, last l = Some max → ¬ nid_le elem max).
  { rewrite StronglySorted_app. split.
    - intros (H & _) max Hmax Hle. apply last_Some in Hmax as [l' ->].
      assert (nid_lt max elem) as Hlt by (apply H; set_solver).
      apply nid_le_lt_eq in Hle as [Hle|Hle]; [apply (nid_lt_irrefl elem); by etrans|].
      apply (nid_lt_irrefl elem). by rewrite Hle at 1.
    - intros H. split_and!; [|done|repeat constructor]. intros x y Hx Hy.
      apply list_elem_of_singleton in Hy. rewrite Hy. clear y Hy.
      destruct (last l) as [max|] eqn:El; [|apply last_None in El as ->; set_solver].
      specialize (H max eq_refl). apply last_Some in El as [l' ->].
      assert (nid_lt max elem) as Hlt.
      { destruct (nid_le_total elem max) as [|Hle]; [done|].
        apply nid_le_lt_eq in Hle as [|Hle]; [done|]. destruct H. by apply nid_le_lt_eq; right. }
      apply elem_of_app in Hx as [Hx| ->%list_elem_of_singleton]; [|done].
      etrans; [|exact Hlt]. eapply StronglySorted_app_1_elem_of; [exact Hs|done|set_solver]. }
  rewrite Hsort, list_to_set_app_L. simpl. rewrite union_empty_r_L.
  destruct (last l) as [max|]; [case_bool_decide|]; naive_solver.
Qed.

Context `{!DataLaws T, !NonZeroWidth T}.

Lemma set_loop_spec what n (l0 : list T) s' c c' :
  (cur_pos c ≤ length (cur_buf c))%nat → StronglySorted nid_lt l0 →
  for_nat (item_step what set_push) n (list_to_set l0, c) = Ok (s', c') ↔
  ∃ l, length l = n ∧ StronglySorted nid_lt (l0 ++ l) ∧ s' = list_to_set (l0 ++ l)
    ∧ Forall data_valid l ∧ consumed c (encode_items l) c'.
Proof.
  revert l0 s' c. induction n as [|n IH]; intros l0 s' c Hpos Hs; cbn [for_nat].
  - split.
    + intros [= <- <-]. exists []. rewrite app_nil_r. split_and!; try done; simpl; lia.
    + intros ([|] & ? & _ & -> & _ & Hc); [|done]. rewrite app_nil_r.
      destruct c, c'. destruct Hc as (? & _ & ? & _). simpl in *. do 3 f_equal; [done|lia].
  - rewrite result_bind_Ok. split.
    + intros ([s1 c1] & E & H). apply item_step_spec in E as (v & Hv & Hc & Hp).
      apply set_push_spec in Hp as [Hs1 ->]; [|done]. pose proof Hc as (B1 & _ & _ & L1).
      apply IH in H as (l & <- & Hs2 & -> & Hl & Hc'); [|by rewrite B1|done].
      rewrite <- app_assoc in *. exists (v :: l).
      split_and!; [done|done|done|by constructor|by eapply consumed_trans].
    + intros (l & Hlen & Hsl & -> & Hl & Hc). destruct l as [|v l]; [done|].
      apply Forall_cons in Hl as [Hv Hl]. injection Hlen as Hlen.
      change (encode_items (v :: l)) with (data_encode v ++ encode_items l) in Hc.
      apply consumed_split in Hc as (c1 & H1 & H2). pose proof H1 as (B1 & _ & _ & L1).
      rewrite (cons_middle v l0 l), app_assoc in Hsl |- *. pose proof (StronglySorted_app_1_l _ _ _ Hsl) as Hs1.
      exists (list_to_set (l0 ++ [v]), c1). split.
      * apply item_step_spec. exists v. split_and!; try done. by apply set_push_spec.
      * apply IH; [by rewrite B1|done|]. by exists l.
Qed.

#[global] Program Instance DataLaws_BTreeSet : DataLaws (gset T) :=
  {| data_valid s := is_u64 (N.of_nat (size s)) ∧ Forall data_valid (btree_iter s) |}.
Next Obligation.
  intros s c c' [Hn Hl] Hc. cbn [data_encode data_decode Data_BTreeSet] in *.
  apply consumed_split in Hc as (c1 & H1 & H2).
  assert (decode_len c = Ok (N.of_nat (size s), c1)) as -> by (by apply decode_len_spec).
  cbn [result_bind]. rewrite for_range_nat, Nat2N.id. destruct H1 as (B1 & _ & _ & L1).
  apply (set_loop_spec _ _ []); [by rewrite B1|constructor|]. exists (btree_iter s).
  split_and!; [apply length_btree_iter|apply btree_iter_sorted| |done|done].
  rewrite app_nil_l. apply set_eq. intros x. by rewrite elem_of_list_to_set, elem_of_btree_iter.
Qed.
Next Obligation.
  intros s c c' H. cbn [data_encode data_decode Data_BTreeSet] in *.
  apply result_bind_Ok in H as ([n c1] & E & H). apply decode_len_spec in E as [Hn H1].
  rewrite for_range_nat in H. pose proof H1 as (B1 & _ & _ & L1).
  apply (set_loop_spec _ _ []) in H as (l & Hlen & Hs & -> & Hl & H2); [|by rewrite B1|constructor].
  rewrite app_nil_l in *. rewrite btree_iter_list_to_set by done.
  assert (N.of_nat (size (list_to_set l : gset T)) = n) as ->.
  { rewrite size_list_to_set by (by apply sorted_lt_NoDup). lia. }
  split; [done|]. by eapply consumed_trans.
Qed.
End set.

(** ** Properties *)

Section exact.
Context {T : Type} `{!Data T, !DataLaws T}.

Lemma consumed_whole bs : consumed (ByteCursor_new bs) bs {| cur_buf := bs; cur_pos := length bs |}.
Proof. apply (consumed_intro (ByteCursor_new bs) bs []); simpl; [lia|]. by rewrite app_nil_r. Qed.

Lemma decode_exact_spec bs (v : T) :
  decode_exact bs = Ok v ↔ data_valid v ∧ bs = data_encode v.
Proof.
  unfold decode_exact. split.
  - intros H. apply result_bind_Ok in H as ([v' c] & E & H).
    apply data_canonical in E as [Hv (B & R & P & L)].
    unfold ByteCursor_is_empty, ByteCursor_remaining in H. rewrite B in H. simpl in B, R, P, L, H.
    destruct (Nat.eqb_spec (length bs - cur_pos c) 0); [|done]. injection H as ->.
    split; [done|]. unfold cur_rest in R. simpl in R. rewrite drop_0 in R. rewrite R.
    rewrite B, drop_ge, app_nil_r by lia. done.
  - intros [Hv ->]. rewrite (data_roundtrip v _ _ Hv (consumed_whole _)). cbn [result_bind].
    unfold ByteCursor_is_empty, ByteCursor_remaining. simpl. by rewrite Nat.sub_diag.
Qed.
End exact.

(** [decode_exact] accepts exactly the encodings of the values in [valid], each
    decoding to its value: decoding is total, every value round-trips, and no
    two byte strings decode to the same value. *)
Definition canonical_codec {T} `{!Data T} (valid : T → Prop) : Prop :=
  ∀ bs v, decode_exact bs = Ok v ↔ valid v ∧ bs = data_encode v.

(** Every built-in [Data] implementation meets the trait's contract.  The
    primitives and byte strings are canonical codecs of their whole type, and
    [Vec] and [BTreeSet] are canonical codecs whenever their elements have a
    lawful codec of non-zero width: in particular a set has a single accepted
    encoding, its elements in strictly ascending order. *)
Theorem data_codecs_canonical :
  canonical_codec (T := u64) is_u64
  ∧ canonical_codec (T := bool) (λ _, True)
  ∧ canonical_codec (T := unit) (λ _, True)
  ∧ canonical_codec (T := Blob) (λ v, is_u64 (N.of_nat (length (blob_bytes v))))
  ∧ (∀ (T : Type) (D : Data T) (L : DataLaws T) (W : NonZeroWidth T),
       canonical_codec (T := list T)
         (λ l, is_u64 (N.of_nat (length l)) ∧ Forall data_valid l))
  ∧ (∀ (T : Type) (O : NodeId T) (D : Data T) (L : DataLaws T) (W : NonZeroWidth T),
       canonical_codec (T := gset T)
         (λ s, is_u64 (N.of_nat (size s)) ∧ Forall data_valid (btree_iter s))).
Proof.
  split_and!.
  - exact (decode_exact_spec (T := u64)).
  - exact (decode_exact_spec (T := bool)).
  - exact (decode_exact_spec (T := unit)).
  - exact (decode_exact_spec (T := Blob)).
  - intros T D L W. exact (decode_exact_spec (T := list T)).
  - intros T O D L W. exact (decode_exact_spec (T := gset T)).
Qed.

(** The set decoder rejects a repeated and a descending element. *)
Example set_decode_rejects :
  decode_exact (T := gset u64) (to_le_bytes 8 2 ++ to_le_bytes 8 7 ++ to_le_bytes 8 7)
    = Err (Invalid "set elements must be strictly ascending")
  ∧ decode_exact (T := gset u64) (data_encode ({[7; 3]} : gset u64)) = Ok {[3; 7]}.
Proof. split; vm_compute; reflexivity. Qed.
