(* ===== verification/Frame.v ===== *)
(** * Transport framing

    [sailing-proto/src/transport/frame/mod.rs]: length-prefixed frames, the
    LEB128 incarnation stamp, the group-demux header, the coalesced control
    frame, and the incremental frame decoder. *)

From S2P Require Import Prelude Bytes.

Definition MAX_FRAME_LEN : N := 64 * 1024 * 1024.
Definition MAX_GROUP_ID_LEN : N := 1024.
Definition MAX_GENERATION_VARINT_LEN : nat := 10.
Definition COALESCED_MARKER : N := 0xFFFF.
Definition COALESCED_FRAME_BUDGET : N := 64 * 1024.
Definition COALESCED_FLAG_QUIESCE : N := 1.

Inductive TransportError :=
| FrameTooLarge | Decode | Record_ | NotValidated | DuplicateConnId | IdleTimeout
| SelfIdentity | UnexpectedPeer | InvalidLocalId.

(** The length of a byte string as a machine integer. *)
Definition blen (bs : bytes) : N := N.of_nat (length bs).

Definition encode_frame (payload out : bytes) : bytes :=
  out ++ to_be_bytes 4 (blen payload) ++ payload.

(** ** Varints *)

(** The loop [while v >= 0x80]; ten bytes hold any [u64]. *)
Fixpoint write_varint_loop (fuel : nat) (v : u64) : bytes :=
  match fuel with
  | O => []
  | S fuel =>
      if 0x80 <=? v then low_byte (N.lor (v mod 256) 0x80) :: write_varint_loop fuel (N.shiftr v 7)
      else [low_byte v]
  end.

Definition write_varint (v : u64) (out : bytes) : bytes :=
  out ++ write_varint_loop MAX_GENERATION_VARINT_LEN v.

(** The loop over [buf.iter().take(10).enumerate()]. *)
Fixpoint read_varint_loop (buf : bytes) (i : nat) (v : u64) : option (u64 * nat) :=
  match buf with
  | [] => None
  | b :: buf =>
      let payload := N.land (byte_val b) 0x7F in
      if (i =? MAX_GENERATION_VARINT_LEN - 1)%nat && (1 <? payload) then None
      else
        let v := N.lor v (N.shiftl payload (7 * N.of_nat i)) in
        if N.land (byte_val b) 0x80 =? 0 then Some (v, S i)
        else read_varint_loop buf (S i) v
  end.

Definition read_varint (buf : bytes) : option (u64 * nat) :=
  read_varint_loop (take MAX_GENERATION_VARINT_LEN buf) 0 0.

(** The loop of [varint_len]; [v] is shifted once before it. *)
Fixpoint varint_len_loop (fuel : nat) (n : nat) (v : u64) : nat :=
  match fuel with
  | O => n
  | S fuel => if v =? 0 then n else varint_len_loop fuel (S n) (N.shiftr v 7)
  end.

Definition varint_len (v : u64) : nat := varint_len_loop MAX_GENERATION_VARINT_LEN 1 (N.shiftr v 7).

(** ** Group header *)

Definition write_group_header (group : bytes) (generation : u64) (out : bytes) : bytes :=
  write_varint generation (out ++ to_be_bytes 2 (blen group) ++ group).

Definition split_group_header (frame : bytes) : result (bytes * u64 * bytes) TransportError :=
  if (length frame <? 2)%nat then Err Decode
  else
    let group_len := from_be_bytes (take 2 frame) in
    if (MAX_GROUP_ID_LEN <? group_len) || (blen frame <? 2 + group_len) then Err Decode
    else
      let at_ := (2 + N.to_nat group_len)%nat in
      match read_varint (drop at_ frame) with
      | None => Err Decode
      | Some (generation, n) =>
          Ok (take (N.to_nat group_len) (drop 2 frame), generation, drop (at_ + n) frame)
      end.

(** ** Coalesced frames *)

Definition is_coalesced_frame (frame : bytes) : bool :=
  (2 <=? length frame)%nat && bool_decide (take 2 frame = to_be_bytes 2 COALESCED_MARKER).

Definition write_coalesced_marker (out : bytes) : bytes := out ++ to_be_bytes 2 COALESCED_MARKER.

Definition write_coalesced_entry (flags : byte) (group : bytes) (generation : u64)
    (msg_bytes out : bytes) : bytes :=
  let out := out ++ [flags] in
  let out := out ++ to_be_bytes 2 (blen group) in
  let out := out ++ group in
  let out := write_varint generation out in
  let out := out ++ to_be_bytes 4 (blen msg_bytes) in
  out ++ msg_bytes.

Definition coalesced_entry_len (group_len : nat) (generation : u64) (msg_len : nat) : nat :=
  (1 + 2 + group_len + varint_len generation + 4 + msg_len)%nat.

(** One iteration of the loop of [split_coalesced], on the bytes from [at] on:
    the entry and the bytes after it. *)
Definition split_entry (rest : bytes) : result ((byte * bytes * u64 * bytes) * bytes) TransportError :=
  match rest with
  | flags :: g0 :: g1 :: rest =>
      let group_len := from_be_bytes [g0; g1] in
      if (group_len =? 0) || (MAX_GROUP_ID_LEN <? group_len) then Err Decode
      else if blen rest <? group_len then Err Decode
      else
        let group := take (N.to_nat group_len) rest in
        let rest := drop (N.to_nat group_len) rest in
        match read_varint rest with
        | None => Err Decode
        | Some (generation, n) =>
            let rest := drop n rest in
            if (length rest <? 4)%nat then Err Decode
            else
              let msg_len := from_be_bytes (take 4 rest) in
              let rest := drop 4 rest in
              if blen rest <? msg_len then Err Decode
              else
                Ok ((flags, group, generation, take (N.to_nat msg_len) rest),
                    drop (N.to_nat msg_len) rest)
        end
  | _ => Err Decode
  end.

(** The loop [while at < frame.len()]: an iteration consumes at least one byte,
    so as many iterations as there are bytes are enough. *)
Fixpoint split_entries (fuel : nat) (rest : bytes)
  : result (list (byte * bytes * u64 * bytes)) TransportError :=
  match rest, fuel with
  | [], _ => Ok []
  | _, O => Err Decode
  | _, S fuel =>
      let? '(entry, rest) := split_entry rest in
      let? entries := split_entries fuel rest in
      Ok (entry :: entries)
  end.

Definition split_coalesced (frame : bytes)
  : result (list (byte * bytes * u64 * bytes)) TransportError :=
  if negb (is_coalesced_frame frame) then Err Decode
  else if 2 + COALESCED_FRAME_BUDGET <? blen frame then Err Decode
  else split_entries (length frame) (drop 2 frame).

(** ** Incremental decoder *)

Record FrameDecoder := {
  fd_buf : bytes;
  fd_fill : nat;
  fd_expect : option N;
  fd_failed : bool;
}.

Definition FrameDecoder_new : FrameDecoder :=
  {| fd_buf := []; fd_fill := 0; fd_expect := None; fd_failed := false |}.

(** One iteration of the loop of [push]: the remaining input and whether the
    function returns. *)
Definition push_step (input : bytes) (d : FrameDecoder) : bytes * FrameDecoder * bool :=
  match fd_expect d with
  | None =>
      let need := (4 - fd_fill d)%nat in
      let n := Nat.min need (length input) in
      let buf := fd_buf d ++ take n input in
      let fill := (fd_fill d + n)%nat in
      let input := drop n input in
      if (fill <? 4)%nat then
        (input, {| fd_buf := buf; fd_fill := fill; fd_expect := None; fd_failed := fd_failed d |}, true)
      else
        let h := drop (length buf - 4) buf in
        let len := from_be_bytes h in
        if MAX_FRAME_LEN <? len then
          (input, {| fd_buf := []; fd_fill := 0; fd_expect := None; fd_failed := true |}, true)
        else if len =? 0 then
          (input, {| fd_buf := buf; fd_fill := 0; fd_expect := None; fd_failed := fd_failed d |}, false)
        else
          (input, {| fd_buf := buf; fd_fill := fill; fd_expect := Some (4 + len);
                     fd_failed := fd_failed d |}, false)
  | Some total =>
      let need := (N.to_nat total - fd_fill d)%nat in
      let n := Nat.min need (length input) in
      let buf := fd_buf d ++ take n input in
      let fill := (fd_fill d + n)%nat in
      let input := drop n input in
      if N.of_nat fill =? total then
        (input, {| fd_buf := buf; fd_fill := 0; fd_expect := None; fd_failed := fd_failed d |}, false)
      else
        (input, {| fd_buf := buf; fd_fill := fill; fd_expect := Some total;
                   fd_failed := fd_failed d |}, false)
  end.

(** The loop [while !input.is_empty()]; every iteration consumes input. *)
Fixpoint push_loop (fuel : nat) (input : bytes) (d : FrameDecoder) : FrameDecoder :=
  match input, fuel with
  | [], _ => d
  | _, O => d
  | _, S fuel =>
      let '(input, d, ret) := push_step input d in
      if ret : bool then d else push_loop fuel input d
  end.

Definition FrameDecoder_push (input : bytes) (d : FrameDecoder) : FrameDecoder :=
  if fd_failed d then d else push_loop (length input) input d.

Definition FrameDecoder_poll (d : FrameDecoder)
  : result (option bytes) TransportError * FrameDecoder :=
  if fd_failed d then (Err FrameTooLarge, d)
  else
    let complete := (length (fd_buf d) - fd_fill d)%nat in
    if (complete <? 4)%nat then (Ok None, d)
    else
      let len := from_be_bytes (take 4 (fd_buf d)) in
      let end_ := 4 + len in
      if N.of_nat complete <? end_ then (Ok None, d)
      else
        let frame := take (N.to_nat end_) (fd_buf d) in
        (Ok (Some (drop 4 frame)),
         {| fd_buf := drop (N.to_nat end_) (fd_buf d); fd_fill := fd_fill d;
            fd_expect := fd_expect d; fd_failed := fd_failed d |}).

(** * Properties *)

(** ** Varints *)

Lemma lor_shift_add a p k : a < 2 ^ k → N.lor a (N.shiftl p k) = a + p * 2 ^ k.
Proof.
  intros Ha. rewrite <- N.shiftl_mul_pow2.
  assert (N.land a (N.shiftl p k) = 0) as Hz.
  { apply N.bits_inj. intros n. rewrite N.land_spec, N.bits_0.
    destruct (N.ltb_spec n k) as [Hn|Hn].
    - by rewrite N.shiftl_spec_low, andb_false_r.
    - rewrite <- (N.mod_small a (2 ^ k)), N.mod_pow2_bits_high by done. done. }
  by rewrite <- N.lxor_lor, <- N.add_nocarry_lxor.
Qed.

Lemma byte_flags (b : byte) :
  N.land (N.lor (byte_val b) 0x80 mod 256) 0x7F = byte_val b mod 128
  ∧ N.land (N.lor (byte_val b) 0x80 mod 256) 0x80 = 0x80.
Proof. destruct b; by vm_compute. Qed.

Lemma byte_final (b : byte) :
  byte_val b < 128 → N.land (byte_val b) 0x7F = byte_val b ∧ N.land (byte_val b) 0x80 = 0.
Proof. destruct b; by vm_compute. Qed.

Lemma byte_low7 (b : byte) : N.land (byte_val b) 0x7F < 128.
Proof. destruct b; by vm_compute. Qed.

Lemma mod_256_128 v : (v mod 256) mod 128 = v mod 128.
Proof.
  change 256 with (128 * 2). rewrite N.Div0.mod_mul_r.
  by rewrite (N.mul_comm 128), N.Div0.mod_add, N.Div0.mod_mod.
Qed.

Lemma payload_continue v :
  N.land (byte_val (low_byte (N.lor (v mod 256) 0x80))) 0x7F = v mod 128
  ∧ N.land (byte_val (low_byte (N.lor (v mod 256) 0x80))) 0x80 = 0x80.
Proof.
  rewrite byte_val_low, <- (byte_val_low v), <- (mod_256_128 v), <- (byte_val_low v).
  apply byte_flags.
Qed.

Lemma payload_final v :
  v < 128 →
  N.land (byte_val (low_byte v)) 0x7F = v ∧ N.land (byte_val (low_byte v)) 0x80 = 0.
Proof.
  intros Hv. assert (byte_val (low_byte v) = v) as E.
  { rewrite byte_val_low. apply N.mod_small. lia. }
  rewrite <- E in Hv. destruct (byte_final _ Hv) as [-> ->]. done.
Qed.

Lemma pow_7S i : 2 ^ (7 * N.of_nat (S i)) = 128 * 2 ^ (7 * N.of_nat i).
Proof. rewrite Nat2N.inj_succ, N.mul_succ_r, N.pow_add_r. change (2 ^ 7) with 128. lia. Qed.

(** Reading back a varint, at any position of the loop with a partial value. *)
Lemma read_write_varint_loop fuel : ∀ i v acc rest,
  (fuel + i = MAX_GENERATION_VARINT_LEN)%nat →
  v < 2 ^ (64 - 7 * N.of_nat i) → acc < 2 ^ (7 * N.of_nat i) → (0 < fuel)%nat →
  read_varint_loop (take fuel (write_varint_loop fuel v ++ rest)) i acc
  = Some (acc + v * 2 ^ (7 * N.of_nat i), (i + length (write_varint_loop fuel v))%nat).
Proof.
  induction fuel as [|fuel IH]; intros i v acc rest Hf Hv Hacc Hp; [lia|].
  cbn [write_varint_loop]. unfold MAX_GENERATION_VARINT_LEN in Hf.
  destruct (N.leb_spec 0x80 v) as [Hge|Hlt]; cbn [app take read_varint_loop length].
  - destruct (payload_continue v) as [-> ->].
    assert (0 < fuel)%nat.
    { destruct fuel; [|lia]. replace (N.of_nat i) with 9 in Hv by lia.
      change (2 ^ (64 - 7 * 9)) with 2 in Hv. lia. }
    assert ((i =? MAX_GENERATION_VARINT_LEN - 1)%nat = false) as ->.
    { apply Nat.eqb_neq. unfold MAX_GENERATION_VARINT_LEN. lia. }
    cbn [andb]. change (0x80 =? 0) with false. cbn iota.
    rewrite lor_shift_add by done.
    pose proof (N.mod_lt v 128 ltac:(done)) as Hm. pose proof (N.div_mod v 128 ltac:(done)) as Hd.
    rewrite N.shiftr_div_pow2. change (2 ^ 7) with 128.
    rewrite IH; [| | | |done].
    + rewrite pow_7S. f_equal. f_equal; [|lia].
      revert Hd. generalize (v mod 128) (v / 128) (2 ^ (7 * N.of_nat i)). nia.
    + unfold MAX_GENERATION_VARINT_LEN. lia.
    + apply N.Div0.div_lt_upper_bound. change 128 with (2 ^ 7) at 1. rewrite <- N.pow_add_r.
      eapply N.lt_le_trans; [exact Hv|]. apply N.pow_le_mono_r; lia.
    + rewrite pow_7S. nia.
  - destruct (payload_final v Hlt) as [-> ->].
    assert ((i =? MAX_GENERATION_VARINT_LEN - 1)%nat && (1 <? v) = false) as ->.
    { apply andb_false_iff. destruct (decide (i = 9%nat)) as [->|]; [right|left].
      - change (2 ^ (64 - 7 * N.of_nat 9)) with 2 in Hv. apply N.ltb_ge. lia.
      - by apply Nat.eqb_neq. }
    change (0 =? 0) with true. cbn iota. rewrite lor_shift_add by done. do 2 f_equal. lia.
Qed.

Lemma read_write_varint v rest :
  is_u64 v →
  read_varint (write_varint v [] ++ rest) = Some (v, length (write_varint v [])).
Proof.
  intros Hv. unfold read_varint, write_varint. cbn [app].
  rewrite (read_write_varint_loop _ 0); [| done | | done | by vm_compute; lia].
  - do 2 f_equal. rewrite N.mul_0_r, N.pow_0_r. lia.
  - change (2 ^ (64 - 7 * N.of_nat 0)) with u64_mod. revert Hv. u64_lia.
Qed.

Lemma varint_len_loop_0 fuel n : varint_len_loop fuel n 0 = n.
Proof. by destruct fuel. Qed.

Lemma varint_len_write_loop f : ∀ f' n v,
  v < 2 ^ (7 * N.of_nat (S f)) → (f ≤ f')%nat →
  varint_len_loop f' (S n) (N.shiftr v 7) = (n + length (write_varint_loop (S f) v))%nat.
Proof.
  induction f as [|f IH]; intros f' n v Hv Hf; cbn [write_varint_loop];
    rewrite N.shiftr_div_pow2; change (2 ^ 7) with 128;
    destruct (N.leb_spec 0x80 v) as [Hge|Hlt].
  - change (2 ^ (7 * N.of_nat 1)) with 128 in Hv. lia.
  - rewrite N.div_small, varint_len_loop_0 by done. simpl. lia.
  - destruct f' as [|f']; [lia|]. cbn [varint_len_loop length].
    assert (0 < v / 128) by (apply N.div_str_pos; lia).
    destruct (N.eqb_spec (v / 128) 0); [lia|].
    rewrite pow_7S in Hv. rewrite (IH f' (S n)); [cbn [write_varint_loop]; lia | | lia].
    by apply N.Div0.div_lt_upper_bound.
  - rewrite N.div_small, varint_len_loop_0 by done. simpl. lia.
Qed.

Lemma length_write_varint v : is_u64 v → length (write_varint v []) = varint_len v.
Proof.
  intros Hv. unfold varint_len, write_varint, MAX_GENERATION_VARINT_LEN. cbn [app].
  rewrite (varint_len_write_loop 9 10 0 v); [done| |lia].
  eapply N.lt_trans; [exact (proj1 (is_u64_pow v) Hv)|]. by vm_compute.
Qed.

Lemma length_write_varint_loop fuel v : (length (write_varint_loop fuel v) ≤ fuel)%nat.
Proof.
  revert v. induction fuel as [|fuel IH]; intros v; cbn [write_varint_loop length]; [lia|].
  destruct (0x80 <=? v); cbn [length]; [specialize (IH (N.shiftr v 7))|]; lia.
Qed.

Lemma write_varint_app v out : write_varint v out = out ++ write_varint v [].
Proof. done. Qed.

Lemma read_varint_loop_bound buf : ∀ i acc v n,
  (i + length buf ≤ MAX_GENERATION_VARINT_LEN)%nat → acc < 2 ^ (7 * N.of_nat i) → is_u64 acc →
  read_varint_loop buf i acc = Some (v, n) → is_u64 v ∧ (i < n ≤ i + length buf)%nat.
Proof.
  induction buf as [|b buf IH]; intros i acc v n Hi Hacc Hu E; [done|].
  cbn [read_varint_loop length] in *. pose proof (byte_low7 b) as Hp.
  revert E Hp. generalize (N.land (byte_val b) 0x7F). intros p E Hp.
  destruct ((i =? MAX_GENERATION_VARINT_LEN - 1)%nat && (1 <? p)) eqn:Eo; [done|].
  rewrite lor_shift_add in E by done. unfold MAX_GENERATION_VARINT_LEN in *.
  assert (acc + p * 2 ^ (7 * N.of_nat i) < 2 ^ (7 * N.of_nat (S i))) by (rewrite pow_7S; nia).
  assert (is_u64 (acc + p * 2 ^ (7 * N.of_nat i))) as Hu'.
  { destruct (decide (i = 9%nat)) as [->|Hne].
    - apply andb_false_iff in Eo as [Eo|Eo]; [done|]. apply N.ltb_ge in Eo.
      change (2 ^ (7 * N.of_nat 9)) with (2 ^ 63) in *. revert Hacc Eo. u64_lia.
    - apply is_u64_pow. eapply N.lt_le_trans; [eassumption|].
      change (256 ^ N.of_nat 8) with (2 ^ 64). apply N.pow_le_mono_r; lia. }
  destruct (N.land (byte_val b) 0x80 =? 0); [injection E as <- <-; split; [done|lia]|].
  apply IH in E as [? ?]; [split; [done|lia] | lia | done | done].
Qed.

Lemma read_varint_bound buf v n :
  read_varint buf = Some (v, n) → is_u64 v ∧ (0 < n ≤ length buf)%nat ∧ (n ≤ MAX_GENERATION_VARINT_LEN)%nat.
Proof.
  intros E. apply read_varint_loop_bound in E as [? [? Hn]]; [| |done|done].
  - rewrite length_take in Hn. split_and!; [done | lia..].
  - rewrite length_take. lia.
Qed.

(** ** Group header *)

Lemma take2_group (group rest : bytes) :
  blen group <= MAX_GROUP_ID_LEN →
  from_be_bytes (take 2 (to_be_bytes 2 (blen group) ++ rest)) = blen group.
Proof.
  intros Hg. rewrite take_app_length' by (by rewrite length_to_be_bytes).
  rewrite from_to_be_bytes. apply N.mod_small.
  unfold MAX_GROUP_ID_LEN in Hg. change (256 ^ N.of_nat 2) with 65536. lia.
Qed.

Lemma drop_to_be w n (rest : bytes) : drop w (to_be_bytes w n ++ rest) = rest.
Proof. apply drop_app_length'. by rewrite length_to_be_bytes. Qed.

Lemma take_to_be w n (rest : bytes) : take w (to_be_bytes w n ++ rest) = to_be_bytes w n.
Proof. apply take_app_length'. by rewrite length_to_be_bytes. Qed.

Lemma blen_app a b : blen (a ++ b) = blen a + blen b.
Proof. unfold blen. rewrite length_app. lia. Qed.

Lemma blen_to_be w n : blen (to_be_bytes w n) = N.of_nat w.
Proof. unfold blen. by rewrite length_to_be_bytes. Qed.

Lemma to_nat_blen bs : N.to_nat (blen bs) = length bs.
Proof. unfold blen. lia. Qed.

Lemma split_group_header_marker frame :
  is_coalesced_frame frame = true → split_group_header frame = Err Decode.
Proof.
  unfold is_coalesced_frame, split_group_header. intros [Hl Hm]%andb_true_iff.
  apply bool_decide_eq_true in Hm. rewrite Hm. apply Nat.leb_le in Hl.
  destruct (Nat.ltb_spec (length frame) 2); [done|]. by vm_compute (from_be_bytes _).
Qed.

(** The group-demux header round trips: splitting a frame built from a
    group id of at most 1024 bytes, a [u64] incarnation stamp and any message
    gives the three back, the frame is never taken for a coalesced one, and its
    size is what the sizer computes. *)
Theorem group_header_roundtrip (group msg : bytes) (generation : u64) :
  blen group <= MAX_GROUP_ID_LEN → is_u64 generation →
  let frame := write_group_header group generation [] ++ msg in
  split_group_header frame = Ok (group, generation, msg)
  ∧ is_coalesced_frame frame = false
  ∧ length frame = (2 + length group + varint_len generation + length msg)%nat
  ∧ (varint_len generation ≤ MAX_GENERATION_VARINT_LEN)%nat.
Proof.
  intros Hg Hu. cbn zeta. rewrite <- length_write_varint by done.
  assert (write_group_header group generation [] ++ msg
          = to_be_bytes 2 (blen group) ++ group ++ write_varint generation [] ++ msg) as ->.
  { unfold write_group_header. rewrite write_varint_app. cbn [app]. by rewrite <- !(assoc_L (++)). }
  assert (split_group_header
            (to_be_bytes 2 (blen group) ++ group ++ write_varint generation [] ++ msg)
          = Ok (group, generation, msg)) as E.
  { unfold split_group_header. cbn zeta. rewrite take2_group by done.
    assert ((MAX_GROUP_ID_LEN <? blen group) = false) as -> by (by apply N.ltb_ge).
    rewrite blen_app, blen_to_be, blen_app. cbn [orb].
    destruct (Nat.ltb_spec (length (to_be_bytes 2 (blen group) ++ group ++ write_varint generation [] ++ msg)) 2);
      [rewrite length_app, length_to_be_bytes in *; lia|].
    destruct (N.ltb_spec (N.of_nat 2 + (blen group + blen (write_varint generation [] ++ msg)))
      (2 + blen group)); [lia|].
    rewrite to_nat_blen, <- drop_drop, drop_to_be, drop_app_length.
    rewrite read_write_varint by done.
    rewrite <- !drop_drop, drop_to_be, drop_app_length, drop_app_length, take_app_length. done. }
  split_and!; [done| | |].
  - apply not_true_iff_false. intros Hc%split_group_header_marker. congruence.
  - rewrite !length_app, length_to_be_bytes. lia.
  - apply length_write_varint_loop.
Qed.

Lemma group_header_roundtrip_witness :
  let frame := write_group_header [x07; x08] 300 [] ++ [x01] in
  split_group_header frame = Ok ([x07; x08], 300, [x01])
  ∧ is_coalesced_frame frame = false
  ∧ length frame = (2 + 2 + varint_len 300 + 1)%nat
  ∧ (varint_len 300 ≤ MAX_GENERATION_VARINT_LEN)%nat.
Proof. exact (group_header_roundtrip [x07; x08] [x01] 300 ltac:(by vm_compute) ltac:(u64_lia)). Defined.

(** ** Coalesced frames *)

Definition entry_ok (e : byte * bytes * u64 * bytes) : Prop :=
  let '(_, group, generation, msg) := e in
  0 < blen group <= MAX_GROUP_ID_LEN ∧ is_u64 generation ∧ blen msg < 256 ^ N.of_nat 4.

(** The payload a sender builds: the marker, then the entries in order. *)
Definition coalesced_frame (entries : list (byte * bytes * u64 * bytes)) : bytes :=
  foldl (λ out '(flags, group, generation, msg), write_coalesced_entry flags group generation msg out)
    (write_coalesced_marker []) entries.

Definition entries_len (entries : list (byte * bytes * u64 * bytes)) : nat :=
  sum_list_with (λ '(_, group, generation, msg),
    coalesced_entry_len (length group) generation (length msg)) entries.

Definition entry_bytes (e : byte * bytes * u64 * bytes) : bytes :=
  let '(flags, group, generation, msg) := e in write_coalesced_entry flags group generation msg [].

Lemma entry_bytes_eq flags group generation msg :
  entry_bytes (flags, group, generation, msg)
  = flags :: to_be_bytes 2 (blen group) ++ group ++ write_varint generation []
          ++ to_be_bytes 4 (blen msg) ++ msg.
Proof.
  unfold entry_bytes, write_coalesced_entry. rewrite write_varint_app. cbn [app].
  by rewrite <- !(assoc_L (++)).
Qed.

Lemma write_coalesced_entry_app flags group generation msg out :
  write_coalesced_entry flags group generation msg out
  = out ++ entry_bytes (flags, group, generation, msg).
Proof.
  rewrite entry_bytes_eq. unfold write_coalesced_entry. rewrite write_varint_app.
  by rewrite <- !(assoc_L (++)).
Qed.

Lemma coalesced_frame_eq entries :
  coalesced_frame entries = to_be_bytes 2 COALESCED_MARKER ++ concat (entry_bytes <$> entries).
Proof.
  unfold coalesced_frame, write_coalesced_marker. cbn [app].
  generalize (to_be_bytes 2 COALESCED_MARKER). induction entries as [|[[[f g] n] m] es IH]; intros out.
  - by rewrite app_nil_r.
  - cbn [foldl fmap list_fmap concat]. rewrite IH, write_coalesced_entry_app.
    by rewrite <- (assoc_L (++)).
Qed.

Lemma length_entry_bytes flags group generation msg :
  is_u64 generation →
  length (entry_bytes (flags, group, generation, msg))
  = coalesced_entry_len (length group) generation (length msg).
Proof.
  intros Hu. rewrite entry_bytes_eq. cbn [length].
  rewrite !length_app, !length_to_be_bytes, length_write_varint by done.
  unfold coalesced_entry_len. lia.
Qed.

Lemma be2_parts n :
  n < 65536 → ∃ g0 g1, to_be_bytes 2 n = [g0; g1] ∧ from_be_bytes [g0; g1] = n.
Proof.
  intros Hn. pose proof (length_to_be_bytes 2 n) as Hl.
  pose proof (from_to_be_bytes 2 n) as Hv. rewrite N.mod_small in Hv by done.
  destruct (to_be_bytes 2 n) as [|g0 [|g1 [|]]]; try done. by exists g0, g1.
Qed.

Lemma blen_lt_false a b : (blen (a ++ b) <? blen a) = false.
Proof. apply N.ltb_ge. rewrite blen_app. lia. Qed.

Lemma split_entry_bytes e rest : entry_ok e → split_entry (entry_bytes e ++ rest) = Ok (e, rest).
Proof.
  destruct e as [[[flags group] generation] msg]. intros (Hg & Hu & Hm).
  rewrite entry_bytes_eq. unfold MAX_GROUP_ID_LEN in Hg.
  destruct (be2_parts (blen group)) as (g0 & g1 & -> & Hv); [lia|].
  cbn [app split_entry]. rewrite <- !(assoc_L (++)). rewrite Hv. cbn zeta.
  assert ((blen group =? 0) || (MAX_GROUP_ID_LEN <? blen group) = false) as ->.
  { apply orb_false_iff. unfold MAX_GROUP_ID_LEN. split; [apply N.eqb_neq|apply N.ltb_ge]; lia. }
  rewrite blen_lt_false, to_nat_blen, take_app_length, drop_app_length.
  rewrite read_write_varint, drop_app_length by done.
  destruct (Nat.ltb_spec (length (to_be_bytes 4 (blen msg) ++ msg ++ rest)) 4);
    [rewrite length_app, length_to_be_bytes in *; lia|].
  rewrite drop_to_be, take_to_be, from_to_be_bytes, N.mod_small by done.
  by rewrite blen_lt_false, to_nat_blen, take_app_length, drop_app_length.
Qed.

(** What an accepted entry looks like, and how much of the input it takes. *)
Lemma split_entry_Ok rest e rest' :
  split_entry rest = Ok (e, rest') → (length rest' + 9 ≤ length rest)%nat ∧ entry_ok e.
Proof.
  unfold split_entry. destruct rest as [|flags [|g0 [|g1 rest]]]; try done.
  cbn zeta. destruct (_ || _) eqn:Eg; [done|]. apply orb_false_iff in Eg as [Eg0 Eg1].
  apply N.eqb_neq in Eg0. apply N.ltb_ge in Eg1. revert Eg0 Eg1.
  generalize (from_be_bytes [g0; g1]). intros gl Hg0 Hg1.
  destruct (N.ltb_spec (blen rest) gl) as [|Hl]; [done|]. unfold blen in Hl.
  destruct (read_varint _) as [[generation n]|] eqn:Ev; [|done].
  apply read_varint_bound in Ev as (Hu & [Hn Hn'] & _). rewrite length_drop in Hn'.
  destruct (Nat.ltb_spec (length (drop n (drop (N.to_nat gl) rest))) 4) as [|H4]; [done|].
  pose proof (from_be_bytes_bound (take 4 (drop n (drop (N.to_nat gl) rest)))) as Hm.
  rewrite length_take in Hm. rewrite Nat.min_l in Hm by done.
  revert Hm. generalize (from_be_bytes (take 4 (drop n (drop (N.to_nat gl) rest)))). intros ml Hm.
  destruct (N.ltb_spec (blen (drop 4 (drop n (drop (N.to_nat gl) rest)))) ml) as [|Hml]; [done|].
  intros [= <- <-]. unfold blen in Hml. rewrite !length_drop in *. cbn [length].
  split; [lia|]. unfold entry_ok, blen. rewrite !length_take, !length_drop.
  split_and!; try done; lia.
Qed.

(** The fuel of [split_entries] never runs out: every entry consumes input. *)
Lemma split_entries_fuel fuel rest :
  (length rest ≤ fuel)%nat → split_entries fuel rest = split_entries (length rest) rest.
Proof.
  remember (length rest) as m eqn:Em. assert (length rest ≤ m)%nat as Hm by lia. clear Em.
  revert rest fuel Hm. induction (lt_wf m) as [m _ IH]. intros rest fuel Hm Hf.
  destruct rest as [|b rest]; [by destruct fuel, m|]. simpl length in Hm.
  destruct fuel as [|fuel]; [lia|]. destruct m as [|m]; [lia|].
  cbn [split_entries]. destruct (split_entry (b :: rest)) as [[e rest']|] eqn:E; [|done].
  cbn [result_bind]. apply split_entry_Ok in E as [Hl _]. simpl length in Hl.
  f_equal. transitivity (split_entries (length rest') rest').
  - destruct (decide (length rest' < S m)%nat) as [Hlt|]; [|lia].
    apply (IH _ Hlt); lia.
  - symmetry. destruct (decide (length rest' < S m)%nat) as [Hlt|]; [|lia].
    apply (IH _ Hlt); lia.
Qed.

Lemma split_entries_concat fuel entries :
  Forall entry_ok entries → (length entries ≤ fuel)%nat →
  split_entries fuel (concat (entry_bytes <$> entries)) = Ok entries.
Proof.
  intros Hok. revert fuel. induction Hok as [|e es He Hes IH]; intros fuel Hf; [by destruct fuel|].
  destruct fuel as [|fuel]; [simpl in Hf; lia|]. cbn [fmap list_fmap concat].
  pose proof (split_entry_bytes e (concat (entry_bytes <$> es)) He) as E.
  destruct (entry_bytes e ++ concat (entry_bytes <$> es)) as [|b bs] eqn:Eb; [done|].
  cbn [split_entries]. rewrite E. cbn [result_bind]. rewrite IH by (simpl in Hf; lia). done.
Qed.

Lemma split_entries_bound fuel : ∀ rest entries,
  split_entries fuel rest = Ok entries →
  (9 * length entries ≤ length rest)%nat ∧ Forall entry_ok entries.
Proof.
  induction fuel as [|fuel IH]; intros [|b rest] entries; cbn [split_entries];
    try (intros [= <-]; split; [simpl; lia|constructor]); [done|].
  intros ([e rest'] & E & (es & Es & [= <-])%result_bind_Ok)%result_bind_Ok.
  apply split_entry_Ok in E as [Hl He]. apply IH in Es as [Hn Hes].
  split; [cbn [length] in *; lia|by constructor].
Qed.

Lemma length_concat_entries entries :
  Forall entry_ok entries → length (concat (entry_bytes <$> entries)) = entries_len entries.
Proof.
  induction 1 as [|[[[f g] n] m] es (_ & Hu & _) _ IH]; [done|].
  cbn [fmap list_fmap concat]. rewrite length_app, IH, length_entry_bytes by done. done.
Qed.

(** A coalesced control frame built from entries within the send budget is
    split back into exactly those entries in order, has the size the shared
    sizer computes, and is refused by the single-message parser, so the two
    payload forms never alias. *)
Theorem coalesced_roundtrip (entries : list (byte * bytes * u64 * bytes)) :
  Forall entry_ok entries →
  N.of_nat (entries_len entries) <= COALESCED_FRAME_BUDGET →
  split_coalesced (coalesced_frame entries) = Ok entries
  ∧ length (coalesced_frame entries) = (2 + entries_len entries)%nat
  ∧ split_group_header (coalesced_frame entries) = Err Decode.
Proof.
  intros Hok Hb. pose proof (length_concat_entries entries Hok) as Hl.
  rewrite coalesced_frame_eq.
  set (frame := _ ++ _).
  assert (length frame = (2 + entries_len entries)%nat) as Hlen.
  { unfold frame. by rewrite length_app, length_to_be_bytes, Hl. }
  assert (is_coalesced_frame frame = true) as Hc.
  { unfold is_coalesced_frame. apply andb_true_iff. split; [apply Nat.leb_le; lia|].
    apply bool_decide_eq_true. unfold frame. apply take_to_be. }
  split_and!; [|done|by apply split_group_header_marker].
  unfold split_coalesced. rewrite Hc. cbn [negb].
  destruct (N.ltb_spec (2 + COALESCED_FRAME_BUDGET) (blen frame)); [unfold blen in *; lia|].
  unfold frame at 2. rewrite drop_to_be. rewrite split_entries_fuel by lia.
  rewrite Hl. apply split_entries_concat; [done|].
  rewrite <- Hl. clear -Hok. induction Hok as [|[[[f g] n] m] es _ _ IH]; [simpl; lia|].
  cbn [fmap list_fmap concat length]. rewrite length_app, entry_bytes_eq. cbn [length]. lia.
Qed.

Lemma coalesced_roundtrip_witness :
  let entries := [(x00, [x41], 0, [x01; x02]); (x01, [x42; x43], 2 ^ 63, [])] in
  split_coalesced (coalesced_frame entries) = Ok entries
  ∧ length (coalesced_frame entries) = (2 + entries_len entries)%nat
  ∧ split_group_header (coalesced_frame entries) = Err Decode.
Proof.
  apply (coalesced_roundtrip [(x00, [x41], 0, [x01; x02]); (x01, [x42; x43], 2 ^ 63, [])]).
  - repeat constructor; by vm_compute.
  - by vm_compute.
Defined.

(** The receive bound bounds the allocation: whatever bytes a peer sends,
    an accepted coalesced frame has at most 7281 entries (a minimal entry is nine
    bytes of a 64 KiB budget), each with a group id of 1 to 1024 bytes and a
    64-bit stamp. *)
Theorem coalesced_entries_bounded (frame : bytes) (entries : list (byte * bytes * u64 * bytes)) :
  split_coalesced frame = Ok entries →
  9 * N.of_nat (length entries) <= COALESCED_FRAME_BUDGET
  ∧ Forall entry_ok entries.
Proof.
  unfold split_coalesced. destruct (is_coalesced_frame frame) eqn:Hc; [|done]. cbn [negb].
  destruct (N.ltb_spec (2 + COALESCED_FRAME_BUDGET) (blen frame)) as [|Hl]; [done|].
  intros [Hn Hok]%split_entries_bound. split; [|done].
  rewrite length_drop in Hn. unfold blen in Hl.
  apply andb_true_iff in Hc as [Hc%Nat.leb_le _]. lia.
Qed.

Lemma coalesced_entries_bounded_witness :
  9 * N.of_nat (length [(x01, [x42], 0, [] : bytes)]) <= COALESCED_FRAME_BUDGET
  ∧ Forall entry_ok [(x01, [x42], 0, [])].
Proof.
  apply (coalesced_entries_bounded
    [xff; xff; x01; x00; x01; x42; x00; x00; x00; x00; x00]).
  vm_compute. reflexivity.
Defined.

(** ** Incremental decoder *)

(** The reference decoder reads the stream a byte at a time: [Some (queue,
    partial)] holds the complete payloads not yet delivered and the bytes of the
    unfinished frame; [None] is the terminal failure. *)
Definition stream := option (list bytes * bytes).

Definition stream_absorb (s : stream) (b : byte) : stream :=
  match s with
  | None => None
  | Some (q, p) =>
      let p := p ++ [b] in
      if (length p <? 4)%nat then Some (q, p)
      else
        let len := from_be_bytes (take 4 p) in
        if MAX_FRAME_LEN <? len then None
        else if blen p =? 4 + len then Some (q ++ [drop 4 p], []) else Some (q, p)
  end.

Definition stream_poll (s : stream) : result (option bytes) TransportError * stream :=
  match s with
  | None => (Err FrameTooLarge, None)
  | Some ([], p) => (Ok None, Some ([], p))
  | Some (f :: q, p) => (Ok (Some f), Some (q, p))
  end.

(** What a connection does with its decoder: feed received bytes, ask for a
    frame, in any order. *)
Inductive decoder_op :=
| DPush (input : bytes)
| DPoll.

Fixpoint decoder_run (ops : list decoder_op) (d : FrameDecoder)
  : list (result (option bytes) TransportError) * FrameDecoder :=
  match ops with
  | [] => ([], d)
  | DPush input :: ops => decoder_run ops (FrameDecoder_push input d)
  | DPoll :: ops =>
      let '(out, d) := FrameDecoder_poll d in
      let '(outs, d) := decoder_run ops d in
      (out :: outs, d)
  end.

Fixpoint stream_run (ops : list decoder_op) (s : stream)
  : list (result (option bytes) TransportError) * stream :=
  match ops with
  | [] => ([], s)
  | DPush input :: ops => stream_run ops (foldl stream_absorb s input)
  | DPoll :: ops =>
      let '(out, s) := stream_poll s in
      let '(outs, s) := stream_run ops s in
      (out :: outs, s)
  end.

(** The bytes of an unfinished frame: an incomplete header, or a validated
    header and less than the declared payload. *)
Definition partial_ok (p : bytes) : Prop :=
  (length p < 4)%nat
  ∨ (4 ≤ length p)%nat ∧ from_be_bytes (take 4 p) <= MAX_FRAME_LEN
    ∧ blen p < 4 + from_be_bytes (take 4 p).

Definition decoder_rel (d : FrameDecoder) (s : stream) : Prop :=
  match s with
  | None => fd_failed d = true ∧ fd_buf d = [] ∧ fd_fill d = 0%nat
  | Some (q, p) =>
      fd_failed d = false
      ∧ fd_buf d = concat ((λ f, encode_frame f []) <$> q) ++ p
      ∧ Forall (λ f, blen f <= MAX_FRAME_LEN) q
      ∧ fd_fill d = length p
      ∧ partial_ok p
      ∧ fd_expect d = (if (length p <? 4)%nat then None else Some (4 + from_be_bytes (take 4 p)))
  end.

Lemma take4_app (p bs : bytes) : (4 ≤ length p)%nat → take 4 (p ++ bs) = take 4 p.
Proof. intros. by rewrite take_app_le. Qed.

Lemma partial_ok_prefix p bs : partial_ok (p ++ bs) → partial_ok p.
Proof.
  unfold partial_ok. rewrite length_app, blen_app. intros H.
  destruct (decide (length p < 4)%nat); [by left|right].
  rewrite take4_app in H by lia. destruct H as [|(?&?&?)]; split_and!; try done; lia.
Qed.

Lemma absorb_one q p b : partial_ok (p ++ [b]) → stream_absorb (Some (q, p)) b = Some (q, p ++ [b]).
Proof.
  intros H. unfold stream_absorb. destruct (Nat.ltb_spec (length (p ++ [b])) 4); [done|].
  destruct H as [|(_ & Hl & Hb)]; [lia|]. cbn zeta.
  destruct (N.ltb_spec MAX_FRAME_LEN (from_be_bytes (take 4 (p ++ [b])))); [lia|].
  destruct (N.eqb_spec (blen (p ++ [b])) (4 + from_be_bytes (take 4 (p ++ [b])))); [lia|done].
Qed.

Lemma absorb_partial q p bs :
  partial_ok (p ++ bs) → foldl stream_absorb (Some (q, p)) bs = Some (q, p ++ bs).
Proof.
  induction bs as [|b bs IH] using rev_ind; intros H; [by rewrite app_nil_r|].
  rewrite (assoc_L (++)) in H |- *. rewrite foldl_app.
  rewrite IH by (by eapply partial_ok_prefix). cbn [foldl]. by apply absorb_one.
Qed.

(** The last byte of a frame delivers its payload. *)
Lemma absorb_complete q p bs :
  bs ≠ [] → (4 ≤ length (p ++ bs))%nat →
  from_be_bytes (take 4 (p ++ bs)) <= MAX_FRAME_LEN →
  blen (p ++ bs) = 4 + from_be_bytes (take 4 (p ++ bs)) →
  foldl stream_absorb (Some (q, p)) bs = Some (q ++ [drop 4 (p ++ bs)], []).
Proof.
  destruct bs as [|b bs _] using rev_ind; [done|]. intros _ Hl Hm He.
  rewrite (assoc_L (++)) in Hl, Hm, He |- *. rewrite foldl_app, absorb_partial.
  - cbn [foldl stream_absorb]. cbn zeta. destruct (Nat.ltb_spec (length ((p ++ bs) ++ [b])) 4); [lia|].
    destruct (N.ltb_spec MAX_FRAME_LEN (from_be_bytes (take 4 ((p ++ bs) ++ [b])))); [lia|].
    by rewrite He, N.eqb_refl.
  - destruct (decide (length (p ++ bs) < 4)%nat); [by left|right].
    rewrite take4_app in Hm, He by lia. rewrite (blen_app _ [b]) in He.
    change (blen [b]) with 1 in He. split_and!; [lia|done|lia].
Qed.

Lemma absorb_oversize q p bs :
  bs ≠ [] → length (p ++ bs) = 4%nat →
  MAX_FRAME_LEN < from_be_bytes (p ++ bs) →
  foldl stream_absorb (Some (q, p)) bs = None.
Proof.
  destruct bs as [|b bs _] using rev_ind; [done|]. intros _ Hl Hm.
  rewrite (assoc_L (++)) in Hl, Hm. rewrite foldl_app, absorb_partial.
  - cbn [foldl stream_absorb]. cbn zeta. rewrite take_ge, Hl by lia. cbn [Nat.ltb Nat.leb].
    destruct (N.ltb_spec MAX_FRAME_LEN (from_be_bytes ((p ++ bs) ++ [b]))); [done|lia].
  - left. rewrite (length_app _ [b]) in Hl. simpl in Hl. lia.
Qed.

Lemma absorb_failed bs : foldl stream_absorb None bs = None.
Proof. by induction bs. Qed.

(** The frame a completed buffer tail stands for. *)
Lemma encode_frame_drop p :
  (4 ≤ length p)%nat → blen p = 4 + from_be_bytes (take 4 p) → encode_frame (drop 4 p) [] = p.
Proof.
  intros Hl He. unfold encode_frame. cbn [app].
  assert (blen (drop 4 p) = from_be_bytes (take 4 p)) as ->.
  { unfold blen in *. rewrite length_drop. lia. }
  pose proof (to_from_be_bytes (take 4 p)) as E. rewrite length_take_le in E by done.
  rewrite E. apply take_drop.
Qed.

Lemma fmap_app_frames (q : list bytes) f :
  concat ((λ f, encode_frame f []) <$> (q ++ [f]))
  = concat ((λ f, encode_frame f []) <$> q) ++ encode_frame f [].
Proof. rewrite fmap_app, concat_app. cbn. by rewrite app_nil_r. Qed.

(** A completed frame joins the queue. *)
Lemma decoder_rel_complete q p buf failed :
  failed = false → buf = concat ((λ f, encode_frame f []) <$> q) ++ p →
  Forall (λ f, blen f <= MAX_FRAME_LEN) q →
  (4 ≤ length p)%nat → from_be_bytes (take 4 p) <= MAX_FRAME_LEN →
  blen p = 4 + from_be_bytes (take 4 p) →
  decoder_rel {| fd_buf := buf; fd_fill := 0; fd_expect := None; fd_failed := failed |}
    (Some (q ++ [drop 4 p], [])).
Proof.
  intros -> -> Hq Hl Hm He. unfold decoder_rel. cbn [fd_failed fd_buf fd_fill fd_expect length].
  split_and!; [done | | | done | by left; simpl; lia | done].
  - rewrite fmap_app_frames, encode_frame_drop, app_nil_r by done. done.
  - apply Forall_app_2; [done|]. constructor; [|done].
    unfold blen in *. rewrite length_drop. lia.
Qed.

(** The outcome of one iteration, against the reference on the bytes it took. *)
Definition step_rel (input : bytes) (s : stream) (r : bytes * FrameDecoder * bool) : Prop :=
  let '(input', d', ret) := r in
  ∃ n, (0 < n ≤ length input)%nat ∧ input' = drop n input
       ∧ decoder_rel d' (foldl stream_absorb s (take n input))
       ∧ (if ret : bool then input' = [] ∨ fd_failed d' = true else fd_failed d' = false).

Lemma take_nonempty n (input : bytes) : (0 < n)%nat → input ≠ [] → take n input ≠ [].
Proof. by destruct n, input; [lia|lia| |]. Qed.

Lemma step_header input d q p :
  decoder_rel d (Some (q, p)) → input ≠ [] → (length p < 4)%nat →
  step_rel input (Some (q, p)) (push_step input d).
Proof.
  intros (Hf & Hb & Hq & Hl & Hp & He) Hi Hlt. unfold push_step.
  rewrite He. destruct (Nat.ltb_spec (length p) 4) as [_|]; [|lia].
  rewrite Hl, Hf, Hb. cbn zeta. set (n := Nat.min (4 - length p) (length input)).
  assert (0 < n ≤ length input)%nat as Hn by (destruct input; [done|simpl in *; unfold n; simpl; lia]).
  pose proof (length_take_le input n ltac:(lia)) as Htk.
  pose proof (take_nonempty n input ltac:(lia) Hi) as Hne.
  set (bs := take n input) in *. rewrite <- (assoc_L (++)).
  assert (length p + n = length (p ++ bs))%nat as -> by (rewrite length_app; lia).
  destruct (Nat.ltb_spec (length (p ++ bs)) 4) as [Hs|Hge].
  - exists n. split_and!; [lia|lia|done| |].
    + fold bs. rewrite absorb_partial by (by left). unfold decoder_rel.
      cbn [fd_failed fd_buf fd_fill fd_expect].
      destruct (Nat.ltb_spec (length (p ++ bs)) 4); [|lia]. split_and!; try done. by left.
    + left. apply drop_ge. unfold n in *. rewrite length_app in Hs. lia.
  - assert (length (p ++ bs) = 4%nat) as H4 by (rewrite length_app in *; unfold n in *; lia).
    rewrite (length_app (concat _)), H4.
    rewrite drop_app_length' by lia.
    assert (take 4 (p ++ bs) = p ++ bs) as Ht by (apply take_ge; lia).
    assert (blen (p ++ bs) = 4) as Hbl by (unfold blen; lia).
    destruct (N.ltb_spec MAX_FRAME_LEN (from_be_bytes (p ++ bs))) as [Hbig|Hok].
    { exists n. split_and!; [lia|lia|done| |by right]. fold bs. by rewrite absorb_oversize. }
    destruct (N.eqb_spec (from_be_bytes (p ++ bs)) 0) as [Hz|Hnz].
    + exists n. split_and!; [lia|lia|done| |done]. fold bs.
      rewrite absorb_complete by (rewrite ?Ht; first [done|lia]).
      apply decoder_rel_complete; rewrite ?Ht; first [done|lia].
    + assert (partial_ok (p ++ bs)) by (right; rewrite Ht; split_and!; [done|done|lia]).
      exists n. split_and!; [lia|lia|done| |done]. fold bs.
      rewrite absorb_partial by done. unfold decoder_rel.
      cbn [fd_failed fd_buf fd_fill fd_expect]. rewrite H4, Ht. by split_and!.
Qed.

Lemma step_payload input d q p :
  decoder_rel d (Some (q, p)) → input ≠ [] → (4 ≤ length p)%nat →
  step_rel input (Some (q, p)) (push_step input d).
Proof.
  intros (Hf & Hb & Hq & Hl & Hp & He) Hi Hge. unfold push_step.
  rewrite He. destruct (Nat.ltb_spec (length p) 4) as [|_]; [lia|].
  destruct Hp as [|(_ & Hm & Hlt)]; [lia|].
  rewrite Hl, Hf, Hb. cbn zeta. set (len := from_be_bytes (take 4 p)) in *.
  set (n := Nat.min _ (length input)). unfold blen in Hlt.
  assert (0 < n ≤ length input)%nat as Hn by (destruct input; [done|simpl in *; unfold n; simpl; lia]).
  pose proof (length_take_le input n ltac:(lia)) as Htk.
  pose proof (take_nonempty n input ltac:(lia) Hi) as Hne.
  set (bs := take n input) in *. rewrite <- (assoc_L (++)).
  assert (length p + n = length (p ++ bs))%nat as -> by (rewrite length_app; lia).
  assert (take 4 (p ++ bs) = take 4 p) as Ht by (by apply take4_app).
  assert (N.of_nat (length (p ++ bs)) <= 4 + len) by (rewrite length_app; unfold n in *; lia).
  destruct (N.eqb_spec (N.of_nat (length (p ++ bs))) (4 + len)) as [Ec|Nc];
    exists n; (split_and!; [lia|lia|done| |done]); fold bs.
  - rewrite absorb_complete by (rewrite ?Ht; first [done | rewrite length_app; lia]).
    apply decoder_rel_complete; rewrite ?Ht; first [done | rewrite length_app; lia].
  - assert (partial_ok (p ++ bs)).
    { right. rewrite Ht. unfold blen. rewrite length_app in *. split_and!; [lia|done|lia]. }
    rewrite absorb_partial by done. unfold decoder_rel.
    cbn [fd_failed fd_buf fd_fill fd_expect].
    destruct (Nat.ltb_spec (length (p ++ bs)) 4); [rewrite length_app in *; lia|].
    rewrite Ht. by split_and!.
Qed.

Lemma push_loop_rel fuel : ∀ input d s,
  (length input ≤ fuel)%nat → decoder_rel d s → fd_failed d = false →
  decoder_rel (push_loop fuel input d) (foldl stream_absorb s input).
Proof.
  induction fuel as [|fuel IH]; intros input d s Hl Hr Hf;
    (destruct input as [|b input]; [done|]); [simpl in Hl; lia|].
  destruct s as [[q p]|]; [|destruct Hr; congruence].
  assert (step_rel (b :: input) (Some (q, p)) (push_step (b :: input) d)) as Hs.
  { destruct (decide (length p < 4)%nat); [by apply step_header|apply step_payload; [done|done|lia]]. }
  cbn [push_loop]. destruct (push_step (b :: input) d) as [[input' d'] ret].
  destruct Hs as (n & Hn & -> & Hr' & Hret).
  rewrite <- (take_drop n (b :: input)) at 2. rewrite foldl_app.
  assert (fd_failed d' = true →
    decoder_rel d' (foldl stream_absorb (foldl stream_absorb (Some (q, p)) (take n (b :: input)))
      (drop n (b :: input)))) as Hfail.
  { destruct (foldl stream_absorb (Some (q, p)) (take n (b :: input))) as [[? ?]|];
      [destruct Hr'; congruence|by rewrite absorb_failed]. }
  destruct ret.
  - destruct Hret as [->|Hfd]; [done|by apply Hfail].
  - apply IH; [|done|done]. rewrite length_drop. simpl in *. lia.
Qed.

Lemma push_rel input d s :
  decoder_rel d s → decoder_rel (FrameDecoder_push input d) (foldl stream_absorb s input).
Proof.
  intros Hr. unfold FrameDecoder_push. destruct (fd_failed d) eqn:Hf.
  - destruct s as [[? ?]|]; [destruct Hr; congruence|by rewrite absorb_failed].
  - by apply push_loop_rel.
Qed.

Lemma length_encode_frame f : length (encode_frame f []) = (4 + length f)%nat.
Proof. unfold encode_frame. cbn [app]. by rewrite length_app, length_to_be_bytes. Qed.

Lemma frame_header f rest :
  blen f <= MAX_FRAME_LEN → from_be_bytes (take 4 (encode_frame f [] ++ rest)) = blen f.
Proof.
  intros Hf. unfold encode_frame. cbn [app]. rewrite <- (assoc_L (++)), take_to_be, from_to_be_bytes.
  apply N.mod_small. unfold MAX_FRAME_LEN in Hf. change (256 ^ N.of_nat 4) with 4294967296. lia.
Qed.

Lemma poll_rel d s :
  decoder_rel d s →
  (FrameDecoder_poll d).1 = (stream_poll s).1
  ∧ decoder_rel (FrameDecoder_poll d).2 (stream_poll s).2.
Proof.
  destruct s as [[q p]|]; [|intros [Hf Hb]; unfold FrameDecoder_poll; by rewrite Hf].
  intros (Hf & Hb & Hq & Hl & Hp & He). unfold FrameDecoder_poll. rewrite Hf, Hb, Hl. cbn zeta.
  rewrite length_app, Nat.add_sub. destruct q as [|f q].
  { cbn [fmap list_fmap concat length]. by split_and!. }
  inversion Hq as [|?? Hfl Hq']; subst. cbn [fmap list_fmap concat].
  rewrite <- (assoc_L (++)), frame_header, length_app, length_encode_frame by done.
  destruct (Nat.ltb_spec (4 + length f + length (concat ((λ f, encode_frame f []) <$> q))) 4); [lia|].
  destruct (N.ltb_spec (N.of_nat (4 + length f + length (concat ((λ f, encode_frame f []) <$> q))))
    (4 + blen f)); [unfold blen in *; lia|].
  assert (N.to_nat (4 + blen f) = length (encode_frame f [])) as ->
    by (rewrite length_encode_frame; unfold blen; lia).
  rewrite take_app_length, drop_app_length. cbn [stream_poll fst snd]. split.
  - unfold encode_frame. cbn [app]. by rewrite drop_to_be.
  - unfold decoder_rel. cbn [fd_failed fd_buf fd_fill fd_expect]. by split_and!.
Qed.

Lemma decoder_new_rel : decoder_rel FrameDecoder_new (Some ([], [])).
Proof. unfold decoder_rel. split_and!; try done. left. simpl. lia. Qed.

Lemma run_rel ops : ∀ d s,
  decoder_rel d s →
  (decoder_run ops d).1 = (stream_run ops s).1
  ∧ decoder_rel (decoder_run ops d).2 (stream_run ops s).2.
Proof.
  induction ops as [|[input|] ops IH]; intros d s Hr; cbn [decoder_run stream_run]; [done| |].
  - by apply IH, push_rel.
  - apply poll_rel in Hr as [Ho Hr]. destruct (FrameDecoder_poll d) as [o d'], (stream_poll s) as [o' s'].
    cbn [fst snd] in *. apply IH in Hr as [Hos Hr].
    destruct (decoder_run ops d') as [os d''], (stream_run ops s') as [os' s'']. cbn [fst snd] in *.
    split; [congruence|done].
Qed.

Definition pushed (ops : list decoder_op) : bytes :=
  concat ((λ op, match op with DPush input => input | DPoll => [] end) <$> ops).

Definition delivered (outs : list (result (option bytes) TransportError)) : list bytes :=
  omap (λ o, match o with Ok (Some f) => Some f | _ => None end) outs.

Lemma absorb_queue bs : ∀ q q' p,
  foldl stream_absorb (Some (q ++ q', p)) bs
  = (λ '(q'', p'), (q ++ q'', p')) <$> foldl stream_absorb (Some (q', p)) bs.
Proof.
  induction bs as [|b bs IH]; intros q q' p; [done|]. cbn [foldl].
  assert (stream_absorb (Some (q ++ q', p)) b
          = (λ '(q'', p'), (q ++ q'', p')) <$> stream_absorb (Some (q', p)) b) as ->.
  { unfold stream_absorb. cbn zeta. repeat case_match; try done. by rewrite <- (assoc_L (++)). }
  destruct (stream_absorb (Some (q', p)) b) as [[q'' p']|]; [apply IH|].
  cbn. by rewrite absorb_failed.
Qed.

Lemma absorb_queue_nil bs q p :
  foldl stream_absorb (Some (q, p)) bs
  = (λ '(q'', p'), (q ++ q'', p')) <$> foldl stream_absorb (Some ([], p)) bs.
Proof. rewrite <- absorb_queue. by rewrite app_nil_r. Qed.

Lemma absorb_frame q f :
  blen f <= MAX_FRAME_LEN →
  foldl stream_absorb (Some (q, [])) (encode_frame f []) = Some (q ++ [f], []).
Proof.
  intros Hf. pose proof (frame_header f [] Hf) as Hh. rewrite app_nil_r in Hh.
  assert (encode_frame f [] ≠ []).
  { intros E. apply (f_equal length) in E. rewrite length_encode_frame in E. done. }
  rewrite absorb_complete; [|done| | |]; rewrite ?app_nil_l, ?Hh; try done.
  - rewrite length_encode_frame. lia.
  - unfold blen. rewrite length_encode_frame. lia.
Qed.

Lemma absorb_frames q fs :
  Forall (λ f, blen f <= MAX_FRAME_LEN) fs →
  foldl stream_absorb (Some (q, [])) (concat ((λ f, encode_frame f []) <$> fs))
  = Some (q ++ fs, []).
Proof.
  intros Hfs. revert q. induction Hfs as [|f fs Hf _ IH]; intros q; [by rewrite app_nil_r|].
  cbn [fmap list_fmap concat]. rewrite foldl_app, absorb_frame, IH by done.
  by rewrite <- (assoc_L (++)).
Qed.

Lemma stream_run_failed ops :
  Forall (λ o, o = Err FrameTooLarge) (stream_run ops None).1 ∧ (stream_run ops None).2 = None.
Proof.
  induction ops as [|[input|] ops [IH1 IH2]]; cbn [stream_run]; [by split; [constructor|]| |].
  - by rewrite absorb_failed.
  - cbn [stream_poll]. destruct (stream_run ops None) as [os s]. cbn [fst snd] in *.
    split; [by constructor|done].
Qed.

Lemma stream_run_app ops1 ops2 s :
  stream_run (ops1 ++ ops2) s
  = ((stream_run ops1 s).1 ++ (stream_run ops2 (stream_run ops1 s).2).1,
     (stream_run ops2 (stream_run ops1 s).2).2).
Proof.
  revert s. induction ops1 as [|[input|] ops IH]; intros s; cbn [app stream_run].
  - cbn [fst snd]. by destruct (stream_run ops2 s).
  - apply IH.
  - destruct (stream_poll s) as [o s']. rewrite IH. by destruct (stream_run ops s').
Qed.

(** Polls take frames from the front of what the stream has delivered; pushes
    append: whatever the interleaving, nothing is lost, reordered or repeated. *)
Lemma stream_run_delivered ops : ∀ q p q' p',
  foldl stream_absorb (Some (q, p)) (pushed ops) = Some (q', p') →
  ∃ q'', (stream_run ops (Some (q, p))).2 = Some (q'', p')
         ∧ delivered (stream_run ops (Some (q, p))).1 ++ q'' = q'.
Proof.
  induction ops as [|[input|] ops IH]; intros q p q' p'; cbn [stream_run].
  - intros [= <- <-]. by exists q.
  - unfold pushed. cbn [fmap list_fmap concat]. rewrite foldl_app. fold (pushed ops). intros E.
    destruct (foldl stream_absorb (Some (q, p)) input) as [[q1 p1]|]; [by apply IH|].
    by rewrite absorb_failed in E.
  - change (pushed (DPoll :: ops)) with (pushed ops). intros E.
    destruct q as [|f q]; cbn [stream_poll].
    + apply IH in E as (q'' & E2 & <-). exists q''.
      destruct (stream_run ops (Some ([], p))) as [os s]. cbn [fst snd] in *. by split.
    + change (f :: q) with ([f] ++ q) in E. rewrite absorb_queue in E.
      apply fmap_Some in E as ([q1 p1] & E & [= -> ->]). apply IH in E as (q'' & E2 & <-). exists q''.
      destruct (stream_run ops (Some (q, p))) as [os s]. cbn [fst snd] in *. by split.
Qed.

Lemma stream_run_None ops : ∀ q p,
  foldl stream_absorb (Some (q, p)) (pushed ops) = None → (stream_run ops (Some (q, p))).2 = None.
Proof.
  induction ops as [|[input|] ops IH]; intros q p; cbn [stream_run]; [done| |].
  - unfold pushed. cbn [fmap list_fmap concat]. rewrite foldl_app. fold (pushed ops). intros E.
    destruct (foldl stream_absorb (Some (q, p)) input) as [[q1 p1]|]; [by apply IH|].
    apply stream_run_failed.
  - change (pushed (DPoll :: ops)) with (pushed ops). intros E.
    destruct q as [|f q]; cbn [stream_poll].
    + apply IH in E. by destruct (stream_run ops (Some ([], p))).
    + change (f :: q) with ([f] ++ q) in E. rewrite absorb_queue in E.
      apply fmap_None in E. apply IH in E. by destruct (stream_run ops (Some (q, p))).
Qed.

Lemma stream_run_polls k : ∀ q p,
  (length q ≤ k)%nat →
  delivered (stream_run (replicate k DPoll) (Some (q, p))).1 = q
  ∧ (stream_run (replicate k DPoll) (Some (q, p))).2 = Some ([], p).
Proof.
  induction k as [|k IH]; intros q p Hk; cbn [replicate stream_run].
  - by destruct q; [|simpl in Hk; lia].
  - destruct q as [|f q]; cbn [stream_poll];
      [destruct (IH [] p) as [E1 E2]|destruct (IH q p) as [E1 E2]]; try (simpl in *; lia);
      destruct (stream_run _ _) as [os s]; cbn [fst snd] in *; (split; [|done]).
    + done.
    + cbn. by f_equal.
Qed.

(** C32: the incremental decoder refines the byte-at-a-time reference: for any
    interleaving of pushes (in any chunking) and polls every poll answers what
    the reference answers; and what it holds of a frame that is not complete
    stays below one frame of the greatest length, because a payload is buffered
    only after its declared length has been checked. *)
Theorem decoder_refines_stream (ops : list decoder_op) :
  (decoder_run ops FrameDecoder_new).1 = (stream_run ops (Some ([], []))).1
  ∧ N.of_nat (fd_fill (decoder_run ops FrameDecoder_new).2) < 4 + MAX_FRAME_LEN.
Proof.
  destruct (run_rel ops _ _ decoder_new_rel) as [E Hr]. split; [done|].
  destruct (stream_run ops (Some ([], []))).2 as [[q p]|]; [|by destruct Hr as (_ & _ & ->)].
  destruct Hr as (_ & _ & _ & -> & Hp & _).
  unfold MAX_FRAME_LEN. destruct Hp as [|(_ & Hm & Hl)]; [lia|].
  unfold MAX_FRAME_LEN, blen in *. lia.
Qed.

(** Frames survive the wire: if the bytes pushed are the encodings of a list
    of payloads (each at most [MAX_FRAME_LEN]) and the beginning of another
    frame, then whatever the chunking and however polls are interleaved, polling
    delivers exactly those payloads, once each and in order, and then nothing. *)
Theorem frame_stream_roundtrip (ops : list decoder_op) (payloads : list bytes) (tail : bytes) :
  Forall (λ f, blen f <= MAX_FRAME_LEN) payloads → partial_ok tail →
  pushed ops = concat ((λ f, encode_frame f []) <$> payloads) ++ tail →
  let run := decoder_run (ops ++ replicate (length payloads) DPoll) FrameDecoder_new in
  delivered run.1 = payloads ∧ (FrameDecoder_poll run.2).1 = Ok None.
Proof.
  intros Hf Ht Hp. cbn zeta.
  destruct (run_rel (ops ++ replicate (length payloads) DPoll) _ _ decoder_new_rel) as [-> Hr].
  assert (foldl stream_absorb (Some ([], [])) (pushed ops) = Some (payloads, tail)) as E.
  { rewrite Hp, foldl_app, absorb_frames by done. by rewrite absorb_partial. }
  apply stream_run_delivered in E as (q & Eq & Ed).
  destruct (stream_run_polls (length payloads) q tail) as [E1 E2].
  { rewrite <- Ed, length_app. lia. }
  rewrite stream_run_app, Eq in Hr |- *. cbn [fst snd] in *. rewrite E2 in Hr. split.
  - unfold delivered in *. by rewrite omap_app, E1.
  - by destruct (poll_rel _ _ Hr) as [-> _].
Qed.

Lemma frame_stream_roundtrip_witness :
  let ops := [DPush [x00; x00]; DPoll; DPush [x00; x01; x2a; x00]; DPush [x00; x00; x00; x00]] in
  let run := decoder_run (ops ++ replicate 2 DPoll) FrameDecoder_new in
  delivered run.1 = [[x2a]; []] ∧ (FrameDecoder_poll run.2).1 = Ok None.
Proof.
  apply (frame_stream_roundtrip
    [DPush [x00; x00]; DPoll; DPush [x00; x01; x2a; x00]; DPush [x00; x00; x00; x00]]
    [[x2a]; []] [x00]).
  - repeat constructor; by vm_compute.
  - left. simpl. lia.
  - vm_compute. reflexivity.
Defined.

(** an oversized length prefix is terminal: once its four bytes have arrived
    the decoder holds no bytes, and it answers [FrameTooLarge] to every later
    poll, whatever else is pushed. *)
Theorem decoder_oversize_latched (ops more : list decoder_op) (payloads : list bytes)
    (len : N) (junk : bytes) :
  Forall (λ f, blen f <= MAX_FRAME_LEN) payloads →
  MAX_FRAME_LEN < len < 256 ^ N.of_nat 4 →
  pushed ops = concat ((λ f, encode_frame f []) <$> payloads) ++ to_be_bytes 4 len ++ junk →
  let d := (decoder_run ops FrameDecoder_new).2 in
  fd_buf d = [] ∧ Forall (λ o, o = Err FrameTooLarge) (decoder_run more d).1.
Proof.
  intros Hf Hlen Hp. cbn zeta. destruct (run_rel ops _ _ decoder_new_rel) as [_ Hr].
  assert (foldl stream_absorb (Some ([], [])) (pushed ops) = None) as E.
  { rewrite Hp, foldl_app, absorb_frames, foldl_app by done.
    rewrite absorb_oversize; [by apply absorb_failed| |by rewrite app_nil_l, length_to_be_bytes|].
    - intros E. pose proof (length_to_be_bytes 4 len) as Hl. by rewrite E in Hl.
    - rewrite app_nil_l, from_to_be_bytes, N.mod_small; lia. }
  apply stream_run_None in E. rewrite E in Hr. destruct (run_rel more _ _ Hr) as [-> _].
  split; [apply Hr|apply stream_run_failed].
Qed.

Lemma decoder_oversize_latched_witness :
  let d := (decoder_run [DPush [x00; x00; x00; x00; xff; xff]; DPush [xff; xff; x01]]
              FrameDecoder_new).2 in
  fd_buf d = [] ∧ Forall (λ o, o = Err FrameTooLarge) (decoder_run [DPush [x00]; DPoll] d).1.
Proof.
  apply (decoder_oversize_latched [DPush [x00; x00; x00; x00; xff; xff]; DPush [xff; xff; x01]]
    [DPush [x00]; DPoll] [[]] (2 ^ 32 - 1) [x01]).
  - repeat constructor; by vm_compute.
  - by vm_compute.
  - vm_compute. reflexivity.
Defined.
