(* ===== verification/Entry.v ===== *)
(** * Log entries, snapshot metadata and the durable hard state

    The data of [sailing-proto/src/entry.rs] (entries and the shape payloads),
    [sailing-proto/src/message/mod.rs] ([ForkId], [SnapshotMeta]) and
    [sailing-proto/src/hard_state.rs] ([LeaseSupport], [HardState]).  A payload
    is a list of bytes; [Box] and [Arc] are the identity. *)

From S2P Require Import Prelude Bytes Num Conf Config.

(** ** Entries *)

Inductive EntryKind :=
  | EkNormal | EkConfChange | EkEmpty | EkSetReadMode | EkSplit
  | EkPrepareMerge | EkCommitMerge | EkRollbackMerge | EkThawDischarged.

#[global] Instance EntryKind_eq_dec : EqDecision EntryKind.
Proof. solve_decision. Defined.

Record Entry := {
  e_term : Term;
  e_index : Index;
  e_kind : EntryKind;
  e_data : bytes;
  e_timestamp : u64;
  e_lease_window : u64;
  e_wall_timestamp : u64;
}.

#[global] Instance Entry_eq_dec : EqDecision Entry.
Proof. solve_decision. Defined.

Definition Entry_new (term : Term) (index : Index) (kind : EntryKind) (data : bytes) : Entry :=
  {| e_term := term; e_index := index; e_kind := kind; e_data := data;
     e_timestamp := 0; e_lease_window := 0; e_wall_timestamp := 0 |}.

Definition Entry_with_timestamp (timestamp : u64) (e : Entry) : Entry :=
  {| e_term := e_term e; e_index := e_index e; e_kind := e_kind e; e_data := e_data e;
     e_timestamp := timestamp; e_lease_window := e_lease_window e;
     e_wall_timestamp := e_wall_timestamp e |}.

Definition Entry_with_lease_window (lease_window : u64) (e : Entry) : Entry :=
  {| e_term := e_term e; e_index := e_index e; e_kind := e_kind e; e_data := e_data e;
     e_timestamp := e_timestamp e; e_lease_window := lease_window;
     e_wall_timestamp := e_wall_timestamp e |}.

Definition Entry_with_wall_timestamp (wall_timestamp : u64) (e : Entry) : Entry :=
  {| e_term := e_term e; e_index := e_index e; e_kind := e_kind e; e_data := e_data e;
     e_timestamp := e_timestamp e; e_lease_window := e_lease_window e;
     e_wall_timestamp := wall_timestamp |}.

(** ** Shape payloads *)

Record SplitPayload := {
  sp_child : bytes;
  sp_child_gen : u64;
  sp_parent_gen_after : u64;
  sp_instruction : bytes;
}.

Record PrepareMergePayload := { pm_target : bytes; pm_source_gen_after : u64 }.

Record CommitMergePayload := {
  cm_source : bytes;
  cm_freeze_index : Index;
  cm_freeze_term : Term;
  cm_source_gen_after : u64;
  cm_target_gen_after : u64;
}.

Record ThawDischargedPayload := { td_source : bytes; td_generation : u64 }.

Record RollbackMergePayload := {
  rm_source : bytes;
  rm_source_gen_after : u64;
  rm_target_gen_after : u64;
}.

Definition RollbackMergePayload_unfreeze (source_gen_after : u64) : RollbackMergePayload :=
  {| rm_source := []; rm_source_gen_after := source_gen_after; rm_target_gen_after := 0 |}.

Definition RollbackMergePayload_abort (source : bytes) (source_gen_after target_gen_after : u64)
  : RollbackMergePayload :=
  {| rm_source := source; rm_source_gen_after := source_gen_after;
     rm_target_gen_after := target_gen_after |}.

Definition RollbackMergePayload_is_unfreeze (p : RollbackMergePayload) : bool :=
  bool_decide (rm_source p = []).

(** ** Snapshot metadata *)

Record ForkId := {
  fk_parent : bytes;
  fk_parent_incarnation : u64;
  fk_split_index : Index;
  fk_split_term : Term;
  fk_child : bytes;
  fk_child_gen : u64;
}.

#[global] Instance ForkId_eq_dec : EqDecision ForkId.
Proof. solve_decision. Defined.

Section meta.
Context {I : Type} `{!NodeId I}.

Record SnapshotMeta := {
  sm_last_index : Index;
  sm_last_term : Term;
  sm_conf : ConfState I;
  sm_max_lease_window : u64;
  sm_max_wall_plus_window : u64;
  sm_max_unwalled_lease_window : u64;
  sm_read_only : option ReadOnlyOption;
  sm_shape_gen : u64;
  sm_fork_id : option ForkId;
}.

#[global] Instance SnapshotMeta_eq_dec : EqDecision SnapshotMeta.
Proof. solve_decision. Defined.

Definition SnapshotMeta_new (last_index : Index) (last_term : Term) (conf : ConfState I)
  : SnapshotMeta :=
  {| sm_last_index := last_index; sm_last_term := last_term; sm_conf := conf;
     sm_max_lease_window := 0; sm_max_wall_plus_window := 0; sm_max_unwalled_lease_window := 0;
     sm_read_only := None; sm_shape_gen := 0; sm_fork_id := None |}.

Definition SnapshotMeta_with_shape_gen (shape_gen : u64) (m : SnapshotMeta) : SnapshotMeta :=
  {| sm_last_index := sm_last_index m; sm_last_term := sm_last_term m; sm_conf := sm_conf m;
     sm_max_lease_window := sm_max_lease_window m;
     sm_max_wall_plus_window := sm_max_wall_plus_window m;
     sm_max_unwalled_lease_window := sm_max_unwalled_lease_window m;
     sm_read_only := sm_read_only m; sm_shape_gen := shape_gen; sm_fork_id := sm_fork_id m |}.

(** [identity_eq]: the boundary, the membership and the lineage token; the
    lease windows, the read mode and the shape generation are not identity. *)
Definition SnapshotMeta_identity_eq (m o : SnapshotMeta) : bool :=
  (sm_last_index m =? sm_last_index o)
  && (sm_last_term m =? sm_last_term o)
  && bool_decide (sm_conf m = sm_conf o)
  && bool_decide (sm_fork_id m = sm_fork_id o).

Lemma SnapshotMeta_identity_eq_refl m : SnapshotMeta_identity_eq m m = true.
Proof.
  unfold SnapshotMeta_identity_eq. rewrite !N.eqb_refl, !bool_decide_eq_true_2; done.
Qed.
End meta.

Arguments SnapshotMeta I {_}.

(** ** The durable hard state *)

Inductive LeaseSupport := Unrecorded | Recorded (d : option Duration).

#[global] Instance LeaseSupport_eq_dec : EqDecision LeaseSupport.
Proof. solve_decision. Defined.

Definition LeaseSupport_default : LeaseSupport := Recorded None.

(** The derived [Ord] of [Option<Duration>]: [None] is below every [Some]. *)
Definition option_max (a b : option N) : option N :=
  match a, b with
  | None, _ => b
  | _, None => a
  | Some x, Some y => Some (N.max x y)
  end.

Definition option_le (a b : option N) : Prop :=
  match a, b with
  | None, _ => True
  | Some _, None => False
  | Some x, Some y => x ≤ y
  end.

#[global] Instance option_le_dec a b : Decision (option_le a b).
Proof. destruct a, b; simpl; apply _. Defined.

#[global] Instance option_le_preorder : PreOrder option_le.
Proof.
  split; [intros [x|]; simpl; [done|done]|].
  intros [x|] [y|] [z|]; simpl; try done. lia.
Qed.

Lemma option_max_lub a b c : option_le (option_max a b) c ↔ option_le a c ∧ option_le b c.
Proof. destruct a, b, c; simpl; try lia; naive_solver. Qed.

Lemma option_le_max_l a b : option_le a (option_max a b).
Proof. destruct a, b; simpl; try done. lia. Qed.

Lemma option_le_max_r a b : option_le b (option_max a b).
Proof. destruct a, b; simpl; try done. lia. Qed.

#[export] Hint Resolve option_le_max_l option_le_max_r : sailing.

Definition LeaseSupport_promised (s : LeaseSupport) : option Duration :=
  match s with Recorded d => d | Unrecorded => None end.

Definition LeaseSupport_is_unrecorded (s : LeaseSupport) : bool :=
  match s with Unrecorded => true | Recorded _ => false end.

Definition LeaseSupport_raise (floor : option Duration) (s : LeaseSupport) : LeaseSupport :=
  Recorded (option_max (LeaseSupport_promised s) floor).

Section hard_state.
Context {I : Type} `{!NodeId I}.

Record HardState := {
  hs_term : Term;
  hs_vote : option I;
  hs_commit : Index;
  hs_lease_support : LeaseSupport;
  hs_lineage : option ForkId;
  hs_founding_gen : u64;
}.

#[global] Instance HardState_eq_dec : EqDecision HardState.
Proof. solve_decision. Defined.

Definition HardState_initial : HardState :=
  {| hs_term := 0; hs_vote := None; hs_commit := 0; hs_lease_support := Recorded None;
     hs_lineage := None; hs_founding_gen := 0 |}.

Definition HardState_with_term (term : Term) (h : HardState) : HardState :=
  {| hs_term := term; hs_vote := hs_vote h; hs_commit := hs_commit h;
     hs_lease_support := hs_lease_support h; hs_lineage := hs_lineage h;
     hs_founding_gen := hs_founding_gen h |}.

Definition HardState_with_vote (vote : option I) (h : HardState) : HardState :=
  {| hs_term := hs_term h; hs_vote := vote; hs_commit := hs_commit h;
     hs_lease_support := hs_lease_support h; hs_lineage := hs_lineage h;
     hs_founding_gen := hs_founding_gen h |}.

Definition HardState_with_commit (commit : Index) (h : HardState) : HardState :=
  {| hs_term := hs_term h; hs_vote := hs_vote h; hs_commit := commit;
     hs_lease_support := hs_lease_support h; hs_lineage := hs_lineage h;
     hs_founding_gen := hs_founding_gen h |}.

Definition HardState_with_lease_support (s : LeaseSupport) (h : HardState) : HardState :=
  {| hs_term := hs_term h; hs_vote := hs_vote h; hs_commit := hs_commit h;
     hs_lease_support := s; hs_lineage := hs_lineage h;
     hs_founding_gen := hs_founding_gen h |}.

Definition HardState_with_lineage (lineage : option ForkId) (h : HardState) : HardState :=
  {| hs_term := hs_term h; hs_vote := hs_vote h; hs_commit := hs_commit h;
     hs_lease_support := hs_lease_support h; hs_lineage := lineage;
     hs_founding_gen := hs_founding_gen h |}.

Definition HardState_with_founding_gen (founding_gen : u64) (h : HardState) : HardState :=
  {| hs_term := hs_term h; hs_vote := hs_vote h; hs_commit := hs_commit h;
     hs_lease_support := hs_lease_support h; hs_lineage := hs_lineage h;
     hs_founding_gen := founding_gen |}.
End hard_state.

Arguments HardState I : clear implicits.
