(* ===== verification/Storage.v ===== *)
(** * Storage interfaces

    The [LogStore] and [StableStore] traits of [sailing-proto/src/storage.rs]
    as classes of operations, and the normative clauses of their documentation
    as a second class of laws over an abstract view of the store.  Clients are
    proved against the laws; [EngineLog] and [EngineStable] discharge
    them for the in-memory group engine. *)

From S2P Require Import Prelude Bytes Num Entry.

(** ** Completions and reads *)

Inductive LogDone := Appended (id : OpId) | Compacted (up_to : Index).
Inductive StableDone := Wrote (id : OpId) | SnapshotWritten (id : OpId).
Inductive StorageProgress := StorageDrained | StorageMorePending.

Inductive EntriesRead := Ready (es : list Entry) | Pending_.
Inductive SnapshotChunkRead := ChunkReady (data : bytes) | ChunkPending.

#[global] Instance LogDone_eq_dec : EqDecision LogDone.
Proof. solve_decision. Defined.
#[global] Instance StableDone_eq_dec : EqDecision StableDone.
Proof. solve_decision. Defined.

(** ** The traits *)

Class LogStore (L : Type) := {
  log_error : Type;
  log_first_index : L → Index;
  log_last_index : L → Index;
  log_durable_index : L → option Index;
  log_term : L → Index → result Term log_error;
  log_entries : L → Index → Index → u64 → result EntriesRead log_error;
  log_submit_append : OpId → list Entry → L → L;
  log_compact : Index → L → L;
  log_restore : Index → Term → L → L;
  log_poll : L → option (result LogDone log_error) * L;
  log_has_pending : L → bool;
}.

Class StableStore (I : Type) `{!NodeId I} (S : Type) := {
  stable_error : Type;
  stable_hard_state : S → HardState I;
  stable_durable_hard_state : S → option (HardState I);
  stable_submit_write : OpId → HardState I → S → S;
  stable_submit_snapshot : OpId → SnapshotMeta I → bytes → S → S;
  stable_snapshot : S → option (SnapshotMeta I * bytes);
  stable_durable_snapshot : S → option (SnapshotMeta I);
  stable_snapshot_chunk :
    S → u64 → u64 → option (result (SnapshotMeta I * u64 * SnapshotChunkRead) stable_error);
  stable_accept_snapshot_chunk :
    SnapshotMeta I → u64 → u64 → bytes → S → result u64 stable_error * S;
  stable_take_staged_snapshot : SnapshotMeta I → S → option bytes * S;
  stable_discard_snapshot_staging : S → S;
  stable_poll : S → option (result StableDone stable_error) * S;
  stable_has_pending : S → bool;
}.

(** ** The abstract log

    What a log store shows its reader: the boundary entry it was compacted or
    re-baselined to, and the entries retained above it. *)

Record LogView := { lv_base : Index; lv_base_term : Term; lv_entries : list Entry }.

Definition lv_first (v : LogView) : Index := lv_base v + 1.
Definition lv_last (v : LogView) : Index := lv_base v + N.of_nat (length (lv_entries v)).

(** The entry retained at an index. *)
Definition lv_lookup (v : LogView) (i : Index) : option Entry :=
  if lv_base v <? i then lv_entries v !! N.to_nat (i - lv_base v - 1) else None.

(** The domain contract of [term]: the boundary term at the boundary, the
    entry's term inside the log, zero everywhere else. *)
Definition lv_term (v : LogView) (i : Index) : Term :=
  if i =? lv_base v then lv_base_term v
  else match lv_lookup v i with Some e => e_term e | None => 0 end.

(** The entries of [lo..hi]. *)
Definition lv_slice (v : LogView) (lo hi : Index) : list Entry :=
  take (N.to_nat (hi - lo)) (drop (N.to_nat (lo - lv_base v - 1)) (lv_entries v)).

Definition lv_truncate (v : LogView) (from : Index) : LogView :=
  {| lv_base := lv_base v; lv_base_term := lv_base_term v;
     lv_entries := take (N.to_nat (from - lv_base v - 1)) (lv_entries v) |}.

(** An append truncates the conflicting suffix first. *)
Definition lv_append (v : LogView) (es : list Entry) : LogView :=
  match es with
  | [] => v
  | e :: _ =>
      {| lv_base := lv_base v; lv_base_term := lv_base_term v;
         lv_entries := lv_entries (lv_truncate v (e_index e)) ++ es |}
  end.

Definition lv_compact (v : LogView) (n : Index) : LogView :=
  if n <=? lv_base v then v
  else
    let n := N.min n (lv_last v) in
    {| lv_base := n; lv_base_term := lv_term v n;
       lv_entries := drop (N.to_nat (n - lv_base v)) (lv_entries v) |}.

Definition lv_restore (n : Index) (t : Term) : LogView :=
  {| lv_base := n; lv_base_term := t; lv_entries := [] |}.

(** Consecutive indices from [i]. *)
Definition contiguous (i : Index) (es : list Entry) : Prop :=
  ∀ k e, es !! k = Some e → e_index e = i + N.of_nat k.

(** A well-formed log is contiguous above its boundary, and its indices leave
    the successor of the last one representable. *)
Record LogView_wf (v : LogView) : Prop := {
  lvw_contiguous : contiguous (lv_first v) (lv_entries v);
  lvw_room : lv_last v < u64_max;
}.

(** What a caller of [submit_append] owes: entries that continue the log at or
    before its end, above the boundary. *)
Definition appendable (v : LogView) (es : list Entry) : Prop :=
  match es with
  | [] => True
  | e :: _ =>
      lv_first v ≤ e_index e ≤ lv_last v + 1
      ∧ contiguous (e_index e) es
      ∧ e_index e + N.of_nat (length es) ≤ u64_max
  end.

(** ** The laws *)

Class LogStoreLaws (L : Type) `{!LogStore L} := {
  log_view : L → LogView;
  log_first_view : ∀ l, log_first_index l = lv_first (log_view l);
  log_last_view : ∀ l, log_last_index l = lv_last (log_view l);
  log_term_view : ∀ l i t, log_term l i = Ok t → t = lv_term (log_view l) i;
  (* a read answers with a prefix of the range, non-empty when the range is *)
  log_entries_view : ∀ l lo hi max es,
    lv_first (log_view l) ≤ lo → hi ≤ lv_last (log_view l) + 1 →
    log_entries l lo hi max = Ok (Ready es) →
    es `prefix_of` lv_slice (log_view l) lo hi ∧ (lo < hi → es ≠ []);
  (* the read view updates before the call returns *)
  log_append_view : ∀ l id es,
    appendable (log_view l) es →
    log_view (log_submit_append id es l) = lv_append (log_view l) es;
  log_compact_view : ∀ l n, log_view (log_compact n l) = lv_compact (log_view l) n;
  log_restore_view : ∀ l n t, log_view (log_restore n t l) = lv_restore n t;
  log_poll_view : ∀ l, log_view (log_poll l).2 = log_view l;
  log_pending_poll : ∀ l, log_has_pending l = true ↔ (log_poll l).1 ≠ None;
}.

(** The stable store's clauses: a submitted write never changes the durable
    hard state; the durable state moves only when the store makes it so. *)
Class StableStoreLaws (I : Type) `{!NodeId I} (S : Type) `{!StableStore I S} := {
  stable_durable : S → HardState I;
  stable_durable_probe : ∀ s h, stable_durable_hard_state s = Some h → h = stable_durable s;
  stable_write_durable : ∀ s id h, stable_durable (stable_submit_write id h s) = stable_durable s;
  stable_snapshot_visible : ∀ s id m d,
    stable_snapshot (stable_submit_snapshot id m d s) = Some (m, d);
  stable_snapshot_durable : ∀ s id m d,
    stable_durable_snapshot (stable_submit_snapshot id m d s) = stable_durable_snapshot s;
  stable_pending_poll : ∀ s, stable_has_pending s = true ↔ (stable_poll s).1 ≠ None;
}.

(** ** Lemmas on the abstract log *)

Lemma lv_first_last v : lv_first v ≤ lv_last v + 1.
Proof. unfold lv_first, lv_last. lia. Qed.

Lemma lv_last_append v e es :
  lv_base v < e_index e → e_index e ≤ lv_last v + 1 →
  lv_last (lv_append v (e :: es)) = e_index e + N.of_nat (length es).
Proof.
  unfold lv_last, lv_append, lv_truncate. cbn [lv_base lv_entries]. intros.
  rewrite length_app, length_take. cbn [length]. lia.
Qed.

Lemma lv_base_append v es : lv_base (lv_append v es) = lv_base v.
Proof. by destruct es. Qed.

Lemma lv_base_term_append v es : lv_base_term (lv_append v es) = lv_base_term v.
Proof. by destruct es. Qed.

(** Below the first appended index nothing changes; from it on the log is what
    was appended. *)
Lemma lv_lookup_append v e es i :
  lv_base v < e_index e → e_index e ≤ lv_last v + 1 →
  lv_lookup (lv_append v (e :: es)) i =
    if i <? e_index e then lv_lookup v i else (e :: es) !! N.to_nat (i - e_index e).
Proof.
  intros Hb Hl. unfold lv_lookup. rewrite lv_base_append.
  unfold lv_append, lv_truncate. cbn [lv_entries].
  unfold lv_last in Hl.
  assert (length (take (N.to_nat (e_index e - lv_base v - 1)) (lv_entries v))
    = N.to_nat (e_index e - lv_base v - 1)) as Hlen by (rewrite length_take; lia).
  destruct (N.ltb_spec i (e_index e)), (N.ltb_spec (lv_base v) i); try done; try lia.
  - rewrite lookup_app_l by lia. apply lookup_take_lt. lia.
  - rewrite lookup_app_r by lia. rewrite Hlen. f_equal. lia.
Qed.

Lemma contiguous_app i es fs :
  contiguous i es → contiguous (i + N.of_nat (length es)) fs → contiguous i (es ++ fs).
Proof.
  intros He Hf k e [Hk|[Hk Hl]]%lookup_app_Some; [by apply He|].
  rewrite (Hf _ _ Hl). lia.
Qed.

Lemma contiguous_take i n es : contiguous i es → contiguous i (take n es).
Proof. intros H k e [Hk _]%lookup_take_Some. by apply H. Qed.

Lemma contiguous_drop i n es : contiguous i es → contiguous (i + N.of_nat n) (drop n es).
Proof. intros H k e Hk. rewrite lookup_drop in Hk. rewrite (H _ _ Hk). lia. Qed.

Lemma LogView_wf_append v es : LogView_wf v → appendable v es → LogView_wf (lv_append v es).
Proof.
  intros [Hc Hr] Ha. destruct es as [|e es]; [done|]. destruct Ha as ((H1 & H2) & Hcont & Hroom).
  unfold lv_first in H1. split.
  - unfold lv_first. rewrite lv_base_append. unfold lv_append, lv_truncate. cbn [lv_entries].
    apply contiguous_app; [by apply contiguous_take|].
    rewrite length_take. unfold lv_last in H2.
    replace (lv_base v + 1 + N.of_nat (N.to_nat (e_index e - lv_base v - 1) `min` length (lv_entries v)))
      with (e_index e) by lia. done.
  - rewrite lv_last_append by lia. cbn [length] in Hroom. lia.
Qed.

Lemma LogView_wf_restore n t : n < u64_max → LogView_wf (lv_restore n t).
Proof. intros. split; [by intros k e|]. unfold lv_last. simpl. lia. Qed.

Lemma LogView_wf_compact v n : LogView_wf v → LogView_wf (lv_compact v n).
Proof.
  intros [Hc Hr]. unfold lv_compact. destruct (N.leb_spec n (lv_base v)); [done|].
  set (m := N.min n (lv_last v)). split.
  - unfold lv_first. cbn [lv_base lv_entries].
    replace (m + 1) with (lv_first v + N.of_nat (N.to_nat (m - lv_base v)))
      by (unfold lv_first, m, lv_last; lia).
    by apply contiguous_drop.
  - unfold lv_last in *. cbn [lv_base lv_entries]. rewrite length_drop. unfold m, lv_last. lia.
Qed.

#[export] Hint Resolve LogView_wf_append LogView_wf_restore LogView_wf_compact : sailing.
