(* ===== verification/Shape.v ===== *)
(** * Lineage generations and shape entries

    [sailing-proto/src/multi/mod.rs]: the reserved band of generations, the
    floor-admission predicate and its refusing form, the mint.
    [sailing-proto/src/wire/mod.rs] (payload decoders) and
    [sailing-proto/src/multi/engine/mod.rs] ([shape_entry_move]): what an entry
    of a shape kind says about its own group's lineage.

    The protobuf decoders are generated code of the [buffa] crate: they are the
    fields of [BuffaDecode], an argument of the definitions that call them. *)

From S2P Require Import Prelude Bytes Num Data Frame Entry.

(** ** Generations *)

Definition MERGED_FLOOR : u64 := u64_max.
Definition HIGHEST_WORKING_GENERATION : u64 := MERGED_FLOOR - 1.

Definition generation_is_working (generation : u64) : bool :=
  generation <? HIGHEST_WORKING_GENERATION.

Definition floor_admits (floor generation : u64) : bool :=
  generation_is_working generation && (floor <=? generation).

Inductive CreateGroupError :=
  | GroupExists
  | StoredStateBelowFloor (floor recoverable : u64)
  | IncarnationUnrecoverable (record : u64)
  | FoundingNeedsStore
  | NodeIdMismatch
  | InvalidGroupId
  | Retired
  | AbsorbPending
  | BelowFloor (floor : u64)
  | ReservedGeneration
  | SplitReserved
  | InvalidBootEpoch
  | BelowLineageRecord (record : u64)
  | NoStoredState
  | StorageInUse.

Definition validate_working_generation (generation : u64) : result unit CreateGroupError :=
  if generation_is_working generation then Ok tt else Err ReservedGeneration.

Definition validate_floor (floor generation : u64) : result unit CreateGroupError :=
  if floor_admits floor generation then Ok tt
  else if (HIGHEST_WORKING_GENERATION <=? generation) && (floor <=? HIGHEST_WORKING_GENERATION)
  then Err ReservedGeneration
  else Err (BelowFloor floor).

Definition next_lineage (generation : u64) : option u64 :=
  match checked_add generation 1 with
  | Some n => if n <? HIGHEST_WORKING_GENERATION then Some n else None
  | None => None
  end.

(** ** Payload decoders *)

Inductive BuffaDecodeError := BuffaUnexpectedEof | BuffaOther.

Definition map_err {T} (r : result T BuffaDecodeError) : result T DecodeError :=
  match r with
  | Ok t => Ok t
  | Err BuffaUnexpectedEof => Err UnexpectedEof
  | Err BuffaOther => Err (Invalid "wire envelope")
  end.

Class BuffaDecode := {
  buffa_split : bytes → result SplitPayload BuffaDecodeError;
  buffa_prepare_merge : bytes → result PrepareMergePayload BuffaDecodeError;
  buffa_commit_merge : bytes → result CommitMergePayload BuffaDecodeError;
  buffa_rollback_merge : bytes → result RollbackMergePayload BuffaDecodeError;
  buffa_thaw_discharged : bytes → result ThawDischargedPayload BuffaDecodeError;
}.

Inductive ShapeFault := FaultDecode | FaultReservedGeneration.
Inductive ShapeMove := NotShape | Valid (generation : u64) | InvalidMove (fault : ShapeFault).

#[global] Instance ShapeFault_eq_dec : EqDecision ShapeFault.
Proof. solve_decision. Defined.
#[global] Instance ShapeMove_eq_dec : EqDecision ShapeMove.
Proof. solve_decision. Defined.

Section shape.
Context {BD : BuffaDecode}.

Definition group_tag_bad (tag : bytes) : bool :=
  bool_decide (tag = []) || (MAX_GROUP_ID_LEN <? blen tag).

Definition decode_split_payload (data : bytes) : result SplitPayload DecodeError :=
  let? w := map_err (buffa_split data) in
  if group_tag_bad (sp_child w) then Err (Invalid "SplitPayload.child length") else Ok w.

Definition decode_prepare_merge_payload (data : bytes) : result PrepareMergePayload DecodeError :=
  let? w := map_err (buffa_prepare_merge data) in
  if group_tag_bad (pm_target w) then Err (Invalid "PrepareMergePayload.target length") else Ok w.

Definition decode_commit_merge_payload (data : bytes) : result CommitMergePayload DecodeError :=
  let? w := map_err (buffa_commit_merge data) in
  if group_tag_bad (cm_source w) then Err (Invalid "CommitMergePayload.source length") else Ok w.

Definition decode_rollback_merge_payload (data : bytes)
  : result RollbackMergePayload DecodeError :=
  let? w := map_err (buffa_rollback_merge data) in
  if MAX_GROUP_ID_LEN <? blen (rm_source w)
  then Err (Invalid "RollbackMergePayload.source length")
  else if bool_decide (rm_source w = [])
  then Ok (RollbackMergePayload_unfreeze (rm_source_gen_after w))
  else Ok (RollbackMergePayload_abort (rm_source w) (rm_source_gen_after w)
             (rm_target_gen_after w)).

Definition decode_thaw_discharged_payload (data : bytes)
  : result ThawDischargedPayload DecodeError :=
  let? w := map_err (buffa_thaw_discharged data) in
  if group_tag_bad (td_source w) then Err (Invalid "ThawDischargedPayload.source length") else Ok w.

(** [judged]: the entry is valid when every generation it names is working. *)
Definition judged (own : u64) (named : list u64) : ShapeMove :=
  if forallb generation_is_working named then Valid own else InvalidMove FaultReservedGeneration.

Definition decoded_or_fault {T} (r : result T DecodeError) (k : T → ShapeMove) : ShapeMove :=
  match r with Ok p => k p | Err _ => InvalidMove FaultDecode end.

Definition shape_entry_move (entry : Entry) : ShapeMove :=
  match e_kind entry with
  | EkSplit =>
      decoded_or_fault (decode_split_payload (e_data entry)) (λ p,
        judged (sp_parent_gen_after p) [sp_parent_gen_after p; sp_child_gen p])
  | EkPrepareMerge =>
      decoded_or_fault (decode_prepare_merge_payload (e_data entry)) (λ p,
        judged (pm_source_gen_after p) [pm_source_gen_after p])
  | EkCommitMerge =>
      decoded_or_fault (decode_commit_merge_payload (e_data entry)) (λ p,
        judged (cm_target_gen_after p) [cm_source_gen_after p; cm_target_gen_after p])
  | EkRollbackMerge =>
      decoded_or_fault (decode_rollback_merge_payload (e_data entry)) (λ p,
        judged (if RollbackMergePayload_is_unfreeze p then rm_source_gen_after p
                else rm_target_gen_after p)
               [rm_source_gen_after p; rm_target_gen_after p])
  | _ => NotShape
  end.

(** A generation folded from a valid shape entry is a working one. *)
Lemma shape_entry_move_working e g :
  shape_entry_move e = Valid g → g < HIGHEST_WORKING_GENERATION.
Proof.
  unfold shape_entry_move, decoded_or_fault, judged, generation_is_working.
  intros Hm. repeat (case_match; simplify_eq/=);
    repeat match goal with
    | H : _ && _ = true |- _ => apply andb_true_iff in H as [??]
    | H : (_ <? _) = true |- _ => apply N.ltb_lt in H
    end; done.
Qed.
End shape.

(** ** Admission and removal *)

Lemma floor_admits_spec floor g :
  floor_admits floor g = true ↔ floor ≤ g < HIGHEST_WORKING_GENERATION.
Proof. unfold floor_admits, generation_is_working. rewrite andb_true_iff, N.ltb_lt, N.leb_le. lia. Qed.

Lemma next_lineage_spec g n :
  next_lineage g = Some n ↔ n = g + 1 ∧ n < HIGHEST_WORKING_GENERATION.
Proof.
  unfold next_lineage, checked_add.
  case_decide; [destruct (N.ltb_spec (g + 1) HIGHEST_WORKING_GENERATION)|];
    unfold HIGHEST_WORKING_GENERATION, MERGED_FLOOR, u64_max in *; naive_solver lia.
Qed.
