(* ===== verification/EngineLog.v ===== *)
(** * The group engine's log

    [EngineLog] of [sailing-proto/src/multi/engine/mod.rs]: the per-group log
    handle, fully resident, whose completions are staged until the engine's
    barrier.  The read view changes at once; the completion queue, the staged
    queue and the two deques of shape contributions follow every truncation,
    compaction and re-baseline.  A [VecDeque] is a list, its front first. *)

From S2P Require Import Prelude Bytes Num Data Entry Storage Shape.

Inductive StagedLog := StagedAppended (id : OpId) (upto : Index) | StagedCompacted (i : Index).

Record EngineLog := {
  el_entries : list Entry;
  el_offset : Index;
  el_compacted_term : Term;
  el_staged : list StagedLog;
  el_ready : list LogDone;
  el_shape_contribs : list (Index * u64);
  el_shape_faults : list (Index * ShapeFault);
}.

Definition EngineLog_new : EngineLog :=
  {| el_entries := []; el_offset := 0; el_compacted_term := 0; el_staged := []; el_ready := [];
     el_shape_contribs := []; el_shape_faults := [] |}.

Definition EngineLog_shape_ceiling (l : EngineLog) : u64 := list_max (el_shape_contribs l).*2.

Definition EngineLog_shape_faulted (l : EngineLog) : bool :=
  negb (bool_decide (el_shape_faults l = [])).

Definition StagedLog_done (s : StagedLog) : LogDone :=
  match s with StagedAppended id _ => Appended id | StagedCompacted i => Compacted i end.

(** [release_staged]: the count, and the log with the barrier applied. *)
Definition EngineLog_release_staged (l : EngineLog) : nat * EngineLog :=
  (length (el_staged l),
   {| el_entries := el_entries l; el_offset := el_offset l;
      el_compacted_term := el_compacted_term l; el_staged := [];
      el_ready := el_ready l ++ (StagedLog_done <$> el_staged l);
      el_shape_contribs := el_shape_contribs l; el_shape_faults := el_shape_faults l |}).

Definition EngineLog_has_staged (l : EngineLog) : bool :=
  negb (bool_decide (el_staged l = [])).

Definition EngineLog_first_index (l : EngineLog) : Index := el_offset l + 1.
Definition EngineLog_last_index (l : EngineLog) : Index :=
  el_offset l + N.of_nat (length (el_entries l)).

(** The indexing [entries[pos]] is in range in the branch that reaches it. *)
Definition EngineLog_term (l : EngineLog) (index : Index) : Term :=
  if index =? el_offset l then el_compacted_term l
  else if (index <? el_offset l) || (EngineLog_last_index l <? index) then 0
  else match el_entries l !! N.to_nat (index - el_offset l - 1) with
       | Some e => e_term e
       | None => 0
       end.

Definition EngineLog_entries (l : EngineLog) (start stop : Index) : list Entry :=
  let offset := el_offset l in
  let len := N.of_nat (length (el_entries l)) in
  let lo := if start <=? offset then 0 else start - offset - 1 in
  let hi := if stop <=? offset then 0 else N.min (stop - offset - 1) len in
  let lo := N.min lo len in
  let hi := N.min (N.max hi lo) len in
  take (N.to_nat (hi - lo)) (drop (N.to_nat lo) (el_entries l)).

Section engine_log.
Context {BD : BuffaDecode}.

(** One entry's fold into the two shape deques. *)
Definition push_shape (l : EngineLog) (entry : Entry) : EngineLog :=
  match shape_entry_move entry with
  | NotShape => l
  | Valid generation =>
      if generation =? 0 then l
      else {| el_entries := el_entries l; el_offset := el_offset l;
              el_compacted_term := el_compacted_term l; el_staged := el_staged l;
              el_ready := el_ready l;
              el_shape_contribs := el_shape_contribs l ++ [(e_index entry, generation)];
              el_shape_faults := el_shape_faults l |}
  | InvalidMove fault =>
      {| el_entries := el_entries l; el_offset := el_offset l;
         el_compacted_term := el_compacted_term l; el_staged := el_staged l;
         el_ready := el_ready l; el_shape_contribs := el_shape_contribs l;
         el_shape_faults := el_shape_faults l ++ [(e_index entry, fault)] |}
  end.

Definition staged_below (fi : Index) (s : StagedLog) : Prop :=
  match s with StagedAppended _ upto => upto < fi | StagedCompacted _ => True end.

#[global] Instance staged_below_dec fi s : Decision (staged_below fi s).
Proof. destruct s; simpl; apply _. Defined.

(** The conflict truncation at [fi]: the entries, the staged completions that
    reach into them, and their shape contributions. *)
Definition EngineLog_truncate_from (fi : Index) (l : EngineLog) : EngineLog :=
  let offset := el_offset l in
  let from := if fi <=? offset + 1 then 0 else fi - offset - 1 in
  {| el_entries := take (N.to_nat from) (el_entries l);
     el_offset := offset; el_compacted_term := el_compacted_term l;
     el_staged := filter (staged_below fi) (el_staged l);
     el_ready := el_ready l;
     el_shape_contribs := drop_back_while (λ c, fi <=? c.1) (el_shape_contribs l);
     el_shape_faults := drop_back_while (λ c, fi <=? c.1) (el_shape_faults l) |}.

Definition EngineLog_submit_append (id : OpId) (entries : list Entry) (l : EngineLog) : EngineLog :=
  let l := match entries with
           | first :: _ => EngineLog_truncate_from (e_index first) l
           | [] => l
           end in
  let l := foldl push_shape l entries in
  let upto := el_offset l + N.of_nat (length (el_entries l ++ entries)) in
  {| el_entries := el_entries l ++ entries; el_offset := el_offset l;
     el_compacted_term := el_compacted_term l;
     el_staged := el_staged l ++ [StagedAppended id upto]; el_ready := el_ready l;
     el_shape_contribs := el_shape_contribs l; el_shape_faults := el_shape_faults l |}.

Definition EngineLog_compact (up_to : Index) (l : EngineLog) : EngineLog :=
  if (up_to <=? el_offset l) || bool_decide (el_entries l = []) then l
  else
    let last := EngineLog_last_index l in
    let up_to := if last <? up_to then last else up_to in
    let boundary_term := EngineLog_term l up_to in
    let drain_count := (N.to_nat (up_to - el_offset l) `min` length (el_entries l))%nat in
    {| el_entries := drop drain_count (el_entries l); el_offset := up_to;
       el_compacted_term := boundary_term;
       el_staged := el_staged l ++ [StagedCompacted up_to]; el_ready := el_ready l;
       el_shape_contribs := drop_while (λ c, c.1 <=? up_to) (el_shape_contribs l);
       el_shape_faults := drop_while (λ c, c.1 <=? up_to) (el_shape_faults l) |}.

Definition EngineLog_restore (last_index : Index) (last_term : Term) (l : EngineLog) : EngineLog :=
  {| el_entries := []; el_offset := last_index; el_compacted_term := last_term; el_staged := [];
     el_ready := []; el_shape_contribs := []; el_shape_faults := [] |}.

Definition EngineLog_poll (l : EngineLog) : option LogDone * EngineLog :=
  match el_ready l with
  | [] => (None, l)
  | d :: ready =>
      (Some d,
       {| el_entries := el_entries l; el_offset := el_offset l;
          el_compacted_term := el_compacted_term l; el_staged := el_staged l; el_ready := ready;
          el_shape_contribs := el_shape_contribs l; el_shape_faults := el_shape_faults l |})
  end.

Definition EngineLog_has_pending (l : EngineLog) : bool := negb (bool_decide (el_ready l = [])).

(** The [LogStore] implementation; its error type is [Infallible]. *)
#[global] Instance EngineLog_LogStore : LogStore EngineLog := {|
  log_error := Empty_set;
  log_first_index := EngineLog_first_index;
  log_last_index := EngineLog_last_index;
  log_durable_index := λ _, None;
  log_term := λ l i, Ok (EngineLog_term l i);
  log_entries := λ l lo hi _, Ok (Ready (EngineLog_entries l lo hi));
  log_submit_append := EngineLog_submit_append;
  log_compact := EngineLog_compact;
  log_restore := EngineLog_restore;
  log_poll := λ l, let '(d, l) := EngineLog_poll l in (Ok <$> d, l);
  log_has_pending := EngineLog_has_pending;
|}.

(** ** The log store laws *)

Definition EngineLog_view (l : EngineLog) : LogView :=
  {| lv_base := el_offset l; lv_base_term := el_compacted_term l; lv_entries := el_entries l |}.

Definition shape_contrib (e : Entry) : option (Index * u64) :=
  match shape_entry_move e with
  | Valid g => if g =? 0 then None else Some (e_index e, g)
  | _ => None
  end.

Definition shape_fault (e : Entry) : option (Index * ShapeFault) :=
  match shape_entry_move e with InvalidMove f => Some (e_index e, f) | _ => None end.

(** The two folds read only their own deque. *)
Lemma foldl_push_shape es l :
  foldl push_shape l es =
    {| el_entries := el_entries l; el_offset := el_offset l;
       el_compacted_term := el_compacted_term l; el_staged := el_staged l; el_ready := el_ready l;
       el_shape_contribs := el_shape_contribs l ++ omap shape_contrib es;
       el_shape_faults := el_shape_faults l ++ omap shape_fault es |}.
Proof.
  revert l. induction es as [|e es IH]; intros l; cbn [foldl].
  - rewrite !app_nil_r. by destruct l.
  - rewrite IH. unfold push_shape. cbn [omap list_omap]. unfold shape_contrib at 2, shape_fault at 2.
    destruct (shape_entry_move e) as [|g|f]; cbn; [done| |by rewrite <- app_assoc].
    destruct (g =? 0); cbn; [done|by rewrite <- app_assoc].
Qed.

Lemma EngineLog_view_append id es l :
  EngineLog_view (EngineLog_submit_append id es l) = lv_append (EngineLog_view l) es.
Proof.
  unfold EngineLog_submit_append. rewrite foldl_push_shape.
  destruct es as [|e es]; unfold EngineLog_view; cbn; [by rewrite app_nil_r|].
  unfold lv_truncate, EngineLog_truncate_from. cbn [lv_base lv_entries lv_base_term].
  destruct (N.leb_spec (e_index e) (el_offset l + 1)); [|done].
  replace (e_index e - el_offset l - 1) with 0 by lia. done.
Qed.

Lemma EngineLog_term_view l i : EngineLog_term l i = lv_term (EngineLog_view l) i.
Proof.
  unfold EngineLog_term, lv_term, lv_lookup, EngineLog_view. cbn [lv_base lv_base_term lv_entries].
  destruct (N.eqb_spec i (el_offset l)); [done|]. unfold EngineLog_last_index.
  destruct (N.ltb_spec i (el_offset l)), (N.ltb_spec (el_offset l) i); cbn [orb]; try done; try lia.
  destruct (N.ltb_spec (el_offset l + N.of_nat (length (el_entries l))) i); [|done].
  rewrite lookup_ge_None_2; [done|lia].
Qed.

Lemma EngineLog_view_compact n l :
  EngineLog_view (EngineLog_compact n l) = lv_compact (EngineLog_view l) n.
Proof.
  unfold EngineLog_compact, lv_compact. cbn [lv_base EngineLog_view].
  destruct (N.leb_spec n (el_offset l)); cbn [orb]; [done|].
  case_bool_decide as Hnil.
  - unfold EngineLog_view, lv_last, lv_term. cbn [lv_base lv_base_term lv_entries].
    rewrite Hnil. cbn [length].
    replace (N.min n (el_offset l + N.of_nat 0)) with (el_offset l) by lia.
    rewrite N.eqb_refl, drop_nil. done.
  - unfold EngineLog_last_index. set (last := el_offset l + N.of_nat (length (el_entries l))).
    assert ((if last <? n then last else n) = N.min n last) as ->.
    { destruct (N.ltb_spec last n); lia. }
    unfold EngineLog_view at 1. cbn. rewrite EngineLog_term_view.
    replace (lv_last (EngineLog_view l)) with last by done. f_equal. f_equal.
    unfold last. lia.
Qed.

Lemma EngineLog_entries_slice l lo hi :
  lv_first (EngineLog_view l) ≤ lo → hi ≤ lv_last (EngineLog_view l) + 1 →
  EngineLog_entries l lo hi = lv_slice (EngineLog_view l) lo hi.
Proof.
  unfold lv_first, lv_last, lv_slice, EngineLog_entries. cbn. intros Hlo Hhi.
  set (len := N.of_nat (length (el_entries l))) in *.
  assert ((lo <=? el_offset l) = false) as -> by (apply N.leb_gt; lia).
  destruct (N.leb_spec hi (el_offset l)).
  - replace (N.to_nat (hi - lo)) with 0%nat by lia.
    match goal with |- take ?n _ = _ => replace n with 0%nat by lia end. done.
  - destruct (N.le_gt_cases hi lo).
    + replace (N.to_nat (hi - lo)) with 0%nat by lia.
      match goal with |- take ?n _ = _ => replace n with 0%nat by lia end. done.
    + f_equal; [lia|]. f_equal. lia.
Qed.

Lemma lv_slice_nonempty v lo hi :
  lv_first v ≤ lo → hi ≤ lv_last v + 1 → lo < hi → lv_slice v lo hi ≠ [].
Proof.
  unfold lv_first, lv_last, lv_slice. intros ??? H%(f_equal length).
  rewrite length_take, length_drop in H. cbn in H. lia.
Qed.

#[global, program] Instance EngineLog_laws : LogStoreLaws EngineLog := {|
  log_view := EngineLog_view;
|}.
Next Obligation. done. Qed.
Next Obligation. done. Qed.
Next Obligation. cbn. intros l i t [= <-]. apply EngineLog_term_view. Qed.
Next Obligation.
  cbn. intros l lo hi max es Hlo Hhi [= <-]. rewrite EngineLog_entries_slice by done.
  split; [done|]. intros. by apply lv_slice_nonempty.
Qed.
Next Obligation. intros. apply EngineLog_view_append. Qed.
Next Obligation. intros. apply EngineLog_view_compact. Qed.
Next Obligation. done. Qed.
Next Obligation. intros l. cbn. unfold EngineLog_poll. by destruct (el_ready l). Qed.
Next Obligation.
  intros l. cbn. unfold EngineLog_has_pending, EngineLog_poll.
  rewrite negb_true_iff, bool_decide_eq_false. by destruct (el_ready l).
Qed.

(** ** Reachable logs

    The operations a driver performs on a group's log, with what the trait asks
    of the caller, and the matching moves of the abstract log. *)

Inductive elog_step : EngineLog → EngineLog → Prop :=
  | elog_append id es l :
      appendable (EngineLog_view l) es → elog_step l (EngineLog_submit_append id es l)
  | elog_compact n l : elog_step l (EngineLog_compact n l)
  | elog_restore n t l : n < u64_max → elog_step l (EngineLog_restore n t l)
  | elog_poll l : elog_step l (EngineLog_poll l).2
  | elog_flush l : elog_step l (EngineLog_release_staged l).2.

Inductive lv_step : LogView → LogView → Prop :=
  | lv_do_append es v : appendable v es → lv_step v (lv_append v es)
  | lv_do_compact n v : lv_step v (lv_compact v n)
  | lv_do_restore n t v : n < u64_max → lv_step v (lv_restore n t).

Lemma lv_step_wf v v' : lv_step v v' → LogView_wf v → LogView_wf v'.
Proof. destruct 1; eauto with sailing. Qed.

(** Each engine step is one abstract move, or none. *)
Lemma elog_step_simulates l l' :
  elog_step l l' → lv_step (EngineLog_view l) (EngineLog_view l') ∨ EngineLog_view l' = EngineLog_view l.
Proof.
  destruct 1 as [id es l Ha|n l|n t l Hn|l|l].
  - left. rewrite EngineLog_view_append. by constructor.
  - left. rewrite EngineLog_view_compact. constructor.
  - left. by apply (lv_do_restore n t).
  - right. unfold EngineLog_poll. by destruct (el_ready l).
  - by right.
Qed.

Lemma elog_reach_view l :
  rtc elog_step EngineLog_new l → rtc lv_step (lv_restore 0 0) (EngineLog_view l).
Proof.
  intros H. change (lv_restore 0 0) with (EngineLog_view EngineLog_new).
  induction H as [|l l1 l2 Hs _ IH]; [done|].
  apply elog_step_simulates in Hs as [Hs| Heq]; [by eapply rtc_l|by rewrite <- Heq].
Qed.

Lemma lv_reach_wf v : rtc lv_step (lv_restore 0 0) v → LogView_wf v.
Proof.
  intros H. assert (LogView_wf (lv_restore 0 0)) as Hwf by by apply LogView_wf_restore.
  induction H as [|v v1 v2 Hs _ IH]; [done|]. apply IH. by eapply lv_step_wf.
Qed.

(** The shape deques and the staged queue, as functions of the surviving log. *)
Definition staged_covered (l : EngineLog) (s : StagedLog) : Prop :=
  match s with
  | StagedAppended _ upto => upto ≤ EngineLog_last_index l
  | StagedCompacted i => i ≤ el_offset l
  end.

Record EngineLog_inv (l : EngineLog) : Prop := {
  eli_wf : LogView_wf (EngineLog_view l);
  eli_contribs : el_shape_contribs l = omap shape_contrib (el_entries l);
  eli_faults : el_shape_faults l = omap shape_fault (el_entries l);
  eli_staged : Forall (staged_covered l) (el_staged l);
}.

(** A keyed deque over a contiguous log splits where the log does. *)
Section keyed.
Context {A : Type} (f : Entry → option (Index * A)).
Hypothesis f_key : ∀ e c, f e = Some c → c.1 = e_index e.

Lemma Forall_omap_key (P : Index → Prop) es :
  Forall (λ e, P (e_index e)) es → Forall (λ c, P c.1) (omap f es).
Proof.
  rewrite !Forall_forall. intros H c (e & He & Hc)%list_elem_of_omap.
  rewrite (f_key e c Hc). auto.
Qed.

Lemma contiguous_Forall (P : Index → Prop) i es :
  contiguous i es → (∀ k, i ≤ k < i + N.of_nat (length es) → P k) →
  Forall (λ e, P (e_index e)) es.
Proof.
  intros Hc HP. apply Forall_lookup. intros k e He. rewrite (Hc _ _ He). apply HP.
  apply lookup_lt_Some in He. lia.
Qed.

Lemma keyed_truncate i es n :
  contiguous i es →
  drop_back_while (λ c, i + N.of_nat n <=? c.1) (omap f es) = omap f (take n es).
Proof.
  intros Hc. rewrite <- (take_drop n es) at 1. rewrite omap_app. apply drop_back_while_app.
  - apply (Forall_omap_key (λ k, (i + N.of_nat n <=? k) = false)).
    apply (contiguous_Forall (λ k, (i + N.of_nat n <=? k) = false) _ _ (contiguous_take _ n _ Hc)).
    intros k. rewrite length_take. intros. apply N.leb_gt. lia.
  - apply (Forall_omap_key (λ k, (i + N.of_nat n <=? k) = true)).
    apply (contiguous_Forall (λ k, (i + N.of_nat n <=? k) = true) _ _ (contiguous_drop _ n _ Hc)).
    intros k ?. apply N.leb_le. lia.
Qed.

Lemma keyed_compact i es n :
  0 < i → contiguous i es → (n ≤ length es)%nat →
  drop_while (λ c, c.1 <=? i + N.of_nat n - 1) (omap f es) = omap f (drop n es).
Proof.
  intros Hi Hc Hn. rewrite <- (take_drop n es) at 1. rewrite omap_app. apply drop_while_app.
  - apply (Forall_omap_key (λ k, (k <=? i + N.of_nat n - 1) = true)).
    apply (contiguous_Forall (λ k, (k <=? i + N.of_nat n - 1) = true) _ _ (contiguous_take _ n _ Hc)).
    intros k. rewrite length_take. intros. apply N.leb_le. lia.
  - apply (Forall_omap_key (λ k, (k <=? i + N.of_nat n - 1) = false)).
    apply (contiguous_Forall (λ k, (k <=? i + N.of_nat n - 1) = false) _ _ (contiguous_drop _ n _ Hc)).
    intros k ?. apply N.leb_gt. lia.
Qed.
End keyed.

Lemma shape_contrib_key e c : shape_contrib e = Some c → c.1 = e_index e.
Proof. unfold shape_contrib. intros. repeat case_match; by simplify_eq/=. Qed.

Lemma shape_fault_key e c : shape_fault e = Some c → c.1 = e_index e.
Proof. unfold shape_fault. intros. repeat case_match; by simplify_eq/=. Qed.

Lemma keyed_truncate_at {A} (f : Entry → option (Index * A))
    (Hk : ∀ e c, f e = Some c → c.1 = e_index e) l fi :
  LogView_wf (EngineLog_view l) → lv_first (EngineLog_view l) ≤ fi ≤ lv_last (EngineLog_view l) + 1 →
  drop_back_while (λ c, fi <=? c.1) (omap f (el_entries l)) =
  omap f (el_entries (EngineLog_truncate_from fi l)).
Proof.
  intros Hwf Hfi. cbn [el_entries EngineLog_truncate_from].
  assert ((if fi <=? el_offset l + 1 then 0 else fi - el_offset l - 1) = fi - el_offset l - 1) as ->.
  { destruct (N.leb_spec fi (el_offset l + 1)); lia. }
  unfold lv_first in Hfi. cbn in Hfi.
  pose proof (keyed_truncate f Hk _ _ (N.to_nat (fi - el_offset l - 1)) (lvw_contiguous _ Hwf)) as H.
  replace (lv_first (EngineLog_view l) + N.of_nat (N.to_nat (fi - el_offset l - 1))) with fi in H
    by (unfold lv_first; cbn; lia).
  exact H.
Qed.

Lemma staged_covered_append id es l :
  Forall (staged_covered l) (el_staged l) → appendable (EngineLog_view l) es →
  Forall (staged_covered (EngineLog_submit_append id es l))
    (el_staged (EngineLog_submit_append id es l)).
Proof.
  intros Hs Ha. pose proof (EngineLog_view_append id es l) as Hv.
  assert (el_offset (EngineLog_submit_append id es l) = el_offset l) as Hoff.
  { pose proof (f_equal lv_base Hv) as H. by rewrite lv_base_append in H. }
  assert (EngineLog_last_index (EngineLog_submit_append id es l) = lv_last (lv_append (EngineLog_view l) es))
    as Hlast by by rewrite <- Hv.
  assert (∀ s, staged_covered l s → (∀ e es', es = e :: es' → staged_below (e_index e) s) →
    staged_covered (EngineLog_submit_append id es l) s) as Hkeep.
  { intros [i upto|i] Hcov Hb; unfold staged_covered in *; rewrite ?Hlast, ?Hoff; [|done].
    destruct es as [|e es]; [done|]. specialize (Hb e es eq_refl). cbn in Hb.
    destruct Ha as [[? ?] _]. unfold lv_first in *. rewrite lv_last_append by lia. lia. }
  assert (el_staged (EngineLog_submit_append id es l) =
    (match es with e :: _ => filter (staged_below (e_index e)) (el_staged l) | [] => el_staged l end)
    ++ [StagedAppended id (EngineLog_last_index (EngineLog_submit_append id es l))]) as ->.
  { unfold EngineLog_submit_append, EngineLog_last_index. rewrite foldl_push_shape. by destruct es. }
  apply Forall_app. split; [|apply Forall_singleton, N.le_refl].
  rewrite Forall_forall in *. intros s Hin. destruct es as [|e es].
  - apply Hkeep; auto. done.
  - apply list_elem_of_filter in Hin as [Hb Hin]. apply Hkeep; auto. by intros ?? [= <- <-].
Qed.

Lemma EngineLog_inv_append id es l :
  EngineLog_inv l → appendable (EngineLog_view l) es →
  EngineLog_inv (EngineLog_submit_append id es l).
Proof.
  intros [Hwf Hc Hf Hs] Ha. split.
  - rewrite EngineLog_view_append. by apply LogView_wf_append.
  - unfold EngineLog_submit_append. rewrite foldl_push_shape.
    destruct es as [|e es]; cbn -[omap]; rewrite omap_app; [by rewrite Hc|]. f_equal. rewrite Hc.
    apply (keyed_truncate_at shape_contrib shape_contrib_key l); [done|]. apply Ha.
  - unfold EngineLog_submit_append. rewrite foldl_push_shape.
    destruct es as [|e es]; cbn -[omap]; rewrite omap_app; [by rewrite Hf|]. f_equal. rewrite Hf.
    apply (keyed_truncate_at shape_fault shape_fault_key l); [done|]. apply Ha.
  - apply (staged_covered_append id es l); done.
Qed.

Lemma keyed_compact_at {A} (f : Entry → option (Index * A))
    (Hk : ∀ e c, f e = Some c → c.1 = e_index e) l m :
  LogView_wf (EngineLog_view l) → el_offset l < m ≤ EngineLog_last_index l →
  drop_while (λ c, c.1 <=? m) (omap f (el_entries l)) =
  omap f (drop (N.to_nat (m - el_offset l)) (el_entries l)).
Proof.
  intros Hwf Hm. unfold EngineLog_last_index in Hm.
  pose proof (keyed_compact f Hk (lv_first (EngineLog_view l)) (el_entries l)
    (N.to_nat (m - el_offset l)) ltac:(unfold lv_first; lia) (lvw_contiguous _ Hwf) ltac:(lia)) as H.
  replace (lv_first (EngineLog_view l) + N.of_nat (N.to_nat (m - el_offset l)) - 1) with m in H
    by (unfold lv_first; cbn [lv_base EngineLog_view]; lia).
  exact H.
Qed.

Lemma EngineLog_inv_compact n l : EngineLog_inv l → EngineLog_inv (EngineLog_compact n l).
Proof.
  intros [Hwf Hc Hf Hs]. unfold EngineLog_compact.
  destruct (N.leb_spec n (el_offset l)); cbn [orb]; [done|].
  case_bool_decide as Hnil; [done|].
  set (last := EngineLog_last_index l).
  set (m := if last <? n then last else n).
  assert (el_offset l < m ≤ last) as Hm.
  { unfold m, last, EngineLog_last_index. destruct (el_entries l); [done|]. cbn [length].
    destruct (N.ltb_spec (el_offset l + N.of_nat (S (length l0))) n); lia. }
  assert (N.to_nat (m - el_offset l) ≤ length (el_entries l))%nat as Hlen
    by (unfold last, EngineLog_last_index in Hm; lia).
  rewrite (Nat.min_l _ _ Hlen). split; cbn [el_shape_contribs el_shape_faults el_entries].
  - pose proof (EngineLog_view_compact n l) as Hv. unfold EngineLog_compact in Hv.
    assert ((n <=? el_offset l) = false) as Hb by by apply N.leb_gt.
    rewrite Hb, bool_decide_eq_false_2 in Hv by done. cbn [orb] in Hv. fold last m in Hv.
    rewrite (Nat.min_l _ _ Hlen) in Hv. rewrite Hv. by apply LogView_wf_compact.
  - rewrite Hc. by apply (keyed_compact_at shape_contrib shape_contrib_key l).
  - rewrite Hf. by apply (keyed_compact_at shape_fault shape_fault_key l).
  - cbn [el_staged]. apply Forall_app. split; [|apply Forall_singleton, N.le_refl].
    eapply Forall_impl; [done|]. intros [id upto|i]; unfold staged_covered, EngineLog_last_index;
      cbn [el_offset el_entries]; rewrite ?length_drop; [|lia].
    intros ?. unfold last, EngineLog_last_index in Hm. lia.
Qed.

Lemma EngineLog_inv_step l l' : elog_step l l' → EngineLog_inv l → EngineLog_inv l'.
Proof.
  destruct 1 as [id es l Ha|n l|n t l Hn|l|l]; intros Hi.
  - by apply EngineLog_inv_append.
  - by apply EngineLog_inv_compact.
  - split; [by apply (LogView_wf_restore n t)|done..].
  - unfold EngineLog_poll. destruct Hi, (el_ready l); by split.
  - destruct Hi. by split.
Qed.

Lemma EngineLog_inv_new : EngineLog_inv EngineLog_new.
Proof. split; [by apply (LogView_wf_restore 0 0)|done..]. Qed.

Lemma elog_reach_inv l : rtc elog_step EngineLog_new l → EngineLog_inv l.
Proof.
  intros H. pose proof EngineLog_inv_new as Hi.
  induction H; eauto using EngineLog_inv_step.
Qed.

(** The generation a surviving entry names for its group. *)
Definition entry_generation (e : Entry) : option u64 :=
  match shape_entry_move e with Valid g => Some g | _ => None end.

Definition entry_refused (e : Entry) : bool :=
  match shape_entry_move e with InvalidMove _ => true | _ => false end.

Lemma shape_ceiling_scan es :
  list_max (omap shape_contrib es).*2 = list_max (omap entry_generation es).
Proof.
  induction es as [|e es IH]; [done|]. cbn [omap list_omap].
  unfold shape_contrib at 1, entry_generation at 1.
  destruct (shape_entry_move e) as [|g|f]; [done| |done].
  destruct (N.eqb_spec g 0) as [->|Hg]; cbn [fmap list_fmap list_max foldr snd].
  - rewrite IH. unfold list_max. lia.
  - unfold list_max in IH. by rewrite IH.
Qed.

Lemma shape_faults_nil es : omap shape_fault es = [] ↔ existsb entry_refused es = false.
Proof.
  induction es as [|e es IH]; [done|]. cbn [omap list_omap existsb].
  unfold shape_fault at 1, entry_refused at 1. by destruct (shape_entry_move e).
Qed.

Lemma shape_faults_scan es :
  negb (bool_decide (omap shape_fault es = [])) = existsb entry_refused es.
Proof.
  case_bool_decide as H; rewrite shape_faults_nil in H; cbn [negb]; [done|].
  by apply not_false_iff_true in H.
Qed.

Lemma EngineLog_shape_scan l :
  EngineLog_inv l →
  EngineLog_shape_ceiling l = list_max (omap entry_generation (el_entries l)) ∧
  EngineLog_shape_faulted l = existsb entry_refused (el_entries l).
Proof.
  intros [_ Hc Hf _]. unfold EngineLog_shape_ceiling, EngineLog_shape_faulted.
  rewrite Hc, Hf. auto using shape_ceiling_scan, shape_faults_scan.
Qed.

(** C35: every log the engine can reach from a fresh group, by any sequence of
    conforming appends, compactions, re-baselines, polls and barriers, answers
    each read as the abstract log it implements: the bounds, the term of every
    index (the domain contract), exactly the requested entries of every
    in-domain range and never a deferral; the log is contiguous; and no staged
    completion claims an index the log no longer holds. *)
Theorem engine_log_refines l :
  rtc elog_step EngineLog_new l →
  let v := EngineLog_view l in
  rtc lv_step (lv_restore 0 0) v ∧ LogView_wf v
  ∧ log_first_index l = lv_first v ∧ log_last_index l = lv_last v
  ∧ (∀ i, log_term l i = Ok (lv_term v i))
  ∧ (∀ lo hi max, lv_first v ≤ lo → hi ≤ lv_last v + 1 →
       log_entries l lo hi max = Ok (Ready (lv_slice v lo hi)))
  ∧ Forall (staged_covered l) (el_staged l).
Proof.
  intros H v. pose proof (elog_reach_inv l H) as [Hwf _ _ Hs]. split_and!; try done.
  - by apply elog_reach_view.
  - intros i. cbn. by rewrite EngineLog_term_view.
  - intros lo hi max Hlo Hhi. cbn. by rewrite EngineLog_entries_slice.
Qed.
End engine_log.

(** ** A concrete log *)

Module EngineLogDemo.
(** A decoder for two-byte split payloads: the child tag, then its generation. *)
#[global] Instance demo_buffa : BuffaDecode := {|
  buffa_split := λ d, match d with
    | [c; g] => Ok {| sp_child := [c]; sp_child_gen := byte_val g;
                      sp_parent_gen_after := byte_val g + 1; sp_instruction := [] |}
    | _ => Err BuffaUnexpectedEof
    end;
  buffa_prepare_merge := λ _, Err BuffaOther;
  buffa_commit_merge := λ _, Err BuffaOther;
  buffa_rollback_merge := λ _, Err BuffaOther;
  buffa_thaw_discharged := λ _, Err BuffaOther;
|}.

Definition demo_entry (t : Term) (i : Index) : Entry := Entry_new t i EkNormal [].
Definition demo_split (t : Term) (i : Index) (g : byte) : Entry := Entry_new t i EkSplit [x07; g].

(** Three entries, a barrier, a conflicting suffix, a compaction. *)
Definition demo_log : EngineLog :=
  EngineLog_compact 1 (
  EngineLog_submit_append (OpId_new 1) [demo_entry 2 2; demo_split 2 3 x04] (
  (EngineLog_release_staged (
  EngineLog_submit_append (OpId_new 0) [demo_entry 1 1; demo_split 1 2 x09; demo_entry 1 3]
    EngineLog_new)).2)).

Lemma contiguous_cons i e es :
  e_index e = i → contiguous (i + 1) es → contiguous i (e :: es).
Proof.
  intros He Hc [|k] e' Hk; cbn in Hk; simplify_eq; [lia|]. rewrite (Hc _ _ Hk). lia.
Qed.

Lemma contiguous_nil i : contiguous i [].
Proof. by intros k e. Qed.

#[global] Hint Resolve contiguous_cons contiguous_nil : sailing.

Lemma demo_log_reach : rtc elog_step EngineLog_new demo_log.
Proof.
  unfold demo_log.
  eapply rtc_l; [apply (elog_append (OpId_new 0) [demo_entry 1 1; demo_split 1 2 x09; demo_entry 1 3])|].
  { split_and!; [by vm_compute..|repeat (apply contiguous_cons; [done|]); apply contiguous_nil|by vm_compute]. }
  eapply rtc_l; [apply elog_flush|].
  eapply rtc_l; [apply (elog_append (OpId_new 1) [demo_entry 2 2; demo_split 2 3 x04])|].
  { split_and!; [by vm_compute..|repeat (apply contiguous_cons; [done|]); apply contiguous_nil|by vm_compute]. }
  eapply rtc_l; [apply (elog_compact 1)|]. apply rtc_refl.
Qed.

Lemma engine_log_refines_witness :
  EngineLog_term demo_log 3 = 2 ∧ EngineLog_shape_ceiling demo_log = 5 ∧
  log_entries demo_log 2 4 0 = Ok (Ready (lv_slice (EngineLog_view demo_log) 2 4)).
Proof.
  split; [by vm_compute|]. split; [by vm_compute|].
  exact (proj1 (proj2 (proj2 (proj2 (proj2 (proj2 (engine_log_refines demo_log demo_log_reach))))))
    2 4 0 ltac:(by vm_compute) ltac:(by vm_compute)).
Defined.
End EngineLogDemo.
