(* ===== verification/EngineStable.v ===== *)
(** * The group engine's stable store

    [EngineStable] of [sailing-proto/src/multi/engine/mod.rs]: the hard state
    and the snapshot slot, each with a submit-visible and a durable copy that
    meet at the engine's barrier, and the single-slot snapshot staging. *)

From S2P Require Import Prelude Bytes Num Conf Staging Entry Storage.

Inductive EngineStorageError := StagingUnallocatable (total_len : u64).

Section engine_stable.
Context {I : Type} `{!NodeId I}.
(** The allocator's answer to the staging buffer's reservation. *)
Context (alloc : N → bool).

Record EngineStable := {
  es_visible : HardState I;
  es_durable : HardState I;
  es_snapshot : option (SnapshotMeta I * bytes);
  es_durable_snapshot : option (SnapshotMeta I);
  es_staged : list StableDone;
  es_ready : list StableDone;
  es_staging : option (SnapshotMeta I * SnapshotStaging);
  es_staging_cap : u64;
  es_visible_meta_gen : u64;
  es_durable_meta_gen : u64;
}.

Definition EngineStable_new (staging_cap : u64) : EngineStable :=
  {| es_visible := HardState_initial; es_durable := HardState_initial; es_snapshot := None;
     es_durable_snapshot := None; es_staged := []; es_ready := []; es_staging := None;
     es_staging_cap := staging_cap; es_visible_meta_gen := 0; es_durable_meta_gen := 0 |}.

Definition EngineStable_meta_ceiling (s : EngineStable) : u64 :=
  N.max (es_visible_meta_gen s) (es_durable_meta_gen s).

Definition EngineStable_release_staged (s : EngineStable) : nat * EngineStable :=
  if bool_decide (es_staged s = []) then (0%nat, s)
  else
    (length (es_staged s),
     {| es_visible := es_visible s; es_durable := es_visible s; es_snapshot := es_snapshot s;
        es_durable_snapshot := fst <$> es_snapshot s; es_staged := [];
        es_ready := es_ready s ++ es_staged s; es_staging := es_staging s;
        es_staging_cap := es_staging_cap s; es_visible_meta_gen := es_visible_meta_gen s;
        es_durable_meta_gen := es_visible_meta_gen s |}).

Definition EngineStable_has_staged (s : EngineStable) : bool :=
  negb (bool_decide (es_staged s = [])).

Definition EngineStable_submit_write (id : OpId) (h : HardState I) (s : EngineStable)
  : EngineStable :=
  {| es_visible := h; es_durable := es_durable s; es_snapshot := es_snapshot s;
     es_durable_snapshot := es_durable_snapshot s; es_staged := es_staged s ++ [Wrote id];
     es_ready := es_ready s; es_staging := es_staging s; es_staging_cap := es_staging_cap s;
     es_visible_meta_gen := es_visible_meta_gen s; es_durable_meta_gen := es_durable_meta_gen s |}.

Definition EngineStable_submit_snapshot (id : OpId) (meta : SnapshotMeta I) (data : bytes)
    (s : EngineStable) : EngineStable :=
  {| es_visible := es_visible s; es_durable := es_durable s; es_snapshot := Some (meta, data);
     es_durable_snapshot := es_durable_snapshot s;
     es_staged := es_staged s ++ [SnapshotWritten id]; es_ready := es_ready s;
     es_staging := es_staging s; es_staging_cap := es_staging_cap s;
     es_visible_meta_gen := sm_shape_gen meta; es_durable_meta_gen := es_durable_meta_gen s |}.

Definition EngineStable_with_staging (st : option (SnapshotMeta I * SnapshotStaging))
    (s : EngineStable) : EngineStable :=
  {| es_visible := es_visible s; es_durable := es_durable s; es_snapshot := es_snapshot s;
     es_durable_snapshot := es_durable_snapshot s; es_staged := es_staged s;
     es_ready := es_ready s; es_staging := st; es_staging_cap := es_staging_cap s;
     es_visible_meta_gen := es_visible_meta_gen s; es_durable_meta_gen := es_durable_meta_gen s |}.

Definition EngineStable_snapshot_chunk (s : EngineStable) (offset len : u64)
  : option (result (SnapshotMeta I * u64 * SnapshotChunkRead) EngineStorageError) :=
  match es_snapshot s with
  | None => None
  | Some (meta, blob) =>
      let '(total, chunk) := resident_snapshot_chunk blob offset len in
      Some (Ok (meta, total, ChunkReady chunk))
  end.

Definition EngineStable_accept_snapshot_chunk (meta : SnapshotMeta I) (total_len offset : u64)
    (data : bytes) (s : EngineStable) : result u64 EngineStorageError * EngineStable :=
  let boundary := sm_last_index meta in
  let older := match es_staging s with
               | Some (m, _) => boundary <? sm_last_index m
               | None => false
               end in
  if older then (Ok 0, s)
  else
    let kept := match es_staging s with
                | Some (m, st) =>
                    if negb (SnapshotMeta_identity_eq m meta)
                       || negb (SnapshotStaging_total_len st =? total_len)
                    then None else Some (m, st)
                | None => None
                end in
    let staging := match kept with
                   | Some p => Some p
                   | None =>
                       match SnapshotStaging_new alloc boundary total_len (es_staging_cap s) with
                       | Some st => Some (meta, st)
                       | None => None
                       end
                   end in
    match staging with
    | None =>
        (Err (StagingUnallocatable total_len), EngineStable_with_staging None s)
    | Some (m, st) =>
        match SnapshotStaging_accept offset data st with
        | (Some c, st) => (Ok c, EngineStable_with_staging (Some (m, st)) s)
        | (None, _) => (Ok 0, EngineStable_with_staging None s)
        end
    end.

Definition EngineStable_take_staged_snapshot (meta : SnapshotMeta I) (s : EngineStable)
  : option bytes * EngineStable :=
  match es_staging s with
  | Some (m, st) =>
      if SnapshotMeta_identity_eq m meta && SnapshotStaging_is_complete st
      then (Some (st_buf st), EngineStable_with_staging None s)
      else (None, s)
  | None => (None, s)
  end.

Definition EngineStable_poll (s : EngineStable) : option StableDone * EngineStable :=
  match es_ready s with
  | [] => (None, s)
  | d :: ready =>
      (Some d,
       {| es_visible := es_visible s; es_durable := es_durable s; es_snapshot := es_snapshot s;
          es_durable_snapshot := es_durable_snapshot s; es_staged := es_staged s;
          es_ready := ready; es_staging := es_staging s; es_staging_cap := es_staging_cap s;
          es_visible_meta_gen := es_visible_meta_gen s;
          es_durable_meta_gen := es_durable_meta_gen s |})
  end.

Definition EngineStable_has_pending (s : EngineStable) : bool :=
  negb (bool_decide (es_ready s = [])).

#[global] Instance EngineStable_StableStore : StableStore I EngineStable := {|
  stable_error := EngineStorageError;
  stable_hard_state := es_durable;
  stable_durable_hard_state := λ _, None;
  stable_submit_write := EngineStable_submit_write;
  stable_submit_snapshot := EngineStable_submit_snapshot;
  stable_snapshot := es_snapshot;
  stable_durable_snapshot := es_durable_snapshot;
  stable_snapshot_chunk := EngineStable_snapshot_chunk;
  stable_accept_snapshot_chunk := EngineStable_accept_snapshot_chunk;
  stable_take_staged_snapshot := EngineStable_take_staged_snapshot;
  stable_discard_snapshot_staging := EngineStable_with_staging None;
  stable_poll := λ s, let '(d, s) := EngineStable_poll s in (Ok <$> d, s);
  stable_has_pending := EngineStable_has_pending;
|}.

#[global, program] Instance EngineStable_laws : StableStoreLaws I EngineStable := {|
  stable_durable := es_durable;
|}.
Next Obligation. done. Qed.
Next Obligation. done. Qed.
Next Obligation. done. Qed.
Next Obligation. done. Qed.
Next Obligation.
  intros s. cbn. unfold EngineStable_has_pending, EngineStable_poll.
  rewrite negb_true_iff, bool_decide_eq_false. by destruct (es_ready s).
Qed.

(** ** The specification: a queue of submissions with two cursors

    Everything the store shows is a function of the submissions made so far,
    how many of them the barrier has covered, and how many completions have
    been polled. *)

Inductive StableSub :=
  | SubWrite (id : OpId) (h : HardState I)
  | SubSnapshot (id : OpId) (m : SnapshotMeta I) (d : bytes).

Definition sub_done (s : StableSub) : StableDone :=
  match s with SubWrite id _ => Wrote id | SubSnapshot id _ _ => SnapshotWritten id end.

Definition last_write : list StableSub → HardState I :=
  foldl (λ h s, match s with SubWrite _ h' => h' | SubSnapshot _ _ _ => h end) HardState_initial.

Definition last_snapshot : list StableSub → option (SnapshotMeta I * bytes) :=
  foldl (λ o s, match s with SubWrite _ _ => o | SubSnapshot _ m d => Some (m, d) end) None.

Record StableSpec := { ss_subs : list StableSub; ss_released : nat; ss_polled : nat }.

Inductive StableOp :=
  | SoSubmit (s : StableSub)
  | SoFlush
  | SoPoll
  | SoAccept (m : SnapshotMeta I) (total_len offset : u64) (d : bytes)
  | SoTake (m : SnapshotMeta I)
  | SoDiscard.

Definition stable_apply (s : EngineStable) (o : StableOp) : EngineStable :=
  match o with
  | SoSubmit (SubWrite id h) => EngineStable_submit_write id h s
  | SoSubmit (SubSnapshot id m d) => EngineStable_submit_snapshot id m d s
  | SoFlush => (EngineStable_release_staged s).2
  | SoPoll => (EngineStable_poll s).2
  | SoAccept m total offset d => (EngineStable_accept_snapshot_chunk m total offset d s).2
  | SoTake m => (EngineStable_take_staged_snapshot m s).2
  | SoDiscard => EngineStable_with_staging None s
  end.

Definition spec_apply (g : StableSpec) (o : StableOp) : StableSpec :=
  match o with
  | SoSubmit s => {| ss_subs := ss_subs g ++ [s]; ss_released := ss_released g;
                     ss_polled := ss_polled g |}
  | SoFlush => {| ss_subs := ss_subs g; ss_released := length (ss_subs g);
                  ss_polled := ss_polled g |}
  | SoPoll => {| ss_subs := ss_subs g; ss_released := ss_released g;
                 ss_polled := Nat.min (S (ss_polled g)) (ss_released g) |}
  | _ => g
  end.

Definition meta_gen (o : option (SnapshotMeta I)) : u64 := from_option sm_shape_gen 0 o.

Record stable_rel (g : StableSpec) (s : EngineStable) : Prop := {
  sr_bounds : (ss_polled g ≤ ss_released g ≤ length (ss_subs g))%nat;
  sr_visible : es_visible s = last_write (ss_subs g);
  sr_durable : es_durable s = last_write (take (ss_released g) (ss_subs g));
  sr_snapshot : es_snapshot s = last_snapshot (ss_subs g);
  sr_durable_snapshot :
    es_durable_snapshot s = fst <$> last_snapshot (take (ss_released g) (ss_subs g));
  sr_staged : es_staged s = sub_done <$> drop (ss_released g) (ss_subs g);
  sr_ready :
    es_ready s = sub_done <$> drop (ss_polled g) (take (ss_released g) (ss_subs g));
  sr_visible_gen : es_visible_meta_gen s = meta_gen (fst <$> es_snapshot s);
  sr_durable_gen : es_durable_meta_gen s = meta_gen (es_durable_snapshot s);
}.

Lemma stable_rel_staging g s st : stable_rel g s → stable_rel g (EngineStable_with_staging st s).
Proof. intros []. by split. Qed.

Lemma stable_rel_submit g s sub :
  stable_rel g s → stable_rel (spec_apply g (SoSubmit sub)) (stable_apply s (SoSubmit sub)).
Proof.
  intros [Hb Hv Hd Hs Hds Hst Hr Hvg Hdg]. split; cbn [spec_apply ss_subs ss_released ss_polled].
  1: rewrite length_app; lia.
  all: rewrite ?take_app_le, ?drop_app_le by lia; rewrite ?fmap_app.
  all: unfold last_write, last_snapshot; rewrite ?foldl_app; destruct sub; cbn; try done.
  all: by rewrite Hst.
Qed.

Lemma stable_rel_flush g s :
  stable_rel g s → stable_rel (spec_apply g SoFlush) (stable_apply s SoFlush).
Proof.
  intros H. pose proof H as [Hb Hv Hd Hs Hds Hst Hr Hvg Hdg]. cbn [stable_apply spec_apply].
  unfold EngineStable_release_staged. case_bool_decide as Hnil; cbn [snd].
  - rewrite Hnil in Hst. symmetry in Hst. apply fmap_nil_inv in Hst.
    apply (f_equal length) in Hst. rewrite length_drop in Hst. cbn in Hst.
    assert (ss_released g = length (ss_subs g)) as Hrel by lia.
    rewrite <- Hrel. by destruct g.
  - split; cbn; rewrite ?take_ge, ?drop_ge by lia; try done; [lia| |].
    + by rewrite Hs.
    + rewrite Hr, Hst, <- fmap_app. f_equal.
      rewrite <- drop_app_le, take_drop by (rewrite length_take; lia). done.
Qed.

Lemma stable_rel_poll g s :
  stable_rel g s →
  stable_rel (spec_apply g SoPoll) (stable_apply s SoPoll)
  ∧ (EngineStable_poll s).1 =
      (if decide (ss_polled g < ss_released g)%nat then sub_done <$> ss_subs g !! ss_polled g
       else None).
Proof.
  intros Hrel. pose proof Hrel as [Hb Hv Hd Hs Hds Hst Hr Hvg Hdg].
  cbn [stable_apply spec_apply]. unfold EngineStable_poll. case_decide as Hlt.
  - destruct (lookup_lt_is_Some_2 (ss_subs g) (ss_polled g)) as [x Hx]; [lia|].
    rewrite (drop_S _ x) in Hr by (rewrite lookup_take_lt; [done|lia]).
    cbn [fmap list_fmap] in Hr. rewrite Hr, Hx. cbn [fst snd]. split; [|done].
    split; cbn [ss_subs ss_released ss_polled es_ready]; try done; [lia|].
    by replace (S (ss_polled g) `min` ss_released g)%nat with (S (ss_polled g)) by lia.
  - rewrite drop_ge in Hr by (rewrite length_take; lia). cbn in Hr. rewrite Hr. cbn [fst snd].
    split; [|done]. replace (S (ss_polled g) `min` ss_released g)%nat with (ss_polled g) by lia.
    by destruct g.
Qed.

Lemma stable_rel_apply g s o : stable_rel g s → stable_rel (spec_apply g o) (stable_apply s o).
Proof.
  intros Hrel. destruct o as [sub| | |m total offset d|m|]; cbn [spec_apply].
  - by apply stable_rel_submit.
  - by apply stable_rel_flush.
  - by apply stable_rel_poll.
  - cbn [stable_apply]. unfold EngineStable_accept_snapshot_chunk.
    repeat case_match; simplify_eq/=; auto using stable_rel_staging.
  - cbn [stable_apply]. unfold EngineStable_take_staged_snapshot.
    repeat case_match; simplify_eq/=; auto using stable_rel_staging.
  - by apply stable_rel_staging.
Qed.

Lemma stable_rel_run os g s :
  stable_rel g s → stable_rel (foldl spec_apply g os) (foldl stable_apply s os).
Proof. revert g s. induction os; intros g s H; cbn; eauto using stable_rel_apply. Qed.

Definition spec_new : StableSpec := {| ss_subs := []; ss_released := 0; ss_polled := 0 |}.

Lemma stable_rel_new cap : stable_rel spec_new (EngineStable_new cap).
Proof. by split; cbn. Qed.

(** C36: after any interleaving of submissions, barriers, polls and staging
    calls, the engine's stable store is the queue of its submissions with two
    cursors.  [hard_state()] is the last write the barrier has covered and
    [snapshot()] the last submitted one, while [durable_snapshot()] is the last
    covered; every submission completes exactly once, in submission order, and
    only after the barrier that makes it durable; the removal ceiling reads the
    generations of the two current snapshot slots. *)
Theorem engine_stable_refines cap os :
  let s := foldl stable_apply (EngineStable_new cap) os in
  let g := foldl spec_apply spec_new os in
  let covered := take (ss_released g) (ss_subs g) in
  (ss_polled g ≤ ss_released g ≤ length (ss_subs g))%nat
  ∧ stable_hard_state s = last_write covered
  ∧ stable_snapshot s = last_snapshot (ss_subs g)
  ∧ stable_durable_snapshot s = fst <$> last_snapshot covered
  ∧ (stable_poll s).1 = Ok <$> (sub_done <$> drop (ss_polled g) covered) !! 0%nat
  ∧ (sub_done <$> take (ss_polled g) (ss_subs g)) ++ es_ready s ++ es_staged s
    = sub_done <$> ss_subs g
  ∧ EngineStable_meta_ceiling s =
      N.max (meta_gen (fst <$> last_snapshot (ss_subs g))) (meta_gen (fst <$> last_snapshot covered)).
Proof.
  intros s g cov. pose proof (stable_rel_run os _ _ (stable_rel_new cap)) as Hrel.
  fold s g in Hrel. pose proof Hrel as [Hb Hv Hd Hs Hds Hst Hr Hvg Hdg].
  split; [done|]. split_and!; try done.
  - fold cov in Hr. rewrite <- Hr. cbn. unfold EngineStable_poll. by destruct (es_ready s).
  - rewrite Hr, Hst, <- !fmap_app. f_equal. apply take_drop_between. lia.
  - unfold EngineStable_meta_ceiling. by rewrite Hvg, Hdg, Hs, Hds.
Qed.
End engine_stable.

Arguments EngineStable I {_}.
Arguments StableSub I {_}.
Arguments StableOp I {_}.

(** * Ordered durability of hard-state writes

    What [sailing-proto/src/storage.rs] promises of [StableStore::submit_write]:
    submitted hard states become durable in the order they were submitted, a
    crash keeps a prefix of them, and a completion is reported only for a write
    that is durable.  [WriteView] is the abstract store, [StableWriteLaws] the
    promise, and the group engine's stable store keeps it. *)

Section view.
Context {I : Type}.

(** The durable hard state, the writes submitted after it, and the durable
    writes whose completion may still be reported. *)
Record WriteView := {
  wv_durable : HardState I;
  wv_unflushed : list (OpId * HardState I);
  wv_done : list (OpId * HardState I);
}.

Definition wv_submit (id : OpId) (h : HardState I) (v : WriteView) : WriteView :=
  {| wv_durable := wv_durable v; wv_unflushed := wv_unflushed v ++ [(id, h)];
     wv_done := wv_done v |}.

(** The last write of a list, or what was there before. *)
Definition wv_last (h : HardState I) (l : list (OpId * HardState I)) : HardState I :=
  default h (snd <$> last l).

Definition wv_visible (v : WriteView) : HardState I := wv_last (wv_durable v) (wv_unflushed v).

(** The oldest [k] writes reach the disk. *)
Definition wv_flush (k : nat) (v : WriteView) : WriteView :=
  {| wv_durable := wv_last (wv_durable v) (take k (wv_unflushed v));
     wv_unflushed := drop k (wv_unflushed v);
     wv_done := wv_done v ++ take k (wv_unflushed v) |}.

(** A crash loses what was not durable, and any of the reports. *)
Definition wv_crash (done : list (OpId * HardState I)) (v : WriteView) : WriteView :=
  {| wv_durable := wv_durable v; wv_unflushed := []; wv_done := done |}.

Lemma wv_flush_all v k :
  (length (wv_unflushed v) ≤ k)%nat →
  wv_flush k v = {| wv_durable := wv_visible v; wv_unflushed := [];
                    wv_done := wv_done v ++ wv_unflushed v |}.
Proof. intros Hk. unfold wv_flush, wv_visible. by rewrite take_ge, drop_ge. Qed.

Lemma wv_visible_submit id h v : wv_visible (wv_submit id h v) = h.
Proof. unfold wv_visible, wv_last, wv_submit. cbn. by rewrite last_snoc. Qed.
End view.
Arguments WriteView I : clear implicits.

Class StableWriteLaws (I : Type) `{!NodeId I} (S : Type) `{!StableStore I S} := {
  stable_models : S → WriteView I → Prop;
  models_submit : ∀ s v id h,
    stable_models s v → stable_models (stable_submit_write id h s) (wv_submit id h v);
  (* a completion is reported for a durable write only *)
  models_poll : ∀ s v, stable_models s v → stable_models (stable_poll s).2 v;
  models_poll_wrote : ∀ s v id,
    stable_models s v → (stable_poll s).1 = Some (Ok (Wrote id)) → id ∈ (wv_done v).*1;
  models_probe : ∀ s v h,
    stable_models s v → stable_durable_hard_state s = Some h → h = wv_durable v;
  (* with nothing on its way, the hard state shown is the durable one *)
  models_hard_state : ∀ s v,
    stable_models s v → wv_unflushed v = [] → stable_hard_state s = wv_durable v;
  (* snapshots are kept apart from the hard state *)
  models_snapshot : ∀ s v id m d,
    stable_models s v → stable_models (stable_submit_snapshot id m d s) v;
  models_accept : ∀ s v m t o d,
    stable_models s v → stable_models (stable_accept_snapshot_chunk m t o d s).2 v;
  models_take : ∀ s v m, stable_models s v → stable_models (stable_take_staged_snapshot m s).2 v;
  models_discard : ∀ s v, stable_models s v → stable_models (stable_discard_snapshot_staging s) v;
}.

(** ** The group engine's stable store *)

Section engine.
Context {I : Type} `{!NodeId I} (alloc : N → bool).
Implicit Types (s : EngineStable I) (v : WriteView I).

Record es_models s v : Prop := {
  esm_durable : es_durable s = wv_durable v;
  esm_visible : es_visible s = wv_visible v;
  esm_staged : ∀ id, Wrote id ∈ es_staged s → id ∈ (wv_unflushed v).*1;
  esm_nothing : es_staged s = [] → wv_unflushed v = [];
  esm_ready : ∀ id, Wrote id ∈ es_ready s → id ∈ (wv_done v).*1;
}.

Lemma es_models_submit s v id h :
  es_models s v → es_models (EngineStable_submit_write id h s) (wv_submit id h v).
Proof.
  intros []. constructor; cbn [EngineStable_submit_write es_durable es_visible es_staged es_ready
    wv_submit wv_durable wv_unflushed wv_done]; try done.
  - by rewrite wv_visible_submit.
  - intros id'. rewrite fmap_app. set_solver.
  - by destruct (es_staged s).
Qed.

Lemma es_models_poll s v : es_models s v → es_models (EngineStable_poll s).2 v.
Proof.
  intros Hm. unfold EngineStable_poll. pose proof (esm_ready s v Hm) as Hready.
  destruct (es_ready s) as [|d ready]; [done|].
  destruct Hm. constructor; try done. cbn [snd es_ready]. set_solver.
Qed.

Lemma es_models_staging s v st : es_models s v → es_models (EngineStable_with_staging st s) v.
Proof. by intros []. Qed.

Lemma es_models_submit_snapshot s v id m d :
  es_models s v → es_models (EngineStable_submit_snapshot id m d s) v.
Proof.
  intros []. constructor; cbn [EngineStable_submit_snapshot es_durable es_visible es_staged es_ready];
    try done; [set_solver|]. by destruct (es_staged s).
Qed.

(** The engine's barrier makes every submitted write durable. *)
Lemma es_models_flush s v :
  es_models s v →
  es_models (EngineStable_release_staged s).2 (wv_flush (length (wv_unflushed v)) v).
Proof.
  intros [Hd Hv Hs Hn Hr]. rewrite wv_flush_all by done. unfold EngineStable_release_staged.
  case_bool_decide as Hst; cbn [snd].
  - rewrite (Hn Hst), app_nil_r. unfold wv_visible in *. rewrite (Hn Hst) in *.
    by constructor.
  - constructor; cbn [es_durable es_visible es_staged es_ready wv_durable wv_unflushed wv_done];
      try done.
    + intros id Hid%elem_of_nil. done.
    + intros id. rewrite fmap_app, !elem_of_app. intros [?|?]; auto.
Qed.

#[global, program] Instance EngineStable_StableWriteLaws :
  @StableWriteLaws I _ (EngineStable I) (EngineStable_StableStore alloc) :=
  {| stable_models := es_models |}.
Next Obligation. intros. by apply es_models_submit. Qed.
Next Obligation.
  intros s v Hm. pose proof (es_models_poll s v Hm) as Hp. simpl.
  by destruct (EngineStable_poll s) as [[]].
Qed.
Next Obligation.
  intros s v id Hm. simpl. unfold EngineStable_poll. pose proof (esm_ready s v Hm id) as Hr.
  destruct (es_ready s); cbn; [done|]. intros [= ->]. apply Hr. set_solver.
Qed.
Next Obligation. done. Qed.
Next Obligation. intros s v Hm _. exact (esm_durable s v Hm). Qed.
Next Obligation. intros. by apply es_models_submit_snapshot. Qed.
Next Obligation.
  intros s v m t o d Hm. simpl. unfold EngineStable_accept_snapshot_chunk.
  repeat case_match; cbn [snd]; auto using es_models_staging.
Qed.
Next Obligation.
  intros s v m Hm. simpl. unfold EngineStable_take_staged_snapshot.
  repeat case_match; cbn [snd]; auto using es_models_staging.
Qed.
Next Obligation. intros. simpl. by apply es_models_staging. Qed.
End engine.
