(* ===== verification/GroupEngine.v ===== *)
(** * The group engine

    [GroupEngine] of [sailing-proto/src/multi/engine/mod.rs]: every co-located
    group's stores, one barrier over all of them, and the per-id records that
    outlive the stores (lineage, admission floor, removal ceiling, boot epoch).
    A [BTreeMap] is a finite map; the order of its iteration shows in nothing
    the engine computes. *)

From S2P Require Import Prelude Bytes Num Conf Entry Storage Shape EngineLog EngineStable.

Record LineageRecord := { lr_generation : u64; lr_floor : u64; lr_ceiling : u64 }.

Definition LineageRecord_default : LineageRecord :=
  {| lr_generation := 0; lr_floor := 0; lr_ceiling := 0 |}.

Definition LineageRecord_fold (other self : LineageRecord) : LineageRecord :=
  {| lr_generation := N.max (lr_generation self) (lr_generation other);
     lr_floor := N.max (lr_floor self) (lr_floor other);
     lr_ceiling := N.max (lr_ceiling self) (lr_ceiling other) |}.

Section group_engine.
Context {BD : BuffaDecode} {I : Type} `{!NodeId I} {G : Type} `{!NodeId G}.
Context (alloc : N → bool).

Record GroupStorage := { gs_log : EngineLog; gs_stable : EngineStable I }.

Definition GroupStorage_new (staging_cap : u64) : GroupStorage :=
  {| gs_log := EngineLog_new; gs_stable := EngineStable_new staging_cap |}.

Record GroupEngine := {
  ge_groups : gmap G GroupStorage;
  ge_lineage : gmap G LineageRecord;
  ge_lineage_staged : gmap G LineageRecord;
  ge_boot_epochs : gmap G u64;
  ge_barriers : u64;
  ge_ops_batched : u64;
  ge_staging_cap : u64;
}.

Definition GroupEngine_new : GroupEngine :=
  {| ge_groups := ∅; ge_lineage := ∅; ge_lineage_staged := ∅; ge_boot_epochs := ∅;
     ge_barriers := 0; ge_ops_batched := 0; ge_staging_cap := u64_max |}.

Definition with_groups (m : gmap G GroupStorage) (e : GroupEngine) : GroupEngine :=
  {| ge_groups := m; ge_lineage := ge_lineage e; ge_lineage_staged := ge_lineage_staged e;
     ge_boot_epochs := ge_boot_epochs e; ge_barriers := ge_barriers e;
     ge_ops_batched := ge_ops_batched e; ge_staging_cap := ge_staging_cap e |}.

Definition with_lineage_staged (m : gmap G LineageRecord) (e : GroupEngine) : GroupEngine :=
  {| ge_groups := ge_groups e; ge_lineage := ge_lineage e; ge_lineage_staged := m;
     ge_boot_epochs := ge_boot_epochs e; ge_barriers := ge_barriers e;
     ge_ops_batched := ge_ops_batched e; ge_staging_cap := ge_staging_cap e |}.

Definition EngineStable_set_cap (cap : u64) (s : EngineStable I) : EngineStable I :=
  {| es_visible := es_visible s; es_durable := es_durable s; es_snapshot := es_snapshot s;
     es_durable_snapshot := es_durable_snapshot s; es_staged := es_staged s;
     es_ready := es_ready s; es_staging := es_staging s; es_staging_cap := cap;
     es_visible_meta_gen := es_visible_meta_gen s; es_durable_meta_gen := es_durable_meta_gen s |}.

Definition GroupEngine_set_snapshot_staging_cap (cap : u64) (e : GroupEngine) : GroupEngine :=
  {| ge_groups := (λ st, {| gs_log := gs_log st;
                            gs_stable := EngineStable_set_cap cap (gs_stable st) |})
                  <$> ge_groups e;
     ge_lineage := ge_lineage e; ge_lineage_staged := ge_lineage_staged e;
     ge_boot_epochs := ge_boot_epochs e; ge_barriers := ge_barriers e;
     ge_ops_batched := ge_ops_batched e; ge_staging_cap := cap |}.

Definition GroupEngine_has_staged (e : GroupEngine) : bool :=
  existsb (λ st, EngineLog_has_staged (gs_log st) || EngineStable_has_staged (gs_stable st))
    (map_to_list (ge_groups e)).*2
  || negb (bool_decide (ge_lineage_staged e = ∅)).

(** [lineage.entry(gid).or_default().fold(staged)]. *)
Definition fold_record (gid : G) (staged : LineageRecord) (m : gmap G LineageRecord)
  : gmap G LineageRecord :=
  <[gid := LineageRecord_fold staged (default LineageRecord_default (m !! gid))]> m.

Definition GroupStorage_release (st : GroupStorage) : nat * GroupStorage :=
  let '(n, l) := EngineLog_release_staged (gs_log st) in
  let '(k, s) := EngineStable_release_staged (gs_stable st) in
  ((n + k)%nat, {| gs_log := l; gs_stable := s |}).

Definition GroupEngine_flush (e : GroupEngine) : nat * GroupEngine :=
  let released :=
    (map_fold (λ _ st n, n + (GroupStorage_release st).1) 0 (ge_groups e)
     + size (ge_lineage_staged e))%nat in
  (released,
   {| ge_groups := (λ st, (GroupStorage_release st).2) <$> ge_groups e;
      ge_lineage := map_fold fold_record (ge_lineage e) (ge_lineage_staged e);
      ge_lineage_staged := ∅;
      ge_boot_epochs := ge_boot_epochs e;
      ge_barriers := ge_barriers e + 1;
      ge_ops_batched := ge_ops_batched e + N.of_nat released;
      ge_staging_cap := ge_staging_cap e |}).

Definition GroupEngine_add_group (gid : G) (e : GroupEngine) : bool * GroupEngine :=
  match ge_groups e !! gid with
  | Some _ => (false, e)
  | None => (true, with_groups (<[gid := GroupStorage_new (ge_staging_cap e)]> (ge_groups e)) e)
  end.

(** [lineage_staged.entry(gid).or_default()], updated in place. *)
Definition stage_record (gid : G) (f : LineageRecord → LineageRecord) (e : GroupEngine)
  : GroupEngine :=
  with_lineage_staged
    (<[gid := f (default LineageRecord_default (ge_lineage_staged e !! gid))]>
       (ge_lineage_staged e)) e.

Definition raise_ceiling (c : u64) (r : LineageRecord) : LineageRecord :=
  {| lr_generation := lr_generation r; lr_floor := lr_floor r; lr_ceiling := N.max (lr_ceiling r) c |}.
Definition raise_floor (f : u64) (r : LineageRecord) : LineageRecord :=
  {| lr_generation := lr_generation r; lr_floor := N.max (lr_floor r) f; lr_ceiling := lr_ceiling r |}.
Definition raise_generation (g : u64) (r : LineageRecord) : LineageRecord :=
  {| lr_generation := N.max (lr_generation r) g; lr_floor := lr_floor r; lr_ceiling := lr_ceiling r |}.

Definition GroupEngine_remove_group (gid : G) (e : GroupEngine) : bool * GroupEngine :=
  match ge_groups e !! gid with
  | None => (false, e)
  | Some storage =>
      let e := with_groups (delete gid (ge_groups e)) e in
      let inherited := N.max (EngineLog_shape_ceiling (gs_log storage))
                             (EngineStable_meta_ceiling (gs_stable storage)) in
      (true, if inherited =? 0 then e else stage_record gid (raise_ceiling inherited) e)
  end.

Definition GroupEngine_next_boot_epoch (gid : G) (e : GroupEngine) : option u64 * GroupEngine :=
  match ge_groups e !! gid with
  | None => (None, e)
  | Some _ =>
      let counter := default 0 (ge_boot_epochs e !! gid) in
      match checked_add counter 1 with
      | Some next =>
          (Some next,
           {| ge_groups := ge_groups e; ge_lineage := ge_lineage e;
              ge_lineage_staged := ge_lineage_staged e;
              ge_boot_epochs := <[gid := next]> (ge_boot_epochs e);
              ge_barriers := ge_barriers e; ge_ops_batched := ge_ops_batched e;
              ge_staging_cap := ge_staging_cap e |})
      | None =>
          (None,
           {| ge_groups := ge_groups e; ge_lineage := ge_lineage e;
              ge_lineage_staged := ge_lineage_staged e;
              ge_boot_epochs := <[gid := counter]> (ge_boot_epochs e);
              ge_barriers := ge_barriers e; ge_ops_batched := ge_ops_batched e;
              ge_staging_cap := ge_staging_cap e |})
      end
  end.

(** The staged-over-durable read of one field of an id's record. *)
Definition record_read (f : LineageRecord → u64) (e : GroupEngine) (gid : G) : u64 :=
  N.max (from_option f 0 (ge_lineage e !! gid)) (from_option f 0 (ge_lineage_staged e !! gid)).

Definition GroupEngine_group_floor : GroupEngine → G → u64 := record_read lr_floor.
Definition GroupEngine_group_gen : GroupEngine → G → u64 := record_read lr_generation.

Definition GroupEngine_set_group_floor (gid : G) (floor : u64) (e : GroupEngine) : GroupEngine :=
  if floor =? 0 then e else stage_record gid (raise_floor floor) e.

Definition GroupEngine_set_group_gen (gid : G) (generation : u64) (e : GroupEngine) : GroupEngine :=
  if generation =? 0 then e else stage_record gid (raise_generation generation) e.

Definition GroupEngine_removal_floor (e : GroupEngine) (gid : G) : u64 :=
  let storage := ge_groups e !! gid in
  let faulted := match storage with
                 | Some st => EngineLog_shape_faulted (gs_log st)
                 | None => false
                 end in
  if faulted then HIGHEST_WORKING_GENERATION
  else
    let ceiling := N.max (GroupEngine_group_gen e gid) (record_read lr_ceiling e gid) in
    let ceiling := match storage with
                   | Some st => N.max (N.max ceiling (EngineLog_shape_ceiling (gs_log st)))
                                      (EngineStable_meta_ceiling (gs_stable st))
                   | None => ceiling
                   end in
    if ceiling =? 0 then 0 else N.min (saturating_add ceiling 1) HIGHEST_WORKING_GENERATION.

(** ** Reachable engines

    A step is one call on the engine or on a hosted group's stores; the label
    is the boot epoch it issued, if any.  The callers' half of the contract is
    in the premises: a lineage counter and a snapshot's shape generation are
    working generations. *)

Definition stable_op_ok (o : StableOp I) : Prop :=
  match o with
  | SoSubmit (SubSnapshot _ m _) => sm_shape_gen m < HIGHEST_WORKING_GENERATION
  | _ => True
  end.

Definition with_log (l : EngineLog) (st : GroupStorage) : GroupStorage :=
  {| gs_log := l; gs_stable := gs_stable st |}.
Definition with_stable (s : EngineStable I) (st : GroupStorage) : GroupStorage :=
  {| gs_log := gs_log st; gs_stable := s |}.

Inductive eng_step : GroupEngine → option (G * u64) → GroupEngine → Prop :=
  | eng_add gid e : eng_step e None (GroupEngine_add_group gid e).2
  | eng_remove gid e : eng_step e None (GroupEngine_remove_group gid e).2
  | eng_epoch gid e :
      eng_step e ((gid,.) <$> (GroupEngine_next_boot_epoch gid e).1)
        (GroupEngine_next_boot_epoch gid e).2
  | eng_floor gid f e : eng_step e None (GroupEngine_set_group_floor gid f e)
  | eng_gen gid g e :
      g < HIGHEST_WORKING_GENERATION → eng_step e None (GroupEngine_set_group_gen gid g e)
  | eng_cap cap e : eng_step e None (GroupEngine_set_snapshot_staging_cap cap e)
  | eng_flush e : eng_step e None (GroupEngine_flush e).2
  | eng_log gid st l e :
      ge_groups e !! gid = Some st → elog_step (gs_log st) l →
      eng_step e None (with_groups (<[gid := with_log l st]> (ge_groups e)) e)
  | eng_stable gid st o e :
      ge_groups e !! gid = Some st → stable_op_ok o →
      eng_step e None
        (with_groups (<[gid := with_stable (stable_apply alloc (gs_stable st) o) st]> (ge_groups e)) e).

(** A run and the epochs it issued, oldest first. *)
Inductive eng_run : GroupEngine → list (G * u64) → GroupEngine → Prop :=
  | run_refl e : eng_run e [] e
  | run_step e issued e1 o e2 :
      eng_run e issued e1 → eng_step e1 o e2 → eng_run e (issued ++ option_list o) e2.

(** *** Records *)

Definition joined_record (e : GroupEngine) (gid : G) : LineageRecord :=
  LineageRecord_fold (default LineageRecord_default (ge_lineage_staged e !! gid))
    (default LineageRecord_default (ge_lineage e !! gid)).

Lemma record_read_joined e gid :
  record_read lr_generation e gid = lr_generation (joined_record e gid)
  ∧ record_read lr_floor e gid = lr_floor (joined_record e gid)
  ∧ record_read lr_ceiling e gid = lr_ceiling (joined_record e gid).
Proof.
  unfold record_read, joined_record.
  by destruct (ge_lineage e !! gid), (ge_lineage_staged e !! gid).
Qed.

Record lr_le (r r' : LineageRecord) : Prop := {
  lrl_generation : lr_generation r ≤ lr_generation r';
  lrl_floor : lr_floor r ≤ lr_floor r';
  lrl_ceiling : lr_ceiling r ≤ lr_ceiling r';
}.

#[global] Instance lr_le_preorder : PreOrder lr_le.
Proof. split; [by intros r; split|]. intros r1 r2 r3 [] []. split; lia. Qed.

Lemma fold_default r : LineageRecord_fold r LineageRecord_default = r.
Proof. destruct r. unfold LineageRecord_fold. cbn -[N.max]. by rewrite !N.max_0_l. Qed.

Lemma default_fold r : LineageRecord_fold LineageRecord_default r = r.
Proof. destruct r. unfold LineageRecord_fold. cbn -[N.max]. by rewrite !N.max_0_r. Qed.

(** The barrier's loop folds each staged record into its own durable slot. *)
Lemma lookup_fold_records (staged m : gmap G LineageRecord) gid :
  map_fold fold_record m staged !! gid =
  match staged !! gid with
  | Some r => Some (LineageRecord_fold r (default LineageRecord_default (m !! gid)))
  | None => m !! gid
  end.
Proof.
  revert gid. apply (map_fold_weak_ind (λ m' staged, ∀ gid, m' !! gid =
    match staged !! gid with
    | Some r => Some (LineageRecord_fold r (default LineageRecord_default (m !! gid)))
    | None => m !! gid
    end)); [done|].
  intros g r staged' m' Hg IH gid. unfold fold_record.
  destruct (decide (g = gid)) as [->|Hne].
  - rewrite !lookup_insert_eq, IH, Hg. done.
  - rewrite !lookup_insert_ne by done. apply IH.
Qed.

Lemma joined_flush e gid : joined_record (GroupEngine_flush e).2 gid = joined_record e gid.
Proof.
  unfold joined_record. cbn [GroupEngine_flush snd ge_lineage ge_lineage_staged].
  rewrite lookup_empty, lookup_fold_records. cbn [default].
  destruct (ge_lineage_staged e !! gid) as [r|]; cbn [default]; by rewrite default_fold.
Qed.

Lemma joined_stage e gid f gid' :
  joined_record (stage_record gid f e) gid' =
  if decide (gid = gid') then
    LineageRecord_fold (f (default LineageRecord_default (ge_lineage_staged e !! gid)))
      (default LineageRecord_default (ge_lineage e !! gid))
  else joined_record e gid'.
Proof.
  unfold joined_record, stage_record. cbn [with_lineage_staged ge_lineage ge_lineage_staged].
  case_decide as Heq; [subst; by rewrite lookup_insert_eq|by rewrite lookup_insert_ne].
Qed.

Lemma joined_stage_le e gid f gid' :
  (∀ r, lr_le r (f r)) → lr_le (joined_record e gid') (joined_record (stage_record gid f e) gid').
Proof.
  intros Hf. rewrite joined_stage. case_decide as Heq; [|done]. subst.
  unfold joined_record. destruct (Hf (default LineageRecord_default (ge_lineage_staged e !! gid'))).
  split; cbn -[N.max]; lia.
Qed.

Lemma joined_groups m e gid : joined_record (with_groups m e) gid = joined_record e gid.
Proof. done. Qed.

Lemma raise_le c r : lr_le r (raise_ceiling c r) ∧ lr_le r (raise_floor c r)
  ∧ lr_le r (raise_generation c r).
Proof. split_and!; split; cbn -[N.max]; lia. Qed.

Lemma joined_step_le e o e' gid :
  eng_step e o e' → lr_le (joined_record e gid) (joined_record e' gid).
Proof.
  destruct 1 as [g e|g e|g e|g f e|g n e _|cap e|e|g st l e _ _|g st op e _ _]; try done.
  - unfold GroupEngine_add_group. by destruct (ge_groups e !! g).
  - unfold GroupEngine_remove_group. destruct (ge_groups e !! g) as [st|]; [|done]. cbn [snd].
    destruct (_ =? 0); [done|]. rewrite <- (joined_groups (delete g (ge_groups e)) e gid).
    apply joined_stage_le. intros r. apply raise_le.
  - unfold GroupEngine_next_boot_epoch. destruct (ge_groups e !! g); [|done].
    by destruct (checked_add _ 1).
  - unfold GroupEngine_set_group_floor. destruct (f =? 0); [done|].
    apply joined_stage_le. intros r. apply raise_le.
  - unfold GroupEngine_set_group_gen. destruct (n =? 0); [done|].
    apply joined_stage_le. intros r. apply raise_le.
  - by rewrite joined_flush.
Qed.

Lemma joined_run_le e issued e' gid :
  eng_run e issued e' → lr_le (joined_record e gid) (joined_record e' gid).
Proof. induction 1; [done|]. etrans; [done|]. by eapply joined_step_le. Qed.

(** *** Boot epochs *)

Definition epoch_of (e : GroupEngine) (gid : G) : u64 := default 0 (ge_boot_epochs e !! gid).

(** A step leaves every counter alone, or issues its successor. *)
Lemma epoch_step e o e' :
  eng_step e o e' →
  (∀ gid, epoch_of e gid ≤ epoch_of e' gid)
  ∧ ∀ gid n, o = Some (gid, n) → epoch_of e gid < n ∧ epoch_of e' gid = n.
Proof.
  destruct 1 as [g e|g e|g e|g f e|g n e _|cap e|e|g st l e _ _|g st op e _ _]; try done.
  - unfold GroupEngine_add_group. by destruct (ge_groups e !! g).
  - unfold GroupEngine_remove_group. destruct (ge_groups e !! g) as [st|]; [|done]. cbn [snd].
    by destruct (_ =? 0).
  - unfold GroupEngine_next_boot_epoch. destruct (ge_groups e !! g); [|done].
    destruct (checked_add _ 1) as [n|] eqn:Hn; cbn [fst snd fmap option_fmap option_map];
      unfold epoch_of; cbn [ge_boot_epochs].
    + apply checked_add_Some in Hn as [-> Hb]. split.
      * intros gid. destruct (decide (g = gid)) as [->|]; [rewrite lookup_insert_eq; apply N.le_add_r|].
        by rewrite lookup_insert_ne.
      * intros gid n [= -> <-]. rewrite lookup_insert_eq. by split; [apply N.lt_add_pos_r|].
    + split; [|done]. intros gid. destruct (decide (g = gid)) as [->|].
      * by rewrite lookup_insert_eq.
      * by rewrite lookup_insert_ne.
  - unfold GroupEngine_set_group_floor. by destruct (f =? 0).
  - unfold GroupEngine_set_group_gen. by destruct (n =? 0).
Qed.

Lemma epoch_run e issued e' :
  eng_run e issued e' →
  (∀ gid, epoch_of e gid ≤ epoch_of e' gid)
  ∧ (∀ gid n, (gid, n) ∈ issued → epoch_of e gid < n ≤ epoch_of e' gid)
  ∧ NoDup issued.
Proof.
  induction 1 as [e|e issued e1 o e2 _ (IH1 & IH2 & IH3) Hs].
  - split_and!; [done| |constructor]. by intros gid n ?%not_elem_of_nil.
  - destruct (epoch_step _ _ _ Hs) as [Hle Hnew]. split_and!.
    + intros gid. etrans; [apply IH1|apply Hle].
    + intros gid n [Hn|Hn]%elem_of_app.
      * destruct (IH2 _ _ Hn). specialize (Hle gid). lia.
      * destruct o as [[g m]|]; cbn in Hn; [|by apply not_elem_of_nil in Hn].
        apply list_elem_of_singleton in Hn as [= -> ->].
        destruct (Hnew g m eq_refl). specialize (IH1 g). lia.
    + apply NoDup_app. split_and!; [done| |destruct o; [apply NoDup_singleton|constructor]].
      intros [gid n] Hold Hin. destruct o as [[g m]|]; cbn in Hin; [|by apply not_elem_of_nil in Hin].
      apply list_elem_of_singleton in Hin as [= -> ->].
      destruct (IH2 _ _ Hold), (Hnew g m eq_refl). lia.
Qed.

(** *** The invariant behind the removal floor *)

Definition working (g : u64) : Prop := g < HIGHEST_WORKING_GENERATION.

Record storage_ok (st : GroupStorage) : Prop := {
  so_log : EngineLog_inv (gs_log st);
  so_visible : es_visible_meta_gen (gs_stable st) = meta_gen (fst <$> es_snapshot (gs_stable st));
  so_durable : es_durable_meta_gen (gs_stable st) = meta_gen (es_durable_snapshot (gs_stable st));
  so_visible_working : working (es_visible_meta_gen (gs_stable st));
  so_durable_working : working (es_durable_meta_gen (gs_stable st));
}.

Definition record_ok (r : LineageRecord) : Prop := working (lr_generation r) ∧ working (lr_ceiling r).

Record eng_inv (e : GroupEngine) : Prop := {
  ei_storage : map_Forall (λ _, storage_ok) (ge_groups e);
  ei_lineage : map_Forall (λ _, record_ok) (ge_lineage e);
  ei_staged : map_Forall (λ _, record_ok) (ge_lineage_staged e);
}.

Lemma storage_ok_new cap : storage_ok (GroupStorage_new cap).
Proof. by split; [apply EngineLog_inv_new|..]. Qed.

Lemma storage_ok_log st l : storage_ok st → elog_step (gs_log st) l → storage_ok (with_log l st).
Proof. intros [] Hs. split; try done. by eapply EngineLog_inv_step. Qed.

Lemma storage_ok_stable st o :
  storage_ok st → stable_op_ok o → storage_ok (with_stable (stable_apply alloc (gs_stable st) o) st).
Proof.
  intros [Hl Hv Hd Hvw Hdw] Ho. destruct o as [[id h|id m d]| | |m total offset d|m|]; cbn; try by split.
  - unfold EngineStable_release_staged. case_bool_decide; by split; cbn.
  - unfold EngineStable_poll. destruct (es_ready _); by split.
  - unfold EngineStable_accept_snapshot_chunk. repeat case_match; by split; simplify_eq/=.
  - unfold EngineStable_take_staged_snapshot. repeat case_match; by split; simplify_eq/=.
Qed.

Lemma storage_ok_release st : storage_ok st → storage_ok (GroupStorage_release st).2.
Proof.
  intros Hok. unfold GroupStorage_release. destruct (EngineLog_release_staged (gs_log st)) as [n l] eqn:Hl.
  destruct (EngineStable_release_staged (gs_stable st)) as [k s] eqn:Hs. cbn [snd].
  assert (l = (EngineLog_release_staged (gs_log st)).2) as -> by by rewrite Hl.
  assert (s = stable_apply alloc (gs_stable (with_log (EngineLog_release_staged (gs_log st)).2 st)) SoFlush)
    as -> by (cbn; by rewrite Hs).
  apply (storage_ok_stable (with_log (EngineLog_release_staged (gs_log st)).2 st) SoFlush); [|done].
  apply storage_ok_log; [done|constructor].
Qed.

Lemma working_shape_ceiling l : EngineLog_inv l → working (EngineLog_shape_ceiling l).
Proof.
  intros Hi. destruct (EngineLog_shape_scan l Hi) as [-> _]. unfold working.
  assert (list_max (omap entry_generation (el_entries l)) ≤ HIGHEST_WORKING_GENERATION - 1);
    [|unfold HIGHEST_WORKING_GENERATION, MERGED_FLOOR, u64_max in *; lia].
  apply list_max_lub, Forall_forall. intros g (e & _ & He)%list_elem_of_omap.
  unfold entry_generation in He. destruct (shape_entry_move e) eqn:Hm; simplify_eq.
  apply shape_entry_move_working in Hm. lia.
Qed.

Lemma working_meta_ceiling st : storage_ok st → working (EngineStable_meta_ceiling (gs_stable st)).
Proof. intros []. unfold EngineStable_meta_ceiling, working in *. lia. Qed.

Lemma record_ok_default : record_ok LineageRecord_default.
Proof. done. Qed.

Lemma record_ok_fold r r' : record_ok r → record_ok r' → record_ok (LineageRecord_fold r r').
Proof. unfold record_ok, working. cbn -[N.max]. lia. Qed.

Lemma record_ok_lookup (m : gmap G LineageRecord) gid :
  map_Forall (λ _, record_ok) m → record_ok (default LineageRecord_default (m !! gid)).
Proof. intros Hm. destruct (m !! gid) eqn:Hg; [by eapply Hm|done]. Qed.

Lemma eng_inv_stage gid f e :
  eng_inv e → (∀ r, record_ok r → record_ok (f r)) → eng_inv (stage_record gid f e).
Proof.
  intros [] Hf. split; try done. apply map_Forall_insert_2; [|done].
  apply Hf. by apply record_ok_lookup.
Qed.

Lemma eng_inv_groups m e : eng_inv e → map_Forall (λ _, storage_ok) m → eng_inv (with_groups m e).
Proof. intros [] Hm. by split. Qed.

Lemma eng_inv_remove gid e : eng_inv e → eng_inv (GroupEngine_remove_group gid e).2.
Proof.
  intros Hi. unfold GroupEngine_remove_group. destruct (ge_groups e !! gid) as [st|] eqn:Hg; [|done].
  pose proof (ei_storage _ Hi _ _ Hg) as Hst. cbn [snd].
  assert (eng_inv (with_groups (delete gid (ge_groups e)) e)) as Hi'.
  { apply eng_inv_groups; [done|]. apply map_Forall_delete, Hi. }
  destruct (_ =? 0); [done|]. apply eng_inv_stage; [done|]. intros r [Hr1 Hr2].
  pose proof (working_shape_ceiling _ (so_log _ Hst)). pose proof (working_meta_ceiling _ Hst).
  unfold record_ok, working in *. cbn -[N.max]. lia.
Qed.

Lemma eng_inv_flush e : eng_inv e → eng_inv (GroupEngine_flush e).2.
Proof.
  intros [Hst Hl Hs]. split; cbn [GroupEngine_flush snd ge_groups ge_lineage ge_lineage_staged].
  - apply map_Forall_fmap. intros gid st Hg. cbn. apply storage_ok_release. by eapply Hst.
  - intros gid r. rewrite lookup_fold_records. destruct (ge_lineage_staged e !! gid) as [r'|] eqn:Hr;
      [intros [= <-]|by apply Hl]. apply record_ok_fold; [by eapply Hs|by apply record_ok_lookup].
  - apply map_Forall_empty.
Qed.

Lemma eng_inv_step e o e' : eng_step e o e' → eng_inv e → eng_inv e'.
Proof.
  destruct 1 as [g e|g e|g e|g f e|g n e Hn|cap e|e|g st l e Hg Hs|g st op e Hg Hop]; intros Hi.
  - unfold GroupEngine_add_group. destruct (ge_groups e !! g); [done|]. apply eng_inv_groups; [done|].
    apply map_Forall_insert_2; [apply storage_ok_new|apply Hi].
  - by apply eng_inv_remove.
  - unfold GroupEngine_next_boot_epoch. destruct Hi, (ge_groups e !! g); [|done].
    by destruct (checked_add _ 1).
  - unfold GroupEngine_set_group_floor. destruct (f =? 0); [done|]. by apply eng_inv_stage.
  - unfold GroupEngine_set_group_gen. destruct (n =? 0); [done|]. apply eng_inv_stage; [done|].
    intros r []. unfold record_ok, working in *. cbn -[N.max]. lia.
  - destruct Hi as [Hst ??]. split; try done. cbn. apply map_Forall_fmap. intros gid st Hg.
    destruct (Hst _ _ Hg). by split.
  - by apply eng_inv_flush.
  - apply eng_inv_groups; [done|]. apply map_Forall_insert_2; [|apply Hi].
    apply storage_ok_log; [by eapply (ei_storage _ Hi)|done].
  - apply eng_inv_groups; [done|]. apply map_Forall_insert_2; [|apply Hi].
    apply storage_ok_stable; [by eapply (ei_storage _ Hi)|done].
Qed.

Lemma eng_inv_run issued e : eng_run GroupEngine_new issued e → eng_inv e.
Proof.
  intros H. assert (eng_inv GroupEngine_new) as Hnew by (split; apply map_Forall_empty).
  induction H; eauto using eng_inv_step.
Qed.

(** *** The removal floor, by scanning *)

(** The highest generation a surviving record, log entry or snapshot slot of
    the id names. *)
Definition removal_scan (e : GroupEngine) (gid : G) : u64 :=
  N.max (N.max (lr_generation (joined_record e gid)) (lr_ceiling (joined_record e gid)))
    match ge_groups e !! gid with
    | Some st =>
        N.max (list_max (omap entry_generation (el_entries (gs_log st))))
          (N.max (meta_gen (fst <$> es_snapshot (gs_stable st)))
                 (meta_gen (es_durable_snapshot (gs_stable st))))
    | None => 0
    end.

(** Whether a surviving entry is one the apply path will refuse. *)
Definition removal_refused (e : GroupEngine) (gid : G) : bool :=
  match ge_groups e !! gid with
  | Some st => existsb entry_refused (el_entries (gs_log st))
  | None => false
  end.

Lemma joined_working e gid : eng_inv e → record_ok (joined_record e gid).
Proof. intros []. apply record_ok_fold; by apply record_ok_lookup. Qed.

Lemma removal_scan_working e gid : eng_inv e → working (removal_scan e gid).
Proof.
  intros Hi. destruct (joined_working e gid Hi). unfold removal_scan, working in *.
  destruct (ge_groups e !! gid) as [st|] eqn:Hg; [|rewrite N.max_0_r; lia].
  destruct (ei_storage _ Hi _ _ Hg) as [Hl Hv Hd Hvw Hdw].
  pose proof (working_shape_ceiling _ Hl) as Hc.
  rewrite (proj1 (EngineLog_shape_scan _ Hl)) in Hc. unfold working in *.
  rewrite Hv in Hvw. rewrite Hd in Hdw. lia.
Qed.

Lemma removal_floor_scan e gid :
  eng_inv e →
  GroupEngine_removal_floor e gid =
  if removal_refused e gid then HIGHEST_WORKING_GENERATION
  else if removal_scan e gid =? 0 then 0 else removal_scan e gid + 1.
Proof.
  intros Hi. pose proof (removal_scan_working e gid Hi) as Hw. revert Hw.
  unfold GroupEngine_removal_floor, removal_refused, removal_scan, GroupEngine_group_gen, working.
  destruct (record_read_joined e gid) as (-> & _ & ->).
  destruct (ge_groups e !! gid) as [st|] eqn:Hg; intros Hw.
  - destruct (ei_storage _ Hi _ _ Hg) as [Hl Hv Hd _ _].
    destruct (EngineLog_shape_scan _ Hl) as [-> ->].
    destruct (existsb entry_refused (el_entries (gs_log st))); [done|].
    unfold EngineStable_meta_ceiling. rewrite Hv, Hd, <- !N.max_assoc.
    rewrite <- !N.max_assoc in Hw. case (N.eqb_spec _ 0); [done|]. intros _.
    unfold saturating_add, HIGHEST_WORKING_GENERATION, MERGED_FLOOR, u64_max in *. lia.
  - rewrite N.max_0_r in *. case (N.eqb_spec _ 0); [done|]. intros _.
    unfold saturating_add, HIGHEST_WORKING_GENERATION, MERGED_FLOOR, u64_max in *. lia.
Qed.

(** What teardown does to the scan: nothing. *)
Lemma removal_scan_remove e gid :
  eng_inv e → removal_scan (GroupEngine_remove_group gid e).2 gid = removal_scan e gid.
Proof.
  intros Hi. unfold GroupEngine_remove_group.
  destruct (ge_groups e !! gid) as [st|] eqn:Hg; [|done]. cbn [snd].
  destruct (ei_storage _ Hi _ _ Hg) as [Hl Hv Hd _ _].
  unfold EngineStable_meta_ceiling. rewrite (proj1 (EngineLog_shape_scan _ Hl)), Hv, Hd.
  unfold removal_scan. rewrite Hg.
  destruct (N.eqb_spec (N.max (list_max (omap entry_generation (el_entries (gs_log st))))
    (N.max (meta_gen (fst <$> es_snapshot (gs_stable st)))
           (meta_gen (es_durable_snapshot (gs_stable st))))) 0) as [H0|H0].
  - rewrite joined_groups. cbn [with_groups ge_groups]. rewrite lookup_delete_eq, H0. done.
  - rewrite joined_stage, decide_True by done.
    cbn [stage_record with_lineage_staged with_groups ge_groups ge_lineage ge_lineage_staged].
    rewrite lookup_delete_eq. unfold joined_record. cbn -[N.max list_max omap]. lia.
Qed.

Lemma removal_refused_remove e gid : removal_refused (GroupEngine_remove_group gid e).2 gid = false.
Proof.
  unfold GroupEngine_remove_group, removal_refused.
  destruct (ge_groups e !! gid) as [st|] eqn:Hg; cbn [snd]; [|by rewrite Hg].
  destruct (_ =? 0); cbn [stage_record with_lineage_staged with_groups ge_groups];
    by rewrite lookup_delete_eq.
Qed.

Lemma flush_has_staged e : GroupEngine_has_staged (GroupEngine_flush e).2 = false.
Proof.
  unfold GroupEngine_has_staged. cbn [GroupEngine_flush snd ge_groups ge_lineage_staged].
  rewrite bool_decide_eq_true_2 by done. rewrite orb_false_r. apply not_true_iff_false.
  rewrite existsb_exists. intros (st & Hin & Hst).
  apply list_elem_of_In, list_elem_of_fmap in Hin as ([gid st'] & -> & Hin).
  apply elem_of_map_to_list in Hin. rewrite lookup_fmap in Hin. cbn [snd] in Hst.
  destruct (ge_groups e !! gid) as [st0|]; [|done]. cbn in Hin. injection Hin as <-.
  unfold GroupStorage_release, EngineStable_release_staged in Hst.
  case_bool_decide as Hs; cbn in Hst; [|done].
  unfold EngineStable_has_staged in Hst. by rewrite Hs in Hst.
Qed.

(** C34: in every engine a conforming host can reach, the admission floor a
    removal persists is exact: the maintained ceilings answer what a scan of
    the surviving log entries, the two snapshot slots and the id's records
    would.  It is one past the highest generation any of them names (zero for
    an id that never reshaped, and the release cap while a surviving entry is
    one the apply path will refuse); it refuses every generation up to that
    ceiling; it is never the reserved terminal; the ceiling itself is always a
    working generation; and, unless a surviving entry is one the apply path will
    refuse, dropping the stores leaves the floor where it was. *)
Theorem removal_floor_exact issued e gid :
  eng_run GroupEngine_new issued e →
  let floor := GroupEngine_removal_floor e gid in
  let ceiling := removal_scan e gid in
  ceiling < HIGHEST_WORKING_GENERATION
  ∧ floor = (if removal_refused e gid then HIGHEST_WORKING_GENERATION
             else if ceiling =? 0 then 0 else ceiling + 1)
  ∧ floor < MERGED_FLOOR
  ∧ (0 < ceiling → ∀ g, g ≤ ceiling → floor_admits floor g = false)
  ∧ (removal_refused e gid = false →
     GroupEngine_removal_floor (GroupEngine_remove_group gid e).2 gid = floor).
Proof.
  intros Hrun floor ceiling. pose proof (eng_inv_run issued e Hrun) as Hi.
  pose proof (removal_scan_working e gid Hi) as Hw. unfold working in Hw. fold ceiling in Hw.
  pose proof (removal_floor_scan e gid Hi) as Hf. fold floor ceiling in Hf.
  split_and!; [done|done| | |].
  - rewrite Hf. unfold HIGHEST_WORKING_GENERATION, MERGED_FLOOR, u64_max in *.
    destruct (removal_refused e gid), (N.eqb_spec ceiling 0); lia.
  - intros Hpos g Hg. apply not_true_iff_false. rewrite floor_admits_spec, Hf.
    destruct (removal_refused e gid), (N.eqb_spec ceiling 0); lia.
  - intros Hr. rewrite removal_floor_scan by by apply eng_inv_remove.
    rewrite removal_refused_remove, removal_scan_remove by done. by rewrite Hf, Hr.
Qed.

(** C37: the fences of an id outlive everything that can happen to it.  Along
    any run of the engine, with removals and re-creations, barriers and writes
    in any order, an id's floor and lineage counter never go down, so a
    generation once refused stays refused; the barrier changes neither; and no
    two boot epochs issued for one id are equal, whatever was removed in
    between. *)
Theorem engine_fences_survive issued e issued' e' :
  eng_run GroupEngine_new issued e → eng_run e issued' e' →
  (∀ gid, GroupEngine_group_floor e gid ≤ GroupEngine_group_floor e' gid
     ∧ GroupEngine_group_gen e gid ≤ GroupEngine_group_gen e' gid
     ∧ GroupEngine_group_floor (GroupEngine_flush e').2 gid = GroupEngine_group_floor e' gid
     ∧ GroupEngine_group_gen (GroupEngine_flush e').2 gid = GroupEngine_group_gen e' gid
     ∧ ∀ g, floor_admits (GroupEngine_group_floor e gid) g = false →
            floor_admits (GroupEngine_group_floor e' gid) g = false)
  ∧ GroupEngine_has_staged (GroupEngine_flush e').2 = false
  ∧ NoDup (issued ++ issued').
Proof.
  intros H1 H2. split_and!.
  - intros gid. unfold GroupEngine_group_floor, GroupEngine_group_gen.
    destruct (record_read_joined e gid) as (-> & -> & _).
    destruct (record_read_joined e' gid) as (-> & -> & _).
    destruct (record_read_joined (GroupEngine_flush e').2 gid) as (-> & -> & _).
    rewrite joined_flush. destruct (joined_run_le _ _ _ gid H2). split_and!; try done.
    intros g. rewrite <- !not_true_iff_false, !floor_admits_spec. lia.
  - apply flush_has_staged.
  - destruct (epoch_run _ _ _ H1) as (_ & Hi1 & Hn1), (epoch_run _ _ _ H2) as (_ & Hi2 & Hn2).
    apply NoDup_app. split_and!; try done. intros [gid n] Hx Hy.
    specialize (Hi1 _ _ Hx). specialize (Hi2 _ _ Hy). lia.
Qed.
End group_engine.

(** ** A concrete engine *)

Module GroupEngineDemo.
Import EngineLogDemo.

Definition demo_alloc : N → bool := λ _, true.

Definition demo_e2 : GroupEngine (I:=N) (G:=N) :=
  GroupEngine_set_group_gen 1 3 (GroupEngine_add_group 1 GroupEngine_new).2.
Definition demo_e3 : GroupEngine := (GroupEngine_next_boot_epoch 1 demo_e2).2.
Definition demo_st : GroupStorage (I:=N) := GroupStorage_new u64_max.
Definition demo_appended : EngineLog :=
  EngineLog_submit_append (OpId_new 0) [demo_split 1 1 x04] (gs_log demo_st).
(** A hosted group whose log holds one split to generation five. *)
Definition demo_e4 : GroupEngine (I:=N) (G:=N) :=
  with_groups (<[1 := with_log demo_appended demo_st]> (ge_groups demo_e3)) demo_e3.
(** Torn down, flushed, re-created, and given its next epoch. *)
Definition demo_e5 : GroupEngine (I:=N) (G:=N) :=
  (GroupEngine_add_group 1 (GroupEngine_flush (GroupEngine_remove_group 1 demo_e4).2).2).2.
Definition demo_e6 : GroupEngine := (GroupEngine_next_boot_epoch 1 demo_e5).2.

Lemma demo_hosted : ge_groups demo_e3 !! 1 = Some demo_st.
Proof. by vm_compute. Qed.

Lemma demo_run4 :
  eng_run demo_alloc GroupEngine_new
    (([] ++ [] ++ []) ++ option_list ((1,.) <$> (GroupEngine_next_boot_epoch 1 demo_e2).1) ++ [])
    demo_e4.
Proof.
  cbn [app]. rewrite app_nil_r.
  rewrite <- (app_nil_r (option_list _)).
  eapply (run_step demo_alloc _ (option_list _) demo_e3 None).
  - eapply (run_step demo_alloc _ [] demo_e2 _); [|apply eng_epoch].
    eapply (run_step demo_alloc _ [] _ None); [|by apply eng_gen].
    eapply (run_step demo_alloc _ [] _ None); [apply run_refl|apply eng_add].
  - apply eng_log; [apply demo_hosted|]. apply elog_append.
    split_and!; [by vm_compute..|repeat (apply contiguous_cons; [done|]); apply contiguous_nil|by vm_compute].
Qed.

Lemma demo_run6 :
  eng_run demo_alloc demo_e4
    (option_list ((1,.) <$> (GroupEngine_next_boot_epoch 1 demo_e5).1)) demo_e6.
Proof.
  eapply (run_step demo_alloc _ [] demo_e5 _); [|apply eng_epoch].
  eapply (run_step demo_alloc _ [] _ None); [|apply eng_add].
  eapply (run_step demo_alloc _ [] _ None); [|apply eng_flush].
  eapply (run_step demo_alloc _ [] _ None); [apply run_refl|apply eng_remove].
Qed.

Lemma removal_floor_exact_witness :
  GroupEngine_removal_floor demo_e4 1 = 6
  ∧ GroupEngine_removal_floor (GroupEngine_remove_group 1 demo_e4).2 1
    = GroupEngine_removal_floor demo_e4 1.
Proof.
  split; [by vm_compute|].
  exact (proj2 (proj2 (proj2 (proj2 (removal_floor_exact demo_alloc _ demo_e4 1 demo_run4))))
    ltac:(by vm_compute)).
Defined.

Lemma engine_fences_survive_witness :
  (GroupEngine_next_boot_epoch 1 demo_e5).1 = Some 2
  ∧ GroupEngine_group_gen demo_e4 1 ≤ GroupEngine_group_gen demo_e6 1.
Proof.
  split; [by vm_compute|].
  exact (proj1 (proj2 (proj1 (engine_fences_survive demo_alloc _ demo_e4 _ demo_e6
    demo_run4 demo_run6) 1))).
Defined.
End GroupEngineDemo.
