(* ===== verification/Restart.v ===== *)
(** * Restart reconciliation

    The pure decisions a node makes when it comes back from durable storage,
    [sailing-proto/src/endpoint/mod.rs] and [endpoint/restart.rs]: which lease
    promise to keep ([reconcile_durable]), how to make the log agree with the
    snapshot ([reconcile_restart_log], applied by [restart_inner]), and the
    scans that recompute the lease floors from the retained log.  The log is
    any [LogStore]; the theorems use its laws. *)

From S2P Require Import Prelude Bytes Num Entry Storage Shape EngineLog.

(** ** Fail-stop reasons *)

Inductive PoisonReason :=
  | LogRead | SnapshotRead | LogPoll | StablePoll | LogTerm | NormalEntryDecode | Apply
  | SnapshotCapture | ConfChangeDecode | SetReadModeDecode | SplitDecode | SplitUnsupported
  | MergeDecode | MergeUnsupported | ConfChangeApply | SnapshotDecode | SnapshotRestore
  | CommittedTruncation | NonContiguousAppend | InvalidConfState | ReservedShapeGen
  | SnapshotRebaseline | OrphanedLog | LineageMismatch | InconsistentLeaseFloor
  | WallHorizonUnrepresentable | CommitWaitUnrepresentable | LogExhausted
  | LegacyLeaseUnrecoverable | OpIdExhausted | ReadRoundExhausted | LeaseRoundExhausted
  | QueryPanicked.

#[global] Instance PoisonReason_eq_dec : EqDecision PoisonReason.
Proof. solve_decision. Defined.

(** ** The apply window *)

Definition MAX_READ_BATCH_ENTRIES : u64 := 8192.
Definition APPLY_BUDGET_ENTRIES : u64 := MAX_READ_BATCH_ENTRIES.

Definition apply_read_span (applied commit : Index) (applied_this_call : u64) : Index :=
  let allowance := saturating_sub APPLY_BUDGET_ENTRIES applied_this_call in
  let width := N.min MAX_READ_BATCH_ENTRIES allowance in
  N.min (counter_next commit) (saturating_add (saturating_add applied width) 1).

(** The span requests only committed indices above [applied], and never more
    than what is left of the crank's budget. *)
Lemma apply_read_span_bound applied commit spent :
  is_u64 applied → commit < u64_max →
  let span := apply_read_span applied commit spent in
  span ≤ commit + 1 ∧ span - (applied + 1) ≤ APPLY_BUDGET_ENTRIES - spent
  ∧ (applied < commit → spent < APPLY_BUDGET_ENTRIES → applied + 1 < span).
Proof.
  intros Ha Hc. unfold apply_read_span, counter_next, APPLY_BUDGET_ENTRIES, MAX_READ_BATCH_ENTRIES.
  u64_lia.
Qed.

(** ** The lease promise *)

Record DerivedLeaseSafety := {
  dls_lease_support_floor : option Duration;
  dls_fence_window : option Duration;
}.

Inductive LeaseReconcile := LrOk (d : DerivedLeaseSafety) | LrPoison.

Definition reconcile_durable (recovered : LeaseSupport) (enforcing : bool)
    (election_timeout : Duration) (assume_prior : option Duration) : LeaseReconcile :=
  let this_run := if enforcing then Some election_timeout else None in
  let floor :=
    match recovered with
    | Recorded d => Some (option_max d this_run)
    | Unrecorded =>
        match assume_prior with
        | Some _ => Some (option_max this_run assume_prior)
        | None => None
        end
    end in
  match floor with
  | None => LrPoison
  | Some floor =>
      LrOk {| dls_lease_support_floor := floor;
              dls_fence_window := match floor with
                                  | Some d => if d =? 0 then None else Some d
                                  | None => None
                                  end |}
  end.

(** ** The log against the snapshot *)

Inductive RestartLogAction :=
  | RlaNone | RlaCompact (n : Index) | RlaRestore (n : Index) (t : Term) | RlaPoison (r : PoisonReason).

Definition reconcile_restart_log (snap : option (Index * Term)) (committed_in_log first_index
    last_index : Index) (boundary_term : option (result Term unit)) : RestartLogAction :=
  if counter_next last_index <? first_index then RlaPoison OrphanedLog
  else match snap with
  | None => if 1 <? first_index then RlaPoison OrphanedLog else RlaNone
  | Some (n, t) =>
      if counter_next n <? first_index then RlaPoison OrphanedLog
      else if last_index <? n then RlaRestore n t
      else match boundary_term with
           | Some (Ok bt) =>
               if bt =? t then
                 if first_index =? counter_next n then RlaNone else RlaCompact n
               else if n <=? committed_in_log then RlaPoison OrphanedLog
               else RlaRestore n t
           | _ => RlaPoison LogTerm
           end
  end.

Section restart.
Context {L : Type} `{!LogStore L}.

Definition restore_rebaselined (log : L) (n : Index) (term : Term) : bool :=
  (log_first_index log =? counter_next n)
  && (log_last_index log =? n)
  && match log_term log n with Ok t => t =? term | Err _ => false end.

(** The step of [restart_inner] that applies the decision. *)
Definition restart_reconcile (snap : option (Index * Term)) (hs_commit : Index) (log : L)
  : option PoisonReason * L :=
  let committed_in_log := N.min hs_commit (log_last_index log) in
  let boundary_term :=
    match snap with
    | Some (n, _) =>
        if (log_first_index log <=? counter_next n) && (n <=? log_last_index log)
        then Some (match log_term log n with Ok t => Ok t | Err _ => Err tt end)
        else None
    | None => None
    end in
  match reconcile_restart_log snap committed_in_log (log_first_index log) (log_last_index log)
          boundary_term with
  | RlaNone => (None, log)
  | RlaCompact n => (None, log_compact n log)
  | RlaRestore n term =>
      let log := log_restore n term log in
      (if restore_rebaselined log n term then None else Some SnapshotRebaseline, log)
  | RlaPoison reason => (Some reason, log)
  end.

(** ** The scans of the retained log

    One loop, a fold per scan.  [None] is fuel exhaustion. *)

Fixpoint scan_loop {A} (step : A → Entry → A) (fuel : nat) (log : L) (last_index idx : Index)
    (max : A) : option (result A PoisonReason) :=
  match fuel with
  | O => None
  | S fuel =>
      if last_index <? idx then Some (Ok max)
      else
        let read_end :=
          N.min (counter_next last_index) (saturating_add idx MAX_READ_BATCH_ENTRIES) in
        match log_entries log idx read_end 1048576 with
        | Ok (Ready chunk) =>
            match last chunk with
            | Some e =>
                scan_loop step fuel log last_index (counter_next (e_index e)) (foldl step max chunk)
            | None => Some (Err LogRead)
            end
        | _ => Some (Err LogRead)
        end
  end.

(** One read per entry at worst. *)
Definition scan_fuel (log : L) : nat :=
  S (N.to_nat (log_last_index log + 1 - log_first_index log)).

Definition scan_log (step : u64 → Entry → u64) (log : L) : option (result u64 PoisonReason) :=
  scan_loop step (scan_fuel log) log (log_last_index log) (log_first_index log) 0.

Definition scan_max_lease_window : L → option (result u64 PoisonReason) :=
  scan_log (λ max e, N.max max (e_lease_window e)).

Definition scan_max_wall_plus_window : L → option (result u64 PoisonReason) :=
  scan_log (λ max e,
    if negb (e_wall_timestamp e =? 0) && (0 <? e_lease_window e)
    then N.max max (saturating_add (e_wall_timestamp e) (e_lease_window e)) else max).

Definition scan_max_unwalled_lease_window : L → option (result u64 PoisonReason) :=
  scan_log (λ max e,
    if (e_wall_timestamp e =? 0) && (0 <? e_lease_window e)
    then N.max max (e_lease_window e) else max).

(** ** Theorems *)

Context `{!LogStoreLaws L}.

(** The store answers every in-domain read from memory, as a restart requires. *)
Definition resident (log : L) : Prop :=
  ∀ lo hi max, lv_first (log_view log) ≤ lo → hi ≤ lv_last (log_view log) + 1 →
    ∃ es, log_entries log lo hi max = Ok (Ready es).

(** A chunk that is a prefix of the range leaves the rest of the range. *)
Lemma lv_slice_all v idx :
  lv_first v ≤ idx → idx ≤ lv_last v + 1 →
  lv_slice v idx (lv_last v + 1) = drop (N.to_nat (idx - lv_first v)) (lv_entries v).
Proof.
  unfold lv_slice, lv_first, lv_last. intros H1 H2.
  replace (N.to_nat (idx - lv_base v - 1)) with (N.to_nat (idx - (lv_base v + 1))) by lia.
  apply take_ge. rewrite length_drop. lia.
Qed.

Lemma lv_slice_prefix v lo hi hi' :
  hi ≤ hi' → lv_slice v lo hi `prefix_of` lv_slice v lo hi'.
Proof.
  intros H. unfold lv_slice. generalize (drop (N.to_nat (lo - lv_base v - 1)) (lv_entries v)).
  intros l. exists (drop (N.to_nat (hi - lo)) (take (N.to_nat (hi' - lo)) l)).
  rewrite <- (take_drop (N.to_nat (hi - lo)) (take (N.to_nat (hi' - lo)) l)) at 1.
  f_equal. rewrite take_take. f_equal. lia.
Qed.

(** One iteration: the chunk is a non-empty prefix of what is left, and the
    cursor moves past it. *)
Lemma scan_chunk log idx hi es :
  LogView_wf (log_view log) → lv_first (log_view log) ≤ idx → idx < hi →
  hi ≤ lv_last (log_view log) + 1 → log_entries log idx hi 1048576 = Ok (Ready es) →
  ∃ e rest, last es = Some e
    ∧ drop (N.to_nat (idx - lv_first (log_view log))) (lv_entries (log_view log)) = es ++ rest
    ∧ e_index e = idx + N.of_nat (length es) - 1 ∧ (0 < length es)%nat.
Proof.
  intros [Hc _] Hlo Hlt Hhi Hread.
  destruct (log_entries_view log idx hi _ es Hlo Hhi Hread) as [Hpre Hne].
  assert (es `prefix_of` lv_slice (log_view log) idx (lv_last (log_view log) + 1)) as [rest Hrest].
  { etrans; [done|]. by apply lv_slice_prefix. }
  rewrite lv_slice_all in Hrest by lia.
  destruct (last es) as [e|] eqn:Hlast; [|by apply last_None in Hlast; destruct (Hne Hlt)].
  exists e, rest. split_and!; try done.
  - rewrite last_lookup in Hlast.
    apply (contiguous_drop _ (N.to_nat (idx - lv_first (log_view log)))) in Hc.
    rewrite Hrest in Hc. specialize (Hc (pred (length es)) e).
    rewrite lookup_app_l in Hc by (apply lookup_lt_Some in Hlast; done).
    specialize (Hc Hlast). apply lookup_lt_Some in Hlast. lia.
  - destruct es; [done|cbn; lia].
Qed.

(** The loop ends within its fuel, with the fold of everything that was left or
    with the fail-stop of a read the store did not serve. *)
Lemma scan_loop_spec {A} (step : A → Entry → A) fuel log idx acc :
  LogView_wf (log_view log) →
  lv_first (log_view log) ≤ idx → idx ≤ lv_last (log_view log) + 1 →
  (N.to_nat (lv_last (log_view log) + 1 - idx) < fuel)%nat →
  let exact :=
    foldl step acc (drop (N.to_nat (idx - lv_first (log_view log))) (lv_entries (log_view log))) in
  scan_loop step fuel log (lv_last (log_view log)) idx acc = Some (Ok exact)
  ∨ scan_loop step fuel log (lv_last (log_view log)) idx acc = Some (Err LogRead) ∧ ¬ resident log.
Proof.
  intros Hwf. revert idx acc. induction fuel as [|fuel IH]; intros idx acc Hlo Hhi Hf; [lia|].
  cbn [scan_loop]. pose proof (lvw_room _ Hwf) as Hroom.
  destruct (N.ltb_spec (lv_last (log_view log)) idx) as [Hend|Hlt].
  - left. rewrite drop_ge; [done|]. unfold lv_last, lv_first in *. lia.
  - set (hi := N.min _ _).
    assert (idx < hi ≤ lv_last (log_view log) + 1) as [Hh1 Hh2].
    { unfold hi, MAX_READ_BATCH_ENTRIES. rewrite counter_next_lt by done. u64_lia. }
    destruct (log_entries log idx hi 1048576) as [[es|]|err] eqn:Hread;
      [|right; split; [done|]; intros Hres; destruct (Hres idx hi 1048576 Hlo Hh2); congruence..].
    destruct (scan_chunk log idx hi es Hwf Hlo Hh1 Hh2 Hread) as (e & rest & -> & Hrest & He & Hpos).
    assert (idx + N.of_nat (length es) ≤ lv_last (log_view log) + 1) as Hb.
    { apply (f_equal length) in Hrest. rewrite length_drop, length_app in Hrest.
      unfold lv_last, lv_first in *. lia. }
    rewrite counter_next_lt by lia. rewrite Hrest, foldl_app.
    replace rest with (drop (N.to_nat (e_index e + 1 - lv_first (log_view log))) (lv_entries (log_view log))).
    + apply IH; lia.
    + replace (N.to_nat (e_index e + 1 - lv_first (log_view log)))
        with (N.to_nat (idx - lv_first (log_view log)) + length es)%nat by lia.
      rewrite <- drop_drop, Hrest. apply drop_app_length.
Qed.

Lemma scan_log_spec step log :
  LogView_wf (log_view log) →
  scan_log step log = Some (Ok (foldl step 0 (lv_entries (log_view log))))
  ∨ scan_log step log = Some (Err LogRead) ∧ ¬ resident log.
Proof.
  intros Hwf. unfold scan_log, scan_fuel. rewrite log_first_view, log_last_view.
  pose proof (lv_first_last (log_view log)).
  pose proof (scan_loop_spec step (S (N.to_nat (lv_last (log_view log) + 1 - lv_first (log_view log))))
    log (lv_first (log_view log)) 0 Hwf ltac:(lia) ltac:(lia) ltac:(lia)) as Hs.
  cbv zeta in Hs. by rewrite N.sub_diag in Hs.
Qed.

(** The horizon of a lease-bearing entry with a wall stamp, and the window of
    one without. *)
Definition walled_horizon (e : Entry) : option u64 :=
  if negb (e_wall_timestamp e =? 0) && (0 <? e_lease_window e)
  then Some (saturating_add (e_wall_timestamp e) (e_lease_window e)) else None.

Definition unwalled_window (e : Entry) : option u64 :=
  if (e_wall_timestamp e =? 0) && (0 <? e_lease_window e) then Some (e_lease_window e) else None.

Lemma foldl_max_omap (f : Entry → option u64) (es : list Entry) acc :
  foldl (λ max e, match f e with Some x => N.max max x | None => max end) acc es
  = N.max acc (list_max (omap f es)).
Proof.
  revert acc. induction es as [|e es IH]; intros acc; cbn [foldl omap list_omap].
  - unfold list_max. cbn. lia.
  - rewrite IH. destruct (f e); [|done]. unfold list_max. cbn [foldr]. lia.
Qed.

(** What a scan answers, given the largest contribution of the retained log:
    that value, or the fail-stop. *)
Definition scanned (log : L) (r : option (result u64 PoisonReason)) (m : u64) : Prop :=
  (r = Some (Ok m) ∨ r = Some (Err LogRead)) ∧ (resident log → r = Some (Ok m)).

Lemma scan_log_omap f log :
  LogView_wf (log_view log) →
  scanned log (scan_log (λ max e, match f e with Some x => N.max max x | None => max end) log)
    (list_max (omap f (lv_entries (log_view log)))).
Proof.
  intros Hwf. unfold scanned.
  destruct (scan_log_spec (λ max e, match f e with Some x => N.max max x | None => max end) log Hwf)
    as [->|[-> Hr]]; rewrite ?foldl_max_omap, ?N.max_0_l; naive_solver.
Qed.

Lemma scan_loop_ext {A} (step step' : A → Entry → A) fuel log last idx acc :
  (∀ m e, step m e = step' m e) →
  scan_loop step fuel log last idx acc = scan_loop step' fuel log last idx acc.
Proof.
  intros H. revert idx acc. induction fuel as [|fuel IH]; intros idx acc; cbn [scan_loop]; [done|].
  repeat case_match; try done. rewrite IH. f_equal. clear -H. revert acc.
  induction es as [|e es IHe]; intros acc; cbn [foldl]; [done|]. by rewrite H, IHe.
Qed.

Lemma list_omap_Some_fmap {B} (f : Entry → B) (es : list Entry) :
  omap (λ e, Some (f e)) es = f <$> es.
Proof. induction es as [|e es IH]; [done|]. cbn [omap list_omap fmap list_fmap]. by rewrite <- IH. Qed.

Lemma scan_log_ext step step' log :
  (∀ m e, step m e = step' m e) → scan_log step log = scan_log step' log.
Proof. apply scan_loop_ext. Qed.

(** Each restart scan of the lease floors terminates within one read per
    retained entry and, over any store that obeys the read contract (prefix
    answers, capped batches), returns exactly the largest contribution of the
    whole retained log; if a read is cold or faulty it fail-stops instead of
    answering with a partial bound. *)
Theorem restart_scans_exact log :
  LogView_wf (log_view log) →
  let es := lv_entries (log_view log) in
  scanned log (scan_max_lease_window log) (list_max (e_lease_window <$> es))
  ∧ scanned log (scan_max_wall_plus_window log) (list_max (omap walled_horizon es))
  ∧ scanned log (scan_max_unwalled_lease_window log) (list_max (omap unwalled_window es)).
Proof.
  intros Hwf es. unfold scan_max_lease_window, scan_max_wall_plus_window, scan_max_unwalled_lease_window.
  split_and!.
  - rewrite <- list_omap_Some_fmap. by apply (scan_log_omap (λ e, Some (e_lease_window e)) log).
  - rewrite (scan_log_ext _ (λ max e, match walled_horizon e with Some x => N.max max x | None => max end))
      by (intros; unfold walled_horizon; by case_match).
    by apply scan_log_omap.
  - rewrite (scan_log_ext _ (λ max e, match unwalled_window e with Some x => N.max max x | None => max end))
      by (intros; unfold unwalled_window; by case_match).
    by apply scan_log_omap.
Qed.

(** ** The log after reconciliation *)

(** The log continues the snapshot: it is based exactly at its boundary (at the
    origin when there is no snapshot). *)
Definition continues (snap : option (Index * Term)) (v : LogView) : Prop :=
  match snap with
  | None => lv_base v = 0
  | Some (n, t) => lv_base v = n ∧ lv_base_term v = t
  end.

Definition snap_index (snap : option (Index * Term)) : Index := from_option fst 0 snap.

(** When the durable state cannot be reconciled without losing a committed
    entry: the prefix below the log is missing, or the log disagrees with the
    snapshot about a boundary that is committed. *)
Definition irreconcilable (snap : option (Index * Term)) (commit : Index) (v : LogView) : Prop :=
  match snap with
  | None => 0 < lv_base v
  | Some (n, t) =>
      n < lv_base v ∨ lv_base v ≤ n ≤ lv_last v ∧ lv_term v n ≠ t ∧ n ≤ commit
  end.

Lemma lv_lookup_compact v n i :
  lv_base v ≤ n ≤ lv_last v → n < i → lv_lookup (lv_compact v n) i = lv_lookup v i.
Proof.
  intros Hn Hi. unfold lv_compact, lv_lookup. destruct (N.leb_spec n (lv_base v)); [done|].
  replace (N.min n (lv_last v)) with n by lia. cbn [lv_base lv_entries].
  destruct (N.ltb_spec n i), (N.ltb_spec (lv_base v) i); try lia.
  rewrite lookup_drop. f_equal. lia.
Qed.

Lemma lv_compact_base v n :
  lv_base v ≤ n ≤ lv_last v → lv_base (lv_compact v n) = n ∧ lv_base_term (lv_compact v n) = lv_term v n.
Proof.
  intros Hn. unfold lv_compact. destruct (N.leb_spec n (lv_base v)).
  - assert (n = lv_base v) as -> by lia. unfold lv_term. by rewrite N.eqb_refl.
  - by replace (N.min n (lv_last v)) with n by lia.
Qed.

(** A store that answers every term read, as the domain contract requires of
    one without faults. *)
Definition term_total : Prop := ∀ (log : L) i, ∃ t, log_term log i = Ok t.

(** The three outcomes of the decision on a contiguous log. *)
Lemma restart_reconcile_cases snap commit log :
  LogView_wf (log_view log) → snap_index snap < u64_max →
  let v := log_view log in
  let '(poison, log') := restart_reconcile snap commit log in
  match poison with
  | Some r => irreconcilable snap commit v ∨ r = LogTerm ∨ r = SnapshotRebaseline
  | None =>
      ¬ irreconcilable snap commit v ∧ continues snap (log_view log')
      ∧ (∀ i, snap_index snap < i → i ≤ N.min commit (lv_last v) →
           lv_lookup (log_view log') i = lv_lookup v i)
  end.
Proof.
  intros Hwf Hn. pose proof (lvw_room _ Hwf) as Hroom.
  unfold restart_reconcile, reconcile_restart_log. rewrite log_first_view, log_last_view.
  set (v := log_view log) in *. cbv zeta. rewrite (counter_next_lt (lv_last v)) by done.
  assert ((lv_last v + 1 <? lv_first v) = false) as ->
    by (apply N.ltb_ge; unfold lv_first, lv_last; lia).
  destruct snap as [[n t]|]; cbn [snap_index from_option fst] in *.
  2:{ unfold lv_first. destruct (N.ltb_spec 1 (lv_base v + 1)); cbn; [left; lia|].
      split_and!; [lia|fold v; lia|done]. }
  rewrite (counter_next_lt n) by done. unfold lv_first.
  destruct (N.ltb_spec (n + 1) (lv_base v + 1)); [left; left; lia|].
  destruct (N.ltb_spec (lv_last v) n) as [Hlast|Hlast].
  - destruct (restore_rebaselined _ n t); [|by right; right]. rewrite log_restore_view.
    split_and!; [|done|lia]. intros [?|[? ?]]; lia.
  - assert ((lv_base v + 1 <=? n + 1) && (n <=? lv_last v) = true) as ->
      by (apply andb_true_iff; rewrite !N.leb_le; lia).
    destruct (log_term log n) as [bt|] eqn:Hbt; [|by right; left].
    apply log_term_view in Hbt. fold v in Hbt. subst bt.
    destruct (N.eqb_spec (lv_term v n) t) as [Ht|Ht].
    + destruct (N.eqb_spec (lv_base v + 1) (n + 1)) as [Hb|Hb]; [|rewrite log_compact_view; fold v].
      * assert (lv_base v = n) as <- by lia. unfold lv_term in Ht. rewrite N.eqb_refl in Ht.
        fold v. split_and!; [|done|done]. intros [?|(? & Hne & ?)]; [lia|].
        unfold lv_term in Hne. by rewrite N.eqb_refl in Hne.
      * destruct (lv_compact_base v n ltac:(lia)) as [Hcb Hct]. split_and!.
        -- intros [?|(? & ? & ?)]; [lia|done].
        -- split; [done|congruence].
        -- intros i Hi _. apply lv_lookup_compact; lia.
    + destruct (N.leb_spec n (N.min commit (lv_last v))); [left; right; split_and!; try done; lia|].
      destruct (restore_rebaselined _ n t); [|by right; right]. rewrite log_restore_view.
      split_and!; [|done|lia]. intros [?|(? & ? & ?)]; lia.
Qed.

Lemma restart_reconcile_total snap commit log :
  term_total → LogView_wf (log_view log) → snap_index snap < u64_max →
  (restart_reconcile snap commit log).1 ≠ Some LogTerm
  ∧ (restart_reconcile snap commit log).1 ≠ Some SnapshotRebaseline.
Proof.
  intros Ht Hwf Hn. unfold restart_reconcile, reconcile_restart_log.
  rewrite log_first_view, log_last_view. pose proof (lvw_room _ Hwf) as Hroom.
  set (v := log_view log) in *. cbv zeta. rewrite (counter_next_lt (lv_last v)) by done.
  destruct (N.ltb_spec (lv_last v + 1) (lv_first v)); [done|].
  destruct snap as [[n t]|]; cbn [snap_index from_option fst] in Hn; [|by destruct (1 <? lv_first v)].
  assert (restore_rebaselined (log_restore n t log) n t = true) as Hreb.
  { unfold restore_rebaselined. rewrite log_first_view, log_last_view, log_restore_view.
    unfold lv_first, lv_last. cbn [lv_restore lv_base lv_entries length].
    rewrite counter_next_lt, N.add_0_r, !N.eqb_refl by done. cbn [andb].
    destruct (Ht (log_restore n t log) n) as [t' Ht']. rewrite Ht'. apply log_term_view in Ht'.
    rewrite log_restore_view in Ht'. unfold lv_term in Ht'. cbn [lv_restore lv_base lv_base_term] in Ht'.
    rewrite N.eqb_refl in Ht'. subst. apply N.eqb_refl. }
  rewrite (counter_next_lt n) by done.
  destruct (N.ltb_spec (n + 1) (lv_first v)); [done|].
  destruct (N.ltb_spec (lv_last v) n); [by rewrite Hreb|].
  assert ((lv_first v <=? n + 1) && (n <=? lv_last v) = true) as ->
    by (apply andb_true_iff; rewrite !N.leb_le; lia).
  destruct (Ht log n) as [bt ->]. destruct (bt =? t); [by destruct (lv_first v =? n + 1)|].
  destruct (n <=? _); [done|]. by rewrite Hreb.
Qed.

(** C33: reconciling the durable log with the durable snapshot never discards a
    committed entry.  Unless the node fail-stops, the log it boots with is
    based exactly at the snapshot's boundary and term (at the origin without a
    snapshot), and every entry above the snapshot that the hard state records
    as committed is still in it, unchanged.  Over a store that answers its term
    reads it fail-stops exactly when the durable state is irreconcilable: the
    prefix below the log is missing, or log and snapshot disagree about a
    committed boundary. *)
Theorem restart_keeps_committed snap commit log :
  LogView_wf (log_view log) → snap_index snap < u64_max →
  let v := log_view log in
  let r := restart_reconcile snap commit log in
  (r.1 = None →
     continues snap (log_view r.2)
     ∧ ∀ i, snap_index snap < i → i ≤ N.min commit (lv_last v) →
         lv_lookup (log_view r.2) i = lv_lookup v i)
  ∧ (term_total → (r.1 ≠ None ↔ irreconcilable snap commit v)).
Proof.
  intros Hwf Hn v. pose proof (restart_reconcile_cases snap commit log Hwf Hn) as Hc.
  pose proof (λ Ht, restart_reconcile_total snap commit log Ht Hwf Hn) as Htot.
  destruct (restart_reconcile snap commit log) as [[r|] log']; cbn in *; split.
  - done.
  - intros Ht. destruct (Htot Ht). split; [|done]. intros _. naive_solver.
  - intros _. naive_solver.
  - intros _. naive_solver.
Qed.
End restart.

(** ** The fence *)

Lemma fence_window_spec (floor : option Duration) w :
  match floor with Some d => if d =? 0 then None else Some d | None => None end = Some w
  ↔ floor = Some w ∧ 0 < w.
Proof. destruct floor as [d|]; [destruct (N.eqb_spec d 0)|]; naive_solver lia. Qed.

(** The post-restart vote fence covers every promise that can still be
    live.  The fence is refused only for a legacy record without an operator
    bound; otherwise the recovered floor is the least one above the recorded
    promise, above this run's own window when it enforces, and above the
    operator's bound when the record is a legacy one (a recorded promise
    ignores that bound); the fence waits out that floor unless it is zero. *)
Theorem restart_fence_covers recovered enforcing timeout assume_prior :
  match reconcile_durable recovered enforcing timeout assume_prior with
  | LrPoison => recovered = Unrecorded ∧ assume_prior = None
  | LrOk d =>
      let floor := dls_lease_support_floor d in
      (∀ b, option_le floor b ↔
         option_le (LeaseSupport_promised recovered) b
         ∧ (enforcing = true → option_le (Some timeout) b)
         ∧ (recovered = Unrecorded → option_le assume_prior b))
      ∧ (∀ w, dls_fence_window d = Some w ↔ floor = Some w ∧ 0 < w)
      ∧ (recovered = Unrecorded → assume_prior ≠ None)
  end.
Proof.
  unfold reconcile_durable. destruct recovered as [|p].
  - destruct assume_prior as [a|]; [|done]. cbn [dls_lease_support_floor dls_fence_window].
    split_and!; [|apply fence_window_spec|done].
    intros b. rewrite option_max_lub. destruct enforcing; cbn; naive_solver.
  - cbn [dls_lease_support_floor dls_fence_window LeaseSupport_promised].
    split_and!; [|apply fence_window_spec|done].
    intros b. rewrite option_max_lub. destruct enforcing; cbn; naive_solver.
Qed.

(** ** Witnesses on the engine's log *)

Module RestartDemo.
Import EngineLogDemo.

Lemma demo_log_wf : LogView_wf (log_view demo_log).
Proof. exact (eli_wf _ (elog_reach_inv _ demo_log_reach)). Qed.

(** The log holds entries two and three above its boundary; a snapshot at two
    compacts it and keeps the committed entry three. *)
Lemma restart_keeps_committed_witness :
  (restart_reconcile (Some (2, 2)) 3 demo_log).1 = None
  ∧ lv_lookup (log_view (restart_reconcile (Some (2, 2)) 3 demo_log).2) 3
    = Some (demo_split 2 3 x04).
Proof.
  split; [by vm_compute|]. transitivity (lv_lookup (log_view demo_log) 3); [|by vm_compute].
  exact (proj2 (proj1 (restart_keeps_committed (Some (2, 2)) 3 demo_log demo_log_wf
    ltac:(by vm_compute)) ltac:(by vm_compute)) 3 ltac:(by vm_compute) ltac:(by vm_compute)).
Defined.

Lemma restart_scans_exact_witness :
  scan_max_lease_window demo_log = Some (Ok 0)
  ∧ scanned demo_log (scan_max_lease_window demo_log)
      (list_max (e_lease_window <$> lv_entries (log_view demo_log))).
Proof.
  split; [by vm_compute|]. exact (proj1 (restart_scans_exact demo_log demo_log_wf)).
Defined.
End RestartDemo.
