(* ===== verification/Forwarded.v ===== *)
(** * Reads forwarded to the leader

    [ForwardedReads] of [sailing-proto/src/endpoint/mod.rs]: the reads a
    follower has in flight to its leader, keyed by an internal token of sixteen
    bytes, the boot epoch and a counter, both big-endian. *)

From S2P Require Import Prelude Bytes Num.

Definition MAX_FORWARDED_READS : nat := 256.

Record ForwardedReads := {
  fr_order : list (bytes * bytes);
  fr_boot_epoch : u64;
  fr_next_token : u64;
}.

Definition ForwardedReads_new (boot_epoch : u64) : ForwardedReads :=
  {| fr_order := []; fr_boot_epoch := boot_epoch; fr_next_token := 0 |}.

Definition ForwardedReads_contains_context (context : bytes) (r : ForwardedReads) : bool :=
  existsb (λ p, bool_decide (p.2 = context)) (fr_order r).

Definition ForwardedReads_is_full (r : ForwardedReads) : bool :=
  (MAX_FORWARDED_READS <=? length (fr_order r))%nat.

(** On exhaustion [push] leaves the set as it was. *)
Definition ForwardedReads_push (context : bytes) (r : ForwardedReads)
  : option bytes * ForwardedReads :=
  let token := to_be_bytes 8 (fr_boot_epoch r) ++ to_be_bytes 8 (fr_next_token r) in
  match checked_add (fr_next_token r) 1 with
  | None => (None, r)
  | Some next =>
      (Some token,
       {| fr_order := fr_order r ++ [(token, context)]; fr_boot_epoch := fr_boot_epoch r;
          fr_next_token := next |})
  end.

Definition ForwardedReads_remove_by_token (token : bytes) (r : ForwardedReads)
  : option bytes * ForwardedReads :=
  match list_find (λ p, p.1 = token) (fr_order r) with
  | None => (None, r)
  | Some (pos, (_, ctx)) =>
      (Some ctx,
       {| fr_order := delete pos (fr_order r); fr_boot_epoch := fr_boot_epoch r;
          fr_next_token := fr_next_token r |})
  end.

Definition ForwardedReads_clear (r : ForwardedReads) : ForwardedReads :=
  {| fr_order := []; fr_boot_epoch := fr_boot_epoch r; fr_next_token := fr_next_token r |}.

(** ** Runs across incarnations

    Every read the node ever forwarded is kept in a history; a restart brings a
    fresh set under a larger boot epoch.  A push is made only when the guards
    of the caller hold. *)

Inductive fwd_step : list (bytes * bytes) * ForwardedReads → list (bytes * bytes) * ForwardedReads → Prop :=
  | fwd_push h r ctx token r' :
      ForwardedReads_contains_context ctx r = false → ForwardedReads_is_full r = false →
      ForwardedReads_push ctx r = (Some token, r') → fwd_step (h, r) (h ++ [(token, ctx)], r')
  | fwd_remove h r token :
      fwd_step (h, r) (h, (ForwardedReads_remove_by_token token r).2)
  | fwd_clear h r : fwd_step (h, r) (h, ForwardedReads_clear r)
  | fwd_restart h r epoch :
      fr_boot_epoch r < epoch → is_u64 epoch → fwd_step (h, r) (h, ForwardedReads_new epoch).

Definition fwd_token (k : u64 * u64) : bytes := to_be_bytes 8 k.1 ++ to_be_bytes 8 k.2.

Lemma fwd_token_inj e n e' n' :
  is_u64 e → is_u64 n → is_u64 e' → is_u64 n' →
  fwd_token (e, n) = fwd_token (e', n') → (e, n) = (e', n').
Proof.
  intros He Hn He' Hn' H. unfold fwd_token in H. cbn [fst snd] in H.
  apply app_inj_1 in H as [H1 H2]; [|by rewrite !length_to_be_bytes].
  apply (f_equal from_be_bytes) in H1, H2. rewrite !from_to_be_u64 in H1, H2 by done. by subst.
Qed.

(** The keys already used: below the current epoch, or of it and below its
    counter. *)
Definition key_used (epoch next : u64) (k : u64 * u64) : Prop :=
  is_u64 k.1 ∧ is_u64 k.2 ∧ (k.1 < epoch ∨ k.1 = epoch ∧ k.2 < next).

Record fwd_inv (h : list (bytes * bytes)) (r : ForwardedReads) : Prop := {
  fi_keys : ∃ ks, h.*1 = fwd_token <$> ks ∧ NoDup ks
                  ∧ Forall (key_used (fr_boot_epoch r) (fr_next_token r)) ks;
  fi_epoch : is_u64 (fr_boot_epoch r);
  fi_next : is_u64 (fr_next_token r);
  fi_order : fr_order r `sublist_of` h;
  fi_contexts : NoDup (fr_order r).*2;
  fi_bound : (length (fr_order r) ≤ MAX_FORWARDED_READS)%nat;
}.

Lemma key_used_mono e n e' n' k :
  key_used e n k → e < e' ∨ e = e' ∧ n ≤ n' → key_used e' n' k.
Proof. intros (? & ? & ?) ?. split_and!; [done|done|lia]. Qed.

Lemma fwd_inv_push h r ctx token r' :
  fwd_inv h r → ForwardedReads_contains_context ctx r = false → ForwardedReads_is_full r = false →
  ForwardedReads_push ctx r = (Some token, r') → fwd_inv (h ++ [(token, ctx)]) r'.
Proof.
  intros [(ks & Hks & Hnd & Hused) He Hn Hord Hctx Hb] Hdup Hfull. unfold ForwardedReads_push.
  destruct (checked_add (fr_next_token r) 1) as [next|] eqn:Hadd; [|done]. intros [= <- <-].
  apply checked_add_Some in Hadd as [-> Hmax]. unfold ForwardedReads_is_full in Hfull.
  apply Nat.leb_gt in Hfull. split; cbn [fr_order fr_boot_epoch fr_next_token]; try done.
  - exists (ks ++ [(fr_boot_epoch r, fr_next_token r)]). rewrite !fmap_app, Hks. split_and!; [done| |].
    + apply NoDup_app. split_and!; [done| |apply NoDup_singleton].
      intros k Hk ->%list_elem_of_singleton. rewrite Forall_forall in Hused.
      destruct (Hused _ Hk) as (_ & _ & ?). cbn in *. lia.
    + apply Forall_app. split; [|apply Forall_singleton; unfold key_used; cbn; split_and!; try done; lia].
      eapply Forall_impl; [done|]. intros k Hk. eapply key_used_mono; [done|lia].
  - by apply sublist_app.
  - rewrite fmap_app. apply NoDup_app. split_and!; [done| |apply NoDup_singleton].
    intros c Hc ->%list_elem_of_singleton. cbn in Hc.
    apply list_elem_of_fmap in Hc as ([t c'] & -> & Hin).
    apply not_true_iff_false in Hdup. apply Hdup. unfold ForwardedReads_contains_context.
    rewrite existsb_exists. exists (t, c'). split; [by apply list_elem_of_In|by apply bool_decide_eq_true].
  - rewrite length_app. cbn. lia.
Qed.

Lemma fwd_inv_shrink h r order :
  fwd_inv h r → order `sublist_of` fr_order r →
  fwd_inv h {| fr_order := order; fr_boot_epoch := fr_boot_epoch r; fr_next_token := fr_next_token r |}.
Proof.
  intros [Hk He Hn Hord Hctx Hb] Hsub. split; try done; cbn [fr_order].
  - by etrans.
  - eapply sublist_NoDup; [done|]. by apply fmap_sublist.
  - apply sublist_length in Hsub. lia.
Qed.

Lemma fwd_inv_step s s' : fwd_step s s' → fwd_inv s.1 s.2 → fwd_inv s'.1 s'.2.
Proof.
  destruct 1 as [h r ctx token r' Hd Hf Hp|h r token|h r|h r epoch Hlt Hu]; cbn [fst snd]; intros Hi.
  - by eapply fwd_inv_push.
  - unfold ForwardedReads_remove_by_token.
    destruct (list_find _ _) as [[pos [t c]]|]; [|done]. apply fwd_inv_shrink; [done|].
    apply sublist_delete.
  - apply fwd_inv_shrink; [done|apply sublist_nil_l].
  - destruct Hi as [(ks & Hks & Hnd & Hused) He Hn Hord Hctx Hb].
    split; cbn; try done; [|apply sublist_nil_l|constructor|lia].
    exists ks. split_and!; try done. eapply Forall_impl; [done|].
    intros k Hk. eapply key_used_mono; [done|]. left. done.
Qed.

Lemma fwd_reach_inv epoch h r :
  is_u64 epoch → rtc fwd_step ([], ForwardedReads_new epoch) (h, r) → fwd_inv h r.
Proof.
  intros Hu H. change (fwd_inv (h, r).1 (h, r).2).
  assert (fwd_inv ([] : list (bytes * bytes), ForwardedReads_new epoch).1
    ([] : list (bytes * bytes), ForwardedReads_new epoch).2) as H0.
  { split; cbn; try done; [|constructor|lia]. exists []. by split_and!; [|constructor|constructor]. }
  induction H; eauto using fwd_inv_step.
Qed.

Lemma fwd_inv_tokens h r : fwd_inv h r → NoDup h.*1.
Proof.
  intros [(ks & -> & Hnd & Hused) _ _ _ _ _]. rewrite Forall_forall in Hused.
  apply NoDup_fmap_2_strong; [|done]. intros [e n] [e' n'] H1%Hused H2%Hused.
  destruct H1 as (? & ? & _), H2 as (? & ? & _). by apply fwd_token_inj.
Qed.

Lemma NoDup_fst_unique (h : list (bytes * bytes)) t c c' :
  NoDup h.*1 → (t, c) ∈ h → (t, c') ∈ h → c = c'.
Proof.
  induction h as [|[t0 c0] h IH]; cbn [fmap list_fmap fst]; [by intros _ ?%not_elem_of_nil|].
  intros [Hn Hd]%NoDup_cons. rewrite !elem_of_cons.
  assert (∀ x, (t0, x) ∉ h) as Hno.
  { intros x Hx. apply Hn, list_elem_of_fmap. by exists (t0, x). }
  intros [?|H1] [?|H2]; simplify_eq; [done| | |by apply IH].
  - by destruct (Hno c').
  - by destruct (Hno c).
Qed.

(** A forwarded read is completed only by the response to that very
    forward.  Over any run of forwards, responses, drops and restarts with
    increasing boot epochs, no token is ever issued twice, so if a response
    echoing a token completes a read, the context it completes is the one that
    was forwarded under that token, in whatever incarnation; the set in flight
    holds distinct contexts and never more than its bound. *)
Theorem forwarded_reads_matched epoch h r :
  is_u64 epoch → rtc fwd_step ([], ForwardedReads_new epoch) (h, r) →
  NoDup h.*1
  ∧ (∀ token ctx ctx', (ForwardedReads_remove_by_token token r).1 = Some ctx →
       (token, ctx') ∈ h → ctx' = ctx)
  ∧ (∀ token ctx, (token, ctx) ∈ fr_order r →
       (ForwardedReads_remove_by_token token r).1 = Some ctx)
  ∧ NoDup (fr_order r).*2 ∧ (length (fr_order r) ≤ MAX_FORWARDED_READS)%nat.
Proof.
  intros Hu Hrun. pose proof (fwd_reach_inv epoch h r Hu Hrun) as Hi.
  pose proof (fwd_inv_tokens h r Hi) as Htok. destruct Hi as [_ _ _ Hord Hctx Hb].
  split_and!; try done; unfold ForwardedReads_remove_by_token.
  - intros token ctx ctx' Hr Hh. destruct (list_find _ _) as [[pos [t c]]|] eqn:Hf; [|done].
    apply list_find_Some in Hf as (Hl & Ht & _). cbn in Ht, Hr. simplify_eq.
    eapply NoDup_fst_unique; [exact Htok|exact Hh|].
    eapply elem_of_sublist; [|exact Hord]. by eapply list_elem_of_lookup_2.
  - intros token ctx Hin. destruct (list_find _ _) as [[pos [t c]]|] eqn:Hf.
    + apply list_find_Some in Hf as (Hl & Ht & _). cbn in Ht. subst t. cbn. f_equal.
      eapply (NoDup_fst_unique h); [exact Htok|..].
      * eapply elem_of_sublist; [|exact Hord]. by eapply list_elem_of_lookup_2.
      * by eapply elem_of_sublist.
    + apply list_find_None in Hf. rewrite Forall_forall in Hf. by destruct (Hf _ Hin).
Qed.

(** Two reads under epoch seven, a restart, and a read that reuses a context. *)
Module ForwardedDemo.
Definition demo_r1 : ForwardedReads := (ForwardedReads_push [x0a] (ForwardedReads_new 7)).2.
Definition demo_r2 : ForwardedReads := (ForwardedReads_push [x0a] (ForwardedReads_new 8)).2.

Lemma demo_fwd :
  rtc fwd_step ([], ForwardedReads_new 7)
    ([(fwd_token (7, 0), [x0a]); (fwd_token (8, 0), [x0a])], demo_r2).
Proof.
  eapply rtc_l; [by apply (fwd_push [] (ForwardedReads_new 7) [x0a] (fwd_token (7, 0)) demo_r1)|].
  eapply rtc_l; [by apply (fwd_restart _ _ 8)|].
  eapply rtc_l; [by apply (fwd_push _ (ForwardedReads_new 8) [x0a] (fwd_token (8, 0)) demo_r2)|].
  apply rtc_refl.
Qed.

Lemma forwarded_reads_matched_witness :
  (ForwardedReads_remove_by_token (fwd_token (7, 0)) demo_r2).1 = None
  ∧ (ForwardedReads_remove_by_token (fwd_token (8, 0)) demo_r2).1 = Some [x0a].
Proof.
  split; [by vm_compute|].
  exact (proj1 (proj2 (proj2 (forwarded_reads_matched 7 _ demo_r2 ltac:(by vm_compute) demo_fwd)))
    _ _ ltac:(by apply list_elem_of_singleton)).
Defined.
End ForwardedDemo.
