(* ===== verification/Message.v ===== *)
(** * Messages, events and the state machine interface

    [sailing-proto/src/message/mod.rs] (the RPC structures, [Message],
    [Outgoing]), [sailing-proto/src/event.rs] (what an endpoint reports to the
    application) and [sailing-proto/src/state_machine.rs] (the replicated
    application, a class). *)

From S2P Require Import Prelude Bytes Num Config Conf Entry ReadOnly.

(** ** RPC structures *)

Section messages.
Context {I : Type} `{!NodeId I}.

Record AppendEntries := {
  ae_term : Term; ae_leader : I; ae_prev_log_index : Index; ae_prev_log_term : Term;
  ae_entries : list Entry; ae_leader_commit : Index;
}.

Record AppendResponse := {
  ar_term : Term; ar_from : I; ar_reject : bool; ar_reject_hint_index : Index;
  ar_reject_hint_term : Term; ar_match_index : Index; ar_rejected_index : Index;
}.

Definition AppendResponse_new (term : Term) (from : I) (reject : bool) (reject_hint_index : Index)
    (reject_hint_term : Term) (match_index : Index) : AppendResponse :=
  {| ar_term := term; ar_from := from; ar_reject := reject;
     ar_reject_hint_index := reject_hint_index; ar_reject_hint_term := reject_hint_term;
     ar_match_index := match_index; ar_rejected_index := 0 |}.

Record RequestVote := {
  rv_term : Term; rv_candidate : I; rv_last_log_index : Index; rv_last_log_term : Term;
  rv_pre_vote : bool; rv_leader_transfer : bool;
}.

Record VoteResponse := {
  vr_term : Term; vr_from : I; vr_pre_vote : bool; vr_reject : bool;
}.

Record Heartbeat := {
  hb_term : Term; hb_leader : I; hb_commit : Index; hb_context : bytes; hb_lease_round : u64;
}.

Definition Heartbeat_new (term : Term) (leader : I) (commit : Index) (context : bytes)
  : Heartbeat :=
  {| hb_term := term; hb_leader := leader; hb_commit := commit; hb_context := context;
     hb_lease_round := 0 |}.

Definition Heartbeat_with_lease_round (lease_round : u64) (h : Heartbeat) : Heartbeat :=
  {| hb_term := hb_term h; hb_leader := hb_leader h; hb_commit := hb_commit h;
     hb_context := hb_context h; hb_lease_round := lease_round |}.

Record HeartbeatResponse := {
  hr_term : Term; hr_from : I; hr_context : bytes; hr_lease_round : u64;
  hr_lease_support : Duration; hr_stuck_boundary : Index;
}.

Record InstallSnapshot := {
  is_term : Term; is_leader : I; is_snapshot : SnapshotMeta I; is_data : bytes;
  is_offset : u64; is_total_len : u64;
}.

Definition InstallSnapshot_is_last (m : InstallSnapshot) : bool :=
  negb (is_total_len m =? 0)
  && (saturating_add (is_offset m) (N.of_nat (length (is_data m))) =? is_total_len m).

Record SnapshotResponse := {
  sr_term : Term; sr_from : I; sr_reject : bool; sr_match_index : Index;
  sr_acked_through : u64; sr_progress : bool;
}.

Definition SnapshotResponse_new (term : Term) (from : I) (reject : bool) (match_index : Index)
  : SnapshotResponse :=
  {| sr_term := term; sr_from := from; sr_reject := reject; sr_match_index := match_index;
     sr_acked_through := 0; sr_progress := false |}.

Record TimeoutNow := { tn_term : Term; tn_leader : I }.
Record ReadIndex := { ri_term : Term; ri_from : I; ri_context : bytes }.

Record ReadIndexResponse := {
  rr_term : Term; rr_from : I; rr_index : Index; rr_context : bytes; rr_reject : bool;
}.

Inductive Message :=
| MAppendEntries (m : AppendEntries)
| MAppendResponse (m : AppendResponse)
| MRequestVote (m : RequestVote)
| MVoteResponse (m : VoteResponse)
| MHeartbeat (m : Heartbeat)
| MHeartbeatResponse (m : HeartbeatResponse)
| MInstallSnapshot (m : InstallSnapshot)
| MSnapshotResponse (m : SnapshotResponse)
| MTimeoutNow (m : TimeoutNow)
| MReadIndex (m : ReadIndex)
| MReadIndexResponse (m : ReadIndexResponse).

Definition Message_term (msg : Message) : Term :=
  match msg with
  | MAppendEntries m => ae_term m
  | MAppendResponse m => ar_term m
  | MRequestVote m => rv_term m
  | MVoteResponse m => vr_term m
  | MHeartbeat m => hb_term m
  | MHeartbeatResponse m => hr_term m
  | MInstallSnapshot m => is_term m
  | MSnapshotResponse m => sr_term m
  | MTimeoutNow m => tn_term m
  | MReadIndex m => ri_term m
  | MReadIndexResponse m => rr_term m
  end.

Definition Message_from (msg : Message) : I :=
  match msg with
  | MAppendEntries m => ae_leader m
  | MRequestVote m => rv_candidate m
  | MHeartbeat m => hb_leader m
  | MInstallSnapshot m => is_leader m
  | MTimeoutNow m => tn_leader m
  | MAppendResponse m => ar_from m
  | MVoteResponse m => vr_from m
  | MHeartbeatResponse m => hr_from m
  | MSnapshotResponse m => sr_from m
  | MReadIndex m => ri_from m
  | MReadIndexResponse m => rr_from m
  end.

Record Outgoing := { out_to : I; out_message : Message }.
End messages.

Arguments AppendEntries : clear implicits.
Arguments AppendResponse : clear implicits.
Arguments RequestVote : clear implicits.
Arguments VoteResponse : clear implicits.
Arguments Heartbeat : clear implicits.
Arguments HeartbeatResponse : clear implicits.
Arguments InstallSnapshot I {_}.
Arguments SnapshotResponse : clear implicits.
Arguments TimeoutNow : clear implicits.
Arguments ReadIndex : clear implicits.
Arguments ReadIndexResponse : clear implicits.
Arguments Message I {_}.
Arguments Outgoing I {_}.

(** ** The replicated application *)

Class StateMachine (F : Type) := {
  sm_command : Type;
  sm_response : Type;
  sm_snapshot : Type;
  sm_error : Type;
  sm_apply : Index → sm_command → F → result sm_response sm_error * F;
  sm_take_snapshot : F → result sm_snapshot sm_error;
  sm_restore : sm_snapshot → F → result unit sm_error * F;
  sm_split : bytes → F → option F * F;
  sm_absorb : F → F → bool * F;
  sm_supports_split : F → bool;
  sm_supports_absorb : F → bool;
}.

(** ** Events *)

Record Merged := { mg_index : Index; mg_source : bytes; mg_gen_after : u64 }.

Section events.
Context {I : Type} `{!NodeId I} {Resp : Type}.

Inductive Event :=
| EvApplied (index : Index) (response : Resp)
| EvLeaderChanged (term : Term) (leader : option I)
| EvSnapshotInstalled (meta : SnapshotMeta I)
| EvMergeCureUndeliverable (peer : I) (boundary : Index)
| EvConfChanged (index : Index) (conf : ConfState I)
| EvReadModeChanged (index : Index) (mode : ReadOnlyOption)
| EvSplitApplied (index : Index) (child : bytes)
| EvSplitStale (index : Index) (child : bytes) (minted_gen shape_gen : u64)
| EvMergeFrozen (index : Index) (gen_after : u64)
| EvMergeRolledBack (index : Index) (gen_after : u64)
| EvMerged (m : Merged)
| EvMergeAborted (index : Index) (source : bytes) (gen_after : u64)
| EvReadState (rs : ReadState).
End events.
Arguments Event I {_} Resp.
