(* ===== verification/Wire.v ===== *)
(** * Frame sizing and the wire structures

    The closed-form sizes of [sailing-proto/src/wire/mod.rs] that the sender
    bounds its messages with.  Sizes are [usize] (64 bits wide); every operand
    is the size of something that is in memory, so the sums do not wrap.  The
    length functions of the [buffa] protobuf runtime are the fields of
    [BuffaSizes]. *)

From S2P Require Import Prelude Bytes Num Conf Config Data Frame Entry Shape.

(** The encoded lengths of a varint, of a [uint64] body, of a [bytes] body (its
    length prefix included) and of a [bool] body. *)
Class BuffaSizes := {
  buffa_varint_len : u64 → N;
  buffa_uint64_encoded_len : u64 → N;
  buffa_bytes_encoded_len : bytes → N;
  buffa_BOOL_ENCODED_LEN : N;
}.

Definition MAX_FRAME_BYTES : N := 64 * 1024 * 1024.
Definition MAX_ID_LEN : N := 1024.
Definition ENTRY_WIRE_OVERHEAD_MAX : N := 128.
Definition GROUP_HEADER_RESERVE : N := 2 + MAX_GROUP_ID_LEN + N.of_nat MAX_GENERATION_VARINT_LEN.
Definition APPEND_ENTRIES_HEADER_RESERVE : N := MAX_ID_LEN + 256 + GROUP_HEADER_RESERVE.
Definition APPEND_FRAME_ENTRY_BUDGET : N := MAX_FRAME_BYTES - APPEND_ENTRIES_HEADER_RESERVE.

Definition entry_frame_cost (e : Entry) : N :=
  saturating_add (N.of_nat (length (e_data e))) ENTRY_WIRE_OVERHEAD_MAX.

Section sizes.
Context {BS : BuffaSizes}.

Definition present_uint64 (value : u64) : N :=
  if value =? 0 then 0 else 1 + buffa_uint64_encoded_len value.

Definition present_bytes (value : bytes) : N :=
  match value with [] => 0 | _ => 1 + buffa_bytes_encoded_len value end.

Context {I : Type} `{!NodeId I} {DI : Data I}.

Definition id_bytes_field (id : I) : N := 1 + buffa_bytes_encoded_len (data_encode id).

Definition fork_encoded_len (f : ForkId) : N :=
  present_bytes (fk_parent f) + present_uint64 (fk_parent_incarnation f)
  + present_uint64 (fk_split_index f) + present_uint64 (fk_split_term f)
  + present_bytes (fk_child f) + present_uint64 (fk_child_gen f).

Definition install_snapshot_encoded_len (term : Term) (leader : I) (meta : SnapshotMeta I)
    (offset total_len data_len : u64) : N :=
  let conf := sm_conf meta in
  let set_size (s : gset I) := foldr (λ id n, id_bytes_field id + n) 0 (btree_iter s) in
  let conf_size :=
    set_size (cs_voters conf) + set_size (cs_learners conf) + set_size (cs_voters_outgoing conf)
    + set_size (cs_learners_next conf)
    + (if cs_auto_leave conf then 1 + buffa_BOOL_ENCODED_LEN else 0) in
  let meta_size :=
    1 + buffa_varint_len conf_size + conf_size
    + present_uint64 (sm_last_index meta) + present_uint64 (sm_last_term meta)
    + present_uint64 (sm_max_lease_window meta) + present_uint64 (sm_max_wall_plus_window meta)
    + present_uint64 (sm_max_unwalled_lease_window meta)
    + present_uint64 (match sm_read_only meta with
                      | Some o => ReadOnlyOption_as_u8 o + 1
                      | None => 0
                      end)
    + present_uint64 (sm_shape_gen meta)
    + match sm_fork_id meta with
      | Some f => let n := fork_encoded_len f in 1 + buffa_varint_len n + n
      | None => 0
      end in
  let is_size :=
    present_uint64 term + id_bytes_field leader
    + (1 + buffa_varint_len meta_size + meta_size)
    + (if data_len =? 0 then 0 else 1 + buffa_varint_len data_len + data_len)
    + present_uint64 offset + present_uint64 total_len in
  1 + buffa_varint_len is_size + is_size.
End sizes.

(** * The protobuf messages

    [sailing-proto/proto/sailing/v1/messages.proto]: one record per message, one
    inductive type per enumeration and per [oneof].  A [uint64] is an [N], a
    [repeated] field a list, a sub-message an option.  An enumeration field holds
    a known value or the number of an unknown one.  The encoder and decoder the
    build generates for a message are the fields of [Buffa], an argument of the
    definitions that call them. *)

Inductive EnumValue (E : Type) := Known (v : E) | Unknown (n : Z).
Arguments Known {E} v.
Arguments Unknown {E} n.

Inductive PbEntryKind :=
  | PbNormal | PbConfChangeKind | PbEmpty | PbSetReadMode | PbSplit
  | PbPrepareMerge | PbCommitMerge | PbRollbackMerge | PbThawDischarged.

Inductive PbConfChangeType := PbAddNode | PbRemoveNode | PbAddLearnerNode.
Inductive PbConfChangeTransition := PbAuto | PbImplicit | PbExplicit.

Record PbEntry := {
  pbe_term : u64; pbe_index : u64; pbe_kind : EnumValue PbEntryKind; pbe_data : bytes;
  pbe_timestamp : u64; pbe_lease_window : u64; pbe_wall_timestamp : u64;
}.

Record PbConfState := {
  pbc_voters : list bytes; pbc_learners : list bytes; pbc_voters_outgoing : list bytes;
  pbc_learners_next : list bytes; pbc_auto_leave : bool;
}.

Record PbForkId := {
  pbf_parent : bytes; pbf_parent_incarnation : u64; pbf_split_index : u64; pbf_split_term : u64;
  pbf_child : bytes; pbf_child_gen : u64;
}.

Record PbSnapshotMeta := {
  pbs_last_index : u64; pbs_last_term : u64; pbs_conf : option PbConfState;
  pbs_max_lease_window : u64; pbs_max_wall_plus_window : u64; pbs_max_unwalled_lease_window : u64;
  pbs_read_only : u64; pbs_shape_gen : u64; pbs_fork_id : option PbForkId;
}.

Record PbAppendEntries := {
  pbae_term : u64; pbae_leader_id : bytes; pbae_prev_log_index : u64; pbae_prev_log_term : u64;
  pbae_entries : list PbEntry; pbae_leader_commit : u64;
}.

Record PbAppendResponse := {
  pbar_term : u64; pbar_from_id : bytes; pbar_reject : bool; pbar_reject_hint_index : u64;
  pbar_reject_hint_term : u64; pbar_match_index : u64; pbar_rejected_index : u64;
}.

Record PbRequestVote := {
  pbrv_term : u64; pbrv_candidate_id : bytes; pbrv_last_log_index : u64;
  pbrv_last_log_term : u64; pbrv_pre_vote : bool; pbrv_leader_transfer : bool;
}.

Record PbVoteResponse := {
  pbvr_term : u64; pbvr_from_id : bytes; pbvr_pre_vote : bool; pbvr_reject : bool;
}.

Record PbHeartbeat := {
  pbhb_term : u64; pbhb_leader_id : bytes; pbhb_commit : u64; pbhb_context : bytes;
  pbhb_lease_round : u64;
}.

Record PbHeartbeatResponse := {
  pbhr_term : u64; pbhr_from_id : bytes; pbhr_context : bytes; pbhr_lease_round : u64;
  pbhr_lease_support_secs : u64; pbhr_lease_support_nanos : u64; pbhr_stuck_boundary : u64;
}.

Record PbInstallSnapshot := {
  pbis_term : u64; pbis_leader_id : bytes; pbis_snapshot : option PbSnapshotMeta;
  pbis_data : bytes; pbis_offset : u64; pbis_total_len : u64;
}.

Record PbSnapshotResponse := {
  pbsr_term : u64; pbsr_from_id : bytes; pbsr_reject : bool; pbsr_match_index : u64;
  pbsr_acked_through : u64; pbsr_progress : bool;
}.

Record PbTimeoutNow := { pbtn_term : u64; pbtn_leader_id : bytes }.

Record PbReadIndex := { pbri_term : u64; pbri_from_id : bytes; pbri_context : bytes }.

Record PbReadIndexResponse := {
  pbrr_term : u64; pbrr_from_id : bytes; pbrr_index : u64; pbrr_context : bytes;
  pbrr_reject : bool;
}.

Record PbConfChangeSingle := {
  pbcs_change_type : EnumValue PbConfChangeType; pbcs_node_id : bytes;
}.

Record PbConfChangeV2 := {
  pbcv_transition : EnumValue PbConfChangeTransition; pbcv_changes : list PbConfChangeSingle;
  pbcv_context : bytes;
}.

Inductive PbBody :=
| PbbAppendEntries (m : PbAppendEntries)
| PbbAppendResponse (m : PbAppendResponse)
| PbbRequestVote (m : PbRequestVote)
| PbbVoteResponse (m : PbVoteResponse)
| PbbHeartbeat (m : PbHeartbeat)
| PbbHeartbeatResponse (m : PbHeartbeatResponse)
| PbbInstallSnapshot (m : PbInstallSnapshot)
| PbbSnapshotResponse (m : PbSnapshotResponse)
| PbbTimeoutNow (m : PbTimeoutNow)
| PbbReadIndex (m : PbReadIndex)
| PbbReadIndexResponse (m : PbReadIndexResponse).

Record PbMessage := { pbm_body : option PbBody }.

(** The generated encoder and decoder of a message. *)
Class Buffa (M : Type) := {
  buffa_encode : M → bytes;
  buffa_decode : bytes → result M BuffaDecodeError;
}.

Definition pb_body_term (b : PbBody) : u64 :=
  match b with
  | PbbAppendEntries m => pbae_term m
  | PbbAppendResponse m => pbar_term m
  | PbbRequestVote m => pbrv_term m
  | PbbVoteResponse m => pbvr_term m
  | PbbHeartbeat m => pbhb_term m
  | PbbHeartbeatResponse m => pbhr_term m
  | PbbInstallSnapshot m => pbis_term m
  | PbbSnapshotResponse m => pbsr_term m
  | PbbTimeoutNow m => pbtn_term m
  | PbbReadIndex m => pbri_term m
  | PbbReadIndexResponse m => pbrr_term m
  end.

(** A [uint64] field of a generated struct is a [u64]: the fields a handler
    compares or counts from. *)
Definition pb_message_u64 (w : PbMessage) : Prop :=
  match pbm_body w with
  | None => True
  | Some b =>
      is_u64 (pb_body_term b)
      ∧ match b with
        | PbbInstallSnapshot m =>
            match pbis_snapshot m with Some s => is_u64 (pbs_last_index s) | None => True end
        | _ => True
        end
  end.

Class BuffaWidths `{!Buffa PbMessage} : Prop :=
  buffa_decode_u64 b w : buffa_decode b = Ok w → pb_message_u64 w.

(** ** The protobuf wire format

    What the [buffa] runtime offers to hand-written encoders.  A field is a tag
    (its number and wire type) and a value; a default value is not written; a
    nested message and a byte string carry their length. *)

Inductive WireType := Varint | LengthDelimited.

Class BuffaWire := {
  buffa_tag : N → WireType → bytes;
  buffa_encode_varint : u64 → bytes;
  buffa_encode_uint64 : u64 → bytes;
  buffa_encode_bytes : bytes → bytes;
  buffa_encode_bool : bool → bytes;
}.

Section fields.
Context {BW : BuffaWire}.

Definition field_uint64 (n : N) (v : u64) : bytes :=
  if v =? 0 then [] else buffa_tag n Varint ++ buffa_encode_uint64 v.

Definition field_bool (n : N) (b : bool) : bytes :=
  if b then buffa_tag n Varint ++ buffa_encode_bool b else [].

Definition element_bytes (n : N) (b : bytes) : bytes :=
  buffa_tag n LengthDelimited ++ buffa_encode_bytes b.

Definition field_bytes (n : N) (b : bytes) : bytes :=
  match b with [] => [] | _ => element_bytes n b end.

Definition field_message (n : N) (body : bytes) : bytes :=
  buffa_tag n LengthDelimited ++ buffa_encode_varint (N.of_nat (length body)) ++ body.

Definition option_message {M} `{!Buffa M} (n : N) (m : option M) : bytes :=
  match m with Some m => field_message n (buffa_encode m) | None => [] end.

(** The documented encoding of the messages a snapshot chunk is made of: their
    fields in the order of their numbers. *)
Class Proto3 `{!Buffa PbMessage, !Buffa PbInstallSnapshot, !Buffa PbSnapshotMeta,
    !Buffa PbConfState, !Buffa PbForkId} := {
  p3_message : ∀ m,
    buffa_encode {| pbm_body := Some (PbbInstallSnapshot m) |} = field_message 7 (buffa_encode m);
  p3_install : ∀ m,
    buffa_encode m
    = field_uint64 1 (pbis_term m) ++ field_bytes 2 (pbis_leader_id m)
      ++ option_message 3 (pbis_snapshot m) ++ field_bytes 4 (pbis_data m)
      ++ field_uint64 5 (pbis_offset m) ++ field_uint64 6 (pbis_total_len m);
  p3_meta : ∀ m,
    buffa_encode m
    = field_uint64 1 (pbs_last_index m) ++ field_uint64 2 (pbs_last_term m)
      ++ option_message 3 (pbs_conf m) ++ field_uint64 4 (pbs_max_lease_window m)
      ++ field_uint64 5 (pbs_max_wall_plus_window m)
      ++ field_uint64 6 (pbs_max_unwalled_lease_window m)
      ++ field_uint64 7 (pbs_read_only m) ++ field_uint64 8 (pbs_shape_gen m)
      ++ option_message 9 (pbs_fork_id m);
  p3_conf : ∀ m,
    buffa_encode m
    = mjoin (element_bytes 1 <$> pbc_voters m) ++ mjoin (element_bytes 2 <$> pbc_learners m)
      ++ mjoin (element_bytes 3 <$> pbc_voters_outgoing m)
      ++ mjoin (element_bytes 4 <$> pbc_learners_next m) ++ field_bool 5 (pbc_auto_leave m);
  p3_fork : ∀ m,
    buffa_encode m
    = field_bytes 1 (pbf_parent m) ++ field_uint64 2 (pbf_parent_incarnation m)
      ++ field_uint64 3 (pbf_split_index m) ++ field_uint64 4 (pbf_split_term m)
      ++ field_bytes 5 (pbf_child m) ++ field_uint64 6 (pbf_child_gen m);
}.
End fields.
