(* ===== verification/Codec.v ===== *)
(** * Messages on the wire

    [sailing-proto/src/wire/mod.rs]: the conversions between the crate's messages
    and the protobuf ones, the codecs built from them and the generated encoders
    ([Buffa]), and the caching encoder of snapshot chunks. *)

From S2P Require Import Prelude Bytes Num Conf Config Data Frame Entry Shape Wire Message.

(** [iter.map(f).collect::<Result<Vec<_>, _>>()] *)
Fixpoint try_collect {A B E} (f : A → result B E) (l : list A) : result (list B) E :=
  match l with
  | [] => Ok []
  | a :: l => let? b := f a in let? bs := try_collect f l in Ok (b :: bs)
  end.

(** ** Enumerations and entries *)

Definition pb_cc_type (t : ConfChangeType) : EnumValue PbConfChangeType :=
  Known (match t with
         | AddNode => PbAddNode
         | RemoveNode => PbRemoveNode
         | AddLearnerNode => PbAddLearnerNode
         end).

Definition cc_type_from (v : EnumValue PbConfChangeType) : result ConfChangeType DecodeError :=
  match v with
  | Known PbAddNode => Ok AddNode
  | Known PbRemoveNode => Ok RemoveNode
  | Known PbAddLearnerNode => Ok AddLearnerNode
  | Unknown _ => Err (Invalid "ConfChangeType")
  end.

Definition pb_transition (t : ConfChangeTransition) : PbConfChangeTransition :=
  match t with Auto => PbAuto | Implicit => PbImplicit | Explicit => PbExplicit end.

Definition pb_entry_kind (k : EntryKind) : PbEntryKind :=
  match k with
  | EkNormal => PbNormal
  | EkConfChange => PbConfChangeKind
  | EkEmpty => PbEmpty
  | EkSetReadMode => PbSetReadMode
  | EkSplit => PbSplit
  | EkPrepareMerge => PbPrepareMerge
  | EkCommitMerge => PbCommitMerge
  | EkRollbackMerge => PbRollbackMerge
  | EkThawDischarged => PbThawDischarged
  end.

Definition entry_kind_from (v : EnumValue PbEntryKind) : result EntryKind DecodeError :=
  match v with
  | Known PbNormal => Ok EkNormal
  | Known PbConfChangeKind => Ok EkConfChange
  | Known PbEmpty => Ok EkEmpty
  | Known PbSetReadMode => Ok EkSetReadMode
  | Known PbSplit => Ok EkSplit
  | Known PbPrepareMerge => Ok EkPrepareMerge
  | Known PbCommitMerge => Ok EkCommitMerge
  | Known PbRollbackMerge => Ok EkRollbackMerge
  | Known PbThawDischarged => Ok EkThawDischarged
  | Unknown _ => Err (Invalid "EntryKind")
  end.

Definition pb_entry (e : Entry) : PbEntry :=
  {| pbe_term := e_term e; pbe_index := e_index e; pbe_kind := Known (pb_entry_kind (e_kind e));
     pbe_data := e_data e; pbe_timestamp := e_timestamp e; pbe_lease_window := e_lease_window e;
     pbe_wall_timestamp := e_wall_timestamp e |}.

Definition entry_from (w : PbEntry) : result Entry DecodeError :=
  let? kind := entry_kind_from (pbe_kind w) in
  Ok (Entry_with_wall_timestamp (pbe_wall_timestamp w)
        (Entry_with_lease_window (pbe_lease_window w)
           (Entry_with_timestamp (pbe_timestamp w)
              (Entry_new (pbe_term w) (pbe_index w) kind (pbe_data w))))).

Definition pb_fork_id (f : ForkId) : PbForkId :=
  {| pbf_parent := fk_parent f; pbf_parent_incarnation := fk_parent_incarnation f;
     pbf_split_index := fk_split_index f; pbf_split_term := fk_split_term f;
     pbf_child := fk_child f; pbf_child_gen := fk_child_gen f |}.

Definition fork_id_from (w : PbForkId) : ForkId :=
  {| fk_parent := pbf_parent w; fk_parent_incarnation := pbf_parent_incarnation w;
     fk_split_index := pbf_split_index w; fk_split_term := pbf_split_term w;
     fk_child := pbf_child w; fk_child_gen := pbf_child_gen w |}.

Section codec.
Context {I : Type} `{!NodeId I, !Data I}.

(** ** Identifiers and sets of them *)

Definition encode_id (id : I) : bytes := data_encode id.

Definition decode_id (b : bytes) : result I DecodeError :=
  if bool_decide (b = []) || (MAX_ID_LEN <? blen b) then Err (Invalid "node id length")
  else decode_exact b.

Definition id_within_wire_bound (id : I) : bool :=
  let v := data_encode id in negb (bool_decide (v = [])) && (blen v <=? MAX_ID_LEN).

Definition encode_set (s : gset I) : list bytes := map encode_id (btree_iter s).

Fixpoint decode_set_from (prev : option I) (out : gset I) (elems : list bytes)
  : result (gset I) DecodeError :=
  match elems with
  | [] => Ok out
  | b :: elems =>
      let? id := decode_id b in
      if match prev with Some p => bool_decide (nid_le id p) | None => false end
      then Err (Invalid "set order")
      else decode_set_from (Some id) (out ∪ {[id]}) elems
  end.

Definition decode_set : list bytes → result (gset I) DecodeError := decode_set_from None ∅.

(** ** Membership and snapshot metadata *)

Definition pb_conf_state (c : ConfState I) : PbConfState :=
  {| pbc_voters := encode_set (cs_voters c); pbc_learners := encode_set (cs_learners c);
     pbc_voters_outgoing := encode_set (cs_voters_outgoing c);
     pbc_learners_next := encode_set (cs_learners_next c); pbc_auto_leave := cs_auto_leave c |}.

Definition conf_state_from (w : PbConfState) : result (ConfState I) DecodeError :=
  let? voters := decode_set (pbc_voters w) in
  let? learners := decode_set (pbc_learners w) in
  let? voters_outgoing := decode_set (pbc_voters_outgoing w) in
  let? learners_next := decode_set (pbc_learners_next w) in
  Ok {| cs_voters := voters; cs_learners := learners; cs_voters_outgoing := voters_outgoing;
        cs_learners_next := learners_next; cs_auto_leave := pbc_auto_leave w |}.

Definition pb_read_only (o : option ReadOnlyOption) : u64 :=
  match o with Some o => ReadOnlyOption_as_u8 o + 1 | None => 0 end.

(** [u8::try_from(n - 1)] fails above 255, where [from_u8] has no mode either. *)
Definition read_only_from (n : u64) : result (option ReadOnlyOption) DecodeError :=
  if n =? 0 then Ok None
  else match (if n - 1 <=? 255 then ReadOnlyOption_from_u8 (n - 1) else None) with
       | Some o => Ok (Some o)
       | None => Err (Invalid "SnapshotMeta.read_only")
       end.

Definition pb_snapshot_meta (m : SnapshotMeta I) : PbSnapshotMeta :=
  {| pbs_last_index := sm_last_index m; pbs_last_term := sm_last_term m;
     pbs_conf := Some (pb_conf_state (sm_conf m));
     pbs_max_lease_window := sm_max_lease_window m;
     pbs_max_wall_plus_window := sm_max_wall_plus_window m;
     pbs_max_unwalled_lease_window := sm_max_unwalled_lease_window m;
     pbs_read_only := pb_read_only (sm_read_only m); pbs_shape_gen := sm_shape_gen m;
     pbs_fork_id := pb_fork_id <$> sm_fork_id m |}.

Definition snapshot_meta_from (w : PbSnapshotMeta) : result (SnapshotMeta I) DecodeError :=
  match pbs_conf w with
  | None => Err (Invalid "SnapshotMeta.conf")
  | Some conf =>
      let? read_only := read_only_from (pbs_read_only w) in
      let? conf := conf_state_from conf in
      Ok {| sm_last_index := pbs_last_index w; sm_last_term := pbs_last_term w; sm_conf := conf;
            sm_max_lease_window := pbs_max_lease_window w;
            sm_max_wall_plus_window := pbs_max_wall_plus_window w;
            sm_max_unwalled_lease_window := pbs_max_unwalled_lease_window w;
            sm_read_only := read_only; sm_shape_gen := pbs_shape_gen w;
            sm_fork_id := fork_id_from <$> pbs_fork_id w |}
  end.

(** ** Messages *)

Definition NANOS_PER_SEC : N := 1000000000.

Definition pb_body (msg : Message I) : PbBody :=
  match msg with
  | MAppendEntries m => PbbAppendEntries
      {| pbae_term := ae_term m; pbae_leader_id := encode_id (ae_leader m);
         pbae_prev_log_index := ae_prev_log_index m; pbae_prev_log_term := ae_prev_log_term m;
         pbae_entries := map pb_entry (ae_entries m); pbae_leader_commit := ae_leader_commit m |}
  | MAppendResponse m => PbbAppendResponse
      {| pbar_term := ar_term m; pbar_from_id := encode_id (ar_from m);
         pbar_reject := ar_reject m; pbar_reject_hint_index := ar_reject_hint_index m;
         pbar_reject_hint_term := ar_reject_hint_term m; pbar_match_index := ar_match_index m;
         pbar_rejected_index := ar_rejected_index m |}
  | MRequestVote m => PbbRequestVote
      {| pbrv_term := rv_term m; pbrv_candidate_id := encode_id (rv_candidate m);
         pbrv_last_log_index := rv_last_log_index m; pbrv_last_log_term := rv_last_log_term m;
         pbrv_pre_vote := rv_pre_vote m; pbrv_leader_transfer := rv_leader_transfer m |}
  | MVoteResponse m => PbbVoteResponse
      {| pbvr_term := vr_term m; pbvr_from_id := encode_id (vr_from m);
         pbvr_pre_vote := vr_pre_vote m; pbvr_reject := vr_reject m |}
  | MHeartbeat m => PbbHeartbeat
      {| pbhb_term := hb_term m; pbhb_leader_id := encode_id (hb_leader m);
         pbhb_commit := hb_commit m; pbhb_context := hb_context m;
         pbhb_lease_round := hb_lease_round m |}
  | MHeartbeatResponse m => PbbHeartbeatResponse
      {| pbhr_term := hr_term m; pbhr_from_id := encode_id (hr_from m);
         pbhr_context := hr_context m; pbhr_lease_round := hr_lease_round m;
         pbhr_lease_support_secs := hr_lease_support m / NANOS_PER_SEC;
         pbhr_lease_support_nanos := hr_lease_support m mod NANOS_PER_SEC;
         pbhr_stuck_boundary := hr_stuck_boundary m |}
  | MInstallSnapshot m => PbbInstallSnapshot
      {| pbis_term := is_term m; pbis_leader_id := encode_id (is_leader m);
         pbis_snapshot := Some (pb_snapshot_meta (is_snapshot m)); pbis_data := is_data m;
         pbis_offset := is_offset m; pbis_total_len := is_total_len m |}
  | MSnapshotResponse m => PbbSnapshotResponse
      {| pbsr_term := sr_term m; pbsr_from_id := encode_id (sr_from m);
         pbsr_reject := sr_reject m; pbsr_match_index := sr_match_index m;
         pbsr_acked_through := sr_acked_through m; pbsr_progress := sr_progress m |}
  | MTimeoutNow m => PbbTimeoutNow
      {| pbtn_term := tn_term m; pbtn_leader_id := encode_id (tn_leader m) |}
  | MReadIndex m => PbbReadIndex
      {| pbri_term := ri_term m; pbri_from_id := encode_id (ri_from m);
         pbri_context := ri_context m |}
  | MReadIndexResponse m => PbbReadIndexResponse
      {| pbrr_term := rr_term m; pbrr_from_id := encode_id (rr_from m); pbrr_index := rr_index m;
         pbrr_context := rr_context m; pbrr_reject := rr_reject m |}
  end.

Definition pb_message (msg : Message I) : PbMessage := {| pbm_body := Some (pb_body msg) |}.

Definition body_from (body : PbBody) : result (Message I) DecodeError :=
  match body with
  | PbbAppendEntries m =>
      let? leader := decode_id (pbae_leader_id m) in
      let? entries := try_collect entry_from (pbae_entries m) in
      Ok (MAppendEntries
        {| ae_term := pbae_term m; ae_leader := leader;
           ae_prev_log_index := pbae_prev_log_index m; ae_prev_log_term := pbae_prev_log_term m;
           ae_entries := entries; ae_leader_commit := pbae_leader_commit m |})
  | PbbAppendResponse m =>
      let? from := decode_id (pbar_from_id m) in
      Ok (MAppendResponse
        {| ar_term := pbar_term m; ar_from := from; ar_reject := pbar_reject m;
           ar_reject_hint_index := pbar_reject_hint_index m;
           ar_reject_hint_term := pbar_reject_hint_term m; ar_match_index := pbar_match_index m;
           ar_rejected_index := pbar_rejected_index m |})
  | PbbRequestVote m =>
      let? candidate := decode_id (pbrv_candidate_id m) in
      Ok (MRequestVote
        {| rv_term := pbrv_term m; rv_candidate := candidate;
           rv_last_log_index := pbrv_last_log_index m; rv_last_log_term := pbrv_last_log_term m;
           rv_pre_vote := pbrv_pre_vote m; rv_leader_transfer := pbrv_leader_transfer m |})
  | PbbVoteResponse m =>
      let? from := decode_id (pbvr_from_id m) in
      Ok (MVoteResponse
        {| vr_term := pbvr_term m; vr_from := from; vr_pre_vote := pbvr_pre_vote m;
           vr_reject := pbvr_reject m |})
  | PbbHeartbeat m =>
      let? leader := decode_id (pbhb_leader_id m) in
      Ok (MHeartbeat
        {| hb_term := pbhb_term m; hb_leader := leader; hb_commit := pbhb_commit m;
           hb_context := pbhb_context m; hb_lease_round := pbhb_lease_round m |})
  | PbbHeartbeatResponse m =>
      if NANOS_PER_SEC <=? pbhr_lease_support_nanos m then Err (Invalid "lease_support nanos")
      else
        let? from := decode_id (pbhr_from_id m) in
        Ok (MHeartbeatResponse
          {| hr_term := pbhr_term m; hr_from := from; hr_context := pbhr_context m;
             hr_lease_round := pbhr_lease_round m;
             hr_lease_support :=
               pbhr_lease_support_secs m * NANOS_PER_SEC + pbhr_lease_support_nanos m;
             hr_stuck_boundary := pbhr_stuck_boundary m |})
  | PbbInstallSnapshot m =>
      match pbis_snapshot m with
      | None => Err (Invalid "InstallSnapshot.snapshot")
      | Some meta =>
          let? leader := decode_id (pbis_leader_id m) in
          let? meta := snapshot_meta_from meta in
          Ok (MInstallSnapshot
            {| is_term := pbis_term m; is_leader := leader; is_snapshot := meta;
               is_data := pbis_data m; is_offset := pbis_offset m;
               is_total_len := pbis_total_len m |})
      end
  | PbbSnapshotResponse m =>
      let? from := decode_id (pbsr_from_id m) in
      Ok (MSnapshotResponse
        {| sr_term := pbsr_term m; sr_from := from; sr_reject := pbsr_reject m;
           sr_match_index := pbsr_match_index m; sr_acked_through := pbsr_acked_through m;
           sr_progress := pbsr_progress m |})
  | PbbTimeoutNow m =>
      let? leader := decode_id (pbtn_leader_id m) in
      Ok (MTimeoutNow {| tn_term := pbtn_term m; tn_leader := leader |})
  | PbbReadIndex m =>
      let? from := decode_id (pbri_from_id m) in
      Ok (MReadIndex {| ri_term := pbri_term m; ri_from := from; ri_context := pbri_context m |})
  | PbbReadIndexResponse m =>
      let? from := decode_id (pbrr_from_id m) in
      Ok (MReadIndexResponse
        {| rr_term := pbrr_term m; rr_from := from; rr_index := pbrr_index m;
           rr_context := pbrr_context m; rr_reject := pbrr_reject m |})
  end.

Definition message_from (wire : PbMessage) : result (Message I) DecodeError :=
  match pbm_body wire with
  | None => Err (Invalid "Message.body")
  | Some body => body_from body
  end.

(** ** Configuration changes *)

Definition pb_conf_change_v2 (cc : ConfChangeV2 I) : PbConfChangeV2 :=
  {| pbcv_transition := Known (pb_transition (ccv2_transition cc));
     pbcv_changes := map (λ c, {| pbcs_change_type := pb_cc_type (ccs_ty c);
                                  pbcs_node_id := encode_id (ccs_node c) |}) (ccv2_changes cc);
     pbcv_context := ccv2_context cc |}.

Definition transition_from (v : EnumValue PbConfChangeTransition)
  : result ConfChangeTransition DecodeError :=
  match v with
  | Known PbAuto => Ok Auto
  | Known PbImplicit => Ok Implicit
  | Known PbExplicit => Ok Explicit
  | Unknown _ => Err (Invalid "ConfChangeTransition")
  end.

Definition change_from (c : PbConfChangeSingle) : result (ConfChangeSingle I) DecodeError :=
  let? ty := cc_type_from (pbcs_change_type c) in
  let? node := decode_id (pbcs_node_id c) in
  Ok (ConfChangeSingle_new ty node).

Definition conf_change_from (w : PbConfChangeV2) : result (ConfChangeV2 I) DecodeError :=
  let? transition := transition_from (pbcv_transition w) in
  let? changes := try_collect change_from (pbcv_changes w) in
  Ok {| ccv2_transition := transition; ccv2_changes := changes;
        ccv2_context := pbcv_context w |}.

Definition encode_conf_change_v2 `{!Buffa PbConfChangeV2} (cc : ConfChangeV2 I) : bytes :=
  buffa_encode (pb_conf_change_v2 cc).

Definition decode_conf_change_v2 `{!Buffa PbConfChangeV2} (data : bytes)
  : result (ConfChangeV2 I) DecodeError :=
  let? w := map_err (buffa_decode data) in conf_change_from w.

(** ** The codec of a message *)

Definition encode_message `{!Buffa PbMessage} (msg : Message I) : bytes :=
  buffa_encode (pb_message msg).

Definition decode_message `{!Buffa PbMessage} (frame : bytes) : result (Message I) DecodeError :=
  let? wire := map_err (buffa_decode frame) in message_from wire.

(** ** The encoder of snapshot chunks

    It encodes the metadata of a transfer once and writes each chunk's frame by
    hand. *)

Definition SNAPSHOT_META_CACHE_MAX_BYTES : N := 64 * 1024.

Record MessageEncoder := { enc_snapshot_meta : option (SnapshotMeta I * bytes) }.

Definition MessageEncoder_new : MessageEncoder := {| enc_snapshot_meta := None |}.
Definition MessageEncoder_clear (enc : MessageEncoder) : MessageEncoder :=
  {| enc_snapshot_meta := None |}.

Definition meta_body `{!Buffa PbSnapshotMeta} (meta : SnapshotMeta I) (enc : MessageEncoder)
  : bytes * MessageEncoder :=
  let fresh :=
    let body := buffa_encode (pb_snapshot_meta meta) in
    (body, {| enc_snapshot_meta :=
                if blen body <=? SNAPSHOT_META_CACHE_MAX_BYTES then Some (meta, body) else None |}) in
  match enc_snapshot_meta enc with
  | Some (cached, body) => if decide (cached = meta) then (body, enc) else fresh
  | None => fresh
  end.

Definition encode_install_snapshot `{!Buffa PbSnapshotMeta, !BuffaSizes, !BuffaWire}
    (m : InstallSnapshot I) (enc : MessageEncoder) : bytes * MessageEncoder :=
  let '(meta, enc) := meta_body (is_snapshot m) enc in
  let term := is_term m in
  let leader := encode_id (is_leader m) in
  let data := is_data m in
  let offset := is_offset m in
  let total_len := is_total_len m in
  let body_len :=
    (if negb (term =? 0) then 1 + buffa_uint64_encoded_len term else 0)
    + (if negb (bool_decide (leader = [])) then 1 + buffa_bytes_encoded_len leader else 0)
    + (1 + buffa_varint_len (blen meta) + blen meta)
    + (if negb (bool_decide (data = [])) then 1 + buffa_bytes_encoded_len data else 0)
    + (if negb (offset =? 0) then 1 + buffa_uint64_encoded_len offset else 0)
    + (if negb (total_len =? 0) then 1 + buffa_uint64_encoded_len total_len else 0) in
  let buf :=
    buffa_tag 7 LengthDelimited ++ buffa_encode_varint body_len
    ++ (if negb (term =? 0) then buffa_tag 1 Varint ++ buffa_encode_uint64 term else [])
    ++ (if negb (bool_decide (leader = []))
        then buffa_tag 2 LengthDelimited ++ buffa_encode_bytes leader else [])
    ++ buffa_tag 3 LengthDelimited ++ buffa_encode_varint (blen meta) ++ meta
    ++ (if negb (bool_decide (data = []))
        then buffa_tag 4 LengthDelimited ++ buffa_encode_bytes data else [])
    ++ (if negb (offset =? 0) then buffa_tag 5 Varint ++ buffa_encode_uint64 offset else [])
    ++ (if negb (total_len =? 0) then buffa_tag 6 Varint ++ buffa_encode_uint64 total_len
        else []) in
  (buf,
   if (total_len =? 0) || InstallSnapshot_is_last m then {| enc_snapshot_meta := None |} else enc).

Definition MessageEncoder_encode_message
    `{!Buffa PbMessage, !Buffa PbSnapshotMeta, !BuffaSizes, !BuffaWire}
    (msg : Message I) (enc : MessageEncoder) : bytes * MessageEncoder :=
  match msg with
  | MInstallSnapshot m => encode_install_snapshot m enc
  | other => (encode_message other, enc)
  end.

(** ** Which messages survive the wire *)

Context `{!DataLaws I}.

(** An identifier the bound admits. *)
Definition wire_id (id : I) : Prop := data_valid id ∧ id_within_wire_bound id = true.

Definition wire_set (s : gset I) : Prop := Forall wire_id (btree_iter s).

Definition wire_conf (c : ConfState I) : Prop :=
  wire_set (cs_voters c) ∧ wire_set (cs_learners c) ∧ wire_set (cs_voters_outgoing c)
  ∧ wire_set (cs_learners_next c).

Definition wire_message (msg : Message I) : Prop :=
  wire_id (Message_from msg)
  ∧ match msg with MInstallSnapshot m => wire_conf (sm_conf (is_snapshot m)) | _ => True end.

Definition wire_conf_change (cc : ConfChangeV2 I) : Prop :=
  Forall (λ c, wire_id (ccs_node c)) (ccv2_changes cc).

Lemma decode_id_spec b id : decode_id b = Ok id ↔ wire_id id ∧ b = encode_id id.
Proof.
  unfold decode_id, wire_id, id_within_wire_bound, encode_id.
  rewrite guard_Ok, decode_exact_spec, orb_false_iff, andb_true_iff, negb_true_iff.
  rewrite N.ltb_ge, N.leb_le. naive_solver.
Qed.

Lemma try_collect_spec {A B E} (f : A → result B E) (P : B → Prop) (g : B → A) l bs :
  (∀ a b, f a = Ok b ↔ P b ∧ a = g b) →
  try_collect f l = Ok bs ↔ Forall P bs ∧ l = map g bs.
Proof.
  intros Hf. revert bs. induction l as [|a l IH]; intros bs; cbn [try_collect].
  - split; [intros [= <-]; by split|]. intros [_ ?]. by destruct bs.
  - rewrite result_bind_Ok. setoid_rewrite result_bind_Ok. split.
    + intros (b & Hb & bs' & Hbs & [= <-]). apply Hf in Hb as [? ->]. apply IH in Hbs as [? ->].
      split; [by constructor|done].
    + intros [HP Hm]. destruct bs as [|b bs]; [done|]. injection Hm as -> ->.
      apply Forall_cons in HP as [??]. exists b. split; [by apply Hf|]. exists bs.
      split; [by apply IH|done].
Qed.

Lemma entry_from_spec w e : entry_from w = Ok e ↔ True ∧ w = pb_entry e.
Proof.
  unfold entry_from. rewrite result_bind_Ok. destruct w as [? ? k ? ? ? ?], e as [? ? k' ? ? ? ?].
  unfold pb_entry. cbn. split.
  - intros (x & Hx & [= <- <- <- <- <- <- <-]). split; [done|]. f_equal.
    destruct k as [[]|]; [by injection Hx as <-..|done].
  - intros [_ [= -> -> -> -> -> -> ->]]. exists k'. split; [by destruct k'|done].
Qed.

Lemma decode_set_from_spec (prev : list I) elems s :
  StronglySorted nid_lt prev →
  decode_set_from (last prev) (list_to_set prev) elems = Ok s ↔
  ∃ l, StronglySorted nid_lt (prev ++ l) ∧ Forall wire_id l ∧ elems = map encode_id l
    ∧ s = list_to_set (prev ++ l).
Proof.
  revert prev s. induction elems as [|b elems IH]; intros prev s Hs; cbn [decode_set_from].
  - split; [intros [= <-]; exists []; by rewrite app_nil_r|].
    intros (l & _ & _ & Hl & ->). destruct l; [|done]. by rewrite app_nil_r.
  - rewrite result_bind_Ok. cbv beta. setoid_rewrite decode_id_spec. setoid_rewrite guard_Ok.
    assert (∀ id : I, (match last prev with Some p => bool_decide (nid_le id p) | None => false end)
                  = false ↔ StronglySorted nid_lt (prev ++ [id])) as Hprev.
    { intros id. pose proof (set_push_spec id prev (list_to_set (prev ++ [id])) Hs) as Hp.
      unfold set_push in Hp. rewrite btree_iter_list_to_set, list_to_set_app_L in Hp by done.
      cbn in Hp. rewrite union_empty_r_L in Hp.
      destruct (match last prev with Some p => _ | None => false end); naive_solver. }
    assert (∀ id : I, list_to_set (C := gset I) prev ∪ {[id]} = list_to_set (prev ++ [id])) as Hset
      by (intros id; rewrite list_to_set_app_L; cbn; by rewrite union_empty_r_L).
    split.
    + intros (id & [Hid ->] & Hle & H). apply Hprev in Hle. rewrite Hset in H.
      rewrite <- (last_snoc id prev) in H. apply IH in H as (l & Hl & Hw & -> & ->); [|done].
      exists (id :: l). rewrite <- app_assoc in *. split_and!; try done. by constructor.
    + intros (l & Hl & Hw & Heq & ->). destruct l as [|id l]; [done|]. injection Heq as -> ->.
      apply Forall_cons in Hw as [Hid Hw]. exists id. rewrite (cons_middle id prev l), app_assoc in *.
      pose proof (StronglySorted_app_1_l _ _ _ Hl) as Hl1.
      split_and!; [done|done|by apply Hprev|]. rewrite Hset, <- (last_snoc id prev).
      apply IH; [done|]. by exists l.
Qed.

Lemma decode_set_spec elems s : decode_set elems = Ok s ↔ wire_set s ∧ elems = encode_set s.
Proof.
  unfold decode_set, wire_set, encode_set.
  change (decode_set_from None ∅) with (decode_set_from (last (@nil I)) (list_to_set (@nil I))).
  rewrite decode_set_from_spec by constructor. cbn [app]. split.
  - intros (l & Hl & Hw & -> & ->). by rewrite btree_iter_list_to_set.
  - intros [Hw ->]. exists (btree_iter s). split_and!; try done; [apply btree_iter_sorted|].
    apply set_eq. intros x. by rewrite elem_of_list_to_set, elem_of_btree_iter.
Qed.

Lemma conf_state_from_spec w c : conf_state_from w = Ok c ↔ wire_conf c ∧ w = pb_conf_state c.
Proof.
  unfold conf_state_from, wire_conf. repeat setoid_rewrite result_bind_Ok.
  repeat setoid_rewrite decode_set_spec. destruct w, c as [v l o n ?]. unfold pb_conf_state. cbn. split.
  - intros (? & [? ->] & ? & [? ->] & ? & [? ->] & ? & [? ->] & [= <- <- <- <- <-]). done.
  - intros [(? & ? & ? & ?) [= -> -> -> -> ->]].
    exists v; split; [done|]. exists l; split; [done|]. exists o; split; [done|]. by exists n.
Qed.

Lemma read_only_from_spec n o : read_only_from n = Ok o ↔ n = pb_read_only o.
Proof.
  unfold read_only_from, pb_read_only, ReadOnlyOption_from_u8, ReadOnlyOption_as_u8.
  destruct (N.eqb_spec n 0) as [->|Hn].
  - split; [by intros [= <-]|]. destruct o as [[]|]; done.
  - split.
    + destruct (N.leb_spec (n - 1) 255); [|done]. destruct (n - 1) as [|[[]|[]|]] eqn:E; try done;
        intros [= <-]; lia.
    + destruct o as [[]|]; [| | |done]; intros ->; done.
Qed.

Lemma snapshot_meta_from_spec w m :
  snapshot_meta_from w = Ok m ↔ wire_conf (sm_conf m) ∧ w = pb_snapshot_meta m.
Proof.
  unfold snapshot_meta_from, pb_snapshot_meta.
  destruct w as [? ? conf ? ? ? ? ? fork], m as [? ? conf' ? ? ? ro ? fork']. cbn.
  assert (fork' = fork_id_from <$> fork ↔ fork = pb_fork_id <$> fork') as Hfork.
  { destruct fork as [[]|], fork' as [[]|]; split; try done; by intros [= -> -> -> -> -> ->]. }
  destruct conf as [conf|]; [|by split; [|intros [_ ?]]].
  split.
  - intros Hw. apply result_bind_Ok in Hw as (ro' & Hro & Hw).
    apply result_bind_Ok in Hw as (c & Hc & Hw). apply read_only_from_spec in Hro as ->.
    apply conf_state_from_spec in Hc as [? ->]. injection Hw as <- <- <- <- <- <- <- <- Hf.
    symmetry in Hf. apply Hfork in Hf as ->. done.
  - intros [Hc [= -> -> -> -> -> -> -> -> Hf]]. apply Hfork in Hf as <-.
    rewrite (proj2 (read_only_from_spec _ ro)) by done. cbn [result_bind].
    by rewrite (proj2 (conf_state_from_spec _ conf')).
Qed.

#[local] Arguments snapshot_meta_from : simpl never.
#[local] Arguments pb_snapshot_meta : simpl never.
#[local] Arguments decode_id : simpl never.

Lemma body_from_pb msg : wire_message msg → body_from (pb_body msg) = Ok msg.
Proof.
  intros [Hid Hconf]. pose proof (proj2 (decode_id_spec _ _) (conj Hid eq_refl)) as Hdec.
  destruct msg as [m|m|m|m|m|m|m|m|m|m|m]; destruct m; cbn in Hdec, Hconf |- *.
  all: try (rewrite Hdec; cbn [result_bind]; done).
  - rewrite Hdec. cbn [result_bind].
    rewrite (proj2 (try_collect_spec entry_from (λ _, True) pb_entry _ ae_entries
               entry_from_spec)); [done|]. split; [by apply Forall_true|done].
  - rewrite (proj2 (N.leb_gt _ _)) by (by apply N.mod_lt). rewrite Hdec. cbn [result_bind].
    rewrite (N.mul_comm _ NANOS_PER_SEC), <- N.div_mod by done. done.
  - rewrite Hdec. cbn [result_bind]. by rewrite (proj2 (snapshot_meta_from_spec _ is_snapshot)).
Qed.

Lemma pb_body_from body msg : body_from body = Ok msg → wire_message msg ∧ body = pb_body msg.
Proof.
  destruct body as [m|m|m|m|m|m|m|m|m|m|m]; cbn [body_from]; intros Hw.
  6: apply guard_Ok in Hw as [Hn Hw].
  7: destruct (pbis_snapshot m) as [meta|] eqn:Hmeta; [|done].
  all: apply result_bind_Ok in Hw as (id & [Hid Heq]%decode_id_spec & Hw); destruct m.
  all: try (injection Hw as <-; cbn in Heq; subst; split; [split; [exact Hid|done]|done]).
  - apply result_bind_Ok in Hw as (es & Hes & Hw). injection Hw as <-.
    apply (try_collect_spec entry_from (λ _, True) pb_entry _ _ entry_from_spec) in Hes as [_ Hes].
    cbn in Hes, Heq. subst. split; [split; [exact Hid|done]|done].
  - injection Hw as <-. split; [split; [exact Hid|done]|]. cbn in Heq, Hn |- *. subst.
    apply N.leb_gt in Hn. do 2 f_equal.
    + rewrite N.div_add_l by done. rewrite N.div_small by done. lia.
    + rewrite N.add_comm, N.Div0.mod_add. by rewrite N.mod_small.
  - apply result_bind_Ok in Hw as (m & [Hm ->]%snapshot_meta_from_spec & Hw). injection Hw as <-.
    cbn in Heq, Hmeta. subst. split; [split; [exact Hid|exact Hm]|done].
Qed.

Lemma message_from_spec w msg : message_from w = Ok msg ↔ wire_message msg ∧ w = pb_message msg.
Proof.
  unfold message_from, pb_message. destruct w as [[body|]]; cbn [pbm_body].
  - split; [by intros [? ->]%pb_body_from|]. intros [Hm [= ->]]. by apply body_from_pb.
  - split; [done|]. by intros [_ ?].
Qed.

Lemma map_err_Ok {T} (r : result T BuffaDecodeError) t : map_err r = Ok t ↔ r = Ok t.
Proof. destruct r as [|[]]; naive_solver. Qed.

Lemma decode_encode_message `{!Buffa PbMessage} msg :
  wire_message msg → buffa_decode (buffa_encode (pb_message msg)) = Ok (pb_message msg) →
  decode_message (encode_message msg) = Ok msg.
Proof.
  intros Hm Hb. unfold decode_message, encode_message. rewrite Hb. cbn [map_err result_bind].
  by apply message_from_spec.
Qed.

(** C39: a message whose identifiers fit the wire bound survives the wire: what the
    encoder writes decodes to the same message, every field, entry and set included,
    provided the protobuf runtime reads back the value it wrote.  Conversely, whatever
    frame the decoder takes, it returns a message within the bounds, and the fields of
    the schema the runtime read from the frame are exactly those that message is
    encoded with: sets in another order, unknown enumeration values, missing
    sub-messages and out-of-range durations are all refused.  What the runtime drops
    before - fields the schema does not name, earlier copies of a field - is not seen
    here, so more than one frame may decode to a message. *)
Theorem message_roundtrip `{!Buffa PbMessage} msg :
  wire_message msg → buffa_decode (buffa_encode (pb_message msg)) = Ok (pb_message msg) →
  decode_message (encode_message msg) = Ok msg
  ∧ ∀ frame fields msg', buffa_decode frame = Ok fields → decode_message frame = Ok msg' →
      wire_message msg' ∧ fields = pb_message msg'.
Proof.
  intros Hm Hb. split; [by apply decode_encode_message|]. unfold decode_message.
  intros frame fields msg' Hf Hd. apply result_bind_Ok in Hd as (w & Hw & Hd).
  apply map_err_Ok in Hw. rewrite Hf in Hw. injection Hw as ->. by apply message_from_spec in Hd.
Qed.

Lemma transition_from_spec v t : transition_from v = Ok t ↔ v = Known (pb_transition t).
Proof. destruct v as [[]|], t; naive_solver. Qed.

Lemma change_from_spec w c :
  change_from w = Ok c
  ↔ wire_id (ccs_node c)
    ∧ w = {| pbcs_change_type := pb_cc_type (ccs_ty c); pbcs_node_id := encode_id (ccs_node c) |}.
Proof.
  unfold change_from. destruct w as [ty b], c as [ty' id]. cbn. split.
  - intros Hw. apply result_bind_Ok in Hw as (t & Ht & Hw).
    apply result_bind_Ok in Hw as (n & [? ->]%decode_id_spec & Hw). injection Hw as <- <-.
    split; [done|]. f_equal. destruct ty as [[]|]; [by injection Ht as <-..|done].
  - intros [Hid [= -> ->]]. rewrite (proj2 (decode_id_spec _ id)) by done. by destruct ty'.
Qed.

Lemma conf_change_from_spec w cc :
  conf_change_from w = Ok cc ↔ wire_conf_change cc ∧ w = pb_conf_change_v2 cc.
Proof.
  unfold conf_change_from, wire_conf_change, pb_conf_change_v2.
  destruct w as [tr cs ctx], cc as [tr' cs' ctx']. cbn. split.
  - intros Hw. apply result_bind_Ok in Hw as (t & ->%transition_from_spec & Hw).
    apply result_bind_Ok in Hw as (l & Hl & Hw). injection Hw as <- <- <-.
    by apply (try_collect_spec _ _ _ _ _ change_from_spec) in Hl as [? ->].
  - intros [Hc [= -> -> ->]]. rewrite (proj2 (transition_from_spec _ tr')) by done.
    cbn [result_bind]. by rewrite (proj2 (try_collect_spec _ _ _ _ cs' change_from_spec)).
Qed.

(** The payload of a membership entry decodes to the change that was proposed. *)
Lemma decode_encode_conf_change `{!Buffa PbConfChangeV2} cc :
  wire_conf_change cc →
  buffa_decode (buffa_encode (pb_conf_change_v2 cc)) = Ok (pb_conf_change_v2 cc) →
  decode_conf_change_v2 (encode_conf_change_v2 cc) = Ok cc.
Proof.
  intros Hc Hb. unfold decode_conf_change_v2, encode_conf_change_v2. rewrite Hb.
  cbn [map_err result_bind]. by apply conf_change_from_spec.
Qed.

(** ** The caching encoder *)

(** What the [buffa] length functions promise. *)
Class BuffaSizeLaws `{!BuffaSizes, !BuffaWire} := {
  bsl_tag : ∀ n w, 1 ≤ n ≤ 15 → blen (buffa_tag n w) = 1;
  bsl_varint : ∀ v, blen (buffa_encode_varint v) = buffa_varint_len v;
  bsl_uint64 : ∀ v, blen (buffa_encode_uint64 v) = buffa_uint64_encoded_len v;
  bsl_bytes : ∀ b, blen (buffa_encode_bytes b) = buffa_bytes_encoded_len b;
  bsl_bytes_len : ∀ b, buffa_bytes_encoded_len b = buffa_varint_len (blen b) + blen b;
  bsl_bool : blen (buffa_encode_bool true) = buffa_BOOL_ENCODED_LEN;
  bsl_groups : ∀ k v, 1 ≤ k ≤ 10 → v < 2 ^ (7 * k) → k = 1 ∨ 2 ^ (7 * (k - 1)) ≤ v →
    buffa_varint_len v = k;
}.

Context `{!BuffaSizes, !BuffaWire, !BuffaSizeLaws}.

Lemma blen_field_uint64 n v : 1 ≤ n ≤ 15 → blen (field_uint64 n v) = present_uint64 v.
Proof.
  intros Hn. unfold field_uint64, present_uint64. destruct (v =? 0); [done|].
  by rewrite blen_app, bsl_tag, bsl_uint64.
Qed.

Lemma blen_element_bytes n b :
  1 ≤ n ≤ 15 → blen (element_bytes n b) = 1 + buffa_bytes_encoded_len b.
Proof. intros Hn. unfold element_bytes. by rewrite blen_app, bsl_tag, bsl_bytes. Qed.

Lemma blen_field_bytes n b : 1 ≤ n ≤ 15 → blen (field_bytes n b) = present_bytes b.
Proof.
  intros Hn. unfold field_bytes, present_bytes. destruct b; [done|]. by apply blen_element_bytes.
Qed.

Lemma blen_field_message n body :
  1 ≤ n ≤ 15 → blen (field_message n body) = 1 + buffa_varint_len (blen body) + blen body.
Proof.
  intros Hn. unfold field_message. rewrite !blen_app, bsl_tag, bsl_varint by done.
  fold (blen body). lia.
Qed.

Lemma field_bytes_if n b :
  (if negb (bool_decide (b = [])) then buffa_tag n LengthDelimited ++ buffa_encode_bytes b else [])
  = field_bytes n b.
Proof. by destruct b. Qed.

Lemma field_uint64_if n v :
  (if negb (v =? 0) then buffa_tag n Varint ++ buffa_encode_uint64 v else []) = field_uint64 n v.
Proof. unfold field_uint64. by destruct (v =? 0). Qed.

Lemma present_bytes_if b :
  (if negb (bool_decide (b = [])) then 1 + buffa_bytes_encoded_len b else 0) = present_bytes b.
Proof. by destruct b. Qed.

Lemma present_uint64_if v :
  (if negb (v =? 0) then 1 + buffa_uint64_encoded_len v else 0) = present_uint64 v.
Proof. unfold present_uint64. by destruct (v =? 0). Qed.

Context `{!Buffa PbMessage, !Buffa PbInstallSnapshot, !Buffa PbSnapshotMeta, !Buffa PbConfState,
  !Buffa PbForkId, !Proto3}.

(** The cache holds an encoding of the metadata it is keyed by. *)
Definition cache_valid (enc : MessageEncoder) : Prop :=
  match enc_snapshot_meta enc with
  | Some (m, body) => body = buffa_encode (pb_snapshot_meta m)
  | None => True
  end.

Lemma meta_body_spec meta enc body enc' :
  cache_valid enc → meta_body meta enc = (body, enc') →
  body = buffa_encode (pb_snapshot_meta meta) ∧ cache_valid enc'.
Proof.
  unfold cache_valid, meta_body. intros Hc Hm.
  destruct (enc_snapshot_meta enc) as [[m b]|] eqn:Henc.
  - destruct (decide (m = meta)) as [->|].
    + injection Hm as <- <-. by rewrite Henc.
    + injection Hm as <- <-. split; [done|]. cbn. by destruct (_ <=? _).
  - injection Hm as <- <-. split; [done|]. cbn. by destruct (_ <=? _).
Qed.

Lemma encode_install_snapshot_spec m enc :
  cache_valid enc →
  (encode_install_snapshot m enc).1 = encode_message (MInstallSnapshot m)
  ∧ cache_valid (encode_install_snapshot m enc).2.
Proof.
  intros Hc. unfold encode_install_snapshot.
  destruct (meta_body (is_snapshot m) enc) as [body enc'] eqn:Hb.
  apply meta_body_spec in Hb as [-> Hc']; [|done]. cbn [fst snd]. split.
  - unfold encode_message, pb_message, pb_body. rewrite p3_message, p3_install. cbn [option_message
      pbis_term pbis_leader_id pbis_snapshot pbis_data pbis_offset pbis_total_len].
    rewrite !field_bytes_if, !field_uint64_if, !present_bytes_if, !present_uint64_if.
    unfold field_message at 1. f_equal. f_equal.
    + f_equal. change (N.of_nat (length ?x)) with (blen x). rewrite !blen_app.
      rewrite !blen_field_uint64, !blen_field_bytes, blen_field_message by lia. lia.
    + unfold field_message. by rewrite <- !app_assoc.
  - case_match; [done|exact Hc'].
Qed.

Lemma cached_encode_message msg enc :
  cache_valid enc →
  (MessageEncoder_encode_message msg enc).1 = encode_message msg
  ∧ cache_valid (MessageEncoder_encode_message msg enc).2.
Proof. intros Hc. destruct msg; try done. by apply encode_install_snapshot_spec. Qed.

Fixpoint encode_run (msgs : list (Message I)) (enc : MessageEncoder) : list bytes :=
  match msgs with
  | [] => []
  | m :: msgs =>
      let '(b, enc) := MessageEncoder_encode_message m enc in b :: encode_run msgs enc
  end.

Lemma encode_run_valid msgs enc :
  cache_valid enc → encode_run msgs enc = map encode_message msgs.
Proof.
  revert enc. induction msgs as [|m msgs IH]; intros enc Hc; cbn [encode_run map]; [done|].
  destruct (cached_encode_message m enc Hc) as [<- Hc'].
  destruct (MessageEncoder_encode_message m enc) as [b enc']. f_equal. by apply IH.
Qed.

(** The caching encoder is an optimisation and nothing else.  Whatever sequence
    of messages a connection sends, snapshot chunks of one or several transfers
    interleaved with anything, the bytes it produces are those of the stateless
    encoder: the hand-written frame of a chunk is the protobuf encoding of the
    message, its length prefixes included, and a cached metadata body is never
    used for another snapshot. *)
Theorem caching_encoder_exact msgs :
  encode_run msgs MessageEncoder_new = map encode_message msgs.
Proof. by apply encode_run_valid. Qed.

(** ** The size formula *)

Lemma blen_elements n (s : gset I) :
  1 ≤ n ≤ 15 →
  blen (mjoin (element_bytes n <$> encode_set s))
  = foldr (λ id m, id_bytes_field id + m) 0 (btree_iter s).
Proof.
  intros Hn. unfold encode_set. induction (btree_iter s) as [|id l IH]; [done|].
  cbn [map fmap list_fmap mjoin list_join foldr]. rewrite blen_app, blen_element_bytes by done.
  unfold id_bytes_field at 1, encode_id at 1. f_equal. exact IH.
Qed.

Lemma blen_pb_conf (c : ConfState I) :
  blen (buffa_encode (pb_conf_state c))
  = foldr (λ id n, id_bytes_field id + n) 0 (btree_iter (cs_voters c))
    + foldr (λ id n, id_bytes_field id + n) 0 (btree_iter (cs_learners c))
    + foldr (λ id n, id_bytes_field id + n) 0 (btree_iter (cs_voters_outgoing c))
    + foldr (λ id n, id_bytes_field id + n) 0 (btree_iter (cs_learners_next c))
    + (if cs_auto_leave c then 1 + buffa_BOOL_ENCODED_LEN else 0).
Proof.
  rewrite p3_conf, !blen_app. cbn [pb_conf_state pbc_voters pbc_learners pbc_voters_outgoing
    pbc_learners_next pbc_auto_leave]. rewrite !blen_elements by lia.
  unfold field_bool. destruct (cs_auto_leave c); [|unfold blen; cbn; lia].
  rewrite blen_app, bsl_tag, bsl_bool by lia. lia.
Qed.

Lemma blen_pb_fork f : blen (buffa_encode (pb_fork_id f)) = fork_encoded_len f.
Proof.
  rewrite p3_fork, !blen_app. cbn [pb_fork_id pbf_parent pbf_parent_incarnation pbf_split_index
    pbf_split_term pbf_child pbf_child_gen].
  rewrite !blen_field_uint64, !blen_field_bytes by lia. unfold fork_encoded_len. lia.
Qed.

(** The formula is the length of the frame, for an identifier that is not empty. *)
Lemma install_snapshot_encoded_len_exact (m : InstallSnapshot I) :
  encode_id (is_leader m) ≠ [] →
  blen (encode_message (MInstallSnapshot m))
  = install_snapshot_encoded_len (is_term m) (is_leader m) (is_snapshot m) (is_offset m)
      (is_total_len m) (blen (is_data m)).
Proof.
  intros Hid. unfold encode_message, pb_message, pb_body. rewrite p3_message, p3_install.
  cbn [option_message pbis_term pbis_leader_id pbis_snapshot pbis_data pbis_offset pbis_total_len].
  rewrite blen_field_message, !blen_app by lia.
  rewrite !blen_field_uint64, !blen_field_bytes, blen_field_message by lia. rewrite p3_meta.
  unfold pb_snapshot_meta. cbn [option_message pbs_last_index pbs_last_term pbs_conf pbs_max_lease_window
    pbs_max_wall_plus_window pbs_max_unwalled_lease_window pbs_read_only pbs_shape_gen pbs_fork_id].
  rewrite !blen_app, !blen_field_uint64, blen_field_message by lia. rewrite blen_pb_conf.
  assert (blen (option_message 9 (pb_fork_id <$> sm_fork_id (is_snapshot m)))
    = match sm_fork_id (is_snapshot m) with
      | Some f => let n := fork_encoded_len f in 1 + buffa_varint_len n + n
      | None => 0
      end) as ->.
  { destruct (sm_fork_id (is_snapshot m)) as [f|]; [|done]. cbn [fmap option_fmap option_map
      option_message]. by rewrite blen_field_message, blen_pb_fork by lia. }
  assert (present_bytes (encode_id (is_leader m)) = id_bytes_field (is_leader m)) as ->.
  { unfold present_bytes, id_bytes_field, encode_id in *. by destruct (data_encode (is_leader m)). }
  assert (present_bytes (is_data m)
    = (if blen (is_data m) =? 0 then 0
       else 1 + buffa_varint_len (blen (is_data m)) + blen (is_data m))) as ->.
  { unfold present_bytes. destruct (is_data m) as [|x l]; [done|]. rewrite bsl_bytes_len.
    destruct (N.eqb_spec (blen (x :: l)) 0) as [E|]; [unfold blen in E; cbn in E; lia|lia]. }
  unfold install_snapshot_encoded_len, pb_read_only. cbv zeta.
  match goal with |- 1 + buffa_varint_len ?a + ?a = 1 + buffa_varint_len ?b + ?b =>
    replace a with b; [done|] end.
  match goal with |- context [buffa_varint_len ?a] =>
    match a with context [sm_last_index] =>
      match goal with |- context [buffa_varint_len ?b] =>
        match b with context [sm_last_index] =>
          tryif constr_eq a b then fail else (replace a with b by lia; lia)
        end
      end
    end
  end.
Qed.
End codec.

(** ** An instance

    The wire format itself, as the runtime's functions: what the promises above
    ask for can be had. *)

Module Proto3Wire.

#[local] Instance wire : BuffaWire := {|
  buffa_tag := λ n w, [low_byte (8 * n + match w with Varint => 0 | LengthDelimited => 2 end)];
  buffa_encode_varint := λ v, write_varint v [];
  buffa_encode_uint64 := λ v, write_varint v [];
  buffa_encode_bytes := λ b, write_varint (blen b) [] ++ b;
  buffa_encode_bool := λ b, [low_byte (if b then 1 else 0)];
|}.

#[local] Instance sizes : BuffaSizes := {|
  buffa_varint_len := λ v, blen (write_varint v []);
  buffa_uint64_encoded_len := λ v, blen (write_varint v []);
  buffa_bytes_encoded_len := λ b, blen (write_varint (blen b) []) + blen b;
  buffa_BOOL_ENCODED_LEN := 1;
|}.

Lemma write_varint_groups fuel k v :
  (1 ≤ k ≤ fuel)%nat → v < 2 ^ (7 * N.of_nat k) →
  k = 1%nat ∨ 2 ^ (7 * (N.of_nat k - 1)) ≤ v →
  length (write_varint_loop fuel v) = k.
Proof.
  revert k v. induction fuel as [|fuel IH]; intros k v Hk Hv Hlo; [lia|].
  cbn [write_varint_loop]. destruct k as [|k]; [lia|].
  assert (2 ^ (7 * (N.of_nat (S k) - 1)) = 2 ^ (7 * N.of_nat k)) as Hp by (f_equal; lia).
  rewrite Hp in Hlo. rewrite pow_7S in Hv. destruct (N.leb_spec 0x80 v) as [Hge|Hlt].
  - destruct k as [|k]; [cbn in Hv; lia|]. cbn [length]. f_equal.
    destruct Hlo as [|Hlo]; [lia|]. rewrite pow_7S in Hlo.
    rewrite N.shiftr_div_pow2. change (2 ^ 7) with 128. apply IH; [lia| |].
    + by apply N.Div0.div_lt_upper_bound.
    + right. replace (N.of_nat (S k) - 1) with (N.of_nat k) by lia.
      apply N.div_le_lower_bound; lia.
  - destruct k as [|k]; [done|]. destruct Hlo as [|Hlo]; [lia|]. rewrite pow_7S in Hlo.
    assert (1 ≤ 2 ^ (7 * N.of_nat k)) by (apply N.lt_pred_le, N.neq_0_lt_0, N.pow_nonzero; lia).
    lia.
Qed.

#[local] Instance size_laws : BuffaSizeLaws.
Proof.
  constructor; try done.
  - intros b. cbn. apply blen_app.
  - intros k v Hk Hv Hlo. change (blen (write_varint_loop MAX_GENERATION_VARINT_LEN v) = k). unfold blen.
    rewrite (write_varint_groups _ (N.to_nat k)), N2Nat.id; [done| | |].
    + unfold MAX_GENERATION_VARINT_LEN. lia.
    + by rewrite N2Nat.id.
    + rewrite N2Nat.id. destruct Hlo as [->|]; [by left|by right].
Qed.

(** The fields of a message in the order of the wire. *)
Inductive FieldValue := Vint (v : u64) | Vlen (b : bytes).

Fixpoint fields (fuel : nat) (b : bytes) : option (list (N * FieldValue)) :=
  match fuel, b with
  | _, [] => Some []
  | O, _ => None
  | Datatypes.S fuel, _ =>
      '(key, k) ← read_varint b;
      let b := drop k b in
      '(v, k) ← read_varint b;
      let b := drop k b in
      if key mod 8 =? 0 then ((key / 8, Vint v) ::.) <$> fields fuel b
      else if (key mod 8 =? 2) && (v <=? blen b)
      then ((key / 8, Vlen (take (N.to_nat v) b)) ::.) <$> fields fuel (drop (N.to_nat v) b)
      else None
  end.

(** The last copy of a field counts; one that is missing has its default. *)
Definition get_uint64 (n : N) (fs : list (N * FieldValue)) : u64 :=
  default 0 (last (omap (λ '(k, v), match v with Vint v => if k =? n then Some v else None | _ => None end) fs)).
Definition get_elements (n : N) (fs : list (N * FieldValue)) : list bytes :=
  omap (λ '(k, v), match v with Vlen b => if k =? n then Some b else None | _ => None end) fs.
Definition get_bytes (n : N) (fs : list (N * FieldValue)) : bytes := default [] (last (get_elements n fs)).

(** [None] is a sub-message that does not parse. *)
Definition get_message {M} `{!Buffa M} (n : N) (fs : list (N * FieldValue)) : option (option M) :=
  match last (get_elements n fs) with
  | None => Some None
  | Some b => match buffa_decode b with Ok m => Some (Some m) | Err _ => None end
  end.

Definition parse {M} (build : list (N * FieldValue) → option M) (b : bytes) : result M BuffaDecodeError :=
  match fields (length b) b ≫= build with Some m => Ok m | None => Err BuffaOther end.

#[local] Instance fork : Buffa PbForkId := {|
  buffa_encode := λ m,
    field_bytes 1 (pbf_parent m) ++ field_uint64 2 (pbf_parent_incarnation m)
    ++ field_uint64 3 (pbf_split_index m) ++ field_uint64 4 (pbf_split_term m)
    ++ field_bytes 5 (pbf_child m) ++ field_uint64 6 (pbf_child_gen m);
  buffa_decode := parse (λ fs,
    Some {| pbf_parent := get_bytes 1 fs; pbf_parent_incarnation := get_uint64 2 fs;
            pbf_split_index := get_uint64 3 fs; pbf_split_term := get_uint64 4 fs;
            pbf_child := get_bytes 5 fs; pbf_child_gen := get_uint64 6 fs |});
|}.

#[local] Instance conf : Buffa PbConfState := {|
  buffa_encode := λ m,
    mjoin (element_bytes 1 <$> pbc_voters m) ++ mjoin (element_bytes 2 <$> pbc_learners m)
    ++ mjoin (element_bytes 3 <$> pbc_voters_outgoing m)
    ++ mjoin (element_bytes 4 <$> pbc_learners_next m) ++ field_bool 5 (pbc_auto_leave m);
  buffa_decode := parse (λ fs,
    Some {| pbc_voters := get_elements 1 fs; pbc_learners := get_elements 2 fs;
            pbc_voters_outgoing := get_elements 3 fs; pbc_learners_next := get_elements 4 fs;
            pbc_auto_leave := negb (get_uint64 5 fs =? 0) |});
|}.

#[local] Instance meta : Buffa PbSnapshotMeta := {|
  buffa_encode := λ m,
    field_uint64 1 (pbs_last_index m) ++ field_uint64 2 (pbs_last_term m)
    ++ option_message 3 (pbs_conf m) ++ field_uint64 4 (pbs_max_lease_window m)
    ++ field_uint64 5 (pbs_max_wall_plus_window m)
    ++ field_uint64 6 (pbs_max_unwalled_lease_window m) ++ field_uint64 7 (pbs_read_only m)
    ++ field_uint64 8 (pbs_shape_gen m) ++ option_message 9 (pbs_fork_id m);
  buffa_decode := parse (λ fs,
    conf ← get_message 3 fs;
    fork_id ← get_message 9 fs;
    Some {| pbs_last_index := get_uint64 1 fs; pbs_last_term := get_uint64 2 fs; pbs_conf := conf;
            pbs_max_lease_window := get_uint64 4 fs; pbs_max_wall_plus_window := get_uint64 5 fs;
            pbs_max_unwalled_lease_window := get_uint64 6 fs; pbs_read_only := get_uint64 7 fs;
            pbs_shape_gen := get_uint64 8 fs; pbs_fork_id := fork_id |});
|}.

#[local] Instance install : Buffa PbInstallSnapshot := {|
  buffa_encode := λ m,
    field_uint64 1 (pbis_term m) ++ field_bytes 2 (pbis_leader_id m)
    ++ option_message 3 (pbis_snapshot m) ++ field_bytes 4 (pbis_data m)
    ++ field_uint64 5 (pbis_offset m) ++ field_uint64 6 (pbis_total_len m);
  buffa_decode := parse (λ fs,
    snapshot ← get_message 3 fs;
    Some {| pbis_term := get_uint64 1 fs; pbis_leader_id := get_bytes 2 fs; pbis_snapshot := snapshot;
            pbis_data := get_bytes 4 fs; pbis_offset := get_uint64 5 fs; pbis_total_len := get_uint64 6 fs |});
|}.

(** A chunk of a two-voter snapshot, from node 1. *)
Definition chunk : Message N :=
  MInstallSnapshot
    {| is_term := 3; is_leader := 1;
       is_snapshot := SnapshotMeta_new 9 2 (ConfState_from_voters [1; 2]);
       is_data := [low_byte 7; low_byte 8]; is_offset := 300; is_total_len := 1000 |}.

Definition vote : Message N :=
  MVoteResponse {| vr_term := 3; vr_from := 2; vr_pre_vote := false; vr_reject := false |}.

(** The message of a snapshot transfer; the other bodies are left out. *)
#[local] Instance message : Buffa PbMessage := {|
  buffa_encode := λ m,
    match pbm_body m with
    | Some (PbbInstallSnapshot m) => field_message 7 (buffa_encode m)
    | _ => []
    end;
  buffa_decode := parse (λ fs,
    body ← get_message 7 fs; Some {| pbm_body := PbbInstallSnapshot <$> body |});
|}.

#[local] Instance proto3 : Proto3.
Proof. by constructor. Qed.

Lemma chunk_wire : wire_message chunk.
Proof.
  assert (wire_id 1 ∧ wire_id 2) as [? ?] by (split; split; by vm_compute).
  assert (btree_iter (list_to_set [1; 2] : gset N) = [1; 2]) as Hv by (by vm_compute).
  split; [done|]. unfold wire_conf, wire_set. cbn [chunk is_snapshot SnapshotMeta_new sm_conf
    ConfState_from_voters cs_voters cs_learners cs_voters_outgoing cs_learners_next].
  rewrite Hv. split_and!; [by repeat constructor|constructor..].
Qed.

(** The chunk comes back, also from a frame with a field of another schema. *)
Lemma message_roundtrip_witness :
  decode_message (encode_message chunk) = Ok chunk
  ∧ decode_message (field_uint64 12 5 ++ encode_message chunk) = Ok chunk
  ∧ buffa_decode (field_uint64 12 5 ++ encode_message chunk) = Ok (pb_message chunk).
Proof.
  destruct (message_roundtrip chunk chunk_wire) as [H1 H2]; [by vm_compute|].
  assert (decode_message (field_uint64 12 5 ++ encode_message chunk) = Ok chunk) as Hx by (by vm_compute).
  split; [exact H1|]. split; [exact Hx|].
  destruct (buffa_decode (field_uint64 12 5 ++ encode_message chunk)) as [fs|e] eqn:Hf; [|by vm_compute in Hf].
  f_equal. exact (proj2 (H2 _ fs chunk Hf Hx)).
Defined.

Lemma caching_encoder_exact_witness :
  encode_run [chunk; vote; chunk] MessageEncoder_new
  = map encode_message [chunk; vote; chunk].
Proof. apply caching_encoder_exact. Defined.
End Proto3Wire.
