(* ===== verification/RecordIo.v ===== *)
(** * Record layers

    [sailing-proto/src/transport/stream.rs] (the [RecordIo] trait and its
    contract), [transport/passthrough/mod.rs] (the plaintext pipe) and
    [transport/labeled/mod.rs] (the hello that binds a cluster and a peer id).

    A drain that appends to the caller's buffer returns the bytes it appends; the
    count the source returns is their number.  The capacity that [shrink_excess]
    gives back is not part of a buffer's contents. *)

From S2P Require Import Prelude Bytes Num Frame.

(** ** The trait *)

Inductive Intake := IntakeDone | IntakePending (n : nat) | IntakeFailed.

#[global] Instance Intake_eq_dec : EqDecision Intake.
Proof. solve_decision. Defined.

Class RecordIo (R : Type) := {
  rio_handle_transport_data : bytes → Instant → R → Intake * R;
  rio_poll_transport_transmit : R → bytes * R;
  rio_read_plaintext : R → bytes * R;
  rio_write_plaintext : bytes → R → nat * R;
  rio_buffered_outbound : R → N;
  rio_is_handshaking : R → bool;
  rio_peer_identity : R → option bytes;
  rio_peer_has_closed : R → bool;
}.

(** ** The plaintext pipe *)

Definition RECV_LIMIT : N := 256 * 1024.
Definition SEND_LIMIT : N := 64 * 1024 * 1024.

Record Passthrough := { pt_inbound : bytes; pt_outbound : bytes }.

#[global] Instance Passthrough_eta : Eta Passthrough := λ r,
  Build_Passthrough (pt_inbound r) (pt_outbound r).

Definition Passthrough_new : Passthrough := {| pt_inbound := []; pt_outbound := [] |}.

Definition Passthrough_handle_transport_data (input : bytes) (now : Instant) (r : Passthrough)
  : Intake * Passthrough :=
  let room := RECV_LIMIT - blen (pt_inbound r) in
  if blen input <=? room then (IntakeDone, r <| pt_inbound ::= λ b, b ++ input |>)
  else
    (IntakePending (N.to_nat room), r <| pt_inbound ::= λ b, b ++ take (N.to_nat room) input |>).

Definition Passthrough_poll_transport_transmit (r : Passthrough) : bytes * Passthrough :=
  (pt_outbound r, r <| pt_outbound := [] |>).

Definition Passthrough_read_plaintext (r : Passthrough) : bytes * Passthrough :=
  (pt_inbound r, r <| pt_inbound := [] |>).

Definition Passthrough_write_plaintext (plaintext : bytes) (r : Passthrough) : nat * Passthrough :=
  let room := SEND_LIMIT - blen (pt_outbound r) in
  let take_ := N.to_nat (N.min (blen plaintext) room) in
  (take_, r <| pt_outbound ::= λ b, b ++ take take_ plaintext |>).

#[global] Instance Passthrough_RecordIo : RecordIo Passthrough := {|
  rio_handle_transport_data := Passthrough_handle_transport_data;
  rio_poll_transport_transmit := Passthrough_poll_transport_transmit;
  rio_read_plaintext := Passthrough_read_plaintext;
  rio_write_plaintext := Passthrough_write_plaintext;
  rio_buffered_outbound := λ r, blen (pt_outbound r);
  rio_is_handshaking := λ _, false;
  rio_peer_identity := λ _, None;
  rio_peer_has_closed := λ _, false;
|}.

(** ** The hello *)

Definition ClusterId := bytes.

Inductive ConnRole := Dialer | Acceptor.

#[global] Instance ConnRole_eq_dec : EqDecision ConnRole.
Proof. solve_decision. Defined.

Definition LABEL_MAGIC : byte := low_byte 0xCA.
Definition LABEL_VERSION : byte := low_byte 3.
Definition HELLO_HEADER : nat := 1 + 1 + 16 + 2.
Definition MAX_PEER_ID_LEN : N := 1024.

Record LabelOptions := { lo_cluster : ClusterId; lo_local_id : bytes }.

Definition build_hello (cluster : ClusterId) (local_id : bytes) : bytes :=
  [LABEL_MAGIC] ++ [LABEL_VERSION] ++ cluster ++ to_be_bytes 2 (blen local_id) ++ local_id.

(** The first two bytes of a hello. *)
Definition hello_tag_ok (b : bytes) : bool :=
  bool_decide (head b = Some LABEL_MAGIC) && bool_decide (b !! 1%nat = Some LABEL_VERSION).

Definition hello_id_len (b : bytes) : N := from_be_bytes (take 2 (drop 18 b)).

Definition parse_hello_frame (frame : bytes) (our : ClusterId) : option bytes :=
  if (length frame <? HELLO_HEADER)%nat then None
  else if negb (hello_tag_ok frame) then None
  else if negb (bool_decide (take 16 (drop 2 frame) = our)) then None
  else
    let peer_id_len := hello_id_len frame in
    if (peer_id_len =? 0) || (MAX_PEER_ID_LEN <? peer_id_len) then None
    else if negb (N.of_nat (length frame) =? N.of_nat HELLO_HEADER + peer_id_len) then None
    else Some (drop HELLO_HEADER frame).

(** ** The labelled layer *)

Record Labeled (R : Type) := {
  lb_inner : R;
  lb_cluster : ClusterId;
  lb_local_hello : bytes;
  lb_role : ConnRole;
  lb_pending : bytes;
  lb_hello_out : bytes;
  lb_validated : option bytes;
  lb_failed : bool;
}.
Arguments Build_Labeled {R}.
Arguments lb_inner {R}.
Arguments lb_cluster {R}.
Arguments lb_local_hello {R}.
Arguments lb_role {R}.
Arguments lb_pending {R}.
Arguments lb_hello_out {R}.
Arguments lb_validated {R}.
Arguments lb_failed {R}.

#[global] Instance Labeled_eta {R} : Eta (Labeled R) := λ r,
  Build_Labeled (lb_inner r) (lb_cluster r) (lb_local_hello r) (lb_role r) (lb_pending r)
    (lb_hello_out r) (lb_validated r) (lb_failed r).

Section labeled.
Context {R : Type} `{!RecordIo R}.
Implicit Types (r : Labeled R).

(** One round hands over at least a byte or stops, so as many rounds as there
    are bytes are enough. *)
Fixpoint flush_hello_loop (fuel : nat) r : Labeled R :=
  match fuel, lb_hello_out r with
  | _, [] | O, _ => r
  | Datatypes.S fuel, out =>
      let '(n, inner) := rio_write_plaintext out (lb_inner r) in
      let r := r <| lb_inner := inner |> in
      if (n =? 0)%nat then r else flush_hello_loop fuel (r <| lb_hello_out ::= drop n |>)
  end.

Definition flush_hello r : Labeled R := flush_hello_loop (length (lb_hello_out r)) r.

Definition check_local_id (local_id : bytes) : result unit TransportError :=
  if bool_decide (local_id = []) || (MAX_PEER_ID_LEN <? blen local_id) then Err InvalidLocalId
  else Ok tt.

Definition Labeled_dialer (inner : R) (opts : LabelOptions) : result (Labeled R) TransportError :=
  let? _ := check_local_id (lo_local_id opts) in
  let local_hello := build_hello (lo_cluster opts) (lo_local_id opts) in
  Ok (flush_hello
        {| lb_inner := inner; lb_cluster := lo_cluster opts; lb_local_hello := local_hello;
           lb_role := Dialer; lb_pending := []; lb_hello_out := local_hello;
           lb_validated := None; lb_failed := false |}).

Definition Labeled_acceptor (inner : R) (opts : LabelOptions) : result (Labeled R) TransportError :=
  let? _ := check_local_id (lo_local_id opts) in
  Ok {| lb_inner := inner; lb_cluster := lo_cluster opts;
        lb_local_hello := build_hello (lo_cluster opts) (lo_local_id opts);
        lb_role := Acceptor; lb_pending := []; lb_hello_out := []; lb_validated := None;
        lb_failed := false |}.

Definition advance_handshake r : Intake * Labeled R :=
  let fail := (IntakeFailed, r <| lb_failed := true |>) in
  if bool_decide (is_Some (lb_validated r)) || (length (lb_pending r) <? HELLO_HEADER)%nat
  then (IntakeDone, r)
  else if negb (hello_tag_ok (lb_pending r)) then fail
  else if negb (bool_decide (take 16 (drop 2 (lb_pending r)) = lb_cluster r)) then fail
  else
    let peer_id_len := hello_id_len (lb_pending r) in
    if (peer_id_len =? 0) || (MAX_PEER_ID_LEN <? peer_id_len) then fail
    else
      let hello_end := (HELLO_HEADER + N.to_nat peer_id_len)%nat in
      if (length (lb_pending r) <? hello_end)%nat then (IntakeDone, r)
      else
        let peer_id := take (hello_end - HELLO_HEADER) (drop HELLO_HEADER (lb_pending r)) in
        let r := r <| lb_pending ::= drop hello_end |> <| lb_validated := Some peer_id |> in
        (IntakeDone,
         match lb_role r with
         | Acceptor => flush_hello (r <| lb_hello_out ::= λ o, o ++ lb_local_hello r |>)
         | Dialer => r
         end).

Definition Labeled_handle_transport_data (input : bytes) (now : Instant) r : Intake * Labeled R :=
  if lb_failed r then (IntakeFailed, r)
  else
    let '(intake, inner) := rio_handle_transport_data input now (lb_inner r) in
    let r := r <| lb_inner := inner |> in
    match intake with
    | IntakeFailed => (IntakeFailed, r <| lb_failed := true |>)
    | _ =>
        let '(plain, inner) := rio_read_plaintext (lb_inner r) in
        let r := r <| lb_inner := inner |> <| lb_pending ::= λ p, p ++ plain |> in
        match lb_validated r with
        | Some _ => (intake, r)
        | None =>
            let '(step, r) := advance_handshake r in
            (if decide (step = IntakeFailed) then IntakeFailed else intake, r)
        end
    end.

Definition Labeled_poll_transport_transmit r : bytes * Labeled R :=
  if lb_failed r then ([], r)
  else
    let r := flush_hello r in
    let '(out, inner) := rio_poll_transport_transmit (lb_inner r) in
    (out, r <| lb_inner := inner |>).

Definition Labeled_read_plaintext r : bytes * Labeled R :=
  if lb_failed r || bool_decide (lb_validated r = None) then ([], r)
  else (lb_pending r, r <| lb_pending := [] |>).

Definition Labeled_write_plaintext (plaintext : bytes) r : nat * Labeled R :=
  if lb_failed r then (0%nat, r)
  else
    let r := flush_hello r in
    if negb (bool_decide (lb_hello_out r = [])) then (0%nat, r)
    else
      let '(n, inner) := rio_write_plaintext plaintext (lb_inner r) in
      (n, r <| lb_inner := inner |>).

#[global] Instance Labeled_RecordIo : RecordIo (Labeled R) := {|
  rio_handle_transport_data := Labeled_handle_transport_data;
  rio_poll_transport_transmit := Labeled_poll_transport_transmit;
  rio_read_plaintext := Labeled_read_plaintext;
  rio_write_plaintext := Labeled_write_plaintext;
  rio_buffered_outbound := λ r, blen (lb_hello_out r) + rio_buffered_outbound (lb_inner r);
  rio_is_handshaking := λ r,
    rio_is_handshaking (lb_inner r) || bool_decide (lb_validated r = None);
  rio_peer_identity := λ r, lb_validated r;
  rio_peer_has_closed := λ r, rio_peer_has_closed (lb_inner r);
|}.
End labeled.

(** ** The contract

    What [stream.rs] binds every implementation to, and what the connection
    relies on: an accepted count is a prefix, a failure is final and inert, a
    read leaves nothing to read, and a call that takes no input changes nothing
    on the receiving side.  [rl_ok] holds in the states the operations lead to,
    [rl_quiet] where no plaintext waits, [rl_dead] after a failure. *)

Definition recv_same {R} `{!RecordIo R} (r r' : R) : Prop :=
  rio_is_handshaking r' = rio_is_handshaking r ∧ rio_peer_identity r' = rio_peer_identity r.

Class RecordIoLaws (R : Type) `{!RecordIo R} := {
  rl_ok : R → Prop;
  rl_quiet : R → Prop;
  rl_dead : R → Prop;
  rl_handle_ok : ∀ i now r, rl_ok r → rl_ok (rio_handle_transport_data i now r).2;
  rl_transmit_ok : ∀ r, rl_ok r → rl_ok (rio_poll_transport_transmit r).2;
  rl_read_ok : ∀ r, rl_ok r → rl_ok (rio_read_plaintext r).2;
  rl_write_ok : ∀ p r, rl_ok r → rl_ok (rio_write_plaintext p r).2;
  rl_pending_le : ∀ i now r n,
    (rio_handle_transport_data i now r).1 = IntakePending n → (n ≤ length i)%nat;
  rl_write_le : ∀ p r, ((rio_write_plaintext p r).1 ≤ length p)%nat;
  rl_failed : ∀ i now r,
    (rio_handle_transport_data i now r).1 = IntakeFailed → rl_dead (rio_handle_transport_data i now r).2;
  rl_dead_handle : ∀ i now r, rl_dead r → (rio_handle_transport_data i now r).1 = IntakeFailed;
  rl_dead_write : ∀ p r, rl_dead r → (rio_write_plaintext p r).1 = 0%nat ∧ rl_dead (rio_write_plaintext p r).2;
  rl_dead_read : ∀ r, rl_dead r → (rio_read_plaintext r).1 = [] ∧ rl_dead (rio_read_plaintext r).2;
  rl_dead_transmit : ∀ r,
    rl_dead r → (rio_poll_transport_transmit r).1 = [] ∧ rl_dead (rio_poll_transport_transmit r).2;
  rl_quiet_read : ∀ r, rl_quiet r → (rio_read_plaintext r).1 = [];
  rl_read_quiet : ∀ r, rl_ok r → rl_quiet (rio_read_plaintext r).2;
  rl_write_quiet : ∀ p r, rl_quiet r → rl_quiet (rio_write_plaintext p r).2;
  rl_transmit_quiet : ∀ r, rl_quiet r → rl_quiet (rio_poll_transport_transmit r).2;
  rl_idle : ∀ i now r, rl_ok r → rl_quiet r →
    let k := (rio_handle_transport_data i now r).1 in
    (k = IntakeDone ∧ i = [] ∨ k = IntakePending 0) →
    rl_quiet (rio_handle_transport_data i now r).2 ∧ recv_same r (rio_handle_transport_data i now r).2;
  rl_identity_kept : ∀ i now r b,
    rio_peer_identity r = Some b → rio_peer_identity (rio_handle_transport_data i now r).2 = Some b;
  rl_read_same : ∀ r, recv_same r (rio_read_plaintext r).2;
  rl_write_same : ∀ p r, recv_same r (rio_write_plaintext p r).2;
  rl_transmit_same : ∀ r, recv_same r (rio_poll_transport_transmit r).2;
}.

#[global] Program Instance Passthrough_laws : RecordIoLaws Passthrough := {|
  rl_ok := λ _, True;
  rl_quiet := λ r, pt_inbound r = [];
  rl_dead := λ _, False;
|}.
Solve Obligations with try done.
Next Obligation.
  intros i now r n. cbn. unfold Passthrough_handle_transport_data. cbn zeta.
  destruct (N.leb_spec (blen i) (RECV_LIMIT - blen (pt_inbound r))); cbn [fst]; [done|].
  intros [= <-]. unfold blen in *. lia.
Qed.
Next Obligation. intros p r. cbn. unfold blen. lia. Qed.
Next Obligation.
  intros i now r. cbn. unfold Passthrough_handle_transport_data. cbn zeta. by destruct (_ <=? _).
Qed.
Next Obligation.
  intros i now r _ Hq. cbn in *. unfold Passthrough_handle_transport_data. cbn zeta.
  destruct (_ <=? _); cbn; rewrite Hq; (intros [[? ->]|E]; try done).
Qed.

(** ** Reading a hello *)

Inductive hello_step := HelloWait | HelloBad | HelloGood (id rest : bytes).

(** What the bytes received so far say. *)
Definition hello_parse (cluster : ClusterId) (b : bytes) : hello_step :=
  if (length b <? HELLO_HEADER)%nat then HelloWait
  else if negb (hello_tag_ok b) then HelloBad
  else if negb (bool_decide (take 16 (drop 2 b) = cluster)) then HelloBad
  else
    let n := hello_id_len b in
    if (n =? 0) || (MAX_PEER_ID_LEN <? n) then HelloBad
    else if (length b <? HELLO_HEADER + N.to_nat n)%nat then HelloWait
    else HelloGood (take (N.to_nat n) (drop HELLO_HEADER b)) (drop (HELLO_HEADER + N.to_nat n) b).

(** An identifier a hello can carry. *)
Definition hello_id_ok (id : bytes) : Prop := 0 < blen id ≤ MAX_PEER_ID_LEN.

Lemma length_build_hello c id : length c = 16%nat → length (build_hello c id) = (HELLO_HEADER + length id)%nat.
Proof.
  intros Hc. unfold build_hello, HELLO_HEADER. rewrite !length_app, length_to_be_bytes, Hc. cbn. lia.
Qed.

Lemma hello_header c id rest :
  length c = 16%nat → hello_id_ok id →
  let b := build_hello c id ++ rest in
  hello_tag_ok b = true ∧ take 16 (drop 2 b) = c ∧ hello_id_len b = blen id ∧ drop HELLO_HEADER b = id ++ rest.
Proof.
  intros Hc [Hi1 Hi2]. cbn zeta. unfold build_hello, hello_tag_ok, hello_id_len. cbn [app drop].
  rewrite <- !(assoc_L (++)). split_and!.
  - done.
  - rewrite drop_0, <- Hc. apply take_app_length.
  - rewrite (drop_app_length' c _ 16) by done. rewrite take_to_be, from_to_be_bytes.
    apply N.mod_small. unfold MAX_PEER_ID_LEN in Hi2. change (256 ^ N.of_nat 2) with 65536. lia.
  - unfold HELLO_HEADER. cbn [Nat.add drop]. rewrite drop_app_ge by lia. rewrite Hc. apply (drop_to_be 2).
Qed.

Lemma hello_parse_hello c id rest :
  length c = 16%nat → hello_id_ok id → hello_parse c (build_hello c id ++ rest) = HelloGood id rest.
Proof.
  intros Hc Hi. destruct (hello_header c id rest Hc Hi) as (Ht & Hcl & Hl & Hd).
  unfold hello_parse. rewrite Ht, bool_decide_eq_true_2, Hl by done. cbn [negb].
  destruct Hi as [Hi1 Hi2]. rewrite length_app, length_build_hello by done.
  destruct (Nat.ltb_spec (HELLO_HEADER + length id + length rest) HELLO_HEADER); [lia|].
  destruct (N.eqb_spec (blen id) 0); [lia|]. destruct (N.ltb_spec MAX_PEER_ID_LEN (blen id)); [lia|].
  cbn [orb]. rewrite to_nat_blen.
  destruct (Nat.ltb_spec (HELLO_HEADER + length id + length rest) (HELLO_HEADER + length id)); [lia|].
  rewrite <- drop_drop, Hd, take_app_length, drop_app_length. done.
Qed.

(** Only a hello of the cluster parses as one. *)
Lemma hello_parse_good c b id rest :
  hello_parse c b = HelloGood id rest → b = build_hello c id ++ rest ∧ hello_id_ok id ∧ length c = 16%nat.
Proof.
  unfold hello_parse. destruct (Nat.ltb_spec (length b) HELLO_HEADER) as [|Hlen]; [done|].
  destruct (hello_tag_ok b) eqn:Ht; [|done]. case_bool_decide as Hc; [|done]. cbn [negb].
  destruct (_ || _) eqn:Hn; [done|]. apply orb_false_iff in Hn as [Hn0 Hn1].
  apply N.eqb_neq in Hn0. apply N.ltb_ge in Hn1.
  destruct (Nat.ltb_spec (length b) (HELLO_HEADER + N.to_nat (hello_id_len b))) as [|Hl]; [done|].
  intros [= <- <-]. change HELLO_HEADER with 20%nat in *.
  assert (blen (take (N.to_nat (hello_id_len b)) (drop 20 b)) = hello_id_len b) as Hb.
  { unfold blen. rewrite length_take, length_drop. lia. }
  split_and!.
  - assert (take 2 b = [LABEL_MAGIC; LABEL_VERSION]) as H2.
    { unfold hello_tag_ok in Ht. apply andb_true_iff in Ht as [H0 H1]. apply bool_decide_eq_true in H0, H1.
      destruct b as [|b0 [|b1 b]]; [done..|]. cbn in H0, H1. by injection H0 as ->; injection H1 as ->. }
    assert (to_be_bytes 2 (hello_id_len b) = take 2 (drop 18 b)) as H18.
    { pose proof (to_from_be_bytes (take 2 (drop 18 b))) as E. rewrite length_take, length_drop in E.
      by replace (Nat.min 2 (length b - 18)) with 2%nat in E by lia. }
    unfold build_hello. rewrite Hb, H18, <- Hc. change ([LABEL_MAGIC] ++ [LABEL_VERSION] ++ ?x)
      with ([LABEL_MAGIC; LABEL_VERSION] ++ x). rewrite <- H2, <- !(assoc_L (++)).
    rewrite <- (take_drop 2 b) at 1. f_equal. rewrite <- (take_drop 16 (drop 2 b)) at 1. rewrite drop_drop.
    f_equal. rewrite <- (take_drop 2 (drop (2 + 16) b)) at 1. rewrite drop_drop. f_equal.
    rewrite <- (take_drop (N.to_nat (hello_id_len b)) (drop (2 + 16 + 2) b)) at 1. by rewrite drop_drop.
  - unfold hello_id_ok. rewrite Hb. lia.
  - rewrite <- Hc, length_take, length_drop. lia.
Qed.

Lemma hello_fields_prefix p x :
  (HELLO_HEADER ≤ length p)%nat →
  hello_tag_ok (p ++ x) = hello_tag_ok p ∧ take 16 (drop 2 (p ++ x)) = take 16 (drop 2 p)
  ∧ hello_id_len (p ++ x) = hello_id_len p.
Proof.
  change HELLO_HEADER with 20%nat. intros Hp. unfold hello_tag_ok, hello_id_len. split_and!.
  - destruct p as [|a [|b p]]; cbn in Hp; [lia..|done].
  - by rewrite drop_app_le, take_app_le by (rewrite ?length_drop; lia).
  - by rewrite drop_app_le, take_app_le by (rewrite ?length_drop; lia).
Qed.

(** A hello cut short waits for its end. *)
Lemma hello_parse_wait c id p x :
  length c = 16%nat → hello_id_ok id → p ++ x = build_hello c id → x ≠ [] → hello_parse c p = HelloWait.
Proof.
  intros Hc Hi Hp Hx. unfold hello_parse. destruct (Nat.ltb_spec (length p) HELLO_HEADER) as [|Hl]; [done|].
  destruct (hello_fields_prefix p x Hl) as (Ht & Hcl & Hn). rewrite Hp in *.
  destruct (hello_header c id [] Hc Hi) as (Ht' & Hcl' & Hn' & _). rewrite app_nil_r in *.
  rewrite <- Ht, Ht', <- Hcl, Hcl', bool_decide_eq_true_2, <- Hn, Hn' by done. cbn [negb].
  destruct Hi as [Hi1 Hi2]. destruct (N.eqb_spec (blen id) 0); [lia|].
  destruct (N.ltb_spec MAX_PEER_ID_LEN (blen id)); [lia|]. cbn [orb]. rewrite to_nat_blen.
  apply (f_equal length) in Hp. rewrite length_app, length_build_hello in Hp by done.
  destruct (Nat.ltb_spec (length p) (HELLO_HEADER + length id)); [done|].
  destruct x; [done|]. cbn [length] in Hp. lia.
Qed.

(** ** The labelled layer meets the contract *)

Section labeled_laws.
Context {R : Type} `{!RecordIo R, !RecordIoLaws R}.
Implicit Types (r : Labeled R).

Lemma flush_hello_loop_frame fuel r :
  let r' := flush_hello_loop fuel r in
  r' = r <| lb_inner := lb_inner r' |> <| lb_hello_out := lb_hello_out r' |>.
Proof.
  cbn zeta. revert r. induction fuel as [|fuel IH]; intros r; cbn [flush_hello_loop];
    (destruct (lb_hello_out r) as [|b out] eqn:Ho; [by destruct r; cbn in *; subst|]); [by destruct r; cbn in *; subst|].
  destruct (rio_write_plaintext _ _) as [n inner]. destruct (n =? 0)%nat; [by destruct r; cbn in *; subst|].
  rewrite IH at 1. done.
Qed.

Lemma flush_hello_frame r :
  let r' := flush_hello r in
  r' = r <| lb_inner := lb_inner r' |> <| lb_hello_out := lb_hello_out r' |>.
Proof. apply flush_hello_loop_frame. Qed.

(** The hello reaches the inner layer by writes alone. *)
Lemma flush_hello_inner (P : R → Prop) r :
  (∀ p i, P i → P (rio_write_plaintext p i).2) → P (lb_inner r) → P (lb_inner (flush_hello r)).
Proof.
  intros HP. unfold flush_hello. generalize (length (lb_hello_out r)) as fuel. intros fuel. revert r.
  induction fuel as [|fuel IH]; intros r Hr; cbn [flush_hello_loop]; destruct (lb_hello_out r) as [|b out]; try done.
  pose proof (HP (b :: out) (lb_inner r) Hr) as Hw. destruct (rio_write_plaintext _ _) as [n inner].
  destruct (n =? 0)%nat; [done|]. by apply IH.
Qed.

Lemma flush_hello_same r : recv_same (lb_inner r) (lb_inner (flush_hello r)).
Proof.
  apply (flush_hello_inner (recv_same (lb_inner r))); [|by split].
  intros p i [H1 H2]. destruct (rl_write_same p i) as [H3 H4]. split; congruence.
Qed.

Lemma advance_handshake_spec r :
  lb_validated r = None →
  advance_handshake r
  = match hello_parse (lb_cluster r) (lb_pending r) with
    | HelloWait => (IntakeDone, r)
    | HelloBad => (IntakeFailed, r <| lb_failed := true |>)
    | HelloGood id rest =>
        let r := r <| lb_pending := rest |> <| lb_validated := Some id |> in
        (IntakeDone,
         match lb_role r with
         | Acceptor => flush_hello (r <| lb_hello_out ::= λ o, o ++ lb_local_hello r |>)
         | Dialer => r
         end)
    end.
Proof.
  intros Hv. unfold advance_handshake, hello_parse. rewrite Hv, bool_decide_eq_false_2 by (by intros []).
  cbn [orb]. destruct (_ <? _)%nat; [done|]. destruct (negb (hello_tag_ok _)); [done|].
  destruct (negb (bool_decide _)); [done|]. cbn zeta. destruct (_ || _); [done|].
  destruct (_ <? _)%nat; [done|]. by rewrite Nat.add_comm, Nat.add_sub, Nat.add_comm.
Qed.

(** Between calls the inner layer is drained, and a hello that is not complete
    waits for its end. *)
Definition lb_ok r : Prop :=
  rl_ok (lb_inner r)
  ∧ (lb_failed r = false →
     rl_quiet (lb_inner r)
     ∧ (lb_validated r = None → hello_parse (lb_cluster r) (lb_pending r) = HelloWait)).

Lemma flush_hello_ok r : lb_ok r → lb_ok (flush_hello r).
Proof.
  intros [Ho Hw]. pose proof (flush_hello_inner rl_ok r ltac:(auto using rl_write_ok) Ho) as Ho'.
  pose proof (flush_hello_inner rl_quiet r ltac:(auto using rl_write_quiet)) as Hq'.
  rewrite flush_hello_frame. split; [done|]. intros Hf. destruct (Hw Hf) as [Hq ?]. auto.
Qed.

Lemma advance_handshake_ok r :
  lb_validated r = None → rl_ok (lb_inner r) → rl_quiet (lb_inner r) → lb_ok (advance_handshake r).2.
Proof.
  intros Hv Ho Hq. rewrite advance_handshake_spec by done.
  destruct (hello_parse _ _) as [| |id rest] eqn:Hp; cbn [snd]; [by split|by split|].
  cbn zeta. assert (lb_ok (r <| lb_pending := rest |> <| lb_validated := Some id |>)) as Hok by by split.
  destruct (lb_role _); [done|]. by apply flush_hello_ok.
Qed.

Lemma labeled_handle_ok i now r : lb_ok r → lb_ok (Labeled_handle_transport_data i now r).2.
Proof.
  intros [Ho Hw]. unfold Labeled_handle_transport_data. destruct (lb_failed r) eqn:Hf; [split; [done|]; cbn; by rewrite Hf|].
  pose proof (rl_handle_ok i now (lb_inner r) Ho) as Ho1.
  destruct (rio_handle_transport_data _ _ _) as [k inner] eqn:Hk. cbn [snd] in Ho1.
  pose proof (rl_read_ok inner Ho1) as Ho2. pose proof (rl_read_quiet inner Ho1) as Hq2.
  assert (∀ k', lb_ok (let '(plain, inner) := rio_read_plaintext inner in
      let r := r <| lb_inner := inner |> <| lb_pending ::= λ p, p ++ plain |> in
      match lb_validated r with
      | Some _ => (k', r)
      | None => let '(step, r) := advance_handshake r in
                (if decide (step = IntakeFailed) then IntakeFailed else k', r)
      end).2) as Hread; [|destruct k; [apply Hread..|by split]].
  intros k'. destruct (rio_read_plaintext inner) as [plain inner2]. cbn [snd] in Ho2, Hq2. cbn zeta.
  destruct (lb_validated _) as [id|] eqn:Hv; [split; [done|]; intros _; split; [done|]; cbn in Hv |- *; by rewrite Hv|].
  destruct (advance_handshake _) as [step r'] eqn:Ha. cbn [snd].
  change r' with (step, r').2. rewrite <- Ha. by apply advance_handshake_ok.
Qed.

Lemma labeled_dead_flush r : lb_failed r = true → lb_failed (flush_hello r) = true.
Proof. intros Hf. by rewrite flush_hello_frame. Qed.

Lemma labeled_handle_intake i now r n :
  (Labeled_handle_transport_data i now r).1 = IntakePending n →
  (rio_handle_transport_data i now (lb_inner r)).1 = IntakePending n.
Proof.
  unfold Labeled_handle_transport_data. destruct (lb_failed r); [done|].
  destruct (rio_handle_transport_data _ _ _) as [[|k|] inner]; cbn [fst]; [| |done];
    (destruct (rio_read_plaintext _) as [plain inner2]; destruct (lb_validated _); [done|];
     destruct (advance_handshake _) as [step r']; cbn [fst]; by case_decide).
Qed.

Lemma labeled_handle_failed i now r :
  (Labeled_handle_transport_data i now r).1 = IntakeFailed →
  lb_failed (Labeled_handle_transport_data i now r).2 = true.
Proof.
  unfold Labeled_handle_transport_data. destruct (lb_failed r) eqn:Hf; [done|].
  destruct (rio_handle_transport_data _ _ _) as [[|k|] inner]; cbn [fst snd]; [| |done];
    (destruct (rio_read_plaintext _) as [plain inner2]; destruct (lb_validated _) eqn:Hv; [done|];
     rewrite advance_handshake_spec by exact Hv; destruct (hello_parse _ _); done).
Qed.

Definition lb_quiet r : Prop := lb_failed r = false → is_Some (lb_validated r) → lb_pending r = [].

Lemma labeled_idle i now r :
  lb_ok r → lb_quiet r →
  let k := (Labeled_handle_transport_data i now r).1 in
  (k = IntakeDone ∧ i = [] ∨ k = IntakePending 0) →
  lb_quiet (Labeled_handle_transport_data i now r).2 ∧ recv_same r (Labeled_handle_transport_data i now r).2.
Proof.
  intros [Ho Hw] Hq. unfold Labeled_handle_transport_data. destruct (lb_failed r) eqn:Hf; [by intros [[]|]|].
  destruct (Hw eq_refl) as [Hqi Hwait]. pose proof (rl_idle i now (lb_inner r) Ho Hqi) as Hidle.
  destruct (rio_handle_transport_data _ _ _) as [k inner] eqn:Hk. cbn [fst snd] in Hidle.
  set (body := let '(plain, inner) := rio_read_plaintext inner in
      let r := r <| lb_inner := inner |> <| lb_pending ::= λ p, p ++ plain |> in
      match lb_validated r with
      | Some _ => (k, r)
      | None => let '(step, r) := advance_handshake r in
                (if decide (step = IntakeFailed) then IntakeFailed else k, r)
      end).
  assert (k ≠ IntakeFailed → (body.1 = IntakeDone ∧ i = [] ∨ body.1 = IntakePending 0) →
    lb_quiet body.2 ∧ recv_same r body.2) as Hbody; [|destruct k; [by apply Hbody..|by intros [[]|]]].
  intros Hnf Hb. assert (k = body.1 ∨ body.1 = IntakeFailed) as [E|E]; [| |by destruct Hb as [[]|]; congruence].
  { unfold body. destruct (rio_read_plaintext _). cbn zeta. destruct (lb_validated _); [by left|].
    destruct (advance_handshake _). case_decide; [by right|by left]. }
  rewrite <- E in Hb. destruct (Hidle Hb) as [Hqi' Hs]. pose proof (rl_quiet_read inner Hqi') as Hr0.
  pose proof (rl_read_same inner) as Hs'. unfold body. destruct (rio_read_plaintext inner) as [plain inner2].
  cbn [fst snd] in Hr0, Hs'. subst plain. cbn zeta.
  replace (r <| lb_inner := inner2 |> <| lb_pending ::= λ p, p ++ [] |>) with (r <| lb_inner := inner2 |>)
    by (destruct r; unfold upd; cbn; by rewrite app_nil_r).
  assert (recv_same r (r <| lb_inner := inner2 |>)) as Hsame.
  { destruct Hs as [Hs1 _], Hs' as [Hs2 _]. split; cbn; [|done]. by rewrite Hs2, Hs1. }
  destruct (lb_validated _) as [id|] eqn:Hv.
  - split; [|done]. intros _ _. cbn. apply Hq; [done|]. cbn in Hv. by rewrite Hv.
  - rewrite advance_handshake_spec by exact Hv. cbn in Hv |- *. rewrite (Hwait eq_refl). cbn. split; [|done].
    intros _. cbn. rewrite Hv. by intros [].
Qed.

#[global] Program Instance Labeled_laws : RecordIoLaws (Labeled R) := {|
  rl_ok := lb_ok;
  rl_quiet := lb_quiet;
  rl_dead := λ r, lb_failed r = true;
|}.
Next Obligation. apply labeled_handle_ok. Qed.
Next Obligation.
  intros r Hok. cbn. unfold Labeled_poll_transport_transmit. destruct (lb_failed r); [done|].
  destruct (flush_hello_ok r Hok) as [Ho Hw]. pose proof (rl_transmit_ok _ Ho) as Ho'.
  pose proof (rl_transmit_quiet (lb_inner (flush_hello r))) as Hq'.
  destruct (rio_poll_transport_transmit _) as [out inner]. cbn [snd] in *. split; [done|].
  intros Hf. destruct (Hw Hf). auto.
Qed.
Next Obligation.
  intros r [Ho Hw]. cbn. unfold Labeled_read_plaintext. destruct (lb_failed r) eqn:Hf; [split; [done|]; cbn; by rewrite Hf|].
  case_bool_decide as Hv; [split; [done|]; cbn; rewrite Hf; auto|].
  split; [done|]. cbn. intros _. destruct (Hw eq_refl). done.
Qed.
Next Obligation.
  intros p r Hok. cbn. unfold Labeled_write_plaintext. destruct (lb_failed r); [done|].
  pose proof (flush_hello_ok r Hok) as Hok'. case_bool_decide; [|done]. cbn [negb].
  destruct Hok' as [Ho Hw]. pose proof (rl_write_ok p _ Ho) as Ho'.
  pose proof (rl_write_quiet p (lb_inner (flush_hello r))) as Hq'.
  destruct (rio_write_plaintext _ _) as [n inner]. cbn [snd] in *. split; [done|].
  intros Hf. destruct (Hw Hf). auto.
Qed.
Next Obligation.
  intros i now r n Hn. apply (rl_pending_le i now (lb_inner r)), labeled_handle_intake, Hn.
Qed.
Next Obligation.
  intros p r. cbn. unfold Labeled_write_plaintext. destruct (lb_failed r); [cbn; lia|].
  destruct (negb _); [cbn; lia|]. pose proof (rl_write_le p (lb_inner (flush_hello r))).
  by destruct (rio_write_plaintext _ _).
Qed.
Next Obligation. apply labeled_handle_failed. Qed.
Next Obligation. intros i now r Hf. cbn. unfold Labeled_handle_transport_data. by rewrite Hf. Qed.
Next Obligation. intros p r Hf. cbn. unfold Labeled_write_plaintext. by rewrite Hf. Qed.
Next Obligation. intros r Hf. cbn. unfold Labeled_read_plaintext. by rewrite Hf. Qed.
Next Obligation. intros r Hf. cbn. unfold Labeled_poll_transport_transmit. by rewrite Hf. Qed.
Next Obligation.
  intros r Hq. cbn. unfold Labeled_read_plaintext. destruct (lb_failed r) eqn:Hf; [done|].
  case_bool_decide as Hv; [done|]. cbn. apply Hq; [done|]. by apply not_eq_None_Some.
Qed.
Next Obligation.
  intros r _. cbn. unfold Labeled_read_plaintext. destruct (lb_failed r) eqn:Hf; [by intros Hf'; cbn in Hf'; congruence|].
  case_bool_decide as Hv; [|done]. intros _. cbn. rewrite Hv. by intros [].
Qed.
Next Obligation.
  intros p r Hq. cbn. unfold Labeled_write_plaintext. destruct (lb_failed r) eqn:Hf; [done|].
  assert (lb_quiet (flush_hello r)) as Hq' by (by rewrite flush_hello_frame).
  case_bool_decide; [|done]. cbn [negb]. by destruct (rio_write_plaintext _ _).
Qed.
Next Obligation.
  intros r Hq. cbn. unfold Labeled_poll_transport_transmit. destruct (lb_failed r) eqn:Hf; [done|].
  assert (lb_quiet (flush_hello r)) as Hq' by (by rewrite flush_hello_frame).
  by destruct (rio_poll_transport_transmit _).
Qed.
Next Obligation. apply labeled_idle. Qed.
Next Obligation.
  intros i now r b Hb. cbn in *. unfold Labeled_handle_transport_data. destruct (lb_failed r); [done|].
  destruct (rio_handle_transport_data _ _ _) as [[|k|] inner]; [| |done];
    (destruct (rio_read_plaintext _) as [plain inner2];
     change (lb_validated (_ <| lb_pending ::= _ |>)) with (lb_validated r); by rewrite Hb).
Qed.
Next Obligation. intros r. cbn. unfold Labeled_read_plaintext. by case_match. Qed.
Next Obligation.
  intros p r. cbn. unfold Labeled_write_plaintext. destruct (lb_failed r); [done|].
  pose proof (flush_hello_same r) as Hs. assert (recv_same r (flush_hello r)) as Hs'.
  { destruct Hs as [Hs _]. rewrite flush_hello_frame. split; [|done]. cbn. by rewrite Hs. }
  case_bool_decide; [|done]. cbn [negb]. pose proof (rl_write_same p (lb_inner (flush_hello r))) as [Hw _].
  destruct (rio_write_plaintext _ _) as [n inner]. cbn [snd] in *. destruct Hs' as [H1 H2].
  split; cbn in *; [by rewrite Hw|done].
Qed.
Next Obligation.
  intros r. cbn. unfold Labeled_poll_transport_transmit. destruct (lb_failed r); [done|].
  pose proof (flush_hello_same r) as [Hs _]. pose proof (rl_transmit_same (lb_inner (flush_hello r))) as [Hw _].
  pose proof (flush_hello_frame r) as E. cbn zeta in E.
  destruct (rio_poll_transport_transmit _) as [out inner]. cbn [snd] in *. rewrite E.
  split; cbn; [by rewrite Hw, Hs|done].
Qed.
End labeled_laws.
