(* ===== verification/Conn.v ===== *)
(** * One transport connection

    [Conn] of [sailing-proto/src/transport/conn/mod.rs]: the lifecycle of a
    connection over a record layer.  Bytes from the wire pass the record layer
    into the frame decoder; frames become messages once a peer is bound; frames
    to send wait until the record layer takes them.

    The loop of [handle_data] takes fuel and answers [None] when it runs out;
    [Conn_handle_data_returns] shows that it does not.  The reallocation of a
    drained buffer ([shrink_excess]) does not change its contents. *)

From S2P Require Import Prelude Bytes Num Conf Data Frame Entry Shape Wire Message Codec RecordIo.

Inductive ConnState (I : Type) := Handshaking | Validated (peer : I) | Closed (peer : option I).
Arguments Handshaking {I}.
Arguments Validated {I} _.
Arguments Closed {I} _.

(** [(entry flags, encoded group tag, incarnation stamp, message)] *)
Definition CoalescedEntry (I : Type) `{!NodeId I} : Type := byte * bytes * u64 * Message I.

(** [(group_id_bytes, entry_flags, generation, message)] *)
Definition Decoded (I : Type) `{!NodeId I} : Type := bytes * byte * u64 * Message I.

Definition MAX_CONN_OUT_BUF : N := 2 * MAX_FRAME_LEN.

Record Conn (I R : Type) `{!NodeId I} := {
  cn_record : R;
  cn_decoder : FrameDecoder;
  cn_state : ConnState I;
  cn_out_plain : bytes;
  cn_out_pos : nat;
  cn_max_out : N;
  cn_scratch : bytes;
  cn_encoder : MessageEncoder (I := I);
}.
Arguments Build_Conn {I R _}.
Arguments cn_record {I R _}.
Arguments cn_decoder {I R _}.
Arguments cn_state {I R _}.
Arguments cn_out_plain {I R _}.
Arguments cn_out_pos {I R _}.
Arguments cn_max_out {I R _}.
Arguments cn_scratch {I R _}.
Arguments cn_encoder {I R _}.

#[global] Instance Conn_eta {I R} `{!NodeId I} : Eta (Conn I R) := λ r,
  Build_Conn (cn_record r) (cn_decoder r) (cn_state r) (cn_out_plain r) (cn_out_pos r)
    (cn_max_out r) (cn_scratch r) (cn_encoder r).

Section conn.
Context {I R : Type} `{!NodeId I, !Data I, !RecordIo R}.
Context `{!Buffa PbMessage, !Buffa PbSnapshotMeta, !BuffaSizes, !BuffaWire}.
Abbreviation Conn := (Conn I R).
Abbreviation Decoded := (Decoded I).
Implicit Types (c : Conn).

Definition Conn_new (record : R) : Conn :=
  {| cn_record := record; cn_decoder := FrameDecoder_new; cn_state := Handshaking;
     cn_out_plain := []; cn_out_pos := 0; cn_max_out := MAX_CONN_OUT_BUF; cn_scratch := [];
     cn_encoder := MessageEncoder_new |}.

Definition Conn_peer c : option I :=
  match cn_state c with Validated peer => Some peer | Closed peer => peer | Handshaking => None end.

Definition current_peer c : option I :=
  match cn_state c with Validated peer => Some peer | _ => None end.

Definition Conn_is_closed c : bool := match cn_state c with Closed _ => true | _ => false end.

Definition release_out c : Conn :=
  c <| cn_out_plain := [] |> <| cn_out_pos := 0%nat |> <| cn_scratch := [] |>
    <| cn_encoder ::= MessageEncoder_clear |>.

Definition close_suspect c : Conn := release_out (c <| cn_state := Closed None |>).

(** A clean close keeps the peer of a validated connection. *)
Definition close_clean c : Conn := release_out (c <| cn_state := Closed (current_peer c) |>).

(** ** Receiving *)

Definition try_validate c : result unit TransportError * Conn :=
  match cn_state c with
  | Handshaking =>
      if rio_is_handshaking (cn_record c) then (Ok tt, c)
      else match rio_peer_identity (cn_record c) with
      | None => (Ok tt, c)
      | Some bytes =>
          match decode_exact bytes with
          | Ok peer => (Ok tt, c <| cn_state := Validated peer |>)
          | Err _ => (Err Decode, close_suspect c)
          end
      end
  | _ => (Ok tt, c)
  end.

(** What the record layer has decoded goes to the frame decoder. *)
Definition surface_plaintext c : bytes * Conn :=
  let '(drained, record) := rio_read_plaintext (cn_record c) in
  let c := c <| cn_record := record |> <| cn_scratch := drained |> in
  (drained,
   if bool_decide (drained = []) then c else c <| cn_decoder ::= FrameDecoder_push drained |>).

(** The input a call leaves, and whether it took any; [None] is a failure. *)
Definition intake_rest (intake : Intake) (input : bytes) : option (bytes * bool) :=
  match intake with
  | IntakeFailed => None
  | IntakeDone => Some ([], true)
  | IntakePending n => Some (drop n input, (0 <? n)%nat)
  end.

(** One round of the loop: it returns, or goes on with the rest of the input. *)
Definition handle_round (input : bytes) (now : Instant) c
  : (result unit TransportError * Conn) + (bytes * Conn) :=
  let '(intake, record) := rio_handle_transport_data input now (cn_record c) in
  let c := c <| cn_record := record |> in
  match intake_rest intake input with
  | None => inl (Err Record_, close_suspect c)
  | Some (input, consumed) =>
      let '(drained, c) := surface_plaintext c in
      match try_validate c with
      | (Err e, c) => inl (Err e, c)
      | (Ok _, c) =>
          if bool_decide (input = []) then inl (Ok tt, c)
          else if negb consumed && bool_decide (drained = []) then inl (Err Record_, close_suspect c)
          else inr (input, c)
      end
  end.

Fixpoint handle_loop (fuel : nat) (input : bytes) (now : Instant) c
  : option (result unit TransportError * Conn) :=
  match fuel with
  | O => None
  | Datatypes.S fuel =>
      match handle_round input now c with
      | inl res => Some res
      | inr (input, c) => handle_loop fuel input now c
      end
  end.

(** Between two rounds either a byte is taken or what was buffered is drained,
    and a drained layer that takes nothing ends the loop. *)
Definition handle_fuel (bytes : bytes) : nat := (length bytes + 2)%nat.

Definition Conn_handle_data (bytes : bytes) (eof : bool) (now : Instant) c
  : option (result unit TransportError * Conn) :=
  if Conn_is_closed c then Some (Ok tt, c)
  else
    '(r, c) ← handle_loop (handle_fuel bytes) bytes now c;
    Some (match r with
          | Err e => (Err e, c)
          | Ok _ =>
              (Ok tt, if eof || rio_peer_has_closed (cn_record c) then close_clean c else c)
          end).

(** The entries of a coalesced frame, up to the first that does not decode. *)
Fixpoint decode_entries (entries : list (byte * bytes * u64 * bytes)) (out : list Decoded)
  : result unit TransportError * list Decoded :=
  match entries with
  | [] => (Ok tt, out)
  | (flags, group, generation, message) :: entries =>
      match decode_message message with
      | Ok msg => decode_entries entries (out ++ [(group, flags, generation, msg)])
      | Err _ => (Err Decode, out)
      end
  end.

(** What one frame adds to the messages decoded so far. *)
Definition decode_frame (frame : bytes) (out : list Decoded)
  : result unit TransportError * list Decoded :=
  if is_coalesced_frame frame then
    match split_coalesced frame with
    | Err e => (Err e, out)
    | Ok entries => decode_entries entries out
    end
  else match split_group_header frame with
  | Err e => (Err e, out)
  | Ok (group, generation, message) =>
      match decode_message message with
      | Ok msg => (Ok tt, out ++ [(group, x00, generation, msg)])
      | Err _ => (Err Decode, out)
      end
  end.

(** A frame takes up at least its header, so as many rounds as there are buffered
    bytes are enough. *)
Fixpoint poll_loop (fuel : nat) (out : list Decoded) c : result unit TransportError * list Decoded * Conn :=
  let '(frame, decoder) := FrameDecoder_poll (cn_decoder c) in
  let c := c <| cn_decoder := decoder |> in
  match frame with
  | Err e => (Err e, out, close_suspect c)
  | Ok None => (Ok tt, out, c)
  | Ok (Some frame) =>
      match decode_frame frame out with
      | (Err e, out) => (Err e, out, close_suspect c)
      | (Ok _, out) =>
          match fuel with
          | O => (Ok tt, out, c)
          | Datatypes.S fuel => poll_loop fuel out c
          end
      end
  end.

(** The messages are those appended to [out]. *)
Definition Conn_poll_decoded c : result unit TransportError * list Decoded * Conn :=
  match Conn_peer c with
  | None => (Ok tt, [], c)
  | Some _ => poll_loop (length (fd_buf (cn_decoder c))) [] c
  end.

(** ** Sending *)

(** A round hands over at least a byte or stops. *)
Fixpoint drain_loop (fuel : nat) c : Conn :=
  if (cn_out_pos c <? length (cn_out_plain c))%nat then
    match fuel with
    | O => c
    | Datatypes.S fuel =>
        let '(n, record) := rio_write_plaintext (drop (cn_out_pos c) (cn_out_plain c)) (cn_record c) in
        let c := c <| cn_record := record |> in
        if (n =? 0)%nat then c else drain_loop fuel (c <| cn_out_pos ::= λ p, (p + n)%nat |>)
    end
  else c <| cn_out_plain := [] |> <| cn_out_pos := 0%nat |>.

Definition drain_out c : Conn := drain_loop (length (cn_out_plain c)) c.

Definition emit_frame (payload : bytes) c : bool * Conn :=
  let occupancy :=
    N.of_nat (length (cn_out_plain c) - cn_out_pos c) + rio_buffered_outbound (cn_record c) in
  if (MAX_FRAME_LEN <? blen payload) || (cn_max_out c <? occupancy + 4 + blen payload)
  then (false, close_clean c)
  else (true, drain_out (c <| cn_out_plain ::= encode_frame payload |>)).

Definition Conn_encode (msg : Message I) c : bytes * Conn :=
  let '(b, encoder) := MessageEncoder_encode_message msg (cn_encoder c) in
  (b, c <| cn_encoder := encoder |>).

Definition Conn_send_message (group : bytes) (generation : u64) (msg : Message I) c : Conn :=
  if Conn_is_closed c then c
  else
    let payload := write_group_header group generation [] in
    let '(b, c) := Conn_encode msg c in
    (emit_frame (payload ++ b) c).2.

(** The loop of [send_coalesced] over the entries, with the frame under
    construction; [false] is its early return. *)
Fixpoint coalesce (entries : list (CoalescedEntry I)) (payload : bytes) c : bool * bytes * Conn :=
  match entries with
  | [] => (true, payload, c)
  | (flags, group, generation, msg) :: entries =>
      let '(msg_scratch, c) := Conn_encode msg c in
      let entry_len := N.of_nat (coalesced_entry_len (length group) generation (length msg_scratch)) in
      if COALESCED_FRAME_BUDGET <? entry_len then
        let '(ok, c) := emit_frame (write_group_header group generation [] ++ msg_scratch) c in
        if ok : bool then coalesce entries payload c else (false, payload, c)
      else if (2 <? blen payload) && (COALESCED_FRAME_BUDGET <? blen payload + entry_len) then
        let '(ok, c) := emit_frame payload c in
        if ok : bool then
          coalesce entries
            (write_coalesced_entry flags group generation msg_scratch (write_coalesced_marker [])) c
        else (false, payload, c)
      else coalesce entries (write_coalesced_entry flags group generation msg_scratch payload) c
  end.

Definition Conn_send_coalesced (entries : list (CoalescedEntry I)) c : Conn :=
  if Conn_is_closed c || bool_decide (length entries = 0%nat) then c
  else
    let '(ok, payload, c) := coalesce entries (write_coalesced_marker []) c in
    if (ok : bool) && (2 <? blen payload) then (emit_frame payload c).2 else c.

Definition Conn_send_probe c : Conn :=
  if Conn_is_closed c then c else (emit_frame (write_coalesced_marker []) c).2.

Definition Conn_poll_transmit c : bytes * Conn :=
  let c := drain_out c in
  let '(out, record) := rio_poll_transport_transmit (cn_record c) in
  (out, c <| cn_record := record |>).

(** ** The lifecycle *)

Context `{!RecordIoLaws R}.

(** The peer is the one the record layer authenticated. *)
Definition identified c (p : I) : Prop :=
  ∃ b, rio_peer_identity (cn_record c) = Some b ∧ decode_exact b = Ok p.

(** What holds of a connection between calls: nothing is left in the record layer
    to read, a connection that has not validated could not have, and the cursor
    is inside the buffer. *)
Record conn_ok c : Prop := {
  ck_record : rl_ok (cn_record c);
  ck_quiet : Conn_is_closed c = false → rl_quiet (cn_record c);
  ck_hand : cn_state c = Handshaking →
    rio_is_handshaking (cn_record c) = true ∨ rio_peer_identity (cn_record c) = None;
  ck_pos : (cn_out_pos c ≤ length (cn_out_plain c))%nat;
  ck_decoder : ∃ s, decoder_rel (cn_decoder c) s;
  ck_peer : ∀ p, Conn_peer c = Some p → identified c p;
}.

(** A state leads to itself, to the peer of a finished handshake, or to a close
    that keeps the peer of a validated connection or none. *)
Inductive conn_moves : ConnState I → ConnState I → Prop :=
  | moves_same s : conn_moves s s
  | moves_validated peer : conn_moves Handshaking (Validated peer)
  | moves_suspect s : conn_moves s (Closed None)
  | moves_clean peer : conn_moves (Validated peer) (Closed (Some peer))
  | moves_greeted peer : conn_moves Handshaking (Closed (Some peer)).

Lemma conn_new_ok record :
  rl_ok record → rl_quiet record →
  rio_is_handshaking record = true ∨ rio_peer_identity record = None → conn_ok (Conn_new record).
Proof. intros ???. split; try done. eexists. apply decoder_new_rel. Qed.

Lemma close_suspect_ok c : rl_ok (cn_record c) → (∃ s, decoder_rel (cn_decoder c) s) → conn_ok (close_suspect c).
Proof. by split. Qed.

Lemma close_clean_ok c : conn_ok c → conn_ok (close_clean c).
Proof.
  intros [Ho _ _ _ Hd Hi]. split; try done. intros p Hp. apply Hi.
  unfold Conn_peer, close_clean, current_peer in *. cbn in Hp. by destruct (cn_state c).
Qed.

Lemma close_clean_moves c : conn_moves (cn_state c) (cn_state (close_clean c)).
Proof. unfold close_clean, current_peer. cbn. destruct (cn_state c); constructor. Qed.

(** What a round leaves: the connection may not have validated yet. *)
Record round_ok c : Prop := {
  rk_record : rl_ok (cn_record c);
  rk_quiet : rl_quiet (cn_record c);
  rk_pos : (cn_out_pos c ≤ length (cn_out_plain c))%nat;
  rk_decoder : ∃ s, decoder_rel (cn_decoder c) s;
  rk_peer : ∀ p, Conn_peer c = Some p → identified c p;
}.

Lemma surface_plaintext_ok c :
  rl_ok (cn_record c) → (cn_out_pos c ≤ length (cn_out_plain c))%nat → (∃ s, decoder_rel (cn_decoder c) s) →
  (∀ p, Conn_peer c = Some p → identified c p) →
  round_ok (surface_plaintext c).2 ∧ cn_state (surface_plaintext c).2 = cn_state c
  ∧ (rl_quiet (cn_record c) → (surface_plaintext c).1 = []).
Proof.
  intros Ho Hp [s Hs] Hi. unfold surface_plaintext. pose proof (rl_read_same (cn_record c)) as [_ Hsame]. pose proof (rl_read_ok _ Ho) as Ho'.
  pose proof (rl_read_quiet _ Ho) as Hq. pose proof (rl_quiet_read (cn_record c)) as Hr.
  destruct (rio_read_plaintext _) as [drained record]. cbn [fst snd] in *.
  split_and!; [|by case_bool_decide|done].
  assert (∀ d, ∀ p, Conn_peer c = Some p → identified (c <| cn_record := record |> <| cn_scratch := d |>) p) as Hi'.
  { intros d p Hpeer. destruct (Hi p Hpeer) as (b & Hb & ?). exists b. cbn. by rewrite Hsame. }
  case_bool_decide; split; try done; cbn; [by exists s|by apply Hi'| |by apply Hi']. eexists. by apply push_rel.
Qed.

Lemma try_validate_ok c :
  round_ok c → conn_moves (cn_state c) (cn_state (try_validate c).2) ∧ conn_ok (try_validate c).2
  ∧ match (try_validate c).1 with
    | Err _ => Conn_is_closed (try_validate c).2 = true
    | Ok _ => cn_record (try_validate c).2 = cn_record c
              ∧ Conn_is_closed (try_validate c).2 = Conn_is_closed c
    end.
Proof.
  intros [Ho Hq Hp Hd Hpeer]. unfold try_validate.
  destruct (cn_state c) as [|peer|peer] eqn:Hs; cbn [fst snd]; rewrite ?Hs.
  - destruct (rio_is_handshaking _) eqn:Hh.
    { cbn. rewrite Hs. split_and!; [constructor|split; auto|done..]. }
    destruct (rio_peer_identity _) as [b|] eqn:Hi.
    2: { cbn. rewrite Hs. split_and!; [constructor|split; auto|done..]. }
    destruct (decode_exact b) as [p|] eqn:Hdec; cbn.
    + split_and!; [constructor| |done|unfold Conn_is_closed; by rewrite Hs].
      split; try done. intros p' [= <-]. by exists b.
    + split_and!; [constructor|by apply close_suspect_ok|done].
  - split_and!; [constructor|split; cbn; try done; by rewrite Hs|done..].
  - split_and!; [constructor|split; cbn; try done; by rewrite Hs|done..].
Qed.

Lemma conn_moves_trans s1 s2 s3 : conn_moves s1 s2 → conn_moves s2 s3 → conn_moves s1 s3.
Proof. intros H1 H2. inversion H1; subst; inversion H2; subst; constructor. Qed.

(** The part of [conn_ok] a round starts from. *)
Record fed_ok c : Prop := {
  fk_record : rl_ok (cn_record c);
  fk_pos : (cn_out_pos c ≤ length (cn_out_plain c))%nat;
  fk_decoder : ∃ s, decoder_rel (cn_decoder c) s;
  fk_peer : ∀ p, Conn_peer c = Some p → identified c p;
}.

Lemma conn_ok_fed c : conn_ok c → fed_ok c.
Proof. intros []. by split. Qed.

(** The result of a round that returns. *)
Definition handled c (r : result unit TransportError) c' : Prop :=
  conn_ok c' ∧ conn_moves (cn_state c) (cn_state c')
  ∧ match r with Err _ => Conn_is_closed c' = true | Ok _ => Conn_is_closed c' = Conn_is_closed c end.

(** A layer that took nothing and drained something was not quiet. *)
Lemma rest_shrinks k input rest consumed (drained : bytes) (quiet : Prop) :
  intake_rest k input = Some (rest, consumed) → rest ≠ [] → negb consumed && bool_decide (drained = []) = false →
  (∀ n, k = IntakePending n → (n ≤ length input)%nat) →
  ((k = IntakeDone ∧ input = [] ∨ k = IntakePending 0) → quiet → drained = []) →
  (length rest < length input ∨ length rest = length input ∧ ¬ quiet)%nat.
Proof.
  destruct k as [|n|]; cbn; [by intros [= <- <-]| |done]. intros [= <- <-] Hne Hw Hle Hz.
  destruct (Nat.ltb_spec 0 n) as [Hn|Hn]; cbn in Hw.
  - left. rewrite length_drop. specialize (Hle n eq_refl).
    assert (length (drop n input) ≠ 0%nat) as Hl by (by destruct (drop n input)). rewrite length_drop in Hl. lia.
  - assert (n = 0%nat) as -> by lia. apply bool_decide_eq_false in Hw. right. split; [done|].
    intros Hq. apply Hw, Hz; [by right|done].
Qed.

(** A round returns, or leaves less input, or drains what was buffered before it. *)
Lemma handle_round_ok input now c :
  fed_ok c →
  match handle_round input now c with
  | inl (r, c') => handled c r c'
  | inr (rest, c') =>
      handled c (Ok tt) c' ∧ rl_quiet (cn_record c')
      ∧ (length rest < length input ∨ length rest = length input ∧ ¬ rl_quiet (cn_record c))%nat
  end.
Proof.
  intros [Ho Hp Hd Hi]. unfold handle_round.
  pose proof (rl_handle_ok input now _ Ho) as Ho'. pose proof (rl_idle input now _ Ho) as Hidle.
  pose proof (rl_pending_le input now (cn_record c)) as Hle.
  pose proof (rl_identity_kept input now (cn_record c)) as Hid.
  destruct (rio_handle_transport_data _ _ _) as [k record]. cbn [fst snd] in *.
  destruct (intake_rest k input) as [[rest consumed]|] eqn:Hk;
    [|split_and!; [by apply close_suspect_ok|constructor|done]].
  destruct (surface_plaintext_ok (c <| cn_record := record |>)) as (Hr & Hst & Hq1); [done..| |].
  { intros p Hpeer. destruct (Hi p Hpeer) as (b & Hb & ?). exists b. auto. }
  destruct (surface_plaintext _) as [drained c2]. cbn [fst snd] in *.
  destruct (try_validate_ok c2 Hr) as (Hm & Hok & Hv). rewrite Hst in Hm. change (cn_state _) with (cn_state c) in Hm at 1.
  assert (Conn_is_closed c2 = Conn_is_closed c) as Hcl by (unfold Conn_is_closed; by rewrite Hst).
  destruct (try_validate c2) as [[[]|e] c3]; cbn [fst snd] in *; [|done]. destruct Hv as [Hrec Hcl3].
  assert (handled c (Ok tt) c3) as Hh by (split_and!; [done..|congruence]).
  case_bool_decide as Hne; [done|]. destruct (_ && _) eqn:Hw.
  { split_and!; [destruct Hok; by apply close_suspect_ok|constructor|done]. }
  split_and!; [done|rewrite Hrec; apply Hr|]. apply (rest_shrinks k input rest consumed drained); try done.
  intros Hz Hq. apply Hq1. by apply Hidle.
Qed.

Lemma handle_loop_ok fuel input now c :
  fed_ok c → (rl_quiet (cn_record c) ∧ length input < fuel ∨ length input + 1 < fuel)%nat →
  ∃ r c', handle_loop fuel input now c = Some (r, c') ∧ handled c r c'.
Proof.
  revert input c. induction fuel as [|fuel IH]; intros input c Hok Hf; [lia|]. cbn [handle_loop].
  pose proof (handle_round_ok input now c Hok) as Hr.
  destruct (handle_round input now c) as [[r c']|[rest c']]; [by eexists _, _|].
  destruct Hr as ((Hok' & Hm & Hcl) & Hq & Hlen).
  destruct (IH rest c') as (r & c'' & -> & Hok'' & Hm' & Hcl'); [by apply conn_ok_fed|left; naive_solver lia|].
  eexists _, _. split; [done|]. split_and!; [done|by eapply conn_moves_trans|].
  destruct r; [congruence|done].
Qed.

Lemma Conn_handle_data_returns bytes eof now c :
  conn_ok c →
  ∃ r c', Conn_handle_data bytes eof now c = Some (r, c') ∧ conn_ok c'
    ∧ conn_moves (cn_state c) (cn_state c')
    ∧ match r with Err _ => Conn_is_closed c' = true | Ok _ => True end.
Proof.
  intros Hok. unfold Conn_handle_data. destruct (Conn_is_closed c) eqn:Hc.
  { eexists _, _. split; [done|]. split_and!; [done|constructor|done]. }
  destruct (handle_loop_ok (handle_fuel bytes) bytes now c) as (r & c' & -> & Hok' & Hm & Hr);
    [by apply conn_ok_fed|right; unfold handle_fuel; lia|].
  cbn [mbind option_bind]. destruct r as [[]|e]; [|by eexists _, _].
  eexists _, _. split; [done|]. destruct (eof || _); [|done].
  split_and!; [by apply close_clean_ok| |done]. eapply conn_moves_trans; [done|apply close_clean_moves].
Qed.

Lemma try_validate_waits c :
  rio_is_handshaking (cn_record c) = true ∨ rio_peer_identity (cn_record c) = None →
  try_validate c = (Ok tt, c).
Proof.
  unfold try_validate. destruct (cn_state c); [|done..]. intros [->| ->]; [done|].
  by destruct (rio_is_handshaking _).
Qed.

(** A connection that receives nothing does not validate. *)
Lemma Conn_handle_data_idle eof now c r c' :
  conn_ok c → Conn_handle_data [] eof now c = Some (r, c') →
  cn_state c = Handshaking → cn_state c' = Handshaking ∨ Conn_is_closed c' = true.
Proof.
  intros [Ho Hq Hhand _ _ _] Hh Hs. unfold Conn_handle_data in Hh. specialize (Hhand Hs).
  destruct (Conn_is_closed c) eqn:Hc; [injection Hh as <- <-; by right|]. specialize (Hq eq_refl).
  cbn [handle_fuel handle_loop length Nat.add] in Hh. unfold handle_round in Hh.
  pose proof (rl_idle [] now _ Ho Hq) as Hidle. pose proof (rl_pending_le [] now (cn_record c)) as Hle.
  destruct (rio_handle_transport_data _ _ _) as [k record]. cbn [fst snd] in *.
  destruct (decide (k = IntakeFailed)) as [->|Hk]; [injection Hh as <- <-; by right|].
  destruct Hidle as [Hq' [Hs1 Hs2]].
  { destruct k as [|n|]; [by left|right; specialize (Hle n eq_refl); cbn in Hle; f_equal; lia|done]. }
  unfold surface_plaintext in Hh. cbn [cn_record] in Hh. pose proof (rl_quiet_read record Hq') as Hr0.
  pose proof (rl_read_same record) as [Hs3 Hs4].
  change (cn_record (c <| cn_record := record |>)) with record in Hh.
  destruct (rio_read_plaintext record) as [drained record']. cbn [fst snd] in *. subst drained.
  rewrite bool_decide_eq_true_2 in Hh by done. rewrite try_validate_waits in Hh.
  2: { cbn. by rewrite Hs3, Hs4, Hs1, Hs2. }
  destruct (intake_rest k []) as [[rest consumed]|] eqn:Hrest; [|by destruct k].
  assert (rest = []) as -> by (destruct k; cbn in Hrest; rewrite ?drop_nil in Hrest; congruence).
  rewrite bool_decide_eq_true_2 in Hh by done. cbn [mbind option_bind] in Hh. injection Hh as <- <-.
  destruct (eof || _); [by right|left; exact Hs].
Qed.

(** ** The messages of the complete frames *)

Fixpoint decode_frames (q : list bytes) (out : list Decoded) : result unit TransportError * list Decoded :=
  match q with
  | [] => (Ok tt, out)
  | f :: q =>
      match decode_frame f out with
      | (Err e, out) => (Err e, out)
      | (Ok _, out) => decode_frames q out
      end
  end.

Lemma poll_loop_exact fuel out c q p :
  decoder_rel (cn_decoder c) (Some (q, p)) → (length q ≤ fuel)%nat →
  ∃ d, poll_loop fuel out c
       = ((decode_frames q out).1, (decode_frames q out).2,
          match (decode_frames q out).1 with
          | Ok _ => c <| cn_decoder := d |>
          | Err _ => close_suspect (c <| cn_decoder := d |>)
          end)
    ∧ (∃ s, decoder_rel d s)
    ∧ ((decode_frames q out).1 = Ok tt → decoder_rel d (Some ([], p))).
Proof.
  revert q out c. induction fuel as [|fuel IH]; intros q out c Hd Hl; cbn [poll_loop];
    apply poll_rel in Hd as [Ho Hd]; destruct (FrameDecoder_poll (cn_decoder c)) as [o d]; cbn [fst snd] in *; subst o.
  - destruct q; [|cbn in Hl; lia]. exists d. split_and!; [done|by eexists|done].
  - destruct q as [|f q]; cbn [stream_poll fst snd] in *; [exists d; split_and!; [done|by eexists|done]|]. cbn [decode_frames].
    destruct (decode_frame f out) as [[[]|e] out']; [|exists d; split_and!; [done|by eexists|done]].
    destruct (IH q out' (c <| cn_decoder := d |>)) as (d' & -> & Hs & Hd'); [done|cbn in Hl; lia|].
    exists d'. split_and!; [by destruct (decode_frames q out').1|done..].
Qed.

Lemma length_frames_le q : (length q ≤ length (concat ((λ f, encode_frame f []) <$> q)))%nat.
Proof.
  induction q as [|f q IH]; [done|]. cbn [fmap list_fmap concat length].
  rewrite length_app, length_encode_frame. lia.
Qed.

(** A peer bound, polling yields the messages of every complete frame, in order,
    or closes at the first that is not well formed. *)
Lemma Conn_poll_decoded_exact c q p :
  is_Some (Conn_peer c) → decoder_rel (cn_decoder c) (Some (q, p)) →
  ∃ d, Conn_poll_decoded c
       = ((decode_frames q []).1, (decode_frames q []).2,
          match (decode_frames q []).1 with
          | Ok _ => c <| cn_decoder := d |>
          | Err _ => close_suspect (c <| cn_decoder := d |>)
          end)
    ∧ (∃ s, decoder_rel d s)
    ∧ ((decode_frames q []).1 = Ok tt → decoder_rel d (Some ([], p))).
Proof.
  intros [i Hi] Hd. unfold Conn_poll_decoded. rewrite Hi. apply (poll_loop_exact _ _ _ q p); [done|].
  destruct Hd as (_ & -> & _). rewrite length_app. pose proof (length_frames_le q). lia.
Qed.

Lemma Conn_poll_decoded_ok c :
  conn_ok c →
  conn_ok (Conn_poll_decoded c).2
  ∧ match (Conn_poll_decoded c).1.1 with
    | Err _ => cn_state (Conn_poll_decoded c).2 = Closed None
    | Ok _ => cn_state (Conn_poll_decoded c).2 = cn_state c
    end.
Proof.
  intros Hok. destruct (Conn_peer c) as [i|] eqn:Hi; [|unfold Conn_poll_decoded; by rewrite Hi].
  destruct (ck_decoder c Hok) as [[[q p]|] Hd].
  - destruct (Conn_poll_decoded_exact c q p) as (d & -> & Hs & _); [done..|]. cbn [fst snd].
    destruct Hok. destruct (decode_frames q []).1; (split; [|done]); [by split|by apply close_suspect_ok].
  - unfold Conn_poll_decoded. rewrite Hi.
    pose proof (poll_rel (cn_decoder c) None Hd) as [Ho Hd']. destruct (length _); cbn [poll_loop];
      destruct (FrameDecoder_poll (cn_decoder c)) as [o d]; cbn [fst snd stream_poll] in *; subst o;
      (split; [|done]); destruct Hok; apply close_suspect_ok; by eauto.
Qed.

(** ** What a send hands to the record layer *)

(** The record layer took exactly [acc], in as many writes as it liked. *)
Inductive accepts : bytes → R → R → Prop :=
  | accepts_none r : accepts [] r r
  | accepts_write p r acc r' :
      accepts acc (rio_write_plaintext p r).2 r' →
      accepts (take (rio_write_plaintext p r).1 p ++ acc) r r'.

(** The framed bytes the record layer has not taken. *)
Definition unsent c : bytes := drop (cn_out_pos c) (cn_out_plain c).

(** The frames [fs] were queued behind what waited, and the record layer took the
    front of the queue; the receiving side did not move. *)
Record sends (fs : list bytes) c c' : Prop := {
  sd_bytes : ∃ acc, unsent c ++ concat ((λ f, encode_frame f []) <$> fs) = acc ++ unsent c'
                    ∧ accepts acc (cn_record c) (cn_record c');
  sd_frames : Forall (λ f, blen f ≤ MAX_FRAME_LEN) fs;
  sd_pos : (cn_out_pos c' ≤ length (cn_out_plain c'))%nat;
  sd_state : cn_state c' = cn_state c;
  sd_decoder : cn_decoder c' = cn_decoder c;
  sd_max : cn_max_out c' = cn_max_out c;
}.

Lemma accepts_app acc1 acc2 r1 r2 r3 : accepts acc1 r1 r2 → accepts acc2 r2 r3 → accepts (acc1 ++ acc2) r1 r3.
Proof. induction 1; intros Ha; [done|]. rewrite <- (assoc_L (++)). constructor. auto. Qed.

Lemma accepts_inv (P : R → Prop) acc r r' :
  (∀ p i, P i → P (rio_write_plaintext p i).2) → accepts acc r r' → P r → P r'.
Proof. intros HP. induction 1; auto. Qed.

Lemma accepts_same acc r r' : accepts acc r r' → recv_same r r'.
Proof.
  intros Ha. apply (accepts_inv (recv_same r) acc r r'); [|done|by split].
  intros p i [E1 E2]. destruct (rl_write_same p i) as [E3 E4]. split; congruence.
Qed.

Lemma encode_frame_app f out : encode_frame f out = out ++ encode_frame f [].
Proof. done. Qed.

Lemma sends_refl c : (cn_out_pos c ≤ length (cn_out_plain c))%nat → sends [] c c.
Proof.
  intros Hp. split; try done. exists []. split; [apply app_nil_r|constructor].
Qed.

Lemma sends_trans fs1 fs2 c1 c2 c3 : sends fs1 c1 c2 → sends fs2 c2 c3 → sends (fs1 ++ fs2) c1 c3.
Proof.
  intros [(a1 & E1 & A1) F1 P1 S1 D1 M1] [(a2 & E2 & A2) F2 P2 S2 D2 M2]. split; try congruence.
  - exists (a1 ++ a2). split; [|by eapply accepts_app]. rewrite fmap_app, concat_app, (assoc_L (++)), E1.
    by rewrite <- (assoc_L (++)), E2, (assoc_L (++)).
  - by apply Forall_app.
Qed.

Lemma drain_loop_sends fuel c : (cn_out_pos c ≤ length (cn_out_plain c))%nat → sends [] c (drain_loop fuel c).
Proof.
  revert c. induction fuel as [|fuel IH]; intros c Hp; cbn [drain_loop];
    (destruct (Nat.ltb_spec (cn_out_pos c) (length (cn_out_plain c))) as [Hlt|Hge];
     [|split; try done; exists []; split; [|constructor]; unfold unsent; cbn; rewrite drop_ge by done; done]);
    [by apply sends_refl|].
  pose proof (rl_write_le (unsent c) (cn_record c)) as Hle. fold (unsent c).
  destruct (rio_write_plaintext (unsent c) (cn_record c)) as [n record] eqn:Hw. cbn [fst] in Hle.
  assert (accepts (take n (unsent c)) (cn_record c) record) as Ha.
  { pose proof (accepts_write (unsent c) (cn_record c) [] record) as Ha. rewrite Hw, app_nil_r in Ha.
    apply Ha. constructor. }
  unfold unsent in Hle. rewrite length_drop in Hle. destruct (Nat.eqb_spec n 0) as [->|Hn].
  - split; try done. exists []. split; [cbn; apply app_nil_r|exact Ha].
  - apply (sends_trans [] []) with (c <| cn_record := record |> <| cn_out_pos ::= λ p, (p + n)%nat |>);
      [|apply IH; cbn; lia].
    split; cbn; try done; [|lia]. exists (take n (unsent c)). split; [|exact Ha].
    unfold unsent. cbn. by rewrite app_nil_r, <- drop_drop, take_drop.
Qed.

Lemma drain_loop_encoder fuel c : cn_encoder (drain_loop fuel c) = cn_encoder c.
Proof.
  revert c. induction fuel as [|fuel IH]; intros c; cbn [drain_loop]; (destruct (_ <? _)%nat; [|done]); [done|].
  destruct (rio_write_plaintext _ _) as [n record]. destruct (n =? 0)%nat; [done|]. by rewrite IH.
Qed.

Lemma drain_out_sends c : (cn_out_pos c ≤ length (cn_out_plain c))%nat → sends [] c (drain_out c).
Proof. apply drain_loop_sends. Qed.

Lemma emit_frame_sends payload c :
  (cn_out_pos c ≤ length (cn_out_plain c))%nat →
  match emit_frame payload c with
  | (true, c') => sends [payload] c c' ∧ cn_encoder c' = cn_encoder c
  | (false, c') => c' = close_clean c
  end.
Proof.
  intros Hp. unfold emit_frame. destruct (_ || _) eqn:Hb; [done|]. apply orb_false_iff in Hb as [Hb _].
  apply N.ltb_ge in Hb. split; [|].
  - apply (sends_trans [payload] []) with (c <| cn_out_plain ::= encode_frame payload |>).
    + split; try done; [|by repeat constructor|cbn; rewrite encode_frame_app, length_app; lia].
      exists []. split; [|constructor]. unfold unsent. cbn. rewrite app_nil_r, (encode_frame_app payload).
      by rewrite drop_app_le.
    + apply drain_out_sends. cbn. rewrite encode_frame_app, length_app. lia.
  - unfold drain_out. by rewrite drain_loop_encoder.
Qed.

Lemma sends_ok fs c c' : sends fs c c' → conn_ok c → conn_ok c'.
Proof.
  intros [(acc & _ & Ha) _ Hp Hs Hd _] [Ho Hq Hh _ Hdec Hi]. destruct (accepts_same _ _ _ Ha) as [E1 E2].
  split; [by eapply (accepts_inv rl_ok); [apply rl_write_ok| |]| | |done|by rewrite Hd|].
  - unfold Conn_is_closed. rewrite Hs. intros Hc.
    eapply (accepts_inv rl_quiet); [apply rl_write_quiet|done|by apply Hq].
  - by rewrite Hs, E1, E2.
  - unfold Conn_peer, identified. by rewrite Hs, E2.
Qed.

(** A send leaves an open connection as it was, or closes it keeping its peer. *)
Definition sent c c' : Prop :=
  conn_ok c' ∧ (cn_state c' = cn_state c ∨ cn_state c' = Closed (current_peer c)).

Lemma emit_frame_ok payload c : conn_ok c → sent c (emit_frame payload c).2.
Proof.
  intros Hok. pose proof (emit_frame_sends payload c (ck_pos _ Hok)) as He.
  destruct (emit_frame payload c) as [[] c']; cbn [snd].
  - destruct He as [He _]. split; [by eapply sends_ok|left; apply He].
  - subst. split; [by apply close_clean_ok|by right].
Qed.

Lemma encode_ok msg c : conn_ok c → conn_ok (Conn_encode msg c).2 ∧ cn_state (Conn_encode msg c).2 = cn_state c.
Proof.
  intros []. unfold Conn_encode. destruct (MessageEncoder_encode_message _ _). split; [by split|done].
Qed.

Lemma sent_state c c1 c' : cn_state c1 = cn_state c → sent c1 c' → sent c c'.
Proof. unfold sent, current_peer. by intros ->. Qed.

Lemma Conn_send_message_ok group generation msg c :
  conn_ok c → sent c (Conn_send_message group generation msg c).
Proof.
  intros Hok. unfold Conn_send_message. destruct (Conn_is_closed c); [by split; [|left]|].
  destruct (encode_ok msg c Hok) as [Hok' Hs]. destruct (Conn_encode msg c) as [b c1].
  eapply sent_state; [exact Hs|]. by apply emit_frame_ok.
Qed.

Lemma Conn_send_probe_ok c : conn_ok c → sent c (Conn_send_probe c).
Proof.
  intros Hok. unfold Conn_send_probe. destruct (Conn_is_closed c); [by split; [|left]|]. by apply emit_frame_ok.
Qed.

(** While the loop goes on, every frame went out and the state stands. *)
Lemma coalesce_ok entries payload c :
  conn_ok c → let '(ok, _, c') := coalesce entries payload c in
  sent c c' ∧ (ok = true → cn_state c' = cn_state c).
Proof.
  revert payload c. induction entries as [|[[[flags group] generation] msg] entries IH]; intros payload c Hok;
    cbn [coalesce]; [by split; [split; [|left]|]|].
  destruct (encode_ok msg c Hok) as [Hok1 Hs1]. destruct (Conn_encode msg c) as [b c1]. cbn [snd] in *.
  assert (∀ fr payload', let '(ok, _, c') :=
      (let '(ok, c) := emit_frame fr c1 in if ok : bool then coalesce entries payload' c else (false, payload, c)) in
      sent c c' ∧ (ok = true → cn_state c' = cn_state c)) as Hemit.
  { intros fr payload'. pose proof (emit_frame_ok fr c1 Hok1) as He. pose proof (emit_frame_sends fr c1 (ck_pos _ Hok1)) as Hs.
    destruct (emit_frame fr c1) as [[] c2]; cbn [snd] in *.
    - destruct Hs as [Hs _]. specialize (IH payload' c2 (proj1 He)). destruct (coalesce entries payload' c2) as [[ok p] c3].
      destruct IH as [IH1 IH2]. split; [|intros Hk; rewrite (IH2 Hk), (sd_state _ _ _ Hs); done].
      eapply sent_state; [|done]. by rewrite (sd_state _ _ _ Hs).
    - split; [|done]. by eapply sent_state. }
  destruct (_ <? _); [apply Hemit|]. destruct (_ && _); [apply Hemit|].
  specialize (IH (write_coalesced_entry flags group generation b payload) c1 Hok1).
  destruct (coalesce _ _ c1) as [[ok p] c3]. destruct IH as [IH1 IH2].
  split; [by eapply sent_state|intros Hk; by rewrite (IH2 Hk)].
Qed.

Lemma Conn_send_coalesced_ok entries c : conn_ok c → sent c (Conn_send_coalesced entries c).
Proof.
  intros Hok. unfold Conn_send_coalesced. destruct (_ || _); [by split; [|left]|].
  pose proof (coalesce_ok entries (write_coalesced_marker []) c Hok) as Hc.
  destruct (coalesce _ _ c) as [[[] payload] c1]; destruct Hc as [[Hok1 Hs] Hc]; cbn [andb]; [|done].
  destruct (_ <? _); [|done]. eapply sent_state; [by apply Hc|]. by apply emit_frame_ok.
Qed.

Lemma Conn_poll_transmit_ok c :
  conn_ok c → conn_ok (Conn_poll_transmit c).2 ∧ cn_state (Conn_poll_transmit c).2 = cn_state c.
Proof.
  intros Hok. unfold Conn_poll_transmit. pose proof (drain_out_sends c (ck_pos _ Hok)) as Hs.
  pose proof (sends_ok _ _ _ Hs Hok) as [Ho Hq Hh Hp Hd Hi]. pose proof (rl_transmit_ok _ Ho) as Ho'.
  pose proof (rl_transmit_quiet (cn_record (drain_out c))) as Hq'.
  pose proof (rl_transmit_same (cn_record (drain_out c))) as [E1 E2].
  destruct (rio_poll_transport_transmit _) as [out record]. cbn [fst snd] in *.
  split; [|by rewrite <- (sd_state _ _ _ Hs)]. split; cbn; [done|auto| |done..|].
  - intros Hst. rewrite E1, E2. auto.
  - unfold identified. cbn. by rewrite E2.
Qed.
End conn.
