(* ===== verification/Link.v ===== *)
(** * A TCP link

    Two connections over [Labeled<Passthrough>], the stack of a TCP link, and the
    byte streams between them.  What a side puts on the wire is its hello and then
    its frames in the order they were sent; a side fed with any pieces of such a
    stream has decoded exactly the frames complete so far ([received]).  Together:
    whatever the two sides send, in whatever pieces the network moves the bytes,
    each side gets a prefix of what the other sent ([tcp_link_delivers]). *)

From S2P Require Import Prelude Bytes Num Conf Data Frame Entry Shape Wire Message Codec RecordIo.
From S2P Require Import Conn.

Abbreviation Plain := (Labeled Passthrough).

(** ** The outbound side of the record layer *)

(** What the layer has taken and not transmitted: the pipe's buffer, and behind it
    the part of the hello the pipe has not taken. *)
Definition lp_out (r : Plain) : bytes := pt_outbound (lb_inner r) ++ lb_hello_out r.

(** The part of the layer that reads. *)
Definition lp_in (r : Plain) :=
  (lb_cluster r, lb_local_hello r, lb_role r, lb_pending r, lb_validated r, lb_failed r, pt_inbound (lb_inner r)).

Lemma passthrough_write p (i : Passthrough) :
  pt_outbound (rio_write_plaintext p i).2 = pt_outbound i ++ take (rio_write_plaintext p i).1 p
  ∧ pt_inbound (rio_write_plaintext p i).2 = pt_inbound i.
Proof. done. Qed.

Lemma flush_hello_loop_out fuel (r : Plain) :
  lp_out (flush_hello_loop fuel r) = lp_out r ∧ lp_in (flush_hello_loop fuel r) = lp_in r.
Proof.
  revert r. induction fuel as [|fuel IH]; intros r; cbn [flush_hello_loop];
    (destruct (lb_hello_out r) as [|b out] eqn:Ho; [done|]); [done|].
  destruct (passthrough_write (b :: out) (lb_inner r)) as [E1 E2].
  pose proof (rl_write_le (b :: out) (lb_inner r)) as Hle.
  destruct (rio_write_plaintext (b :: out) (lb_inner r)) as [n inner]. cbn [fst snd] in *.
  destruct (Nat.eqb_spec n 0) as [->|Hn].
  - rewrite app_nil_r in E1. unfold lp_out, lp_in. cbn. by rewrite E1, E2.
  - destruct (IH (r <| lb_inner := inner |> <| lb_hello_out ::= drop n |>)) as [-> ->]. unfold lp_out, lp_in. cbn.
    rewrite E1, E2, Ho, <- (assoc_L (++)), take_drop. done.
Qed.

Lemma flush_hello_out (r : Plain) : lp_out (flush_hello r) = lp_out r ∧ lp_in (flush_hello r) = lp_in r.
Proof. apply flush_hello_loop_out. Qed.

Lemma lp_write p (r : Plain) :
  lp_out (rio_write_plaintext p r).2 = lp_out r ++ take (rio_write_plaintext p r).1 p
  ∧ lp_in (rio_write_plaintext p r).2 = lp_in r.
Proof.
  cbn [rio_write_plaintext Labeled_RecordIo]. unfold Labeled_write_plaintext.
  destruct (lb_failed r); [by cbn; rewrite app_nil_r|]. destruct (flush_hello_out r) as [Ho Hi].
  case_bool_decide as Hh; cbn [negb]; [|by cbn; rewrite Ho, app_nil_r].
  destruct (passthrough_write p (lb_inner (flush_hello r))) as [E1 E2].
  destruct (rio_write_plaintext p (lb_inner (flush_hello r))) as [n inner]. cbn [fst snd] in *.
  rewrite <- Ho, <- Hi. unfold lp_out, lp_in. cbn. by rewrite E1, E2, Hh, !app_nil_r.
Qed.

Lemma lp_accepts acc (r r' : Plain) : accepts acc r r' → lp_out r' = lp_out r ++ acc ∧ lp_in r' = lp_in r.
Proof.
  induction 1 as [r|p r acc r' _ [IH1 IH2]]; [by rewrite app_nil_r|].
  destruct (lp_write p r) as [E1 E2]. rewrite IH1, IH2, E1, E2. by rewrite (assoc_L (++)).
Qed.

Lemma lp_transmit (r : Plain) :
  lb_failed r = false →
  (rio_poll_transport_transmit r).1 ++ lp_out (rio_poll_transport_transmit r).2 = lp_out r
  ∧ lp_in (rio_poll_transport_transmit r).2 = lp_in r.
Proof.
  intros Hf. cbn [rio_poll_transport_transmit Labeled_RecordIo]. unfold Labeled_poll_transport_transmit.
  rewrite Hf. destruct (flush_hello_out r) as [<- <-]. done.
Qed.

(** *** A layer that takes nothing is full *)

Lemma passthrough_write_zero p (i : Passthrough) :
  p ≠ [] → (rio_write_plaintext p i).1 = 0%nat → SEND_LIMIT ≤ blen (pt_outbound (rio_write_plaintext p i).2).
Proof.
  intros Hp. cbn. intros Hz. rewrite Hz. cbn. rewrite app_nil_r. destruct p; [done|].
  unfold blen in *. cbn [length] in Hz. lia.
Qed.

Lemma flush_hello_loop_full fuel (r : Plain) :
  (length (lb_hello_out r) ≤ fuel)%nat → lb_hello_out (flush_hello_loop fuel r) ≠ [] →
  SEND_LIMIT ≤ blen (pt_outbound (lb_inner (flush_hello_loop fuel r))).
Proof.
  revert r. induction fuel as [|fuel IH]; intros r Hl; cbn [flush_hello_loop];
    (destruct (lb_hello_out r) as [|b out] eqn:Ho; [congruence|]); [cbn in Hl; lia|].
  pose proof (passthrough_write_zero (b :: out) (lb_inner r) ltac:(done)) as Hz.
  pose proof (rl_write_le (b :: out) (lb_inner r)) as Hle.
  destruct (rio_write_plaintext (b :: out) (lb_inner r)) as [n inner]. cbn [fst snd] in *.
  destruct (Nat.eqb_spec n 0) as [->|Hn]; [intros _; by apply Hz|]. apply IH. cbn. rewrite Ho, length_drop. cbn in *. lia.
Qed.

Lemma lp_write_zero p (r : Plain) :
  lb_failed r = false → p ≠ [] → (rio_write_plaintext p r).1 = 0%nat →
  SEND_LIMIT ≤ blen (pt_outbound (lb_inner (rio_write_plaintext p r).2)).
Proof.
  intros Hf Hp. cbn [rio_write_plaintext Labeled_RecordIo]. unfold Labeled_write_plaintext. rewrite Hf.
  case_bool_decide as Hh; cbn [negb]; [|intros _; by apply flush_hello_loop_full].
  pose proof (passthrough_write_zero p (lb_inner (flush_hello r)) Hp) as Hz.
  by destruct (rio_write_plaintext p (lb_inner (flush_hello r))) as [n inner].
Qed.

(** ** The outbound side of the connection *)

Section out.
Context {I : Type} `{!NodeId I, !Data I}.
Abbreviation Conn := (Conn I Plain).
Implicit Types (c : Conn).

Definition out_stream c : bytes := lp_out (cn_record c) ++ unsent c.

Lemma sends_stream fs c c' :
  sends fs c c' →
  out_stream c' = out_stream c ++ concat ((λ f, encode_frame f []) <$> fs)
  ∧ lp_in (cn_record c') = lp_in (cn_record c).
Proof.
  intros [(acc & E & Ha) _ _ _ _ _]. destruct (lp_accepts _ _ _ Ha) as [Ho Hi]. split; [|done].
  unfold out_stream. by rewrite Ho, <- !(assoc_L (++)), E.
Qed.

Lemma transmit_stream c :
  lb_failed (cn_record c) = false → (cn_out_pos c ≤ length (cn_out_plain c))%nat →
  (Conn_poll_transmit c).1 ++ out_stream (Conn_poll_transmit c).2 = out_stream c
  ∧ lp_in (cn_record (Conn_poll_transmit c).2) = lp_in (cn_record c).
Proof.
  intros Hf Hp. unfold Conn_poll_transmit. pose proof (drain_out_sends c Hp) as Hs.
  destruct (sends_stream _ _ _ Hs) as [Ho Hi]. cbn [fmap list_fmap concat] in Ho. rewrite app_nil_r in Ho.
  destruct (lp_transmit (cn_record (drain_out c))) as [E1 E2]; [injection Hi as; congruence|].
  destruct (rio_poll_transport_transmit _) as [out record]. cbn [fst snd] in *. rewrite <- Ho, <- Hi, <- E2.
  split; [|done]. unfold out_stream, unsent in *. cbn. by rewrite (assoc_L (++)), E1.
Qed.

(** Transmitting moves neither the state nor the decoder, and leaves nothing unsent
    where nothing was. *)
Lemma transmit_frame c :
  (cn_out_pos c ≤ length (cn_out_plain c))%nat →
  let c' := (Conn_poll_transmit c).2 in
  cn_state c' = cn_state c ∧ cn_decoder c' = cn_decoder c ∧ cn_encoder c' = cn_encoder c
  ∧ (cn_out_pos c' ≤ length (cn_out_plain c'))%nat ∧ (unsent c = [] → unsent c' = []).
Proof.
  intros Hp. cbn zeta. unfold Conn_poll_transmit. destruct (drain_out_sends c Hp) as [(acc & E & _) _ Hp' Hs Hd _].
  pose proof (drain_loop_encoder (length (cn_out_plain c)) c) as He. fold (drain_out c) in He.
  destruct (rio_poll_transport_transmit _) as [out record]. cbn [snd]. split_and!; try done.
  intros Hu. rewrite Hu in E. cbn in E. symmetry in E. by apply app_eq_nil in E as [_ E].
Qed.

Lemma drain_loop_full fuel c :
  lb_failed (cn_record c) = false → (length (unsent c) ≤ fuel)%nat → unsent (drain_loop fuel c) ≠ [] →
  SEND_LIMIT ≤ blen (pt_outbound (lb_inner (cn_record (drain_loop fuel c)))).
Proof.
  revert c. induction fuel as [|fuel IH]; intros c Hf Hl; cbn [drain_loop];
    (destruct (Nat.ltb_spec (cn_out_pos c) (length (cn_out_plain c))) as [Hlt|Hge]; [|done]);
    [unfold unsent in Hl; rewrite length_drop in Hl; lia|]. fold (unsent c).
  assert (unsent c ≠ []) as Hne.
  { intros E. apply (f_equal length) in E. unfold unsent in E. rewrite length_drop in E. cbn in E. lia. }
  pose proof (lp_write_zero (unsent c) (cn_record c) Hf Hne) as Hz. destruct (lp_write (unsent c) (cn_record c)) as [_ Hi].
  destruct (rio_write_plaintext (unsent c) (cn_record c)) as [n record]. cbn [fst snd] in *.
  destruct (Nat.eqb_spec n 0) as [->|Hn]; [intros _; by apply Hz|].
  apply IH; [injection Hi; cbn; congruence|]. unfold unsent in *. cbn. rewrite length_drop in *. lia.
Qed.

(** A transmission with anything to send sends something. *)
Lemma transmit_progress c :
  lb_failed (cn_record c) = false → (cn_out_pos c ≤ length (cn_out_plain c))%nat →
  out_stream c ≠ [] → (Conn_poll_transmit c).1 ≠ [].
Proof.
  intros Hf Hp Hne. unfold Conn_poll_transmit. destruct (sends_stream _ _ _ (drain_out_sends c Hp)) as [Ho Hi].
  pose proof (drain_loop_full (length (cn_out_plain c)) c Hf) as Hd. fold (drain_out c) in Hd.
  cbn [fmap list_fmap concat] in Ho. rewrite app_nil_r in Ho. rewrite <- Ho in Hne.
  set (c1 := drain_out c) in *. assert (lb_failed (cn_record c1) = false) as Hf1 by (injection Hi; congruence).
  cbn [rio_poll_transport_transmit Labeled_RecordIo]. unfold Labeled_poll_transport_transmit. rewrite Hf1. cbn.
  intros Hz. destruct (flush_hello_out (cn_record c1)) as [Hfo _].
  assert (lb_hello_out (flush_hello (cn_record c1)) = []) as Hh.
  { destruct (decide (lb_hello_out (flush_hello (cn_record c1)) = [])) as [|Hn]; [done|].
    apply flush_hello_loop_full in Hn; [|done]. fold (flush_hello (cn_record c1)) in Hn. by rewrite Hz in Hn. }
  unfold lp_out in Hfo. rewrite Hz, Hh in Hfo. cbn in Hfo. symmetry in Hfo. apply app_eq_nil in Hfo as [Hfo Hfh].
  apply Hne. unfold out_stream, lp_out. rewrite Hfo, Hfh. cbn.
  destruct (decide (unsent c1 = [])) as [|Hn]; [done|]. apply Hd in Hn; [by rewrite Hfo in Hn|].
  unfold unsent. rewrite length_drop. lia.
Qed.
End out.

(** ** The inbound side of the record layer *)

(** One call takes what the pipe has room for. *)
Definition taken (input : bytes) : bytes := take (N.to_nat RECV_LIMIT) input.

Definition lp_intake (input : bytes) : Intake :=
  if blen input <=? RECV_LIMIT then IntakeDone else IntakePending (N.to_nat RECV_LIMIT).

Lemma passthrough_handle input now (i : Passthrough) :
  pt_inbound i = [] →
  rio_handle_transport_data input now i = (lp_intake input, i <| pt_inbound := taken input |>).
Proof.
  intros Hi. cbn. unfold Passthrough_handle_transport_data, lp_intake, taken. rewrite Hi. cbn [blen length].
  change (RECV_LIMIT - blen []) with RECV_LIMIT. destruct i as [inb outb]. cbn in Hi. subst inb.
  destruct (N.leb_spec (blen input) RECV_LIMIT); [|done]. unfold upd. cbn. rewrite take_ge; [done|].
  unfold blen in *. lia.
Qed.

(** The hello the layer sends when it has read the peer's. *)
Definition greeting (r : Plain) : bytes := match lb_role r with Acceptor => lb_local_hello r | Dialer => [] end.

(** The layer is [r'] after [r] took [t] and was read: [plain] came out. *)
Definition lp_took (t : bytes) (r : Plain) (plain : bytes) (r' : Plain) : Prop :=
  lb_failed r' = false ∧ pt_inbound (lb_inner r') = [] ∧ lb_cluster r' = lb_cluster r
  ∧ lb_role r' = lb_role r ∧ lb_local_hello r' = lb_local_hello r
  ∧ match lb_validated r with
    | Some id => lb_validated r' = Some id ∧ lb_pending r' = [] ∧ plain = lb_pending r ++ t ∧ lp_out r' = lp_out r
    | None =>
        match hello_parse (lb_cluster r) (lb_pending r ++ t) with
        | HelloWait => lb_validated r' = None ∧ lb_pending r' = lb_pending r ++ t ∧ plain = [] ∧ lp_out r' = lp_out r
        | HelloGood id rest =>
            lb_validated r' = Some id ∧ lb_pending r' = [] ∧ plain = rest ∧ lp_out r' = lp_out r ++ greeting r
        | HelloBad => False
        end
    end.

Lemma lp_round input now (r : Plain) :
  lb_failed r = false → pt_inbound (lb_inner r) = [] →
  (lb_validated r = None → hello_parse (lb_cluster r) (lb_pending r ++ taken input) ≠ HelloBad) →
  ∃ r1, rio_handle_transport_data input now r = (lp_intake input, r1)
    ∧ lp_took (taken input) r (rio_read_plaintext r1).1 (rio_read_plaintext r1).2.
Proof.
  intros Hf Hi Hbad. cbn [rio_handle_transport_data Labeled_RecordIo]. unfold Labeled_handle_transport_data.
  rewrite Hf, passthrough_handle by done. destruct r as [inner cl lh role pend ho val fl]. cbn in Hf, Hi, Hbad. subst fl.
  set (r1 := Build_Labeled (inner <| pt_inbound := [] |>) cl lh role (pend ++ taken input) ho val false).
  set (r0 := Build_Labeled inner cl lh role pend ho val false).
  assert (lp_out r1 = lp_out r0) as Hout by done.
  set (step := match lb_validated r1 with
    | Some _ => (lp_intake input, r1)
    | None => let '(step, r) := advance_handshake r1 in
              (if decide (step = IntakeFailed) then IntakeFailed else lp_intake input, r)
    end).
  match goal with |- ∃ _, ?x = _ ∧ _ => assert (x = step) as -> by
    (unfold step, lp_intake; by destruct (_ <=? _)) end.
  destruct val as [id|]; unfold step; cbn [lb_validated r1].
  { eexists. split; [done|]. by split_and!. }
  rewrite advance_handshake_spec by done. change (lb_cluster r1) with cl. change (lb_pending r1) with (pend ++ taken input).
  specialize (Hbad eq_refl). unfold lp_took. cbn [lb_validated lb_cluster lb_pending r0].
  destruct (hello_parse cl (pend ++ taken input)) as [| |id rest] eqn:Hp; [|done|].
  { eexists. split; [by rewrite decide_False|]. by split_and!. }
  cbn zeta. rewrite decide_False by done. eexists. split; [done|]. destruct role; [cbn; split_and!; try done; by rewrite app_nil_r|].
  destruct (flush_hello_out (r1 <| lb_pending := rest |> <| lb_validated := Some id |>
    <| lb_hello_out ::= λ o, o ++ lb_local_hello (r1 <| lb_pending := rest |> <| lb_validated := Some id |>) |>)) as [Ho Hi'].
  set (r2 := flush_hello _) in *. injection Hi' as H1 H2 H3 H4 H5 H6 H7.
  change (match lb_role _ with Dialer => _ | Acceptor => r2 end) with r2.
  assert (rio_read_plaintext r2 = (rest, r2 <| lb_pending := [] |>)) as ->.
  { cbn [rio_read_plaintext Labeled_RecordIo]. unfold Labeled_read_plaintext. by rewrite H6, H5, H4. }
  cbn [fst snd].
  split_and!; try done. unfold greeting. cbn. etrans; [exact Ho|]. unfold lp_out. cbn. by rewrite (assoc_L (++)).
Qed.

(** ** The inbound side of the connection *)

Definition frames (fs : list bytes) : bytes := concat ((λ f, encode_frame f []) <$> fs).

Definition bounded_frames (fs : list bytes) : Prop := Forall (λ f, blen f ≤ MAX_FRAME_LEN) fs.

Lemma frames_app fs1 fs2 : frames (fs1 ++ fs2) = frames fs1 ++ frames fs2.
Proof. unfold frames. by rewrite fmap_app, concat_app. Qed.

(** The complete frames in a piece of a frame stream are the first of its frames. *)
Lemma absorb_prefix fs b :
  bounded_frames fs → b `prefix_of` frames fs →
  ∃ done p, foldl stream_absorb (Some ([], [])) b = Some (done, p) ∧ done `prefix_of` fs.
Proof.
  intros Hfs [x Hx]. pose proof (absorb_frames [] fs Hfs) as Ha. fold (frames fs) in Ha.
  rewrite Hx, foldl_app in Ha. destruct (foldl stream_absorb _ b) as [[done p]|]; [|by rewrite absorb_failed in Ha].
  rewrite absorb_queue_nil in Ha. destruct (foldl stream_absorb _ x) as [[q p']|]; [|done].
  injection Ha as Ha _. exists done, p. split; [done|]. by exists q.
Qed.

Lemma absorb_more fs b b' done p :
  bounded_frames fs → b ++ b' `prefix_of` frames fs → foldl stream_absorb (Some ([], [])) b = Some (done, p) →
  ∃ q p', foldl stream_absorb (Some ([], p)) b' = Some (q, p').
Proof.
  intros Hfs Hb Ha. destruct (absorb_prefix fs _ Hfs Hb) as (q' & p' & Ha' & _).
  rewrite foldl_app, Ha, absorb_queue_nil in Ha'.
  destruct (foldl stream_absorb (Some ([], p)) b') as [[q p'']|]; [by eexists _, _|done].
Qed.

Lemma absorb_whole fs : bounded_frames fs → foldl stream_absorb (Some ([], [])) (frames fs) = Some (fs, []).
Proof. apply (absorb_frames []). Qed.

(** The hello a side has put in its stream so far. *)
Definition opened (r : Plain) : bytes :=
  match lb_role r, lb_validated r with Acceptor, None => [] | _, _ => lb_local_hello r end.

Section recv.
Context {I : Type} `{!NodeId I, !Data I}.
Context `{!Buffa PbMessage, !Buffa PbSnapshotMeta, !BuffaSizes, !BuffaWire}.
Abbreviation Conn := (Conn I Plain).
Abbreviation Decoded := (Decoded I).
Context (cl : ClusterId) (idb : bytes) (peer : I).
Context (Hcl : length cl = 16%nat) (Hid : hello_id_ok idb) (Hpeer : decode_exact idb = Ok peer).
Implicit Types (c : Conn).

(** The connection has been fed the bytes [b] of the peer's stream: the frames
    [polled] have been polled and the frames [q] wait. *)
Record received (b : bytes) (polled q : list bytes) c : Prop := {
  rc_failed : lb_failed (cn_record c) = false;
  rc_drained : pt_inbound (lb_inner (cn_record c)) = [];
  rc_cluster : lb_cluster (cn_record c) = cl;
  rc_rest :
    (∃ x, x ≠ [] ∧ b ++ x = build_hello cl idb ∧ cn_state c = Handshaking
       ∧ lb_validated (cn_record c) = None ∧ lb_pending (cn_record c) = b ∧ polled = [] ∧ q = []
       ∧ decoder_rel (cn_decoder c) (Some ([], [])))
    ∨ (∃ rest p, b = build_hello cl idb ++ rest ∧ cn_state c = Validated peer
         ∧ lb_validated (cn_record c) = Some idb ∧ lb_pending (cn_record c) = []
         ∧ foldl stream_absorb (Some ([], [])) rest = Some (polled ++ q, p)
         ∧ decoder_rel (cn_decoder c) (Some (q, p)));
}.

(** Reading leaves the sending side alone, but for the hello of an acceptor. *)
Record reads c c' : Prop := {
  rd_plain : cn_out_plain c' = cn_out_plain c;
  rd_pos : cn_out_pos c' = cn_out_pos c;
  rd_encoder : cn_encoder c' = cn_encoder c;
  rd_hello : lb_local_hello (cn_record c') = lb_local_hello (cn_record c);
  rd_out : ∃ g, lp_out (cn_record c') = lp_out (cn_record c) ++ g
                ∧ opened (cn_record c') = opened (cn_record c) ++ g
                ∧ (is_Some (lb_validated (cn_record c)) → g = []);
  rd_validated : is_Some (lb_validated (cn_record c)) → is_Some (lb_validated (cn_record c'));
}.

Lemma reads_trans c1 c2 c3 : reads c1 c2 → reads c2 c3 → reads c1 c3.
Proof.
  intros [E1 E2 E3 E4 (g & E5 & E6 & E7) E8] [F1 F2 F3 F4 (g' & F5 & F6 & F7) F8]. split; try congruence; [|auto].
  exists (g ++ g'). rewrite F5, F6, E5, E6, !(assoc_L (++)). split_and!; [done..|].
  intros Hv. rewrite E7, F7; auto.
Qed.

Lemma reads_refl c : reads c c.
Proof. split; try done. exists []. by rewrite !app_nil_r. Qed.

(** A piece of the peer's stream ends inside the hello or inside the frames. *)
Lemma stream_cases fs b :
  b `prefix_of` build_hello cl idb ++ frames fs →
  (∃ x, x ≠ [] ∧ b ++ x = build_hello cl idb) ∨ (∃ rest, b = build_hello cl idb ++ rest ∧ rest `prefix_of` frames fs).
Proof.
  intros [x Hx]. apply app_eq_inv in Hx as [(k & E & _)|(k & -> & ->)]; [|right; exists k; split; [done|by exists x]].
  destruct k as [|y k]; [|left; by exists (y :: k)].
  rewrite app_nil_r in E. right. exists []. split; [by rewrite app_nil_r|apply prefix_nil].
Qed.

Lemma taken_rest input : taken input ++ drop (N.to_nat RECV_LIMIT) input = input.
Proof. apply take_drop. Qed.

Lemma intake_taken input :
  intake_rest (lp_intake input) input = Some (drop (N.to_nat RECV_LIMIT) input, true).
Proof.
  unfold lp_intake. destruct (N.leb_spec (blen input) RECV_LIMIT) as [Hl|Hl]; cbn [intake_rest].
  - rewrite drop_ge; [done|]. unfold blen in Hl. lia.
  - by rewrite (proj2 (Nat.ltb_lt 0 (N.to_nat RECV_LIMIT))) by (unfold RECV_LIMIT; lia).
Qed.

Lemma surface_absorbs drained (record : Plain) c q p s :
  decoder_rel (cn_decoder c) (Some (q, p)) → foldl stream_absorb (Some (q, p)) drained = Some s →
  rio_read_plaintext (cn_record c) = (drained, record) →
  ∃ d, surface_plaintext c = (drained, c <| cn_record := record |> <| cn_scratch := drained |> <| cn_decoder := d |>)
    ∧ decoder_rel d (Some s).
Proof.
  intros Hd Hs Hr. unfold surface_plaintext. rewrite Hr. case_bool_decide as He.
  - subst drained. injection Hs as <-. by exists (cn_decoder c); destruct c.
  - eexists. split; [by destruct c|]. rewrite <- Hs. by apply push_rel.
Qed.

Lemma try_validate_binds c :
  cn_state c = Handshaking → lb_validated (cn_record c) = Some idb →
  try_validate c = (Ok tt, c <| cn_state := Validated peer |>).
Proof.
  intros Hs Hv. unfold try_validate. rewrite Hs. cbn [rio_is_handshaking rio_peer_identity Labeled_RecordIo].
  rewrite Hv, bool_decide_eq_false_2 by done. cbn [orb rio_is_handshaking Passthrough_RecordIo]. by rewrite Hpeer.
Qed.

Lemma try_validate_bound c : cn_state c = Validated peer → try_validate c = (Ok tt, c).
Proof. unfold try_validate. by intros ->. Qed.

#[local] Opaque taken RECV_LIMIT.

(** One round: what the pipe takes reaches the decoder, and a complete hello
    validates the peer. *)
Lemma round_received fs b polled q input now c :
  bounded_frames fs → b ++ taken input `prefix_of` build_hello cl idb ++ frames fs → received b polled q c →
  ∃ c' q', received (b ++ taken input) polled (q ++ q') c' ∧ reads c c'
    ∧ handle_round input now c
      = let rest := drop (N.to_nat RECV_LIMIT) input in
        if bool_decide (rest = []) then inl (Ok tt, c') else inr (rest, c').
Proof.
  intros Hfs Hb [Hf Hi Hc Hrest].
  destruct (lp_round input now (cn_record c)) as (r1 & Hh & Ht); [done..| |].
  { intros Hv. destruct Hrest as [(x & _ & Hx & _ & _ & -> & _)|(? & ? & _ & _ & Hv' & _)]; [|congruence].
    rewrite Hc. destruct (stream_cases fs _ Hb) as [(y & Hy & E)|(rest & -> & _)].
    - by rewrite (hello_parse_wait cl idb _ y).
    - by rewrite hello_parse_hello. }
  unfold handle_round. rewrite Hh, intake_taken. cbn zeta.
  destruct (rio_read_plaintext r1) as [drained record] eqn:Hr. cbn [fst snd] in Ht.
  destruct Ht as (Hf' & Hi' & Hc' & Hrole & Hhello & Ht).
  destruct Hrest as [(x & Hx0 & Hx & Hs & Hv & Hp & -> & -> & Hd)|(rest & p & -> & Hs & Hv & Hp & Ha & Hd)].
  - rewrite Hv, Hc, Hp in Ht. destruct (stream_cases fs _ Hb) as [(y & Hy & E)|(rest & E & Hrest)].
    + rewrite (hello_parse_wait cl idb _ y) in Ht by done. destruct Ht as (Hv' & Hp' & -> & Ho').
      destruct (surface_absorbs [] record (c <| cn_record := r1 |>) [] [] ([], [])) as (d & -> & Hd'); [done..|].
      rewrite try_validate_waits by (right; exact Hv'). eexists _, []. split_and!; [| |done].
      * split; try done; [by cbn; congruence|]. left. exists y. by split_and!.
      * split; try done; cbn; [exists []|by rewrite Hv; intros []]. unfold opened.
        by rewrite Ho', !app_nil_r, Hrole, Hhello, Hv, Hv'.
    + rewrite E, hello_parse_hello in Ht by done. destruct Ht as (Hv' & Hp' & -> & Ho').
      destruct (absorb_prefix fs rest) as (q' & p & Ha & _); [done..|].
      destruct (surface_absorbs rest record (c <| cn_record := r1 |>) [] [] (q', p)) as (d & -> & Hd'); [done..|].
      rewrite try_validate_binds by done.
      eexists _, q'. split_and!; [| |done].
      * split; try done; [by cbn; congruence|]. right. exists rest, p. by split_and!.
      * split; try done; cbn. exists (greeting (cn_record c)). rewrite Ho'. split_and!; [done| |by rewrite Hv; intros []].
        unfold opened, greeting. rewrite Hrole, Hhello, Hv, Hv'. destruct (lb_role (cn_record c)); [by rewrite app_nil_r|done].
  - rewrite Hv, Hp in Ht. destruct Ht as (Hv' & Hp' & -> & Ho').
    destruct (stream_cases fs _ Hb) as [(y & Hy & E)|(rest' & E & Hrest)].
    { apply (f_equal length) in E. rewrite !length_app in E. destruct y; [done|]. cbn [length] in E. lia. }
    rewrite <- (assoc_L (++)) in E. apply app_inv_head in E as <-.
    destruct (absorb_more fs rest (taken input) _ p Hfs Hrest Ha) as (q'' & p'' & Hq).
    destruct (surface_absorbs (taken input) record (c <| cn_record := r1 |>) q p (q ++ q'', p'')) as (d & -> & Hd'); [done| |done|].
    { by rewrite absorb_queue_nil, Hq. }
    rewrite try_validate_bound by (by rewrite <- Hs).
    eexists _, q''. split_and!; [| |done].
    + split; try done; [by cbn; congruence|]. right. exists (rest ++ taken input), p''.
      rewrite (assoc_L (++)), foldl_app, Ha, absorb_queue_nil, Hq. split_and!; try done. cbn. by rewrite (assoc_L (++)).
    + split; try done; cbn. exists []. rewrite Ho', !app_nil_r. unfold opened. by rewrite Hrole, Hhello, Hv, Hv'.
Qed.

Lemma loop_received fuel fs b polled q input now c :
  bounded_frames fs → b ++ input `prefix_of` build_hello cl idb ++ frames fs → received b polled q c →
  (length input < fuel)%nat →
  ∃ c' q', received (b ++ input) polled (q ++ q') c' ∧ reads c c' ∧ handle_loop fuel input now c = Some (Ok tt, c').
Proof.
  intros Hfs. revert b q input c. induction fuel as [|fuel IH]; intros b q input c Hb Hc Hl; [lia|]. cbn [handle_loop].
  assert (b ++ taken input `prefix_of` build_hello cl idb ++ frames fs) as Hb'.
  { etrans; [|exact Hb]. apply prefix_app. rewrite <- (taken_rest input) at 2. by eexists. }
  destruct (round_received fs b polled q input now c Hfs Hb' Hc) as (c1 & q1 & Hc1 & Hr1 & ->). cbn zeta.
  pose proof (taken_rest input) as Ht. case_bool_decide as He.
  { rewrite He, app_nil_r in Ht. rewrite Ht in Hc1. by eexists _, _. }
  destruct (IH (b ++ taken input) (q ++ q1) (drop (N.to_nat RECV_LIMIT) input) c1) as (c2 & q2 & Hc2 & Hr2 & E).
  - by rewrite <- (assoc_L (++)), Ht.
  - done.
  - rewrite length_drop. destruct input; [by rewrite drop_nil in He|]. cbn [length] in *.
    assert (0 < RECV_LIMIT) by done. lia.
  - rewrite <- !(assoc_L (++)), Ht in Hc2. eexists _, _. split_and!; [done|by eapply reads_trans|done].
Qed.

Lemma received_open b polled q c : received b polled q c → Conn_is_closed c = false.
Proof.
  intros [_ _ _ Hr]. unfold Conn_is_closed.
  by destruct Hr as [(x & _ & _ & -> & _)|(rest & p & _ & -> & _)].
Qed.

Lemma handle_received fs b polled q input now c :
  bounded_frames fs → b ++ input `prefix_of` build_hello cl idb ++ frames fs → received b polled q c →
  ∃ c' q', received (b ++ input) polled (q ++ q') c' ∧ reads c c'
    ∧ Conn_handle_data input false now c = Some (Ok tt, c').
Proof.
  intros Hfs Hb Hc. unfold Conn_handle_data. rewrite (received_open _ _ _ _ Hc).
  destruct (loop_received (handle_fuel input) fs b polled q input now c) as (c' & q' & Hc' & Hr & ->); try done.
  { unfold handle_fuel. lia. }
  eexists _, _. split_and!; done.
Qed.

(** ** Decoding *)

Lemma decode_entries_out entries out :
  decode_entries (I := I) entries out = ((decode_entries entries []).1, out ++ (decode_entries entries []).2).
Proof.
  revert out. induction entries as [|[[[flags group] generation] message] entries IH]; intros out; cbn [decode_entries].
  - by rewrite app_nil_r.
  - destruct (decode_message message) as [msg|]; [|by rewrite app_nil_r].
    rewrite IH, (IH ([] ++ _)). cbn [fst snd]. by rewrite <- !(assoc_L (++)).
Qed.

Lemma decode_frame_out f out :
  decode_frame (I := I) f out = ((decode_frame f []).1, out ++ (decode_frame f []).2).
Proof.
  unfold decode_frame. destruct (is_coalesced_frame f).
  - destruct (split_coalesced f); [apply decode_entries_out|by rewrite app_nil_r].
  - destruct (split_group_header f) as [[[group generation] message]|]; [|by rewrite app_nil_r].
    destruct (decode_message message); [done|by rewrite app_nil_r].
Qed.

Lemma decode_frames_out fs out :
  decode_frames (I := I) fs out = ((decode_frames fs []).1, out ++ (decode_frames fs []).2).
Proof.
  revert out. induction fs as [|f fs IH]; intros out; cbn [decode_frames]; [by rewrite app_nil_r|].
  rewrite (decode_frame_out f out). destruct (decode_frame f []) as [[[]|e] ds]; cbn [fst snd]; [|done].
  rewrite IH, (IH ds). cbn [fst snd]. by rewrite (assoc_L (++)).
Qed.

(** The messages of the frames. *)
Definition carries (fs : list bytes) (ds : list Decoded) : Prop := decode_frames fs [] = (Ok tt, ds).

Lemma carries_app fs1 fs2 ds1 ds2 : carries fs1 ds1 → carries fs2 ds2 → carries (fs1 ++ fs2) (ds1 ++ ds2).
Proof.
  unfold carries. intros H1 H2. revert ds1 H1. induction fs1 as [|f fs IH]; intros ds1; cbn [decode_frames app].
  - by intros [= <-].
  - destruct (decode_frame f []) as [[[]|e] ds]; [|done]. rewrite !(decode_frames_out _ ds).
    destruct (decode_frames fs []) as [r ds'] eqn:E. cbn [fst snd]. intros [= -> <-].
    rewrite (IH ds') by done. cbn [fst snd]. by rewrite (assoc_L (++)).
Qed.

Lemma carries_split fs1 fs2 ds :
  carries (fs1 ++ fs2) ds → ∃ ds1 ds2, ds = ds1 ++ ds2 ∧ carries fs1 ds1 ∧ carries fs2 ds2.
Proof.
  unfold carries. revert ds. induction fs1 as [|f fs IH]; intros ds; cbn [decode_frames app]; [by exists [], ds|].
  destruct (decode_frame f []) as [[[]|e] d]; [|done]. rewrite !(decode_frames_out _ d).
  destruct (decode_frames (fs ++ fs2) []) as [r ds'] eqn:E. cbn [fst snd]. intros [= -> <-].
  destruct (IH ds') as (ds1 & ds2 & -> & -> & ->); [done|]. exists (d ++ ds1), ds2. by rewrite (assoc_L (++)).
Qed.

Lemma poll_received b polled q ds c :
  received b polled q c → carries q ds →
  ∃ c', Conn_poll_decoded c = (Ok tt, ds, c') ∧ received b (polled ++ q) [] c' ∧ reads c c'.
Proof.
  intros [Hf Hi Hc [(x & Hx0 & Hx & Hs & Hv & Hp & -> & -> & Hd)|(rest & p & -> & Hs & Hv & Hp & Ha & Hd)]] Hq.
  - unfold Conn_poll_decoded, Conn_peer. rewrite Hs. injection Hq as <-. eexists. split_and!; [done| |apply reads_refl].
    split; try done. left. by exists x.
  - destruct (Conn_poll_decoded_exact c q p) as (d & -> & _ & Hd'); [unfold Conn_peer; by rewrite Hs|done|].
    rewrite Hq in *. cbn [fst snd] in *. eexists. split_and!; [done| |].
    + split; try done. right. exists rest, p. rewrite app_nil_r. by split_and!; try apply Hd'.
    + split; try done. exists []. by rewrite !app_nil_r.
Qed.

(** What a connection has polled and holds are the first frames of the stream. *)
Lemma received_prefix fs b polled q c :
  bounded_frames fs → b `prefix_of` build_hello cl idb ++ frames fs → received b polled q c → polled ++ q `prefix_of` fs.
Proof.
  intros Hfs Hb [_ _ _ [(x & _ & _ & _ & _ & _ & -> & -> & _)|(rest & p & -> & _ & _ & _ & Ha & _)]];
    [apply prefix_nil|].
  apply prefix_app_inv in Hb. destruct (absorb_prefix fs rest Hfs Hb) as (done & p' & Ha' & Hd).
  rewrite Ha in Ha'. by injection Ha' as -> _.
Qed.

(** Bytes of the peer's stream, fed and polled: what was received grows by the
    messages that became complete. *)
Lemma receive_exact fs ds b polled input now got c :
  bounded_frames fs → carries fs ds → b ++ input `prefix_of` build_hello cl idb ++ frames fs →
  carries polled got → received b polled [] c →
  ∃ c1 c2 polled' new,
    Conn_handle_data input false now c = Some (Ok tt, c1) ∧ Conn_poll_decoded c1 = (Ok tt, new, c2)
    ∧ received (b ++ input) polled' [] c2 ∧ carries polled' (got ++ new) ∧ reads c c2.
Proof.
  intros Hfs Hds Hb Hgot Hc. destruct (handle_received fs b polled [] input now c) as (c1 & q & Hc1 & Hr1 & E1); [done..|].
  destruct (received_prefix fs _ _ _ _ Hfs Hb Hc1) as [fs' ->]. cbn [app] in *.
  rewrite <- (assoc_L (++)) in Hds. apply carries_split in Hds as (ds1 & ds2 & -> & H1 & H2).
  apply carries_split in H2 as (new & ds3 & -> & H2 & _).
  assert (ds1 = got) as -> by (unfold carries in *; congruence).
  destruct (poll_received _ _ _ new c1 Hc1 H2) as (c2 & E2 & Hc2 & Hr2).
  exists c1, c2, (polled ++ q), new. split_and!; [done..|by apply carries_app|by eapply reads_trans].
Qed.
End recv.

(** ** What a send puts in the stream *)

Section send.
Context {I : Type} `{!NodeId I, !Data I, !DataLaws I}.
Context `{!BuffaSizes, !BuffaWire, !BuffaSizeLaws, !Buffa PbMessage, !Buffa PbInstallSnapshot,
  !Buffa PbSnapshotMeta, !Buffa PbConfState, !Buffa PbForkId, !Proto3}.
Abbreviation Conn := (Conn I Plain).
Abbreviation Decoded := (Decoded I).
Implicit Types (c : Conn).

(** A message the protobuf runtime carries. *)
Definition carried (msg : Message I) : Prop :=
  wire_message msg ∧ buffa_decode (buffa_encode (pb_message msg)) = Ok (pb_message msg).

Definition send_ok c : Prop :=
  (cn_out_pos c ≤ length (cn_out_plain c))%nat ∧ cache_valid (cn_encoder c).

(** The call closed the connection, or queued frames that carry [ds]. *)
Definition posts (ds : list Decoded) c c' : Prop :=
  Conn_is_closed c' = true ∨ (∃ fs, sends fs c c' ∧ carries fs ds ∧ send_ok c').

Lemma encoded_message msg c :
  carried msg → send_ok c →
  (Conn_encode msg c).1 = encode_message msg ∧ send_ok (Conn_encode msg c).2
  ∧ decode_message (Conn_encode msg c).1 = Ok msg.
Proof.
  intros [Hm Hb] [Hp Hc]. unfold Conn_encode. destruct (cached_encode_message msg _ Hc) as [E Hc'].
  destruct (MessageEncoder_encode_message _ _) as [b enc]. cbn [fst snd] in *. subst b.
  split_and!; [done|done|by apply decode_encode_message].
Qed.

(** Encoding moves nothing but the encoder. *)
Lemma encode_sends msg fs c c' : sends fs (Conn_encode msg c).2 c' → sends fs c c'.
Proof.
  unfold Conn_encode. destruct (MessageEncoder_encode_message _ _) as [b enc]. cbn [snd].
  by intros [? ? ? ? ? ?].
Qed.

Lemma emit_posts payload ds c :
  send_ok c → carries [payload] ds →
  match emit_frame payload c with
  | (true, c') => sends [payload] c c' ∧ send_ok c'
  | (false, c') => Conn_is_closed c' = true
  end.
Proof.
  intros [Hp Hc] Hds. pose proof (emit_frame_sends payload c Hp) as He.
  destruct (emit_frame payload c) as [[] c']; [|by subst]. destruct He as [He E].
  split; [done|]. split; [apply He|by rewrite E].
Qed.

Lemma emit_frame_posts payload ds c :
  send_ok c → carries [payload] ds → posts ds c (emit_frame payload c).2.
Proof.
  intros Hc Hds. pose proof (emit_posts payload ds c Hc Hds) as He.
  destruct (emit_frame payload c) as [[] c']; [right|by left]. destruct He. by exists [payload].
Qed.

Lemma message_frame_carries group generation b msg :
  blen group ≤ MAX_GROUP_ID_LEN → is_u64 generation → decode_message b = Ok msg →
  carries [write_group_header group generation [] ++ b] [(group, x00, generation, msg)].
Proof.
  intros Hg Hu Hd. destruct (group_header_roundtrip group b generation Hg Hu) as (E1 & E2 & _).
  unfold carries. cbn [decode_frames]. unfold decode_frame. by rewrite E2, E1, Hd.
Qed.

Lemma Conn_send_message_posts group generation msg c :
  blen group ≤ MAX_GROUP_ID_LEN → is_u64 generation → carried msg → send_ok c → Conn_is_closed c = false →
  posts [(group, x00, generation, msg)] c (Conn_send_message group generation msg c).
Proof.
  intros Hg Hu Hm Hc Ho. unfold Conn_send_message. rewrite Ho.
  destruct (encoded_message msg c Hm Hc) as (_ & Hc' & Hd). pose proof (encode_sends msg) as He.
  specialize (λ fs, He fs c). destruct (Conn_encode msg c) as [b c1]. cbn [fst snd] in *.
  destruct (emit_frame_posts (write_group_header group generation [] ++ b) [(group, x00, generation, msg)] c1) as [Hcl|(fs & Hs & Hok)];
    [done|by apply message_frame_carries|by left|right]. exists fs. split; [by apply He|done].
Qed.

Lemma Conn_send_probe_posts c : send_ok c → Conn_is_closed c = false → posts [] c (Conn_send_probe c).
Proof. intros Hc Ho. unfold Conn_send_probe. rewrite Ho. by apply emit_frame_posts. Qed.

(** *** Batches *)

Definition raw_entry (e : CoalescedEntry I) : byte * bytes * u64 * bytes :=
  let '(flags, group, generation, msg) := e in (flags, group, generation, encode_message msg).

Definition delivered_entry (e : CoalescedEntry I) : Decoded :=
  let '(flags, group, generation, msg) := e in (group, flags, generation, msg).

(** The entries the coordinators batch: a group tag, and a size within the budget. *)
Definition batch_entry (e : CoalescedEntry I) : Prop :=
  let '(_, group, generation, msg) := e in
  0 < blen group ≤ MAX_GROUP_ID_LEN ∧ is_u64 generation ∧ carried msg
  ∧ N.of_nat (coalesced_entry_len (length group) generation (length (encode_message msg))) ≤ COALESCED_FRAME_BUDGET.

(** The frame under construction. *)
Definition batch_frame (es : list (CoalescedEntry I)) : bytes := coalesced_frame (raw_entry <$> es).
Definition batch_len (es : list (CoalescedEntry I)) : N := N.of_nat (entries_len (raw_entry <$> es)).

Lemma batch_entry_ok e : batch_entry e → entry_ok (raw_entry e).
Proof.
  destruct e as [[[flags group] generation] msg]. intros (Hg & Hu & _ & Hl). split_and!; [by apply Hg..|done|].
  cbn. unfold coalesced_entry_len in Hl. unfold blen. change (256 ^ 4) with 4294967296.
  change COALESCED_FRAME_BUDGET with 65536 in Hl. lia.
Qed.

Lemma batch_frame_snoc es flags group generation msg :
  write_coalesced_entry flags group generation (encode_message msg) (batch_frame es)
  = batch_frame (es ++ [(flags, group, generation, msg)]).
Proof. unfold batch_frame, coalesced_frame. by rewrite fmap_app, foldl_app. Qed.

Lemma batch_len_snoc es flags group generation msg :
  batch_len (es ++ [(flags, group, generation, msg)])
  = batch_len es + N.of_nat (coalesced_entry_len (length group) generation (length (encode_message msg))).
Proof.
  unfold batch_len, entries_len. rewrite fmap_app, sum_list_with_app. cbn. lia.
Qed.

Lemma batch_blen es :
  Forall batch_entry es → batch_len es ≤ COALESCED_FRAME_BUDGET → blen (batch_frame es) = 2 + batch_len es.
Proof.
  intros Hes Hl. destruct (coalesced_roundtrip (raw_entry <$> es)) as (_ & E & _); [|done|].
  - apply Forall_fmap. eapply Forall_impl; [done|]. apply batch_entry_ok.
  - unfold blen, batch_frame, batch_len. rewrite E. lia.
Qed.

Lemma decode_batch es out :
  Forall batch_entry es → decode_entries (raw_entry <$> es) out = (Ok tt, out ++ (delivered_entry <$> es)).
Proof.
  intros Hes. revert out. induction Hes as [|[[[flags group] generation] msg] es (_ & _ & [Hm Hb] & _) _ IH];
    intros out; cbn [fmap list_fmap raw_entry decode_entries]; [by rewrite app_nil_r|].
  rewrite decode_encode_message by done. rewrite IH, <- (assoc_L (++)). done.
Qed.

Lemma batch_carries es :
  Forall batch_entry es → batch_len es ≤ COALESCED_FRAME_BUDGET → carries [batch_frame es] (delivered_entry <$> es).
Proof.
  intros Hes Hl. destruct (coalesced_roundtrip (raw_entry <$> es)) as (E & _ & _); [|done|].
  { apply Forall_fmap. eapply Forall_impl; [done|]. apply batch_entry_ok. }
  unfold carries. cbn [decode_frames]. unfold decode_frame. fold (batch_frame es) in E.
  assert (is_coalesced_frame (batch_frame es) = true) as ->.
  { unfold split_coalesced in E. by destruct (is_coalesced_frame (batch_frame es)). }
  rewrite E, decode_batch by done. done.
Qed.

Lemma batch_fits es flags group generation msg :
  Forall batch_entry es → batch_len es ≤ COALESCED_FRAME_BUDGET → batch_entry (flags, group, generation, msg) →
  (2 <? blen (batch_frame es)) && (COALESCED_FRAME_BUDGET <? blen (batch_frame es)
     + N.of_nat (coalesced_entry_len (length group) generation (length (encode_message msg)))) = false →
  batch_len (es ++ [(flags, group, generation, msg)]) ≤ COALESCED_FRAME_BUDGET.
Proof.
  intros Hes Hl (_ & _ & _ & He). rewrite batch_blen, batch_len_snoc by done.
  intros [Hb|Hb]%andb_false_iff; apply N.ltb_ge in Hb; lia.
Qed.

(** The loop keeps the entries in order: those in frames already queued, then
    those of the frame under construction. *)
Lemma coalesce_posts entries es c :
  Forall batch_entry entries → Forall batch_entry es → batch_len es ≤ COALESCED_FRAME_BUDGET → send_ok c →
  match coalesce entries (batch_frame es) c with
  | (true, payload, c') =>
      ∃ fs done es', sends fs c c' ∧ carries fs (delivered_entry <$> done) ∧ payload = batch_frame es'
        ∧ es ++ entries = done ++ es' ∧ Forall batch_entry es' ∧ batch_len es' ≤ COALESCED_FRAME_BUDGET ∧ send_ok c'
  | (false, _, c') => Conn_is_closed c' = true
  end.
Proof.
  intros He. revert es c. induction He as [|[[[flags group] generation] msg] entries Hen He IH]; intros es c Hes Hl Hc;
    cbn [coalesce].
  { exists [], [], es. rewrite app_nil_r. split_and!; try done. apply sends_refl, Hc. }
  pose proof Hen as (Hg & Hu & Hm & Hlen).
  destruct (encoded_message msg c Hm Hc) as (Hb & Hc1 & _). pose proof (encode_sends msg) as Hsend.
  specialize (λ fs, Hsend fs c). destruct (Conn_encode msg c) as [b c1]. cbn [fst snd] in *. subst b.
  destruct (N.ltb_spec COALESCED_FRAME_BUDGET
    (N.of_nat (coalesced_entry_len (length group) generation (length (encode_message msg))))) as [|_]; [lia|].
  destruct (_ && _) eqn:Hflush.
  - pose proof (emit_posts (batch_frame es) (delivered_entry <$> es) c1 Hc1 (batch_carries es Hes Hl)) as Hemit.
    destruct (emit_frame (batch_frame es) c1) as [[] c2]; [|done]. destruct Hemit as [Hs2 Hc2].
    change (write_coalesced_marker []) with (batch_frame []). rewrite batch_frame_snoc. cbn [app].
    assert (batch_len [(flags, group, generation, msg)] ≤ COALESCED_FRAME_BUDGET) as Hl1.
    { pose proof (batch_len_snoc [] flags group generation msg) as E. change (batch_len []) with 0 in E. cbn [app] in E. lia. }
    specialize (IH [(flags, group, generation, msg)] c2 (proj2 (Forall_singleton batch_entry _) Hen) Hl1 Hc2).
    destruct (coalesce _ _ c2) as [[[] payload] c3]; [|done].
    destruct IH as (fs & done & es' & Hs & Hca & Hp & E & Hrest). exists (batch_frame es :: fs), (es ++ done), es'.
    split_and!; [apply Hsend; by apply (sends_trans [batch_frame es] fs _ c2)| |done| |apply Hrest..].
    + rewrite fmap_app. apply (carries_app [batch_frame es]); [by apply batch_carries|done].
    + by rewrite <- (assoc_L (++)), <- E.
  - rewrite batch_frame_snoc. specialize (IH (es ++ [(flags, group, generation, msg)]) c1
      (proj2 (Forall_app _ _ _) (conj Hes (proj2 (Forall_singleton batch_entry _) Hen)))
      (batch_fits es flags group generation msg Hes Hl Hen Hflush) Hc1).
    destruct (coalesce _ _ c1) as [[[] payload] c3]; [|done].
    destruct IH as (fs & done & es' & Hs & Hca & Hp & E & Hrest).
    exists fs, done, es'. split_and!; [by apply Hsend|done|done| |apply Hrest..]. by rewrite <- E, <- (assoc_L (++)).
Qed.

Lemma Conn_send_coalesced_posts entries c :
  Forall batch_entry entries → send_ok c → Conn_is_closed c = false →
  posts (delivered_entry <$> entries) c (Conn_send_coalesced entries c).
Proof.
  intros He Hc Ho. unfold Conn_send_coalesced. rewrite Ho. cbn [orb]. case_bool_decide as Hlen.
  { destruct entries; [|done]. right. exists []. split_and!; [apply sends_refl, Hc|done..]. }
  change (write_coalesced_marker []) with (batch_frame []).
  pose proof (coalesce_posts entries [] c He ltac:(by constructor) ltac:(done) Hc) as Hp.
  destruct (coalesce _ _ c) as [[[] payload] c1]; [|by left]. cbn [andb].
  destruct Hp as (fs & done & es' & Hs & Hca & -> & E & Hes & Hl & Hc1). cbn [app] in E. subst entries.
  rewrite (batch_blen es') by done. destruct (N.ltb_spec 2 (2 + batch_len es')) as [_|Hz].
  - pose proof (emit_posts (batch_frame es') (delivered_entry <$> es') c1 Hc1 ltac:(by apply batch_carries)) as Hemit.
    destruct (emit_frame (batch_frame es') c1) as [[] c2]; [right|by left]. destruct Hemit as [Hs2 Hc2].
    exists (fs ++ [batch_frame es']). rewrite fmap_app. split_and!; [by eapply sends_trans| |done].
    apply carries_app; [done|by apply batch_carries].
  - right. exists fs. assert (es' = []) as ->; [|by rewrite app_nil_r].
    destruct es' as [|e es']; [done|]. exfalso.
    destruct e as [[[flags group] generation] msg]. unfold batch_len, entries_len, coalesced_entry_len in Hz. cbn in Hz. lia.
Qed.
End send.

(** ** The link

    An end is the connection, as long as its router keeps it, what it has put on
    the wire and the other end has not read, and what it sent and received.  As in
    the router, a message is sent only to a validated peer, a connection that is
    closed is dropped, and a fault of the stream drops it too. *)

Record LinkEnd (I : Type) `{!NodeId I} := {
  ed_conn : option (Conn I Plain);
  ed_wire : bytes;
  ed_sent : list (Decoded I);
  ed_got : list (Decoded I);
  ed_fault : bool;
}.
Arguments Build_LinkEnd {I _}.
Arguments ed_conn {I _}.
Arguments ed_wire {I _}.
Arguments ed_sent {I _}.
Arguments ed_got {I _}.
Arguments ed_fault {I _}.

#[global] Instance LinkEnd_eta {I} `{!NodeId I} : Eta (LinkEnd I) := λ e,
  Build_LinkEnd (ed_conn e) (ed_wire e) (ed_sent e) (ed_got e) (ed_fault e).

Inductive LinkOp (I : Type) `{!NodeId I} :=
  | LkSend (group : bytes) (generation : u64) (msg : Message I)
  | LkBatch (entries : list (CoalescedEntry I))
  | LkProbe
  | LkTransmit
  | LkReceive (n : nat) (now : Instant)
  | LkDrop.
Arguments LkSend {I _}.
Arguments LkBatch {I _}.
Arguments LkProbe {I _}.
Arguments LkTransmit {I _}.
Arguments LkReceive {I _}.
Arguments LkDrop {I _}.

Section link.
Context {I : Type} `{!NodeId I, !Data I}.
Context `{!BuffaSizes, !BuffaWire, !Buffa PbMessage, !Buffa PbSnapshotMeta}.
Abbreviation Conn := (Conn I Plain).
Abbreviation LinkEnd := (LinkEnd I).
Abbreviation Decoded := (Decoded I).
Implicit Types (e me you : LinkEnd).

Definition end_send (ds : list Decoded) (send : Conn → Conn) e : LinkEnd :=
  match ed_conn e with
  | None => e
  | Some c =>
      match current_peer c with
      | None => e
      | Some _ =>
          let c := send c in
          if Conn_is_closed c then e <| ed_conn := None |>
          else e <| ed_conn := Some c |> <| ed_sent ::= λ s, s ++ ds |>
      end
  end.

Definition end_transmit e : LinkEnd :=
  match ed_conn e with
  | None => e
  | Some c => let '(out, c) := Conn_poll_transmit c in e <| ed_conn := Some c |> <| ed_wire ::= λ w, w ++ out |>
  end.

Definition end_receive (input : bytes) (now : Instant) e : option LinkEnd :=
  match ed_conn e with
  | None => Some e
  | Some c =>
      '(r, c) ← Conn_handle_data input false now c;
      let '(r, new, c) := match r with Err x => (Err x, [], c) | Ok _ => Conn_poll_decoded c end in
      Some (match r with
            | Err _ => e <| ed_conn := None |> <| ed_fault := true |>
            | Ok _ => e <| ed_conn := if Conn_is_closed c then None else Some c |> <| ed_got ::= λ g, g ++ new |>
            end)
  end.

(** A step of the end [me], the other being [you]. *)
Definition end_step (op : LinkOp I) me you : option (LinkEnd * LinkEnd) :=
  match op with
  | LkSend group generation msg =>
      Some (end_send [(group, x00, generation, msg)] (Conn_send_message group generation msg) me, you)
  | LkBatch entries => Some (end_send (delivered_entry <$> entries) (Conn_send_coalesced entries) me, you)
  | LkProbe => Some (end_send [] Conn_send_probe me, you)
  | LkTransmit => Some (end_transmit me, you)
  | LkReceive n now =>
      me ← end_receive (take n (ed_wire you)) now me; Some (me, you <| ed_wire ::= drop n |>)
  | LkDrop => Some (me <| ed_conn := None |>, you)
  end.

(** The ends of a link: the one that dialed, the one that accepted. *)
Fixpoint link_run (ops : list (ConnRole * LinkOp I)) (l : LinkEnd * LinkEnd) : option (LinkEnd * LinkEnd) :=
  match ops with
  | [] => Some l
  | (Dialer, op) :: ops => l ← end_step op l.1 l.2; link_run ops l
  | (Acceptor, op) :: ops => '(a, d) ← end_step op l.2 l.1; link_run ops (d, a)
  end.

Definition end_new (record : Plain) : LinkEnd :=
  {| ed_conn := Some (Conn_new record); ed_wire := []; ed_sent := []; ed_got := []; ed_fault := false |}.
End link.

(** ** The link delivers *)

Section delivery.
Context {I : Type} `{!NodeId I, !Data I, !DataLaws I}.
Context `{!BuffaSizes, !BuffaWire, !BuffaSizeLaws, !Buffa PbMessage, !Buffa PbInstallSnapshot,
  !Buffa PbSnapshotMeta, !Buffa PbConfState, !Buffa PbForkId, !Proto3}.
Abbreviation Conn := (Conn I Plain).
Abbreviation LinkEnd := (LinkEnd I).
Abbreviation Decoded := (Decoded I).
Context (cl : ClusterId) (Hcl : length cl = 16%nat).
Implicit Types (e me you : LinkEnd) (c : Conn) (id : I).

Definition hello_of id : bytes := build_hello cl (data_encode id).

#[local] Arguments hello_of : simpl never.

Definition link_id id : Prop := data_valid id ∧ hello_id_ok (data_encode id).

(** The sending side of the end [id] has sent the frames [fs]. *)
Record speaks id (fs : list bytes) c : Prop := {
  sp_hello : lb_local_hello (cn_record c) = hello_of id;
  sp_ok : send_ok c;
  sp_idle : lb_validated (cn_record c) = None → fs = [] ∧ unsent c = [];
}.

(** One direction, from the end [id]: the other end has read the bytes [fed] of its
    stream and polled the frames [polled]. *)
Record direction id me you (fs : list bytes) (fed : bytes) (polled : list bytes) : Prop := {
  dr_frames : bounded_frames fs;
  dr_sent : carries fs (ed_sent me);
  dr_got : carries polled (ed_got you);
  dr_prefix : polled `prefix_of` fs;
  dr_stream : fed ++ ed_wire me `prefix_of` hello_of id ++ frames fs;
  dr_me : ∀ c, ed_conn me = Some c →
    speaks id fs c ∧ fed ++ ed_wire me ++ out_stream c = opened (cn_record c) ++ frames fs;
  dr_you : ∀ c, ed_conn you = Some c → received cl (data_encode id) id fed polled [] c;
}.

Definition flows id me you : Prop := ∃ fs fed polled, direction id me you fs fed polled.

(** The state the reading side looks at. *)
Lemma received_same b idb peer polled q c c' :
  lp_in (cn_record c') = lp_in (cn_record c) → cn_state c' = cn_state c → cn_decoder c' = cn_decoder c →
  received cl idb peer b polled q c → received cl idb peer b polled q c'.
Proof.
  intros Hin Hs Hd [Hf Hi Hc Hr]. injection Hin as E1 E2 E3 E4 E5 E6 E7.
  split; [congruence..|]. by rewrite Hs, Hd, E4, E5.
Qed.

Lemma opened_same (r r' : Plain) : lp_in r' = lp_in r → opened r' = opened r.
Proof. intros [= E1 E2 E3 E4 E5 E6 E7]. unfold opened. by rewrite E2, E3, E5. Qed.

(** An end that goes away leaves what it put on the wire. *)
Lemma flows_drop id me you : flows id me you → flows id (me <| ed_conn := None |>) you.
Proof. intros (fs & fed & polled & []). exists fs, fed, polled. by split. Qed.

Lemma flows_drop_you id me you : flows id me you → flows id me (you <| ed_conn := None |>).
Proof. intros (fs & fed & polled & []). exists fs, fed, polled. by split. Qed.

(** A side that hears a validated peer has sent its hello. *)
Lemma validated_opened idb peer b polled q c id :
  received cl idb peer b polled q c → is_Some (current_peer c) → lb_local_hello (cn_record c) = hello_of id →
  opened (cn_record c) = hello_of id ∧ is_Some (lb_validated (cn_record c)).
Proof.
  intros [_ _ _ [(x & _ & _ & Hs & _)|(rest & p & _ & Hs & Hv & _)]]; unfold current_peer; rewrite Hs; [by intros []|].
  intros _ Hh. unfold opened. rewrite Hv, Hh. by destruct (lb_role _).
Qed.

Lemma speaks_opened id fs c :
  speaks id fs c → opened (cn_record c) ++ frames fs `prefix_of` hello_of id ++ frames fs.
Proof.
  intros [Hh _ Hi]. unfold opened. rewrite Hh. destruct (lb_role _), (lb_validated _); try done.
  destruct Hi as [-> _]; [done|]. apply prefix_nil.
Qed.

(** Both directions. *)
Definition linked idm idy me you : Prop := flows idm me you ∧ flows idy you me.

Lemma linked_send idm idy ds send me you :
  (∀ c, send_ok c → Conn_is_closed c = false → posts ds c (send c)) →
  linked idm idy me you → linked idm idy (end_send ds send me) you.
Proof.
  intros Hsend [Hm Hy]. unfold end_send. destruct (ed_conn me) as [c|] eqn:Hc; [|done].
  destruct (current_peer c) as [p|] eqn:Hp; [|done].
  destruct Hm as (fs & fed & polled & Hm), Hy as (fs2 & fed2 & polled2 & Hy).
  destruct (dr_me _ _ _ _ _ _ Hm c Hc) as [[Hh Hok Hi] Hout]. pose proof (dr_you _ _ _ _ _ _ Hy c Hc) as Hr.
  pose proof (received_open _ _ _ _ _ _ _ Hr) as Hopen.
  destruct (validated_opened _ _ _ _ _ _ idm Hr ltac:(by rewrite Hp) Hh) as [_ Hv].
  destruct (Hsend c Hok Hopen) as [Hcd|(fs' & Hs & Hca & Hok')].
  { rewrite Hcd. split; [apply flows_drop; by eexists _, _, _|apply flows_drop_you; by eexists _, _, _]. }
  assert (Conn_is_closed (send c) = false) as ->.
  { unfold Conn_is_closed. rewrite (sd_state _ _ _ Hs). exact Hopen. }
  destruct (sends_stream _ _ _ Hs) as [Eo Ei]. pose proof Ei as [= _ F2 _ _ F5 _ _].
  split; [exists (fs ++ fs'), fed, polled|exists fs2, fed2, polled2]; destruct Hm, Hy.
  - split; try done; cbn.
    + apply Forall_app. split; [done|apply Hs].
    + by apply carries_app.
    + by apply prefix_app_r.
    + rewrite frames_app, (assoc_L (++)). by apply prefix_app_r.
    + intros ? [= <-]. split; [|by rewrite (opened_same _ _ Ei), Eo, frames_app, !(assoc_L (++)), <- Hout, !(assoc_L (++))].
      split; [congruence|done|]. rewrite F5. intros E. by rewrite E in Hv; destruct Hv.
  - split; try done. cbn. intros ? [= <-]. eapply received_same; [exact Ei|apply Hs|apply Hs|done].
Qed.

Lemma linked_transmit idm idy me you : linked idm idy me you → linked idm idy (end_transmit me) you.
Proof.
  intros [(fs & fed & polled & Hm) (fs2 & fed2 & polled2 & Hy)]. unfold end_transmit.
  destruct (ed_conn me) as [c|] eqn:Hc; [|by split; eexists _, _, _].
  destruct (dr_me _ _ _ _ _ _ Hm c Hc) as [Hsp Hout]. pose proof (dr_you _ _ _ _ _ _ Hy c Hc) as Hr.
  pose proof Hsp as [Hh [Hpos Hcache] Hi].
  destruct (transmit_stream c (rc_failed _ _ _ _ _ _ _ Hr) Hpos) as [Eo Ei].
  destruct (transmit_frame c Hpos) as (Es & Ed & Ec & Ep & Eu).
  destruct (Conn_poll_transmit c) as [out c']. cbn [fst snd] in *.
  pose proof Ei as [= _ F2 _ _ F5 _ _].
  assert (speaks idm fs c') as Hsp'.
  { split; [congruence|by split; [|rewrite Ec]|]. rewrite F5. intros Hv. destruct (Hi Hv). auto. }
  assert (fed ++ (ed_wire me ++ out) ++ out_stream c' = opened (cn_record c') ++ frames fs) as Hout'.
  { by rewrite (opened_same _ _ Ei), <- Hout, <- Eo, <- !(assoc_L (++)). }
  split; [exists fs, fed, polled|exists fs2, fed2, polled2]; destruct Hm, Hy.
  - split; try done; cbn.
    + etrans; [|by apply (speaks_opened idm fs c')]. rewrite <- Hout', !(assoc_L (++)). by eexists.
    + by intros ? [= <-].
  - split; try done. cbn. intros ? [= <-]. by eapply received_same.
Qed.

(** What reading leaves of the sending side. *)
Lemma reads_speaks id fs c c' :
  reads c c' → speaks id fs c →
  speaks id fs c' ∧ ∀ w, w ++ out_stream c = opened (cn_record c) ++ frames fs →
                      w ++ out_stream c' = opened (cn_record c') ++ frames fs.
Proof.
  intros [E1 E2 E3 E4 (g & E5 & E6 & E7) E8] [Hh [Hp Hca] Hi].
  assert (unsent c' = unsent c) as Eu by (unfold unsent; by rewrite E1, E2).
  split.
  - split; [congruence|split; [by rewrite E1, E2|by rewrite E3]|]. rewrite Eu. intros Hv. apply Hi.
    destruct (lb_validated (cn_record c)); [|done]. rewrite Hv in E8. by destruct E8.
  - intros w. unfold out_stream. rewrite Eu, E5, E6. destruct (lb_validated (cn_record c)) as [v|] eqn:Hv.
    + rewrite E7 by done. by rewrite !app_nil_r.
    + destruct (Hi eq_refl) as [-> ->]. change (frames []) with (@nil byte). rewrite !app_nil_r, (assoc_L (++)). by intros ->.
Qed.

(** Bytes that leave the wire, read or thrown away. *)
Lemma direction_read id me you fs fed polled n :
  direction id me you fs fed polled → ed_conn you = None →
  direction id (me <| ed_wire ::= drop n |>) you fs (fed ++ take n (ed_wire me)) polled.
Proof.
  intros [] Hn. split; try done; cbn.
  - by rewrite <- (assoc_L (++)), take_drop.
  - intros c Hc. destruct (dr_me0 c Hc) as [? E]. split; [done|].
    by rewrite <- (assoc_L (++)), (assoc_L (++) (take n _)), take_drop.
  - intros c Hc. congruence.
Qed.

Lemma linked_receive idm idy n now me you :
  link_id idm → link_id idy → linked idm idy me you →
  ∃ me', end_receive (take n (ed_wire you)) now me = Some me' ∧ ed_fault me' = ed_fault me
    ∧ linked idm idy me' (you <| ed_wire ::= drop n |>).
Proof.
  intros _ [Hval Hhid] [(fs & fed & polled & Hm) (fs2 & fed2 & polled2 & Hy)]. unfold end_receive.
  destruct (ed_conn me) as [c|] eqn:Hc.
  2: { eexists. split_and!; [done..|]. split; [exists fs, fed, polled; destruct Hm; by split|].
       eexists _, _, _. by apply direction_read. }
  pose proof (dr_you _ _ _ _ _ _ Hy c Hc) as Hr. destruct (dr_me _ _ _ _ _ _ Hm c Hc) as [Hsp Hout].
  set (w := ed_wire you) in *. assert (w = take n w ++ drop n w) as Hw by (by rewrite take_drop).
  destruct (receive_exact cl (data_encode idy) idy Hcl Hhid (proj2 (decode_exact_spec _ _) (conj Hval eq_refl))
    fs2 (ed_sent you) fed2 polled2 (take n w) now (ed_got me) c) as (c1 & c2 & polled' & new & -> & Hpoll & Hr' & Hgot & Hrd);
    [apply Hy..| |apply Hy|done|].
  { etrans; [|apply (dr_stream _ _ _ _ _ _ Hy)]. fold w. rewrite Hw at 2. rewrite (assoc_L (++)). by eexists. }
  cbn [mbind option_bind]. rewrite Hpoll, (received_open _ _ _ _ _ _ _ Hr').
  eexists. split_and!; [done..|]. destruct (reads_speaks _ _ _ _ Hrd Hsp) as [Hsp' Hout'].
  assert (polled' `prefix_of` fs2) as Hpre.
  { rewrite <- (app_nil_r polled'). eapply received_prefix; [apply Hy| |exact Hr'].
    etrans; [|apply (dr_stream _ _ _ _ _ _ Hy)]. fold w. rewrite Hw at 2. rewrite (assoc_L (++)). by eexists. }
  split; [exists fs, fed, polled|exists fs2, (fed2 ++ take n w), polled']; destruct Hm, Hy.
  - split; try done. cbn. intros ? [= <-]. split; [done|]. rewrite (assoc_L (++)). apply Hout'.
    by rewrite <- (assoc_L (++)).
  - split; try done; cbn; fold w.
    + by rewrite <- (assoc_L (++)), take_drop.
    + intros c' Hc'. destruct (dr_me1 c' Hc') as [? E]. split; [done|].
      by rewrite <- (assoc_L (++)), (assoc_L (++) (take n w)), take_drop.
    + by intros ? [= <-].
Qed.

(** What an end may be asked to send. *)
Definition link_op_ok (op : LinkOp I) : Prop :=
  match op with
  | LkSend group generation msg => blen group ≤ MAX_GROUP_ID_LEN ∧ is_u64 generation ∧ carried msg
  | LkBatch entries => Forall batch_entry entries
  | _ => True
  end.

Lemma linked_step idm idy op me you :
  link_id idm → link_id idy → link_op_ok op → linked idm idy me you →
  ∃ me' you', end_step op me you = Some (me', you') ∧ linked idm idy me' you'
    ∧ ed_fault me' = ed_fault me ∧ ed_fault you' = ed_fault you.
Proof.
  intros Hm Hy Hop Hl.
  assert (∀ ds send, ed_fault (end_send ds send me) = ed_fault me) as Hsf.
  { intros ds send. unfold end_send. destruct (ed_conn me) as [c|]; [|done]. destruct (current_peer c); [|done].
    by destruct (Conn_is_closed _). }
  destruct op as [group generation msg|entries| | |n now|]; cbn [end_step].
  - destruct Hop as (? & ? & ?). eexists _, _. split_and!; [done| |apply Hsf|done]. apply linked_send; [|done].
    intros. by apply Conn_send_message_posts.
  - eexists _, _. split_and!; [done| |apply Hsf|done]. apply linked_send; [|done]. intros. by apply Conn_send_coalesced_posts.
  - eexists _, _. split_and!; [done| |apply Hsf|done]. apply linked_send; [|done]. intros. by apply Conn_send_probe_posts.
  - eexists _, _. split_and!; [done|by apply linked_transmit| |done]. unfold end_transmit.
    destruct (ed_conn me); [|done]. by destruct (Conn_poll_transmit _).
  - destruct (linked_receive idm idy n now me you Hm Hy Hl) as (me' & -> & Hf & Hl'). by eexists _, _.
  - eexists _, _. split_and!; [done| |done..]. destruct Hl. split; [by apply flows_drop|by apply flows_drop_you].
Qed.

Lemma linked_swap idm idy me you : linked idm idy me you → linked idy idm you me.
Proof. by intros []. Qed.

Lemma linked_run idd ida ops d a :
  link_id idd → link_id ida → Forall (λ o, link_op_ok o.2) ops → linked idd ida d a →
  ∃ d' a', link_run ops (d, a) = Some (d', a') ∧ linked idd ida d' a'
    ∧ ed_fault d' = ed_fault d ∧ ed_fault a' = ed_fault a.
Proof.
  intros Hd Ha Hops. revert d a. induction Hops as [|[[] op] ops Hop _ IH]; intros d a Hl; cbn [link_run];
    [by eexists _, _| |].
  - destruct (linked_step idd ida op d a Hd Ha Hop Hl) as (d1 & a1 & E & Hl1 & <- & <-). cbn [fst snd]. rewrite E. apply (IH d1 a1 Hl1).
  - destruct (linked_step ida idd op a d Ha Hd Hop (linked_swap _ _ _ _ Hl)) as (a1 & d1 & E & Hl1 & <- & <-).
    cbn [fst snd]. rewrite E. apply (IH d1 a1), linked_swap, Hl1.
Qed.

(** A layer that has exchanged nothing. *)
Definition fresh_record id (r : Plain) : Prop :=
  lb_failed r = false ∧ lb_validated r = None ∧ lb_pending r = [] ∧ lb_cluster r = cl
  ∧ pt_inbound (lb_inner r) = [] ∧ lb_local_hello r = hello_of id ∧ lp_out r = opened r.

Lemma fresh_flows idm idy rm ry : fresh_record idm rm → fresh_record idy ry → flows idm (end_new rm) (end_new ry).
Proof.
  intros (E1 & E2 & E3 & E4 & E5 & E6 & E7) (F1 & F2 & F3 & F4 & F5 & F6 & F7). exists [], [], []. split; try done.
  - by constructor.
  - apply prefix_nil.
  - intros ? [= <-]. split; [by split|]. unfold out_stream. cbn. by rewrite E7.
  - intros ? [= <-]. split; try done. left. exists (hello_of idm). split_and!; try done. apply decoder_new_rel.
Qed.

Lemma check_local_id_ok idb u : check_local_id idb = Ok u → hello_id_ok idb.
Proof.
  unfold check_local_id. destruct (_ || _) eqn:Hb; [done|]. apply orb_false_iff in Hb as [Hb1 Hb2].
  apply bool_decide_eq_false in Hb1. apply N.ltb_ge in Hb2. split; [|done]. unfold blen.
  destruct idb; [done|]. cbn. lia.
Qed.

Lemma dialer_fresh id r :
  Labeled_dialer Passthrough_new {| lo_cluster := cl; lo_local_id := data_encode id |} = Ok r →
  fresh_record id r ∧ hello_id_ok (data_encode id).
Proof.
  unfold Labeled_dialer. cbn [lo_local_id lo_cluster]. destruct (check_local_id (data_encode id)) eqn:Hid; [|done].
  cbn [result_bind]. set (r0 := Build_Labeled _ _ _ _ _ _ _ _). pose proof (flush_hello_out r0) as Hfl. revert Hfl.
  generalize (flush_hello r0). intros r' [Ho Hi] [= <-]. unfold lp_in in Hi. cbn in Hi. injection Hi as E1 E2 E3 E4 E5 E6 E7. split.
  - unfold fresh_record, opened. rewrite E1, E2, E3, E4, E5, E6, E7, Ho. by split_and!.
  - by eapply check_local_id_ok.
Qed.

Lemma acceptor_fresh id r :
  Labeled_acceptor Passthrough_new {| lo_cluster := cl; lo_local_id := data_encode id |} = Ok r →
  fresh_record id r ∧ hello_id_ok (data_encode id).
Proof.
  unfold Labeled_acceptor. cbn [lo_local_id lo_cluster]. destruct (check_local_id (data_encode id)) eqn:Hid; [|done].
  cbn [result_bind]. intros [= <-]. split; [by unfold fresh_record; split_and!|].
  by eapply check_local_id_ok.
Qed.

(** Nothing of what [me] sent is under way to [you]. *)
Definition drained me you : Prop :=
  is_Some (ed_conn you) ∧ ed_wire me = [] ∧ ∃ c, ed_conn me = Some c ∧ out_stream c = [].

(** A stream read to its end has all its frames polled. *)
Lemma drained_frames id fs fed polled c c' :
  bounded_frames fs → speaks id fs c → fed = opened (cn_record c) ++ frames fs →
  received cl (data_encode id) id fed polled [] c' → polled `prefix_of` fs → fs = polled.
Proof.
  intros Hfs [Hh _ Hi] Hfed [_ _ _ Hr] Hpre.
  assert (opened (cn_record c) = hello_of id ∨ opened (cn_record c) = [] ∧ fs = []) as [Ho|[_ ->]].
  { unfold opened. rewrite Hh. destruct (lb_role _), (lb_validated _); auto. right. split; [done|by apply Hi]. }
  - rewrite Ho in Hfed. destruct Hr as [(x & Hx0 & Hx & _)|(rest & p & E & _ & _ & _ & Ha & _)].
    + apply (f_equal length) in Hx. subst fed. rewrite !length_app in Hx. destruct x; [done|]. fold (hello_of id) in Hx.
      cbn [length] in Hx. lia.
    + rewrite Hfed in E. apply app_inv_head in E as <-. rewrite absorb_whole, app_nil_r in Ha by done. by injection Ha.
  - symmetry. by apply prefix_nil_inv.
Qed.

Lemma flows_delivers id me you :
  flows id me you →
  ed_got you `prefix_of` ed_sent me
  ∧ (∀ c p, ed_conn you = Some c → Conn_peer c = Some p → p = id)
  ∧ (drained me you → ed_got you = ed_sent me).
Proof.
  intros (fs & fed & polled & [Hfs Hsent Hgot [fs' ->] Hst Hme Hyou]). split_and!.
  - apply carries_split in Hsent as (ds1 & ds2 & -> & Hds & _). unfold carries in *. rewrite Hgot in Hds.
    injection Hds as <-. by eexists.
  - intros c p Hc Hp. destruct (Hyou c Hc) as [_ _ _ [(x & _ & _ & Hs & _)|(rest & q & _ & Hs & _)]];
      unfold Conn_peer in Hp; rewrite Hs in Hp; congruence.
  - intros ([c' Hc'] & Hw & c & Hc & Ho). destruct (Hme c Hc) as [Hsp Hout]. rewrite Hw, Ho, !app_nil_r in Hout.
    assert (polled = polled ++ fs') as E; [|rewrite <- E in Hsent; unfold carries in *; congruence].
    symmetry. apply (drained_frames id _ fed polled c c'); [done..|by apply Hyou|by eexists].
Qed.

Lemma flows_transmits idm idy me you c :
  linked idm idy me you → ed_conn me = Some c → out_stream c ≠ [] → (Conn_poll_transmit c).1 ≠ [].
Proof.
  intros [(fs & fed & polled & Hm) (fs2 & fed2 & polled2 & Hy)] Hc. apply transmit_progress.
  - exact (rc_failed _ _ _ _ _ _ _ (dr_you _ _ _ _ _ _ Hy c Hc)).
  - by destruct (dr_me _ _ _ _ _ _ Hm c Hc) as [[_ [Hp _] _] _].
Qed.

(** C13: a TCP link is a reliable, ordered, authenticated channel, whatever its two
    ends do with it and however the network cuts the bytes up.  From two fresh
    connections, one dialed and one accepted, with hellos of the same cluster, any
    sequence of sends, batches, probes, transmissions, partial reads and drops
    returns; neither end ever sees a fault in the stream; a peer an end believes in
    is the other end; what an end has received is, in order and without gap or
    repetition, the first of what the other sent; once nothing of it is left in the
    sender's buffers or on the wire, it is all of it; and a sender with something
    buffered puts at least a byte of it on the wire at each transmission. *)
Theorem tcp_link_delivers idd ida rd ra ops :
  data_valid idd → data_valid ida →
  Labeled_dialer Passthrough_new {| lo_cluster := cl; lo_local_id := data_encode idd |} = Ok rd →
  Labeled_acceptor Passthrough_new {| lo_cluster := cl; lo_local_id := data_encode ida |} = Ok ra →
  Forall (λ o, link_op_ok o.2) ops →
  ∃ d a, link_run ops (end_new rd, end_new ra) = Some (d, a)
    ∧ ed_fault d = false ∧ ed_fault a = false
    ∧ ed_got a `prefix_of` ed_sent d ∧ ed_got d `prefix_of` ed_sent a
    ∧ (∀ c p, ed_conn a = Some c → Conn_peer c = Some p → p = idd)
    ∧ (∀ c p, ed_conn d = Some c → Conn_peer c = Some p → p = ida)
    ∧ (drained d a → ed_got a = ed_sent d) ∧ (drained a d → ed_got d = ed_sent a)
    ∧ (∀ c, ed_conn d = Some c ∨ ed_conn a = Some c → out_stream c ≠ [] → (Conn_poll_transmit c).1 ≠ []).
Proof.
  intros Hvd Hva [Hfd Hd]%dialer_fresh [Hfa Ha]%acceptor_fresh Hops.
  destruct (linked_run idd ida ops (end_new rd) (end_new ra)) as (d & a & E & Hl & Hf1 & Hf2); [done..| |].
  { split; by eapply fresh_flows. }
  destruct (flows_delivers idd d a (proj1 Hl)) as (P1 & P2 & P3), (flows_delivers ida a d (proj2 Hl)) as (Q1 & Q2 & Q3).
  exists d, a. split_and!; try done. intros c [Hc|Hc].
  - exact (flows_transmits idd ida d a c Hl Hc).
  - exact (flows_transmits ida idd a d c (linked_swap _ _ _ _ Hl) Hc).
Qed.
End delivery.

(** ** A run of the link *)

Module LinkRun.
Import Proto3Wire.
#[local] Existing Instances wire sizes size_laws fork conf meta install message proto3.

Definition cluster : ClusterId := replicate 16 x07.

(** The hellos cross, then node 1 sends a snapshot chunk and a probe. *)
Definition ops : list (ConnRole * LinkOp N) :=
  [(Dialer, LkTransmit); (Acceptor, LkReceive 10 0); (Acceptor, LkReceive 90 0); (Acceptor, LkTransmit);
   (Dialer, LkReceive 90 1); (Dialer, LkSend [x01] 5 chunk); (Dialer, LkProbe); (Dialer, LkTransmit);
   (Acceptor, LkReceive 30 2); (Acceptor, LkReceive 90 2)].

Definition hello (id : N) : bytes := build_hello cluster (data_encode id).

Definition dialed : Plain :=
  Build_Labeled {| pt_inbound := []; pt_outbound := hello 1 |} cluster (hello 1) Dialer [] [] None false.
Definition accepted : Plain := Build_Labeled Passthrough_new cluster (hello 2) Acceptor [] [] None false.

Lemma ids_valid : data_valid (1 : N) ∧ data_valid (2 : N).
Proof. split; unfold data_valid, DataLaws_u64; u64_lia. Qed.

Lemma ops_ok : Forall (λ o, link_op_ok o.2) ops.
Proof.
  repeat (apply Forall_cons_2 || apply Forall_nil_2); try done.
  split; [done|]. split; [by vm_compute|]. split; [apply chunk_wire|by vm_compute].
Qed.

Lemma tcp_link_delivers_witness :
  ∃ d a, link_run ops (end_new dialed, end_new accepted) = Some (d, a)
    ∧ ed_got a `prefix_of` ed_sent d ∧ ed_sent d = [([x01], x00, 5, chunk)] ∧ ed_got a = ed_sent d.
Proof.
  destruct (tcp_link_delivers cluster eq_refl 1 2 dialed accepted ops (proj1 ids_valid) (proj2 ids_valid)
    ltac:(by vm_compute) ltac:(by vm_compute) ops_ok) as (d & a & E & _ & _ & Hp & _).
  exists d, a. split; [exact E|]. split; [exact Hp|]. clear Hp. revert E. vm_compute. intros [= <- <-]. by split.
Defined.
End LinkRun.
