(* ===== verification/Endpoint.v ===== *)
(** * The endpoint: state and shared helpers

    [sailing-proto/src/endpoint/mod.rs] ([Endpoint] and the structures it groups
    its fields in, its constructor and the helpers every handler calls),
    [endpoint/split.rs] ([SplitState], [PendingFork]) and [endpoint/merge.rs]
    ([MergeState] and what it is made of).  A method takes the endpoint and
    returns it; the stores it reads or writes are further arguments, and those
    it writes are results. *)

From S2P Require Import Prelude Bytes Num Quorum Progress ProgressMap Conf Tracker Config Lease.
From S2P Require Import Prng ReadOnly Data Entry Storage Shape Restart Forwarded Message Wire.

(** The iteration order of a [BTreeMap]. *)
Definition btree_map_iter {I A} `{!NodeId I} (m : gmap I A) : list (I * A) :=
  omap (λ k, (k,.) <$> m !! k) (btree_iter (dom m)).

Lemma elem_of_btree_map_iter {K A} `{!NodeId K} (m : gmap K A) k a :
  (k, a) ∈ btree_map_iter m ↔ m !! k = Some a.
Proof.
  unfold btree_map_iter. rewrite list_elem_of_omap. split.
  - intros (k' & _ & Hk). destruct (m !! k') eqn:He; naive_solver.
  - intros He. exists k. rewrite elem_of_btree_iter, elem_of_dom, He. by split.
Qed.

Lemma btree_map_iter_elem {K A} `{!NodeId K} (m : gmap K A) k a : (k, a) ∈ btree_map_iter m → m !! k = Some a.
Proof. apply elem_of_btree_map_iter. Qed.

Inductive Role := Follower | PreCandidate | Candidate | Leader.
Inductive TimerKind := TkElection | TkHeartbeat | TkTransfer | TkCommitWait.
Inductive ApplyDrain := ApplyDrained | ApplyBudgetCut | ApplyWaiting.
Inductive ChunkSend := ChunkSent | ChunkDeferred | ChunkUnsendable | ChunkPoisoned.

#[global] Instance Role_eq_dec : EqDecision Role.
Proof. solve_decision. Defined.

Definition Role_is_leader (r : Role) : bool := match r with Leader => true | _ => false end.
Definition Role_is_candidate (r : Role) : bool := match r with Candidate => true | _ => false end.
Definition Role_is_pre_candidate (r : Role) : bool :=
  match r with PreCandidate => true | _ => false end.

(** ** Merge state *)

Record PendingMergeApply := {
  pma_source_bytes : bytes;
  pma_freeze_index : Index;
  pma_freeze_term : Term;
  pma_source_gen_after : u64;
  pma_target_gen_after : u64;
  pma_at : Index;
  pma_window_closed : bool;
}.

#[global] Instance PendingMergeApply_eta : Eta PendingMergeApply := λ r,
  Build_PendingMergeApply (pma_source_bytes r) (pma_freeze_index r) (pma_freeze_term r)
    (pma_source_gen_after r) (pma_target_gen_after r) (pma_at r) (pma_window_closed r).

Inductive ClaimRead := Claim (target : bytes) | RefusedCommitted | RefusedAbove (judged_at : Index).
Inductive Cover := CoverNone | CoverAdopt | CoverInstall.

Record AbandonedMerge := {
  am_generation : u64;
  am_abort_index : Index;
  am_cover : Cover;
  am_discharged : bool;
}.

#[global] Instance AbandonedMerge_eta : Eta AbandonedMerge := λ r,
  Build_AbandonedMerge (am_generation r) (am_abort_index r) (am_cover r) (am_discharged r).

Record MergeState := {
  mrg_freeze_queue : list Index;
  mrg_claim_cache : gmap Index ClaimRead;
  mrg_frozen : bool;
  mrg_freeze_index : option Index;
  mrg_freeze_term : option Term;
  mrg_frozen_for : option bytes;
  mrg_pending_apply : option PendingMergeApply;
  mrg_park_unresolvable : bool;
  mrg_stuck_advert_next_at : option Instant;
  mrg_crossings : list (bytes * Index);
  mrg_crossing_scan_upto : Index;
  mrg_crossing_scan_current : bool;
  mrg_crossing_witnesses : gmap (bytes * u64) Index;
  mrg_adopt_capture_owed : option (bytes * Index);
  mrg_capture_debt : option Merged;
  mrg_pending_commit_index : Index;
  mrg_pending_rollback_index : Index;
  mrg_thaw_pending_index : Index;
  mrg_witness_pending_index : Index;
  mrg_absorb_index : option Index;
  mrg_inherited_debts : list Merged;
  mrg_recovery_pins : list bytes;
  mrg_abandoned : gmap bytes AbandonedMerge;
}.

#[global] Instance MergeState_eta : Eta MergeState := λ r,
  Build_MergeState (mrg_freeze_queue r) (mrg_claim_cache r) (mrg_frozen r) (mrg_freeze_index r)
    (mrg_freeze_term r) (mrg_frozen_for r) (mrg_pending_apply r) (mrg_park_unresolvable r)
    (mrg_stuck_advert_next_at r) (mrg_crossings r) (mrg_crossing_scan_upto r)
    (mrg_crossing_scan_current r) (mrg_crossing_witnesses r) (mrg_adopt_capture_owed r)
    (mrg_capture_debt r) (mrg_pending_commit_index r) (mrg_pending_rollback_index r)
    (mrg_thaw_pending_index r) (mrg_witness_pending_index r) (mrg_absorb_index r)
    (mrg_inherited_debts r) (mrg_recovery_pins r) (mrg_abandoned r).

Definition MergeState_default : MergeState :=
  {| mrg_freeze_queue := []; mrg_claim_cache := ∅; mrg_frozen := false; mrg_freeze_index := None;
     mrg_freeze_term := None; mrg_frozen_for := None; mrg_pending_apply := None;
     mrg_park_unresolvable := false; mrg_stuck_advert_next_at := None; mrg_crossings := [];
     mrg_crossing_scan_upto := 0; mrg_crossing_scan_current := false; mrg_crossing_witnesses := ∅;
     mrg_adopt_capture_owed := None; mrg_capture_debt := None; mrg_pending_commit_index := 0;
     mrg_pending_rollback_index := 0; mrg_thaw_pending_index := 0; mrg_witness_pending_index := 0;
     mrg_absorb_index := None; mrg_inherited_debts := []; mrg_recovery_pins := [];
     mrg_abandoned := ∅ |}.

(** ** State without identifiers *)

Record LeaseGuardState := {
  lg_commit_wait_until : option Instant;
  lg_max_lease_window : u64;
  lg_max_wall_plus_window : u64;
  lg_max_unwalled_lease_window : u64;
  lg_inherited_release_deadline : u64;
  lg_unwalled_commit_wait_until : option Instant;
  lg_precise_releases : u64;
  lg_unprovable_floor_holds : u64;
  lg_unprovable_floor_campaigns : u64;
  lg_limbo_upper : Index;
  lg_committed_anchor_wall : u64;
  lg_committed_anchor_window : u64;
  lg_inherited_serve_armed : bool;
  lg_commit_wait_inflated : bool;
  lg_lease_refresh_wanted : bool;
  lg_read_since_anchor : bool;
}.

#[global] Instance LeaseGuardState_eta : Eta LeaseGuardState := λ r,
  Build_LeaseGuardState (lg_commit_wait_until r) (lg_max_lease_window r)
    (lg_max_wall_plus_window r) (lg_max_unwalled_lease_window r)
    (lg_inherited_release_deadline r) (lg_unwalled_commit_wait_until r) (lg_precise_releases r)
    (lg_unprovable_floor_holds r) (lg_unprovable_floor_campaigns r) (lg_limbo_upper r)
    (lg_committed_anchor_wall r) (lg_committed_anchor_window r) (lg_inherited_serve_armed r)
    (lg_commit_wait_inflated r) (lg_lease_refresh_wanted r) (lg_read_since_anchor r).

Record Poison := {
  po_poisoned : bool;
  po_poison_reason : option PoisonReason;
}.

#[global] Instance Poison_eta : Eta Poison := λ r,
  Build_Poison (po_poisoned r) (po_poison_reason r).

Record CureDebt := {
  cu_boundary : Index;
  cu_next_at : option Instant;
  cu_refreshed_at : Instant;
}.

#[global] Instance CureDebt_eta : Eta CureDebt := λ r,
  Build_CureDebt (cu_boundary r) (cu_next_at r) (cu_refreshed_at r).

Record CourtesyDebt := {
  cy_removal_index : Index;
  cy_offered_index : option Index;
  cy_next_at : option Instant;
  cy_last_seen_term : option Term;
}.

#[global] Instance CourtesyDebt_eta : Eta CourtesyDebt := λ r,
  Build_CourtesyDebt (cy_removal_index r) (cy_offered_index r) (cy_next_at r)
    (cy_last_seen_term r).

Record FarewellRetry := {
  fw_matched : Index;
  fw_idx : Index;
  fw_shots_left : N;
  fw_next_at : option Instant;
}.

#[global] Instance FarewellRetry_eta : Eta FarewellRetry := λ r,
  Build_FarewellRetry (fw_matched r) (fw_idx r) (fw_shots_left r) (fw_next_at r).

(** ** State with identifiers *)

Section state.
Context {I : Type} `{!NodeId I}.

Inductive Pending :=
| CastVote (to : I) (term : Term)
| FollowerAck (to : I) (match_index : Index)
| LeaderAppend (upto : Index)
| Campaign (term : Term).

Record Durability := {
  du_durable_term : Term;
  du_last_submitted_term : Term;
  du_term_persist_opid : OpId;
  du_durable_commit_index : Index;
  du_last_submitted_commit : Index;
  du_commit_persist_opid : OpId;
  du_shortcut_gated_snapshot_ack : option (I * Term * Index);
  du_lease_support_floor : option Duration;
  du_last_submitted_lease_support : option Duration;
  du_last_submitted_vote : option I;
  du_durable_lease_support : option Duration;
  du_lease_support_persist_opid : OpId;
  du_committed_persisted : Index;
  du_durable_index : Index;
  du_durable_snapshot_index : Index;
  du_inflight_append_upto : list (OpId * Index);
  du_term_gated_append_ack : option (I * Term * Index);
  du_term_gated_snapshot_ack : option (I * Term * Index);
  du_lease_vote_fence_until : option Instant;
}.

#[global] Instance Durability_eta : Eta Durability := λ r,
  Build_Durability (du_durable_term r) (du_last_submitted_term r) (du_term_persist_opid r)
    (du_durable_commit_index r) (du_last_submitted_commit r) (du_commit_persist_opid r)
    (du_shortcut_gated_snapshot_ack r) (du_lease_support_floor r)
    (du_last_submitted_lease_support r) (du_last_submitted_vote r) (du_durable_lease_support r)
    (du_lease_support_persist_opid r) (du_committed_persisted r) (du_durable_index r)
    (du_durable_snapshot_index r) (du_inflight_append_upto r) (du_term_gated_append_ack r)
    (du_term_gated_snapshot_ack r) (du_lease_vote_fence_until r).

Record CheckQuorumLease := {
  cq_lease_round : u64;
  cq_lease_round_start : Instant;
  cq_lease_acks : gset I;
  cq_lease_min_support : Duration;
  cq_lease_valid_until : option Instant;
}.

#[global] Instance CheckQuorumLease_eta : Eta CheckQuorumLease := λ r,
  Build_CheckQuorumLease (cq_lease_round r) (cq_lease_round_start r) (cq_lease_acks r)
    (cq_lease_min_support r) (cq_lease_valid_until r).

Record Transfer := {
  tf_forced_handoff_this_term : bool;
  tf_forced_handoff_target : option I;
  tf_lead_transferee : option I;
  tf_transfer_deadline : option Instant;
}.

#[global] Instance Transfer_eta : Eta Transfer := λ r,
  Build_Transfer (tf_forced_handoff_this_term r) (tf_forced_handoff_target r)
    (tf_lead_transferee r) (tf_transfer_deadline r).

Record SnapshotRecv := {
  sv_meta : SnapshotMeta I;
  sv_total_len : u64;
  sv_contiguous_staged : u64;
  sv_sender_term : Term;
}.

#[global] Instance SnapshotRecv_eta : Eta SnapshotRecv := λ r,
  Build_SnapshotRecv (sv_meta r) (sv_total_len r) (sv_contiguous_staged r) (sv_sender_term r).

Record Reads := {
  rd_read_only : ReadOnly (I := I);
  rd_active_read_mode : ReadOnlyOption;
  rd_read_mode_migrated : bool;
  rd_pending_reads : list (bytes * option I);
  rd_forwarded_reads : ForwardedReads;
  rd_pending_read_mode_index : Index;
}.

#[global] Instance Reads_eta : Eta Reads := λ r,
  Build_Reads (rd_read_only r) (rd_active_read_mode r) (rd_read_mode_migrated r)
    (rd_pending_reads r) (rd_forwarded_reads r) (rd_pending_read_mode_index r).

Record PendingFork := {
  pf_child_bytes : bytes;
  pf_child_gen : u64;
  pf_parent_gen_after : u64;
  pf_blob : bytes;
  pf_voters : list I;
  pf_read_only : option ReadOnlyOption;
  pf_index : Index;
  pf_split_term : Term;
}.

#[global] Instance PendingFork_eta : Eta PendingFork := λ r,
  Build_PendingFork (pf_child_bytes r) (pf_child_gen r) (pf_parent_gen_after r) (pf_blob r)
    (pf_voters r) (pf_read_only r) (pf_index r) (pf_split_term r).

Context {F : Type} `{!StateMachine F}.

Record SplitState := {
  spl_pending_forks : list PendingFork;
  spl_forked_fsms : list F;
  spl_outstanding : gset Index;
  spl_abandoned : gset Index;
  spl_shape_gen : u64;
  spl_restored_lineage : u64;
  spl_founding_gen : u64;
  spl_pending_split_index : Index;
  spl_pending_split_child : bytes;
  spl_fork_id : option ForkId;
}.

#[global] Instance SplitState_eta : Eta SplitState := λ r,
  Build_SplitState (spl_pending_forks r) (spl_forked_fsms r) (spl_outstanding r)
    (spl_abandoned r) (spl_shape_gen r) (spl_restored_lineage r) (spl_founding_gen r)
    (spl_pending_split_index r) (spl_pending_split_child r) (spl_fork_id r).

Definition SplitState_new (lineage founding_gen : u64) (fork_id : option ForkId) : SplitState :=
  {| spl_pending_forks := []; spl_forked_fsms := []; spl_outstanding := ∅; spl_abandoned := ∅;
     spl_shape_gen := lineage; spl_restored_lineage := lineage; spl_founding_gen := founding_gen;
     spl_pending_split_index := 0; spl_pending_split_child := []; spl_fork_id := fork_id |}.

Record SnapshotState := {
  ss_snapshot_recv : option SnapshotRecv;
  ss_pending_install : option (OpId * SnapshotMeta I * sm_snapshot * I);
  ss_pending_compact : option (OpId * SnapshotMeta I);
  ss_snapshot_resend_after : gmap I Instant;
  ss_unsendable_meta_frames : u64;
  ss_refused_cross_lineage_installs : u64;
  ss_refused_stale_removal_installs : u64;
}.

#[global] Instance SnapshotState_eta : Eta SnapshotState := λ r,
  Build_SnapshotState (ss_snapshot_recv r) (ss_pending_install r) (ss_pending_compact r)
    (ss_snapshot_resend_after r) (ss_unsendable_meta_frames r)
    (ss_refused_cross_lineage_installs r) (ss_refused_stale_removal_installs r).

Record Outputs := {
  ou_outgoing : list (Outgoing I);
  ou_events : list (Event I sm_response);
}.

#[global] Instance Outputs_eta : Eta Outputs := λ r,
  Build_Outputs (ou_outgoing r) (ou_events r).

Context {R : Type}.

Record Endpoint := {
  ep_config : Config I;
  ep_fsm : F;
  ep_role : Role;
  ep_term : Term;
  ep_voted_for : option I;
  ep_leader : option I;
  ep_commit : Index;
  ep_applied : Index;
  ep_snapshot : SnapshotState;
  ep_rng : R;
  ep_votes : gmap I bool;
  ep_election_deadline : option Instant;
  ep_heartbeat_deadline : option Instant;
  ep_lease_guard : LeaseGuardState;
  ep_cold_read_defers : u64;
  ep_lease_refreshes : u64;
  ep_wall_stamp_degradations : u64;
  ep_outputs : Outputs;
  ep_tracker : Tracker I;
  ep_next_op_id : OpId;
  ep_pending_log : list (OpId * Pending);
  ep_pending_stable : list (OpId * Pending);
  ep_poison : Poison;
  ep_durable : Durability;
  ep_pending_conf_index : Index;
  ep_reads : Reads;
  ep_split : SplitState;
  ep_merge : MergeState;
  ep_check_quorum_lease : CheckQuorumLease;
  ep_transfer : Transfer;
  ep_peers_scratch : list (I * Index);
  ep_replication_pending : bool;
  ep_term_start_index : Index;
  ep_pending_farewells : gmap I FarewellRetry;
  ep_courtesy_owed : gmap I CourtesyDebt;
  ep_cure_owed : gmap I CureDebt;
  ep_cure_send_gate : option Instant;
  ep_cure_cursor : option I;
  ep_cure_served : gmap I Instant;
}.

#[global] Instance Endpoint_eta : Eta Endpoint := λ r,
  Build_Endpoint (ep_config r) (ep_fsm r) (ep_role r) (ep_term r) (ep_voted_for r) (ep_leader r)
    (ep_commit r) (ep_applied r) (ep_snapshot r) (ep_rng r) (ep_votes r)
    (ep_election_deadline r) (ep_heartbeat_deadline r) (ep_lease_guard r)
    (ep_cold_read_defers r) (ep_lease_refreshes r) (ep_wall_stamp_degradations r) (ep_outputs r)
    (ep_tracker r) (ep_next_op_id r) (ep_pending_log r) (ep_pending_stable r) (ep_poison r)
    (ep_durable r) (ep_pending_conf_index r) (ep_reads r) (ep_split r) (ep_merge r)
    (ep_check_quorum_lease r) (ep_transfer r) (ep_peers_scratch r) (ep_replication_pending r)
    (ep_term_start_index r) (ep_pending_farewells r) (ep_courtesy_owed r) (ep_cure_owed r)
    (ep_cure_send_gate r) (ep_cure_cursor r) (ep_cure_served r).

End state.
Arguments Pending I : clear implicits.
Arguments Durability I : clear implicits.
Arguments Endpoint I {_} F {_} R.

(** ** Construction and shared helpers *)

Section endpoint.
Context {I F R : Type} `{!NodeId I, !StateMachine F, !Rng R}.
Abbreviation Endpoint := (Endpoint I F R).
Implicit Types (e : Endpoint) (now : Now).

Definition peers e : list I :=
  filter (λ p, p ≠ cfg_id (ep_config e)) (btree_iter (Tracker_ids (ep_tracker e))).

(** The timeout is [None] where its addition would panic, which takes a base
    above the maximum that validation enforces; the deadline saturates there. *)
Definition arm_election_timer (now : Now) (e : Endpoint) : Endpoint :=
  let '(t, rng) := election_timeout (ep_rng e) (cfg_election_timeout (ep_config e)) in
  e <| ep_rng := rng |>
    <| ep_election_deadline := Some (Instant_add (now_mono now) (default Duration_MAX t)) |>
    <| ep_heartbeat_deadline := None |>.

Definition Endpoint_new_with_rng (config : Config I) (now : Now) (rng : R) (fsm : F) : Endpoint :=
  let cs := ConfState_from_voters (cfg_voters config) in
  let tracker := Tracker_from_conf_state cs 0 (cfg_max_inflight_msgs config)
                   (cfg_max_inflight_bytes config) in
  let read_only_opt := cfg_read_only config in
  arm_election_timer now
    {| ep_config := config; ep_fsm := fsm; ep_role := Follower; ep_term := 0; ep_voted_for := None;
       ep_leader := None; ep_commit := 0; ep_applied := 0;
       ep_snapshot :=
         {| ss_snapshot_recv := None; ss_pending_install := None; ss_pending_compact := None;
            ss_snapshot_resend_after := ∅; ss_unsendable_meta_frames := 0;
            ss_refused_cross_lineage_installs := 0; ss_refused_stale_removal_installs := 0 |};
       ep_rng := rng; ep_votes := ∅; ep_election_deadline := None; ep_heartbeat_deadline := None;
       ep_lease_guard :=
         {| lg_commit_wait_until := None; lg_max_lease_window := 0; lg_max_wall_plus_window := 0;
            lg_max_unwalled_lease_window := 0; lg_inherited_release_deadline := 0;
            lg_unwalled_commit_wait_until := None; lg_precise_releases := 0;
            lg_unprovable_floor_holds := 0; lg_unprovable_floor_campaigns := 0;
            lg_limbo_upper := 0; lg_committed_anchor_wall := 0; lg_committed_anchor_window := 0;
            lg_inherited_serve_armed := false; lg_commit_wait_inflated := false;
            lg_lease_refresh_wanted := false; lg_read_since_anchor := false |};
       ep_cold_read_defers := 0; ep_lease_refreshes := 0; ep_wall_stamp_degradations := 0;
       ep_outputs := {| ou_outgoing := []; ou_events := [] |};
       ep_tracker := tracker; ep_next_op_id := OpId_ZERO; ep_pending_log := [];
       ep_pending_stable := [];
       ep_poison := {| po_poisoned := false; po_poison_reason := None |};
       ep_durable :=
         {| du_durable_term := 0; du_last_submitted_term := 0; du_term_persist_opid := OpId_ZERO;
            du_durable_commit_index := 0; du_last_submitted_commit := 0;
            du_commit_persist_opid := OpId_ZERO; du_shortcut_gated_snapshot_ack := None;
            du_lease_support_floor := None; du_last_submitted_lease_support := None;
            du_last_submitted_vote := None; du_durable_lease_support := None;
            du_lease_support_persist_opid := OpId_ZERO; du_committed_persisted := 0;
            du_durable_index := 0; du_durable_snapshot_index := 0; du_inflight_append_upto := [];
            du_term_gated_append_ack := None; du_term_gated_snapshot_ack := None;
            du_lease_vote_fence_until := None |};
       ep_pending_conf_index := 0;
       ep_reads :=
         {| rd_read_only := ReadOnly_new read_only_opt; rd_active_read_mode := read_only_opt;
            rd_read_mode_migrated := false; rd_pending_reads := [];
            rd_forwarded_reads := ForwardedReads_new 0; rd_pending_read_mode_index := 0 |};
       ep_split := SplitState_new 0 0 None; ep_merge := MergeState_default;
       ep_check_quorum_lease :=
         {| cq_lease_round := 0; cq_lease_round_start := now_mono now; cq_lease_acks := ∅;
            cq_lease_min_support := 0; cq_lease_valid_until := None |};
       ep_transfer :=
         {| tf_forced_handoff_this_term := false; tf_forced_handoff_target := None;
            tf_lead_transferee := None; tf_transfer_deadline := None |};
       ep_peers_scratch := []; ep_replication_pending := false; ep_term_start_index := 0;
       ep_pending_farewells := ∅; ep_courtesy_owed := ∅; ep_cure_owed := ∅;
       ep_cure_send_gate := None; ep_cure_cursor := None; ep_cure_served := ∅ |}.

Definition is_poisoned e : bool := po_poisoned (ep_poison e).

(** The first cause wins; the fork certificate goes with the poison. *)
Definition poison (reason : PoisonReason) (e : Endpoint) : Endpoint :=
  e <| ep_poison ::= λ p,
         {| po_poisoned := true;
            po_poison_reason := Some (default reason (po_poison_reason p)) |} |>
    <| ep_split ::= λ s, s <| spl_fork_id := None |> |>.

Definition seed_boot_epoch (boot_epoch : u64) (e : Endpoint) : Endpoint :=
  e <| ep_next_op_id := OpId_first_of_epoch boot_epoch |>.

Definition mint_op_id (e : Endpoint) : OpId * Endpoint :=
  let id := ep_next_op_id e in
  let next := OpId_next id in
  let e := if decide (next = id) then poison OpIdExhausted e else e in
  (id, e <| ep_next_op_id := next |>).

Definition send (to : I) (msg : Message I) (e : Endpoint) : Endpoint :=
  if is_poisoned e then e
  else e <| ep_outputs ::= λ o,
              o <| ou_outgoing ::= λ q, q ++ [{| out_to := to; out_message := msg |}] |> |>.

Definition fail_stop_query_panicked (e : Endpoint) : Endpoint := poison QueryPanicked e.

Definition poll_message (e : Endpoint) : option (Outgoing I) * Endpoint :=
  if is_poisoned e then (None, e)
  else match ou_outgoing (ep_outputs e) with
       | [] => (None, e)
       | o :: q => (Some o, e <| ep_outputs ::= λ o, o <| ou_outgoing := q |> |>)
       end.

Definition poll_event (e : Endpoint) : option (Event I sm_response) * Endpoint :=
  if is_poisoned e then (None, e)
  else match ou_events (ep_outputs e) with
       | [] => (None, e)
       | v :: q => (Some v, e <| ep_outputs ::= λ o, o <| ou_events := q |> |>)
       end.

Definition set_leader (leader : option I) (e : Endpoint) : Endpoint :=
  if decide (ep_leader e = leader) then e
  else
    e <| ep_leader := leader |>
      <| ep_reads ::= λ r, r <| rd_forwarded_reads ::= ForwardedReads_clear |> |>
      <| ep_outputs ::= λ o,
           o <| ou_events ::= λ q, q ++ [EvLeaderChanged (ep_term e) leader] |> |>.

(** *** Lease stamps *)

Definition active_read_mode e : ReadOnlyOption := rd_active_read_mode (ep_reads e).

Definition lease_stamp (now : Instant) (e : Endpoint) : u64 :=
  match active_read_mode e with
  | LeaseGuard => if u64_max <? now then 0 else now
  | _ => 0
  end.

Definition lease_window_stamp (e : Endpoint) : u64 :=
  default 0 (leaseguard_commit_wait_ns (ep_config e) (active_read_mode e)).

Definition lease_wall_stamp (now : Now) (e : Endpoint) : u64 * Endpoint :=
  if failover_tier_valid (ep_config e) (active_read_mode e) then
    if Wall_is_absent (now_wall now)
    then (0, e <| ep_wall_stamp_degradations ::= λ n, saturating_add n 1 |>)
    else (now_wall now, e)
  else (0, e).

Definition failover_tier_active e : bool :=
  failover_tier_valid (ep_config e) (active_read_mode e).

(** *** Timers *)

Definition deadline_of e (kind : TimerKind) : option Instant :=
  match kind with
  | TkElection => ep_election_deadline e
  | TkHeartbeat => ep_heartbeat_deadline e
  | TkTransfer => tf_transfer_deadline (ep_transfer e)
  | TkCommitWait => lg_commit_wait_until (ep_lease_guard e)
  end.

Definition is_voter_self e : bool := Tracker_is_voter (ep_tracker e) (cfg_id (ep_config e)).

Definition serviceable_now e (kind : TimerKind) : bool :=
  if is_poisoned e then false
  else match kind with
  | TkHeartbeat => Role_is_leader (ep_role e)
  | TkElection =>
      if Role_is_leader (ep_role e) then cfg_check_quorum (ep_config e) else is_voter_self e
  | TkTransfer =>
      Role_is_leader (ep_role e) && bool_decide (is_Some (tf_lead_transferee (ep_transfer e)))
  | TkCommitWait =>
      Role_is_leader (ep_role e) && bool_decide (is_Some (lg_commit_wait_until (ep_lease_guard e)))
  end.

Definition TimerKind_ALL : list TimerKind := [TkElection; TkHeartbeat; TkTransfer; TkCommitWait].

Definition option_min (a b : option Instant) : option Instant :=
  match a, b with Some x, Some y => Some (N.min x y) | Some x, None => Some x | None, y => y end.

Definition poll_timeout e : option Instant :=
  if is_poisoned e then None
  else foldr option_min None
         (map (deadline_of e) (filter (λ k, serviceable_now e k = true) TimerKind_ALL)).

Definition reconcile_election_timer (now : Now) (e : Endpoint) : Endpoint :=
  if negb (Role_is_leader (ep_role e)) && bool_decide (ep_election_deadline e = None)
     && is_voter_self e
  then arm_election_timer now e else e.

Definition arm_heartbeat_timer (now : Now) (e : Endpoint) : Endpoint :=
  e <| ep_heartbeat_deadline :=
         Some (Instant_add (now_mono now) (cfg_heartbeat_interval (ep_config e))) |>.

(** *** Reading the log *)

Context {L : Type} `{!LogStore L}.

Definition read_log_term (log : L) (idx : Index) (e : Endpoint) : option Term * Endpoint :=
  match log_term log idx with
  | Ok t => (Some t, e)
  | Err _ => (None, poison LogTerm e)
  end.

Definition last_log (log : L) (e : Endpoint) : option (Index * Term) * Endpoint :=
  let li := log_last_index log in
  if li =? 0 then (Some (0, 0), e)
  else match read_log_term log li e with
       | (Some lt, e) => (Some (li, lt), e)
       | (None, e) => (None, e)
       end.

Definition next_log_index (last : Index) : option Index :=
  match counter_checked_next last with
  | Some i => if i =? u64_max then None else Some i
  | None => None
  end.

(** Whether a parked merge has left the voter set superseded: the loop reads the
    committed entries above [applied], one non-empty batch per round. *)
Fixpoint superseded_loop (fuel : nat) (log : L) (cursor end_ : Index) : bool :=
  match fuel with
  | O => true
  | S fuel =>
      if cursor <? end_ then
        match log_entries log cursor end_ (2 ^ 20) with
        | Ok (Ready (b0 :: b)) =>
            if existsb (λ en, bool_decide (e_kind en = EkConfChange)) (b0 :: b) then true
            else match last (b0 :: b) with
                 | Some en => superseded_loop fuel log (counter_next (e_index en)) end_
                 | None => true
                 end
        | _ => true
        end
      else false
  end.

Definition merge_park_membership_superseded e (log : L) : bool :=
  match mrg_pending_apply (ep_merge e) with
  | None => false
  | Some _ =>
      let end_ := counter_next (ep_commit e) in
      let cursor := counter_next (ep_applied e) in
      superseded_loop (S (N.to_nat (end_ - cursor))) log cursor end_
  end.

End endpoint.
