(* ===== verification/Router.v ===== *)
(** * The table of connections

    [PeerRouter] of [sailing-proto/src/transport/router/mod.rs]: every live
    connection of a host, the peer each one authenticated as, their deadlines,
    and the closes the driver has to hear of. *)

From S2P Require Import Prelude Bytes Num Conf Data Frame Entry Shape Wire Message Codec RecordIo.
From S2P Require Import Conn Endpoint.

Abbreviation ConnId := N (only parsing).

Definition HANDSHAKE_TIMEOUT : Duration := 10 * NANOS_PER_SEC.
Definition IDLE_TIMEOUT_MILLIS : u64 := 3000.
Definition IDLE_TIMEOUT : Duration := Duration_from_millis IDLE_TIMEOUT_MILLIS.
Definition PROBE_INTERVAL : Duration := Duration_from_millis (IDLE_TIMEOUT_MILLIS / 3).

Inductive Provenance (I : Type) := Accepted | Dialed (expected : I).
Arguments Accepted {I}.
Arguments Dialed {I} _.

(** [(group, entry_flags, generation, peer, message)] *)
Definition Delivered (I : Type) `{!NodeId I} : Type := bytes * byte * u64 * I * Message I.

Record PeerRouter (I R : Type) `{!NodeId I} := {
  rt_conns : gmap ConnId (Conn I R);
  rt_peer_of : gmap I ConnId;
  rt_handshake_deadline : gmap ConnId Instant;
  rt_idle_deadline : gmap ConnId Instant;
  rt_probe_deadline : gmap ConnId Instant;
  rt_provenance : gmap ConnId (Provenance I);
  rt_local_id : option I;
  rt_closed : list (ConnId * option TransportError);
}.
Arguments Build_PeerRouter {I R _}.
Arguments rt_conns {I R _}.
Arguments rt_peer_of {I R _}.
Arguments rt_handshake_deadline {I R _}.
Arguments rt_idle_deadline {I R _}.
Arguments rt_probe_deadline {I R _}.
Arguments rt_provenance {I R _}.
Arguments rt_local_id {I R _}.
Arguments rt_closed {I R _}.

#[global] Instance PeerRouter_eta {I R} `{!NodeId I} : Eta (PeerRouter I R) := λ r,
  Build_PeerRouter (rt_conns r) (rt_peer_of r) (rt_handshake_deadline r) (rt_idle_deadline r)
    (rt_probe_deadline r) (rt_provenance r) (rt_local_id r) (rt_closed r).

Section router.
Context {I R : Type} `{!NodeId I, !Data I, !RecordIo R}.
Context `{!Buffa PbMessage, !Buffa PbSnapshotMeta, !BuffaSizes, !BuffaWire}.
Abbreviation Conn := (Conn I R).
Abbreviation PeerRouter := (PeerRouter I R).
Abbreviation Delivered := (Delivered I).
Implicit Types (r : PeerRouter) (id : ConnId).

Definition PeerRouter_new : PeerRouter :=
  {| rt_conns := ∅; rt_peer_of := ∅; rt_handshake_deadline := ∅; rt_idle_deadline := ∅;
     rt_probe_deadline := ∅; rt_provenance := ∅; rt_local_id := None; rt_closed := [] |}.

Definition set_local_id (id : I) r : PeerRouter := r <| rt_local_id := Some id |>.

Definition register id (provenance : Provenance I) (record : R) (now : Instant) r : PeerRouter :=
  if decide (is_Some (rt_conns r !! id)) then
    r <| rt_closed ::= λ q, q ++ [(id, Some DuplicateConnId)] |>
  else
    r <| rt_conns ::= insert id (Conn_new record) |>
      <| rt_handshake_deadline ::= insert id (Instant_add now HANDSHAKE_TIMEOUT) |>
      <| rt_provenance ::= insert id provenance |>.

Definition register_dial id (expected : I) (record : R) (now : Instant) r : PeerRouter :=
  register id (Dialed expected) record now r.

Definition register_accept id (record : R) (now : Instant) r : PeerRouter :=
  register id Accepted record now r.

Definition PeerRouter_remove id r : PeerRouter :=
  r <| rt_conns ::= delete id |> <| rt_handshake_deadline ::= delete id |>
    <| rt_idle_deadline ::= delete id |> <| rt_probe_deadline ::= delete id |>
    <| rt_provenance ::= delete id |> <| rt_peer_of ::= filter (λ p, p.2 ≠ id) |>.

Definition remove_internal id (reason : option TransportError) r : PeerRouter :=
  (PeerRouter_remove id r) <| rt_closed ::= λ q, q ++ [(id, reason)] |>.

Definition duplicate_winner r id (prev : ConnId) (peer : I) : ConnId :=
  let we_are_lower := (λ me, bool_decide (nid_lt me peer)) <$> rt_local_id r in
  match rt_provenance r !! id, rt_provenance r !! prev, we_are_lower with
  | Some (Dialed _), Some Accepted, Some lower => if lower : bool then id else prev
  | Some Accepted, Some (Dialed _), Some lower => if lower : bool then prev else id
  | _, _, _ => N.max id prev
  end.

Definition PeerRouter_close id (reason : option TransportError) r : PeerRouter :=
  if decide (is_Some (rt_conns r !! id)) then remove_internal id reason r else r.

Definition PeerRouter_poll_conn_closed r : option (ConnId * option TransportError) * PeerRouter :=
  (head (rt_closed r), r <| rt_closed ::= tail |>).

(** A [BTreeMap] keyed by connection ids, in their order. *)
Definition conn_iter {A} (m : gmap ConnId A) : list (ConnId * A) := @btree_map_iter N _ N_NodeId m.

(** [values().min().copied()] *)
Definition min_deadline (ds : list Instant) : option Instant := foldr option_min None (Some <$> ds).

Definition deadline_values (m : gmap ConnId Instant) : list Instant := (conn_iter m).*2.

Definition next_handshake_deadline r : option Instant :=
  min_deadline (deadline_values (rt_handshake_deadline r)).

(** The ids whose deadline has passed, in order. *)
Definition expired (now : Instant) (m : gmap ConnId Instant) : list ConnId :=
  (filter (λ p, p.2 ≤ now) (conn_iter m)).*1.

Definition reap_handshakes (now : Instant) r : PeerRouter :=
  foldl (λ r id, remove_internal id (Some NotValidated) r) r (expired now (rt_handshake_deadline r)).

Definition next_liveness_deadline r : option Instant :=
  min_deadline (deadline_values (rt_idle_deadline r) ++ deadline_values (rt_probe_deadline r)).

Definition probe_conn (now : Instant) id r : PeerRouter :=
  match rt_conns r !! id with
  | None => r
  | Some conn =>
      let conn := Conn_send_probe conn in
      let r := r <| rt_conns ::= insert id conn |> in
      if Conn_is_closed conn then remove_internal id None r
      else r <| rt_probe_deadline ::= insert id (Instant_add now PROBE_INTERVAL) |>
  end.

Definition service_liveness (now : Instant) r : PeerRouter :=
  let reap := expired now (rt_idle_deadline r) in
  let r := foldl (λ r id, remove_internal id (Some IdleTimeout) r) r reap in
  let due := filter (λ id, id ∉ reap) (expired now (rt_probe_deadline r)) in
  foldl (λ r id, probe_conn now id r) r due.

(** ** Inbound *)

(** The last part of the function: the decoded frames, attributed to the peer. *)
Definition deliver id r : option (result unit TransportError * list Delivered * PeerRouter) :=
  conn ← rt_conns r !! id;
  let '(res, msgs, conn) := Conn_poll_decoded conn in
  let r := r <| rt_conns ::= insert id conn |> in
  Some (match res with
        | Err e => (Err e, [], r)
        | Ok _ =>
            (Ok tt,
             match Conn_peer conn with
             | None => []
             | Some p => (λ '(group, flags, generation, msg), (group, flags, generation, p, msg)) <$> msgs
             end,
             r)
        end).

(** Bind the peer of a live connection; [None] when the connection was dropped. *)
Definition bind_peer id (peer : I) (now : Instant) r : bool * PeerRouter :=
  if bool_decide (rt_local_id r = Some peer) then (false, remove_internal id (Some SelfIdentity) r)
  else if match rt_provenance r !! id with
          | Some (Dialed expected) => negb (bool_decide (expected = peer))
          | _ => false
          end
  then (false, remove_internal id (Some UnexpectedPeer) r)
  else
    let first_validation := bool_decide (is_Some (rt_handshake_deadline r !! id)) in
    let r := r <| rt_handshake_deadline ::= delete id |> in
    let bind r :=
      let r := r <| rt_peer_of ::= insert peer id |> in
      (true, if first_validation
             then r <| rt_probe_deadline ::= insert id (Instant_add now PROBE_INTERVAL) |> else r) in
    match rt_peer_of r !! peer with
    | Some prev =>
        if decide (prev = id) then bind r
        else if decide (duplicate_winner r id prev peer = prev) then (false, remove_internal id None r)
        else bind (remove_internal prev None r)
    | None => bind r
    end.

Definition handle_conn_data_inner id (bytes : bytes) (eof : bool) (now : Instant) r
  : option (result unit TransportError * list Delivered * PeerRouter) :=
  match rt_conns r !! id with
  | None => Some (Ok tt, [], r)
  | Some conn =>
      '(res, conn) ← Conn_handle_data bytes eof now conn;
      let r := r <| rt_conns ::= insert id conn |> in
      match res with
      | Err e => Some (Err e, [], r)
      | Ok _ =>
          match (if Conn_is_closed conn then None else Conn_peer conn) with
          | None => deliver id r
          | Some peer =>
              let '(bound, r) := bind_peer id peer now r in
              if bound : bool then deliver id r else Some (Ok tt, [], r)
          end
      end
  end.

(** [self.conns.get(&id).is_some_and(p)] *)
Definition conn_is r id (p : Conn → bool) : bool :=
  match rt_conns r !! id with Some c => p c | None => false end.

Definition PeerRouter_handle_conn_data id (bytes : bytes) (eof : bool) (now : Instant) r
  : option (result unit TransportError * list Delivered * PeerRouter) :=
  '(res, out, r) ← handle_conn_data_inner id bytes eof now r;
  Some (res, out,
        match res with
        | Err e => remove_internal id (Some e) r
        | Ok _ =>
            if conn_is r id Conn_is_closed then remove_internal id None r
            else if negb (bool_decide (bytes = [])) && conn_is r id (λ c, bool_decide (is_Some (Conn_peer c)))
            then r <| rt_idle_deadline ::= insert id (Instant_add now IDLE_TIMEOUT) |>
            else r
        end).

(** ** Outbound *)

(** A send to the connection bound to [to]: a send that closes it drops the route. *)
Definition route_with (to : I) (send : Conn → Conn) r : bool * PeerRouter :=
  match rt_peer_of r !! to with
  | None => (false, r)
  | Some id =>
      match rt_conns r !! id with
      | None => (false, r)
      | Some conn =>
          let conn := send conn in
          let r := r <| rt_conns ::= insert id conn |> in
          if Conn_is_closed conn then (false, remove_internal id None r) else (true, r)
      end
  end.

Definition PeerRouter_route (group : bytes) (generation : u64) (to : I) (msg : Message I) r
  : bool * PeerRouter := route_with to (Conn_send_message group generation msg) r.

Definition PeerRouter_route_coalesced (to : I) (entries : list (CoalescedEntry I)) r
  : bool * PeerRouter := route_with to (Conn_send_coalesced entries) r.

Definition transmit_conn (acc : list (ConnId * bytes) * PeerRouter) id : list (ConnId * bytes) * PeerRouter :=
  let '(out, r) := acc in
  match rt_conns r !! id with
  | None => (out, r)
  | Some conn =>
      let '(bytes, conn) := Conn_poll_transmit conn in
      (match bytes with [] => out | _ => out ++ [(id, bytes)] end,
       r <| rt_conns ::= insert id conn |>)
  end.

Definition PeerRouter_poll_transmit r : list (ConnId * bytes) * PeerRouter :=
  foldl transmit_conn ([], r) (conn_iter (rt_conns r)).*1.

Definition PeerRouter_conn_of r (peer : I) : option ConnId := rt_peer_of r !! peer.
End router.
