(* ===== verification/RouterInv.v ===== *)
(** * The table of connections stays consistent

    The invariant of [Router]: a peer is bound to the one live connection that
    authenticated as it, every connection has the deadlines of its stage, a
    dialed connection is bound to nobody but the peer it was dialed to reach; and
    every connection the router drops on its own is reported, once. *)

From S2P Require Import Prelude Bytes Num Conf Data Frame Entry Shape Wire Message Codec RecordIo.
From S2P Require Import Conn Endpoint Router.

Section inv.
Context {I R : Type} `{!NodeId I, !Data I, !RecordIo R, !RecordIoLaws R}.
Context `{!Buffa PbMessage, !Buffa PbSnapshotMeta, !BuffaSizes, !BuffaWire}.
Abbreviation Conn := (Conn I R).
Abbreviation PeerRouter := (PeerRouter I R).
Implicit Types (r : PeerRouter) (id : ConnId) (p peer : I) (c : Conn) (o : option ConnId).

(** The stage a connection of the table is in. *)
Definition stage r id : option (ConnState I) := cn_state <$> rt_conns r !! id.

Definition validated r id : Prop := ∃ p, stage r id = Some (Validated p).

(** [o] is a connection that validated in the call under way, whose silence
    deadline is armed at the end of the call. *)
Record rt_ok o r : Prop := {
  ro_conns : ∀ id c, rt_conns r !! id = Some c → conn_ok c ∧ Conn_is_closed c = false;
  ro_bound : ∀ p id, rt_peer_of r !! p = Some id ↔ stage r id = Some (Validated p);
  ro_hand : ∀ id, is_Some (rt_handshake_deadline r !! id) ↔ stage r id = Some Handshaking;
  ro_probe : ∀ id, is_Some (rt_probe_deadline r !! id) ↔ validated r id;
  ro_idle : ∀ id, is_Some (rt_idle_deadline r !! id) → validated r id;
  ro_armed : ∀ id, validated r id → is_Some (rt_idle_deadline r !! id) ∨ o = Some id;
  ro_prov : ∀ id, is_Some (rt_provenance r !! id) ↔ is_Some (rt_conns r !! id);
  ro_dial : ∀ id p expected, rt_provenance r !! id = Some (Dialed expected) →
    stage r id = Some (Validated p) → p = expected;
}.

Lemma router_ext r r' :
  rt_conns r = rt_conns r' → rt_peer_of r = rt_peer_of r' →
  rt_handshake_deadline r = rt_handshake_deadline r' → rt_idle_deadline r = rt_idle_deadline r' →
  rt_probe_deadline r = rt_probe_deadline r' → rt_provenance r = rt_provenance r' →
  rt_local_id r = rt_local_id r' → rt_closed r = rt_closed r' → r = r'.
Proof. destruct r, r'. cbn. by intros -> -> -> -> -> -> -> ->. Qed.

(** ** Removal *)

Lemma stage_remove id r j :
  stage (PeerRouter_remove id r) j = if decide (id = j) then None else stage r j.
Proof.
  unfold stage. cbn. destruct (decide (id = j)) as [->|]; [by rewrite lookup_delete_eq|by rewrite lookup_delete_ne].
Qed.

Lemma stage_closed id reason r j : stage (remove_internal id reason r) j = stage (PeerRouter_remove id r) j.
Proof. done. Qed.

Lemma peer_of_remove id r p :
  rt_peer_of (PeerRouter_remove id r) !! p
  = if decide (rt_peer_of r !! p = Some id) then None else rt_peer_of r !! p.
Proof.
  cbn. destruct (rt_peer_of r !! p) as [j|] eqn:Hp; case_decide as Hd.
  - injection Hd as ->. apply map_lookup_filter_None. right. intros x Hx Hn. cbn in Hn. congruence.
  - apply map_lookup_filter_Some. split; [done|]. cbn. congruence.
  - done.
  - apply map_lookup_filter_None. by left.
Qed.

Lemma router_remove_ok o id r : rt_ok o r → rt_ok o (PeerRouter_remove id r).
Proof.
  intros [Hc Hb Hh Hp Hi Ha Hv Hd]. split.
  - intros j c. cbn. intros [_ Hj]%lookup_delete_Some. by eapply Hc.
  - intros p j. rewrite stage_remove, peer_of_remove. specialize (Hb p j). repeat case_decide; naive_solver.
  - intros j. rewrite stage_remove. specialize (Hh j). cbn. case_decide; [subst; rewrite lookup_delete_eq|
      rewrite lookup_delete_ne by done]; [by split; [intros []|]|done].
  - intros j. unfold validated. rewrite stage_remove. specialize (Hp j). cbn.
    case_decide; [subst; rewrite lookup_delete_eq; by split; [intros []|intros (? & ?)]|by rewrite lookup_delete_ne].
  - intros j. unfold validated. rewrite stage_remove. specialize (Hi j). cbn.
    case_decide; [subst; rewrite lookup_delete_eq; by intros []|by rewrite lookup_delete_ne].
  - intros j. unfold validated. rewrite stage_remove. specialize (Ha j). cbn.
    case_decide; [by intros []|by rewrite lookup_delete_ne].
  - intros j. specialize (Hv j). cbn. destruct (decide (id = j)) as [->|];
      [by rewrite !lookup_delete_eq|by rewrite !lookup_delete_ne].
  - intros j p e. rewrite stage_remove. cbn. case_decide; [done|]. rewrite lookup_delete_ne by done. apply Hd.
Qed.

Lemma remove_internal_ok o id reason r : rt_ok o r → rt_ok o (remove_internal id reason r).
Proof. intros Hr. destruct (router_remove_ok o id r Hr). by split. Qed.

(** A connection about to be removed may hold anything. *)
Lemma remove_insert id c r : PeerRouter_remove id (r <| rt_conns ::= insert id c |>) = PeerRouter_remove id r.
Proof. apply router_ext; try done. apply delete_insert_eq. Qed.

(** ** A connection that keeps its stage *)

Lemma stage_insert id c r j :
  stage (r <| rt_conns ::= insert id c |>) j = if decide (id = j) then Some (cn_state c) else stage r j.
Proof.
  unfold stage. cbn. case_decide; [subst; by rewrite lookup_insert_eq|by rewrite lookup_insert_ne].
Qed.

Lemma insert_conn_ok o id c r :
  rt_ok o r → conn_ok c → Conn_is_closed c = false → stage r id = Some (cn_state c) →
  rt_ok o (r <| rt_conns ::= insert id c |>).
Proof.
  intros [Hc Hb Hh Hp Hi Ha Hv Hd] Hok Hcl Hst.
  assert (∀ j, stage (r <| rt_conns ::= insert id c |>) j = stage r j) as Hs.
  { intros j. rewrite stage_insert. case_decide; [by subst|done]. }
  split; unfold validated; try setoid_rewrite Hs; try done.
  - intros j c'. cbn. intros [[-> <-]|[? Hj]]%lookup_insert_Some; [done|by eapply Hc].
  - intros j. cbn. rewrite (Hv j). destruct (decide (id = j)) as [->|]; [|by rewrite lookup_insert_ne].
    rewrite lookup_insert_eq. unfold stage in Hst. destruct (rt_conns r !! j); [|done]. by split; eauto.
Qed.

(** ** Registration *)

(** A record layer as the constructors make it. *)
Definition record_fresh (record : R) : Prop :=
  rl_ok record ∧ rl_quiet record
  ∧ (rio_is_handshaking record = true ∨ rio_peer_identity record = None).

Lemma stage_unbound o r id : rt_ok o r → rt_conns r !! id = None → stage r id = None.
Proof. intros _ Hn. unfold stage. by rewrite Hn. Qed.

Lemma register_ok o id prov record now r :
  rt_ok o r → record_fresh record → rt_ok o (register id prov record now r).
Proof.
  intros Hr (Ho & Hq & Hh). unfold register. case_decide as Hid; [by destruct Hr; split|].
  apply eq_None_not_Some in Hid. pose proof (stage_unbound o r id Hr Hid) as Hs.
  destruct Hr as [Hc Hb Hhd Hp Hi Ha Hv Hd].
  set (r' := _ <| rt_provenance ::= _ |>).
  assert (∀ j, stage r' j = if decide (id = j) then Some Handshaking else stage r j) as Hst.
  { intros j. apply (stage_insert id (Conn_new record) r j). }
  assert (∀ j p, stage r' j = Some (Validated p) ↔ stage r j = Some (Validated p)) as Hval.
  { intros j p. rewrite Hst. case_decide; [subst; by rewrite Hs|done]. }
  split; unfold validated; try setoid_rewrite Hval; try done.
  - intros j c. cbn. intros [[-> <-]|[? Hj]]%lookup_insert_Some; [by split; [apply conn_new_ok|]|by eapply Hc].
  - intros j. rewrite Hst. cbn. case_decide; [subst; rewrite lookup_insert_eq; by split; eauto|].
    by rewrite lookup_insert_ne.
  - intros j. cbn. destruct (decide (id = j)) as [->|]; [rewrite !lookup_insert_eq; by split; eauto|].
    by rewrite !lookup_insert_ne.
  - intros j p e. cbn. intros Hpv Hsv. destruct (decide (id = j)) as [->|]; [congruence|].
    rewrite lookup_insert_ne in Hpv by done. by eapply Hd.
Qed.

(** ** Binding a peer *)

Lemma closed_false_stage o r id : rt_ok o r → stage r id ≠ Some (Closed None) ∧ ∀ p, stage r id ≠ Some (Closed (Some p)).
Proof.
  intros Hr. unfold stage. destruct (rt_conns r !! id) as [c|] eqn:Hc; [|done].
  destruct (ro_conns _ _ Hr id c Hc) as [_ Hcl]. unfold Conn_is_closed in Hcl. cbn.
  destruct (cn_state c); [|done..]. done.
Qed.

(** The table once a connection has validated as a peer nobody was bound to. *)
Definition greet id peer c (now : Instant) r : PeerRouter :=
  r <| rt_conns ::= insert id c |> <| rt_handshake_deadline ::= delete id |>
    <| rt_peer_of ::= insert peer id |>
    <| rt_probe_deadline ::= insert id (Instant_add now PROBE_INTERVAL) |>.

Lemma greet_ok id peer c now r :
  rt_ok None r → stage r id = Some Handshaking → rt_peer_of r !! peer = None →
  conn_ok c → cn_state c = Validated peer →
  (∀ e, rt_provenance r !! id = Some (Dialed e) → e = peer) →
  rt_ok (Some id) (greet id peer c now r).
Proof.
  intros [Hc Hb Hh Hp Hi Ha Hv Hd] Hs Hpeer Hok Hst Hdial. set (r' := greet _ _ _ _ _).
  assert (∀ j, stage r' j = if decide (id = j) then Some (Validated peer) else stage r j) as Hst'.
  { intros j. rewrite <- Hst. apply (stage_insert id c r j). }
  split; unfold validated; try setoid_rewrite Hst'.
  - intros j c'. cbn. intros [[-> <-]|[? Hj]]%lookup_insert_Some; [|by eapply Hc].
    split; [done|]. unfold Conn_is_closed. by rewrite Hst.
  - intros p j. cbn. rewrite lookup_insert. specialize (Hb p j). case_decide as E1; case_decide as E2; subst.
    + done.
    + split; [congruence|]. intros Hj. apply Hb in Hj. congruence.
    + rewrite Hb, Hs. split; [done|]. intros [=]. congruence.
    + done.
  - intros j. cbn. specialize (Hh j). case_decide as E; [subst; rewrite lookup_delete_eq; by split; [intros []|]|].
    by rewrite lookup_delete_ne.
  - intros j. cbn. specialize (Hp j). case_decide as E; [subst; rewrite lookup_insert_eq; split; eauto|].
    by rewrite lookup_insert_ne.
  - intros j Hj. case_decide as E; [eauto|by apply Hi].
  - intros j Hj. case_decide as E; [subst; by right|]. destruct (Ha j Hj); [by left|done].
  - intros j. cbn. rewrite (Hv j). destruct (decide (id = j)) as [->|]; [|by rewrite lookup_insert_ne].
    rewrite lookup_insert_eq. unfold stage in Hs. destruct (rt_conns r !! j); [|done]. by split; eauto.
  - intros j p e Hpv. case_decide as E; [subst; intros [= <-]; symmetry; by apply Hdial|by apply Hd].
Qed.

(** Evicting another connection commutes with what the newcomer has done. *)
Lemma evict_commute id prev reason c r :
  prev ≠ id →
  remove_internal prev reason (r <| rt_conns ::= insert id c |> <| rt_handshake_deadline ::= delete id |>)
  = (remove_internal prev reason r) <| rt_conns ::= insert id c |> <| rt_handshake_deadline ::= delete id |>.
Proof.
  intros Hn. apply router_ext; try done; [by apply delete_insert_ne|apply delete_delete].
Qed.

(** Whether the peer is bound or the connection dropped. *)
Definition bound_as id c r (res : bool * PeerRouter) : Prop :=
  rt_ok (Some id) res.2
  ∧ if res.1 then rt_conns res.2 !! id = Some c
                  ∧ rt_idle_deadline res.2 !! id = rt_idle_deadline r !! id
    else rt_conns res.2 !! id = None.

Lemma rt_ok_weaken id r : rt_ok None r → rt_ok (Some id) r.
Proof. intros []. split; try done. intros j Hj. destruct (ro_armed0 j Hj); [by left|done]. Qed.

Lemma drop_bound id c reason r :
  rt_ok None r → bound_as id c r (false, remove_internal id reason r).
Proof. intros Hr. split; [by apply rt_ok_weaken, remove_internal_ok|]. cbn. by rewrite lookup_delete_eq. Qed.

(** What the removal forgets of a connection under way. *)
Lemma drop_greeting id reason c r :
  remove_internal id reason (r <| rt_conns ::= insert id c |> <| rt_handshake_deadline ::= delete id |>)
  = remove_internal id reason r.
Proof. apply router_ext; try done; [apply delete_insert_eq|apply delete_delete_eq]. Qed.

Lemma remove_internal_insert id reason c r :
  remove_internal id reason (r <| rt_conns ::= insert id c |>) = remove_internal id reason r.
Proof. apply router_ext; try done. apply delete_insert_eq. Qed.

(** The first read that validates a connection. *)
Lemma bind_peer_first id peer c now r :
  rt_ok None r → stage r id = Some Handshaking → conn_ok c → cn_state c = Validated peer →
  bound_as id c r (bind_peer id peer now (r <| rt_conns ::= insert id c |>)).
Proof.
  intros Hr Hs Hok Hst. unfold bind_peer. cbn [rt_local_id rt_provenance rt_handshake_deadline rt_peer_of].
  case_bool_decide as Hme; [rewrite remove_internal_insert; by apply drop_bound|].
  change (rt_provenance (r <| rt_conns ::= insert id c |>)) with (rt_provenance r).
  change (rt_handshake_deadline (r <| rt_conns ::= insert id c |>)) with (rt_handshake_deadline r).
  destruct (match rt_provenance r !! id with
    | Some (Dialed expected) => negb (bool_decide (expected = peer)) | _ => false end) eqn:Hdial.
  { rewrite remove_internal_insert. by apply drop_bound. }
  assert (∀ e, rt_provenance r !! id = Some (Dialed e) → e = peer) as Hd.
  { intros e He. rewrite He in Hdial. apply negb_false_iff, bool_decide_eq_true in Hdial. done. }
  rewrite bool_decide_eq_true_2 by (by apply (ro_hand _ _ Hr)). cbn zeta.
  assert (∀ r', rt_ok None r' → stage r' id = Some Handshaking → rt_peer_of r' !! peer = None →
      rt_provenance r' !! id = rt_provenance r !! id →
      rt_idle_deadline r' !! id = rt_idle_deadline r !! id → bound_as id c r
        (true, r' <| rt_conns ::= insert id c |> <| rt_handshake_deadline ::= delete id |>
                  <| rt_peer_of ::= insert peer id |>
                  <| rt_probe_deadline ::= insert id (Instant_add now PROBE_INTERVAL) |>)) as Hbind.
  { intros r' Hr' Hs' Hn Hpv Hid. split; [|cbn; by rewrite lookup_insert_eq].
    apply (greet_ok id peer c now r'); try done. by rewrite Hpv. }
  change (rt_peer_of (r <| rt_conns ::= insert id c |> <| rt_handshake_deadline ::= delete id |>) !! peer)
    with (rt_peer_of r !! peer).
  destruct (rt_peer_of r !! peer) as [prev|] eqn:Hprev; [|by apply Hbind].
  assert (prev ≠ id) as Hne. { intros ->. apply (ro_bound _ _ Hr) in Hprev. congruence. }
  rewrite decide_False by done. case_decide; [rewrite drop_greeting; by apply drop_bound|].
  rewrite evict_commute by done. apply Hbind.
  - by apply remove_internal_ok.
  - rewrite stage_closed, stage_remove. by rewrite decide_False.
  - cbn. pose proof (peer_of_remove prev r peer) as E. cbn in E. rewrite E. by rewrite decide_True.
  - cbn. by rewrite lookup_delete_ne.
  - cbn. by rewrite lookup_delete_ne.
Qed.

(** A later read of a bound connection. *)
Lemma bind_peer_again id peer c now r :
  rt_ok None r → stage r id = Some (Validated peer) → conn_ok c → cn_state c = Validated peer →
  bound_as id c r (bind_peer id peer now (r <| rt_conns ::= insert id c |>)).
Proof.
  intros Hr Hs Hok Hst. unfold bind_peer.
  case_bool_decide as Hme; [rewrite remove_internal_insert; by apply drop_bound|].
  change (rt_provenance (r <| rt_conns ::= insert id c |>)) with (rt_provenance r).
  change (rt_handshake_deadline (r <| rt_conns ::= insert id c |>)) with (rt_handshake_deadline r).
  assert (match rt_provenance r !! id with
    | Some (Dialed expected) => negb (bool_decide (expected = peer)) | _ => false end = false) as ->.
  { destruct (rt_provenance r !! id) as [[|e]|] eqn:Hp; [done| |done].
    apply negb_false_iff, bool_decide_eq_true. symmetry. by eapply (ro_dial _ _ Hr). }
  assert (rt_handshake_deadline r !! id = None) as Hh.
  { apply eq_None_not_Some. intros E. apply (ro_hand _ _ Hr) in E. congruence. }
  rewrite Hh, bool_decide_eq_false_2 by (by intros []). cbn zeta.
  change (rt_peer_of (r <| rt_conns ::= insert id c |> <| rt_handshake_deadline ::= delete id |>) !! peer)
    with (rt_peer_of r !! peer).
  pose proof Hs as Hb. apply (ro_bound _ _ Hr) in Hb. rewrite Hb, decide_True by done.
  replace (r <| rt_conns ::= insert id c |> <| rt_handshake_deadline ::= delete id |> <| rt_peer_of ::= insert peer id |>)
    with (r <| rt_conns ::= insert id c |>)
    by (apply router_ext; try done; symmetry; [by apply insert_id|by apply delete_id]).
  split; [|cbn; by rewrite lookup_insert_eq]. apply rt_ok_weaken, insert_conn_ok; try done; [|by rewrite Hst].
  unfold Conn_is_closed. by rewrite Hst.
Qed.

(** ** A read *)

(** Every message is attributed to the peer the connection authenticated as. *)
Definition attributed c (out : list (Delivered I)) : Prop :=
  ∀ g f n p m, (g, f, n, p, m) ∈ out → Conn_peer c = Some p ∧ identified c p.

Lemma deliver_ok id c r :
  rt_conns r !! id = Some c → conn_ok c →
  ∃ res out c', deliver id r = Some (res, out, r <| rt_conns ::= insert id c' |>)
    ∧ conn_ok c' ∧ attributed c out
    ∧ match res with Err _ => out = [] | Ok _ => cn_state c' = cn_state c end.
Proof.
  intros Hc Hok. unfold deliver. rewrite Hc. cbn [mbind option_bind].
  destruct (Conn_poll_decoded_ok c Hok) as [Hok' Hs].
  destruct (Conn_poll_decoded c) as [[res msgs] c']. cbn [fst snd] in *.
  destruct res as [[]|e]; eexists _, _, c'; (split; [done|]); split_and!; try done.
  2: { intros g f n p m Hin. by apply elem_of_nil in Hin. }
  intros g f n p m Hin. destruct (Conn_peer c') as [p'|] eqn:Hp; [|by apply elem_of_nil in Hin].
  apply list_elem_of_fmap in Hin as ([[[g' f'] n'] m'] & [= -> -> -> -> ->] & _).
  unfold Conn_peer in Hp |- *. rewrite Hs in Hp. split; [done|by apply (ck_peer _ Hok)].
Qed.

(** What the last lines of a read do with a connection the table shows. *)
Definition settle id (bytes : bytes) (now : Instant) (res : result unit TransportError) r : PeerRouter :=
  match res with
  | Err e => remove_internal id (Some e) r
  | Ok _ =>
      if conn_is r id Conn_is_closed then remove_internal id None r
      else if negb (bool_decide (bytes = [])) && conn_is r id (λ c, bool_decide (is_Some (Conn_peer c)))
      then r <| rt_idle_deadline ::= insert id (Instant_add now IDLE_TIMEOUT) |>
      else r
  end.

Lemma arm_ok id t r :
  rt_ok (Some id) r → validated r id → rt_ok None (r <| rt_idle_deadline ::= insert id t |>).
Proof.
  intros [Hc Hb Hh Hp Hi Ha Hv Hd] Hid. split; try done.
  - intros j. cbn. intros Hj. destruct (decide (id = j)) as [->|]; [done|]. rewrite lookup_insert_ne in Hj by done. by apply Hi.
  - intros j Hj. left. cbn. destruct (decide (id = j)) as [->|]; [rewrite lookup_insert_eq; eauto|].
    rewrite lookup_insert_ne by done. destruct (Ha j Hj) as [?|[=]]; done.
Qed.

Lemma rt_ok_unarmed id r : rt_ok (Some id) r → ¬ validated r id → rt_ok None r.
Proof.
  intros [] Hn. split; try done. intros j Hj. destruct (ro_armed0 j Hj) as [?|[= ->]]; [by left|done].
Qed.

(** A read of a connection that is not closed ends with its deadline armed. *)
Lemma settle_ok id bytes now res r c :
  rt_conns r !! id = Some c → conn_ok c → rt_ok (Some id) r →
  (∀ p, cn_state c = Validated p → bytes = [] → is_Some (rt_idle_deadline r !! id)) →
  rt_ok None (settle id bytes now res r).
Proof.
  intros Hc Hok Hr Hi.
  assert (∀ reason, rt_ok None (remove_internal id reason r)) as Hrem.
  { intros reason. apply (rt_ok_unarmed id); [by apply remove_internal_ok|].
    intros [p Hp]. rewrite stage_closed, stage_remove, decide_True in Hp; done. }
  unfold settle. destruct res as [[]|e]; [|done]. unfold conn_is. rewrite Hc.
  destruct (ro_conns _ _ Hr id c Hc) as [_ Hcl]. rewrite Hcl. unfold Conn_is_closed in Hcl.
  assert (stage r id = Some (cn_state c)) as Hs by (unfold stage; by rewrite Hc).
  destruct (cn_state c) as [|p|p] eqn:Hst; [| |done]; unfold Conn_peer; rewrite Hst.
  - rewrite andb_false_r. apply (rt_ok_unarmed id r Hr). intros [p Hp]. congruence.
  - rewrite (bool_decide_eq_true_2 (is_Some (Some p))) by eauto. rewrite andb_true_r.
    case_bool_decide as Hb; cbn [negb]; [|by apply arm_ok; [|exists p]].
    specialize (Hi p eq_refl Hb). destruct Hr. split; try done.
    intros j Hj. destruct (ro_armed0 j Hj) as [?|[= ->]]; by left.
Qed.

Lemma insert_insert_conn id c c' r :
  r <| rt_conns ::= insert id c |> <| rt_conns ::= insert id c' |> = r <| rt_conns ::= insert id c' |>.
Proof. apply router_ext; try done. apply insert_insert_eq. Qed.

(** A read that ends the connection removes it, whatever was decoded before. *)
Lemma settle_closed id bytes now res c r :
  match res with Err _ => True | Ok _ => Conn_is_closed c = true end →
  ∃ reason, settle id bytes now res (r <| rt_conns ::= insert id c |>) = remove_internal id reason r.
Proof.
  intros Hc. unfold settle, conn_is. destruct res as [[]|e].
  - change (rt_conns (r <| rt_conns ::= insert id c |>)) with (<[id := c]> (rt_conns r)).
    rewrite lookup_insert_eq, Hc. eexists. by rewrite remove_internal_insert.
  - eexists. by rewrite remove_internal_insert.
Qed.

Lemma handle_conn_data_settles id bytes eof now r :
  PeerRouter_handle_conn_data id bytes eof now r
  = '(res, out, r) ← handle_conn_data_inner id bytes eof now r; Some (res, out, settle id bytes now res r).
Proof. done. Qed.

Lemma rt_ok_removed id reason r : rt_ok (Some id) r → rt_ok None (remove_internal id reason r).
Proof.
  intros Hr. apply (rt_ok_unarmed id); [by apply remove_internal_ok|].
  intros [p Hp]. by rewrite stage_closed, stage_remove, decide_True in Hp.
Qed.

(** The connection bound, its frames are delivered and its deadline armed. *)
Lemma deliver_settles id bytes now c r :
  rt_conns r !! id = Some c → rt_ok (Some id) r →
  (∀ p, cn_state c = Validated p → bytes = [] → is_Some (rt_idle_deadline r !! id)) →
  ∃ res out r', deliver id r = Some (res, out, r') ∧ rt_ok None (settle id bytes now res r')
    ∧ attributed c out.
Proof.
  intros Hc Hr Hi. destruct (ro_conns _ _ Hr id c Hc) as [Hok Hcl].
  destruct (deliver_ok id c r Hc Hok) as (res & out & c' & Hd & Hok' & Hat & Hs).
  exists res, out, (r <| rt_conns ::= insert id c' |>). split_and!; [done| |done]. destruct res as [[]|e].
  - apply (settle_ok id bytes now (Ok tt) _ c'); [cbn; by rewrite lookup_insert_eq|done| |by rewrite Hs].
    apply insert_conn_ok; [done..|unfold Conn_is_closed in *; by rewrite Hs|]. unfold stage. by rewrite Hc, Hs.
  - destruct (settle_closed id bytes now (Err e) c' r) as [reason ->]; [done|]. by apply rt_ok_removed.
Qed.

Lemma settle_gone id bytes now r : rt_conns r !! id = None → settle id bytes now (Ok tt) r = r.
Proof. intros Hn. unfold settle, conn_is. by rewrite Hn, andb_false_r. Qed.

(** The peer the connection shows after a read that neither failed nor closed it. *)
Lemma bind_deliver id bytes now c1 r peer :
  rt_ok None r → conn_ok c1 → cn_state c1 = Validated peer →
  (stage r id = Some (Validated peer) ∨ stage r id = Some Handshaking ∧ bytes ≠ []) →
  ∃ res out r',
    (let '(bound, r) := bind_peer id peer now (r <| rt_conns ::= insert id c1 |>) in
     if bound : bool then deliver id r else Some (Ok tt, [], r)) = Some (res, out, r')
    ∧ rt_ok None (settle id bytes now res r') ∧ attributed c1 out.
Proof.
  intros Hr Hok Hst Hs.
  assert (bound_as id c1 r (bind_peer id peer now (r <| rt_conns ::= insert id c1 |>))) as [Hb Hc].
  { destruct Hs as [|[]]; [by apply bind_peer_again|by apply bind_peer_first]. }
  destruct (bind_peer _ _ _ _) as [[] r2]; cbn [fst snd] in *.
  - destruct Hc as [Hc Hi]. apply (deliver_settles id bytes now c1 r2); [done..|].
    intros p _ ->. rewrite Hi. destruct Hs as [Hs|[_ ?]]; [|done].
    destruct (ro_armed _ _ Hr id) as [?|?]; [by exists peer|done..].
  - eexists _, _, _. split; [done|]. rewrite settle_gone by done. split.
    + apply (rt_ok_unarmed id r2 Hb). intros [p Hp]. unfold stage in Hp. by rewrite Hc in Hp.
    + intros g f n p m Hin. by apply elem_of_nil in Hin.
Qed.

(** A read returns, keeps the table, and hands over only messages of the peer the
    connection authenticated as. *)
Lemma PeerRouter_handle_conn_data_ok id bytes eof now r :
  rt_ok None r →
  ∃ res out r', PeerRouter_handle_conn_data id bytes eof now r = Some (res, out, r') ∧ rt_ok None r'
    ∧ ∀ g f n p m, (g, f, n, p, m) ∈ out →
        ∃ c c1, rt_conns r !! id = Some c ∧ Conn_handle_data bytes eof now c = Some (Ok tt, c1)
                ∧ Conn_peer c1 = Some p ∧ identified c1 p.
Proof.
  intros Hr. rewrite handle_conn_data_settles. unfold handle_conn_data_inner.
  destruct (rt_conns r !! id) as [c|] eqn:Hc.
  2: { cbn [mbind option_bind]. eexists _, _, _. rewrite settle_gone by done. split_and!; [done..|].
       intros g f n p m Hin. by apply elem_of_nil in Hin. }
  destruct (ro_conns _ _ Hr id c Hc) as [Hok Hcl].
  destruct (Conn_handle_data_returns bytes eof now c Hok) as (res & c1 & Hh & Hok1 & Hm & Hres).
  rewrite Hh. cbn [mbind option_bind]. destruct res as [[]|e].
  2: { destruct (settle_closed id bytes now (Err e) c1 r) as [reason Hset]; [done|]. eexists _, _, _.
       split_and!; [done|rewrite Hset; by apply remove_internal_ok|]. intros g f n p m Hin. by apply elem_of_nil in Hin. }
  assert (stage r id = Some (cn_state c)) as Hs by (unfold stage; by rewrite Hc).
  assert (∀ out, attributed c1 out → ∀ g f n p m, (g, f, n, p, m) ∈ out →
    ∃ c0 c2, Some c = Some c0 ∧ Conn_handle_data bytes eof now c0 = Some (Ok tt, c2)
      ∧ Conn_peer c2 = Some p ∧ identified c2 p) as Hat.
  { intros out Hat g f n p m Hin. destruct (Hat _ _ _ _ _ Hin). eauto 10. }
  destruct (Conn_is_closed c1) eqn:Hcl1.
  { destruct (deliver_ok id c1 (r <| rt_conns ::= insert id c1 |>)) as (res & out & c2 & -> & Hok2 & Ha & Hs2);
      [cbn; by rewrite lookup_insert_eq|done|].
    cbn [mbind option_bind]. rewrite insert_insert_conn.
    destruct (settle_closed id bytes now res c2 r) as [reason Hset];
      [|eexists _, _, _; split_and!; [done|rewrite Hset; by apply remove_internal_ok|by apply Hat]].
    destruct res; [|done]. unfold Conn_is_closed in *. by rewrite Hs2. }
  destruct (Conn_peer c1) as [peer|] eqn:Hp; unfold Conn_peer, Conn_is_closed in Hp, Hcl1;
    destruct (cn_state c1) as [|p1|p1] eqn:Hst1; simplify_eq.
  - destruct (bind_deliver id bytes now c1 r peer) as (res & out & r' & -> & Hok' & Ha); [done..| |].
    { inversion Hm as [? E| | | |]; subst; [left; congruence|]. right. split; [congruence|]. intros ->.
      destruct (Conn_handle_data_idle _ _ _ _ _ Hok Hh) as [E|E]; [done|congruence|].
      unfold Conn_is_closed in E. by rewrite Hst1 in E. }
    cbn [mbind option_bind]. eexists _, _, _. split_and!; [done..|by apply Hat].
  - destruct (deliver_settles id bytes now c1 (r <| rt_conns ::= insert id c1 |>)) as (res & out & r' & -> & Hok' & Ha).
    + cbn. by rewrite lookup_insert_eq.
    + apply rt_ok_weaken, insert_conn_ok; [done..| |]; [unfold Conn_is_closed; by rewrite Hst1|].
      inversion Hm; subst; congruence.
    + congruence.
    + cbn [mbind option_bind]. eexists _, _, _. split_and!; [done..|by apply Hat].
Qed.

(** ** Every close is reported *)

(** The router let go of the connections it reports, each once, and of no other. *)
Record drops r r' : Prop := {
  dr_sub : ∀ id, is_Some (rt_conns r' !! id) → is_Some (rt_conns r !! id);
  dr_new : ∃ new, rt_closed r' = rt_closed r ++ new ∧ NoDup new.*1
    ∧ ∀ id, id ∈ new.*1 ↔ is_Some (rt_conns r !! id) ∧ rt_conns r' !! id = None;
}.

#[global] Instance drops_refl : Reflexive drops.
Proof.
  intros r. split; [done|]. exists []. split_and!; [by rewrite app_nil_r|constructor|].
  intros id. rewrite elem_of_nil. split; [done|]. intros [[? ?] ?]. congruence.
Qed.

#[global] Instance drops_trans : Transitive drops.
Proof.
  intros r1 r2 r3 [Hs1 (n1 & E1 & N1 & I1)] [Hs2 (n2 & E2 & N2 & I2)]. split; [by eauto|].
  exists (n1 ++ n2). rewrite fmap_app. split_and!.
  - by rewrite E2, E1, (assoc_L (++)).
  - apply NoDup_app. split_and!; [done| |done]. intros id H1 H2. apply I1 in H1 as [_ H1]. apply I2 in H2 as [[? H2] _].
    congruence.
  - intros id. rewrite elem_of_app, I1, I2. split.
    + intros [[H1 H2]|[H1 H2]]; (split; [by auto|]); [|done]. apply eq_None_not_Some. intros H3.
      apply Hs2 in H3 as [? H3]. congruence.
    + intros [H1 H3]. destruct (rt_conns r2 !! id) eqn:H2; [right|left]; eauto.
Qed.

(** Nothing but the table of connections and the reports counts. *)
Lemma drops_same r r' :
  (∀ id, is_Some (rt_conns r' !! id) ↔ is_Some (rt_conns r !! id)) → rt_closed r' = rt_closed r → drops r r'.
Proof.
  intros Hc He. split; [by intros id ?%Hc|]. exists []. rewrite app_nil_r. split_and!; [done|constructor|].
  intros id. rewrite elem_of_nil. split; [done|]. intros [H1 H2]. apply Hc in H1 as [? H1]. congruence.
Qed.

Lemma drops_insert id c r : is_Some (rt_conns r !! id) → drops r (r <| rt_conns ::= insert id c |>).
Proof.
  intros Hid. apply drops_same; [|done]. intros j. cbn. destruct (decide (id = j)) as [->|];
    [rewrite lookup_insert_eq; by split; eauto|by rewrite lookup_insert_ne].
Qed.

Lemma drops_remove id reason r : is_Some (rt_conns r !! id) → drops r (remove_internal id reason r).
Proof.
  intros Hid. split.
  - intros j. cbn. destruct (decide (id = j)) as [->|]; [done|by rewrite lookup_delete_ne].
  - exists [(id, reason)]. split_and!; [done|apply NoDup_singleton|]. intros j. cbn. rewrite list_elem_of_singleton.
    destruct (decide (id = j)) as [->|]; [rewrite lookup_delete_eq; naive_solver|rewrite lookup_delete_ne by done].
    split; [by intros ->|]. intros [[? ?] ?]. congruence.
Qed.

Lemma drops_remove_inserted id reason c r :
  is_Some (rt_conns r !! id) → drops r (remove_internal id reason (r <| rt_conns ::= insert id c |>)).
Proof. intros Hid. rewrite remove_internal_insert. by apply drops_remove. Qed.

(** ** Housekeeping *)

Lemma expired_elem now (m : gmap ConnId Instant) id : id ∈ expired now m ↔ ∃ t, m !! id = Some t ∧ t ≤ now.
Proof.
  unfold expired, conn_iter. rewrite list_elem_of_fmap. split.
  - intros ([id' t] & -> & [Ht Hin]%list_elem_of_filter). exists t. split; [|done].
    by apply (elem_of_btree_map_iter (NodeId0 := N_NodeId)) in Hin.
  - intros (t & Hm & Ht). exists (id, t). split; [done|]. apply list_elem_of_filter. split; [done|].
    by apply (elem_of_btree_map_iter (NodeId0 := N_NodeId)).
Qed.

Lemma conn_iter_keys {A} (m : gmap ConnId A) : (conn_iter m).*1 = btree_iter (NodeId0 := N_NodeId) (dom m).
Proof.
  unfold conn_iter, btree_map_iter.
  assert (∀ l, (∀ k, k ∈ l → is_Some (m !! k)) → (omap (λ k, (k,.) <$> m !! k) l).*1 = l) as Hl.
  { induction l as [|k l IH]; intros Hl; [done|]. destruct (Hl k) as [a Ha]; [by left|].
    cbn. rewrite Ha. cbn. f_equal. apply IH. intros j Hj. apply Hl. by right. }
  apply Hl. intros k Hk. by apply (elem_of_btree_iter (NodeId0 := N_NodeId)), elem_of_dom in Hk.
Qed.

Lemma NoDup_expired now (m : gmap ConnId Instant) : NoDup (expired now m).
Proof.
  apply (sublist_NoDup _ (conn_iter m).*1); [|apply fmap_sublist, sublist_filter].
  rewrite conn_iter_keys. apply NoDup_btree_iter.
Qed.

Definition remove_all (reason : option TransportError) (ids : list ConnId) r : PeerRouter :=
  foldl (λ r id, remove_internal id reason r) r ids.

Lemma remove_all_lookup reason ids r j :
  (∀ A (f : PeerRouter → gmap ConnId A), (∀ id reason r, f (remove_internal id reason r) = delete id (f r)) →
   f (remove_all reason ids r) !! j = if decide (j ∈ ids) then None else f r !! j).
Proof.
  intros A f Hf. revert r. induction ids as [|id ids IH]; intros r; [done|].
  change (remove_all reason (id :: ids) r) with (remove_all reason ids (remove_internal id reason r)).
  rewrite IH, Hf. destruct (decide (id = j)) as [->|Hne].
  - rewrite lookup_delete_eq, (decide_True (P := j ∈ j :: ids)) by (by left). by case_decide.
  - rewrite lookup_delete_ne by done. do 2 case_decide; try done; set_solver.
Qed.

Lemma remove_all_ok o reason ids r : rt_ok o r → rt_ok o (remove_all reason ids r).
Proof. revert r. induction ids as [|id ids IH]; intros r Hr; [done|]. by apply IH, remove_internal_ok. Qed.

Lemma remove_all_drops reason ids r :
  NoDup ids → (∀ id, id ∈ ids → is_Some (rt_conns r !! id)) → drops r (remove_all reason ids r).
Proof.
  intros Hn. revert r. induction Hn as [|id ids Hid Hn IH]; intros r Hr; [done|].
  etrans; [apply (drops_remove id reason), Hr; by left|]. apply IH. intros j Hj. cbn.
  rewrite lookup_delete_ne by (by intros ->). apply Hr. by right.
Qed.

Lemma expired_present now r :
  rt_ok None r →
  (∀ id, id ∈ expired now (rt_handshake_deadline r) → is_Some (rt_conns r !! id))
  ∧ (∀ id, id ∈ expired now (rt_idle_deadline r) → is_Some (rt_conns r !! id)).
Proof.
  intros Hr. assert (∀ id s, stage r id = Some s → is_Some (rt_conns r !! id)) as Hs.
  { intros id s E. unfold stage in E. by destruct (rt_conns r !! id). }
  split; intros id (t & Ht & _)%expired_elem.
  - apply (Hs id Handshaking), (ro_hand _ _ Hr). eauto.
  - destruct (ro_idle _ _ Hr id) as [p Hp]; [eauto|]. by eapply Hs.
Qed.

(** After the reaping no handshake is overdue. *)
Lemma reap_handshakes_ok now r :
  rt_ok None r →
  rt_ok None (reap_handshakes now r) ∧ drops r (reap_handshakes now r)
  ∧ ∀ id t, rt_handshake_deadline (reap_handshakes now r) !! id = Some t → now < t.
Proof.
  intros Hr. split_and!; [by apply remove_all_ok|apply remove_all_drops; [apply NoDup_expired|by apply expired_present]|].
  intros id t. change (reap_handshakes now r) with (remove_all (Some NotValidated) (expired now (rt_handshake_deadline r)) r).
  rewrite (remove_all_lookup _ _ r id _ rt_handshake_deadline) by done. case_decide as Hd; [done|]. intros Ht.
  apply N.nle_gt. intros Hle. apply Hd, expired_elem. eauto.
Qed.

(** ** Sending *)

Lemma sent_insert id c c' r :
  rt_ok None r → rt_conns r !! id = Some c → sent c c' →
  if Conn_is_closed c' then rt_ok None (remove_internal id None (r <| rt_conns ::= insert id c' |>))
  else rt_ok None (r <| rt_conns ::= insert id c' |>) ∧ stage r id = Some (cn_state c').
Proof.
  intros Hr Hc [Hok Hs]. destruct (ro_conns _ _ Hr id c Hc) as [_ Hcl]. destruct (Conn_is_closed c') eqn:Hcl'.
  - rewrite remove_internal_insert. by apply remove_internal_ok.
  - assert (stage r id = Some (cn_state c')) as Hst.
    { unfold stage. rewrite Hc. destruct Hs as [->|Hs]; [done|]. unfold Conn_is_closed in Hcl'. by rewrite Hs in Hcl'. }
    split; [|done]. by apply insert_conn_ok.
Qed.

Lemma route_with_ok to send r :
  rt_ok None r → (∀ c, conn_ok c → sent c (send c)) →
  rt_ok None (route_with to send r).2 ∧ drops r (route_with to send r).2.
Proof.
  intros Hr Hsend. unfold route_with. destruct (rt_peer_of r !! to) as [id|]; [|done].
  destruct (rt_conns r !! id) as [c|] eqn:Hc; [|done]. destruct (ro_conns _ _ Hr id c Hc) as [Hok _].
  pose proof (sent_insert id c (send c) r Hr Hc (Hsend c Hok)) as Hs.
  destruct (Conn_is_closed (send c)); cbn [snd].
  - split; [done|]. apply drops_remove_inserted. by rewrite Hc.
  - split; [apply Hs|]. apply drops_insert. by rewrite Hc.
Qed.

Lemma probe_conn_ok now id r :
  rt_ok None r → validated r id →
  rt_ok None (probe_conn now id r) ∧ drops r (probe_conn now id r).
Proof.
  intros Hr Hv. unfold probe_conn. destruct (rt_conns r !! id) as [c|] eqn:Hc; [|done].
  destruct (ro_conns _ _ Hr id c Hc) as [Hok _].
  pose proof (sent_insert id c (Conn_send_probe c) r Hr Hc (Conn_send_probe_ok c Hok)) as Hs.
  destruct (Conn_is_closed (Conn_send_probe c)); cbn zeta.
  - split; [done|]. apply drops_remove_inserted. by rewrite Hc.
  - destruct Hs as [Hok' Hst]. split; [|by etrans; [apply (drops_insert id (Conn_send_probe c)); rewrite Hc|apply drops_same]].
    destruct Hok'. split; try done. intros j. cbn. rewrite lookup_insert.
    case_decide; [subst; split; [intros _|by eauto]|apply ro_probe0].
    destruct Hv as [p Hp]. exists p. rewrite <- Hp. unfold stage at 1. cbn. rewrite lookup_insert_eq. cbn. by rewrite Hst.
Qed.

(** Probing one connection leaves the others. *)
Lemma probe_conn_other now id r j :
  id ≠ j → stage (probe_conn now id r) j = stage r j
  ∧ rt_probe_deadline (probe_conn now id r) !! j = rt_probe_deadline r !! j.
Proof.
  intros Hne. unfold probe_conn, stage. destruct (rt_conns r !! id); [|done].
  destruct (Conn_is_closed _); cbn; by rewrite ?lookup_delete_ne, ?lookup_insert_ne by done.
Qed.

Lemma probe_conn_idle now id r j t :
  rt_idle_deadline (probe_conn now id r) !! j = Some t → rt_idle_deadline r !! j = Some t.
Proof.
  unfold probe_conn. destruct (rt_conns r !! id); [|done]. destruct (Conn_is_closed _); cbn; [|done].
  by intros [_ ?]%lookup_delete_Some.
Qed.

(** A probe is due again a whole interval from now. *)
Lemma probe_conn_rearmed now id r t :
  rt_ok None r → rt_probe_deadline (probe_conn now id r) !! id = Some t → t = Instant_add now PROBE_INTERVAL.
Proof.
  intros Hr. unfold probe_conn. destruct (rt_conns r !! id) as [c|] eqn:Hc.
  - destruct (Conn_is_closed _); cbn; [by rewrite lookup_delete_eq|]. rewrite lookup_insert_eq. congruence.
  - intros Ht. destruct (ro_probe _ _ Hr id) as [[p Hp] _]; [eauto|]. unfold stage in Hp. by rewrite Hc in Hp.
Qed.

Definition probe_all (now : Instant) (ids : list ConnId) r : PeerRouter :=
  foldl (λ r id, probe_conn now id r) r ids.

Lemma probe_all_ok now ids r :
  rt_ok None r → NoDup ids → (∀ id, id ∈ ids → validated r id) →
  rt_ok None (probe_all now ids r) ∧ drops r (probe_all now ids r)
  ∧ (∀ j t, rt_idle_deadline (probe_all now ids r) !! j = Some t → rt_idle_deadline r !! j = Some t)
  ∧ (∀ j t, rt_probe_deadline (probe_all now ids r) !! j = Some t →
            t = Instant_add now PROBE_INTERVAL ∨ (j ∉ ids) ∧ rt_probe_deadline r !! j = Some t).
Proof.
  intros Hr Hn. revert r Hr. induction Hn as [|id ids Hid Hn IH]; intros r Hr Hv.
  { split_and!; [done..|]. intros j t Ht. right. split; [apply not_elem_of_nil|done]. }
  destruct (probe_conn_ok now id r Hr) as [Hr1 Hd1]; [apply Hv; by left|].
  destruct (IH (probe_conn now id r)) as (Hr2 & Hd2 & Hi2 & Hp2); [done| |].
  { intros j Hj. destruct (probe_conn_other now id r j) as [E _]; [by intros ->|]. unfold validated. rewrite E.
    apply Hv. by right. }
  split_and!; [done|by etrans|..].
  - intros j t Ht. eapply probe_conn_idle, Hi2, Ht.
  - intros j t Ht. destruct (Hp2 j t Ht) as [?|[Hj Hpj]]; [by left|].
    destruct (decide (id = j)) as [->|Hne]; [left; by apply (probe_conn_rearmed now j r)|]. right.
    destruct (probe_conn_other now id r j Hne) as [_ E]. rewrite E in Hpj. split; [|done].
    by intros [->|?]%elem_of_cons.
Qed.

Lemma filter_all_id {A} (P : A → Prop) `{!∀ x, Decision (P x)} (l : list A) : (∀ x, x ∈ l → P x) → filter P l = l.
Proof.
  induction l as [|x l IH]; intros Hl; [done|]. rewrite filter_cons_True by (apply Hl; by left).
  f_equal. apply IH. intros y Hy. apply Hl. by right.
Qed.

(** After the service every validated connection that is left has heard from its
    peer in time and owes no probe. *)
Lemma service_liveness_ok now r :
  rt_ok None r →
  rt_ok None (service_liveness now r) ∧ drops r (service_liveness now r)
  ∧ (∀ id t, rt_idle_deadline (service_liveness now r) !! id = Some t → now < t)
  ∧ (now < Duration_MAX → ∀ id t, rt_probe_deadline (service_liveness now r) !! id = Some t → now < t).
Proof.
  intros Hr. unfold service_liveness. set (reap := expired now (rt_idle_deadline r)).
  change (foldl (λ r id, remove_internal id (Some IdleTimeout) r) r reap) with (remove_all (Some IdleTimeout) reap r).
  set (r1 := remove_all _ _ _). assert (rt_ok None r1) as Hr1 by by apply remove_all_ok.
  assert (drops r r1) as Hd1 by (apply remove_all_drops; [apply NoDup_expired|by apply expired_present]).
  assert (∀ id t, rt_idle_deadline r1 !! id = Some t → now < t) as Hi1.
  { intros id t. unfold r1. rewrite (remove_all_lookup _ _ r id _ rt_idle_deadline) by done.
    case_decide as Hd; [done|]. intros Ht. apply N.nle_gt. intros Hle. apply Hd, expired_elem. eauto. }
  rewrite filter_all_id.
  2: { intros id (t & Ht & _)%expired_elem Hin. unfold r1 in Ht.
       rewrite (remove_all_lookup _ _ r id _ rt_probe_deadline) in Ht by done. rewrite decide_True in Ht; done. }
  cbn zeta. change (foldl _ r1 _) with (probe_all now (expired now (rt_probe_deadline r1)) r1).
  destruct (probe_all_ok now (expired now (rt_probe_deadline r1)) r1) as (Hr2 & Hd2 & Hi2 & Hp2);
    [done|apply NoDup_expired|by intros id (t & Ht & _)%expired_elem; apply (ro_probe _ _ Hr1); eauto|].
  split_and!; [done|by etrans|by intros id t Ht; eapply Hi1, Hi2|].
  intros Hnow id t Ht. destruct (Hp2 id t Ht) as [->|[Hn Hpt]].
  - unfold Instant_add, Duration_saturating_add. assert (0 < PROBE_INTERVAL) by done. lia.
  - apply N.nle_gt. intros Hle. apply Hn, expired_elem. eauto.
Qed.

Lemma bind_peer_drops id peer now r :
  is_Some (rt_conns r !! id) →
  (∀ prev, rt_peer_of r !! peer = Some prev → is_Some (rt_conns r !! prev)) →
  drops r (bind_peer id peer now r).2
  ∧ ((bind_peer id peer now r).1 = true → is_Some (rt_conns (bind_peer id peer now r).2 !! id)).
Proof.
  intros Hid Hpeer. unfold bind_peer. case_bool_decide; [split; [by apply drops_remove|done]|].
  destruct (match rt_provenance r !! id with
    | Some (Dialed expected) => negb (bool_decide (expected = peer)) | _ => false end);
    [split; [by apply drops_remove|done]|].
  set (r1 := r <| rt_handshake_deadline ::= delete id |>). cbn zeta.
  assert (drops r r1) as Hd1 by by apply drops_same.
  assert (∀ r2 (b : bool), drops r r2 → is_Some (rt_conns r2 !! id) →
    let x := r2 <| rt_peer_of ::= insert peer id |> in
    let y := (true, if b then x <| rt_probe_deadline ::= insert id (Instant_add now PROBE_INTERVAL) |> else x) in
    drops r y.2 ∧ (y.1 = true → is_Some (rt_conns y.2 !! id))) as Hbind.
  { intros r2 b Hd Hs. cbn zeta. split; [|by destruct b]. etrans; [exact Hd|]. apply drops_same; by destruct b. }
  change (rt_peer_of r1) with (rt_peer_of r). destruct (rt_peer_of r !! peer) as [prev|] eqn:Hp; [|by apply Hbind].
  case_decide as Hprev; [by apply Hbind|]. case_decide.
  - split; [etrans; [exact Hd1|by apply drops_remove]|done].
  - apply Hbind; [etrans; [exact Hd1|apply drops_remove; by apply (Hpeer prev)]|]. cbn. by rewrite lookup_delete_ne.
Qed.

Lemma settle_drops id bytes now res r :
  is_Some (rt_conns r !! id) ∨ res = Ok tt → drops r (settle id bytes now res r).
Proof.
  intros Hid. unfold settle. destruct res as [[]|e]; [|apply drops_remove; by destruct Hid].
  unfold conn_is. destruct (rt_conns r !! id) as [c|] eqn:Hc; [|by rewrite andb_false_r].
  destruct (Conn_is_closed c); [apply drops_remove; by rewrite Hc|]. destruct (_ && _); [by apply drops_same|done].
Qed.

Lemma deliver_drops id r res out r' :
  deliver id r = Some (res, out, r') → drops r r' ∧ is_Some (rt_conns r' !! id).
Proof.
  unfold deliver. destruct (rt_conns r !! id) as [c|] eqn:Hc; [|done]. cbn [mbind option_bind].
  destruct (Conn_poll_decoded c) as [[res' msgs] c']. intros [= Hd].
  assert (r' = r <| rt_conns ::= insert id c' |>) as -> by (by destruct res'; simplify_eq).
  split; [apply drops_insert; by rewrite Hc|]. cbn. rewrite lookup_insert_eq. eauto.
Qed.

(** A read reports exactly the connections it lets go of. *)
Lemma handle_conn_data_drops id bytes eof now r res out r' :
  rt_ok None r → PeerRouter_handle_conn_data id bytes eof now r = Some (res, out, r') → drops r r'.
Proof.
  intros Hr. rewrite handle_conn_data_settles. unfold handle_conn_data_inner.
  destruct (rt_conns r !! id) as [c|] eqn:Hc; [|intros [= <- <- <-]; apply (settle_drops id bytes now (Ok tt)); by right].
  destruct (Conn_handle_data bytes eof now c) as [[res1 c1]|]; [|done]. cbn [mbind option_bind].
  assert (drops r (r <| rt_conns ::= insert id c1 |>)) as Hd1 by (apply drops_insert; by rewrite Hc).
  assert (is_Some (rt_conns (r <| rt_conns ::= insert id c1 |>) !! id)) as Hs1 by (cbn; rewrite lookup_insert_eq; eauto).
  assert (∀ r1, drops r r1 → option_bind _ _ (λ '(res, out, r), Some (res, out, settle id bytes now res r)) (deliver id r1)
      = Some (res, out, r') → drops r r') as Hdel.
  { intros r1 Hd. destruct (deliver id r1) as [[[res2 out2] r2]|] eqn:Hdl; [|done]. cbn. intros [= <- <- <-].
    apply deliver_drops in Hdl as [Hd2 Hs2]. etrans; [exact Hd|]. etrans; [exact Hd2|]. apply settle_drops. by left. }
  destruct res1 as [[]|e]; [|intros [= <- <- <-]; etrans; [exact Hd1|apply (settle_drops id bytes now (Err e)); by left]].
  destruct (if Conn_is_closed c1 then None else Conn_peer c1) as [peer|]; [|by apply Hdel].
  destruct (bind_peer_drops id peer now (r <| rt_conns ::= insert id c1 |>)) as [Hd2 Hs2]; [done| |].
  { intros prev Hp. cbn. destruct (decide (id = prev)) as [->|]; [rewrite lookup_insert_eq; eauto|].
    rewrite lookup_insert_ne by done.
    apply (ro_bound _ _ Hr) in Hp. unfold stage in Hp. by destruct (rt_conns r !! prev). }
  destruct (bind_peer _ _ _ _) as [[] r2]; cbn [fst snd] in *; [apply Hdel; by etrans|].
  cbn [mbind option_bind]. intros [= <- <- <-]. etrans; [by etrans|]. apply (settle_drops id bytes now (Ok tt)). by right.
Qed.

Lemma transmit_conn_ok out id r :
  rt_ok None r → rt_ok None (transmit_conn (out, r) id).2 ∧ drops r (transmit_conn (out, r) id).2.
Proof.
  intros Hr. unfold transmit_conn. destruct (rt_conns r !! id) as [c|] eqn:Hc; [|done].
  destruct (ro_conns _ _ Hr id c Hc) as [Hok Hcl]. destruct (Conn_poll_transmit_ok c Hok) as [Hok' Hs].
  destruct (Conn_poll_transmit c) as [bytes c']. cbn [snd] in *. split.
  - apply insert_conn_ok; [done..| |]; [unfold Conn_is_closed in *; by rewrite Hs|unfold stage; by rewrite Hc, Hs].
  - apply drops_insert. by rewrite Hc.
Qed.

Lemma poll_transmit_ok r :
  rt_ok None r → rt_ok None (PeerRouter_poll_transmit r).2 ∧ drops r (PeerRouter_poll_transmit r).2.
Proof.
  unfold PeerRouter_poll_transmit. generalize (@nil (ConnId * bytes)) as out, (conn_iter (rt_conns r)).*1 as ids.
  intros out ids. revert out r. induction ids as [|id ids IH]; intros out r Hr; [done|]. cbn [foldl].
  destruct (transmit_conn_ok out id r Hr) as [Hr1 Hd1]. destruct (transmit_conn (out, r) id) as [out' r'].
  destruct (IH out' r' Hr1) as [Hr2 Hd2]. split; [done|by etrans].
Qed.

(** ** What a read hands over was decoded *)

Definition out_decoded (out : list (Decoded I)) : Prop :=
  ∀ g f n m, (g, f, n, m) ∈ out → ∃ b, decode_message b = Ok m.

Lemma out_decoded_snoc out g f n m b : out_decoded out → decode_message b = Ok m → out_decoded (out ++ [(g, f, n, m)]).
Proof.
  intros Ho Hb g' f' n' m' [Hin|Hin]%elem_of_app; [by eapply Ho|]. apply list_elem_of_singleton in Hin as [= -> -> -> ->]. eauto.
Qed.

Lemma decode_entries_decoded entries out : out_decoded out → out_decoded (decode_entries entries out).2.
Proof.
  revert out. induction entries as [|[[[f g] n] b] entries IH]; intros out Ho; cbn [decode_entries]; [done|].
  destruct (decode_message b) eqn:Hb; [|done]. by eapply IH, out_decoded_snoc.
Qed.

Lemma decode_frame_decoded frame out : out_decoded out → out_decoded (decode_frame frame out).2.
Proof.
  intros Ho. unfold decode_frame. destruct (is_coalesced_frame frame).
  - destruct (split_coalesced frame); [by apply decode_entries_decoded|done].
  - destruct (split_group_header frame) as [[[g n] b]|]; [|done].
    destruct (decode_message b) eqn:Hb; [by eapply out_decoded_snoc|done].
Qed.

Lemma poll_loop_decoded fuel out c : out_decoded out → out_decoded (poll_loop fuel out c).1.2.
Proof.
  revert out c. induction fuel as [|fuel IH]; intros out c Ho; cbn [poll_loop];
    destruct (FrameDecoder_poll (cn_decoder c)) as [[[frame|]|e] d]; try done;
    pose proof (decode_frame_decoded frame out Ho) as Hd;
    destruct (decode_frame frame out) as [[[]|e] out']; cbn [fst snd] in *; try done. by apply IH.
Qed.

Lemma deliver_decoded id r res out r' g f n p m :
  deliver id r = Some (res, out, r') → (g, f, n, p, m) ∈ out → ∃ b, decode_message b = Ok m.
Proof.
  unfold deliver. destruct (rt_conns r !! id) as [c|]; [|done]. cbn [mbind option_bind].
  assert (out_decoded (Conn_poll_decoded c).1.2) as Hd.
  { unfold Conn_poll_decoded. destruct (Conn_peer c); [apply poll_loop_decoded|]; by intros ???? ?%elem_of_nil. }
  destruct (Conn_poll_decoded c) as [[[[]|e] msgs] c']; cbn [fst snd] in Hd; intros [= <- <- <-] Hin;
    [|by apply elem_of_nil in Hin].
  destruct (Conn_peer c'); [|by apply elem_of_nil in Hin].
  apply list_elem_of_fmap in Hin as ([[[g' f'] n'] m'] & [= -> -> -> -> ->] & Hin). by eapply Hd.
Qed.

Lemma handle_conn_data_decoded id bytes eof now r res out r' g f n p m :
  PeerRouter_handle_conn_data id bytes eof now r = Some (res, out, r') → (g, f, n, p, m) ∈ out →
  ∃ b, decode_message b = Ok m.
Proof.
  unfold PeerRouter_handle_conn_data. destruct (handle_conn_data_inner id bytes eof now r) as [[[res1 out1] r1]|] eqn:Hi;
    [|done]. cbn [mbind option_bind]. intros [= <- <- _] Hin. revert Hi. unfold handle_conn_data_inner.
  destruct (rt_conns r !! id) as [c|]; [|intros [= <- <- <-]; by apply elem_of_nil in Hin].
  destruct (Conn_handle_data bytes eof now c) as [[[[]|e] c1]|]; [|intros [= <- <- <-]; by apply elem_of_nil in Hin|done].
  cbn [mbind option_bind]. destruct (if Conn_is_closed c1 then None else Conn_peer c1) as [peer|];
    [|intros Hd; by eapply deliver_decoded].
  destruct (bind_peer id peer now _) as [[] r2]; [intros Hd; by eapply deliver_decoded|].
  intros [= <- <- <-]. by apply elem_of_nil in Hin.
Qed.

(** ** The name of the host *)

Lemma remove_all_local reason ids r : rt_local_id (remove_all reason ids r) = rt_local_id r.
Proof. unfold remove_all. revert r. induction ids as [|id ids IH]; intros r; [done|]. cbn [foldl]. by rewrite IH. Qed.

Lemma route_with_local to send r : rt_local_id (route_with to send r).2 = rt_local_id r.
Proof.
  unfold route_with. destruct (rt_peer_of r !! to) as [id|]; [|done]. destruct (rt_conns r !! id) as [c|]; [|done].
  by destruct (Conn_is_closed (send c)).
Qed.

Lemma poll_transmit_local r : rt_local_id (PeerRouter_poll_transmit r).2 = rt_local_id r.
Proof.
  unfold PeerRouter_poll_transmit. generalize (@nil (ConnId * bytes)) as out, (conn_iter (rt_conns r)).*1 as ids.
  intros out ids. revert out r. induction ids as [|id ids IH]; intros out r; [done|]. cbn [foldl transmit_conn].
  destruct (rt_conns r !! id) as [c|]; [|by apply IH]. destruct (Conn_poll_transmit c). by rewrite IH.
Qed.

Lemma service_liveness_local now r : rt_local_id (service_liveness now r) = rt_local_id r.
Proof.
  unfold service_liveness. cbv zeta. rewrite <- (remove_all_local (Some IdleTimeout) (expired now (rt_idle_deadline r)) r).
  unfold remove_all. generalize (foldl (λ r id, remove_internal id (Some IdleTimeout) r) r (expired now (rt_idle_deadline r))) as r1.
  intros r1. generalize (filter (λ id, id ∉ expired now (rt_idle_deadline r)) (expired now (rt_probe_deadline r1))) as ids.
  intros ids. revert r1. induction ids as [|id ids IH]; intros r1; [done|]. cbn [foldl]. rewrite IH.
  unfold probe_conn. destruct (rt_conns r1 !! id) as [c|]; [|done]. by destruct (Conn_is_closed _).
Qed.

Lemma bind_peer_local id peer now r : rt_local_id (bind_peer id peer now r).2 = rt_local_id r.
Proof.
  unfold bind_peer. repeat case_match; try done; cbn; by repeat case_match.
Qed.

Lemma handle_conn_data_local id bytes eof now r res out r' :
  PeerRouter_handle_conn_data id bytes eof now r = Some (res, out, r') → rt_local_id r' = rt_local_id r.
Proof.
  rewrite handle_conn_data_settles. unfold handle_conn_data_inner.
  assert (∀ res1 out1 r1, rt_local_id r1 = rt_local_id r →
    Some (res1, out1, settle id bytes now res1 r1) = Some (res, out, r') → rt_local_id r' = rt_local_id r) as Hs.
  { intros res1 out1 r1 <- Hr. assert (r' = settle id bytes now res1 r1) as -> by congruence.
    unfold settle. by repeat case_match. }
  assert (∀ r1, rt_local_id r1 = rt_local_id r →
    option_bind _ _ (λ '(res, out, r), Some (res, out, settle id bytes now res r)) (deliver id r1)
      = Some (res, out, r') → rt_local_id r' = rt_local_id r) as Hd.
  { intros r1 H1. unfold deliver. destruct (rt_conns r1 !! id) as [c|]; [|done]. cbn [mbind option_bind].
    destruct (Conn_poll_decoded c) as [[[[]|e] msgs] c']; by apply Hs. }
  destruct (rt_conns r !! id) as [c|]; [|by apply Hs].
  destruct (Conn_handle_data bytes eof now c) as [[[[]|e] c1]|]; [|by apply Hs|done].
  cbn [mbind option_bind]. destruct (if Conn_is_closed c1 then None else Conn_peer c1) as [peer|]; [|by apply Hd].
  pose proof (bind_peer_local id peer now (r <| rt_conns ::= insert id c1 |>)) as Hb.
  destruct (bind_peer id peer now _) as [[] r2]; cbn [snd] in Hb; [by apply Hd|by apply Hs].
Qed.

(** ** Runs of the table *)

(** Every call an owner makes. *)
Inductive router_op :=
  | RoLocalId (me : I)
  | RoDial (id : ConnId) (expected : I) (record : R) (now : Instant)
  | RoAccept (id : ConnId) (record : R) (now : Instant)
  | RoRemove (id : ConnId)
  | RoClose (id : ConnId) (reason : option TransportError)
  | RoPollClosed
  | RoReap (now : Instant)
  | RoLiveness (now : Instant)
  | RoData (id : ConnId) (bytes : bytes) (eof : bool) (now : Instant)
  | RoRoute (group : bytes) (generation : u64) (to : I) (msg : Message I)
  | RoRouteCoalesced (to : I) (entries : list (CoalescedEntry I))
  | RoTransmit.

Definition router_op_ok (op : router_op) : Prop :=
  match op with RoDial _ _ record _ | RoAccept _ record _ => record_fresh record | _ => True end.

Definition router_step (op : router_op) r : option PeerRouter :=
  match op with
  | RoLocalId me => Some (set_local_id me r)
  | RoDial id expected record now => Some (register_dial id expected record now r)
  | RoAccept id record now => Some (register_accept id record now r)
  | RoRemove id => Some (PeerRouter_remove id r)
  | RoClose id reason => Some (PeerRouter_close id reason r)
  | RoPollClosed => Some (PeerRouter_poll_conn_closed r).2
  | RoReap now => Some (reap_handshakes now r)
  | RoLiveness now => Some (service_liveness now r)
  | RoData id bytes eof now => snd <$> PeerRouter_handle_conn_data id bytes eof now r
  | RoRoute group generation to msg => Some (PeerRouter_route group generation to msg r).2
  | RoRouteCoalesced to entries => Some (PeerRouter_route_coalesced to entries r).2
  | RoTransmit => Some (PeerRouter_poll_transmit r).2
  end.

Fixpoint router_run (ops : list router_op) r : option PeerRouter :=
  match ops with [] => Some r | op :: ops => r ← router_step op r; router_run ops r end.

Lemma router_new_ok : rt_ok None PeerRouter_new.
Proof.
  assert (∀ id, stage PeerRouter_new id = None) as Hs by (intros id; unfold stage; cbn; by rewrite lookup_empty).
  assert (∀ A, ¬ is_Some (@None A)) as Hn by (intros A [? [=]]).
  split; unfold validated; try setoid_rewrite Hs; cbn; intros *; rewrite ?lookup_empty; naive_solver.
Qed.

Lemma router_step_ok op r :
  router_op_ok op → rt_ok None r → ∃ r', router_step op r = Some r' ∧ rt_ok None r'.
Proof.
  intros Ho Hr. destruct op; cbn [router_step router_op_ok] in *.
  - eexists. split; [done|]. by destruct Hr; split.
  - eexists. split; [done|]. by apply register_ok.
  - eexists. split; [done|]. by apply register_ok.
  - eexists. split; [done|]. by apply router_remove_ok.
  - eexists. split; [done|]. unfold PeerRouter_close. case_decide; [by apply remove_internal_ok|done].
  - eexists. split; [done|]. by destruct Hr; split.
  - eexists. split; [done|]. by apply reap_handshakes_ok.
  - eexists. split; [done|]. by apply service_liveness_ok.
  - destruct (PeerRouter_handle_conn_data_ok id bytes eof now r Hr) as (res & out & r' & -> & Hr' & _). by eexists.
  - eexists. split; [done|]. apply route_with_ok; [done|]. apply Conn_send_message_ok.
  - eexists. split; [done|]. apply route_with_ok; [done|]. apply Conn_send_coalesced_ok.
  - eexists. split; [done|]. by apply poll_transmit_ok.
Qed.

Lemma router_run_ok ops r :
  Forall router_op_ok ops → rt_ok None r → ∃ r', router_run ops r = Some r' ∧ rt_ok None r'.
Proof.
  intros Ho. revert r. induction Ho as [|op ops Hop _ IH]; intros r Hr; [by exists r|].
  destruct (router_step_ok op r Hop Hr) as (r1 & H1 & Hr1). cbn [router_run]. rewrite H1. by apply IH.
Qed.
End inv.
