(* ===== verification/RouterSafety.v ===== *)
(** * What the owner of a router may rely on

    Whatever calls an owner makes: the table is consistent and what a read hands
    over is authentic, housekeeping leaves nothing overdue, and two hosts that
    dialed each other at once keep the same one of the two connections. *)

From S2P Require Import Prelude Bytes Num Conf Data Frame Entry Shape Wire Message Codec RecordIo.
From S2P Require Import Conn Link Endpoint Router RouterInv.

Section safety.
Context {I R : Type} `{!NodeId I, !Data I, !RecordIo R, !RecordIoLaws R}.
Context `{!Buffa PbMessage, !Buffa PbSnapshotMeta, !BuffaSizes, !BuffaWire}.
Abbreviation Conn := (Conn I R).
Abbreviation PeerRouter := (PeerRouter I R).
Implicit Types (r : PeerRouter) (id prev : ConnId) (p peer me : I) (c : Conn).

(** C14: in every router a sequence of calls leads to, the table is consistent
    ([rt_ok]): a peer is bound to a connection exactly when that live connection
    authenticated as it, handshake, silence and probe deadlines exist exactly for
    the connections in those stages, and a dialed connection that is bound
    authenticated as the peer it was dialed to reach.  No call panics: the
    connection a read looks up again after binding is there.  What a read hands
    over comes from the connection read, attributed to the peer whose identity the
    record layer of that connection authenticated; and the connections the read
    lets go of are exactly those it reports as closed, each once. *)
Theorem router_authentic ops id bytes eof now :
  Forall router_op_ok ops →
  ∃ r res out r', router_run ops (PeerRouter_new (I := I) (R := R)) = Some r ∧ rt_ok None r
    ∧ PeerRouter_handle_conn_data id bytes eof now r = Some (res, out, r')
    ∧ rt_ok None r' ∧ drops r r'
    ∧ ∀ group flags generation p msg, (group, flags, generation, p, msg) ∈ out →
        ∃ c c', rt_conns r !! id = Some c ∧ Conn_handle_data bytes eof now c = Some (Ok tt, c')
                ∧ Conn_peer c' = Some p ∧ identified c' p.
Proof.
  intros Hops. destruct (router_run_ok ops PeerRouter_new Hops router_new_ok) as (r & Hrun & Hr).
  destruct (PeerRouter_handle_conn_data_ok id bytes eof now r Hr) as (res & out & r' & Hh & Hr' & Hat).
  exists r, res, out, r'. split_and!; try done. by eapply handle_conn_data_drops.
Qed.

(** ** Deadlines *)

Lemma min_deadline_elem ds t : min_deadline ds = Some t → t ∈ ds.
Proof.
  unfold min_deadline. revert t. induction ds as [|d ds IH]; intros t; [done|]. cbn.
  destruct (foldr option_min None (Some <$> ds)) as [t'|]; cbn.
  - intros [= <-]. destruct (N.min_spec d t') as [[_ ->]|[_ ->]]; [by left|right; by apply IH].
  - intros [= <-]. by left.
Qed.

Lemma deadline_values_elem m t : t ∈ deadline_values m → ∃ id, m !! id = Some t.
Proof.
  unfold deadline_values, conn_iter. intros ([id t'] & -> & Hin)%list_elem_of_fmap. exists id.
  by apply (elem_of_btree_map_iter (NodeId0 := N_NodeId)) in Hin.
Qed.

(** Servicing only takes handshakes away. *)
Lemma remove_all_handshake reason ids r id t :
  rt_handshake_deadline (remove_all reason ids r) !! id = Some t → rt_handshake_deadline r !! id = Some t.
Proof. rewrite (remove_all_lookup _ _ r id _ rt_handshake_deadline) by done. by case_decide. Qed.

Lemma probe_all_handshake now ids r id t :
  rt_handshake_deadline (probe_all now ids r) !! id = Some t → rt_handshake_deadline r !! id = Some t.
Proof.
  revert r. induction ids as [|j ids IH]; intros r; [done|]. intros Ht%IH. revert Ht. unfold probe_conn.
  destruct (rt_conns r !! j); [|done]. destruct (Conn_is_closed _); cbn; [|done]. by intros [_ ?]%lookup_delete_Some.
Qed.

Lemma service_liveness_handshake now r id t :
  rt_handshake_deadline (service_liveness now r) !! id = Some t → rt_handshake_deadline r !! id = Some t.
Proof. intros Ht%probe_all_handshake. by apply remove_all_handshake in Ht. Qed.

(** C16: housekeeping at an instant leaves nothing overdue.  After the overdue
    handshakes are reaped and the liveness of validated connections is serviced,
    every deadline the router asks its owner to be woken at lies in the future, so
    an owner that sleeps until it never spins; the table stays consistent, and
    exactly the connections let go of are reported, each once. *)
Theorem housekeeping_settles ops now :
  Forall router_op_ok ops →
  ∃ r r', router_run ops (PeerRouter_new (I := I) (R := R)) = Some r
    ∧ r' = service_liveness now (reap_handshakes now r) ∧ rt_ok None r' ∧ drops r r'
    ∧ (∀ t, next_handshake_deadline r' = Some t → now < t)
    ∧ (now < Duration_MAX → ∀ t, next_liveness_deadline r' = Some t → now < t).
Proof.
  intros Hops. destruct (router_run_ok ops PeerRouter_new Hops router_new_ok) as (r & Hrun & Hr).
  destruct (reap_handshakes_ok now r Hr) as (Hr1 & Hd1 & Hh1).
  destruct (service_liveness_ok now _ Hr1) as (Hr2 & Hd2 & Hi2 & Hp2).
  exists r, (service_liveness now (reap_handshakes now r)). split_and!; [done..|by etrans| |].
  - intros t [id Ht]%min_deadline_elem%deadline_values_elem. by eapply Hh1, service_liveness_handshake.
  - intros Hnow t Ht%min_deadline_elem. apply elem_of_app in Ht as [[id Ht]%deadline_values_elem|[id Ht]%deadline_values_elem];
      [by eapply Hi2|by eapply Hp2].
Qed.

(** ** Two hosts that dial each other *)

(** A read by which the second of two connections to [peer], one dialed and one
    accepted, authenticates: the other is bound already. *)
Record second_greeting me peer (dialed accepted : ConnId) id (bytes : bytes) (now : Instant) r r' : Prop := {
  sg_ok : rt_ok None r;
  sg_me : rt_local_id r = Some me;
  sg_ids : id = dialed ∧ rt_peer_of r !! peer = Some accepted ∨ id = accepted ∧ rt_peer_of r !! peer = Some dialed;
  sg_distinct : dialed ≠ accepted;
  sg_dialed : rt_provenance r !! dialed = Some (Dialed peer);
  sg_accepted : rt_provenance r !! accepted = Some Accepted;
  sg_greets : ∃ c c', rt_conns r !! id = Some c ∧ Conn_handle_data bytes false now c = Some (Ok tt, c')
                      ∧ cn_state c' = Validated peer;
  sg_read : ∃ out, PeerRouter_handle_conn_data id bytes false now r = Some (Ok tt, out, r');
}.

(** The connection dialed by the lower of the two hosts. *)
Definition survivor me peer (dialed accepted : ConnId) : ConnId :=
  if decide (nid_lt me peer) then dialed else accepted.

Lemma mixed_winner me peer dialed accepted r :
  rt_local_id r = Some me → rt_provenance r !! dialed = Some (Dialed peer) → rt_provenance r !! accepted = Some Accepted →
  duplicate_winner r dialed accepted peer = survivor me peer dialed accepted
  ∧ duplicate_winner r accepted dialed peer = survivor me peer dialed accepted.
Proof.
  intros Hm Hd Ha. unfold duplicate_winner, survivor. rewrite Hm, Hd, Ha. cbn.
  case_bool_decide; [by rewrite decide_True|by rewrite decide_False].
Qed.

(** The read keeps the winner bound and lets the other connection go. *)
Lemma greeting_settles me peer id prev bytes now r r' c c' out :
  rt_ok None r → rt_local_id r = Some me → me ≠ peer → id ≠ prev → rt_peer_of r !! peer = Some prev →
  (rt_provenance r !! id = Some Accepted ∨ rt_provenance r !! id = Some (Dialed peer)) →
  rt_conns r !! id = Some c → Conn_handle_data bytes false now c = Some (Ok tt, c') → cn_state c' = Validated peer →
  PeerRouter_handle_conn_data id bytes false now r = Some (Ok tt, out, r') →
  let w := duplicate_winner r id prev peer in
  (w = id ∨ w = prev) →
  rt_peer_of r' !! peer = Some w ∧ rt_conns r' !! (if decide (w = id) then prev else id) = None.
Proof.
  intros Hr Hme Hne Hid Hprev Hprov Hc Hh Hs Hread w Hw. revert Hread.
  rewrite handle_conn_data_settles. unfold handle_conn_data_inner. rewrite Hc, Hh. cbn [mbind option_bind].
  unfold Conn_is_closed, Conn_peer. rewrite Hs. unfold bind_peer.
  change (rt_local_id (r <| rt_conns ::= _ |>)) with (rt_local_id r).
  change (rt_provenance (r <| rt_conns ::= _ |>)) with (rt_provenance r).
  rewrite Hme, bool_decide_eq_false_2 by congruence.
  assert (match rt_provenance r !! id with
    | Some (Dialed expected) => negb (bool_decide (expected = peer)) | _ => false end = false) as ->
    by (destruct Hprov as [->| ->]; [done|by rewrite bool_decide_eq_true_2]).
  set (r1 := r <| rt_conns ::= insert id c' |> <| rt_handshake_deadline ::= delete id |>). cbn zeta.
  change (rt_peer_of r1) with (rt_peer_of r). rewrite Hprev, decide_False by done.
  change (duplicate_winner r1 id prev peer) with w. destruct (decide (w = prev)) as [Hwp|Hwp].
  - cbn [mbind option_bind]. rewrite settle_gone by (cbn; apply lookup_delete_eq). intros [= <- <-].
    rewrite (decide_False (P := w = id)) by congruence. split; [|cbn; apply lookup_delete_eq].
    change (rt_peer_of (remove_internal id None r1)) with (rt_peer_of (PeerRouter_remove id r1)).
    rewrite peer_of_remove. change (rt_peer_of r1) with (rt_peer_of r). rewrite Hprev, decide_False by congruence. congruence.
  - assert (w = id) as Hwi by naive_solver. rewrite (decide_True (P := w = id)), Hwi by done.
    set (r2 := if bool_decide _ then _ else _).
    assert (rt_conns r2 = delete prev (<[id := c']> (rt_conns r)) ∧ rt_peer_of r2 !! peer = Some id) as [E1 E2].
    { unfold r2. destruct (bool_decide _); (split; [done|cbn; apply lookup_insert_eq]). }
    clearbody r2. assert (rt_conns r2 !! id = Some c') as Hc2 by (rewrite E1, lookup_delete_ne, lookup_insert_eq; done).
    destruct (Conn_handle_data_returns bytes false now c (proj1 (ro_conns _ _ Hr id c Hc))) as (? & ? & Hh' & Hok & _).
    rewrite Hh in Hh'. injection Hh' as <- <-.
    destruct (deliver_ok id c' r2 Hc2 Hok) as (res & out2 & c2 & -> & _ & _ & Hs2). cbn [mbind option_bind].
    intros [= -> -> <-]. unfold settle, conn_is. cbn. rewrite lookup_insert_eq. unfold Conn_is_closed. rewrite Hs2, Hs.
    destruct (_ && _); cbn; rewrite lookup_insert_ne, E1, lookup_delete_eq by done; done.
Qed.

Lemma second_greeting_keeps me peer dialed accepted id bytes now r r' :
  me ≠ peer → second_greeting me peer dialed accepted id bytes now r r' →
  rt_peer_of r' !! peer = Some (survivor me peer dialed accepted)
  ∧ rt_conns r' !! (if decide (nid_lt me peer) then accepted else dialed) = None.
Proof.
  intros Hne [Hr Hme Hids Hd Hpd Hpa (c & c' & Hc & Hh & Hs) (out & Hread)].
  destruct (mixed_winner me peer dialed accepted r Hme Hpd Hpa) as [E1 E2].
  assert (∀ x y : ConnId, survivor me peer x y = x ∨ survivor me peer x y = y) as Hsv
    by (intros x y; unfold survivor; case_decide; auto).
  destruct Hids as [[-> Hp]|[-> Hp]].
  - destruct (greeting_settles me peer dialed accepted bytes now r r' c c' out) as [H1 H2]; rewrite ?E1; auto.
    rewrite E1 in H1, H2. split; [done|]. unfold survivor in H2. case_decide; by case_decide.
  - destruct (greeting_settles me peer accepted dialed bytes now r r' c c' out) as [H1 H2]; rewrite ?E2; auto.
    + destruct (Hsv dialed accepted); auto.
    + rewrite E2 in H1, H2. split; [done|]. unfold survivor in H2. case_decide; by case_decide.
Qed.

Lemma nid_lt_total (a b : I) : a ≠ b → nid_lt a b ∧ ¬ nid_lt b a ∨ nid_lt b a ∧ ¬ nid_lt a b.
Proof.
  intros Hne. pose proof (nid_cmp_eq a b) as He. pose proof (nid_cmp_opp a b) as Ho. unfold nid_lt.
  destruct (nid_cmp a b); cbn in Ho; rewrite Ho; naive_solver.
Qed.

(** C15: two hosts that dial each other at the same time end up on the same physical
    connection, without a word between them.  Connection [x] was dialed by [a] and
    accepted by [b], [y] the other way round; each host gave them its own numbers,
    and each saw the two authenticate in an order of its own.  Once both have seen
    both, either both hosts are bound to [x] and have let go of [y], or both are
    bound to [y] and have let go of [x]: the survivor is the connection the lower
    identifier dialed, not the one with the higher number. *)
Theorem tie_break_agrees (a b : I) (xa ya xb yb ida idb : ConnId) bytes_a bytes_b now_a now_b
    (ra ra' rb rb' : PeerRouter) :
  a ≠ b →
  second_greeting a b xa ya ida bytes_a now_a ra ra' →
  second_greeting b a yb xb idb bytes_b now_b rb rb' →
  (rt_peer_of ra' !! b = Some xa ∧ rt_conns ra' !! ya = None ∧ rt_peer_of rb' !! a = Some xb ∧ rt_conns rb' !! yb = None)
  ∨ (rt_peer_of ra' !! b = Some ya ∧ rt_conns ra' !! xa = None ∧ rt_peer_of rb' !! a = Some yb ∧ rt_conns rb' !! xb = None).
Proof.
  intros Hne [A1 A2]%second_greeting_keeps [B1 B2]%second_greeting_keeps; [|done..]. unfold survivor in *.
  destruct (nid_lt_total a b Hne) as [[Hlt Hn]|[Hlt Hn]].
  - rewrite decide_True in A1, A2 by done. rewrite decide_False in B1, B2 by done. by left.
  - rewrite decide_False in A1, A2 by done. rewrite decide_True in B1, B2 by done. by right.
Qed.
End safety.

(** ** Two hosts

    Hosts 1 and 2 of a cluster dial each other; each hears from the connection it
    accepted first. *)

Module RouterRun.
Import Proto3Wire.
#[local] Existing Instances wire sizes meta message.

Definition cluster : ClusterId := replicate 16 x07.
Definition hello (id : N) : bytes := build_hello cluster (data_encode id).
Definition dialed (id : N) : Plain :=
  Build_Labeled {| pt_inbound := []; pt_outbound := hello id |} cluster (hello id) Dialer [] [] None false.
Definition accepted (id : N) : Plain := Build_Labeled Passthrough_new cluster (hello id) Acceptor [] [] None false.

Definition meet (me peer : N) (d a first : ConnId) : list router_op :=
  [RoLocalId me; RoDial d peer (dialed me) 0; RoAccept a (accepted me) 0; RoData first (hello peer) false 1].

Definition host (me peer : N) (d a first : ConnId) : PeerRouter N Plain :=
  default PeerRouter_new (router_run (meet me peer d a first) PeerRouter_new).

Definition host' (me peer : N) (d a first second : ConnId) : PeerRouter N Plain :=
  match PeerRouter_handle_conn_data second (hello peer) false 2 (host me peer d a first) with
  | Some (_, _, r) => r
  | None => PeerRouter_new
  end.

Lemma meet_ok me peer d a first : Forall router_op_ok (meet me peer d a first).
Proof. repeat constructor. Qed.

Lemma router_authentic_witness :
  ∃ r res out r', router_run (meet 1 2 7 8 8) (PeerRouter_new (I := N) (R := Plain)) = Some r ∧ rt_ok None r
    ∧ PeerRouter_handle_conn_data 7 (hello 2) false 2 r = Some (res, out, r') ∧ drops r r'.
Proof.
  destruct (router_authentic (meet 1 2 7 8 8) 7 (hello 2) false 2 (meet_ok 1 2 7 8 8))
    as (r & res & out & r' & H1 & H2 & H3 & _ & H4 & _). by exists r, res, out, r'.
Defined.

Lemma housekeeping_settles_witness :
  ∃ r r', router_run (meet 1 2 7 8 8) (PeerRouter_new (I := N) (R := Plain)) = Some r
    ∧ r' = service_liveness HANDSHAKE_TIMEOUT (reap_handshakes HANDSHAKE_TIMEOUT r) ∧ rt_ok None r'.
Proof.
  destruct (housekeeping_settles (I := N) (R := Plain) (meet 1 2 7 8 8) HANDSHAKE_TIMEOUT (meet_ok 1 2 7 8 8))
    as (r & r' & H1 & H2 & H3 & _). by exists r, r'.
Defined.

Lemma met_host_ok me peer d a first : rt_ok None (host me peer d a first).
Proof.
  destruct (router_run_ok _ PeerRouter_new (meet_ok me peer d a first) router_new_ok) as (r & E & Hr).
  unfold host. by rewrite E.
Qed.

(** Host 1 heard from 8, which it accepted, before 7, which it dialed; host 2 from
    3, which it accepted, before 4. *)
Lemma host1_greeting : second_greeting 1 2 7 8 7 (hello 2) 2 (host 1 2 7 8 8) (host' 1 2 7 8 8 7).
Proof.
  split; [apply met_host_ok|by vm_compute|left; split; [done|by vm_compute]|done|by vm_compute|by vm_compute| |].
  - eexists _, _. split; [vm_compute; reflexivity|]. split; [vm_compute; reflexivity|]. by vm_compute.
  - eexists. vm_compute; reflexivity.
Qed.

Lemma host2_greeting : second_greeting 2 1 4 3 4 (hello 1) 2 (host 2 1 4 3 3) (host' 2 1 4 3 3 4).
Proof.
  split; [apply met_host_ok|by vm_compute|left; split; [done|by vm_compute]|done|by vm_compute|by vm_compute| |].
  - eexists _, _. split; [vm_compute; reflexivity|]. split; [vm_compute; reflexivity|]. by vm_compute.
  - eexists. vm_compute; reflexivity.
Qed.

Lemma tie_break_agrees_witness :
  rt_peer_of (host' 1 2 7 8 8 7) !! 2 = Some 7 ∧ rt_conns (host' 1 2 7 8 8 7) !! 8 = None
  ∧ rt_peer_of (host' 2 1 4 3 3 4) !! 1 = Some 3 ∧ rt_conns (host' 2 1 4 3 3 4) !! 4 = None.
Proof.
  destruct (tie_break_agrees (R := Plain) 1 2 7 8 3 4 7 4 (hello 2) (hello 1) 2 2 _ _ _ _ ltac:(done) host1_greeting host2_greeting)
    as [H|[H _]]; [exact H|]. exfalso. revert H. by vm_compute.
Defined.
End RouterRun.
