(* ===== verification/Sample.v ===== *)
(** * A concrete node

    The instances the examples run on: nodes named by numbers, a counter as the
    state machine, the group engine's stores, and a three-voter configuration. *)

From S2P Require Import Prelude Bytes Num Quorum Progress ProgressMap Conf Tracker Config Lease.
From S2P Require Import Prng ReadOnly Staging Data Entry Storage EngineLog EngineStable Message.
From S2P Require Import Wire Endpoint.

Module Sample.

(** A counter that adds the commands it applies. *)
#[global] Instance Counter : StateMachine N := {|
  sm_command := N; sm_response := N; sm_snapshot := N; sm_error := unit;
  sm_apply := λ _ c f, (Ok (f + c), f + c);
  sm_take_snapshot := λ f, Ok f;
  sm_restore := λ s _, (Ok tt, s);
  sm_split := λ _ f, (Some f, f);
  sm_absorb := λ g f, (true, f + g);
  sm_supports_split := λ _, true;
  sm_supports_absorb := λ _, true;
|}.

(** One-byte varints: enough for the small values of the examples. *)
#[global] Instance small_sizes : BuffaSizes := {|
  buffa_varint_len := λ _, 1;
  buffa_uint64_encoded_len := λ _, 1;
  buffa_bytes_encoded_len := λ b, 1 + N.of_nat (length b);
  buffa_BOOL_ENCODED_LEN := 1;
|}.

#[global] Instance store : StableStore N (EngineStable N) := EngineStable_StableStore (λ _, true).
#[global] Instance store_laws : StableWriteLaws N (EngineStable N) :=
  EngineStable_StableWriteLaws (λ _, true).

Definition config (id : N) : Config N := config_defaults id [1; 2; 3] 1000 100.

Definition node (id : N) : Endpoint N N Prng :=
  Endpoint_new_with_rng (config id) (Now_monotonic 0) (Prng_new id) 0.

Definition stable : EngineStable N := EngineStable_new 4096.
End Sample.
