(* ===== verification/Merge.v ===== *)
(** * Merge state

    [sailing-proto/src/endpoint/merge.rs]: the queue of freezes observed at
    append, the parked commit, the abandoned merges and the capture debts of an
    endpoint.  The entries that drive them are applied in [Apply]; the container
    reads the predicates. *)

From S2P Require Import Prelude Bytes Num Quorum Progress ProgressMap Conf Tracker Config Lease.
From S2P Require Import Prng ReadOnly Data Entry Storage Shape Restart Message Endpoint.

Definition CROSSING_SCAN_CHUNKS_PER_CRANK : nat := 4.

Inductive AbsorbCaptureBlock := AcbClear | AcbHold | AcbDefer.
Inductive CaptureFence := FenceFrozen | FenceFork | FenceAbort.
Inductive MergeWindow := WindowOpen | WindowAbort | WindowClosed | WindowStall.

#[global] Instance AbsorbCaptureBlock_eq_dec : EqDecision AbsorbCaptureBlock.
Proof. solve_decision. Defined.
#[global] Instance MergeWindow_eq_dec : EqDecision MergeWindow.
Proof. solve_decision. Defined.
#[global] Instance Cover_eq_dec : EqDecision Cover.
Proof. solve_decision. Defined.

(** The derived [Ord]: declaration order. *)
Definition Cover_max (a b : Cover) : Cover :=
  match a, b with
  | CoverInstall, _ | _, CoverInstall => CoverInstall
  | CoverAdopt, _ | _, CoverAdopt => CoverAdopt
  | CoverNone, CoverNone => CoverNone
  end.

Definition AbandonedMerge_is_covered (m : AbandonedMerge) : bool :=
  negb (bool_decide (am_cover m = CoverNone)).

Definition PendingMergeApply_new_parked (source : bytes) (freeze_index : Index) (freeze_term : Term)
    (source_gen_after target_gen_after : u64) (at_ : Index) : PendingMergeApply :=
  {| pma_source_bytes := source; pma_freeze_index := freeze_index; pma_freeze_term := freeze_term;
     pma_source_gen_after := source_gen_after; pma_target_gen_after := target_gen_after;
     pma_at := at_; pma_window_closed := false |}.

(** [BTreeSet::first] *)
Definition first_index_of (s : gset Index) : option Index :=
  set_fold (λ i acc, Some (match acc with Some j => N.min i j | None => i end)) None s.

Definition at_most (bound : Index) (i : option Index) : bool :=
  match i with Some i => i <=? bound | None => false end.

(** ** The freeze queue *)

Fixpoint drop_upto (index : Index) (q : list Index) (cache : gmap Index ClaimRead)
  : list Index * gmap Index ClaimRead :=
  match q with
  | [] => ([], cache)
  | popped :: q' =>
      if index <? popped then (q, cache) else drop_upto index q' (delete popped cache)
  end.

Section merge.
Context {I F R : Type} `{!NodeId I, !StateMachine F, !Rng R} {BD : BuffaDecode}.
Abbreviation Endpoint := (Endpoint I F R).
Implicit Types (e : Endpoint).

Definition freeze_pending e : option Index := head (mrg_freeze_queue (ep_merge e)).

Definition pop_applied_freeze (index : Index) (e : Endpoint) : Endpoint :=
  let '(q, cache) :=
    drop_upto index (mrg_freeze_queue (ep_merge e)) (mrg_claim_cache (ep_merge e)) in
  e <| ep_merge ::= λ m, m <| mrg_freeze_queue := q |> <| mrg_claim_cache := cache |> |>.

Definition clear_freeze_queue (e : Endpoint) : Endpoint :=
  e <| ep_merge ::= λ m, m <| mrg_freeze_queue := [] |> <| mrg_claim_cache := ∅ |> |>.

Definition merge_freeze_active e : bool :=
  negb (bool_decide (mrg_freeze_queue (ep_merge e) = [])) || mrg_frozen (ep_merge e).

Definition note_freeze_appended (index : Index) (e : Endpoint) : Endpoint :=
  let push q := match last q with
                | Some b => if b <? index then q ++ [index] else q
                | None => q ++ [index]
                end in
  e <| ep_merge ::= λ m,
         m <| mrg_freeze_queue ::= push |> <| mrg_claim_cache ::= delete index |> |>.

Definition note_freeze_truncated (truncate_from : Index) (e : Endpoint) : Endpoint :=
  e <| ep_merge ::= λ m,
         m <| mrg_freeze_queue ::= pop_back_while (λ i, truncate_from <=? i) |>
           <| mrg_claim_cache ::= filter (λ p, p.1 < truncate_from) |> |>.

Definition note_freeze_rebaselined (e : Endpoint) : Endpoint :=
  e <| ep_merge ::= λ m, m <| mrg_freeze_queue := [] |> <| mrg_claim_cache := ∅ |> |>.

(** ** Abandoned merges *)

Definition owes_live_thaw e : bool :=
  existsb (λ p, negb (am_discharged p.2)) (map_to_list (mrg_abandoned (ep_merge e))).

Definition holds_witness_debt e : bool :=
  existsb (λ p, am_discharged p.2) (map_to_list (mrg_abandoned (ep_merge e))).

Definition holds_abandoned e : bool := negb (bool_decide (mrg_abandoned (ep_merge e) = ∅)).

Definition abandoned_obligations e : list (bytes * AbandonedMerge) :=
  @btree_map_iter bytes _ bytes_order (mrg_abandoned (ep_merge e)).

Definition live_obligations e : list (bytes * AbandonedMerge) :=
  filter (λ p, am_discharged p.2 = false) (abandoned_obligations e).

Definition abandoned_matches e (source : bytes) (generation : u64) : bool :=
  match mrg_abandoned (ep_merge e) !! source with
  | Some m => am_generation m =? generation
  | None => false
  end.

Definition note_abandoned (source : bytes) (source_gen_after : u64) (at_ : Index) (e : Endpoint)
  : Endpoint :=
  e <| ep_merge ::= λ m,
         m <| mrg_abandoned ::= insert source
                {| am_generation := source_gen_after; am_abort_index := at_;
                   am_cover := CoverNone; am_discharged := false |} |> |>.

Definition note_discharged (source : bytes) (e : Endpoint) : Endpoint :=
  e <| ep_merge ::= λ m,
         m <| mrg_abandoned ::= alter (λ o, o <| am_discharged := true |>) source |> |>.

Definition clear_abandoned (source : bytes) (e : Endpoint) : Endpoint :=
  e <| ep_merge ::= λ m, m <| mrg_abandoned ::= delete source |> |>.

Definition owes_live_thaw_for e (source : bytes) : option u64 :=
  match mrg_abandoned (ep_merge e) !! source with
  | Some m => if am_discharged m then None else Some (am_generation m)
  | None => None
  end.

Definition note_abort_covered (boundary : Index) (cover : Cover) (e : Endpoint) : Endpoint :=
  e <| ep_merge ::= λ m,
         m <| mrg_abandoned ::= fmap (λ o,
                if am_abort_index o <=? boundary
                then o <| am_cover ::= λ c, Cover_max c cover |> else o) |> |>.

(** ** Capture fences *)

Definition abort_fence_source_at e (boundary : Index) : option bytes :=
  fst <$> head (filter (λ p, am_cover p.2 ≠ CoverInstall ∧ am_abort_index p.2 ≤ boundary)
                  (abandoned_obligations e)).

Definition abort_relay_fences e (boundary : Index) : bool :=
  bool_decide (is_Some (abort_fence_source_at e boundary)).

Definition fork_fences e (boundary : Index) : bool :=
  at_most boundary (first_index_of (spl_outstanding (ep_split e))).

Definition capture_blocked_at e (boundary : Index) : bool :=
  bool_decide (is_Some (ss_pending_compact (ep_snapshot e)))
  || bool_decide (is_Some (ss_pending_install (ep_snapshot e)))
  || fork_fences e boundary
  || abort_relay_fences e boundary
  || mrg_frozen (ep_merge e)
  || at_most boundary (freeze_pending e).

Definition capture_fence_at e (boundary : Index) : option CaptureFence :=
  if mrg_frozen (ep_merge e) || at_most boundary (freeze_pending e) then Some FenceFrozen
  else if fork_fences e boundary then Some FenceFork
  else if abort_relay_fences e boundary then Some FenceAbort
  else None.

Definition absorb_capture_block e : AbsorbCaptureBlock :=
  match mrg_pending_apply (ep_merge e) with
  | None => AcbClear
  | Some pending =>
      if bool_decide (is_Some (mrg_capture_debt (ep_merge e))) then AcbHold
      else if bool_decide (is_Some (ss_pending_compact (ep_snapshot e)))
           || bool_decide (is_Some (ss_pending_install (ep_snapshot e)))
           || mrg_frozen (ep_merge e)
           || at_most (pma_at pending) (freeze_pending e)
      then AcbHold
      else if fork_fences e (pma_at pending) || abort_relay_fences e (pma_at pending)
      then AcbDefer
      else AcbClear
  end.

(** ** Capture debts *)

Definition adopt_capture_owed e : bool :=
  bool_decide (is_Some (mrg_adopt_capture_owed (ep_merge e))).

Definition clear_adopt_capture_owed (e : Endpoint) : Endpoint :=
  e <| ep_merge ::= λ m, m <| mrg_adopt_capture_owed := None |> |>.

Definition has_cure_debts e : bool := negb (bool_decide (ep_cure_owed e = ∅)).

Definition capture_debt_chain e : list Merged :=
  option_list (mrg_capture_debt (ep_merge e)) ++ mrg_inherited_debts (ep_merge e).

Definition debt_names_source e (key : bytes) : bool :=
  existsb (λ m, bool_decide (mg_source m = key)) (capture_debt_chain e)
  || existsb (λ p, bool_decide (p = key)) (mrg_recovery_pins (ep_merge e)).

Definition pin_failed_capture (sources : list bytes) (e : Endpoint) : Endpoint :=
  e <| ep_merge ::= λ m, m <| mrg_recovery_pins ::= λ q, q ++ sources |> |>.

Definition holds_recovery_pins e : bool :=
  negb (bool_decide (mrg_recovery_pins (ep_merge e) = [])).

Definition take_capture_debts (e : Endpoint) : list Merged * Endpoint :=
  (capture_debt_chain e,
   e <| ep_merge ::= λ m, m <| mrg_capture_debt := None |> <| mrg_inherited_debts := [] |> |>).

Definition adopt_inherited_debts (debts : list Merged) (e : Endpoint) : Endpoint :=
  e <| ep_merge ::= λ m, m <| mrg_inherited_debts ::= λ q, q ++ debts |> |>.

Definition take_inherited_debts (e : Endpoint) : list Merged * Endpoint :=
  (mrg_inherited_debts (ep_merge e),
   e <| ep_merge ::= λ m, m <| mrg_inherited_debts := [] |> |>).

Definition note_debts_rebaselined (e : Endpoint) : Endpoint :=
  e <| ep_merge ::= λ m, m <| mrg_capture_debt := None |> <| mrg_inherited_debts := [] |> |>.

Definition durable_snapshot_covers e (boundary : Index) : bool :=
  boundary <=? du_durable_snapshot_index (ep_durable e).

Definition pending_compact_boundary e : option Index :=
  (λ p, sm_last_index p.2) <$> ss_pending_compact (ep_snapshot e).

Definition mint_capture_debt (merged : Merged) (e : Endpoint) : Endpoint :=
  e <| ep_merge ::= λ m, m <| mrg_capture_debt := Some merged |> |>.

Definition discharge_capture_debt (e : Endpoint) : option Merged * Endpoint :=
  (mrg_capture_debt (ep_merge e), e <| ep_merge ::= λ m, m <| mrg_capture_debt := None |> |>).

(** ** Resolution of the park *)

Definition latch_merge_window_closed (e : Endpoint) : Endpoint :=
  e <| ep_merge ::= λ m,
         m <| mrg_pending_apply ::= fmap (λ p, p <| pma_window_closed := true |>) |> |>.

Definition merge_park_unresolvable e : option Index :=
  if mrg_park_unresolvable (ep_merge e) then pma_at <$> mrg_pending_apply (ep_merge e) else None.

Definition note_merge_park_unresolvable (unresolvable : bool) (e : Endpoint) : Endpoint :=
  e <| ep_merge ::= λ m, m <| mrg_park_unresolvable := unresolvable |> |>.

(** The crossing walk is forgotten with the park. *)
Definition clear_park (e : Endpoint) : Endpoint :=
  e <| ep_merge ::= λ m,
         m <| mrg_pending_apply := None |> <| mrg_crossings := [] |>
           <| mrg_crossing_scan_upto := 0 |> <| mrg_crossing_scan_current := false |>
           <| mrg_crossing_witnesses := ∅ |> |>.

Definition push_event (ev : Event I sm_response) (e : Endpoint) : Endpoint :=
  e <| ep_outputs ::= λ o, o <| ou_events ::= λ q, q ++ [ev] |> |>.

Definition raise_shape_gen (g : u64) (e : Endpoint) : Endpoint :=
  e <| ep_split ::= λ s, s <| spl_shape_gen ::= λ x, N.max x g |> |>.

Definition resolve_pending_merge (source_fsm : F) (e : Endpoint) : option Merged * Endpoint :=
  match mrg_pending_apply (ep_merge e) with
  | None => (None, e)
  | Some pending =>
      let e := clear_park e in
      let '(absorbed, fsm) := sm_absorb source_fsm (ep_fsm e) in
      let e := e <| ep_fsm := fsm |> in
      if negb absorbed then (None, poison MergeUnsupported e)
      else
        let e := raise_shape_gen (pma_target_gen_after pending)
                   (e <| ep_applied := pma_at pending |>) in
        let e := e <| ep_merge ::= λ m, m <| mrg_absorb_index := Some (pma_at pending) |> |> in
        (Some {| mg_index := pma_at pending; mg_source := pma_source_bytes pending;
                 mg_gen_after := spl_shape_gen (ep_split e) |}, e)
  end.

Definition emit_merged (m : Merged) (e : Endpoint) : Endpoint := push_event (EvMerged m) e.

Definition resolve_pending_merge_aborted (e : Endpoint) : Endpoint :=
  match mrg_pending_apply (ep_merge e) with
  | None => e
  | Some pending =>
      let e := clear_park e in
      push_event (EvMergeAborted (pma_at pending) (pma_source_bytes pending)
                    (spl_shape_gen (ep_split e)))
        (e <| ep_applied := pma_at pending |>)
  end.

(** ** Fences in flight *)

Definition conf_change_in_flight e : bool := ep_applied e <? ep_pending_conf_index e.

Definition commit_merge_in_flight e : bool :=
  ep_applied e <? mrg_pending_commit_index (ep_merge e).

Definition rollback_in_flight e : bool :=
  ep_applied e <? mrg_pending_rollback_index (ep_merge e).

Definition in_flight e (i : Index) : option Index := if ep_applied e <? i then Some i else None.

Definition thaw_in_flight e : option Index := in_flight e (mrg_thaw_pending_index (ep_merge e)).

Definition note_thaw_appended (index : Index) (e : Endpoint) : Endpoint :=
  e <| ep_merge ::= λ m, m <| mrg_thaw_pending_index := index |> |>.

Definition witness_in_flight e : option Index :=
  in_flight e (mrg_witness_pending_index (ep_merge e)).

Definition note_witness_appended (index : Index) (e : Endpoint) : Endpoint :=
  e <| ep_merge ::= λ m, m <| mrg_witness_pending_index := index |> |>.

Definition peers_matched_through e (boundary : Index) : bool :=
  forallb (λ p, bool_decide (p.1 = cfg_id (ep_config e)) || (boundary <=? pr_match_index p.2))
    (tr_progress (ep_tracker e)).

(** ** Reads of the log *)

Section reads.
Context {L : Type} `{!LogStore L}.
Implicit Types (log : L).

(** One entry, at its index, when the store answers it at once. *)
Definition read_at log (i : Index) : option (list Entry) :=
  match log_entries log i (counter_next i) 1048576 with
  | Ok (Ready (x :: es)) => Some (x :: es)
  | _ => None
  end.

Definition merge_abort_window e log : MergeWindow :=
  match mrg_pending_apply (ep_merge e) with
  | None => WindowStall
  | Some pending =>
      let coord := counter_next (pma_at pending) in
      if ep_commit e <? coord then WindowOpen
      else match read_at log coord with
           | Some (entry :: _) =>
               if decide (e_kind entry ≠ EkRollbackMerge) then WindowClosed
               else match decode_rollback_merge_payload (e_data entry) with
                    | Ok p =>
                        if negb (RollbackMergePayload_is_unfreeze p)
                           && bool_decide (rm_source p = pma_source_bytes pending)
                           && (rm_source_gen_after p =? pma_source_gen_after pending)
                        then WindowAbort else WindowClosed
                    | Err _ => WindowClosed
                    end
           | _ => WindowStall
           end
  end.

Definition pending_commit_source e log : option (bytes * u64) :=
  match read_at log (mrg_pending_commit_index (ep_merge e)) with
  | Some (entry :: _) =>
      if decide (e_kind entry ≠ EkCommitMerge) then None
      else match decode_commit_merge_payload (e_data entry) with
           | Ok payload => Some (cm_source payload, cm_source_gen_after payload)
           | Err _ => None
           end
  | _ => None
  end.

(** The rebuild of the freeze queue; the fuel is one read per index. *)
Definition scan_freeze_pending log (applied : Index) : option (result (list Index) PoisonReason) :=
  scan_loop (λ queue x, if decide (e_kind x = EkPrepareMerge) then queue ++ [e_index x] else queue)
    (S (N.to_nat (log_last_index log + 1 - counter_next applied)))
    log (log_last_index log) (counter_next applied) [].

Definition read_claim log (idx commit : Index) : result ClaimRead PoisonReason :=
  match read_at log idx with
  | None => Err LogRead
  | Some read =>
      match find (λ x, (e_index x =? idx) && bool_decide (e_kind x = EkPrepareMerge)) read with
      | None => Err LogRead
      | Some x =>
          match shape_entry_move x with
          | Valid _ =>
              match decode_prepare_merge_payload (e_data x) with
              | Ok payload => Ok (Claim (pm_target payload))
              | Err _ => Err LogRead
              end
          | _ => Ok (if idx <=? commit then RefusedCommitted else RefusedAbove commit)
          end
      end
  end.

Fixpoint scan_claims log (commit : Index) (queued : list Index) (claims : list bytes)
    (cache : gmap Index ClaimRead) : result (list bytes) PoisonReason * gmap Index ClaimRead :=
  match queued with
  | [] => (Ok claims, cache)
  | idx :: queued =>
      let cached :=
        match cache !! idx with
        | Some (RefusedAbove _) as c => if idx <=? commit then None else c
        | c => c
        end in
      let verdict :=
        match cached with
        | Some v => Ok (v, cache)
        | None =>
            match read_claim log idx commit with
            | Ok v => Ok (v, <[idx := v]> cache)
            | Err r => Err r
            end
        end in
      match verdict with
      | Err r => (Err r, cache)
      | Ok (Claim claim, cache) => scan_claims log commit queued (claims ++ [claim]) cache
      | Ok (RefusedCommitted, cache) => (Ok claims, cache)
      | Ok (RefusedAbove _, cache) => (Err MergeDecode, cache)
      end
  end.

Definition scan_freeze_claims log (e : Endpoint) : result (list bytes) PoisonReason * Endpoint :=
  let '(r, cache) :=
    scan_claims log (ep_commit e) (mrg_freeze_queue (ep_merge e)) []
      (mrg_claim_cache (ep_merge e)) in
  (r, e <| ep_merge ::= λ m, m <| mrg_claim_cache := cache |> |>).

(** ** The crossing walk *)

Definition crossing_stop (e : Endpoint) : Endpoint :=
  e <| ep_merge ::= λ m, m <| mrg_crossing_scan_current := false |> |>.

(** The entries of one chunk; [false] is a refused payload. *)
Fixpoint crossing_chunk (chunk : list Entry) (e : Endpoint) : bool * Endpoint :=
  match chunk with
  | [] => (true, e)
  | x :: chunk =>
      match e_kind x with
      | EkCommitMerge =>
          match decode_commit_merge_payload (e_data x) with
          | Ok p =>
              crossing_chunk chunk
                (e <| ep_merge ::= λ m,
                        m <| mrg_crossings ::= λ q, q ++ [(cm_source p, e_index x)] |> |>)
          | Err _ => (false, poison MergeDecode (crossing_stop e))
          end
      | EkThawDischarged =>
          match decode_thaw_discharged_payload (e_data x) with
          | Ok p =>
              let key := (td_source p, td_generation p) in
              crossing_chunk chunk
                (if abandoned_matches e (td_source p) (td_generation p)
                    && bool_decide (mrg_crossing_witnesses (ep_merge e) !! key = None)
                 then e <| ep_merge ::= λ m,
                             m <| mrg_crossing_witnesses ::= insert key (e_index x) |> |>
                 else e)
          | Err _ => (false, poison MergeDecode (crossing_stop e))
          end
      | _ => crossing_chunk chunk e
      end
  end.

(** At most [CROSSING_SCAN_CHUNKS_PER_CRANK] reads a call. *)
Fixpoint crossing_loop (chunks : nat) log (last_ idx : Index) (e : Endpoint) : Endpoint :=
  if last_ <? idx then e <| ep_merge ::= λ m, m <| mrg_crossing_scan_current := true |> |>
  else match chunks with
       | O => crossing_stop e
       | S chunks =>
           let read_end := N.min (counter_next last_) (saturating_add idx MAX_READ_BATCH_ENTRIES) in
           match log_entries log idx read_end 1048576 with
           | Ok (Ready chunk) =>
               match last chunk with
               | None => crossing_stop e
               | Some x =>
                   let '(ok, e) := crossing_chunk chunk e in
                   if ok then
                     crossing_loop chunks log last_ (counter_next (e_index x))
                       (e <| ep_merge ::= λ m, m <| mrg_crossing_scan_upto := e_index x |> |>)
                   else e
               end
           | Ok _ => crossing_stop e
           | Err _ => poison LogRead (crossing_stop e)
           end
       end.

Definition advance_crossing_scan log (e : Endpoint) : Endpoint :=
  match mrg_pending_apply (ep_merge e) with
  | None => e
  | Some pending =>
      crossing_loop CROSSING_SCAN_CHUNKS_PER_CRANK log (N.min (log_last_index log) (ep_commit e))
        (counter_next (N.max (mrg_crossing_scan_upto (ep_merge e)) (pma_at pending))) e
  end.

Definition merge_conf_fence e log : bool :=
  (ep_applied e <? mrg_pending_commit_index (ep_merge e))
  || bool_decide (is_Some (mrg_pending_apply (ep_merge e)))
  || match mrg_absorb_index (ep_merge e) with
     | Some k => log_first_index log <=? k
     | None => false
     end.
End reads.

Definition crossing_walk_covers e (boundary : Index) : bool :=
  mrg_crossing_scan_current (ep_merge e)
  && (boundary <=? N.max (mrg_crossing_scan_upto (ep_merge e))
                         (from_option pma_at 0 (mrg_pending_apply (ep_merge e)))).

Definition crossing_sources e : list bytes := fst <$> mrg_crossings (ep_merge e).

(** [partition_point] on a list in log order: the longest prefix at or below. *)
Fixpoint last_at_most (boundary : Index) (q : list (bytes * Index)) (acc : option Index)
  : option Index :=
  match q with
  | (_, absorb) :: q => if absorb <=? boundary then last_at_most boundary q (Some absorb) else acc
  | [] => acc
  end.

Definition crossing_absorb_at e (boundary : Index) : option Index :=
  if crossing_walk_covers e boundary
  then last_at_most boundary (mrg_crossings (ep_merge e)) None else None.
End merge.

(** * The fork queue of a split

    The operations by which the layer above takes the child groups a committed
    split produced, [sailing-proto/src/endpoint/split.rs], and the progress
    probes of [endpoint/mod.rs] that the same layer reads. *)

Record PeerProgress := {
  pp_match_index : Index;
  pp_next_index : Index;
  pp_state : ProgressState;
  pp_paused : bool;
}.

Section split.
Context {I F R : Type} `{!NodeId I, !StateMachine F, !Rng R}.
Abbreviation Endpoint := (Endpoint I F R).
Implicit Types (e : Endpoint).

Definition peek_pending_fork e : option (PendingFork (I := I)) := head (spl_pending_forks (ep_split e)).

(** [None] is the panic of the [expect] on the second queue. *)
Definition pop_pending_fork e : option (option (PendingFork * F) * Endpoint) :=
  match spl_pending_forks (ep_split e) with
  | [] => Some (None, e)
  | fork :: forks =>
      match spl_forked_fsms (ep_split e) with
      | [] => None
      | fsm :: fsms =>
          Some (Some (fork, fsm),
                e <| ep_split ::= λ s,
                       s <| spl_pending_forks := forks |>
                         <| spl_abandoned ::= λ a, a ∖ {[ pf_index fork ]} |>
                         <| spl_forked_fsms := fsms |> |>)
      end
  end.

Definition resolve_fork (index : Index) (e : Endpoint) : Endpoint :=
  e <| ep_split ::= λ s, s <| spl_outstanding ::= λ o, o ∖ {[ index ]} |> |>.

Definition staged_forks e : list PendingFork := spl_pending_forks (ep_split e).

Definition mark_fork_abandoned (index : Index) (e : Endpoint) : Endpoint :=
  e <| ep_split ::= λ s, s <| spl_abandoned ::= λ a, {[ index ]} ∪ a |> |>.

Definition head_fork_is_abandoned e : bool :=
  match head (spl_pending_forks (ep_split e)) with
  | Some f => bool_decide (pf_index f ∈ spl_abandoned (ep_split e))
  | None => false
  end.

Definition fork_barrier_standing e : bool := negb (bool_decide (spl_outstanding (ep_split e) = ∅)).

Definition fork_obligations_standing e : bool :=
  negb (bool_decide (spl_outstanding (ep_split e) = ∅))
  || match spl_pending_forks (ep_split e) with [] => false | _ => true end.

Definition seed_lineage (generation : u64) (e : Endpoint) : Endpoint :=
  e <| ep_split ::= λ s,
         s <| spl_shape_gen := generation |>
           <| spl_restored_lineage := generation |>
           <| spl_founding_gen := generation |> |>.

Definition split_in_flight e : bool := ep_applied e <? spl_pending_split_index (ep_split e).

Definition split_reserves (child_bytes : bytes) e : bool :=
  (split_in_flight e
   && negb (bool_decide (spl_pending_split_child (ep_split e) = []))
   && bool_decide (spl_pending_split_child (ep_split e) = child_bytes))
  || existsb (λ f, bool_decide (pf_child_bytes f = child_bytes)) (spl_pending_forks (ep_split e)).

(** ** Progress probes *)

Definition peer_progress (peer : I) e : option PeerProgress :=
  p ← Tracker_progress (ep_tracker e) peer;
  Some {| pp_match_index := pr_match_index p; pp_next_index := pr_next_index p;
          pp_state := pr_state p; pp_paused := Progress_is_paused p |}.

Definition has_lagging_peer e : bool :=
  if negb (Role_is_leader (ep_role e)) then false
  else
    let me := cfg_id (ep_config e) in
    match Tracker_progress (ep_tracker e) me with
    | None => true
    | Some p =>
        existsb (λ '(id, q), bool_decide (id ≠ me)
                             && (negb (bool_decide (pr_state q = Replicate))
                                 || (pr_match_index q <? pr_match_index p)))
          (tr_progress (ep_tracker e))
    end.

Definition has_pending_farewells e : bool :=
  Role_is_leader (ep_role e) && negb (bool_decide (ep_pending_farewells e = ∅)).

(** ** What the two queues promise each other *)

(** Each fork has its half of the state machine. *)
Definition fork_queues_wf e : Prop :=
  length (spl_pending_forks (ep_split e)) = length (spl_forked_fsms (ep_split e)).

Lemma pop_pending_fork_total e :
  fork_queues_wf e →
  ∃ r e', pop_pending_fork e = Some (r, e') ∧ fork_queues_wf e' ∧ (r = None ↔ staged_forks e = []).
Proof.
  unfold fork_queues_wf, pop_pending_fork, staged_forks. intros H.
  destruct (spl_pending_forks (ep_split e)) as [|f fs] eqn:Hf.
  - exists None, e. split_and!; [done| |done]. by rewrite Hf.
  - destruct (spl_forked_fsms (ep_split e)) as [|g gs] eqn:Hg; [done|].
    eexists _, _. split_and!; [reflexivity| |done]. cbn in *. congruence.
Qed.
End split.
