(* ===== verification/Invariant.v ===== *)
(** * What every step of an endpoint keeps

    [ep_wf] is the well-formedness of an endpoint's state: the indices are
    ordered, a parked merge sits between them, the queues of a split agree, the
    membership is valid, and so is every snapshot on its way in.  [ep_step]
    relates two states of one node: its configuration is fixed, the first reason
    to fail-stop is kept, and a well-formed state stays well formed with its
    term and its commit and applied indices never moving back. *)

From S2P Require Import Prelude Bytes Num Quorum Progress ProgressMap Conf Tracker ConfChange.
From S2P Require Import ConfChangeProps Config Prng Entry Storage Restart Message Endpoint Merge.

(** ** The membership *)

Section conf_inv.
Context {I : Type} `{!NodeId I}.
Implicit Types (tr : Tracker I).

Lemma conf_inv_progress_mut id f tr : conf_inv tr → conf_inv (Tracker_progress_mut id f tr).
Proof. intros [Hwf Hne]. split; [by apply Tracker_progress_mut_spec|done]. Qed.

Lemma conf_inv_reset_progress next m b tr :
  conf_inv tr → conf_inv (Tracker_reset_progress next m b tr).
Proof. intros [Hwf Hne]. split; [by apply Tracker_reset_progress_spec|done]. Qed.

Lemma conf_inv_reset_recent_active l tr :
  conf_inv tr → conf_inv (Tracker_reset_recent_active l tr).
Proof. intros [Hwf Hne]. split; [by apply Tracker_reset_recent_active_spec|done]. Qed.

Lemma conf_inv_from_conf_state cs last m b :
  ConfState_is_valid cs = true → conf_inv (Tracker_from_conf_state cs last m b).
Proof.
  intros Hcs%ConfState_is_valid_spec. split; [by apply Tracker_from_conf_state_wf|]. by destruct Hcs.
Qed.
End conf_inv.

Create HintDb conf_inv.
#[export] Hint Resolve conf_inv_progress_mut conf_inv_reset_progress conf_inv_reset_recent_active
  : conf_inv.

Section invariant.
Context {I F R : Type} `{!NodeId I, !StateMachine F}.
Abbreviation Endpoint := (Endpoint I F R).
Implicit Types (e : Endpoint).

(** A snapshot that was admitted: its membership is valid, and it is of this
    node's lineage, or the node has none. *)
Definition admitted e (m : SnapshotMeta I) : Prop :=
  ConfState_is_valid (sm_conf m) = true ∧ is_u64 (sm_last_index m)
  ∧ (is_poisoned e = false →
     sm_fork_id m = spl_fork_id (ep_split e) ∨ spl_fork_id (ep_split e) = None).

(** A frozen group knows the entry that froze it. *)
Definition freeze_view (ms : MergeState) : bool * option Index * option Term :=
  (mrg_frozen ms, mrg_freeze_index ms, mrg_freeze_term ms).

Definition freeze_wf (v : bool * option Index * option Term) : Prop :=
  v.1.1 = true → is_Some v.1.2 ∧ is_Some v.2.

Record ep_wf e : Prop := {
  wf_term : is_u64 (ep_term e);
  wf_applied : ep_applied e ≤ ep_commit e;
  wf_bound : is_u64 (ep_applied e);
  wf_park : ∀ p, mrg_pending_apply (ep_merge e) = Some p →
    ep_applied e ≤ pma_at p ∧ pma_at p ≤ ep_commit e ∧ is_u64 (pma_at p);
  wf_freeze : freeze_wf (freeze_view (ep_merge e));
  wf_forks : fork_queues_wf e;
  wf_tracker : conf_inv (ep_tracker e);
  wf_recv : ∀ r, ss_snapshot_recv (ep_snapshot e) = Some r →
    ConfState_is_valid (sm_conf (sv_meta r)) = true;
  wf_install : ∀ o m s l, ss_pending_install (ep_snapshot e) = Some (o, m, s, l) → admitted e m;
  wf_poison : is_poisoned e = bool_decide (is_Some (po_poison_reason (ep_poison e)));
}.

Record ep_step e e' : Prop := {
  st_config : ep_config e' = ep_config e;
  st_poison : ∀ r, po_poison_reason (ep_poison e) = Some r →
    po_poison_reason (ep_poison e') = Some r;
  st_wf : ep_wf e → ep_wf e' ∧ ep_term e ≤ ep_term e'
    ∧ ep_commit e ≤ ep_commit e' ∧ ep_applied e ≤ ep_applied e';
}.

#[global] Instance ep_step_refl : Reflexive ep_step.
Proof. intros e. by constructor. Qed.

#[global] Instance ep_step_trans : Transitive ep_step.
Proof.
  intros a b c [? ? H1] [? ? H2]. constructor; [congruence|auto|].
  intros Hwf. destruct (H1 Hwf) as (Hb & ? & ? & ?). destruct (H2 Hb) as (? & ? & ? & ?).
  split; [done|lia].
Qed.

(** ** The observed part of the state *)

(** [ep_step] sees no other field. *)
Record same_view e e' : Prop := {
  sv_config : ep_config e' = ep_config e;
  sv_term : ep_term e' = ep_term e;
  sv_poison : ep_poison e' = ep_poison e;
  sv_commit : ep_commit e' = ep_commit e;
  sv_applied : ep_applied e' = ep_applied e;
  sv_park : mrg_pending_apply (ep_merge e') = mrg_pending_apply (ep_merge e);
  sv_freeze : freeze_view (ep_merge e') = freeze_view (ep_merge e);
  sv_forks : spl_pending_forks (ep_split e') = spl_pending_forks (ep_split e);
  sv_fsms : spl_forked_fsms (ep_split e') = spl_forked_fsms (ep_split e);
  sv_fork_id : spl_fork_id (ep_split e') = spl_fork_id (ep_split e);
  sv_tracker : ep_tracker e' = ep_tracker e;
  sv_recv : ss_snapshot_recv (ep_snapshot e') = ss_snapshot_recv (ep_snapshot e);
  sv_install : ss_pending_install (ep_snapshot e') = ss_pending_install (ep_snapshot e);
}.

Lemma ep_wf_same_view e e' : same_view e e' → ep_wf e → ep_wf e'.
Proof.
  intros [? Hte Hp Hc Ha Hm Hz Hf Hg Hi Ht Hr Hn] [].
  constructor; unfold fork_queues_wf, is_poisoned in *; rewrite ?Hte, ?Hp, ?Hc, ?Ha, ?Hm, ?Hz, ?Hf, ?Hg, ?Ht, ?Hr, ?Hn;
    try done.
  intros o m s l Hs. pose proof (wf_install0 o m s l Hs) as Ha'. revert Ha'.
  unfold admitted, is_poisoned. by rewrite Hp, Hi.
Qed.

Lemma ep_step_same_view e e' : same_view e e' → ep_step e e'.
Proof.
  intros Hv. pose proof (ep_wf_same_view e e' Hv) as Hwf. destruct Hv. constructor; try done.
  - intros r. congruence.
  - intros ?. split; [auto|lia].
Qed.

(** ** Updates of the observed part *)

Lemma ep_step_tracker e t :
  (conf_inv (ep_tracker e) → conf_inv t) → ep_step e (e <| ep_tracker := t |>).
Proof. intros Ht. constructor; try done. intros []. split; [constructor; try done; auto|by split_and!]. Qed.

Lemma ep_step_commit e c : ep_commit e ≤ c → ep_step e (e <| ep_commit := c |>).
Proof.
  intros Hc. constructor; try done. intros []. split; [constructor; try done|by split_and!].
  - change (ep_applied e ≤ c). lia.
  - intros p Hp. destruct (wf_park0 p Hp) as (? & ? & ?). change (ep_applied e ≤ pma_at p ∧ pma_at p ≤ c ∧ is_u64 (pma_at p)).
    split_and!; [done|lia|done].
Qed.

Lemma ep_step_poison e r : ep_step e (poison r e).
Proof.
  constructor; try done.
  - intros r' Hr. cbn. by rewrite Hr.
  - intros []. split; [constructor; try done|by split_and!].
    intros o m s l Hs. by destruct (wf_install0 o m s l Hs) as (? & ? & _).
Qed.

(** Moving the term up. *)
Lemma ep_step_term e t :
  (is_u64 (ep_term e) → ep_term e ≤ t ∧ is_u64 t) → ep_step e (e <| ep_term := t |>).
Proof.
  intros Ht. constructor; try done. intros []. destruct (Ht wf_term0).
  split; [by constructor|by split_and!].
Qed.

(** Advancing [applied] within the committed range, with no park standing. *)
Lemma ep_step_applied e i :
  mrg_pending_apply (ep_merge e) = None →
  (ep_wf e → ep_applied e ≤ i ∧ i ≤ ep_commit e ∧ is_u64 i) →
  ep_step e (e <| ep_applied := i |>).
Proof.
  intros Hm Hi. constructor; try done. intros Hwf. destruct (Hi Hwf) as (? & ? & ?). destruct Hwf.
  split; [constructor; try done|by split_and!].
  intros p Hp. change (mrg_pending_apply (ep_merge e) = Some p) in Hp. congruence.
Qed.
End invariant.

Create HintDb ep_step.
