(* ===== verification/Persistence.v ===== *)
(** * The durability seam

    [sailing-proto/src/endpoint/persistence.rs]: the queues of actions that wait
    for a completion, the two submission choke points, the watermarks that say
    what is durable, and the acknowledgements that are withheld until it is.
    [handle_storage]'s drain is not here: it applies committed entries. *)

From S2P Require Import Prelude Bytes Num Config Entry Storage Restart Message Endpoint.

(** The front, else the first entry with the id. *)
Fixpoint take_by_opid {A} (opid : OpId) (q : list (OpId * A)) : option A * list (OpId * A) :=
  match q with
  | [] => (None, [])
  | (id, a) :: q =>
      if decide (id = opid) then (Some a, q)
      else let '(r, q) := take_by_opid opid q in (r, (id, a) :: q)
  end.

Section persistence.
Context {I F R : Type} `{!NodeId I, !StateMachine F}.
Abbreviation Endpoint := (Endpoint I F R).
Implicit Types (e : Endpoint).

Definition push_pending (opid : OpId) (action : Pending I) (e : Endpoint) : Endpoint :=
  match action with
  | FollowerAck _ _ | LeaderAppend _ => e <| ep_pending_log ::= λ q, q ++ [(opid, action)] |>
  | CastVote _ _ | Campaign _ => e <| ep_pending_stable ::= λ q, q ++ [(opid, action)] |>
  end.

Definition take_log_pending (opid : OpId) (e : Endpoint) : option (Pending I) * Endpoint :=
  let '(p, q) := take_by_opid opid (ep_pending_log e) in (p, e <| ep_pending_log := q |>).

Definition take_stable_pending (opid : OpId) (e : Endpoint) : option (Pending I) * Endpoint :=
  let '(p, q) := take_by_opid opid (ep_pending_stable e) in (p, e <| ep_pending_stable := q |>).

Definition ack_watermark e : Index :=
  N.max (du_durable_index (ep_durable e)) (du_durable_snapshot_index (ep_durable e)).

Definition durable_commit e : Index := N.min (ep_commit e) (du_durable_index (ep_durable e)).

(** ** Submissions *)

(** The lease floors one appended entry raises. *)
Definition fold_lease_floors (g : LeaseGuardState) (en : Entry) : LeaseGuardState :=
  let w := e_lease_window en in
  let g := g <| lg_max_lease_window ::= λ m, N.max m w |> in
  let g := if negb (e_wall_timestamp en =? 0) && (0 <? w)
           then g <| lg_max_wall_plus_window ::=
                       λ m, N.max m (saturating_add (e_wall_timestamp en) w) |>
           else g in
  if (0 <? w) && (e_wall_timestamp en =? 0)
  then g <| lg_max_unwalled_lease_window ::= λ m, N.max m w |>
  else g.

Definition submit_append {L : Type} `{!LogStore L} (id : OpId) (entries : list Entry)
    (log : L) (e : Endpoint) : L * Endpoint :=
  if is_poisoned e then (log, e)
  else
    let log := log_submit_append id entries log in
    let e := e <| ep_lease_guard ::= λ g, foldl fold_lease_floors g entries |> in
    (log, match last entries with
          | Some en => e <| ep_durable ::= λ d,
                              d <| du_inflight_append_upto ::= λ q, q ++ [(id, e_index en)] |> |>
          | None => e
          end).

(** [Option<Duration>]'s derived order puts [None] first. *)
Definition option_ltb (a b : option Duration) : bool :=
  match a, b with
  | None, Some _ => true
  | Some x, Some y => x <? y
  | _, None => false
  end.

Definition cap_ack (boundary : Index) (a : option (I * Term * Index)) : option (I * Term * Index) :=
  match a with
  | Some (to, term, proven) => if boundary <? proven then Some (to, term, boundary) else a
  | None => None
  end.

Definition acks_at_most (boundary : Index) (o : Outgoing I) : bool :=
  match out_message o with
  | MAppendResponse a => negb (negb (ar_reject a) && (boundary <? ar_match_index a))
  | _ => true
  end.

Definition keeps_pending (boundary : Index) (p : Pending I) : bool :=
  match p with FollowerAck _ match_index => match_index <=? boundary | _ => true end.

Definition scrub_acks_above (boundary : Index) (e : Endpoint) : Endpoint :=
  e <| ep_outputs ::= λ o,
         o <| ou_outgoing ::= λ q, filter (λ m, acks_at_most boundary m = true) q |> |>
    <| ep_pending_log ::= λ q, filter (λ p, keeps_pending boundary p.2 = true) q |>
    <| ep_durable ::= λ d,
         d <| du_term_gated_append_ack ::= cap_ack boundary |>
           <| du_term_gated_snapshot_ack ::= cap_ack boundary |> |>.

Definition stamp_floors e (hs : HardState I) : HardState I :=
  let raised := LeaseSupport_raise (du_lease_support_floor (ep_durable e))
                  (hs_lease_support hs) in
  let founding := N.max (hs_founding_gen hs) (spl_founding_gen (ep_split e)) in
  HardState_with_founding_gen founding
    (HardState_with_lineage (spl_fork_id (ep_split e))
       (HardState_with_lease_support raised hs)).

(** The watermarks of one write. *)
Definition note_submitted (id : OpId) (hs : HardState I) (d : Durability I) : Durability I :=
  let d := if du_last_submitted_term d <? hs_term hs
           then d <| du_last_submitted_term := hs_term hs |> <| du_term_persist_opid := id |>
           else d in
  let promised := LeaseSupport_promised (hs_lease_support hs) in
  let d := if option_ltb (du_last_submitted_lease_support d) promised
           then d <| du_last_submitted_lease_support := promised |>
                  <| du_lease_support_persist_opid := id |>
           else d in
  let d := if du_last_submitted_commit d <? hs_commit hs
           then d <| du_last_submitted_commit := hs_commit hs |> <| du_commit_persist_opid := id |>
           else d in
  d <| du_last_submitted_vote := hs_vote hs |>.

Section stable.
Context {S : Type} `{!StableStore I S}.
Implicit Types stable : S.

Definition submit_write (id : OpId) (hard_state : HardState I) (stable : S) (e : Endpoint)
  : S * Endpoint :=
  if is_poisoned e then (stable, e)
  else
    let hs := stamp_floors e hard_state in
    (stable_submit_write id hs stable, e <| ep_durable ::= note_submitted id hs |>).

(** The hard state every writer builds: what the store shows, with the current
    term, vote and durable commit. *)
Definition current_hard_state e (base : HardState I) : HardState I :=
  HardState_with_commit (durable_commit e)
    (HardState_with_vote (ep_voted_for e) (HardState_with_term (ep_term e) base)).

(** Mint, build, submit and note the commit as persisted. *)
Definition persist_hard_state (base : HardState I) (stable : S) (e : Endpoint)
  : OpId * S * Endpoint :=
  let '(opid, e) := mint_op_id e in
  let '(stable, e) := submit_write opid (current_hard_state e base) stable e in
  (opid, stable, e <| ep_durable ::= λ d, d <| du_committed_persisted := durable_commit e |> |>).

Definition submit_founding_stamp (stable : S) (e : Endpoint) : S * Endpoint :=
  let '(opid, e) := mint_op_id e in
  submit_write opid HardState_initial stable e.

Definition persist_commit_floor (stable : S) (e : Endpoint) : S * Endpoint :=
  if is_poisoned e || (durable_commit e <=? du_committed_persisted (ep_durable e))
  then (stable, e)
  else let '(_, stable, e) := persist_hard_state (stable_hard_state stable) stable e in
       (stable, e).

Definition matches_state e (term : Term) (vote : option I) (floor : option Duration) : bool :=
  (term =? ep_term e) && bool_decide (vote = ep_voted_for e)
  && bool_decide (floor = du_lease_support_floor (ep_durable e)).

Definition ensure_term_durable (stable : S) (e : Endpoint) : S * Endpoint :=
  if is_poisoned e then (stable, e)
  else
    let durable := stable_hard_state stable in
    let d := ep_durable e in
    if matches_state e (hs_term durable) (hs_vote durable)
         (LeaseSupport_promised (hs_lease_support durable))
       || matches_state e (du_last_submitted_term d) (du_last_submitted_vote d)
            (du_last_submitted_lease_support d)
    then (stable, e)
    else let '(_, stable, e) := persist_hard_state durable stable e in (stable, e).
End stable.

(** ** Withheld acknowledgements *)

Definition term_is_durable e : bool := ep_term e <=? du_durable_term (ep_durable e).

Definition tagged_stale (term : Term) (a : option (I * Term * Index)) : bool :=
  match a with Some (_, t, _) => negb (t =? term) | None => false end.

(** A deferral keeps the larger extent of the same leader and term. *)
Definition merge_gated (to : I) (term : Term) (x : Index) (a : option (I * Term * Index))
  : option (I * Term * Index) :=
  Some (to, term,
    match a with
    | Some (prev_to, prev_term, prev) =>
        if decide (prev_to = to) then if prev_term =? term then N.max prev x else x else x
    | None => x
    end).

Definition success_append_response e (match_index : Index) : Message I :=
  MAppendResponse (AppendResponse_new (ep_term e) (cfg_id (ep_config e)) false 0 0 match_index).

Definition success_snapshot_response e (match_index : Index) : Message I :=
  MSnapshotResponse (SnapshotResponse_new (ep_term e) (cfg_id (ep_config e)) false match_index).

Definition shortcut_ack_ready e (boundary : Index) : bool :=
  term_is_durable e
  && ((boundary <=? du_durable_commit_index (ep_durable e))
      || (boundary <=? du_durable_snapshot_index (ep_durable e)))
  && (boundary <=? ep_applied e).

Definition flush_shortcut_gated_ack (e : Endpoint) : Endpoint :=
  let clear e := e <| ep_durable ::= λ d, d <| du_shortcut_gated_snapshot_ack := None |> |> in
  match du_shortcut_gated_snapshot_ack (ep_durable e) with
  | None => e
  | Some (to, t, boundary) =>
      if negb (t =? ep_term e) then clear e
      else if negb (shortcut_ack_ready e boundary) then e
      else
        let match_index := N.min (N.max (ep_commit e) boundary) (ack_watermark e) in
        send to (success_snapshot_response e match_index) (clear e)
  end.

Definition flush_term_gated_acks (e : Endpoint) : Endpoint :=
  let e := flush_shortcut_gated_ack e in
  let e := if tagged_stale (ep_term e) (du_term_gated_snapshot_ack (ep_durable e))
           then e <| ep_durable ::= λ d, d <| du_term_gated_snapshot_ack := None |> |> else e in
  let e := if tagged_stale (ep_term e) (du_term_gated_append_ack (ep_durable e))
           then e <| ep_durable ::= λ d, d <| du_term_gated_append_ack := None |> |> else e in
  if negb (term_is_durable e) then e
  else
    let e :=
      match du_term_gated_snapshot_ack (ep_durable e) with
      | Some (to, _, proven) =>
          let e := e <| ep_durable ::= λ d, d <| du_term_gated_snapshot_ack := None |> |> in
          send to (success_snapshot_response e (N.min proven (ack_watermark e))) e
      | None => e
      end in
    match du_term_gated_append_ack (ep_durable e) with
    | Some (to, _, proven) =>
        let e := e <| ep_durable ::= λ d, d <| du_term_gated_append_ack := None |> |> in
        send to (success_append_response e (N.min proven (ack_watermark e))) e
    | None => e
    end.

Definition send_or_gate_append_ack (to : I) (proven : Index) (e : Endpoint) : Endpoint :=
  if term_is_durable e
  then send to (success_append_response e (N.min proven (ack_watermark e))) e
  else e <| ep_durable ::= λ d,
              d <| du_term_gated_append_ack ::= merge_gated to (ep_term e) proven |> |>.

Definition send_or_gate_snapshot_ack (to : I) (proven : Index) (e : Endpoint) : Endpoint :=
  if term_is_durable e
  then send to (success_snapshot_response e (N.min proven (ack_watermark e))) e
  else e <| ep_durable ::= λ d,
              d <| du_term_gated_snapshot_ack ::= merge_gated to (ep_term e) proven |> |>.

Definition send_or_gate_shortcut_snapshot_ack (to : I) (boundary : Index) (e : Endpoint)
  : Endpoint :=
  if shortcut_ack_ready e boundary
  then send to (success_snapshot_response e
                  (N.min (N.max (ep_commit e) boundary) (ack_watermark e))) e
  else e <| ep_durable ::= λ d,
              d <| du_shortcut_gated_snapshot_ack ::= merge_gated to (ep_term e) boundary |> |>.

(** ** Durability watermarks *)

(** The advances of a completed hard-state write, on the term, commit and lease
    axes. *)
Definition note_wrote (opid : OpId) (d : Durability I) : Durability I :=
  let d := if (du_durable_term d <? du_last_submitted_term d)
              && OpId_leb (du_term_persist_opid d) opid
           then d <| du_durable_term := du_last_submitted_term d |> else d in
  let d := if (du_durable_commit_index d <? du_last_submitted_commit d)
              && OpId_leb (du_commit_persist_opid d) opid
           then d <| du_durable_commit_index := du_last_submitted_commit d |> else d in
  if option_ltb (du_durable_lease_support d) (du_last_submitted_lease_support d)
     && OpId_leb (du_lease_support_persist_opid d) opid
  then d <| du_durable_lease_support := du_last_submitted_lease_support d |> else d.

Definition log_durability_outstanding e : bool :=
  let d := ep_durable e in
  negb (bool_decide (du_inflight_append_upto d = []))
  || bool_decide (is_Some (du_term_gated_append_ack d))
  || bool_decide (is_Some (du_term_gated_snapshot_ack d))
  || bool_decide (is_Some (du_shortcut_gated_snapshot_ack d)).

Definition stable_durability_outstanding e : bool :=
  let d := ep_durable e in
  match ep_pending_stable e with [] => false | _ => true end
  || bool_decide (is_Some (du_term_gated_append_ack d))
  || bool_decide (is_Some (du_term_gated_snapshot_ack d))
  || bool_decide (is_Some (du_shortcut_gated_snapshot_ack d))
  || (du_durable_term d <? du_last_submitted_term d)
  || (du_durable_commit_index d <? du_last_submitted_commit d)
  || option_ltb (du_durable_lease_support d) (du_last_submitted_lease_support d).
End persistence.
