(* ===== verification/Replication.v ===== *)
(** * Sending: heartbeats, appends, snapshot chunks

    The leader's outbound paths: [broadcast_heartbeat], [maybe_send_append] and
    [flush_appends] of [sailing-proto/src/endpoint/replication.rs],
    [send_snapshot_chunk] and [maybe_send_courtesy_snapshot] of
    [endpoint/snapshot.rs].  The log and the stable store are only read. *)

From S2P Require Import Prelude Bytes Num Progress ProgressMap Conf Tracker Config Prng ReadOnly.
From S2P Require Import Data Frame Entry Storage EngineStable Restart Message Wire Codec Endpoint.
From S2P Require Import Sample Persistence.

Record SharedEntries := {
  she_next : Index; she_end : Index; she_entries : list Entry; she_last_sent : Index;
  she_bytes_sent : u64;
}.

Definition entry_size (en : Entry) : u64 := 17 + N.of_nat (length (e_data en)).

(** The packing loop: the first entry always, then as many as the byte budget
    and the frame budget allow. *)
Fixpoint cap_rest (max_bytes budget frame_used : N) (es : list Entry) : list Entry :=
  match es with
  | [] => []
  | en :: es =>
      let sz := entry_size en in
      let frame_cost := entry_frame_cost en in
      if ((max_bytes =? u64_max) || (sz <=? budget))
         && (saturating_add frame_used frame_cost <=? APPEND_FRAME_ENTRY_BUDGET)
      then en :: cap_rest max_bytes (saturating_sub budget sz) (frame_used + frame_cost) es
      else []
  end.

Definition cap_entries (max_bytes : u64) (es : list Entry) : list Entry :=
  match es with
  | [] => []
  | en :: es =>
      en :: cap_rest max_bytes (saturating_sub max_bytes (entry_size en)) (entry_frame_cost en) es
  end.

Section replication.
Context {I F R : Type} `{!NodeId I, !StateMachine F} {DI : Data I} {BS : BuffaSizes}.
Abbreviation Endpoint := (Endpoint I F R).
Implicit Types (e : Endpoint) (now : Now).

(** ** Heartbeats *)

(** The tracked peers other than this node, each with the commit index it may be
    told: never past what it is known to match. *)
Definition heartbeat_targets e : list (I * Index) :=
  omap (λ '(peer, pr),
      if decide (peer = cfg_id (ep_config e)) then None
      else Some (peer, N.min (ep_commit e) (pr_match_index pr)))
    (tr_progress (ep_tracker e)).

Definition send_heartbeats (ctx : bytes) (e : Endpoint) : Endpoint :=
  let lease_round := cq_lease_round (ep_check_quorum_lease e) in
  let e' := foldl (λ e' '(peer, peer_commit),
      send peer (MHeartbeat (Heartbeat_with_lease_round lease_round
        (Heartbeat_new (ep_term e) (cfg_id (ep_config e)) peer_commit ctx))) e')
    e (heartbeat_targets e) in
  e' <| ep_peers_scratch := [] |>.

Definition broadcast_heartbeat (now : Now) (e : Endpoint) : Endpoint :=
  match checked_add (cq_lease_round (ep_check_quorum_lease e)) 1 with
  | None => poison LeaseRoundExhausted e
  | Some next_round =>
      let e := e <| ep_check_quorum_lease ::= λ q,
        q <| cq_lease_round := next_round |> <| cq_lease_round_start := now_mono now |>
          <| cq_lease_acks := ∅ |>
          <| cq_lease_min_support := cfg_election_timeout (ep_config e) |> |> in
      send_heartbeats (default [] (ReadOnly_last_pending_request_ctx (rd_read_only (ep_reads e)))) e
  end.

Definition broadcast_heartbeat_with_ctx (ctx : bytes) (e : Endpoint) : Endpoint :=
  send_heartbeats ctx e.

(** ** Snapshot chunks *)

Context {S : Type} `{!StableStore I S}.

(** Whether the peer is already receiving this very blob. *)
Definition receiving e (peer : I) (boundary : Index) (total : u64) : bool :=
  match pr_state <$> Tracker_progress (ep_tracker e) peer with
  | Some (Snapshot pending _ t) => (pending =? boundary) && (t =? total)
  | _ => false
  end.

Definition send_snapshot_chunk (peer : I) (from_offset : u64) (stable : S) (e : Endpoint)
  : ChunkSend * Endpoint :=
  let config_chunk :=
    N.min (N.max 1 (cfg_snapshot_chunk_bytes (ep_config e))) MAX_SNAPSHOT_CHUNK_BYTES in
  match stable_snapshot_chunk stable from_offset config_chunk with
  | None => (ChunkDeferred, e)
  | Some (Err _) => (ChunkPoisoned, poison SnapshotRead e)
  | Some (Ok (meta, total, chunk_at_from)) =>
      let boundary := sm_last_index meta in
      let '(from, e) :=
        if receiving e peer boundary total then (from_offset, e)
        else (0, e <| ep_tracker ::=
                        Tracker_progress_mut peer (Progress_become_snapshot boundary total) |>) in
      let term := ep_term e in
      let me := cfg_id (ep_config e) in
      let start := N.min from total in
      let overhead := install_snapshot_encoded_len term me meta start total 0 in
      let data_field_max_self_cost := 1 + buffa_varint_len MAX_SNAPSHOT_CHUNK_BYTES in
      let frame_budget :=
        saturating_sub MAX_FRAME_BYTES
          (overhead + data_field_max_self_cost + GROUP_HEADER_RESERVE) in
      if frame_budget =? 0 then
        (ChunkUnsendable,
         e <| ep_snapshot ::= λ s, s <| ss_unsendable_meta_frames ::= λ n, saturating_add n 1 |> |>)
      else
        let chunk_len := N.min config_chunk frame_budget in
        let chunk_read :=
          if start =? from_offset then inl chunk_at_from
          else match stable_snapshot_chunk stable start chunk_len with
               | None => inr ChunkDeferred
               | Some (Ok (meta2, total2, read)) =>
                   if negb (total2 =? total) || negb (SnapshotMeta_identity_eq meta2 meta)
                   then inr ChunkPoisoned
                   else inl read
               | Some (Err _) => inr ChunkPoisoned
               end in
        match chunk_read with
        | inr ChunkPoisoned => (ChunkPoisoned, poison SnapshotRead e)
        | inr r => (r, e)
        | inl ChunkPending => (ChunkDeferred, e)
        | inl (ChunkReady data) =>
            let remaining := total - start in
            if (0 <? remaining) && bool_decide (data = []) then
              (ChunkPoisoned, poison SnapshotRead e)
            else
              let n := N.min (N.min (N.of_nat (length data)) chunk_len) remaining in
              (ChunkSent,
               send peer (MInstallSnapshot
                 {| is_term := term; is_leader := me; is_snapshot := meta;
                    is_data := take (N.to_nat n) data; is_offset := start;
                    is_total_len := total |}) e)
        end
  end.

Definition conf_names (conf : ConfState I) (id : I) : bool :=
  bool_decide (id ∈ cs_voters conf) || bool_decide (id ∈ cs_voters_outgoing conf)
  || bool_decide (id ∈ cs_learners conf) || bool_decide (id ∈ cs_learners_next conf).

Definition COURTESY_COOLDOWN_TIMEOUTS : N := 3.

(** [debt.offered_index.get_or_insert(..)] and the cooldown. *)
Definition note_offer (now : Now) (interval : Duration) (boundary : Index) (d : CourtesyDebt)
  : CourtesyDebt :=
  d <| cy_offered_index ::= λ o, Some (default boundary o) |>
    <| cy_next_at := Some (Instant_add (now_mono now) interval) |>.

Definition before_deadline (now : Now) (t : option Instant) : bool :=
  match t with Some at_ => now_mono now <? at_ | None => false end.

Definition maybe_send_courtesy_snapshot (now : Now) (peer : I) (stable : S) (e : Endpoint)
  : Endpoint :=
  match ep_courtesy_owed e !! peer with
  | None => e
  | Some debt =>
      if ep_applied e <? ep_term_start_index e then e
      else if bool_decide (is_Some (ep_pending_farewells e !! peer)) then e
      else if before_deadline now (cy_next_at debt) then e
      else if match cy_last_seen_term debt with Some seen => ep_term e <? seen | None => false end
      then e
      else match stable_snapshot_chunk stable 0 MAX_SNAPSHOT_CHUNK_BYTES with
      | Some (Ok (meta, total, chunk)) =>
          if (sm_last_index meta <? cy_removal_index debt) || conf_names (sm_conf meta) peer then e
          else match chunk with
          | ChunkPending => e
          | ChunkReady blob =>
              if negb (N.of_nat (length blob) =? total) then e
              else
                let term := ep_term e in
                let me := cfg_id (ep_config e) in
                let encoded := install_snapshot_encoded_len term me meta 0 0
                                 (N.of_nat (length blob)) in
                if MAX_FRAME_BYTES <? saturating_add encoded GROUP_HEADER_RESERVE then e
                else
                  let interval := COURTESY_COOLDOWN_TIMEOUTS * cfg_election_timeout (ep_config e) in
                  send peer (MInstallSnapshot
                    {| is_term := term; is_leader := me; is_snapshot := meta; is_data := blob;
                       is_offset := 0; is_total_len := 0 |})
                    (e <| ep_courtesy_owed ::=
                            alter (note_offer now interval (sm_last_index meta)) peer |>)
          end
      | _ => e
      end
  end.

(** ** Appends *)

Context {L : Type} `{!LogStore L}.

(** What to send from [next]: the caller's shared batch when it is for the same
    range, else a read of the log, capped.  [None] defers the send. *)
Definition append_batch (log : L) (next end_ prev_index : Index) (max_bytes : u64)
    (shared : option SharedEntries) (e : Endpoint) : option SharedEntries * Endpoint :=
  let reuse :=
    match shared with
    | Some s => (she_next s =? next) && (she_end s =? end_)
    | None => false
    end in
  if reuse then (shared, e)
  else
    let read_end := N.min end_ (saturating_add next MAX_READ_BATCH_ENTRIES) in
    let read := if next <? end_ then log_entries log next read_end max_bytes else Ok (Ready []) in
    match read with
    | Ok (Ready slice) =>
        let entries := cap_entries max_bytes slice in
        let last_sent := match last entries with Some en => e_index en | None => prev_index end in
        (Some {| she_next := next; she_end := end_; she_entries := entries;
                 she_last_sent := last_sent;
                 she_bytes_sent := foldr (λ en n, entry_size en + n) 0 entries |}, e)
    | Ok Pending_ => (None, e)
    | Err _ => (None, poison LogRead e)
    end.

Definition prev_log_term (log : L) (prev_index : Index) (e : Endpoint) : option Term * Endpoint :=
  if prev_index =? 0 then (Some 0, e) else read_log_term log prev_index e.

Definition Progress_is_replicate (p : Progress) : bool :=
  match pr_state p with Replicate => true | _ => false end.

Definition send_append_snapshot (now : Now) (peer : I) (stable : S) (e : Endpoint) : Endpoint :=
  let set_after f e := e <| ep_snapshot ::= λ s, s <| ss_snapshot_resend_after ::= f |> |> in
  match send_snapshot_chunk peer 0 stable e with
  | (ChunkSent, e) =>
      set_after
        (insert peer (Instant_add (now_mono now) (cfg_election_timeout (ep_config e)))) e
  | (ChunkDeferred, e) | (ChunkUnsendable, e) => set_after (delete peer) e
  | (ChunkPoisoned, e) => e
  end.

Definition maybe_send_append_shared (now : Now) (peer : I) (log : L) (stable : S)
    (shared : option SharedEntries) (e : Endpoint) : option SharedEntries * Endpoint :=
  if is_poisoned e then (shared, e)
  else match Tracker_progress (ep_tracker e) peer with
  | None => (shared, e)
  | Some pr =>
      let next := pr_next_index pr in
      if Progress_is_paused pr then (shared, e)
      else if next <? log_first_index log then (shared, send_append_snapshot now peer stable e)
      else
        let prev_index := saturating_sub next 1 in
        match prev_log_term log prev_index e with
        | (None, e) => (shared, e)
        | (Some prev_term, e) =>
            let end_ := counter_next (log_last_index log) in
            match append_batch log next end_ prev_index (cfg_max_size_per_msg (ep_config e))
                    shared e with
            | (None, e) => (shared, e)
            | (Some b, e) =>
                let sent_partial := she_last_sent b <? log_last_index log in
                let e := send peer (MAppendEntries
                  {| ae_term := ep_term e; ae_leader := cfg_id (ep_config e);
                     ae_prev_log_index := prev_index; ae_prev_log_term := prev_term;
                     ae_entries := she_entries b; ae_leader_commit := ep_commit e |}) e in
                let is_empty := (she_bytes_sent b =? 0) && bool_decide (she_entries b = []) in
                (Some b, e <| ep_tracker ::= Tracker_progress_mut peer (λ p,
                   if (negb is_empty && Progress_is_replicate p) || sent_partial
                   then Progress_sent_entries (she_last_sent b) (she_bytes_sent b) p else p) |>)
            end
        end
  end.

Definition maybe_send_append (now : Now) (peer : I) (log : L) (stable : S) (e : Endpoint)
  : Endpoint :=
  (maybe_send_append_shared now peer log stable None e).2.

Definition flush_appends (now : Now) (log : L) (stable : S) (e : Endpoint) : Endpoint :=
  if is_poisoned e then e
  else if negb (Role_is_leader (ep_role e)) then e
  else if negb (ep_replication_pending e) then e
  else
    let targets := filter (λ p, p ≠ cfg_id (ep_config e)) (ProgressMap_keys (tr_progress (ep_tracker e))) in
    let last := log_last_index log in
    let '(_, e) := foldl (λ '(shared, e) peer,
        match Tracker_progress (ep_tracker e) peer with
        | Some pr =>
            if pr_next_index pr <=? last
            then maybe_send_append_shared now peer log stable shared e
            else (shared, e)
        | None => (shared, e)
        end) (None, e) targets in
    e <| ep_peers_scratch := [] |> <| ep_replication_pending := false |>.
End replication.

(** * Snapshot chunks fit their frame

    The size budget of [send_snapshot_chunk] ([sailing-proto/src/endpoint/snapshot.rs])
    against the encoder of [Codec]: the frame of every chunk a leader sends,
    group header included, is within the transport's limit. *)

Section chunk.
Context {I F R S : Type} `{!NodeId I, !StateMachine F, !StableStore I S, !Data I, !DataLaws I}.
Context `{!BuffaSizes, !BuffaWire, !BuffaSizeLaws}.
Context `{!Buffa PbMessage, !Buffa PbInstallSnapshot, !Buffa PbSnapshotMeta, !Buffa PbConfState,
  !Buffa PbForkId, !Proto3}.
Implicit Types (e : Endpoint I F R).

(** Lengths below 2^28 take at most four bytes, and four from 2^21 on. *)
Lemma varint_len_small v :
  v < 2 ^ 28 → buffa_varint_len v ≤ 4 ∧ (2 ^ 21 ≤ v → buffa_varint_len v = 4).
Proof.
  intros Hv. destruct (N.lt_ge_cases v (2 ^ 7)); [|destruct (N.lt_ge_cases v (2 ^ 14));
    [|destruct (N.lt_ge_cases v (2 ^ 21))]].
  - rewrite (bsl_groups 1); [lia|lia|done|by left].
  - rewrite (bsl_groups 2); [lia|lia|done|by right].
  - rewrite (bsl_groups 3); [lia|lia|done|by right].
  - rewrite (bsl_groups 4); [lia|lia|done|by right].
Qed.

Definition data_field_len (n : u64) : N := if n =? 0 then 0 else 1 + buffa_varint_len n + n.

Lemma encoded_len_split (term : Term) (leader : I) meta offset total :
  ∃ b, ∀ n, install_snapshot_encoded_len term leader meta offset total n
            = 1 + buffa_varint_len (b + data_field_len n) + (b + data_field_len n).
Proof.
  unfold install_snapshot_encoded_len. cbv zeta. eexists. intros n. fold (data_field_len n).
  match goal with |- 1 + buffa_varint_len ?x + ?x = _ => match x with
    context C [data_field_len n] => let y := context C [0] in
    instantiate (1 := y); replace x with (y + data_field_len n) by lia end end. done.
Qed.

Lemma frame_arith b n :
  n ≤ MAX_SNAPSHOT_CHUNK_BYTES →
  n ≤ MAX_FRAME_BYTES
      - (1 + buffa_varint_len b + b + (1 + buffa_varint_len MAX_SNAPSHOT_CHUNK_BYTES)
         + GROUP_HEADER_RESERVE) →
  1 + buffa_varint_len b + b + (1 + buffa_varint_len MAX_SNAPSHOT_CHUNK_BYTES)
    + GROUP_HEADER_RESERVE < MAX_FRAME_BYTES →
  1 + buffa_varint_len (b + data_field_len n) + (b + data_field_len n) + GROUP_HEADER_RESERVE
  ≤ MAX_FRAME_BYTES.
Proof.
  intros Hmax Hn Hb.
  assert (data_field_len n ≤ 5 + n).
  { unfold data_field_len. destruct (n =? 0); [lia|].
    assert (n < 2 ^ 28) as Hn'%varint_len_small by (unfold MAX_SNAPSHOT_CHUNK_BYTES in Hmax; lia).
    lia. }
  assert (buffa_varint_len MAX_SNAPSHOT_CHUNK_BYTES = 4) as Hm
    by (by apply varint_len_small).
  rewrite Hm in *. unfold MAX_SNAPSHOT_CHUNK_BYTES in Hmax.
  assert (MAX_FRAME_BYTES = 67108864) as HF by done.
  assert (GROUP_HEADER_RESERVE = 1036) as HG by done. rewrite HF, HG in *.
  destruct (N.lt_ge_cases b (2 ^ 21)) as [Hs|Hl].
  - assert (b + data_field_len n < 2 ^ 28) as [? _]%varint_len_small by lia. lia.
  - assert (b + data_field_len n < 2 ^ 28) as [? _]%varint_len_small by lia.
    assert (b < 2 ^ 28) as [_ Hb4]%varint_len_small by lia. rewrite Hb4 in * by done. lia.
Qed.

(** C40: every snapshot chunk a leader puts on the wire fits one transport frame,
    with the group header in front of it, whatever the membership the metadata
    carries, although the budget the code computes leaves out the outer length
    prefix, which grows with the chunk.  The chunk stays inside the snapshot, and
    it is not empty while bytes are owed, so a transfer makes progress. *)
Theorem snapshot_chunk_fits_frame peer from stable e e' :
  is_poisoned e = false → encode_id (cfg_id (ep_config e)) ≠ [] →
  send_snapshot_chunk peer from stable e = (ChunkSent, e') →
  ∃ m, ou_outgoing (ep_outputs e')
       = ou_outgoing (ep_outputs e) ++ [{| out_to := peer; out_message := MInstallSnapshot m |}]
    ∧ blen (encode_message (MInstallSnapshot m)) + GROUP_HEADER_RESERVE ≤ MAX_FRAME_BYTES
    ∧ is_offset m + blen (is_data m) ≤ is_total_len m
    ∧ (is_offset m < is_total_len m → is_data m ≠ []).
Proof.
  intros Hp Hid. unfold send_snapshot_chunk.
  set (config_chunk := N.min _ MAX_SNAPSHOT_CHUNK_BYTES).
  destruct (stable_snapshot_chunk stable from config_chunk) as [[[[meta total] c0]|]|];
    [|done|done].
  destruct (if receiving e peer (sm_last_index meta) total then _ else _) as [off e1] eqn:Hoff.
  assert (ep_config e1 = ep_config e ∧ ep_outputs e1 = ep_outputs e ∧ ep_poison e1 = ep_poison e
          ∧ ep_term e1 = ep_term e) as (Hc & Ho & Hpo & Ht)
    by (destruct (receiving _ _ _ _); by injection Hoff as <- <-).
  rewrite Hc, Ht. clear Hoff. set (start := N.min off total).
  assert (start ≤ total) as Hstart by (unfold start; lia).
  destruct (encoded_len_split (ep_term e) (cfg_id (ep_config e)) meta start total) as [b Hb].
  rewrite Hb. change (data_field_len 0) with 0. rewrite !N.add_0_r.
  set (used := _ + GROUP_HEADER_RESERVE). unfold saturating_sub.
  destruct (N.eqb_spec (MAX_FRAME_BYTES - used) 0) as [|Hbudget]; [done|].
  set (chunk_len := N.min config_chunk _).
  destruct (if start =? from then _ else _) as [[data|]|[]] eqn:Hread; try done.
  2:{ exfalso. revert Hread. clear. repeat case_match; done. }
  destruct (_ && bool_decide (data = [])) eqn:Hempty; [done|]. intros [= <-].
  set (n := N.min (N.min _ chunk_len) _). eexists. split_and!.
  - unfold send. unfold is_poisoned in *. rewrite Hpo, Hp. cbn. by rewrite Ho.
  - rewrite install_snapshot_encoded_len_exact by done. cbn [is_term is_leader is_snapshot
      is_offset is_total_len is_data]. rewrite Hb. unfold blen.
    rewrite length_take_le by (unfold n; lia). rewrite N2Nat.id. apply frame_arith.
    + unfold n, chunk_len, config_chunk. lia.
    + unfold n, chunk_len, used. lia.
    + unfold used in Hbudget. lia.
  - cbn. unfold blen. rewrite length_take_le by (unfold n; lia). unfold n. lia.
  - cbn. intros Hlt Hd.
    assert (n = 0) as Hn0.
    { apply (f_equal length) in Hd. rewrite length_take_le in Hd by (unfold n; lia). cbn in Hd. lia. }
    destruct data as [|x data]; [|].
    2:{ unfold n, chunk_len in Hn0. cbn [length] in Hn0. unfold MAX_SNAPSHOT_CHUNK_BYTES in *. lia. }
    cbn in Hempty. rewrite andb_true_r in Hempty. apply N.ltb_ge in Hempty. lia.
Qed.
End chunk.

(** Node 1 sends a chunk of the snapshot its store holds. *)
Module ChunkRun.
#[local] Existing Instances Proto3Wire.sizes Proto3Wire.wire Proto3Wire.size_laws Proto3Wire.fork
  Proto3Wire.conf Proto3Wire.meta Proto3Wire.install Proto3Wire.message Proto3Wire.proto3.

Definition holding : EngineStable N :=
  EngineStable_submit_snapshot OpId_ZERO (SnapshotMeta_new 9 2 (ConfState_from_voters [1; 2; 3]))
    (low_byte <$> [10; 20; 30; 40]) Sample.stable.

Lemma snapshot_chunk_fits_frame_witness :
  ∃ m, ou_outgoing (ep_outputs (send_snapshot_chunk 2 0 holding (Sample.node 1)).2)
       = [{| out_to := 2; out_message := MInstallSnapshot m |}]
    ∧ blen (encode_message (MInstallSnapshot m)) + GROUP_HEADER_RESERVE ≤ MAX_FRAME_BYTES.
Proof.
  destruct (snapshot_chunk_fits_frame 2 0 holding (Sample.node 1)
    (send_snapshot_chunk 2 0 holding (Sample.node 1)).2) as (m & Hm & Hfit & _);
    [by vm_compute..|].
  exists m. split; [exact Hm|exact Hfit].
Defined.
End ChunkRun.
