(* ===== verification/Election.v ===== *)
(** * Elections

    [sailing-proto/src/endpoint/election.rs]: granting votes, standing for
    election and taking office, with the lease bookkeeping a new leader does.
    The lease predicates it shares with the commit rule are those of
    [endpoint/replication.rs]. *)

From S2P Require Import Prelude Bytes Num Quorum Progress ProgressMap Conf Tracker Config Lease.
From S2P Require Import Prng ReadOnly Data Entry Storage Restart Message Wire Endpoint.
From S2P Require Import Persistence Replication.

(** ** Lease horizons *)

(** [u64::try_from(eps.as_nanos()).unwrap_or(u64::MAX)] *)
Definition eps_nanos (eps : Duration) : u64 := N.min eps u64_max.

Definition walled_wall_released (now_wall deadline eps_ns : u64) : bool :=
  (deadline =? 0) || (deadline + 2 * eps_ns <? now_wall).

Definition failover_horizon_passable (deadline eps_ns : u64) : bool :=
  deadline + 2 * eps_ns <? u64_max.

Section election.
Context {I F R L S : Type} `{!NodeId I, !StateMachine F, !Rng R, !LogStore L, !StableStore I S}.
Context {DI : Data I} {BS : BuffaSizes}.
Abbreviation Endpoint := (Endpoint I F R).
Implicit Types (e : Endpoint) (now : Now) (log : L) (stable : S).

Definition wall_capability_absent e : bool :=
  bool_decide (cfg_bounded_clock_uncertainty (ep_config e) = None).

Definition campaign_holds_unprovable_floor e : bool :=
  negb (lg_max_wall_plus_window (ep_lease_guard e) =? 0) && wall_capability_absent e.

Definition note_campaign_floor_provability (e : Endpoint) : Endpoint :=
  if negb (campaign_holds_unprovable_floor e) then e
  else e <| ep_lease_guard ::= λ g,
              g <| lg_unprovable_floor_campaigns ::= λ n, saturating_add n 1 |> |>.

(** ** Stepping down *)

Definition step_down_to_follower (now : Now) (e : Endpoint) : Endpoint :=
  let e := set_leader None (e <| ep_role := Follower |>) in
  let e := e <| ep_heartbeat_deadline := None |>
             <| ep_reads ::= λ r,
                  r <| rd_read_only ::= ReadOnly_reset (rd_active_read_mode r) |>
                    <| rd_pending_reads := [] |> |>
             <| ep_lease_guard ::= λ g,
                  g <| lg_lease_refresh_wanted := false |> <| lg_read_since_anchor := false |> |>
             <| ep_transfer ::= λ t,
                  t <| tf_lead_transferee := None |> <| tf_transfer_deadline := None |> |> in
  arm_election_timer now e.

(** ** Granting votes *)

Definition is_campaign (term : Term) (p : Pending I) : bool :=
  match p with Campaign t => t =? term | _ => false end.

Definition self_vote_durable e : bool :=
  negb (existsb (λ p, is_campaign (ep_term e) p.2) (ep_pending_stable e)).

Definition lease_vote_fenced e (now : Now) (force : bool) : bool :=
  negb force && match du_lease_vote_fence_until (ep_durable e) with
                | Some d => now_mono now <? d
                | None => false
                end.

(** The order of [(term, index)] pairs. *)
Definition coord_ltb (a b : Term * Index) : bool :=
  (a.1 <? b.1) || ((a.1 =? b.1) && (a.2 <? b.2)).

Definition coord_max (a b : Term * Index) : Term * Index := if coord_ltb a b then b else a.

Definition meta_coord (m : SnapshotMeta I) : Term * Index := (sm_last_term m, sm_last_index m).

(** The freshness a voter compares against: its log, floored at an accepted
    snapshot boundary that is not installed yet. *)
Definition vote_freshness e (last : Index * Term) : Term * Index :=
  let my := (last.2, last.1) in
  let my := match ss_pending_install (ep_snapshot e) with
            | Some (_, meta, _, _) => coord_max my (meta_coord meta)
            | None => my
            end in
  match ss_snapshot_recv (ep_snapshot e) with
  | Some r => coord_max my (meta_coord (sv_meta r))
  | None => my
  end.

Definition vote_response (term : Term) (me : I) (pre_vote reject : bool) : Message I :=
  MVoteResponse {| vr_term := term; vr_from := me; vr_pre_vote := pre_vote; vr_reject := reject |}.

(** The pre-vote branch: no durable state changes. *)
Definition on_pre_vote (now : Now) (rv : RequestVote I) (log_ok : bool) (e : Endpoint)
  : Endpoint :=
  let term_ok :=
    (ep_term e <=? rv_term rv)
    && ((ep_term e <? rv_term rv) || bool_decide (ep_voted_for e = None)
        || bool_decide (ep_voted_for e = Some (rv_candidate rv))) in
  let lease_open :=
    negb (bool_decide (is_Some (ep_leader e))
          && match ep_election_deadline e with Some d => now_mono now <? d | None => false end) in
  let grant := log_ok && term_ok && lease_open
               && negb (lease_vote_fenced e now (rv_leader_transfer rv)) in
  let response_term := if grant then rv_term rv else ep_term e in
  send (rv_candidate rv)
    (vote_response response_term (cfg_id (ep_config e)) true (negb grant)) e.

Definition on_request_vote (now : Now) (rv : RequestVote I) (log : L) (stable : S) (e : Endpoint)
  : S * Endpoint :=
  match last_log log e with
  | (None, e) => (stable, poison LogTerm e)
  | (Some last, e) =>
      let log_ok := negb (coord_ltb (rv_last_log_term rv, rv_last_log_index rv)
                            (vote_freshness e last)) in
      if rv_pre_vote rv then (stable, on_pre_vote now rv log_ok e)
      else
        let can_vote := bool_decide (ep_voted_for e = None)
                        || bool_decide (ep_voted_for e = Some (rv_candidate rv)) in
        if can_vote && log_ok && negb (lease_vote_fenced e now (rv_leader_transfer rv)) then
          let e := arm_election_timer now (e <| ep_voted_for := Some (rv_candidate rv) |>) in
          let '(opid, stable, e) := persist_hard_state (stable_hard_state stable) stable e in
          (stable, push_pending opid (CastVote (rv_candidate rv) (ep_term e)) e)
        else
          (stable, send (rv_candidate rv)
                     (vote_response (ep_term e) (cfg_id (ep_config e)) false true) e)
  end.

(** ** Standing for election *)

Definition voter_peers e : list I :=
  filter (λ p, Tracker_is_voter (ep_tracker e) p = true) (peers e).

Definition send_vote_requests (term : Term) (last_index : Index) (last_term : Term)
    (pre_vote transfer : bool) (e : Endpoint) : Endpoint :=
  let me := cfg_id (ep_config e) in
  foldl (λ e peer, send peer (MRequestVote
      {| rv_term := term; rv_candidate := me; rv_last_log_index := last_index;
         rv_last_log_term := last_term; rv_pre_vote := pre_vote;
         rv_leader_transfer := transfer |}) e)
    e (voter_peers e).

Definition become_candidate (now : Now) (transfer : bool) (log : L) (stable : S) (e : Endpoint)
  : S * Endpoint :=
  let me := cfg_id (ep_config e) in
  if negb (is_voter_self e) then (stable, e)
  else if merge_park_membership_superseded e log then (stable, e)
  else
    let next_term := counter_next (ep_term e) in
    if next_term =? ep_term e then (stable, e)
    else match last_log log e with
    | (None, e) => (stable, poison LogTerm e)
    | (Some (last_index, last_term), e) =>
        let e := note_campaign_floor_provability e in
        let e := e <| ep_term := next_term |> <| ep_pending_log := [] |>
                   <| ep_pending_stable := [] |> <| ep_role := Candidate |> in
        let e := set_leader None e in
        let e := e <| ep_voted_for := Some me |> <| ep_votes := {[ me := true ]} |> in
        let '(opid, stable, e) := persist_hard_state (stable_hard_state stable) stable e in
        let e := push_pending opid (Campaign (ep_term e)) e in
        let e := arm_election_timer now e in
        (stable, send_vote_requests (ep_term e) last_index last_term false transfer e)
    end.

(** The result tells whether the pre-vote is already won. *)
Definition become_pre_candidate (now : Now) (log : L) (e : Endpoint) : bool * Endpoint :=
  let me := cfg_id (ep_config e) in
  if negb (is_voter_self e) then (false, e)
  else if merge_park_membership_superseded e log then (false, e)
  else if counter_next (ep_term e) =? ep_term e then (false, e)
  else
    let e := set_leader None (e <| ep_role := PreCandidate |>) in
    let e := arm_election_timer now (e <| ep_votes := {[ me := true ]} |>) in
    let advertised_term := counter_next (ep_term e) in
    match last_log log e with
    | (None, e) => (false, poison LogTerm e)
    | (Some (last_index, last_term), e) =>
        let e := note_campaign_floor_provability e in
        let e := send_vote_requests advertised_term last_index last_term true false e in
        (VoteResult_is_won (Tracker_vote_result (ep_tracker e) (ep_votes e)), e)
    end.

(** ** Taking office *)

Definition append_leader_noop (now : Now) (last : Index) (log : L) (e : Endpoint)
  : option Index * L * Endpoint :=
  if is_poisoned e then (None, log, e)
  else match next_log_index last with
  | None => (None, log, poison LogExhausted e)
  | Some noop_index =>
      let stamp := lease_stamp (now_mono now) e in
      let window := lease_window_stamp e in
      let '(wall, e) := lease_wall_stamp now e in
      let noop := {| e_term := ep_term e; e_index := noop_index; e_kind := EkEmpty; e_data := [];
                     e_timestamp := stamp; e_lease_window := window;
                     e_wall_timestamp := wall |} in
      let '(opid, e) := mint_op_id e in
      let '(log, e) := submit_append opid [noop] log e in
      let e := push_pending opid (LeaderAppend noop_index) e in
      (Some noop_index, log, e <| ep_replication_pending := true |>)
  end.

Definition committed_anchor_at_election (log : L) (e : Endpoint) : u64 * u64 * Endpoint :=
  if ep_commit e <? log_first_index log then (0, 0, e)
  else match log_entries log (ep_commit e) (counter_next (ep_commit e)) u64_max with
       | Ok (Ready (en :: _)) => (e_wall_timestamp en, e_lease_window en, e)
       | Ok (Ready []) | Ok Pending_ => (0, 0, e)
       | Err _ => (0, 0, poison LogRead e)
       end.

(** The peers a leader still owes a farewell or a courtesy snapshot: dropped once
    re-admitted, due at once otherwise. *)
Definition rearm_removed {A} (rearm : A → A) (tr : Tracker I) (m : gmap I A) : gmap I A :=
  map_imap (λ peer x, match Tracker_progress tr peer with
                      | None => Some (rearm x)
                      | Some _ => None
                      end) m.

(** The state a new term of office starts from. *)
Definition take_office (e : Endpoint) : Endpoint :=
  e <| ep_replication_pending := false |>
    <| ep_lease_guard ::= λ g,
         g <| lg_lease_refresh_wanted := false |> <| lg_read_since_anchor := false |> |>
    <| ep_role := Leader |>.

Definition reset_leader_state (e : Endpoint) : Endpoint :=
  e <| ep_reads ::= λ r,
         r <| rd_read_only ::= ReadOnly_reset (rd_active_read_mode r) |>
           <| rd_pending_reads := [] |> |>
    <| ep_check_quorum_lease ::= λ q,
         q <| cq_lease_round := 0 |> <| cq_lease_acks := ∅ |> <| cq_lease_valid_until := None |> |>
    <| ep_snapshot ::= λ s, s <| ss_snapshot_resend_after := ∅ |> |>
    <| ep_pending_farewells ::=
         rearm_removed (λ r, r <| fw_next_at := None |>) (ep_tracker e) |>
    <| ep_courtesy_owed ::= rearm_removed (λ d, d <| cy_next_at := None |>) (ep_tracker e) |>
    <| ep_transfer :=
         {| tf_forced_handoff_this_term := false; tf_forced_handoff_target := None;
            tf_lead_transferee := None; tf_transfer_deadline := None |} |>
    <| ep_election_deadline := None |>.

(** The inherited tail may hold an unapplied change of every kind. *)
Definition reseat_fences (last : Index) (e : Endpoint) : Endpoint :=
  e <| ep_pending_conf_index := last |>
    <| ep_reads ::= λ r, r <| rd_pending_read_mode_index := last |> |>
    <| ep_split ::= λ s,
         s <| spl_pending_split_index := last |> <| spl_pending_split_child := [] |> |>
    <| ep_merge ::= λ m,
         m <| mrg_pending_commit_index := last |> <| mrg_pending_rollback_index := last |>
           <| mrg_thaw_pending_index := 0 |> <| mrg_witness_pending_index := 0 |> |>.

Definition reset_tracker (last : Index) (e : Endpoint) : Endpoint :=
  let c := ep_config e in
  e <| ep_tracker ::= λ tr,
         Tracker_progress_mut (cfg_id c) (λ p, (Progress_maybe_update last p).2)
           (Tracker_reset_progress (counter_next last) (cfg_max_inflight_msgs c)
              (cfg_max_inflight_bytes c) tr) |>.

Definition arm_check_quorum (now : Now) (e : Endpoint) : Endpoint :=
  let c := ep_config e in
  if cfg_check_quorum c then
    e <| ep_tracker ::= Tracker_progress_mut (cfg_id c) (Progress_set_recent_active true) |>
      <| ep_election_deadline := Some (Instant_add (now_mono now) (cfg_election_timeout c)) |>
  else e.

Definition reset_for_leadership (now : Now) (last : Index) (e : Endpoint) : Endpoint :=
  let e := set_leader (Some (cfg_id (ep_config e))) (take_office e) in
  let e := arm_heartbeat_timer now (reset_leader_state e) in
  arm_check_quorum now (reset_tracker last (reseat_fences last e)).

(** The commit wait of a new leader, from the floors it inherited. *)
Definition wall_proves_floor (now : Now) e : bool :=
  match cfg_bounded_clock_uncertainty (ep_config e) with
  | Some eps =>
      negb (Wall_is_absent (now_wall now))
      && (lg_max_wall_plus_window (ep_lease_guard e) + 2 * eps_nanos eps
          <=? now_wall now + lg_max_lease_window (ep_lease_guard e))
  | None => false
  end.

Definition horizon_passable e : bool :=
  match cfg_bounded_clock_uncertainty (ep_config e) with
  | Some eps =>
      failover_horizon_passable (lg_max_wall_plus_window (ep_lease_guard e)) (eps_nanos eps)
  | None => false
  end.

Definition e_prime_fits e : bool :=
  match failover_inflated_commit_wait (ep_config e) (active_read_mode e)
          (lg_max_lease_window (ep_lease_guard e)) with
  | Some w => w <? cfg_election_timeout (ep_config e)
  | None => false
  end.

(** Whether [now + w] is a representable instant. *)
Definition deadline_exact (now : Now) (w : option u64) : bool :=
  match w with Some w => now_mono now + w <=? Duration_MAX | None => false end.

(** The floors contradict each other in a way no fold produces. *)
Definition inconsistent_floors (g : LeaseGuardState) : bool :=
  (negb (lg_max_wall_plus_window g =? 0) && (lg_max_lease_window g =? 0))
  || (lg_max_lease_window g <? lg_max_unwalled_lease_window g)
  || ((0 <? lg_max_lease_window g) && (lg_max_wall_plus_window g =? 0)
      && (lg_max_unwalled_lease_window g =? 0)).

Definition poison_if (b : bool) (r : PoisonReason) (e : Endpoint) : Endpoint :=
  if b then poison r e else e.

(** A deadline [window] from now, when there is a floor to wait for. *)
Definition wait_until (now : Now) (floor : u64) (window : option u64) : option Instant :=
  match window with
  | Some w => if 0 <? floor then Some (Instant_add (now_mono now) w) else None
  | None => None
  end.

(** Whether the inflated wait stands in for the wall, and whether inherited reads
    may be served. *)
Definition decide_inflation (now : Now) (exact : bool) (e : Endpoint) : Endpoint :=
  let g := ep_lease_guard e in
  let has_window := 0 <? lg_max_lease_window g in
  let inflated_candidate :=
    e_prime_fits e && negb (lg_max_wall_plus_window g =? 0) && has_window
    && wall_proves_floor now e in
  let armed_candidate :=
    failover_tier_active e && has_window && horizon_passable e && e_prime_fits e in
  e <| ep_lease_guard ::= λ g,
         g <| lg_commit_wait_inflated := inflated_candidate && exact |>
           <| lg_inherited_serve_armed := armed_candidate && exact |> |>.

(** A bare wait relies on a wall that can pass the horizon. *)
Definition horizon_unrepresentable e : bool :=
  bool_decide (is_Some (cfg_bounded_clock_uncertainty (ep_config e)))
  && negb (lg_commit_wait_inflated (ep_lease_guard e))
  && negb (lg_max_wall_plus_window (ep_lease_guard e) =? 0) && negb (horizon_passable e).

Definition pin_deadlines (now : Now) (wait unwalled_wait : option u64) (e : Endpoint) : Endpoint :=
  e <| ep_lease_guard ::= λ g,
         g <| lg_commit_wait_until := wait_until now (lg_max_lease_window g) wait |>
           <| lg_inherited_release_deadline := lg_max_wall_plus_window g |>
           <| lg_unwalled_commit_wait_until :=
                wait_until now (lg_max_unwalled_lease_window g) unwalled_wait |> |>.

Definition arm_commit_wait (now : Now) (e : Endpoint) : Endpoint :=
  let g := ep_lease_guard e in
  let inflate := inflate_inherited_wait (ep_config e) (active_read_mode e) in
  let commit_wait_window := inflate (lg_max_lease_window g) in
  let unwalled_wait_window := inflate (lg_max_unwalled_lease_window g) in
  let exact := deadline_exact now commit_wait_window in
  let e := decide_inflation now exact e in
  let e := poison_if ((0 <? lg_max_lease_window g) && negb exact) CommitWaitUnrepresentable e in
  let e := poison_if ((0 <? lg_max_unwalled_lease_window g)
                      && bool_decide (unwalled_wait_window = None))
             CommitWaitUnrepresentable e in
  let e := poison_if (horizon_unrepresentable e) WallHorizonUnrepresentable e in
  let e := poison_if (inconsistent_floors (ep_lease_guard e)) InconsistentLeaseFloor e in
  pin_deadlines now commit_wait_window unwalled_wait_window e.

(** Pin the committed anchor, when the wall at this election vouches for it. *)
Definition pin_committed_anchor (now : Now) (last : Index) (log : L) (e : Endpoint) : Endpoint :=
  let e := e <| ep_lease_guard ::= λ g, g <| lg_limbo_upper := last |> |> in
  let '(wall, window, e) := committed_anchor_at_election log e in
  let trustworthy :=
    match cfg_bounded_clock_uncertainty (ep_config e) with
    | Some eps =>
        negb (Wall_is_absent (now_wall now)) && (wall <=? now_wall now + eps_nanos eps)
        && (wall + window <=? lg_max_wall_plus_window (ep_lease_guard e))
    | None => false
    end in
  e <| ep_lease_guard ::= λ g,
         g <| lg_committed_anchor_wall := if trustworthy then wall else 0 |>
           <| lg_committed_anchor_window := if trustworthy then window else 0 |> |>.

Definition become_leader (now : Now) (log : L) (stable : S) (e : Endpoint) : L * Endpoint :=
  if cfg_step_down_on_removal (ep_config e) && negb (is_voter_self e) then
    let e := set_leader None (e <| ep_role := Follower |>) in
    (log, e <| ep_heartbeat_deadline := None |> <| ep_election_deadline := None |>)
  else
    let last := log_last_index log in
    let e := reset_for_leadership now last e in
    let e := arm_commit_wait now e in
    let e := pin_committed_anchor now last log e in
    match append_leader_noop now last log e with
    | (None, log, e) => (log, e)
    | (Some noop_index, log, e) =>
        let e := e <| ep_term_start_index := noop_index |> in
        let e := broadcast_heartbeat now e in
        (log, foldl (λ e peer, maybe_send_append now peer log stable e) e (peers e))
    end.

(** ** Counting votes *)

Definition on_vote_response (now : Now) (vr : VoteResponse I) (log : L) (stable : S)
    (e : Endpoint) : L * S * Endpoint :=
  let record e := e <| ep_votes ::= insert (vr_from vr) (negb (vr_reject vr)) |> in
  let won e := VoteResult_is_won (Tracker_vote_result (ep_tracker e) (ep_votes e)) in
  if vr_pre_vote vr then
    if negb (Role_is_pre_candidate (ep_role e)) then (log, stable, e)
    else
      let e := record e in
      if won e then
        let '(stable, e) := become_candidate now false log stable e in (log, stable, e)
      else (log, stable, e)
  else if negb (Role_is_candidate (ep_role e)) || negb (vr_term vr =? ep_term e)
  then (log, stable, e)
  else
    let e := record e in
    if won e && self_vote_durable e then
      let '(log, e) := become_leader now log stable e in (log, stable, e)
    else (log, stable, e).

(** ** Completed hard-state writes *)

Definition release_stable_pending (now : Now) (pending : Pending I) (log : L) (stable : S)
    (e : Endpoint) : L * Endpoint :=
  match pending with
  | CastVote to term =>
      if (term =? ep_term e) && bool_decide (ep_voted_for e = Some to)
      then (log, send to (vote_response term (cfg_id (ep_config e)) false false) e)
      else (log, e)
  | Campaign term =>
      if (term =? ep_term e) && Role_is_candidate (ep_role e)
         && VoteResult_is_won (Tracker_vote_result (ep_tracker e) (ep_votes e))
      then become_leader now log stable e
      else (log, e)
  | FollowerAck _ _ | LeaderAppend _ => (log, e)
  end.

Definition on_stable_wrote (now : Now) (opid : OpId) (log : L) (stable : S) (e : Endpoint)
  : L * Endpoint :=
  let e := e <| ep_durable ::= note_wrote opid |> in
  let '(p, e) := take_stable_pending opid e in
  let '(log, e) := match p with
                   | Some p => release_stable_pending now p log stable e
                   | None => (log, e)
                   end in
  (log, flush_term_gated_acks e).

(** What the durable hard state proves of a waiting action. *)
Definition proved_by (hs : HardState I) (me : I) (p : Pending I) : bool :=
  match p with
  | CastVote to term => (term =? hs_term hs) && bool_decide (hs_vote hs = Some to)
  | Campaign term => (term =? hs_term hs) && bool_decide (hs_vote hs = Some me)
  | _ => false
  end.

(** Remove the first waiting action that is proved. *)
Fixpoint take_proved (hs : HardState I) (me : I) (q : list (OpId * Pending I))
  : option (Pending I * list (OpId * Pending I)) :=
  match q with
  | [] => None
  | (id, p) :: q =>
      if proved_by hs me p then Some (p, q)
      else match take_proved hs me q with
           | Some (r, q) => Some (r, (id, p) :: q)
           | None => None
           end
  end.

(** Releasing never adds a waiting action, so the length of the queue is enough
    rounds ([release_proved_fuel]).  The flag tells that the node is not poisoned. *)
Fixpoint release_proved (fuel : nat) (now : Now) (hs : HardState I) (log : L) (stable : S)
    (e : Endpoint) : bool * L * Endpoint :=
  match fuel with
  | O => (true, log, e)
  | Datatypes.S fuel =>
      match take_proved hs (cfg_id (ep_config e)) (ep_pending_stable e) with
      | None => (true, log, e)
      | Some (p, q) =>
          let '(log, e) := release_stable_pending now p log stable (e <| ep_pending_stable := q |>) in
          if is_poisoned e then (false, log, e) else release_proved fuel now hs log stable e
      end
  end.

Definition reconcile_durable_hard_state (now : Now) (log : L) (stable : S) (e : Endpoint)
  : bool * L * Endpoint :=
  if negb (stable_durability_outstanding e) || stable_has_pending stable then (true, log, e)
  else match stable_durable_hard_state stable with
  | None => (true, log, e)
  | Some hs =>
      let e := e <| ep_durable ::= λ d,
        d <| du_durable_term ::= λ t, N.max t (hs_term hs) |>
          <| du_durable_commit_index ::= λ c, N.max c (hs_commit hs) |>
          <| du_durable_lease_support ::= λ s,
               option_max s (LeaseSupport_promised (hs_lease_support hs)) |> |> in
      match release_proved (length (ep_pending_stable e)) now hs log stable e with
      | (true, log, e) => (true, log, flush_term_gated_acks e)
      | r => r
      end
  end.
End election.
