(* ===== verification/Propose.v ===== *)
(** * Proposals

    What a leader appends on request: commands ([propose] of
    [sailing-proto/src/endpoint/replication.rs]), membership changes
    ([endpoint/membership.rs]), read-mode changes ([endpoint/read_mode.rs]),
    splits ([endpoint/split.rs]) and the entries of a merge
    ([endpoint/merge.rs]); and the hand-over of the leadership
    ([transfer_leader] of [endpoint/transfer.rs]). *)

From S2P Require Import Prelude Bytes Num Quorum Progress ProgressMap Conf Tracker ConfChange.
From S2P Require Import Config Lease Prng ReadOnly Data Frame Entry Storage Shape Restart Wire.
From S2P Require Import Message Codec Endpoint Merge Persistence Replication Election.

Inductive ProposeError (I : Type) :=
| PeNotLeader (leader : option I)
| PeConfChangeInFlight
| PeReadModeChangeInFlight
| PeInvalidReadMode
| PeLeaderTransferInProgress
| PeInvalidConfChange
| PePoisoned
| PeLogIndexExhausted
| PeMergeInFlight
| PeFrozen
| PeEntryTooLarge (size max : N)
| PeBelowFloor (floor : u64)
| PeMembershipTooLargeToSnapshot (size max : N).
Arguments PeNotLeader {I}.
Arguments PeConfChangeInFlight {I}.
Arguments PeReadModeChangeInFlight {I}.
Arguments PeInvalidReadMode {I}.
Arguments PeLeaderTransferInProgress {I}.
Arguments PeInvalidConfChange {I}.
Arguments PePoisoned {I}.
Arguments PeLogIndexExhausted {I}.
Arguments PeMergeInFlight {I}.
Arguments PeFrozen {I}.
Arguments PeEntryTooLarge {I}.
Arguments PeBelowFloor {I}.
Arguments PeMembershipTooLargeToSnapshot {I}.

Inductive TransferError (I : Type) :=
| TePoisoned | TeNotLeader (leader : option I) | TeFrozen | TeAlreadyLeader | TeNotAVoter
| TeHandoffPending.
Arguments TePoisoned {I}.
Arguments TeNotLeader {I}.
Arguments TeFrozen {I}.
Arguments TeAlreadyLeader {I}.
Arguments TeNotAVoter {I}.
Arguments TeHandoffPending {I}.

Definition MAX_SNAPSHOT_META_FRAME_BYTES : N := MAX_FRAME_BYTES / 2.

(** Where the merge machinery remembers an entry it appended. *)
Definition note_merge_appended {I F R} `{!NodeId I, !StateMachine F} (kind : EntryKind)
    (index : Index) (e : Endpoint I F R) : Endpoint I F R :=
  match kind with
  | EkPrepareMerge => note_freeze_appended index e
  | EkCommitMerge => e <| ep_merge ::= λ m, m <| mrg_pending_commit_index := index |> |>
  | EkRollbackMerge => e <| ep_merge ::= λ m, m <| mrg_pending_rollback_index := index |> |>
  | _ => e
  end.

Section propose.
Context {I F R L S : Type} `{!NodeId I, !StateMachine F, !Rng R, !LogStore L, !StableStore I S}.
Context {DI : Data I} {BS : BuffaSizes} {DC : Data sm_command} {BC : Buffa PbConfChangeV2}.
Abbreviation Endpoint := (Endpoint I F R).
Abbreviation ProposeError := (ProposeError I).
Implicit Types (e : Endpoint) (now : Now) (log : L) (stable : S).

(** The entry a leader appends at [index], with its lease stamps. *)
Definition stamped_entry (now : Now) (index : Index) (kind : EntryKind) (data : bytes)
    (e : Endpoint) : Entry * Endpoint :=
  let stamp := lease_stamp (now_mono now) e in
  let window := lease_window_stamp e in
  let '(wall, e) := lease_wall_stamp now e in
  ({| e_term := ep_term e; e_index := index; e_kind := kind; e_data := data;
      e_timestamp := stamp; e_lease_window := window; e_wall_timestamp := wall |}, e).

(** Mint, submit, wait for durability, owe the followers. *)
Definition append_own (entry : Entry) (log : L) (e : Endpoint) : L * Endpoint :=
  let '(opid, e) := mint_op_id e in
  let '(log, e) := submit_append opid [entry] log e in
  (log, (push_pending opid (LeaderAppend (e_index entry)) e) <| ep_replication_pending := true |>).

(** The guards every proposal starts with. *)
Definition may_propose e : result unit ProposeError :=
  if is_poisoned e then Err PePoisoned
  else if negb (Role_is_leader (ep_role e)) then Err (PeNotLeader (ep_leader e))
  else if bool_decide (is_Some (tf_lead_transferee (ep_transfer e)))
  then Err PeLeaderTransferInProgress
  else Ok tt.

(** The tail they share: an index, a stamped entry that fits a frame, the append. *)
Definition append_proposal (now : Now) (kind : EntryKind) (data : bytes) (log : L) (e : Endpoint)
  : result Index ProposeError * L * Endpoint :=
  match next_log_index (log_last_index log) with
  | None => (Err PeLogIndexExhausted, log, e)
  | Some index =>
      let '(entry, e) := stamped_entry now index kind data e in
      let cost := entry_frame_cost entry in
      if APPEND_FRAME_ENTRY_BUDGET <? cost
      then (Err (PeEntryTooLarge cost APPEND_FRAME_ENTRY_BUDGET), log, e)
      else let '(log, e) := append_own entry log e in (Ok index, log, e)
  end.

Definition propose (now : Now) (cmd : sm_command) (log : L) (e : Endpoint)
  : result Index ProposeError * L * Endpoint :=
  match may_propose e with
  | Err r => (Err r, log, e)
  | Ok _ =>
      if merge_freeze_active e then (Err PeFrozen, log, e)
      else append_proposal now EkNormal (data_encode cmd) log e
  end.

Definition propose_split_entry (now : Now) (child payload : bytes) (log : L) (e : Endpoint)
  : result Index ProposeError * L * Endpoint :=
  match may_propose e with
  | Err r => (Err r, log, e)
  | Ok _ =>
      match append_proposal now EkSplit payload log e with
      | (Ok index, log, e) =>
          (Ok index, log,
           e <| ep_split ::= λ s,
                  s <| spl_pending_split_index := index |> <| spl_pending_split_child := child |> |>)
      | r => r
      end
  end.

(** [kind] is one of the merge kinds. *)
Definition propose_merge_entry (now : Now) (kind : EntryKind) (payload : bytes) (log : L)
    (e : Endpoint) : result Index ProposeError * L * Endpoint :=
  match may_propose e with
  | Err r => (Err r, log, e)
  | Ok _ =>
      match append_proposal now kind payload log e with
      | (Ok index, log, e) => (Ok index, log, note_merge_appended kind index e)
      | r => r
      end
  end.

Definition propose_read_mode_change (now : Now) (mode : ReadOnlyOption) (log : L) (e : Endpoint)
  : result Index ProposeError * L * Endpoint :=
  match may_propose e with
  | Err r => (Err r, log, e)
  | Ok _ =>
      if merge_freeze_active e then (Err PeFrozen, log, e)
      else if ep_applied e <? rd_pending_read_mode_index (ep_reads e)
      then (Err PeReadModeChangeInFlight, log, e)
      else if negb (read_mode_change_valid (ep_config e) mode) then (Err PeInvalidReadMode, log, e)
      else match next_log_index (log_last_index log) with
      | None => (Err PeLogIndexExhausted, log, e)
      | Some index =>
          let '(entry, e) :=
            stamped_entry now index EkSetReadMode [low_byte (ReadOnlyOption_as_u8 mode)] e in
          let '(log, e) := append_own entry log e in
          (Ok index, log, e <| ep_reads ::= λ r, r <| rd_pending_read_mode_index := index |> |>)
      end
  end.

(** ** Membership *)

Definition append_conf_change (now : Now) (cc : ConfChangeV2 I) (log : L) (e : Endpoint)
  : option Index * L * Endpoint :=
  if is_poisoned e then (None, log, e)
  else match next_log_index (log_last_index log) with
  | None => (None, log, e)
  | Some index =>
      let '(entry, e) := stamped_entry now index EkConfChange (encode_conf_change_v2 cc) e in
      let '(log, e) := append_own entry log e in
      (Some index, log, e <| ep_pending_conf_index := index |>)
  end.

(** Which rule of the change algebra a payload asks for. *)
Definition change_rule (c : Changer) (cc : ConfChangeV2 I) (tr : Tracker I)
  : result (Tracker I) (ConfChangeError I) :=
  let auto := bool_decide (ccv2_transition cc = Auto) in
  if bool_decide (ccv2_changes cc = []) && auto then Changer_leave_joint tr
  else if negb auto || (1 <? length (ccv2_changes cc))%nat then
    Changer_enter_joint c tr (bool_decide (ccv2_transition cc ≠ Explicit)) (ccv2_changes cc)
  else Changer_simple c tr (ccv2_changes cc).

(** The frame a snapshot of the resulting membership needs, without data. *)
Definition snapshot_meta_frame (conf : ConfState I) e : N :=
  install_snapshot_encoded_len (ep_term e) (cfg_id (ep_config e))
    (SnapshotMeta_new (ep_applied e) 0 conf) 0 u64_max 0.

(** The change is dry-run before it is appended. *)
Definition conf_change_admissible (cc : ConfChangeV2 I) (log : L) e : result unit ProposeError :=
  if negb (forallb (λ c, id_within_wire_bound (ccs_node c)) (ccv2_changes cc))
  then Err PeInvalidConfChange
  else
    let changer := {| ch_last_index := log_last_index log;
                      ch_max_inflight_msgs := cfg_max_inflight_msgs (ep_config e);
                      ch_max_inflight_bytes := cfg_max_inflight_bytes (ep_config e) |} in
    match change_rule changer cc (ep_tracker e) with
    | Err _ => Err PeInvalidConfChange
    | Ok resulting =>
        let meta_frame := snapshot_meta_frame (Tracker_conf_state resulting) e in
        if MAX_SNAPSHOT_META_FRAME_BYTES <? meta_frame
        then Err (PeMembershipTooLargeToSnapshot meta_frame MAX_SNAPSHOT_META_FRAME_BYTES)
        else
          let cost := saturating_add (blen (encode_conf_change_v2 cc)) ENTRY_WIRE_OVERHEAD_MAX in
          if APPEND_FRAME_ENTRY_BUDGET <? cost
          then Err (PeEntryTooLarge cost APPEND_FRAME_ENTRY_BUDGET)
          else Ok tt
    end.

Definition propose_conf_change_v2 (now : Now) (cc : ConfChangeV2 I) (log : L) (e : Endpoint)
  : result Index ProposeError * L * Endpoint :=
  match may_propose e with
  | Err r => (Err r, log, e)
  | Ok _ =>
      if merge_freeze_active e then (Err PeFrozen, log, e)
      else if ep_applied e <? ep_pending_conf_index e then (Err PeConfChangeInFlight, log, e)
      else if merge_conf_fence e log then (Err PeMergeInFlight, log, e)
      else match conf_change_admissible cc log e with
      | Err r => (Err r, log, e)
      | Ok _ =>
          match append_conf_change now cc log e with
          | (Some index, log, e) => (Ok index, log, e)
          | (None, log, e) => (Err PeLogIndexExhausted, log, e)
          end
      end
  end.

Definition propose_conf_change (now : Now) (cc : ConfChange I) : L → Endpoint →
    result Index ProposeError * L * Endpoint :=
  propose_conf_change_v2 now (ConfChange_into_v2 cc).

(** ** Handing over the leadership *)

Definition transfer_leader (now : Now) (to : I) (log : L) (stable : S) (e : Endpoint)
  : result unit (TransferError I) * Endpoint :=
  if is_poisoned e then (Err TePoisoned, e)
  else if negb (Role_is_leader (ep_role e)) then (Err (TeNotLeader (ep_leader e)), e)
  else if mrg_frozen (ep_merge e) then (Err TeFrozen, e)
  else if decide (to = cfg_id (ep_config e)) then (Err TeAlreadyLeader, e)
  else if negb (Tracker_is_voter (ep_tracker e) to) then (Err TeNotAVoter, e)
  else if decide (tf_lead_transferee (ep_transfer e) = Some to) then (Ok tt, e)
  else if tf_forced_handoff_this_term (ep_transfer e)
          && negb (bool_decide (tf_forced_handoff_target (ep_transfer e) = Some to))
  then (Err TeHandoffPending, e)
  else
    let e := e <| ep_transfer ::= λ t,
                    t <| tf_lead_transferee := Some to |>
                      <| tf_transfer_deadline :=
                           Some (Instant_add (now_mono now) (cfg_election_timeout (ep_config e))) |> |>
               <| ep_check_quorum_lease ::= λ q,
                    q <| cq_lease_valid_until := None |> <| cq_lease_acks := ∅ |> |> in
    let target_match := from_option pr_match_index 0 (Tracker_progress (ep_tracker e) to) in
    let e :=
      if target_match =? log_last_index log then
        let e := e <| ep_transfer ::= λ t, t <| tf_forced_handoff_target := Some to |> |> in
        let e := send to (MTimeoutNow
                   {| tn_term := ep_term e; tn_leader := cfg_id (ep_config e) |}) e in
        e <| ep_transfer ::= λ t, t <| tf_forced_handoff_this_term := true |> |>
      else maybe_send_append now to log stable e in
    if is_poisoned e then (Err TePoisoned, e) else (Ok tt, e).

(** ** Merge entries a leader appends by itself *)

Definition ensure_merge_seal (now : Now) (log : L) (e : Endpoint) : bool * L * Endpoint :=
  if negb (Role_is_leader (ep_role e)) then (false, log, e)
  else match mrg_pending_apply (ep_merge e) with
  | None => (false, log, e)
  | Some pending =>
      if negb (log_last_index log =? pma_at pending) then (false, log, e)
      else
        let '(i, log, e) := append_leader_noop now (pma_at pending) log e in
        (bool_decide (is_Some i), log, e)
  end.
End propose.
