(* ===== verification/Handlers.v ===== *)
(** * Entry points of the election path

    [sailing-proto/src/endpoint/mod.rs] and its neighbours: the term pre-pass
    every inbound message goes through, the dispatch of the messages an election
    is made of (vote requests, vote responses, [TimeoutNow]), the timeout of a
    node that is not the leader, and the completions of the stable store. *)

From S2P Require Import Prelude Bytes Num Quorum Progress ProgressMap Conf Tracker Config Lease.
From S2P Require Import Prng ReadOnly Data Entry Storage Restart Message Wire Endpoint.
From S2P Require Import Persistence Merge Replication Election.

Section handlers.
Context {I F R L S : Type} `{!NodeId I, !StateMachine F, !Rng R, !LogStore L, !StableStore I S}.
Context {DI : Data I} {BS : BuffaSizes}.
Abbreviation Endpoint := (Endpoint I F R).
Implicit Types (e : Endpoint) (now : Now) (log : L) (stable : S).

(** ** The term pre-pass *)

Definition advertised_prevote (msg : Message I) : bool :=
  match msg with
  | MRequestVote rv => rv_pre_vote rv
  | MVoteResponse vr => vr_pre_vote vr && negb (vr_reject vr)
  | _ => false
  end.

(** A real vote request that a live leader's follower ignores. *)
Definition ignored_in_lease (now : Now) (msg : Message I) e : bool :=
  match msg with
  | MRequestVote rv =>
      negb (rv_leader_transfer rv)
      && ((cfg_check_quorum (ep_config e) || cfg_pre_vote (ep_config e))
          && bool_decide (is_Some (ep_leader e))
          && match ep_election_deadline e with Some d => now_mono now <? d | None => false end)
  | _ => false
  end.

Definition adopt_term (term : Term) (e : Endpoint) : Endpoint :=
  let e := e <| ep_term := term |> <| ep_role := Follower |> <| ep_voted_for := None |> in
  let e := set_leader None e in
  e <| ep_pending_log := [] |> <| ep_pending_stable := [] |>
    <| ep_reads ::= λ r,
         r <| rd_read_only ::= ReadOnly_reset (rd_active_read_mode r) |>
           <| rd_pending_reads := [] |> |>
    <| ep_transfer ::= λ t,
         t <| tf_lead_transferee := None |> <| tf_transfer_deadline := None |> |>.

Definition is_prevote_request (msg : Message I) : bool :=
  match msg with MRequestVote rv => rv_pre_vote rv | _ => false end.

Definition is_leader_message (msg : Message I) : bool :=
  match msg with MHeartbeat _ | MAppendEntries _ => true | _ => false end.

Definition sender_real_term (msg : Message I) : Term :=
  match msg with
  | MRequestVote rv => if rv_pre_vote rv then saturating_sub (rv_term rv) 1 else rv_term rv
  | _ => Message_term msg
  end.

(** What a leader notes of a sender that is still talking to it. *)
Definition note_sender (now : Now) (from : I) (msg : Message I) (stable : S) (e : Endpoint)
  : Endpoint :=
  if Role_is_leader (ep_role e) then
    match Tracker_progress (ep_tracker e) from with
    | Some _ =>
        e <| ep_tracker ::= Tracker_progress_mut from (Progress_set_recent_active true) |>
    | None =>
        match ep_courtesy_owed e !! from with
        | Some _ =>
            let seen := sender_real_term msg in
            let e := e <| ep_courtesy_owed ::= alter (λ d,
                           d <| cy_last_seen_term ::= λ t,
                                  Some (match t with Some p => N.max p seen | None => seen end) |>)
                         from |> in
            maybe_send_courtesy_snapshot now from stable e
        | None => e
        end
    end
  else e.

(** The flag tells whether the message reaches its handler. *)
Definition message_prepass (now : Now) (from : I) (msg : Message I) (stable : S) (e : Endpoint)
  : bool * Endpoint :=
  if is_poisoned e then (false, e)
  else if decide (Message_from msg ≠ from) then (false, e)
  else
    let higher := (ep_term e <? Message_term msg) && negb (advertised_prevote msg) in
    if higher && ignored_in_lease now msg e then (false, e)
    else
      let e := if higher then adopt_term (Message_term msg) e else e in
      if (Message_term msg <? ep_term e) && negb (is_prevote_request msg) then
        let nudge := (cfg_check_quorum (ep_config e) || cfg_pre_vote (ep_config e))
                     && is_leader_message msg in
        (false,
         if nudge then
           send from (MAppendResponse
             (AppendResponse_new (ep_term e) (cfg_id (ep_config e)) true 0 0 0)) e
         else e)
      else (true, note_sender now from msg stable e).

(** ** Leadership transfer, on the receiving side *)

Definition on_timeout_now (now : Now) (tn : TimeoutNow I) (log : L) (stable : S) (e : Endpoint)
  : S * Endpoint :=
  if decide (ep_leader e ≠ Some (tn_leader tn)) then (stable, e)
  else if negb (is_voter_self e) then (stable, e)
  else become_candidate now true log stable e.

(** ** Timeouts outside office *)

Definition drive_stuck_advertisement (now : Now) (e : Endpoint) : Endpoint :=
  match merge_park_unresolvable e with
  | None => e <| ep_merge ::= λ m, m <| mrg_stuck_advert_next_at := None |> |>
  | Some boundary =>
      if Role_is_leader (ep_role e) then e
      else match ep_leader e with
      | None => e
      | Some leader =>
          if match mrg_stuck_advert_next_at (ep_merge e) with
             | Some at_ => now_mono now <? at_
             | None => false
             end
          then e
          else
            send leader (MHeartbeatResponse
              {| hr_term := ep_term e; hr_from := cfg_id (ep_config e); hr_context := [];
                 hr_lease_round := 0; hr_lease_support := 0; hr_stuck_boundary := boundary |})
              (e <| ep_merge ::= λ m,
                      m <| mrg_stuck_advert_next_at :=
                        Some (Instant_add (now_mono now)
                                (cfg_election_timeout (ep_config e))) |> |>)
      end
  end.

Definition CURE_EXPIRY_TIMEOUTS : N := 3.
Definition COURTESY_DEBT_CAP : nat := 64.

(** [min_by_key] keeps the first of equals. *)
Fixpoint min_by_deadline (l : list (I * Instant)) : option (I * Instant) :=
  match l with
  | [] => None
  | x :: l =>
      match min_by_deadline l with
      | Some y => if y.2 <? x.2 then Some y else Some x
      | None => Some x
      end
  end.

(** The service history yields its oldest deadline at the cap. *)
Definition note_served (peer : I) (until : Instant) (m : gmap I Instant) : gmap I Instant :=
  let m :=
    if bool_decide (m !! peer = None) && (COURTESY_DEBT_CAP <=? size m)%nat then
      match min_by_deadline (btree_map_iter m) with
      | Some (oldest, _) => delete oldest m
      | None => m
      end
    else m in
  <[peer := until]> m.

Definition maybe_send_cure_snapshot (now : Now) (peer : I) (stable : S) (e : Endpoint)
  : Endpoint :=
  if negb (Role_is_leader (ep_role e)) then e
  else match ep_cure_owed e !! peer with
  | None => e
  | Some debt =>
      if bool_decide (Tracker_progress (ep_tracker e) peer = None)
      then e <| ep_cure_owed ::= delete peer |>
      else if before_deadline now (cu_next_at debt) then e
      else if before_deadline now (ep_cure_send_gate e) then e
      else match stable_snapshot_chunk stable 0 MAX_SNAPSHOT_CHUNK_BYTES with
      | None => e
      | Some (Err _) => poison SnapshotRead e
      | Some (Ok (meta, total, chunk)) =>
          if sm_last_index meta <? cu_boundary debt then e
          else match chunk with
          | ChunkPending => e
          | ChunkReady blob =>
              let term := ep_term e in
              let me := cfg_id (ep_config e) in
              let encoded := install_snapshot_encoded_len term me meta 0 0 total in
              if negb (N.of_nat (length blob) =? total)
                 || (MAX_FRAME_BYTES <? saturating_add encoded GROUP_HEADER_RESERVE)
              then e <| ep_outputs ::= λ o,
                          o <| ou_events ::= λ q,
                                 q ++ [EvMergeCureUndeliverable peer (cu_boundary debt)] |> |>
              else
                let interval := COURTESY_COOLDOWN_TIMEOUTS * cfg_election_timeout (ep_config e) in
                let until := Instant_add (now_mono now) interval in
                e <| ep_cure_owed ::= alter (λ d, d <| cu_next_at := Some until |>) peer |>
                  <| ep_cure_served ::= note_served peer until |>
                  <| ep_cure_send_gate :=
                       Some (Instant_add (now_mono now)
                               (cfg_election_timeout (ep_config e) / 2)) |>
                  <| ep_outputs ::= λ o,
                       o <| ou_outgoing ::= λ q,
                              q ++ [{| out_to := peer;
                                       out_message := MInstallSnapshot
                                         {| is_term := term; is_leader := me; is_snapshot := meta;
                                            is_data := blob; is_offset := 0;
                                            is_total_len := 0 |} |}] |> |>
          end
      end
  end.

Definition due_at (now : Now) (t : option Instant) : bool :=
  match t with Some at_ => at_ <=? now_mono now | None => false end.

(** The due debts, never-served ones first, rotated past the cursor. *)
Definition cure_due (now : Now) e : list I :=
  let owed := btree_map_iter (ep_cure_owed e) in
  let due := map fst (filter (λ p, cu_next_at p.2 = None) owed) in
  let due :=
    match due with
    | [] => map fst (filter (λ p, due_at now (cu_next_at p.2) = true) owed)
    | _ => due
    end in
  match ep_cure_cursor e with
  | Some cursor =>
      let split := length (filter (λ p, nid_cmp p cursor ≠ Gt) due) in
      drop split due ++ take split due
  | None => due
  end.

Definition drive_cure_sweep (now : Now) (stable : S) (e : Endpoint) : Endpoint :=
  if bool_decide (ep_cure_owed e = ∅) then e
  else
    let expiry := cfg_election_timeout (ep_config e) * CURE_EXPIRY_TIMEOUTS in
    let e := e <| ep_cure_owed ::= filter (λ p,
                    Instant_duration_since (now_mono now) (cu_refreshed_at p.2) ≤ expiry) |> in
    if negb (Role_is_leader (ep_role e)) then e
    else
      let due := cure_due now e in
      let e := match due with
               | first :: _ => e <| ep_cure_cursor := Some first |>
               | [] => e
               end in
      foldl (λ e peer, maybe_send_cure_snapshot now peer stable e) e due.

(** The campaign of an elapsed election timer. *)
Definition election_timer_fired (now : Now) (log : L) (stable : S) (e : Endpoint) : S * Endpoint :=
  let e := e <| ep_election_deadline := None |> in
  if is_voter_self e then
    if cfg_pre_vote (ep_config e) then
      match become_pre_candidate now log e with
      | (true, e) => become_candidate now false log stable e
      | (false, e) => (stable, e)
      end
    else become_candidate now false log stable e
  else (stable, e).

(** [handle_timeout] of a node that is not the leader. *)
Definition handle_timeout_idle (now : Now) (log : L) (stable : S) (e : Endpoint) : S * Endpoint :=
  if is_poisoned e then (stable, e)
  else
    let e := drive_stuck_advertisement now e in
    let e := drive_cure_sweep now stable e in
    let '(stable, e) :=
      if due_at now (ep_election_deadline e)
      then election_timer_fired now log stable e else (stable, e) in
    (stable, reconcile_election_timer now e).

(** ** Completions

    One round of [handle_storage]'s drain of the stable store that finds a
    completed hard-state write or a failure; a completed snapshot write is not
    part of this path. *)
Definition on_stable_poll (now : Now) (done : result StableDone stable_error) (log : L) (stable : S)
    (e : Endpoint) : option (L * Endpoint) :=
  match done with
  | Ok (Wrote opid) => Some (on_stable_wrote now opid log stable e)
  | Ok (SnapshotWritten _) => None
  | Err _ => Some (log, poison StablePoll e)
  end.
End handlers.
