(* ===== verification/Commit.v ===== *)
(** * The commit rule and the leader's loose ends

    [sailing-proto/src/endpoint/replication.rs] ([maybe_advance_commit] with the
    lease waits that hold it back, [pump_appends], the conflict search, the
    hand-off to a transferee) and [endpoint/mod.rs] (the farewells, courtesy and
    cure debts a leader keeps for peers that left or are stuck). *)

From S2P Require Import Prelude Bytes Num Quorum Progress ProgressMap Conf Tracker Config Lease.
From S2P Require Import Prng ReadOnly Data Entry Storage Shape Restart Wire Message Codec.
From S2P Require Import Endpoint Merge Persistence Replication Election Propose Handlers.

Definition CONFLICT_WALK_BUDGET : nat := 1024.
Definition FAREWELL_RETRY_SHOTS : N := 2.

(** [min_by_key] keeps the first of equals, [max_by_key] the last. *)
Fixpoint min_by_key {A} (key : A → N) (l : list A) : option A :=
  match l with
  | [] => None
  | x :: l =>
      match min_by_key key l with
      | Some y => if key y <? key x then Some y else Some x
      | None => Some x
      end
  end.

Fixpoint max_by_key {A} (key : A → N) (l : list A) : option A :=
  match l with
  | [] => None
  | x :: l =>
      match max_by_key key l with
      | Some y => if key y <? key x then Some x else Some y
      | None => Some x
      end
  end.

Section commit.
Context {I F R L S : Type} `{!NodeId I, !StateMachine F, !Rng R, !LogStore L, !StableStore I S}.
Context {DI : Data I} {BS : BuffaSizes}.
Abbreviation Endpoint := (Endpoint I F R).
Implicit Types (e : Endpoint) (now : Now) (log : L) (stable : S).

(** ** The commit wait *)

Definition precise_release_ready (now : Now) e : bool :=
  match cfg_bounded_clock_uncertainty (ep_config e) with
  | None => false
  | Some eps =>
      let g := ep_lease_guard e in
      if Wall_is_absent (now_wall now) then false
      else if (lg_inherited_release_deadline g =? 0)
              && bool_decide (lg_unwalled_commit_wait_until g = None)
      then false
      else walled_wall_released (now_wall now) (lg_inherited_release_deadline g) (eps_nanos eps)
           && match lg_unwalled_commit_wait_until g with
              | Some until => until <=? now_mono now
              | None => true
              end
  end.

Definition walled_lease_vetoes_conservative (now : Now) e : bool :=
  let g := ep_lease_guard e in
  if lg_inherited_release_deadline g =? 0 then false
  else if lg_commit_wait_inflated g then false
  else match cfg_bounded_clock_uncertainty (ep_config e) with
  | None => true
  | Some eps =>
      if Wall_is_absent (now_wall now) then true
      else negb (walled_wall_released (now_wall now) (lg_inherited_release_deadline g)
                   (eps_nanos eps))
  end.

(** What the wait becomes now; [false] is a wait that cannot be represented. *)
Definition settle_commit_wait (now : Now) (e : Endpoint) : bool * Endpoint :=
  match lg_commit_wait_until (ep_lease_guard e) with
  | None => (true, e)
  | Some until =>
      let conservative_mono := until <=? now_mono now in
      let walled_vetoes := conservative_mono && walled_lease_vetoes_conservative now e in
      let conservative := conservative_mono && negb walled_vetoes in
      let precise := negb conservative && precise_release_ready now e in
      if conservative || precise then
        (true, e <| ep_lease_guard ::= λ g,
                      g <| lg_commit_wait_until := None |>
                        <| lg_precise_releases ::= λ n, if precise then n + 1 else n |> |>)
      else if walled_vetoes then
        let unprovable := Wall_is_absent (now_wall now)
                          || bool_decide (cfg_bounded_clock_uncertainty (ep_config e) = None) in
        let e := if unprovable
                 then e <| ep_lease_guard ::= λ g,
                             g <| lg_unprovable_floor_holds ::= λ n, saturating_add n 1 |> |>
                 else e in
        let heartbeat := cfg_heartbeat_interval (ep_config e) in
        if now_mono now + heartbeat <=? Duration_MAX then
          (true, e <| ep_lease_guard ::= λ g,
                        g <| lg_commit_wait_until := Some (Instant_add (now_mono now) heartbeat) |> |>)
        else
          (false, poison CommitWaitUnrepresentable
                    (e <| ep_lease_guard ::= λ g, g <| lg_commit_wait_until := None |> |>))
      else (true, e)
  end.

Definition maybe_advance_commit (now : Now) (log : L) (e : Endpoint) : Endpoint :=
  if is_poisoned e then e
  else match settle_commit_wait now e with
  | (false, e) => e
  | (true, e) =>
      let candidate := Tracker_quorum_committed (ep_tracker e) in
      let '(t, e) := read_log_term log candidate e in
      let current_term := match t with Some t => t =? ep_term e | None => false end in
      if (ep_commit e <? candidate) && current_term then
        if bool_decide (is_Some (lg_commit_wait_until (ep_lease_guard e))) then e
        else e <| ep_commit := candidate |>
               <| ep_lease_guard ::= λ g, g <| lg_read_since_anchor := false |> |>
      else e
  end.

(** ** Keeping a peer's window full *)

(** Each round moves the peer's next index up, so one round per entry the peer
    lacks and one more are enough ([pump_loop_fuel]). *)
Fixpoint pump_loop (fuel : nat) (now : Now) (peer : I) (log : L) (stable : S) (e : Endpoint)
  : Endpoint :=
  match fuel with
  | O => e
  | Datatypes.S fuel =>
      match Tracker_progress (ep_tracker e) peer with
      | None => e
      | Some pr =>
          if Progress_is_paused pr then e
          else
            let e := maybe_send_append now peer log stable e in
            if is_poisoned e then e
            else match Tracker_progress (ep_tracker e) peer with
            | None => e
            | Some pr' =>
                if pr_next_index pr' =? pr_next_index pr then e
                else pump_loop fuel now peer log stable e
            end
      end
  end.

Definition pump_fuel (log : L) (peer : I) e : nat :=
  let next := from_option pr_next_index 0 (Tracker_progress (ep_tracker e) peer) in
  Datatypes.S (N.to_nat (counter_next (log_last_index log) - next)).

Definition pump_appends (now : Now) (peer : I) (log : L) (stable : S) (e : Endpoint) : Endpoint :=
  if is_poisoned e then e else pump_loop (pump_fuel log peer e) now peer log stable e.

(** ** The conflict search *)

(** At most [budget] steps below [index]. *)
Fixpoint conflict_walk (budget : nat) (log : L) (floor index : Index) (term : Term) (e : Endpoint)
  : option Index * Endpoint :=
  if index <? floor then (Some index, e)
  else match budget with
  | O => (Some index, e)
  | Datatypes.S budget =>
      match read_log_term log index e with
      | (None, e) => (None, e)
      | (Some t, e) =>
          if t <=? term then (Some index, e)
          else conflict_walk budget log floor (index - 1) term e
      end
  end.

Definition find_conflict_by_term (log : L) (index : Index) (term : Term) (e : Endpoint)
  : option Index * Endpoint :=
  conflict_walk CONFLICT_WALK_BUDGET log (log_first_index log) index term e.

Definition match_within_log (match_index : Index) (log : L) : bool :=
  match_index <=? log_last_index log.

Definition maybe_hand_off_to_transferee (from : I) (log : L) (e : Endpoint) : Endpoint :=
  if decide (tf_lead_transferee (ep_transfer e) = Some from) then
    let peer_match := from_option pr_match_index 0 (Tracker_progress (ep_tracker e) from) in
    if peer_match =? log_last_index log then
      let e := e <| ep_transfer ::= λ t, t <| tf_forced_handoff_target := Some from |> |> in
      let e := send from (MTimeoutNow
                 {| tn_term := ep_term e; tn_leader := cfg_id (ep_config e) |}) e in
      e <| ep_transfer ::= λ t, t <| tf_forced_handoff_this_term := true |> |>
    else e
  else e.

(** ** Farewells *)

(** The entries from the peer's match up to its removal, when they fit a frame. *)
Definition send_farewell_append (log : L) (peer : I) (matched removal : Index) (e : Endpoint)
  : bool * Endpoint :=
  let next := counter_next matched in
  if next <? log_first_index log then (false, e)
  else match (if matched =? 0 then (Some 0, e) else read_log_term log matched e) with
  | (None, e) => (false, e)
  | (Some prev_term, e) =>
      let read_end := N.min (counter_next removal) (saturating_add next MAX_READ_BATCH_ENTRIES) in
      match log_entries log next read_end APPEND_FRAME_ENTRY_BUDGET with
      | Err _ => (false, poison LogRead e)
      | Ok Pending_ => (false, e)
      | Ok (Ready suffix) =>
          if match last suffix with Some x => negb (e_index x =? removal) | None => true end
          then (false, e)
          else
            let frame_used :=
              foldl (λ n x, saturating_add n (entry_frame_cost x)) 0 suffix in
            if APPEND_FRAME_ENTRY_BUDGET <? frame_used then (false, e)
            else
              (true, send peer (MAppendEntries
                       {| ae_term := ep_term e; ae_leader := cfg_id (ep_config e);
                          ae_prev_log_index := matched; ae_prev_log_term := prev_term;
                          ae_entries := suffix; ae_leader_commit := removal |}) e)
      end
  end.

Definition send_farewell (log : L) (peer : I) (matched idx : Index) (e : Endpoint) : Endpoint :=
  let '(sent, e) :=
    if matched <? idx then send_farewell_append log peer matched idx e else (false, e) in
  if sent then e
  else if is_poisoned e then e
  else send peer (MHeartbeat
         (Heartbeat_new (ep_term e) (cfg_id (ep_config e)) (N.min (ep_commit e) matched) [])) e.

(** The retries are visited in the order of the map, out of the endpoint. *)
Definition drive_pending_farewells (now : Now) (log : L) (e : Endpoint) : Endpoint :=
  if ep_applied e <? ep_term_start_index e then e
  else if negb (Role_is_leader (ep_role e)) then e
  else if bool_decide (ep_pending_farewells e = ∅) then e
  else
    let interval := cfg_election_timeout (ep_config e) in
    let '(kept, e) :=
      foldl (λ '(kept, e) '(peer, retry),
          if before_deadline now (fw_next_at retry) then (<[peer := retry]> kept, e)
          else
            let e := if is_poisoned e then e
                     else send_farewell log peer (fw_matched retry) (fw_idx retry) e in
            let shots := fw_shots_left retry - 1 in
            (if shots =? 0 then kept
             else <[peer := retry <| fw_shots_left := shots |>
                                  <| fw_next_at :=
                                       Some (Instant_add (now_mono now) interval) |>]> kept, e))
        (∅, e <| ep_pending_farewells := ∅ |>) (btree_map_iter (ep_pending_farewells e)) in
    e <| ep_pending_farewells := kept |>.

(** ** Courtesy and cure debts *)

Definition note_courtesy_debt (peer : I) (removal_index : Index) (e : Endpoint) : Endpoint :=
  let evict m :=
    if bool_decide (m !! peer = None) && (COURTESY_DEBT_CAP <=? size m)%nat then
      match min_by_key (λ p, cy_removal_index p.2) (btree_map_iter m) with
      | Some (oldest, _) => delete oldest m
      | None => m
      end
    else m in
  e <| ep_courtesy_owed ::= λ m,
         <[peer := {| cy_removal_index := removal_index; cy_offered_index := None;
                      cy_next_at := None; cy_last_seen_term := None |}]> (evict m) |>.

Definition note_courtesy_debt_at_boundary (peer : I) (boundary : Index) (e : Endpoint)
  : Endpoint :=
  match ep_courtesy_owed e !! peer with
  | Some debt =>
      if boundary <=? cy_removal_index debt then e else note_courtesy_debt peer boundary e
  | None => note_courtesy_debt peer boundary e
  end.

Definition drive_courtesy_offers (now : Now) (stable : S) (e : Endpoint) : Endpoint :=
  if negb (Role_is_leader (ep_role e)) || bool_decide (ep_courtesy_owed e = ∅) then e
  else if ep_applied e <? ep_term_start_index e then e
  else
    let due := map fst (filter (λ p, before_deadline now (cy_next_at p.2) = false)
                          (btree_map_iter (ep_courtesy_owed e))) in
    foldl (λ e peer, maybe_send_courtesy_snapshot now peer stable e) e due.

(** At the cap, a debt that was served yields its place; with none, the newcomer
    is refused. *)
Definition cure_place (peer : I) e : option (gmap I CureDebt) :=
  let m := ep_cure_owed e in
  if bool_decide (m !! peer = None) && (COURTESY_DEBT_CAP <=? size m)%nat then
    match max_by_key (λ p, default 0 (cu_next_at p.2))
            (filter (λ p, cu_next_at p.2 ≠ None) (btree_map_iter m)) with
    | Some (victim, _) => Some (delete victim m)
    | None => None
    end
  else Some m.

Definition note_cure_debt (now : Now) (peer : I) (boundary : Index) (e : Endpoint) : Endpoint :=
  match cure_place peer e with
  | None => e
  | Some m =>
      let inherited := match ep_cure_served e !! peer with
                       | Some at_ => if now_mono now <? at_ then Some at_ else None
                       | None => None
                       end in
      let entry := default {| cu_boundary := boundary; cu_next_at := inherited;
                              cu_refreshed_at := now_mono now |} (m !! peer) in
      e <| ep_cure_owed :=
             <[peer := entry <| cu_boundary ::= λ b, N.max b boundary |>
                             <| cu_refreshed_at := now_mono now |>]> m |>
  end.

(** A leader whose own park cannot be resolved hands over to the voter that is
    furthest along. *)
Definition handoff_target e : option I :=
  if tf_forced_handoff_this_term (ep_transfer e) then tf_forced_handoff_target (ep_transfer e)
  else
    fst <$> max_by_key (λ p, pr_match_index p.2)
              (filter (λ p, p.1 ≠ cfg_id (ep_config e)
                            ∧ Tracker_is_voter (ep_tracker e) p.1 = true
                            ∧ ep_cure_owed e !! p.1 = None)
                 (tr_progress (ep_tracker e))).

Definition drive_parked_leader_handoff (now : Now) (log : L) (stable : S) (e : Endpoint)
  : Endpoint :=
  if negb (Role_is_leader (ep_role e)) || bool_decide (merge_park_unresolvable e = None)
     || bool_decide (is_Some (tf_lead_transferee (ep_transfer e)))
  then e
  else match handoff_target e with
       | None => e
       | Some to => (transfer_leader now to log stable e).2
       end.
End commit.
