(* ===== verification/Apply.v ===== *)
(** * Applying committed entries

    [apply_committed] of [sailing-proto/src/endpoint/mod.rs]: the entries between
    [applied] and [commit], in order, each kind with its effect on the state
    machine, the membership, the read mode and the shape of the group. *)

From S2P Require Import Prelude Bytes Num Quorum Progress ProgressMap Conf Tracker ConfChange.
From S2P Require Import Config Lease Prng ReadOnly Data Frame Entry Storage Shape Restart Wire.
From S2P Require Import Message Codec Endpoint Merge Persistence Replication Election Propose.
From S2P Require Import Handlers Commit.

(** What one entry does to the loop: it is applied, the endpoint is poisoned and
    the batch abandoned, or the loop parks before it. *)
Inductive ApplyStep := AsApplied | AsPoisoned | AsParked.

#[global] Instance ApplyStep_eq_dec : EqDecision ApplyStep.
Proof. solve_decision. Defined.
#[global] Instance ApplyDrain_eq_dec : EqDecision ApplyDrain.
Proof. solve_decision. Defined.

Definition APPLY_READ_MAX_BYTES : u64 := 1048576.

Definition shape_payload_reserves (gens : list u64) : bool :=
  existsb (λ g, negb (generation_is_working g)) gens.

Definition Role_is_follower (r : Role) : bool := match r with Follower => true | _ => false end.

Section apply.
Context {I F R L : Type} `{!NodeId I, !StateMachine F, !Rng R, !LogStore L}.
Context {DI : Data I} {BS : BuffaSizes} {DC : Data sm_command} {DS : Data sm_snapshot}.
Context {BD : BuffaDecode} {BC : Buffa PbConfChangeV2}.
Abbreviation Endpoint := (Endpoint I F R).
Implicit Types (e : Endpoint) (log : L) (x : Entry).

Definition apply_normal x (e : Endpoint) : ApplyStep * Endpoint :=
  match decode_exact (T := sm_command) (e_data x) with
  | Err _ => (AsPoisoned, poison NormalEntryDecode e)
  | Ok cmd =>
      match sm_apply (e_index x) cmd (ep_fsm e) with
      | (Ok response, fsm) =>
          (AsApplied, push_event (EvApplied (e_index x) response) (e <| ep_fsm := fsm |>))
      | (Err _, fsm) => (AsPoisoned, poison Apply (e <| ep_fsm := fsm |>))
      end
  end.

(** A split minted against another generation of the group is only reported. *)
Definition apply_split x (e : Endpoint) : ApplyStep * Endpoint :=
  match decode_split_payload (e_data x) with
  | Err _ => (AsPoisoned, poison SplitDecode e)
  | Ok p =>
      if shape_payload_reserves [sp_parent_gen_after p; sp_child_gen p]
      then (AsPoisoned, poison ReservedShapeGen e)
      else if decide (Some (sp_parent_gen_after p) ≠ next_lineage (spl_shape_gen (ep_split e)))
      then (AsApplied, push_event (EvSplitStale (e_index x) (sp_child p) (sp_parent_gen_after p)
                                     (spl_shape_gen (ep_split e))) e)
      else
        let '(child, fsm) := sm_split (sp_instruction p) (ep_fsm e) in
        let e := e <| ep_fsm := fsm |> in
        match child with
        | None => (AsPoisoned, poison SplitUnsupported e)
        | Some child =>
            match sm_take_snapshot child with
            | Err _ => (AsPoisoned, poison SnapshotCapture e)
            | Ok snap =>
                let fork :=
                  {| pf_child_bytes := sp_child p; pf_child_gen := sp_child_gen p;
                     pf_parent_gen_after := sp_parent_gen_after p; pf_blob := data_encode snap;
                     pf_voters := btree_iter (cs_voters (Tracker_conf_state (ep_tracker e)));
                     pf_read_only := if rd_read_mode_migrated (ep_reads e)
                                     then Some (rd_active_read_mode (ep_reads e)) else None;
                     pf_index := e_index x; pf_split_term := e_term x |} in
                (AsApplied,
                 push_event (EvSplitApplied (e_index x) (sp_child p))
                   (e <| ep_split ::= λ s,
                           s <| spl_shape_gen ::= λ g, N.max g (sp_parent_gen_after p) |>
                             <| spl_outstanding ::= λ o, {[e_index x]} ∪ o |>
                             <| spl_forked_fsms ::= λ q, q ++ [child] |>
                             <| spl_pending_forks ::= λ q, q ++ [fork] |> |>))
            end
        end
  end.

Definition apply_prepare_merge x (e : Endpoint) : ApplyStep * Endpoint :=
  match decode_prepare_merge_payload (e_data x) with
  | Err _ => (AsPoisoned, poison MergeDecode (clear_freeze_queue e))
  | Ok p =>
      if shape_payload_reserves [pm_source_gen_after p]
      then (AsPoisoned, poison ReservedShapeGen (clear_freeze_queue e))
      else
        let e := pop_applied_freeze (e_index x) e in
        let e := e <| ep_merge ::= λ m,
                        m <| mrg_frozen := true |> <| mrg_freeze_index := Some (e_index x) |>
                          <| mrg_freeze_term := Some (e_term x) |>
                          <| mrg_frozen_for := Some (pm_target p) |> |> in
        let e := raise_shape_gen (pm_source_gen_after p) e in
        (AsApplied, push_event (EvMergeFrozen (e_index x) (spl_shape_gen (ep_split e))) e)
  end.

Definition merge_aborted x (source : bytes) (e : Endpoint) : Endpoint :=
  push_event (EvMergeAborted (e_index x) source (spl_shape_gen (ep_split e))) e.

Definition apply_commit_merge x (e : Endpoint) : ApplyStep * Endpoint :=
  match decode_commit_merge_payload (e_data x) with
  | Err _ => (AsPoisoned, poison MergeDecode e)
  | Ok p =>
      if shape_payload_reserves [cm_source_gen_after p; cm_target_gen_after p]
      then (AsPoisoned, poison ReservedShapeGen e)
      else if decide (Some (cm_target_gen_after p) ≠ next_lineage (spl_shape_gen (ep_split e)))
      then (AsApplied, merge_aborted x (cm_source p) e)
      else if abandoned_matches e (cm_source p) (cm_source_gen_after p)
      then (AsApplied, merge_aborted x (cm_source p) e)
      else
        (AsParked,
         e <| ep_merge ::= λ m,
                m <| mrg_pending_apply :=
                       Some (PendingMergeApply_new_parked (cm_source p) (cm_freeze_index p)
                               (cm_freeze_term p) (cm_source_gen_after p) (cm_target_gen_after p)
                               (e_index x)) |> |>)
  end.

Definition apply_rollback_merge x (e : Endpoint) : ApplyStep * Endpoint :=
  match decode_rollback_merge_payload (e_data x) with
  | Err _ => (AsPoisoned, poison MergeDecode e)
  | Ok p =>
      if shape_payload_reserves [rm_source_gen_after p; rm_target_gen_after p]
      then (AsPoisoned, poison ReservedShapeGen e)
      else
        let next := next_lineage (spl_shape_gen (ep_split e)) in
        if RollbackMergePayload_is_unfreeze p then
          if mrg_frozen (ep_merge e) && bool_decide (Some (rm_source_gen_after p) = next) then
            let e := e <| ep_merge ::= λ m,
                            m <| mrg_frozen := false |> <| mrg_freeze_index := None |>
                              <| mrg_freeze_term := None |> <| mrg_frozen_for := None |> |> in
            let e := raise_shape_gen (rm_source_gen_after p) e in
            (AsApplied, push_event (EvMergeRolledBack (e_index x) (spl_shape_gen (ep_split e))) e)
          else (AsApplied, e)
        else if bool_decide (Some (rm_target_gen_after p) = next) then
          let e := raise_shape_gen (rm_target_gen_after p) e in
          let e := note_abandoned (rm_source p) (rm_source_gen_after p) (e_index x) e in
          (AsApplied, merge_aborted x (rm_source p) e)
        else (AsApplied, e)
  end.

Definition apply_thaw_discharged x (e : Endpoint) : ApplyStep * Endpoint :=
  match decode_thaw_discharged_payload (e_data x) with
  | Err _ => (AsPoisoned, poison MergeDecode e)
  | Ok p =>
      (AsApplied,
       if abandoned_matches e (td_source p) (td_generation p)
       then clear_abandoned (td_source p) e else e)
  end.

Definition clear_lease (e : Endpoint) : Endpoint :=
  e <| ep_check_quorum_lease ::= λ q,
         q <| cq_lease_valid_until := None |> <| cq_lease_acks := ∅ |> |>.

Definition apply_set_read_mode x (e : Endpoint) : ApplyStep * Endpoint :=
  match (match e_data x with [b] => ReadOnlyOption_from_u8 (byte_val b) | _ => None end) with
  | None => (AsPoisoned, poison SetReadModeDecode e)
  | Some mode =>
      let e := e <| ep_reads ::= λ r,
                      r <| rd_active_read_mode := mode |> <| rd_read_mode_migrated := true |>
                        <| rd_read_only ::= ReadOnly_set_option mode |> |> in
      (AsApplied, push_event (EvReadModeChanged (e_index x) mode) (clear_lease e))
  end.

(** *** Membership *)

(** The peers the change removes, with what each is known to hold. *)
Definition removed_peers (new_tracker : Tracker I) e : list (I * Index) :=
  omap (λ '(peer, pr),
      if decide (peer = cfg_id (ep_config e)) then None
      else match Tracker_progress new_tracker peer with
           | Some _ => None
           | None => Some (peer, pr_match_index pr)
           end)
    (tr_progress (ep_tracker e)).

(** A leader's farewell to each of them, abandoned once poisoned. *)
Fixpoint farewell_removed (log : L) (idx : Index) (gated : bool) (peers : list (I * Index))
    (e : Endpoint) : Endpoint :=
  match peers with
  | [] => e
  | (peer, matched) :: peers =>
      if is_poisoned e then e
      else
        let e := if gated then e else send_farewell log peer matched idx e in
        if is_poisoned e then e
        else
          farewell_removed log idx gated peers
            (e <| ep_pending_farewells ::= insert peer
                    {| fw_matched := matched; fw_idx := idx;
                       fw_shots_left := if gated then FAREWELL_RETRY_SHOTS + 1
                                        else FAREWELL_RETRY_SHOTS;
                       fw_next_at := None |} |>)
  end.

(** The new configuration takes over. *)
Definition adopt_tracker (new_tracker : Tracker I) (e : Endpoint) : Endpoint :=
  let gone (peer : I) := Tracker_progress new_tracker peer = None in
  let e := clear_lease (e <| ep_tracker := new_tracker |>) in
  e <| ep_snapshot ::= λ s,
         s <| ss_snapshot_resend_after ::= filter (λ p, ¬ gone p.1) |> |>
    <| ep_pending_farewells ::= filter (λ p, gone p.1) |>
    <| ep_courtesy_owed ::= filter (λ p, gone p.1) |>.

(** A node that is no longer a voter steps down, and a transfer to one that is
    not is dropped. *)
Definition after_conf_change (e : Endpoint) : Endpoint :=
  let drop_transfer e :=
    e <| ep_transfer ::= λ t,
           t <| tf_lead_transferee := None |> <| tf_transfer_deadline := None |> |> in
  let e :=
    if negb (Role_is_follower (ep_role e)) && cfg_step_down_on_removal (ep_config e)
       && negb (is_voter_self e)
    then
      let e := set_leader None (e <| ep_role := Follower |>) in
      let e := e <| ep_heartbeat_deadline := None |> <| ep_election_deadline := None |> in
      (drop_transfer e) <| ep_pending_farewells := ∅ |> <| ep_courtesy_owed := ∅ |>
    else e in
  match tf_lead_transferee (ep_transfer e) with
  | Some t => if negb (Tracker_is_voter (ep_tracker e) t) then drop_transfer e else e
  | None => e
  end.

Definition apply_conf_change log x (e : Endpoint) : ApplyStep * Endpoint :=
  match decode_conf_change_v2 (I := I) (e_data x) with
  | Err _ => (AsPoisoned, poison ConfChangeDecode e)
  | Ok cc =>
      let changer := {| ch_last_index := log_last_index log;
                        ch_max_inflight_msgs := cfg_max_inflight_msgs (ep_config e);
                        ch_max_inflight_bytes := cfg_max_inflight_bytes (ep_config e) |} in
      match change_rule changer cc (ep_tracker e) with
      | Err _ => (AsPoisoned, poison ConfChangeApply e)
      | Ok new_tracker =>
          let peers := removed_peers new_tracker e in
          let e := foldl (λ e p, note_courtesy_debt p.1 (e_index x) e) e peers in
          let e := if Role_is_leader (ep_role e)
                   then farewell_removed log (e_index x) (ep_applied e <? ep_term_start_index e)
                          peers e
                   else e in
          let e := e <| ep_peers_scratch := [] |> in
          if is_poisoned e then (AsPoisoned, e)
          else
            let e := adopt_tracker new_tracker e in
            let e := push_event (EvConfChanged (e_index x) (Tracker_conf_state (ep_tracker e))) e in
            (AsApplied, after_conf_change e)
      end
  end.

(** ** One entry *)

Definition apply_kind log x (e : Endpoint) : ApplyStep * Endpoint :=
  match e_kind x with
  | EkNormal => apply_normal x e
  | EkEmpty => (AsApplied, e)
  | EkSplit => apply_split x e
  | EkPrepareMerge => apply_prepare_merge x e
  | EkCommitMerge => apply_commit_merge x e
  | EkRollbackMerge => apply_rollback_merge x e
  | EkThawDischarged => apply_thaw_discharged x e
  | EkSetReadMode => apply_set_read_mode x e
  | EkConfChange => apply_conf_change log x e
  end.

Definition apply_entry log x (e : Endpoint) : ApplyStep * Endpoint :=
  if negb (e_index x =? counter_next (ep_applied e)) || (ep_commit e <? e_index x)
  then (AsPoisoned, poison NonContiguousAppend e)
  else match apply_kind log x e with
       | (AsApplied, e) => (AsApplied, e <| ep_applied := e_index x |>)
       | r => r
       end.

(** A batch, with the count of entries this call has applied. *)
Fixpoint apply_batch log (batch : list Entry) (count : u64) (e : Endpoint)
  : ApplyStep * u64 * Endpoint :=
  match batch with
  | [] => (AsApplied, count, e)
  | x :: batch =>
      match apply_entry log x e with
      | (AsApplied, e) => apply_batch log batch (count + 1) e
      | (s, e) => (s, count, e)
      end
  end.

(** Each round applies an entry, poisons or stops, so one round per committed
    entry, one to see that there is none left, and one after a poisoning are
    enough ([apply_loop_exact]). *)
Fixpoint apply_loop (fuel : nat) log (count : u64) (e : Endpoint) : ApplyDrain * Endpoint :=
  match fuel with
  | O => (ApplyDrained, e)
  | Datatypes.S fuel =>
      if ep_commit e <=? ep_applied e then (ApplyDrained, e)
      else if is_poisoned e then (ApplyDrained, e)
      else
        let read_end := apply_read_span (ep_applied e) (ep_commit e) count in
        match log_entries log (counter_next (ep_applied e)) read_end APPLY_READ_MAX_BYTES with
        | Err _ => (ApplyDrained, poison LogRead e)
        | Ok Pending_ =>
            (ApplyWaiting, e <| ep_cold_read_defers ::= λ n, saturating_add n 1 |>)
        | Ok (Ready []) => (ApplyWaiting, e)
        | Ok (Ready batch) =>
            match apply_batch log batch count e with
            | (AsParked, _, e) => (ApplyWaiting, e)
            | (_, count, e) =>
                if negb (is_poisoned e) && (APPLY_BUDGET_ENTRIES <=? count)
                   && (ep_applied e <? ep_commit e)
                then (ApplyBudgetCut, e)
                else apply_loop fuel log count e
            end
        end
  end.

Definition apply_fuel e : nat := Datatypes.S (Datatypes.S (N.to_nat (ep_commit e - ep_applied e))).

Definition apply_committed log (e : Endpoint) : ApplyDrain * Endpoint :=
  if is_poisoned e then (ApplyDrained, e)
  else if bool_decide (is_Some (mrg_pending_apply (ep_merge e))) then (ApplyWaiting, e)
  else apply_loop (apply_fuel e) log 0 e.
End apply.
