(* ===== verification/Boot.v ===== *)
(** * Booting from durable stores

    [restart_inner] of [sailing-proto/src/endpoint/restart.rs] and its wrappers:
    the endpoint a node builds from its hard state, its snapshot and its log,
    with the committed tail replayed, and the write that makes a raised lease
    promise durable.  A reason to fail-stop found on the way is kept in the
    endpoint, which is built poisoned. *)

From S2P Require Import Prelude Bytes Num Quorum Progress ProgressMap Conf Tracker ConfChange.
From S2P Require Import Config Lease Prng ReadOnly Data Frame Entry Storage Shape Restart.
From S2P Require Import Forwarded Message Wire Codec Endpoint Merge Persistence Replication.
From S2P Require Import Election Propose Handlers Commit Apply.

Section boot.
Context {I F R L S : Type} `{!NodeId I, !StateMachine F, !Rng R, !LogStore L, !StableStore I S}.
Context {DI : Data I} {BS : BuffaSizes} {DC : Data sm_command} {DS : Data sm_snapshot}.
Context {BD : BuffaDecode} {BC : Buffa PbConfChangeV2}.
Abbreviation Endpoint := (Endpoint I F R).
Implicit Types (e : Endpoint) (log : L) (stable : S) (hs : HardState I).

(** The snapshot belongs to the incarnation the hard state records, or the
    group has no recorded lineage and the log was re-baselined to it. *)
Definition snapshot_is_adopted (hs_lineage : option ForkId) (meta : SnapshotMeta I) log : bool :=
  if decide (hs_lineage = sm_fork_id meta) then true
  else bool_decide (hs_lineage = None)
       && (log_first_index log =? counter_next (sm_last_index meta))
       && match log_term log (sm_last_index meta) with
          | Ok t => t =? sm_last_term meta
          | Err _ => false
          end.

(** A later reason replaces an earlier one. *)
Definition or_poison (r poisoned : option PoisonReason) : option PoisonReason :=
  match r with Some _ => r | None => poisoned end.

Definition adopted_snapshot hs stable log
  : option (SnapshotMeta I * bytes) * option PoisonReason :=
  let foreign := if decide (hs_lineage hs = None) then None else Some LineageMismatch in
  match stable_snapshot stable with
  | Some (meta, data) =>
      if snapshot_is_adopted (hs_lineage hs) meta log then (Some (meta, data), None)
      else (None, foreign)
  | None => (None, foreign)
  end.

(** The state machine, the applied index and the membership the snapshot gives. *)
Definition restore_snapshot (config : Config I) (snapshot : option (SnapshotMeta I * bytes))
    (fsm : F) (tracker : Tracker I) : option PoisonReason * F * Index * Tracker I :=
  match snapshot with
  | None => (None, fsm, 0, tracker)
  | Some (meta, data) =>
      if sm_last_index meta =? u64_max then (Some LogExhausted, fsm, 0, tracker)
      else if negb (ConfState_is_valid (sm_conf meta)) then (Some InvalidConfState, fsm, 0, tracker)
      else if HIGHEST_WORKING_GENERATION <=? sm_shape_gen meta
      then (Some ReservedShapeGen, fsm, 0, tracker)
      else match decode_exact (T := sm_snapshot) data with
           | Err _ => (Some SnapshotDecode, fsm, 0, tracker)
           | Ok snap =>
               match sm_restore snap fsm with
               | (Err _, fsm) => (Some SnapshotRestore, fsm, 0, tracker)
               | (Ok _, fsm) =>
                   (None, fsm, sm_last_index meta,
                    Tracker_from_conf_state (sm_conf meta) (sm_last_index meta)
                      (cfg_max_inflight_msgs config) (cfg_max_inflight_bytes config))
               end
           end
  end.

Definition restart_log (poisoned : option PoisonReason) (snap_nt : option (Index * Term))
    (hs_commit : Index) log : option PoisonReason * L :=
  match poisoned with
  | Some _ => (poisoned, log)
  | None =>
      if log_last_index log =? u64_max then (Some LogExhausted, log)
      else restart_reconcile snap_nt hs_commit log
  end.

(** The floor to keep, the vote fence, and the refusal to guess a promise that
    was never recorded. *)
Definition restart_lease (config : Config I) (now : Now) (assume_prior : option Duration) hs
    (poisoned : option PoisonReason)
  : option PoisonReason * option Duration * option Instant :=
  match reconcile_durable (hs_lease_support hs) (cfg_check_quorum config || cfg_pre_vote config)
          (cfg_election_timeout config) assume_prior with
  | LrOk d => (poisoned, dls_lease_support_floor d,
               (λ w, Instant_add (now_mono now) w) <$> dls_fence_window d)
  | LrPoison => (or_poison poisoned (Some LegacyLeaseUnrecoverable), None, None)
  end.

(** One recovered lease floor: the snapshot's and the scan's, whichever is
    larger.  The scan answers within its fuel ([restart_scans_exact]). *)
Definition recovered_floor (poisoned : option PoisonReason) (snap : u64)
    (scan : option (result u64 PoisonReason)) : option PoisonReason * u64 :=
  match poisoned with
  | Some _ => (poisoned, 0)
  | None =>
      match scan with
      | Some (Ok m) => (None, N.max snap m)
      | Some (Err reason) => (Some reason, 0)
      | None => (Some LogRead, 0)
      end
  end.

(** What the stores say, before the endpoint is built. *)
Record Recovered := {
  rc_log : L;
  rc_fsm : F;
  rc_applied : Index;
  rc_tracker : Tracker I;
  rc_meta : option (SnapshotMeta I);
  rc_lease_support_floor : option Duration;
  rc_lease_vote_fence_until : option Instant;
  rc_max_lease_window : u64;
  rc_max_wall_plus_window : u64;
  rc_max_unwalled_lease_window : u64;
  rc_poison : option PoisonReason;
}.

Definition recover (config : Config I) (now : Now) (fsm : F) (assume_prior : option Duration) hs
    log stable : Recovered :=
  let p := if HIGHEST_WORKING_GENERATION <=? hs_founding_gen hs then Some ReservedShapeGen
           else None in
  let tracker := Tracker_from_conf_state (ConfState_from_voters (cfg_voters config)) 0
                   (cfg_max_inflight_msgs config) (cfg_max_inflight_bytes config) in
  let '(snapshot, r) := adopted_snapshot hs stable log in
  let p := or_poison r p in
  let meta := fst <$> snapshot in
  let '(r, fsm, applied, tracker) := restore_snapshot config snapshot fsm tracker in
  let p := or_poison r p in
  let '(p, log) := restart_log p ((λ m, (sm_last_index m, sm_last_term m)) <$> meta)
                     (hs_commit hs) log in
  let '(p, floor, fence) := restart_lease config now assume_prior hs p in
  let snap f := from_option f 0 meta in
  let '(p, window) := recovered_floor p (snap sm_max_lease_window) (scan_max_lease_window log) in
  let '(p, wall_plus) :=
    recovered_floor p (snap sm_max_wall_plus_window) (scan_max_wall_plus_window log) in
  let '(p, unwalled) :=
    recovered_floor p (snap sm_max_unwalled_lease_window) (scan_max_unwalled_lease_window log) in
  {| rc_log := log; rc_fsm := fsm; rc_applied := applied; rc_tracker := tracker; rc_meta := meta;
     rc_lease_support_floor := floor; rc_lease_vote_fence_until := fence;
     rc_max_lease_window := window; rc_max_wall_plus_window := wall_plus;
     rc_max_unwalled_lease_window := unwalled; rc_poison := p |}.

(** The endpoint over what was recovered. *)
Definition restarted_endpoint (config : Config I) (now : Now) (rng : R) (boot_epoch : u64) hs
    (rc : Recovered) : Endpoint :=
  let log := rc_log rc in
  let poisoned := bool_decide (is_Some (rc_poison rc)) in
  let commit := N.max (N.min (hs_commit hs) (log_last_index log)) (rc_applied rc) in
  let snap_read_only := rc_meta rc ≫= sm_read_only in
  let read_only_opt := default (cfg_read_only config) snap_read_only in
  let recovered_floor := LeaseSupport_promised (hs_lease_support hs) in
  {| ep_config := config; ep_fsm := rc_fsm rc; ep_role := Follower; ep_term := hs_term hs;
     ep_voted_for := hs_vote hs; ep_leader := None; ep_commit := commit;
     ep_applied := rc_applied rc;
     ep_snapshot :=
       {| ss_snapshot_recv := None; ss_pending_install := None; ss_pending_compact := None;
          ss_snapshot_resend_after := ∅; ss_unsendable_meta_frames := 0;
          ss_refused_cross_lineage_installs := 0; ss_refused_stale_removal_installs := 0 |};
     ep_rng := rng; ep_votes := ∅; ep_election_deadline := None; ep_heartbeat_deadline := None;
     ep_lease_guard :=
       {| lg_commit_wait_until := None; lg_max_lease_window := rc_max_lease_window rc;
          lg_max_wall_plus_window := rc_max_wall_plus_window rc;
          lg_max_unwalled_lease_window := rc_max_unwalled_lease_window rc;
          lg_inherited_release_deadline := 0; lg_unwalled_commit_wait_until := None;
          lg_precise_releases := 0; lg_unprovable_floor_holds := 0;
          lg_unprovable_floor_campaigns := 0; lg_limbo_upper := 0; lg_committed_anchor_wall := 0;
          lg_committed_anchor_window := 0; lg_inherited_serve_armed := false;
          lg_commit_wait_inflated := false; lg_lease_refresh_wanted := false;
          lg_read_since_anchor := false |};
     ep_cold_read_defers := 0; ep_lease_refreshes := 0; ep_wall_stamp_degradations := 0;
     ep_outputs := {| ou_outgoing := []; ou_events := [] |};
     ep_tracker := rc_tracker rc; ep_next_op_id := OpId_first_of_epoch boot_epoch;
     ep_pending_log := []; ep_pending_stable := [];
     ep_poison := {| po_poisoned := poisoned; po_poison_reason := rc_poison rc |};
     ep_durable :=
       {| du_durable_term := hs_term hs; du_last_submitted_term := hs_term hs;
          du_term_persist_opid := OpId_ZERO; du_durable_commit_index := commit;
          du_last_submitted_commit := commit; du_commit_persist_opid := OpId_ZERO;
          du_shortcut_gated_snapshot_ack := None;
          du_lease_support_floor := rc_lease_support_floor rc;
          du_last_submitted_lease_support := recovered_floor;
          du_last_submitted_vote := hs_vote hs; du_durable_lease_support := recovered_floor;
          du_lease_support_persist_opid := OpId_ZERO; du_committed_persisted := commit;
          du_durable_index := log_last_index log; du_durable_snapshot_index := 0;
          du_inflight_append_upto := []; du_term_gated_append_ack := None;
          du_term_gated_snapshot_ack := None;
          du_lease_vote_fence_until := rc_lease_vote_fence_until rc |};
     ep_pending_conf_index := 0;
     ep_reads :=
       {| rd_read_only := ReadOnly_new read_only_opt; rd_active_read_mode := read_only_opt;
          rd_read_mode_migrated := bool_decide (is_Some snap_read_only); rd_pending_reads := [];
          rd_forwarded_reads := ForwardedReads_new boot_epoch; rd_pending_read_mode_index := 0 |};
     ep_split :=
       SplitState_new
         (if poisoned then 0
          else N.max (from_option sm_shape_gen 0 (rc_meta rc)) (hs_founding_gen hs))
         (if poisoned then 0 else hs_founding_gen hs)
         (if poisoned then None else rc_meta rc ≫= sm_fork_id);
     ep_merge := MergeState_default;
     ep_check_quorum_lease :=
       {| cq_lease_round := 0; cq_lease_round_start := now_mono now; cq_lease_acks := ∅;
          cq_lease_min_support := 0; cq_lease_valid_until := None |};
     ep_transfer :=
       {| tf_forced_handoff_this_term := false; tf_forced_handoff_target := None;
          tf_lead_transferee := None; tf_transfer_deadline := None |};
     ep_peers_scratch := []; ep_replication_pending := false; ep_term_start_index := 0;
     ep_pending_farewells := ∅; ep_courtesy_owed := ∅; ep_cure_owed := ∅;
     ep_cure_send_gate := None; ep_cure_cursor := None; ep_cure_served := ∅ |}.

(** The replay: [apply_committed] until it is not cut by its budget.  Each cut
    applied a whole budget, so one round per committed entry is more than enough
    ([replay_loop_exact]). *)
Fixpoint replay_loop (fuel : nat) log (e : Endpoint) : Endpoint :=
  match fuel with
  | O => e
  | Datatypes.S fuel =>
      match apply_committed log e with
      | (ApplyBudgetCut, e) => replay_loop fuel log e
      | (_, e) => e
      end
  end.

Definition replay_fuel e : nat := Datatypes.S (N.to_nat (ep_commit e - ep_applied e)).

(** The freeze queue is rebuilt before the first entry is applied. *)
Definition restart_freeze_queue log (e : Endpoint) : Endpoint :=
  if is_poisoned e then e
  else match scan_freeze_pending log (ep_applied e) with
       | Some (Ok queue) => e <| ep_merge ::= λ m, m <| mrg_freeze_queue := queue |> |>
       | Some (Err reason) => poison reason e
       | None => poison LogRead e
       end.

Definition persist_lease_floor stable (e : Endpoint) : S * Endpoint :=
  if negb (is_poisoned e)
     && option_ltb (du_durable_lease_support (ep_durable e)) (du_lease_support_floor (ep_durable e))
  then
    let '(opid, e) := mint_op_id e in
    submit_write opid (stable_hard_state stable) stable e
  else (stable, e).

Definition restart_inner (config : Config I) (now : Now) (rng : R) (fsm : F) (boot_epoch : u64)
    (assume_prior_lease_support : option Duration) log stable : L * S * Endpoint :=
  let hs := stable_hard_state stable in
  let stable := stable_discard_snapshot_staging stable in
  let rc := recover config now fsm assume_prior_lease_support hs log stable in
  let log := rc_log rc in
  let e := restart_freeze_queue log (restarted_endpoint config now rng boot_epoch hs rc) in
  let e := if is_poisoned e then e else replay_loop (replay_fuel e) log e in
  let '(stable, e) := persist_lease_floor stable e in
  let e := e <| ep_outputs ::= λ o, o <| ou_events := [] |> |> in
  (log, stable, arm_election_timer now e).

Definition restart_with_rng (config : Config I) (now : Now) (rng : R) (fsm : F) (boot_epoch : u64)
    log stable : L * S * Endpoint :=
  restart_inner config now rng fsm boot_epoch None log stable.

Definition restart_migrating_with_rng (config : Config I) (now : Now) (rng : R) (fsm : F)
    (boot_epoch : u64) (assume_prior_lease_support : option Duration) log stable
  : L * S * Endpoint :=
  restart_inner config now rng fsm boot_epoch assume_prior_lease_support log stable.
End boot.
