(* ===== verification/Reads.v ===== *)
(** * Linearizable reads

    [sailing-proto/src/endpoint/read_index.rs]: the reads a leader confirms by a
    heartbeat round, by its check-quorum lease or by the log lease of its
    committed entries, the reads it defers until its term has a commit, and the
    reads a follower forwards. *)

From S2P Require Import Prelude Bytes Num Quorum Progress ProgressMap Conf Tracker Config Lease.
From S2P Require Import Prng ReadOnly Data Entry Storage Shape Restart Forwarded Message Wire.
From S2P Require Import Endpoint Merge Persistence Replication Election.

Inductive ReadIndexError :=
| RiPoisoned | RiFrozen | RiDuplicateContext | RiTooManyInFlight | RiForwardingDisabled
| RiNoLeader.

Record FailoverReadWindow := { fr_commit : Index; fr_limbo_upper : Index }.

Definition MAX_LEADER_READS : nat := 256.

Section reads.
Context {I F R L : Type} `{!NodeId I, !StateMachine F, !Rng R, !LogStore L}.
Context {DI : Data I} {BS : BuffaSizes}.
Abbreviation Endpoint := (Endpoint I F R).
Implicit Types (e : Endpoint) (now : Now) (log : L).

Definition has_current_term_commit (log : L) (e : Endpoint) : bool * Endpoint :=
  let '(t, e) := read_log_term log (ep_commit e) e in
  (match t with Some t => t =? ep_term e | None => false end, e).

Definition emit_read_state (index : Index) (context : bytes) (e : Endpoint) : Endpoint :=
  if is_poisoned e then e
  else push_event (EvReadState {| rs_index := index; rs_context := context |}) e.

Definition read_response e (index : Index) (context : bytes) (reject : bool) : Message I :=
  MReadIndexResponse {| rr_term := ep_term e; rr_from := cfg_id (ep_config e); rr_index := index;
                        rr_context := context; rr_reject := reject |}.

(** To the application, or back to the follower that asked. *)
Definition emit_or_reply_read (index : Index) (context : bytes) (from : option I) (e : Endpoint)
  : Endpoint :=
  match from with
  | None => emit_read_state index context e
  | Some follower => send follower (read_response e index context false) e
  end.

(** ** Leases *)

Definition lease_read_available (now : Now) e : bool :=
  cfg_check_quorum (ep_config e) && negb (merge_freeze_active e)
  && bool_decide (tf_lead_transferee (ep_transfer e) = None)
  && negb (tf_forced_handoff_this_term (ep_transfer e))
  && match cq_lease_valid_until (ep_check_quorum_lease e) with
     | Some d => now_mono now <? d
     | None => false
     end.

Definition endpoint_leaseguard_timing e : option (Duration * Duration) :=
  leaseguard_timing (ep_config e) (active_read_mode e).

(** The committed entry that anchors the log lease. *)
Definition read_anchor (log : L) (e : Endpoint) : option (Term * u64 * u64) * Endpoint :=
  match log_entries log (ep_commit e) (counter_next (ep_commit e)) u64_max with
  | Ok (Ready (x :: _)) => (Some (e_term x, e_timestamp x, e_lease_window x), e)
  | Ok _ => (None, e)
  | Err _ => (None, poison LogRead e)
  end.

Definition lease_guard_read_live (now : Now) (log : L) (e : Endpoint) : bool * Endpoint :=
  if merge_freeze_active e then (false, e)
  else match endpoint_leaseguard_timing e with
  | None => (false, e)
  | Some (delta, _) =>
      match read_anchor log e with
      | (None, e) => (false, e)
      | (Some (term, ts, window), e) =>
          (if negb (term =? ep_term e) then false
           else if window =? 0 then false
           else Duration_saturating_sub (now_mono now) ts <? delta, e)
      end
  end.

Definition lease_near_expiry (now : Now) (log : L) (e : Endpoint) : bool * Endpoint :=
  match endpoint_leaseguard_timing e with
  | None => (false, e)
  | Some (delta, _) =>
      match read_anchor log e with
      | (None, e) => (false, e)
      | (Some (term, ts, window), e) =>
          (if negb (term =? ep_term e) then false
           else if window =? 0 then true
           else
             let margin := N.min (2 * cfg_heartbeat_interval (ep_config e)) Duration_MAX in
             delta <=? Duration_saturating_add (Duration_saturating_sub (now_mono now) ts) margin,
           e)
      end
  end.

Definition inherited_lease_live (now : Now) e : bool :=
  let g := ep_lease_guard e in
  if negb (failover_tier_active e) || Wall_is_absent (now_wall now)
     || (lg_committed_anchor_wall g =? 0) || (lg_committed_anchor_window g =? 0)
  then false
  else match cfg_bounded_clock_uncertainty (ep_config e) with
  | None => false
  | Some eps => now_wall now + 2 * eps <? lg_committed_anchor_wall g + lg_committed_anchor_window g
  end.

Definition failover_read_window (now : Now) e : option FailoverReadWindow :=
  if is_poisoned e || negb (Role_is_leader (ep_role e))
     || bool_decide (lg_commit_wait_until (ep_lease_guard e) = None)
     || negb (lg_inherited_serve_armed (ep_lease_guard e))
  then None
  else if negb (inherited_lease_live now e) then None
  else Some {| fr_commit := ep_commit e; fr_limbo_upper := lg_limbo_upper (ep_lease_guard e) |}.

(** ** Reads of a leader *)

(** Whether the acknowledgements of a round make a quorum. *)
Definition round_confirmed e (token : bytes) : bool :=
  match ReadOnly_acks_for (rd_read_only (ep_reads e)) token with
  | Some acks =>
      VoteResult_is_won (Tracker_vote_result_by (ep_tracker e) (λ id, bool_decide (id ∈ acks)))
  | None => false
  end.

(** Release every read up to a confirmed round. *)
Definition release_reads (token : bytes) (e : Endpoint) : Endpoint :=
  let '(confirmed, ro) := ReadOnly_advance token (rd_read_only (ep_reads e)) in
  let e := e <| ep_reads ::= λ r, r <| rd_read_only := ro |> |> in
  foldl (λ e st,
      let '(context, req_from, index) := ReadIndexStatus_into_parts st in
      emit_or_reply_read index context req_from e)
    e confirmed.

Definition do_safe_read (context : bytes) (from : option I) (e : Endpoint) : Endpoint :=
  match ReadOnly_add_request (ep_commit e) context from (cfg_id (ep_config e))
          (rd_read_only (ep_reads e)) with
  | (None, ro) =>
      poison ReadRoundExhausted (e <| ep_reads ::= λ r, r <| rd_read_only := ro |> |>)
  | (Some round, ro) =>
      let e := e <| ep_reads ::= λ r, r <| rd_read_only := ro |> |> in
      if round_confirmed e round then release_reads round e
      else broadcast_heartbeat_with_ctx round e
  end.

Definition do_leader_read (now : Now) (context : bytes) (from : option I) (log : L) (e : Endpoint)
  : Endpoint :=
  if is_poisoned e then e
  else match active_read_mode e with
  | Safe => do_safe_read context from e
  | LeaseBased =>
      if lease_read_available now e then emit_or_reply_read (ep_commit e) context from e
      else do_safe_read context from e
  | LeaseGuard =>
      let e := e <| ep_lease_guard ::= λ g, g <| lg_read_since_anchor := true |> |> in
      match lease_guard_read_live now log e with
      | (true, e) => emit_or_reply_read (ep_commit e) context from e
      | (false, e) =>
          if is_poisoned e then e
          else
            let e := if bool_decide (is_Some (endpoint_leaseguard_timing e))
                     then e <| ep_lease_guard ::= λ g, g <| lg_lease_refresh_wanted := true |> |>
                     else e in
            do_safe_read context from e
      end
  end.

(** Deferred reads, in order; the rest is dropped once poisoned. *)
Fixpoint flush_reads (now : Now) (log : L) (deferred : list (bytes * option I)) (e : Endpoint)
  : Endpoint :=
  match deferred with
  | [] => e
  | (ctx, from) :: deferred =>
      let e := do_leader_read now ctx from log e in
      if is_poisoned e then e else flush_reads now log deferred e
  end.

Definition flush_deferred_reads (now : Now) (log : L) (e : Endpoint) : Endpoint :=
  match rd_pending_reads (ep_reads e) with
  | [] => e
  | deferred => flush_reads now log deferred (e <| ep_reads ::= λ r, r <| rd_pending_reads := [] |> |>)
  end.

Definition maybe_flush_deferred_reads (now : Now) (log : L) (e : Endpoint) : Endpoint :=
  if is_poisoned e then e
  else if bool_decide (rd_pending_reads (ep_reads e) = []) then e
  else if negb (Role_is_leader (ep_role e)) then e
  else match has_current_term_commit log e with
       | (true, e) => flush_deferred_reads now log e
       | (false, e) => e
       end.

Definition read_context_in_flight e (context : bytes) : bool :=
  existsb (λ p, bool_decide (p.2 = None) && bool_decide (p.1 = context))
    (rd_pending_reads (ep_reads e))
  || ReadOnly_context_in_flight (rd_read_only (ep_reads e)) context.

Definition leader_reads_at_capacity e : bool :=
  (MAX_LEADER_READS <=? length (rd_pending_reads (ep_reads e))
                        + ReadOnly_len (rd_read_only (ep_reads e)))%nat.

Definition defer_read (context : bytes) (from : option I) (e : Endpoint) : Endpoint :=
  e <| ep_reads ::= λ r, r <| rd_pending_reads ::= λ q, q ++ [(context, from)] |> |>.

(** ** Entry points *)

Definition read_index (now : Now) (context : bytes) (log : L) (e : Endpoint)
  : result unit ReadIndexError * Endpoint :=
  let poisoned_or_ok e : result unit ReadIndexError :=
    if is_poisoned e then Err RiPoisoned else Ok tt in
  if is_poisoned e then (Err RiPoisoned, e)
  else if mrg_frozen (ep_merge e) then (Err RiFrozen, e)
  else match ep_role e with
  | Leader =>
      if read_context_in_flight e context then (Err RiDuplicateContext, e)
      else if leader_reads_at_capacity e then (Err RiTooManyInFlight, e)
      else match has_current_term_commit log e with
      | (false, e) =>
          if is_poisoned e then (Err RiPoisoned, e) else (Ok tt, defer_read context None e)
      | (true, e) =>
          let e := do_leader_read now context None log e in (poisoned_or_ok e, e)
      end
  | Follower =>
      if cfg_disable_proposal_forwarding (ep_config e) then (Err RiForwardingDisabled, e)
      else match ep_leader e with
      | None => (Err RiNoLeader, e)
      | Some leader =>
          if ForwardedReads_contains_context context (rd_forwarded_reads (ep_reads e))
          then (Err RiDuplicateContext, e)
          else if ForwardedReads_is_full (rd_forwarded_reads (ep_reads e))
          then (Err RiTooManyInFlight, e)
          else
            let '(token, fwd) := ForwardedReads_push context (rd_forwarded_reads (ep_reads e)) in
            let e := e <| ep_reads ::= λ r, r <| rd_forwarded_reads := fwd |> |> in
            match token with
            | None => (Err RiPoisoned, poison ReadRoundExhausted e)
            | Some token =>
                (Ok tt, send leader (MReadIndex
                          {| ri_term := ep_term e; ri_from := cfg_id (ep_config e);
                             ri_context := token |}) e)
            end
      end
  | Candidate | PreCandidate => (Err RiNoLeader, e)
  end.

Definition on_read_index (now : Now) (ri : ReadIndex I) (log : L) (e : Endpoint) : Endpoint :=
  if negb (Role_is_leader (ep_role e)) then e
  else if mrg_frozen (ep_merge e) || leader_reads_at_capacity e
  then send (ri_from ri) (read_response e 0 (ri_context ri) true) e
  else match has_current_term_commit log e with
  | (false, e) =>
      if is_poisoned e then e else defer_read (ri_context ri) (Some (ri_from ri)) e
  | (true, e) => do_leader_read now (ri_context ri) (Some (ri_from ri)) log e
  end.

Definition on_read_index_response (from : I) (response : ReadIndexResponse I) (e : Endpoint)
  : Endpoint :=
  if negb (bool_decide (ep_role e = Follower)) || negb (bool_decide (ep_leader e = Some from))
     || negb (bool_decide (rr_from response = from))
  then e
  else
    let '(context, fwd) :=
      ForwardedReads_remove_by_token (rr_context response) (rd_forwarded_reads (ep_reads e)) in
    match context with
    | None => e
    | Some context =>
        let e := e <| ep_reads ::= λ r, r <| rd_forwarded_reads := fwd |> |> in
        if rr_reject response then e else emit_read_state (rr_index response) context e
    end.
End reads.
