(* ===== verification/Snapshot.v ===== *)
(** * Snapshots: capture, transfer, installation

    [sailing-proto/src/endpoint/snapshot.rs]: when a snapshot is taken, how the
    chunks of a received one are staged and submitted, what installing it
    replaces, and the acknowledgements on both sides; with
    [capture_absorb_snapshot] of [endpoint/merge.rs]. *)

From S2P Require Import Prelude Bytes Num Quorum Progress ProgressMap Conf Tracker ConfChange.
From S2P Require Import Config Lease Prng ReadOnly Data Frame Entry Storage Shape Restart Wire.
From S2P Require Import Message Codec Endpoint Merge Persistence Replication Election Propose.
From S2P Require Import Handlers Commit Apply Reads.

(** The floors a snapshot's metadata vouches for. *)
Definition raise_lease_floors {I} `{!NodeId I} (m : SnapshotMeta I) (g : LeaseGuardState)
  : LeaseGuardState :=
  g <| lg_max_lease_window ::= λ x, N.max x (sm_max_lease_window m) |>
    <| lg_max_wall_plus_window ::= λ x, N.max x (sm_max_wall_plus_window m) |>
    <| lg_max_unwalled_lease_window ::= λ x, N.max x (sm_max_unwalled_lease_window m) |>.

Section snapshot.
Context {I F R L S : Type} `{!NodeId I, !StateMachine F, !Rng R, !LogStore L, !StableStore I S}.
Context {DI : Data I} {BS : BuffaSizes} {DC : Data sm_command} {DS : Data sm_snapshot}.
Context {BD : BuffaDecode} {BC : Buffa PbConfChangeV2}.
Abbreviation Endpoint := (Endpoint I F R).
Implicit Types (e : Endpoint) (now : Now) (log : L) (stable : S) (meta : SnapshotMeta I).

Definition submit_snapshot (id : OpId) (meta : SnapshotMeta I) (data : bytes) (stable : S) e : S :=
  if is_poisoned e then stable else stable_submit_snapshot id meta data stable.

Definition conf_names_self e (conf : ConfState I) : bool := conf_names conf (cfg_id (ep_config e)).

Definition conf_members (conf : ConfState I) : gset I :=
  cs_voters conf ∪ cs_voters_outgoing conf ∪ cs_learners conf ∪ cs_learners_next conf.

Definition install_removed_members e (installed : ConfState I) : gset I :=
  conf_members (Tracker_conf_state (ep_tracker e)) ∖ conf_members installed.

Definition acked_through_of (s : ProgressState) : option u64 :=
  match s with Snapshot _ acked _ => Some acked | _ => None end.

(** The acknowledged prefix of a peer that is being sent a snapshot. *)
Definition snapshot_cursor e (peer : I) : option u64 :=
  match Tracker_progress (ep_tracker e) peer with
  | Some p => acked_through_of (pr_state p)
  | None => None
  end.

Definition resend_snapshot (peer : I) (stable : S) (e : Endpoint) : ChunkSend * Endpoint :=
  send_snapshot_chunk peer (default 0 (snapshot_cursor e peer)) stable e.

(** ** Capture *)

Definition capture_meta e (last_term : Term) : SnapshotMeta I :=
  {| sm_last_index := ep_applied e; sm_last_term := last_term;
     sm_conf := Tracker_conf_state (ep_tracker e);
     sm_max_lease_window := lg_max_lease_window (ep_lease_guard e);
     sm_max_wall_plus_window := lg_max_wall_plus_window (ep_lease_guard e);
     sm_max_unwalled_lease_window := lg_max_unwalled_lease_window (ep_lease_guard e);
     sm_read_only := if rd_read_mode_migrated (ep_reads e)
                     then Some (rd_active_read_mode (ep_reads e)) else None;
     sm_shape_gen := spl_shape_gen (ep_split e); sm_fork_id := spl_fork_id (ep_split e) |}.

(** Submit the state as a snapshot and remember it for the compaction. *)
Definition submit_capture (meta : SnapshotMeta I) (snap : sm_snapshot) (stable : S) (e : Endpoint)
  : S * Endpoint :=
  let '(opid, e) := mint_op_id e in
  (submit_snapshot opid meta (data_encode snap) stable e,
   e <| ep_snapshot ::= λ s, s <| ss_pending_compact := Some (opid, meta) |> |>).

Definition maybe_snapshot (log : L) (stable : S) (e : Endpoint) : S * Endpoint :=
  if is_poisoned e then (stable, e)
  else if capture_blocked_at e (ep_applied e) then (stable, e)
  else if ep_applied e =? 0 then (stable, e)
  else if saturating_sub (ep_applied e) (log_first_index log)
          <? N.max (N.of_nat (cfg_snapshot_threshold (ep_config e))) 1
  then (stable, e)
  else match sm_take_snapshot (ep_fsm e) with
  | Err _ => (stable, poison SnapshotCapture e)
  | Ok snap =>
      match read_log_term log (ep_applied e) e with
      | (None, e) => (stable, e)
      | (Some last_term, e) => submit_capture (capture_meta e last_term) snap stable e
      end
  end.

Definition capture_absorb_snapshot (log : L) (stable : S) (e : Endpoint) : bool * S * Endpoint :=
  if is_poisoned e then (false, stable, e)
  else match sm_take_snapshot (ep_fsm e) with
  | Err _ => (false, stable, poison SnapshotCapture e)
  | Ok snap =>
      match read_log_term log (ep_applied e) e with
      | (None, e) => (false, stable, poison LogRead e)
      | (Some last_term, e) =>
          let '(stable, e) := submit_capture (capture_meta e last_term) snap stable e in
          (true, stable, e)
      end
  end.

(** ** What the local history already covers *)

(** [None] is a term read that failed. *)
Definition covered_by_local_history (log : L) (meta : SnapshotMeta I) (committed_bound : Index)
    (e : Endpoint) : option bool * Endpoint :=
  if decide (sm_fork_id meta ≠ spl_fork_id (ep_split e)) then (Some false, e)
  else if sm_last_index meta <=? committed_bound then (Some true, e)
  else if sm_last_index meta <=? du_durable_index (ep_durable e) then
    let '(t, e) := read_log_term log (sm_last_index meta) e in
    ((λ t, t =? sm_last_term meta) <$> t, e)
  else (Some false, e).

Definition reclaim_stale_snapshot_recv (log : L) (stable : S) (e : Endpoint)
  : bool * S * Endpoint :=
  match ss_snapshot_recv (ep_snapshot e) with
  | None => (true, stable, e)
  | Some r =>
      let bound := N.min (ep_commit e) (ack_watermark e) in
      match covered_by_local_history log (sv_meta r) bound e with
      | (None, e) => (false, stable, e)
      | (Some true, e) =>
          (true, stable_discard_snapshot_staging stable,
           e <| ep_snapshot ::= λ s, s <| ss_snapshot_recv := None |> |>)
      | (Some false, e) => (true, stable, e)
      end
  end.

(** ** Adopting a snapshot over a parked merge *)

(** The tracker is rebuilt from the snapshot; debts of members are dropped and
    the members it removed become courtesy debts. *)
Definition rebuild_membership (meta : SnapshotMeta I) (e : Endpoint) : Endpoint :=
  let removed := install_removed_members e (sm_conf meta) in
  let me := cfg_id (ep_config e) in
  let e := push_event (EvSnapshotInstalled meta) e in
  let e := if bool_decide (me ∈ removed)
           then push_event (EvConfChanged (sm_last_index meta) (sm_conf meta)) e else e in
  let tracker := Tracker_from_conf_state (sm_conf meta) (sm_last_index meta)
                   (cfg_max_inflight_msgs (ep_config e)) (cfg_max_inflight_bytes (ep_config e)) in
  let gone (peer : I) := Tracker_progress tracker peer = None in
  let e := e <| ep_tracker := tracker |>
             <| ep_pending_farewells ::= filter (λ p, gone p.1) |>
             <| ep_courtesy_owed ::= filter (λ p, gone p.1) |> in
  foldl (λ e peer, note_courtesy_debt_at_boundary peer (sm_last_index meta) e) e
    (filter (λ p, p ≠ me) (btree_iter removed)).

(** The read mode, generation and fork certificate the metadata carries. *)
Definition adopt_meta (meta : SnapshotMeta I) (e : Endpoint) : Endpoint :=
  e <| ep_reads ::= λ r,
         r <| rd_active_read_mode ::= λ m, default m (sm_read_only meta) |>
           <| rd_read_mode_migrated ::= λ b, bool_decide (is_Some (sm_read_only meta)) || b |> |>
    <| ep_split ::= λ s,
         s <| spl_shape_gen ::= λ g, N.max g (sm_shape_gen meta) |>
           <| spl_fork_id ::= λ f, match sm_fork_id meta with Some f' => Some f' | None => f end |> |>.

Definition clear_frozen (m : MergeState) : MergeState :=
  m <| mrg_frozen := false |> <| mrg_freeze_index := None |> <| mrg_freeze_term := None |>
    <| mrg_frozen_for := None |>.

(** The witnesses the walk recorded at or below the boundary, by their index. *)
Definition planned_witnesses (boundary : Index) (witnesses : gmap (bytes * u64) Index)
  : list (bytes * u64) :=
  let planned :=
    foldl (λ m p, if p.2 <=? boundary then <[p.2 := p.1]> m else m) (∅ : gmap Index (bytes * u64))
      (@btree_map_iter (bytes * u64) _ (pair_order bytes_order N_NodeId) witnesses) in
  map snd (btree_map_iter planned).

Definition adopt_parked_union (meta : SnapshotMeta I) (data : bytes) (e : Endpoint)
  : bool * Endpoint :=
  match mrg_pending_apply (ep_merge e) with
  | None => (false, e)
  | Some park =>
      let boundary := sm_last_index meta in
      if negb (crossing_walk_covers e boundary) then (false, e)
      else
        let absorb_high := default (pma_at park) (crossing_absorb_at e boundary) in
        match decode_exact (T := sm_snapshot) data with
        | Err _ => (false, poison SnapshotDecode e)
        | Ok snap =>
            if negb (ConfState_is_valid (sm_conf meta)) then (false, poison InvalidConfState e)
            else if HIGHEST_WORKING_GENERATION <=? sm_shape_gen meta
            then (false, poison ReservedShapeGen e)
            else
              let witnesses := mrg_crossing_witnesses (ep_merge e) in
              let e := clear_park (note_merge_park_unresolvable false e) in
              let e := e <| ep_merge ::= λ m,
                              m <| mrg_adopt_capture_owed :=
                                     Some (pma_source_bytes park, boundary) |> |> in
              let '(restored, fsm) := sm_restore snap (ep_fsm e) in
              let e := e <| ep_fsm := fsm |> in
              match restored with
              | Err _ => (false, poison SnapshotRestore e)
              | Ok _ =>
                  let e := e <| ep_applied := boundary |>
                             <| ep_merge ::= λ m,
                                  (clear_frozen m)
                                    <| mrg_absorb_index ::= λ a,
                                         Some (match a with
                                               | Some p => N.max p absorb_high
                                               | None => absorb_high
                                               end) |>
                                    <| mrg_freeze_queue ::= filter (λ i, boundary < i) |>
                                    <| mrg_claim_cache ::= filter (λ p, boundary < p.1) |> |> in
                  let e := foldl (λ e '(source, generation),
                                    if abandoned_matches e source generation
                                    then clear_abandoned source e else e)
                             e (planned_witnesses boundary witnesses) in
                  let e := note_abort_covered boundary CoverAdopt e in
                  (true, rebuild_membership meta (adopt_meta meta e))
              end
        end
  end.

(** ** Receiving *)

Definition send_snapshot_progress_ack (to : I) (acked_through : u64) (boundary : Index)
    (e : Endpoint) : Endpoint :=
  let match_index := N.min (N.min (ep_commit e) (ack_watermark e)) (saturating_sub boundary 1) in
  send to (MSnapshotResponse
    {| sr_term := ep_term e; sr_from := cfg_id (ep_config e); sr_reject := false;
       sr_match_index := match_index; sr_acked_through := acked_through; sr_progress := true |}) e.

(** A transfer of the same sender's term that is ahead of this one. *)
Definition recv_newer e (m : InstallSnapshot I) : bool :=
  match ss_snapshot_recv (ep_snapshot e) with
  | Some r => (sv_sender_term r =? is_term m)
              && (sm_last_index (is_snapshot m) <? sm_last_index (sv_meta r))
  | None => false
  end.

(** How much of this very transfer is staged. *)
Definition recv_of e (m : InstallSnapshot I) : option u64 :=
  match ss_snapshot_recv (ep_snapshot e) with
  | Some r =>
      if (sv_sender_term r =? is_term m) && SnapshotMeta_identity_eq (sv_meta r) (is_snapshot m)
         && (sv_total_len r =? is_total_len m)
      then Some (sv_contiguous_staged r) else None
  | None => None
  end.

Definition note_refused_lineage (e : Endpoint) : Endpoint :=
  e <| ep_snapshot ::= λ s,
         s <| ss_refused_cross_lineage_installs ::= λ n, saturating_add n 1 |> |>.

Definition drop_recv (stable : S) (e : Endpoint) : S * Endpoint :=
  (stable_discard_snapshot_staging stable,
   e <| ep_snapshot ::= λ s, s <| ss_snapshot_recv := None |> |>).

(** The snapshot proves its boundary committed. *)
Definition ack_covered (leader : I) (boundary : Index) (log : L) (stable : S) (e : Endpoint)
  : S * Endpoint :=
  let ack e := send_or_gate_shortcut_snapshot_ack leader boundary e in
  if ep_commit e <? boundary then
    let e := e <| ep_commit := boundary |> in
    let e := if ep_applied e <? ep_commit e then (apply_committed log e).2 else e in
    if is_poisoned e then (stable, e)
    else let '(stable, e) := persist_commit_floor stable e in (stable, ack e)
  else (stable, ack e).

(** A snapshot the local history covers. *)
Definition install_redundant (m : InstallSnapshot I) (log : L) (stable : S) (e : Endpoint)
  : S * Endpoint :=
  let boundary := sm_last_index (is_snapshot m) in
  if recv_newer e m then (stable, e)
  else
    let '(stable, e) := drop_recv stable e in
    let over_park :=
      (is_total_len m =? 0)
      && match merge_park_unresolvable e with Some park => park <=? boundary | None => false end
      && crossing_walk_covers e boundary in
    let '(ok, e) :=
      if over_park then adopt_parked_union (is_snapshot m) (is_data m) e else (true, e) in
    if ok then ack_covered (is_leader m) boundary log stable e else (stable, e).

(** Submit a complete blob; it is installed when the store reports it durable. *)
Definition submit_install (m : InstallSnapshot I) (blob : bytes) (stable : S) (e : Endpoint)
  : S * Endpoint :=
  match decode_exact (T := sm_snapshot) blob with
  | Err _ => (stable, poison SnapshotDecode e)
  | Ok snap =>
      let '(stable, e) := ensure_term_durable stable e in
      let '(opid, e) := mint_op_id e in
      (submit_snapshot opid (is_snapshot m) blob stable e,
       e <| ep_snapshot ::= λ s,
              s <| ss_pending_install := Some (opid, is_snapshot m, snap, is_leader m) |> |>)
  end.

Definition install_whole (m : InstallSnapshot I) (stable : S) (e : Endpoint) : S * Endpoint :=
  if recv_newer e m then (stable, e)
  else
    let '(stable, e) := drop_recv stable e in
    if negb (ConfState_is_valid (sm_conf (is_snapshot m)))
    then (stable, poison InvalidConfState e)
    else submit_install m (is_data m) stable e.

(** A chunk that continues the transfer in progress or starts its own; [None] is
    a chunk that is not taken. *)
Definition open_transfer (m : InstallSnapshot I) (stable : S) (e : Endpoint)
  : bool * S * Endpoint :=
  match recv_of e m with
  | Some _ => (true, stable, e)
  | None =>
      if recv_newer e m then (false, stable, e)
      else if negb (ConfState_is_valid (sm_conf (is_snapshot m)))
      then (false, stable, poison InvalidConfState e)
      else
        (true, stable_discard_snapshot_staging stable,
         e <| ep_snapshot ::= λ s,
                s <| ss_pending_install := None |>
                  <| ss_snapshot_recv :=
                       Some {| sv_meta := is_snapshot m; sv_total_len := is_total_len m;
                               sv_contiguous_staged := 0; sv_sender_term := is_term m |} |> |>)
  end.

Definition install_chunk (m : InstallSnapshot I) (stable : S) (e : Endpoint) : S * Endpoint :=
  let meta := is_snapshot m in
  let total_len := is_total_len m in
  match open_transfer m stable e with
  | (false, stable, e) => (stable, e)
  | (true, stable, e) =>
      let in_range :=
        match checked_add (is_offset m) (blen (is_data m)) with
        | Some stop => stop <=? total_len
        | None => false
        end in
      if negb in_range then (stable, poison SnapshotDecode e)
      else match stable_accept_snapshot_chunk meta total_len (is_offset m) (is_data m) stable with
      | (Err _, stable) => (stable, poison StablePoll e)
      | (Ok staged, stable) =>
          let e := e <| ep_snapshot ::= λ s,
                          s <| ss_snapshot_recv ::= fmap (λ r, r <| sv_contiguous_staged := staged |>) |> |> in
          if staged <? total_len
          then (stable, send_snapshot_progress_ack (is_leader m) staged (sm_last_index meta) e)
          else match stable_take_staged_snapshot meta stable with
          | (None, stable) => (stable, poison SnapshotDecode e)
          | (Some blob, stable) =>
              match submit_install m blob stable e with
              | (stable, e) =>
                  (stable,
                   if is_ok (decode_exact (T := sm_snapshot) blob)
                   then e <| ep_snapshot ::= λ s, s <| ss_snapshot_recv := None |> |> else e)
              end
          end
      end
  end.

(** The boundary of the newest snapshot this node has submitted or holds. *)
Definition visible_slot e : Index :=
  N.max (N.max (du_durable_snapshot_index (ep_durable e))
           (from_option (λ p, sm_last_index p.2) 0 (ss_pending_compact (ep_snapshot e))))
    (from_option (λ p, sm_last_index p.1.1.2) 0 (ss_pending_install (ep_snapshot e))).

(** An install already submitted that is ahead of this one or is the same. *)
Definition install_pending e meta : bool :=
  match ss_pending_install (ep_snapshot e) with
  | Some (_, pmeta, _, _) =>
      (sm_last_index meta <? sm_last_index pmeta) || SnapshotMeta_identity_eq pmeta meta
  | None => false
  end.

(** A snapshot of another lineage: refused by a node that has one, and by a node
    without one unless it is empty or of the same kin. *)
Definition crosses_lineage e meta (log : L) (stable : S) : bool :=
  match spl_fork_id (ep_split e), sm_fork_id meta with
  | Some existing, other => negb (bool_decide (other = Some existing))
  | None, Some f =>
      negb ((log_last_index log =? 0) && (log_first_index log =? 1) && (ep_commit e =? 0)
            && match stable_durable_snapshot stable with
               | Some m => bool_decide (sm_fork_id m = Some f)
               | None => true
               end)
  | None, None => false
  end.

(** What is left once the snapshot is admitted and not covered. *)
Definition install_admitted (m : InstallSnapshot I) (stable : S) (e : Endpoint) : S * Endpoint :=
  let meta := is_snapshot m in
  if install_pending e meta then (stable, e)
  else if sm_last_index meta <? visible_slot e then (stable, e)
  else if is_total_len m =? 0 then install_whole m stable e
  else if bool_decide (is_data m = []) then
    if negb (is_offset m =? is_total_len m) then (stable, poison SnapshotDecode e)
    else (stable, send_snapshot_progress_ack (is_leader m) (default 0 (recv_of e m))
                    (sm_last_index meta) e)
  else install_chunk m stable e.

Definition on_install_snapshot (now : Now) (m : InstallSnapshot I) (log : L) (stable : S)
    (e : Endpoint) : S * Endpoint :=
  let meta := is_snapshot m in
  if is_poisoned e then (stable, e)
  else if negb (conf_names_self e (sm_conf meta))
          && (sm_shape_gen meta <? spl_shape_gen (ep_split e))
  then (stable, e <| ep_snapshot ::= λ s,
                       s <| ss_refused_stale_removal_installs ::= λ n, saturating_add n 1 |> |>)
  else
    let e := set_leader (Some (is_leader m)) (e <| ep_role := Follower |>) in
    let e := arm_election_timer now e in
    if sm_last_index meta =? u64_max then (stable, poison LogExhausted e)
    else if HIGHEST_WORKING_GENERATION <=? sm_shape_gen meta
    then (stable, poison ReservedShapeGen e)
    else match reclaim_stale_snapshot_recv log stable e with
    | (false, stable, e) => (stable, e)
    | (true, stable, e) =>
        let e := e <| ep_lease_guard ::= raise_lease_floors meta |> in
        if crosses_lineage e meta log stable then (stable, note_refused_lineage e)
        else
          let bound := N.min (ep_commit e) (ack_watermark e) in
          match covered_by_local_history log meta bound e with
          | (None, e) => (stable, e)
          | (Some true, e) => install_redundant m log stable e
          | (Some false, e) => install_admitted m stable e
          end
    end.

(** ** Installing *)

Definition is_cast_vote (p : Pending I) : bool := match p with CastVote _ _ => true | _ => false end.

Definition note_fork_barrier_rebaselined (boundary : Index) (e : Endpoint) : Endpoint :=
  e <| ep_split ::= λ s,
         s <| spl_outstanding ::= filter (λ i,
                boundary < i ∨ i ∉ map pf_index (spl_pending_forks s)) |> |>.

(** The state is replaced: what was waiting for the old log is dropped, the log
    is re-baselined, every freeze, park and debt below the boundary goes. *)
Definition rebaseline (meta : SnapshotMeta I) (log : L) (e : Endpoint) : L * Endpoint :=
  let boundary := sm_last_index meta in
  let e := e <| ep_pending_log := [] |>
             <| ep_pending_stable ::= filter (λ p, is_cast_vote p.2 = true) |>
             <| ep_snapshot ::= λ s, s <| ss_pending_compact := None |> |>
             <| ep_commit := boundary |> <| ep_applied := boundary |> in
  let e := adopt_meta meta e in
  let log := log_restore boundary (sm_last_term meta) log in
  let e := clear_park (note_merge_park_unresolvable false (note_freeze_rebaselined e)) in
  let e := e <| ep_merge ::= λ m, (clear_frozen m) <| mrg_adopt_capture_owed := None |> |> in
  let e := note_debts_rebaselined (note_abort_covered boundary CoverInstall e) in
  let e := note_fork_barrier_rebaselined boundary e in
  let e := e <| ep_durable ::= λ d,
                  d <| du_durable_index := boundary |> <| du_inflight_append_upto := [] |> |> in
  (log, scrub_acks_above boundary e).

Definition install_snapshot_now (meta : SnapshotMeta I) (snap : sm_snapshot) (leader : I)
    (log : L) (stable : S) (e : Endpoint) : L * S * Endpoint :=
  if is_poisoned e then (log, stable, e)
  else if negb (Role_is_follower (ep_role e)) then (log, stable, e)
  else if bool_decide (spl_fork_id (ep_split e) = None) && bool_decide (is_Some (sm_fork_id meta))
          && negb ((log_last_index log =? 0) && (ep_commit e =? 0))
  then (log, stable, note_refused_lineage e)
  else
    let e := e <| ep_durable ::= λ d,
                    d <| du_durable_snapshot_index ::= λ i, N.max i (sm_last_index meta) |> |>
               <| ep_lease_guard ::= raise_lease_floors meta |> in
    match covered_by_local_history log meta (ep_commit e) e with
    | (None, e) => (log, stable, e)
    | (Some true, e) =>
        let '(stable, e) := ack_covered leader (sm_last_index meta) log stable e in
        (log, stable, e)
    | (Some false, e) =>
        let '(restored, fsm) := sm_restore snap (ep_fsm e) in
        let e := e <| ep_fsm := fsm |> in
        match restored with
        | Err _ => (log, stable, poison SnapshotRestore e)
        | Ok _ =>
            let '(log, e) := rebaseline meta log e in
            if negb (restore_rebaselined log (sm_last_index meta) (sm_last_term meta))
            then (log, stable, poison SnapshotRebaseline e)
            else
              let e := rebuild_membership meta e in
              (log, stable, send_or_gate_snapshot_ack leader (sm_last_index meta) e)
        end
    end.

(** ** The leader's side *)

(** The acknowledgement settles a courtesy offer. *)
Definition settles_courtesy e (from : I) (r : SnapshotResponse I) : bool :=
  match ep_courtesy_owed e !! from with
  | Some debt =>
      match cy_offered_index debt with Some floor => floor <=? sr_match_index r | None => false end
  | None => false
  end.

Definition settles_cure e (from : I) (r : SnapshotResponse I) : bool :=
  match ep_cure_owed e !! from with
  | Some debt => cu_boundary debt <=? sr_match_index r
  | None => false
  end.

(** The next chunk, when the acknowledgement moved the cursor. *)
Definition next_chunk (now : Now) (from : I) (r : SnapshotResponse I) (stable : S) (e : Endpoint)
  : ChunkSend * Endpoint :=
  let before := snapshot_cursor e from in
  let e := e <| ep_tracker ::=
                  Tracker_progress_mut from (Progress_snapshot_acked (sr_acked_through r)) |> in
  let set_after f e := e <| ep_snapshot ::= λ s, s <| ss_snapshot_resend_after ::= f |> |> in
  match snapshot_cursor e from with
  | Some acked =>
      if decide (before = Some acked) then (ChunkSent, e)
      else match send_snapshot_chunk from acked stable e with
      | (ChunkSent, e) =>
          (ChunkSent,
           set_after (insert from (Instant_add (now_mono now)
                                     (cfg_election_timeout (ep_config e)))) e)
      | (ChunkPoisoned, e) => (ChunkPoisoned, e)
      | (r, e) => (r, set_after (delete from) e)
      end
  | None => (ChunkSent, e)
  end.

Definition on_snapshot_ack (now : Now) (from : I) (r : SnapshotResponse I) (log : L) (stable : S)
    (e : Endpoint) : Endpoint :=
  match next_chunk now from r stable e with
  | (ChunkPoisoned, e) => e
  | (_, e) =>
      let e := maybe_advance_commit now log e in
      let e := (apply_committed log e).2 in
      if is_poisoned e then e
      else
        let e := maybe_flush_deferred_reads now log e in
        let e := maybe_send_append now from log stable e in
        if is_poisoned e then e else maybe_hand_off_to_transferee from log e
  end.

Definition on_snapshot_response (now : Now) (from : I) (r : SnapshotResponse I) (log : L)
    (stable : S) (e : Endpoint) : Endpoint :=
  let final := negb (sr_reject r) && negb (sr_progress r) in
  if is_poisoned e then e
  else if final && settles_courtesy e from r then e <| ep_courtesy_owed ::= delete from |>
  else
    let e := if final && settles_cure e from r then e <| ep_cure_owed ::= delete from |> else e in
    if negb (Role_is_leader (ep_role e)) then e
    else match Tracker_progress (ep_tracker e) from with
    | None => e
    | Some _ =>
        if sr_reject r then
          maybe_send_append now from log stable
            (e <| ep_tracker ::= Tracker_progress_mut from Progress_become_probe |>)
        else if negb (sr_progress r) && negb (match_within_log (sr_match_index r) log) then e
        else
          let e := if sr_progress r then e
                   else e <| ep_tracker ::= Tracker_progress_mut from
                               (λ p, (Progress_maybe_update (sr_match_index r) p).2) |> in
          on_snapshot_ack now from r log stable e
    end.
End snapshot.
