(* ===== verification/Append.v ===== *)
(** * Appends and heartbeats

    [sailing-proto/src/endpoint/replication.rs]: what a follower does with an
    append or a heartbeat, and what a leader does with the answers. *)

From S2P Require Import Prelude Bytes Num Quorum Progress ProgressMap Conf Tracker ConfChange.
From S2P Require Import Config Lease Prng ReadOnly Data Frame Entry Storage Shape Restart Wire.
From S2P Require Import Message Codec Endpoint Merge Persistence Replication Election Propose.
From S2P Require Import Handlers Commit Apply Reads Snapshot.

(** The index after a contiguous run from [last_new]. *)
Fixpoint contiguous_run (last_new : Index) (entries : list Entry) : option Index :=
  match entries with
  | [] => Some last_new
  | x :: entries =>
      match next_log_index last_new with
      | Some expected =>
          if e_index x =? expected then contiguous_run expected entries else None
      | None => None
      end
  end.

Section append.
Context {I F R L S : Type} `{!NodeId I, !StateMachine F, !Rng R, !LogStore L, !StableStore I S}.
Context {DI : Data I} {BS : BuffaSizes} {DC : Data sm_command} {DS : Data sm_snapshot}.
Context {BD : BuffaDecode} {BC : Buffa PbConfChangeV2}.
Abbreviation Endpoint := (Endpoint I F R).
Implicit Types (e : Endpoint) (now : Now) (log : L) (stable : S).

(** Follow the leader that spoke. *)
Definition follow (now : Now) (leader : I) (e : Endpoint) : Endpoint :=
  arm_election_timer now (set_leader (Some leader) (e <| ep_role := Follower |>)).

(** Raise the commit and apply what it covers. *)
Definition advance_commit_to (new_commit : Index) (log : L) (e : Endpoint) : Endpoint :=
  let e := if ep_commit e <? new_commit then e <| ep_commit := new_commit |> else e in
  if ep_applied e <? ep_commit e then (apply_committed log e).2 else e.

(** ** Heartbeats *)

Definition note_stuck_advertised (now : Now) (e : Endpoint) : Endpoint :=
  e <| ep_merge ::= λ m,
         m <| mrg_stuck_advert_next_at :=
                Some (Instant_add (now_mono now) (cfg_election_timeout (ep_config e))) |> |>.

(** The lease a follower grants: none before its promise is durable. *)
Definition grant_lease_support (e : Endpoint) : Duration * Endpoint :=
  if cfg_check_quorum (ep_config e) || cfg_pre_vote (ep_config e) then
    let this_run := cfg_election_timeout (ep_config e) in
    let e := if option_ltb (du_lease_support_floor (ep_durable e)) (Some this_run)
             then e <| ep_durable ::= λ d, d <| du_lease_support_floor := Some this_run |> |>
             else e in
    (if option_ltb (du_durable_lease_support (ep_durable e)) (Some this_run) then 0 else this_run, e)
  else (0, e).

Definition on_heartbeat (now : Now) (hb : Heartbeat I) (log : L) (e : Endpoint) : Endpoint :=
  let e := follow now (hb_leader hb) e in
  let e := advance_commit_to (N.min (hb_commit hb) (log_last_index log)) log e in
  if is_poisoned e then e
  else
    let '(lease_support, e) := grant_lease_support e in
    let stuck_boundary := default 0 (merge_park_unresolvable e) in
    let e := send (hb_leader hb) (MHeartbeatResponse
               {| hr_term := ep_term e; hr_from := cfg_id (ep_config e);
                  hr_context := hb_context hb; hr_lease_round := hb_lease_round hb;
                  hr_lease_support := lease_support; hr_stuck_boundary := stuck_boundary |}) e in
    if stuck_boundary =? 0 then e else note_stuck_advertised now e.

(** ** Appends *)

(** Whether the log agrees with the leader's at the entry before the new ones. *)
Definition prev_consistent (ae : AppendEntries I) (log : L) (e : Endpoint) : bool * Endpoint :=
  let prev := ae_prev_log_index ae in
  if prev =? 0 then (true, e)
  else if prev <? log_first_index log then (true, e)
  else if prev <=? log_last_index log then
    match read_log_term log prev e with
    | (Some t, e) => (t =? ae_prev_log_term ae, e)
    | (None, e) => (false, e)
    end
  else (false, e).

(** The rejection, with a hint where to probe next. *)
Definition reject_append (ae : AppendEntries I) (log : L) (e : Endpoint) : Endpoint :=
  let hint_index_raw := N.min (ae_prev_log_index ae) (log_last_index log) in
  match find_conflict_by_term log hint_index_raw (ae_prev_log_term ae) e with
  | (None, e) => e
  | (Some hint_index, e) =>
      match read_log_term log hint_index e with
      | (None, e) => e
      | (Some hint_term, e) =>
          send (ae_leader ae) (MAppendResponse
            {| ar_term := ep_term e; ar_from := cfg_id (ep_config e); ar_reject := true;
               ar_reject_hint_index := hint_index; ar_reject_hint_term := hint_term;
               ar_match_index := 0; ar_rejected_index := ae_prev_log_index ae |}) e
      end
  end.

(** The entries from the first one the log does not hold; [None] is a term read
    that failed. *)
Fixpoint conflict_suffix (entries : list Entry) (log : L) (e : Endpoint)
  : option (list Entry) * Endpoint :=
  match entries with
  | [] => (Some [], e)
  | x :: rest =>
      if e_index x <? log_first_index log then conflict_suffix rest log e
      else if e_index x <=? log_last_index log then
        match read_log_term log (e_index x) e with
        | (None, e) => (None, e)
        | (Some t, e) =>
            if t =? e_term x then conflict_suffix rest log e else (Some entries, e)
        end
      else (Some entries, e)
  end.

Definition note_freezes (entries : list Entry) (e : Endpoint) : Endpoint :=
  foldl (λ e x, if decide (e_kind x = EkPrepareMerge) then note_freeze_appended (e_index x) e else e)
    e entries.

(** Replace the suffix of the log: nothing above it stays acknowledged, durable
    or in flight. *)
Definition overwrite_suffix (truncate_from : Index) (suffix : list Entry) (log : L) (stable : S)
    (e : Endpoint) : OpId * L * S * Endpoint :=
  let '(stable, e) := ensure_term_durable stable e in
  let e := note_freeze_truncated truncate_from e in
  let e := scrub_acks_above (truncate_from - 1) e in
  let e := e <| ep_durable ::= λ d,
                  d <| du_durable_index ::= λ i, N.min i (truncate_from - 1) |>
                    <| du_inflight_append_upto ::=
                         pop_back_while (λ p, truncate_from <=? p.2) |> |> in
  let '(opid, e) := mint_op_id e in
  let '(log, e) := submit_append opid suffix log e in
  (opid, log, stable, note_freezes suffix e).

(** The new entries of an append; the flag is false where the handler returns. *)
Definition accept_entries (entries : list Entry) (log : L) (stable : S) (e : Endpoint)
  : bool * option OpId * L * S * Endpoint :=
  match entries with
  | [] => (true, None, log, stable, e)
  | _ =>
      let fold_windows e :=
        e <| ep_lease_guard ::= λ g,
               foldl (λ g x, g <| lg_max_lease_window ::= λ w, N.max w (e_lease_window x) |>) g
                 entries |> in
      match conflict_suffix entries log e with
      | (None, e) => (false, None, log, stable, e)
      | (Some [], e) => (true, None, log, stable, fold_windows e)
      | (Some (x :: rest), e) =>
          if e_index x <=? ep_commit e
          then (false, None, log, stable, poison CommittedTruncation e)
          else
            let '(opid, log, stable, e) := overwrite_suffix (e_index x) (x :: rest) log stable e in
            (true, Some opid, log, stable, fold_windows e)
      end
  end.

Definition on_append_entries (now : Now) (ae : AppendEntries I) (log : L) (stable : S)
    (e : Endpoint) : L * S * Endpoint :=
  let e := follow now (ae_leader ae) e in
  let '(consistent, e) := prev_consistent ae log e in
  if is_poisoned e then (log, stable, e)
  else if negb consistent then (log, stable, reject_append ae log e)
  else match contiguous_run (ae_prev_log_index ae) (ae_entries ae) with
  | None => (log, stable, poison NonContiguousAppend e)
  | Some last_new =>
      let '(go, appended, log, stable, e) := accept_entries (ae_entries ae) log stable e in
      if negb go then (log, stable, e)
      else
        let e := advance_commit_to (N.min (ae_leader_commit ae) last_new) log e in
        if is_poisoned e then (log, stable, e)
        else match appended with
        | Some opid => (log, stable, push_pending opid (FollowerAck (ae_leader ae) last_new) e)
        | None => (log, stable, send_or_gate_append_ack (ae_leader ae) last_new e)
        end
  end.

(** ** Answers to heartbeats *)

(** A current-round answer that promises support extends the lease. *)
Definition note_lease_ack (from : I) (r : HeartbeatResponse I) (e : Endpoint) : Endpoint :=
  let q := ep_check_quorum_lease e in
  if (hr_lease_round r =? cq_lease_round q) && (0 <? hr_lease_support r)
     && negb (merge_freeze_active e)
  then
    let e := e <| ep_check_quorum_lease ::= λ q,
                    q <| cq_lease_acks ::= λ s, s ∪ {[from]} |>
                      <| cq_lease_min_support ::= λ s, N.min s (hr_lease_support r) |> |> in
    let acks := cq_lease_acks (ep_check_quorum_lease e) in
    if VoteResult_is_won (Tracker_vote_result_by (ep_tracker e)
         (λ id, bool_decide (id = cfg_id (ep_config e)) || bool_decide (id ∈ acks)))
    then e <| ep_check_quorum_lease ::= λ q,
                q <| cq_lease_valid_until :=
                       Some (Instant_add (cq_lease_round_start q) (cq_lease_min_support q)) |> |>
    else e
  else e.

Definition Progress_is_probe (p : Progress) : bool :=
  match pr_state p with Probe => true | _ => false end.

(** Whether the peer is still short of the snapshot it is being sent. *)
Definition awaits_snapshot (p : option Progress) : bool :=
  match p with
  | Some p =>
      match pr_state p with Snapshot pending _ _ => pr_match_index p <? pending | _ => false end
  | None => false
  end.

(** Paced retransmission of the chunk in flight; [false] is a poisoning. *)
Definition pace_snapshot (now : Now) (from : I) (stable : S) (e : Endpoint) : bool * Endpoint :=
  let set_after f e := e <| ep_snapshot ::= λ s, s <| ss_snapshot_resend_after ::= f |> |> in
  if awaits_snapshot (Tracker_progress (ep_tracker e) from) then
    if before_deadline now (ss_snapshot_resend_after (ep_snapshot e) !! from) then (true, e)
    else match resend_snapshot from stable e with
    | (ChunkSent, e) =>
        (true, set_after (insert from (Instant_add (now_mono now)
                                         (cfg_election_timeout (ep_config e)))) e)
    | (ChunkPoisoned, e) => (false, e)
    | (_, e) => (true, e)
    end
  else (true, set_after (delete from) e).

(** The read round an answer echoes. *)
Definition ack_read_round (from : I) (ctx : bytes) (e : Endpoint) : Endpoint :=
  match ctx with
  | [] => e
  | _ =>
      let e := e <| ep_reads ::= λ r,
                      r <| rd_read_only ::= λ ro, (ReadOnly_recv_ack from ctx ro).2 |> |> in
      if round_confirmed e ctx then release_reads ctx e else e
  end.

Definition on_heartbeat_response (now : Now) (from : I) (r : HeartbeatResponse I) (log : L)
    (stable : S) (e : Endpoint) : Endpoint :=
  if negb (Role_is_leader (ep_role e)) then e
  else
    let e := note_lease_ack from r e in
    let stuck := hr_stuck_boundary r in
    let e := if negb (stuck =? 0) && (stuck <=? ep_commit e)
                && bool_decide (is_Some (Tracker_progress (ep_tracker e) from))
             then note_cure_debt now from stuck e else e in
    let e := e <| ep_tracker ::= Tracker_progress_mut from (λ p,
                    Progress_free_inflight_on_heartbeat (Progress_clear_probe_pause p)) |> in
    let needs_contact :=
      match Tracker_progress (ep_tracker e) from with
      | Some p => (pr_match_index p <? log_last_index log) || Progress_is_probe p
      | None => false
      end in
    let e := if needs_contact then pump_appends now from log stable e else e in
    if is_poisoned e then e
    else match pace_snapshot now from stable e with
    | (false, e) => e
    | (true, e) => ack_read_round from (hr_context r) e
    end.

(** ** Answers to appends *)

(** Back to probing, below what was rejected and above what is matched. *)
Definition on_append_reject (now : Now) (from : I) (r : AppendResponse I) (pr : Progress) (log : L)
    (stable : S) (e : Endpoint) : Endpoint :=
  let rejected := ar_rejected_index r in
  if bool_decide (is_Some (acked_through_of (pr_state pr))) then e
  else if negb (rejected =? 0) && (rejected <=? pr_match_index pr) then e
  else
    let hint_index := N.min (ar_reject_hint_index r) (log_last_index log) in
    match find_conflict_by_term log hint_index (ar_reject_hint_term r) e with
    | (None, e) => e
    | (Some conflict, e) =>
        let rejected_prev := saturating_sub (pr_next_index pr) 1 in
        let floor := if negb (rejected =? 0) then saturating_add (pr_match_index pr) 1 else 1 in
        let safe_next := N.max (N.min rejected_prev (saturating_add conflict 1)) floor in
        let e := e <| ep_tracker ::= Tracker_progress_mut from (λ p,
                        Progress_set_next_index safe_next (Progress_become_probe p)) |> in
        maybe_send_append now from log stable e
    end.

Definition on_append_accept (now : Now) (from : I) (r : AppendResponse I) (pr : Progress) (log : L)
    (stable : S) (e : Endpoint) : Endpoint :=
  if negb (match_within_log (ar_match_index r) log) then e
  else
    let '(moved, pr') := Progress_maybe_update (ar_match_index r) pr in
    let e := e <| ep_tracker ::= Tracker_progress_mut from (λ _, pr') |> in
    if negb moved then e
    else
      let e := if Progress_is_probe pr
               then e <| ep_tracker ::= Tracker_progress_mut from Progress_become_replicate |>
               else e in
      let e := maybe_advance_commit now log e in
      let e := (apply_committed log e).2 in
      if is_poisoned e then e
      else
        let e := maybe_flush_deferred_reads now log e in
        let e := pump_appends now from log stable e in
        if is_poisoned e then e else maybe_hand_off_to_transferee from log e.

Definition on_append_response (now : Now) (from : I) (r : AppendResponse I) (log : L) (stable : S)
    (e : Endpoint) : Endpoint :=
  if is_poisoned e then e
  else if negb (Role_is_leader (ep_role e)) then e
  else match Tracker_progress (ep_tracker e) from with
  | None => e
  | Some pr =>
      if ar_reject r then on_append_reject now from r pr log stable e
      else on_append_accept now from r pr log stable e
  end.

(** ** Freeze identity *)

(** A freeze proved committed by its source's leader advances the commit. *)
Definition advance_commit_on_freeze_identity (boundary : Index) (freeze_term : Term) (log : L)
    (e : Endpoint) : bool * Endpoint :=
  if is_poisoned e || (freeze_term =? 0) then (false, e)
  else if log_last_index log <? boundary then (false, e)
  else match read_log_term log boundary e with
  | (None, e) => (false, e)
  | (Some t, e) =>
      if negb (t =? freeze_term) then (false, e)
      else (true, advance_commit_to boundary log e)
  end.
End append.
