(* ===== verification/Drive.v ===== *)
(** * The endpoint's entry points

    [handle_message] and [handle_timeout] of [sailing-proto/src/endpoint/mod.rs]
    and [handle_storage] of [endpoint/persistence.rs], with the completions of
    the log: everything a driver calls to move a replica. *)

From S2P Require Import Prelude Bytes Num Quorum Progress ProgressMap Conf Tracker ConfChange.
From S2P Require Import Config Lease Prng ReadOnly Data Frame Entry Storage Shape Restart Wire.
From S2P Require Import Message Codec Endpoint Merge Persistence Replication Election Propose.
From S2P Require Import Handlers Commit Apply Reads Snapshot Append.

Definition STORAGE_DRAIN_BUDGET : nat := 256.

Section drive.
Context {I F R L S : Type} `{!NodeId I, !StateMachine F, !Rng R, !LogStore L, !StableStore I S}.
Context {DI : Data I} {BS : BuffaSizes} {DC : Data sm_command} {DS : Data sm_snapshot}.
Context {BD : BuffaDecode} {BC : Buffa PbConfChangeV2}.
Abbreviation Endpoint := (Endpoint I F R).
Implicit Types (e : Endpoint) (now : Now) (log : L) (stable : S).

(** ** Messages *)

Definition dispatch_message (now : Now) (from : I) (msg : Message I) (log : L) (stable : S)
    (e : Endpoint) : L * S * Endpoint :=
  match msg with
  | MRequestVote rv => let '(stable, e) := on_request_vote now rv log stable e in (log, stable, e)
  | MVoteResponse vr => on_vote_response now vr log stable e
  | MHeartbeat hb => (log, stable, on_heartbeat now hb log e)
  | MAppendEntries ae => on_append_entries now ae log stable e
  | MAppendResponse r => (log, stable, on_append_response now from r log stable e)
  | MHeartbeatResponse hr => (log, stable, on_heartbeat_response now from hr log stable e)
  | MReadIndex ri => (log, stable, on_read_index now ri log e)
  | MReadIndexResponse r => (log, stable, on_read_index_response from r e)
  | MInstallSnapshot m =>
      let '(stable, e) := on_install_snapshot now m log stable e in (log, stable, e)
  | MSnapshotResponse r => (log, stable, on_snapshot_response now from r log stable e)
  | MTimeoutNow tn => let '(stable, e) := on_timeout_now now tn log stable e in (log, stable, e)
  end.

Definition handle_message (now : Now) (from : I) (msg : Message I) (log : L) (stable : S)
    (e : Endpoint) : L * S * Endpoint :=
  match message_prepass now from msg stable e with
  | (false, e) => (log, stable, e)
  | (true, e) =>
      let '(log, stable, e) := dispatch_message now from msg log stable e in
      let '(stable, e) := ensure_term_durable stable e in
      (log, stable, reconcile_election_timer now e)
  end.

(** ** Timeouts in office *)

(** Whether a lease refresh may be appended: a lease is configured, nothing is
    frozen or handed over, and the log is fully committed. *)
Definition refresh_allowed (log : L) e : bool :=
  bool_decide (is_Some (endpoint_leaseguard_timing e)) && negb (merge_freeze_active e)
  && bool_decide (tf_lead_transferee (ep_transfer e) = None)
  && (log_last_index log =? ep_commit e).

(** The refresh a read asked for. *)
Definition demand_refresh (now : Now) (log : L) (e : Endpoint) : L * Endpoint :=
  if lg_lease_refresh_wanted (ep_lease_guard e) then
    let e := e <| ep_lease_guard ::= λ g, g <| lg_lease_refresh_wanted := false |> |> in
    if refresh_allowed log e then
      match lease_guard_read_live now log e with
      | (true, e) => (log, e)
      | (false, e) =>
          let '(_, log, e) := append_leader_noop now (log_last_index log) log e in (log, e)
      end
    else (log, e)
  else (log, e).

(** The refresh the configuration asks for. *)
Definition proactive_refresh (now : Now) (log : L) (e : Endpoint) : L * Endpoint :=
  let mode := cfg_lease_refresh (ep_config e) in
  if negb (bool_decide (mode = RefreshOff)) && lg_read_since_anchor (ep_lease_guard e)
     && refresh_allowed log e
  then
    let '(fire, e) :=
      match mode with
      | Continuous => (true, e)
      | OnExpiry => lease_near_expiry now log e
      | RefreshOff => (false, e)
      end in
    if fire then
      let '(_, log, e) := append_leader_noop now (ep_commit e) log e in
      (log, e <| ep_lease_refreshes ::= λ n, saturating_add n 1 |>)
    else (log, e)
  else (log, e).

(** Abandon a transfer whose deadline passed. *)
Definition expire_transfer (now : Now) (e : Endpoint) : Endpoint :=
  if bool_decide (is_Some (tf_lead_transferee (ep_transfer e)))
     && due_at now (tf_transfer_deadline (ep_transfer e))
  then e <| ep_transfer ::= λ t,
              t <| tf_lead_transferee := None |> <| tf_transfer_deadline := None |> |>
  else e.

(** Step down without a recently active quorum. *)
Definition check_quorum_tick (now : Now) (e : Endpoint) : Endpoint :=
  if cfg_check_quorum (ep_config e) && due_at now (ep_election_deadline e) then
    if negb (Tracker_quorum_active (ep_tracker e)) then step_down_to_follower now e
    else e <| ep_tracker ::= Tracker_reset_recent_active (cfg_id (ep_config e)) |>
           <| ep_election_deadline :=
                Some (Instant_add (now_mono now) (cfg_election_timeout (ep_config e))) |>
  else e.

Definition commit_wait_tick (now : Now) (log : L) (e : Endpoint) : Endpoint :=
  if due_at now (lg_commit_wait_until (ep_lease_guard e)) then
    let e := maybe_advance_commit now log e in
    let e := (apply_committed log e).2 in
    maybe_flush_deferred_reads now log e
  else e.

(** Farewells, courtesy offers, cures, and the hand-off of a parked leader. *)
Definition drive_debts (now : Now) (log : L) (stable : S) (e : Endpoint) : Endpoint :=
  let e := drive_pending_farewells now log e in
  let e := drive_courtesy_offers now stable e in
  let e := drive_cure_sweep now stable e in
  drive_parked_leader_handoff now log stable e.

(** The flag is false where the handler returns early. *)
Definition handle_timeout_leader (now : Now) (log : L) (stable : S) (e : Endpoint)
  : bool * L * Endpoint :=
  let heartbeat_due := due_at now (ep_heartbeat_deadline e) in
  let e := if heartbeat_due then arm_heartbeat_timer now (broadcast_heartbeat now e) else e in
  let '(log, e) := if heartbeat_due then demand_refresh now log e else (log, e) in
  if is_poisoned e then (false, log, e)
  else
    let '(log, e) := if heartbeat_due then proactive_refresh now log e else (log, e) in
    if is_poisoned e then (false, log, e)
    else
      let e := commit_wait_tick now log e in
      if is_poisoned e then (false, log, e)
      else (true, log, drive_debts now log stable (check_quorum_tick now (expire_transfer now e))).

Definition handle_timeout (now : Now) (log : L) (stable : S) (e : Endpoint) : L * S * Endpoint :=
  if is_poisoned e then (log, stable, e)
  else match ep_role e with
  | Leader =>
      let '(go, log, e) := handle_timeout_leader now log stable e in
      (log, stable, if go then reconcile_election_timer now e else e)
  | _ => let '(stable, e) := handle_timeout_idle now log stable e in (log, stable, e)
  end.

(** ** Completions of the log *)

Definition release_log_pending (now : Now) (opid : OpId) (log : L) (e : Endpoint) : Endpoint :=
  match take_log_pending opid e with
  | (Some (FollowerAck to match_index), e) => send_or_gate_append_ack to match_index e
  | (Some (LeaderAppend upto), e) =>
      if Role_is_leader (ep_role e) then
        let e := e <| ep_tracker ::= Tracker_progress_mut (cfg_id (ep_config e))
                        (λ p, (Progress_maybe_update upto p).2) |> in
        let e := maybe_advance_commit now log e in
        let e := (apply_committed log e).2 in
        maybe_flush_deferred_reads now log e
      else e
  | (_, e) => e
  end.

Definition on_log_appended (now : Now) (opid : OpId) (log : L) (e : Endpoint) : Endpoint :=
  let '(upto, q) := take_by_opid opid (du_inflight_append_upto (ep_durable e)) in
  let e := e <| ep_durable ::= λ d,
                  d <| du_inflight_append_upto := q |>
                    <| du_durable_index ::= λ i,
                         match upto with Some u => N.max i u | None => i end |> |> in
  release_log_pending now opid log e.

(** The in-flight appends that are now covered, front first; each round takes
    one off, so their number is enough rounds. *)
Fixpoint release_covered (fuel : nat) (now : Now) (covered : Index) (log : L) (e : Endpoint)
  : bool * Endpoint :=
  match fuel with
  | O => (true, e)
  | Datatypes.S fuel =>
      match du_inflight_append_upto (ep_durable e) with
      | (opid, upto) :: q =>
          if upto <=? covered then
            let e := e <| ep_durable ::= λ d, d <| du_inflight_append_upto := q |> |> in
            let e := release_log_pending now opid log e in
            if is_poisoned e then (false, e) else release_covered fuel now covered log e
          else (true, e)
      | [] => (true, e)
      end
  end.

Definition reconcile_durable_index (now : Now) (log : L) (e : Endpoint) : bool * Endpoint :=
  if negb (log_durability_outstanding e) || log_has_pending log then (true, e)
  else match log_durable_index log with
  | None => (true, e)
  | Some d =>
      let e := e <| ep_durable ::= λ du, du <| du_durable_index ::= λ i, N.max i d |> |> in
      release_covered (length (du_inflight_append_upto (ep_durable e))) now
        (du_durable_index (ep_durable e)) log e
  end.

(** ** The storage crank *)

(** The flag is false where the crank ends early, poisoned. *)
Fixpoint drain_log (budget : nat) (now : Now) (log : L) (e : Endpoint) : bool * L * Endpoint :=
  match budget with
  | O => (true, log, e)
  | Datatypes.S budget =>
      match log_poll log with
      | (Some (Ok (Appended opid)), log) =>
          let e := on_log_appended now opid log e in
          if is_poisoned e then (false, log, e) else drain_log budget now log e
      | (Some (Ok (Compacted _)), log) => drain_log budget now log e
      | (Some (Err _), log) => (false, log, poison LogPoll e)
      | (None, log) => (true, log, e)
      end
  end.

(** A capture is durable: the log may be compacted to it. *)
Definition settle_compact (meta : SnapshotMeta I) (log : L) (e : Endpoint) : L * Endpoint :=
  (log_compact (sm_last_index meta) log,
   e <| ep_durable ::= λ d,
          d <| du_durable_snapshot_index ::= λ i, N.max i (sm_last_index meta) |> |>
     <| ep_snapshot ::= λ s, s <| ss_pending_compact := None |> |>).

(** An install is durable: it takes effect. *)
Definition settle_install (meta : SnapshotMeta I) (snap : sm_snapshot) (leader : I) (log : L)
    (stable : S) (e : Endpoint) : L * S * Endpoint :=
  install_snapshot_now meta snap leader log stable
    (e <| ep_snapshot ::= λ s, s <| ss_pending_install := None |> |>).

Definition on_snapshot_written (opid : OpId) (log : L) (stable : S) (e : Endpoint)
  : L * S * Endpoint :=
  let '(log, e) :=
    match ss_pending_compact (ep_snapshot e) with
    | Some (pid, m) => if decide (pid = opid) then settle_compact m log e else (log, e)
    | None => (log, e)
    end in
  match ss_pending_install (ep_snapshot e) with
  | Some (pid, meta, snap, leader) =>
      if decide (pid = opid) then settle_install meta snap leader log stable e
      else (log, stable, e)
  | None => (log, stable, e)
  end.

Fixpoint drain_stable (budget : nat) (now : Now) (log : L) (stable : S) (e : Endpoint)
  : bool * L * S * Endpoint :=
  match budget with
  | O => (true, log, stable, e)
  | Datatypes.S budget =>
      match stable_poll stable with
      | (Some (Ok (Wrote opid)), stable) =>
          let '(log, e) := on_stable_wrote now opid log stable e in
          if is_poisoned e then (false, log, stable, e) else drain_stable budget now log stable e
      | (Some (Ok (SnapshotWritten opid)), stable) =>
          let '(log, stable, e) := on_snapshot_written opid log stable e in
          if is_poisoned e then (false, log, stable, e) else drain_stable budget now log stable e
      | (Some (Err _), stable) => (false, log, stable, poison StablePoll e)
      | (None, stable) => (true, log, stable, e)
      end
  end.

(** What the durable snapshot itself proves, for stores that report none of the
    completions. *)
Definition reconcile_snapshots (log : L) (stable : S) (e : Endpoint) : bool * L * S * Endpoint :=
  let durable_is m := match stable_durable_snapshot stable with
                      | Some d => SnapshotMeta_identity_eq d m
                      | None => false
                      end in
  let '(log, e) :=
    match ss_pending_compact (ep_snapshot e) with
    | Some (_, m) => if durable_is m then settle_compact m log e else (log, e)
    | None => (log, e)
    end in
  match ss_pending_install (ep_snapshot e) with
  | Some (_, meta, snap, leader) =>
      if durable_is meta then
        let '(log, stable, e) := settle_install meta snap leader log stable e in
        (negb (is_poisoned e), log, stable, e)
      else (true, log, stable, e)
  | None => (true, log, stable, e)
  end.

(** A leader leaves a joint configuration by itself once its entry is applied. *)
Definition auto_leave_joint (now : Now) (log : L) (e : Endpoint) : L * Endpoint :=
  if Role_is_leader (ep_role e) && bool_decide (tf_lead_transferee (ep_transfer e) = None)
     && Tracker_is_joint (ep_tracker e) && tr_auto_leave (ep_tracker e)
     && (ep_pending_conf_index e <=? ep_applied e)
  then match append_conf_change now ConfChangeV2_leave_joint log e with
       | (Some _, log, e) => (log, e)
       | (None, log, e) => (log, poison LogExhausted e)
       end
  else (log, e).

(** From the durability of the log to the acknowledgements. *)
Definition storage_tail (now : Now) (log : L) (stable : S) (e : Endpoint)
  : StorageProgress * L * S * Endpoint :=
  let '(drain, e) :=
    if negb (is_poisoned e) && (ep_applied e <? ep_commit e) then
      let '(verdict, e) := apply_committed log e in (verdict, maybe_flush_deferred_reads now log e)
    else (ApplyDrained, e) in
  if is_poisoned e then (StorageDrained, log, stable, e)
  else
    let '(stable, e) := maybe_snapshot log stable e in
    if is_poisoned e then (StorageDrained, log, stable, e)
    else
      let '(log, e) := auto_leave_joint now log e in
      if is_poisoned e then (StorageDrained, log, stable, e)
      else
        let '(stable, e) := persist_commit_floor stable e in
        let e := reconcile_election_timer now (flush_shortcut_gated_ack e) in
        (if log_has_pending log || stable_has_pending stable
            || bool_decide (drain = ApplyBudgetCut)
         then StorageMorePending else StorageDrained, log, stable, e).

Definition handle_storage (now : Now) (log : L) (stable : S) (e : Endpoint)
  : StorageProgress * L * S * Endpoint :=
  if is_poisoned e then (StorageDrained, log, stable, e)
  else match drain_log STORAGE_DRAIN_BUDGET now log e with
  | (false, log, e) => (StorageDrained, log, stable, e)
  | (true, log, e) =>
      match drain_stable STORAGE_DRAIN_BUDGET now log stable e with
      | (false, log, stable, e) => (StorageDrained, log, stable, e)
      | (true, log, stable, e) =>
          match reconcile_snapshots log stable e with
          | (false, log, stable, e) => (StorageDrained, log, stable, e)
          | (true, log, stable, e) =>
              match reconcile_durable_index now log e with
              | (false, e) => (StorageDrained, log, stable, e)
              | (true, e) =>
                  match reconcile_durable_hard_state now log stable e with
                  | (false, log, e) => (StorageDrained, log, stable, e)
                  | (true, log, e) =>
                      match reclaim_stale_snapshot_recv log stable e with
                      | (false, stable, e) => (StorageDrained, log, stable, e)
                      | (true, stable, e) => storage_tail now log stable e
                      end
                  end
              end
          end
      end
  end.
End drive.
