(* ===== verification/VoteFrame.v ===== *)
(** * What leaves a vote alone

    A ballot is a term and the vote cast in it.  [vote_frame] relates two
    endpoints that agree on their ballot, their waiting ballots and their
    identity, where the second has granted and won nothing more and is a step of
    the node in the sense of [Invariant.ep_step]; the lemmas show it of
    everything the endpoint does besides voting, and [frame] is the tactic that
    walks through a definition to do so. *)

From S2P Require Import Prelude Bytes Num Quorum Progress ProgressMap Conf Tracker ConfChange.
From S2P Require Import Config ConfChangeProps Lease Prng ReadOnly Data Entry Storage Restart.
From S2P Require Import Forwarded Message Wire Endpoint Persistence Replication Election Handlers.
From S2P Require Import Merge Invariant.

(** ** Ballots

    A term and the vote cast in it.  A later ballot is of a higher term, or of
    the same one with the vote kept. *)

Section ballots.
Context {I : Type}.

Definition ballot_le (a b : Term * option I) : Prop :=
  a.1 < b.1 ∨ (a.1 = b.1 ∧ (a.2 = None ∨ a.2 = b.2)).

#[global] Instance ballot_le_refl : Reflexive ballot_le.
Proof. intros a. right. auto. Qed.

#[global] Instance ballot_le_trans : Transitive ballot_le.
Proof.
  intros [t1 v1] [t2 v2] [t3 v3]; unfold ballot_le; cbn [fst snd].
  intros [?|[-> [->| ->]]] [?|[-> [->| ->]]]; auto with lia.
Qed.

Lemma ballot_le_inv t c (b : Term * option I) :
  ballot_le (t, Some c) b → b.1 = t → b.2 = Some c.
Proof. unfold ballot_le; cbn [fst snd]. intros [?|[? [?|?]]] ?; [lia|done|done]. Qed.
End ballots.

Section frame.
Context {I F R : Type} `{!NodeId I, !StateMachine F}.
Abbreviation Endpoint := (Endpoint I F R).
Implicit Types (e : Endpoint).

(** The vote an outgoing message grants. *)
Definition grant_of (o : Outgoing I) : option (Term * I) :=
  match out_message o with
  | MVoteResponse v =>
      if vr_pre_vote v || vr_reject v then None else Some (vr_term v, out_to o)
  | _ => None
  end.

Definition grants e : list (Term * I) := omap grant_of (ou_outgoing (ep_outputs e)).

Definition ep_id e : I := cfg_id (ep_config e).
Definition ep_ballot e : Term * option I := (ep_term e, ep_voted_for e).

(** Work that touches neither the term nor the vote nor the waiting ballots,
    grants nothing and wins nothing. *)
Record vote_frame e e' : Prop := {
  vf_ballot : ep_ballot e' = ep_ballot e;
  vf_pending : ep_pending_stable e' = ep_pending_stable e;
  vf_id : ep_id e' = ep_id e;
  vf_opid : is_u64 (opid_seq (ep_next_op_id e)) →
    OpId_leb (ep_next_op_id e) (ep_next_op_id e') = true ∧ is_u64 (opid_seq (ep_next_op_id e'));
  vf_poison : is_poisoned e = true → is_poisoned e' = true;
  vf_grants : grants e' ⊆ grants e;
  vf_role : ep_role e' = ep_role e ∨ ep_role e' = Follower ∨ ep_role e' = PreCandidate;
  vf_step : ep_step e e';
}.

#[global] Instance vote_frame_refl : Reflexive vote_frame.
Proof. intros e. constructor; auto; [|reflexivity]. intros. split; [apply OpId_leb_le; lia|done]. Qed.

#[global] Instance vote_frame_trans : Transitive vote_frame.
Proof.
  intros a b c [Hb1 Hp1 Hi1 Ho1 Hq1 Hg1 Hr1 Hs1] [Hb2 Hp2 Hi2 Ho2 Hq2 Hg2 Hr2 Hs2]. constructor.
  - congruence.
  - congruence.
  - congruence.
  - intros Hu. destruct (Ho1 Hu) as [H1 Hu']. destruct (Ho2 Hu') as [H2 Hu''].
    split; [|done]. revert H1 H2. rewrite !OpId_leb_le. lia.
  - auto.
  - by etrans.
  - destruct Hr2 as [-> |]; auto.
  - by etrans.
Qed.

(** A change of the observed state beside the ballot. *)
Lemma vote_frame_step a b c :
  vote_frame a b → ep_step b c →
  ep_ballot c = ep_ballot b → ep_pending_stable c = ep_pending_stable b →
  ep_next_op_id c = ep_next_op_id b → (is_poisoned b = true → is_poisoned c = true) →
  grants c = grants b → ep_role c = ep_role b → vote_frame a c.
Proof.
  intros Hf Hs Hb Hp Ho Hq Hg Hr. etrans; [exact Hf|]. constructor; try done.
  - unfold ep_id. by rewrite (st_config _ _ Hs).
  - intros. rewrite Ho. split; [apply OpId_leb_le; lia|done].
  - by rewrite Hg.
  - by left.
Qed.

(** Updates of other fields. *)
Lemma vote_frame_conv a b c :
  vote_frame a b → same_view b c →
  ep_ballot c = ep_ballot b → ep_pending_stable c = ep_pending_stable b →
  ep_next_op_id c = ep_next_op_id b → grants c = grants b → ep_role c = ep_role b →
  vote_frame a c.
Proof.
  intros Hf Hv Hb Hp Ho Hg Hr. apply (vote_frame_step a b); try done.
  - by apply ep_step_same_view.
  - unfold is_poisoned. by rewrite (sv_poison _ _ Hv).
Qed.

Lemma vote_frame_tracker a b t :
  vote_frame a b → (conf_inv (ep_tracker b) → conf_inv t) →
  vote_frame a (b <| ep_tracker := t |>).
Proof. intros Hf Ht. apply (vote_frame_step a b); try done. by apply ep_step_tracker. Qed.

Lemma vote_frame_commit a b c :
  vote_frame a b → ep_commit b ≤ c → vote_frame a (b <| ep_commit := c |>).
Proof. intros Hf Ht. apply (vote_frame_step a b); try done. by apply ep_step_commit. Qed.

(** The same with a harmless role. *)
Lemma vote_frame_role a b r :
  vote_frame a b → r = Follower ∨ r = PreCandidate → vote_frame a (b <| ep_role := r |>).
Proof.
  intros Hf Hr. etrans; [exact Hf|]. constructor; try done.
  - intros. split; [apply OpId_leb_le; change (ep_next_op_id (b <| ep_role := r |>)) with (ep_next_op_id b); lia|done].
  - by right.
  - apply ep_step_same_view. by constructor.
Qed.

Lemma vote_frame_poison a b r : vote_frame a b → vote_frame a (poison r b).
Proof. intros Hf. apply (vote_frame_step a b); try done. apply ep_step_poison. Qed.

Lemma vote_frame_send a b to m :
  vote_frame a b → grant_of {| out_to := to; out_message := m |} = None →
  vote_frame a (send to m b).
Proof.
  unfold send. destruct (is_poisoned b) eqn:Hq; [done|]. intros Hf Hm.
  apply (vote_frame_conv a b); try done.
  unfold grants. cbn [upd ep_outputs ou_outgoing]. rewrite omap_app. cbn [omap list_omap].
  by rewrite Hm, app_nil_r.
Qed.

Lemma vote_frame_outputs a b f :
  vote_frame a b → omap grant_of (ou_outgoing (f (ep_outputs b))) ⊆ grants b →
  vote_frame a (b <| ep_outputs ::= f |>).
Proof.
  intros Hf Hg. etrans; [exact Hf|]. constructor; try done.
  - intros. split; [apply OpId_leb_le; cbn; lia|done].
  - by left.
  - by apply ep_step_same_view.
Qed.

Lemma vote_frame_set_leader a b l : vote_frame a b → vote_frame a (set_leader l b).
Proof.
  unfold set_leader. case_decide; [done|]. intros Hf.
  by apply (vote_frame_conv _ b).
Qed.

Lemma vote_frame_mint a b : vote_frame a b → vote_frame a (mint_op_id b).2.
Proof.
  intros H. etrans; [exact H|]. unfold mint_op_id. cbn [snd].
  assert (Hn : is_u64 (opid_seq (ep_next_op_id b)) →
      OpId_leb (ep_next_op_id b) (OpId_next (ep_next_op_id b)) = true
      ∧ is_u64 (opid_seq (OpId_next (ep_next_op_id b)))).
  { intros Hu. rewrite OpId_leb_le. unfold OpId_next. cbn [opid_epoch opid_seq]. u64_lia. }
  case_decide; constructor; try done; eauto.
  - etrans; [apply (ep_step_poison _ OpIdExhausted)|]. apply ep_step_same_view. by constructor.
  - apply ep_step_same_view. by constructor.
Qed.
End frame.

(** The update of a variable is compared with that variable: the conversion has
    nothing else to unfold. *)
Ltac frame_upd :=
  let b := fresh "b" in let Hb := fresh "Hb" in
  intros b Hb; apply (vote_frame_conv _ b); [exact Hb|by constructor|reflexivity..].

(** An operation on endpoints that keeps the frame, and one with a result beside
    the endpoint. *)
Class Framed {I F R} `{!NodeId I, !StateMachine F} (f : Endpoint I F R → Endpoint I F R) : Prop :=
  framed a e : vote_frame a e → vote_frame a (f e).
Class FramedSnd {I F R B} `{!NodeId I, !StateMachine F} (f : Endpoint I F R → B * Endpoint I F R)
  : Prop := framed_snd a e : vote_frame a e → vote_frame a (f e).2.

(** [frame] walks back through the calls a definition is made of: a call is an
    instance of the classes, a [let] or a pair that binds an endpoint is framed
    before the rest is looked at. *)
Ltac frame_step :=
  lazymatch goal with
  | |- vote_frame ?a ?a => reflexivity
  | H : vote_frame ?a ?b |- vote_frame ?a ?b => exact H
  | |- vote_frame _ (upd ep_role _ _) => apply vote_frame_role; [|by auto]
  | |- vote_frame _ (upd ep_tracker _ _) =>
      apply vote_frame_tracker; [|by eauto with conf_inv]
  | |- vote_frame ?a (upd _ _ ?b) => cut (vote_frame a b); [generalize b; frame_upd|]
  | |- vote_frame _ (poison _ _) => apply vote_frame_poison
  | |- vote_frame _ (set_leader _ _) => apply vote_frame_set_leader
  | |- vote_frame _ (send _ _ _) => apply vote_frame_send; [|reflexivity]
  | |- vote_frame _ (snd (_, _)) => cbn [snd]
  | |- vote_frame _ (snd (mint_op_id _)) => apply vote_frame_mint
  | |- vote_frame ?a (let x := ?v in @?b x) => frame_let a v (vote_frame a (b v))
  | |- vote_frame ?a (snd (let x := ?v in @?b x)) => frame_let a v (vote_frame a (snd (b v)))
  | |- vote_frame ?a (match ?x with _ => _ end) => frame_match a x
  | |- vote_frame ?a (snd (match ?x with _ => _ end)) => frame_match a x
  | |- vote_frame _ (snd (?f _)) => apply (framed_snd (f := f))
  | |- vote_frame _ (?f _) => apply (framed (f := f))
  end
with frame_let a v goal :=
  first
    [ let H := fresh "Hf" in
      assert (H : vote_frame a v) by frame;
      change goal; revert H; generalize v; intros ? H; cbv beta
    | change goal; cbv beta ]
with frame_match a x :=
  first
    [ let H := fresh "Hf" in
      assert (H : vote_frame a (snd x)) by frame; destruct x; cbn [snd] in H
    | destruct x ]
with frame := repeat (frame_step || (progress eauto 2 with vote_frame)).

Create HintDb vote_frame.

Section frames.
Context {I F R L S : Type} `{!NodeId I, !StateMachine F, !Rng R, !LogStore L, !StableStore I S}.
Context {DI : Data I} {BS : BuffaSizes}.
Abbreviation Endpoint := (Endpoint I F R).
Implicit Types (a e : Endpoint) (now : Now) (log : L) (stable : S).

Lemma vf_foldl {A} (f : Endpoint → A → Endpoint) (l : list A) a e :
  (∀ e x, vote_frame a e → vote_frame a (f e x)) → vote_frame a e →
  vote_frame a (foldl f e l).
Proof. intros Hf. revert e. induction l as [|x l IH]; intros e He; [done|]. simpl. auto. Qed.

Lemma vf_arm_election_timer a now e :
  vote_frame a e → vote_frame a (arm_election_timer now e).
Proof. intros. unfold arm_election_timer. destruct (election_timeout _ _). frame. Qed.
#[local] Hint Resolve vf_arm_election_timer : vote_frame.

Lemma vf_reconcile_election_timer a now e :
  vote_frame a e → vote_frame a (reconcile_election_timer now e).
Proof. intros. unfold reconcile_election_timer. frame. Qed.

Lemma vf_read_log_term a log i e : vote_frame a e → vote_frame a (read_log_term log i e).2.
Proof. intros. unfold read_log_term. destruct (log_term log i); cbn [snd]; frame. Qed.

Lemma vf_last_log a log e : vote_frame a e → vote_frame a (last_log log e).2.
Proof.
  intros He. unfold last_log. case_match; [done|].
  pose proof (vf_read_log_term a log (log_last_index log) e He) as H1.
  by destruct (read_log_term _ _ _) as [[]].
Qed.

Lemma vf_lease_wall_stamp a now e : vote_frame a e → vote_frame a (lease_wall_stamp now e).2.
Proof.
  intros. unfold lease_wall_stamp. destruct (failover_tier_valid _ _); [|done].
  destruct (Wall_is_absent _); cbn [snd]; frame.
Qed.

Lemma vf_note_campaign a e :
  vote_frame a e → vote_frame a (note_campaign_floor_provability e).
Proof. intros. unfold note_campaign_floor_provability. frame. Qed.

Lemma vf_flush_shortcut a e : vote_frame a e → vote_frame a (flush_shortcut_gated_ack e).
Proof.
  intros. unfold flush_shortcut_gated_ack.
  destruct (du_shortcut_gated_snapshot_ack _) as [[[]]|]; frame.
Qed.

Lemma vf_flush_term_gated_acks a e : vote_frame a e → vote_frame a (flush_term_gated_acks e).
Proof.
  intros He. unfold flush_term_gated_acks.
  apply vf_flush_shortcut in He. revert He. generalize (flush_shortcut_gated_ack e). clear e.
  intros e He.
  set (e1 := if tagged_stale _ _ then _ else e). assert (H1 : vote_frame a e1) by (unfold e1; frame).
  clearbody e1. clear He e.
  set (e2 := if tagged_stale _ _ then _ else e1).
  assert (H2 : vote_frame a e2) by (unfold e2; frame). clearbody e2. clear H1 e1.
  destruct (negb _); [done|].
  destruct (du_term_gated_snapshot_ack (ep_durable e2)) as [[[]]|];
    destruct (du_term_gated_append_ack _) as [[[]]|]; frame.
Qed.

Lemma vf_submit_append a id es log e :
  vote_frame a e → vote_frame a (submit_append id es log e).2.
Proof. intros. unfold submit_append. destruct (is_poisoned e); cbn [snd]; frame. Qed.

(** ** The sending paths *)

Lemma vf_send_heartbeats a ctx e : vote_frame a e → vote_frame a (send_heartbeats ctx e).
Proof.
  intros. unfold send_heartbeats. frame_step. apply vf_foldl; [|done]. intros ? [] ?. frame.
Qed.

Lemma vf_broadcast_heartbeat a now e : vote_frame a e → vote_frame a (broadcast_heartbeat now e).
Proof.
  intros. unfold broadcast_heartbeat. case_match; [|frame]. apply vf_send_heartbeats. frame.
Qed.

Lemma vf_send_snapshot_chunk a peer off stable e :
  vote_frame a e → vote_frame a (send_snapshot_chunk peer off stable e).2.
Proof.
  intros He. unfold send_snapshot_chunk.
  destruct (stable_snapshot_chunk _ _ _) as [[[[meta total] chunk]|]|]; [|cbn [snd]; frame|done].
  set (p := if receiving _ _ _ _ then _ else _).
  assert (Hp : vote_frame a p.2) by (unfold p; destruct (receiving _ _ _ _); cbn [snd]; frame).
  clearbody p. destruct p as [from e']. cbn [snd] in Hp.
  destruct (_ =? 0); [cbn [snd]; frame|].
  set (r := if _ =? off then _ else _). clearbody r.
  destruct r as [[data|]|[]]; frame.
Qed.

Lemma vf_maybe_send_courtesy a now peer stable e :
  vote_frame a e → vote_frame a (maybe_send_courtesy_snapshot now peer stable e).
Proof.
  intros. unfold maybe_send_courtesy_snapshot.
  destruct (_ !! peer); [|done]. repeat (case_match; try done; []). frame.
Qed.

Lemma vf_prev_log_term a log i e : vote_frame a e → vote_frame a (prev_log_term log i e).2.
Proof. intros. unfold prev_log_term. destruct (i =? 0); [done|]. by apply vf_read_log_term. Qed.

Lemma vf_append_batch a log n en p m sh e :
  vote_frame a e → vote_frame a (append_batch log n en p m sh e).2.
Proof.
  intros. unfold append_batch. repeat case_match; frame.
Qed.

Lemma vf_send_append_snapshot a now peer stable e :
  vote_frame a e → vote_frame a (send_append_snapshot now peer stable e).
Proof.
  intros He. unfold send_append_snapshot.
  pose proof (vf_send_snapshot_chunk a peer 0 stable e He) as H1.
  destruct (send_snapshot_chunk _ _ _ _) as [[] e']; cbn [snd] in H1; frame.
Qed.

Lemma vf_maybe_send_append_shared a now peer log stable sh e :
  vote_frame a e → vote_frame a (maybe_send_append_shared now peer log stable sh e).2.
Proof.
  intros He. unfold maybe_send_append_shared.
  destruct (is_poisoned e); [done|]. destruct (Tracker_progress _ _) as [pr|]; [|done].
  destruct (Progress_is_paused pr); [done|].
  destruct (_ <? log_first_index log); [by apply vf_send_append_snapshot|].
  match goal with |- context [prev_log_term log ?i e] =>
    pose proof (vf_prev_log_term a log i e He) as Hp;
    destruct (prev_log_term log i e) as [[prev|] e1] end; cbn [snd] in Hp; [|done].
  match goal with |- context [append_batch ?l ?n ?en ?p ?m ?sh e1] =>
    pose proof (vf_append_batch a l n en p m sh e1 Hp) as Hb;
    destruct (append_batch l n en p m sh e1) as [[b|] e2] end; cbn [snd] in *; [|done].
  frame.
Qed.

Lemma vf_maybe_send_append a now peer log stable e :
  vote_frame a e → vote_frame a (maybe_send_append now peer log stable e).
Proof. apply vf_maybe_send_append_shared. Qed.

(** ** Taking office: the frame, except for the role *)

Lemma vf_poison_if a b r e : vote_frame a e → vote_frame a (poison_if b r e).
Proof. intros. unfold poison_if. frame. Qed.

Lemma vf_reset_leader_state a e : vote_frame a e → vote_frame a (reset_leader_state e).
Proof. intros. by apply (vote_frame_conv a e). Qed.

Lemma vf_reseat_fences a last e : vote_frame a e → vote_frame a (reseat_fences last e).
Proof. intros. by apply (vote_frame_conv a e). Qed.

Lemma vf_arm_check_quorum a now e : vote_frame a e → vote_frame a (arm_check_quorum now e).
Proof. intros. unfold arm_check_quorum. frame. Qed.

Lemma vf_reset_for_leadership now last e :
  vote_frame (e <| ep_role := Leader |>) (reset_for_leadership now last e).
Proof.
  unfold reset_for_leadership. apply vf_arm_check_quorum.
  unfold reset_tracker. frame_step. apply vf_reseat_fences.
  unfold arm_heartbeat_timer. frame_step. apply vf_reset_leader_state. frame_step.
  by apply (vote_frame_conv _ (e <| ep_role := Leader |>)).
Qed.

Lemma vf_arm_commit_wait a now e : vote_frame a e → vote_frame a (arm_commit_wait now e).
Proof.
  intros He. unfold arm_commit_wait.
  assert (Hd : ∀ x, vote_frame a (decide_inflation now x e)).
  { intros x. by apply (vote_frame_conv a e). }
  assert (Hp : ∀ w u e', vote_frame a e' → vote_frame a (pin_deadlines now w u e')).
  { intros w u e' H'. by apply (vote_frame_conv a e'). }
  apply Hp. do 4 apply vf_poison_if. apply Hd.
Qed.

Lemma vf_pin_committed_anchor a now last log e :
  vote_frame a e → vote_frame a (pin_committed_anchor now last log e).
Proof.
  intros He. unfold pin_committed_anchor, committed_anchor_at_election.
  repeat (case_match; simplify_eq); frame.
Qed.

Lemma vf_append_leader_noop a now last log e :
  vote_frame a e → vote_frame a (append_leader_noop now last log e).2.
Proof.
  intros He. unfold append_leader_noop. destruct (is_poisoned e); [done|].
  destruct (next_log_index last) as [i|]; [|frame].
  pose proof (vf_lease_wall_stamp a now e He) as H1.
  destruct (lease_wall_stamp now e) as [wall e1]. cbn [snd] in H1.
  pose proof (vote_frame_mint a e1 H1) as H2.
  destruct (mint_op_id e1) as [opid e2]. cbn [snd] in H2.
  match goal with |- context [submit_append opid ?es log e2] =>
    pose proof (vf_submit_append a opid es log e2 H2) as H3;
    destruct (submit_append opid es log e2) as [log' e3] end. cbn [snd] in H3 |- *.
  unfold push_pending. frame.
Qed.

Lemma vf_become_leader now log stable e :
  vote_frame (e <| ep_role := Leader |>) (become_leader now log stable e).2.
Proof.
  unfold become_leader. destruct (_ && _).
  { cbn [snd]. frame_step. apply (vote_frame_conv _ (set_leader None (e <| ep_role := Follower |>)));
      [|by constructor|reflexivity..]. frame_step.
    constructor; try done; [|by right; left|apply ep_step_same_view; by constructor].
    intros. split; [apply OpId_leb_le; cbn; lia|done]. }
  pose proof (vf_reset_for_leadership now (log_last_index log) e) as H1.
  apply (vf_arm_commit_wait _ now) in H1.
  apply (vf_pin_committed_anchor _ now (log_last_index log) log) in H1.
  apply (vf_append_leader_noop _ now (log_last_index log) log) in H1.
  destruct (append_leader_noop _ _ _ _) as [[[noop|] log'] e1]; cbn [snd] in H1 |- *; [|done].
  apply vf_foldl.
  { intros e2 peer H2. by apply vf_maybe_send_append. }
  apply vf_broadcast_heartbeat. frame.
Qed.

(** ** The remaining pieces of the frame *)

Lemma vf_on_pre_vote a now rv ok e : vote_frame a e → vote_frame a (on_pre_vote now rv ok e).
Proof. intros. unfold on_pre_vote. frame. Qed.

Lemma vf_send_vote_requests a t i lt p x e :
  vote_frame a e → vote_frame a (send_vote_requests t i lt p x e).
Proof. intros. unfold send_vote_requests. apply vf_foldl; [|done]. intros. frame. Qed.

Lemma vf_become_pre_candidate a now log e :
  vote_frame a e → vote_frame a (become_pre_candidate now log e).2.
Proof.
  intros He. unfold become_pre_candidate.
  destruct (negb _); [done|]. destruct (merge_park_membership_superseded _ _); [done|].
  destruct (_ =? _); [done|].
  match goal with |- context [last_log log ?x] =>
    assert (H1 : vote_frame a (last_log log x).2)
      by (apply vf_last_log, vf_arm_election_timer; frame);
    destruct (last_log log x) as [[[li lt]|] e1] end; cbn [snd] in *; [|frame].
  by apply vf_send_vote_requests, vf_note_campaign.
Qed.

Lemma vf_note_sender a now from m stable e :
  vote_frame a e → vote_frame a (note_sender now from m stable e).
Proof.
  intros. unfold note_sender. destruct (Role_is_leader _); [|done].
  destruct (Tracker_progress _ _); [frame|]. destruct (_ !! from); [|done].
  apply vf_maybe_send_courtesy. frame.
Qed.

Lemma vf_drive_stuck a now e : vote_frame a e → vote_frame a (drive_stuck_advertisement now e).
Proof. intros. unfold drive_stuck_advertisement. frame. Qed.

Lemma vf_send_cure a now peer stable e :
  vote_frame a e → vote_frame a (maybe_send_cure_snapshot now peer stable e).
Proof.
  intros He. unfold maybe_send_cure_snapshot.
  destruct (negb _); [done|]. destruct (_ !! peer) as [debt|]; [|done].
  destruct (bool_decide _); [frame|]. do 2 (destruct (before_deadline _ _); [done|]).
  destruct (stable_snapshot_chunk _ _ _) as [[[[meta total] chunk]|]|]; [|frame|done].
  destruct (_ <? _); [done|]. destruct chunk as [blob|]; [|done].
  destruct (_ || _); [frame|].
  match goal with |- vote_frame a (upd ep_outputs _ ?b) =>
    assert (Hb : vote_frame a b) by frame; revert Hb; generalize b end.
  intros b Hb. apply (vote_frame_conv a b); try done.
  unfold grants. cbn [upd ep_outputs ou_outgoing]. rewrite omap_app. simpl. by rewrite app_nil_r.
Qed.

Lemma vf_drive_cure_sweep a now stable e :
  vote_frame a e → vote_frame a (drive_cure_sweep now stable e).
Proof.
  intros. unfold drive_cure_sweep. destruct (bool_decide _); [done|].
  destruct (negb _); [frame|]. apply vf_foldl.
  - intros. by apply vf_send_cure.
  - destruct (cure_due _ _); frame.
Qed.

(** ** As instances *)

Abbreviation Framed := (@Framed I F R _ _).
Abbreviation FramedSnd := (@FramedSnd I F R _ _ _).

#[global] Instance fr_arm_election_timer now : Framed (arm_election_timer now).
Proof. intros a e. apply vf_arm_election_timer. Qed.
#[global] Instance fr_reconcile_election_timer now : Framed (reconcile_election_timer now).
Proof. intros a e. apply vf_reconcile_election_timer. Qed.
#[global] Instance fr_read_log_term log i : FramedSnd (read_log_term log i).
Proof. intros a e. apply vf_read_log_term. Qed.
#[global] Instance fr_last_log log : FramedSnd (last_log log).
Proof. intros a e. apply vf_last_log. Qed.
#[global] Instance fr_lease_wall_stamp now : FramedSnd (lease_wall_stamp now).
Proof. intros a e. apply vf_lease_wall_stamp. Qed.
#[global] Instance fr_flush_shortcut : Framed flush_shortcut_gated_ack.
Proof. intros a e. apply vf_flush_shortcut. Qed.
#[global] Instance fr_flush_term_gated_acks : Framed flush_term_gated_acks.
Proof. intros a e. apply vf_flush_term_gated_acks. Qed.
#[global] Instance fr_submit_append id es log : FramedSnd (submit_append id es log).
Proof. intros a e. apply vf_submit_append. Qed.
#[global] Instance fr_send_heartbeats ctx : Framed (send_heartbeats ctx).
Proof. intros a e. apply vf_send_heartbeats. Qed.
#[global] Instance fr_broadcast_heartbeat now : Framed (broadcast_heartbeat now).
Proof. intros a e. apply vf_broadcast_heartbeat. Qed.
#[global] Instance fr_send_snapshot_chunk peer off stable :
  FramedSnd (send_snapshot_chunk peer off stable).
Proof. intros a e. apply vf_send_snapshot_chunk. Qed.
#[global] Instance fr_maybe_send_courtesy now peer stable :
  Framed (maybe_send_courtesy_snapshot now peer stable).
Proof. intros a e. apply vf_maybe_send_courtesy. Qed.
#[global] Instance fr_prev_log_term log i : FramedSnd (prev_log_term log i).
Proof. intros a e. apply vf_prev_log_term. Qed.
#[global] Instance fr_maybe_send_append now peer log stable :
  Framed (maybe_send_append now peer log stable).
Proof. intros a e. apply vf_maybe_send_append. Qed.
#[global] Instance fr_append_leader_noop now last log :
  FramedSnd (append_leader_noop now last log).
Proof. intros a e. apply vf_append_leader_noop. Qed.
#[global] Instance fr_drive_stuck now : Framed (drive_stuck_advertisement now).
Proof. intros a e. apply vf_drive_stuck. Qed.
#[global] Instance fr_drive_cure_sweep now stable : Framed (drive_cure_sweep now stable).
Proof. intros a e. apply vf_drive_cure_sweep. Qed.
#[global] Instance fr_maybe_send_cure now peer stable :
  Framed (maybe_send_cure_snapshot now peer stable).
Proof. intros a e. apply vf_send_cure. Qed.
End frames.
