(* ===== verification/Frames.v ===== *)
(** * The rest of the endpoint leaves a vote alone

    [VoteFrame.vote_frame], and with it [Invariant.ep_step], of the operations of
    [Merge], [Propose], [Commit], [Apply], [Reads], [Snapshot], [Append] and
    [Drive] that neither vote nor stand for election. *)

From S2P Require Import Prelude Bytes Num Quorum Progress ProgressMap Conf Tracker ConfChange.
From S2P Require Import ConfChangeProps Config Lease Prng ReadOnly Data Frame Entry Storage Shape.
From S2P Require Import Restart Forwarded Wire Message Codec Endpoint Merge Invariant Persistence.
From S2P Require Import Replication Election Propose Handlers Commit Apply Reads Snapshot Append.
From S2P Require Import Drive VoteFrame.

Section frames.
Context {I F R L S : Type} `{!NodeId I, !StateMachine F, !Rng R, !LogStore L, !StableStore I S}.
Context {DI : Data I} {BS : BuffaSizes} {DC : Data sm_command} {DS : Data sm_snapshot}.
Context {BD : BuffaDecode} {BC : Buffa PbConfChangeV2}.
Abbreviation Endpoint := (Endpoint I F R).
Abbreviation Framed := (@Framed I F R _ _).
Abbreviation FramedSnd := (@FramedSnd I F R _ _ _).
Implicit Types (a e : Endpoint) (now : Now) (log : L) (stable : S).

(** ** Bookkeeping of merges *)

#[global] Instance fr_push_event ev : Framed (push_event ev).
Proof. intros a e He. unfold push_event. frame. Qed.
#[global] Instance fr_raise_shape_gen g : Framed (raise_shape_gen g).
Proof. intros a e He. unfold raise_shape_gen. frame. Qed.
#[global] Instance fr_pop_applied_freeze i : Framed (pop_applied_freeze i).
Proof. intros a e He. unfold pop_applied_freeze. frame. Qed.
#[global] Instance fr_clear_freeze_queue : Framed clear_freeze_queue.
Proof. intros a e He. unfold clear_freeze_queue. frame. Qed.
#[global] Instance fr_note_freeze_appended i : Framed (note_freeze_appended i).
Proof. intros a e He. unfold note_freeze_appended. frame. Qed.
#[global] Instance fr_note_freeze_truncated i : Framed (note_freeze_truncated i).
Proof. intros a e He. unfold note_freeze_truncated. frame. Qed.
#[global] Instance fr_note_freeze_rebaselined : Framed note_freeze_rebaselined.
Proof. intros a e He. unfold note_freeze_rebaselined. frame. Qed.
#[global] Instance fr_note_abandoned s g i : Framed (note_abandoned s g i).
Proof. intros a e He. unfold note_abandoned. frame. Qed.
#[global] Instance fr_clear_abandoned s : Framed (clear_abandoned s).
Proof. intros a e He. unfold clear_abandoned. frame. Qed.
#[global] Instance fr_note_abort_covered b c : Framed (note_abort_covered b c).
Proof. intros a e He. unfold note_abort_covered. frame. Qed.
#[global] Instance fr_note_debts_rebaselined : Framed note_debts_rebaselined.
Proof. intros a e He. unfold note_debts_rebaselined. frame. Qed.
#[global] Instance fr_note_merge_park_unresolvable b : Framed (note_merge_park_unresolvable b).
Proof. intros a e He. unfold note_merge_park_unresolvable. frame. Qed.
#[global] Instance fr_note_merge_appended k i : Framed (note_merge_appended k i).
Proof. intros a e He. unfold note_merge_appended. frame. Qed.

(** ** Proposals *)

#[global] Instance fr_stamped_entry now i k d : FramedSnd (stamped_entry now i k d).
Proof. intros a e He. unfold stamped_entry. frame. Qed.
#[global] Instance fr_push_log_pending opid upto : Framed (push_pending opid (LeaderAppend upto)).
Proof. intros a e He. cbn [push_pending]. frame. Qed.
#[global] Instance fr_push_follower_pending opid to upto :
  Framed (push_pending opid (FollowerAck to upto)).
Proof. intros a e He. cbn [push_pending]. frame. Qed.
#[global] Instance fr_append_own entry log : FramedSnd (append_own entry log).
Proof. intros a e He. unfold append_own. frame. Qed.
#[global] Instance fr_append_proposal now k d log : FramedSnd (append_proposal now k d log).
Proof. intros a e He. unfold append_proposal. frame. Qed.
#[global] Instance fr_propose now cmd log : FramedSnd (propose now cmd log).
Proof. intros a e He. unfold propose. frame. Qed.
#[global] Instance fr_propose_split now c p log : FramedSnd (propose_split_entry now c p log).
Proof. intros a e He. unfold propose_split_entry. frame. Qed.
#[global] Instance fr_propose_merge now k p log : FramedSnd (propose_merge_entry now k p log).
Proof. intros a e He. unfold propose_merge_entry. frame. Qed.
#[global] Instance fr_propose_read_mode now m log : FramedSnd (propose_read_mode_change now m log).
Proof. intros a e He. unfold propose_read_mode_change. frame. Qed.
#[global] Instance fr_append_conf_change now cc log : FramedSnd (append_conf_change now cc log).
Proof. intros a e He. unfold append_conf_change. frame. Qed.
#[global] Instance fr_propose_conf_change_v2 now cc log :
  FramedSnd (propose_conf_change_v2 now cc log).
Proof. intros a e He. unfold propose_conf_change_v2. frame. Qed.
#[global] Instance fr_propose_conf_change now cc log : FramedSnd (propose_conf_change now cc log).
Proof. intros a e He. unfold propose_conf_change. frame. Qed.
#[global] Instance fr_transfer_leader now to log stable : FramedSnd (transfer_leader now to log stable).
Proof. intros a e He. unfold transfer_leader. frame. Qed.
#[global] Instance fr_ensure_merge_seal now log : FramedSnd (ensure_merge_seal now log).
Proof. intros a e He. unfold ensure_merge_seal. frame. Qed.

(** ** Committing and sending *)

#[global] Instance fr_settle_commit_wait now : FramedSnd (settle_commit_wait now).
Proof. intros a e He. unfold settle_commit_wait. frame. Qed.

#[global] Instance fr_maybe_advance_commit now log : Framed (maybe_advance_commit now log).
Proof.
  intros a e He. unfold maybe_advance_commit. destruct (is_poisoned e); [done|].
  pose proof (framed_snd (f := settle_commit_wait now) a e He) as H1.
  destruct (settle_commit_wait now e) as [[] e1]; cbn [snd] in H1; [|done].
  cbv zeta. apply (vf_read_log_term _ log (Tracker_quorum_committed (ep_tracker e1))) in H1.
  destruct (read_log_term _ _ _) as [t e2]. cbn [snd] in H1.
  destruct (_ && _) eqn:Hc; [|done]. apply andb_true_iff in Hc as [Hc _].
  apply N.ltb_lt in Hc. destruct (bool_decide _); [done|]. frame_step.
  apply vote_frame_commit; [done|lia].
Qed.

#[global] Instance fr_pump_appends now peer log stable : Framed (pump_appends now peer log stable).
Proof.
  intros a e He. unfold pump_appends. destruct (is_poisoned e); [done|].
  generalize (pump_fuel log peer e). intros n. revert e He.
  induction n as [|n IH]; intros e He; cbn [pump_loop]; [done|].
  destruct (Tracker_progress _ _); [|done]. destruct (Progress_is_paused _); [done|].
  apply (framed (f := maybe_send_append now peer log stable)) in He. revert He.
  generalize (maybe_send_append now peer log stable e). intros e1 H1.
  frame_step; [done|]. frame_step; [|done]. frame_step; [done|]. by apply IH.
Qed.

#[global] Instance fr_find_conflict log i t : FramedSnd (find_conflict_by_term log i t).
Proof.
  intros a e. unfold find_conflict_by_term. generalize CONFLICT_WALK_BUDGET. intros n.
  revert i e. induction n as [|n IH]; intros i e He; cbn [conflict_walk]; [frame|].
  frame_step; [done|]. frame_step. frame_step; [|done]. frame_step; [done|]. by apply IH.
Qed.

#[global] Instance fr_maybe_hand_off from log : Framed (maybe_hand_off_to_transferee from log).
Proof. intros a e He. unfold maybe_hand_off_to_transferee. frame. Qed.
#[global] Instance fr_send_farewell_append log p m i : FramedSnd (send_farewell_append log p m i).
Proof. intros a e He. unfold send_farewell_append. frame. Qed.
#[global] Instance fr_send_farewell log p m i : Framed (send_farewell log p m i).
Proof. intros a e He. unfold send_farewell. frame. Qed.

Lemma vf_foldl_snd {A B} (f : A * Endpoint → B → A * Endpoint) (l : list B) a r :
  (∀ r x, vote_frame a r.2 → vote_frame a (f r x).2) → vote_frame a r.2 →
  vote_frame a (foldl f r l).2.
Proof. intros Hf. revert r. induction l as [|x l IH]; intros r Hr; [done|]. simpl. auto. Qed.

#[global] Instance fr_drive_pending_farewells now log : Framed (drive_pending_farewells now log).
Proof.
  intros a e He. unfold drive_pending_farewells.
  do 3 (destruct (_ : bool); [done|]). cbv zeta.
  match goal with |- context [foldl ?f ?r ?l] =>
    assert (Hf : vote_frame a (foldl f r l).2) end.
  { apply vf_foldl_snd; [|frame]. intros [kept e1] [peer retry] H1. frame. }
  destruct (foldl _ _ _) as [kept e1]. cbn [snd] in Hf. frame.
Qed.

#[global] Instance fr_note_courtesy_debt p i : Framed (note_courtesy_debt p i).
Proof. intros a e He. unfold note_courtesy_debt. frame. Qed.
#[global] Instance fr_note_courtesy_at p i : Framed (note_courtesy_debt_at_boundary p i).
Proof. intros a e He. unfold note_courtesy_debt_at_boundary. frame. Qed.
#[global] Instance fr_drive_courtesy now stable : Framed (drive_courtesy_offers now stable).
Proof.
  intros a e He. unfold drive_courtesy_offers. do 2 (destruct (_ : bool); [done|]).
  cbv zeta. apply vf_foldl; [|done]. intros. frame.
Qed.
#[global] Instance fr_note_cure_debt now p b : Framed (note_cure_debt now p b).
Proof. intros a e He. unfold note_cure_debt. frame. Qed.
#[global] Instance fr_parked_handoff now log stable : Framed (drive_parked_leader_handoff now log stable).
Proof. intros a e He. unfold drive_parked_leader_handoff. frame. Qed.

(** ** Reads *)

#[global] Instance fr_has_current_term_commit log : FramedSnd (has_current_term_commit log).
Proof. intros a e He. unfold has_current_term_commit. frame. Qed.
#[global] Instance fr_emit_read_state i c : Framed (emit_read_state i c).
Proof. intros a e He. unfold emit_read_state. frame. Qed.
#[global] Instance fr_emit_or_reply i c from : Framed (emit_or_reply_read i c from).
Proof. intros a e He. unfold emit_or_reply_read. frame. Qed.
#[global] Instance fr_read_anchor log : FramedSnd (read_anchor log).
Proof. intros a e He. unfold read_anchor. frame. Qed.
#[global] Instance fr_lease_guard_read_live now log : FramedSnd (lease_guard_read_live now log).
Proof. intros a e He. unfold lease_guard_read_live. frame. Qed.
#[global] Instance fr_lease_near_expiry now log : FramedSnd (lease_near_expiry now log).
Proof. intros a e He. unfold lease_near_expiry. frame. Qed.
#[global] Instance fr_release_reads token : Framed (release_reads token).
Proof.
  intros a e He. unfold release_reads. destruct (ReadOnly_advance _ _). cbv zeta.
  apply vf_foldl; [|frame]. intros e1 st H1. frame.
Qed.
#[global] Instance fr_broadcast_ctx ctx : Framed (broadcast_heartbeat_with_ctx ctx).
Proof. intros a e He. unfold broadcast_heartbeat_with_ctx. frame. Qed.
#[global] Instance fr_do_safe_read c from : Framed (do_safe_read c from).
Proof. intros a e He. unfold do_safe_read. frame. Qed.
#[global] Instance fr_do_leader_read now c from log : Framed (do_leader_read now c from log).
Proof. intros a e He. unfold do_leader_read. frame. Qed.
#[global] Instance fr_flush_reads now log q : Framed (flush_reads now log q).
Proof.
  intros a e. revert e. induction q as [|[c from] q IH]; intros e He; cbn [flush_reads]; [done|].
  apply (framed (f := do_leader_read now c from log)) in He. revert He.
  generalize (do_leader_read now c from log e). intros e1 H1. frame_step; [done|]. by apply IH.
Qed.
#[global] Instance fr_flush_deferred now log : Framed (flush_deferred_reads now log).
Proof. intros a e He. unfold flush_deferred_reads. frame. Qed.
#[global] Instance fr_maybe_flush now log : Framed (maybe_flush_deferred_reads now log).
Proof. intros a e He. unfold maybe_flush_deferred_reads. frame. Qed.
#[global] Instance fr_defer_read c from : Framed (defer_read c from).
Proof. intros a e He. unfold defer_read. frame. Qed.
#[global] Instance fr_read_index now c log : FramedSnd (read_index now c log).
Proof. intros a e He. unfold read_index. frame. Qed.
#[global] Instance fr_on_read_index now ri log : Framed (on_read_index now ri log).
Proof. intros a e He. unfold on_read_index. frame. Qed.
#[global] Instance fr_on_read_index_response from r : Framed (on_read_index_response from r).
Proof. intros a e He. unfold on_read_index_response. frame. Qed.
End frames.
