(* ===== verification/ApplyFrame.v ===== *)
(** * Applying leaves a vote alone

    [apply_committed] moves the applied index within the committed range, one
    entry at a time, and is a frame step in the sense of [VoteFrame]. *)

From S2P Require Import Prelude Bytes Num Quorum Progress ProgressMap Conf Tracker ConfChange.
From S2P Require Import ConfChangeProps Config Lease Prng ReadOnly Data Frame Entry Storage Shape.
From S2P Require Import Restart Forwarded Wire Message Codec Endpoint Merge Invariant Persistence.
From S2P Require Import Replication Election Propose Handlers Commit Apply VoteFrame Frames.

Section apply.
Context {I F R L : Type} `{!NodeId I, !StateMachine F, !Rng R, !LogStore L}.
Context {DI : Data I} {BS : BuffaSizes} {DC : Data sm_command} {DS : Data sm_snapshot}.
Context {BD : BuffaDecode} {BC : Buffa PbConfChangeV2}.
Abbreviation Endpoint := (Endpoint I F R).
Abbreviation Framed := (@Framed I F R _ _).
Abbreviation FramedSnd := (@FramedSnd I F R _ _ _).
Implicit Types (a e : Endpoint) (log : L) (x : Entry).

(** The indices, the park and the membership are where they were. *)
Record still e e' : Prop := {
  sl_commit : ep_commit e' = ep_commit e;
  sl_applied : ep_applied e' = ep_applied e;
  sl_park : mrg_pending_apply (ep_merge e') = mrg_pending_apply (ep_merge e);
}.

#[global] Instance still_refl : Reflexive still.
Proof. by intros e. Qed.
#[global] Instance still_trans : Transitive still.
Proof. intros a b c [] []. constructor; congruence. Qed.

(** Nothing an event, a message or a debt does moves them. *)
Ltac still := repeat (case_match || done).

Lemma still_send to m e : still e (send to m e) ∧ ep_tracker (send to m e) = ep_tracker e.
Proof. unfold send. by destruct (is_poisoned e). Qed.

Lemma still_set_leader l e : still e (set_leader l e).
Proof. unfold set_leader. by case_decide. Qed.

Lemma still_read_log_term log i e :
  still e (read_log_term log i e).2 ∧ ep_tracker (read_log_term log i e).2 = ep_tracker e.
Proof. unfold read_log_term. by destruct (log_term log i). Qed.

Lemma still_farewell_append log p m i e :
  still e (send_farewell_append log p m i e).2
  ∧ ep_tracker (send_farewell_append log p m i e).2 = ep_tracker e.
Proof.
  unfold send_farewell_append. cbv zeta. destruct (_ <? _); [done|].
  assert (H1 : still e (if m =? 0 then (Some 0, e) else read_log_term log m e).2
    ∧ ep_tracker (if m =? 0 then (Some 0, e) else read_log_term log m e).2 = ep_tracker e).
  { destruct (m =? 0); [done|]. apply still_read_log_term. }
  destruct (if m =? 0 then _ else _) as [[t|] e1]; cbn [snd] in H1; [|done].
  destruct (log_entries _ _ _ _) as [[es|]|]; [|done|by destruct H1; split; [etrans|]].
  destruct (match last es with Some _ => _ | None => _ end); [done|].
  destruct (_ <? _); [done|]. cbn [snd]. destruct H1 as [H1 Ht].
  match goal with |- context [send p ?m e1] => destruct (still_send p m e1) as [H2 Ht2] end.
  split; [by etrans|congruence].
Qed.

Lemma still_farewell log p m i e :
  still e (send_farewell log p m i e) ∧ ep_tracker (send_farewell log p m i e) = ep_tracker e.
Proof.
  unfold send_farewell.
  assert (H1 : still e (if m <? i then send_farewell_append log p m i e else (false, e)).2
    ∧ ep_tracker (if m <? i then send_farewell_append log p m i e else (false, e)).2
      = ep_tracker e).
  { destruct (m <? i); [|done]. apply still_farewell_append. }
  destruct (if m <? i then _ else _) as [[] e1]; cbn [snd] in H1; [done|].
  destruct (is_poisoned e1); [done|]. destruct H1 as [H1 Ht].
  match goal with |- context [send p ?m e1] => destruct (still_send p m e1) as [H2 Ht2] end.
  split; [by etrans|congruence].
Qed.

Lemma still_farewell_removed log i g ps e :
  still e (farewell_removed log i g ps e) ∧ ep_tracker (farewell_removed log i g ps e) = ep_tracker e.
Proof.
  revert e. induction ps as [|[p m] ps IH]; intros e; cbn [farewell_removed]; [done|].
  destruct (is_poisoned e); [done|].
  assert (H1 : still e (if g then e else send_farewell log p m i e)
    ∧ ep_tracker (if g then e else send_farewell log p m i e) = ep_tracker e).
  { destruct g; [done|]. apply still_farewell. }
  revert H1. generalize (if g then e else send_farewell log p m i e). intros e1 [H1 Ht].
  destruct (is_poisoned e1); [done|].
  match goal with |- context [farewell_removed log i g ps ?x] => destruct (IH x) as [H2 Ht2] end.
  split; [etrans; [exact H1|]; etrans; [|exact H2]; done|]. by rewrite Ht2.
Qed.

Lemma still_courtesy_debts i (ps : list (I * Index)) e :
  let e' := foldl (λ e p, note_courtesy_debt p.1 i e) e ps in
  still e e' ∧ ep_tracker e' = ep_tracker e.
Proof.
  revert e. induction ps as [|p ps IH]; intros e; [done|]. cbn [foldl].
  destruct (IH (note_courtesy_debt p.1 i e)) as [H1 H2]. split; [|done]. by etrans; [|exact H1].
Qed.

#[global] Instance fr_farewell_removed log i g ps : Framed (farewell_removed log i g ps).
Proof.
  intros a e. revert e. induction ps as [|[p m] ps IH]; intros e He; cbn [farewell_removed]; [done|].
  destruct (is_poisoned e); [done|].
  assert (H1 : vote_frame a (if g then e else send_farewell log p m i e)) by frame.
  revert H1. generalize (if g then e else send_farewell log p m i e). intros e1 H1.
  frame_step; [done|]. apply IH. frame.
Qed.

Lemma change_rule_inv c cc (tr tr' : Tracker I) :
  conf_inv tr → change_rule c cc tr = Ok tr' → conf_inv tr'.
Proof.
  intros Hi. unfold change_rule. repeat case_match; intros Hr.
  - by apply leave_joint_step in Hr as [? _].
  - by apply enter_joint_step in Hr as [? _].
  - by apply simple_step in Hr as [? _].
Qed.

(** ** One entry *)

#[global] Instance fr_clear_lease : Framed clear_lease.
Proof. intros a e He. unfold clear_lease. frame. Qed.
#[global] Instance fr_after_conf_change : Framed after_conf_change.
Proof. intros a e He. unfold after_conf_change. frame. Qed.
#[global] Instance fr_merge_aborted x s : Framed (merge_aborted x s).
Proof. intros a e He. unfold merge_aborted. frame. Qed.
#[global] Instance fr_apply_normal x : FramedSnd (apply_normal x).
Proof. intros a e He. unfold apply_normal. frame. Qed.

(** The freeze is recorded and lifted whole. *)
Lemma vote_frame_freeze a e f :
  vote_frame a e → mrg_pending_apply (f (ep_merge e)) = mrg_pending_apply (ep_merge e) →
  freeze_wf (freeze_view (f (ep_merge e))) → vote_frame a (e <| ep_merge ::= f |>).
Proof.
  intros Hf Hp Hz. apply (vote_frame_step a e); try done. constructor; try done.
  intros Hwf. split; [|by split_and!]. destruct Hwf as [? ? ? Hpk ? ? ? ? Hin ?].
  constructor; try done. intros p Hpp. apply Hpk. by rewrite <- Hp.
Qed.

#[global] Instance fr_apply_prepare_merge x : FramedSnd (apply_prepare_merge x).
Proof.
  intros a e He. unfold apply_prepare_merge. destruct (decode_prepare_merge_payload _) as [p|]; [|frame].
  destruct (shape_payload_reserves _); [frame|]. cbv zeta. cbn [snd].
  apply fr_push_event, fr_raise_shape_gen. apply vote_frame_freeze; [frame|done|].
  intros _. split; by eexists.
Qed.

#[global] Instance fr_apply_rollback_merge x : FramedSnd (apply_rollback_merge x).
Proof.
  intros a e He. unfold apply_rollback_merge. destruct (decode_rollback_merge_payload _) as [p|]; [|frame].
  destruct (shape_payload_reserves _); [frame|]. cbv zeta.
  destruct (RollbackMergePayload_is_unfreeze p); [|frame]. destruct (_ && _); [|frame]. cbn [snd].
  apply fr_push_event, fr_raise_shape_gen. by apply vote_frame_freeze.
Qed.
#[global] Instance fr_apply_thaw_discharged x : FramedSnd (apply_thaw_discharged x).
Proof. intros a e He. unfold apply_thaw_discharged. frame. Qed.
#[global] Instance fr_apply_set_read_mode x : FramedSnd (apply_set_read_mode x).
Proof. intros a e He. unfold apply_set_read_mode. frame. Qed.

(** Both queues of a split grow together. *)
Lemma vote_frame_fork a e f :
  vote_frame a e → spl_fork_id (f (ep_split e)) = spl_fork_id (ep_split e) →
  (fork_queues_wf e → fork_queues_wf (e <| ep_split ::= f |>)) →
  vote_frame a (e <| ep_split ::= f |>).
Proof.
  intros Hf Hid Hq. apply (vote_frame_step a e); try done. constructor; try done.
  intros Hwf. split; [|by split_and!]. destruct Hwf as [? ? ? ? ? Hfo ? ? Hin ?].
  constructor; try done; [by apply Hq|].
  intros o m s l Hs. pose proof (Hin o m s l Hs) as Ha. revert Ha. unfold admitted.
  change (spl_fork_id (ep_split (e <| ep_split ::= f |>))) with (spl_fork_id (f (ep_split e))).
  by rewrite Hid.
Qed.

#[global] Instance fr_apply_split x : FramedSnd (apply_split x).
Proof.
  intros a e He. unfold apply_split. destruct (decode_split_payload _) as [p|]; [|frame].
  destruct (shape_payload_reserves _); [frame|]. case_decide; [frame|].
  destruct (sm_split _ _) as [child fsm].
  assert (H1 : vote_frame a (e <| ep_fsm := fsm |>)) by frame. revert H1. cbv zeta.
  generalize (e <| ep_fsm := fsm |>). intros e1 H1. destruct child as [child|]; [|frame].
  destruct (sm_take_snapshot child); [|frame]. cbn [snd]. apply fr_push_event.
  apply vote_frame_fork; [done..|]. unfold fork_queues_wf. cbn. rewrite !length_app. cbn. lia.
Qed.

(** The park stands at the entry that was not applied. *)
Lemma vote_frame_park a e p :
  vote_frame a e →
  (ep_wf e → ep_applied e ≤ pma_at p ∧ pma_at p ≤ ep_commit e ∧ is_u64 (pma_at p)) →
  vote_frame a (e <| ep_merge ::= λ m, m <| mrg_pending_apply := Some p |> |>).
Proof.
  intros Hf Hp. apply (vote_frame_step a e); try done. constructor; try done.
  intros Hwf. destruct (Hp Hwf) as (? & ? & ?). destruct Hwf.
  split; [constructor; try done|by split_and!]. by intros ? [= <-].
Qed.

Lemma still_apply_commit_merge x e e' :
  apply_commit_merge x e = (AsApplied, e') → still e e'.
Proof. unfold apply_commit_merge. repeat case_match; intros [= <-]; done. Qed.

Lemma vf_apply_commit_merge a x e :
  vote_frame a e →
  (ep_wf e → ep_applied e ≤ e_index x ∧ e_index x ≤ ep_commit e ∧ is_u64 (e_index x)) →
  vote_frame a (apply_commit_merge x e).2.
Proof.
  intros He Hx. unfold apply_commit_merge. destruct (decode_commit_merge_payload _); [|frame].
  do 3 (case_match; [frame|]). by apply vote_frame_park.
Qed.

#[global] Instance fr_apply_conf_change log x : FramedSnd (apply_conf_change log x).
Proof.
  intros a e He. unfold apply_conf_change. destruct (decode_conf_change_v2 _) as [cc|]; [|frame].
  cbv zeta. destruct (change_rule _ _ _) as [tr|] eqn:Hr; [|frame].
  set (ps := removed_peers tr e).
  destruct (still_courtesy_debts (e_index x) ps e) as [_ Ht1].
  assert (H1 : vote_frame a (foldl (λ e p, note_courtesy_debt p.1 (e_index x) e) e ps)).
  { apply vf_foldl; [|done]. intros. frame. }
  revert H1 Ht1. generalize (foldl (λ e p, note_courtesy_debt p.1 (e_index x) e) e ps).
  intros e1 H1 Ht1.
  set (e2 := if Role_is_leader (ep_role e1) then _ else e1).
  assert (H2 : vote_frame a e2) by (unfold e2; frame).
  assert (Ht2 : ep_tracker e2 = ep_tracker e1).
  { unfold e2. destruct (Role_is_leader _); [|done]. apply still_farewell_removed. }
  clearbody e2. destruct (is_poisoned _); [frame|]. cbn [snd].
  apply fr_after_conf_change, fr_push_event. unfold adopt_tracker. cbv zeta.
  frame_step. frame_step. frame_step. apply fr_clear_lease, vote_frame_tracker; [frame|].
  change (ep_tracker (e2 <| ep_peers_scratch := [] |>)) with (ep_tracker e2).
  rewrite Ht2, Ht1. intros Hi. by eapply change_rule_inv.
Qed.

(** ** What an applied entry moves *)

Lemma still_after_conf_change e : still e (after_conf_change e).
Proof.
  unfold after_conf_change. cbv zeta.
  set (e1 := if _ && _ then _ else e). assert (H1 : still e e1).
  { unfold e1. destruct (_ && _); [|done]. unfold set_leader. by case_decide. }
  clearbody e1. etrans; [exact H1|]. repeat case_match; done.
Qed.

Lemma still_apply_conf_change log x e e' :
  apply_conf_change log x e = (AsApplied, e') → still e e'.
Proof.
  unfold apply_conf_change. destruct (decode_conf_change_v2 _) as [cc|]; [|done].
  cbv zeta. destruct (change_rule _ _ _) as [tr|]; [|done]. set (ps := removed_peers tr e).
  destruct (still_courtesy_debts (e_index x) ps e) as [H1 _]. revert H1.
  generalize (foldl (λ e p, note_courtesy_debt p.1 (e_index x) e) e ps). intros e1 H1.
  set (e2 := if Role_is_leader (ep_role e1) then _ else e1).
  assert (H2 : still e e2).
  { etrans; [exact H1|]. unfold e2. destruct (Role_is_leader _); [|done].
    apply still_farewell_removed. }
  clearbody e2. destruct (is_poisoned _); [done|]. intros [= <-].
  etrans; [|apply still_after_conf_change]. by etrans; [exact H2|].
Qed.

Lemma still_apply_kind log x e e' : apply_kind log x e = (AsApplied, e') → still e e'.
Proof.
  unfold apply_kind. destruct (e_kind x); intros Ha.
  - revert Ha. unfold apply_normal. repeat case_match; by intros [= <-].
  - by eapply still_apply_conf_change.
  - by injection Ha as <-.
  - revert Ha. unfold apply_set_read_mode. repeat case_match; by intros [= <-].
  - revert Ha. unfold apply_split. repeat case_match; by intros [= <-].
  - revert Ha. unfold apply_prepare_merge, pop_applied_freeze. repeat case_match; by intros [= <-].
  - by eapply still_apply_commit_merge.
  - revert Ha. unfold apply_rollback_merge. repeat case_match; by intros [= <-].
  - revert Ha. unfold apply_thaw_discharged. repeat case_match; by intros [= <-].
Qed.

(** An applied entry is the next one, and committed. *)
Lemma apply_entry_applied log x e e' :
  apply_entry log x e = (AsApplied, e') →
  e_index x = counter_next (ep_applied e) ∧ e_index x ≤ ep_commit e
  ∧ ep_applied e' = e_index x ∧ ep_commit e' = ep_commit e
  ∧ mrg_pending_apply (ep_merge e') = mrg_pending_apply (ep_merge e).
Proof.
  unfold apply_entry. destruct (_ || _) eqn:Hg; [done|].
  apply orb_false_iff in Hg as [Hn%negb_false_iff%N.eqb_eq Hc%N.ltb_ge].
  destruct (apply_kind log x e) as [[] e1] eqn:Hk; intros [= <-].
  apply still_apply_kind in Hk as []. by split_and!.
Qed.

Lemma vf_apply_entry a log x e :
  vote_frame a e → mrg_pending_apply (ep_merge e) = None → vote_frame a (apply_entry log x e).2.
Proof.
  intros He Hm. unfold apply_entry. destruct (_ || _) eqn:Hg; [frame|].
  apply orb_false_iff in Hg as [Hn%negb_false_iff%N.eqb_eq Hc%N.ltb_ge].
  assert (Hx : ep_wf e → ep_applied e ≤ e_index x ∧ e_index x ≤ ep_commit e ∧ is_u64 (e_index x)).
  { intros Hwf. pose proof (counter_next_ge _ (wf_bound _ Hwf)). rewrite Hn in *.
    auto with sailing. }
  assert (Hk : vote_frame a (apply_kind log x e).2).
  { unfold apply_kind. destruct (e_kind x); try frame. by apply vf_apply_commit_merge. }
  destruct (apply_kind log x e) as [[] e1] eqn:Hs; [|done..]. cbn [snd] in *.
  apply still_apply_kind in Hs as [Hsc Hsa Hsp].
  apply (vote_frame_step a e1); try done. apply ep_step_applied; [congruence|].
  intros Hwf. pose proof (counter_next_ge _ (wf_bound _ Hwf)) as Hge. rewrite Hsc, Hsa, Hn in *.
  auto with sailing.
Qed.

(** ** The loop *)

Lemma apply_entry_poisoned log x e e' :
  apply_entry log x e = (AsPoisoned, e') → is_poisoned e' = true.
Proof.
  unfold apply_entry. destruct (_ || _); [by intros [= <-]|].
  destruct (apply_kind log x e) as [[] e1] eqn:Hk; [done| |done]. intros [= <-]. revert Hk.
  unfold apply_kind. destruct (e_kind x).
  - unfold apply_normal. repeat case_match; by intros [= <-].
  - unfold apply_conf_change. repeat case_match; by intros [= <-].
  - done.
  - unfold apply_set_read_mode. repeat case_match; by intros [= <-].
  - unfold apply_split. repeat case_match; by intros [= <-].
  - unfold apply_prepare_merge. repeat case_match; by intros [= <-].
  - unfold apply_commit_merge. repeat case_match; by intros [= <-].
  - unfold apply_rollback_merge. repeat case_match; by intros [= <-].
  - unfold apply_thaw_discharged. repeat case_match; by intros [= <-].
Qed.

Lemma apply_batch_poisoned log es n e :
  (apply_batch log es n e).1.1 = AsPoisoned → is_poisoned (apply_batch log es n e).2 = true.
Proof.
  revert n e. induction es as [|x es IH]; intros n e; cbn [apply_batch]; [done|].
  destruct (apply_entry log x e) as [[] e1] eqn:Hx; [apply IH| |done]. intros _.
  by eapply apply_entry_poisoned.
Qed.

Lemma apply_loop_poisoned n log c e :
  is_poisoned e = true → apply_loop n log c e = (ApplyDrained, e).
Proof. intros Hp. destruct n; cbn [apply_loop]; [done|]. rewrite Hp. by destruct (_ <=? _). Qed.

Lemma vf_apply_batch a log es n e :
  vote_frame a e → mrg_pending_apply (ep_merge e) = None →
  let r := apply_batch log es n e in
  vote_frame a r.2 ∧ (r.1.1 = AsApplied → mrg_pending_apply (ep_merge r.2) = None).
Proof.
  revert n e. induction es as [|x es IH]; intros n e He Hm; cbn [apply_batch]; [done|].
  pose proof (vf_apply_entry a log x e He Hm) as H1.
  destruct (apply_entry log x e) as [[] e1] eqn:Hx; cbn [snd] in H1; [|done..].
  apply apply_entry_applied in Hx as (_ & _ & _ & _ & Hp). apply IH; [done|congruence].
Qed.

#[global] Instance fr_apply_committed log : FramedSnd (apply_committed log).
Proof.
  intros a e He. unfold apply_committed. destruct (is_poisoned e); [done|].
  case_bool_decide as Hm; [done|]. generalize (apply_fuel e). intros n.
  rewrite <- eq_None_not_Some in Hm. cut (∀ c, vote_frame a (apply_loop n log c e).2); [auto|].
  intros c. revert c e He Hm. induction n as [|n IH]; intros c e He Hm; cbn [apply_loop]; [done|].
  destruct (_ <=? _); [done|]. destruct (is_poisoned e) eqn:Hp; [done|]. cbv zeta.
  destruct (log_entries _ _ _ _) as [[[|x es]|]|]; [done| |frame..].
  destruct (vf_apply_batch a log (x :: es) c e He Hm) as [H1 Hm1].
  pose proof (apply_batch_poisoned log (x :: es) c e) as Hp1.
  destruct (apply_batch _ _ _ _) as [[[] c'] e1]; cbn [fst snd] in H1, Hm1, Hp1; [| |done].
  - destruct (_ && _ && _); [done|]. apply IH; auto.
  - rewrite Hp1 by done. cbn [negb andb]. by rewrite apply_loop_poisoned by auto.
Qed.
End apply.
