(* ===== verification/PumpLoop.v ===== *)
(** * Filling a peer's window ends

    [pump_appends] sends batch after batch until the peer's window is full or its
    next index stands still.  Each round that goes on has moved that index up
    within the log, so the fuel of [Commit.pump_loop] is never used up. *)

From S2P Require Import Prelude Bytes Num Quorum Progress ProgressMap Conf Tracker ConfChange.
From S2P Require Import Config Lease Prng ReadOnly Data Frame Entry Storage EngineLog Restart.
From S2P Require Import Message Wire EngineStable Endpoint Sample Persistence Replication Commit.

Lemma cap_rest_prefix m b f es : cap_rest m b f es `prefix_of` es.
Proof.
  revert b f. induction es as [|x es IH]; intros b f; cbn [cap_rest]; [done|].
  repeat case_match; try apply prefix_nil. by apply prefix_cons.
Qed.

Lemma cap_entries_prefix m es : cap_entries m es `prefix_of` es.
Proof. destruct es; cbn [cap_entries]; [done|]. apply prefix_cons, cap_rest_prefix. Qed.

Lemma lv_slice_contiguous v lo hi :
  LogView_wf v → lv_first v ≤ lo → contiguous lo (lv_slice v lo hi).
Proof.
  intros [Hc _] Hlo k x Hk. unfold lv_slice in Hk. apply lookup_take_Some in Hk as [Hk _].
  rewrite lookup_drop in Hk. apply Hc in Hk. unfold lv_first in *. lia.
Qed.

Lemma prefix_last_bound v lo hi es x :
  LogView_wf v → lv_first v ≤ lo → es `prefix_of` lv_slice v lo hi → last es = Some x →
  lo ≤ e_index x ∧ e_index x ≤ lv_last v.
Proof.
  intros Hwf Hlo [rest Hp] Hx. rewrite last_lookup in Hx.
  assert (Hs : lv_slice v lo hi !! pred (length es) = Some x).
  { rewrite Hp, lookup_app_l; [done|]. by eapply lookup_lt_Some. }
  pose proof (lv_slice_contiguous v lo hi Hwf Hlo _ _ Hs) as ->. split; [lia|].
  unfold lv_slice in Hs. apply lookup_take_Some in Hs as [Hs _]. rewrite lookup_drop in Hs.
  apply lookup_lt_Some in Hs. unfold lv_last, lv_first in *. lia.
Qed.

Section pump.
Context {I F R L S : Type} `{!NodeId I, !StateMachine F, !Rng R, !LogStore L, !StableStore I S}.
Context {DI : Data I} {BS : BuffaSizes} `{!LogStoreLaws L}.
Abbreviation Endpoint := (Endpoint I F R).
Implicit Types (e : Endpoint) (now : Now) (log : L) (stable : S) (pr : Progress).

Lemma progress_mut_at id f (tr : Tracker I) :
  Tracker_wf tr →
  Tracker_wf (Tracker_progress_mut id f tr)
  ∧ Tracker_progress (Tracker_progress_mut id f tr) id = f <$> Tracker_progress tr id.
Proof.
  intros Hw. destruct (Tracker_progress_mut_spec id f tr Hw) as [Hw' Hp]. split; [done|].
  by rewrite Hp, decide_True.
Qed.

Lemma send_tracker to m e : ep_tracker (send to m e) = ep_tracker e.
Proof. unfold send. by destruct (is_poisoned e). Qed.

(** Below the log: the index stays or falls back to the matched prefix. *)
Lemma snapshot_chunk_next peer off stable e pr :
  Tracker_wf (ep_tracker e) → Tracker_progress (ep_tracker e) peer = Some pr →
  let e' := (send_snapshot_chunk peer off stable e).2 in
  Tracker_wf (ep_tracker e')
  ∧ ∃ pr', Tracker_progress (ep_tracker e') peer = Some pr'
     ∧ pr_match_index pr' = pr_match_index pr
     ∧ (pr_next_index pr' = pr_next_index pr ∨ pr_next_index pr' = counter_next (pr_match_index pr)).
Proof.
  intros Hw Hp. unfold send_snapshot_chunk.
  destruct (stable_snapshot_chunk _ _ _) as [[[[meta total] chunk]|]|]; [|by eauto 10..].
  set (q := if receiving _ _ _ _ then _ else _).
  assert (Hq : Tracker_wf (ep_tracker q.2) ∧ ∃ pr', Tracker_progress (ep_tracker q.2) peer = Some pr'
     ∧ pr_match_index pr' = pr_match_index pr
     ∧ (pr_next_index pr' = pr_next_index pr ∨ pr_next_index pr' = counter_next (pr_match_index pr))).
  { unfold q. destruct (receiving _ _ _ _); cbn [snd]; [by eauto 10|].
    change (ep_tracker (e <| ep_tracker ::= ?f |>)) with (f (ep_tracker e)).
    destruct (progress_mut_at peer (Progress_become_snapshot (sm_last_index meta) total) _ Hw) as [Hw' Hp'].
    split; [exact Hw'|]. eexists. split; [exact (eq_trans Hp' (f_equal _ Hp))|].
    unfold Progress_become_snapshot. case_decide; cbn; auto. }
  clearbody q. destruct q as [from e1]. cbn [snd] in Hq. cbv zeta.
  destruct (_ =? 0); [done|]. set (r := if _ =? off then _ else _). clearbody r.
  destruct r as [[data|]|[]]; try done. destruct (_ && _); [done|]. cbn [snd].
  by rewrite send_tracker.
Qed.

(** What a batch sends: nothing, or a run of the log from [next]. *)
Lemma append_batch_sent log next m e :
  LogView_wf (log_view log) → log_first_index log ≤ next →
  let r := append_batch log next (counter_next (log_last_index log)) (saturating_sub next 1) m None e in
  ep_tracker r.2 = ep_tracker e
  ∧ ∀ b, r.1 = Some b →
      she_last_sent b = saturating_sub next 1
      ∨ next ≤ she_last_sent b ∧ she_last_sent b ≤ log_last_index log.
Proof.
  intros Hv Hn. unfold append_batch. cbv zeta. set (hi := N.min _ _).
  destruct (if next <? _ then _ else _) as [[slice|]|] eqn:Hr; [|by split..]. split; [done|].
  intros b [= <-]. cbn. destruct (last _) as [x|] eqn:Hl; [right|by left].
  revert Hr. destruct (N.ltb_spec next (counter_next (log_last_index log))); [|by intros [= <-]].
  intros Hr.
  rewrite log_first_view, log_last_view in *. pose proof (lvw_room _ Hv) as Hroom.
  destruct (log_entries_view log next hi m slice) as [Hpre _]; [done| |done|].
  { unfold hi. rewrite log_last_view, counter_next_lt by done. lia. }
  eapply prefix_last_bound; [done..| |exact Hl]. etrans; [|exact Hpre]. apply cap_entries_prefix.
Qed.

(** One round. *)
Lemma append_round now peer log stable e pr :
  LogView_wf (log_view log) → Tracker_wf (ep_tracker e) →
  Tracker_progress (ep_tracker e) peer = Some pr → pr_match_index pr < pr_next_index pr →
  let e' := maybe_send_append now peer log stable e in
  Tracker_wf (ep_tracker e')
  ∧ ∃ pr', Tracker_progress (ep_tracker e') peer = Some pr' ∧ pr_match_index pr' = pr_match_index pr
     ∧ (pr_next_index pr' = pr_next_index pr
        ∨ pr_next_index pr < log_first_index log
          ∧ pr_next_index pr' = counter_next (pr_match_index pr)
        ∨ log_first_index log ≤ pr_next_index pr ∧ pr_next_index pr < pr_next_index pr'
          ∧ pr_next_index pr' ≤ counter_next (log_last_index log)).
Proof.
  intros Hv Hw Hp Hmn. unfold maybe_send_append, maybe_send_append_shared.
  destruct (is_poisoned e); [by eauto 10|]. rewrite Hp. cbv zeta.
  destruct (Progress_is_paused pr); [by eauto 10|].
  destruct (N.ltb_spec (pr_next_index pr) (log_first_index log)) as [Hlow|Hin].
  { cbn [snd]. unfold send_append_snapshot.
    destruct (snapshot_chunk_next peer 0 stable e pr Hw Hp) as (Hw' & pr' & Hp' & Hm' & Hn').
    destruct (send_snapshot_chunk _ _ _ _) as [[] e1]; cbn [snd] in *;
      (split; [done|]; exists pr'; split_and!; [done..|]; naive_solver). }
  assert (Hpt : ep_tracker (prev_log_term log (saturating_sub (pr_next_index pr) 1) e).2 = ep_tracker e).
  { unfold prev_log_term, read_log_term. by repeat case_match. }
  destruct (prev_log_term _ _ _) as [[pt|] e1]; cbn [snd] in Hpt; rewrite <- Hpt in *; [|by eauto 10].
  pose proof (append_batch_sent log (pr_next_index pr) (cfg_max_size_per_msg (ep_config e1)) e1 Hv Hin)
    as [Hbt Hb].
  destruct (append_batch _ _ _ _ _ _ _) as [[b|] e2]; cbn [fst snd] in *; rewrite <- Hbt in *;
    [|by eauto 10].
  specialize (Hb b eq_refl).
  match goal with |- context [Tracker_progress_mut peer ?f] => set (g := f) end.
  match goal with |- context [send peer ?m e2] => pose proof (send_tracker peer m e2) as Hst;
    revert Hst; generalize (send peer m e2) end. intros e3 Hst. rewrite <- Hst in *.
  destruct (progress_mut_at peer g (ep_tracker e3) Hw) as [Hw' Hp']. rewrite Hp in Hp'. cbn in Hp'.
  split; [exact Hw'|]. exists (g pr). split; [exact Hp'|]. unfold g, Progress_sent_entries.
  rewrite log_last_view in *. pose proof (lvw_room _ Hv) as Hroom. clear Hp'.
  destruct (_ || _); [|by auto]. destruct (pr_state pr); try by auto. cbn. split; [done|].
  case_decide; [|by auto]. right; right. split; [done|]. revert Hb.
  unfold counter_next. u64_lia.
Qed.

(** Inside the log, more fuel than entries left makes no difference. *)
Lemma pump_loop_inside n m now peer log stable e pr :
  LogView_wf (log_view log) → Tracker_wf (ep_tracker e) →
  Tracker_progress (ep_tracker e) peer = Some pr → pr_match_index pr < pr_next_index pr →
  log_first_index log ≤ pr_next_index pr →
  (N.to_nat (counter_next (log_last_index log) - pr_next_index pr) < n)%nat →
  (N.to_nat (counter_next (log_last_index log) - pr_next_index pr) < m)%nat →
  pump_loop n now peer log stable e = pump_loop m now peer log stable e.
Proof.
  intros Hv. revert m e pr. induction n as [|n IH]; intros [|m] e pr Hw Hp Hmn Hin Hn Hm; [lia..|].
  cbn [pump_loop]. rewrite Hp. destruct (Progress_is_paused pr); [done|].
  destruct (append_round now peer log stable e pr Hv Hw Hp Hmn) as (Hw' & pr' & Hp' & Hm' & Hn').
  destruct (is_poisoned _); [done|]. rewrite Hp'.
  destruct (N.eqb_spec (pr_next_index pr') (pr_next_index pr)); [done|].
  destruct Hn' as [?|[[? _]|(_ & ? & ?)]]; [done|lia|]. apply (IH _ _ pr'); try done; lia.
Qed.

(** C19: Filling a window ends by itself.  Over any log that keeps its read
    contract, and for a peer whose next index is above its match index, the loop
    of [pump_appends] gives the same result for every fuel at or above the one the
    model runs it with: it stops because the window is full, the node poisoned
    itself or the next index stands still, never for want of rounds. *)
Theorem pump_loop_fuel n now peer log stable e pr :
  LogView_wf (log_view log) → Tracker_wf (ep_tracker e) →
  Tracker_progress (ep_tracker e) peer = Some pr → pr_match_index pr < pr_next_index pr →
  (pump_fuel log peer e ≤ n)%nat →
  pump_loop n now peer log stable e = pump_loop (pump_fuel log peer e) now peer log stable e.
Proof.
  intros Hv Hw Hp Hmn. unfold pump_fuel. rewrite Hp. cbn [from_option]. intros Hn.
  destruct (N.le_gt_cases (log_first_index log) (pr_next_index pr)) as [Hin|Hlow].
  { eapply pump_loop_inside; try done; lia. }
  pose proof (lvw_room _ Hv) as Hroom. pose proof (lv_first_last (log_view log)) as Hfl.
  assert (Hgap : (2 ≤ Datatypes.S (N.to_nat (counter_next (log_last_index log) - pr_next_index pr)))%nat).
  { rewrite log_first_view, log_last_view in *. rewrite counter_next_lt by done. lia. }
  revert Hn Hgap. generalize (Datatypes.S (N.to_nat (counter_next (log_last_index log) - pr_next_index pr))).
  intros m Hn Hm. destruct n as [|[|n]], m as [|[|m]]; try lia. clear Hn Hm.
  cbn [pump_loop]. rewrite Hp. destruct (Progress_is_paused pr); [done|].
  destruct (append_round now peer log stable e pr Hv Hw Hp Hmn) as (Hw' & pr' & Hp' & Hm' & Hn').
  destruct (is_poisoned _); [done|]. rewrite Hp'.
  destruct (N.eqb_spec (pr_next_index pr') (pr_next_index pr)); [done|].
  destruct Hn' as [?|[[_ Hn']|[? _]]]; [done| |lia].
  destruct (Progress_is_paused pr'); [done|].
  rewrite counter_next_lt in Hn' by (rewrite log_first_view in Hlow; lia).
  destruct (append_round now peer log stable _ pr' Hv Hw' Hp') as (_ & pr2 & Hp2 & _ & Hn2); [lia|].
  destruct (is_poisoned _); [done|]. rewrite Hp2.
  destruct (N.eqb_spec (pr_next_index pr2) (pr_next_index pr')) as [|Hne]; [done|]. exfalso.
  rewrite Hm', counter_next_lt in Hn2 by (rewrite log_first_view in Hlow; lia). lia.
Qed.
End pump.

(** ** A window being filled *)

Module PumpRun.
Import Sample EngineLogDemo.

Definition log : EngineLog :=
  EngineLog_submit_append (OpId_new 0) [demo_entry 1 1; demo_entry 1 2; demo_entry 1 3] EngineLog_new.

(** Node 1 leads, and node 2 has matched nothing yet. *)
Definition leading : Endpoint N N Prng :=
  (node 1) <| ep_role := Leader |> <| ep_term := 1 |>
           <| ep_tracker ::= Tracker_progress_mut 2 Progress_become_replicate |>.

Lemma log_wf : LogView_wf (log_view log).
Proof.
  constructor; [|by vm_compute]. repeat (apply contiguous_cons; [done|]). apply contiguous_nil.
Qed.

Lemma leading_wf : Tracker_wf (ep_tracker leading).
Proof.
  apply Tracker_progress_mut_spec. apply Tracker_from_conf_state_wf, ConfState_is_valid_spec. by vm_compute.
Qed.

Lemma pump_loop_fuel_witness :
  (pump_fuel log 2%N leading ≤ 9)%nat
  ∧ pump_loop 9 (Now_monotonic 0) 2 log stable leading
    = pump_loop (pump_fuel log 2 leading) (Now_monotonic 0) 2 log stable leading
  ∧ length (ou_outgoing (ep_outputs (pump_appends (Now_monotonic 0) 2 log stable leading))) = 2%nat.
Proof.
  split; [vm_compute; lia|]. split; [|vm_compute; reflexivity].
  eapply (pump_loop_fuel 9 (Now_monotonic 0) 2 log stable leading _ log_wf leading_wf);
    [vm_compute; reflexivity|vm_compute; reflexivity|vm_compute; lia].
Defined.
End PumpRun.
