(* ===== verification/ApplyLoop.v ===== *)
(** * The apply loop is the log, one entry at a time

    [apply_committed] reads the committed tail in batches whose size the store
    and the budget decide, and a restart runs it until it is not cut.  Over any
    store that answers from memory both come to the same thing: the entries of the
    committed tail applied one after the other. *)

From S2P Require Import Prelude Bytes Num Quorum Progress ProgressMap Conf Tracker ConfChange.
From S2P Require Import ConfChangeProps Config Lease Prng ReadOnly Data Frame Entry Storage Shape.
From S2P Require Import EngineLog Restart Forwarded Wire Message Codec Endpoint Sample Merge.
From S2P Require Import Invariant Persistence Replication Election Propose Handlers Commit Apply.
From S2P Require Import Boot VoteFrame Frames ApplyFrame.

Section loop.
Context {I F R L : Type} `{!NodeId I, !StateMachine F, !Rng R, !LogStore L, !LogStoreLaws L}.
Context {DI : Data I} {BS : BuffaSizes} {DC : Data sm_command} {DS : Data sm_snapshot}.
Context {BD : BuffaDecode} {BC : Buffa PbConfChangeV2}.
Abbreviation Endpoint := (Endpoint I F R).
Implicit Types (e : Endpoint) (log : L) (x : Entry) (es : list Entry).

(** The reference: entry by entry, until one poisons or parks. *)
Fixpoint apply_all log es e : ApplyStep * Endpoint :=
  match es with
  | [] => (AsApplied, e)
  | x :: es =>
      match apply_entry log x e with
      | (AsApplied, e) => apply_all log es e
      | r => r
      end
  end.

Lemma apply_batch_all log es c e :
  ∃ n, apply_batch log es c e = ((apply_all log es e).1, n, (apply_all log es e).2)
       ∧ ((apply_all log es e).1 = AsApplied → n = c + N.of_nat (length es)).
Proof.
  revert c e. induction es as [|x es IH]; intros c e; cbn [apply_batch apply_all].
  - exists c. split; [done|]. cbn. lia.
  - destruct (apply_entry log x e) as [[] e1]; [|by eexists..].
    destruct (IH (c + 1) e1) as (n & -> & Hn). eexists. split; [done|].
    intros ->%Hn. cbn [length]. lia.
Qed.

Lemma apply_all_app log es es' e :
  apply_all log (es ++ es') e =
  match apply_all log es e with (AsApplied, e1) => apply_all log es' e1 | r => r end.
Proof.
  revert e. induction es as [|x es IH]; intros e; cbn [apply_all app]; [done|].
  by destruct (apply_entry log x e) as [[] e1].
Qed.

(** An applied run advances the applied index by its length and nothing else. *)
Lemma apply_all_applied log es e e' :
  apply_all log es e = (AsApplied, e') → ep_commit e < u64_max →
  ep_applied e' = ep_applied e + N.of_nat (length es) ∧ ep_commit e' = ep_commit e
  ∧ mrg_pending_apply (ep_merge e') = mrg_pending_apply (ep_merge e).
Proof.
  revert e. induction es as [|x es IH]; intros e; cbn [apply_all].
  - intros [= <-] _. cbn. split_and!; [lia|done..].
  - destruct (apply_entry log x e) as [[] e1] eqn:Hx; [|done..]. intros Ha Hc.
    apply apply_entry_applied in Hx as (Hi & Hle & Ha1 & Hc1 & Hp1).
    destruct (IH e1 Ha) as (-> & -> & ->); [lia|]. rewrite Ha1, Hi, Hc1, Hp1.
    split_and!; [|done..]. rewrite Hi in Hle. revert Hle. unfold counter_next. cbn [length]. u64_lia.
Qed.

Lemma apply_all_poisoned log es e e' :
  apply_all log es e = (AsPoisoned, e') → is_poisoned e' = true.
Proof.
  revert e. induction es as [|x es IH]; intros e; cbn [apply_all]; [done|].
  destruct (apply_entry log x e) as [[] e1] eqn:Hx; [apply IH| |done]. intros [= <-].
  by eapply apply_entry_poisoned.
Qed.

(** ** An applied entry poisons nothing *)

Lemma after_conf_change_poison e : is_poisoned (after_conf_change e) = is_poisoned e.
Proof.
  unfold after_conf_change, set_leader. cbv zeta.
  repeat (case_match || case_decide); try done.
Qed.

Lemma apply_entry_sound log x e e' :
  apply_entry log x e = (AsApplied, e') → is_poisoned e = false → is_poisoned e' = false.
Proof.
  unfold apply_entry. destruct (_ || _); [done|].
  destruct (apply_kind log x e) as [[] e1] eqn:Hk; intros [= <-] Hp.
  change (is_poisoned e1 = false). revert Hk. unfold apply_kind. destruct (e_kind x).
  - unfold apply_normal. repeat case_match; by intros [= <-].
  - unfold apply_conf_change. destruct (decode_conf_change_v2 _); [|done]. cbv zeta.
    destruct (change_rule _ _ _); [|done].
    match goal with |- context [if is_poisoned ?y then _ else _] => destruct (is_poisoned y) eqn:Hq end;
      [done|]. intros [= <-]. rewrite after_conf_change_poison. exact Hq.
  - by intros [= <-].
  - unfold apply_set_read_mode. repeat case_match; by intros [= <-].
  - unfold apply_split. repeat case_match; by intros [= <-].
  - unfold apply_prepare_merge, pop_applied_freeze. repeat case_match; by intros [= <-].
  - unfold apply_commit_merge. repeat case_match; by intros [= <-].
  - unfold apply_rollback_merge. repeat case_match; by intros [= <-].
  - unfold apply_thaw_discharged. repeat case_match; by intros [= <-].
Qed.

Lemma apply_all_sound log es e e' :
  apply_all log es e = (AsApplied, e') → is_poisoned e = false → is_poisoned e' = false.
Proof.
  revert e. induction es as [|x es IH]; intros e; cbn [apply_all]; [by intros [= <-]|].
  destruct (apply_entry log x e) as [[] e1] eqn:Hx; [|done..]. eauto using apply_entry_sound.
Qed.

(** ** The loop *)

(** What the drain reports of a run that stopped as [st], with [more] telling
    whether entries were left to the budget. *)
Definition drain_of (st : ApplyStep) (more : bool) : ApplyDrain :=
  match st with
  | AsApplied => if more then ApplyBudgetCut else ApplyDrained
  | AsPoisoned => ApplyDrained
  | AsParked => ApplyWaiting
  end.

(** The committed entries that are not applied. *)
Definition committed_tail log e : list Entry :=
  lv_slice (log_view log) (ep_applied e + 1) (ep_commit e + 1).

(** The log holds the committed tail, and the store answers from memory. *)
Record replayable log e : Prop := {
  rp_log : LogView_wf (log_view log);
  rp_resident : resident log;
  rp_first : lv_first (log_view log) ≤ ep_applied e + 1;
  rp_commit : ep_commit e ≤ lv_last (log_view log);
  rp_applied : ep_applied e ≤ ep_commit e;
}.

Lemma replayable_room log e : replayable log e → ep_commit e < u64_max.
Proof. intros []. pose proof (lvw_room _ rp_log0). lia. Qed.

Lemma committed_tail_length log e :
  replayable log e → length (committed_tail log e) = N.to_nat (ep_commit e - ep_applied e).
Proof.
  intros []. unfold committed_tail, lv_slice. unfold lv_first, lv_last in *.
  rewrite length_take, length_drop. lia.
Qed.

Lemma replayable_run log es rest e e' :
  replayable log e → committed_tail log e = es ++ rest → apply_all log es e = (AsApplied, e') →
  replayable log e' ∧ committed_tail log e' = rest.
Proof.
  intros Hr Ht Ha. pose proof (committed_tail_length log e Hr) as Hl.
  destruct (apply_all_applied log es e e' Ha (replayable_room _ _ Hr)) as (Hap & Hc & _).
  rewrite Ht, length_app in Hl. destruct Hr. split.
  - constructor; try done; lia.
  - unfold committed_tail in *. rewrite Hap, Hc. unfold lv_slice, lv_first in *.
    apply (f_equal (drop (length es))) in Ht. rewrite drop_app_length in Ht. rewrite <- Ht.
    rewrite skipn_firstn_comm, drop_drop. f_equal; [lia|]. f_equal. lia.
Qed.

(** One read: a non-empty run of the tail, no longer than the budget that is left. *)
Lemma apply_read log c e :
  replayable log e → ep_applied e < ep_commit e → c < APPLY_BUDGET_ENTRIES →
  ∃ x es rest,
    log_entries log (counter_next (ep_applied e))
      (apply_read_span (ep_applied e) (ep_commit e) c) APPLY_READ_MAX_BYTES = Ok (Ready (x :: es))
    ∧ committed_tail log e = (x :: es) ++ rest
    ∧ c + N.of_nat (length (x :: es)) ≤ APPLY_BUDGET_ENTRIES.
Proof.
  intros Hr Hlt Hc. pose proof (replayable_room _ _ Hr) as Hroom. destruct Hr.
  destruct (apply_read_span_bound (ep_applied e) (ep_commit e) c) as (H1 & H2 & H3);
    [unfold is_u64; lia|done|]. specialize (H3 Hlt Hc).
  set (hi := apply_read_span _ _ _) in *. rewrite counter_next_lt by lia.
  destruct (rp_resident0 (ep_applied e + 1) hi APPLY_READ_MAX_BYTES) as [b Hb]; [lia..|].
  assert (Hhi : hi ≤ lv_last (log_view log) + 1) by lia.
  destruct (log_entries_view _ _ _ _ _ rp_first0 Hhi Hb) as [Hpre Hne].
  destruct b as [|x es]; [by destruct (Hne H3)|].
  assert (Hlen : (length (x :: es) ≤ N.to_nat (hi - (ep_applied e + 1)))%nat).
  { etrans; [by apply prefix_length|]. unfold lv_slice. rewrite length_take. lia. }
  destruct (transitivity Hpre (lv_slice_prefix (log_view log) (ep_applied e + 1) hi (ep_commit e + 1) H1))
    as [rest Hrest].
  exists x, es, rest. split_and!; [done|exact Hrest|lia].
Qed.

Lemma apply_loop_exact fuel log c e :
  replayable log e → is_poisoned e = false →
  (N.to_nat (ep_commit e - ep_applied e) < fuel)%nat →
  c < APPLY_BUDGET_ENTRIES ∨ ep_applied e = ep_commit e →
  let left := N.to_nat (APPLY_BUDGET_ENTRIES - c) in
  let '(st, e') := apply_all log (take left (committed_tail log e)) e in
  apply_loop fuel log c e = (drain_of st (left <? length (committed_tail log e))%nat, e').
Proof.
  revert c e. induction fuel as [|fuel IH]; intros c e Hr Hq Hf Hc; [lia|].
  cbv zeta. cbn [apply_loop]. destruct (N.leb_spec (ep_commit e) (ep_applied e)) as [Hle|Hlt].
  { pose proof (committed_tail_length log e Hr) as Hl. destruct (committed_tail log e); [|cbn in Hl; lia].
    by rewrite take_nil. }
  rewrite Hq. destruct Hc as [Hc|?]; [|lia].
  destruct (apply_read log c e Hr Hlt Hc) as (x & es & rest & -> & Ht & Hb).
  set (b := x :: es) in *. destruct (apply_batch_all log b c e) as (n & -> & Hn).
  replace (N.to_nat (APPLY_BUDGET_ENTRIES - c)) with
    (length b + N.to_nat (APPLY_BUDGET_ENTRIES - (c + N.of_nat (length b))))%nat by lia.
  rewrite Ht, take_app_add, apply_all_app.
  destruct (apply_all log b e) as [[] e1] eqn:Hb1; cbn [fst snd] in *; [| |done].
  - specialize (Hn eq_refl) as ->. destruct (replayable_run _ _ _ _ _ Hr Ht Hb1) as [Hr1 Ht1].
    pose proof (committed_tail_length log e1 Hr1) as Hl1. rewrite Ht1 in Hl1.
    destruct (apply_all_applied _ _ _ _ Hb1 (replayable_room _ _ Hr)) as (Ha1 & Hc1 & _).
    assert (Hq1 : is_poisoned e1 = false) by eauto using apply_all_sound. rewrite Hq1. cbn [negb andb].
    rewrite length_app. destruct (_ && _) eqn:Hcut.
    + apply andb_true_iff in Hcut as [Hcut1%N.leb_le Hcut2%N.ltb_lt].
      replace (N.to_nat (APPLY_BUDGET_ENTRIES - (c + N.of_nat (length b)))) with 0%nat by lia.
      cbn [take apply_all drain_of]. destruct (Nat.ltb_spec (length b + 0) (length b + length rest)); [done|lia].
    + specialize (IH (c + N.of_nat (length b)) e1 Hr1 Hq1). rewrite Ht1 in IH. cbv zeta in IH.
      assert (Hlb : (0 < length b)%nat) by (cbn; lia).
      destruct (apply_all log (take _ rest) e1) as [st e2]. rewrite IH; [|lia|].
      * f_equal. f_equal. destruct (Nat.ltb_spec (length b + N.to_nat (APPLY_BUDGET_ENTRIES - (c + N.of_nat (length b))))
          (length b + length rest)); destruct (Nat.ltb_spec (N.to_nat (APPLY_BUDGET_ENTRIES - (c + N.of_nat (length b)))) (length rest)); lia || done.
      * apply andb_false_iff in Hcut as [?%N.leb_gt|?%N.ltb_ge]; [by left|right]. destruct Hr1. lia.
  - apply apply_all_poisoned in Hb1. rewrite Hb1. cbn [negb andb]. by rewrite apply_loop_poisoned.
Qed.

(** C17: The apply loop is exact and independent of batching.  With the committed
    tail in a store that answers from memory, [apply_committed] leaves the node in
    the state of applying the first [APPLY_BUDGET_ENTRIES] entries of that tail
    one after the other, and reports what became of them: cut when entries are
    left to the budget, waiting when one parked, drained otherwise.  Neither the
    sizes of the batches the store chose to return nor the fuel of the model
    shows. *)
Theorem apply_committed_exact log e :
  replayable log e → is_poisoned e = false → mrg_pending_apply (ep_merge e) = None →
  let tail := committed_tail log e in
  let budget := N.to_nat APPLY_BUDGET_ENTRIES in
  let '(st, e') := apply_all log (take budget tail) e in
  apply_committed log e = (drain_of st (budget <? length tail)%nat, e').
Proof.
  intros Hr Hq Hm. cbv zeta. unfold apply_committed. rewrite Hq, Hm. cbn [is_Some].
  pose proof (apply_loop_exact (apply_fuel e) log 0 e Hr Hq) as Hl. cbv zeta in Hl.
  rewrite N.sub_0_r in Hl. rewrite bool_decide_eq_false_2 by (by intros [? ?]).
  apply Hl; [unfold apply_fuel; lia|by left].
Qed.

Lemma apply_committed_step log e :
  replayable log e → is_poisoned e = false → mrg_pending_apply (ep_merge e) = None →
  ∃ es rest st e1, committed_tail log e = es ++ rest ∧ apply_all log es e = (st, e1)
    ∧ apply_committed log e = (drain_of st (negb (bool_decide (rest = []))), e1)
    ∧ (rest ≠ [] → es ≠ []).
Proof.
  intros Hr Hq Hm. unfold apply_committed. rewrite Hq, Hm.
  rewrite bool_decide_eq_false_2 by (by intros [? ?]).
  pose proof (apply_loop_exact (apply_fuel e) log 0 e Hr Hq) as Hl. cbv zeta in Hl.
  rewrite N.sub_0_r in Hl. set (b := N.to_nat APPLY_BUDGET_ENTRIES) in *.
  exists (take b (committed_tail log e)), (drop b (committed_tail log e)).
  destruct (apply_all log (take b _) e) as [st e1]. exists st, e1.
  rewrite take_drop, Hl; [|unfold apply_fuel; lia|by left]. split_and!; [done..| |].
  - f_equal. f_equal. destruct (Nat.ltb_spec b (length (committed_tail log e))).
    + rewrite bool_decide_eq_false_2; [done|]. intros Hd%(f_equal length).
      rewrite length_drop in Hd. cbn in Hd. lia.
    + by rewrite bool_decide_eq_true_2 by (by apply drop_ge).
  - intros Hd. destruct (committed_tail log e); [by rewrite drop_nil in Hd|]. done.
Qed.

Lemma replay_loop_exact fuel log e :
  replayable log e → is_poisoned e = false → mrg_pending_apply (ep_merge e) = None →
  (N.to_nat (ep_commit e - ep_applied e) < fuel)%nat →
  replay_loop fuel log e = (apply_all log (committed_tail log e) e).2.
Proof.
  revert e. induction fuel as [|fuel IH]; intros e Hr Hq Hm Hf; [lia|]. cbn [replay_loop].
  destruct (apply_committed_step log e Hr Hq Hm) as (es & rest & st & e1 & Ht & Ha & -> & Hne).
  rewrite Ht, apply_all_app, Ha. destruct st; [|done..].
  case_bool_decide as Hrest; [by subst|]. cbn [drain_of negb].
  destruct (replayable_run _ _ _ _ _ Hr Ht Ha) as [Hr1 Ht1].
  destruct (apply_all_applied _ _ _ _ Ha (replayable_room _ _ Hr)) as (Ha1 & Hc1 & Hp1).
  rewrite IH; [by rewrite Ht1|done|by eapply apply_all_sound|congruence|].
  specialize (Hne Hrest). destruct es; [done|]. cbn [length] in Ha1. destruct Hr, Hr1. lia.
Qed.

(** C18: The replay of a restart is complete.  [replay_loop], the loop that runs
    [apply_committed] until it is no longer cut by its budget, ends within its
    fuel in the state of applying the whole committed tail entry by entry: nothing
    committed is skipped, repeated or reordered, whatever the length of the
    tail. *)
Theorem replay_complete log e :
  replayable log e → is_poisoned e = false → mrg_pending_apply (ep_merge e) = None →
  replay_loop (replay_fuel e) log e = (apply_all log (committed_tail log e) e).2.
Proof. intros. apply replay_loop_exact; try done. unfold replay_fuel. lia. Qed.
End loop.

(** ** A replay *)

Module ReplayRun.
Import Sample EngineLogDemo.

#[local] Instance no_conf_change : Buffa PbConfChangeV2 := {|
  buffa_encode := λ _, []; buffa_decode := λ _, Err BuffaOther |}.

(** Two commands around a leader's empty entry. *)
Definition log : EngineLog :=
  EngineLog_submit_append (OpId_new 0)
    [Entry_new 1 1 EkNormal (data_encode (5 : u64)); Entry_new 1 2 EkEmpty [];
     Entry_new 1 3 EkNormal (data_encode (7 : u64))] EngineLog_new.

Definition behind : Endpoint N N Prng := (node 1) <| ep_commit := 3 |>.

Lemma behind_replayable : replayable log behind.
Proof.
  constructor; try by vm_compute.
  - constructor; [|by vm_compute]. repeat (apply contiguous_cons; [done|]). apply contiguous_nil.
  - intros lo hi max Hlo Hhi. eexists. cbn. by rewrite EngineLog_entries_slice.
Qed.

(** All three entries are applied in one call: the counter is 5 + 7. *)
Lemma apply_committed_exact_witness :
  (apply_committed (DC := Data_u64) (DS := Data_u64) log behind).1 = ApplyDrained
  ∧ ep_fsm (apply_committed (DC := Data_u64) (DS := Data_u64) log behind).2 = 12.
Proof.
  pose proof (apply_committed_exact (DC := Data_u64) (DS := Data_u64) log behind behind_replayable
    eq_refl eq_refl) as H.
  cbv zeta in H. match type of H with context [apply_all ?l ?t ?b] =>
    destruct (apply_all l t b) as [st e'] eqn:Ha end.
  rewrite H. cbn [fst snd]. pose proof (f_equal fst Ha) as Hst.
  pose proof (f_equal (λ r, ep_fsm r.2) Ha) as Hfs. cbn [fst snd] in Hst, Hfs.
  rewrite <- Hst, <- Hfs. vm_compute. done.
Defined.

Lemma replay_complete_witness :
  ep_applied (replay_loop (StateMachine0 := Counter) (DC := Data_u64) (DS := Data_u64) (replay_fuel behind) log behind) = 3.
Proof.
  rewrite (replay_complete (StateMachine0 := Counter) (DC := Data_u64) (DS := Data_u64) log behind behind_replayable eq_refl eq_refl).
  vm_compute. reflexivity.
Defined.
End ReplayRun.
