(* ===== verification/HandlerFrame.v ===== *)
(** * The handlers and the other calls leave a vote alone

    The frame of [VoteFrame] for the handlers of [Snapshot], [Append] and [Drive]
    that neither vote nor stand for election. *)

From S2P Require Import Prelude Bytes Num Quorum Progress ProgressMap Conf Tracker ConfChange.
From S2P Require Import ConfChangeProps Config Lease Prng ReadOnly Data Frame Entry Storage Shape.
From S2P Require Import Restart Forwarded Message Wire Codec Endpoint Merge Invariant Persistence.
From S2P Require Import Replication Election Propose Handlers Commit Apply Reads Snapshot Append.
From S2P Require Import Drive VoteFrame Frames ApplyFrame.

Section handlers.
Context {I F R L S : Type} `{!NodeId I, !StateMachine F, !Rng R, !LogStore L, !StableStore I S}.
Context {DI : Data I} {BS : BuffaSizes} {DC : Data sm_command} {DS : Data sm_snapshot}.
Context {BD : BuffaDecode} {BC : Buffa PbConfChangeV2}.
Abbreviation Endpoint := (Endpoint I F R).
Abbreviation Framed := (@Framed I F R _ _).
Abbreviation FramedSnd := (@FramedSnd I F R _ _ _).
Implicit Types (a e : Endpoint) (now : Now) (log : L) (stable : S).

(** ** Replication *)

#[global] Instance fr_follow now l : Framed (follow now l).
Proof. intros a e He. unfold follow. frame. Qed.

#[global] Instance fr_advance_commit_to c log : Framed (advance_commit_to c log).
Proof.
  intros a e He. unfold advance_commit_to. cbv zeta.
  set (e1 := if _ <? c then _ else e). assert (H1 : vote_frame a e1).
  { unfold e1. destruct (N.ltb_spec (ep_commit e) c); [|done]. apply vote_frame_commit; [done|lia]. }
  clearbody e1. frame.
Qed.

#[global] Instance fr_note_stuck now : Framed (note_stuck_advertised now).
Proof. intros a e He. unfold note_stuck_advertised. frame. Qed.
#[global] Instance fr_grant_lease_support : FramedSnd grant_lease_support.
Proof. intros a e He. unfold grant_lease_support. frame. Qed.
#[global] Instance fr_on_heartbeat now hb log : Framed (on_heartbeat now hb log).
Proof. intros a e He. unfold on_heartbeat. frame. Qed.
#[global] Instance fr_prev_consistent ae log : FramedSnd (prev_consistent ae log).
Proof. intros a e He. unfold prev_consistent. frame. Qed.
#[global] Instance fr_reject_append ae log : Framed (reject_append ae log).
Proof. intros a e He. unfold reject_append. frame. Qed.

#[global] Instance fr_conflict_suffix es log : FramedSnd (conflict_suffix es log).
Proof.
  intros a e. revert e. induction es as [|x es IH]; intros e He; cbn [conflict_suffix]; [done|].
  frame_step; [by apply IH|]. frame_step; [|done]. frame_step. frame_step; [|done].
  frame_step; [by apply IH|done].
Qed.

#[global] Instance fr_note_freezes es : Framed (note_freezes es).
Proof. intros a e He. unfold note_freezes. apply vf_foldl; [|done]. intros. frame. Qed.
#[global] Instance fr_scrub_acks_above i : Framed (scrub_acks_above i).
Proof.
  intros a e He. unfold scrub_acks_above. frame_step. frame_step.
  apply vote_frame_outputs; [done|]. unfold grants. cbn. intros g.
  rewrite !list_elem_of_omap. intros (m & Hm & Hg). exists m. split; [|done].
  by apply list_elem_of_filter in Hm as [_ ?].
Qed.
#[global] Instance fr_send_or_gate_append_ack to m : Framed (send_or_gate_append_ack to m).
Proof. intros a e He. unfold send_or_gate_append_ack. frame. Qed.
#[global] Instance fr_note_lease_ack from r : Framed (note_lease_ack from r).
Proof. intros a e He. unfold note_lease_ack. frame. Qed.
#[global] Instance fr_resend_snapshot p stable : FramedSnd (resend_snapshot p stable).
Proof. intros a e He. unfold resend_snapshot. frame. Qed.
#[global] Instance fr_pace_snapshot now from stable : FramedSnd (pace_snapshot now from stable).
Proof. intros a e He. unfold pace_snapshot. frame. Qed.
#[global] Instance fr_ack_read_round from ctx : Framed (ack_read_round from ctx).
Proof. intros a e He. unfold ack_read_round. frame. Qed.
#[global] Instance fr_on_heartbeat_response now from r log stable :
  Framed (on_heartbeat_response now from r log stable).
Proof. intros a e He. unfold on_heartbeat_response. frame. Qed.
#[global] Instance fr_on_append_reject now from r pr log stable :
  Framed (on_append_reject now from r pr log stable).
Proof. intros a e He. unfold on_append_reject. frame. Qed.
#[global] Instance fr_on_append_accept now from r pr log stable :
  Framed (on_append_accept now from r pr log stable).
Proof. intros a e He. unfold on_append_accept. frame. Qed.
#[global] Instance fr_on_append_response now from r log stable :
  Framed (on_append_response now from r log stable).
Proof. intros a e He. unfold on_append_response. frame. Qed.
#[global] Instance fr_freeze_identity b t log : FramedSnd (advance_commit_on_freeze_identity b t log).
Proof. intros a e He. unfold advance_commit_on_freeze_identity. frame. Qed.

(** ** The leader's side of a snapshot *)

#[global] Instance fr_next_chunk now from r stable : FramedSnd (next_chunk now from r stable).
Proof. intros a e He. unfold next_chunk. frame. Qed.
#[global] Instance fr_on_snapshot_ack now from r log stable :
  Framed (on_snapshot_ack now from r log stable).
Proof. intros a e He. unfold on_snapshot_ack. frame. Qed.
#[global] Instance fr_on_snapshot_response now from r log stable :
  Framed (on_snapshot_response now from r log stable).
Proof. intros a e He. unfold on_snapshot_response. frame. Qed.

(** ** Timeouts in office *)

#[global] Instance fr_demand_refresh now log : FramedSnd (demand_refresh now log).
Proof. intros a e He. unfold demand_refresh. frame. Qed.
#[global] Instance fr_proactive_refresh now log : FramedSnd (proactive_refresh now log).
Proof. intros a e He. unfold proactive_refresh. frame. Qed.
#[global] Instance fr_expire_transfer now : Framed (expire_transfer now).
Proof. intros a e He. unfold expire_transfer. frame. Qed.
#[global] Instance fr_step_down now : Framed (step_down_to_follower now).
Proof. intros a e He. unfold step_down_to_follower. frame. Qed.
#[global] Instance fr_check_quorum_tick now : Framed (check_quorum_tick now).
Proof. intros a e He. unfold check_quorum_tick. frame. Qed.
#[global] Instance fr_commit_wait_tick now log : Framed (commit_wait_tick now log).
Proof. intros a e He. unfold commit_wait_tick. frame. Qed.
#[global] Instance fr_drive_debts now log stable : Framed (drive_debts now log stable).
Proof. intros a e He. unfold drive_debts. frame. Qed.
#[global] Instance fr_arm_heartbeat now : Framed (arm_heartbeat_timer now).
Proof. intros a e He. unfold arm_heartbeat_timer. frame. Qed.
#[global] Instance fr_handle_timeout_leader now log stable :
  FramedSnd (handle_timeout_leader now log stable).
Proof. intros a e He. unfold handle_timeout_leader. frame. Qed.

(** ** Completions of the log *)

#[global] Instance fr_take_log_pending opid : FramedSnd (take_log_pending opid).
Proof. intros a e He. unfold take_log_pending. frame. Qed.
#[global] Instance fr_release_log_pending now opid log : Framed (release_log_pending now opid log).
Proof. intros a e He. unfold release_log_pending. frame. Qed.
#[global] Instance fr_on_log_appended now opid log : Framed (on_log_appended now opid log).
Proof. intros a e He. unfold on_log_appended. frame. Qed.
End handlers.

(** * The other calls on an endpoint

    What a driver or the layer of groups above calls besides messages, timeouts
    and storage: proposals, transfers and reads, and the bookkeeping of splits and
    merges.  Each of them is a frame step in the sense of [VoteFrame]. *)

Section calls.
Context {I F R L S : Type} `{!NodeId I, !StateMachine F, !Rng R, !LogStore L, !StableStore I S}.
Context {DI : Data I} {BS : BuffaSizes} {DC : Data sm_command} {DS : Data sm_snapshot}.
Context {BD : BuffaDecode} {BC : Buffa PbConfChangeV2}.
Abbreviation Endpoint := (Endpoint I F R).
Abbreviation Framed := (@Framed I F R _ _).
Abbreviation FramedSnd := (@FramedSnd I F R _ _ _).
Implicit Types (a e : Endpoint) (now : Now) (log : L) (stable : S).

Inductive local_call e : Endpoint → Prop :=
| CallPropose now cmd log : local_call e (propose now cmd log e).2
| CallProposeSplit now c p log : local_call e (propose_split_entry now c p log e).2
| CallProposeMerge now k p log : local_call e (propose_merge_entry now k p log e).2
| CallProposeReadMode now m log : local_call e (propose_read_mode_change now m log e).2
| CallProposeConfChange now cc log : local_call e (propose_conf_change now cc log e).2
| CallProposeConfChangeV2 now cc log : local_call e (propose_conf_change_v2 now cc log e).2
| CallTransfer now to log stable : local_call e (transfer_leader now to log stable e).2
| CallFlush now log stable : local_call e (flush_appends now log stable e)
| CallReadIndex now ctx log : local_call e (read_index now ctx log e).2
| CallMergeSeal now log : local_call e (ensure_merge_seal now log e).2
| CallFreezeIdentity b t log : local_call e (advance_commit_on_freeze_identity b t log e).2
| CallPollEvent : local_call e (poll_event e).2
| CallQueryPanicked : local_call e (fail_stop_query_panicked e)
| CallPopFork r e' : pop_pending_fork e = Some (r, e') → local_call e e'
| CallResolveFork i : local_call e (resolve_fork i e)
| CallMarkAbandoned i : local_call e (mark_fork_abandoned i e)
| CallResolveMerge fsm : local_call e (resolve_pending_merge fsm e).2
| CallResolveAborted : local_call e (resolve_pending_merge_aborted e)
| CallEmitMerged m : local_call e (emit_merged m e)
| CallLatchWindow : local_call e (latch_merge_window_closed e)
| CallParkUnresolvable b : local_call e (note_merge_park_unresolvable b e)
| CallDischarged s : local_call e (note_discharged s e)
| CallClearAbandoned s : local_call e (clear_abandoned s e)
| CallThawAppended i : local_call e (note_thaw_appended i e)
| CallWitnessAppended i : local_call e (note_witness_appended i e)
| CallClearAdoptOwed : local_call e (clear_adopt_capture_owed e)
| CallPinCapture s : local_call e (pin_failed_capture s e)
| CallTakeDebts : local_call e (take_capture_debts e).2
| CallAdoptDebts d : local_call e (adopt_inherited_debts d e)
| CallTakeInherited : local_call e (take_inherited_debts e).2
| CallMintDebt m : local_call e (mint_capture_debt m e)
| CallDischargeDebt : local_call e (discharge_capture_debt e).2
| CallScanClaims log : local_call e (scan_freeze_claims log e).2
| CallCrossingScan log : local_call e (advance_crossing_scan log e).

(** ** The calls that move the observed state *)

Lemma vf_pop_pending_fork e r e' : pop_pending_fork e = Some (r, e') → vote_frame e e'.
Proof.
  unfold pop_pending_fork. destruct (spl_pending_forks _) as [|f fs] eqn:Hf; [by intros [= <- <-]|].
  destruct (spl_forked_fsms _) as [|g gs] eqn:Hg; [done|]. intros [= <- <-].
  apply vote_frame_fork; [done..|]. unfold fork_queues_wf. cbn. rewrite Hf, Hg. cbn. congruence.
Qed.

Lemma vf_latch_window e : vote_frame e (latch_merge_window_closed e).
Proof.
  apply (vote_frame_step e e); try done. constructor; try done. intros Hwf.
  pose proof (wf_park _ Hwf) as Hp. destruct Hwf. split; [|by split_and!]. constructor; try done.
  intros p. cbn. destruct (mrg_pending_apply (ep_merge e)) as [q|]; [|done]. intros [= <-].
  exact (Hp q eq_refl).
Qed.

(** A resolved park leaves the applied index at its entry. *)
Lemma vf_resolved a e e' p :
  vote_frame a e → mrg_pending_apply (ep_merge e) = Some p →
  ep_ballot e' = ep_ballot e → ep_pending_stable e' = ep_pending_stable e →
  ep_next_op_id e' = ep_next_op_id e → grants e' = grants e → ep_role e' = ep_role e →
  same_view (e <| ep_applied := pma_at p |>
               <| ep_merge ::= λ x, x <| mrg_pending_apply := None |> |>) e' →
  vote_frame a e'.
Proof.
  intros Hf Hp Hb Hs Ho Hg Hr Hv.
  apply (vote_frame_conv a (e <| ep_applied := pma_at p |>
               <| ep_merge ::= λ x, x <| mrg_pending_apply := None |> |>)); try done.
  apply (vote_frame_step a e); try done. constructor; try done. intros Hwf.
  destruct (wf_park _ Hwf p Hp) as (? & ? & ?). destruct Hwf.
  split; [by constructor|]. by split_and!; cbn.
Qed.

Lemma vf_cleared_park e : vote_frame e (clear_park e).
Proof.
  apply (vote_frame_step e e); try done. constructor; try done.
  intros []. split; [by constructor|by split_and!].
Qed.

Lemma vf_resolve_merge fsm e : vote_frame e (resolve_pending_merge fsm e).2.
Proof.
  unfold resolve_pending_merge. destruct (mrg_pending_apply _) as [p|] eqn:Hp; [|done]. cbv zeta.
  destruct (sm_absorb _ _) as [absorbed fsm']. destruct (negb absorbed); cbn [snd].
  - frame_step. apply (vote_frame_conv _ (clear_park e)); try done. apply vf_cleared_park.
  - by apply (vf_resolved _ e _ p).
Qed.

Lemma vf_resolve_aborted e : vote_frame e (resolve_pending_merge_aborted e).
Proof.
  unfold resolve_pending_merge_aborted. destruct (mrg_pending_apply _) as [p|] eqn:Hp; [|done].
  by apply (vf_resolved _ e _ p).
Qed.

(** ** The crossing walk *)

#[global] Instance fr_crossing_stop : Framed crossing_stop.
Proof. intros a e He. unfold crossing_stop. frame. Qed.

#[global] Instance fr_crossing_chunk es : FramedSnd (crossing_chunk es).
Proof.
  intros a e. revert e. induction es as [|x es IH]; intros e He; cbn [crossing_chunk]; [done|].
  destruct (e_kind x); try by apply IH.
  - destruct (decode_commit_merge_payload _); [apply IH; frame|cbn [snd]; frame].
  - destruct (decode_thaw_discharged_payload _); [apply IH; frame|cbn [snd]; frame].
Qed.

#[global] Instance fr_crossing_loop n log last_ idx : Framed (crossing_loop n log last_ idx).
Proof.
  intros a e. revert idx e. induction n as [|n IH]; intros idx e He; cbn [crossing_loop];
    (destruct (last_ <? idx); [frame|]); [frame|]. cbv zeta.
  destruct (log_entries _ _ _ _) as [[chunk|]|]; [|frame|frame].
  destruct (last chunk) as [x|]; [|frame].
  pose proof (fr_crossing_chunk chunk a e He) as Hf.
  destruct (crossing_chunk chunk e) as [[] e1]; cbn [snd] in Hf; [|done]. apply IH. frame.
Qed.

#[global] Instance fr_flush_appends now log stable : Framed (flush_appends now log stable).
Proof.
  intros a e He. unfold flush_appends. destruct (is_poisoned e); [done|].
  destruct (negb (Role_is_leader (ep_role e))); [done|].
  destruct (negb (ep_replication_pending e)); [done|]. cbv zeta.
  match goal with |- context [foldl ?f (None, e) ?l] => set (step := f); generalize l end. intros l.
  match goal with |- context [foldl step ?x l] => set (acc := x) end.
  assert (Hacc : vote_frame a acc.2) by done. clearbody acc. revert acc Hacc.
  induction l as [|p l IH]; intros [sh b] Hb; cbn [foldl snd] in *.
  - by apply (vote_frame_conv a b).
  - apply IH. unfold step. destruct (Tracker_progress _ _) as [pr|]; [|done].
    destruct (_ <=? _); [|done]. by apply vf_maybe_send_append_shared.
Qed.

Lemma local_call_frame e e' : local_call e e' → vote_frame e e'.
Proof.
  destruct 1; try by frame; try by apply (vote_frame_conv e e).
  - unfold poll_event. destruct (is_poisoned e); [done|]. destruct (ou_events _); [done|].
    by apply vote_frame_outputs.
  - unfold fail_stop_query_panicked. by frame.
  - by eapply vf_pop_pending_fork.
  - apply vf_resolve_merge.
  - apply vf_resolve_aborted.
  - apply vf_latch_window.
  - unfold scan_freeze_claims. destruct (scan_claims _ _ _ _ _). by apply (vote_frame_conv e e).
  - unfold advance_crossing_scan. destruct (mrg_pending_apply _); [|done]. by apply fr_crossing_loop.
Qed.
End calls.
