(* ===== verification/Vote.v ===== *)
(** * One vote per term

    The promise the whole of Raft rests on: a node answers at most one candidate
    in a term, whatever the order of messages, timeouts, storage completions and
    crashes.  The endpoint is the one of [Election] and [Handlers]; the stable
    store is any implementation whose writes become durable in order
    ([EngineStable.StableWriteLaws]). *)

From S2P Require Import Prelude Bytes Num Quorum Progress ProgressMap Conf Tracker Config Lease.
From S2P Require Import Prng ReadOnly Data Entry Storage EngineStable Restart Forwarded Message.
From S2P Require Import Wire Endpoint Persistence Replication Election Handlers Invariant.
From S2P Require Import VoteFrame.

Section vote.
Context {I F R L S : Type} `{!NodeId I, !StateMachine F, !Rng R, !LogStore L, !StableStore I S}.
Context {DI : Data I} {BS : BuffaSizes} `{!StableWriteLaws I S}.
Abbreviation Endpoint := (Endpoint I F R).
Implicit Types (e : Endpoint) (now : Now) (log : L) (stable s : S) (v : WriteView I).

(** ** The invariant *)

Definition hs_ballot (h : HardState I) : Term * option I := (hs_term h, hs_vote h).
Definition wballot (w : OpId * HardState I) : Term * option I := hs_ballot w.2.
Definition cast_ballot (g : Term * I) : Term * option I := (g.1, Some g.2).

(** The ballot a waiting action will act on. *)
Definition pending_ballot (me : I) (p : Pending I) : option (Term * option I) :=
  match p with
  | CastVote to t => Some (t, Some to)
  | Campaign t => Some (t, Some me)
  | _ => None
  end.

(** Every ballot the node ever held, durable ones first. *)
Definition ballots e v : list (Term * option I) :=
  hs_ballot (wv_durable v) :: map wballot (wv_unflushed v) ++ [ep_ballot e].

Definition writes v : list (OpId * HardState I) := wv_unflushed v ++ wv_done v.

Definition durably v (b : Term * option I) : Prop := ballot_le b (hs_ballot (wv_durable v)).

(** [cast] collects the votes the world has seen: the grants that left the node
    and the offices it held. *)
Record vote_core e v (cast : list (Term * I)) : Prop := {
  vi_chain : StronglySorted ballot_le (ballots e v);
  vi_done : ∀ w, w ∈ wv_done v → durably v (wballot w);
  vi_term : is_u64 (ep_term e);
  vi_seq : is_u64 (opid_seq (ep_next_op_id e));
  vi_ids : ∀ w, w ∈ writes v → OpId_ltb w.1 (ep_next_op_id e) = true;
  vi_pending_ids : is_poisoned e = false →
    ∀ w, w ∈ ep_pending_stable e → OpId_ltb w.1 (ep_next_op_id e) = true;
  vi_pending : ∀ o p b h, (o, p) ∈ ep_pending_stable e → pending_ballot (ep_id e) p = Some b →
    (o, h) ∈ writes v → ballot_le b (hs_ballot h);
  vi_cast : ∀ g, g ∈ cast ++ grants e → durably v (cast_ballot g);
  vi_once : ∀ t c1 c2, (t, c1) ∈ cast ++ grants e → (t, c2) ∈ cast ++ grants e → c1 = c2;
  vi_candidate : ep_role e = Candidate ∨ ep_role e = Leader → ep_voted_for e = Some (ep_id e);
  vi_leader : ep_role e = Leader → (ep_term e, ep_id e) ∈ cast;
}.

(** A candidate with no campaign waiting has its own vote on disk. *)
Definition self_vote_inv e v : Prop :=
  ep_role e = Candidate → self_vote_durable e = true → durably v (ep_ballot e).

Definition vote_inv e v cast : Prop := vote_core e v cast ∧ self_vote_inv e v.

Lemma ballots_last_le e v b :
  StronglySorted ballot_le (ballots e v) → ballot_le b (hs_ballot (wv_durable v)) →
  ballot_le b (ep_ballot e).
Proof.
  unfold ballots. intros [_ Hall]%StronglySorted_inv Hb. etrans; [exact Hb|].
  rewrite Forall_forall in Hall. apply Hall, elem_of_app. set_solver.
Qed.

(** A vote that is durable binds the node for the rest of the term. *)
Lemma vote_core_bound e v cast g :
  vote_core e v cast → g ∈ cast ++ grants e → g.1 = ep_term e → ep_voted_for e = Some g.2.
Proof.
  intros Hi Hg Ht. pose proof (vi_cast _ _ _ Hi g Hg) as Hd.
  apply (ballots_last_le e) in Hd; [|apply Hi]. apply ballot_le_inv in Hd; [done|]. done.
Qed.

Lemma vote_core_frame e e' v cast :
  vote_frame e e' → vote_core e v cast → vote_core e' v cast.
Proof.
  intros [Hb Hp Hi Ho Hq Hg Hr] [Hch Hd Htu Hs Hid Hpi Hpd Hc Hon Hca Hl].
  destruct (Ho Hs) as [Hle Hs']. assert (Hlt : ∀ o, OpId_ltb o (ep_next_op_id e) = true →
    OpId_ltb o (ep_next_op_id e') = true).
  { intros o. rewrite !OpId_ltb_lt. revert Hle. rewrite OpId_leb_le. lia. }
  assert (Ht : ep_term e' = ep_term e ∧ ep_voted_for e' = ep_voted_for e) by (by injection Hb).
  destruct Ht as [Ht Hv].
  constructor; rewrite ?Hp, ?Hi, ?Ht; eauto.
  - unfold ballots. by rewrite Hb.
  - intros Hpo w Hw. apply Hlt, Hpi; [|done]. destruct (is_poisoned e); [by rewrite Hq in Hpo|done].
  - intros g Hin. apply Hc. set_solver.
  - intros t c1 c2 H1 H2. apply (Hon t); set_solver.
  - rewrite Hv. intros Hro. apply Hca. destruct Hr as [Hr|[Hr|Hr]]; rewrite Hr in Hro; naive_solver.
  - intros Hro. destruct Hr as [Hr|[Hr|Hr]]; [apply Hl; congruence|congruence..].
Qed.

Lemma self_vote_frame e e' v : vote_frame e e' → self_vote_inv e v → self_vote_inv e' v.
Proof.
  intros [Hb Hp _ _ _ _ Hr] Hsv Hro. unfold self_vote_durable.
  assert (ep_term e' = ep_term e) as -> by (by injection Hb). rewrite Hp, Hb.
  destruct Hr as [Hr|[Hr|Hr]]; [apply Hsv; congruence|congruence..].
Qed.

Lemma vote_inv_frame e e' v cast :
  vote_frame e e' → vote_inv e v cast → vote_inv e' v cast.
Proof. intros Hf []. split; eauto using vote_core_frame, self_vote_frame. Qed.

(** ** Growing the record of votes *)

Lemma vote_core_cast_grow e v cast g :
  vote_core e v cast → durably v (cast_ballot g) →
  (∀ c, (g.1, c) ∈ cast ++ grants e → c = g.2) → vote_core e v (cast ++ [g]).
Proof.
  intros [] Hd Ho. destruct g as [t c]. cbn [fst snd] in Ho. constructor; auto.
  - intros g. rewrite <- app_assoc, !elem_of_app, list_elem_of_singleton.
    intros [?|[->|?]]; [|done|]; apply vi_cast0; set_solver.
  - intros t' c1 c2. rewrite <- !app_assoc, !elem_of_app, !list_elem_of_singleton.
    intros H1 H2. destruct (decide (t' = t)) as [->|Hne].
    + assert (Hc : ∀ x, (t, x) ∈ cast ∨ (t, x) = (t, c) ∨ (t, x) ∈ grants e → x = c).
      { intros x [?|[[=]|?]]; [|done|]; apply Ho; set_solver. }
      by rewrite (Hc c1), (Hc c2).
    + apply (vi_once0 t'); naive_solver set_solver.
  - set_solver.
Qed.

Definition office e : list (Term * I) :=
  if Role_is_leader (ep_role e) then [(ep_term e, ep_id e)] else [].

Lemma vote_core_office e v cast : vote_core e v cast → vote_core e v (cast ++ office e).
Proof.
  intros Hi. unfold office. destruct (ep_role e) eqn:Hr; simpl; rewrite ?app_nil_r; try done.
  pose proof (vi_leader _ _ _ Hi Hr) as Hl. apply vote_core_cast_grow; [done|..].
  - apply Hi. set_solver.
  - intros c Hc. eapply vi_once; [done| exact Hc|]. set_solver.
Qed.

(** A message that leaves the node was counted when it was queued. *)
Lemma vote_core_emit e e' v cast g :
  vote_core e v cast → vote_frame e e' → g ∈ grants e → vote_core e' v (cast ++ [g]).
Proof.
  intros Hi Hf Hg. apply (vote_core_frame e); [done|]. apply vote_core_cast_grow; [done|..].
  - apply Hi. set_solver.
  - intros c Hc. destruct g. eapply vi_once; [done|exact Hc|set_solver].
Qed.

(** ** Writing the ballot *)

Lemma StronglySorted_snoc_dup {A} (Rl : A → A → Prop) (l : list A) (x : A) :
  Rl x x → StronglySorted Rl (l ++ [x]) → StronglySorted Rl (l ++ [x; x]).
Proof.
  intros Hx. induction l as [|y l IH]; simpl; intros Hs.
  - repeat constructor; done.
  - apply StronglySorted_inv in Hs as [Hs Hy]. constructor; [auto|].
    revert Hy. rewrite !Forall_forall. set_solver.
Qed.

(** The writer's promise: the ballot it submits is the node's, under a fresh id. *)
Record persists e v e' v' (opid : OpId) : Prop := {
  pe_frame : vote_frame e e';
  pe_opid : opid = ep_next_op_id e;
  pe_write : (is_poisoned e' = true ∧ v' = v) ∨
    (is_poisoned e = false ∧ OpId_ltb opid (ep_next_op_id e') = true
     ∧ ∃ h, hs_ballot h = ep_ballot e ∧ v' = wv_submit opid h v);
}.

Lemma mint_op_id_fresh e opid e1 :
  is_u64 (opid_seq (ep_next_op_id e)) → mint_op_id e = (opid, e1) →
  opid = ep_next_op_id e
  ∧ (is_poisoned e1 = false → OpId_ltb opid (ep_next_op_id e1) = true).
Proof.
  unfold mint_op_id. intros Hu [= <- <-]. split; [reflexivity|].
  case_decide as Hn; [discriminate|]. intros _. by apply OpId_next_ltb.
Qed.

Lemma mint_submit_persists h s e v opid e1 s' e' :
  stable_models s v → is_u64 (opid_seq (ep_next_op_id e)) → hs_ballot h = ep_ballot e →
  mint_op_id e = (opid, e1) → submit_write opid h s e1 = (s', e') →
  ∃ v', stable_models s' v' ∧ persists e v e' v' opid.
Proof.
  intros Hm Hu Hh Hid. pose proof (vote_frame_mint e e (reflexivity e)) as Hf.
  rewrite Hid in Hf. cbn [snd] in Hf. apply mint_op_id_fresh in Hid as [-> Hlt]; [|done].
  unfold submit_write. destruct (is_poisoned e1) eqn:Hp; intros [= <- <-].
  - exists v. split; [done|]. constructor; [done|done|by left].
  - eexists. split; [by apply models_submit|]. constructor; [frame|done|].
    right. split; [|split; [by apply Hlt|]].
    { pose proof (vf_poison _ _ Hf). destruct (is_poisoned e); naive_solver. }
    eexists. split; [|reflexivity]. done.
Qed.

Lemma persist_hard_state_persists base s e v opid s' e' :
  stable_models s v → is_u64 (opid_seq (ep_next_op_id e)) →
  persist_hard_state base s e = (opid, s', e') →
  ∃ v', stable_models s' v' ∧ persists e v e' v' opid.
Proof.
  intros Hm Hu. unfold persist_hard_state.
  destruct (mint_op_id e) as [id e1] eqn:Hid.
  destruct (submit_write _ _ _ _) as [s1 e2] eqn:Hs. intros [= <- <- <-].
  assert (Hb : ep_ballot e1 = ep_ballot e).
  { pose proof (vote_frame_mint e e (reflexivity e)) as Hf. rewrite Hid in Hf. by apply Hf. }
  eapply mint_submit_persists in Hs as (v' & Hm' & [Hf Ho Hw]); [|done..].
  exists v'. split; [done|]. constructor; [frame|done|exact Hw].
Qed.

Lemma vote_core_persists e v e' v' cast opid :
  persists e v e' v' opid → vote_core e v cast → vote_core e' v' cast.
Proof.
  intros [Hf -> Hw] Hi. apply (vote_core_frame _ _ _ _ Hf) in Hi as Hi'.
  destruct Hw as [[_ ->]|(Hq & Hlt & h & Hh & ->)]; [done|].
  destruct Hi'. constructor; try done.
  - unfold ballots, wballot. cbn. rewrite map_app, <- app_assoc. cbn. rewrite Hh.
    rewrite <- (vf_ballot _ _ Hf). apply (StronglySorted_snoc_dup _ (_ :: _)); [done|exact vi_chain0].
  - intros w. unfold writes. cbn. rewrite !elem_of_app, list_elem_of_singleton.
    intros [[Hin| ->]|Hin]; [|done|]; apply vi_ids0; unfold writes; set_solver.
  - intros o p b h' Hp Hb. unfold writes. cbn. rewrite !elem_of_app, list_elem_of_singleton.
    intros [[Hin| [= -> ->]]|Hin]; [|exfalso|];
      [eapply vi_pending0; eauto; unfold writes; set_solver| |
       eapply vi_pending0; eauto; unfold writes; set_solver].
    rewrite (vf_pending _ _ Hf) in Hp. pose proof (vi_pending_ids _ _ _ Hi Hq _ Hp) as Hlt'.
    revert Hlt'. cbn. rewrite OpId_ltb_lt. lia.
Qed.

Lemma self_vote_persists e v e' v' opid :
  persists e v e' v' opid → self_vote_inv e v → self_vote_inv e' v'.
Proof.
  intros [Hf _ Hw] Hs. apply (self_vote_frame _ _ _ Hf) in Hs.
  destruct Hw as [[_ ->]|(_ & _ & h & _ & ->)]; exact Hs.
Qed.

Lemma vote_inv_persists e v e' v' cast opid :
  persists e v e' v' opid → vote_inv e v cast → vote_inv e' v' cast.
Proof. intros Hp []. split; eauto using vote_core_persists, self_vote_persists. Qed.

(** A waiting ballot is registered under the write that carries it. *)
Lemma vote_core_push e v e' v' cast opid p :
  persists e v e' v' opid → vote_core e v cast →
  pending_ballot (ep_id e) p = Some (ep_ballot e) →
  vote_core (push_pending opid p e') v' cast.
Proof.
  intros Hp Hi Hb. pose proof (vote_core_persists _ _ _ _ _ _ Hp Hi) as Hi'.
  destruct Hp as [Hf -> Hw].
  assert (Hpush : push_pending (ep_next_op_id e) p e'
    = e' <| ep_pending_stable ::= λ q, q ++ [(ep_next_op_id e, p)] |>) by (by destruct p).
  rewrite Hpush. clear Hpush.
  destruct Hi'. constructor; try done.
  - intros Hq w. cbn. rewrite elem_of_app, list_elem_of_singleton.
    intros [?| ->]; [by apply vi_pending_ids0|].
    destruct Hw as [[Hq' _]|(_ & ? & _)]; [|done]. exfalso. change (is_poisoned e' = false) in Hq. congruence.
  - intros o p' b h. cbn. rewrite elem_of_app, list_elem_of_singleton.
    intros [?|[= -> ->]]; [by eauto|]. change (ep_id _) with (ep_id e'). rewrite (vf_id _ _ Hf), Hb.
    intros [= <-] Hin.
    assert (Hold : (ep_next_op_id e, h) ∉ writes v).
    { intros Hlt%(vi_ids _ _ _ Hi). revert Hlt. cbn. rewrite OpId_ltb_lt. lia. }
    destruct Hw as [[_ ->]|(_ & _ & h' & Hh & ->)]; [done|].
    revert Hin Hold. unfold writes. cbn. rewrite !elem_of_app, list_elem_of_singleton.
    intros [[?|[= ->]]|?] Hold; [destruct Hold; by left| |destruct Hold; by right].
    by rewrite Hh.
Qed.

(** ** Moving the ballot *)

Lemma StronglySorted_raise {A} (Rl : A → A → Prop) `{!Transitive Rl} (l : list A) (x y : A) :
  Rl x y → StronglySorted Rl (l ++ [x]) → StronglySorted Rl (l ++ [y]).
Proof.
  intros Hx. induction l as [|z l IH]; simpl; intros Hs; [repeat constructor|].
  apply StronglySorted_inv in Hs as [Hs Hz]. constructor; [auto|].
  revert Hz. rewrite !Forall_forall. intros Hz w.
  rewrite elem_of_app, list_elem_of_singleton. intros [?| ->]; [apply Hz; set_solver|].
  etrans; [|exact Hx]. apply Hz. set_solver.
Qed.

Lemma vote_core_raise e e' v cast :
  vote_core e v cast → ballot_le (ep_ballot e) (ep_ballot e') →
  is_u64 (ep_term e') → ep_pending_stable e' ⊆ ep_pending_stable e → ep_id e' = ep_id e →
  ep_next_op_id e' = ep_next_op_id e → is_poisoned e' = is_poisoned e → grants e' = grants e →
  (ep_role e' = Candidate ∨ ep_role e' = Leader → ep_voted_for e' = Some (ep_id e)) →
  (ep_role e' = Leader → ep_role e = Leader ∧ ep_term e' = ep_term e) →
  vote_core e' v cast.
Proof.
  intros [] Hb Htu Hp Hi Ho Hq Hg Hca Hl. constructor; rewrite ?Hi, ?Ho, ?Hq, ?Hg; try done.
  - eapply (StronglySorted_raise _ (_ :: _)); [exact Hb|exact vi_chain0].
  - intros. apply vi_pending_ids0; set_solver.
  - intros o p b h Hin. apply vi_pending0. set_solver.
  - intros [? ->]%Hl. auto.
Qed.

(** ** What a step keeps *)

(** A step of the node keeps the invariant, when the office it may have taken is
    added to the record. *)
Definition keeps e s e' s' : Prop :=
  ep_wf e → ep_step e e' ∧
  ∀ v cast, stable_models s v → vote_inv e v cast →
    ∃ v', stable_models s' v' ∧ vote_inv e' v' (cast ++ office e').

Lemma vote_inv_sub e v cast cast' :
  cast ⊆ cast' → (ep_role e = Leader → (ep_term e, ep_id e) ∈ cast) →
  vote_inv e v cast' → vote_inv e v cast.
Proof.
  intros Hsub Hl [[] Hs]. split; [|done]. constructor; try done.
  - set_solver.
  - intros t c1 c2 H1 H2. apply (vi_once0 t); set_solver.
Qed.

Lemma vote_inv_office e v cast : vote_inv e v cast → vote_inv e v (cast ++ office e).
Proof. intros []. split; auto using vote_core_office. Qed.

Lemma keeps_intro e s e' s' :
  ep_step e e' →
  (∀ v cast, stable_models s v → vote_inv e v cast →
     ∃ v', stable_models s' v' ∧ vote_inv e' v' cast) → keeps e s e' s'.
Proof.
  intros Hs Hk _. split; [done|]. intros v cast Hm Hi.
  destruct (Hk v cast Hm Hi) as (v' & Hm' & Hi'). eauto using vote_inv_office.
Qed.

Lemma keeps_frame e s e' : vote_frame e e' → keeps e s e' s.
Proof. intros Hf. apply keeps_intro; [apply Hf|]. eauto using vote_inv_frame. Qed.

Lemma keeps_refl e s : keeps e s e s.
Proof. by apply keeps_frame. Qed.

Lemma office_in e : ep_role e = Leader → (ep_term e, ep_id e) ∈ office e.
Proof. unfold office. intros ->. simpl. set_solver. Qed.

Lemma keeps_trans e1 s1 e2 s2 e3 s3 :
  keeps e1 s1 e2 s2 → keeps e2 s2 e3 s3 → keeps e1 s1 e3 s3.
Proof.
  intros H12 H23 Hw. destruct (H12 Hw) as [Hs12 Hv12]. clear H12.
  destruct (H23 (proj1 (st_wf _ _ Hs12 Hw))) as [Hs23 Hv23]. clear H23.
  split; [by etrans|]. intros v cast Hm Hi.
  destruct (Hv12 v cast Hm Hi) as (v2 & Hm2 & Hi2).
  destruct (Hv23 v2 _ Hm2 Hi2) as (v3 & Hm3 & Hi3). exists v3. split; [done|].
  eapply vote_inv_sub; [| |exact Hi3]; [set_solver|].
  intros Hl%office_in. set_solver.
Qed.

Lemma keeps_then_frame e1 s1 e2 s2 e3 :
  keeps e1 s1 e2 s2 → vote_frame e2 e3 → keeps e1 s1 e3 s2.
Proof. eauto using keeps_trans, keeps_frame. Qed.

Lemma frame_then_keeps e1 e2 s2 e3 s3 :
  vote_frame e1 e2 → keeps e2 s2 e3 s3 → keeps e1 s2 e3 s3.
Proof. eauto using keeps_trans, keeps_frame. Qed.

(** ** The writers *)

Lemma vf_persist_hard_state base s e opid s' e' :
  persist_hard_state base s e = (opid, s', e') → vote_frame e e'.
Proof.
  unfold persist_hard_state. pose proof (vote_frame_mint e e (reflexivity e)) as Hf.
  destruct (mint_op_id e) as [id e1]. cbn [snd] in Hf. unfold submit_write.
  destruct (is_poisoned e1); intros [= <- <- <-]; frame.
Qed.

Lemma ep_step_push opid p e : ep_step e (push_pending opid p e).
Proof. apply ep_step_same_view. by destruct p. Qed.

Lemma keeps_persist base s e opid s' e' :
  persist_hard_state base s e = (opid, s', e') → keeps e s e' s'.
Proof.
  intros Hp. apply keeps_intro; [by eapply vf_step, vf_persist_hard_state|]. intros v cast Hm Hi.
  eapply persist_hard_state_persists in Hp as (v' & Hm' & Hp); [|done|apply Hi].
  eauto using vote_inv_persists.
Qed.

Lemma keeps_persist_commit_floor s e :
  let r := persist_commit_floor s e in keeps e s r.2 r.1.
Proof.
  unfold persist_commit_floor. destruct (_ || _); [apply keeps_refl|].
  destruct (persist_hard_state _ _ _) as [[opid s'] e'] eqn:Hp. eauto using keeps_persist.
Qed.

Lemma keeps_ensure_term_durable s e :
  let r := ensure_term_durable s e in keeps e s r.2 r.1.
Proof.
  unfold ensure_term_durable. destruct (is_poisoned e); [apply keeps_refl|].
  destruct (_ || _); [apply keeps_refl|].
  destruct (persist_hard_state _ _ _) as [[opid s'] e'] eqn:Hp. eauto using keeps_persist.
Qed.

(** ** Adopting a term *)

Lemma keeps_adopt_term t s e : is_u64 t → ep_term e < t → keeps e s (adopt_term t e) s.
Proof.
  intros Htu Ht.
  set (e1 := e <| ep_term := t |> <| ep_role := Follower |> <| ep_voted_for := None |>
               <| ep_pending_stable := [] |>).
  assert (Hf : vote_frame e1 (adopt_term t e)).
  { unfold adopt_term, set_leader. case_decide; by apply (vote_frame_conv _ e1). }
  apply keeps_intro.
  { etrans; [|apply Hf]. etrans; [apply (ep_step_term e t); split; [lia|done]|]. by apply ep_step_same_view. }
  intros v cast Hm [Hc _]. exists v. split; [done|].
  apply (vote_inv_frame e1); [done|]. split; [|by intros ?].
  apply (vote_core_raise e); try done.
  - by left.
  - set_solver.
  - by intros [|].
Qed.

Lemma keeps_message_prepass now from m s e :
  is_u64 (Message_term m) → keeps e s (message_prepass now from m s e).2 s.
Proof.
  intros Hu. unfold message_prepass. destruct (is_poisoned e); [apply keeps_refl|].
  case_decide; [apply keeps_refl|]. destruct (_ && ignored_in_lease _ _ _); [apply keeps_refl|].
  set (h := (ep_term e <? Message_term m) && _). assert (Hk : keeps e s (if h then adopt_term (Message_term m) e else e) s).
  { destruct h eqn:Hh; [|apply keeps_refl]. apply keeps_adopt_term; [done|].
    unfold h in Hh. apply andb_true_iff in Hh as [Hh _]. by apply N.ltb_lt in Hh. }
  revert Hk. generalize (if h then adopt_term (Message_term m) e else e). intros e1 Hk.
  destruct (_ && negb (is_prevote_request m)); cbn [snd]; eapply keeps_then_frame; try exact Hk.
  - frame.
  - by apply vf_note_sender.
Qed.

(** ** Granting a vote *)

Lemma push_cast_self_vote e v opid to t :
  self_vote_inv e v → self_vote_inv (push_pending opid (CastVote to t) e) v.
Proof.
  intros Hs Hro. unfold self_vote_durable, durably. cbn. rewrite existsb_app. cbn. rewrite orb_false_r.
  by apply Hs.
Qed.

Lemma vote_inv_vote e v cast c :
  vote_inv e v cast → ep_voted_for e = None ∨ ep_voted_for e = Some c →
  vote_inv (e <| ep_voted_for := Some c |>) v cast.
Proof.
  intros [Hc Hs] Hv.
  assert (Hcand : ep_role e = Candidate ∨ ep_role e = Leader → c = ep_id e).
  { intros Hr%(vi_candidate _ _ _ Hc). destruct Hv; congruence. }
  split.
  - apply (vote_core_raise e); try done; [|apply Hc|by intros ->%Hcand].
    right. split; [done|]. destruct Hv as [Hv|Hv]; [left|right]; exact Hv.
  - intros Hr Hsd. specialize (Hs Hr Hsd). specialize (Hcand (or_introl Hr)) as ->.
    rewrite <- (vi_candidate _ _ _ Hc (or_introl Hr)). done.
Qed.

Lemma keeps_cast base s e opid s' e' c :
  ep_voted_for e = Some c → persist_hard_state base s e = (opid, s', e') →
  keeps e s (push_pending opid (CastVote c (ep_term e')) e') s'.
Proof.
  intros Hb Hp. apply keeps_intro.
  { etrans; [by eapply vf_step, vf_persist_hard_state|]. apply ep_step_push. }
  intros v cast Hm Hi. eapply persist_hard_state_persists in Hp as (v' & Hm' & Hp); [|done|apply Hi].
  exists v'. split; [done|]. destruct Hi as [Hc Hs]. split.
  - eapply vote_core_push; [done..|]. pose proof (vf_ballot _ _ (pe_frame _ _ _ _ _ Hp)) as Ht.
    injection Ht as -> _. cbn. unfold ep_ballot. by rewrite Hb.
  - apply push_cast_self_vote. by eapply self_vote_persists.
Qed.

Lemma keeps_grant now c base s e opid s' e' :
  ep_voted_for e = None ∨ ep_voted_for e = Some c →
  persist_hard_state base s (arm_election_timer now (e <| ep_voted_for := Some c |>))
    = (opid, s', e') →
  keeps e s (push_pending opid (CastVote c (ep_term e')) e') s'.
Proof.
  intros Hv Hp. apply (keeps_trans _ _ (e <| ep_voted_for := Some c |>) s).
  { apply keeps_intro; [by apply ep_step_same_view|]. eauto using vote_inv_vote. }
  eapply frame_then_keeps; [by apply vf_arm_election_timer|].
  eapply keeps_cast; [|exact Hp].
  pose proof (vf_arm_election_timer (e <| ep_voted_for := Some c |>) now _ (reflexivity _)) as Hf.
  apply vf_ballot in Hf. by injection Hf.
Qed.

Lemma keeps_on_request_vote now rv log s e :
  let r := on_request_vote now rv log s e in keeps e s r.2 r.1.
Proof.
  unfold on_request_vote. pose proof (vf_last_log e log e (reflexivity e)) as Hf.
  destruct (last_log log e) as [[last|] e1]; cbn [snd] in Hf.
  2: { apply keeps_frame. cbn. frame. }
  destruct (rv_pre_vote rv); [by apply keeps_frame, vf_on_pre_vote|].
  destruct (_ && negb _) eqn:Hg; [|apply keeps_frame; cbn; frame].
  apply andb_true_iff in Hg as [[Hv _]%andb_true_iff _].
  rewrite orb_true_iff, !bool_decide_eq_true in Hv.
  destruct (persist_hard_state _ _ _) as [[opid s'] e'] eqn:Hp. cbn [fst snd].
  eauto using frame_then_keeps, keeps_grant.
Qed.

(** ** Standing for election *)

Lemma keeps_candidacy base s e e1 opid s' e' :
  ep_ballot e1 = (counter_next (ep_term e), Some (ep_id e)) → counter_next (ep_term e) ≠ ep_term e →
  ep_pending_stable e1 = [] → ep_id e1 = ep_id e → ep_next_op_id e1 = ep_next_op_id e →
  is_poisoned e1 = is_poisoned e → grants e1 = grants e → ep_role e1 = Candidate → ep_step e e1 →
  persist_hard_state base s e1 = (opid, s', e') →
  keeps e s (push_pending opid (Campaign (ep_term e')) e') s'.
Proof.
  intros Hb Hne Hpd Hid Ho Hq Hg Hr Hst Hp. apply keeps_intro.
  { etrans; [exact Hst|]. etrans; [by eapply vf_step, vf_persist_hard_state|]. apply ep_step_push. }
  intros v cast Hm [Hi _].
  assert (Hlt : ep_term e < counter_next (ep_term e)).
  { pose proof (counter_next_ge (ep_term e) (vi_term _ _ _ Hi)). lia. }
  assert (Hi1 : vote_core e1 v cast).
  { injection Hb as Ht Hv. apply (vote_core_raise e); try done.
    - left. unfold ep_ballot. rewrite Ht. exact Hlt.
    - rewrite Ht. auto with sailing.
    - rewrite Hpd. set_solver.
    - by rewrite Hr; intros. }
  eapply persist_hard_state_persists in Hp as (v' & Hm' & Hp); [|done|apply Hi1].
  pose proof (vf_ballot _ _ (pe_frame _ _ _ _ _ Hp)) as Hb'.
  exists v'. split; [done|]. split.
  - eapply vote_core_push; [done..|]. cbn. rewrite Hid. injection Hb' as -> _.
    injection Hb as _ Hv. unfold ep_ballot. by rewrite Hv.
  - intros _. unfold self_vote_durable. cbn. rewrite existsb_app. cbn.
    rewrite N.eqb_refl, orb_true_r. done.
Qed.

Lemma keeps_stand now base s e t opid s' e' :
  t = counter_next (ep_term e) → t ≠ ep_term e →
  persist_hard_state base s
    ((set_leader None (e <| ep_term := t |> <| ep_pending_log := [] |>
                         <| ep_pending_stable := [] |> <| ep_role := Candidate |>))
       <| ep_voted_for := Some (ep_id e) |> <| ep_votes := {[ ep_id e := true ]} |>)
    = (opid, s', e') →
  keeps e s (arm_election_timer now (push_pending opid (Campaign (ep_term e')) e')) s'.
Proof.
  intros -> Hn Hp. eapply keeps_then_frame; [|by apply vf_arm_election_timer].
  eapply keeps_candidacy; [..|exact Hp]; try done; unfold set_leader; case_decide; try reflexivity;
    (etrans; [apply (ep_step_term e (counter_next (ep_term e))); auto with sailing|];
     by apply ep_step_same_view).
Qed.

Lemma keeps_become_candidate now tr log s e :
  let r := become_candidate now tr log s e in keeps e s r.2 r.1.
Proof.
  unfold become_candidate. destruct (negb _); [apply keeps_refl|].
  destruct (merge_park_membership_superseded _ _); [apply keeps_refl|].
  destruct (_ =? _) eqn:Hn; [apply keeps_refl|]. apply N.eqb_neq in Hn.
  pose proof (vf_last_log e log e (reflexivity e)) as Hf.
  destruct (last_log log e) as [[[li lt]|] e1]; cbn [snd] in Hf.
  2: { apply keeps_frame. cbn. frame. }
  apply (vf_note_campaign e) in Hf. revert Hf.
  generalize (note_campaign_floor_provability e1). clear e1. intros e1 Hf.
  pose proof (vf_ballot _ _ Hf) as Hb. injection Hb as Ht _. rewrite <- Ht in *.
  pose proof (vf_id _ _ Hf) as Hid. unfold ep_id in Hid. rewrite <- Hid.
  destruct (persist_hard_state _ _ _) as [[opid s'] e'] eqn:Hp. cbn [fst snd].
  eapply frame_then_keeps; [exact Hf|].
  eapply keeps_then_frame; [|by apply vf_send_vote_requests].
  eapply keeps_stand; [..|exact Hp]; [reflexivity|done].
Qed.

(** ** Taking office *)

(** The same for a step that leaves the store alone. *)
Definition keeps_at v e e' : Prop :=
  ep_step e e' ∧ ∀ cast, vote_inv e v cast → vote_inv e' v (cast ++ office e').

Lemma keeps_at_keeps e e' s :
  ep_step e e' → (∀ v, stable_models s v → keeps_at v e e') → keeps e s e' s.
Proof. intros Hs Hk _. split; [done|]. intros v cast Hm Hi. exists v. split; [done|]. by apply Hk. Qed.

Lemma keeps_at_frame v e e' : vote_frame e e' → keeps_at v e e'.
Proof. intros Hf. split; [apply Hf|]. eauto using vote_inv_office, vote_inv_frame. Qed.

Lemma keeps_at_trans v e1 e2 e3 : keeps_at v e1 e2 → keeps_at v e2 e3 → keeps_at v e1 e3.
Proof.
  intros [Hs12 H12] [Hs23 H23]. split; [by etrans|]. intros cast Hi.
  eapply vote_inv_sub; [| |exact (H23 _ (H12 _ Hi))]; [set_solver|].
  intros Hl%office_in. set_solver.
Qed.

Lemma vote_core_bound_id e v cast c :
  vote_core e v cast → ep_role e = Candidate → (ep_term e, c) ∈ cast ++ grants e → c = ep_id e.
Proof.
  intros Hc Hr Hin. pose proof (vote_core_bound _ _ _ _ Hc Hin (eq_refl _)) as Hv.
  rewrite (vi_candidate _ _ _ Hc (or_introl Hr)) in Hv. by injection Hv.
Qed.

Lemma vote_inv_elected e v cast :
  vote_core e v cast → ep_role e = Candidate → durably v (ep_ballot e) →
  vote_inv (e <| ep_role := Leader |>) v (cast ++ [(ep_term e, ep_id e)]).
Proof.
  intros Hc Hr Hd. pose proof (vi_candidate _ _ _ Hc (or_introl Hr)) as Hv.
  unfold ep_ballot in Hd. rewrite Hv in Hd.
  apply (vote_core_cast_grow _ _ _ (ep_term e, ep_id e)) in Hc as Hc';
    [|done|intros; by eapply vote_core_bound_id].
  split; [|by intros ?]. destruct Hc'. constructor; try done.
  intros _. cbn. set_solver.
Qed.

Lemma become_leader_inv now log s e v cast :
  vote_core e v cast → ep_role e = Candidate → durably v (ep_ballot e) →
  let e' := (become_leader now log s e).2 in vote_inv e' v (cast ++ office e').
Proof.
  intros Hc Hr Hd e'. pose proof (vf_become_leader now log s e) as Hf. fold e' in Hf.
  pose proof (vote_inv_frame _ _ _ _ Hf (vote_inv_elected _ _ _ Hc Hr Hd)) as Hi.
  pose proof (vf_ballot _ _ Hf) as Hb. injection Hb as Ht _. pose proof (vf_id _ _ Hf) as Hid.
  clearbody e'. change (ep_term e' = ep_term e) in Ht. change (ep_id e' = ep_id e) in Hid.
  unfold office. destruct (ep_role e') eqn:Hr'; cbn [Role_is_leader];
    try (rewrite app_nil_r; eapply vote_inv_sub; [| |exact Hi]; [set_solver|congruence]).
  by rewrite Ht, Hid.
Qed.

Lemma ep_step_become_leader now log s e : ep_step e (become_leader now log s e).2.
Proof. etrans; [|apply vf_become_leader]. by apply ep_step_same_view. Qed.

Lemma keeps_on_vote_response now vr log s e :
  let r := on_vote_response now vr log s e in keeps e s r.2 r.1.2.
Proof.
  unfold on_vote_response. cbv zeta beta.
  set (e1 := e <| ep_votes ::= insert (vr_from vr) (negb (vr_reject vr)) |>).
  assert (Hrec : vote_frame e e1) by (unfold e1; frame).
  destruct (vr_pre_vote vr).
  - destruct (negb (Role_is_pre_candidate _)); [apply keeps_refl|]. destruct (VoteResult_is_won _); [|by apply keeps_frame].
    pose proof (keeps_become_candidate now false log s e1) as Hk.
    destruct (become_candidate _ _ _ _ _) as [s' e']. eauto using frame_then_keeps.
  - destruct (_ || _) eqn:Hg; [apply keeps_refl|]. apply orb_false_iff in Hg as [Hr _].
    destruct (_ && _) eqn:Hw; [|by apply keeps_frame]. apply andb_true_iff in Hw as [_ Hsd].
    assert (Hr' : ep_role e1 = Candidate).
    { change (ep_role e = Candidate). by destruct (ep_role e). }
    pose proof (λ v cast Hc Hd, become_leader_inv now log s e1 v cast Hc Hr' Hd) as Hk.
    pose proof (ep_step_become_leader now log s e1) as Hst.
    destruct (become_leader _ _ _ _) as [log' e2]. cbn [fst snd] in *.
    eapply frame_then_keeps; [exact Hrec|]. intros _. split; [done|].
    intros v cast Hm [Hc Hs]. exists v. split; [done|]. apply Hk; [done|]. by apply Hs.
Qed.

(** ** Releasing a waiting ballot *)

Lemma self_vote_durable_spec e :
  self_vote_durable e = true ↔
  ∀ o p, (o, p) ∈ ep_pending_stable e → is_campaign (ep_term e) p = false.
Proof.
  unfold self_vote_durable. rewrite negb_true_iff, <- not_true_iff_false, existsb_exists.
  setoid_rewrite <- list_elem_of_In. split.
  - intros Hn o p Hin. apply not_true_iff_false. intros Hc. apply Hn. by exists (o, p).
  - intros Hn ([o p] & Hin & Hc). cbn in Hc. rewrite (Hn _ _ Hin) in Hc. done.
Qed.

(** The ballot is on disk: taking it off the queue loses nothing. *)
Lemma vote_inv_take e v cast o p q :
  vote_inv e v cast → ep_pending_stable e ≡ₚ (o, p) :: q →
  (∀ b, pending_ballot (ep_id e) p = Some b → durably v b) →
  vote_inv (e <| ep_pending_stable := q |>) v cast.
Proof.
  intros [Hc Hs] Hq Hp. split.
  - apply (vote_core_raise e); try done; try apply Hc. cbn. rewrite Hq. set_solver.
  - intros Hr Hsd. change (ep_role e = Candidate) in Hr. change (durably v (ep_ballot e)).
    rewrite self_vote_durable_spec in Hsd.
    destruct (is_campaign (ep_term e) p) eqn:Hic.
    + destruct p; try done. apply N.eqb_eq in Hic as ->. apply Hp. cbn. unfold ep_ballot.
      by rewrite (vi_candidate _ _ _ Hc (or_introl Hr)).
    + apply Hs; [done|]. apply self_vote_durable_spec. intros o' p'. rewrite Hq.
      rewrite elem_of_cons. intros [[= -> ->]|Hin]; [done|]. by eapply Hsd.
Qed.

Lemma grants_send e to m :
  grants (send to m e) ⊆ grants e ++ option_list (grant_of {| out_to := to; out_message := m |}).
Proof.
  unfold send. destruct (is_poisoned e); [set_solver|]. unfold grants.
  change (ou_outgoing (ep_outputs (e <| ep_outputs ::= λ o, _ |>))) with
    (ou_outgoing (ep_outputs e) ++ [{| out_to := to; out_message := m |}]).
  rewrite omap_app. cbn [omap list_omap]. by destruct (grant_of _).
Qed.

Lemma vote_inv_send_grant e v cast to t :
  vote_inv e v cast → t = ep_term e → ep_voted_for e = Some to → durably v (t, Some to) →
  vote_inv (send to (vote_response t (cfg_id (ep_config e)) false false) e) v cast.
Proof.
  intros [Hc Hs] -> Hv Hd. set (m := vote_response _ _ _ _).
  pose proof (vote_core_cast_grow _ _ _ (ep_term e, to) Hc Hd) as Hg.
  assert (Hc' : vote_core e v (cast ++ [(ep_term e, to)])).
  { apply Hg. intros c Hin. pose proof (vote_core_bound _ _ _ _ Hc Hin (eq_refl _)). cbn in *. congruence. }
  pose proof (grants_send e to m) as Hs'.
  assert (He : ∀ g, g ∈ cast ++ grants (send to m e) → g ∈ (cast ++ [(ep_term e, to)]) ++ grants e).
  { intros g. rewrite !elem_of_app. intros [?|Hin%Hs']; [by auto|]. revert Hin.
    rewrite elem_of_app. cbn. set_solver. }
  clear Hs' Hg. unfold send in *. destruct (is_poisoned e) eqn:Hq; [by split|].
  split; [|exact Hs]. destruct Hc as [Hc1 Hc2 Hc3 Hc4 Hc5 Hc6 Hc7 _ _ Hc8 Hc9].
  constructor; try done.
  - intros g Hin%He. by apply Hc'.
  - intros t c1 c2 H1%He H2%He. by eapply (vi_once _ _ _ Hc').
Qed.

Lemma release_stable_pending_inv now p log s e v cast :
  vote_inv e v cast → (∀ b, pending_ballot (ep_id e) p = Some b → durably v b) →
  let e' := (release_stable_pending now p log s e).2 in vote_inv e' v (cast ++ office e').
Proof.
  intros Hi Hp. unfold release_stable_pending.
  destruct p; try by apply vote_inv_office.
  - destruct (_ && _) eqn:Hg; [|by apply vote_inv_office]. apply vote_inv_office.
    apply andb_true_iff in Hg as [Ht%N.eqb_eq Hv%bool_decide_eq_true].
    apply vote_inv_send_grant; auto.
  - destruct (_ && VoteResult_is_won _) eqn:Hg; [|by apply vote_inv_office].
    apply andb_true_iff in Hg as [[Ht%N.eqb_eq Hr]%andb_true_iff _].
    assert (Hr' : ep_role e = Candidate) by (by destruct (ep_role e)). destruct Hi as [Hc _].
    apply become_leader_inv; [done..|]. apply Hp. cbn. unfold ep_ballot.
    by rewrite (vi_candidate _ _ _ Hc (or_introl Hr')), Ht.
Qed.

Lemma ep_step_release now p log s e : ep_step e (release_stable_pending now p log s e).2.
Proof.
  unfold release_stable_pending. destruct p; try reflexivity; destruct (_ && _); try reflexivity.
  - apply ep_step_same_view. unfold send. by destruct (is_poisoned e).
  - apply ep_step_become_leader.
Qed.

Lemma take_by_opid_perm {A} opid (q : list (OpId * A)) p q' :
  take_by_opid opid q = (Some p, q') → q ≡ₚ (opid, p) :: q'.
Proof.
  revert q'. induction q as [|[o a] q IH]; intros q'; simpl; [done|].
  case_decide as Ho; [intros [= -> ->]; by subst|].
  destruct (take_by_opid opid q) as [r q1]. intros [= -> <-].
  rewrite (IH q1) by done. apply Permutation_swap.
Qed.

Lemma take_by_opid_None {A} opid (q : list (OpId * A)) q' :
  take_by_opid opid q = (None, q') → q' = q.
Proof.
  revert q'. induction q as [|[o a] q IH]; intros q'; simpl; [by intros [= <-]|].
  case_decide; [done|]. destruct (take_by_opid opid q) as [[] q1]; [done|].
  intros [= <-]. by rewrite (IH q1).
Qed.

Lemma durable_write_covers e v cast opid p b :
  vote_core e v cast → (opid, p) ∈ ep_pending_stable e → pending_ballot (ep_id e) p = Some b →
  opid ∈ (wv_done v).*1 → durably v b.
Proof.
  intros Hc Hin Hb ([o h] & -> & Hd)%list_elem_of_fmap. cbn [fst] in Hin.
  unfold durably. etrans; [|apply (vi_done _ _ _ Hc _ Hd)].
  eapply vi_pending; [done..|]. unfold writes. set_solver.
Qed.

Lemma release_taken_keeps now opid log s e v :
  opid ∈ (wv_done v).*1 →
  keeps_at v e
    (let '(p, e) := take_stable_pending opid e in
     match p with
     | Some p => release_stable_pending now p log s e
     | None => (log, e)
     end).2.
Proof.
  intros Hd. unfold take_stable_pending.
  destruct (take_by_opid opid _) as [[p|] q] eqn:Ht.
  - apply take_by_opid_perm in Ht. split.
    { etrans; [|apply ep_step_release]. by apply ep_step_same_view. }
    intros cast Hi.
    assert (Hp : ∀ b, pending_ballot (ep_id e) p = Some b → durably v b).
    { intros b Hb. eapply durable_write_covers; [apply Hi| |done..]. rewrite Ht. set_solver. }
    exact (release_stable_pending_inv now p log s _ v cast (vote_inv_take _ _ _ _ _ _ Hi Ht Hp) Hp).
  - apply take_by_opid_None in Ht as ->. apply keeps_at_frame. by apply (vote_frame_conv _ e).
Qed.

Lemma on_stable_wrote_keeps now opid log s e v :
  opid ∈ (wv_done v).*1 → keeps_at v e (on_stable_wrote now opid log s e).2.
Proof.
  intros Hd. unfold on_stable_wrote.
  assert (Hf : vote_frame e (e <| ep_durable ::= note_wrote opid |>)) by frame.
  eapply keeps_at_trans; [exact (keeps_at_frame _ _ _ Hf)|]. clear Hf.
  generalize (e <| ep_durable ::= note_wrote opid |>). clear e. intros e.
  eapply keeps_at_trans; [by apply (release_taken_keeps now opid log s)|]. apply keeps_at_frame.
  destruct (take_stable_pending _ _) as [p e1].
  destruct (match p with Some _ => _ | None => _ end) as [log' e2].
  by apply vf_flush_term_gated_acks.
Qed.

Lemma ep_step_on_stable_wrote now opid log s e : ep_step e (on_stable_wrote now opid log s e).2.
Proof.
  unfold on_stable_wrote.
  assert (Hf : vote_frame e (e <| ep_durable ::= note_wrote opid |>)) by frame.
  etrans; [apply (vf_step _ _ Hf)|]. clear Hf.
  generalize (e <| ep_durable ::= note_wrote opid |>). clear e. intros e.
  assert (Ht : ep_step e (take_stable_pending opid e).2).
  { unfold take_stable_pending. destruct (take_by_opid _ _). by apply ep_step_same_view. }
  destruct (take_stable_pending _ _) as [[p|] e1]; cbn [snd] in Ht; (etrans; [exact Ht|]).
  - pose proof (ep_step_release now p log s e1) as Hr.
    destruct (release_stable_pending _ _ _ _ _) as [log' e2]. cbn [snd] in *.
    etrans; [exact Hr|]. by apply vf_step, vf_flush_term_gated_acks.
  - by apply vf_step, vf_flush_term_gated_acks.
Qed.

Lemma keeps_wrote now opid log s s' e :
  stable_poll s = (Some (Ok (Wrote opid)), s') →
  keeps e s (on_stable_wrote now opid log s' e).2 s'.
Proof.
  intros Hp _. split; [apply ep_step_on_stable_wrote|]. intros v cast Hm Hi. exists v. split.
  - pose proof (models_poll _ _ Hm) as Hm'. by rewrite Hp in Hm'.
  - apply on_stable_wrote_keeps; [|done]. eapply models_poll_wrote; [done|]. by rewrite Hp.
Qed.

(** ** Releasing what the durable state proves *)

Lemma take_proved_perm hs (me : I) q p q' :
  take_proved hs me q = Some (p, q') → (∃ o, q ≡ₚ (o, p) :: q') ∧ proved_by hs me p = true.
Proof.
  revert q'. induction q as [|[o a] q IH]; intros q'; simpl; [done|].
  destruct (proved_by hs me a) eqn:Ha; [intros [= -> ->]; eauto|].
  destruct (take_proved hs me q) as [[r q1]|]; [|done]. intros [= -> <-].
  destruct (IH q1 eq_refl) as [[o' Ho] Hr]. split; [|done]. exists o'.
  rewrite Ho. apply Permutation_swap.
Qed.

Lemma proved_by_ballot hs (me : I) p b :
  proved_by hs me p = true → pending_ballot me p = Some b → b = hs_ballot hs.
Proof.
  unfold proved_by, pending_ballot, hs_ballot. destruct p; try done;
    intros [->%N.eqb_eq Hv%bool_decide_eq_true]%andb_true_iff [= <-]; by rewrite Hv.
Qed.

Lemma release_proved_keeps fuel now log s e v :
  keeps_at v e (release_proved fuel now (wv_durable v) log s e).2.
Proof.
  revert log e. induction fuel as [|fuel IH]; intros log e; simpl; [by apply keeps_at_frame|].
  destruct (take_proved _ _ _) as [[p q]|] eqn:Ht; [|by apply keeps_at_frame].
  apply take_proved_perm in Ht as [[o Hq] Hp].
  assert (Hd : ∀ b, pending_ballot (ep_id e) p = Some b → durably v b).
  { intros b ->%(proved_by_ballot _ _ _ _ Hp). unfold durably. reflexivity. }
  assert (Hr : keeps_at v e
    (release_stable_pending now p log s (e <| ep_pending_stable := q |>)).2).
  { split; [etrans; [|apply ep_step_release]; by apply ep_step_same_view|].
    intros cast Hi. exact (release_stable_pending_inv now p log s _ v cast
      (vote_inv_take _ _ _ _ _ _ Hi Hq Hd) Hd). }
  destruct (release_stable_pending _ _ _ _ _) as [log' e']. cbn [snd] in Hr.
  destruct (is_poisoned e'); [done|]. eauto using keeps_at_trans.
Qed.

Lemma ep_step_release_proved fuel now hs log s e : ep_step e (release_proved fuel now hs log s e).2.
Proof.
  revert log e. induction fuel as [|fuel IH]; intros log e; simpl; [reflexivity|].
  destruct (take_proved _ _ _) as [[p q]|]; [|reflexivity].
  pose proof (ep_step_release now p log s (e <| ep_pending_stable := q |>)) as Hr.
  destruct (release_stable_pending _ _ _ _ _) as [log' e']. cbn [snd] in Hr.
  assert (Hs : ep_step e e') by (etrans; [|exact Hr]; by apply ep_step_same_view).
  destruct (is_poisoned e'); [done|]. by etrans.
Qed.

Lemma ep_step_reconcile now log s e :
  ep_step e (reconcile_durable_hard_state now log s e).2.
Proof.
  unfold reconcile_durable_hard_state. destruct (_ || _); [reflexivity|].
  destruct (stable_durable_hard_state s) as [hs|]; [|reflexivity].
  match goal with |- context [release_proved ?f ?n ?h ?l ?s ?x] =>
    assert (Hf : vote_frame e x) by frame;
    pose proof (ep_step_release_proved f n h l s x) as Hr end.
  destruct (release_proved _ _ _ _ _ _) as [[[] log'] e2]; cbn [snd] in Hr |- *;
    (etrans; [apply (vf_step _ _ Hf)|]); [|done].
  etrans; [exact Hr|]. by apply vf_step, vf_flush_term_gated_acks.
Qed.

Lemma keeps_reconcile now log s e :
  keeps e s (reconcile_durable_hard_state now log s e).2 s.
Proof.
  apply keeps_at_keeps; [apply ep_step_reconcile|]. intros v Hm. unfold reconcile_durable_hard_state.
  destruct (_ || _); [by apply keeps_at_frame|].
  destruct (stable_durable_hard_state s) as [hs|] eqn:Hp; [|by apply keeps_at_frame].
  apply (models_probe _ v) in Hp as ->; [|done].
  match goal with |- context [release_proved _ _ _ _ _ ?x] =>
    assert (Hf : vote_frame e x) by frame; revert Hf; generalize x end.
  intros e1 Hf. pose proof (release_proved_keeps (length (ep_pending_stable e1)) now log s e1 v) as Hr.
  eapply keeps_at_trans; [exact (keeps_at_frame _ _ _ Hf)|].
  destruct (release_proved _ _ _ _ _ _) as [[[] log'] e2]; [|done].
  eapply keeps_at_trans; [exact Hr|]. by apply keeps_at_frame, vf_flush_term_gated_acks.
Qed.

(** The pending queue only shrinks, so its length is fuel enough: the loop ends
    with nothing left that the durable state proves. *)
Lemma release_pending_stable now p log s e :
  ep_pending_stable (release_stable_pending now p log s e).2 = ep_pending_stable e.
Proof.
  unfold release_stable_pending. destruct p; try done; destruct (_ && _); try done.
  - unfold send. by destruct (is_poisoned e).
  - exact (vf_pending _ _ (vf_become_leader now log s e)).
Qed.

Lemma release_id now p log s e :
  ep_id (release_stable_pending now p log s e).2 = ep_id e.
Proof.
  unfold release_stable_pending. destruct p; try done; destruct (_ && _); try done.
  - unfold send. by destruct (is_poisoned _).
  - exact (vf_id _ _ (vf_become_leader now log s _)).
Qed.

Lemma take_proved_None hs (me : I) q :
  take_proved hs me q = None → Forall (λ w, proved_by hs me w.2 = false) q.
Proof.
  induction q as [|[o p] q IH]; simpl; [by constructor|].
  destruct (proved_by hs me p) eqn:Hp; [done|].
  destruct (take_proved hs me q) as [[]|]; [done|]. intros _. constructor; auto.
Qed.

Lemma release_proved_fuel fuel now hs log s e :
  (length (ep_pending_stable e) ≤ fuel)%nat →
  let r := release_proved fuel now hs log s e in
  if r.1.1 then Forall (λ w, proved_by hs (ep_id e) w.2 = false) (ep_pending_stable r.2)
  else is_poisoned r.2 = true.
Proof.
  revert log e. induction fuel as [|fuel IH]; intros log e Hl; simpl.
  { destruct (ep_pending_stable e); [by constructor|]. simpl in Hl. lia. }
  destruct (take_proved _ _ _) as [[p q]|] eqn:Ht; [|by apply take_proved_None].
  apply take_proved_perm in Ht as [[o Hq] _].
  pose proof (release_pending_stable now p log s (e <| ep_pending_stable := q |>)) as Hp.
  pose proof (release_id now p log s (e <| ep_pending_stable := q |>)) as Hid.
  destruct (release_stable_pending _ _ _ _ _) as [log' e']. cbn [snd] in Hp, Hid.
  destruct (is_poisoned e') eqn:Hpo; [done|]. change (ep_id e' = ep_id e) in Hid. rewrite <- Hid.
  apply IH. rewrite Hp. apply Permutation_length in Hq. simpl in Hq. cbn. lia.
Qed.

(** The reconciliation loop ends.  With as much fuel as there are waiting
    ballots, the release loop of [reconcile_durable_hard_state] stops either
    because the node poisoned itself, or with no waiting ballot left that the
    durable hard state proves; and its flag says which. *)
Theorem release_proved_drains now hs log s e :
  let r := release_proved (length (ep_pending_stable e)) now hs log s e in
  if r.1.1 then Forall (λ w, proved_by hs (ep_id e) w.2 = false) (ep_pending_stable r.2)
  else is_poisoned r.2 = true.
Proof. by apply release_proved_fuel. Qed.

(** ** The handlers *)

Lemma keeps_on_timeout_now now tn log s e :
  let r := on_timeout_now now tn log s e in keeps e s r.2 r.1.
Proof.
  unfold on_timeout_now. case_decide; [apply keeps_refl|].
  destruct (negb _); [apply keeps_refl|]. apply keeps_become_candidate.
Qed.

Lemma keeps_election_timer_fired now log s e :
  let r := election_timer_fired now log s e in keeps e s r.2 r.1.
Proof.
  unfold election_timer_fired.
  assert (Hf : vote_frame e (e <| ep_election_deadline := None |>)) by frame.
  revert Hf. generalize (e <| ep_election_deadline := None |>). intros e1 Hf.
  apply (frame_then_keeps e e1); [done|]. destruct (is_voter_self e1); [|apply keeps_refl].
  destruct (cfg_pre_vote _); [|apply keeps_become_candidate].
  pose proof (vf_become_pre_candidate e1 now log e1 (reflexivity _)) as Hp.
  destruct (become_pre_candidate _ _ _) as [[] e2]; cbn [snd] in Hp.
  - eapply frame_then_keeps; [exact Hp|]. apply keeps_become_candidate.
  - by apply keeps_frame.
Qed.

Lemma keeps_handle_timeout_idle now log s e :
  let r := handle_timeout_idle now log s e in keeps e s r.2 r.1.
Proof.
  unfold handle_timeout_idle. destruct (is_poisoned e); [apply keeps_refl|].
  assert (Hf : vote_frame e (drive_cure_sweep now s (drive_stuck_advertisement now e))).
  { by apply vf_drive_cure_sweep, vf_drive_stuck. }
  revert Hf. generalize (drive_cure_sweep now s (drive_stuck_advertisement now e)). intros e1 Hf.
  apply (frame_then_keeps e e1); [done|].
  destruct (due_at _ _); [|by apply keeps_frame, vf_reconcile_election_timer].
  pose proof (keeps_election_timer_fired now log s e1) as Hk.
  destruct (election_timer_fired _ _ _ _) as [s2 e2]. cbn [fst snd] in Hk |- *.
  eapply keeps_then_frame; [exact Hk|]. by apply vf_reconcile_election_timer.
Qed.
End vote.
