(* ===== verification/BootFrame.v ===== *)
(** * What a restart rebuilds

    The endpoint of [Boot.restart_inner] is well formed whatever the stores hold,
    and carries the ballot of the durable hard state. *)

From S2P Require Import Prelude Bytes Num Quorum Progress ProgressMap Conf Tracker ConfChange.
From S2P Require Import ConfChangeProps Config Lease Prng ReadOnly Data Frame Entry Storage Shape.
From S2P Require Import EngineStable Restart Forwarded Wire Message Codec Endpoint Merge.
From S2P Require Import Invariant Persistence Replication Election Propose Handlers Commit Apply.
From S2P Require Import Boot VoteFrame Frames ApplyFrame Vote.

Section boot.
Context {I F R L S : Type} `{!NodeId I, !StateMachine F, !Rng R, !LogStore L, !StableStore I S}.
Context {DI : Data I} {BS : BuffaSizes} {DC : Data sm_command} {DS : Data sm_snapshot}.
Context {BD : BuffaDecode} {BC : Buffa PbConfChangeV2} `{!StableWriteLaws I S}.
Abbreviation Endpoint := (Endpoint I F R).
Abbreviation Framed := (@Framed I F R _ _).
Implicit Types (a e : Endpoint) (now : Now) (log : L) (s : S) (config : Config I).

(** The index of the stored snapshot fits its width. *)
Definition snapshot_u64 s : Prop :=
  ∀ m d, stable_snapshot s = Some (m, d) → is_u64 (sm_last_index m).

Lemma voters_valid (voters : list I) :
  voters ≠ [] → ConfState_is_valid (ConfState_from_voters voters) = true.
Proof.
  intros Hv. apply ConfState_is_valid_spec. constructor; cbn; try set_solver.
  destruct voters; [done|]. set_solver.
Qed.

Lemma voters_inv (voters : list I) last m b :
  voters ≠ [] → conf_inv (Tracker_from_conf_state (ConfState_from_voters voters) last m b).
Proof. intros. by apply conf_inv_from_conf_state, voters_valid. Qed.

Lemma restore_snapshot_inv config snap fsm tr r fsm' applied tr' :
  restore_snapshot config snap fsm tr = (r, fsm', applied, tr') →
  conf_inv tr → (∀ m d, snap = Some (m, d) → is_u64 (sm_last_index m)) →
  conf_inv tr' ∧ is_u64 applied.
Proof.
  assert (H0 : is_u64 0) by (unfold is_u64; lia).
  unfold restore_snapshot. intros Hr Ht Hs. destruct snap as [[m d]|]; [|by simplify_eq].
  specialize (Hs m d eq_refl). destruct (_ =? u64_max); [by simplify_eq|].
  destruct (negb _) eqn:Hc; [by simplify_eq|]. apply negb_false_iff in Hc.
  destruct (_ <=? _); [by simplify_eq|]. destruct (decode_exact d) as [snap|]; [|by simplify_eq].
  destruct (sm_restore snap fsm) as [[] fsm2]; simplify_eq; [|done].
  split; [|done]. by apply conf_inv_from_conf_state.
Qed.

Lemma recover_inv config now fsm prior hs log s :
  cfg_voters config ≠ [] → snapshot_u64 s →
  let rc := recover config now fsm prior hs log s in
  conf_inv (rc_tracker rc) ∧ is_u64 (rc_applied rc).
Proof.
  intros Hv Hs. unfold recover. cbv zeta.
  destruct (adopted_snapshot hs s log) as [snap r] eqn:Ha.
  assert (Hsn : ∀ m d, snap = Some (m, d) → is_u64 (sm_last_index m)).
  { intros m d ->. revert Ha. unfold adopted_snapshot.
    destruct (stable_snapshot s) as [[m' d']|] eqn:Hst; [|done].
    destruct (snapshot_is_adopted _ _ _); [|done]. intros [= -> -> <-]. by eapply Hs. }
  destruct (restore_snapshot _ _ _ _) as [[[r2 fsm2] applied] tr] eqn:Hr.
  destruct (restart_log _ _ _ _) as [p3 log3]. destruct (restart_lease _ _ _ _ _) as [[p4 fl] fe].
  destruct (recovered_floor _ _ _) as [p5 w]. destruct (recovered_floor _ _ _) as [p6 w'].
  destruct (recovered_floor _ _ _) as [p7 w'']. cbn.
  eapply restore_snapshot_inv; [exact Hr| |done]. by apply voters_inv.
Qed.

Lemma restarted_endpoint_wf config now (rng : R) epoch hs (rc : Recovered (I := I) (F := F) (L := L)) :
  conf_inv (rc_tracker rc) → is_u64 (rc_applied rc) → is_u64 (hs_term hs) →
  ep_wf (restarted_endpoint config now rng epoch hs rc).
Proof.
  intros Hc Ha Ht. constructor; try done. cbn. lia.
Qed.

Lemma new_endpoint_wf config now (rng : R) (fsm : F) :
  cfg_voters config ≠ [] → ep_wf (Endpoint_new_with_rng config now rng fsm).
Proof.
  intros Hv. unfold Endpoint_new_with_rng. cbv zeta.
  match goal with |- ep_wf (arm_election_timer now ?x) => set (e := x) end.
  apply (vf_step _ _ (vf_arm_election_timer e now e (reflexivity e))).
  constructor; try done; try (cbn; unfold is_u64; lia). by apply voters_inv.
Qed.

(** ** The replay *)

#[global] Instance fr_replay_loop fuel log : Framed (replay_loop fuel log).
Proof.
  intros a. induction fuel as [|fuel IH]; intros e He; cbn [replay_loop]; [done|].
  pose proof (fr_apply_committed log a e He) as Hf.
  destruct (apply_committed log e) as [[] e1]; cbn [snd] in Hf; try done. by apply IH.
Qed.

#[global] Instance fr_restart_freeze_queue log : Framed (restart_freeze_queue log).
Proof. intros a e He. unfold restart_freeze_queue. frame. Qed.

Lemma vf_drop_events a e :
  vote_frame a e → vote_frame a (e <| ep_outputs ::= λ o, o <| ou_events := [] |> |>).
Proof. intros He. by apply vote_frame_outputs. Qed.

(** The endpoint before its lease promise is written. *)
Definition booted config now (rng : R) (fsm : F) (epoch : u64) prior log s : Endpoint :=
  let hs := stable_hard_state s in
  let rc := recover config now fsm prior hs log (stable_discard_snapshot_staging s) in
  let e := restart_freeze_queue (rc_log rc) (restarted_endpoint config now rng epoch hs rc) in
  if is_poisoned e then e else replay_loop (replay_fuel e) (rc_log rc) e.

Lemma booted_frame config now (rng : R) (fsm : F) epoch prior log s :
  let hs := stable_hard_state s in
  let rc := recover config now fsm prior hs log (stable_discard_snapshot_staging s) in
  vote_frame (restarted_endpoint config now rng epoch hs rc)
    (booted config now rng fsm epoch prior log s).
Proof.
  unfold booted. cbv zeta.
  match goal with |- vote_frame ?x _ => generalize x end. intros e.
  match goal with |- context [restart_freeze_queue ?l e] => generalize l end. intros l. frame.
Qed.

Lemma vf_persist_lease_floor s e : vote_frame e (persist_lease_floor s e).2.
Proof.
  unfold persist_lease_floor. destruct (_ && _); [|done].
  pose proof (vote_frame_mint e e (reflexivity e)) as Hf.
  destruct (mint_op_id e) as [id e1]. cbn [snd] in Hf. unfold submit_write.
  destruct (is_poisoned e1); cbn [snd]; frame.
Qed.

(** The write carries the ballot the store shows, which is the node's. *)
Lemma persist_lease_floor_inv s e v cast :
  stable_models s v → wv_unflushed v = [] → ep_ballot e = hs_ballot (wv_durable v) →
  vote_inv e v cast →
  ∃ v', stable_models (persist_lease_floor s e).1 v' ∧ vote_inv (persist_lease_floor s e).2 v' cast.
Proof.
  intros Hm Hn Hb Hi. unfold persist_lease_floor. destruct (_ && _); [|by eauto].
  destruct (mint_op_id e) as [opid e1] eqn:Hid.
  destruct (submit_write _ _ _ _) as [s' e'] eqn:Hs.
  eapply mint_submit_persists in Hs as (v' & Hm' & Hp); [|done|apply Hi| |done].
  - exists v'. split; [done|]. by eapply vote_inv_persists.
  - rewrite (models_hard_state _ v); [done..|]. by rewrite Hn.
Qed.

(** Whatever the stores hold, the endpoint is well formed. *)
Lemma restart_inner_wf config now (rng : R) (fsm : F) epoch prior log s :
  cfg_voters config ≠ [] → snapshot_u64 (stable_discard_snapshot_staging s) →
  is_u64 (hs_term (stable_hard_state s)) →
  let e := (restart_inner config now rng fsm epoch prior log s).2 in
  ep_wf e ∧ ep_config e = config.
Proof.
  intros Hv Hs Ht. unfold restart_inner. cbv zeta.
  pose proof (booted_frame config now rng fsm epoch prior log s) as Hf. cbv zeta in Hf.
  fold (booted config now rng fsm epoch prior log s).
  destruct (recover_inv config now fsm prior (stable_hard_state s) log _ Hv Hs) as [Hc Ha].
  pose proof (restarted_endpoint_wf config now rng epoch (stable_hard_state s) _ Hc Ha Ht) as Hw.
  assert (Hcfg : ep_config (restarted_endpoint config now rng epoch (stable_hard_state s)
     (recover config now fsm prior (stable_hard_state s) log (stable_discard_snapshot_staging s)))
     = config) by done.
  generalize dependent (booted config now rng fsm epoch prior log s). intros b Hb.
  pose proof (vf_persist_lease_floor (stable_discard_snapshot_staging s) b) as Hp.
  destruct (persist_lease_floor _ b) as [s' e1]. cbn [snd] in *.
  match goal with |- ep_wf ?e ∧ _ => assert (Hall : vote_frame b e) end.
  { etrans; [exact Hp|]. apply vf_arm_election_timer, vf_drop_events. reflexivity. }
  pose proof (transitivity (vf_step _ _ Hb) (vf_step _ _ Hall)) as Hst.
  split; [by apply (st_wf _ _ Hst)|]. by rewrite (st_config _ _ Hst).
Qed.

(** The endpoint votes and campaigns from the ballot the store shows. *)
Lemma restart_inner_ballot config now (rng : R) (fsm : F) epoch prior log s :
  ep_ballot (restart_inner config now rng fsm epoch prior log s).2 = hs_ballot (stable_hard_state s).
Proof.
  unfold restart_inner. cbv zeta.
  pose proof (booted_frame config now rng fsm epoch prior log s) as Hf. cbv zeta in Hf.
  fold (booted config now rng fsm epoch prior log s).
  generalize dependent (booted config now rng fsm epoch prior log s). intros b Hb.
  pose proof (vf_persist_lease_floor (stable_discard_snapshot_staging s) b) as Hp.
  destruct (persist_lease_floor _ b) as [s' e1]. cbn [snd] in *.
  match goal with |- ep_ballot ?e = _ => assert (Hall : vote_frame b e) end.
  { etrans; [exact Hp|]. apply vf_arm_election_timer, vf_drop_events. reflexivity. }
  rewrite (vf_ballot _ _ Hall), (vf_ballot _ _ Hb). done.
Qed.
End boot.
