(* ===== verification/SnapshotFrame.v ===== *)
(** * Receiving a snapshot leaves a vote alone

    The follower's side of [Snapshot]: admission, staging and installation keep
    the frame of [VoteFrame] and the record of votes of [Vote], and every
    snapshot they let in is one the endpoint may install. *)

From S2P Require Import Prelude Bytes Num Quorum Progress ProgressMap Conf Tracker ConfChange.
From S2P Require Import ConfChangeProps Config Lease Prng ReadOnly Data Frame Entry Storage Shape.
From S2P Require Import EngineStable Restart Forwarded Wire Message Codec Endpoint Merge.
From S2P Require Import Invariant Persistence Replication Election Propose Handlers Commit Apply.
From S2P Require Import Reads Snapshot VoteFrame Frames ApplyFrame HandlerFrame Vote.

Section snapshot.
Context {I F R L S : Type} `{!NodeId I, !StateMachine F, !Rng R, !LogStore L, !StableStore I S}.
Context {DI : Data I} {BS : BuffaSizes} {DC : Data sm_command} {DS : Data sm_snapshot}.
Context {BD : BuffaDecode} {BC : Buffa PbConfChangeV2} `{!StableWriteLaws I S}.
Abbreviation Endpoint := (Endpoint I F R).
Abbreviation Framed := (@Framed I F R _ _).
Abbreviation FramedSnd := (@FramedSnd I F R _ _ _).
Implicit Types (a e : Endpoint) (now : Now) (log : L) (s : S) (m : InstallSnapshot I).
Implicit Types (meta : SnapshotMeta I).

(** ** Stores *)

Lemma keeps_store e s e' s' :
  vote_frame e e' → (∀ v, stable_models s v → stable_models s' v) → keeps e s e' s'.
Proof. intros Hf Hs. apply keeps_intro; [apply Hf|]. eauto using vote_inv_frame. Qed.

Lemma models_submit_snapshot id meta d s e v :
  stable_models s v → stable_models (submit_snapshot id meta d s e) v.
Proof. unfold submit_snapshot. destruct (is_poisoned e); [done|]. apply models_snapshot. Qed.

(** ** Transfers in the state *)

Lemma vote_frame_snapshot a e f :
  vote_frame a e →
  (ep_wf e → ∀ r, ss_snapshot_recv (f (ep_snapshot e)) = Some r →
     ConfState_is_valid (sm_conf (sv_meta r)) = true) →
  (ep_wf e → ∀ o n d l, ss_pending_install (f (ep_snapshot e)) = Some (o, n, d, l) →
     admitted e n) →
  vote_frame a (e <| ep_snapshot ::= f |>).
Proof.
  intros Hf Hr Hi. apply (vote_frame_step a e); try done. constructor; try done.
  intros Hwf. split; [|by split_and!]. specialize (Hr Hwf). specialize (Hi Hwf).
  destruct Hwf. constructor; try done.
Qed.

(** What a well-formed state provides may be used for a step from it. *)
Lemma keeps_wf e s e' s' : (ep_wf e → keeps e s e' s') → keeps e s e' s'.
Proof. intros Hk Hw. by apply Hk. Qed.

Lemma admitted_mint e meta : admitted e meta → admitted (mint_op_id e).2 meta.
Proof.
  unfold mint_op_id. cbn [snd]. case_decide; [|done]. by intros (? & ? & _).
Qed.

Lemma admitted_persist base s e opid s' e' meta :
  persist_hard_state base s e = (opid, s', e') → admitted e meta → admitted e' meta.
Proof.
  unfold persist_hard_state. intros Hp Ha%admitted_mint. revert Hp.
  destruct (mint_op_id e) as [id e1]. unfold submit_write. cbn [snd] in Ha.
  destruct (is_poisoned e1) eqn:Hq; intros [= <- <- <-]; [|done].
  destruct Ha as (? & ? & _). split_and!; try done. intros Hq'. change (is_poisoned e1 = false) in Hq'. congruence.
Qed.

Lemma admitted_ensure_term s e meta : admitted e meta → admitted (ensure_term_durable s e).2 meta.
Proof.
  intros Ha. unfold ensure_term_durable. destruct (is_poisoned e); [done|].
  destruct (_ || _); [done|]. destruct (persist_hard_state _ _ _) as [[opid s'] e'] eqn:Hp.
  by eapply admitted_persist.
Qed.

#[global] Instance fr_covered log meta b : FramedSnd (covered_by_local_history log meta b).
Proof. intros a e He. unfold covered_by_local_history. frame. Qed.

Lemma covered_same log meta b e c e' :
  covered_by_local_history log meta b e = (Some c, e') →
  e' = e ∧ (if c then sm_fork_id meta = spl_fork_id (ep_split e)
            else sm_fork_id meta ≠ spl_fork_id (ep_split e) ∨ b < sm_last_index meta).
Proof.
  unfold covered_by_local_history, read_log_term. case_decide as Hf; [by intros [= <- <-]; auto|].
  destruct (_ <=? b) eqn:Hb; [by intros [= <- <-]|]. apply N.leb_gt in Hb.
  destruct (_ <=? _); [|intros [= <- <-]; auto].
  destruct (log_term log _); intros [= <- <-]. split; [done|]. destruct (_ =? _); auto.
Qed.

Lemma vote_frame_drop_recv a e :
  vote_frame a e → vote_frame a (e <| ep_snapshot ::= λ x, x <| ss_snapshot_recv := None |> |>).
Proof. intros He. apply vote_frame_snapshot; [done|done|]. intros Hwf. apply Hwf. Qed.

Lemma keeps_drop_recv s e : let r := drop_recv s e in keeps e s r.2 r.1.
Proof.
  apply keeps_store; [by apply vote_frame_drop_recv|]. intros v. apply models_discard.
Qed.

Lemma keeps_reclaim log s e :
  let r := reclaim_stale_snapshot_recv log s e in keeps e s r.2 r.1.2.
Proof.
  unfold reclaim_stale_snapshot_recv. destruct (ss_snapshot_recv _) as [r|]; [|apply keeps_refl].
  pose proof (fr_covered log (sv_meta r) (N.min (ep_commit e) (ack_watermark e)) e e (reflexivity e))
    as Hf.
  destruct (covered_by_local_history _ _ _ _) as [[[]|] e1]; cbn [snd fst] in *;
    [|by apply keeps_frame..].
  apply keeps_store; [by apply vote_frame_drop_recv|]. intros v. apply models_discard.
Qed.

(** ** Capture *)

Lemma keeps_submit_capture meta snap s e :
  let r := submit_capture meta snap s e in keeps e s r.2 r.1.
Proof.
  unfold submit_capture. pose proof (vote_frame_mint e e (reflexivity e)) as Hf.
  destruct (mint_op_id e) as [id e1]. cbn [fst snd] in *.
  apply keeps_store; [frame|]. intros v. apply models_submit_snapshot.
Qed.

Lemma keeps_maybe_snapshot log s e : let r := maybe_snapshot log s e in keeps e s r.2 r.1.
Proof.
  unfold maybe_snapshot. do 4 (destruct (_ : bool); [apply keeps_refl|]).
  destruct (sm_take_snapshot _) as [snap|]; [|apply keeps_frame; cbn; frame].
  pose proof (fr_read_log_term log (ep_applied e) e e (reflexivity e)) as Hf.
  destruct (read_log_term _ _ _) as [[t|] e1]; cbn [snd fst] in *; [|by apply keeps_frame].
  eapply frame_then_keeps; [exact Hf|]. apply keeps_submit_capture.
Qed.

Lemma keeps_capture_absorb log s e :
  let r := capture_absorb_snapshot log s e in keeps e s r.2 r.1.2.
Proof.
  unfold capture_absorb_snapshot. destruct (is_poisoned e); [apply keeps_refl|].
  destruct (sm_take_snapshot _) as [snap|]; [|apply keeps_frame; cbn; frame].
  pose proof (fr_read_log_term log (ep_applied e) e e (reflexivity e)) as Hf.
  destruct (read_log_term _ _ _) as [[t|] e1]; cbn [snd fst] in *; [|apply keeps_frame; frame].
  eapply frame_then_keeps; [exact Hf|].
  match goal with |- context [submit_capture ?m ?x s e1] =>
    pose proof (keeps_submit_capture m x s e1) as Hk; by destruct (submit_capture m x s e1) end.
Qed.

(** ** Adoption *)

Lemma vote_frame_adopt_meta a meta e :
  vote_frame a e →
  sm_fork_id meta = spl_fork_id (ep_split e) ∨ ss_pending_install (ep_snapshot e) = None →
  vote_frame a (adopt_meta meta e).
Proof.
  intros Hf Hm. apply (vote_frame_step a e); try done. constructor; try done.
  intros Hwf. pose proof (wf_install _ Hwf) as Hi. destruct Hwf. split; [|by split_and!].
  constructor; try done. intros o n d l Hs. change (ss_pending_install (ep_snapshot e) = Some (o, n, d, l)) in Hs.
  destruct Hm as [Hm|Hm]; [|congruence]. destruct (Hi o n d l Hs) as (? & ? & Hl).
  split_and!; try done. intros Hq. specialize (Hl Hq). cbn. rewrite Hm.
  by destruct (spl_fork_id (ep_split e)).
Qed.

Lemma vf_rebuild_membership a meta e :
  ConfState_is_valid (sm_conf meta) = true → vote_frame a e → vote_frame a (rebuild_membership meta e).
Proof.
  intros Hc He. unfold rebuild_membership. cbv zeta. apply vf_foldl; [intros; frame|].
  pose proof (conf_inv_from_conf_state (I := I)) as Hinv.
  frame_step. frame_step. apply vote_frame_tracker; [frame|]. intros _. by apply Hinv.
Qed.

(** The commit index a covered snapshot proves. *)
Definition lift (b : Index) e : Endpoint := e <| ep_commit ::= N.max b |>.

Lemma lift_low b e : ep_commit e < b → lift b e = e <| ep_commit := b |>.
Proof. intros. unfold lift, upd. by rewrite N.max_l by lia. Qed.

Lemma lift_high b e : b ≤ ep_commit e → lift b e = e.
Proof. intros. destruct e. unfold lift, upd. cbn in *. by rewrite N.max_r by lia. Qed.

Lemma vote_frame_lift a b e : vote_frame a e → vote_frame a (lift b e).
Proof. intros. unfold lift. apply (vote_frame_commit _ _ (N.max b (ep_commit e))); [done|lia]. Qed.

Lemma lift_foldl {A} b (f : Endpoint → A → Endpoint) l e :
  (∀ e x, lift b (f e x) = f (lift b e) x) → lift b (foldl f e l) = foldl f (lift b e) l.
Proof. intros Hf. revert e. induction l as [|x l IH]; intros e; [done|]. simpl. by rewrite IH, Hf. Qed.

Lemma foldl_keep {A B} (g : Endpoint → B) (f : Endpoint → A → Endpoint) l e :
  (∀ e x, g (f e x) = g e) → g (foldl f e l) = g e.
Proof. intros Hf. revert e. induction l as [|x l IH]; intros e; [done|]. simpl. by rewrite IH, Hf. Qed.

Lemma lift_rebuild b meta e : lift b (rebuild_membership meta e) = rebuild_membership meta (lift b e).
Proof.
  unfold rebuild_membership. cbv zeta. rewrite lift_foldl.
  - unfold push_event. by destruct (bool_decide _).
  - intros e' x. unfold note_courtesy_debt_at_boundary.
    change (ep_courtesy_owed (lift b e')) with (ep_courtesy_owed e'). repeat case_match; done.
Qed.

(** The park goes and the applied index moves to the boundary. *)
Lemma vote_frame_adopt a e e' b p :
  vote_frame a e → mrg_pending_apply (ep_merge e) = Some p → pma_at p ≤ b → is_u64 b →
  ep_ballot e' = ep_ballot e → ep_pending_stable e' = ep_pending_stable e →
  ep_next_op_id e' = ep_next_op_id e → grants e' = grants e → ep_role e' = ep_role e →
  same_view (e <| ep_applied := b |> <| ep_merge ::= λ x, clear_frozen x <| mrg_pending_apply := None |> |>
               <| ep_commit ::= N.max b |>) e' →
  vote_frame a e'.
Proof.
  intros Hf Hp Hb Hu Hba Hps Ho Hg Hr Hv.
  set (e1 := e <| ep_applied := b |> <| ep_merge ::= λ x, clear_frozen x <| mrg_pending_apply := None |> |>
               <| ep_commit ::= N.max b |>).
  apply (vote_frame_conv a e1); [|done..].
  apply (vote_frame_step a e); [done| |done..]. constructor; try done.
  intros Hwf. destruct (wf_park _ Hwf p Hp) as (? & ? & ?). destruct Hwf.
  split; [constructor; try done|split_and!; cbn; lia].
  change (b ≤ N.max b (ep_commit e)). lia.
Qed.

Lemma adopt_parked_union_frame meta d e :
  is_u64 (sm_last_index meta) → sm_fork_id meta = spl_fork_id (ep_split e) →
  (∀ p, mrg_pending_apply (ep_merge e) = Some p → pma_at p ≤ sm_last_index meta) →
  let r := adopt_parked_union meta d e in
  if r.1 then vote_frame e (lift (sm_last_index meta) r.2) else vote_frame e r.2.
Proof.
  intros Hu Hm Hp. unfold adopt_parked_union.
  destruct (mrg_pending_apply _) as [p|] eqn:Hpk; [|by cbn]. specialize (Hp p eq_refl).
  destruct (negb (crossing_walk_covers _ _)); [by cbn|].
  destruct (decode_exact _); [|cbn; frame].
  destruct (negb _) eqn:Hc; [cbn; frame|]. apply negb_false_iff in Hc.
  destruct (_ <=? _); [cbn; frame|].
  match goal with |- context [sm_restore ?x ?y] => destruct (sm_restore x y) as [[] fsm] end.
  2: { cbn [fst snd]. frame_step. apply (vote_frame_step e e); try done. constructor; try done.
    intros []. split; [by constructor|by split_and!]. }
  cbn [fst snd]. rewrite lift_rebuild. apply vf_rebuild_membership; [done|].
  match goal with |- vote_frame e (lift ?b (adopt_meta meta ?x)) =>
    change (lift b (adopt_meta meta x)) with (adopt_meta meta (lift b x)) end.
  apply vote_frame_adopt_meta.
  2: { left. rewrite Hm. symmetry. unfold note_abort_covered, lift. cbn.
    rewrite (foldl_keep ep_split); [done|]. intros ? []. by destruct (abandoned_matches _ _ _). }
  match goal with |- vote_frame e (lift ?b (note_abort_covered ?i ?c ?x)) =>
    change (vote_frame e (note_abort_covered i c (lift b x))) end.
  frame_step. rewrite lift_foldl.
  2: { intros e' [x y]. unfold abandoned_matches. cbn. by case_match. }
  apply vf_foldl; [intros ? [] ?; frame|].
  eapply vote_frame_adopt; [reflexivity|exact Hpk|exact Hp|..]; done.
Qed.

(** ** Receiving *)

#[global] Instance fr_send_or_gate_snapshot_ack to i : Framed (send_or_gate_snapshot_ack to i).
Proof. intros a e He. unfold send_or_gate_snapshot_ack. frame. Qed.
#[global] Instance fr_send_or_gate_shortcut to i : Framed (send_or_gate_shortcut_snapshot_ack to i).
Proof. intros a e He. unfold send_or_gate_shortcut_snapshot_ack. frame. Qed.
#[global] Instance fr_send_progress_ack to n b : Framed (send_snapshot_progress_ack to n b).
Proof. intros a e He. unfold send_snapshot_progress_ack. frame. Qed.
#[global] Instance fr_note_refused_lineage : Framed note_refused_lineage.
Proof. intros a e He. unfold note_refused_lineage. frame. Qed.

Lemma keeps_ack_covered a leader b log s e :
  vote_frame a (lift b e) → let r := ack_covered leader b log s e in keeps a s r.2 r.1.
Proof.
  intros Hf. unfold ack_covered. destruct (_ <? b) eqn:Hb.
  - apply N.ltb_lt in Hb. rewrite lift_low in Hf by done. cbv zeta.
    revert Hf. generalize (e <| ep_commit := b |>). clear. intros e Hf.
    assert (H1 : vote_frame a (if ep_applied e <? ep_commit e then (apply_committed log e).2 else e))
      by frame.
    revert H1. generalize (if ep_applied e <? ep_commit e then (apply_committed log e).2 else e).
    clear. intros e Hf. destruct (is_poisoned e); [by apply keeps_frame|].
    pose proof (keeps_persist_commit_floor s e) as Hk.
    destruct (persist_commit_floor s e) as [s' e']. cbn [fst snd] in *.
    eapply frame_then_keeps; [exact Hf|]. eapply keeps_then_frame; [exact Hk|]. frame.
  - apply N.ltb_ge in Hb. rewrite lift_high in Hf by done. apply keeps_frame. cbn. frame.
Qed.

Lemma keeps_install_redundant m log s e :
  is_u64 (sm_last_index (is_snapshot m)) →
  sm_fork_id (is_snapshot m) = spl_fork_id (ep_split e) →
  let r := install_redundant m log s e in keeps e s r.2 r.1.
Proof.
  intros Hu Hl. unfold install_redundant. destruct (recv_newer e m); [apply keeps_refl|].
  pose proof (keeps_drop_recv s e) as Hd. unfold drop_recv in *. cbn [fst snd] in Hd. cbv zeta.
  revert Hd.
  assert (Hs : spl_fork_id (ep_split (e <| ep_snapshot ::= λ x, x <| ss_snapshot_recv := None |> |>))
    = sm_fork_id (is_snapshot m)) by done.
  revert Hs. generalize (e <| ep_snapshot ::= λ x, x <| ss_snapshot_recv := None |> |>).
  intros e1 Hs Hd. eapply keeps_trans; [exact Hd|]. clear e Hl Hd.
  generalize (stable_discard_snapshot_staging s). clear s. intros s.
  destruct (_ && crossing_walk_covers _ _) eqn:Hp.
  - apply andb_true_iff in Hp as [[_ Hp]%andb_true_iff _].
    pose proof (adopt_parked_union_frame (is_snapshot m) (is_data m) e1 Hu) as Ha.
    destruct (adopt_parked_union _ _ _) as [ok e2]. cbn [fst snd] in Ha.
    destruct ok; [apply keeps_ack_covered|apply keeps_frame]; apply Ha; try done;
      intros p Hpk; revert Hp; unfold merge_park_unresolvable; rewrite Hpk;
      destruct (mrg_park_unresolvable _); try done; cbn; by intros ?%N.leb_le.
  - by apply keeps_ack_covered, vote_frame_lift.
Qed.
(** *** Admission *)

Definition lineage_ok e meta : Prop :=
  sm_fork_id meta = spl_fork_id (ep_split e) ∨ spl_fork_id (ep_split e) = None.

Lemma crosses_lineage_ok e meta log s : crosses_lineage e meta log s = false → lineage_ok e meta.
Proof.
  unfold crosses_lineage, lineage_ok. destruct (spl_fork_id _) as [x|]; [|by right].
  intros Hx%negb_false_iff%bool_decide_eq_true. by left.
Qed.

Lemma keeps_submit_install m blob s e :
  admitted e (is_snapshot m) → let r := submit_install m blob s e in keeps e s r.2 r.1.
Proof.
  intros Ha. unfold submit_install.
  destruct (decode_exact _) as [snap|]; [|apply keeps_frame; cbn; frame].
  pose proof (keeps_ensure_term_durable s e) as Ht.
  pose proof (admitted_ensure_term s e (is_snapshot m)) as Ha1.
  destruct (ensure_term_durable s e) as [s1 e1]. cbn [fst snd] in Ht, Ha1.
  pose proof (vote_frame_mint e1 e1 (reflexivity e1)) as Hf.
  pose proof (admitted_mint e1 (is_snapshot m)) as Ha2.
  destruct (mint_op_id e1) as [opid e2]. cbn [fst snd] in *.
  eapply keeps_trans; [exact Ht|]. apply keeps_store; [|intros v; apply models_submit_snapshot].
  apply vote_frame_snapshot; [done|intros Hw; apply Hw|].
  intros _ o n d l [= <- <- <- <-]. auto.
Qed.

Lemma keeps_install_whole m s e :
  is_u64 (sm_last_index (is_snapshot m)) → lineage_ok e (is_snapshot m) →
  let r := install_whole m s e in keeps e s r.2 r.1.
Proof.
  intros Hu Hl. unfold install_whole. destruct (recv_newer e m); [apply keeps_refl|].
  pose proof (keeps_drop_recv s e) as Hd. unfold drop_recv in *. cbn [fst snd] in Hd. cbv zeta.
  destruct (negb _) eqn:Hc; [eapply keeps_then_frame; [exact Hd|]; cbn; frame|].
  apply negb_false_iff in Hc. eapply keeps_trans; [exact Hd|]. by apply keeps_submit_install.
Qed.

Lemma recv_of_conf e m n :
  ep_wf e → recv_of e m = Some n → ConfState_is_valid (sm_conf (is_snapshot m)) = true.
Proof.
  intros Hw. unfold recv_of. destruct (ss_snapshot_recv _) as [r|] eqn:Hr; [|done].
  apply (wf_recv _ Hw) in Hr. destruct (_ && _) eqn:Hx; [|done]. intros _.
  apply andb_true_iff in Hx as [[_ Hx]%andb_true_iff _].
  apply andb_true_iff in Hx as [[_ Hx%bool_decide_eq_true]%andb_true_iff _]. congruence.
Qed.

Lemma keeps_open_transfer m s e :
  let r := open_transfer m s e in
  keeps e s r.2 r.1.2
  ∧ (r.1.1 = true → ep_split r.2 = ep_split e
     ∧ (ep_wf e → ConfState_is_valid (sm_conf (is_snapshot m)) = true)).
Proof.
  unfold open_transfer. destruct (recv_of e m) eqn:Hr.
  { split; [apply keeps_refl|]. eauto using recv_of_conf. }
  destruct (recv_newer e m); [by split; [apply keeps_refl|]|].
  destruct (negb _) eqn:Hc; [by split; [apply keeps_frame; cbn; frame|]|].
  apply negb_false_iff in Hc. split; [|done]. cbn [fst snd].
  apply keeps_store; [|intros v; apply models_discard].
  apply vote_frame_snapshot; [done| |by intros _ o n d l [=]]. by intros _ r [= <-].
Qed.

Lemma keeps_install_chunk m s e :
  is_u64 (sm_last_index (is_snapshot m)) → lineage_ok e (is_snapshot m) →
  let r := install_chunk m s e in keeps e s r.2 r.1.
Proof.
  intros Hu Hl. apply keeps_wf. intros Hw. unfold install_chunk.
  destruct (keeps_open_transfer m s e) as [Hk Hc].
  destruct (open_transfer m s e) as [[[] s1] e1]; cbn [fst snd] in Hk, Hc; [|done].
  destruct (Hc eq_refl) as [Hsp Hcf]. clear Hc. cbv zeta.
  destruct (negb _); [eapply keeps_then_frame; [exact Hk|]; cbn; frame|].
  pose proof (λ v, models_accept s1 v (is_snapshot m) (is_total_len m) (is_offset m) (is_data m)) as Hs.
  destruct (stable_accept_snapshot_chunk _ _ _ _ _) as [[staged|] s2]; cbn [fst snd] in *.
  2: { eapply keeps_trans; [exact Hk|]. apply keeps_store; [frame|done]. }
  set (f := λ x : SnapshotState, _). set (e2 := e1 <| ep_snapshot ::= f |>).
  assert (Hk2 : keeps e s e2 s2).
  { eapply keeps_trans; [exact Hk|]. apply keeps_store; [|done].
    apply vote_frame_snapshot; [done| |intros Hw1; apply Hw1].
    intros Hw1 r. cbn. destruct (ss_snapshot_recv _) as [r'|] eqn:Hr; [|done]. intros [= <-].
    exact (wf_recv _ Hw1 _ Hr). }
  assert (Ha : admitted e2 (is_snapshot m)).
  { split_and!; [auto|done|]. intros _. unfold lineage_ok in Hl. change (ep_split e2) with (ep_split e1).
    by rewrite Hsp. }
  clearbody e2. clear f Hk Hs.
  destruct (staged <? _); [eapply keeps_then_frame; [exact Hk2|]; cbn; frame|].
  pose proof (λ v, models_take s2 v (is_snapshot m)) as Hs.
  destruct (stable_take_staged_snapshot _ _) as [[blob|] s3]; cbn [fst snd] in *.
  2: { eapply keeps_trans; [exact Hk2|]. apply keeps_store; [frame|done]. }
  assert (Hk3 : keeps e s e2 s3).
  { eapply keeps_trans; [exact Hk2|]. by apply keeps_store. }
  pose proof (keeps_submit_install m blob s3 e2 Ha) as Hk4.
  destruct (submit_install m blob s3 e2) as [s4 e4]. cbn [fst snd] in *.
  eapply keeps_trans; [exact Hk3|].
  destruct (is_ok _); [|done]. eapply keeps_then_frame; [exact Hk4|]. by apply vote_frame_drop_recv.
Qed.

Lemma keeps_install_admitted m s e :
  is_u64 (sm_last_index (is_snapshot m)) → lineage_ok e (is_snapshot m) →
  let r := install_admitted m s e in keeps e s r.2 r.1.
Proof.
  intros Hu Hl. unfold install_admitted. cbv zeta.
  destruct (install_pending _ _); [apply keeps_refl|]. destruct (_ <? visible_slot e); [apply keeps_refl|].
  destruct (_ =? 0); [by apply keeps_install_whole|].
  destruct (bool_decide _); [|by apply keeps_install_chunk].
  destruct (negb _); apply keeps_frame; cbn; frame.
Qed.

Lemma keeps_on_install_snapshot now m log s e :
  is_u64 (sm_last_index (is_snapshot m)) →
  let r := on_install_snapshot now m log s e in keeps e s r.2 r.1.
Proof.
  intros Hu. unfold on_install_snapshot. cbv zeta. destruct (is_poisoned e); [apply keeps_refl|].
  destruct (negb _ && _); [apply keeps_frame; cbn; frame|].
  assert (Hf : vote_frame e (arm_election_timer now (set_leader (Some (is_leader m)) (e <| ep_role := Follower |>))))
    by frame.
  revert Hf. generalize (arm_election_timer now (set_leader (Some (is_leader m)) (e <| ep_role := Follower |>))).
  intros e1 Hf. eapply frame_then_keeps; [exact Hf|]. clear e Hf.
  destruct (_ =? u64_max); [apply keeps_frame; cbn; frame|].
  destruct (_ <=? _); [apply keeps_frame; cbn; frame|].
  pose proof (keeps_reclaim log s e1) as Hk.
  destruct (reclaim_stale_snapshot_recv _ _ _) as [[[] s1] e2]; cbn [fst snd] in Hk; [|done].
  eapply keeps_trans; [exact Hk|]. clear Hk.
  assert (Hf : vote_frame e2 (e2 <| ep_lease_guard ::= raise_lease_floors (is_snapshot m) |>)) by frame.
  eapply frame_then_keeps; [exact Hf|]. clear Hf.
  generalize (e2 <| ep_lease_guard ::= raise_lease_floors (is_snapshot m) |>). clear e1 e2 s. intros e.
  destruct (crosses_lineage _ _ _ _) eqn:Hx; [apply keeps_frame; cbn; frame|].
  apply crosses_lineage_ok in Hx.
  destruct (covered_by_local_history _ _ _ _) as [[c|] e3] eqn:Hc.
  - apply covered_same in Hc as [-> Hc]. destruct c.
    + by apply keeps_install_redundant.
    + by apply keeps_install_admitted.
  - pose proof (fr_covered log (is_snapshot m) (N.min (ep_commit e) (ack_watermark e)) e e
      (reflexivity e)) as Hf. rewrite Hc in Hf. by apply keeps_frame.
Qed.

(** ** Installing *)

(** The state the snapshot replaces, as [ep_step] sees it. *)
Lemma ep_step_rebaseline meta e e' :
  admitted e meta → is_poisoned e = false → ep_commit e ≤ sm_last_index meta →
  same_view (adopt_meta meta
    (e <| ep_commit := sm_last_index meta |> <| ep_applied := sm_last_index meta |>
       <| ep_merge ::= λ x, clear_frozen x <| mrg_pending_apply := None |> |>)) e' →
  ss_pending_install (ep_snapshot e) = None → ep_step e e'.
Proof.
  intros (Hc & Hu & _) Hq Hb Hv Hn. etrans; [|by apply ep_step_same_view]. constructor; try done.
  intros []. split.
  - constructor; try done. intros o n d l Hs.
    change (ss_pending_install (ep_snapshot e) = Some (o, n, d, l)) in Hs. congruence.
  - split_and!; cbn; lia.
Qed.

Lemma vote_inv_forget_campaigns e v cast :
  ep_role e = Follower → vote_inv e v cast →
  vote_inv (e <| ep_pending_stable ::= filter (λ p, is_cast_vote p.2 = true) |>) v cast.
Proof.
  intros Hr [Hc _]. split; [|intros Hr'; change (ep_role e = Candidate) in Hr'; congruence].
  apply (vote_core_raise e); try done; try apply Hc. cbn. intros w. rewrite list_elem_of_filter. tauto.
Qed.

Lemma keeps_rebaseline meta log s e :
  admitted e meta → is_poisoned e = false → ep_role e = Follower →
  ep_commit e ≤ sm_last_index meta → ss_pending_install (ep_snapshot e) = None →
  keeps e s (rebaseline meta log e).2 s.
Proof.
  intros Ha Hq Hr Hb Hn. unfold rebaseline. cbv zeta. cbn [snd].
  set (e1 := e <| ep_pending_stable ::= filter (λ p, is_cast_vote p.2 = true) |>).
  apply (keeps_trans _ _ e1 s).
  { apply keeps_intro; [by apply ep_step_same_view|]. eauto using vote_inv_forget_campaigns. }
  apply keeps_frame. frame_step.
  apply (vote_frame_step e1 e1); try done. by apply (ep_step_rebaseline meta).
Qed.

Lemma keeps_install_snapshot_now meta snap leader log s e :
  (ep_wf e → admitted e meta) → ss_pending_install (ep_snapshot e) = None →
  let r := install_snapshot_now meta snap leader log s e in keeps e s r.2 r.1.2.
Proof.
  intros Ha Hn. apply keeps_wf. intros Hw. specialize (Ha Hw). clear Hw. unfold install_snapshot_now.
  destruct (is_poisoned e) eqn:Hq; [apply keeps_refl|].
  destruct (negb (Role_is_follower _)) eqn:Hr; [apply keeps_refl|].
  assert (Hr' : ep_role e = Follower) by (by destruct (ep_role e)). clear Hr.
  destruct (_ && negb _) eqn:Hg; [apply keeps_frame; cbn; frame|].
  assert (Hcm : sm_fork_id meta ≠ spl_fork_id (ep_split e) → ep_commit e = 0).
  { intros Hne. destruct Ha as (_ & _ & Hl). destruct (Hl Hq) as [|Hl']; [done|]. rewrite Hl' in Hne, Hg.
    destruct (sm_fork_id meta); [|done]. cbn in Hg. apply negb_false_iff, andb_true_iff in Hg as [_ Hg].
    by apply N.eqb_eq in Hg. }
  clear Hg. cbv zeta.
  match goal with |- context [covered_by_local_history log meta _ ?x] => set (e1 := x) end.
  assert (Hf : vote_frame e e1) by (unfold e1; frame).
  destruct (covered_by_local_history _ _ _ _) as [[c|] e2] eqn:Hc.
  2: { pose proof (fr_covered log meta (ep_commit e1) e e1 Hf) as Hf2. rewrite Hc in Hf2.
    by apply keeps_frame. }
  apply covered_same in Hc as [-> Hc]. destruct c.
  { pose proof (keeps_ack_covered e leader (sm_last_index meta) log s e1 (vote_frame_lift _ _ _ Hf)) as Hk.
    by destruct (ack_covered _ _ _ _ _). }
  destruct (sm_restore snap _) as [[] fsm]; [|apply keeps_frame; cbn; frame].
  set (e2 := e1 <| ep_fsm := fsm |>).
  assert (Hk : keeps e s (rebaseline meta log e2).2 s).
  { eapply (frame_then_keeps _ e2); [unfold e2; frame|].
    apply keeps_rebaseline; try done. change (ep_commit e ≤ sm_last_index meta).
    change (spl_fork_id (ep_split e1)) with (spl_fork_id (ep_split e)) in Hc.
    change (ep_commit e1) with (ep_commit e) in Hc. destruct Hc as [?%Hcm|]; lia. }
  destruct (rebaseline meta log e2) as [log' e3]. cbn [snd] in Hk.
  destruct (negb _); [eapply keeps_then_frame; [exact Hk|]; cbn; frame|].
  eapply keeps_then_frame; [exact Hk|]. cbn [fst snd]. frame_step. apply vf_rebuild_membership; [|done].
  by destruct Ha.
Qed.
End snapshot.
