(* ===== verification/VoteDrive.v ===== *)
(** * The entry points keep the record of votes

    [keeps] of [Vote] for everything a driver calls: messages, timeouts and the
    storage crank. *)

From S2P Require Import Prelude Bytes Num Quorum Progress ProgressMap Conf Tracker ConfChange.
From S2P Require Import ConfChangeProps Config Lease Prng ReadOnly Data Frame Entry Storage Shape.
From S2P Require Import EngineStable Restart Forwarded Wire Message Codec Endpoint Merge.
From S2P Require Import Invariant Persistence Replication Election Propose Handlers Commit Apply.
From S2P Require Import Reads Snapshot Append Drive VoteFrame Frames ApplyFrame HandlerFrame Vote.
From S2P Require Import SnapshotFrame.

Section drive.
Context {I F R L S : Type} `{!NodeId I, !StateMachine F, !Rng R, !LogStore L, !StableStore I S}.
Context {DI : Data I} {BS : BuffaSizes} {DC : Data sm_command} {DS : Data sm_snapshot}.
Context {BD : BuffaDecode} {BC : Buffa PbConfChangeV2} `{!StableWriteLaws I S}.
Abbreviation Endpoint := (Endpoint I F R).
Abbreviation Framed := (@Framed I F R _ _).
Abbreviation FramedSnd := (@FramedSnd I F R _ _ _).
Implicit Types (a e : Endpoint) (now : Now) (log : L) (s : S).

(** ** Appends *)

Lemma keeps_overwrite_suffix from suffix log s e :
  let r := overwrite_suffix from suffix log s e in keeps e s r.2 r.1.2.
Proof.
  unfold overwrite_suffix. pose proof (keeps_ensure_term_durable s e) as Hk.
  destruct (ensure_term_durable s e) as [s1 e1]. cbn [fst snd] in Hk. cbv zeta.
  match goal with |- context [mint_op_id ?x] =>
    assert (Hf : vote_frame e1 (mint_op_id x).2) by frame;
    destruct (mint_op_id x) as [opid e2] end.
  cbn [snd] in Hf. apply (fr_submit_append opid suffix log) in Hf.
  destruct (submit_append _ _ _ _) as [log' e3]. cbn [fst snd] in *.
  eapply keeps_then_frame; [exact Hk|]. frame.
Qed.

Lemma keeps_accept_entries es log s e :
  let r := accept_entries es log s e in keeps e s r.2 r.1.2.
Proof.
  unfold accept_entries. destruct es as [|x0 es0]; [apply keeps_refl|].
  generalize (x0 :: es0). clear x0 es0. intros es. cbv zeta.
  pose proof (fr_conflict_suffix es log e e (reflexivity e)) as Hf.
  destruct (conflict_suffix es log e) as [[[|x rest]|] e1]; cbn [fst snd] in *.
  - apply keeps_frame. frame.
  - destruct (_ <=? _); [apply keeps_frame; cbn; frame|].
    pose proof (keeps_overwrite_suffix (e_index x) (x :: rest) log s e1) as Hk.
    destruct (overwrite_suffix _ _ _ _ _) as [[[opid log'] s'] e']. cbn [fst snd] in *.
    eapply frame_then_keeps; [exact Hf|]. eapply keeps_then_frame; [exact Hk|]. frame.
  - by apply keeps_frame.
Qed.

Lemma keeps_on_append_entries now ae log s e :
  let r := on_append_entries now ae log s e in keeps e s r.2 r.1.2.
Proof.
  unfold on_append_entries. cbv zeta.
  assert (Hf : vote_frame e (prev_consistent ae log (follow now (ae_leader ae) e)).2) by frame.
  destruct (prev_consistent _ _ _) as [c e1]. cbn [snd] in Hf.
  destruct (is_poisoned e1); [by apply keeps_frame|].
  destruct (negb c); [apply keeps_frame; cbn; frame|].
  destruct (contiguous_run _ _) as [last|]; [|apply keeps_frame; cbn; frame].
  pose proof (keeps_accept_entries (ae_entries ae) log s e1) as Hk.
  destruct (accept_entries _ _ _ _) as [[[[go app] log2] s2] e2]. cbn [fst snd] in *.
  eapply frame_then_keeps; [exact Hf|].
  destruct (negb go); [done|].
  assert (Hf2 : vote_frame e2 (advance_commit_to (N.min (ae_leader_commit ae) last) log2 e2)) by frame.
  destruct (is_poisoned _); [|destruct app]; (eapply keeps_then_frame; [exact Hk|]; cbn; frame).
Qed.

(** ** Messages *)

(** The fields of a message fit their width. *)
Definition message_u64 (m : Message I) : Prop :=
  is_u64 (Message_term m)
  ∧ match m with MInstallSnapshot x => is_u64 (sm_last_index (is_snapshot x)) | _ => True end.

Lemma keeps_dispatch_message now from m log s e :
  message_u64 m → let r := dispatch_message now from m log s e in keeps e s r.2 r.1.2.
Proof.
  intros [_ Hu]. destruct m as [m|m|m|m|m|m|m|m|m|m|m]; cbn [dispatch_message];
    try (apply keeps_frame; cbn [fst snd]; frame; done).
  - apply keeps_on_append_entries.
  - pose proof (keeps_on_request_vote now m log s e). by destruct (on_request_vote now m log s e).
  - apply keeps_on_vote_response.
  - pose proof (keeps_on_install_snapshot now m log s e Hu). by destruct (on_install_snapshot now m log s e).
  - pose proof (keeps_on_timeout_now now m log s e). by destruct (on_timeout_now now m log s e).
Qed.

Lemma keeps_handle_message now from m log s e :
  message_u64 m → let r := handle_message now from m log s e in keeps e s r.2 r.1.2.
Proof.
  intros Hu. unfold handle_message.
  pose proof (keeps_message_prepass now from m s e (proj1 Hu)) as Hp.
  destruct (message_prepass _ _ _ _ _) as [[] e1]; cbn [snd] in Hp; [|done].
  pose proof (keeps_dispatch_message now from m log s e1 Hu) as Hd.
  destruct (dispatch_message _ _ _ _ _) as [[log1 s1] e2]. cbn [fst snd] in Hd.
  pose proof (keeps_ensure_term_durable s1 e2) as He.
  destruct (ensure_term_durable _ _) as [s2 e3]. cbn [fst snd] in He |- *.
  eapply keeps_trans; [exact Hp|]. eapply keeps_trans; [exact Hd|].
  eapply keeps_then_frame; [exact He|]. frame.
Qed.

(** ** Timeouts *)

Lemma keeps_handle_timeout now log s e :
  let r := handle_timeout now log s e in keeps e s r.2 r.1.2.
Proof.
  unfold handle_timeout. destruct (is_poisoned e); [apply keeps_refl|].
  pose proof (keeps_handle_timeout_idle now log s e) as Hi.
  pose proof (fr_handle_timeout_leader now log s e e (reflexivity e)) as Hf.
  destruct (handle_timeout_idle now log s e) as [s1 e1].
  destruct (handle_timeout_leader now log s e) as [[go log2] e2]. cbn [fst snd] in Hi, Hf.
  destruct (ep_role e); try done. apply keeps_frame. cbn. frame.
Qed.

(** ** The storage crank *)

#[global] Instance fr_release_covered fuel now c log : FramedSnd (release_covered fuel now c log).
Proof.
  intros a. induction fuel as [|fuel IH]; intros e He; cbn [release_covered]; [done|].
  destruct (du_inflight_append_upto _) as [|[opid upto] q]; [done|]. destruct (_ <=? _); [|done].
  match goal with |- context [is_poisoned ?x] => assert (Hf : vote_frame a x) by frame end.
  destruct (is_poisoned _); [done|]. by apply IH.
Qed.
#[global] Instance fr_reconcile_durable_index now log : FramedSnd (reconcile_durable_index now log).
Proof. intros a e He. unfold reconcile_durable_index. frame. Qed.

Lemma vf_drain_log budget now log a e :
  vote_frame a e → vote_frame a (drain_log budget now log e).2.
Proof.
  revert log e. induction budget as [|budget IH]; intros log e He; cbn [drain_log]; [done|].
  destruct (log_poll log) as [[[[opid|?]|?]|] log']; [|by apply IH|cbn; frame|done].
  assert (Hf : vote_frame a (on_log_appended now opid log' e)) by frame.
  cbv zeta. destruct (is_poisoned _); [done|]. by apply IH.
Qed.

Lemma vf_settle_compact a meta log e : vote_frame a e → vote_frame a (settle_compact meta log e).2.
Proof. intros He. unfold settle_compact. cbn [snd]. frame. Qed.

Lemma keeps_settle_install o meta snap leader log s e :
  ss_pending_install (ep_snapshot e) = Some (o, meta, snap, leader) →
  let r := settle_install meta snap leader log s e in keeps e s r.2 r.1.2.
Proof.
  intros Hi. apply keeps_wf. intros Hw. unfold settle_install.
  set (e1 := e <| ep_snapshot ::= λ x, x <| ss_pending_install := None |> |>).
  assert (Hf : vote_frame e e1).
  { apply vote_frame_snapshot; [done|intros Hw'; apply Hw'|]. by intros _ ? ? ? ? [=]. }
  eapply frame_then_keeps; [exact Hf|]. apply keeps_install_snapshot_now; [|done].
  intros _. exact (wf_install _ Hw _ _ _ _ Hi).
Qed.

Lemma keeps_on_snapshot_written opid log s e :
  let r := on_snapshot_written opid log s e in keeps e s r.2 r.1.2.
Proof.
  unfold on_snapshot_written.
  set (p := match ss_pending_compact _ with Some _ => _ | None => _ end).
  assert (Hf : vote_frame e p.2).
  { unfold p. destruct (ss_pending_compact _) as [[pid m]|]; [|done].
    case_decide; [|done]. by apply vf_settle_compact. }
  clearbody p. destruct p as [log1 e1]. cbn [snd] in Hf. eapply frame_then_keeps; [exact Hf|].
  destruct (ss_pending_install _) as [[[[pid meta] snap] leader]|] eqn:Hi; [|apply keeps_refl].
  case_decide; [|apply keeps_refl]. by eapply keeps_settle_install.
Qed.

Lemma keeps_drain_stable budget now log s e :
  let r := drain_stable budget now log s e in keeps e s r.2 r.1.2.
Proof.
  revert log s e. induction budget as [|budget IH]; intros log s e; cbn [drain_stable]; [apply keeps_refl|].
  pose proof (λ v, models_poll s v) as Hm.
  destruct (stable_poll s) as [[[[opid|opid]|?]|] s1] eqn:Hp; cbn [snd] in Hm.
  - pose proof (keeps_wrote now opid log s s1 e Hp) as Hk.
    destruct (on_stable_wrote now opid log s1 e) as [log' e']. cbn [snd] in Hk.
    destruct (is_poisoned e'); [done|]. eapply keeps_trans; [exact Hk|]. apply IH.
  - apply (keeps_trans _ _ e s1); [by apply keeps_store|].
    pose proof (keeps_on_snapshot_written opid log s1 e) as Hk.
    destruct (on_snapshot_written opid log s1 e) as [[log' s'] e']. cbn [fst snd] in Hk.
    destruct (is_poisoned e'); [done|]. eapply keeps_trans; [exact Hk|]. apply IH.
  - apply keeps_store; [cbn; frame|done].
  - by apply keeps_store.
Qed.

Lemma keeps_reconcile_snapshots log s e :
  let r := reconcile_snapshots log s e in keeps e s r.2 r.1.2.
Proof.
  unfold reconcile_snapshots. cbv zeta.
  set (p := match ss_pending_compact _ with Some _ => _ | None => _ end).
  assert (Hf : vote_frame e p.2).
  { unfold p. destruct (ss_pending_compact _) as [[pid m]|]; [|done].
    destruct (match _ with Some _ => _ | None => _ end); [|done]. by apply vf_settle_compact. }
  clearbody p. destruct p as [log1 e1]. cbn [snd] in Hf. eapply frame_then_keeps; [exact Hf|].
  destruct (ss_pending_install _) as [[[[pid meta] snap] leader]|] eqn:Hi; [|apply keeps_refl].
  destruct (match stable_durable_snapshot s with Some _ => _ | None => _ end); [|apply keeps_refl].
  pose proof (keeps_settle_install _ _ _ _ log1 s e1 Hi) as Hk.
  by destruct (settle_install _ _ _ _ _ _) as [[log2 s2] e2].
Qed.

#[global] Instance fr_auto_leave_joint now log : FramedSnd (auto_leave_joint now log).
Proof. intros a e He. unfold auto_leave_joint. frame. Qed.

Lemma keeps_storage_tail now log s e :
  let r := storage_tail now log s e in keeps e s r.2 r.1.2.
Proof.
  unfold storage_tail.
  set (p := if negb _ && _ then _ else (ApplyDrained, e)).
  assert (Hf : vote_frame e p.2) by (unfold p; frame).
  clearbody p. destruct p as [drain e1]. cbn [snd] in Hf. eapply frame_then_keeps; [exact Hf|].
  clear Hf. destruct (is_poisoned e1); [apply keeps_refl|].
  pose proof (keeps_maybe_snapshot log s e1) as Hk1.
  destruct (maybe_snapshot log s e1) as [s2 e2]. cbn [fst snd] in Hk1.
  destruct (is_poisoned e2); [done|]. eapply keeps_trans; [exact Hk1|]. clear Hk1.
  pose proof (fr_auto_leave_joint now log e2 e2 (reflexivity e2)) as Hf.
  destruct (auto_leave_joint now log e2) as [log3 e3]. cbn [snd] in Hf.
  eapply frame_then_keeps; [exact Hf|]. destruct (is_poisoned e3); [apply keeps_refl|].
  pose proof (keeps_persist_commit_floor s2 e3) as Hk.
  destruct (persist_commit_floor s2 e3) as [s4 e4]. cbn [fst snd] in *.
  eapply keeps_then_frame; [exact Hk|]. frame.
Qed.

Lemma keeps_handle_storage now log s e :
  let r := handle_storage now log s e in keeps e s r.2 r.1.2.
Proof.
  unfold handle_storage. destruct (is_poisoned e); [apply keeps_refl|].
  pose proof (vf_drain_log STORAGE_DRAIN_BUDGET now log e e (reflexivity e)) as Hf.
  destruct (drain_log _ _ _ _) as [[[] log1] e1]; cbn [snd] in Hf; [|by apply keeps_frame].
  eapply frame_then_keeps; [exact Hf|]. clear e Hf.
  pose proof (keeps_drain_stable STORAGE_DRAIN_BUDGET now log1 s e1) as Hk.
  destruct (drain_stable _ _ _ _ _) as [[[[] log2] s2] e2]; cbn [fst snd] in Hk; [|done].
  eapply keeps_trans; [exact Hk|]. clear e1 s Hk.
  pose proof (keeps_reconcile_snapshots log2 s2 e2) as Hk.
  destruct (reconcile_snapshots _ _ _) as [[[[] log3] s3] e3]; cbn [fst snd] in Hk; [|done].
  eapply keeps_trans; [exact Hk|]. clear e2 s2 Hk.
  pose proof (fr_reconcile_durable_index now log3 e3 e3 (reflexivity e3)) as Hf.
  destruct (reconcile_durable_index _ _ _) as [[] e4]; cbn [snd] in Hf; [|by apply keeps_frame].
  eapply frame_then_keeps; [exact Hf|]. clear e3 Hf.
  pose proof (keeps_reconcile now log3 s3 e4) as Hk.
  destruct (reconcile_durable_hard_state _ _ _ _) as [[[] log5] e5]; cbn [fst snd] in Hk; [|done].
  eapply keeps_trans; [exact Hk|]. clear e4 Hk.
  pose proof (keeps_reclaim log5 s3 e5) as Hk.
  destruct (reclaim_stale_snapshot_recv _ _ _) as [[[] s6] e6]; cbn [fst snd] in Hk; [|done].
  eapply keeps_trans; [exact Hk|]. apply keeps_storage_tail.
Qed.
End drive.
