(* ===== verification/VoteSafety.v ===== *)
(** * One node across crashes

    The node with its stable store as a transition system: every entry point a
    driver calls, barriers and crashes in any order.  Whatever happens, the
    endpoint stays well formed, the votes the node lets out agree within a term,
    and each of them is on disk before it leaves. *)

From S2P Require Import Prelude Bytes Num Quorum Progress ProgressMap Conf Tracker ConfChange.
From S2P Require Import ConfChangeProps Config Lease Prng ReadOnly Data Frame Entry Storage Shape.
From S2P Require Import EngineLog EngineStable Restart Forwarded Wire Message Codec Endpoint.
From S2P Require Import Sample Merge Invariant Persistence Replication Election Propose Handlers.
From S2P Require Import Commit Apply Boot Reads Snapshot Append Drive VoteFrame Frames ApplyFrame.
From S2P Require Import HandlerFrame Vote BootFrame SnapshotFrame VoteDrive.

Section system.
Context {I F R L S : Type} `{!NodeId I, !StateMachine F, !Rng R, !LogStore L, !StableStore I S}.
Context {DI : Data I} {BS : BuffaSizes} {DC : Data sm_command} {DS : Data sm_snapshot}.
Context {BD : BuffaDecode} {BC : Buffa PbConfChangeV2} `{!StableWriteLaws I S}.
Abbreviation Endpoint := (Endpoint I F R).
Implicit Types (e : Endpoint) (now : Now) (log : L) (s : S) (v : WriteView I).

(** [vs_cast] is the world's record: the votes that left the node and the offices
    it held. *)
Record VoteSys := {
  vs_ep : Endpoint;
  vs_stable : S;
  vs_cast : list (Term * I);
}.

Definition vs_after (x : VoteSys) e s : VoteSys :=
  {| vs_ep := e; vs_stable := s; vs_cast := vs_cast x ++ office e |}.

(** What a barrier does: some of the oldest writes become durable. *)
Definition flushed s s' : Prop :=
  ∀ v, stable_models s v → ∃ k, stable_models s' (wv_flush k v).

(** What a crash does: the store comes back with what was durable. *)
Definition crashed s s' : Prop :=
  ∀ v, stable_models s v → stable_hard_state s' = wv_durable v
    ∧ ∃ done, done ⊆ wv_done v ∧ stable_models s' (wv_crash done v).

(** The steps of a running node.  The log is the one its handlers are given; it
    is any log. *)
Inductive live_step (x : VoteSys) : VoteSys → Prop :=
| StepMessage now from m log :
    message_u64 m →
    let r := handle_message now from m log (vs_stable x) (vs_ep x) in
    live_step x (vs_after x r.2 r.1.2)
| StepTimeout now log :
    let r := handle_timeout now log (vs_stable x) (vs_ep x) in
    live_step x (vs_after x r.2 r.1.2)
| StepStorage now log :
    let r := handle_storage now log (vs_stable x) (vs_ep x) in
    live_step x (vs_after x r.2 r.1.2)
| StepAbsorb log :
    let r := capture_absorb_snapshot log (vs_stable x) (vs_ep x) in
    live_step x (vs_after x r.2 r.1.2)
| StepCall e :
    local_call (L := L) (S := S) (vs_ep x) e → live_step x (vs_after x e (vs_stable x))
| StepEmit o e :
    poll_message (vs_ep x) = (Some o, e) →
    live_step x
      {| vs_ep := e; vs_stable := vs_stable x;
         vs_cast := vs_cast x ++ option_list (grant_of o) |}
| StepFlush s :
    flushed (vs_stable x) s →
    live_step x {| vs_ep := vs_ep x; vs_stable := s; vs_cast := vs_cast x |}.

(** A crash and the restart after it, under a later boot epoch. *)
Inductive crash_step (x : VoteSys) : VoteSys → Prop :=
| StepCrash config now rng fsm epoch prior log s :
    crashed (vs_stable x) s → snapshot_u64 (stable_discard_snapshot_staging s) →
    cfg_voters config ≠ [] → opid_epoch (ep_next_op_id (vs_ep x)) < epoch →
    let r := restart_inner config now rng fsm epoch prior log s in
    crash_step x {| vs_ep := r.2; vs_stable := r.1.2; vs_cast := vs_cast x |}.

Definition vote_step (x y : VoteSys) : Prop := live_step x y ∨ crash_step x y.

(** A node that starts for the first time, over an empty store. *)
Record vote_init (x : VoteSys) : Prop := {
  in_ep : ∃ config now rng fsm, cfg_voters config ≠ []
            ∧ vs_ep x = Endpoint_new_with_rng config now rng fsm;
  in_store : stable_models (vs_stable x)
               {| wv_durable := HardState_initial; wv_unflushed := []; wv_done := [] |};
  in_cast : vs_cast x = [];
}.

Definition sys_inv (x : VoteSys) : Prop :=
  ep_wf (vs_ep x) ∧ ∃ v, stable_models (vs_stable x) v ∧ vote_inv (vs_ep x) v (vs_cast x).

(** What the first endpoint and a rebuilt one have in common. *)
Record booted_as e (b : Term * option I) : Prop := {
  ba_ballot : ep_ballot e = b;
  ba_pending : ep_pending_stable e = [];
  ba_grants : grants e = [];
  ba_role : ep_role e = Follower;
  ba_seq : is_u64 (opid_seq (ep_next_op_id e));
}.

Lemma new_booted config now (rng : R) (fsm : F) :
  booted_as (Endpoint_new_with_rng config now rng fsm) (0, None).
Proof.
  unfold Endpoint_new_with_rng, arm_election_timer. cbv zeta. destruct (election_timeout _ _).
  by constructor.
Qed.

Lemma sys_inv_init x : vote_init x → sys_inv x.
Proof.
  intros [(config & now & rng & fsm & Hv & He) Hm Hc].
  pose proof (new_booted config now rng fsm) as [Hb Hp Hg Hr Hs].
  pose proof (new_endpoint_wf config now rng fsm Hv) as Hw. rewrite <- He in *. split; [done|].
  eexists. split; [exact Hm|]. unfold vote_inv, self_vote_inv.
  injection Hb as Ht Hvo.
  split; [|by rewrite Hr]. constructor; rewrite ?Hp, ?Hg, ?Hc, ?Hr, ?Ht; cbn; try set_solver.
  - unfold ballots, ep_ballot. rewrite Ht, Hvo. apply SSorted_cons; [apply SSorted_cons; constructor|].
    by constructor; [|constructor].
  - unfold is_u64. lia.
Qed.

Lemma sys_inv_keeps x e s : keeps (vs_ep x) (vs_stable x) e s → sys_inv x → sys_inv (vs_after x e s).
Proof.
  intros Hk [Hw (v & Hm & Hi)]. destruct (Hk Hw) as [Hs Hv]. destruct (Hv v _ Hm Hi) as (v' & ? & ?).
  split; [by apply (st_wf _ _ Hs)|]. by exists v'.
Qed.

(** ** Barriers *)

Lemma flush_ballots v k e :
  StronglySorted ballot_le (ballots e v) →
  StronglySorted ballot_le (ballots e (wv_flush k v))
  ∧ durably (wv_flush k v) (hs_ballot (wv_durable v))
  ∧ ∀ w, w ∈ take k (wv_unflushed v) → durably (wv_flush k v) (wballot w).
Proof.
  unfold ballots, durably, wv_flush, wv_last. cbn [wv_durable wv_unflushed].
  rewrite <- (take_drop k (wv_unflushed v)) at 1. generalize (drop k (wv_unflushed v)).
  generalize (take k (wv_unflushed v)). intros tk dr.
  destruct tk as [|w tk _] using rev_ind; cbn; [intros; set_solver|].
  rewrite last_snoc, map_app, map_app, <- !app_assoc. cbn. intros [Hs Hd]%StronglySorted_inv.
  rewrite Forall_forall in Hd. apply StronglySorted_app in Hs as (Hx & _ & Hs).
  repeat split.
  - exact Hs.
  - apply Hd. set_solver.
  - intros w'. rewrite elem_of_app, list_elem_of_singleton. intros [Hw| ->]; [|reflexivity].
    apply Hx; [|set_solver]. apply list_elem_of_fmap. eauto.
Qed.

Lemma flush_inv e v cast k : vote_inv e v cast → vote_inv e (wv_flush k v) cast.
Proof.
  intros [[] Hs]. destruct (flush_ballots v k e vi_chain) as (Hch & Hd & Hw).
  assert (Hmono : ∀ b, durably v b → durably (wv_flush k v) b).
  { intros b Hb. unfold durably in *. by etrans. }
  assert (Hwr : ∀ w, w ∈ writes (wv_flush k v) → w ∈ writes v).
  { intros w. unfold writes, wv_flush. cbn. rewrite !elem_of_app.
    rewrite <- (take_drop k (wv_unflushed v)) at 3. rewrite elem_of_app. tauto. }
  split; [|intros ? ?; by apply Hmono, Hs]. constructor; try done; eauto.
  intros w. cbn. rewrite elem_of_app. intros [?|?]; auto.
Qed.

(** ** Crashes *)

Lemma crash_inv e e' v cast done :
  booted_as e' (hs_ballot (wv_durable v)) →
  opid_epoch (ep_next_op_id e) < opid_epoch (ep_next_op_id e') → done ⊆ wv_done v →
  vote_inv e v cast → vote_inv e' (wv_crash done v) cast.
Proof.
  intros [Hb Hp Hg Hr Hseq] Hep Hsub [[] _].
  assert (Hle : hs_term (wv_durable v) ≤ ep_term e).
  { apply (ballots_last_le e v (hs_ballot (wv_durable v))) in vi_chain; [|reflexivity].
    destruct vi_chain as [?|[? _]]; cbn in *; lia. }
  split; [|unfold self_vote_inv; by rewrite Hr]. constructor; rewrite ?Hp, ?Hr; try done.
  - unfold ballots. rewrite Hb. cbn. apply SSorted_cons; [apply SSorted_cons; constructor|].
    by constructor; [|constructor].
  - intros w Hw. apply vi_done. by apply Hsub.
  - injection Hb as -> _. unfold is_u64 in *. lia.
  - intros w Hw. assert (Hlt : OpId_ltb w.1 (ep_next_op_id e) = true).
    { apply vi_ids. unfold writes in *. cbn in Hw. set_solver. }
    revert Hlt. rewrite !OpId_ltb_lt. lia.
  - intros _ w Hw%elem_of_nil. done.
  - intros o p b h Hw%elem_of_nil. done.
  - intros g. rewrite Hg, app_nil_r. intros. apply vi_cast. set_solver.
  - intros t c1 c2. rewrite Hg, app_nil_r. intros. apply (vi_once t); set_solver.
  - by intros [|].
Qed.

Lemma vote_inv_term e v cast : vote_inv e v cast → is_u64 (hs_term (wv_durable v)).
Proof.
  intros [[] _]. apply (ballots_last_le e v (hs_ballot (wv_durable v))) in vi_chain; [|reflexivity].
  unfold is_u64 in *. destruct vi_chain as [?|[? _]]; cbn in *; lia.
Qed.

(** The restart keeps the record: the endpoint it builds holds the durable
    ballot, and the one write it makes carries that ballot. *)
Lemma sys_inv_crash x y : crash_step x y → sys_inv x → sys_inv y.
Proof.
  intros [config now rng fsm epoch prior log s Hcr Hsn Hvo Hep r] [_ (v & Hm & Hi)].
  subst r. destruct (Hcr v Hm) as (Hh & done & Hd & Hm'). unfold restart_inner. cbv zeta.
  pose proof (booted_frame config now rng fsm epoch prior log s) as Hf. cbv zeta in Hf.
  fold (booted config now rng fsm epoch prior log s).
  set (hs := stable_hard_state s) in *.
  destruct (recover_inv config now fsm prior hs log _ Hvo Hsn) as [Hct Hap].
  set (rc := recover _ _ _ _ _ _ _) in *.
  set (e0 := restarted_endpoint config now rng epoch hs rc) in *.
  set (e1 := booted config now rng fsm epoch prior log s) in *.
  assert (Hw0 : ep_wf e0).
  { apply restarted_endpoint_wf; try done. rewrite Hh. by eapply vote_inv_term. }
  assert (Hi0 : vote_inv e0 (wv_crash done v) (vs_cast x)).
  { apply (crash_inv (vs_ep x)); try done. rewrite <- Hh. by constructor. }
  clearbody e1. apply (vote_inv_frame _ _ _ _ Hf) in Hi0 as Hi1.
  assert (Hb : ep_ballot e1 = hs_ballot (wv_durable (wv_crash done v))).
  { rewrite (vf_ballot _ _ Hf). cbn. by rewrite <- Hh. }
  apply (st_wf _ _ (vf_step _ _ Hf)) in Hw0 as [Hw1 _].
  pose proof (vf_persist_lease_floor (stable_discard_snapshot_staging s) e1) as Hf2.
  destruct (persist_lease_floor_inv (stable_discard_snapshot_staging s) e1 (wv_crash done v)
    (vs_cast x)) as (v2 & Hm2 & Hi2); [by apply models_discard|done..|].
  destruct (persist_lease_floor _ e1) as [s2 e2]. cbn [fst snd] in *.
  assert (Hf3 : vote_frame e2 (arm_election_timer now
    (e2 <| ep_outputs ::= λ o, o <| ou_events := [] |> |>))).
  { by apply vf_arm_election_timer, vf_drop_events. }
  split; cbn [vs_ep vs_stable vs_cast].
  - apply (st_wf _ _ (vf_step _ _ Hf3)), (st_wf _ _ (vf_step _ _ Hf2)), Hw1.
  - exists v2. split; [done|]. by eapply vote_inv_frame.
Qed.

Lemma poll_message_grants e o e' :
  poll_message e = (Some o, e') →
  vote_frame e e' ∧ ∀ g, grant_of o = Some g → g ∈ grants e.
Proof.
  unfold poll_message. destruct (is_poisoned e); [done|].
  destruct (ou_outgoing (ep_outputs e)) as [|o' q] eqn:Hq; [done|]. intros [= -> <-].
  assert (Hgr : grants e = option_list (grant_of o) ++ omap grant_of q).
  { unfold grants. rewrite Hq. cbn. by destruct (grant_of o). }
  split.
  - apply vote_frame_outputs; [done|]. rewrite Hgr. cbn. set_solver.
  - intros g Hg. rewrite Hgr, Hg. set_solver.
Qed.

Lemma live_step_ep x y : live_step x y → ep_wf (vs_ep x) → ep_step (vs_ep x) (vs_ep y).
Proof.
  intros Hst Hw. destruct Hst; try subst r; cbn [vs_ep vs_after].
  - by apply keeps_handle_message.
  - by apply keeps_handle_timeout.
  - by apply keeps_handle_storage.
  - by apply keeps_capture_absorb.
  - by apply vf_step, (local_call_frame (L := L) (S := S)).
  - apply poll_message_grants in H as [Hf _]. apply Hf.
  - reflexivity.
Qed.

Lemma sys_inv_live x y : live_step x y → sys_inv x → sys_inv y.
Proof.
  intros Hst. destruct Hst; try (apply sys_inv_keeps); try subst r.
  - by apply keeps_handle_message.
  - apply keeps_handle_timeout.
  - apply keeps_handle_storage.
  - apply keeps_capture_absorb.
  - by apply keeps_frame, (local_call_frame (L := L) (S := S)).
  - intros [Hw (v & Hm & Hi)]. apply poll_message_grants in H as [Hf Hg].
    split; [by apply (st_wf _ _ (vf_step _ _ Hf))|]. exists v. split; [done|].
    cbn. destruct (grant_of o) as [g|] eqn:Hgo; cbn.
    + destruct Hi as [Hc Hs]. split; [|by eapply self_vote_frame]. eauto using vote_core_emit.
    + rewrite app_nil_r. eauto using vote_inv_frame.
  - intros [Hw (v & Hm & Hi)]. destruct (H v Hm) as [k Hm']. split; [done|]. exists (wv_flush k v).
    eauto using flush_inv.
Qed.

Lemma sys_inv_reach x y : vote_init x → rtc vote_step x y → sys_inv y.
Proof.
  intros Hx%sys_inv_init Hr. induction Hr as [|x y z [Hs|Hs] _ IH]; [done|..];
    eauto using sys_inv_live, sys_inv_crash.
Qed.

(** C1: One vote per term.  Run a node from its first start through any sequence
    of messages, timeouts, storage cranks, proposals, reads, transfers, splits and
    merges, barriers, and crashes with a restart.  Two votes it cast in the same
    term, grants that left it or offices it held, name the same candidate; and
    every one of them is covered by the hard state on disk. *)
Theorem vote_once_per_term x y :
  vote_init x → rtc vote_step x y →
  (∀ t c1 c2, (t, c1) ∈ vs_cast y → (t, c2) ∈ vs_cast y → c1 = c2)
  ∧ ∃ v, stable_models (vs_stable y) v
         ∧ ∀ t c, (t, c) ∈ vs_cast y → ballot_le (t, Some c) (hs_ballot (wv_durable v)).
Proof.
  intros Hx Hr. destruct (sys_inv_reach x y Hx Hr) as [_ (v & Hm & [Hc _])]. split.
  - intros t c1 c2 H1 H2. apply (vi_once _ _ _ Hc t); set_solver.
  - exists v. split; [done|]. intros t c Hin. apply (vi_cast _ _ _ Hc (t, c)). set_solver.
Qed.

(** C2: The state of a node is well formed, always.  After any run the term,
    the applied index and a parked merge are in range, the applied index and the
    parked merge do not pass the commit index, the two fork queues
    agree, the membership is valid with at least one voter, so is every snapshot
    being received or installed, and the fail-stop flag is raised exactly when a
    reason is recorded; and from there no step but a crash moves the term, the
    commit or the applied index back, changes the configuration, or replaces the
    first reason to fail-stop. *)
Theorem endpoint_well_formed x y :
  vote_init x → rtc vote_step x y →
  ep_wf (vs_ep y)
  ∧ ∀ z, live_step y z →
      let e := vs_ep y in let e' := vs_ep z in
      ep_term e ≤ ep_term e' ∧ ep_commit e ≤ ep_commit e' ∧ ep_applied e ≤ ep_applied e'
      ∧ ep_config e' = ep_config e
      ∧ (∀ r, po_poison_reason (ep_poison e) = Some r → po_poison_reason (ep_poison e') = Some r).
Proof.
  intros Hx Hr. destruct (sys_inv_reach x y Hx Hr) as [Hw _]. split; [done|]. intros z Hz.
  destruct (live_step_ep y z Hz Hw) as [Hc Hp Hs]. destruct (Hs Hw) as (_ & ? & ? & ?).
  by split_and!.
Qed.
End system.

(** ** A run: a vote is asked for, written, flushed, reported and let out *)

Module VoteRun.
Import Sample EngineLogDemo.

#[local] Instance small_conf_change : Buffa PbConfChangeV2 := {|
  buffa_encode := λ _, []; buffa_decode := λ _, Err BuffaOther |}.

Definition start : VoteSys (I := N) (F := N) (R := Prng) (S := EngineStable N) :=
  {| vs_ep := node 1; vs_stable := stable; vs_cast := [] |}.

Definition ask : Message N :=
  MRequestVote {| rv_term := 1; rv_candidate := 2; rv_last_log_index := 0; rv_last_log_term := 0;
                  rv_pre_vote := false; rv_leader_transfer := false |}.

Definition asked : VoteSys :=
  let r := handle_message (DC := Data_u64) (DS := Data_u64) (Now_monotonic 5) 2 ask EngineLog_new
             stable (node 1) in
  vs_after start r.2 r.1.2.

Definition durable_ : VoteSys :=
  {| vs_ep := vs_ep asked; vs_stable := (EngineStable_release_staged (vs_stable asked)).2;
     vs_cast := vs_cast asked |}.

Definition wrote : VoteSys :=
  let r := handle_storage (DC := Data_u64) (DS := Data_u64) (Now_monotonic 6) EngineLog_new
             (vs_stable durable_) (vs_ep durable_) in
  vs_after durable_ r.2 r.1.2.

Definition granted : VoteSys :=
  {| vs_ep := (poll_message (vs_ep wrote)).2; vs_stable := vs_stable wrote;
     vs_cast := vs_cast wrote ++ [(1, 2)] |}.

Lemma run_init : vote_init start.
Proof.
  constructor; [|apply Build_es_models; try done; intros id Hin%elem_of_nil; done|done].
  eexists _, _, _, _. split; [|reflexivity]. done.
Qed.

Abbreviation run_step := (vote_step (L := EngineLog) (DC := Data_u64) (DS := Data_u64)).

Lemma run_steps : rtc run_step start granted.
Proof.
  eapply rtc_l; [left; apply (StepMessage _ (Now_monotonic 5) 2 ask EngineLog_new);
    split; [vm_compute; discriminate|done]|].
  eapply rtc_l.
  { left. apply (StepFlush _ (EngineStable_release_staged (vs_stable asked)).2).
    intros v Hv. eexists. by apply es_models_flush. }
  eapply rtc_l; [left; apply (StepStorage durable_ (Now_monotonic 6) EngineLog_new)|].
  apply rtc_once. left.
  apply (StepEmit wrote {| out_to := 2; out_message := vote_response 1 1 false false |}).
  vm_compute. reflexivity.
Qed.

Lemma vote_once_per_term_witness :
  (1, 2) ∈ vs_cast granted
  ∧ (∀ t c1 c2, (t, c1) ∈ vs_cast granted → (t, c2) ∈ vs_cast granted → c1 = c2)
  ∧ ∃ v, stable_models (vs_stable granted) v
         ∧ ∀ t c, (t, c) ∈ vs_cast granted → ballot_le (t, Some c) (hs_ballot (wv_durable v)).
Proof.
  split; [vm_compute; left|].
  exact (vote_once_per_term (L := EngineLog) (DC := Data_u64) (DS := Data_u64)
           start granted run_init run_steps).
Defined.

Lemma endpoint_well_formed_witness : ep_wf (vs_ep granted) ∧ ep_term (vs_ep granted) = 1.
Proof.
  split; [|vm_compute; reflexivity].
  exact (proj1 (endpoint_well_formed (L := EngineLog) (DC := Data_u64) (DS := Data_u64)
           start granted run_init run_steps)).
Defined.
End VoteRun.
