(* ===== verification/Coordinator.v ===== *)
(** * The node behind its connections

    [StreamCoordinator] of [sailing-proto/src/transport/coordinator/mod.rs]: an
    endpoint and a table of connections as one state machine.  Bytes a connection
    reads become messages the endpoint handles, and what the endpoint queues is
    routed to the connections of its peers before each call returns.

    Whatever calls a driver makes, the coordinator is a node of [VoteSafety]: its
    endpoint takes only steps of that system, the votes that go to the router are
    votes the system cast, and the table of connections stays consistent. *)

From S2P Require Import Prelude Bytes Num Quorum Progress ProgressMap Conf Tracker ConfChange.
From S2P Require Import ConfChangeProps Config Lease Prng ReadOnly Data Frame Entry Storage Shape.
From S2P Require Import EngineLog EngineStable Restart Forwarded Wire Message Codec RecordIo Conn.
From S2P Require Import Link Endpoint Router RouterInv RouterSafety Sample Merge Invariant.
From S2P Require Import Persistence Replication Election Propose Handlers Commit Apply Boot Reads.
From S2P Require Import Snapshot Append Drive VoteFrame Frames ApplyFrame HandlerFrame Vote.
From S2P Require Import BootFrame SnapshotFrame VoteDrive VoteSafety.

(** [W] is the record layer. *)
Record StreamCoordinator (I F R W : Type) `{!NodeId I, !StateMachine F} := {
  sc_endpoint : Endpoint I F R;
  sc_router : PeerRouter I W;
  sc_next_conn_id : u64;
}.
Arguments Build_StreamCoordinator {I F R W _ _}.
Arguments sc_endpoint {I F R W _ _}.
Arguments sc_router {I F R W _ _}.
Arguments sc_next_conn_id {I F R W _ _}.

#[global] Instance StreamCoordinator_eta {I F R W} `{!NodeId I, !StateMachine F} :
  Eta (StreamCoordinator I F R W) := λ c,
  Build_StreamCoordinator (sc_endpoint c) (sc_router c) (sc_next_conn_id c).

Section coordinator.
Context {I F R L S W : Type} `{!NodeId I, !StateMachine F, !Rng R, !LogStore L, !StableStore I S}.
Context {DI : Data I} {BS : BuffaSizes} {DC : Data sm_command} {DS : Data sm_snapshot}.
Context {BD : BuffaDecode} {BC : Buffa PbConfChangeV2} `{!RecordIo W}.
Context `{!Buffa PbMessage, !Buffa PbSnapshotMeta, !BuffaWire}.
Abbreviation Endpoint := (Endpoint I F R).
Abbreviation StreamCoordinator := (StreamCoordinator I F R W).
Abbreviation ProposeError := (ProposeError I).
Implicit Types (c : StreamCoordinator) (e : Endpoint) (now : Now) (log : L) (stable : S).

Definition StreamCoordinator_from_endpoint (endpoint : Endpoint) : StreamCoordinator :=
  {| sc_endpoint := endpoint; sc_router := PeerRouter_new; sc_next_conn_id := 1 |}.

(** The generator [seed] starts is the argument. *)
Definition StreamCoordinator_new (config : Config I) now (rng : R) (fsm : F) : StreamCoordinator :=
  StreamCoordinator_from_endpoint (Endpoint_new_with_rng config now rng fsm).

Definition StreamCoordinator_restart (config : Config I) now (rng : R) (fsm : F) (boot_epoch : u64)
    log stable : L * S * StreamCoordinator :=
  let '(log, stable, e) := restart_with_rng config now rng fsm boot_epoch log stable in
  (log, stable, StreamCoordinator_from_endpoint e).

Definition StreamCoordinator_restart_migrating (config : Config I) now (rng : R) (fsm : F)
    (boot_epoch : u64) (assume_prior_lease_support : option Duration) log stable
  : L * S * StreamCoordinator :=
  let '(log, stable, e) :=
    restart_migrating_with_rng config now rng fsm boot_epoch assume_prior_lease_support log stable in
  (log, stable, StreamCoordinator_from_endpoint e).

(** [None]: the id space is exhausted, and the call panics. *)
Definition StreamCoordinator_alloc_conn_id c : option (ConnId * StreamCoordinator) :=
  next ← checked_add (sc_next_conn_id c) 1;
  Some (sc_next_conn_id c, c <| sc_next_conn_id := next |>).

Definition StreamCoordinator_on_dial_open (expected : I) (record : W) (now : Instant) c
  : option (ConnId * StreamCoordinator) :=
  let c := c <| sc_router ::= set_local_id (ep_id (sc_endpoint c)) |> in
  '(id, c) ← StreamCoordinator_alloc_conn_id c;
  Some (id, c <| sc_router ::= register_dial id expected record now |>).

Definition StreamCoordinator_on_accept_open (record : W) (now : Instant) c
  : option (ConnId * StreamCoordinator) :=
  let c := c <| sc_router ::= set_local_id (ep_id (sc_endpoint c)) |> in
  '(id, c) ← StreamCoordinator_alloc_conn_id c;
  Some (id, c <| sc_router ::= register_accept id record now |>).

Definition StreamCoordinator_on_conn_close (conn : ConnId) c : StreamCoordinator :=
  c <| sc_router ::= PeerRouter_remove conn |>.

Definition StreamCoordinator_poll_conn_closed c
  : option (ConnId * option TransportError) * StreamCoordinator :=
  let '(closed, r) := PeerRouter_poll_conn_closed (sc_router c) in (closed, c <| sc_router := r |>).

(** A round takes a message off the endpoint's queue, so as many rounds as it has
    messages are enough. *)
Fixpoint flush_loop (fuel : nat) c : StreamCoordinator :=
  match poll_message (sc_endpoint c) with
  | (None, e) => c <| sc_endpoint := e |>
  | (Some out, e) =>
      let c := c <| sc_endpoint := e |>
                 <| sc_router ::= λ r, (PeerRouter_route [] 0 (out_to out) (out_message out) r).2 |> in
      match fuel with O => c | Datatypes.S fuel => flush_loop fuel c end
  end.

Definition StreamCoordinator_flush c : StreamCoordinator :=
  flush_loop (length (ou_outgoing (ep_outputs (sc_endpoint c)))) c.

(** The messages a read decoded, in order. *)
Fixpoint feed (conn : ConnId) now (decoded : list (Delivered I)) log stable c
  : L * S * StreamCoordinator :=
  match decoded with
  | [] => (log, stable, c)
  | (group, _, _, from, msg) :: decoded =>
      if negb (bool_decide (group = [])) then
        (log, stable, c <| sc_router ::= PeerRouter_close conn (Some Decode) |>)
      else
        let '(log, stable, e) := handle_message now from msg log stable (sc_endpoint c) in
        feed conn now decoded log stable (c <| sc_endpoint := e |>)
  end.

(** [None] when the router panics. *)
Definition StreamCoordinator_handle_conn_data (conn : ConnId) (bytes : bytes) (eof : bool) now
    log stable c : option (L * S * StreamCoordinator) :=
  '(_, decoded, r) ← PeerRouter_handle_conn_data conn bytes eof (now_mono now) (sc_router c);
  let '(log, stable, c) := feed conn now decoded log stable (c <| sc_router := r |>) in
  Some (log, stable, StreamCoordinator_flush c).

Definition StreamCoordinator_submit_propose now (cmd : sm_command) log stable c
  : result Index ProposeError * L * StreamCoordinator :=
  let '(r, log, e) := propose now cmd log (sc_endpoint c) in
  let e := flush_appends now log stable e in
  (r, log, StreamCoordinator_flush (c <| sc_endpoint := e |>)).

Definition StreamCoordinator_submit_propose_deferred now (cmd : sm_command) log c
  : result Index ProposeError * L * StreamCoordinator :=
  let '(r, log, e) := propose now cmd log (sc_endpoint c) in
  (r, log, StreamCoordinator_flush (c <| sc_endpoint := e |>)).

Definition StreamCoordinator_flush_appends now log stable c : StreamCoordinator :=
  StreamCoordinator_flush (c <| sc_endpoint ::= flush_appends now log stable |>).

Definition StreamCoordinator_read_index now (context : bytes) log c
  : result unit ReadIndexError * StreamCoordinator :=
  let '(r, e) := read_index now context log (sc_endpoint c) in
  (r, StreamCoordinator_flush (c <| sc_endpoint := e |>)).

Definition StreamCoordinator_transfer_leader now (to : I) log stable c
  : result unit (TransferError I) * StreamCoordinator :=
  let '(r, e) := transfer_leader now to log stable (sc_endpoint c) in
  (r, StreamCoordinator_flush (c <| sc_endpoint := e |>)).

Definition StreamCoordinator_handle_timeout now log stable c : L * S * StreamCoordinator :=
  let c := c <| sc_router ::= reap_handshakes (now_mono now) |> in
  let '(log, stable, e) := handle_timeout now log stable (sc_endpoint c) in
  (log, stable, StreamCoordinator_flush (c <| sc_endpoint := e |>)).

Definition StreamCoordinator_propose_conf_change now (cc : ConfChange I) log stable c
  : result Index ProposeError * L * StreamCoordinator :=
  let '(r, log, e) := propose_conf_change now cc log (sc_endpoint c) in
  let e := flush_appends now log stable e in
  (r, log, StreamCoordinator_flush (c <| sc_endpoint := e |>)).

Definition StreamCoordinator_propose_conf_change_v2 now (cc : ConfChangeV2 I) log stable c
  : result Index ProposeError * L * StreamCoordinator :=
  let '(r, log, e) := propose_conf_change_v2 now cc log (sc_endpoint c) in
  let e := flush_appends now log stable e in
  (r, log, StreamCoordinator_flush (c <| sc_endpoint := e |>)).

Definition StreamCoordinator_propose_read_mode_change now (mode : ReadOnlyOption) log stable c
  : result Index ProposeError * L * StreamCoordinator :=
  let '(r, log, e) := propose_read_mode_change now mode log (sc_endpoint c) in
  let e := flush_appends now log stable e in
  (r, log, StreamCoordinator_flush (c <| sc_endpoint := e |>)).

Definition StreamCoordinator_handle_storage now log stable c
  : StorageProgress * L * S * StreamCoordinator :=
  let '(progress, log, stable, e) := handle_storage now log stable (sc_endpoint c) in
  (progress, log, stable, StreamCoordinator_flush (c <| sc_endpoint := e |>)).

Definition StreamCoordinator_poll_transmit c : list (ConnId * bytes) * StreamCoordinator :=
  let '(out, r) := PeerRouter_poll_transmit (sc_router c) in (out, c <| sc_router := r |>).

Definition StreamCoordinator_poll_timeout c : option Instant :=
  match poll_timeout (sc_endpoint c), next_handshake_deadline (sc_router c) with
  | Some a, Some b => Some (N.min a b)
  | a, None => a
  | None, b => b
  end.

Definition StreamCoordinator_poll_event c : option (Event I sm_response) * StreamCoordinator :=
  let '(event, e) := poll_event (sc_endpoint c) in (event, c <| sc_endpoint := e |>).

Definition StreamCoordinator_fail_stop_query_panicked c : StreamCoordinator :=
  c <| sc_endpoint ::= fail_stop_query_panicked |>.
End coordinator.

(** ** The table of a host

    The ids come from a counter, and the host names itself before it opens a
    connection. *)

Section table.
Context {I W : Type} `{!NodeId I, !Data I, !RecordIo W, !RecordIoLaws W}.
Context `{!Buffa PbMessage, !Buffa PbSnapshotMeta, !BuffaSizes, !BuffaWire}.
Implicit Types (r : PeerRouter I W) (named : option I → Prop) (next : u64) (id : ConnId).

Record table_ok named next r : Prop := {
  tk_ok : rt_ok None r;
  tk_ids : ∀ id, is_Some (rt_conns r !! id) → id < next ∧ named (rt_local_id r);
}.

Lemma table_new named next : table_ok named next PeerRouter_new.
Proof. split; [apply router_new_ok|]. intros id [c Hc]. cbn in Hc. by rewrite lookup_empty in Hc. Qed.

Lemma table_keeps named next r r' :
  table_ok named next r → rt_ok None r' → (∀ id, is_Some (rt_conns r' !! id) → is_Some (rt_conns r !! id)) →
  rt_local_id r' = rt_local_id r → table_ok named next r'.
Proof. intros [Ho Hi] Ho' Hs Hl. split; [done|]. intros id Hid. rewrite Hl. by apply Hi, Hs. Qed.

Lemma table_fresh named next r : table_ok named next r → rt_conns r !! next = None.
Proof. intros [_ Hi]. apply eq_None_not_Some. intros [? _]%Hi. lia. Qed.

Lemma table_open named next r prov record now :
  record_fresh record → named (rt_local_id r) → table_ok named next r →
  table_ok named (next + 1) (register next prov record now r).
Proof.
  intros Hf Hn [Ho Hi]. split; [by apply register_ok|].
  intros id. unfold register. case_decide as Hd; [intros [? ?]%Hi; split; [lia|done]|]. cbn.
  destruct (decide (next = id)) as [->|]; [split; [lia|done]|]. rewrite lookup_insert_ne by done.
  intros [? _]%Hi. split; [lia|done].
Qed.

Lemma table_name me next r : table_ok (λ o, o = Some me) next r → table_ok (λ o, o = Some me) next (set_local_id me r).
Proof. intros [Ho Hi]. split; [by destruct Ho; split|]. intros id [? _]%Hi. by split. Qed.

Lemma table_remove named next r id : table_ok named next r → table_ok named next (PeerRouter_remove id r).
Proof.
  intros Ht. eapply table_keeps; [exact Ht|by apply router_remove_ok, Ht| |done]. intros j. cbn.
  destruct (decide (id = j)) as [->|]; [rewrite lookup_delete_eq; by intros [? ?]|by rewrite lookup_delete_ne].
Qed.

Lemma table_close named next r id reason : table_ok named next r → table_ok named next (PeerRouter_close id reason r).
Proof.
  intros Ht. unfold PeerRouter_close. case_decide as Hd; [|done].
  eapply table_keeps; [exact Ht|by apply remove_internal_ok, Ht|by apply drops_remove|done].
Qed.

Lemma table_poll_closed named next r : table_ok named next r → table_ok named next (PeerRouter_poll_conn_closed r).2.
Proof. intros Ht. eapply table_keeps; [exact Ht| |done|done]. by destruct Ht as [[] _]; split. Qed.

Lemma table_reap named next r now : table_ok named next r → table_ok named next (reap_handshakes now r).
Proof.
  intros Ht. destruct (reap_handshakes_ok now r (tk_ok _ _ _ Ht)) as (Ho & Hd & _).
  eapply table_keeps; [exact Ht|done|apply Hd|apply remove_all_local].
Qed.

Lemma table_liveness named next r now : table_ok named next r → table_ok named next (service_liveness now r).
Proof.
  intros Ht. destruct (service_liveness_ok now r (tk_ok _ _ _ Ht)) as (Ho & Hd & _).
  eapply table_keeps; [exact Ht|done|apply Hd|apply service_liveness_local].
Qed.

Lemma table_route named next r to send :
  (∀ c, conn_ok c → sent c (send c)) → table_ok named next r → table_ok named next (route_with to send r).2.
Proof.
  intros Hs Ht. destruct (route_with_ok to send r (tk_ok _ _ _ Ht) Hs) as [Ho Hd].
  eapply table_keeps; [exact Ht|done|apply Hd|apply route_with_local].
Qed.

Lemma table_transmit named next r : table_ok named next r → table_ok named next (PeerRouter_poll_transmit r).2.
Proof.
  intros Ht. destruct (poll_transmit_ok r (tk_ok _ _ _ Ht)) as [Ho Hd].
  eapply table_keeps; [exact Ht|done|apply Hd|apply poll_transmit_local].
Qed.

Lemma table_data named next r id bytes eof now res out r' :
  table_ok named next r → PeerRouter_handle_conn_data id bytes eof now r = Some (res, out, r') → table_ok named next r'.
Proof.
  intros Ht Hh. pose proof (tk_ok _ _ _ Ht) as Ho.
  destruct (PeerRouter_handle_conn_data_ok id bytes eof now r Ho) as (res1 & out1 & r1 & Hh1 & Ho' & _).
  assert (r1 = r') as -> by congruence.
  eapply table_keeps; [exact Ht|done|by eapply handle_conn_data_drops|by eapply handle_conn_data_local].
Qed.
End table.

(** ** Every call *)

Section refinement.
Context {I F R L S W : Type} `{!NodeId I, !StateMachine F, !Rng R, !LogStore L, !StableStore I S}.
Context {DI : Data I} {BS : BuffaSizes} {DC : Data sm_command} {DS : Data sm_snapshot}.
Context {BD : BuffaDecode} {BC : Buffa PbConfChangeV2} `{!StableWriteLaws I S}.
Context `{!RecordIo W, !RecordIoLaws W, !DataLaws I}.
Context `{!Buffa PbMessage, !Buffa PbSnapshotMeta, !BuffaWire, !BuffaWidths}.
Abbreviation Endpoint := (Endpoint I F R).
Abbreviation StreamCoordinator := (StreamCoordinator I F R W).
Abbreviation VoteSys := (VoteSys (I := I) (F := F) (R := R) (S := S)).
Abbreviation live_step := (live_step (L := L) (DC := DC) (DS := DS)).
Abbreviation vote_step := (vote_step (L := L) (DC := DC) (DS := DS)).
Implicit Types (c : StreamCoordinator) (e : Endpoint) (now : Now) (log : L) (s : S).
Implicit Types (r : PeerRouter I W).

Inductive coord_op :=
  | CoDial (expected : I) (record : W) (now : Instant)
  | CoAccept (record : W) (now : Instant)
  | CoConnClose (conn : ConnId)
  | CoPollClosed
  | CoData (conn : ConnId) (bytes : bytes) (eof : bool) (now : Now) (log : L)
  | CoPropose (now : Now) (cmd : sm_command) (log : L)
  | CoProposeDeferred (now : Now) (cmd : sm_command) (log : L)
  | CoFlushAppends (now : Now) (log : L)
  | CoReadIndex (now : Now) (context : bytes) (log : L)
  | CoTransfer (now : Now) (to : I) (log : L)
  | CoTimeout (now : Now) (log : L)
  | CoConfChange (now : Now) (cc : ConfChange I) (log : L)
  | CoConfChangeV2 (now : Now) (cc : ConfChangeV2 I) (log : L)
  | CoReadMode (now : Now) (mode : ReadOnlyOption) (log : L)
  | CoStorage (now : Now) (log : L)
  | CoTransmit
  | CoPollEvent
  | CoQueryPanicked.

(** A call over the log it is given and the stable store. *)
Definition coord_step (op : coord_op) c s : option (StreamCoordinator * S) :=
  match op with
  | CoDial expected record now => '(_, c) ← StreamCoordinator_on_dial_open expected record now c; Some (c, s)
  | CoAccept record now => '(_, c) ← StreamCoordinator_on_accept_open record now c; Some (c, s)
  | CoConnClose conn => Some (StreamCoordinator_on_conn_close conn c, s)
  | CoPollClosed => Some ((StreamCoordinator_poll_conn_closed c).2, s)
  | CoData conn bytes eof now log =>
      '(_, s, c) ← StreamCoordinator_handle_conn_data conn bytes eof now log s c; Some (c, s)
  | CoPropose now cmd log => Some ((StreamCoordinator_submit_propose now cmd log s c).2, s)
  | CoProposeDeferred now cmd log => Some ((StreamCoordinator_submit_propose_deferred now cmd log c).2, s)
  | CoFlushAppends now log => Some (StreamCoordinator_flush_appends now log s c, s)
  | CoReadIndex now context log => Some ((StreamCoordinator_read_index now context log c).2, s)
  | CoTransfer now to log => Some ((StreamCoordinator_transfer_leader now to log s c).2, s)
  | CoTimeout now log => let x := StreamCoordinator_handle_timeout now log s c in Some (x.2, x.1.2)
  | CoConfChange now cc log => Some ((StreamCoordinator_propose_conf_change now cc log s c).2, s)
  | CoConfChangeV2 now cc log => Some ((StreamCoordinator_propose_conf_change_v2 now cc log s c).2, s)
  | CoReadMode now mode log => Some ((StreamCoordinator_propose_read_mode_change now mode log s c).2, s)
  | CoStorage now log => let x := StreamCoordinator_handle_storage now log s c in Some (x.2, x.1.2)
  | CoTransmit => Some ((StreamCoordinator_poll_transmit c).2, s)
  | CoPollEvent => Some ((StreamCoordinator_poll_event c).2, s)
  | CoQueryPanicked => Some (StreamCoordinator_fail_stop_query_panicked c, s)
  end.

Definition coord_op_ok (op : coord_op) : Prop :=
  match op with CoDial _ record _ | CoAccept record _ => record_fresh record | _ => True end.

(** The coordinator as the flush at the end of a call finds it; [None] for a call
    that does not flush. *)
Definition coord_ready (op : coord_op) c s : option StreamCoordinator :=
  let e := sc_endpoint c in
  let ready e := Some (c <| sc_endpoint := e |>) in
  let appended now (x : result Index (ProposeError I) * L * Endpoint) := ready (flush_appends now x.1.2 s x.2) in
  match op with
  | CoData conn bytes eof now log =>
      '(_, decoded, r) ← PeerRouter_handle_conn_data conn bytes eof (now_mono now) (sc_router c);
      Some (feed conn now decoded log s (c <| sc_router := r |>)).2
  | CoPropose now cmd log => appended now (propose now cmd log e)
  | CoProposeDeferred now cmd log => ready (propose now cmd log e).2
  | CoFlushAppends now log => ready (flush_appends now log s e)
  | CoReadIndex now context log => ready (read_index now context log e).2
  | CoTransfer now to log => ready (transfer_leader now to log s e).2
  | CoTimeout now log =>
      Some (c <| sc_router ::= reap_handshakes (now_mono now) |> <| sc_endpoint := (handle_timeout now log s e).2 |>)
  | CoConfChange now cc log => appended now (propose_conf_change now cc log e)
  | CoConfChangeV2 now cc log => appended now (propose_conf_change_v2 now cc log e)
  | CoReadMode now mode log => appended now (propose_read_mode_change now mode log e)
  | CoStorage now log => ready (handle_storage now log s e).2
  | CoDial _ _ _ | CoAccept _ _ | CoConnClose _ | CoPollClosed | CoTransmit | CoPollEvent | CoQueryPanicked => None
  end.

(** What an endpoint lets out; a fail-stopped one lets out nothing. *)
Definition pending e : list (Outgoing I) :=
  if is_poisoned e then [] else ou_outgoing (ep_outputs e).

(** What a call hands to the router. *)
Definition coord_sent (op : coord_op) c s : list (Outgoing I) :=
  match coord_ready op c s with Some c1 => pending (sc_endpoint c1) | None => [] end.

Definition route_all (outs : list (Outgoing I)) r : PeerRouter I W :=
  foldl (λ r o, (PeerRouter_route [] 0 (out_to o) (out_message o) r).2) r outs.

Definition node e s cast : VoteSys := {| vs_ep := e; vs_stable := s; vs_cast := cast |}.

(** ** The flush *)

Definition drained e : Endpoint :=
  if is_poisoned e then e else e <| ep_outputs ::= λ o, o <| ou_outgoing := [] |> |>.

Lemma drained_next e : (poll_message (drained e)).1 = None.
Proof.
  unfold drained, poll_message. destruct (is_poisoned e) eqn:Hp; [by rewrite Hp|].
  by change (is_poisoned _) with (is_poisoned e); rewrite Hp.
Qed.

Lemma pending_next e :
  match pending e with
  | [] => poll_message e = (None, e) ∧ drained e = e
  | o :: q => ∃ e', poll_message e = (Some o, e') ∧ pending e' = q ∧ drained e' = drained e
                    ∧ length (ou_outgoing (ep_outputs e)) = Datatypes.S (length (ou_outgoing (ep_outputs e')))
  end.
Proof.
  unfold pending, poll_message, drained. destruct (is_poisoned e) eqn:Hp; [done|].
  destruct (ou_outgoing (ep_outputs e)) as [|o q] eqn:Hq.
  - split; [done|]. destruct e. cbn in *. match type of Hq with ou_outgoing ?o = _ => destruct o end. cbn in *. by subst.
  - eexists. split; [done|]. change (is_poisoned _) with (is_poisoned e). by rewrite Hp.
Qed.

Lemma flush_loop_exact fuel c :
  (length (ou_outgoing (ep_outputs (sc_endpoint c))) ≤ fuel)%nat →
  flush_loop fuel c
  = {| sc_endpoint := drained (sc_endpoint c); sc_router := route_all (pending (sc_endpoint c)) (sc_router c);
       sc_next_conn_id := sc_next_conn_id c |}.
Proof.
  revert c. induction fuel as [|fuel IH]; intros c Hf;
    pose proof (pending_next (sc_endpoint c)) as Hp; cbn [flush_loop];
    destruct (pending (sc_endpoint c)) as [|o q]; try (destruct Hp as [-> ->]; by destruct c);
    destruct Hp as (e' & -> & <- & <- & Hl); [lia|].
  rewrite IH by (cbn; lia). done.
Qed.

Lemma flush_exact c :
  StreamCoordinator_flush c
  = {| sc_endpoint := drained (sc_endpoint c); sc_router := route_all (pending (sc_endpoint c)) (sc_router c);
       sc_next_conn_id := sc_next_conn_id c |}.
Proof. by apply flush_loop_exact. Qed.

Lemma flush_emits e s cast :
  rtc live_step (node e s cast) (node (drained e) s (cast ++ omap grant_of (pending e))).
Proof.
  remember (pending e) as q eqn:Hq. revert e cast Hq. induction q as [|o q IH]; intros e cast Hq;
    pose proof (pending_next e) as Hp; rewrite <- Hq in Hp.
  - destruct Hp as [_ ->]. cbn. by rewrite app_nil_r.
  - destruct Hp as (e' & He & Hq' & <- & _). eapply rtc_l; [by apply (StepEmit (node e s cast) o e')|].
    replace (cast ++ omap grant_of (o :: q)) with ((cast ++ option_list (grant_of o)) ++ omap grant_of q);
      [by apply IH|]. rewrite <- (assoc_L (++)). f_equal. cbn. by destruct (grant_of o).
Qed.

Lemma route_all_table named next outs r : table_ok named next r → table_ok named next (route_all outs r).
Proof.
  unfold route_all. revert r. induction outs as [|o outs IH]; intros r Ht; [done|]. cbn [foldl].
  apply IH, table_route; [|done]. apply Conn_send_message_ok.
Qed.

(** ** The steps of a node *)

Lemma decode_message_u64 b (m : Message I) : decode_message b = Ok m → message_u64 m.
Proof.
  unfold decode_message. intros [w [Hw Hm]]%result_bind_Ok. apply map_err_Ok, buffa_decode_u64 in Hw.
  apply message_from_spec in Hm as [_ ->]. by destruct m.
Qed.

(** [e] at [s] came from [x] by steps of the node. *)
Definition runs_to (x : VoteSys) e s : Prop := ∃ cast, rtc live_step x (node e s cast).

Lemma runs_refl x : runs_to x (vs_ep x) (vs_stable x).
Proof. exists (vs_cast x). by destruct x. Qed.

Lemma runs_call x e s e' : runs_to x e s → local_call (L := L) (S := S) e e' → runs_to x e' s.
Proof. intros [cast Hr] Hc. eexists. eapply rtc_r; [exact Hr|]. by apply (StepCall (node e s cast)). Qed.

Lemma runs_message x e s now from m log :
  runs_to x e s → message_u64 m → let r := handle_message now from m log s e in runs_to x r.2 r.1.2.
Proof. intros [cast Hr] Hm. eexists. eapply rtc_r; [exact Hr|]. by apply (StepMessage (node e s cast)). Qed.

Lemma runs_timeout x e s now log :
  runs_to x e s → let r := handle_timeout now log s e in runs_to x r.2 r.1.2.
Proof. intros [cast Hr]. eexists. eapply rtc_r; [exact Hr|]. by apply (StepTimeout (node e s cast)). Qed.

Lemma runs_storage x e s now log :
  runs_to x e s → let r := handle_storage now log s e in runs_to x r.2 r.1.2.
Proof. intros [cast Hr]. eexists. eapply rtc_r; [exact Hr|]. by apply (StepStorage (node e s cast)). Qed.

Lemma feed_runs x conn now decoded log s c :
  (∀ g f n p m, (g, f, n, p, m) ∈ decoded → message_u64 m) → runs_to x (sc_endpoint c) s →
  let r := feed conn now decoded log s c in runs_to x (sc_endpoint r.2) r.1.2.
Proof.
  revert log s c. induction decoded as [|[[[[g f] n] p] m] decoded IH]; intros log s c Hu Hr; [done|]. cbn [feed].
  destruct (negb (bool_decide (g = []))); [done|].
  pose proof (runs_message x _ s now p m log Hr (Hu g f n p m ltac:(left))) as Hm.
  destruct (handle_message now p m log s (sc_endpoint c)) as [[log1 s1] e1]. apply IH; [|done].
  intros g' f' n' p' m' Hin. apply (Hu g' f' n' p'). by right.
Qed.

(** A call hands the votes of the endpoint to the router, and they were cast. *)
Definition node_call (x : VoteSys) (sent : list (Outgoing I)) e s : Prop :=
  ∃ cast, rtc live_step x (node e s cast) ∧ omap grant_of sent ⊆ cast.

Lemma flush_call x c s :
  runs_to x (sc_endpoint c) s → node_call x (pending (sc_endpoint c)) (sc_endpoint (StreamCoordinator_flush c)) s.
Proof.
  intros [cast Hr]. eexists. split; [|apply list_subseteq_app_r; done]. etrans; [exact Hr|].
  rewrite flush_exact. apply flush_emits.
Qed.

Lemma flush_call_at x c e s :
  runs_to x e s → node_call x (pending e) (sc_endpoint (StreamCoordinator_flush (c <| sc_endpoint := e |>))) s.
Proof. exact (flush_call x (c <| sc_endpoint := e |>) s). Qed.

Lemma coord_quiet_call x e s : runs_to x e s → node_call x [] e s.
Proof. intros [cast Hr]. exists cast. split; [done|]. by intros ? ?%elem_of_nil. Qed.

Lemma appended_call x c s now log e :
  runs_to x (sc_endpoint c) s → local_call (L := L) (S := S) (sc_endpoint c) e →
  let e1 := flush_appends now log s e in
  node_call x (pending e1) (sc_endpoint (StreamCoordinator_flush (c <| sc_endpoint := e1 |>))) s.
Proof.
  intros Hx Hc e1. apply flush_call_at. eapply runs_call; [by eapply runs_call|].
  apply CallFlush.
Qed.

Lemma coord_step_node op c s c' s' cast :
  coord_step op c s = Some (c', s') →
  node_call (node (sc_endpoint c) s cast) (coord_sent op c s) (sc_endpoint c') s'.
Proof.
  pose proof (runs_refl (node (sc_endpoint c) s cast)) as Hx. cbn in Hx. set (x := node _ _ _) in *. clearbody x.
  destruct op; unfold coord_sent; cbn [coord_step coord_ready].
  - unfold StreamCoordinator_on_dial_open, StreamCoordinator_alloc_conn_id. cbn [sc_next_conn_id].
    destruct (checked_add _ 1); [|done]. intros [= <- <-]. by apply coord_quiet_call.
  - unfold StreamCoordinator_on_accept_open, StreamCoordinator_alloc_conn_id.
    destruct (checked_add _ 1); [|done]. intros [= <- <-]. by apply coord_quiet_call.
  - intros [= <- <-]. by apply coord_quiet_call.
  - intros [= <- <-]. by apply coord_quiet_call.
  - unfold StreamCoordinator_handle_conn_data.
    destruct (PeerRouter_handle_conn_data _ _ _ _ _) as [[[res decoded] r]|] eqn:Hd; [|done]. cbn [mbind option_bind].
    pose proof (feed_runs x conn now decoded log s (c <| sc_router := r |>)) as Hf.
    destruct (feed _ _ _ _ _ _) as [[log1 s1] c1]. intros [= <- <-]. apply flush_call, Hf; [|done].
    intros g f n p m Hin. destruct (handle_conn_data_decoded _ _ _ _ _ _ _ _ _ _ _ _ _ Hd Hin) as [b Hb].
    by eapply decode_message_u64.
  - unfold StreamCoordinator_submit_propose. pose proof (CallPropose (S := S) (sc_endpoint c) now cmd log) as Hc. destruct (propose now cmd log (sc_endpoint c)) as [[res log1] e1].
    intros [= <- <-]. by apply appended_call.
  - unfold StreamCoordinator_submit_propose_deferred. pose proof (CallPropose (S := S) (sc_endpoint c) now cmd log) as Hc. destruct (propose now cmd log (sc_endpoint c)) as [[res log1] e1].
    intros [= <- <-]. apply flush_call_at. by eapply runs_call.
  - intros [= <- <-]. apply (flush_call_at x c (flush_appends now log s (sc_endpoint c))). eapply runs_call; [done|].
    apply CallFlush.
  - unfold StreamCoordinator_read_index. pose proof (CallReadIndex (S := S) (sc_endpoint c) now context log) as Hc. destruct (read_index now context log (sc_endpoint c)) as [res e1].
    intros [= <- <-]. apply flush_call_at. by eapply runs_call.
  - unfold StreamCoordinator_transfer_leader. pose proof (CallTransfer (sc_endpoint c) now to log s) as Hc. destruct (transfer_leader now to log s (sc_endpoint c)) as [res e1].
    intros [= <- <-]. apply flush_call_at. by eapply runs_call.
  - unfold StreamCoordinator_handle_timeout. pose proof (runs_timeout x (sc_endpoint c) s now log Hx) as Ht.
    change (sc_endpoint (c <| sc_router ::= reap_handshakes (now_mono now) |>)) with (sc_endpoint c).
    destruct (handle_timeout now log s (sc_endpoint c)) as [[log1 s1] e1]. intros [= <- <-].
    by apply flush_call_at.
  - unfold StreamCoordinator_propose_conf_change. pose proof (CallProposeConfChange (S := S) (sc_endpoint c) now cc log) as Hc. destruct (propose_conf_change now cc log (sc_endpoint c)) as [[res log1] e1].
    intros [= <- <-]. by apply appended_call.
  - unfold StreamCoordinator_propose_conf_change_v2. pose proof (CallProposeConfChangeV2 (S := S) (sc_endpoint c) now cc log) as Hc. destruct (propose_conf_change_v2 now cc log (sc_endpoint c)) as [[res log1] e1].
    intros [= <- <-]. by apply appended_call.
  - unfold StreamCoordinator_propose_read_mode_change. pose proof (CallProposeReadMode (S := S) (sc_endpoint c) now mode log) as Hc. destruct (propose_read_mode_change now mode log (sc_endpoint c)) as [[res log1] e1].
    intros [= <- <-]. by apply appended_call.
  - unfold StreamCoordinator_handle_storage. pose proof (runs_storage x (sc_endpoint c) s now log Hx) as Ht.
    destruct (handle_storage now log s (sc_endpoint c)) as [[[pr log1] s1] e1]. intros [= <- <-].
    by apply flush_call_at.
  - unfold StreamCoordinator_poll_transmit. destruct (PeerRouter_poll_transmit _). intros [= <- <-]. by apply coord_quiet_call.
  - unfold StreamCoordinator_poll_event. pose proof (CallPollEvent (L := L) (S := S) (sc_endpoint c)) as Hc.
    destruct (poll_event _). intros [= <- <-]. apply coord_quiet_call. by eapply runs_call.
  - intros [= <- <-]. apply coord_quiet_call. eapply runs_call; [done|]. apply CallQueryPanicked.
Qed.

Lemma flush_table me c :
  table_ok (λ o, o = Some me) (sc_next_conn_id c) (sc_router c) →
  let c' := StreamCoordinator_flush c in table_ok (λ o, o = Some me) (sc_next_conn_id c') (sc_router c').
Proof. intros Ht. rewrite flush_exact. by apply route_all_table. Qed.

Lemma feed_table me conn now decoded log s c :
  table_ok (λ o, o = Some me) (sc_next_conn_id c) (sc_router c) →
  let c' := (feed conn now decoded log s c).2 in table_ok (λ o, o = Some me) (sc_next_conn_id c') (sc_router c').
Proof.
  revert log s c. induction decoded as [|[[[[g f] n] p] m] decoded IH]; intros log s c Ht; [done|]. cbn [feed].
  destruct (negb (bool_decide (g = []))); [by apply table_close|].
  destruct (handle_message now p m log s (sc_endpoint c)) as [[log1 s1] e1]. by apply IH.
Qed.

Lemma alloc_table me id record (now : Instant) prov c c' :
  record_fresh record → table_ok (λ o, o = Some me) (sc_next_conn_id c) (sc_router c) →
  StreamCoordinator_alloc_conn_id (c <| sc_router ::= set_local_id me |>) = Some (id, c') →
  rt_conns (sc_router c) !! id = None
  ∧ table_ok (λ o, o = Some me) (sc_next_conn_id c') (register id prov record now (sc_router c')).
Proof.
  intros Hf Ht. unfold StreamCoordinator_alloc_conn_id. cbn [sc_next_conn_id].
  destruct (checked_add _ 1) as [next|] eqn:Hn; [|done]. apply checked_add_Some in Hn as [-> _].
  intros [= <- <-]. split; [by eapply table_fresh|]. apply table_open; [done|done|]. by apply table_name.
Qed.

Lemma coord_step_table op c s c' s' :
  let me := ep_id (sc_endpoint c) in
  coord_op_ok op → table_ok (λ o, o = Some me) (sc_next_conn_id c) (sc_router c) → coord_step op c s = Some (c', s') →
  table_ok (λ o, o = Some me) (sc_next_conn_id c') (sc_router c').
Proof.
  intros me Hop Ht. destruct op; cbn [coord_step].
  - unfold StreamCoordinator_on_dial_open. destruct (StreamCoordinator_alloc_conn_id _) as [[id c1]|] eqn:Ha; [|done].
    intros [= <- <-]. exact (proj2 (alloc_table me id record now (Dialed expected) c c1 Hop Ht Ha)).
  - unfold StreamCoordinator_on_accept_open. destruct (StreamCoordinator_alloc_conn_id _) as [[id c1]|] eqn:Ha; [|done].
    intros [= <- <-]. exact (proj2 (alloc_table me id record now Accepted c c1 Hop Ht Ha)).
  - intros [= <- <-]. by apply table_remove.
  - intros [= <- <-]. by apply table_poll_closed.
  - unfold StreamCoordinator_handle_conn_data.
    destruct (PeerRouter_handle_conn_data _ _ _ _ _) as [[[res decoded] r]|] eqn:Hd; [|done]. cbn [mbind option_bind].
    pose proof (feed_table me conn now decoded log s (c <| sc_router := r |>)) as Hf.
    destruct (feed _ _ _ _ _ _) as [[log1 s1] c1]. intros [= <- <-]. apply flush_table, Hf. by eapply table_data.
  - intros [= <- <-]. unfold StreamCoordinator_submit_propose. destruct (propose _ _ _ _) as [[]]. by apply flush_table.
  - intros [= <- <-]. unfold StreamCoordinator_submit_propose_deferred. destruct (propose _ _ _ _) as [[]].
    by apply flush_table.
  - intros [= <- <-]. by apply flush_table.
  - intros [= <- <-]. unfold StreamCoordinator_read_index. destruct (read_index _ _ _ _). by apply flush_table.
  - intros [= <- <-]. unfold StreamCoordinator_transfer_leader. destruct (transfer_leader _ _ _ _ _).
    by apply flush_table.
  - intros [= <- <-]. unfold StreamCoordinator_handle_timeout. destruct (handle_timeout _ _ _ _) as [[]].
    by apply flush_table, table_reap.
  - intros [= <- <-]. unfold StreamCoordinator_propose_conf_change. destruct (propose_conf_change _ _ _ _) as [[]].
    by apply flush_table.
  - intros [= <- <-]. unfold StreamCoordinator_propose_conf_change_v2.
    destruct (propose_conf_change_v2 _ _ _ _) as [[]]. by apply flush_table.
  - intros [= <- <-]. unfold StreamCoordinator_propose_read_mode_change.
    destruct (propose_read_mode_change _ _ _ _) as [[]]. by apply flush_table.
  - intros [= <- <-]. unfold StreamCoordinator_handle_storage. destruct (handle_storage _ _ _ _) as [[[]]].
    by apply flush_table.
  - intros [= <- <-]. pose proof (table_transmit _ _ _ Ht) as Hr. unfold StreamCoordinator_poll_transmit.
    by destruct (PeerRouter_poll_transmit _).
  - intros [= <- <-]. unfold StreamCoordinator_poll_event. by destruct (poll_event _).
  - by intros [= <- <-].
Qed.

(** ** The host *)

(** [ch_wire] is the world's record: what the coordinator handed to its router. *)
Record CoordHost := {
  ch_coord : StreamCoordinator;
  ch_stable : S;
  ch_wire : list (Outgoing I);
}.

Definition ch_node (x : CoordHost) cast : VoteSys := node (sc_endpoint (ch_coord x)) (ch_stable x) cast.

(** The calls of a driver, barriers of the store, and crashes with a restart under
    a later boot epoch, which loses every connection. *)
Inductive host_step (x : CoordHost) : CoordHost → Prop :=
| HostCall op c s :
    coord_op_ok op → coord_step op (ch_coord x) (ch_stable x) = Some (c, s) →
    host_step x {| ch_coord := c; ch_stable := s;
                   ch_wire := ch_wire x ++ coord_sent op (ch_coord x) (ch_stable x) |}
| HostBarrier s :
    flushed (ch_stable x) s →
    host_step x {| ch_coord := ch_coord x; ch_stable := s; ch_wire := ch_wire x |}
| HostCrash config now rng fsm epoch prior log s :
    crashed (ch_stable x) s → snapshot_u64 (stable_discard_snapshot_staging s) →
    cfg_voters config ≠ [] → opid_epoch (ep_next_op_id (sc_endpoint (ch_coord x))) < epoch →
    let r := StreamCoordinator_restart_migrating config now rng fsm epoch prior log s in
    host_step x {| ch_coord := r.2; ch_stable := r.1.2; ch_wire := ch_wire x |}.

Record host_init (x : CoordHost) : Prop := {
  hi_coord : ∃ config now rng fsm, cfg_voters config ≠ []
               ∧ ch_coord x = StreamCoordinator_new config now rng fsm;
  hi_store : stable_models (ch_stable x)
               {| wv_durable := HardState_initial; wv_unflushed := []; wv_done := [] |};
  hi_wire : ch_wire x = [];
}.

Definition coord_table c : Prop := table_ok (λ o, o = Some (ep_id (sc_endpoint c))) (sc_next_conn_id c) (sc_router c).

Lemma live_step_cast (x y : VoteSys) : live_step x y → vs_cast x ⊆ vs_cast y.
Proof. destruct 1; cbn; try done; by apply list_subseteq_app_l. Qed.

Lemma live_steps_cast (x y : VoteSys) : rtc live_step x y → vs_cast x ⊆ vs_cast y.
Proof. induction 1; [done|]. etrans; [by apply live_step_cast|done]. Qed.

Lemma live_steps_id (x y : VoteSys) : rtc live_step x y → sys_inv x → ep_id (vs_ep y) = ep_id (vs_ep x).
Proof.
  induction 1 as [|x y z Hs _ IH]; intros Hi; [done|]. rewrite IH by (by eapply sys_inv_live).
  destruct (live_step_ep x y Hs (proj1 Hi)) as [Hc _ _]. unfold ep_id. by rewrite Hc.
Qed.

(** What holds of a host that started as [x]. *)
Record host_ok (x y : CoordHost) : Prop := {
  hk_node : ∃ cast, rtc vote_step (ch_node x []) (ch_node y cast) ∧ omap grant_of (ch_wire y) ⊆ cast;
  hk_table : coord_table (ch_coord y);
}.

Lemma host_init_node x : host_init x → vote_init (ch_node x []).
Proof.
  intros [(config & now & rng & fsm & Hv & He) Hs Hw]. constructor; [|done..].
  eexists config, now, rng, fsm. split; [done|]. cbn. by rewrite He.
Qed.

Lemma host_step_ok x y z : host_init x → host_ok x y → host_step y z → host_ok x z.
Proof.
  intros Hx [(cast & Hr & Hw) Ht] Hs.
  pose proof (sys_inv_reach _ _ (host_init_node x Hx) Hr) as Hi.
  destruct Hs as [op c s Hop Hc|s Hf|config now rng fsm epoch prior log s Hc Hu Hv He x'].
  - destruct (coord_step_node op _ _ c s cast Hc) as (cast' & Hn & Hg). split.
    + exists cast'. split; [etrans; [exact Hr|]; by eapply rtc_subrel; [|exact Hn]; left|].
      cbn. rewrite omap_app. apply list_subseteq_app_iff_l. split; [|done]. etrans; [exact Hw|].
      exact (live_steps_cast _ _ Hn).
    + unfold coord_table. cbn. rewrite (live_steps_id _ _ Hn Hi : ep_id (sc_endpoint c) = _).
      by eapply coord_step_table.
  - split; [|done]. exists cast. split; [|done]. eapply rtc_r; [exact Hr|]. left. by apply (StepFlush (ch_node y cast)).
  - subst x'. split.
    + exists cast. split; [|done]. eapply rtc_r; [exact Hr|]. right.
      pose proof (StepCrash (ch_node y cast) config now rng fsm epoch prior log s Hc Hu Hv He) as Hst.
      unfold ch_node, StreamCoordinator_restart_migrating, restart_migrating_with_rng in *.
      by destruct (restart_inner config now rng fsm epoch prior log s) as [[log1 s1] e1].
    + unfold StreamCoordinator_restart_migrating, restart_migrating_with_rng.
      destruct (restart_inner config now rng fsm epoch prior log s) as [[log1 s1] e1]. apply table_new.
Qed.

Lemma host_reach_ok x y : host_init x → rtc host_step x y → host_ok x y.
Proof.
  intros Hx. apply (rtc_ind_r (λ y, host_ok x y) x); [|intros y' z _ Hs Hy; by eapply host_step_ok].
  split.
  - exists []. split; [done|]. by rewrite (hi_wire _ Hx).
  - destruct Hx as [(config & now & rng & fsm & _ & ->) _ _]. apply table_new.
Qed.

Lemma coord_step_returns op c s :
  coord_table c → sc_next_conn_id c < u64_max → ∃ c' s', coord_step op c s = Some (c', s').
Proof.
  intros Ht Hn. assert (checked_add (sc_next_conn_id c) 1 = Some (sc_next_conn_id c + 1)) as Ha
    by (apply checked_add_Some; split; [done|lia]).
  destruct op; cbn [coord_step]; try by eauto.
  - unfold StreamCoordinator_on_dial_open, StreamCoordinator_alloc_conn_id. cbn. rewrite Ha. cbn. by eauto.
  - unfold StreamCoordinator_on_accept_open, StreamCoordinator_alloc_conn_id. cbn. rewrite Ha. cbn. by eauto.
  - unfold StreamCoordinator_handle_conn_data.
    destruct (PeerRouter_handle_conn_data_ok conn bytes eof (now_mono now) (sc_router c) (tk_ok _ _ _ Ht))
      as (res & out & r & -> & _). cbn [mbind option_bind]. destruct (feed _ _ _ _ _ _) as [[]]. cbn. by eauto.
Qed.

Lemma coord_step_flushes op c s c' s' c1 :
  coord_step op c s = Some (c', s') → coord_ready op c s = Some c1 → c' = StreamCoordinator_flush c1.
Proof.
  destruct op; cbn [coord_step coord_ready]; try done.
  - unfold StreamCoordinator_handle_conn_data.
    destruct (PeerRouter_handle_conn_data _ _ _ _ _) as [[[res decoded] r]|]; [|done]. cbn [mbind option_bind].
    destruct (feed _ _ _ _ _ _) as [[log1 s1] c2]. by intros [= <- <-] [= <-].
  - unfold StreamCoordinator_submit_propose. destruct (propose _ _ _ _) as [[]]. by intros [= <- <-] [= <-].
  - unfold StreamCoordinator_submit_propose_deferred. destruct (propose _ _ _ _) as [[]].
    by intros [= <- <-] [= <-].
  - by intros [= <- <-] [= <-].
  - unfold StreamCoordinator_read_index. destruct (read_index _ _ _ _). by intros [= <- <-] [= <-].
  - unfold StreamCoordinator_transfer_leader. destruct (transfer_leader _ _ _ _ _). by intros [= <- <-] [= <-].
  - unfold StreamCoordinator_handle_timeout.
    change (sc_endpoint (c <| sc_router ::= reap_handshakes (now_mono now) |>)) with (sc_endpoint c).
    destruct (handle_timeout _ _ _ _) as [[]]. by intros [= <- <-] [= <-].
  - unfold StreamCoordinator_propose_conf_change. destruct (propose_conf_change _ _ _ _) as [[]].
    by intros [= <- <-] [= <-].
  - unfold StreamCoordinator_propose_conf_change_v2. destruct (propose_conf_change_v2 _ _ _ _) as [[]].
    by intros [= <- <-] [= <-].
  - unfold StreamCoordinator_propose_read_mode_change. destruct (propose_read_mode_change _ _ _ _) as [[]].
    by intros [= <- <-] [= <-].
  - unfold StreamCoordinator_handle_storage. destruct (handle_storage _ _ _ _) as [[[]]].
    by intros [= <- <-] [= <-].
Qed.

(** C3: a node behind connections votes once per term.  Drive a coordinator from
    its first start through any sequence of calls, with any bytes arriving on any
    connection, barriers of the store and crashes.  Its endpoint and store only ever
    take steps of the node of [vote_once_per_term], and every vote it handed to the
    router was cast there: two votes it sent in one term name the same candidate.
    Connection ids are below the counter and the router knows the node's own name
    whenever a connection is open, so a new connection never takes the id of an open
    one and a connection to itself is refused.  From there no call panics while the counter of ids has a
    value left, and a call that flushes hands everything the endpoint queued to the
    router, in order, and leaves nothing queued. *)
Theorem coordinator_is_node x y :
  host_init x → rtc host_step x y →
  (∃ cast, rtc vote_step (ch_node x []) (ch_node y cast) ∧ omap grant_of (ch_wire y) ⊆ cast)
  ∧ (∀ t p1 p2, (t, p1) ∈ omap grant_of (ch_wire y) → (t, p2) ∈ omap grant_of (ch_wire y) → p1 = p2)
  ∧ coord_table (ch_coord y)
  ∧ ∀ op, sc_next_conn_id (ch_coord y) < u64_max →
      ∃ c s, coord_step op (ch_coord y) (ch_stable y) = Some (c, s)
        ∧ match coord_ready op (ch_coord y) (ch_stable y) with
          | None => True
          | Some c1 => (poll_message (sc_endpoint c)).1 = None
                       ∧ sc_router c = route_all (pending (sc_endpoint c1)) (sc_router c1)
          end.
Proof.
  intros Hx Hr. destruct (host_reach_ok x y Hx Hr) as [(cast & Hn & Hw) Ht]. split_and!; [by eauto| |done|].
  - destruct (sys_inv_reach _ _ (host_init_node x Hx) Hn) as [_ (v & Hm & [Hc _])]. intros t p1 p2 H1 H2.
    apply (vi_once _ _ _ Hc t); apply elem_of_app; left; by apply Hw.
  - intros op Hid. destruct (coord_step_returns op _ (ch_stable y) Ht Hid) as (c & s & Hs). exists c, s.
    split; [done|]. destruct (coord_ready op _ _) as [c1|] eqn:He; [|done].
    rewrite (coord_step_flushes op _ _ _ _ _ Hs He), flush_exact. split; [apply drained_next|done].
Qed.
End refinement.

(** ** A vote over a connection

    Node 1 accepts a connection, which says it is node 2 and asks for a vote in
    term 1; the store flushes, and the answer leaves by that connection. *)

Module CoordRun.
Import Sample EngineLogDemo.

#[local] Existing Instance VoteRun.small_conf_change.
#[local] Existing Instances Proto3Wire.wire Proto3Wire.meta.

(** Writes nothing, and reads a vote request of node 2. *)
#[local] Instance vote_wire : Buffa PbMessage := {|
  buffa_encode := λ _, [];
  buffa_decode := λ b, if decide (b = [x01]) then Ok (pb_message VoteRun.ask) else Err BuffaOther;
|}.

#[local] Instance vote_widths : BuffaWidths.
Proof. intros b w. cbn. case_decide; [|done]. intros [= <-]. by split; [unfold is_u64; vm_compute|]. Qed.

Definition cluster : ClusterId := replicate 16 x07.
Definition hello (id : N) : bytes := build_hello cluster (data_encode id).
Definition accepted : Plain := Build_Labeled Passthrough_new cluster (hello 1) Acceptor [] [] None false.

Abbreviation op := (coord_op (I := N) (F := N) (L := EngineLog) (W := Plain)).
Abbreviation host := (CoordHost (I := N) (F := N) (R := Prng) (S := EngineStable N) (W := Plain)).

Definition start : host :=
  {| ch_coord := StreamCoordinator_from_endpoint (node 1); ch_stable := stable; ch_wire := [] |}.

Definition call (o : op) (x : host) : host :=
  match coord_step (DC := Data_u64) (DS := Data_u64) o (ch_coord x) (ch_stable x) with
  | Some (c, s) =>
      {| ch_coord := c; ch_stable := s;
         ch_wire := ch_wire x ++ coord_sent (DC := Data_u64) (DS := Data_u64) o (ch_coord x) (ch_stable x) |}
  | None => x
  end.

Definition opened : host := call (CoAccept accepted 3) start.

Definition greeted : host := call (CoData 1 (hello 2) false (Now_monotonic 4) EngineLog_new) opened.

Definition asked : host :=
  call (CoData 1 (encode_frame (write_group_header [] 0 [] ++ [x01]) []) false (Now_monotonic 5) EngineLog_new) greeted.

Definition durable_ : host :=
  {| ch_coord := ch_coord asked; ch_stable := (EngineStable_release_staged (ch_stable asked)).2;
     ch_wire := ch_wire asked |}.

Definition answered : host := call (CoStorage (Now_monotonic 6) EngineLog_new) durable_.

Abbreviation step := (host_step (L := EngineLog) (DC := Data_u64) (DS := Data_u64)).

Lemma start_init : host_init start.
Proof.
  constructor; [|apply Build_es_models; try done; intros id Hin%elem_of_nil; done|done].
  eexists _, _, _, _. split; [|reflexivity]. done.
Qed.

Lemma host_call_step (o : op) (x : host) :
  coord_op_ok o →
  is_Some (coord_step (DC := Data_u64) (DS := Data_u64) o (ch_coord x) (ch_stable x)) → step x (call o x).
Proof.
  intros Ho [[c s] Hs]. unfold call. rewrite Hs. by apply HostCall.
Qed.

Lemma opened_step : step start opened.
Proof. apply host_call_step; [by repeat constructor|]. vm_compute. eexists. reflexivity. Qed.

Lemma greeted_step : step opened greeted.
Proof. apply host_call_step; [done|]. vm_compute. eexists. reflexivity. Qed.

Lemma asked_step : step greeted asked.
Proof. apply host_call_step; [done|]. vm_compute. eexists. reflexivity. Qed.

Lemma durable_step : step asked durable_.
Proof. apply HostBarrier. intros v Hv. eexists. by apply es_models_flush. Qed.

Lemma answered_step : step durable_ answered.
Proof. apply host_call_step; [done|]. vm_compute. eexists. reflexivity. Qed.

Lemma answered_run : rtc step start answered.
Proof.
  eapply rtc_l; [exact opened_step|]. eapply rtc_l; [exact greeted_step|]. eapply rtc_l; [exact asked_step|].
  eapply rtc_l; [exact durable_step|]. apply rtc_once. exact answered_step.
Qed.

Lemma coordinator_is_node_witness :
  omap grant_of (ch_wire answered) = [(1, 2)] ∧ coord_table (ch_coord answered)
  ∧ ∃ cast, rtc VoteRun.run_step (ch_node start []) (ch_node answered cast)
            ∧ omap grant_of (ch_wire answered) ⊆ cast.
Proof.
  destruct (coordinator_is_node start answered start_init answered_run) as (Hn & _ & Ht & _).
  split; [vm_compute; reflexivity|]. by split.
Defined.
End CoordRun.
