(* ===== verification/Multi.v ===== *)
(** * The container of groups

    [MultiRaft] of [sailing-proto/src/multi/mod.rs]: many endpoints in one host,
    each under its group id, with one queue per kind of output and the records
    that tell the host what happened to a group.  This file holds the state, the
    traits the container is generic over, the output polls, the predicates one
    group's operation asks of the others, and the removal of a group.

    A [BTreeMap] is a finite map, iterated in key order; a lent pair of stores is
    read out and written back.  A [debug_assert!] has no counterpart. *)

From S2P Require Import Prelude Bytes Num Quorum Progress ProgressMap Conf Tracker Config Lease.
From S2P Require Import Prng ReadOnly Data Frame Entry Storage Shape Restart Forwarded Message.
From S2P Require Import Wire Endpoint Merge.

(** ** What the container asks of its host *)

Class FloorStore (G X : Type) := {
  fs_floor : X → G → u64;
  fs_lineage : X → G → u64;
}.

Inductive NoFloors := NoFloors_.
#[global] Instance NoFloors_FloorStore {G} : FloorStore G NoFloors :=
  {| fs_floor := λ _ _, 0; fs_lineage := λ _ _, 0 |}.

Class ForkGate (G X : Type) := {
  fg_contains_group : X → G → bool;
  fg_floor : X → G → u64;
}.

Inductive NoHold := NoHold_.
#[global] Instance NoHold_ForkGate {G} : ForkGate G NoHold :=
  {| fg_contains_group := λ _ _, false; fg_floor := λ _ _, 0 |}.

(** The stores of a group, lent for one call: [gst_write] is what the container
    leaves behind when the borrow ends. *)
Class GroupStores (G L S X : Type) := {
  gst_stores : G → X → option (L * S);
  gst_write : G → L → S → X → X;
}.

(** What is written through a borrow is what the next borrow shows, and nothing
    else of the host's stores moves. *)
Class GroupStoresLaws (G L S X : Type) `{!GroupStores G L S X} := {
  gst_write_same : ∀ g l s x, is_Some (gst_stores g x) →
    gst_stores g (gst_write g l s x) = Some (l, s);
  gst_write_other : ∀ g g' l s x, g ≠ g' → gst_stores g' (gst_write g l s x) = gst_stores g' x;
}.

(** ** Signals *)

Inductive ParkCause := HostedChild | ParkBlocked.

Inductive MergeBlockedCause :=
  | SourceUnhosted
  | SourceBehind
  | CrossedHostedSource
  | ForkFence
  | AbortFence
  | FrozenFence.

#[global] Instance MergeBlockedCause_eq_dec : EqDecision MergeBlockedCause.
Proof. solve_decision. Defined.

Inductive RemoveError :=
  | OwesThaw
  | RemoveFrozen
  | MergeParked
  | OwesCapture
  | OwesRecovery
  | SpokenFor
  | Claimed.

#[global] Instance RemoveError_eq_dec : EqDecision RemoveError.
Proof. solve_decision. Defined.

Record MergeBlocked (G : Type) := {
  mb_target : G;
  mb_source : G;
  mb_boundary : Index;
  mb_cause : MergeBlockedCause;
}.
Arguments Build_MergeBlocked {G}.
Arguments mb_target {G}.
Arguments mb_source {G}.
Arguments mb_boundary {G}.
Arguments mb_cause {G}.

(** [VecDeque::retain] *)
Definition retain {A} (p : A → bool) (q : list A) : list A := filter (λ x, p x = true) q.

(** ** State *)

Section container.
Context {G I F R : Type} `{!NodeId G, !NodeId I, !StateMachine F, !Rng R}.
Abbreviation Endpoint := (Endpoint I F R).

Definition BlockedObs : Type := MergeBlockedCause * G * Index.

Record MultiRaft := {
  mr_groups : gmap G Endpoint;
  mr_dirty_msgs : list G;
  mr_dirty_msgs_set : gset G;
  mr_dirty_events : list G;
  mr_dirty_events_set : gset G;
  mr_dirty_forks : list G;
  mr_dirty_forks_set : gset G;
  mr_parked : gmap G ParkCause;
  mr_conflicts : list (G * G);
  mr_refusals : list (G * G);
  mr_guard_advances : list (G * u64);
  mr_merge_blocked_seen : gmap G BlockedObs;
  mr_merge_blocked_attempts : gmap G BlockedObs;
  mr_merge_blocked : list (MergeBlocked G);
  mr_poisoned_seen : gset G;
  mr_poisoned_pending : list G;
  mr_lineage : gmap G u64;
  mr_host_id : option I;
}.

#[global] Instance MultiRaft_eta : Eta MultiRaft := λ r,
  Build_MultiRaft (mr_groups r) (mr_dirty_msgs r) (mr_dirty_msgs_set r) (mr_dirty_events r)
    (mr_dirty_events_set r) (mr_dirty_forks r) (mr_dirty_forks_set r) (mr_parked r)
    (mr_conflicts r) (mr_refusals r) (mr_guard_advances r) (mr_merge_blocked_seen r)
    (mr_merge_blocked_attempts r) (mr_merge_blocked r) (mr_poisoned_seen r)
    (mr_poisoned_pending r) (mr_lineage r) (mr_host_id r).

Definition MultiRaft_new : MultiRaft :=
  {| mr_groups := ∅; mr_dirty_msgs := []; mr_dirty_msgs_set := ∅; mr_dirty_events := [];
     mr_dirty_events_set := ∅; mr_dirty_forks := []; mr_dirty_forks_set := ∅; mr_parked := ∅;
     mr_conflicts := []; mr_refusals := []; mr_guard_advances := []; mr_merge_blocked_seen := ∅;
     mr_merge_blocked_attempts := ∅; mr_merge_blocked := []; mr_poisoned_seen := ∅;
     mr_poisoned_pending := []; mr_lineage := ∅; mr_host_id := None |}.

Implicit Types (m : MultiRaft) (ep : Endpoint) (gid : G).

Definition hosts m gid : bool := bool_decide (is_Some (mr_groups m !! gid)).

Definition set_group gid ep m : MultiRaft := m <| mr_groups ::= insert gid ep |>.

(** [if let Some(ep) = self.groups.get_mut(gid) { f(ep) }] *)
Definition upd_group gid (f : Endpoint → Endpoint) m : MultiRaft := m <| mr_groups ::= alter f gid |>.

(** [self.groups.get(gid).is_some_and(p)] *)
Definition group_is m gid (p : Endpoint → bool) : bool :=
  match mr_groups m !! gid with Some ep => p ep | None => false end.

Definition any_group m (p : G → Endpoint → bool) : bool :=
  existsb (λ '(g, ep), p g ep) (btree_map_iter (mr_groups m)).

(** ** Dirtiness *)

Definition note_if_poisoned gid m : MultiRaft :=
  if group_is m gid is_poisoned then
    if decide (gid ∈ mr_poisoned_seen m) then m
    else m <| mr_poisoned_seen ::= λ s, {[ gid ]} ∪ s |>
           <| mr_poisoned_pending ::= λ q, q ++ [gid] |>
  else m.

Definition mark_msgs gid m : MultiRaft :=
  if decide (gid ∈ mr_dirty_msgs_set m) then m
  else m <| mr_dirty_msgs_set ::= λ s, {[ gid ]} ∪ s |> <| mr_dirty_msgs ::= λ q, q ++ [gid] |>.

Definition mark_events gid m : MultiRaft :=
  if decide (gid ∈ mr_dirty_events_set m) then m
  else m <| mr_dirty_events_set ::= λ s, {[ gid ]} ∪ s |> <| mr_dirty_events ::= λ q, q ++ [gid] |>.

Definition mark_forks gid m : MultiRaft :=
  if decide (gid ∈ mr_dirty_forks_set m) then m
  else m <| mr_dirty_forks_set ::= λ s, {[ gid ]} ∪ s |> <| mr_dirty_forks ::= λ q, q ++ [gid] |>.

Definition mark_dirty gid m : MultiRaft :=
  note_if_poisoned gid (mark_forks gid (mark_events gid (mark_msgs gid m))).

Definition unpark gid m : MultiRaft :=
  match mr_parked m !! gid with
  | None => m
  | Some _ => m <| mr_parked ::= delete gid |>
                <| mr_conflicts ::= retain (λ p, negb (bool_decide (p.1 = gid))) |>
  end.

(** ** Output polls *)

(** One turn of the loop: the front group's next output, or the front dropped. *)
Definition msg_turn m : option (option (G * Outgoing I) * MultiRaft) :=
  match mr_dirty_msgs m with
  | [] => None
  | gid :: q =>
      let drop m := m <| mr_dirty_msgs := q |> <| mr_dirty_msgs_set ::= λ s, s ∖ {[ gid ]} |> in
      match mr_groups m !! gid with
      | None => Some (None, drop m)
      | Some ep =>
          match poll_message ep with
          | (Some msg, ep) => Some (Some (gid, msg), set_group gid ep m)
          | (None, _) => Some (None, drop m)
          end
      end
  end.

Fixpoint poll_msgs (fuel : nat) m : option (G * Outgoing I) * MultiRaft :=
  match fuel with
  | O => (None, m)
  | S fuel =>
      match msg_turn m with
      | None => (None, m)
      | Some (Some out, m) => (Some out, m)
      | Some (None, m) => poll_msgs fuel m
      end
  end.

(** A turn that yields nothing takes one id off the queue. *)
Definition MultiRaft_poll_message m : option (G * Outgoing I) * MultiRaft :=
  poll_msgs (length (mr_dirty_msgs m)) m.

Definition event_turn m : option (option (G * Event I sm_response) * MultiRaft) :=
  match mr_dirty_events m with
  | [] => None
  | gid :: q =>
      let drop m := m <| mr_dirty_events := q |> <| mr_dirty_events_set ::= λ s, s ∖ {[ gid ]} |> in
      match mr_groups m !! gid with
      | None => Some (None, drop m)
      | Some ep =>
          match poll_event ep with
          | (Some ev, ep) => Some (Some (gid, ev), set_group gid ep m)
          | (None, _) => Some (None, drop m)
          end
      end
  end.

Fixpoint poll_evs (fuel : nat) m : option (G * Event I sm_response) * MultiRaft :=
  match fuel with
  | O => (None, m)
  | S fuel =>
      match event_turn m with
      | None => (None, m)
      | Some (Some out, m) => (Some out, m)
      | Some (None, m) => poll_evs fuel m
      end
  end.

Definition MultiRaft_poll_event m : option (G * Event I sm_response) * MultiRaft :=
  poll_evs (length (mr_dirty_events m)) m.

Definition MultiRaft_poll_timeout m : option Instant :=
  foldr option_min None ((λ p, poll_timeout p.2) <$> btree_map_iter (mr_groups m)).

Definition MultiRaft_deadlines m : list (G * Instant) :=
  omap (λ p, (p.1,.) <$> poll_timeout p.2) (btree_map_iter (mr_groups m)).

(** ** Signal queues *)

Definition poll_split_conflict m : option (G * G) * MultiRaft :=
  match mr_conflicts m with
  | [] => (None, m)
  | c :: q => (Some c, m <| mr_conflicts := q |>)
  end.

Definition poll_split_refusal m : option (G * G) * MultiRaft :=
  match mr_refusals m with
  | [] => (None, m)
  | c :: q => (Some c, m <| mr_refusals := q |>)
  end.

Definition poll_relay_guard_advance m : option (G * u64) * MultiRaft :=
  match mr_guard_advances m with
  | [] => (None, m)
  | a :: q => (Some a, m <| mr_guard_advances := q |>)
  end.

Definition poll_poisoned m : option G * MultiRaft :=
  match mr_poisoned_pending m with
  | [] => (None, m)
  | g :: q => (Some g, m <| mr_poisoned_pending := q |>)
  end.

Definition poll_merge_blocked m : option (MergeBlocked G) * MultiRaft :=
  match mr_merge_blocked m with
  | [] => (None, m)
  | b :: q => (Some b, m <| mr_merge_blocked := q |>)
  end.

Definition fork_relay_pending m gid : bool :=
  bool_decide (is_Some (mr_parked m !! gid))
  || existsb (λ p, bool_decide (p.1 = gid)) (mr_conflicts m)
  || existsb (λ p, bool_decide (p.1 = gid)) (mr_refusals m).

Definition note_merge_blocked (target source : G) (boundary : Index) (cause : MergeBlockedCause) m
  : MultiRaft :=
  let obs : BlockedObs := (cause, source, boundary) in
  let m := m <| mr_merge_blocked_attempts ::= insert target obs |> in
  if decide (mr_merge_blocked_seen m !! target = Some obs) then m
  else m <| mr_merge_blocked_seen ::= insert target obs |>
         <| mr_merge_blocked ::= λ q,
              retain (λ b, negb (bool_decide (mb_target b = target))) q
              ++ [{| mb_target := target; mb_source := source; mb_boundary := boundary;
                     mb_cause := cause |}] |>.

(** ** Lineage *)

Definition MultiRaft_group_gen m gid : u64 :=
  N.max (from_option (λ ep, spl_shape_gen (ep_split ep)) 0 (mr_groups m !! gid))
        (default 0 (mr_lineage m !! gid)).

Definition advance_relay_guard gid (parent_gen_after : u64) m : MultiRaft :=
  m <| mr_lineage ::= λ l, <[gid := N.max (default parent_gen_after (l !! gid)) parent_gen_after]> l |>
    <| mr_guard_advances ::= λ q, q ++ [(gid, parent_gen_after)] |>.

Definition lift_fork_barrier (parent : G) (split_index : Index) m : MultiRaft :=
  upd_group parent (resolve_fork split_index) m.

Definition raise_relay_guard gid (lineage : u64) m : MultiRaft :=
  if hosts m gid then m <| mr_lineage ::= alter (λ guard, N.max guard lineage) gid |> else m.

(** ** Fail-stops the host asks for *)

Definition MultiRaft_fail_stop_query_panicked gid m : MultiRaft :=
  note_if_poisoned gid (upd_group gid fail_stop_query_panicked m).

Definition fail_stop_plane_unattributable_panic m : MultiRaft :=
  foldl (λ m gid, note_if_poisoned gid (upd_group gid fail_stop_query_panicked m)) m
    (btree_map_iter (mr_groups m)).*1.
End container.

Arguments MultiRaft : clear implicits.
Arguments MultiRaft G I F R {_ _ _}.
Arguments BlockedObs : clear implicits.
