(* ===== verification/MultiRemove.v ===== *)
(** * What one group's operation asks of the others, and the removal of a group

    [sailing-proto/src/multi/mod.rs]: the predicates over all hosted groups that
    the admission, removal and merge paths consult, and [remove_group]. *)

From S2P Require Import Prelude Bytes Num Quorum Progress ProgressMap Conf Tracker Config Lease.
From S2P Require Import Prng ReadOnly Data Frame Entry Storage Shape Restart Forwarded Message.
From S2P Require Import Wire Endpoint Merge Multi.

Section remove.
Context {G I F R L S St : Type} `{!NodeId G, !NodeId I, !StateMachine F, !Rng R, !LogStore L}.
Context `{!GroupStores G L S St} {DG : Data G} {BD : BuffaDecode}.
Abbreviation Endpoint := (Endpoint I F R).
Abbreviation MultiRaft := (MultiRaft G I F R).
Implicit Types (m : MultiRaft) (ep : Endpoint) (gid : G) (st : St).

(** The wire encoding of an id, by which endpoints name other groups. *)
Definition group_key gid : bytes := data_encode gid.

(** [G::decode_exact(key)], with the group it names looked up. *)
(** ** Predicates over the hosted groups *)

Definition some_target_owes_thaw_to m gid : bool :=
  match mr_groups m !! gid with
  | None => false
  | Some live =>
      any_group m (λ g ep, negb (bool_decide (g = gid))
        && bool_decide (owes_live_thaw_for ep (group_key gid) = Some (spl_shape_gen (ep_split live))))
  end.

Definition owes_only_covered_dead_ends m gid : bool :=
  group_is m gid (λ ep,
    forallb (λ '(source_bytes, obligation),
      AbandonedMerge_is_covered obligation
      && match decode_exact (T := G) source_bytes with
         | Ok source => negb (hosts m source)
         | Err _ => false
         end) (live_obligations ep)).

Definition park_names ep (key : bytes) : bool :=
  match mrg_pending_apply (ep_merge ep) with
  | Some p => bool_decide (pma_source_bytes p = key)
  | None => false
  end.

Definition park_names_source m gid : bool :=
  any_group m (λ g ep, negb (bool_decide (g = gid))
    && (park_names ep (group_key gid) || debt_names_source ep (group_key gid))).

Definition obligation_names_hosted_unadvanced m (tgid : G) : bool :=
  group_is m tgid (λ tep,
    existsb (λ '(sb, obligation),
      match decode_exact (T := G) sb with
      | Err _ => false
      | Ok source =>
          group_is m source (λ sep, merge_freeze_active sep
            || (spl_shape_gen (ep_split sep) <=? am_generation obligation))
      end) (live_obligations tep)).

Definition hint_names ep (key : bytes) : bool :=
  park_names ep key
  || existsb (λ b, bool_decide (b = key)) (crossing_sources ep)
  || existsb (λ '(sb, _), bool_decide (sb = key)) (live_obligations ep).

Definition clear_unresolvable_hints_naming gid m : MultiRaft :=
  m <| mr_groups ::= fmap (λ ep,
         if hint_names ep (group_key gid) then note_merge_park_unresolvable false ep else ep) |>.

Definition debt_names m gid : bool :=
  any_group m (λ _ ep, debt_names_source ep (group_key gid)).

(** An obligation whose key is no id fail-stops the group that holds it. *)
Definition owes_a_drivable_thaw (source : G) m : bool * MultiRaft :=
  let obligations := from_option abandoned_obligations [] (mr_groups m !! source) in
  foldl (λ '(drivable, m) '(owed, obligation),
    if am_discharged obligation then (true, m)
    else match decode_exact (T := G) owed with
         | Ok owed => (drivable || hosts m owed, m)
         | Err _ => (true, note_if_poisoned source (upd_group source (poison MergeDecode) m))
         end) (false, m) obligations.

Definition frozen_for_is ep (key : bytes) : bool := bool_decide (mrg_frozen_for (ep_merge ep) = Some key).

Definition some_source_applied_claims_target m gid : bool :=
  any_group m (λ g ep, negb (bool_decide (g = gid)) && frozen_for_is ep (group_key gid)).

Definition some_source_claims_target_unresolved m gid : bool :=
  any_group m (λ g ep,
    if bool_decide (g = gid) || negb (frozen_for_is ep (group_key gid)) then false
    else match mr_groups m !! gid with
         | None => true
         | Some t => bool_decide (owes_live_thaw_for t (group_key g) = None)
         end).

(** The queued freezes of every other group; each read claim is cached. *)
Fixpoint claims_scan gid st (gids : list G) m : bool * MultiRaft :=
  match gids with
  | [] => (false, m)
  | g :: gids =>
      if decide (g = gid) then claims_scan gid st gids m
      else match mr_groups m !! g with
      | None => claims_scan gid st gids m
      | Some ep =>
          match freeze_pending ep with
          | None => claims_scan gid st gids m
          | Some _ =>
              match gst_stores (L := L) (S := S) g st with
              | None => (true, m)
              | Some (log, _) =>
                  let '(r, ep) := scan_freeze_claims log ep in
                  let m := set_group g ep m in
                  match r with
                  | Ok claims =>
                      if decide (group_key gid ∈ claims) then (true, m)
                      else claims_scan gid st gids m
                  | Err _ => (true, m)
                  end
              end
          end
      end
  end.

Definition some_source_claims_target gid st m : bool * MultiRaft :=
  if some_source_applied_claims_target m gid then (true, m)
  else claims_scan gid st (btree_map_iter (mr_groups m)).*1 m.

(** ** Lineage tokens *)

Definition mint_fork_id (parent : G) (parent_gen_after : u64) (split_index : Index)
    (split_term : Term) (child_bytes : bytes) (child_gen : u64) : ForkId :=
  {| fk_parent := group_key parent; fk_parent_incarnation := parent_gen_after;
     fk_split_index := split_index; fk_split_term := split_term; fk_child := child_bytes;
     fk_child_gen := child_gen |}.

Definition fork_token (parent : G) (f : PendingFork (I := I)) : ForkId :=
  mint_fork_id parent (pf_parent_gen_after f) (pf_index f) (pf_split_term f) (pf_child_bytes f)
    (pf_child_gen f).

(** [None] is the panic of [pop_pending_fork]: the two queues disagree. *)
Definition take_head_fork gid m : option (option (PendingFork (I := I)) * MultiRaft) :=
  match mr_groups m !! gid with
  | None => Some (None, m)
  | Some ep =>
      match pop_pending_fork ep with
      | None => None
      | Some (None, _) => Some (None, m)
      | Some (Some (fork, _), ep) => Some (Some fork, set_group gid (resolve_fork (pf_index fork) ep) m)
      end
  end.

(** ** Removal *)

(** The fork a removed child was born from, when its parent still stages it. *)
Definition find_fork m (child_key : bytes) (token : ForkId)
  : option (G * PendingFork (I := I) * bool) :=
  head (omap (λ '(parent, ep),
    let head_index := pf_index <$> peek_pending_fork ep in
    head (omap (λ fork,
      if bool_decide (pf_child_bytes fork = child_key) && bool_decide (fork_token parent fork = token)
      then Some (parent, fork, bool_decide (head_index = Some (pf_index fork))) else None)
      (staged_forks ep))) (btree_map_iter (mr_groups m))).

Definition abandon_fork_this_removal_descends_from gid (removed : option Endpoint) m
  : option MultiRaft :=
  match removed with
  | None => Some m
  | Some ep =>
      if is_poisoned ep then Some m
      else match spl_fork_id (ep_split ep) with
      | None => Some m
      | Some token =>
          match find_fork m (group_key gid) token with
          | None => Some m
          | Some (parent, fork, false) => Some (upd_group parent (mark_fork_abandoned (pf_index fork)) m)
          | Some (parent, fork, true) =>
              '(_, m) ← take_head_fork parent m;
              let m := advance_relay_guard parent (pf_parent_gen_after fork) m in
              let m := mark_forks parent (unpark parent m) in
              Some (m <| mr_refusals ::= λ q, q ++ [(parent, gid)] |>)
          end
      end
  end.

Definition purge_signals gid m : MultiRaft :=
  m <| mr_poisoned_seen ::= λ s, s ∖ {[ gid ]} |>
    <| mr_poisoned_pending ::= retain (λ g, negb (bool_decide (g = gid))) |>
    <| mr_merge_blocked_seen ::= λ s,
         filter (λ p : G * BlockedObs G, p.2.1.2 ≠ gid) (delete gid s) |>
    <| mr_merge_blocked ::= retain (λ b, negb (bool_decide (mb_target b = gid))
                                         && negb (bool_decide (mb_source b = gid))) |>.

Definition remove_group_inner gid m : option (option Endpoint * MultiRaft) :=
  let m := purge_signals gid (unpark gid m) in
  let removed := mr_groups m !! gid in
  let m := m <| mr_groups ::= delete gid |> in
  let m :=
    if bool_decide (is_Some removed) && any_group m (λ _ ep, holds_abandoned ep)
    then m <| mr_groups ::= fmap (clear_abandoned (group_key gid)) |> else m in
  m ← abandon_fork_this_removal_descends_from gid removed m;
  Some (removed, m).

Definition remove_refusal gid st m : result unit RemoveError * MultiRaft :=
  if group_is m gid (λ ep, (owes_live_thaw ep && negb (owes_only_covered_dead_ends m gid))
                           || holds_witness_debt ep) then (Err OwesThaw, m)
  else if negb (some_target_owes_thaw_to m gid) && group_is m gid merge_freeze_active
  then (Err RemoveFrozen, m)
  else if group_is m gid (λ ep, bool_decide (is_Some (mrg_pending_apply (ep_merge ep))))
  then (Err MergeParked, m)
  else if group_is m gid (λ ep, bool_decide (is_Some (mrg_capture_debt (ep_merge ep))))
  then (Err OwesCapture, m)
  else if group_is m gid holds_recovery_pins then (Err OwesRecovery, m)
  else if park_names_source m gid then (Err SpokenFor, m)
  else if hosts m gid then
    let '(claimed, m) := some_source_claims_target gid st m in
    (if claimed then Err Claimed else Ok tt, m)
  else (Ok tt, m).

Definition MultiRaft_remove_group gid st m
  : option (result (option Endpoint) RemoveError * MultiRaft) :=
  match remove_refusal gid st m with
  | (Err r, m) => Some (Err r, m)
  | (Ok _, m) => '(removed, m) ← remove_group_inner gid m; Some (Ok removed, m)
  end.

(** ** Reservations *)

Definition split_reserved m gid : bool :=
  any_group m (λ _ ep, split_reserves (group_key gid) ep).

Definition fork_derivation_volatile m gid : bool :=
  group_is m gid (λ ep, fork_obligations_standing ep && negb (fork_barrier_standing ep)).
End remove.
