(* ===== verification/MultiFork.v ===== *)
(** * Admission and the fork relay

    [sailing-proto/src/multi/mod.rs]: the checks every constructor of a group
    shares, the constructors, and the relay that turns the forks a committed
    split staged into hosted child groups, one head at a time.

    A seeded constructor is the generator-taking one at the group's own seed, as
    [Endpoint::new] and [Endpoint::restart] are of theirs. *)

From S2P Require Import Prelude Bytes Num Quorum Progress ProgressMap Conf Tracker ConfChange.
From S2P Require Import Config Lease Prng ReadOnly Data Frame Entry Storage Shape Restart.
From S2P Require Import Forwarded Message Wire Codec Endpoint Merge Persistence Replication.
From S2P Require Import Election Propose Handlers Commit Apply Boot Multi MultiRemove.

(** ** The engine that owns every group's stores

    The methods of the trait that the container calls. *)

Class MultiEngine (G I L S E : Type) `{!NodeId I} := {
  me_stores :: GroupStores G L S E;
  me_floors :: FloorStore G E;
  me_contains_group : E → G → bool;
  me_add_group : G → E → bool * E;
  me_remove_group : G → E → bool * E;
  me_next_boot_epoch : G → E → option u64 * E;
}.

Record EngineForkGate (E X : Type) := { efg_engine : E; efg_extra : X }.
Arguments Build_EngineForkGate {E X}.
Arguments efg_engine {E X}.
Arguments efg_extra {E X}.

#[global] Instance EngineForkGate_ForkGate {G I L S E X} `{!NodeId I}
    `{!MultiEngine G I L S E, !ForkGate G X} : ForkGate G (EngineForkGate E X) := {|
  fg_contains_group := λ g gid,
    me_contains_group (efg_engine g) gid || fg_contains_group (efg_extra g) gid;
  fg_floor := λ g gid, N.max (fs_floor (efg_engine g) gid) (fg_floor (efg_extra g) gid);
|}.

Definition FORK_BASE_INDEX : Index := 1.
Definition FORK_BASE_TERM : Term := 1.

Section fork.
Context {G I F R L S : Type} `{!NodeId G, !NodeId I, !StateMachine F, !Rng R}.
Context `{!LogStore L, !StableStore I S}.
Context {DG : Data G} {DI : Data I} {BS : BuffaSizes} {DC : Data sm_command} {DS : Data sm_snapshot}.
Context {BD : BuffaDecode} {BC : Buffa PbConfChangeV2}.
Abbreviation Endpoint := (Endpoint I F R).
Abbreviation MultiRaft := (MultiRaft G I F R).
Implicit Types (m : MultiRaft) (ep : Endpoint) (gid : G) (log : L) (stable : S) (config : Config I).

(** ** Checks *)

Definition validate_boot_epoch (boot_epoch : u64) : result unit CreateGroupError :=
  if boot_epoch =? 0 then Err InvalidBootEpoch else Ok tt.

Definition stores_hold_state log stable : bool :=
  negb (bool_decide (stable_hard_state stable = HardState_initial))
  || bool_decide (is_Some (stable_snapshot stable))
  || (0 <? log_last_index log)
  || (1 <? log_first_index log).

Definition validate_virgin_stores log stable : result unit CreateGroupError :=
  if stores_hold_state log stable then Err StorageInUse else Ok tt.

Definition recoverable_gen (record : u64) log stable : u64 :=
  N.max (N.max record (hs_founding_gen (stable_hard_state stable)))
    match stable_snapshot stable with
    | Some (meta, _) =>
        if snapshot_is_adopted (hs_lineage (stable_hard_state stable)) meta log
        then sm_shape_gen meta else 0
    | None => 0
    end.

Definition validate_restore (record floor generation : u64) log stable
  : result unit CreateGroupError :=
  if generation <? record then Err (BelowLineageRecord record)
  else if (negb (record =? 0) || negb (floor =? 0) || negb (generation =? 0))
          && negb (stores_hold_state log stable) then Err NoStoredState
  else if ((0 <? record) || (0 <? generation)) && stores_hold_state log stable
          && bool_decide (stable_hard_state stable = HardState_initial)
  then Err (IncarnationUnrecoverable record)
  else
    let recoverable := recoverable_gen record log stable in
    if (0 <? floor) && (recoverable <? floor) then Err (StoredStateBelowFloor floor recoverable)
    else Ok tt.

Definition validate_new_group m gid config : result unit CreateGroupError :=
  if hosts m gid then Err GroupExists
  else if group_tag_bad (group_key gid) then Err InvalidGroupId
  else if match mr_host_id m with
          | Some host => negb (bool_decide (host = cfg_id config))
          | None => false
          end then Err NodeIdMismatch
  else if any_group m (λ _ ep, debt_names_source ep (group_key gid)) then Err AbsorbPending
  else if any_group m (λ _ ep,
            match mrg_pending_apply (ep_merge ep) with
            | Some p => pma_window_closed p && bool_decide (pma_source_bytes p = group_key gid)
            | None => false
            end) then Err AbsorbPending
  else Ok tt.

(** The FNV fold of an id into the base seed. *)
Definition group_seed (base : u64) gid : u64 :=
  foldl (λ h b, wrapping_mul (N.lxor h (byte_val b)) 0x100000001b3)
    (N.lxor 0xcbf29ce484222325 base) (group_key gid).

Definition reshape_born_prevention config : Config I :=
  {| cfg_id := cfg_id config; cfg_voters := cfg_voters config;
     cfg_election_timeout := cfg_election_timeout config;
     cfg_heartbeat_interval := cfg_heartbeat_interval config;
     cfg_max_size_per_msg := cfg_max_size_per_msg config;
     cfg_max_inflight_msgs := cfg_max_inflight_msgs config;
     cfg_max_inflight_bytes := cfg_max_inflight_bytes config;
     cfg_snapshot_threshold := cfg_snapshot_threshold config;
     cfg_snapshot_chunk_bytes := cfg_snapshot_chunk_bytes config;
     cfg_step_down_on_removal := cfg_step_down_on_removal config;
     cfg_pre_vote := true; cfg_check_quorum := true;
     cfg_disable_proposal_forwarding := cfg_disable_proposal_forwarding config;
     cfg_read_only := cfg_read_only config; cfg_lease_refresh := cfg_lease_refresh config;
     cfg_lease_duration := cfg_lease_duration config;
     cfg_clock_drift_bound := cfg_clock_drift_bound config;
     cfg_bounded_clock_uncertainty := cfg_bounded_clock_uncertainty config;
     cfg_assumed_clock_rate_bound_ppm := cfg_assumed_clock_rate_bound_ppm config |}.

(** ** Constructors *)

Definition pin_host config m : MultiRaft :=
  m <| mr_host_id ::= λ h, Some (default (cfg_id config) h) |>.

(** The end every constructor shares. *)
Definition admit_group gid (lineage : u64) ep m : MultiRaft :=
  set_group gid ep (clear_unresolvable_hints_naming gid (m <| mr_lineage ::= insert gid lineage |>)).

Definition create_group_with_rng gid (generation : u64) config (now : Now) (rng : R) (fsm : F) m
  : result unit CreateGroupError * MultiRaft :=
  match validate_new_group m gid config with
  | Err r => (Err r, m)
  | Ok _ =>
      match validate_working_generation generation with
      | Err r => (Err r, m)
      | Ok _ =>
          if negb (generation =? 0) then (Err FoundingNeedsStore, m)
          else
            let ep := seed_lineage generation (Endpoint_new_with_rng config now rng fsm) in
            (Ok tt, admit_group gid generation ep (pin_host config m))
      end
  end.

Definition create_group_founded_at_with_rng gid (generation : u64) config (now : Now) (rng : R)
    (fsm : F) (boot_epoch : u64) log stable m : result unit CreateGroupError * S * MultiRaft :=
  match (let? _ := validate_new_group m gid config in
         let? _ := validate_working_generation generation in
         let? _ := validate_boot_epoch boot_epoch in
         validate_virgin_stores log stable) with
  | Err r => (Err r, stable, m)
  | Ok _ =>
      let ep := Endpoint_new_with_rng config now rng fsm in
      let '(stable, ep) :=
        submit_founding_stamp stable (seed_lineage generation (seed_boot_epoch boot_epoch ep)) in
      (Ok tt, stable, admit_group gid generation ep (pin_host config m))
  end.

Definition restore_group_migrating_with_rng_unchecked gid config (now : Now) (rng : R) (fsm : F)
    (boot_epoch : u64) (assume_prior_lease_support : option Duration) log stable m
  : result unit CreateGroupError * L * S * MultiRaft :=
  match validate_new_group m gid config with
  | Err r => (Err r, log, stable, m)
  | Ok _ =>
      let '(log, stable, ep) :=
        restart_migrating_with_rng config now rng fsm boot_epoch assume_prior_lease_support log stable in
      (Ok tt, log, stable,
       mark_dirty gid (admit_group gid (spl_restored_lineage (ep_split ep)) ep (pin_host config m)))
  end.

Definition restore_group_with_rng_unchecked gid config (now : Now) (rng : R) (fsm : F)
    (boot_epoch : u64) log stable m : result unit CreateGroupError * L * S * MultiRaft :=
  match validate_new_group m gid config with
  | Err r => (Err r, log, stable, m)
  | Ok _ =>
      let '(log, stable, ep) := restart_with_rng config now rng fsm boot_epoch log stable in
      (Ok tt, log, stable,
       mark_dirty gid (admit_group gid (spl_restored_lineage (ep_split ep)) ep (pin_host config m)))
  end.

Definition fork_meta config (generation : u64) (read_only : option ReadOnlyOption)
    (fork_id : option ForkId) : SnapshotMeta I :=
  {| sm_last_index := FORK_BASE_INDEX; sm_last_term := FORK_BASE_TERM;
     sm_conf := ConfState_from_voters (cfg_voters config);
     sm_max_lease_window := 0; sm_max_wall_plus_window := 0; sm_max_unwalled_lease_window := 0;
     sm_read_only := read_only; sm_shape_gen := generation; sm_fork_id := fork_id |}.

(** The child's birth state: a term and a commit at the base, the derived
    snapshot there, and a log re-baselined to it. *)
Definition write_fork_baseline config (snapshot : bytes) (generation : u64)
    (read_only : option ReadOnlyOption) (fork_id : option ForkId) (boot_epoch : u64) log stable
  : L * S :=
  let opid := OpId_first_of_epoch (saturating_sub boot_epoch 1) in
  let stable := stable_submit_write opid
    (HardState_with_lineage fork_id (HardState_with_commit FORK_BASE_INDEX
      (HardState_with_term FORK_BASE_TERM HardState_initial))) stable in
  let stable := stable_submit_snapshot (OpId_next opid)
    (fork_meta config generation read_only fork_id) snapshot stable in
  (log_restore FORK_BASE_INDEX FORK_BASE_TERM log, stable).

Definition create_group_from_fork_with_rng_unreserved gid (generation : u64) config (now : Now)
    (rng : R) (fsm : F) (snapshot : bytes) (read_only : option ReadOnlyOption)
    (fork_id : option ForkId) (boot_epoch : u64) log stable m
  : result unit CreateGroupError * L * S * MultiRaft :=
  match (let? _ := validate_boot_epoch boot_epoch in
         let? _ := validate_working_generation generation in
         let? _ := validate_new_group m gid config in
         validate_virgin_stores log stable) with
  | Err r => (Err r, log, stable, m)
  | Ok _ =>
      let '(log, stable) :=
        write_fork_baseline config snapshot generation read_only fork_id boot_epoch log stable in
      let '(log, stable, ep) := restart_with_rng config now rng fsm boot_epoch log stable in
      (Ok tt, log, stable,
       mark_dirty gid (admit_group gid (spl_restored_lineage (ep_split ep)) ep (pin_host config m)))
  end.

Definition create_group_from_fork_with_rng gid (generation : u64) config (now : Now) (rng : R)
    (fsm : F) (snapshot : bytes) (read_only : option ReadOnlyOption) (boot_epoch : u64) log stable m
  : result unit CreateGroupError * L * S * MultiRaft :=
  if split_reserved m gid then (Err SplitReserved, log, stable, m)
  else create_group_from_fork_with_rng_unreserved gid generation config now rng fsm snapshot
         read_only None boot_epoch log stable m.
End fork.
