(* ===== verification/MultiRelay.v ===== *)
(** * The fork relay

    [sailing-proto/src/multi/mod.rs]: how the container turns the forks a
    committed split staged into hosted child groups.  [examine_head_fork] judges
    the oldest staged fork of one group, [drain_to_yieldable] runs it over every
    group that may have one, and [install_yieldable_fork_with_rng] hosts the
    child.  [None] is a panic, or a drain out of fuel; [MultiInv] rules both out. *)

From S2P Require Import Prelude Bytes Num Quorum Progress ProgressMap Conf Tracker ConfChange.
From S2P Require Import Config Lease Prng ReadOnly Data Frame Entry Storage Shape Restart.
From S2P Require Import Forwarded Message Wire Codec Endpoint Merge Persistence Replication.
From S2P Require Import Election Propose Handlers Commit Apply Boot Multi MultiRemove MultiFork.

Section plan.
Context {G I : Type}.

Record YieldPlan := {
  yp_child : G;
  yp_child_gen : u64;
  yp_parent_gen_after : u64;
  yp_split_index : Index;
  yp_split_term : Term;
  yp_child_bytes : bytes;
  yp_config : Config I;
}.

Inductive HeadFork := HfEmpty | HfResolved | HfParked | HfYield (plan : YieldPlan).

Inductive DrainOutcome :=
  | Yieldable (parent : G) (plan : YieldPlan)
  | DrainRefused
  | DrainHeld
  | DrainEmpty.

Record InstalledFork := {
  if_parent : G;
  if_child : G;
  if_child_gen : u64;
  if_parent_gen_after : u64;
  if_split_index : Index;
  if_config : Config I;
}.

Inductive InstallOutcome :=
  | Installed (fork : InstalledFork)
  | InstallRefused
  | InstallHeld
  | NotYieldable
  | InstallEmpty.

Inductive PrepareOutcome :=
  | PrepReady (parent : G) (plan : YieldPlan) (epoch : u64) (config : Config I)
  | PrepDone (outcome : InstallOutcome).
End plan.

Arguments YieldPlan : clear implicits.
Arguments HeadFork : clear implicits.
Arguments DrainOutcome : clear implicits.
Arguments InstalledFork : clear implicits.
Arguments InstallOutcome : clear implicits.
Arguments PrepareOutcome : clear implicits.

(** What the head fork of a group calls for. *)
Inductive ForkVerdict (G : Type) :=
  | FvPoison
  | FvResolve
  | FvPark (child : G)
  | FvRedundant
  | FvYield (child : G)
  | FvHold (child : G)
  | FvTerminal (child : G).
Arguments FvPoison {G}.
Arguments FvResolve {G}.
Arguments FvPark {G}.
Arguments FvRedundant {G}.
Arguments FvYield {G}.
Arguments FvHold {G}.
Arguments FvTerminal {G}.

Section relay.
Context {G I F R L S E : Type} `{!NodeId G, !NodeId I, !StateMachine F, !Rng R}.
Context `{!LogStore L, !StableStore I S}.
Context {DG : Data G} {DI : Data I} {BS : BuffaSizes} {DC : Data sm_command} {DS : Data sm_snapshot}.
Context {BD : BuffaDecode} {BC : Buffa PbConfChangeV2}.
Abbreviation Endpoint := (Endpoint I F R).
Abbreviation MultiRaft := (MultiRaft G I F R).
Abbreviation PendingFork := (PendingFork (I := I)).
Implicit Types (m : MultiRaft) (ep : Endpoint) (gid : G) (fork : PendingFork).

Section gate.
Context {X : Type} `{!ForkGate G X}.
Implicit Types (gate : X).

(** The checks a fork with an unhosted child must pass. *)
Definition fork_refusal m gate fork (child : G) (child_config : Config I)
  : result unit CreateGroupError :=
  let? _ := validate_working_generation (pf_child_gen fork) in
  let? _ := (if floor_admits (fg_floor gate child) (pf_child_gen fork) then Ok tt
             else Err (BelowFloor (fg_floor gate child))) in
  validate_new_group m child child_config.

(** The park of the parent itself absorbs the id this older fork would host. *)
Definition fork_subsumed ep fork : bool :=
  match mrg_pending_apply (ep_merge ep) with
  | Some p => pma_window_closed p && bool_decide (pma_source_bytes p = pf_child_bytes fork)
              && (pf_index fork <? pma_at p)
  | None => false
  end.

Definition fork_verdict m gate gid ep fork : ForkVerdict G :=
  match decode_exact (T := G) (pf_child_bytes fork) with
  | Err _ => FvPoison
  | Ok child =>
      let in_voters := match mr_host_id m with
                       | Some host => bool_decide (host ∈ pf_voters fork)
                       | None => false
                       end in
      if negb in_voters || (pf_parent_gen_after fork <=? default 0 (mr_lineage m !! gid))
      then FvResolve
      else match mr_groups m !! child with
      | Some hosted =>
          if bool_decide (spl_fork_id (ep_split hosted) = Some (fork_token gid fork))
             && negb (is_poisoned hosted)
          then FvRedundant else FvPark child
      | None =>
          match Config_with_voter_set (ep_config ep) (pf_voters fork) with
          | Err _ => FvTerminal child
          | Ok child_config =>
              match fork_refusal m gate fork child child_config with
              | Ok _ => if fg_contains_group gate child then FvHold child else FvYield child
              | Err (ReservedGeneration | BelowFloor _ | InvalidGroupId | NodeIdMismatch) =>
                  FvTerminal child
              | Err AbsorbPending => if fork_subsumed ep fork then FvTerminal child else FvHold child
              | Err _ => FvHold child
              end
          end
      end
  end.

(** [while ep.pop_pending_fork().is_some() {}] *)
Fixpoint drop_forks (fuel : nat) ep : option Endpoint :=
  match fuel with
  | O => None
  | Datatypes.S fuel =>
      '(popped, ep) ← pop_pending_fork ep;
      match popped with Some _ => drop_forks fuel ep | None => Some ep end
  end.

Definition park_fork gid (child : G) (cause : ParkCause) m : MultiRaft :=
  let fresh := bool_decide (mr_parked m !! gid = None) in
  let m := m <| mr_parked ::= insert gid cause |> in
  if fresh then m <| mr_conflicts ::= λ q, q ++ [(gid, child)] |> else m.

Definition push_refusal (parent child : G) m : MultiRaft :=
  m <| mr_refusals ::= λ q, q ++ [(parent, child)] |>.

Definition consume_abandoned_head_fork gid m : option (HeadFork G I * MultiRaft) :=
  '(popped, m) ← take_head_fork gid m;
  match popped with
  | None => Some (HfEmpty, m)
  | Some fork =>
      let m := advance_relay_guard gid (pf_parent_gen_after fork) m in
      Some (HfResolved,
            match decode_exact (T := G) (pf_child_bytes fork) with
            | Ok child => push_refusal gid child m
            | Err _ => m
            end)
  end.

Definition yield_plan (child : G) fork (config : Config I) : YieldPlan G I :=
  {| yp_child := child; yp_child_gen := pf_child_gen fork;
     yp_parent_gen_after := pf_parent_gen_after fork; yp_split_index := pf_index fork;
     yp_split_term := pf_split_term fork; yp_child_bytes := pf_child_bytes fork;
     yp_config := config |}.

Definition act_on_fork gid ep fork (v : ForkVerdict G) m : option (HeadFork G I * MultiRaft) :=
  match v with
  | FvPoison =>
      ep ← drop_forks (Datatypes.S (length (staged_forks ep))) (poison SplitDecode ep);
      Some (HfEmpty, note_if_poisoned gid (set_group gid ep m))
  | FvResolve => '(_, m) ← take_head_fork gid m; Some (HfResolved, m)
  | FvRedundant =>
      '(popped, m) ← take_head_fork gid m;
      Some (HfResolved,
            match popped with
            | Some fork => advance_relay_guard gid (pf_parent_gen_after fork) m
            | None => m
            end)
  | FvPark child => Some (HfParked, park_fork gid child HostedChild m)
  | FvHold child => Some (HfParked, park_fork gid child ParkBlocked m)
  | FvTerminal child => '(_, m) ← take_head_fork gid m; Some (HfResolved, push_refusal gid child m)
  | FvYield child =>
      match Config_with_voter_set (ep_config ep) (pf_voters fork) with
      | Ok config => Some (HfYield (yield_plan child fork config), m)
      | Err _ =>
          '(popped, m) ← take_head_fork gid m;
          match popped with
          | None => Some (HfEmpty, m)
          | Some fork =>
              Some (HfResolved,
                    push_refusal gid child (advance_relay_guard gid (pf_parent_gen_after fork) m))
          end
      end
  end.

Definition examine_head_fork gid gate m : option (HeadFork G I * MultiRaft) :=
  if group_is m gid head_fork_is_abandoned then consume_abandoned_head_fork gid m
  else match mr_groups m !! gid with
  | None => Some (HfEmpty, m)
  | Some ep =>
      match peek_pending_fork ep with
      | None => Some (HfEmpty, m)
      | Some fork => act_on_fork gid ep fork (fork_verdict m gate gid ep fork) m
      end
  end.

(** ** The drain *)

(** The parked groups are re-judged first; [true] is a park that stands. *)
Fixpoint drain_parked gate (gids : list G) (held : bool) m
  : option (option (G * YieldPlan G I) * bool * MultiRaft) :=
  match gids with
  | [] => Some (None, held, m)
  | gid :: gids =>
      '(h, m) ← examine_head_fork gid gate m;
      match h with
      | HfEmpty => drain_parked gate gids held (unpark gid m)
      | HfResolved => drain_parked gate gids held (mark_forks gid (unpark gid m))
      | HfParked => drain_parked gate gids true m
      | HfYield plan => Some (Some (gid, plan), held, mark_forks gid (unpark gid m))
      end
  end.

Definition pop_dirty_fork m : MultiRaft :=
  match mr_dirty_forks m with
  | [] => m
  | gid :: q => m <| mr_dirty_forks := q |> <| mr_dirty_forks_set ::= λ s, s ∖ {[ gid ]} |>
  end.

Fixpoint drain_dirty (fuel : nat) gate (held : bool) m
  : option (option (G * YieldPlan G I) * bool * MultiRaft) :=
  match fuel with
  | O => None
  | Datatypes.S fuel =>
      match mr_dirty_forks m with
      | [] => Some (None, held, m)
      | gid :: _ =>
          if decide (is_Some (mr_parked m !! gid)) then drain_dirty fuel gate held (pop_dirty_fork m)
          else
            '(h, m) ← examine_head_fork gid gate m;
            match h with
            | HfEmpty => drain_dirty fuel gate held (pop_dirty_fork m)
            | HfParked => drain_dirty fuel gate true (pop_dirty_fork m)
            | HfResolved => drain_dirty fuel gate held m
            | HfYield plan => Some (Some (gid, plan), held, m)
            end
      end
  end.

Definition staged_total m : nat :=
  map_fold (λ _ ep n, (length (staged_forks ep) + n)%nat) 0%nat (mr_groups m).

(** A turn pops a queued id or a staged fork. *)
Definition drain_fuel m : nat :=
  Datatypes.S (length (mr_dirty_forks m) + staged_total m).

Definition drain_to_yieldable gate m : option (DrainOutcome G I * MultiRaft) :=
  let refusals_before := length (mr_refusals m) in
  match drain_parked gate (btree_map_iter (mr_parked m)).*1 false m with
  | None => None
  | Some (Some (parent, plan), _, m) => Some (Yieldable parent plan, m)
  | Some (None, held, m) =>
      match drain_dirty (drain_fuel m) gate held m with
      | None => None
      | Some (Some (parent, plan), _, m) => Some (Yieldable parent plan, m)
      | Some (None, held, m) =>
          Some (if negb (length (mr_refusals m) =? refusals_before)%nat then DrainRefused
                else if held then DrainHeld else DrainEmpty, m)
      end
  end.

Definition peek_yieldable_fork gate m : option (option (G * YieldPlan G I) * MultiRaft) :=
  '(o, m) ← drain_to_yieldable gate m;
  Some (match o with Yieldable parent plan => Some (parent, plan) | _ => None end, m).
End gate.

(** ** Installing the child *)

Section install.
Context {X : Type} `{!MultiEngine G I L S E, !ForkGate G X}.
Implicit Types (engine : E) (extra : X).

Definition undo_add (added : bool) (child : G) engine : E :=
  if added then (me_remove_group child engine).2 else engine.

Definition prepare_fork_install (parent child : G) extra engine m
  : option (PrepareOutcome G I * E * MultiRaft) :=
  '(h, m) ← examine_head_fork parent {| efg_engine := engine; efg_extra := extra |} m;
  match h with
  | HfEmpty => Some (PrepDone InstallEmpty, engine, m)
  | HfResolved => Some (PrepDone InstallRefused, engine, m)
  | HfParked => Some (PrepDone InstallHeld, engine, m)
  | HfYield plan =>
      if negb (bool_decide (yp_child plan = child)) then Some (PrepDone NotYieldable, engine, m)
      else
        let '(added, engine) := me_add_group child engine in
        match me_next_boot_epoch child engine with
        | (None, engine) => Some (PrepDone InstallHeld, undo_add added child engine, m)
        | (Some epoch, engine) =>
            let config := reshape_born_prevention (yp_config plan) in
            match (let? _ := validate_boot_epoch epoch in
                   let? _ := validate_working_generation (yp_child_gen plan) in
                   let? _ := validate_new_group m child config in
                   match gst_stores child engine with
                   | Some (log, stable) => validate_virgin_stores log stable
                   | None => Err StorageInUse
                   end) with
            | Err _ => Some (PrepDone InstallHeld, undo_add added child engine, m)
            | Ok _ => Some (PrepReady parent plan epoch config, engine, m)
            end
        end
  end.

Definition host_child (parent child : G) (plan : YieldPlan G I) (epoch : u64) (config : Config I)
    fork (fsm : F) (now : Now) (rng : R) (log : L) (stable : S) engine m
  : InstallOutcome G I * E * MultiRaft :=
  let fork_id := mint_fork_id parent (yp_parent_gen_after plan) (yp_split_index plan)
                   (yp_split_term plan) (yp_child_bytes plan) (yp_child_gen plan) in
  let m := pin_host config m in
  let '(log, stable) :=
    write_fork_baseline config (pf_blob fork) (yp_child_gen plan) (pf_read_only fork)
      (Some fork_id) epoch log stable in
  let '(log, stable, ep) := restart_with_rng config now rng fsm epoch log stable in
  let m := m <| mr_lineage ::= insert parent (yp_parent_gen_after plan) |> in
  (Installed {| if_parent := parent; if_child := child; if_child_gen := yp_child_gen plan;
                if_parent_gen_after := yp_parent_gen_after plan;
                if_split_index := yp_split_index plan; if_config := config |},
   gst_write child log stable engine,
   mark_dirty child (admit_group child (spl_restored_lineage (ep_split ep)) ep m)).

Definition install_yieldable_fork_with_rng (parent child : G) extra (now : Now) (rng : R) engine m
  : option (InstallOutcome G I * E * MultiRaft) :=
  '(prep, engine, m) ← prepare_fork_install parent child extra engine m;
  match prep with
  | PrepDone outcome => Some (outcome, engine, m)
  | PrepReady parent plan epoch config =>
      match gst_stores child engine with
      | None => Some (InstallHeld, (me_remove_group child engine).2, m)
      | Some (log, stable) =>
          match mr_groups m !! parent with
          | None => Some (InstallEmpty, (me_remove_group child engine).2, m)
          | Some ep =>
              '(popped, ep) ← pop_pending_fork ep;
              match popped with
              | None => Some (InstallEmpty, (me_remove_group child engine).2, m)
              | Some (fork, fsm) =>
                  Some (host_child parent child plan epoch config fork fsm now rng log stable engine
                          (set_group parent ep m))
              end
          end
      end
  end.
End install.
End relay.

(** ** The seeded constructors *)

Section seeded.
Context {G I F L S E X : Type} `{!NodeId G, !NodeId I, !StateMachine F}.
Context `{!LogStore L, !StableStore I S}.
Context {DG : Data G} {DI : Data I} {BS : BuffaSizes} {DC : Data sm_command} {DS : Data sm_snapshot}.
Context {BD : BuffaDecode} {BC : Buffa PbConfChangeV2}.
Implicit Types (m : MultiRaft G I F Prng) (gid : G) (log : L) (stable : S) (config : Config I).

Definition group_rng (seed : u64) gid : Prng := Prng_new (group_seed seed gid).

Definition create_group gid (generation : u64) config (now : Now) (seed : u64) (fsm : F) m :=
  create_group_with_rng gid generation config now (group_rng seed gid) fsm m.

Definition create_group_founded_at gid (generation : u64) config (now : Now) (seed : u64) (fsm : F)
    (boot_epoch : u64) log stable m :=
  create_group_founded_at_with_rng gid generation config now (group_rng seed gid) fsm boot_epoch
    log stable m.

Definition restore_group_unchecked gid config (now : Now) (seed : u64) (fsm : F) (boot_epoch : u64)
    log stable m :=
  restore_group_with_rng_unchecked gid config now (group_rng seed gid) fsm boot_epoch log stable m.

Definition restore_group_migrating_unchecked gid config (now : Now) (seed : u64) (fsm : F)
    (boot_epoch : u64) (assume_prior_lease_support : option Duration) log stable m :=
  restore_group_migrating_with_rng_unchecked gid config now (group_rng seed gid) fsm boot_epoch
    assume_prior_lease_support log stable m.

Definition create_group_from_fork_unreserved gid (generation : u64) config (now : Now) (seed : u64)
    (fsm : F) (snapshot : bytes) (read_only : option ReadOnlyOption) (fork_id : option ForkId)
    (boot_epoch : u64) log stable m :=
  create_group_from_fork_with_rng_unreserved gid generation config now (group_rng seed gid) fsm
    snapshot read_only fork_id boot_epoch log stable m.

Definition create_group_from_fork gid (generation : u64) config (now : Now) (seed : u64) (fsm : F)
    (snapshot : bytes) (read_only : option ReadOnlyOption) (boot_epoch : u64) log stable m :=
  create_group_from_fork_with_rng gid generation config now (group_rng seed gid) fsm snapshot
    read_only boot_epoch log stable m.

Definition install_yieldable_fork `{!MultiEngine G I L S E, !ForkGate G X} (parent child : G)
    (extra : X) (now : Now) (seed : u64) (engine : E) m :=
  install_yieldable_fork_with_rng parent child extra now (group_rng seed child) engine m.
End seeded.
