(* ===== verification/MultiVerbs.v ===== *)
(** * Calls on one group, and the verbs that span two

    [sailing-proto/src/multi/mod.rs]: the group-keyed delegates of the endpoint's
    handlers and proposals, the split verb, and the verbs of a merge (prepare,
    commit, rollback, and the thaws and witnesses the container proposes by
    itself).  The payload encoders are those of [sailing-proto/src/wire/mod.rs];
    the bytes of a message are the generated code's, the fields of [BuffaEncode].

    A delegate answers [None] when the group is not hosted.  An outer [None] of a
    merge verb is a panic of an [expect]. *)

From S2P Require Import Prelude Bytes Num Quorum Progress ProgressMap Conf Tracker ConfChange.
From S2P Require Import Config Lease Prng ReadOnly Data Frame Entry Storage Shape Restart.
From S2P Require Import Forwarded Message Wire Codec Endpoint Merge Persistence Replication.
From S2P Require Import Election Propose Handlers Commit Apply Boot Reads Snapshot Append Drive.
From S2P Require Import Multi MultiRemove.

(** ** Payload encoders *)

Class BuffaEncode := {
  buffa_enc_split : SplitPayload → bytes;
  buffa_enc_prepare_merge : PrepareMergePayload → bytes;
  buffa_enc_commit_merge : CommitMergePayload → bytes;
  buffa_enc_rollback_merge : RollbackMergePayload → bytes;
  buffa_enc_thaw_discharged : ThawDischargedPayload → bytes;
}.

Section payload.
Context {BE : BuffaEncode}.

Definition encode_split_payload (p : SplitPayload) : bytes :=
  buffa_enc_split {| sp_child := sp_child p; sp_child_gen := sp_child_gen p;
                     sp_parent_gen_after := sp_parent_gen_after p;
                     sp_instruction := sp_instruction p |}.

Definition encode_prepare_merge_payload (p : PrepareMergePayload) : bytes :=
  buffa_enc_prepare_merge {| pm_target := pm_target p; pm_source_gen_after := pm_source_gen_after p |}.

Definition encode_commit_merge_payload (p : CommitMergePayload) : bytes :=
  buffa_enc_commit_merge {| cm_source := cm_source p; cm_freeze_index := cm_freeze_index p;
                            cm_freeze_term := cm_freeze_term p;
                            cm_source_gen_after := cm_source_gen_after p;
                            cm_target_gen_after := cm_target_gen_after p |}.

Definition encode_rollback_merge_payload (p : RollbackMergePayload) : bytes :=
  buffa_enc_rollback_merge {| rm_source_gen_after := rm_source_gen_after p; rm_source := rm_source p;
                              rm_target_gen_after := rm_target_gen_after p |}.

Definition encode_thaw_discharged_payload (p : ThawDischargedPayload) : bytes :=
  buffa_enc_thaw_discharged {| td_source := td_source p; td_generation := td_generation p |}.
End payload.

(** ** Errors *)

Inductive SplitError (I : Type) :=
  | SeNotLeader (leader : option I)
  | SeJointConfig
  | SeSplitInFlight
  | SeChildExists
  | SeChildRetired
  | SeInvalidChild
  | SeBelowFloor (floor : u64)
  | SeReservedGeneration
  | SeCrossPlane
  | SeFrozen
  | SeLineageExhausted
  | SeUnsupported
  | SePropose (e : ProposeError I).
Arguments SeNotLeader {I}.
Arguments SeJointConfig {I}.
Arguments SeSplitInFlight {I}.
Arguments SeChildExists {I}.
Arguments SeChildRetired {I}.
Arguments SeInvalidChild {I}.
Arguments SeBelowFloor {I}.
Arguments SeReservedGeneration {I}.
Arguments SeCrossPlane {I}.
Arguments SeFrozen {I}.
Arguments SeLineageExhausted {I}.
Arguments SeUnsupported {I}.
Arguments SePropose {I}.

Inductive MergeError (I : Type) :=
  | MeNotLeader (leader : option I)
  | MeSelfMerge
  | MeDirectionInverted
  | MeTargetMissing
  | MeSourceMissing
  | MeVoterSetsDiffer
  | MeLearnersPresent
  | MeJointConfig
  | MeReadModesDiffer
  | MeConfChangeInFlight
  | MeSplitInFlight
  | MeRollbackInFlight
  | MeAlreadyFrozen
  | MeAlreadyPending
  | MeSourceNotReady
  | MeSourceBarrierPending
  | MeSourceOwesThaw
  | MeSourceClaimedAsTarget
  | MeTargetOwesThaw
  | MeBelowFloor (floor : u64)
  | MeCrossPlane
  | MeNotFrozen
  | MeSourceClaimed
  | MeSourceBehindFreeze (expected seen : u64)
  | MeStaleThaw (expected seen : u64)
  | MeSourceAbsorbParked
  | MeUnbackedThaw
  | MeLineageExhausted
  | MeUnsupported
  | MePropose (e : ProposeError I).
Arguments MeNotLeader {I}.
Arguments MeSelfMerge {I}.
Arguments MeDirectionInverted {I}.
Arguments MeTargetMissing {I}.
Arguments MeSourceMissing {I}.
Arguments MeVoterSetsDiffer {I}.
Arguments MeLearnersPresent {I}.
Arguments MeJointConfig {I}.
Arguments MeReadModesDiffer {I}.
Arguments MeConfChangeInFlight {I}.
Arguments MeSplitInFlight {I}.
Arguments MeRollbackInFlight {I}.
Arguments MeAlreadyFrozen {I}.
Arguments MeAlreadyPending {I}.
Arguments MeSourceNotReady {I}.
Arguments MeSourceBarrierPending {I}.
Arguments MeSourceOwesThaw {I}.
Arguments MeSourceClaimedAsTarget {I}.
Arguments MeTargetOwesThaw {I}.
Arguments MeBelowFloor {I}.
Arguments MeCrossPlane {I}.
Arguments MeNotFrozen {I}.
Arguments MeSourceClaimed {I}.
Arguments MeSourceBehindFreeze {I}.
Arguments MeStaleThaw {I}.
Arguments MeSourceAbsorbParked {I}.
Arguments MeUnbackedThaw {I}.
Arguments MeLineageExhausted {I}.
Arguments MeUnsupported {I}.
Arguments MePropose {I}.

(** [Result::map_err] *)
Definition result_map_err {T A B} (f : A → B) (r : result T A) : result T B :=
  match r with Ok t => Ok t | Err e => Err (f e) end.

Definition conf_change_moves_voters (ty : ConfChangeType) : bool :=
  match ty with AddNode | RemoveNode => true | AddLearnerNode => false end.

Section verbs.
Context {G I F R L S St : Type} `{!NodeId G, !NodeId I, !StateMachine F, !Rng R}.
Context `{!LogStore L, !StableStore I S, !GroupStores G L S St}.
Context {DG : Data G} {DI : Data I} {BS : BuffaSizes} {DC : Data sm_command} {DS : Data sm_snapshot}.
Context {BD : BuffaDecode} {BE : BuffaEncode} {BC : Buffa PbConfChangeV2}.
Abbreviation Endpoint := (Endpoint I F R).
Abbreviation MultiRaft := (MultiRaft G I F R).
Abbreviation MergeError := (MergeError I).
Implicit Types (m : MultiRaft) (ep sep tep : Endpoint) (gid : G) (log : L) (stable : S) (st : St).

(** ** Delegates *)

(** A snapshot for a parked group is dropped while a source it would cross is
    still hosted here. *)
Definition install_blocked m gid (msg : Message I) : bool :=
  match msg with
  | MInstallSnapshot _ =>
      group_is m gid (λ ep, bool_decide (is_Some (mrg_pending_apply (ep_merge ep))))
      && (group_is m gid (λ t, existsb (λ b,
            match decode_exact (T := G) b with Ok g => hosts m g | Err _ => true end)
            (crossing_sources t))
          || obligation_names_hosted_unadvanced m gid)
  | _ => false
  end.

Definition MultiRaft_handle_message gid (now : Now) (from : I) (msg : Message I) log stable m
  : option unit * L * S * MultiRaft :=
  if install_blocked m gid msg
  then (Some tt, log, stable, upd_group gid (note_merge_park_unresolvable false) m)
  else match mr_groups m !! gid with
  | None => (None, log, stable, m)
  | Some ep =>
      let '(log, stable, ep) := handle_message now from msg log stable ep in
      (Some tt, log, stable, mark_dirty gid (set_group gid ep m))
  end.

Definition MultiRaft_handle_timeout gid (now : Now) log stable m : option unit * L * S * MultiRaft :=
  match mr_groups m !! gid with
  | None => (None, log, stable, m)
  | Some ep =>
      let '(log, stable, ep) := handle_timeout now log stable ep in
      (Some tt, log, stable, mark_dirty gid (set_group gid ep m))
  end.

Definition MultiRaft_handle_storage gid (now : Now) log stable m
  : option StorageProgress * L * S * MultiRaft :=
  match mr_groups m !! gid with
  | None => (None, log, stable, m)
  | Some ep =>
      let '(progress, log, stable, ep) := handle_storage now log stable ep in
      (Some progress, log, stable, mark_dirty gid (set_group gid ep m))
  end.

Definition MultiRaft_propose gid (now : Now) (cmd : sm_command) log m
  : option (result Index (ProposeError I)) * L * MultiRaft :=
  match mr_groups m !! gid with
  | None => (None, log, m)
  | Some ep =>
      let '(r, log, ep) := propose now cmd log ep in
      (Some r, log, mark_dirty gid (set_group gid ep m))
  end.

Definition MultiRaft_flush_appends gid (now : Now) log stable m : option unit * MultiRaft :=
  match mr_groups m !! gid with
  | None => (None, m)
  | Some ep => (Some tt, mark_dirty gid (set_group gid (flush_appends now log stable ep) m))
  end.

Definition MultiRaft_propose_conf_change gid (now : Now) (cc : ConfChange I) log m
  : option (result Index (ProposeError I)) * L * MultiRaft :=
  match mr_groups m !! gid with
  | None => (None, log, m)
  | Some ep =>
      if conf_change_moves_voters (cc_ty cc) && some_source_claims_target_unresolved m gid
      then (Some (Err PeMergeInFlight), log, m)
      else
        let '(r, log, ep) := propose_conf_change now cc log ep in
        (Some r, log, mark_dirty gid (set_group gid ep m))
  end.

Definition MultiRaft_propose_conf_change_v2 gid (now : Now) (cc : ConfChangeV2 I) log m
  : option (result Index (ProposeError I)) * L * MultiRaft :=
  match mr_groups m !! gid with
  | None => (None, log, m)
  | Some ep =>
      if existsb (λ c, conf_change_moves_voters (ccs_ty c)) (ccv2_changes cc)
         && some_source_claims_target_unresolved m gid
      then (Some (Err PeMergeInFlight), log, m)
      else
        let '(r, log, ep) := propose_conf_change_v2 now cc log ep in
        (Some r, log, mark_dirty gid (set_group gid ep m))
  end.

Definition MultiRaft_propose_read_mode_change gid (now : Now) (mode : ReadOnlyOption) log m
  : option (result Index (ProposeError I)) * L * MultiRaft :=
  match mr_groups m !! gid with
  | None => (None, log, m)
  | Some ep =>
      let '(r, log, ep) := propose_read_mode_change now mode log ep in
      (Some r, log, mark_dirty gid (set_group gid ep m))
  end.

Definition MultiRaft_read_index gid (now : Now) (context : bytes) log m
  : option (result unit ReadIndexError) * MultiRaft :=
  match mr_groups m !! gid with
  | None => (None, m)
  | Some ep =>
      let '(r, ep) := read_index now context log ep in
      (Some r, mark_dirty gid (set_group gid ep m))
  end.

Definition MultiRaft_transfer_leader gid (now : Now) (to : I) log stable m
  : option (result unit (TransferError I)) * MultiRaft :=
  match mr_groups m !! gid with
  | None => (None, m)
  | Some ep =>
      let '(r, ep) := transfer_leader now to log stable ep in
      (Some r, mark_dirty gid (set_group gid ep m))
  end.

(** ** Splitting *)

Definition split_gates ep : result unit (SplitError I) :=
  if is_poisoned ep then Err (SePropose PePoisoned)
  else if negb (Role_is_leader (ep_role ep)) then Err (SeNotLeader (ep_leader ep))
  else if negb (sm_supports_split (ep_fsm ep)) then Err SeUnsupported
  else if merge_freeze_active ep then Err (SePropose PeFrozen)
  else if ConfState_is_joint (Tracker_conf_state (ep_tracker ep)) then Err SeJointConfig
  else if split_in_flight ep then Err SeSplitInFlight
  else Ok tt.

Definition MultiRaft_propose_split gid (now : Now) (child : G) (child_gen : u64)
    (instruction : bytes) log m : option (result Index (SplitError I)) * L * MultiRaft :=
  match mr_groups m !! gid with
  | None => (None, log, m)
  | Some ep =>
      match split_gates ep with
      | Err r => (Some (Err r), log, m)
      | Ok _ =>
          if hosts m child then (Some (Err SeChildExists), log, m)
          else if group_tag_bad (group_key child) then (Some (Err SeInvalidChild), log, m)
          else match next_lineage (spl_shape_gen (ep_split ep)) with
          | None => (Some (Err SeLineageExhausted), log, m)
          | Some parent_gen_after =>
              match validate_working_generation child_gen with
              | Err _ => (Some (Err SeReservedGeneration), log, m)
              | Ok _ =>
                  let payload := {| sp_child := group_key child; sp_child_gen := child_gen;
                                    sp_parent_gen_after := parent_gen_after;
                                    sp_instruction := instruction |} in
                  let '(r, log, ep) :=
                    propose_split_entry now (group_key child) (encode_split_payload payload) log ep in
                  (Some (result_map_err SePropose r), log, mark_dirty gid (set_group gid ep m))
              end
          end
      end
  end.

(** ** Merging *)

Definition merge_conf ep : ConfState I := Tracker_conf_state (ep_tracker ep).

(** The memberships and read modes of the two sides, in the order of the checks. *)
Definition merge_shapes_agree (in_flight : bool) sep tep : result unit MergeError :=
  if ConfState_is_joint (merge_conf sep) || ConfState_is_joint (merge_conf tep)
  then Err MeJointConfig
  else if in_flight then Err MeConfChangeInFlight
  else if negb (bool_decide (cs_voters (merge_conf sep) = cs_voters (merge_conf tep)))
  then Err MeVoterSetsDiffer
  else if negb (bool_decide (cs_learners (merge_conf sep) = ∅))
          || negb (bool_decide (cs_learners (merge_conf tep) = ∅)) then Err MeLearnersPresent
  else if negb (bool_decide (active_read_mode sep = active_read_mode tep)) then Err MeReadModesDiffer
  else Ok tt.

Definition merge_pending ep : bool :=
  commit_merge_in_flight ep || bool_decide (is_Some (mrg_pending_apply (ep_merge ep)))
  || bool_decide (is_Some (mrg_capture_debt (ep_merge ep))).

Definition prepare_gates sep tep : result u64 MergeError :=
  if merge_freeze_active tep then Err MeAlreadyFrozen
  else if negb (sm_supports_absorb (ep_fsm tep)) then Err MeUnsupported
  else if is_poisoned sep then Err (MePropose PePoisoned)
  else if negb (Role_is_leader (ep_role sep)) then Err (MeNotLeader (ep_leader sep))
  else if merge_freeze_active sep then Err MeAlreadyFrozen
  else if split_in_flight sep || fork_obligations_standing sep then Err MeSplitInFlight
  else if merge_pending sep then Err MeAlreadyPending
  else if owes_live_thaw sep || holds_witness_debt sep then Err MeSourceOwesThaw
  else
    let? _ := merge_shapes_agree (conf_change_in_flight sep || conf_change_in_flight tep) sep tep in
    match next_lineage (spl_shape_gen (ep_split sep)) with
    | None => Err MeLineageExhausted
    | Some g => Ok g
    end.

Definition MultiRaft_prepare_merge (source : G) (now : Now) (target : G) st m
  : option (option (result Index MergeError) * St * MultiRaft) :=
  match mr_groups m !! source with
  | None => Some (None, st, m)
  | Some sep =>
      if decide (source = target) then Some (Some (Err MeSelfMerge), st, m)
      else if negb (bool_decide (bytes_cmp (group_key source) (group_key target) = Gt))
      then Some (Some (Err MeDirectionInverted), st, m)
      else match mr_groups m !! target with
      | None => Some (Some (Err MeTargetMissing), st, m)
      | Some tep =>
          match prepare_gates sep tep with
          | Err r => Some (Some (Err r), st, m)
          | Ok source_gen_after =>
              match some_source_claims_target (L := L) (S := S) source st m with
              | (true, m) => Some (Some (Err MeSourceClaimedAsTarget), st, m)
              | (false, m) =>
                  let payload := {| pm_target := group_key target;
                                    pm_source_gen_after := source_gen_after |} in
                  match gst_stores source st with
                  | None => Some (None, st, m)
                  | Some (log, stable) =>
                      ep ← mr_groups m !! source;
                      let '(r, log, ep) :=
                        propose_merge_entry now EkPrepareMerge (encode_prepare_merge_payload payload)
                          log ep in
                      Some (Some (result_map_err MePropose r), gst_write source log stable st,
                            mark_dirty source (set_group source ep m))
                  end
              end
          end
      end
  end.

Definition frozen_ready sep : bool :=
  mrg_frozen (ep_merge sep)
  && match mrg_freeze_index (ep_merge sep) with Some f => f <=? ep_applied sep | None => false end.

Definition freeze_barrier_met sep : bool :=
  Role_is_leader (ep_role sep)
  && match mrg_freeze_index (ep_merge sep) with Some f => peers_matched_through sep f | None => false end.

Definition commit_gates (source target : G) sep tep : result u64 MergeError :=
  if is_poisoned tep then Err (MePropose PePoisoned)
  else if negb (Role_is_leader (ep_role tep)) then Err (MeNotLeader (ep_leader tep))
  else if merge_pending tep then Err MeAlreadyPending
  else if merge_freeze_active tep then Err MeAlreadyFrozen
  else if negb (sm_supports_absorb (ep_fsm tep)) then Err MeUnsupported
  else if split_in_flight tep then Err MeSplitInFlight
  else if rollback_in_flight tep then Err MeRollbackInFlight
  else if negb (frozen_ready sep) then Err MeSourceNotReady
  else if negb (frozen_for_is sep (group_key target)) then Err MeSourceClaimed
  else if bool_decide (owes_live_thaw_for tep (group_key source) = Some (spl_shape_gen (ep_split sep)))
  then Err MeTargetOwesThaw
  else
    let? _ := merge_shapes_agree (conf_change_in_flight tep) sep tep in
    if negb (freeze_barrier_met sep) then Err MeSourceBarrierPending
    else match next_lineage (spl_shape_gen (ep_split tep)) with
    | None => Err MeLineageExhausted
    | Some g => Ok g
    end.

Definition MultiRaft_commit_merge (target : G) (now : Now) (source : G) log m
  : option (option (result Index MergeError) * L * MultiRaft) :=
  match mr_groups m !! target with
  | None => Some (None, log, m)
  | Some tep =>
      if decide (source = target) then Some (Some (Err MeSelfMerge), log, m)
      else match mr_groups m !! source with
      | None => Some (Some (Err MeSourceMissing), log, m)
      | Some sep =>
          match commit_gates source target sep tep with
          | Err r => Some (Some (Err r), log, m)
          | Ok target_gen_after =>
              freeze_index ← mrg_freeze_index (ep_merge sep);
              freeze_term ← mrg_freeze_term (ep_merge sep);
              let payload := {| cm_source := group_key source; cm_freeze_index := freeze_index;
                                cm_freeze_term := freeze_term;
                                cm_source_gen_after := spl_shape_gen (ep_split sep);
                                cm_target_gen_after := target_gen_after |} in
              let '(r, log, tep) :=
                propose_merge_entry now EkCommitMerge (encode_commit_merge_payload payload) log tep in
              Some (Some (result_map_err MePropose r), log, mark_dirty target (set_group target tep m))
          end
      end
  end.

Definition rollback_gates (source target : G) sep tep log : result u64 MergeError :=
  let this_merge (sb : bytes) (gen : u64) :=
    bool_decide (sb = group_key source) && (gen =? spl_shape_gen (ep_split sep)) in
  if is_poisoned tep then Err (MePropose PePoisoned)
  else if negb (Role_is_leader (ep_role tep)) then Err (MeNotLeader (ep_leader tep))
  else if merge_freeze_active tep then Err MeAlreadyFrozen
  else if negb (mrg_frozen (ep_merge sep)) then Err MeNotFrozen
  else if negb (frozen_for_is sep (group_key target)) then Err MeSourceClaimed
  else if split_in_flight tep then Err MeSplitInFlight
  else if rollback_in_flight tep then Err MeRollbackInFlight
  else if match mrg_pending_apply (ep_merge tep) with
          | Some park => negb (this_merge (pma_source_bytes park) (pma_source_gen_after park))
          | None =>
              commit_merge_in_flight tep
              && match pending_commit_source tep log with
                 | Some (sb, gen) => negb (this_merge sb gen)
                 | None => true
                 end
          end then Err MeAlreadyPending
  else match next_lineage (spl_shape_gen (ep_split tep)) with
  | None => Err MeLineageExhausted
  | Some g => Ok g
  end.

Definition MultiRaft_rollback_merge (target : G) (now : Now) (source : G) log m
  : option (result Index MergeError) * L * MultiRaft :=
  match mr_groups m !! target with
  | None => (None, log, m)
  | Some tep =>
      if decide (source = target) then (Some (Err MeSelfMerge), log, m)
      else match mr_groups m !! source with
      | None => (Some (Err MeSourceMissing), log, m)
      | Some sep =>
          match rollback_gates source target sep tep log with
          | Err r => (Some (Err r), log, m)
          | Ok target_gen_after =>
              let payload := RollbackMergePayload_abort (group_key source)
                               (spl_shape_gen (ep_split sep)) target_gen_after in
              let '(r, log, tep) :=
                propose_merge_entry now EkRollbackMerge (encode_rollback_merge_payload payload)
                  log tep in
              (Some (result_map_err MePropose r), log, mark_dirty target (set_group target tep m))
          end
      end
  end.

(** ** Thaws and witnesses *)

(** The thaw both paths propose, at the generation after the freeze. *)
Definition propose_thaw (source : G) (now : Now) (freeze_gen : u64) ep log m
  : option (result Index MergeError) * L * MultiRaft :=
  match thaw_in_flight ep with
  | Some idx => (Some (Ok idx), log, m)
  | None =>
      match next_lineage freeze_gen with
      | None => (Some (Err MeLineageExhausted), log, m)
      | Some source_gen_after =>
          let payload := RollbackMergePayload_unfreeze source_gen_after in
          let '(r, log, ep) :=
            propose_merge_entry now EkRollbackMerge (encode_rollback_merge_payload payload) log ep in
          let ep := match r with Ok index => note_thaw_appended index ep | Err _ => ep end in
          (Some (result_map_err MePropose r), log, mark_dirty source (set_group source ep m))
      end
  end.

Definition propose_merge_unfreeze (source : G) (now : Now) (claimed_by : G) (expected_gen : u64) log m
  : option (result Index MergeError) * L * MultiRaft :=
  match mr_groups m !! source with
  | None => (None, log, m)
  | Some ep =>
      let seen := spl_shape_gen (ep_split ep) in
      if is_poisoned ep then (Some (Err (MePropose PePoisoned)), log, m)
      else if expected_gen <? seen then (Some (Err (MeStaleThaw expected_gen seen)), log, m)
      else if seen <? expected_gen then
        (Some (Err (if merge_freeze_active ep then MeSourceBehindFreeze expected_gen seen
                    else MeNotFrozen)), log, m)
      else if negb (mrg_frozen (ep_merge ep)) then (Some (Err MeNotFrozen), log, m)
      else if negb (Role_is_leader (ep_role ep)) then (Some (Err (MeNotLeader (ep_leader ep))), log, m)
      else if negb (frozen_for_is ep (group_key claimed_by))
      then (Some (Err MeSourceClaimed), log, m)
      else if negb (group_is m claimed_by (λ t, abandoned_matches t (group_key source) expected_gen))
      then (Some (Err MeUnbackedThaw), log, m)
      else propose_thaw source now expected_gen ep log m
  end.

Definition propose_dead_target_thaw (source : G) (now : Now) (target : G) log m
  : option (result Index MergeError) * L * MultiRaft :=
  match mr_groups m !! source with
  | None => (None, log, m)
  | Some ep =>
      if is_poisoned ep then (Some (Err (MePropose PePoisoned)), log, m)
      else if negb (mrg_frozen (ep_merge ep)) then (Some (Err MeNotFrozen), log, m)
      else if negb (Role_is_leader (ep_role ep)) then (Some (Err (MeNotLeader (ep_leader ep))), log, m)
      else if negb (frozen_for_is ep (group_key target)) then (Some (Err MeSourceClaimed), log, m)
      else if park_names_source m source then (Some (Err MeSourceAbsorbParked), log, m)
      else propose_thaw source now (spl_shape_gen (ep_split ep)) ep log m
  end.

Definition propose_thaw_witness (target : G) (source_bytes : bytes) (generation : u64) (now : Now)
    log m : option (result Index MergeError) * L * MultiRaft :=
  match mr_groups m !! target with
  | None => (None, log, m)
  | Some ep =>
      match witness_in_flight ep with
      | Some idx => (Some (Ok idx), log, m)
      | None =>
          let payload := {| td_source := source_bytes; td_generation := generation |} in
          let '(r, log, ep) :=
            propose_merge_entry now EkThawDischarged (encode_thaw_discharged_payload payload) log ep in
          let ep := match r with Ok index => note_witness_appended index ep | Err _ => ep end in
          (Some (result_map_err MePropose r), log, mark_dirty target (set_group target ep m))
      end
  end.
End verbs.
