(* ===== verification/MultiMerge.v ===== *)
(** * The merge service

    [service_merge_applies] of [sailing-proto/src/multi/mod.rs]: the crank that
    carries every hosted group's merges forward.  Its passes, in the order of the
    code: the parked commits, the aborted merges that still owe a thaw, the husks
    of sources that were absorbed elsewhere, the frozen sources whose target is
    gone, the captures owed after a deferred absorb, the captures an adopted
    snapshot owes, and the close of the blocked signals.

    [None] is a panic of the removal ([MultiRemove]). *)

From S2P Require Import Prelude Bytes Num Quorum Progress ProgressMap Conf Tracker ConfChange.
From S2P Require Import Config Lease Prng ReadOnly Data Frame Entry Storage Shape Restart.
From S2P Require Import Forwarded Message Wire Codec Endpoint Merge Persistence Replication.
From S2P Require Import Election Propose Handlers Commit Apply Boot Reads Snapshot Append Drive.
From S2P Require Import Multi MultiRemove MultiVerbs.

Inductive MergeResolution (G : Type) :=
  | ResMerged (source target : G)
  | ResAbsorbed (source target : G)
  | ResAborted (source target : G)
  | ResRetired (source : G)
  | ResCaptureFailed (source target : G).
Arguments ResMerged {G}.
Arguments ResAbsorbed {G}.
Arguments ResAborted {G}.
Arguments ResRetired {G}.
Arguments ResCaptureFailed {G}.

Inductive ParkVerdict := PvResolve | PvAbort | PvWait | PvAdvanceSource.

#[global] Instance MergeWindow_eq_dec : EqDecision MergeWindow.
Proof. solve_decision. Defined.
#[global] Instance CaptureFence_eq_dec : EqDecision CaptureFence.
Proof. solve_decision. Defined.

(** A loop whose body may panic. *)
Fixpoint for_each {A X} (f : A → X → option X) (l : list A) (x : X) : option X :=
  match l with
  | [] => Some x
  | a :: l => x ← f a x; for_each f l x
  end.

Section service.
Context {G I F R L S St : Type} `{!NodeId G, !NodeId I, !StateMachine F, !Rng R}.
Context `{!LogStore L, !StableStore I S, !GroupStores G L S St, !FloorStore G St}.
Context {DG : Data G} {DI : Data I} {BS : BuffaSizes} {DC : Data sm_command} {DS : Data sm_snapshot}.
Context {BD : BuffaDecode} {BE : BuffaEncode} {BC : Buffa PbConfChangeV2}.
Abbreviation Endpoint := (Endpoint I F R).
Abbreviation MultiRaft := (MultiRaft G I F R).

(** The container, the host's stores, and what was resolved so far. *)
Record Svc := {
  sv_m : MultiRaft;
  sv_st : St;
  sv_res : list (MergeResolution G);
}.

#[global] Instance Svc_eta : Eta Svc := λ r, Build_Svc (sv_m r) (sv_st r) (sv_res r).

Implicit Types (m : MultiRaft) (ep sep tep : Endpoint) (x : Svc) (now : Now).

Definition on_m (f : MultiRaft → MultiRaft) x : Svc := x <| sv_m ::= f |>.
Definition resolved (r : MergeResolution G) x : Svc := x <| sv_res ::= λ q, q ++ [r] |>.
Definition groups_where m (p : G → Endpoint → bool) : list G :=
  (filter (λ g, p g.1 g.2 = true) (btree_map_iter (mr_groups m))).*1.

Definition fail_stop (gid : G) (reason : PoisonReason) m : MultiRaft :=
  note_if_poisoned gid (upd_group gid (poison reason) m).

Definition recovery_pin_keys (source : G) (inherited : list Merged) : list bytes :=
  group_key source :: (mg_source <$> inherited).

(** The ids a chain of capture debts names; [None] is a key that is no id. *)
Fixpoint decode_chain (chain : list Merged) : option (list G) :=
  match chain with
  | [] => Some []
  | d :: chain =>
      match decode_exact (T := G) (mg_source d) with
      | Ok g => (g ::.) <$> decode_chain chain
      | Err _ => None
      end
  end.

(** Stage the capture of an absorb; without stores the target fail-stops. *)
Definition stage_capture (tgid : G) x : bool * Svc :=
  match gst_stores tgid (sv_st x) with
  | None => (false, on_m (upd_group tgid (poison SnapshotCapture)) x)
  | Some (log, stable) =>
      match mr_groups (sv_m x) !! tgid with
      | None => (false, x)
      | Some tep =>
          let '(staged, stable, tep) := capture_absorb_snapshot log stable tep in
          (staged, {| sv_m := set_group tgid tep (sv_m x);
                      sv_st := gst_write tgid log stable (sv_st x); sv_res := sv_res x |})
      end
  end.

(** ** Parked commits *)

(** An open window is sealed by its leader's own entry. *)
Definition park_window now (tgid : G) tep x : option (MergeWindow * Svc) :=
  match gst_stores tgid (sv_st x) with
  | None => None
  | Some (log, stable) =>
      let w := merge_abort_window tep log in
      Some (w,
        if bool_decide (w = WindowOpen) then
          let '(sealed, log, tep) := ensure_merge_seal now log tep in
          let st := gst_write tgid log stable (sv_st x) in
          if sealed then
            x <| sv_m ::= λ m, mark_dirty tgid (set_group tgid (flush_appends now log stable tep) m) |>
              <| sv_st := st |>
          else x <| sv_m ::= set_group tgid tep |> <| sv_st := st |>
        else if bool_decide (w = WindowClosed) then
          on_m (upd_group tgid latch_merge_window_closed) x
        else x)
  end.

(** The verdict, and whether the park waits for a source this host cannot see. *)
Definition park_verdict (w : MergeWindow) (tgid source : G) (expected : u64) x : ParkVerdict * bool :=
  match w with
  | WindowAbort => (PvAbort, false)
  | WindowOpen | WindowStall => (PvWait, false)
  | WindowClosed =>
      match mr_groups (sv_m x) !! source with
      | Some sep =>
          if spl_shape_gen (ep_split sep) =? expected then
            (if frozen_for_is sep (group_key tgid) then PvResolve else PvAbort, false)
          else (PvAdvanceSource, false)
      | None =>
          if fs_floor (sv_st x) source =? MERGED_FLOOR then (PvAbort, false) else (PvWait, true)
      end
  end.

(** The first crossed source that is hosted, and whether a key before it is no id. *)
Fixpoint find_crossing m (keys : list bytes) : bool * option G :=
  match keys with
  | [] => (false, None)
  | b :: keys =>
      match decode_exact (T := G) b with
      | Ok g => if hosts m g then (false, Some g) else find_crossing m keys
      | Err _ => let '(_, found) := find_crossing m keys in (true, found)
      end
  end.

(** The crossing walk of a park whose source is not hosted; [None] is a target
    that fail-stopped on the way. *)
Definition park_crossings (tgid : G) (unresolvable : bool) x : option (option G) * Svc :=
  if negb unresolvable then (Some None, x)
  else
    let m := match gst_stores (L := L) (S := S) tgid (sv_st x) with
             | Some (tlog, _) => upd_group tgid (advance_crossing_scan tlog) (sv_m x)
             | None => sv_m x
             end in
    if bool_decide (is_Some (gst_stores (L := L) (S := S) tgid (sv_st x)))
       && group_is m tgid is_poisoned
    then (None, x <| sv_m := note_if_poisoned tgid m |>)
    else
      let '(corrupt, hosted_crossing) :=
        find_crossing m (from_option crossing_sources [] (mr_groups m !! tgid)) in
      if corrupt then (None, x <| sv_m := fail_stop tgid MergeDecode m |>)
      else (Some hosted_crossing, x <| sv_m := m |>).

(** A park is advertised as unresolvable when nothing on this host can move it. *)
Definition park_advertise (tgid : G) (unresolvable : bool) (hosted_crossing : option G) m : bool :=
  let stale := group_is m tgid (λ t, negb (mrg_crossing_scan_current (ep_merge t))) in
  let crossing_blocks := (unresolvable && stale) || bool_decide (is_Some hosted_crossing) in
  unresolvable && negb crossing_blocks
  && group_is m tgid (λ t, mrg_crossing_scan_current (ep_merge t) && negb (fork_barrier_standing t))
  && negb (obligation_names_hosted_unadvanced m tgid).

Definition park_signals (tgid : G) (park_at : Index) (unresolvable : bool)
    (hosted_crossing : option G) m : MultiRaft :=
  let advertise := park_advertise tgid unresolvable hosted_crossing m in
  let m := match hosted_crossing with
           | Some crossing => note_merge_blocked tgid crossing park_at CrossedHostedSource m
           | None => m
           end in
  upd_group tgid (note_merge_park_unresolvable advertise) m.

(** A source behind its freeze is advanced on the freeze's identity. *)
Definition advance_source (tgid source : G) (pending : PendingMergeApply) x : Svc :=
  let x := on_m (note_merge_blocked tgid source (pma_at pending) SourceBehind) x in
  match gst_stores (L := L) (S := S) source (sv_st x), mr_groups (sv_m x) !! source with
  | Some (slog, _), Some sep =>
      let '(moved, sep) :=
        advance_commit_on_freeze_identity (pma_freeze_index pending) (pma_freeze_term pending)
          slog sep in
      let m := set_group source sep (sv_m x) in
      x <| sv_m := note_if_poisoned source (if moved then mark_dirty source m else m) |>
  | _, _ => x
  end.

(** The absorb failed after the source was taken down: its id stays pinned. *)
Definition absorb_failed (tgid source : G) (debts : list Merged) x : Svc :=
  resolved (ResCaptureFailed source tgid)
    (on_m (λ m, note_if_poisoned tgid
             (upd_group tgid (pin_failed_capture (recovery_pin_keys source debts)) m)) x).

(** The capture of an absorb that need not wait. *)
Definition absorb_now (tgid source : G) (inherited : list G) (debts : list Merged)
    (merged : option Merged) x : Svc :=
  let '(staged, x) := stage_capture tgid x in
  let x := on_m (mark_dirty tgid) x in
  if staged then
    let x := match merged with Some d => on_m (upd_group tgid (emit_merged d)) x | None => x end in
    foldl (λ x prior, resolved (ResMerged prior tgid) x) (resolved (ResMerged source tgid) x) inherited
  else absorb_failed tgid source debts x.

(** The source's state machine enters the target's. *)
Definition absorb_source (tgid source : G) (block : AbsorbCaptureBlock) (inherited : list G) sep x
  : Svc :=
  let '(debts, sep) := take_capture_debts sep in
  match mr_groups (sv_m x) !! tgid with
  | None => x
  | Some tep =>
      let '(merged, tep) := resolve_pending_merge (ep_fsm sep) tep in
      let x := on_m (set_group tgid tep) x in
      if is_poisoned tep then
        resolved (ResCaptureFailed source tgid)
          (on_m (λ m, note_if_poisoned tgid (mark_dirty tgid
                   (upd_group tgid (pin_failed_capture (recovery_pin_keys source debts)) m))) x)
      else if bool_decide (block = AcbDefer) then
        match merged with
        | Some d =>
            resolved (ResAbsorbed source tgid)
              (on_m (λ m, mark_dirty tgid
                       (upd_group tgid (λ t, adopt_inherited_debts debts (mint_capture_debt d t)) m)) x)
        | None => on_m (mark_dirty tgid) x
        end
      else absorb_now tgid source inherited debts merged x
  end.

Definition park_resolve (tgid source : G) (park_at : Index) x : option Svc :=
  match mr_groups (sv_m x) !! tgid with
  | None => Some x
  | Some tep =>
      let block := absorb_capture_block tep in
      if bool_decide (block = AcbHold) then
        Some (if bool_decide (capture_fence_at tep park_at = Some FenceFrozen)
              then on_m (note_merge_blocked tgid source park_at FrozenFence) x else x)
      else
        let '(drivable, m) := owes_a_drivable_thaw source (sv_m x) in
        let x := x <| sv_m := m |> in
        if drivable then Some x
        else if group_is m source fork_obligations_standing then
          Some (on_m (note_merge_blocked tgid source park_at ForkFence) x)
        else match decode_chain (from_option capture_debt_chain [] (mr_groups m !! source)) with
        | None => Some (on_m (λ m, mark_dirty source (fail_stop source MergeDecode m)) x)
        | Some inherited =>
            '(removed, m) ← remove_group_inner source m;
            let x := x <| sv_m := m |> in
            Some (match removed with
                  | None => x
                  | Some sep => absorb_source tgid source block inherited sep x
                  end)
        end
  end.

Definition park_step now (tgid : G) x : option Svc :=
  match mr_groups (sv_m x) !! tgid with
  | None => Some x
  | Some tep =>
      match mrg_pending_apply (ep_merge tep) with
      | None => Some x
      | Some pending =>
          match decode_exact (T := G) (pma_source_bytes pending) with
          | Err _ => Some (on_m (fail_stop tgid MergeDecode) x)
          | Ok source =>
              match park_window now tgid tep x with
              | None => Some x
              | Some (w, x) =>
                  let '(verdict, unresolvable) :=
                    park_verdict w tgid source (pma_source_gen_after pending) x in
                  match park_crossings tgid unresolvable x with
                  | (None, x) => Some x
                  | (Some crossing, x) =>
                      let x := on_m (park_signals tgid (pma_at pending) unresolvable crossing) x in
                      match verdict with
                      | PvWait =>
                          Some (if unresolvable && bool_decide (crossing = None)
                                then on_m (note_merge_blocked tgid source (pma_at pending)
                                             SourceUnhosted) x
                                else x)
                      | PvAdvanceSource => Some (advance_source tgid source pending x)
                      | PvAbort =>
                          Some (resolved (ResAborted source tgid)
                                  (on_m (λ m, mark_dirty tgid
                                           (upd_group tgid resolve_pending_merge_aborted m)) x))
                      | PvResolve => park_resolve tgid source (pma_at pending) x
                      end
                  end
              end
          end
      end
  end.

Definition parked_groups m : list G :=
  groups_where m (λ _ ep, bool_decide (is_Some (mrg_pending_apply (ep_merge ep)))).

Definition parked_pass now x : option Svc := for_each (park_step now) (parked_groups (sv_m x)) x.

(** ** Aborted merges *)

(** Whether this host may forget the obligation, and whether the proof holds
    everywhere. *)
Definition thaw_proof (source : G) (expected : u64) (covered : bool) (st : St) m : bool * bool :=
  let floor := fs_floor st source in
  let lineage_past := expected <? fs_lineage st source in
  let terminal := floor =? MERGED_FLOOR in
  match mr_groups m !! source with
  | Some sep =>
      let seen_past := expected <? spl_shape_gen (ep_split sep) in
      let idle := negb (merge_freeze_active sep) in
      let mirror_past := idle && lineage_past in
      let terminal := terminal && negb (is_poisoned sep) in
      let removed_below := negb (floor =? MERGED_FLOOR) && negb (floor_admits floor expected) in
      (seen_past || mirror_past || terminal || (idle && negb covered && removed_below),
       seen_past || mirror_past || terminal)
  | None =>
      (lineage_past || terminal || (negb covered && negb (floor_admits floor expected)),
       lineage_past || terminal)
  end.

(** The witness is the leader's to propose, and not across a park. *)
Definition witness_thaw now (tgid : G) (source_key : bytes) (expected : u64) x : Svc :=
  if group_is (sv_m x) tgid (λ t, Role_is_leader (ep_role t)
                                  && bool_decide (mrg_pending_apply (ep_merge t) = None)) then
    match gst_stores (L := L) (S := S) tgid (sv_st x) with
    | None => x
    | Some (tlog, tstable) =>
        let '(_, tlog, m) := propose_thaw_witness tgid source_key expected now tlog (sv_m x) in
        x <| sv_m := m |> <| sv_st := gst_write tgid tlog tstable (sv_st x) |>
    end
  else x.

Definition thaw_source now (tgid source : G) (expected : u64) x : Svc :=
  match gst_stores (L := L) (S := S) source (sv_st x) with
  | None => x
  | Some (slog, sstable) =>
      let '(_, slog, m) := propose_merge_unfreeze source now tgid expected slog (sv_m x) in
      x <| sv_m := m |> <| sv_st := gst_write source slog sstable (sv_st x) |>
  end.

Definition obligation_step now (tgid : G) (source : G) (source_key : bytes)
    (obligation : AbandonedMerge) x : Svc :=
  let expected := am_generation obligation in
  let discharged := am_discharged obligation in
  let '(locally_retired, global_proof) :=
    thaw_proof source expected (AbandonedMerge_is_covered obligation) (sv_st x) (sv_m x) in
  let latched_mintable :=
    discharged && match mr_groups (sv_m x) !! source with
                  | Some sep => negb (merge_freeze_active sep)
                                || (expected <? spl_shape_gen (ep_split sep))
                  | None => true
                  end in
  if global_proof || latched_mintable then
    let x := if discharged then x else on_m (upd_group tgid (note_discharged source_key)) x in
    witness_thaw now tgid source_key expected x
  else if discharged then x
  else if locally_retired then on_m (upd_group tgid (clear_abandoned source_key)) x
  else thaw_source now tgid source expected x.

(** The loop breaks at a key that is no id. *)
Fixpoint obligations_loop now (tgid : G) (obligations : list (bytes * AbandonedMerge)) x : Svc :=
  match obligations with
  | [] => x
  | (source_bytes, obligation) :: obligations =>
      match decode_exact (T := G) source_bytes with
      | Err _ => on_m (fail_stop tgid MergeDecode) x
      | Ok source =>
          obligations_loop now tgid obligations
            (obligation_step now tgid source source_bytes obligation x)
      end
  end.

Definition abandoned_pass now x : Svc :=
  foldl (λ x tgid,
    match mr_groups (sv_m x) !! tgid with
    | None => x
    | Some tep => obligations_loop now tgid (abandoned_obligations tep) x
    end) x (groups_where (sv_m x) (λ _ ep, holds_abandoned ep)).

(** ** Husks *)

Definition husk_step (named : list bytes) (gid : G) x : option Svc :=
  if bool_decide (group_key gid ∈ named) then Some x
  else
    let '(drivable, m) := owes_a_drivable_thaw gid (sv_m x) in
    let x := x <| sv_m := m |> in
    if drivable then Some x
    else if group_is m gid fork_obligations_standing then Some x
    else match decode_chain (from_option capture_debt_chain [] (mr_groups m !! gid)) with
    | None => Some (on_m (λ m, mark_dirty gid (fail_stop gid MergeDecode m)) x)
    | Some inherited =>
        '(removed, m) ← remove_group_inner gid m;
        let x := x <| sv_m := m |> in
        Some (match removed with
              | None => x
              | Some _ =>
                  resolved (ResRetired gid)
                    (foldl (λ x prior, resolved (ResMerged prior gid) x) (on_m (mark_dirty gid) x)
                       inherited)
              end)
    end.

Definition park_named m : list bytes :=
  omap (λ p, pma_source_bytes <$> mrg_pending_apply (ep_merge p.2)) (btree_map_iter (mr_groups m)).

Definition husk_groups x : list G :=
  groups_where (sv_m x) (λ gid ep, mrg_frozen (ep_merge ep) && negb (is_poisoned ep)
                                   && (fs_floor (sv_st x) gid =? MERGED_FLOOR)).

Definition husk_pass x : option Svc := for_each (husk_step (park_named (sv_m x))) (husk_groups x) x.

(** ** Frozen sources whose target is gone *)

Definition dead_target_step now (sgid : G) x : Svc :=
  match mr_groups (sv_m x) !! sgid with
  | None => x
  | Some sep =>
      match mrg_frozen_for (ep_merge sep) with
      | None => x
      | Some claim =>
          match decode_exact (T := G) claim with
          | Err _ => on_m (fail_stop sgid MergeDecode) x
          | Ok target =>
              if hosts (sv_m x) target then x
              else if negb (fs_floor (sv_st x) target =? MERGED_FLOOR) then x
              else match gst_stores (L := L) (S := S) sgid (sv_st x) with
              | None => x
              | Some (slog, sstable) =>
                  let '(_, slog, m) := propose_dead_target_thaw sgid now target slog (sv_m x) in
                  x <| sv_m := m |> <| sv_st := gst_write sgid slog sstable (sv_st x) |>
              end
          end
      end
  end.

Definition dead_target_pass now x : Svc :=
  foldl (λ x sgid, dead_target_step now sgid x) x
    (groups_where (sv_m x) (λ _ ep, mrg_frozen (ep_merge ep) && negb (is_poisoned ep))).

(** ** Owed captures *)

(** A capture at or past the boundary is staged, or durable with no membership
    fence above it. *)
Definition capture_settled (gid : G) (boundary : Index) ep (st : St) : bool :=
  match pending_compact_boundary ep with Some b => boundary <=? b | None => false end
  || (durable_snapshot_covers ep boundary
      && match gst_stores (L := L) (S := S) gid st with
         | Some (log, _) => negb (merge_conf_fence ep log)
         | None => false
         end).

(** What fences a blocked capture, and the group the signal names. *)
Definition fence_signal (fence : CaptureFence) (own abort : option G) : MergeBlockedCause * option G :=
  match fence with
  | FenceFrozen => (FrozenFence, own)
  | FenceFork => (ForkFence, own)
  | FenceAbort => (AbortFence, abort)
  end.

Definition decode_opt (key : option bytes) : option G :=
  key ← key;
  match decode_exact (T := G) key with Ok g => Some g | Err _ => None end.

(** The debts inherited with the absorbed source are settled by its capture. *)
Fixpoint inherited_loop (tgid : G) (inherited : list Merged) x : Svc :=
  match inherited with
  | [] => x
  | d :: inherited =>
      match decode_exact (T := G) (mg_source d) with
      | Ok prior => inherited_loop tgid inherited (resolved (ResMerged prior tgid) x)
      | Err _ => on_m (fail_stop tgid MergeDecode) x
      end
  end.

Definition discharge_debt (tgid source : G) x : Svc :=
  let '(inherited, m) :=
    match mr_groups (sv_m x) !! tgid with
    | None => ([], sv_m x)
    | Some tep =>
        match discharge_capture_debt tep with
        | (None, tep) => ([], set_group tgid tep (sv_m x))
        | (Some d, tep) =>
            let '(inherited, tep) := take_inherited_debts (emit_merged d tep) in
            (inherited, set_group tgid tep (sv_m x))
        end
    end in
  inherited_loop tgid inherited
    (resolved (ResMerged source tgid) (x <| sv_m := mark_dirty tgid m |>)).

Definition debtor_step (tgid : G) x : Svc :=
  match mr_groups (sv_m x) !! tgid with
  | None => x
  | Some tep =>
      match mrg_capture_debt (ep_merge tep) with
      | None => x
      | Some debt =>
          match decode_exact (T := G) (mg_source debt) with
          | Err _ => on_m (fail_stop tgid MergeDecode) x
          | Ok source =>
              if capture_settled tgid (mg_index debt) tep (sv_st x) then discharge_debt tgid source x
              else
                let capture_at := ep_applied tep in
                if capture_blocked_at tep capture_at then
                  match capture_fence_at tep capture_at with
                  | None => x
                  | Some fence =>
                      match fence_signal fence (Some source)
                              (decode_opt (abort_fence_source_at tep capture_at)) with
                      | (cause, Some named) =>
                          on_m (note_merge_blocked tgid named (mg_index debt) cause) x
                      | (_, None) => x
                      end
                  end
                else match stage_capture tgid x with
                | (true, x) => discharge_debt tgid source x
                | (false, x) =>
                    resolved (ResCaptureFailed source tgid)
                      (on_m (λ m, mark_dirty tgid (note_if_poisoned tgid m)) x)
                end
          end
      end
  end.

Definition debtor_groups m : list G :=
  groups_where m (λ _ ep, bool_decide (is_Some (mrg_capture_debt (ep_merge ep))) && negb (is_poisoned ep)).

Definition debtor_pass x : Svc := foldl (λ x tgid, debtor_step tgid x) x (debtor_groups (sv_m x)).

Definition adopt_capture_debt ep : option (bytes * Index) := mrg_adopt_capture_owed (ep_merge ep).

Definition adopt_blocked (gid : G) ep x : Svc :=
  if decide (is_Some (mr_merge_blocked_attempts (sv_m x) !! gid)) then x
  else match adopt_capture_debt ep, capture_fence_at ep (ep_applied ep) with
  | Some (own, boundary), Some fence =>
      match fence_signal fence (decode_opt (Some own))
              (decode_opt (abort_fence_source_at ep (ep_applied ep))) with
      | (cause, Some source) => on_m (note_merge_blocked gid source boundary cause) x
      | (_, None) => x
      end
  | _, _ => x
  end.

Definition adopt_step (gid : G) x : Svc :=
  match mr_groups (sv_m x) !! gid with
  | None => x
  | Some ep =>
      if capture_settled gid (ep_applied ep) ep (sv_st x)
      then on_m (upd_group gid clear_adopt_capture_owed) x
      else if capture_blocked_at ep (ep_applied ep) then adopt_blocked gid ep x
      else
        let '(staged, x) := stage_capture gid x in
        on_m (λ m, mark_dirty gid
               (if staged then upd_group gid clear_adopt_capture_owed m else note_if_poisoned gid m)) x
  end.

Definition adopt_pass x : Svc :=
  foldl (λ x gid, adopt_step gid x) x
    (groups_where (sv_m x) (λ _ ep, adopt_capture_owed ep && negb (is_poisoned ep))).

(** ** The crank *)

(** A block that no pass observed again is over. *)
Definition close_blocked m : MultiRaft :=
  let attempts := mr_merge_blocked_attempts m in
  m <| mr_merge_blocked_attempts := ∅ |>
    <| mr_merge_blocked_seen ::= filter (λ p, attempts !! p.1 = Some p.2) |>
    <| mr_merge_blocked ::= retain (λ b,
         bool_decide (attempts !! mb_target b = Some (mb_cause b, mb_source b, mb_boundary b))) |>.

Definition service_merge_applies now (st : St) m : option (list (MergeResolution G) * St * MultiRaft) :=
  x ← parked_pass now {| sv_m := m; sv_st := st; sv_res := [] |};
  x ← husk_pass (abandoned_pass now x);
  let x := adopt_pass (debtor_pass (dead_target_pass now x)) in
  Some (sv_res x, sv_st x, close_blocked (sv_m x)).
End service.

Arguments Svc : clear implicits.
Arguments Svc G I F R St {_ _ _}.
