(* ===== verification/MultiInv.v ===== *)
(** * The container's invariant

    What holds of [MultiRaft] between calls: every hosted endpoint is well formed
    and of this host, each queue and its mirror set name the same groups once, a
    group with an output, a staged fork or a poison is known to the queue that
    reports it, and the signals agree with the records they are raised from.
    Each definition of the container files keeps it. *)

From S2P Require Import Prelude Bytes Num Quorum Progress ProgressMap Conf Tracker ConfChange.
From S2P Require Import ConfChangeProps Config Lease Prng ReadOnly Data Frame Entry Storage Shape.
From S2P Require Import EngineStable Restart Forwarded Wire Message Codec Endpoint Merge.
From S2P Require Import Invariant Persistence Replication Election Propose Handlers Commit Apply.
From S2P Require Import Boot Reads Snapshot Append Drive VoteFrame Frames ApplyFrame HandlerFrame.
From S2P Require Import Vote BootFrame SnapshotFrame VoteDrive Multi MultiRemove MultiFork.
From S2P Require Import MultiRelay MultiVerbs MultiMerge.

(** A queue without repetition and the set of what it holds. *)
Definition mirror {G} `{!NodeId G} (q : list G) (s : gset G) : Prop :=
  NoDup q ∧ ∀ g, g ∈ q ↔ g ∈ s.

Section mirror.
Context {G : Type} `{!NodeId G}.
Implicit Types (q : list G) (s : gset G) (g : G).

Lemma mirror_nil : mirror [] (∅ : gset G).
Proof. split; [constructor|]. set_solver. Qed.

Lemma mirror_push q s g : mirror q s → g ∉ s → mirror (q ++ [g]) ({[ g ]} ∪ s).
Proof.
  intros [Hn Hm] Hg. split; [|set_solver].
  apply NoDup_app. split_and!; [done| |apply NoDup_singleton]. set_solver.
Qed.

Lemma mirror_pop q s g : mirror (g :: q) s → mirror q (s ∖ {[ g ]}).
Proof.
  intros [Hn Hm]. apply NoDup_cons in Hn as [Hg Hn]. split; [done|].
  intros h. rewrite elem_of_difference, <- Hm, elem_of_cons, elem_of_singleton.
  split; [|tauto]. intros Hh. split; [by right|]. by intros ->.
Qed.
End mirror.

Lemma elem_of_retain {A} (p : A → bool) q x : x ∈ retain p q ↔ p x = true ∧ x ∈ q.
Proof. unfold retain. by rewrite list_elem_of_filter. Qed.

Lemma NoDup_retain_fmap {A B} (f : A → B) (p : A → bool) q :
  NoDup (f <$> q) → NoDup (f <$> retain p q).
Proof.
  induction q as [|x q IH]; [done|]. rewrite fmap_cons, NoDup_cons. intros [Hx Hn].
  unfold retain. rewrite filter_cons. case_decide; [|by apply IH].
  rewrite fmap_cons, NoDup_cons. split; [|by apply IH]. intros Hin. apply Hx.
  apply list_elem_of_fmap in Hin as (y & -> & Hy). apply elem_of_retain in Hy as [_ Hy].
  apply list_elem_of_fmap. eauto.
Qed.

Lemma NoDup_retain {A} (p : A → bool) q : NoDup q → NoDup (retain p q).
Proof. rewrite <- (list_fmap_id q) at 1. rewrite <- (list_fmap_id (retain p q)). apply NoDup_retain_fmap. Qed.

Section invariant.
Context {G I F R : Type} `{!NodeId G, !NodeId I, !StateMachine F, !Rng R}.
Context {DG : Data G} {BD : BuffaDecode}.
Abbreviation Endpoint := (Endpoint I F R).
Abbreviation MultiRaft := (MultiRaft G I F R).
Implicit Types (m : MultiRaft) (ep : Endpoint) (g gid : G) (x : option G).

(** ** Statement *)

(** The endpoint has a message, an event, for the container's poll. *)
Definition speaks ep : bool :=
  negb (is_poisoned ep) && negb (bool_decide (length (ou_outgoing (ep_outputs ep)) = 0%nat)).
Definition reports ep : bool :=
  negb (is_poisoned ep) && negb (bool_decide (length (ou_events (ep_outputs ep)) = 0%nat)).

(** The poison of an exhausted log is the one kind that is not always signalled:
    the seal of a park at the last index fails without a word to the container. *)
Definition exhausted ep : Prop := po_poison_reason (ep_poison ep) = Some LogExhausted.

(** What the endpoint has to say is on the way to the host. *)
Record attended m g ep : Prop := {
  at_msgs : speaks ep = true → g ∈ mr_dirty_msgs_set m;
  at_events : reports ep = true → g ∈ mr_dirty_events_set m;
  at_forks : staged_forks ep ≠ [] → g ∈ mr_dirty_forks_set m ∨ is_Some (mr_parked m !! g);
  at_poison : is_poisoned ep = true → g ∈ mr_poisoned_seen m ∨ exhausted ep;
}.

(** [x] is a group in the middle of a call: it is attended at the end.  The poisons
    of the groups of [Q] have been handed to the host. *)
Context {Q : gset G}.

Record mr_ok x m : Prop := {
  ok_wf : ∀ g ep, mr_groups m !! g = Some ep → ep_wf ep;
  ok_host : ∀ g ep, mr_groups m !! g = Some ep → mr_host_id m = Some (cfg_id (ep_config ep));
  ok_guard : ∀ g ep, mr_groups m !! g = Some ep → is_Some (mr_lineage m !! g);
  ok_attended : ∀ g ep, mr_groups m !! g = Some ep → x ≠ Some g → attended m g ep;
  ok_msgs : mirror (mr_dirty_msgs m) (mr_dirty_msgs_set m);
  ok_events : mirror (mr_dirty_events m) (mr_dirty_events_set m);
  ok_forks : mirror (mr_dirty_forks m) (mr_dirty_forks_set m);
  ok_seen : ∀ g, g ∈ mr_poisoned_seen m → group_is m g is_poisoned = true;
  ok_pending : NoDup (mr_poisoned_pending m) ∧ ∀ g, g ∈ mr_poisoned_pending m → g ∈ mr_poisoned_seen m;
  ok_parked : ∀ g, is_Some (mr_parked m !! g) → is_Some (mr_groups m !! g);
  ok_conflicts : NoDup (mr_conflicts m).*1
    ∧ ∀ p, p ∈ mr_conflicts m → is_Some (mr_parked m !! p.1);
  ok_blocked : NoDup (mb_target <$> mr_merge_blocked m)
    ∧ ∀ b, b ∈ mr_merge_blocked m →
        mr_merge_blocked_seen m !! mb_target b = Some (mb_cause b, mb_source b, mb_boundary b);
  ok_signalled : ∀ g, g ∈ mr_poisoned_seen m → g ∈ mr_poisoned_pending m ∨ g ∈ Q;
}.

Lemma mr_ok_new : mr_ok None MultiRaft_new.
Proof.
  constructor; cbn; try (intros *; rewrite lookup_empty; done); try apply mirror_nil;
    try (split; [constructor|set_solver]); try set_solver.
Qed.

Lemma mr_ok_weaken g m : mr_ok None m → mr_ok (Some g) m.
Proof. intros []. constructor; try done. intros. auto. Qed.

(** ** Marks *)

Lemma group_is_Some m g p : group_is m g p = true ↔ ∃ ep, mr_groups m !! g = Some ep ∧ p ep = true.
Proof. unfold group_is. destruct (mr_groups m !! g); naive_solver. Qed.

Lemma hosts_Some m g : hosts m g = true ↔ is_Some (mr_groups m !! g).
Proof. unfold hosts. apply bool_decide_eq_true. Qed.

(** The marks only add: what was attended stays so. *)
Record marks_le m m' : Prop := {
  ml_msgs : mr_dirty_msgs_set m ⊆ mr_dirty_msgs_set m';
  ml_events : mr_dirty_events_set m ⊆ mr_dirty_events_set m';
  ml_forks : ∀ g, g ∈ mr_dirty_forks_set m ∨ is_Some (mr_parked m !! g) →
    g ∈ mr_dirty_forks_set m' ∨ is_Some (mr_parked m' !! g);
  ml_poison : mr_poisoned_seen m ⊆ mr_poisoned_seen m';
}.

Lemma attended_le m m' g ep : marks_le m m' → attended m g ep → attended m' g ep.
Proof. intros [] []. constructor; set_solver. Qed.

Lemma note_if_poisoned_ok x g m : mr_ok x m → mr_ok x (note_if_poisoned g m).
Proof.
  intros Hok. unfold note_if_poisoned. destruct (group_is m g is_poisoned) eqn:Hp; [|done].
  case_decide as Hs; [done|]. destruct Hok as [? ? ? Ha ? ? ? Hseen [Hpn Hps] ? ? ? Hsig].
  constructor; try done; cbn.
  - intros h ep Hh Hx. eapply attended_le; [|by eapply Ha]. constructor; cbn; set_solver.
  - intros h. rewrite elem_of_union, elem_of_singleton. intros [->|Hh]; [done|]. by apply Hseen.
  - split; [|set_solver]. apply NoDup_app. split_and!; [done| |apply NoDup_singleton]. set_solver.
  - intros h. rewrite elem_of_union, elem_of_singleton, elem_of_app. intros [->|Hh%Hsig]; [|tauto].
    left; right. by left.
Qed.

Lemma mark_msgs_ok x g m : mr_ok x m → mr_ok x (mark_msgs g m).
Proof.
  intros Hok. unfold mark_msgs. case_decide as Hs; [done|].
  destruct Hok as [? ? ? Ha ? ? ? ? ? ? ? ?]. constructor; try done; cbn; [|by apply mirror_push].
  intros h ep Hh Hx. eapply attended_le; [|by eapply Ha]. constructor; cbn; set_solver.
Qed.

Lemma mark_events_ok x g m : mr_ok x m → mr_ok x (mark_events g m).
Proof.
  intros Hok. unfold mark_events. case_decide as Hs; [done|].
  destruct Hok as [? ? ? Ha ? ? ? ? ? ? ? ?]. constructor; try done; cbn; [|by apply mirror_push].
  intros h ep Hh Hx. eapply attended_le; [|by eapply Ha]. constructor; cbn; set_solver.
Qed.

Lemma mark_forks_ok x g m : mr_ok x m → mr_ok x (mark_forks g m).
Proof.
  intros Hok. unfold mark_forks. case_decide as Hs; [done|].
  destruct Hok as [? ? ? Ha ? ? ? ? ? ? ? ?]. constructor; try done; cbn; [|by apply mirror_push].
  intros h ep Hh Hx. eapply attended_le; [|by eapply Ha]. constructor; cbn; set_solver.
Qed.

Lemma note_if_poisoned_noted g m :
  group_is m g is_poisoned = true → g ∈ mr_poisoned_seen (note_if_poisoned g m).
Proof. intros Hp. unfold note_if_poisoned. rewrite Hp. case_decide; [done|]. cbn. set_solver. Qed.

Lemma note_if_poisoned_groups g m : mr_groups (note_if_poisoned g m) = mr_groups m.
Proof. unfold note_if_poisoned. destruct (group_is _ _ _); [case_decide|]; done. Qed.

Lemma mark_groups g m :
  mr_groups (mark_msgs g m) = mr_groups m ∧ mr_groups (mark_events g m) = mr_groups m
  ∧ mr_groups (mark_forks g m) = mr_groups m.
Proof. unfold mark_msgs, mark_events, mark_forks. split_and!; case_decide; done. Qed.

Lemma mark_dirty_groups g m : mr_groups (mark_dirty g m) = mr_groups m.
Proof.
  unfold mark_dirty. rewrite note_if_poisoned_groups.
  destruct (mark_groups g (mark_events g (mark_msgs g m))) as (_ & _ & ->).
  destruct (mark_groups g (mark_msgs g m)) as (_ & -> & _).
  by destruct (mark_groups g m) as (-> & _ & _).
Qed.

(** ** Leaving the exception *)

Lemma mr_ok_close g m :
  mr_ok (Some g) m → (∀ ep, mr_groups m !! g = Some ep → attended m g ep) → mr_ok None m.
Proof.
  intros [] Hg. constructor; try done. intros h ep Hh _.
  destruct (decide (h = g)) as [->|]; [by apply Hg|]. apply ok_attended0; [done|congruence].
Qed.

Lemma mark_dirty_attends g m ep : mr_groups (mark_dirty g m) !! g = Some ep → attended (mark_dirty g m) g ep.
Proof.
  rewrite mark_dirty_groups. intros Hg. unfold mark_dirty.
  set (m1 := mark_msgs g m). set (m2 := mark_events g m1). set (m3 := mark_forks g m2).
  assert (H1 : g ∈ mr_dirty_msgs_set m1).
  { unfold m1, mark_msgs. case_decide; [done|]. cbn. set_solver. }
  assert (H2 : g ∈ mr_dirty_msgs_set m2 ∧ g ∈ mr_dirty_events_set m2).
  { unfold m2, mark_events. case_decide; [done|]. cbn. set_solver. }
  assert (H3 : g ∈ mr_dirty_msgs_set m3 ∧ g ∈ mr_dirty_events_set m3 ∧ g ∈ mr_dirty_forks_set m3).
  { unfold m3, mark_forks. case_decide; [by destruct H2|]. cbn. destruct H2. set_solver. }
  assert (Hg3 : mr_groups m3 !! g = Some ep).
  { unfold m3, m2, m1. destruct (mark_groups g (mark_events g (mark_msgs g m))) as (_ & _ & ->).
    destruct (mark_groups g (mark_msgs g m)) as (_ & -> & _).
    by destruct (mark_groups g m) as (-> & _ & _). }
  clearbody m3. destruct H3 as (? & ? & ?). unfold note_if_poisoned.
  destruct (group_is m3 g is_poisoned) eqn:Hp; [case_decide|]; constructor; cbn; try by auto.
  - intros _. left. set_solver.
  - intros He. unfold group_is in Hp. rewrite Hg3 in Hp. congruence.
Qed.

Lemma mark_dirty_ok g m : mr_ok (Some g) m → mr_ok None (mark_dirty g m).
Proof.
  intros Hok. apply mr_ok_close with g; [|apply mark_dirty_attends].
  unfold mark_dirty. by apply note_if_poisoned_ok, mark_forks_ok, mark_events_ok, mark_msgs_ok.
Qed.

(** ** Endpoints *)

Lemma mr_ok_set x g ep ep' m :
  mr_groups m !! g = Some ep → ep_step ep ep' → (x ≠ Some g → attended m g ep') →
  mr_ok x m → mr_ok x (set_group g ep' m).
Proof.
  intros Hg Hs Hat Hok. pose proof (ok_wf _ _ Hok g ep Hg) as Hwf.
  destruct (st_wf _ _ Hs Hwf) as (Hwf' & _).
  destruct Hok as [Hw Hh Hl Ha ? ? ? Hseen ? Hp ? ?]. unfold set_group. constructor; try done; cbn.
  - intros h e. rewrite lookup_insert_Some. intros [[<- <-]|[_ ?]]; eauto.
  - intros h e. rewrite lookup_insert_Some. intros [[<- <-]|[_ ?]]; [|eauto].
    rewrite (st_config _ _ Hs). eauto.
  - intros h e. rewrite lookup_insert_Some. intros [[<- <-]|[_ ?]]; eauto.
  - intros h e. rewrite lookup_insert_Some. intros [[<- <-]|[_ ?]] Hx.
    + eapply attended_le; [|by apply Hat]. by constructor.
    + eapply attended_le; [|by eapply Ha]. by constructor.
  - intros h Hh'. apply Hseen, group_is_Some in Hh' as (e & He & Hpo). apply group_is_Some. cbn.
    destruct (decide (h = g)) as [->|]; [|by rewrite lookup_insert_ne; eauto].
    rewrite lookup_insert_eq. exists ep'. split; [done|]. rewrite Hg in He. injection He as ->.
    rewrite (wf_poison _ Hwf) in Hpo. apply bool_decide_eq_true in Hpo as [r Hr].
    rewrite (wf_poison _ Hwf'). apply bool_decide_eq_true. exists r. by apply (st_poison _ _ Hs).
  - intros h Hh'. destruct (decide (h = g)) as [->|]; [rewrite lookup_insert_eq|rewrite lookup_insert_ne]; eauto.
Qed.

(** The call of a delegate: any step of the endpoint, then the marks. *)
Lemma mr_ok_call g ep ep' m :
  mr_groups m !! g = Some ep → ep_step ep ep' → mr_ok None m → mr_ok None (mark_dirty g (set_group g ep' m)).
Proof. intros Hg Hs Hok. apply mark_dirty_ok. eapply mr_ok_set; [done..|]. by apply mr_ok_weaken. Qed.

(** A step that gives the endpoint nothing new to say, except perhaps a poison. *)
Record hushed ep ep' : Prop := {
  hu_step : ep_step ep ep';
  hu_msgs : speaks ep' = true → speaks ep = true;
  hu_events : reports ep' = true → reports ep = true;
  hu_forks : staged_forks ep' ≠ [] → staged_forks ep ≠ [];
}.

Definition quiet ep ep' : Prop := hushed ep ep' ∧ (is_poisoned ep' = true → is_poisoned ep = true).

#[global] Instance hushed_refl : Reflexive hushed.
Proof. intros e. by constructor. Qed.
#[global] Instance hushed_trans : Transitive hushed.
Proof. intros a b c [] []. constructor; [by etrans|auto..]. Qed.
#[global] Instance quiet_refl : Reflexive quiet.
Proof. intros e. by split. Qed.
#[global] Instance quiet_trans : Transitive quiet.
Proof. intros a b c [] []. split; [by etrans|auto]. Qed.

(** Same outputs, same forks, same poison. *)
Lemma quiet_same ep ep' :
  ep_step ep ep' → ep_outputs ep' = ep_outputs ep → staged_forks ep' = staged_forks ep →
  is_poisoned ep' = is_poisoned ep → quiet ep ep'.
Proof.
  intros Hs Ho Hf Hp. split; [|by rewrite Hp].
  constructor; [done|unfold speaks, reports; by rewrite ?Hp, ?Ho..|by rewrite Hf].
Qed.

Lemma hushed_poison r ep ep' :
  ep_step ep ep' → staged_forks ep' = staged_forks ep → hushed ep (poison r ep').
Proof.
  intros Hs Hf. constructor; [|done|done|by rewrite <- Hf]. etrans; [exact Hs|].
  apply vf_step, vote_frame_poison. reflexivity.
Qed.

Lemma mr_ok_quiet x g ep ep' m :
  mr_groups m !! g = Some ep → quiet ep ep' → mr_ok x m → mr_ok x (set_group g ep' m).
Proof.
  intros Hg [[Hs Hm He Hf] Hp] Hok. eapply mr_ok_set; [done..| |done]. intros Hx.
  destruct (ok_attended _ _ Hok g ep Hg Hx) as [? ? ? Hat]. constructor; auto.
  intros Hp'. destruct (Hat (Hp Hp')) as [?|Hr]; [by left|right]. by apply (st_poison _ _ Hs).
Qed.

Lemma note_if_poisoned_attends g m ep :
  mr_groups m !! g = Some ep → (is_poisoned ep = false → attended m g ep) →
  (staged_forks ep ≠ [] → g ∈ mr_dirty_forks_set m ∨ is_Some (mr_parked m !! g)) →
  attended (note_if_poisoned g m) g ep.
Proof.
  intros Hg Hat Hf. unfold note_if_poisoned, group_is. rewrite Hg.
  destruct (is_poisoned ep) eqn:Hp; [|by apply Hat].
  case_decide; constructor; unfold speaks, reports; rewrite ?Hp; try done.
  - by left.
  - left. cbn. set_solver.
Qed.

Lemma mr_ok_hushed g ep ep' m :
  mr_groups m !! g = Some ep → hushed ep ep' → mr_ok None m →
  mr_ok None (note_if_poisoned g (set_group g ep' m)).
Proof.
  intros Hg [Hs Hm He Hf] Hok. destruct (ok_attended _ _ Hok g ep Hg) as [? ? ? ?]; [done|].
  apply mr_ok_close with g.
  - apply note_if_poisoned_ok. eapply mr_ok_set; [done..|]. by apply mr_ok_weaken.
  - intros e. rewrite note_if_poisoned_groups. unfold set_group. cbn. rewrite lookup_insert_eq.
    intros [= <-]. apply note_if_poisoned_attends; cbn; [by rewrite lookup_insert_eq| |auto].
    intros Hp. constructor; cbn; auto. by rewrite Hp.
Qed.

(** Whole-map and one-group updates by a function. *)

Lemma upd_group_None g f m : mr_groups m !! g = None → upd_group g f m = m.
Proof.
  intros Hg. unfold upd_group.
  assert (alter f g (mr_groups m) = mr_groups m) as Ha.
  { apply map_eq. intros i. destruct (decide (g = i)) as [<-|].
    - by rewrite lookup_alter_eq, Hg.
    - by rewrite lookup_alter_ne. }
  change (m <| mr_groups := alter f g (mr_groups m) |> = m). rewrite Ha. by destruct m.
Qed.

Lemma upd_group_Some g f m ep :
  mr_groups m !! g = Some ep → upd_group g f m = set_group g (f ep) m.
Proof.
  intros Hg. unfold upd_group, set_group.
  assert (alter f g (mr_groups m) = <[g := f ep]> (mr_groups m)) as Ha.
  { apply map_eq. intros i. destruct (decide (g = i)) as [<-|].
    - by rewrite lookup_alter_eq, lookup_insert_eq, Hg.
    - by rewrite lookup_alter_ne, lookup_insert_ne. }
  change (m <| mr_groups := alter f g (mr_groups m) |>
          = m <| mr_groups := <[g := f ep]> (mr_groups m) |>). by rewrite Ha.
Qed.

Lemma mr_ok_upd_quiet x g f m : (∀ ep, quiet ep (f ep)) → mr_ok x m → mr_ok x (upd_group g f m).
Proof.
  intros Hf Hok. destruct (mr_groups m !! g) as [ep|] eqn:Hg.
  - rewrite (upd_group_Some _ _ _ _ Hg). by eapply mr_ok_quiet.
  - by rewrite upd_group_None.
Qed.

Lemma mr_ok_upd_hushed g f m :
  (∀ ep, hushed ep (f ep)) → mr_ok None m → mr_ok None (note_if_poisoned g (upd_group g f m)).
Proof.
  intros Hf Hok. destruct (mr_groups m !! g) as [ep|] eqn:Hg.
  - rewrite (upd_group_Some _ _ _ _ Hg). by eapply mr_ok_hushed.
  - rewrite upd_group_None by done. by apply note_if_poisoned_ok.
Qed.

Lemma mr_ok_upd g f m :
  (∀ ep, ep_step ep (f ep)) → mr_ok (Some g) m → mr_ok (Some g) (upd_group g f m).
Proof.
  intros Hf Hok. destruct (mr_groups m !! g) as [ep|] eqn:Hg.
  - rewrite (upd_group_Some _ _ _ _ Hg). by eapply mr_ok_set.
  - by rewrite upd_group_None.
Qed.

(** ** Parks and signals *)

Lemma unpark_ok x g m :
  (∀ ep, mr_groups m !! g = Some ep → x ≠ Some g → staged_forks ep ≠ [] → g ∈ mr_dirty_forks_set m) →
  mr_ok x m → mr_ok x (unpark g m).
Proof.
  intros Hf Hok. unfold unpark. destruct (mr_parked m !! g) as [c|] eqn:Hc; [|done].
  destruct Hok as [? ? ? Ha ? ? ? ? ? Hp [Hcn Hcp] ?]. constructor; try done; cbn.
  - intros h ep Hh Hx. destruct (Ha h ep Hh Hx) as [? ? Hfk ?]. constructor; try done. cbn. intros Hs.
    destruct (decide (h = g)) as [->|]; [left; by eapply Hf|]. rewrite lookup_delete_ne by done. auto.
  - intros h. destruct (decide (h = g)) as [->|]; [by rewrite lookup_delete_eq; intros [? ?]|].
    rewrite lookup_delete_ne by done. auto.
  - split; [by apply NoDup_retain_fmap|]. intros p [Hne Hin]%elem_of_retain.
    apply negb_true_iff, bool_decide_eq_false in Hne. rewrite lookup_delete_ne by done. auto.
Qed.

Lemma unpark_groups g m : mr_groups (unpark g m) = mr_groups m.
Proof. unfold unpark. by destruct (mr_parked m !! g). Qed.

Lemma park_fork_ok x g c cause m :
  is_Some (mr_groups m !! g) → mr_ok x m → mr_ok x (park_fork g c cause m).
Proof.
  intros Hg Hok. unfold park_fork. destruct Hok as [? ? ? Ha ? ? ? ? ? Hp [Hcn Hcp] ?].
  assert (Hkeep : ∀ h, is_Some (mr_parked m !! h) → is_Some (<[g := cause]> (mr_parked m) !! h)).
  { intros h Hh. destruct (decide (h = g)) as [->|]; [by rewrite lookup_insert_eq|].
    by rewrite lookup_insert_ne. }
  assert (Hhost : ∀ h, is_Some (<[g := cause]> (mr_parked m) !! h) → is_Some (mr_groups m !! h)).
  { intros h. destruct (decide (h = g)) as [->|]; [done|]. rewrite lookup_insert_ne by done. auto. }
  case_bool_decide as Hn; constructor; try done; cbn.
  - intros h ep Hh Hx. eapply attended_le; [|by eapply Ha]. constructor; cbn; try done.
    intros ? [?|?]; auto.
  - rewrite fmap_app. split.
    + apply NoDup_app. split_and!; [done| |apply NoDup_singleton]. intros h Hh Hin.
      apply list_elem_of_fmap in Hh as (p & -> & Hpin). cbn in Hin.
      apply list_elem_of_singleton in Hin. destruct (Hcp p Hpin) as [? Hs].
      rewrite Hin in Hs. congruence.
    + intros p [Hin|Hin]%elem_of_app; [auto|]. apply list_elem_of_singleton in Hin as ->. cbn.
      by rewrite lookup_insert_eq.
  - intros h ep Hh Hx. eapply attended_le; [|by eapply Ha]. constructor; cbn; try done.
    intros ? [?|?]; auto.
  - split; [done|]. auto.
Qed.

Lemma push_refusal_ok x p c m : mr_ok x m → mr_ok x (push_refusal p c m).
Proof.
  intros []. constructor; try done. cbn. intros h ep Hh Hx. eapply attended_le; [|by eauto].
  by constructor.
Qed.

Lemma advance_relay_guard_ok x g n m : mr_ok x m → mr_ok x (advance_relay_guard g n m).
Proof.
  intros [? ? Hl Ha ? ? ? ? ? ? ? ?]. constructor; try done; cbn.
  - intros h ep Hh. destruct (decide (h = g)) as [->|]; [by rewrite lookup_insert_eq|].
    rewrite lookup_insert_ne by done. eauto.
  - intros h ep Hh Hx. eapply attended_le; [|by eauto]. by constructor.
Qed.

Lemma raise_relay_guard_ok x g n m : mr_ok x m → mr_ok x (raise_relay_guard g n m).
Proof.
  intros Hok. unfold raise_relay_guard. destruct (hosts m g); [|done].
  destruct Hok as [? ? Hl Ha ? ? ? ? ? ? ? ?]. constructor; try done; cbn.
  - intros h ep Hh. rewrite lookup_alter. case_decide; [|eauto]. subst. rewrite fmap_is_Some. eauto.
  - intros h ep Hh Hx. eapply attended_le; [|by eauto]. by constructor.
Qed.

Lemma note_merge_blocked_ok x t s b c m : mr_ok x m → mr_ok x (note_merge_blocked t s b c m).
Proof.
  intros [? ? ? Ha ? ? ? ? ? ? ? [Hn Hb]]. unfold note_merge_blocked.
  assert (Hat : ∀ h ep m', mr_groups m !! h = Some ep → x ≠ Some h → marks_le m m' → attended m' h ep).
  { intros. eapply attended_le; [done|]. eauto. }
  case_decide as Hs; constructor; try done; cbn.
  - intros h ep Hh Hx. by eapply Hat.
  - intros h ep Hh Hx. by eapply Hat.
  - rewrite fmap_app. split.
    + apply NoDup_app. split_and!; [by apply NoDup_retain_fmap| |apply NoDup_singleton].
      intros h (d & -> & [Hne _]%elem_of_retain)%list_elem_of_fmap Hin.
      apply negb_true_iff, bool_decide_eq_false in Hne. cbn in Hin. set_solver.
    + intros d [[Hne Hin]%elem_of_retain|Hin]%elem_of_app.
      * apply negb_true_iff, bool_decide_eq_false in Hne. rewrite lookup_insert_ne by done. auto.
      * apply list_elem_of_singleton in Hin as ->. cbn. by rewrite lookup_insert_eq.
Qed.

Lemma close_blocked_ok x m : mr_ok x m → mr_ok x (close_blocked m).
Proof.
  intros [? ? ? Ha ? ? ? ? ? ? ? [Hn Hb]]. unfold close_blocked. constructor; try done; cbn.
  - intros h ep Hh Hx. eapply attended_le; [|by eauto]. by constructor.
  - split; [by apply NoDup_retain_fmap|]. intros d [Hr Hin]%elem_of_retain.
    apply bool_decide_eq_true in Hr. apply map_lookup_filter_Some. by split; [apply Hb|].
Qed.

Lemma poll_split_conflict_ok x m : mr_ok x m → mr_ok x (poll_split_conflict m).2.
Proof.
  intros Hok. unfold poll_split_conflict. destruct (mr_conflicts m) as [|c q] eqn:Hc; [done|].
  destruct Hok as [? ? ? Ha ? ? ? ? ? ? [Hn Hp] ?]. rewrite Hc in *. constructor; try done; cbn.
  - intros h ep Hh Hx. eapply attended_le; [|by eauto]. by constructor.
  - cbn in Hn. apply NoDup_cons in Hn as [_ Hn]. split; [done|]. intros p ?. apply Hp. by right.
Qed.

Lemma poll_merge_blocked_ok x m : mr_ok x m → mr_ok x (poll_merge_blocked m).2.
Proof.
  intros Hok. unfold poll_merge_blocked. destruct (mr_merge_blocked m) as [|c q] eqn:Hc; [done|].
  destruct Hok as [? ? ? Ha ? ? ? ? ? ? ? [Hn Hp]]. rewrite Hc in *. constructor; try done; cbn.
  - intros h ep Hh Hx. eapply attended_le; [|by eauto]. by constructor.
  - cbn in Hn. apply NoDup_cons in Hn as [_ Hn]. split; [done|]. intros p ?. apply Hp. by right.
Qed.

(** The remaining queues are under no clause. *)
Lemma poll_unclaimed_ok x m :
  mr_ok x m → mr_ok x (poll_split_refusal m).2 ∧ mr_ok x (poll_relay_guard_advance m).2.
Proof.
  unfold poll_split_refusal, poll_relay_guard_advance. intros Hok.
  split; case_match; try done; destruct Hok as [? ? ? Ha ? ? ? ? ? ? ? ?]; constructor; try done; cbn;
    intros h ep Hh Hx; (eapply attended_le; [|by eauto]); by constructor.
Qed.
(** ** The relay guard

    The generation past which a parent's forks are still owed; no call below
    lowers it. *)

Definition guard m g : u64 := default 0 (mr_lineage m !! g).

Definition guards_le m m' : Prop := ∀ g, guard m g ≤ guard m' g.

#[global] Instance guards_le_refl : Reflexive guards_le.
Proof. by intros m g. Qed.
#[global] Instance guards_le_trans : Transitive guards_le.
Proof. intros m1 m2 m3 H1 H2 g. etrans; [apply H1|apply H2]. Qed.

Lemma guards_same m m' : mr_lineage m' = mr_lineage m → guards_le m m'.
Proof. intros He g. unfold guard. by rewrite He. Qed.

Lemma note_if_poisoned_lineage g m : mr_lineage (note_if_poisoned g m) = mr_lineage m.
Proof. unfold note_if_poisoned. by repeat case_match. Qed.
Lemma mark_dirty_lineage g m : mr_lineage (mark_dirty g m) = mr_lineage m.
Proof.
  unfold mark_dirty. rewrite note_if_poisoned_lineage.
  unfold mark_forks, mark_events, mark_msgs. by repeat case_match.
Qed.
Lemma mark_forks_lineage g m : mr_lineage (mark_forks g m) = mr_lineage m.
Proof. unfold mark_forks. by repeat case_match. Qed.
Lemma unpark_lineage g m : mr_lineage (unpark g m) = mr_lineage m.
Proof. unfold unpark. by repeat case_match. Qed.
Lemma note_merge_blocked_lineage t s b c m : mr_lineage (note_merge_blocked t s b c m) = mr_lineage m.
Proof. unfold note_merge_blocked. by repeat case_match. Qed.

Lemma advance_relay_guard_guards g n m : guards_le m (advance_relay_guard g n m).
Proof.
  intros h. unfold advance_relay_guard, guard. cbn. destruct (decide (h = g)) as [->|Hne].
  - rewrite lookup_insert_eq. destruct (mr_lineage m !! g); cbn; lia.
  - by rewrite lookup_insert_ne by done.
Qed.

Lemma advance_relay_guard_past g n m : n ≤ guard (advance_relay_guard g n m) g.
Proof. unfold advance_relay_guard, guard. cbn. rewrite lookup_insert_eq. cbn. lia. Qed.

Lemma raise_relay_guard_guards g n m : guards_le m (raise_relay_guard g n m).
Proof.
  intros h. unfold raise_relay_guard, guard. destruct (hosts m g); [|done]. cbn.
  rewrite lookup_alter. case_decide; [subst|done]. destruct (mr_lineage m !! h); cbn; lia.
Qed.
End invariant.

(** ** The poisons the host has heard of *)

Section told.
Context {G I F R : Type} `{!NodeId G, !NodeId I, !StateMachine F, !Rng R}.
Implicit Types (m : MultiRaft G I F R) (Q : gset G).

Lemma mr_ok_told Q Q' x m :
  (∀ g, g ∈ mr_poisoned_seen m → g ∈ Q → g ∈ Q') → mr_ok (Q := Q) x m → mr_ok (Q := Q') x m.
Proof. intros HQ []. constructor; try done. intros g Hg. destruct (ok_signalled0 g Hg); eauto. Qed.

(** A poison the host may have been told of at any time. *)
Lemma mr_ok_seen Q x m : mr_ok (Q := Q) x m → mr_ok (Q := mr_poisoned_seen m) x m.
Proof. by apply mr_ok_told. Qed.

Lemma poll_poisoned_ok Q x m :
  mr_ok (Q := Q) x m →
  mr_ok (Q := Q ∪ match (poll_poisoned m).1 with Some g => {[ g ]} | None => ∅ end) x (poll_poisoned m).2.
Proof.
  intros Hok. unfold poll_poisoned. destruct (mr_poisoned_pending m) as [|c q] eqn:Hc; cbn [fst snd].
  { eapply mr_ok_told; [|exact Hok]. set_solver. }
  destruct Hok as [? ? ? Ha ? ? ? ? [Hn Hp] ? ? ? Hs]. rewrite Hc in *. constructor; try done; cbn.
  - intros h ep Hh Hx. eapply attended_le; [|by eauto]. by constructor.
  - apply NoDup_cons in Hn as [_ Hn]. split; [done|]. intros p ?. apply Hp. by right.
  - intros g Hg. destruct (Hs g Hg) as [[->|]%elem_of_cons|]; set_solver.
Qed.
End told.

Create Rewrite HintDb lineage.
#[export] Hint Rewrite @note_if_poisoned_lineage @mark_dirty_lineage @mark_forks_lineage
  @unpark_lineage @note_merge_blocked_lineage : lineage.

(** A call that leaves the guards alone. *)
Ltac same_guards := apply guards_same; cbn; autorewrite with lineage; reflexivity.
