(* ===== verification/MultiSteps.v ===== *)
(** * Every operation of the container keeps its invariant

    One lemma per operation of [Multi], [MultiRemove], [MultiFork], [MultiRelay]
    and [MultiVerbs] over [MultiInv.mr_ok]; an operation that can panic in the
    code is shown to return. *)

From S2P Require Import Prelude Bytes Num Quorum Progress ProgressMap Conf Tracker ConfChange.
From S2P Require Import ConfChangeProps Config Lease Prng ReadOnly Data Frame Entry Storage Shape.
From S2P Require Import EngineStable Restart Forwarded Wire Message Codec Endpoint Merge.
From S2P Require Import Invariant Persistence Replication Election Propose Handlers Commit Apply.
From S2P Require Import Boot Reads Snapshot Append Drive VoteFrame Frames ApplyFrame HandlerFrame.
From S2P Require Import Vote BootFrame SnapshotFrame VoteDrive Multi MultiRemove MultiFork.
From S2P Require Import MultiRelay MultiVerbs MultiMerge MultiInv.

Section steps.
Context {G I F R L S St : Type} `{!NodeId G, !NodeId I, !StateMachine F, !Rng R}.
Context `{!LogStore L, !StableStore I S, !StableWriteLaws I S, !GroupStores G L S St}.
Context {DG : Data G} {DI : Data I} {BS : BuffaSizes} {DC : Data sm_command} {DS : Data sm_snapshot}.
Context {BD : BuffaDecode} {BE : BuffaEncode} {BC : Buffa PbConfChangeV2}.
Abbreviation Endpoint := (Endpoint I F R).
Abbreviation MultiRaft := (MultiRaft G I F R).
Context {Q : gset G}.
Abbreviation mr_ok := (mr_ok (Q := Q)).
Implicit Types (m : MultiRaft) (ep : Endpoint) (g gid : G) (x : option G) (log : L) (stable : S).

(** ** Calls that say nothing *)

Lemma call_step ep ep' : local_call (L := L) (S := S) ep ep' → ep_step ep ep'.
Proof. intros Hc. by apply vf_step, local_call_frame. Qed.

Lemma quiet_call ep ep' :
  local_call (L := L) (S := S) ep ep' → ep_outputs ep' = ep_outputs ep →
  staged_forks ep' = staged_forks ep → ep_poison ep' = ep_poison ep → quiet ep ep'.
Proof.
  intros Hc Ho Hf Hp. apply quiet_same; [by apply call_step|done..|]. unfold is_poisoned. by rewrite Hp.
Qed.

Lemma quiet_resolve_fork i ep : quiet ep (resolve_fork i ep).
Proof. by apply quiet_call; [constructor|..]. Qed.
Lemma quiet_mark_fork_abandoned i ep : quiet ep (mark_fork_abandoned i ep).
Proof. by apply quiet_call; [constructor|..]. Qed.
Lemma quiet_note_unresolvable b ep : quiet ep (note_merge_park_unresolvable b ep).
Proof. by apply quiet_call; [constructor|..]. Qed.
Lemma quiet_clear_abandoned k ep : quiet ep (clear_abandoned k ep).
Proof. by apply quiet_call; [constructor|..]. Qed.
Lemma quiet_latch ep : quiet ep (latch_merge_window_closed ep).
Proof. by apply quiet_call; [constructor|..]. Qed.
Lemma quiet_note_discharged k ep : quiet ep (note_discharged k ep).
Proof. by apply quiet_call; [constructor|..]. Qed.
Lemma quiet_clear_adopt_owed ep : quiet ep (clear_adopt_capture_owed ep).
Proof. by apply quiet_call; [constructor|..]. Qed.
Lemma quiet_pin_failed_capture k ep : quiet ep (pin_failed_capture k ep).
Proof. by apply quiet_call; [constructor|..]. Qed.
Lemma quiet_scan_claims log ep : quiet ep (scan_freeze_claims log ep).2.
Proof.
  apply quiet_call; [constructor|..]; unfold scan_freeze_claims; by destruct (scan_claims _ _ _ _ _).
Qed.

Lemma quiet_pop_fork r ep ep' : pop_pending_fork ep = Some (r, ep') → quiet ep ep'.
Proof.
  intros Hp. assert (Hs : ep_step ep ep') by (apply call_step; by eapply CallPopFork).
  revert Hp. unfold pop_pending_fork.
  destruct (spl_pending_forks _) as [|f fs] eqn:Hf; [intros [= _ <-]; reflexivity|].
  destruct (spl_forked_fsms _); [done|]. intros [= <- <-]. split; [|done].
  constructor; try done. unfold staged_forks. by rewrite Hf.
Qed.

Lemma fail_stop_ok g r m : mr_ok None m → mr_ok None (fail_stop g r m).
Proof. intros. apply mr_ok_upd_hushed; [|done]. intros. by apply hushed_poison. Qed.

Lemma fail_stop_lineage g r m : mr_lineage (fail_stop g r m) = mr_lineage m.
Proof. unfold fail_stop. by rewrite note_if_poisoned_lineage. Qed.

Lemma query_panicked_ok g m : mr_ok None m → mr_ok None (MultiRaft_fail_stop_query_panicked g m).
Proof. apply fail_stop_ok. Qed.

Lemma plane_panic_ok m : mr_ok None m → mr_ok None (fail_stop_plane_unattributable_panic m).
Proof.
  unfold fail_stop_plane_unattributable_panic. generalize ((btree_map_iter (mr_groups m)).*1).
  intros l. revert m. induction l as [|g l IH]; intros m Hok; cbn [foldl]; [done|].
  by apply IH, query_panicked_ok.
Qed.

(** ** Output polls *)

Lemma poll_message_spec ep o ep' :
  poll_message ep = (o, ep') →
  quiet ep ep' ∧ (o = None → ep' = ep ∧ speaks ep = false).
Proof.
  unfold poll_message, speaks. destruct (is_poisoned ep) eqn:Hp; [by intros [= <- <-]|].
  destruct (ou_outgoing _) as [|u q] eqn:Ho; [by intros [= <- <-]|]. intros [= <- <-].
  split; [|done]. split; [|done]. constructor; try done.
  - apply ep_step_same_view. by constructor.
  - unfold speaks. by rewrite Hp, Ho.
Qed.

Lemma poll_event_spec ep o ep' :
  poll_event ep = (o, ep') →
  quiet ep ep' ∧ (o = None → ep' = ep ∧ reports ep = false).
Proof.
  unfold poll_event, reports. destruct (is_poisoned ep) eqn:Hp; [by intros [= <- <-]|].
  destruct (ou_events _) as [|u q] eqn:Ho; [by intros [= <- <-]|]. intros [= <- <-].
  split; [|done]. split; [|done]. constructor; try done.
  - apply ep_step_same_view. by constructor.
  - unfold reports. by rewrite Hp, Ho.
Qed.

(** A group leaves the front of a queue once it has nothing to say. *)
Lemma drop_msg_ok g q m :
  mr_dirty_msgs m = g :: q → (∀ ep, mr_groups m !! g = Some ep → speaks ep = false) → mr_ok None m →
  mr_ok None (m <| mr_dirty_msgs := q |> <| mr_dirty_msgs_set ::= λ s, s ∖ {[ g ]} |>).
Proof.
  intros Hq Hs [? ? ? Ha Hm ? ? ? ? ? ? ?]. rewrite Hq in Hm. constructor; try done; cbn.
  - intros h ep Hh Hx. destruct (Ha h ep Hh Hx) as [Hsp ? ? ?]. constructor; try done. cbn.
    intros Hsp'. destruct (decide (h = g)) as [->|]; [|set_solver]. by rewrite (Hs ep Hh) in Hsp'.
  - by apply mirror_pop.
Qed.

Lemma drop_event_ok g q m :
  mr_dirty_events m = g :: q → (∀ ep, mr_groups m !! g = Some ep → reports ep = false) → mr_ok None m →
  mr_ok None (m <| mr_dirty_events := q |> <| mr_dirty_events_set ::= λ s, s ∖ {[ g ]} |>).
Proof.
  intros Hq Hs [? ? ? Ha ? Hm ? ? ? ? ? ?]. rewrite Hq in Hm. constructor; try done; cbn.
  - intros h ep Hh Hx. destruct (Ha h ep Hh Hx) as [? Hsp ? ?]. constructor; try done. cbn.
    intros Hsp'. destruct (decide (h = g)) as [->|]; [|set_solver]. by rewrite (Hs ep Hh) in Hsp'.
  - by apply mirror_pop.
Qed.

(** A turn that yields nothing shortens the queue. *)
Lemma msg_turn_ok m o m' :
  msg_turn m = Some (o, m') → mr_ok None m →
  mr_ok None m' ∧ (o = None → length (mr_dirty_msgs m) = Datatypes.S (length (mr_dirty_msgs m'))).
Proof.
  unfold msg_turn. destruct (mr_dirty_msgs m) as [|g q] eqn:Hq; [done|]. intros Ht Hok.
  destruct (mr_groups m !! g) as [ep|] eqn:Hg.
  - destruct (poll_message ep) as [[u|] ep'] eqn:Hp; apply poll_message_spec in Hp as [Hqu Hn];
      injection Ht as <- <-; [split; [by eapply mr_ok_quiet|done]|].
    split; [|done]. apply drop_msg_ok; [done| |done]. intros e. rewrite Hg. intros [= <-]. by apply Hn.
  - injection Ht as <- <-. split; [|done]. apply drop_msg_ok; [done| |done]. intros e. by rewrite Hg.
Qed.

Lemma event_turn_ok m o m' :
  event_turn m = Some (o, m') → mr_ok None m →
  mr_ok None m' ∧ (o = None → length (mr_dirty_events m) = Datatypes.S (length (mr_dirty_events m'))).
Proof.
  unfold event_turn. destruct (mr_dirty_events m) as [|g q] eqn:Hq; [done|]. intros Ht Hok.
  destruct (mr_groups m !! g) as [ep|] eqn:Hg.
  - destruct (poll_event ep) as [[u|] ep'] eqn:Hp; apply poll_event_spec in Hp as [Hqu Hn];
      injection Ht as <- <-; [split; [by eapply mr_ok_quiet|done]|].
    split; [|done]. apply drop_event_ok; [done| |done]. intros e. rewrite Hg. intros [= <-]. by apply Hn.
  - injection Ht as <- <-. split; [|done]. apply drop_event_ok; [done| |done]. intros e. by rewrite Hg.
Qed.

Lemma poll_msgs_ok fuel m :
  (length (mr_dirty_msgs m) ≤ fuel)%nat → mr_ok None m →
  mr_ok None (poll_msgs fuel m).2
  ∧ ((poll_msgs fuel m).1 = None → mr_dirty_msgs (poll_msgs fuel m).2 = []).
Proof.
  revert m. induction fuel as [|fuel IH]; intros m Hl Hok; cbn [poll_msgs].
  { split; [done|]. intros _. cbn. by destruct (mr_dirty_msgs m); [|cbn in Hl; lia]. }
  destruct (msg_turn m) as [[[o|] m']|] eqn:Ht.
  - by apply msg_turn_ok in Ht as [Hok' _].
  - apply msg_turn_ok in Ht as [Hok' Hn]; [|done]. apply IH; [|done]. specialize (Hn eq_refl). lia.
  - split; [done|]. intros _. cbn. unfold msg_turn in Ht.
    destruct (mr_dirty_msgs m); [done|]. repeat case_match; done.
Qed.

Lemma poll_evs_ok fuel m :
  (length (mr_dirty_events m) ≤ fuel)%nat → mr_ok None m →
  mr_ok None (poll_evs fuel m).2
  ∧ ((poll_evs fuel m).1 = None → mr_dirty_events (poll_evs fuel m).2 = []).
Proof.
  revert m. induction fuel as [|fuel IH]; intros m Hl Hok; cbn [poll_evs].
  { split; [done|]. intros _. cbn. by destruct (mr_dirty_events m); [|cbn in Hl; lia]. }
  destruct (event_turn m) as [[[o|] m']|] eqn:Ht.
  - by apply event_turn_ok in Ht as [Hok' _].
  - apply event_turn_ok in Ht as [Hok' Hn]; [|done]. apply IH; [|done]. specialize (Hn eq_refl). lia.
  - split; [done|]. intros _. cbn. unfold event_turn in Ht.
    destruct (mr_dirty_events m); [done|]. repeat case_match; done.
Qed.

(** ** Delegates *)

Lemma keeps_step ep s ep' s' : keeps ep s ep' s' → ep_wf ep → ep_step ep ep'.
Proof. intros Hk Hw. by apply Hk. Qed.

Lemma handle_message_ok g now from msg log stable m :
  message_u64 msg → mr_ok None m →
  mr_ok None (MultiRaft_handle_message g now from msg log stable m).2.
Proof.
  intros Hu Hok. unfold MultiRaft_handle_message. destruct (install_blocked m g msg).
  { apply mr_ok_upd_quiet; [|done]. intros. apply quiet_note_unresolvable. }
  destruct (mr_groups m !! g) as [ep|] eqn:Hg; [|done].
  pose proof (keeps_handle_message now from msg log stable ep Hu) as Hk.
  destruct (handle_message _ _ _ _ _ _) as [[log' s'] ep']. cbn [snd fst] in *.
  eapply mr_ok_call; [done| |done]. eapply keeps_step; [exact Hk|]. by eapply (ok_wf _ _ Hok).
Qed.

Lemma handle_timeout_ok g now log stable m :
  mr_ok None m → mr_ok None (MultiRaft_handle_timeout g now log stable m).2.
Proof.
  intros Hok. unfold MultiRaft_handle_timeout. destruct (mr_groups m !! g) as [ep|] eqn:Hg; [|done].
  pose proof (keeps_handle_timeout now log stable ep) as Hk.
  destruct (handle_timeout _ _ _ _) as [[log' s'] ep']. cbn [snd fst] in *.
  eapply mr_ok_call; [done| |done]. eapply keeps_step; [exact Hk|]. by eapply (ok_wf _ _ Hok).
Qed.

Lemma handle_storage_ok g now log stable m :
  mr_ok None m → mr_ok None (MultiRaft_handle_storage g now log stable m).2.
Proof.
  intros Hok. unfold MultiRaft_handle_storage. destruct (mr_groups m !! g) as [ep|] eqn:Hg; [|done].
  pose proof (keeps_handle_storage now log stable ep) as Hk.
  destruct (handle_storage _ _ _ _) as [[[p log'] s'] ep']. cbn [snd fst] in *.
  eapply mr_ok_call; [done| |done]. eapply keeps_step; [exact Hk|]. by eapply (ok_wf _ _ Hok).
Qed.

(** A delegate whose body is one call of [HandlerFrame.local_call]. *)
Ltac delegate c :=
  lazymatch goal with
  | Hok : mr_ok None ?m, Hg : mr_groups ?m !! ?g = Some ?ep |- mr_ok None _ =>
      let Hc := fresh "Hc" in
      pose proof c as Hc;
      lazymatch type of Hc with
      | local_call _ (snd ?t) => destruct t as [[? ?] ?] || destruct t as [? ?]
      end; cbn [snd fst] in *; (eapply mr_ok_call; [exact Hg|by apply call_step|exact Hok])
  end.

Lemma propose_ok g now cmd log m : mr_ok None m → mr_ok None (MultiRaft_propose g now cmd log m).2.
Proof.
  intros Hok. unfold MultiRaft_propose. destruct (mr_groups m !! g) as [ep|] eqn:Hg; [|done].
  delegate (CallPropose (S := S) ep now cmd log).
Qed.

Lemma propose_conf_change_ok g now cc log m :
  mr_ok None m → mr_ok None (MultiRaft_propose_conf_change g now cc log m).2.
Proof.
  intros Hok. unfold MultiRaft_propose_conf_change.
  destruct (mr_groups m !! g) as [ep|] eqn:Hg; [|done]. destruct (_ && _); [done|].
  delegate (CallProposeConfChange (S := S) ep now cc log).
Qed.

Lemma propose_conf_change_v2_ok g now cc log m :
  mr_ok None m → mr_ok None (MultiRaft_propose_conf_change_v2 g now cc log m).2.
Proof.
  intros Hok. unfold MultiRaft_propose_conf_change_v2.
  destruct (mr_groups m !! g) as [ep|] eqn:Hg; [|done]. destruct (_ && _); [done|].
  delegate (CallProposeConfChangeV2 (S := S) ep now cc log).
Qed.

Lemma propose_read_mode_change_ok g now mode log m :
  mr_ok None m → mr_ok None (MultiRaft_propose_read_mode_change g now mode log m).2.
Proof.
  intros Hok. unfold MultiRaft_propose_read_mode_change.
  destruct (mr_groups m !! g) as [ep|] eqn:Hg; [|done].
  delegate (CallProposeReadMode (S := S) ep now mode log).
Qed.

Lemma read_index_ok g now ctx log m : mr_ok None m → mr_ok None (MultiRaft_read_index g now ctx log m).2.
Proof.
  intros Hok. unfold MultiRaft_read_index. destruct (mr_groups m !! g) as [ep|] eqn:Hg; [|done].
  delegate (CallReadIndex (S := S) ep now ctx log).
Qed.

Lemma transfer_leader_ok g now to log stable m :
  mr_ok None m → mr_ok None (MultiRaft_transfer_leader g now to log stable m).2.
Proof.
  intros Hok. unfold MultiRaft_transfer_leader. destruct (mr_groups m !! g) as [ep|] eqn:Hg; [|done].
  delegate (CallTransfer ep now to log stable).
Qed.

Lemma flush_appends_ok g now log stable m :
  mr_ok None m → mr_ok None (MultiRaft_flush_appends g now log stable m).2.
Proof.
  intros Hok. unfold MultiRaft_flush_appends. destruct (mr_groups m !! g) as [ep|] eqn:Hg; [|done].
  cbn [snd]. eapply mr_ok_call; [done| |done].
  apply call_step. constructor.
Qed.

Lemma propose_split_ok g now child child_gen instr log m :
  mr_ok None m → mr_ok None (MultiRaft_propose_split g now child child_gen instr log m).2.
Proof.
  intros Hok. unfold MultiRaft_propose_split. destruct (mr_groups m !! g) as [ep|] eqn:Hg; [|done].
  destruct (split_gates ep); [|done]. destruct (hosts m child); [done|].
  destruct (group_tag_bad _); [done|]. destruct (next_lineage _) as [n|]; [|done].
  destruct (validate_working_generation _); [|done]. cbv zeta.
  match goal with |- context [propose_split_entry now ?c ?p log ep] =>
    delegate (CallProposeSplit (S := S) ep now c p log) end.
Qed.

(** ** Merge verbs *)

Lemma merge_entry_ok g ep now k p log m :
  mr_groups m !! g = Some ep → mr_ok None m →
  mr_ok None (mark_dirty g (set_group g (propose_merge_entry now k p log ep).2 m)).
Proof.
  intros Hg Hok. eapply mr_ok_call; [done| |done].
  apply call_step. exact (CallProposeMerge (S := S) ep now k p log).
Qed.

Lemma claims_scan_ok g st l m : mr_ok None m → mr_ok None (claims_scan (S := S) g st l m).2.
Proof.
  revert m. induction l as [|h l IH]; intros m Hok; cbn [claims_scan]; [done|].
  case_decide; [by apply IH|]. destruct (mr_groups m !! h) as [ep|] eqn:Hh; [|by apply IH].
  destruct (freeze_pending ep); [|by apply IH]. destruct (gst_stores h st) as [[log s]|]; [|done].
  pose proof (quiet_scan_claims log ep) as Hq. destruct (scan_freeze_claims log ep) as [r ep'].
  cbn [snd] in Hq. cbv zeta.
  assert (Hok' : mr_ok None (set_group h ep' m)) by by eapply mr_ok_quiet.
  destruct r as [claims|]; [|done]. case_decide; [done|]. by apply IH.
Qed.

Lemma claims_scan_hosts g st l m h :
  is_Some (mr_groups m !! h) → is_Some (mr_groups (claims_scan (L := L) (S := S) g st l m).2 !! h).
Proof.
  revert m. induction l as [|k l IH]; intros m Hh; cbn [claims_scan]; [done|].
  case_decide; [by apply IH|]. destruct (mr_groups m !! k) as [ep|] eqn:Hk; [|by apply IH].
  destruct (freeze_pending ep); [|by apply IH]. destruct (gst_stores k st) as [[log s]|]; [|done].
  destruct (scan_freeze_claims log ep) as [r ep']. cbv zeta.
  assert (Hh' : is_Some (mr_groups (set_group k ep' m) !! h)).
  { unfold set_group. cbn. destruct (decide (k = h)) as [->|]; [by rewrite lookup_insert_eq|].
    by rewrite lookup_insert_ne. }
  destruct r as [claims|]; [|done]. case_decide; [done|]. by apply IH.
Qed.

Lemma some_source_claims_target_ok g st m :
  mr_ok None m →
  mr_ok None (some_source_claims_target (L := L) (S := S) g st m).2
  ∧ ∀ h, is_Some (mr_groups m !! h) →
      is_Some (mr_groups (some_source_claims_target (L := L) (S := S) g st m).2 !! h).
Proof.
  intros Hok. unfold some_source_claims_target. destruct (some_source_applied_claims_target m g); [done|].
  split; [by apply claims_scan_ok|]. intros h. apply claims_scan_hosts.
Qed.

(** The verb returns: the group it checked is still hosted when it proposes. *)
Lemma prepare_merge_ok source now target st m :
  mr_ok None m → ∃ r st' m', MultiRaft_prepare_merge source now target st m = Some (r, st', m')
                             ∧ mr_ok None m'.
Proof.
  intros Hok. unfold MultiRaft_prepare_merge.
  destruct (mr_groups m !! source) as [sep|] eqn:Hs; [|by eauto 10].
  case_decide; [by eauto 10|]. destruct (negb _); [by eauto 10|].
  destruct (mr_groups m !! target) as [tep|]; [|by eauto 10].
  destruct (prepare_gates sep tep) as [n|]; [|by eauto 10].
  destruct (some_source_claims_target_ok source st m Hok) as [Hok' Hh].
  destruct (some_source_claims_target source st m) as [[] m1]; cbn [snd] in *; [by eauto 10|].
  destruct (gst_stores source st) as [[log s]|]; [|by eauto 10].
  destruct (Hh source) as [ep Hep]; [by eauto|]. rewrite Hep. cbn [mbind option_bind].
  match goal with |- context [propose_merge_entry now ?k ?p log ep] =>
    pose proof (merge_entry_ok source ep now k p log m1 Hep Hok') as Hf;
    destruct (propose_merge_entry now k p log ep) as [[r log'] ep'] end.
  cbn [snd] in Hf. by eauto 10.
Qed.

Lemma commit_merge_ok target now source log m :
  mr_ok None m →
  ∃ r log' m', MultiRaft_commit_merge target now source log m = Some (r, log', m') ∧ mr_ok None m'.
Proof.
  intros Hok. unfold MultiRaft_commit_merge.
  destruct (mr_groups m !! target) as [tep|] eqn:Ht; [|by eauto 10]. case_decide; [by eauto 10|].
  destruct (mr_groups m !! source) as [sep|] eqn:Hs; [|by eauto 10].
  destruct (commit_gates source target sep tep) as [n|] eqn:Hgate; [|by eauto 10].
  assert (Hfr : frozen_ready sep = true).
  { revert Hgate. unfold commit_gates. repeat (case_match; [done|]). intros.
    match goal with H : negb (frozen_ready sep) = false |- _ => by apply negb_false_iff in H end. }
  unfold frozen_ready in Hfr. apply andb_true_iff in Hfr as [Hfz Hfi].
  destruct (wf_freeze _ (ok_wf _ _ Hok source sep Hs) Hfz) as [[fi Hi] [ft Ht']]. cbn in Hi, Ht'.
  rewrite Hi, Ht'. cbn [mbind option_bind].
  match goal with |- context [propose_merge_entry now ?k ?p log tep] =>
    pose proof (merge_entry_ok target tep now k p log m Ht Hok) as Hf;
    destruct (propose_merge_entry now k p log tep) as [[r log'] ep'] end.
  cbn [snd] in Hf. by eauto 10.
Qed.

Lemma rollback_merge_ok target now source log m :
  mr_ok None m → mr_ok None (MultiRaft_rollback_merge target now source log m).2.
Proof.
  intros Hok. unfold MultiRaft_rollback_merge.
  destruct (mr_groups m !! target) as [tep|] eqn:Ht; [|done]. case_decide; [done|].
  destruct (mr_groups m !! source) as [sep|] eqn:Hs; [|done].
  destruct (rollback_gates source target sep tep log) as [n|]; [|done]. cbv zeta.
  match goal with |- context [propose_merge_entry now ?k ?p log tep] =>
    pose proof (merge_entry_ok target tep now k p log m Ht Hok) as Hf;
    by destruct (propose_merge_entry now k p log tep) as [[r log'] ep'] end.
Qed.

(** ** Thaws *)

Lemma propose_thaw_ok source now n ep log m :
  mr_groups m !! source = Some ep → mr_ok None m →
  mr_ok None (propose_thaw source now n ep log m).2.
Proof.
  intros Hg Hok. unfold propose_thaw. destruct (thaw_in_flight ep); [done|].
  destruct (next_lineage n) as [k|]; [|done]. cbv zeta.
  match goal with |- context [propose_merge_entry now ?k ?p log ep] =>
    pose proof (call_step _ _ (CallProposeMerge (S := S) ep now k p log)) as Hc;
    destruct (propose_merge_entry now k p log ep) as [[r log'] ep'] end.
  cbn [snd] in *. eapply mr_ok_call; [done| |done]. etrans; [exact Hc|].
  destruct r as [i|]; [|reflexivity]. apply call_step. constructor.
Qed.

Lemma propose_merge_unfreeze_ok source now by_ n log m :
  mr_ok None m → mr_ok None (propose_merge_unfreeze source now by_ n log m).2.
Proof.
  intros Hok. unfold propose_merge_unfreeze.
  destruct (mr_groups m !! source) as [ep|] eqn:Hg; [|done]. cbv zeta.
  repeat (case_match; [done|]). by apply propose_thaw_ok.
Qed.

Lemma propose_dead_target_thaw_ok source now target log m :
  mr_ok None m → mr_ok None (propose_dead_target_thaw source now target log m).2.
Proof.
  intros Hok. unfold propose_dead_target_thaw.
  destruct (mr_groups m !! source) as [ep|] eqn:Hg; [|done]. cbv zeta.
  repeat (case_match; [done|]). by apply propose_thaw_ok.
Qed.

Lemma propose_thaw_witness_ok target k n now log m :
  mr_ok None m → mr_ok None (propose_thaw_witness target k n now log m).2.
Proof.
  intros Hok. unfold propose_thaw_witness.
  destruct (mr_groups m !! target) as [ep|] eqn:Hg; [|done].
  destruct (witness_in_flight ep); [done|]. cbv zeta.
  match goal with |- context [propose_merge_entry now ?k ?p log ep] =>
    pose proof (call_step _ _ (CallProposeMerge (S := S) ep now k p log)) as Hc;
    destruct (propose_merge_entry now k p log ep) as [[r log'] ep'] end.
  cbn [snd] in *. eapply mr_ok_call; [done| |done]. etrans; [exact Hc|].
  destruct r as [i|]; [|reflexivity]. apply call_step. constructor.
Qed.
End steps.

#[export] Hint Rewrite @fail_stop_lineage : lineage.
