(* ===== verification/MultiForkSteps.v ===== *)
(** * Removal, admission and the fork relay keep the invariant

    The second half of [MultiSteps]: [MultiRemove.remove_group_inner], the
    constructors of [MultiFork] and the relay of [MultiRelay].  The drain is shown
    to return within its fuel, and to leave no staged fork unaccounted for. *)

From S2P Require Import Prelude Bytes Num Quorum Progress ProgressMap Conf Tracker ConfChange.
From S2P Require Import ConfChangeProps Config Lease Prng ReadOnly Data Frame Entry Storage Shape.
From S2P Require Import EngineStable Restart Forwarded Wire Message Codec Endpoint Merge.
From S2P Require Import Invariant Persistence Replication Election Propose Handlers Commit Apply.
From S2P Require Import Boot Reads Snapshot Append Drive VoteFrame Frames ApplyFrame HandlerFrame.
From S2P Require Import Vote BootFrame SnapshotFrame VoteDrive Multi MultiRemove MultiFork.
From S2P Require Import MultiRelay MultiVerbs MultiMerge MultiInv MultiSteps.

Section fork_steps.
Context {G I F R L S : Type} `{!NodeId G, !NodeId I, !StateMachine F, !Rng R}.
Context `{!LogStore L, !StableStore I S, !StableWriteLaws I S}.
Context {DG : Data G} {DI : Data I} {BS : BuffaSizes} {DC : Data sm_command} {DS : Data sm_snapshot}.
Context {BD : BuffaDecode} {BC : Buffa PbConfChangeV2}.
Abbreviation Endpoint := (Endpoint I F R).
Abbreviation MultiRaft := (MultiRaft G I F R).
Context {Q : gset G}.
Abbreviation mr_ok := (mr_ok (Q := Q)).
Implicit Types (m : MultiRaft) (ep : Endpoint) (g gid : G) (x : option G) (log : L) (stable : S).
Implicit Types (config : Config I).

(** ** Taking the head fork *)

Lemma take_head_fork_spec g m :
  mr_ok None m →
  (take_head_fork g m = Some (None, m) ∧ ∀ ep, mr_groups m !! g = Some ep → staged_forks ep = [])
  ∨ ∃ f ep ep', mr_groups m !! g = Some ep ∧ staged_forks ep = f :: staged_forks ep'
      ∧ quiet ep ep' ∧ take_head_fork g m = Some (Some f, set_group g ep' m).
Proof.
  intros Hok. unfold take_head_fork. destruct (mr_groups m !! g) as [ep|] eqn:Hg; [|by left].
  destruct (pop_pending_fork_total ep) as (r & ep' & Hp & _ & Hn); [by apply wf_forks, (ok_wf _ _ Hok g)|].
  rewrite Hp. destruct r as [[f fsm]|].
  - right. exists f, ep, (resolve_fork (pf_index f) ep'). split_and!; try done.
    + revert Hp. unfold pop_pending_fork, staged_forks.
      destruct (spl_pending_forks _) as [|f' fs]; [done|]. destruct (spl_forked_fsms _); [done|].
      by intros [= -> _ <-].
    + etrans; [by eapply (quiet_pop_fork (L := L) (S := S))|].
      apply (quiet_resolve_fork (L := L) (S := S)).
  - left. split; [done|]. intros e [= <-]. by apply Hn.
Qed.

(** The id goes back in the queue as its park is lifted. *)
Lemma requeue_ok g m : mr_ok None m → mr_ok None (mark_forks g (unpark g m)).
Proof.
  intros Hok. apply mr_ok_close with g.
  - apply mark_forks_ok, unpark_ok; [by intros|]. by apply mr_ok_weaken.
  - intros ep. destruct (mark_groups g (unpark g m)) as (_ & _ & ->). rewrite unpark_groups. intros Hg.
    destruct (ok_attended _ _ Hok g ep Hg) as [? ? ? ?]; [done|].
    unfold mark_forks, unpark. destruct (mr_parked m !! g); case_decide; constructor; cbn in *; try done;
      left; set_solver.
Qed.

(** ** Removal *)

Lemma mr_ok_fmap x f m :
  (∀ ep, quiet ep (f ep)) → mr_ok x m → mr_ok x (m <| mr_groups ::= fmap f |>).
Proof.
  intros Hf [Hw Hh Hl Ha ? ? ? Hs ? Hp ? ?].
  assert (Hlk : ∀ h ep, (f <$> mr_groups m) !! h = Some ep →
                ∃ e, mr_groups m !! h = Some e ∧ ep = f e).
  { intros h ep. rewrite lookup_fmap. destruct (mr_groups m !! h); naive_solver. }
  constructor; try done; cbn.
  - intros h ep (e & He & ->)%Hlk. destruct (Hf e) as [[Hst _ _ _] _].
    apply (st_wf _ _ Hst), (Hw h e He).
  - intros h ep (e & He & ->)%Hlk. destruct (Hf e) as [[Hst _ _ _] _]. rewrite (st_config _ _ Hst). eauto.
  - intros h ep (e & He & ->)%Hlk. eauto.
  - intros h ep (e & He & ->)%Hlk Hx. destruct (Hf e) as [[Hst ? ? ?] Hpo].
    destruct (Ha h e He Hx) as [? ? ? Hat]. constructor; cbn; auto.
    intros Hp'. destruct (Hat (Hpo Hp')) as [?|Hr]; [by left|right]. by apply (st_poison _ _ Hst).
  - intros h (e & He & Hpe)%Hs%group_is_Some. apply group_is_Some. cbn. exists (f e).
    rewrite lookup_fmap, He. split; [done|]. destruct (Hf e) as [[Hst _ _ _] _].
    pose proof (Hw h e He) as Hwe. destruct (st_wf _ _ Hst Hwe) as (Hwe' & _).
    rewrite (wf_poison _ Hwe) in Hpe. apply bool_decide_eq_true in Hpe as [r Hr].
    rewrite (wf_poison _ Hwe'). apply bool_decide_eq_true. exists r. by apply (st_poison _ _ Hst).
  - intros h Hh'. rewrite lookup_fmap, fmap_is_Some. auto.
Qed.

Lemma purge_signals_ok g m : mr_ok (Some g) m → mr_ok (Some g) (purge_signals g m).
Proof.
  intros [? ? ? Ha ? ? ? Hs [Hn Hp] ? ? [Hbn Hb] Hq]. unfold purge_signals. constructor; try done; cbn.
  - intros h ep Hh Hx. destruct (Ha h ep Hh Hx) as [? ? ? Hat]. constructor; try done. cbn.
    intros Hp'. destruct (Hat Hp'); [left|by right]. assert (h ≠ g) by congruence. set_solver.
  - intros h. rewrite elem_of_difference. intros [? _]. by apply Hs.
  - split.
    + by apply NoDup_retain.
    + intros h [Hne Hin]%elem_of_retain. apply negb_true_iff, bool_decide_eq_false in Hne.
      apply Hp in Hin. set_solver.
  - split; [by apply NoDup_retain_fmap|]. intros d [Hne Hin]%elem_of_retain.
    apply andb_true_iff in Hne as [Ht Hsrc].
    apply negb_true_iff, bool_decide_eq_false in Ht. apply negb_true_iff, bool_decide_eq_false in Hsrc.
    apply map_lookup_filter_Some. split; [|done]. rewrite lookup_delete_ne by done. auto.
  - intros h [Hh Hne]%elem_of_difference. destruct (Hq h Hh); [left|by right].
    apply elem_of_retain. split; [|done]. apply negb_true_iff, bool_decide_eq_false. set_solver.
Qed.

Lemma mr_ok_delete g m :
  mr_parked m !! g = None → g ∉ mr_poisoned_seen m → mr_ok (Some g) m →
  mr_ok None (m <| mr_groups ::= delete g |>).
Proof.
  intros Hpk Hns [Hw Hh Hl Ha ? ? ? Hs ? Hp ? ?]. constructor; try done; cbn.
  - intros h ep [_ ?]%lookup_delete_Some. eauto.
  - intros h ep [_ ?]%lookup_delete_Some. eauto.
  - intros h ep [_ ?]%lookup_delete_Some. eauto.
  - intros h ep [Hne Hh']%lookup_delete_Some _. eapply attended_le; [|apply Ha; [done|congruence]].
    by constructor.
  - intros h Hin. assert (h ≠ g) by congruence. apply Hs, group_is_Some in Hin as (e & He & Hpe).
    apply group_is_Some. cbn. rewrite lookup_delete_ne by done. eauto.
  - intros h Hh'. assert (h ≠ g) by (intros ->; rewrite Hpk in Hh'; by destruct Hh').
    rewrite lookup_delete_ne by done. auto.
Qed.

Lemma unpark_unparked g m : mr_parked (unpark g m) !! g = None.
Proof.
  unfold unpark. destruct (mr_parked m !! g) eqn:Hp; [|done]. cbn. by rewrite lookup_delete_eq.
Qed.

Lemma find_fork_hosted m k t p f b : find_fork m k t = Some (p, f, b) → is_Some (mr_groups m !! p).
Proof.
  unfold find_fork. intros Hf. apply head_Some_elem_of in Hf.
  apply list_elem_of_omap in Hf as ((q & ep) & Hin & Hh). apply head_Some_elem_of in Hh.
  apply list_elem_of_omap in Hh as (fork & _ & Hif). case_match; [|done]. injection Hif as <- _ _.
  apply btree_map_iter_elem in Hin. by eexists.
Qed.

Lemma abandon_ok g removed m :
  mr_ok None m → ∃ m', abandon_fork_this_removal_descends_from g removed m = Some m' ∧ mr_ok None m'
                       ∧ dom (mr_groups m') = dom (mr_groups m).
Proof.
  intros Hok. unfold abandon_fork_this_removal_descends_from.
  destruct removed as [ep|]; [|by eauto]. destruct (is_poisoned ep); [by eauto|].
  destruct (spl_fork_id _) as [t|]; [|by eauto].
  destruct (find_fork m _ t) as [[[p f] []]|] eqn:Hf; [| |by eauto].
  - destruct (take_head_fork_spec p m Hok) as [[-> _]|(f' & e & e' & He & _ & Hq & ->)];
      cbn [mbind option_bind]; eexists; (split; [reflexivity|]).
    + split; [by apply push_refusal_ok, requeue_ok, advance_relay_guard_ok|].
      cbn. destruct (mark_groups p (unpark p (advance_relay_guard p (pf_parent_gen_after f) m))) as (_ & _ & ->).
      by rewrite unpark_groups.
    + split; [apply push_refusal_ok, requeue_ok, advance_relay_guard_ok; by eapply mr_ok_quiet|].
      cbn. destruct (mark_groups p (unpark p (advance_relay_guard p (pf_parent_gen_after f) (set_group p e' m))))
        as (_ & _ & ->). rewrite unpark_groups. cbn. rewrite dom_insert_lookup_L; eauto.
  - eexists. split; [reflexivity|]. split.
    + apply mr_ok_upd_quiet; [|done]. intros. apply (quiet_mark_fork_abandoned (L := L) (S := S)).
    + unfold upd_group. cbn. apply dom_alter_L.
Qed.

Lemma remove_group_inner_ok g m :
  mr_ok None m →
  ∃ m', remove_group_inner g m = Some (mr_groups m !! g, m') ∧ mr_ok None m'
        ∧ dom (mr_groups m') = dom (mr_groups m) ∖ {[ g ]}.
Proof.
  intros Hok. unfold remove_group_inner. cbv zeta.
  set (m1 := purge_signals g (unpark g m)).
  assert (Hm1 : mr_ok (Some g) m1).
  { apply purge_signals_ok, unpark_ok; [by intros|]. by apply mr_ok_weaken. }
  assert (Hg1 : mr_groups m1 = mr_groups m) by (unfold m1, purge_signals; cbn; apply unpark_groups).
  set (m2 := m1 <| mr_groups ::= delete g |>).
  assert (Hm2 : mr_ok None m2).
  { apply mr_ok_delete; [|unfold m1, purge_signals; cbn; set_solver|done].
    unfold m1, purge_signals. cbn. apply unpark_unparked. }
  match goal with |- context [if ?c then ?a else m2] => set (m3 := if c then a else m2) end.
  assert (Hm3 : mr_ok None m3 ∧ dom (mr_groups m3) = dom (mr_groups m) ∖ {[ g ]}).
  { assert (Hd : dom (mr_groups m2) = dom (mr_groups m) ∖ {[ g ]}).
    { change (mr_groups m2) with (delete g (mr_groups m1)). rewrite Hg1. apply dom_delete_L. }
    unfold m3. destruct (_ && _); [|done]. split; [|unfold upd; cbn; by rewrite dom_fmap_L].
    apply mr_ok_fmap; [|done]. intros. apply (quiet_clear_abandoned (L := L) (S := S)). }
  clearbody m3. destruct Hm3 as [Hm3 Hd3].
  destruct (abandon_ok g (mr_groups m1 !! g) m3 Hm3) as (m4 & -> & Hm4 & Hd4).
  cbn [mbind option_bind]. rewrite Hg1. eexists. split; [reflexivity|]. split; [done|]. congruence.
Qed.

Section removal.
Context {St : Type} `{!GroupStores G L S St}.

Lemma remove_refusal_ok g st m :
  mr_ok None m →
  mr_ok None (remove_refusal (S := S) g st m).2
  ∧ ∀ h, is_Some (mr_groups m !! h) → is_Some (mr_groups (remove_refusal (S := S) g st m).2 !! h).
Proof.
  intros Hok. unfold remove_refusal. repeat (case_match; [done|]). case_match; [|done].
  pose proof (some_source_claims_target_ok g st m Hok) as Hc.
  by destruct (some_source_claims_target g st m).
Qed.

Lemma remove_group_ok g st m :
  mr_ok None m →
  ∃ r m', MultiRaft_remove_group (S := S) g st m = Some (r, m') ∧ mr_ok None m'.
Proof.
  intros Hok. unfold MultiRaft_remove_group. destruct (remove_refusal_ok g st m Hok) as [Hok' _].
  destruct (remove_refusal g st m) as [[|e] m1]; cbn [snd] in *; [|by eauto].
  destruct (remove_group_inner_ok g m1 Hok') as (m2 & -> & Hm2 & _). cbn. eauto.
Qed.
End removal.

(** ** The measure of the drain *)

Lemma staged_total_set g ep ep' m :
  mr_groups m !! g = Some ep →
  (staged_total (set_group g ep' m) + length (staged_forks ep)
   = staged_total m + length (staged_forks ep'))%nat.
Proof.
  intros Hg. unfold staged_total, set_group. cbn.
  assert (Hi : ∀ e, map_fold (λ _ ep n, (length (staged_forks ep) + n)%nat) 0%nat
                      (<[g := e]> (mr_groups m))
               = (length (staged_forks e)
                  + map_fold (λ _ ep n, (length (staged_forks ep) + n)%nat) 0%nat
                      (delete g (mr_groups m)))%nat).
  { intros e. rewrite <- insert_delete_eq.
    rewrite map_fold_insert_L; [done|intros; lia|apply lookup_delete_eq]. }
  pose proof (Hi ep) as He. rewrite insert_id in He by done. rewrite Hi, He. lia.
Qed.

Lemma staged_total_groups m m' : mr_groups m' = mr_groups m → staged_total m' = staged_total m.
Proof. unfold staged_total. by intros ->. Qed.

(** ** Dropping every fork of a poisoned parent *)

Lemma drop_forks_spec n ep :
  fork_queues_wf ep → (length (staged_forks ep) < n)%nat →
  ∃ ep', drop_forks n ep = Some ep' ∧ quiet ep ep' ∧ staged_forks ep' = [].
Proof.
  revert ep. induction n as [|n IH]; intros ep Hw Hl; [lia|]. cbn [drop_forks].
  destruct (pop_pending_fork_total ep Hw) as (r & ep' & Hp & Hw' & Hn). rewrite Hp.
  cbn [mbind option_bind]. pose proof (quiet_pop_fork (L := L) (S := S) _ _ _ Hp) as Hq.
  destruct r as [f|].
  - destruct (IH ep' Hw') as (e & -> & Hqe & He); [|exists e; split_and!; [done|by etrans|done]].
    revert Hp Hl. unfold pop_pending_fork, staged_forks.
    destruct (spl_pending_forks (ep_split ep)) as [|f' fs]; [done|].
    destruct (spl_forked_fsms _); [done|]. intros [= _ <-]. cbn. lia.
  - exists ep'. split_and!; try done. assert (staged_forks ep = []) by by apply Hn.
    revert Hp. unfold pop_pending_fork. unfold staged_forks in *.
    destruct (spl_pending_forks (ep_split ep)) eqn:He; [|done]. by intros [= <-].
Qed.

(** ** One look at a head *)

Section relay.
Context {X : Type} `{!ForkGate G X}.
Implicit Types (gate : X).

(** What a fork that may be hosted has been checked for. *)
Record yield_checked gid gate m (plan : YieldPlan G I) : Prop := {
  yc_fork : ∃ ep fork, mr_groups m !! gid = Some ep ∧ peek_pending_fork ep = Some fork
    ∧ plan = yield_plan (yp_child plan) fork (yp_config plan)
    ∧ Config_with_voter_set (ep_config ep) (pf_voters fork) = Ok (yp_config plan)
    ∧ decode_exact (T := G) (pf_child_bytes fork) = Ok (yp_child plan);
  yc_guard : default 0 (mr_lineage m !! gid) < yp_parent_gen_after plan;
  yc_floor : floor_admits (fg_floor gate (yp_child plan)) (yp_child_gen plan) = true;
  yc_new : validate_new_group m (yp_child plan) (yp_config plan) = Ok tt;
  yc_gate : fg_contains_group gate (yp_child plan) = false;
}.

Record examined gid gate m (h : HeadFork G I) m' : Prop := {
  ex_ok : mr_ok None m';
  ex_dirty : mr_dirty_forks m' = mr_dirty_forks m;
  ex_parked : ∀ g, is_Some (mr_parked m !! g) → is_Some (mr_parked m' !! g);
  ex_total : (staged_total m' ≤ staged_total m)%nat;
  ex_empty : h = HfEmpty → ∀ ep, mr_groups m' !! gid = Some ep → staged_forks ep = [];
  ex_held : h = HfParked → is_Some (mr_parked m' !! gid);
  ex_resolved : h = HfResolved → (staged_total m' < staged_total m)%nat;
  ex_yield : ∀ plan, h = HfYield plan → m' = m ∧ yield_checked gid gate m plan;
}.

(** Taking the head and then changing only the books resolves one fork. *)
Lemma examined_take gid gate m (f : PendingFork (I := I)) ep ep' k :
  mr_groups m !! gid = Some ep → staged_forks ep = f :: staged_forks ep' → quiet ep ep' →
  mr_ok None m → (∀ m0, mr_ok None m0 → mr_ok None (k m0)) →
  (∀ m0, mr_groups (k m0) = mr_groups m0 ∧ mr_dirty_forks (k m0) = mr_dirty_forks m0
         ∧ mr_parked (k m0) = mr_parked m0) →
  examined gid gate m HfResolved (k (set_group gid ep' m)).
Proof.
  intros Hg Hf Hq Hok Hk Hsame. destruct (Hsame (set_group gid ep' m)) as (Hgr & Hd & Hp).
  pose proof (staged_total_set gid ep ep' m Hg) as Ht. rewrite Hf in Ht. cbn [length] in Ht.
  rewrite <- (staged_total_groups _ _ Hgr) in Ht.
  constructor; try done; [by eapply Hk, mr_ok_quiet|by rewrite Hp|lia|lia].
Qed.

Lemma examined_refl gid gate m h :
  mr_ok None m → h ≠ HfResolved → (∀ plan, h ≠ HfYield plan) →
  (h = HfEmpty → ∀ ep, mr_groups m !! gid = Some ep → staged_forks ep = []) →
  (h = HfParked → is_Some (mr_parked m !! gid)) →
  examined gid gate m h m.
Proof.
  intros Hok Hr Hy He Hp. constructor; try done. intros plan ->. by destruct (Hy plan).
Qed.

Lemma examined_parked gid gate m child cause :
  is_Some (mr_groups m !! gid) → mr_ok None m →
  examined gid gate m HfParked (park_fork gid child cause m).
Proof.
  intros Hg Hok. constructor; try done; unfold park_fork.
  - by apply park_fork_ok.
  - by case_bool_decide.
  - intros g Hp. assert (is_Some (<[gid := cause]> (mr_parked m) !! g)); [|by case_bool_decide].
    destruct (decide (g = gid)) as [->|]; [by rewrite lookup_insert_eq|]. by rewrite lookup_insert_ne.
  - by case_bool_decide.
  - intros _. assert (is_Some (<[gid := cause]> (mr_parked m) !! gid)); [|by case_bool_decide].
    by rewrite lookup_insert_eq.
Qed.

Lemma examined_poison gid gate m ep :
  mr_groups m !! gid = Some ep → mr_ok None m →
  ∃ ep', drop_forks (Datatypes.S (length (staged_forks ep))) (poison SplitDecode ep) = Some ep'
    ∧ examined gid gate m HfEmpty (note_if_poisoned gid (set_group gid ep' m)).
Proof.
  intros Hg Hok. pose proof (ok_wf _ _ Hok gid ep Hg) as Hw.
  destruct (drop_forks_spec (Datatypes.S (length (staged_forks ep))) (poison SplitDecode ep))
    as (ep' & Hd & Hq & He); [apply (wf_forks _ Hw)|apply Nat.lt_succ_diag_r|].
  exists ep'. split; [done|].
  assert (Hh : hushed ep ep').
  { etrans; [|apply Hq]. apply hushed_poison; [reflexivity|done]. }
  pose proof (staged_total_set gid ep ep' m Hg) as Ht. rewrite He in Ht. cbn [length] in Ht.
  constructor; try done.
  - by eapply mr_ok_hushed.
  - unfold note_if_poisoned. by repeat case_match.
  - intros g Hp. unfold note_if_poisoned. by repeat case_match.
  - rewrite (staged_total_groups _ _ (note_if_poisoned_groups gid (set_group gid ep' m))). lia.
  - intros _ e. rewrite note_if_poisoned_groups. cbn. rewrite lookup_insert_eq. by intros [= <-].
Qed.

(** A yielded fork has passed every check. *)
Lemma fork_verdict_yield m gate gid ep fork child config :
  fork_verdict m gate gid ep fork = FvYield child →
  Config_with_voter_set (ep_config ep) (pf_voters fork) = Ok config →
  decode_exact (T := G) (pf_child_bytes fork) = Ok child
  ∧ default 0 (mr_lineage m !! gid) < pf_parent_gen_after fork
  ∧ floor_admits (fg_floor gate child) (pf_child_gen fork) = true
  ∧ validate_new_group m child config = Ok tt ∧ fg_contains_group gate child = false.
Proof.
  unfold fork_verdict. destruct (decode_exact _) as [c|]; [|done]. cbv zeta.
  destruct (negb _ || _) eqn:Hg; [done|]. apply orb_false_iff in Hg as [_ Hg].
  destruct (mr_groups m !! c); [by case_match|]. intros Hv Hc. rewrite Hc in Hv.
  unfold fork_refusal in Hv. destruct (validate_working_generation _); cbn in Hv; [|by repeat case_match].
  destruct (floor_admits _ _) eqn:Hf; cbn in Hv; [|by repeat case_match].
  destruct (validate_new_group m c config) as [[]|e] eqn:Hn; [|by destruct e; try case_match].
  destruct (fg_contains_group gate c) eqn:Hh; [done|]. injection Hv as ->.
  split_and!; try done. by apply N.leb_gt.
Qed.

Lemma act_on_fork_ok gid gate m ep fork :
  mr_groups m !! gid = Some ep → peek_pending_fork ep = Some fork → mr_ok None m →
  ∃ h m', act_on_fork gid ep fork (fork_verdict m gate gid ep fork) m = Some (h, m')
          ∧ examined gid gate m h m'.
Proof.
  intros Hg Hpk Hok. assert (Hgs : is_Some (mr_groups m !! gid)) by by eexists.
  assert (Hne : staged_forks ep ≠ []).
  { unfold staged_forks, peek_pending_fork in *. by destruct (spl_pending_forks _). }
  destruct (take_head_fork_spec gid m Hok) as [[_ Hno]|(f & e & e' & He & Hst & Hq & Hth)].
  { by destruct (Hne (Hno ep Hg)). }
  destruct (fork_verdict m gate gid ep fork) as [| |c| |c|c|c] eqn:Hv; cbn [act_on_fork].
  - destruct (examined_poison gid gate m ep Hg Hok) as (ep' & -> & Hex). cbn. eauto.
  - rewrite Hth. eexists _, _. split; [reflexivity|].
    by apply (examined_take gid gate m f e e' (λ m, m)).
  - eexists _, _. split; [reflexivity|]. by apply examined_parked.
  - rewrite Hth. eexists _, _. split; [reflexivity|].
    apply (examined_take gid gate m f e e' (advance_relay_guard gid (pf_parent_gen_after f))); try done.
    intros. by apply advance_relay_guard_ok.
  - destruct (Config_with_voter_set (ep_config ep) (pf_voters fork)) as [config|err] eqn:Hc.
    + eexists _, _. split; [reflexivity|]. constructor; try done. intros plan [= <-]. split; [done|].
      destruct (fork_verdict_yield m gate gid ep fork c config Hv Hc) as (? & ? & ? & ? & ?).
      constructor; try done. exists ep, fork. by split_and!.
    + exfalso. revert Hv. unfold fork_verdict. destruct (decode_exact _) as [t|]; [|done]. cbv zeta.
      destruct (negb _ || _); [done|]. destruct (mr_groups m !! t); [by case_match|].
      by rewrite Hc.
  - eexists _, _. split; [reflexivity|]. by apply examined_parked.
  - rewrite Hth. eexists _, _. split; [reflexivity|].
    apply (examined_take gid gate m f e e' (push_refusal gid c)); try done.
    intros. by apply push_refusal_ok.
Qed.

Lemma examine_head_fork_ok gid gate m :
  mr_ok None m → ∃ h m', examine_head_fork gid gate m = Some (h, m') ∧ examined gid gate m h m'.
Proof.
  intros Hok. unfold examine_head_fork. destruct (group_is m gid head_fork_is_abandoned) eqn:Ha.
  - unfold consume_abandoned_head_fork.
    destruct (take_head_fork_spec gid m Hok) as [[-> Hno]|(f & e & e' & He & Hst & Hq & ->)];
      cbn [mbind option_bind]; eexists _, _; (split; [reflexivity|]); [by apply examined_refl|].
    destruct (decode_exact (pf_child_bytes f)) as [c|].
    + apply (examined_take gid gate m f e e'
        (λ m0, push_refusal gid c (advance_relay_guard gid (pf_parent_gen_after f) m0))); try done.
      intros. by apply push_refusal_ok, advance_relay_guard_ok.
    + apply (examined_take gid gate m f e e' (advance_relay_guard gid (pf_parent_gen_after f))); try done.
      intros. by apply advance_relay_guard_ok.
  - destruct (mr_groups m !! gid) as [ep|] eqn:Hg.
    + destruct (peek_pending_fork ep) as [fork|] eqn:Hp; [by apply act_on_fork_ok|].
      eexists _, _. split; [reflexivity|]. apply examined_refl; try done.
      intros _ e. rewrite Hg. intros [= <-]. revert Hp. unfold peek_pending_fork, staged_forks.
      by destruct (spl_pending_forks _).
    + eexists _, _. split; [reflexivity|]. apply examined_refl; try done. intros _ e. by rewrite Hg.
Qed.

(** ** The drain *)

Lemma yield_checked_books gid gate m m' plan :
  mr_groups m' = mr_groups m → mr_lineage m' = mr_lineage m → mr_host_id m' = mr_host_id m →
  yield_checked gid gate m plan → yield_checked gid gate m' plan.
Proof.
  intros Hg Hl Hh [Hf ? ? Hn ?]. constructor; rewrite ?Hg, ?Hl; try done.
  revert Hn. unfold validate_new_group, hosts, any_group. by rewrite Hg, Hh.
Qed.

Lemma unpark_books g m :
  mr_lineage (unpark g m) = mr_lineage m ∧ mr_host_id (unpark g m) = mr_host_id m
  ∧ mr_dirty_forks (unpark g m) = mr_dirty_forks m
  ∧ mr_dirty_forks_set (unpark g m) = mr_dirty_forks_set m.
Proof. unfold unpark. by destruct (mr_parked m !! g). Qed.

Lemma mark_forks_books g m :
  mr_lineage (mark_forks g m) = mr_lineage m ∧ mr_host_id (mark_forks g m) = mr_host_id m.
Proof. unfold mark_forks. by case_decide. Qed.

Lemma requeue_checked g gid gate m plan :
  yield_checked gid gate m plan → yield_checked gid gate (mark_forks g (unpark g m)) plan.
Proof.
  destruct (mark_forks_books g (unpark g m)) as [Hl Hh].
  destruct (unpark_books g m) as (Hl' & Hh' & _). apply yield_checked_books.
  - destruct (mark_groups g (unpark g m)) as (_ & _ & ->). apply unpark_groups.
  - congruence.
  - congruence.
Qed.

(** What a stage of the drain leaves. *)
Definition drained gate (r : option (G * YieldPlan G I)) m' : Prop :=
  mr_ok None m' ∧ ∀ parent plan, r = Some (parent, plan) → yield_checked parent gate m' plan.

Lemma drain_parked_ok gate gids held m :
  mr_ok None m →
  ∃ r held' m', drain_parked gate gids held m = Some (r, held', m') ∧ drained gate r m'.
Proof.
  revert held m. induction gids as [|gid gids IH]; intros held m Hok; cbn [drain_parked].
  { eexists _, _, _. split; [reflexivity|]. by split. }
  destruct (examine_head_fork_ok gid gate m Hok) as (h & m1 & -> & [Hok1 _ _ _ He _ _ Hy]).
  cbn [mbind option_bind]. destruct h as [| | |plan].
  - apply IH, unpark_ok; [|done]. intros ep Hg _ Hne. by destruct (Hne (He eq_refl ep Hg)).
  - by apply IH, requeue_ok.
  - by apply IH.
  - destruct (Hy plan eq_refl) as [-> Hc]. eexists _, _, _. split; [reflexivity|].
    split; [by apply requeue_ok|]. intros p pl [= <- <-]. by apply requeue_checked.
Qed.

(** An id leaves the fork queue when its forks are gone or parked. *)
Lemma pop_dirty_fork_ok g q m :
  mr_dirty_forks m = g :: q →
  (∀ ep, mr_groups m !! g = Some ep → staged_forks ep ≠ [] → is_Some (mr_parked m !! g)) →
  mr_ok None m → mr_ok None (pop_dirty_fork m).
Proof.
  intros Hq Hp [? ? ? Ha ? ? Hm ? ? ? ? ?]. unfold pop_dirty_fork. rewrite Hq in *.
  constructor; try done; cbn; [|by apply mirror_pop].
  intros h ep Hh Hx. destruct (Ha h ep Hh Hx) as [? ? Hf ?]. constructor; try done. cbn.
  intros Hne. destruct (decide (h = g)) as [->|]; [by right; eapply Hp|].
  destruct (Hf Hne); [left; set_solver|by right].
Qed.

Lemma drain_dirty_ok fuel gate held m :
  (length (mr_dirty_forks m) + staged_total m < fuel)%nat → mr_ok None m →
  ∃ r held' m', drain_dirty fuel gate held m = Some (r, held', m') ∧ drained gate r m'
    ∧ (r = None → mr_dirty_forks m' = []).
Proof.
  revert held m. induction fuel as [|fuel IH]; intros held m Hl Hok; [lia|]. cbn [drain_dirty].
  destruct (mr_dirty_forks m) as [|gid q] eqn:Hq.
  { eexists _, _, _. split; [reflexivity|]. by split. }
  assert (Hpop : ∀ m1 held, mr_ok None m1 → mr_dirty_forks m1 = gid :: q →
    (staged_total m1 ≤ staged_total m)%nat →
    (∀ ep, mr_groups m1 !! gid = Some ep → staged_forks ep ≠ [] → is_Some (mr_parked m1 !! gid)) →
    ∃ r held' m', drain_dirty fuel gate held (pop_dirty_fork m1) = Some (r, held', m')
      ∧ drained gate r m' ∧ (r = None → mr_dirty_forks m' = [])).
  { intros m1 hd Hok1 Hq1 Ht Hp. apply IH; [|by eapply pop_dirty_fork_ok].
    unfold pop_dirty_fork, staged_total in *. rewrite Hq1. cbn in *. lia. }
  case_decide as Hpk; [by apply Hpop|].
  destruct (examine_head_fork_ok gid gate m Hok) as (h & m1 & -> & [Hok1 Hd _ Ht He Hh Hr Hy]).
  cbn [mbind option_bind]. rewrite Hq in Hd. destruct h as [| | |plan].
  - apply Hpop; try done. intros ep Hg Hne. by destruct (Hne (He eq_refl ep Hg)).
  - apply IH; [|done]. specialize (Hr eq_refl). rewrite Hd. cbn in *. lia.
  - apply Hpop; auto.
  - destruct (Hy plan eq_refl) as [-> Hc]. eexists _, _, _. split; [reflexivity|].
    split; [|done]. split; [done|]. by intros p pl [= <- <-].
Qed.

(** A drain that yields nothing leaves every staged fork behind a standing park. *)
Lemma drain_to_yieldable_ok gate m :
  mr_ok None m →
  ∃ o m', drain_to_yieldable gate m = Some (o, m') ∧ mr_ok None m'
    ∧ match o with
      | Yieldable parent plan => yield_checked parent gate m' plan
      | _ => ∀ g ep, mr_groups m' !! g = Some ep → staged_forks ep ≠ [] → is_Some (mr_parked m' !! g)
      end.
Proof.
  intros Hok. unfold drain_to_yieldable. cbv zeta.
  destruct (drain_parked_ok gate (btree_map_iter (mr_parked m)).*1 false m Hok)
    as (r & held & m1 & -> & Hok1 & Hy1).
  destruct r as [[p pl]|]; [eexists _, _; split; [reflexivity|]; auto|].
  destruct (drain_dirty_ok (drain_fuel m1) gate held m1) as (r & held' & m2 & -> & [Hok2 Hy2] & Hn);
    [unfold drain_fuel; lia|done|].
  destruct r as [[p pl]|]; [eexists _, _; split; [reflexivity|]; auto|].
  eexists _, _. split; [reflexivity|]. split; [done|].
  assert (∀ g ep, mr_groups m2 !! g = Some ep → staged_forks ep ≠ [] → is_Some (mr_parked m2 !! g)).
  { intros g ep Hg Hne. destruct (ok_attended _ _ Hok2 g ep Hg) as [_ _ Hf _]; [done|].
    destruct (Hf Hne) as [Hin|?]; [|done].
    destruct (ok_forks _ _ Hok2) as [_ Hm]. rewrite (Hn eq_refl) in Hm. apply Hm in Hin. set_solver. }
  by repeat case_match.
Qed.
End relay.
End fork_steps.
