(* ===== verification/MultiService.v ===== *)
(** * The merge service keeps the invariant and accounts for every group

    [MultiMerge.service_merge_applies]: each pass returns, keeps
    [MultiInv.mr_ok], hosts no new group, and takes a group down only with a
    resolution that names it. *)

From S2P Require Import Prelude Bytes Num Quorum Progress ProgressMap Conf Tracker ConfChange.
From S2P Require Import ConfChangeProps Config Lease Prng ReadOnly Data Frame Entry Storage Shape.
From S2P Require Import EngineStable Restart Forwarded Wire Message Codec Endpoint Merge.
From S2P Require Import Invariant Persistence Replication Election Propose Handlers Commit Apply.
From S2P Require Import Boot Reads Snapshot Append Drive VoteFrame Frames ApplyFrame HandlerFrame.
From S2P Require Import Vote BootFrame SnapshotFrame VoteDrive Multi MultiRemove MultiFork.
From S2P Require Import MultiRelay MultiVerbs MultiMerge MultiInv MultiSteps MultiForkSteps.

Section service.
Context {G I F R L S St : Type} `{!NodeId G, !NodeId I, !StateMachine F, !Rng R}.
Context `{!LogStore L, !StableStore I S, !StableWriteLaws I S, !GroupStores G L S St, !FloorStore G St}.
Context {DG : Data G} {DI : Data I} {BS : BuffaSizes} {DC : Data sm_command} {DS : Data sm_snapshot}.
Context {BD : BuffaDecode} {BE : BuffaEncode} {BC : Buffa PbConfChangeV2}.
Abbreviation Endpoint := (Endpoint I F R).
Abbreviation MultiRaft := (MultiRaft G I F R).
Context {Q : gset G}.
Abbreviation mr_ok := (mr_ok (Q := Q)).
Abbreviation Svc := (Svc G I F R St).
Implicit Types (m : MultiRaft) (ep sep tep : Endpoint) (x y : Svc) (now : Now) (g tgid source : G).
Implicit Types (r : MergeResolution G).

(** ** What a pass may do *)

(** The group a resolution says was merged away. *)
Definition res_source r : option G :=
  match r with
  | ResMerged s _ | ResAbsorbed s _ | ResRetired s | ResCaptureFailed s _ => Some s
  | ResAborted _ _ => None
  end.

(** The group that is no longer hosted once the resolution is reported. *)
Definition res_gone r : option G :=
  match r with ResAbsorbed s _ | ResRetired s => Some s | _ => None end.

Definition hosted m : gset G := dom (mr_groups m).

(** [T] are the groups whose removal must be reported. *)
Record evolves (T : G → Prop) x y : Prop := {
  ev_ok : mr_ok None (sv_m x) → mr_ok None (sv_m y);
  ev_dom : hosted (sv_m y) ⊆ hosted (sv_m x);
  ev_guard : guards_le (sv_m x) (sv_m y);
  ev_res : ∃ new, sv_res y = sv_res x ++ new
    ∧ (∀ g, T g → g ∈ hosted (sv_m x) → g ∉ hosted (sv_m y) → ∃ r, r ∈ new ∧ res_source r = Some g)
    ∧ ∀ r g, r ∈ new → res_gone r = Some g → g ∉ hosted (sv_m y);
}.

#[global] Instance evolves_refl T : Reflexive (evolves T).
Proof. intros x. constructor; try done. exists []. rewrite app_nil_r. set_solver. Qed.

#[global] Instance evolves_trans T : Transitive (evolves T).
Proof.
  intros x y z [Ho1 Hd1 Hl1 (n1 & Hr1 & Ht1 & Hg1)] [Ho2 Hd2 Hl2 (n2 & Hr2 & Ht2 & Hg2)].
  constructor; [auto|set_solver|by etrans|]. exists (n1 ++ n2). rewrite Hr2, Hr1, app_assoc. split_and!; [done| |].
  - intros g HT Hx Hz. destruct (decide (g ∈ hosted (sv_m y))) as [Hy|Hy].
    + destruct (Ht2 g HT Hy Hz) as (r & ? & ?). exists r. set_solver.
    + destruct (Ht1 g HT Hx Hy) as (r & ? & ?). exists r. set_solver.
  - intros r g [Hr|Hr]%elem_of_app Hgo; [|by eapply Hg2].
    intros Hz. by apply (Hg1 r g Hr Hgo), Hd2.
Qed.

(** A step on the container alone that takes nothing down. *)
Lemma evolves_same T x y :
  (mr_ok None (sv_m x) → mr_ok None (sv_m y)) → hosted (sv_m y) = hosted (sv_m x) →
  guards_le (sv_m x) (sv_m y) → sv_res y = sv_res x → evolves T x y.
Proof.
  intros Ho Hd Hl Hr. constructor; cbn; [done|by rewrite Hd|done|]. exists []. rewrite app_nil_r, Hd. set_solver.
Qed.

Lemma evolves_on T x f :
  (mr_ok None (sv_m x) → mr_ok None (f (sv_m x))) → hosted (f (sv_m x)) = hosted (sv_m x) →
  guards_le (sv_m x) (f (sv_m x)) → evolves T x (on_m f x).
Proof. intros Ho Hd Hl. by apply evolves_same. Qed.

(** A resolution about groups that are not taken down. *)
Lemma evolves_resolved T x r :
  (∀ g, res_gone r = Some g → g ∉ hosted (sv_m x)) → evolves T x (resolved r x).
Proof.
  intros Hg. constructor; try done. exists [r]. split_and!; [done|done|].
  intros r' g Hin. apply list_elem_of_singleton in Hin as ->. apply Hg.
Qed.

(** ** The hosted ids under the primitive updates *)

Lemma hosted_note g m : hosted (note_if_poisoned g m) = hosted m.
Proof. unfold hosted. by rewrite note_if_poisoned_groups. Qed.
Lemma hosted_dirty g m : hosted (mark_dirty g m) = hosted m.
Proof. unfold hosted. by rewrite mark_dirty_groups. Qed.
Lemma hosted_upd g f m : hosted (upd_group g f m) = hosted m.
Proof. unfold hosted, upd_group. cbn. apply dom_alter_L. Qed.
Lemma hosted_set g ep m : is_Some (mr_groups m !! g) → hosted (set_group g ep m) = hosted m.
Proof. unfold hosted, set_group. cbn. intros. by rewrite dom_insert_lookup_L. Qed.
Lemma hosted_blocked t s b c m : hosted (note_merge_blocked t s b c m) = hosted m.
Proof. unfold note_merge_blocked. by case_decide. Qed.
Lemma hosted_fail_stop g why m : hosted (fail_stop g why m) = hosted m.
Proof. unfold fail_stop. by rewrite hosted_note, hosted_upd. Qed.
Lemma hosted_elem g m : g ∈ hosted m ↔ is_Some (mr_groups m !! g).
Proof. apply elem_of_dom. Qed.

Lemma evolves_blocked T t s b c x : evolves T x (on_m (note_merge_blocked t s b c) x).
Proof. apply evolves_on; [apply note_merge_blocked_ok|apply hosted_blocked|same_guards]. Qed.

Lemma evolves_fail_stop T g why x : evolves T x (on_m (fail_stop g why) x).
Proof. apply evolves_on; [apply fail_stop_ok|apply hosted_fail_stop|same_guards]. Qed.

Lemma evolves_upd_quiet T g f x : (∀ ep, quiet ep (f ep)) → evolves T x (on_m (upd_group g f) x).
Proof. intros Hf. apply evolves_on; [by apply mr_ok_upd_quiet|apply hosted_upd|same_guards]. Qed.

Lemma evolves_dirty T g x : evolves T x (on_m (mark_dirty g) x).
Proof. apply evolves_on; [|apply hosted_dirty|same_guards]. intros. by apply mark_dirty_ok, mr_ok_weaken. Qed.

Lemma evolves_note T g x : evolves T x (on_m (note_if_poisoned g) x).
Proof. apply evolves_on; [apply note_if_poisoned_ok|apply hosted_note|same_guards]. Qed.

(** A call of an endpoint and the marks after it. *)
Lemma evolves_upd_dirty T g f x :
  (∀ ep, ep_step ep (f ep)) → evolves T x (on_m (λ m, mark_dirty g (upd_group g f m)) x).
Proof.
  intros Hf. apply evolves_on; [|by rewrite hosted_dirty, hosted_upd|same_guards].
  intros. by apply mark_dirty_ok, mr_ok_upd, mr_ok_weaken.
Qed.

(** Loops. *)
Lemma evolves_foldl {A} T (f : Svc → A → Svc) l x :
  (∀ x a, evolves T x (f x a)) → evolves T x (foldl f x l).
Proof.
  intros Hf. revert x. induction l as [|a l IH]; intros x; cbn [foldl]; [reflexivity|].
  etrans; [apply Hf|apply IH].
Qed.

(** A step that returns: no panic in the states the invariant allows. *)
Definition returns (T : G → Prop) (f : Svc → option Svc) : Prop :=
  ∀ x, mr_ok None (sv_m x) → ∃ y, f x = Some y ∧ evolves T x y.

Lemma returns_for_each {A} T (f : A → Svc → option Svc) l :
  (∀ a, a ∈ l → returns T (f a)) → returns T (for_each f l).
Proof.
  intros Hf. induction l as [|a l IH]; intros x Hx; cbn [for_each]; [by exists x|].
  destruct (Hf a ltac:(left) x Hx) as (y & -> & Hy). cbn [mbind option_bind].
  destruct (IH (λ b Hb, Hf b (list_elem_of_further _ _ _ Hb)) y (ev_ok _ _ _ Hy Hx)) as (z & -> & Hz).
  exists z. split; [done|by etrans].
Qed.

(** ** In the middle of a call on one group *)

Record mid g x y : Prop := {
  md_ok : mr_ok (Some g) (sv_m x) → mr_ok (Some g) (sv_m y);
  md_dom : hosted (sv_m y) = hosted (sv_m x);
  md_guard : guards_le (sv_m x) (sv_m y);
  md_res : sv_res y = sv_res x;
}.

#[global] Instance mid_refl g : Reflexive (mid g).
Proof. by intros x. Qed.
#[global] Instance mid_trans g : Transitive (mid g).
Proof. intros x y z [] []. constructor; [auto|congruence|by etrans|congruence]. Qed.

Lemma mid_upd g f x : (∀ ep, ep_step ep (f ep)) → mid g x (on_m (upd_group g f) x).
Proof. intros Hf. constructor; [by apply mr_ok_upd|apply hosted_upd|same_guards|done]. Qed.

Lemma mid_set g ep ep' x :
  mr_groups (sv_m x) !! g = Some ep → (ep_wf ep → ep_step ep ep') → mid g x (on_m (set_group g ep') x).
Proof.
  intros Hg Hs. constructor; [|apply hosted_set; by eexists|same_guards|done]. intros Hok.
  eapply mr_ok_set; [done|by apply Hs, (ok_wf _ _ Hok g)|done|done].
Qed.

(** The marks close the call. *)
Lemma evolves_mid T g x y : mid g x y → evolves T x (on_m (mark_dirty g) y).
Proof.
  intros [Ho Hd Hl Hr]. constructor; cbn.
  - intros Hok. by apply mark_dirty_ok, Ho, mr_ok_weaken.
  - by rewrite hosted_dirty, Hd.
  - etrans; [exact Hl|same_guards].
  - exists []. rewrite app_nil_r, hosted_dirty, Hd. set_solver.
Qed.

Lemma mid_stage_capture g x : mid g x (stage_capture g x).2.
Proof.
  unfold stage_capture. destruct (gst_stores g (sv_st x)) as [[log s]|].
  - destruct (mr_groups (sv_m x) !! g) as [ep|] eqn:Hg; [|reflexivity].
    pose proof (keeps_capture_absorb log s ep) as Hk.
    destruct (capture_absorb_snapshot log s ep) as [[b s'] ep']. cbn [fst snd] in *.
    destruct (mid_set g ep ep' x Hg) as [Ho Hd Hl Hr]; [|by constructor].
    intros Hw. by eapply keeps_step.
  - cbn [snd]. apply mid_upd. intros ep. apply vf_step, vote_frame_poison. reflexivity.
Qed.

(** ** The parked pass *)

Lemma ensure_merge_seal_false now log ep log' ep' :
  ensure_merge_seal (L := L) now log ep = (false, log', ep') →
  ep' = ep ∨ (ep' = poison LogExhausted ep ∧ is_poisoned ep = false).
Proof.
  unfold ensure_merge_seal, append_leader_noop. destruct (negb _); [by intros [= _ <-]; left|].
  destruct (mrg_pending_apply _) as [p|]; [|by intros [= _ <-]; left].
  destruct (negb _); [by intros [= _ <-]; left|]. destruct (is_poisoned ep) eqn:Hp; [by intros [= _ <-]; left|].
  destruct (next_log_index _); [|by intros [= _ <-]; right].
  destruct (lease_wall_stamp now ep) as [w e1]. destruct (mint_op_id e1) as [o e2].
  by destruct (submit_append _ _ _ _) as [l e3].
Qed.

(** The failed seal is the one poison no mark follows. *)
Lemma mr_ok_exhausted g ep m :
  mr_groups m !! g = Some ep → is_poisoned ep = false → mr_ok None m →
  mr_ok None (set_group g (poison LogExhausted ep) m).
Proof.
  intros Hg Hp Hok. pose proof (ok_wf _ _ Hok g ep Hg) as Hw.
  destruct (ok_attended _ _ Hok g ep Hg) as [_ _ Hf _]; [done|].
  eapply mr_ok_set; [done| | |done].
  - apply vf_step, vote_frame_poison. reflexivity.
  - intros _. constructor; try done. intros _. right. unfold exhausted. cbn.
    rewrite (wf_poison _ Hw) in Hp. apply bool_decide_eq_false in Hp.
    by destruct (po_poison_reason (ep_poison ep)); [destruct Hp|].
Qed.

Lemma park_window_ok T now tgid tep x w y :
  mr_groups (sv_m x) !! tgid = Some tep → park_window now tgid tep x = Some (w, y) → evolves T x y.
Proof.
  intros Hg. unfold park_window. destruct (gst_stores tgid (sv_st x)) as [[log s]|]; [|done]. cbv zeta.
  intros [= <- <-]. case_bool_decide; [|case_bool_decide; [|reflexivity]].
  - pose proof (call_step (L := L) (S := S) _ _ (CallMergeSeal (S := S) tep now log)) as Hs.
    destruct (ensure_merge_seal now log tep) as [[[] log'] tep'] eqn:He; cbn [snd] in Hs.
    + apply evolves_same; cbn; [| |same_guards|done].
      * intros Hok. eapply mr_ok_call; [done| |done]. etrans; [exact Hs|].
        apply (call_step (L := L) (S := S)). constructor.
      * rewrite hosted_dirty. apply hosted_set. by eexists.
    + apply evolves_same; cbn; [|apply hosted_set; by eexists|same_guards|done]. intros Hok.
      apply ensure_merge_seal_false in He as [->|[-> Hp]]; [|by apply mr_ok_exhausted].
      eapply mr_ok_quiet; [done|reflexivity|done].
  - apply evolves_upd_quiet. intros. apply (quiet_latch (L := L) (S := S)).
Qed.

Lemma crossing_chunk_same es ep :
  ep_outputs (crossing_chunk es ep).2 = ep_outputs ep
  ∧ staged_forks (crossing_chunk es ep).2 = staged_forks ep.
Proof.
  revert ep. induction es as [|e es IH]; intros ep; cbn [crossing_chunk]; [done|].
  destruct (e_kind e); try apply IH.
  - destruct (decode_commit_merge_payload _); [|done]. by rewrite !(proj1 (IH _)), (proj2 (IH _)).
  - destruct (decode_thaw_discharged_payload _); [|done]. cbv zeta. rewrite (proj1 (IH _)), (proj2 (IH _)).
    by destruct (_ && _).
Qed.

Lemma crossing_loop_same n log last_ idx ep :
  ep_outputs (crossing_loop (L := L) n log last_ idx ep) = ep_outputs ep
  ∧ staged_forks (crossing_loop (L := L) n log last_ idx ep) = staged_forks ep.
Proof.
  revert idx ep. induction n as [|n IH]; intros idx ep; cbn [crossing_loop];
    (destruct (last_ <? idx); [done|]); [done|]. cbv zeta.
  destruct (log_entries _ _ _ _) as [[chunk|]|]; [|done|done].
  destruct (last chunk) as [e|]; [|done].
  pose proof (crossing_chunk_same chunk ep) as [Ho Hf]. destruct (crossing_chunk chunk ep) as [[] e1]; [|done].
  cbn [snd] in *. rewrite <- Ho, <- Hf.
  destruct (IH (counter_next (e_index e)) (e1 <| ep_merge ::= λ mg, mg <| mrg_crossing_scan_upto := e_index e |> |>))
    as [-> ->]. done.
Qed.

Lemma hushed_crossing_scan log ep : hushed ep (advance_crossing_scan (L := L) log ep).
Proof.
  assert (Hs : ep_step ep (advance_crossing_scan log ep)).
  { apply (call_step (L := L) (S := S)). constructor. }
  assert (Hsame : ep_outputs (advance_crossing_scan log ep) = ep_outputs ep
                  ∧ staged_forks (advance_crossing_scan log ep) = staged_forks ep).
  { unfold advance_crossing_scan. destruct (mrg_pending_apply _); [|done]. apply crossing_loop_same. }
  destruct Hsame as [Ho Hf].
  assert (Hp : is_poisoned (advance_crossing_scan log ep) = false → is_poisoned ep = false).
  { intros Hn. destruct (is_poisoned ep) eqn:Hpe; [|done]. rewrite <- Hn. symmetry.
    apply (vf_poison _ _ (local_call_frame (L := L) (S := S) _ _ (CallCrossingScan (S := S) ep log))). done. }
  constructor; [done| | |by rewrite Hf]; unfold speaks, reports; rewrite Ho;
    destruct (is_poisoned (advance_crossing_scan log ep)) eqn:Hpa; try done; by rewrite (Hp eq_refl).
Qed.

Lemma park_crossings_ok T tgid b x : evolves T x (park_crossings (L := L) (S := S) tgid b x).2.
Proof.
  unfold park_crossings. destruct (negb b); [reflexivity|]. cbv zeta.
  destruct (gst_stores tgid (sv_st x)) as [[log s]|].
  - set (m := upd_group tgid (advance_crossing_scan log) (sv_m x)).
    assert (Hd : hosted m = hosted (sv_m x)) by apply hosted_upd.
    rewrite bool_decide_true by done. cbn [andb].
    destruct (group_is m tgid is_poisoned) eqn:Hp.
    + apply evolves_same; cbn; [|by rewrite hosted_note|unfold m; same_guards|done]. intros. apply mr_ok_upd_hushed; [|done].
      intros. apply hushed_crossing_scan.
    + assert (Hq : mr_ok None (sv_m x) → mr_ok None m).
      { intros Hok. unfold m. destruct (mr_groups (sv_m x) !! tgid) as [ep|] eqn:Hg.
        - rewrite (upd_group_Some _ _ _ _ Hg). eapply mr_ok_quiet; [done| |done].
          split; [apply hushed_crossing_scan|]. intros Hpo. exfalso. revert Hp. unfold group_is, m.
          rewrite (upd_group_Some _ _ _ _ Hg). cbn. rewrite lookup_insert_eq. congruence.
        - by rewrite upd_group_None. }
      assert (Hl : guards_le (sv_m x) m) by (unfold m; same_guards). clearbody m. destruct (find_crossing m _) as [[] c]; cbn [snd].
      * apply evolves_same; cbn; [|by rewrite hosted_fail_stop|etrans; [exact Hl|same_guards]|done].
        intros. by apply fail_stop_ok, Hq.
      * by apply evolves_same.
  - rewrite bool_decide_false by (by intros [? ?]). cbn [andb].
    destruct (find_crossing (sv_m x) _) as [[] c]; cbn [snd].
    + apply evolves_same; cbn; [|by rewrite hosted_fail_stop|same_guards|done]. intros. by apply fail_stop_ok.
    + by apply evolves_same.
Qed.

Lemma park_signals_ok T tgid at_ b c x : evolves T x (on_m (park_signals tgid at_ b c) x).
Proof.
  unfold park_signals. cbv zeta. apply evolves_on.
  - intros Hok. apply mr_ok_upd_quiet.
    + intros. apply (quiet_note_unresolvable (L := L) (S := S)).
    + destruct c; [by apply note_merge_blocked_ok|done].
  - rewrite hosted_upd. destruct c; [apply hosted_blocked|done].
  - destruct c; same_guards.
Qed.

Lemma advance_source_ok T tgid source p x : evolves T x (advance_source (L := L) (S := S) tgid source p x).
Proof.
  unfold advance_source. cbv zeta. etrans; [apply (evolves_blocked T tgid source (pma_at p) SourceBehind)|].
  set (y := on_m _ x). clearbody y. clear x. destruct (gst_stores source (sv_st y)) as [[log s]|]; [|reflexivity].
  destruct (mr_groups (sv_m y) !! source) as [sep|] eqn:Hg; [|reflexivity].
  pose proof (call_step (L := L) (S := S) _ _
    (CallFreezeIdentity (S := S) sep (pma_freeze_index p) (pma_freeze_term p) log)) as Hs.
  assert (Hh : (advance_commit_on_freeze_identity (pma_freeze_index p) (pma_freeze_term p) log sep).1 = false →
    hushed sep (advance_commit_on_freeze_identity (pma_freeze_index p) (pma_freeze_term p) log sep).2).
  { unfold advance_commit_on_freeze_identity, read_log_term. repeat case_match; simplify_eq; try done;
      intros _; try reflexivity; cbn [snd]; by apply hushed_poison. }
  destruct (advance_commit_on_freeze_identity _ _ log sep) as [[] sep']; cbn [fst snd] in *.
  - apply evolves_same; cbn; [| |same_guards|done].
    + intros Hok. apply note_if_poisoned_ok. by eapply mr_ok_call.
    + rewrite hosted_note, hosted_dirty. apply hosted_set. by eexists.
  - apply evolves_same; cbn; [| |same_guards|done].
    + intros Hok. eapply mr_ok_hushed; [done|by apply Hh|done].
    + rewrite hosted_note. apply hosted_set. by eexists.
Qed.

(** ** A group taken down *)

(** The parks of [m'] are those of [m]. *)
Definition parks_kept m m' : Prop :=
  ∀ h ep', mr_groups m' !! h = Some ep' →
    ∃ ep, mr_groups m !! h = Some ep
          ∧ mrg_pending_apply (ep_merge ep') = mrg_pending_apply (ep_merge ep).

#[global] Instance parks_kept_refl : Reflexive parks_kept.
Proof. intros m h ep. eauto. Qed.
#[global] Instance parks_kept_trans : Transitive parks_kept.
Proof.
  intros m1 m2 m3 H12 H23 h ep Hh. destruct (H23 h ep Hh) as (e2 & H2 & ->).
  destruct (H12 h e2 H2) as (e1 & H1 & ->). eauto.
Qed.

Lemma parks_kept_upd g f m :
  (∀ ep, mrg_pending_apply (ep_merge (f ep)) = mrg_pending_apply (ep_merge ep)) →
  parks_kept m (upd_group g f m).
Proof.
  intros Hf h ep. unfold upd_group. cbn. rewrite lookup_alter_Some.
  intros [(-> & e & He & ->)|[_ He]]; eauto.
Qed.

Lemma owes_a_drivable_thaw_ok T source x :
  let m' := (owes_a_drivable_thaw source (sv_m x)).2 in
  evolves T x (x <| sv_m := m' |>) ∧ hosted m' = hosted (sv_m x) ∧ parks_kept (sv_m x) m'.
Proof.
  unfold owes_a_drivable_thaw. cbv zeta. generalize (from_option abandoned_obligations [] (mr_groups (sv_m x) !! source)).
  intros l. assert (Hgen : ∀ b m, (mr_ok None (sv_m x) → mr_ok None m) → hosted m = hosted (sv_m x) →
    guards_le (sv_m x) m → parks_kept (sv_m x) m →
    let m' := (foldl (λ '(drivable, m) '(owed, obligation),
      if am_discharged obligation then (true, m)
      else match decode_exact (T := G) owed with
           | Ok owed => (drivable || hosts m owed, m)
           | Err _ => (true, note_if_poisoned source (upd_group source (poison MergeDecode) m))
           end) (b, m) l).2 in
    (mr_ok None (sv_m x) → mr_ok None m') ∧ hosted m' = hosted (sv_m x)
    ∧ guards_le (sv_m x) m' ∧ parks_kept (sv_m x) m').
  { induction l as [|[k o] l IH]; intros b m Ho Hd Hl Hp; cbn [foldl]; [done|].
    destruct (am_discharged o); [by apply IH|]. destruct (decode_exact k); [by apply IH|].
    apply IH.
    - intros. by apply fail_stop_ok, Ho.
    - by rewrite hosted_note, hosted_upd.
    - etrans; [exact Hl|same_guards].
    - etrans; [exact Hp|]. intros h ep. rewrite note_if_poisoned_groups. revert h ep.
      apply parks_kept_upd. done. }
  destruct (Hgen false (sv_m x)) as (Ho & Hd & Hl & Hp); [done|done|reflexivity|reflexivity|].
  split_and!; [by apply evolves_same|done|done].
Qed.

Lemma abandon_parks g removed m m' :
  abandon_fork_this_removal_descends_from g removed m = Some m' → parks_kept m m'.
Proof.
  unfold abandon_fork_this_removal_descends_from. destruct removed as [ep|]; [|by intros [= ->]].
  destruct (is_poisoned ep); [by intros [= ->]|]. destruct (spl_fork_id _); [|by intros [= ->]].
  destruct (find_fork _ _ _) as [[[p fork] []]|]; [| |by intros [= ->]]; [|intros [= <-]; by apply parks_kept_upd].
  assert (Hq : ∀ m0, mr_groups (mark_forks p (unpark p (advance_relay_guard p (pf_parent_gen_after fork) m0)))
                     = mr_groups m0).
  { intros m0. destruct (mark_groups p (unpark p (advance_relay_guard p (pf_parent_gen_after fork) m0)))
      as (_ & _ & ->). rewrite unpark_groups. unfold advance_relay_guard. by repeat case_match. }
  unfold take_head_fork. destruct (mr_groups m !! p) as [e|] eqn:He.
  - destruct (pop_pending_fork e) as [[[[f' fsm]|] e']|] eqn:Hp; cbn [mbind option_bind]; [| |done];
      intros [= <-] h ep'; cbn; rewrite Hq; [|by eauto]. cbn.
    rewrite lookup_insert_Some. intros [[<- <-]|[_ ?]]; [|by eauto]. exists e. split; [done|].
    revert Hp. unfold pop_pending_fork. repeat case_match; naive_solver.
  - cbn. intros [= <-] h ep'. cbn. rewrite Hq. eauto.
Qed.

Lemma remove_inner_parks g m removed m' : remove_group_inner g m = Some (removed, m') → parks_kept m m'.
Proof.
  unfold remove_group_inner. cbv zeta.
  set (m1 := purge_signals g (unpark g m)).
  assert (H1 : parks_kept m m1).
  { intros h ep. unfold m1, purge_signals. cbn. rewrite unpark_groups. eauto. }
  set (m2 := m1 <| mr_groups ::= delete g |>).
  assert (H2 : parks_kept m1 m2). { intros h ep. unfold m2. cbn. rewrite lookup_delete_Some. naive_solver. }
  match goal with |- context [if ?c then ?a else m2] => set (m3 := if c then a else m2) end.
  assert (H3 : parks_kept m2 m3).
  { unfold m3. destruct (_ && _); [|reflexivity]. intros h ep. cbn. rewrite lookup_fmap_Some.
    intros (e & <- & He). eauto. }
  assert (Hm3 : parks_kept m m3) by (etrans; [|exact H3]; by etrans). clearbody m3. clear H1 H2 H3.
  destruct (abandon_fork_this_removal_descends_from _ _ m3) as [m4|] eqn:Ha; [|done].
  cbn [mbind option_bind]. intros [= _ <-]. etrans; [exact Hm3|by eapply abandon_parks].
Qed.

Lemma abandon_guards g removed m m' :
  abandon_fork_this_removal_descends_from g removed m = Some m' → guards_le m m'.
Proof.
  unfold abandon_fork_this_removal_descends_from. destruct removed as [ep|]; [|by intros [= ->]].
  destruct (is_poisoned ep); [by intros [= ->]|]. destruct (spl_fork_id _); [|by intros [= ->]].
  destruct (find_fork _ _ _) as [[[p fork] []]|]; [|intros [= <-]; same_guards|by intros [= ->]].
  destruct (take_head_fork p m) as [[r m1]|] eqn:Ht; [|done]. cbn [mbind option_bind]. intros [= <-].
  assert (H1 : guards_le m m1).
  { revert Ht. unfold take_head_fork. repeat case_match; intros; simplify_eq; same_guards. }
  etrans; [exact H1|]. etrans; [apply (advance_relay_guard_guards p (pf_parent_gen_after fork))|]. same_guards.
Qed.

Lemma remove_inner_guards g m removed m' : remove_group_inner g m = Some (removed, m') → guards_le m m'.
Proof.
  unfold remove_group_inner. cbv zeta. match goal with |- context [if ?c then _ else _] => destruct c end;
    (destruct (abandon_fork_this_removal_descends_from _ _ _) as [m4|] eqn:Ha; [|done]);
    cbn [mbind option_bind]; intros [= _ <-]; apply abandon_guards in Ha; (etrans; [|exact Ha]); same_guards.
Qed.
End service.
