(* ===== verification/MultiCrank.v ===== *)
(** * The crank of the merge service

    The absorb of a parked commit, the husks, the thaws of aborted merges and
    the owed captures, as steps that return and evolve
    ([MultiService.evolves]); their composition is [service_ok].  The section
    [reports] says of each resolution what the state it is reported in shows
    ([justified]), and that this is so at the end of the step that reports it
    ([service_justified]). *)

From S2P Require Import Prelude Bytes Num Quorum Progress ProgressMap Conf Tracker ConfChange.
From S2P Require Import ConfChangeProps Config Lease Prng ReadOnly Data Frame Entry Storage Shape.
From S2P Require Import EngineStable Restart Forwarded Wire Message Codec Endpoint Merge.
From S2P Require Import Invariant Persistence Replication Election Propose Handlers Commit Apply.
From S2P Require Import Boot Reads Snapshot Append Drive VoteFrame Frames ApplyFrame HandlerFrame.
From S2P Require Import Vote BootFrame SnapshotFrame VoteDrive Multi MultiRemove MultiFork.
From S2P Require Import MultiRelay MultiVerbs MultiMerge MultiInv MultiSteps MultiForkSteps.
From S2P Require Import MultiService.

Section service.
Context {G I F R L S St : Type} `{!NodeId G, !NodeId I, !StateMachine F, !Rng R}.
Context `{!LogStore L, !StableStore I S, !StableWriteLaws I S, !GroupStores G L S St, !FloorStore G St}.
Context {DG : Data G} {DI : Data I} {BS : BuffaSizes} {DC : Data sm_command} {DS : Data sm_snapshot}.
Context {BD : BuffaDecode} {BE : BuffaEncode} {BC : Buffa PbConfChangeV2}.
Abbreviation Endpoint := (Endpoint I F R).
Abbreviation MultiRaft := (MultiRaft G I F R).
Context {Q : gset G}.
Abbreviation mr_ok := (mr_ok (Q := Q)).
Abbreviation Svc := (Svc G I F R St).
Abbreviation evolves := (evolves (Q := Q)).
Abbreviation mid := (mid (Q := Q)).
Abbreviation returns := (returns (Q := Q) (I := I) (F := F) (R := R) (St := St)).
Implicit Types (m : MultiRaft) (ep sep tep : Endpoint) (x y : Svc) (now : Now) (g tgid source : G).
Implicit Types (r : MergeResolution G).


(** ** The absorb *)

(** A group the steps from [x] to [y] report as merged away. *)
Definition names x y g : Prop :=
  ∃ new r, sv_res y = sv_res x ++ new ∧ r ∈ new ∧ res_source r = Some g.

Lemma names_resolved x r g : res_source r = Some g → names x (resolved r x) g.
Proof. exists [r], r. split_and!; [done|by left|done]. Qed.

Lemma names_before T x y z g : evolves T x y → names y z g → names x z g.
Proof.
  intros [_ _ _ (n & Hr & _)] (n' & r & Hr' & Hin & Hs). exists (n ++ n'), r.
  rewrite Hr', Hr, app_assoc. set_solver.
Qed.

Lemma names_after T x y z g : names x y g → evolves T y z → names x z g.
Proof.
  intros (n & r & Hr & Hin & Hs) [_ _ _ (n' & Hr' & _)]. exists (n ++ n'), r.
  rewrite Hr', Hr, app_assoc. set_solver.
Qed.

(** The removal of one group, and what reports it. *)
Lemma evolves_removed T s x m' z :
  (mr_ok None (sv_m x) → mr_ok None m') → hosted m' = hosted (sv_m x) ∖ {[ s ]} → guards_le (sv_m x) m' →
  evolves T (x <| sv_m := m' |>) z → (T s → s ∈ hosted (sv_m x) → names (x <| sv_m := m' |>) z s) →
  evolves T x z.
Proof.
  intros Ho Hd Hl [Ho' Hd' Hl' (new & Hr & Ht & Hg)] Hn. cbn in *.
  constructor; [auto|set_solver|by etrans|].
  exists new. split_and!; [done| |done]. intros g HT Hx Hz. destruct (decide (g = s)) as [->|Hne].
  - destruct (Hn HT Hx) as (new' & r & Hr' & ? & ?). cbn in Hr'. rewrite Hr' in Hr.
    apply app_inv_head in Hr as ->. eauto.
  - apply Ht; [done|set_solver|done].
Qed.

Lemma evolves_stop_dirty T g why x : evolves T x (on_m (λ m, mark_dirty g (fail_stop g why m)) x).
Proof. etrans; [|exact (evolves_dirty T g (on_m (fail_stop g why) x))]. apply evolves_fail_stop. Qed.

Lemma evolves_priors T t l x : evolves T x (foldl (λ x prior, resolved (ResMerged prior t) x) x l).
Proof. apply evolves_foldl. intros. by apply evolves_resolved. Qed.

Lemma mark_dirty_events g m : g ∈ mr_dirty_events_set (mark_dirty g m).
Proof.
  unfold mark_dirty. set (m1 := mark_events g (mark_msgs g m)).
  assert (H1 : g ∈ mr_dirty_events_set m1). { unfold m1, mark_events. case_decide; [done|]. cbn. set_solver. }
  unfold note_if_poisoned, mark_forks. repeat case_match; done.
Qed.

(** The event raised right behind the marks is attended by them. *)
Lemma emit_marked g d m : mr_ok None (mark_dirty g m) → mr_ok None (upd_group g (emit_merged d) (mark_dirty g m)).
Proof.
  intros Hok. destruct (mr_groups (mark_dirty g m) !! g) as [ep|] eqn:Hg; [|by rewrite upd_group_None].
  rewrite (upd_group_Some _ _ _ _ Hg). pose proof (mark_dirty_attends g m ep Hg) as [Hm _ Hf Hp].
  eapply mr_ok_set; [done| | |done].
  - apply (call_step (L := L) (S := S)). constructor.
  - intros _. constructor; [exact Hm| |exact Hf|exact Hp].
    intros _. apply mark_dirty_events.
Qed.

Lemma absorb_failed_ok T tgid source debts x :
  evolves T x (absorb_failed tgid source debts x) ∧ names x (absorb_failed tgid source debts x) source.
Proof.
  unfold absorb_failed. set (y := on_m _ x). assert (Hy : evolves T x y).
  { apply evolves_on; [|by rewrite hosted_note, hosted_upd|same_guards]. intros.
    apply note_if_poisoned_ok, mr_ok_upd_quiet; [|done]. intros. apply (quiet_pin_failed_capture (L := L) (S := S)). }
  split; [etrans; [exact Hy|by apply evolves_resolved]|].
  eapply names_before; [exact Hy|by apply names_resolved].
Qed.

Lemma absorb_now_ok T tgid source inherited debts merged x y :
  mid tgid x y →
  evolves T x (absorb_now (L := L) (S := S) tgid source inherited debts merged y)
  ∧ names x (absorb_now (L := L) (S := S) tgid source inherited debts merged y) source.
Proof.
  intros Hxy. unfold absorb_now. pose proof (mid_stage_capture (Q := Q) (L := L) (S := S) tgid y) as Hm.
  destruct (stage_capture tgid y) as [[] y1]; cbn [snd] in Hm.
  - assert (Hz : evolves T x (match merged with Some d => on_m (upd_group tgid (emit_merged d))
                                (on_m (mark_dirty tgid) y1) | None => on_m (mark_dirty tgid) y1 end)).
    { etrans; [apply evolves_mid; by etrans|]. destruct merged; [|reflexivity].
      apply evolves_on; [apply emit_marked|apply hosted_upd|same_guards]. }
    cbv zeta. set (z := match merged with Some _ => _ | None => _ end) in *. clearbody z.
    split; [etrans; [exact Hz|]; etrans; [|apply evolves_priors]; by apply evolves_resolved|].
    eapply names_before; [exact Hz|]. eapply names_after; [|apply (evolves_priors T)]. by apply names_resolved.
  - destruct (absorb_failed_ok T tgid source debts (on_m (mark_dirty tgid) y1)) as [He Hn].
    assert (Hz : evolves T x (on_m (mark_dirty tgid) y1)) by (apply evolves_mid; by etrans).
    split; [by etrans|by eapply names_before].
Qed.

(** [source] is down; the target reports it, parked as it was. *)
Lemma absorb_source_ok T tgid source block inherited sep x :
  source ∉ hosted (sv_m x) →
  (∀ tep, mr_groups (sv_m x) !! tgid = Some tep → block = AcbDefer →
          is_Some (mrg_pending_apply (ep_merge tep))) →
  let y := absorb_source (L := L) (S := S) tgid source block inherited sep x in
  evolves T x y ∧ (tgid ∈ hosted (sv_m x) → names x y source).
Proof.
  intros Hs Hb. unfold absorb_source. destruct (take_capture_debts sep) as [debts sep'].
  destruct (mr_groups (sv_m x) !! tgid) as [tep|] eqn:Hg.
  2: { split; [reflexivity|]. intros [? ?]%hosted_elem. congruence. }
  pose proof (call_step (L := L) (S := S) _ _ (CallResolveMerge (L := L) (S := S) tep (ep_fsm sep'))) as Hst.
  assert (Hd : block = AcbDefer → is_poisoned (resolve_pending_merge (ep_fsm sep') tep).2 = false →
               is_Some (resolve_pending_merge (ep_fsm sep') tep).1).
  { intros Hbl. destruct (Hb tep eq_refl Hbl) as [p Hp]. unfold resolve_pending_merge. rewrite Hp. cbv zeta.
    by destruct (sm_absorb _ _) as [[] ?]; [eexists|]. }
  destruct (resolve_pending_merge (ep_fsm sep') tep) as [merged tep']. cbn [fst snd] in *. cbv zeta.
  assert (Hm : mid tgid x (on_m (set_group tgid tep') x)) by by eapply mid_set.
  set (y := on_m _ x) in *. clearbody y. destruct (is_poisoned tep').
  - set (z := on_m _ y). assert (Hz : evolves T x z).
    { pose (pinned := on_m (upd_group tgid (pin_failed_capture (recovery_pin_keys source debts))) y).
      etrans; [|exact (evolves_note T tgid (on_m (mark_dirty tgid) pinned))].
      apply evolves_mid. etrans; [exact Hm|]. apply mid_upd. intros. apply (quiet_pin_failed_capture (L := L) (S := S)). }
    split; [etrans; [exact Hz|by apply evolves_resolved]|].
    intros _. eapply names_before; [exact Hz|by apply names_resolved].
  - case_bool_decide as Hdef; [|by edestruct absorb_now_ok; eauto].
    destruct (Hd Hdef eq_refl) as [d ->]. set (z := on_m _ y). assert (Hz : evolves T x z).
    { apply (evolves_mid T tgid x (on_m (upd_group tgid _) y)). etrans; [exact Hm|]. apply mid_upd. intros ep.
      etrans; apply (call_step (L := L) (S := S)); constructor. }
    split; [etrans; [exact Hz|apply evolves_resolved]|].
    + intros g [= <-] Hin. apply Hs. by apply (ev_dom _ _ _ Hz).
    + intros _. eapply names_before; [exact Hz|by apply names_resolved].
Qed.

Lemma park_resolve_ok (T : G → Prop) tgid source at_ :
  (∀ g, T g → g ≠ tgid) → returns T (park_resolve (L := L) (S := S) tgid source at_).
Proof.
  intros HT x Hx. unfold park_resolve. destruct (mr_groups (sv_m x) !! tgid) as [tep|] eqn:Hg; [|by exists x].
  case_bool_decide; [eexists; split; [reflexivity|]; case_bool_decide; [apply evolves_blocked|reflexivity]|].
  destruct (owes_a_drivable_thaw_ok (Q := Q) T source x) as (He & Hd & Hp).
  destruct (owes_a_drivable_thaw source (sv_m x)) as [dr m']. cbn [snd] in *.
  set (x1 := x <| sv_m := m' |>) in *. pose proof (ev_ok _ _ _ He Hx) as Hx1. cbn [sv_m x1] in Hx1.
  destruct dr; [by exists x1|].
  destruct (group_is m' source _); [eexists; split; [reflexivity|]; etrans; [exact He|apply evolves_blocked]|].
  destruct (decode_chain _) as [inherited|].
  2: { eexists. split; [reflexivity|]. etrans; [exact He|apply evolves_stop_dirty]. }
  destruct (remove_group_inner_ok source m' Hx1) as (m2 & Hrm & Hok2 & Hd2). rewrite Hrm.
  cbn [mbind option_bind]. eexists. split; [reflexivity|]. etrans; [exact He|].
  assert (Hgone : source ∉ hosted m2) by (unfold hosted; rewrite Hd2; set_solver).
  assert (Hpend : ∀ tep', mr_groups m2 !! tgid = Some tep' → absorb_capture_block tep = AcbDefer →
                  is_Some (mrg_pending_apply (ep_merge tep'))).
  { intros tep' Ht' Hbl. destruct (remove_inner_parks _ _ _ _ Hrm _ _ Ht') as (t1 & Ht1 & ->).
    destruct (Hp _ _ Ht1) as (t0 & Ht0 & ->). assert (t0 = tep) as -> by congruence. revert Hbl.
    unfold absorb_capture_block. by destruct (mrg_pending_apply _). }
  apply (evolves_removed T source x1 m2); [by intros _|done|by eapply remove_inner_guards| |].
  - destruct (mr_groups m' !! source); [|reflexivity]. by apply absorb_source_ok.
  - intros Ts [sep Hsep]%hosted_elem. cbn in Hsep. rewrite Hsep. apply (absorb_source_ok T); [done|done|].
    cbn. unfold hosted. rewrite Hd2. pose proof (HT source Ts). unfold hosted in Hd. rewrite Hd.
    assert (tgid ∈ dom (mr_groups (sv_m x))) by (apply elem_of_dom; by eexists). set_solver.
Qed.

Lemma park_step_ok (T : G → Prop) now tgid :
  (∀ g, T g → g ≠ tgid) → returns T (park_step (L := L) (S := S) now tgid).
Proof.
  intros HT x Hx. unfold park_step. destruct (mr_groups (sv_m x) !! tgid) as [tep|] eqn:Hg; [|by exists x].
  destruct (mrg_pending_apply _) as [p|]; [|by exists x].
  destruct (decode_exact _) as [source|]; [|eexists; split; [reflexivity|apply evolves_fail_stop]].
  destruct (park_window now tgid tep x) as [[w y]|] eqn:Hw; [|by exists x].
  pose proof (park_window_ok (Q := Q) T _ _ _ _ _ _ Hg Hw) as Hy.
  destruct (park_verdict w tgid source (pma_source_gen_after p) y) as [verdict unresolvable].
  pose proof (park_crossings_ok (Q := Q) (L := L) (S := S) T tgid unresolvable y) as Hc.
  destruct (park_crossings tgid unresolvable y) as [[crossing|] z]; cbn [snd] in Hc.
  2: { exists z. split; [done|by etrans]. }
  cbv zeta. set (u := on_m (park_signals tgid (pma_at p) unresolvable crossing) z).
  assert (Hu : evolves T x u) by (etrans; [exact Hy|etrans; [exact Hc|apply park_signals_ok]]).
  clearbody u. destruct verdict.
  - destruct (park_resolve_ok T tgid source (pma_at p) HT u) as (v & -> & Hv); [by apply Hu|].
    exists v. split; [done|by etrans].
  - eexists. split; [reflexivity|]. etrans; [exact Hu|]. etrans; [|by apply evolves_resolved].
    apply evolves_upd_dirty. intros. apply (call_step (L := L) (S := S)). constructor.
  - eexists. split; [reflexivity|]. etrans; [exact Hu|]. destruct (_ && _); [apply evolves_blocked|reflexivity].
  - eexists. split; [reflexivity|]. etrans; [exact Hu|apply advance_source_ok].
Qed.

(** ** Aborted merges and dead targets *)

Lemma propose_thaw_hosts source now n ep log m :
  mr_groups m !! source = Some ep →
  let m' := (propose_thaw (L := L) source now n ep log m).2 in hosted m' = hosted m ∧ guards_le m m'.
Proof.
  intros Hg. unfold propose_thaw. destruct (thaw_in_flight ep); [done|].
  destruct (next_lineage n); [|done]. cbv zeta. destruct (propose_merge_entry _ _ _ _ _) as [[r l] e].
  cbn [snd]. split; [|same_guards]. rewrite hosted_dirty. apply hosted_set. by eexists.
Qed.

Lemma witness_thaw_ok T now tgid k n x : evolves T x (witness_thaw (L := L) (S := S) now tgid k n x).
Proof.
  unfold witness_thaw. destruct (group_is _ _ _); [|reflexivity].
  destruct (gst_stores tgid (sv_st x)) as [[log s]|]; [|reflexivity].
  pose proof (propose_thaw_witness_ok (Q := Q) (S := S) tgid k n now log (sv_m x)) as Ho.
  assert (Hd : let m' := (propose_thaw_witness tgid k n now log (sv_m x)).2 in
    hosted m' = hosted (sv_m x) ∧ guards_le (sv_m x) m').
  { unfold propose_thaw_witness. destruct (mr_groups (sv_m x) !! tgid) as [ep|] eqn:Hg; [|done].
    destruct (witness_in_flight ep); [done|]. cbv zeta. destruct (propose_merge_entry _ _ _ _ _) as [[r l] e].
    cbn [snd]. split; [|same_guards]. rewrite hosted_dirty. apply hosted_set. by eexists. }
  destruct (propose_thaw_witness tgid k n now log (sv_m x)) as [[r l] m']. destruct Hd. by apply evolves_same.
Qed.

Lemma thaw_source_ok T now tgid source n x : evolves T x (thaw_source (L := L) (S := S) now tgid source n x).
Proof.
  unfold thaw_source. destruct (gst_stores source (sv_st x)) as [[log s]|]; [|reflexivity].
  pose proof (propose_merge_unfreeze_ok (Q := Q) (S := S) source now tgid n log (sv_m x)) as Ho.
  assert (Hd : let m' := (propose_merge_unfreeze source now tgid n log (sv_m x)).2 in
    hosted m' = hosted (sv_m x) ∧ guards_le (sv_m x) m').
  { unfold propose_merge_unfreeze. destruct (mr_groups (sv_m x) !! source) as [ep|] eqn:Hg; [|done]. cbv zeta.
    repeat (case_match; [done|]). by apply propose_thaw_hosts. }
  destruct (propose_merge_unfreeze source now tgid n log (sv_m x)) as [[r l] m']. destruct Hd. by apply evolves_same.
Qed.

Lemma obligation_step_ok T now tgid source k o x :
  evolves T x (obligation_step (L := L) (S := S) now tgid source k o x).
Proof.
  unfold obligation_step. destruct (thaw_proof _ _ _ _ _) as [retired global]. cbv zeta.
  destruct (global || _).
  - etrans; [|apply witness_thaw_ok]. destruct (am_discharged o); [reflexivity|].
    apply evolves_upd_quiet. intros. apply (quiet_note_discharged (L := L) (S := S)).
  - destruct (am_discharged o); [reflexivity|]. destruct retired; [|apply thaw_source_ok].
    apply evolves_upd_quiet. intros. apply (quiet_clear_abandoned (L := L) (S := S)).
Qed.

Lemma obligations_loop_ok T now tgid l x : evolves T x (obligations_loop (L := L) (S := S) now tgid l x).
Proof.
  revert x. induction l as [|[k o] l IH]; intros x; cbn [obligations_loop]; [reflexivity|].
  destruct (decode_exact k); [|apply evolves_fail_stop]. etrans; [apply obligation_step_ok|apply IH].
Qed.

Lemma abandoned_pass_ok T now x : evolves T x (abandoned_pass (L := L) (S := S) now x).
Proof.
  apply evolves_foldl. intros y g. destruct (mr_groups _ !! g); [apply obligations_loop_ok|reflexivity].
Qed.

Lemma dead_target_step_ok T now g x : evolves T x (dead_target_step (L := L) (S := S) now g x).
Proof.
  unfold dead_target_step. destruct (mr_groups _ !! g) as [sep|] eqn:Hg; [|reflexivity].
  destruct (mrg_frozen_for _) as [claim|]; [|reflexivity].
  destruct (decode_exact claim) as [target|]; [|apply evolves_fail_stop].
  destruct (hosts _ target); [reflexivity|]. destruct (negb _); [reflexivity|].
  destruct (gst_stores g (sv_st x)) as [[log s]|]; [|reflexivity].
  pose proof (propose_dead_target_thaw_ok (Q := Q) (S := S) g now target log (sv_m x)) as Ho.
  assert (Hd : let m' := (propose_dead_target_thaw g now target log (sv_m x)).2 in
    hosted m' = hosted (sv_m x) ∧ guards_le (sv_m x) m').
  { unfold propose_dead_target_thaw. rewrite Hg. cbv zeta.
    repeat (case_match; [done|]). by apply propose_thaw_hosts. }
  destruct (propose_dead_target_thaw g now target log (sv_m x)) as [[r l] m']. destruct Hd. by apply evolves_same.
Qed.

(** ** Husks *)

Lemma husk_step_ok T named g : returns T (husk_step named g).
Proof.
  intros x Hx. unfold husk_step. case_bool_decide; [by exists x|].
  destruct (owes_a_drivable_thaw_ok (Q := Q) T g x) as (He & Hd & _).
  destruct (owes_a_drivable_thaw g (sv_m x)) as [dr m']. cbn [snd] in *.
  set (x1 := x <| sv_m := m' |>) in *. pose proof (ev_ok _ _ _ He Hx) as Hx1. cbn [sv_m x1] in Hx1.
  destruct dr; [by exists x1|]. destruct (group_is m' g _); [by exists x1|].
  destruct (decode_chain _) as [inherited|].
  2: { eexists. split; [reflexivity|]. etrans; [exact He|apply evolves_stop_dirty]. }
  destruct (remove_group_inner_ok g m' Hx1) as (m2 & Hrm & Hok2 & Hd2). rewrite Hrm.
  cbn [mbind option_bind]. eexists. split; [reflexivity|]. etrans; [exact He|].
  set (x2 := x1 <| sv_m := m2 |>).
  set (z := foldl _ (on_m (mark_dirty g) x2) inherited).
  assert (Hz : evolves T x2 z) by (etrans; [apply (evolves_dirty T g)|apply evolves_priors]).
  assert (Hgone : g ∉ hosted (sv_m z)).
  { intros Hin. apply (ev_dom _ _ _ Hz) in Hin. cbn in Hin. unfold hosted in Hin. rewrite Hd2 in Hin. set_solver. }
  apply (evolves_removed T g x1 m2); [by intros _|done|by eapply remove_inner_guards| |].
  - destruct (mr_groups m' !! g); [|reflexivity]. etrans; [exact Hz|]. apply evolves_resolved. by intros ? [= <-].
  - intros _ [sep Hsep]%hosted_elem. cbn in Hsep. rewrite Hsep.
    eapply names_before; [exact Hz|by apply names_resolved].
Qed.

Lemma husk_pass_ok T : returns T husk_pass.
Proof. intros x Hx. unfold husk_pass. apply returns_for_each; [|done]. intros. apply husk_step_ok. Qed.

(** ** Owed captures *)

Lemma inherited_loop_ok T tgid l x : evolves T x (inherited_loop tgid l x).
Proof.
  revert x. induction l as [|d l IH]; intros x; cbn [inherited_loop]; [reflexivity|].
  destruct (decode_exact _); [|apply evolves_fail_stop]. etrans; [|apply IH]. by apply evolves_resolved.
Qed.

Lemma discharge_debt_ok T tgid source x y :
  mid tgid x y → evolves T x (discharge_debt tgid source y).
Proof.
  intros Hxy. unfold discharge_debt.
  assert (Hgo : ∀ tep tep', mr_groups (sv_m y) !! tgid = Some tep → ep_step tep tep' → ∀ l,
    evolves T x (inherited_loop tgid l
      (resolved (ResMerged source tgid) (y <| sv_m := mark_dirty tgid (set_group tgid tep' (sv_m y)) |>)))).
  { intros tep tep' Hg Hs l. etrans; [|apply inherited_loop_ok]. etrans; [|by apply evolves_resolved].
    apply (evolves_mid T tgid x (on_m (set_group tgid tep') y)). etrans; [exact Hxy|]. by eapply mid_set. }
  destruct (mr_groups (sv_m y) !! tgid) as [tep|] eqn:Hg.
  - pose proof (call_step (L := L) (S := S) _ _ (CallDischargeDebt (L := L) (S := S) tep)) as Hs.
    destruct (discharge_capture_debt tep) as [[d|] tep']; cbn [snd] in Hs; [|by eapply Hgo].
    pose proof (call_step (L := L) (S := S) _ _ (CallTakeInherited (L := L) (S := S) (emit_merged d tep'))) as Hi.
    destruct (take_inherited_debts _) as [l tep2]. cbn [snd] in Hi. eapply Hgo; [done|].
    etrans; [exact Hs|]. etrans; [|exact Hi]. apply (call_step (L := L) (S := S)). constructor.
  - cbn [inherited_loop]. etrans; [|by apply evolves_resolved].
    exact (evolves_mid T tgid x y Hxy).
Qed.

Lemma debtor_step_ok T g x : evolves T x (debtor_step (L := L) (S := S) g x).
Proof.
  unfold debtor_step. destruct (mr_groups _ !! g) as [tep|]; [|reflexivity].
  destruct (mrg_capture_debt _) as [debt|]; [|reflexivity].
  destruct (decode_exact _) as [source|]; [|apply evolves_fail_stop].
  destruct (capture_settled _ _ _ _); [by apply discharge_debt_ok|]. cbv zeta.
  destruct (capture_blocked_at _ _).
  - destruct (capture_fence_at _ _); [|reflexivity].
    destruct (fence_signal _ _ _) as [cause [named|]]; [apply evolves_blocked|reflexivity].
  - pose proof (mid_stage_capture (Q := Q) (L := L) (S := S) g x) as Hm.
    destruct (stage_capture g x) as [[] y]; cbn [snd] in Hm; [by apply discharge_debt_ok|].
    etrans; [|by apply evolves_resolved]. apply (evolves_mid T g x (on_m (note_if_poisoned g) y)).
    etrans; [exact Hm|]. constructor; [apply note_if_poisoned_ok|apply hosted_note|same_guards|done].
Qed.

Lemma adopt_step_ok T g x : evolves T x (adopt_step (L := L) (S := S) g x).
Proof.
  assert (Hclear : ∀ ep : Endpoint, quiet ep (clear_adopt_capture_owed ep)).
  { intros. apply (quiet_clear_adopt_owed (L := L) (S := S)). }
  unfold adopt_step. destruct (mr_groups _ !! g) as [ep|]; [|reflexivity].
  destruct (capture_settled _ _ _ _); [by apply evolves_upd_quiet|].
  destruct (capture_blocked_at _ _).
  - unfold adopt_blocked. case_decide; [reflexivity|]. destruct (adopt_capture_debt ep) as [[own b]|]; [|reflexivity].
    destruct (capture_fence_at _ _); [|reflexivity].
    destruct (fence_signal _ _ _) as [cause [named|]]; [apply evolves_blocked|reflexivity].
  - pose proof (mid_stage_capture (Q := Q) (L := L) (S := S) g x) as Hm.
    destruct (stage_capture g x) as [[] y]; cbn [snd] in Hm.
    + apply (evolves_mid T g x (on_m (upd_group g clear_adopt_capture_owed) y)). etrans; [exact Hm|].
      apply mid_upd. intros. apply Hclear.
    + apply (evolves_mid T g x (on_m (note_if_poisoned g) y)). etrans; [exact Hm|].
      constructor; [apply note_if_poisoned_ok|apply hosted_note|same_guards|done].
Qed.

(** ** The whole crank *)

(** A group with no commit parked of its own. *)
Definition unparked m g : Prop := ∃ ep, mr_groups m !! g = Some ep ∧ mrg_pending_apply (ep_merge ep) = None.

Lemma parked_pass_ok now x :
  mr_ok None (sv_m x) →
  ∃ y, parked_pass (L := L) (S := S) now x = Some y ∧ evolves (unparked (sv_m x)) x y.
Proof.
  intros Hx. apply returns_for_each; [|done]. intros tgid Hin. apply park_step_ok.
  intros g (ep & Hg & Hnone) ->. unfold parked_groups, groups_where in Hin.
  apply list_elem_of_fmap in Hin as ((k & e) & -> & Hf). apply list_elem_of_filter in Hf as [Hp Hi].
  cbn in Hp. apply bool_decide_eq_true in Hp. apply btree_map_iter_elem in Hi. cbn in Hg.
  rewrite Hg in Hi. injection Hi as ->. rewrite Hnone in Hp. by destruct Hp.
Qed.

Lemma service_ok now (st : St) m :
  mr_ok None m →
  ∃ res st' m', service_merge_applies (L := L) (S := S) now st m = Some (res, st', m')
    ∧ mr_ok None m' ∧ hosted m' ⊆ hosted m ∧ guards_le m m'
    ∧ (∀ g, unparked m g → g ∉ hosted m' → ∃ r, r ∈ res ∧ res_source r = Some g)
    ∧ (∀ r g, r ∈ res → res_gone r = Some g → g ∉ hosted m').
Proof.
  intros Hok. unfold service_merge_applies. set (x0 := {| sv_m := m; sv_st := st; sv_res := [] |}).
  destruct (parked_pass_ok now x0 Hok) as (x1 & -> & H1). cbn [mbind option_bind sv_m x0] in *.
  set (T := unparked m) in *. pose proof (abandoned_pass_ok T now x1) as H2.
  set (x2 := abandoned_pass now x1) in *.
  destruct (husk_pass_ok T x2) as (x3 & -> & H3); [by apply H2, H1|]. cbn [mbind option_bind].
  set (x4 := adopt_pass _). assert (H4 : evolves T x3 x4).
  { unfold x4, adopt_pass, debtor_pass, dead_target_pass.
    etrans; [apply (evolves_foldl T (λ x sgid, dead_target_step now sgid x)); intros; apply dead_target_step_ok|].
    etrans; [apply (evolves_foldl T (λ x tgid, debtor_step tgid x)); intros; apply debtor_step_ok|].
    apply (evolves_foldl T (λ x gid, adopt_step gid x)). intros. apply adopt_step_ok. }
  clearbody x4. assert (He : evolves T x0 x4) by (etrans; [exact H1|etrans; [exact H2|by etrans]]).
  destruct He as [Ho Hd Hl (new & Hr & Ht & Hg)]. cbn [sv_res x0 app] in Hr. subst new.
  exists (sv_res x4), (sv_st x4), (close_blocked (sv_m x4)). split_and!; [done|by apply close_blocked_ok, Ho|done|exact Hl| |done].
  intros g HT Hgone. apply Ht; [done| |done]. destruct HT as (ep & He & _). apply hosted_elem. by eexists.
Qed.
End service.

(** * What a report stands on

    Each resolution the service reports is justified in the container and the stores
    as they are when the step that reports it ends. *)

Section reports.
Context {G I F R L S St : Type} `{!NodeId G, !NodeId I, !StateMachine F, !Rng R}.
Context `{!LogStore L, !StableStore I S, !GroupStores G L S St, !FloorStore G St}.
Context {DG : Data G} {DI : Data I} {BS : BuffaSizes} {DC : Data sm_command} {DS : Data sm_snapshot}.
Context {BD : BuffaDecode} {BE : BuffaEncode} {BC : Buffa PbConfChangeV2}.
Abbreviation Endpoint := (Endpoint I F R).
Abbreviation MultiRaft := (MultiRaft G I F R).
Abbreviation Svc := (Svc G I F R St).
Implicit Types (m : MultiRaft) (ep sep tep : Endpoint) (x y : Svc) (now : Now) (g tgid source : G).
Implicit Types (r : MergeResolution G) (d : Merged).

(** The endpoint still speaks for the source: its id is pinned for recovery, or a
    capture owed names it. *)
Definition speaks_for ep source : Prop :=
  group_key source ∈ mrg_recovery_pins (ep_merge ep)
  ∨ ∃ d, d ∈ capture_debt_chain ep ∧ decode_exact (mg_source d) = Ok source.

(** A merge is announced, and a capture at or past it, or of all the target has
    applied, is staged or durable. *)
Definition captured x tgid : Prop :=
  ∃ tep d, mr_groups (sv_m x) !! tgid = Some tep ∧ EvMerged d ∈ ou_events (ep_outputs tep)
    ∧ (capture_settled (L := L) (S := S) tgid (mg_index d) tep (sv_st x) = true
       ∨ capture_settled (L := L) (S := S) tgid (ep_applied tep) tep (sv_st x) = true).

(** The group is retired at the terminal floor. *)
Definition retired x g : Prop := mr_groups (sv_m x) !! g = None ∧ fs_floor (sv_st x) g = MERGED_FLOOR.

Definition justified x r : Prop :=
  match r with
  | ResMerged source tgid => captured x tgid ∨ retired x tgid
  | ResAbsorbed source tgid =>
      ∃ tep d, mr_groups (sv_m x) !! tgid = Some tep ∧ is_poisoned tep = false
        ∧ mrg_capture_debt (ep_merge tep) = Some d ∧ decode_exact (mg_source d) = Ok source
  | ResAborted source tgid =>
      ∀ tep, mr_groups (sv_m x) !! tgid = Some tep → mrg_pending_apply (ep_merge tep) = None
  | ResRetired source => retired x source
  | ResCaptureFailed source tgid =>
      ∃ tep, mr_groups (sv_m x) !! tgid = Some tep ∧ is_poisoned tep = true ∧ speaks_for tep source
  end.

(** The step from [x] to [y] reports nothing that is not justified in [y]. *)
Definition reports x y : Prop := ∃ new, sv_res y = sv_res x ++ new ∧ ∀ r, r ∈ new → justified y r.

Lemma reports_none x y : sv_res y = sv_res x → reports x y.
Proof. intros Hr. exists []. rewrite app_nil_r. split; [done|]. by intros ? ?%elem_of_nil. Qed.

Lemma reports_one x y r : sv_res y = sv_res x → justified (resolved r y) r → reports x (resolved r y).
Proof.
  intros Hr Hj. exists [r]. cbn. rewrite Hr. split; [done|]. by intros ? ->%list_elem_of_singleton.
Qed.

Lemma resolved_on_m r f x : sv_m (resolved r (on_m f x)) = f (sv_m x).
Proof. done. Qed.

(** ** Captures *)

Lemma priors_res t (l : list G) x :
  let y := foldl (λ x prior, resolved (ResMerged prior t) x) x l in
  sv_m y = sv_m x ∧ sv_st y = sv_st x ∧ sv_res y = sv_res x ++ ((λ g, ResMerged g t) <$> l).
Proof.
  cbv zeta. revert x. induction l as [|g l IH]; intros x; cbn [foldl]; [by rewrite app_nil_r|].
  destruct (IH (resolved (ResMerged g t) x)) as (-> & -> & ->). cbn. split_and!; [done..|]. by rewrite <- app_assoc.
Qed.

Lemma capture_staged log stable tep stable' tep' :
  capture_absorb_snapshot (L := L) (S := S) log stable tep = (true, stable', tep') →
  pending_compact_boundary tep' = Some (ep_applied tep') ∧ ep_merge tep' = ep_merge tep.
Proof.
  unfold capture_absorb_snapshot, submit_capture, mint_op_id, read_log_term. destruct (is_poisoned tep); [done|].
  destruct (sm_take_snapshot _); [|done]. repeat (case_match; simplify_eq/=; try done); by intros [= _ <-].
Qed.

Lemma capture_failed log stable tep stable' tep' :
  capture_absorb_snapshot (L := L) (S := S) log stable tep = (false, stable', tep') →
  is_poisoned tep' = true ∧ ep_merge tep' = ep_merge tep.
Proof.
  unfold capture_absorb_snapshot, submit_capture, mint_op_id, read_log_term.
  destruct (is_poisoned tep) eqn:Hp; [by intros [= _ <-]|].
  destruct (sm_take_snapshot _); [|by intros [= _ <-]]. repeat (case_match; simplify_eq/=; try done); by intros [= _ <-].
Qed.

Lemma staged_settled tgid ep (st : St) :
  pending_compact_boundary ep = Some (ep_applied ep) → capture_settled (L := L) (S := S) tgid (ep_applied ep) ep st = true.
Proof. intros Hb. unfold capture_settled. rewrite Hb. by rewrite N.leb_refl. Qed.

Lemma stage_capture_true tgid x y :
  stage_capture (L := L) (S := S) tgid x = (true, y) →
  ∃ tep tep', mr_groups (sv_m x) !! tgid = Some tep ∧ mr_groups (sv_m y) !! tgid = Some tep'
    ∧ pending_compact_boundary tep' = Some (ep_applied tep') ∧ ep_merge tep' = ep_merge tep ∧ sv_res y = sv_res x.
Proof.
  unfold stage_capture. destruct (gst_stores _ _) as [[log stable]|]; [|done].
  destruct (mr_groups (sv_m x) !! tgid) as [tep|] eqn:Hg; [|done].
  destruct (capture_absorb_snapshot _ _ _) as [[[] s'] tep'] eqn:Hc; [|done]. intros [= <-].
  apply capture_staged in Hc as [? ?]. exists tep, tep'. cbn. by rewrite lookup_insert_eq.
Qed.

Lemma stage_capture_false tgid x y tep :
  stage_capture (L := L) (S := S) tgid x = (false, y) → mr_groups (sv_m x) !! tgid = Some tep →
  ∃ tep', mr_groups (sv_m y) !! tgid = Some tep' ∧ is_poisoned tep' = true
    ∧ ep_merge tep' = ep_merge tep ∧ sv_res y = sv_res x.
Proof.
  unfold stage_capture. intros Hs Hg. rewrite Hg in Hs. destruct (gst_stores _ _) as [[log stable]|].
  - destruct (capture_absorb_snapshot _ _ _) as [[[] s'] tep'] eqn:Hc; [done|]. injection Hs as <-.
    apply capture_failed in Hc as [? ?]. exists tep'. cbn. by rewrite lookup_insert_eq.
  - injection Hs as <-. exists (poison SnapshotCapture tep). cbn. by rewrite lookup_alter_eq, Hg.
Qed.

(** ** The absorb *)

(** [tgid] waits on the source those bytes name. *)
Definition parked_as m tgid (b : bytes) : Prop :=
  ∀ ep, mr_groups m !! tgid = Some ep →
    ∃ p, mrg_pending_apply (ep_merge ep) = Some p ∧ pma_source_bytes p = b.

Lemma upd_note_lookup g f h m ep :
  mr_groups m !! g = Some ep → mr_groups (note_if_poisoned h (upd_group g f m)) !! g = Some (f ep).
Proof. intros Hg. rewrite note_if_poisoned_groups. cbn. by rewrite lookup_alter_eq, Hg. Qed.

Lemma pinned_speaks source debts ep : speaks_for (pin_failed_capture (recovery_pin_keys source debts) ep) source.
Proof. left. cbn. apply elem_of_app. right. by left. Qed.

Lemma absorb_now_reports tgid source inherited debts d tep x :
  mr_groups (sv_m x) !! tgid = Some tep →
  reports x (absorb_now (L := L) (S := S) tgid source inherited debts (Some d) x).
Proof.
  intros Hg. unfold absorb_now. destruct (stage_capture tgid x) as [[] y] eqn:Hs; cbv zeta.
  - destruct (stage_capture_true _ _ _ Hs) as (t0 & t1 & H0 & H1 & Hb & _ & Hr).
    assert (t0 = tep) as -> by congruence. set (z := on_m (upd_group tgid (emit_merged d)) _).
    destruct (priors_res tgid inherited (resolved (ResMerged source tgid) z)) as (Hm & Hst & Hres).
    set (w := foldl _ _ _) in *. exists (ResMerged source tgid :: ((λ g, ResMerged g tgid) <$> inherited)). split.
    + rewrite Hres. cbn. by rewrite Hr, <- app_assoc.
    + assert (captured w tgid) as Hw.
      { exists (emit_merged d t1), d. rewrite Hm, Hst. cbn. rewrite mark_dirty_groups, lookup_alter_eq, H1.
        split_and!; [done|apply elem_of_app; right; by left|]. right. exact (staged_settled tgid (emit_merged d t1) _ Hb). }
      intros r [->|(g & -> & _)%list_elem_of_fmap]%elem_of_cons; by left.
  - destruct (stage_capture_false _ _ _ _ Hs Hg) as (t1 & H1 & Hp & _ & Hr). unfold absorb_failed.
    apply reports_one; [done|]. exists (pin_failed_capture (recovery_pin_keys source debts) t1). split_and!.
    + rewrite resolved_on_m. apply upd_note_lookup. change (sv_m (on_m _ y)) with (mark_dirty tgid (sv_m y)).
      by rewrite mark_dirty_groups.
    + done.
    + apply pinned_speaks.
Qed.

Lemma absorb_source_reports tgid source block inherited sep x b :
  parked_as (sv_m x) tgid b → decode_exact b = Ok source →
  reports x (absorb_source (L := L) (S := S) tgid source block inherited sep x).
Proof.
  intros Hpa Hb. unfold absorb_source. destruct (take_capture_debts sep) as [debts sep'].
  destruct (mr_groups (sv_m x) !! tgid) as [tep|] eqn:Hg; [|by apply reports_none].
  destruct (Hpa tep Hg) as (p & Hp & Hpb). unfold resolve_pending_merge. rewrite Hp. cbv zeta.
  destruct (sm_absorb _ _) as [absorbed fsm]. destruct absorbed; cbn [negb].
  2: { case_match; [|done]. apply reports_one; [done|].
       exists (pin_failed_capture (recovery_pin_keys source debts) (poison MergeUnsupported (clear_park tep <| ep_fsm := fsm |>))).
       split_and!; [|done|apply pinned_speaks].
       rewrite resolved_on_m, note_if_poisoned_groups, mark_dirty_groups. cbn. by rewrite lookup_alter_eq, lookup_insert_eq. }
  set (d := {| mg_index := pma_at p |}). set (t1 := _ <| ep_merge ::= _ |>).
  set (y := on_m (set_group tgid t1) x). assert (mr_groups (sv_m y) !! tgid = Some t1) as Hy by (cbn; by rewrite lookup_insert_eq).
  destruct (is_poisoned t1) eqn:Hpo.
  - apply reports_one; [done|]. exists (pin_failed_capture (recovery_pin_keys source debts) t1).
    split_and!; [|by rewrite <- Hpo|apply pinned_speaks].
    rewrite resolved_on_m, note_if_poisoned_groups, mark_dirty_groups. cbn. by rewrite lookup_alter_eq, lookup_insert_eq.
  - case_bool_decide.
    + apply reports_one; [done|]. exists (adopt_inherited_debts debts (mint_capture_debt d t1)), d.
      split_and!; [|by rewrite <- Hpo|done|by rewrite <- Hb, <- Hpb].
      rewrite resolved_on_m, mark_dirty_groups. cbn. by rewrite lookup_alter_eq, lookup_insert_eq.
    + destruct (absorb_now_reports tgid source inherited debts d t1 y Hy) as (new & Hn & Hj).
      exists new. split; [exact Hn|exact Hj].
Qed.

Lemma drivable_parks source m : parks_kept m (owes_a_drivable_thaw source m).2.
Proof.
  unfold owes_a_drivable_thaw. cbv zeta. generalize (from_option abandoned_obligations [] (mr_groups m !! source)), false.
  intros l b. enough (∀ m1, parks_kept m m1 → parks_kept m (foldl (λ '(drivable, m) '(owed, obligation),
      if am_discharged obligation then (true, m)
      else match decode_exact (T := G) owed with
           | Ok owed => (drivable || hosts m owed, m)
           | Err _ => (true, note_if_poisoned source (upd_group source (poison MergeDecode) m))
           end) (b, m1) l).2) as H by (by apply H).
  revert b. induction l as [|[k o] l IH]; intros b m1 Hm; cbn [foldl]; [done|].
  destruct (am_discharged o); [by apply IH|]. destruct (decode_exact k); [by apply IH|].
  apply IH. etrans; [exact Hm|]. intros h ep. rewrite note_if_poisoned_groups. revert h ep. by apply parks_kept_upd.
Qed.

Lemma parked_as_kept m m' tgid b : parks_kept m m' → parked_as m tgid b → parked_as m' tgid b.
Proof. intros Hk Hp ep He. destruct (Hk _ _ He) as (e0 & H0 & ->). by apply Hp. Qed.

Lemma park_resolve_reports tgid source at_ x y b :
  parked_as (sv_m x) tgid b → decode_exact b = Ok source →
  park_resolve (L := L) (S := S) tgid source at_ x = Some y → reports x y.
Proof.
  intros Hpa Hb. unfold park_resolve. destruct (mr_groups (sv_m x) !! tgid) as [tep|]; [|intros [= <-]; by apply reports_none].
  case_bool_decide; [intros [= <-]; apply reports_none; by case_bool_decide|].
  pose proof (drivable_parks source (sv_m x)) as Hd. destruct (owes_a_drivable_thaw source (sv_m x)) as [dr m1].
  cbn [snd] in Hd. destruct dr; [intros [= <-]; by apply reports_none|].
  destruct (group_is m1 source _); [intros [= <-]; by apply reports_none|].
  destruct (decode_chain _) as [inherited|]; [|intros [= <-]; by apply reports_none].
  destruct (remove_group_inner source m1) as [[removed m2]|] eqn:Hr; [|done]. cbn [mbind option_bind].
  intros [= <-]. destruct removed as [sep|]; [|by apply reports_none].
  destruct (absorb_source_reports tgid source (absorb_capture_block tep) inherited sep
    (x <| sv_m := m1 |> <| sv_m := m2 |>) b) as (new & Hn & Hj); [|done|by exists new].
  eapply parked_as_kept; [|exact Hpa]. etrans; [exact Hd|by eapply remove_inner_parks].
Qed.

(** A resolve is reached through a closed window, which only latches. *)
Lemma park_verdict_resolve w tgid source n x :
  park_verdict w tgid source n x = (PvResolve, false) ∨ (park_verdict w tgid source n x).1 ≠ PvResolve.
Proof. unfold park_verdict. destruct w; cbn; auto. repeat case_match; cbn; auto. Qed.

Lemma park_window_res now tgid tep x w y : park_window (L := L) (S := S) now tgid tep x = Some (w, y) → sv_res y = sv_res x.
Proof.
  unfold park_window. destruct (gst_stores _ _) as [[log stable]|]; [|done]. cbv zeta. intros [= <- <-].
  repeat case_bool_decide; try done. by destruct (ensure_merge_seal _ _ _) as [[[] ?] ?].
Qed.

Lemma park_window_closed now tgid tep x y pending :
  park_window (L := L) (S := S) now tgid tep x = Some (WindowClosed, y) → mr_groups (sv_m x) !! tgid = Some tep →
  mrg_pending_apply (ep_merge tep) = Some pending → parked_as (sv_m y) tgid (pma_source_bytes pending).
Proof.
  unfold park_window. destruct (gst_stores _ _) as [[log stable]|]; [|done]. cbv zeta. intros [= Hw <-] Hg Hp.
  rewrite Hw. rewrite bool_decide_eq_false_2, bool_decide_eq_true_2 by done. intros ep. cbn.
  rewrite lookup_alter_eq, Hg. intros [= <-]. cbn. rewrite Hp. by eexists.
Qed.

Lemma park_crossings_res tgid u x : sv_res (park_crossings (L := L) (S := S) tgid u x).2 = sv_res x.
Proof.
  unfold park_crossings. destruct u; [|done]. cbn [negb]. cbv zeta. destruct (_ && _); [done|].
  destruct (find_crossing _ _) as [[] ?]; done.
Qed.

Lemma signals_parked tgid at_ m b : parked_as m tgid b → parked_as (park_signals tgid at_ false None m) tgid b.
Proof. apply parked_as_kept. unfold park_signals. by apply parks_kept_upd. Qed.

Lemma advance_source_res tgid source pending x : sv_res (advance_source (L := L) (S := S) tgid source pending x) = sv_res x.
Proof.
  unfold advance_source. cbv zeta. destruct (gst_stores _ _) as [[slog ?]|]; [|done].
  destruct (_ !! source); [|done]. by destruct (advance_commit_on_freeze_identity _ _ _ _).
Qed.

Lemma park_step_reports now tgid x y : park_step (L := L) (S := S) now tgid x = Some y → reports x y.
Proof.
  unfold park_step. destruct (mr_groups (sv_m x) !! tgid) as [tep|] eqn:Hg; [|intros [= <-]; by apply reports_none].
  destruct (mrg_pending_apply _) as [pending|] eqn:Hp; [|intros [= <-]; by apply reports_none].
  destruct (decode_exact (pma_source_bytes pending)) as [source|] eqn:Hb; [|intros [= <-]; by apply reports_none].
  destruct (park_window now tgid tep x) as [[w z]|] eqn:Hw; [|intros [= <-]; by apply reports_none].
  pose proof (park_window_res _ _ _ _ _ _ Hw) as Hr.
  destruct (park_verdict_resolve w tgid source (pma_source_gen_after pending) z) as [Hv|Hv].
  - rewrite Hv. cbn [park_crossings negb]. intros Hy. assert (w = WindowClosed) as ->.
    { unfold park_verdict in Hv. by destruct w. }
    destruct (park_resolve_reports tgid source (pma_at pending)
      (on_m (park_signals tgid (pma_at pending) false None) z) y (pma_source_bytes pending)) as (new & Hn & Hj);
      [by eapply signals_parked, park_window_closed|done|exact Hy|].
    exists new. split; [|done]. rewrite Hn. cbn. by rewrite Hr.
  - destruct (park_verdict w tgid source (pma_source_gen_after pending) z) as [verdict u]. cbn [fst] in Hv.
    pose proof (park_crossings_res tgid u z) as Hc.
    destruct (park_crossings tgid u z) as [[crossing|] z1]; cbn [snd] in Hc;
      [|intros [= <-]; apply reports_none; congruence].
    destruct verdict; [done| | |]; intros [= <-].
    + apply reports_one; [cbn; congruence|]. intros ep. rewrite resolved_on_m, mark_dirty_groups. cbn.
      rewrite lookup_alter_Some. intros [(_ & e & _ & ->)|[? _]]; [|done].
      unfold resolve_pending_merge_aborted. by destruct (mrg_pending_apply (ep_merge e)) eqn:?.
    + apply reports_none. case_match; cbn; congruence.
    + apply reports_none. rewrite advance_source_res. cbn. congruence.
Qed.

(** ** Husks *)

Lemma remove_inner_gone g m removed m' : remove_group_inner g m = Some (removed, m') → mr_groups m' !! g = None.
Proof.
  unfold remove_group_inner. cbv zeta. set (m1 := purge_signals g (unpark g m)). set (m2 := m1 <| mr_groups ::= delete g |>).
  match goal with |- context [if ?c then ?a else m2] => set (m3 := if c then a else m2) end.
  assert (mr_groups m3 !! g = None) as H3.
  { unfold m3. destruct (_ && _); cbn; by rewrite ?lookup_fmap, lookup_delete_eq. }
  destruct (abandon_fork_this_removal_descends_from _ _ m3) as [m4|] eqn:Ha; [|done].
  cbn [mbind option_bind]. intros [= _ <-]. apply eq_None_not_Some. intros [ep Hg].
  destruct (abandon_parks _ _ _ _ Ha _ _ Hg) as (e & He & _). congruence.
Qed.

Lemma husk_step_reports named g x y :
  fs_floor (sv_st x) g = MERGED_FLOOR → husk_step named g x = Some y → reports x y ∧ sv_st y = sv_st x.
Proof.
  intros Hf. unfold husk_step. case_bool_decide; [intros [= <-]; split; [by apply reports_none|done]|].
  destruct (owes_a_drivable_thaw g (sv_m x)) as [dr m1].
  destruct dr; [intros [= <-]; split; [by apply reports_none|done]|].
  destruct (group_is m1 g _); [intros [= <-]; split; [by apply reports_none|done]|].
  destruct (decode_chain _) as [inherited|]; [|intros [= <-]; split; [by apply reports_none|done]].
  destruct (remove_group_inner g m1) as [[removed m2]|] eqn:Hr; [|done]. cbn [mbind option_bind].
  intros [= <-]. destruct removed as [sep|]; [|split; [by apply reports_none|done]].
  set (z := on_m (mark_dirty g) _). destruct (priors_res g inherited z) as (Hm & Hst & Hres).
  set (w := foldl _ _ _) in *. split; [|change (sv_st w = sv_st x); by rewrite Hst].
  exists (((λ p, ResMerged p g) <$> inherited) ++ [ResRetired g]). split.
  - cbn. by rewrite Hres, <- app_assoc.
  - assert (retired w g) as Hw.
    { split; [|by rewrite Hst]. rewrite Hm. subst z. cbn. rewrite mark_dirty_groups. by eapply remove_inner_gone. }
    intros r [(p & -> & _)%list_elem_of_fmap| ->%list_elem_of_singleton]%elem_of_app; [by right|done].
Qed.

(** ** Owed captures *)

Lemma captured_resolved r x tgid : captured x tgid → captured (resolved r x) tgid.
Proof. done. Qed.

Lemma captured_stop reason x tgid : captured x tgid → captured (on_m (fail_stop tgid reason) x) tgid.
Proof.
  intros (tep & d & Hg & Hd & Hs). exists (poison reason tep), d. split_and!; [|done..]. by apply upd_note_lookup.
Qed.

Lemma inherited_loop_spec tgid inherited x :
  let y := inherited_loop tgid inherited x in
  (∃ l, sv_res y = sv_res x ++ ((λ g, ResMerged g tgid) <$> l)) ∧ (captured x tgid → captured y tgid).
Proof.
  cbv zeta. revert x. induction inherited as [|d l IH]; intros x; cbn [inherited_loop].
  - split; [|done]. exists []. cbn. by rewrite app_nil_r.
  - destruct (decode_exact (mg_source d)) as [prior|].
    + destruct (IH (resolved (ResMerged prior tgid) x)) as [[k Hk] Hc]. split; [|done].
      exists (prior :: k). rewrite Hk. cbn. by rewrite <- app_assoc.
    + split; [|apply captured_stop]. exists []. cbn. by rewrite app_nil_r.
Qed.

(** The debt is announced, and its capture is in. *)
Lemma discharge_debt_reports tgid source x tep d :
  mr_groups (sv_m x) !! tgid = Some tep → mrg_capture_debt (ep_merge tep) = Some d →
  capture_settled (L := L) (S := S) tgid (mg_index d) tep (sv_st x) = true
  ∨ capture_settled (L := L) (S := S) tgid (ep_applied tep) tep (sv_st x) = true →
  reports x (discharge_debt tgid source x).
Proof.
  intros Hg Hd Hs. unfold discharge_debt. rewrite Hg. unfold discharge_capture_debt. rewrite Hd.
  unfold take_inherited_debts. set (t1 := emit_merged _ _ <| ep_merge ::= _ |>). cbv beta iota zeta.
  set (z := resolved (ResMerged source tgid) _).
  match goal with |- reports _ (inherited_loop _ ?q _) => destruct (inherited_loop_spec tgid q z) as [[l Hl] Hc] end.
  exists (ResMerged source tgid :: ((λ g, ResMerged g tgid) <$> l)). split.
  - rewrite Hl. cbn. by rewrite <- app_assoc.
  - assert (captured z tgid) as Hz.
    { exists (t1 <| ep_merge ::= λ k, k <| mrg_inherited_debts := [] |> |>), d. split_and!; [|subst t1; cbn; apply elem_of_app; right; by left|exact Hs].
      subst z. cbn. rewrite mark_dirty_groups. cbn. by rewrite lookup_insert_eq. }
    intros r [->|(g & -> & _)%list_elem_of_fmap]%elem_of_cons; left; by apply Hc.
Qed.

Lemma debtor_step_reports tgid x : reports x (debtor_step (L := L) (S := S) tgid x).
Proof.
  unfold debtor_step. destruct (mr_groups (sv_m x) !! tgid) as [tep|] eqn:Hg; [|by apply reports_none].
  destruct (mrg_capture_debt (ep_merge tep)) as [debt|] eqn:Hd; [|by apply reports_none].
  destruct (decode_exact (mg_source debt)) as [source|] eqn:Hb; [|by apply reports_none].
  destruct (capture_settled _ _ _ _) eqn:Hs; [eapply discharge_debt_reports; eauto|]. cbv zeta.
  destruct (capture_blocked_at _ _).
  { apply reports_none. destruct (capture_fence_at _ _); [|done]. by destruct (fence_signal _ _ _) as [? []]. }
  destruct (stage_capture tgid x) as [[] y] eqn:Hst.
  - destruct (stage_capture_true _ _ _ Hst) as (t0 & t1 & H0 & H1 & Hbd & Hm & Hr).
    assert (t0 = tep) as -> by congruence.
    destruct (discharge_debt_reports tgid source y t1 debt H1) as (new & Hn & Hj);
      [congruence|right; by apply staged_settled|].
    exists new. split; [congruence|done].
  - destruct (stage_capture_false _ _ _ _ Hst Hg) as (t1 & H1 & Hp & Hm & Hr). apply reports_one; [done|].
    exists t1. split_and!; [|done|].
    + rewrite resolved_on_m, mark_dirty_groups, note_if_poisoned_groups. done.
    + right. exists debt. split; [|done]. unfold capture_debt_chain. rewrite Hm, Hd. by left.
Qed.

(** ** The passes *)

Lemma foldl_res {A} (f : Svc → A → Svc) (l : list A) x :
  (∀ y a, sv_res (f y a) = sv_res y) → sv_res (foldl f x l) = sv_res x.
Proof. intros Hf. revert x. induction l as [|a l IH]; intros x; cbn [foldl]; [done|]. by rewrite IH. Qed.

Lemma witness_thaw_res now tgid key expected x :
  sv_res (witness_thaw (L := L) (S := S) now tgid key expected x) = sv_res x.
Proof.
  unfold witness_thaw. destruct (group_is _ _ _); [|done]. destruct (gst_stores _ _) as [[log stable]|]; [|done].
  by destruct (propose_thaw_witness _ _ _ _ _ _) as [[? ?] ?].
Qed.

Lemma thaw_source_res now tgid source expected x :
  sv_res (thaw_source (L := L) (S := S) now tgid source expected x) = sv_res x.
Proof.
  unfold thaw_source. destruct (gst_stores _ _) as [[log stable]|]; [|done].
  by destruct (propose_merge_unfreeze _ _ _ _ _ _) as [[? ?] ?].
Qed.

Lemma obligation_step_res now tgid source key o x :
  sv_res (obligation_step (L := L) (S := S) now tgid source key o x) = sv_res x.
Proof.
  unfold obligation_step. destruct (thaw_proof _ _ _ _ _) as [lr gp]. cbv zeta.
  destruct (gp || _); [rewrite witness_thaw_res; by destruct (am_discharged o)|].
  destruct (am_discharged o); [done|]. destruct lr; [done|apply thaw_source_res].
Qed.

Lemma abandoned_pass_res now x : sv_res (abandoned_pass (L := L) (S := S) now x) = sv_res x.
Proof.
  apply foldl_res. intros y g. destruct (mr_groups _ !! g) as [tep|]; [|done].
  generalize (abandoned_obligations tep). intros l. revert y.
  induction l as [|[k o] l IH]; intros y; cbn [obligations_loop]; [done|].
  destruct (decode_exact k); [|done]. by rewrite IH, obligation_step_res.
Qed.

Lemma dead_target_pass_res now x : sv_res (dead_target_pass (L := L) (S := S) now x) = sv_res x.
Proof.
  apply foldl_res. intros y g. unfold dead_target_step. destruct (_ !! g); [|done].
  destruct (mrg_frozen_for _); [|done]. destruct (decode_exact _); [|done]. destruct (hosts _ _); [done|].
  destruct (negb _); [done|]. destruct (gst_stores _ _) as [[log stable]|]; [|done].
  by destruct (propose_dead_target_thaw _ _ _ _ _) as [[? ?] ?].
Qed.

Lemma stage_capture_res g x : sv_res (stage_capture (L := L) (S := S) g x).2 = sv_res x.
Proof.
  unfold stage_capture. destruct (gst_stores _ _) as [[log stable]|]; [|done]. destruct (_ !! g); [|done].
  by destruct (capture_absorb_snapshot _ _ _) as [[? ?] ?].
Qed.

Lemma adopt_pass_res x : sv_res (adopt_pass (L := L) (S := S) x) = sv_res x.
Proof.
  apply foldl_res. intros y g. unfold adopt_step. destruct (_ !! g); [|done]. destruct (capture_settled _ _ _ _); [done|].
  destruct (capture_blocked_at _ _); [unfold adopt_blocked; by repeat case_match|].
  pose proof (stage_capture_res g y). by destruct (stage_capture g y).
Qed.

(** The states after each turn of a loop. *)
Fixpoint visits {A} (f : A → Svc → option Svc) (l : list A) x : list Svc :=
  match l with
  | [] => []
  | a :: l => match f a x with Some y => y :: visits f l y | None => [] end
  end.

(** The states the service goes through that end a step which may report: a parked
    commit, a husk, a capture owed. *)
Definition service_visits now (st : St) m : list Svc :=
  let x := {| sv_m := m; sv_st := st; sv_res := [] |} in
  visits (park_step (L := L) (S := S) now) (parked_groups m) x ++
  match parked_pass (L := L) (S := S) now x with
  | None => []
  | Some x =>
      let x := abandoned_pass (L := L) (S := S) now x in
      visits (husk_step (park_named (sv_m x))) (husk_groups x) x ++
      match husk_pass x with
      | None => []
      | Some x =>
          let x := dead_target_pass (L := L) (S := S) now x in
          visits (λ g x, Some (debtor_step (L := L) (S := S) g x)) (debtor_groups (sv_m x)) x
      end
  end.

Lemma visits_reports {A} (P : A → Prop) (J : Svc → Prop) (f : A → Svc → option Svc) l x y :
  (∀ a x y, P a → J x → f a x = Some y → reports x y ∧ J y) →
  Forall P l → J x → for_each f l x = Some y →
  ∃ new, sv_res y = sv_res x ++ new ∧ ∀ r, r ∈ new → ∃ z, z ∈ visits f l x ∧ r ∈ sv_res z ∧ justified z r.
Proof.
  intros Hf Hl. revert x. induction Hl as [|a l Ha _ IH]; intros x HJ; cbn [for_each visits].
  - intros [= <-]. exists []. rewrite app_nil_r. split; [done|]. by intros ? ?%elem_of_nil.
  - destruct (f a x) as [z|] eqn:Hz; [|done]. cbn [mbind option_bind].
    destruct (Hf a x z Ha HJ Hz) as [(n1 & H1 & Hj1) HJz]. intros (n2 & H2 & Hj2)%IH; [|done].
    exists (n1 ++ n2). rewrite H2, H1, app_assoc. split; [done|].
    intros r [Hr|(w & ? & ? & ?)%Hj2]%elem_of_app.
    + exists z. split_and!; [by left|rewrite H1; apply elem_of_app; by right|by apply Hj1].
    + exists w. split_and!; [by right|done..].
Qed.

Lemma for_each_foldl {A} (f : A → Svc → Svc) (l : list A) x :
  for_each (λ a x, Some (f a x)) l x = Some (foldl (λ x a, f a x) x l).
Proof. revert x. induction l as [|a l IH]; intros x; [done|]. cbn. apply IH. Qed.

(** Every resolution the service reports is justified where it is reported. *)
Lemma service_justified now (st st' : St) m m' res :
  service_merge_applies (L := L) (S := S) now st m = Some (res, st', m') →
  ∀ r, r ∈ res → ∃ z, z ∈ service_visits now st m ∧ r ∈ sv_res z ∧ justified z r.
Proof.
  unfold service_merge_applies, service_visits. cbv zeta. set (x0 := {| sv_m := m |}).
  destruct (parked_pass now x0) as [x1|] eqn:H1; [|done]. cbn [mbind option_bind].
  destruct (visits_reports (λ _, True) (λ _, True) (park_step now) (parked_groups m) x0 x1) as (n1 & Hr1 & Hj1);
    [intros; split; [by eapply park_step_reports|done]|by apply Forall_true|done|exact H1|].
  pose proof (abandoned_pass_res now x1) as Hab. set (x2 := abandoned_pass now x1) in *. clearbody x2.
  destruct (husk_pass x2) as [x3|] eqn:H3; [|done]. cbn [mbind option_bind].
  destruct (visits_reports (λ g, fs_floor (sv_st x2) g = MERGED_FLOOR) (λ x, sv_st x = sv_st x2)
    (husk_step (park_named (sv_m x2))) (husk_groups x2) x2 x3) as (n3 & Hr3 & Hj3); [| |done|exact H3|].
  { intros g x y Hg Hx Hy. rewrite <- Hx in Hg. destruct (husk_step_reports _ _ _ _ Hg Hy). split; [done|congruence]. }
  { apply Forall_forall. intros g. unfold husk_groups, groups_where. intros ((k & e) & -> & [Hf _]%list_elem_of_filter)%list_elem_of_fmap.
    cbn in Hf. apply andb_true_iff in Hf as [_ Hf]. by apply N.eqb_eq in Hf. }
  pose proof (dead_target_pass_res now x3) as Hde. set (x4 := dead_target_pass now x3) in *. clearbody x4.
  destruct (visits_reports (λ _, True) (λ _, True) (λ g x, Some (debtor_step g x)) (debtor_groups (sv_m x4)) x4 (debtor_pass x4))
    as (n5 & Hr5 & Hj5); [intros ? ? ? _ _ [= <-]; split; [apply debtor_step_reports|done]|by apply Forall_true|done|exact (for_each_foldl (λ g x, debtor_step g x) _ x4)|].
  set (x5 := debtor_pass x4) in *. clearbody x5. pose proof (adopt_pass_res x5) as Had.
  intros Heq. injection Heq as <- _ _. rewrite Had, Hr5, Hde, Hr3, Hab, Hr1. cbn [sv_res x0 app]. intros r.
  rewrite !elem_of_app. intros [[(z & ? & ? & ?)%Hj1|(z & ? & ? & ?)%Hj3]|(z & ? & ? & ?)%Hj5]; exists z;
    (split; [|done]); rewrite !elem_of_app; auto.
Qed.
End reports.
