(* ===== verification/MultiAdmit.v ===== *)
(** * The constructors and the install of a forked child keep the invariant

    [MultiFork]'s constructors and [MultiRelay.install_yieldable_fork_with_rng]:
    a new group is well formed, of this host, and known to the queues; a refused
    one leaves the container as it was. *)

From S2P Require Import Prelude Bytes Num Quorum Progress ProgressMap Conf Tracker ConfChange.
From S2P Require Import ConfChangeProps Config Lease Prng ReadOnly Data Frame Entry Storage Shape.
From S2P Require Import EngineStable Restart Forwarded Wire Message Codec Endpoint Merge.
From S2P Require Import Invariant Persistence Replication Election Propose Handlers Commit Apply.
From S2P Require Import Boot Reads Snapshot Append Drive VoteFrame Frames ApplyFrame HandlerFrame.
From S2P Require Import Vote BootFrame SnapshotFrame VoteDrive Multi MultiRemove MultiFork.
From S2P Require Import MultiRelay MultiVerbs MultiMerge MultiInv MultiSteps MultiForkSteps.

(** What a store shows of its submissions: the hard state is the last durable one
    or the one just submitted, a snapshot is shown at once, and the staging of a
    transfer is apart from both. *)
Class StableReadLaws (I : Type) `{!NodeId I} (S : Type) `{!StableStore I S} := {
  reads_submit : ∀ s id h,
    stable_hard_state (stable_submit_write id h s) = h
    ∨ stable_hard_state (stable_submit_write id h s) = stable_hard_state s;
  reads_snapshot_hard : ∀ s id m d,
    stable_hard_state (stable_submit_snapshot id m d s) = stable_hard_state s;
  reads_snapshot : ∀ s id m d, stable_snapshot (stable_submit_snapshot id m d s) = Some (m, d);
  reads_discard : ∀ s, stable_snapshot (stable_discard_snapshot_staging s) = stable_snapshot s;
}.

Section admission.
Context {G I F R L S : Type} `{!NodeId G, !NodeId I, !StateMachine F, !Rng R}.
Context `{!LogStore L, !StableStore I S, !StableWriteLaws I S, !StableReadLaws I S}.
Context {DG : Data G} {DI : Data I} {BS : BuffaSizes} {DC : Data sm_command} {DS : Data sm_snapshot}.
Context {BD : BuffaDecode} {BC : Buffa PbConfChangeV2}.
Abbreviation Endpoint := (Endpoint I F R).
Abbreviation MultiRaft := (MultiRaft G I F R).
Context {Q : gset G}.
Abbreviation mr_ok := (mr_ok (Q := Q)).
Implicit Types (m : MultiRaft) (ep : Endpoint) (g gid : G) (log : L) (stable : S).
Implicit Types (config : Config I).

(** ** Admission *)

Lemma validate_new_group_Ok m g config :
  validate_new_group m g config = Ok tt →
  mr_groups m !! g = None ∧ group_tag_bad (group_key g) = false
  ∧ (∀ h, mr_host_id m = Some h → h = cfg_id config) ∧ debt_names m g = false.
Proof.
  unfold validate_new_group, hosts. case_bool_decide as Hh; [done|].
  destruct (group_tag_bad _); [done|]. destruct (mr_host_id m) as [host|] eqn:Hhost.
  - case_bool_decide as He; [|done]. cbn. unfold debt_names.
    destruct (any_group m (λ _ ep, debt_names_source ep (group_key g))); [done|]. intros _.
    split_and!; try done; [by apply eq_None_not_Some|]. by intros h [= <-].
  - unfold debt_names.
    destruct (any_group m (λ _ ep, debt_names_source ep (group_key g))); [done|]. intros _.
    split_and!; try done. by apply eq_None_not_Some.
Qed.

(** The id is free, and the host is the one that is asked. *)
Definition admissible m g config : Prop :=
  mr_groups m !! g = None ∧ ∀ h, mr_host_id m = Some h → h = cfg_id config.

Lemma validate_admissible m g config :
  validate_new_group m g config = Ok tt → admissible m g config.
Proof. intros (? & _ & ? & _)%validate_new_group_Ok. by split. Qed.

Lemma pin_host_ok g config m :
  admissible m g config → mr_ok None m →
  mr_ok None (pin_host config m) ∧ mr_host_id (pin_host config m) = Some (cfg_id config).
Proof.
  intros [_ Hh] Hok.
  assert (Hid : mr_host_id (pin_host config m) = Some (cfg_id config)).
  { unfold pin_host. cbn. destruct (mr_host_id m); [|done]. cbn. f_equal. auto. }
  split; [|done]. destruct Hok as [? Hho ? Ha ? ? ? ? ? ? ? ?]. constructor; try done.
  - intros h ep Hg. rewrite Hid. specialize (Hho h ep Hg). f_equal. symmetry. auto.
  - intros h ep Hg Hx. eapply attended_le; [|by eapply Ha]. by constructor.
Qed.

Lemma hints_ok x g m : mr_ok x m → mr_ok x (clear_unresolvable_hints_naming g m).
Proof.
  intros. apply mr_ok_fmap; [|done]. intros ep. destruct (hint_names _ _); [|reflexivity].
  apply (quiet_note_unresolvable (L := L) (S := S)).
Qed.

Lemma insert_guard_ok x g lin m : mr_ok x m → mr_ok x (m <| mr_lineage ::= insert g lin |>).
Proof.
  intros [? ? Hl Ha ? ? ? ? ? ? ? ?]. constructor; try done; cbn.
  - intros h e Hh. destruct (decide (h = g)) as [->|]; [by rewrite lookup_insert_eq|].
    rewrite lookup_insert_ne by done. eauto.
  - intros h e Hh Hx. eapply attended_le; [|by eauto]. by constructor.
Qed.

Lemma admit_group_ok g lin ep m :
  mr_groups m !! g = None → ep_wf ep → mr_host_id m = Some (cfg_id (ep_config ep)) → mr_ok None m →
  mr_ok (Some g) (admit_group g lin ep m).
Proof.
  intros Hn Hw Hid Hok. unfold admit_group.
  set (m1 := clear_unresolvable_hints_naming g (m <| mr_lineage ::= insert g lin |>)).
  assert (Hok1 : mr_ok None m1).
  { by apply hints_ok, insert_guard_ok. }
  assert (Hid1 : mr_host_id m1 = Some (cfg_id (ep_config ep))) by done.
  assert (Hl1 : is_Some (mr_lineage m1 !! g)).
  { unfold m1, clear_unresolvable_hints_naming. cbn. by rewrite lookup_insert_eq. }
  assert (Hn1 : mr_groups m1 !! g = None).
  { unfold m1, clear_unresolvable_hints_naming. cbn. by rewrite lookup_fmap, Hn. }
  clearbody m1. destruct Hok1 as [Hw1 Hh1 Hl Ha ? ? ? Hs ? Hp ? ?].
  assert (Hseen : g ∉ mr_poisoned_seen m1).
  { intros Hin. apply Hs, group_is_Some in Hin as (e & He & _). congruence. }
  unfold set_group. constructor; try done; cbn.
  - intros h e. rewrite lookup_insert_Some. intros [[<- <-]|[_ ?]]; eauto.
  - intros h e. rewrite lookup_insert_Some. intros [[<- <-]|[_ ?]]; eauto.
  - intros h e. rewrite lookup_insert_Some. intros [[<- <-]|[_ ?]]; eauto.
  - intros h e. rewrite lookup_insert_Some. intros [[<- <-]|[_ ?]] Hx; [done|].
    eapply attended_le; [|by eauto]. by constructor.
  - intros h Hin. assert (h ≠ g) by congruence. apply Hs, group_is_Some in Hin as (e & He & Hpe).
    apply group_is_Some. cbn. rewrite lookup_insert_ne by done. eauto.
  - intros h Hh. destruct (decide (h = g)) as [->|]; [by rewrite lookup_insert_eq|].
    rewrite lookup_insert_ne by done. auto.
Qed.

(** ** Fresh endpoints *)

Record fresh ep : Prop := {
  fr_outgoing : ou_outgoing (ep_outputs ep) = [];
  fr_events : ou_events (ep_outputs ep) = [];
  fr_forks : staged_forks ep = [];
  fr_poison : is_poisoned ep = false;
}.

Lemma fresh_attended m g ep : fresh ep → attended m g ep.
Proof.
  intros [Ho He Hf Hp]. constructor; unfold speaks, reports; rewrite ?Ho, ?He, ?Hf, ?Hp; done.
Qed.

Lemma new_fresh config now (rng : R) (fsm : F) : fresh (Endpoint_new_with_rng config now rng fsm).
Proof. unfold Endpoint_new_with_rng, arm_election_timer. cbv zeta. by destruct (election_timeout _ _). Qed.

(** Seeding the lineage and the epoch leaves what the invariant reads. *)
Lemma seeded_wf n ep : ep_wf ep → ep_wf (seed_lineage n ep).
Proof. intros []. by constructor. Qed.
Lemma epoch_wf n ep : ep_wf ep → ep_wf (seed_boot_epoch n ep).
Proof. intros []. by constructor. Qed.
Lemma seeded_fresh n ep : fresh ep → fresh (seed_lineage n ep).
Proof. intros []. by constructor. Qed.

(** The founding stamp never fail-stops: it is the first operation of its epoch. *)
Lemma founding_stamp_fresh n stable ep :
  ep_next_op_id ep = OpId_first_of_epoch n → fresh ep →
  fresh (submit_founding_stamp stable ep).2 ∧ ep_step ep (submit_founding_stamp stable ep).2.
Proof.
  intros Hid [Ho He Hf Hp]. unfold submit_founding_stamp, mint_op_id. rewrite Hid.
  assert (Hne : OpId_next (OpId_first_of_epoch n) ≠ OpId_first_of_epoch n) by done.
  rewrite decide_False by done. unfold submit_write.
  change (is_poisoned _) with (is_poisoned ep). rewrite Hp. cbn.
  split; [by constructor|]. apply ep_step_same_view. by constructor.
Qed.

(** ** Constructors *)

(** The end of a constructor whose endpoint is fresh, or marked dirty. *)
Lemma admitted_ok g lin config ep m :
  admissible m g config → ep_wf ep → ep_config ep = config → mr_ok None m →
  mr_ok (Some g) (admit_group g lin ep (pin_host config m)).
Proof.
  intros Hv Hw Hc Hok. destruct (pin_host_ok g config m Hv Hok) as [Hok' Hid].
  apply admit_group_ok; try done; [apply Hv|]. by rewrite Hc.
Qed.

Lemma admit_group_lookup g lin ep m : mr_groups (admit_group g lin ep m) !! g = Some ep.
Proof. unfold admit_group, set_group. cbn. apply lookup_insert_eq. Qed.

Lemma create_group_ok g generation config now rng fsm m :
  cfg_voters config ≠ [] → mr_ok None m →
  mr_ok None (create_group_with_rng g generation config now rng fsm m).2.
Proof.
  intros Hv Hok. unfold create_group_with_rng.
  destruct (validate_new_group m g config) as [[]|] eqn:Hn; [apply validate_admissible in Hn|done].
  destruct (validate_working_generation generation); [|done]. destruct (negb _); [done|]. cbv zeta.
  cbn [snd]. apply mr_ok_close with g.
  - apply admitted_ok; try done; [by apply seeded_wf, new_endpoint_wf|].
    unfold Endpoint_new_with_rng, arm_election_timer. cbv zeta. by destruct (election_timeout _ _).
  - intros ep. rewrite admit_group_lookup. intros [= <-]. apply fresh_attended, seeded_fresh, new_fresh.
Qed.

Lemma create_group_founded_at_ok g generation config now rng fsm epoch log stable m :
  cfg_voters config ≠ [] → mr_ok None m →
  mr_ok None (create_group_founded_at_with_rng g generation config now rng fsm epoch log stable m).2.
Proof.
  intros Hv Hok. unfold create_group_founded_at_with_rng.
  destruct (validate_new_group m g config) as [[]|] eqn:Hn; [apply validate_admissible in Hn|done]. cbn [result_bind].
  match goal with |- context [match ?r with Ok _ => _ | Err _ => _ end] => destruct r; [|done] end.
  cbv zeta. set (ep := seed_lineage generation _).
  assert (Hf : fresh ep) by (constructor; apply (new_fresh config now rng fsm)).
  assert (Hw : ep_wf ep) by by apply seeded_wf, epoch_wf, new_endpoint_wf.
  assert (Hc : ep_config ep = config).
  { unfold ep, Endpoint_new_with_rng, arm_election_timer. cbv zeta. by destruct (election_timeout _ _). }
  destruct (founding_stamp_fresh epoch stable ep) as [Hf' Hs]; [done..|].
  destruct (submit_founding_stamp stable ep) as [s' ep']. cbn [snd] in *. apply mr_ok_close with g.
  - apply admitted_ok; try done; [by apply (st_wf _ _ Hs)|]. by rewrite (st_config _ _ Hs).
  - intros e. rewrite admit_group_lookup. intros [= <-]. by apply fresh_attended.
Qed.

(** The stores a restart may be given. *)
Definition bootable stable : Prop :=
  snapshot_u64 (stable_discard_snapshot_staging stable) ∧ is_u64 (hs_term (stable_hard_state stable)).

Lemma restarted_ok g config now rng fsm epoch prior log stable m :
  cfg_voters config ≠ [] → bootable stable → admissible m g config → mr_ok None m →
  let r := restart_inner config now rng fsm epoch prior log stable in
  mr_ok None (mark_dirty g (admit_group g (spl_restored_lineage (ep_split r.2)) r.2 (pin_host config m))).
Proof.
  intros Hv [Hs Ht] Hn Hok r.
  destruct (restart_inner_wf config now rng fsm epoch prior log stable Hv Hs Ht) as [Hw Hc].
  apply mark_dirty_ok. by apply admitted_ok.
Qed.

Lemma restore_group_ok g config now rng fsm epoch log stable m :
  cfg_voters config ≠ [] → bootable stable → mr_ok None m →
  mr_ok None (restore_group_with_rng_unchecked g config now rng fsm epoch log stable m).2.
Proof.
  intros Hv Hb Hok. unfold restore_group_with_rng_unchecked, restart_with_rng.
  destruct (validate_new_group m g config) as [[]|] eqn:Hn; [apply validate_admissible in Hn|done].
  pose proof (restarted_ok g config now rng fsm epoch None log stable m Hv Hb Hn Hok) as Hr.
  by destruct (restart_inner _ _ _ _ _ _ _ _) as [[log' s'] ep].
Qed.

Lemma restore_group_migrating_ok g config now rng fsm epoch prior log stable m :
  cfg_voters config ≠ [] → bootable stable → mr_ok None m →
  mr_ok None (restore_group_migrating_with_rng_unchecked g config now rng fsm epoch prior log stable m).2.
Proof.
  intros Hv Hb Hok. unfold restore_group_migrating_with_rng_unchecked, restart_migrating_with_rng.
  destruct (validate_new_group m g config) as [[]|] eqn:Hn; [apply validate_admissible in Hn|done].
  pose proof (restarted_ok g config now rng fsm epoch prior log stable m Hv Hb Hn Hok) as Hr.
  by destruct (restart_inner _ _ _ _ _ _ _ _) as [[log' s'] ep].
Qed.

(** Virgin stores boot after the baseline is written, flushed or not. *)
Lemma baseline_bootable config snap generation ro fid epoch log stable :
  validate_virgin_stores log stable = Ok tt →
  bootable (write_fork_baseline config snap generation ro fid epoch log stable).2.
Proof.
  unfold validate_virgin_stores, stores_hold_state. destruct (_ || _) eqn:Hh; [done|]. intros _.
  repeat (apply orb_false_iff in Hh as [Hh _]). apply negb_false_iff, bool_decide_eq_true in Hh.
  unfold write_fork_baseline. cbv zeta. cbn [snd]. split.
  - intros mt d. rewrite reads_discard, reads_snapshot. intros [= <- _]. cbn. unfold FORK_BASE_INDEX, is_u64, u64_max. lia.
  - rewrite reads_snapshot_hard.
    match goal with |- context [stable_submit_write ?i ?h stable] =>
      destruct (reads_submit stable i h) as [->| ->] end; rewrite ?Hh; cbn; unfold FORK_BASE_TERM, is_u64, u64_max; lia.
Qed.

Lemma create_group_from_fork_ok g generation config now rng fsm snap ro fid epoch log stable m :
  cfg_voters config ≠ [] → mr_ok None m →
  mr_ok None (create_group_from_fork_with_rng_unreserved g generation config now rng fsm snap ro fid
                epoch log stable m).2.
Proof.
  intros Hv Hok. unfold create_group_from_fork_with_rng_unreserved.
  destruct (validate_boot_epoch epoch); [|done]. destruct (validate_working_generation generation); [|done].
  destruct (validate_new_group m g config) as [[]|] eqn:Hn; [apply validate_admissible in Hn|done].
  destruct (validate_virgin_stores log stable) as [[]|] eqn:Hs; [|done]. cbn [result_bind].
  pose proof (baseline_bootable config snap generation ro fid epoch log stable Hs) as Hb.
  destruct (write_fork_baseline _ _ _ _ _ _ _ _) as [log' s']. cbn [snd] in Hb.
  pose proof (restarted_ok g config now rng fsm epoch None log' s' m Hv Hb Hn Hok) as Hr.
  unfold restart_with_rng. by destruct (restart_inner _ _ _ _ _ _ _ _) as [[log2 s2] ep].
Qed.

(** ** Installing a child *)

Section install.
Context {E X : Type} `{!MultiEngine G I L S E, !ForkGate G X}.
Implicit Types (engine : E) (extra : X).

Lemma with_voter_set_voters config voters c :
  Config_with_voter_set config voters = Ok c → cfg_voters c ≠ [] ∧ cfg_id c = cfg_id config.
Proof.
  unfold Config_with_voter_set. case_bool_decide; [done|]. destruct (negb _); [done|]. by intros [= <-].
Qed.

(** What a child about to be hosted has been checked for. *)
Record ready (parent child : G) m (plan : YieldPlan G I) (epoch : u64) config engine : Prop := {
  rd_guard : default 0 (mr_lineage m !! parent) < yp_parent_gen_after plan;
  rd_child : yp_child plan = child;
  rd_epoch : epoch ≠ 0;
  rd_config : config = reshape_born_prevention (yp_config plan) ∧ cfg_voters config ≠ [];
  rd_admissible : admissible m child config;
  rd_stores : ∃ log stable, gst_stores child engine = Some (log, stable)
    ∧ validate_virgin_stores log stable = Ok tt;
}.

Lemma prepare_fork_install_ok parent child extra engine m :
  mr_ok None m →
  ∃ r engine' m', prepare_fork_install parent child extra engine m = Some (r, engine', m')
    ∧ mr_ok None m'
    ∧ match r with
      | PrepReady p plan epoch config =>
          p = parent ∧ m' = m ∧ ready parent child m plan epoch config engine'
          ∧ floor_admits (fg_floor {| efg_engine := engine; efg_extra := extra |} child)
              (yp_child_gen plan) = true
      | PrepDone o => ∀ fk, o ≠ Installed fk
      end.
Proof.
  intros Hok. unfold prepare_fork_install.
  destruct (examine_head_fork_ok parent {| efg_engine := engine; efg_extra := extra |} m Hok)
    as (h & m1 & -> & [Hok1 _ _ _ _ _ _ Hy]). cbn [mbind option_bind].
  destruct h as [| | |plan]; try (eexists _, _, _; split; [reflexivity|]; by split).
  destruct (Hy plan eq_refl) as [-> [(ep & fork & Hg & _ & _ & Hc & _) Hgu Hfl _ _]].
  case_bool_decide as Hch; cbn [negb]; [|eexists _, _, _; split; [reflexivity|]; by split].
  destruct (me_add_group child engine) as [added e1].
  destruct (me_next_boot_epoch child e1) as [[epoch|] e2];
    [|eexists _, _, _; split; [reflexivity|]; by split].
  cbv zeta. match goal with |- context [match ?r with Ok _ => _ | Err _ => _ end] =>
    destruct r as [[]|] eqn:Hr end; [|eexists _, _, _; split; [reflexivity|]; by split].
  eexists _, _, _. split; [reflexivity|]. split; [done|].
  split_and!; try done; [|by rewrite <- Hch].
  apply result_bind_Ok in Hr as (? & He & Hr). apply result_bind_Ok in Hr as (? & _ & Hr).
  apply result_bind_Ok in Hr as ([] & Hn & Hr). apply with_voter_set_voters in Hc as [Hv _].
  constructor; try done.
  - unfold validate_boot_epoch in He. by destruct (N.eqb_spec epoch 0).
  - by apply validate_admissible.
  - destruct (gst_stores child e2) as [[log stable]|]; [|done]. eauto.
Qed.

Lemma host_child_ok parent child plan epoch config fork (fsm : F) now rng log stable engine m :
  cfg_voters config ≠ [] → admissible m child config → validate_virgin_stores log stable = Ok tt →
  mr_ok None m →
  mr_ok None (host_child parent child plan epoch config fork fsm now rng log stable engine m).2.
Proof.
  intros Hv Ha Hs Hok. unfold host_child. cbv zeta.
  match goal with |- context [write_fork_baseline config ?b ?g ?ro ?fid epoch log stable] =>
    pose proof (baseline_bootable config b g ro fid epoch log stable Hs) as Hb;
    destruct (write_fork_baseline config b g ro fid epoch log stable) as [log' s'] end.
  cbn [snd] in Hb. unfold restart_with_rng.
  pose proof (restart_inner_wf config now rng fsm epoch None log' s' Hv (proj1 Hb) (proj2 Hb)) as [Hw Hc].
  destruct (restart_inner _ _ _ _ _ _ _ _) as [[log2 s2] ep]. cbn [snd] in *.
  destruct (pin_host_ok child config m Ha Hok) as [Hok' Hid].
  apply mark_dirty_ok, admit_group_ok; [apply Ha|done|by rewrite Hc|]. by apply insert_guard_ok.
Qed.

(** The install returns; a child it hosts was not hosted, and the parent's relay
    guard moves up to the split that bore it. *)
Lemma install_yieldable_fork_ok parent child extra now rng engine m :
  mr_ok None m →
  ∃ r engine' m', install_yieldable_fork_with_rng parent child extra now rng engine m
                  = Some (r, engine', m') ∧ mr_ok None m'
    ∧ ∀ fk, r = Installed fk →
        if_parent fk = parent ∧ mr_groups m !! child = None ∧ is_Some (mr_groups m' !! child)
        ∧ floor_admits (fg_floor {| efg_engine := engine; efg_extra := extra |} child)
            (if_child_gen fk) = true
        ∧ guard m parent < if_parent_gen_after fk ∧ guard m' parent = if_parent_gen_after fk.
Proof.
  intros Hok. unfold install_yieldable_fork_with_rng.
  destruct (prepare_fork_install_ok parent child extra engine m Hok) as (r & e1 & m1 & -> & Hok1 & Hrd).
  cbn [mbind option_bind]. destruct r as [p plan epoch config|o].
  2: { eexists _, _, _. split; [reflexivity|]. split; [done|]. intros fk ->. by destruct (Hrd fk). }
  destruct Hrd as (-> & -> & [Hgu Hch Hep [Hcf Hv] Ha (log & stable & Hst & Hvs)] & Hfl).
  rewrite Hst.
  destruct (mr_groups m !! parent) as [ep|] eqn:Hg; [|eexists _, _, _; split; [reflexivity|]; by split].
  destruct (pop_pending_fork_total ep) as (q & ep' & Hp & _ & _); [by apply wf_forks, (ok_wf _ _ Hok parent)|].
  rewrite Hp. cbn [mbind option_bind].
  pose proof (quiet_pop_fork (L := L) (S := S) _ _ _ Hp) as Hq.
  destruct q as [[fork fsm]|]; [|eexists _, _, _; split; [reflexivity|]; by split].
  assert (Hne : child ≠ parent) by (intros ->; destruct Ha; congruence).
  pose proof (host_child_ok parent child plan epoch config fork fsm now rng log stable e1
    (set_group parent ep' m) Hv) as Hh.
  destruct (host_child _ _ _ _ _ _ _ _ _ _ _ _ _) as [[o e2] m2] eqn:Ho. cbn [snd] in Hh.
  eexists _, _, _. split; [reflexivity|]. split.
  { apply Hh; [|done|by eapply mr_ok_quiet]. split; [|apply Ha].
    cbn. rewrite lookup_insert_ne by done. apply Ha. }
  intros fk ->. unfold host_child in Ho. repeat case_match. simplify_eq. split_and!; try done.
  - apply Ha.
  - rewrite mark_dirty_groups, admit_group_lookup. done.
  - unfold guard. rewrite mark_dirty_lineage. cbn. by rewrite lookup_insert_ne, lookup_insert_eq.
Qed.
End install.
End admission.
