(* ===== verification/MultiRun.v ===== *)
(** * Runs of the container

    The calls a host makes on [MultiRaft] as data and what holds in every
    container they lead to, after two parts they need: the relay guard, and the
    group engine under the container.

    [GroupEngine] as the engine [MultiRaft] asks for
    ([sailing-proto/src/multi/engine/mod.rs] and [FloorStore for GroupEngine] of
    [sailing-proto/src/multi/mod.rs]): its stores are lent by group, its floors
    and lineage counters answer with the freshest record.  Then what the engine
    promises the container, and what its stable store shows. *)

From S2P Require Import Prelude Bytes Num Quorum Progress ProgressMap Conf Tracker ConfChange.
From S2P Require Import ConfChangeProps Config Lease Prng ReadOnly Staging Data Frame Entry.
From S2P Require Import Storage Shape EngineLog EngineStable GroupEngine Restart Forwarded.
From S2P Require Import Message Wire Codec Endpoint Merge Invariant Persistence Replication.
From S2P Require Import Election Propose Handlers Commit Apply Boot Reads Snapshot Append Drive.
From S2P Require Import VoteFrame Frames ApplyFrame HandlerFrame Vote BootFrame SnapshotFrame.
From S2P Require Import VoteDrive Multi MultiRemove MultiFork MultiRelay MultiVerbs MultiMerge.
From S2P Require Import MultiInv MultiSteps MultiForkSteps MultiService MultiCrank MultiAdmit.

Section host.
Context {BD : BuffaDecode} {I : Type} `{!NodeId I} {G : Type} `{!NodeId G}.
Abbreviation GroupEngine := (GroupEngine (I := I) (G := G)).

#[global] Instance GroupEngine_GroupStores : GroupStores G EngineLog (EngineStable I) GroupEngine := {|
  gst_stores := λ g e, (λ st, (gs_log st, gs_stable st)) <$> ge_groups e !! g;
  gst_write := λ g l s e,
    with_groups (alter (λ _, {| gs_log := l; gs_stable := s |}) g (ge_groups e)) e;
|}.

#[global] Instance GroupEngine_GroupStoresLaws :
  GroupStoresLaws G EngineLog (EngineStable I) GroupEngine.
Proof.
  constructor; cbn.
  - intros g l s e [p Hp]. rewrite lookup_alter_eq. by destruct (ge_groups e !! g).
  - intros g g' l s e Hne. by rewrite lookup_alter_ne.
Qed.

#[global] Instance GroupEngine_FloorStore : FloorStore G GroupEngine := {|
  fs_floor := GroupEngine_group_floor;
  fs_lineage := GroupEngine_group_gen;
|}.

Definition GroupEngine_contains_group (e : GroupEngine) (g : G) : bool :=
  bool_decide (is_Some (ge_groups e !! g)).

#[global] Instance GroupEngine_MultiEngine : MultiEngine G I EngineLog (EngineStable I) GroupEngine := {|
  me_contains_group := GroupEngine_contains_group;
  me_add_group := GroupEngine_add_group;
  me_remove_group := GroupEngine_remove_group;
  me_next_boot_epoch := GroupEngine_next_boot_epoch;
|}.

(** A write stays staged behind the barrier, a snapshot is shown at once. *)
#[global] Instance EngineStable_StableReadLaws (alloc : N → bool) :
  StableReadLaws I (EngineStable I) (StableStore0 := EngineStable_StableStore alloc).
Proof. constructor; try done. intros. by right. Qed.
End host.

(** * The relay guard never falls under a hosted parent

    The guard of a parent is the generation of the last of its splits that was
    relayed; a fork at or below it is dropped, one above it may be hosted.  Here:
    no call on the container lowers the guard of a group it hosts. *)

Section guards.
Context {G I F R L S : Type} `{!NodeId G, !NodeId I, !StateMachine F, !Rng R}.
Context `{!LogStore L, !StableStore I S, !StableWriteLaws I S, !StableReadLaws I S}.
Context {DG : Data G} {DI : Data I} {BS : BuffaSizes} {DC : Data sm_command} {DS : Data sm_snapshot}.
Context {BD : BuffaDecode} {BE : BuffaEncode} {BC : Buffa PbConfChangeV2}.
Abbreviation Endpoint := (Endpoint I F R).
Abbreviation MultiRaft := (MultiRaft G I F R).
Abbreviation mr_ok x m := (mr_ok (Q := mr_poisoned_seen m) x m).
Implicit Types (m : MultiRaft) (ep : Endpoint) (g gid : G) (log : L) (stable : S).
Implicit Types (config : Config I).

Definition guards_kept m m' : Prop := ∀ g, is_Some (mr_groups m !! g) → guard m g ≤ guard m' g.

#[global] Instance guards_kept_refl : Reflexive guards_kept.
Proof. by intros m g _. Qed.

Lemma guards_le_kept m m' : guards_le m m' → guards_kept m m'.
Proof. intros H g _. apply H. Qed.

(** ** The relay *)

Lemma take_head_guards g m r m' : take_head_fork g m = Some (r, m') → guards_le m m'.
Proof. unfold take_head_fork. repeat case_match; intros; simplify_eq; same_guards. Qed.

Section gate.
Context {X : Type} `{!ForkGate G X}.
Implicit Types (gate : X).

Lemma act_on_fork_guards g ep fork v m h m' : act_on_fork g ep fork v m = Some (h, m') → guards_le m m'.
Proof.
  assert (Htake : ∀ k, (∀ r m1, guards_le m1 (k r m1).2) →
    ('(r, m1) ← take_head_fork g m; Some (k r m1)) = Some (h, m') → guards_le m m').
  { intros k Hk. destruct (take_head_fork g m) as [[r m1]|] eqn:Ht; [|done]. apply take_head_guards in Ht.
    cbn [mbind option_bind]. intros [= Hr]. specialize (Hk r m1). rewrite Hr in Hk. by etrans. }
  destruct v; cbn [act_on_fork].
  - destruct (drop_forks _ _); [|done]. cbn [mbind option_bind]. intros [= _ <-]. same_guards.
  - by apply (Htake (λ _ m1, (HfResolved, m1))).
  - intros [= _ <-]. unfold park_fork. case_bool_decide; same_guards.
  - apply (Htake (λ r m1, (HfResolved, match r with
      Some f => advance_relay_guard g (pf_parent_gen_after f) m1 | None => m1 end))).
    intros [f|] m1; [apply advance_relay_guard_guards|done].
  - destruct (Config_with_voter_set _ _); [by intros [= _ <-]|]. intros He.
    apply (Htake (λ r m1, match r with None => (HfEmpty, m1) | Some f =>
      (HfResolved, push_refusal g child (advance_relay_guard g (pf_parent_gen_after f) m1)) end)).
    + intros [f|] m1; [|done]. cbn [snd].
      etrans; [apply (advance_relay_guard_guards g (pf_parent_gen_after f))|same_guards].
    + rewrite <- He. by destruct (take_head_fork g m) as [[[]]|].
  - intros [= _ <-]. unfold park_fork. case_bool_decide; same_guards.
  - apply (Htake (λ _ m1, (HfResolved, push_refusal g child m1))). intros. same_guards.
Qed.

Lemma examine_guards g gate m h m' : examine_head_fork g gate m = Some (h, m') → guards_le m m'.
Proof.
  unfold examine_head_fork, consume_abandoned_head_fork. destruct (group_is _ _ _).
  - destruct (take_head_fork g m) as [[r m1]|] eqn:Ht; [|done]. apply take_head_guards in Ht.
    destruct r as [f|]; intros [= _ <-]; [|done]. etrans; [exact Ht|].
    etrans; [apply (advance_relay_guard_guards g (pf_parent_gen_after f))|]. destruct (decode_exact _); same_guards.
  - destruct (mr_groups m !! g); [|by intros [= _ <-]]. destruct (peek_pending_fork _); [|by intros [= _ <-]].
    apply act_on_fork_guards.
Qed.

Lemma drain_parked_guards gate gids held m r held' m' :
  drain_parked gate gids held m = Some (r, held', m') → guards_le m m'.
Proof.
  revert held m. induction gids as [|g gids IH]; intros held m; cbn [drain_parked]; [by intros [= _ _ <-]|].
  destruct (examine_head_fork g gate m) as [[h m1]|] eqn:He; [|done]. apply examine_guards in He.
  cbn [mbind option_bind]. destruct h; [| | |intros [= _ _ <-]; etrans; [exact He|same_guards]];
    intros Hd%IH; (etrans; [exact He|]); (etrans; [|exact Hd]); same_guards.
Qed.

Lemma drain_dirty_guards fuel gate held m r held' m' :
  drain_dirty fuel gate held m = Some (r, held', m') → guards_le m m'.
Proof.
  assert (Hpop : ∀ m, guards_le m (pop_dirty_fork m)).
  { intros m0. unfold pop_dirty_fork. destruct (mr_dirty_forks m0); same_guards. }
  revert held m. induction fuel as [|fuel IH]; intros held m; cbn [drain_dirty]; [done|].
  destruct (mr_dirty_forks m) as [|g q]; [by intros [= _ _ <-]|].
  case_decide; [intros Hd%IH; etrans; [apply Hpop|exact Hd]|].
  destruct (examine_head_fork g gate m) as [[h m1]|] eqn:He; [|done]. apply examine_guards in He.
  cbn [mbind option_bind]. destruct h; [intros Hd%IH..|intros [= _ _ <-]; done];
    (etrans; [exact He|]); try exact Hd; (etrans; [apply Hpop|exact Hd]).
Qed.

Lemma drain_to_yieldable_guards gate m o m' : drain_to_yieldable gate m = Some (o, m') → guards_le m m'.
Proof.
  unfold drain_to_yieldable. cbv zeta.
  destruct (drain_parked _ _ _ _) as [[[r held] m1]|] eqn:Hp; [|done]. apply drain_parked_guards in Hp.
  destruct r as [[p pl]|]; [by intros [= _ <-]|].
  destruct (drain_dirty _ _ _ _) as [[[r held'] m2]|] eqn:Hd; [|done]. apply drain_dirty_guards in Hd.
  destruct r as [[p pl]|]; intros [= _ <-]; by etrans.
Qed.
End gate.

(** ** Admission and removal *)

Lemma admit_guards g lin ep config m :
  mr_groups m !! g = None → guards_kept m (admit_group g lin ep (pin_host config m)).
Proof.
  intros Hn h [e He]. unfold guard. cbn. by rewrite lookup_insert_ne by congruence.
Qed.

Lemma install_guards {E X} `{!MultiEngine G I L S E, !ForkGate G X} parent child (extra : X) now rng
    (engine : E) m r engine' m' :
  mr_ok None m → install_yieldable_fork_with_rng parent child extra now rng engine m = Some (r, engine', m') →
  guards_kept m m'.
Proof.
  intros Hok Hi. unfold install_yieldable_fork_with_rng in Hi.
  destruct (prepare_fork_install_ok parent child extra engine m Hok) as (p & e1 & m1 & Hp & _ & Hrd).
  rewrite Hp in Hi. cbn [mbind option_bind] in Hi. destruct p as [q plan epoch config|o].
  - destruct Hrd as (-> & -> & [Hgu _ _ _ [Hfree _] _] & _).
    destruct (gst_stores child e1) as [[log stable]|]; [|by simplify_eq].
    destruct (mr_groups m !! parent) as [ep|]; [|by simplify_eq].
    destruct (pop_pending_fork ep) as [[[[fork fsm]|] ep']|]; [|cbn in Hi; by simplify_eq|done].
    cbn [mbind option_bind] in Hi. unfold host_child in Hi. repeat case_match. simplify_eq.
    intros g [hosted_ep Hhost]. unfold guard in *. rewrite mark_dirty_lineage. cbn.
    rewrite lookup_insert_ne by congruence. destruct (decide (g = parent)) as [->|Hne].
    + rewrite lookup_insert_eq. cbn. lia.
    + by rewrite lookup_insert_ne by done.
  - simplify_eq. apply guards_le_kept. unfold prepare_fork_install in Hp.
    destruct (examine_head_fork parent _ m) as [[h m2]|] eqn:He; [|done]. apply examine_guards in He.
    cbn [mbind option_bind] in Hp. repeat case_match; by simplify_eq.
Qed.

Section stores.
Context {St : Type} `{!GroupStores G L S St}.

Lemma claims_scan_lineage g (st : St) l m :
  mr_lineage (claims_scan (L := L) (S := S) g st l m).2 = mr_lineage m.
Proof.
  revert m. induction l as [|h l IH]; intros m; cbn [claims_scan]; [done|].
  repeat case_match; try done; rewrite ?IH; done.
Qed.

Lemma some_source_claims_target_lineage g (st : St) m :
  mr_lineage (some_source_claims_target (L := L) (S := S) g st m).2 = mr_lineage m.
Proof. unfold some_source_claims_target. case_match; [done|]. apply claims_scan_lineage. Qed.

Lemma remove_group_guards g (st : St) m r m' :
  MultiRaft_remove_group (L := L) (S := S) g st m = Some (r, m') → guards_le m m'.
Proof.
  assert (Hr : guards_le m (remove_refusal (L := L) (S := S) g st m).2).
  { unfold remove_refusal. repeat (case_match; [done|]). case_match; [|done].
    pose proof (some_source_claims_target_lineage g st m).
    destruct (some_source_claims_target g st m). by apply guards_same. }
  unfold MultiRaft_remove_group. destruct (remove_refusal g st m) as [[|e] m1]; cbn [snd] in Hr.
  - destruct (remove_group_inner g m1) as [[q m2]|] eqn:Hi; [|done]. apply remove_inner_guards in Hi.
    cbn. intros [= _ <-]. by etrans.
  - by intros [= _ <-].
Qed.
End stores.
End guards.

(** * Runs of the container

    Every call a host makes on [MultiRaft], as data, and what holds in every
    container such calls lead to: nothing panics, the invariant stands, no
    output is left behind, a staged fork is relayed at most once, and a group
    the merge service takes down is reported.

    Each call is given its stores as arguments, so a theorem here holds whatever
    the host keeps between two calls.  The premises are a host's duties: a
    configuration with voters, and 64-bit terms and indices in what a peer or a
    disk hands over. *)

Section run.
Context {G I F R L S E X : Type} `{!NodeId G, !NodeId I, !StateMachine F, !Rng R}.
Context `{!LogStore L, !StableStore I S, !StableWriteLaws I S, !StableReadLaws I S}.
Context `{!MultiEngine G I L S E, !ForkGate G X}.
Context {DG : Data G} {DI : Data I} {BS : BuffaSizes} {DC : Data sm_command} {DS : Data sm_snapshot}.
Context {BD : BuffaDecode} {BE : BuffaEncode} {BC : Buffa PbConfChangeV2}.
Abbreviation Endpoint := (Endpoint I F R).
Abbreviation MultiRaft := (MultiRaft G I F R).
Implicit Types (m : MultiRaft) (ep : Endpoint) (g gid : G) (log : L) (stable : S).
Implicit Types (config : Config I).

(** ** The calls *)

Inductive op :=
  | OpCreate (g : G) (generation : u64) (config : Config I) (now : Now) (rng : R) (fsm : F)
  | OpFound (g : G) (generation : u64) (config : Config I) (now : Now) (rng : R) (fsm : F)
      (epoch : u64) (log : L) (stable : S)
  | OpRestore (g : G) (config : Config I) (now : Now) (rng : R) (fsm : F) (epoch : u64)
      (log : L) (stable : S)
  | OpRestoreMigrating (g : G) (config : Config I) (now : Now) (rng : R) (fsm : F) (epoch : u64)
      (prior : option Duration) (log : L) (stable : S)
  | OpFromFork (g : G) (generation : u64) (config : Config I) (now : Now) (rng : R) (fsm : F)
      (snapshot : bytes) (read_only : option ReadOnlyOption) (epoch : u64) (log : L) (stable : S)
  | OpInstall (parent child : G) (extra : X) (now : Now) (rng : R) (engine : E)
  | OpPeekFork (Y : Type) (judge : ForkGate G Y) (gate : Y)
  | OpRemove (g : G) (engine : E)
  | OpMessage (g : G) (now : Now) (from : I) (msg : Message I) (log : L) (stable : S)
  | OpTimeout (g : G) (now : Now) (log : L) (stable : S)
  | OpStorage (g : G) (now : Now) (log : L) (stable : S)
  | OpPropose (g : G) (now : Now) (cmd : sm_command) (log : L)
  | OpFlush (g : G) (now : Now) (log : L) (stable : S)
  | OpConfChange (g : G) (now : Now) (cc : ConfChange I) (log : L)
  | OpConfChangeV2 (g : G) (now : Now) (cc : ConfChangeV2 I) (log : L)
  | OpReadMode (g : G) (now : Now) (mode : ReadOnlyOption) (log : L)
  | OpReadIndex (g : G) (now : Now) (context : bytes) (log : L)
  | OpTransfer (g : G) (now : Now) (to : I) (log : L) (stable : S)
  | OpSplit (g : G) (now : Now) (child : G) (child_gen : u64) (instruction : bytes) (log : L)
  | OpPrepareMerge (source : G) (now : Now) (target : G) (engine : E)
  | OpCommitMerge (target : G) (now : Now) (source : G) (log : L)
  | OpRollbackMerge (target : G) (now : Now) (source : G) (log : L)
  | OpService (now : Now) (engine : E)
  | OpPollMessage
  | OpPollEvent
  | OpPollConflict
  | OpPollRefusal
  | OpPollGuardAdvance
  | OpPollPoisoned
  | OpPollBlocked
  | OpLiftBarrier (parent : G) (index : Index)
  | OpRaiseGuard (g : G) (lineage : u64)
  | OpQueryPanicked (g : G)
  | OpPlanePanicked.

(** What a host owes a call. *)
Definition op_ok (o : op) : Prop :=
  match o with
  | OpCreate _ _ config _ _ _ | OpFound _ _ config _ _ _ _ _ _
  | OpFromFork _ _ config _ _ _ _ _ _ _ _ => cfg_voters config ≠ []
  | OpRestore _ config _ _ _ _ _ stable | OpRestoreMigrating _ config _ _ _ _ _ _ stable =>
      cfg_voters config ≠ [] ∧ bootable stable
  | OpMessage _ _ _ msg _ _ => message_u64 msg
  | _ => True
  end.

(** The container after the call; [None] is a panic. *)
Definition perform (o : op) m : option MultiRaft :=
  match o with
  | OpCreate g generation config now rng fsm =>
      Some (create_group_with_rng g generation config now rng fsm m).2
  | OpFound g generation config now rng fsm epoch log stable =>
      Some (create_group_founded_at_with_rng g generation config now rng fsm epoch log stable m).2
  | OpRestore g config now rng fsm epoch log stable =>
      Some (restore_group_with_rng_unchecked g config now rng fsm epoch log stable m).2
  | OpRestoreMigrating g config now rng fsm epoch prior log stable =>
      Some (restore_group_migrating_with_rng_unchecked g config now rng fsm epoch prior log stable m).2
  | OpFromFork g generation config now rng fsm snapshot read_only epoch log stable =>
      Some (create_group_from_fork_with_rng g generation config now rng fsm snapshot read_only epoch
              log stable m).2
  | OpInstall parent child extra now rng engine =>
      snd <$> install_yieldable_fork_with_rng parent child extra now rng engine m
  | OpPeekFork Y judge gate => snd <$> peek_yieldable_fork gate m
  | OpRemove g engine => snd <$> MultiRaft_remove_group (L := L) (S := S) g engine m
  | OpMessage g now from msg log stable => Some (MultiRaft_handle_message g now from msg log stable m).2
  | OpTimeout g now log stable => Some (MultiRaft_handle_timeout g now log stable m).2
  | OpStorage g now log stable => Some (MultiRaft_handle_storage g now log stable m).2
  | OpPropose g now cmd log => Some (MultiRaft_propose g now cmd log m).2
  | OpFlush g now log stable => Some (MultiRaft_flush_appends g now log stable m).2
  | OpConfChange g now cc log => Some (MultiRaft_propose_conf_change g now cc log m).2
  | OpConfChangeV2 g now cc log => Some (MultiRaft_propose_conf_change_v2 g now cc log m).2
  | OpReadMode g now mode log => Some (MultiRaft_propose_read_mode_change g now mode log m).2
  | OpReadIndex g now context log => Some (MultiRaft_read_index g now context log m).2
  | OpTransfer g now to log stable => Some (MultiRaft_transfer_leader g now to log stable m).2
  | OpSplit g now child child_gen instruction log =>
      Some (MultiRaft_propose_split g now child child_gen instruction log m).2
  | OpPrepareMerge source now target engine =>
      snd <$> MultiRaft_prepare_merge (L := L) (S := S) source now target engine m
  | OpCommitMerge target now source log => snd <$> MultiRaft_commit_merge target now source log m
  | OpRollbackMerge target now source log => Some (MultiRaft_rollback_merge target now source log m).2
  | OpService now engine => snd <$> service_merge_applies (L := L) (S := S) now engine m
  | OpPollMessage => Some (MultiRaft_poll_message m).2
  | OpPollEvent => Some (MultiRaft_poll_event m).2
  | OpPollConflict => Some (poll_split_conflict m).2
  | OpPollRefusal => Some (poll_split_refusal m).2
  | OpPollGuardAdvance => Some (poll_relay_guard_advance m).2
  | OpPollPoisoned => Some (poll_poisoned m).2
  | OpPollBlocked => Some (poll_merge_blocked m).2
  | OpLiftBarrier parent index => Some (lift_fork_barrier parent index m)
  | OpRaiseGuard g lineage => Some (raise_relay_guard g lineage m)
  | OpQueryPanicked g => Some (MultiRaft_fail_stop_query_panicked g m)
  | OpPlanePanicked => Some (fail_stop_plane_unattributable_panic m)
  end.

Fixpoint performs (ops : list op) m : option MultiRaft :=
  match ops with
  | [] => Some m
  | o :: ops => m ← perform o m; performs ops m
  end.

(** ** Every call returns *)

Lemma poll_message_ok Q m :
  mr_ok (Q := Q) None m → mr_ok (Q := Q) None (MultiRaft_poll_message m).2.
Proof. intros. by apply poll_msgs_ok. Qed.

(** Every call but the poll for a poison. *)
Lemma perform_untold Q o m :
  match o with OpPollPoisoned => False | _ => True end → op_ok o → mr_ok (Q := Q) None m →
  ∃ m', perform o m = Some m' ∧ mr_ok (Q := Q) None m'.
Proof.
  intros Hne Ho Hok. destruct o; cbn [op_ok perform] in *; try done; clear Hne;
    try (eexists; split; [reflexivity|]);
    try (by eauto using create_group_ok, create_group_founded_at_ok, handle_message_ok, handle_timeout_ok,
           handle_storage_ok, propose_ok, flush_appends_ok, propose_conf_change_ok,
           propose_conf_change_v2_ok, propose_read_mode_change_ok, read_index_ok, transfer_leader_ok,
           propose_split_ok, rollback_merge_ok, poll_message_ok, poll_split_conflict_ok,
           poll_merge_blocked_ok, raise_relay_guard_ok, query_panicked_ok, plane_panic_ok).
  - destruct Ho. by apply restore_group_ok.
  - destruct Ho. by apply restore_group_migrating_ok.
  - unfold create_group_from_fork_with_rng. case_match; [done|]. by apply create_group_from_fork_ok.
  - destruct (install_yieldable_fork_ok parent child extra now rng engine m Hok) as (r & e' & m' & -> & ? & _). eauto.
  - unfold peek_yieldable_fork.
    destruct (drain_to_yieldable_ok gate m Hok) as (r & m' & -> & ? & _).
    eexists. by split.
  - destruct (remove_group_ok g engine m Hok) as (r & m' & -> & ?). eauto.
  - destruct (prepare_merge_ok source now target engine m Hok) as (r & st' & m' & -> & ?). eauto.
  - destruct (commit_merge_ok target now source log m Hok) as (r & log' & m' & -> & ?). eauto.
  - destruct (service_ok now engine m Hok) as (res & st' & m' & -> & ? & _). eauto.
  - by apply poll_evs_ok.
  - by apply poll_unclaimed_ok.
  - by apply poll_unclaimed_ok.
  - apply mr_ok_upd_quiet; [|done]. intros. apply (quiet_resolve_fork (L := L) (S := S)).
Qed.

(** The poison the call hands to the host. *)
Definition hands_over (o : op) m : gset G :=
  match o with
  | OpPollPoisoned => match (poll_poisoned m).1 with Some g => {[ g ]} | None => ∅ end
  | _ => ∅
  end.

(** The groups whose poison the host has been told of since their admission,
    [Q] of them before the calls: a removal forgets the group. *)
Fixpoint told (ops : list op) m (Q : gset G) : gset G :=
  match ops with
  | [] => Q
  | o :: ops =>
      match perform o m with
      | None => Q
      | Some m' => told ops m' ((Q ∪ hands_over o m) ∩ mr_poisoned_seen m')
      end
  end.

Lemma perform_told Q o m :
  op_ok o → mr_ok (Q := Q) None m →
  ∃ m', perform o m = Some m' ∧ mr_ok (Q := (Q ∪ hands_over o m) ∩ mr_poisoned_seen m') None m'.
Proof.
  intros Ho Hok.
  enough (∃ m', perform o m = Some m' ∧ mr_ok (Q := Q ∪ hands_over o m) None m') as (m' & ? & Hm').
  { exists m'. split; [done|]. eapply mr_ok_told; [|exact Hm']. set_solver. }
  assert (Hpoll : o = OpPollPoisoned ∨ match o with OpPollPoisoned => False | _ => True end)
    by (destruct o; auto).
  destruct Hpoll as [->|Hne].
  - eexists. split; [reflexivity|]. by apply poll_poisoned_ok.
  - destruct (perform_untold Q o m Hne Ho Hok) as (m' & ? & Hm'). exists m'. split; [done|].
    eapply mr_ok_told; [|exact Hm']. set_solver.
Qed.

Abbreviation mr_ok x m := (mr_ok (Q := mr_poisoned_seen m) x m).

Lemma perform_ok o m : op_ok o → mr_ok None m → ∃ m', perform o m = Some m' ∧ mr_ok None m'.
Proof.
  intros Ho Hok. destruct (perform_told _ o m Ho Hok) as (m' & ? & Hm'). exists m'. split; [done|].
  eapply mr_ok_told; [|exact Hm']. set_solver.
Qed.

Lemma poll_message_kept m : mr_ok None m → mr_ok None (MultiRaft_poll_message m).2.
Proof. intros Hok. eapply mr_ok_seen. by apply poll_message_ok. Qed.

(** ** No call lowers a hosted parent's guard *)

(** The call is one group's endpoint and the marks after it. *)
Ltac delegate_guards := apply guards_le_kept; repeat case_match; simplify_eq; cbn [snd]; same_guards.

Lemma poll_msgs_lineage fuel m : mr_lineage (poll_msgs fuel m).2 = mr_lineage m.
Proof.
  revert m. induction fuel as [|fuel IH]; intros m; cbn [poll_msgs]; [done|].
  unfold msg_turn. repeat case_match; simplify_eq; try done; rewrite IH; by repeat case_match.
Qed.

Lemma poll_evs_lineage fuel m : mr_lineage (poll_evs fuel m).2 = mr_lineage m.
Proof.
  revert m. induction fuel as [|fuel IH]; intros m; cbn [poll_evs]; [done|].
  unfold event_turn. repeat case_match; simplify_eq; try done; rewrite IH; by repeat case_match.
Qed.

Lemma plane_panic_lineage m : mr_lineage (fail_stop_plane_unattributable_panic m) = mr_lineage m.
Proof.
  unfold fail_stop_plane_unattributable_panic. generalize ((btree_map_iter (mr_groups m)).*1). intros l.
  revert m. induction l as [|g l IH]; intros m; cbn [foldl]; [done|]. rewrite IH.
  unfold MultiRaft_fail_stop_query_panicked. by rewrite note_if_poisoned_lineage.
Qed.

Lemma validate_free m g config : validate_new_group m g config = Ok tt → mr_groups m !! g = None.
Proof. by intros [? _]%validate_new_group_Ok. Qed.

(** The constructors. *)
Lemma admitted_guards g lin ep config m :
  validate_new_group m g config = Ok tt →
  guards_kept m (admit_group g lin ep (pin_host config m))
  ∧ guards_kept m (mark_dirty g (admit_group g lin ep (pin_host config m))).
Proof.
  intros Hf%validate_free. pose proof (admit_guards g lin ep config m Hf) as Ha. split; [done|].
  intros h Hh. unfold guard at 2. rewrite mark_dirty_lineage. by apply Ha.
Qed.

Lemma constructor_guards o m m' :
  match o with OpCreate _ _ _ _ _ _ | OpFound _ _ _ _ _ _ _ _ _ | OpRestore _ _ _ _ _ _ _ _
             | OpRestoreMigrating _ _ _ _ _ _ _ _ _ | OpFromFork _ _ _ _ _ _ _ _ _ _ _ => True
             | _ => False end →
  perform o m = Some m' → guards_kept m m'.
Proof.
  destruct o; try done; cbn [perform]; intros _ [= <-];
    unfold create_group_with_rng, create_group_founded_at_with_rng, restore_group_with_rng_unchecked,
      restore_group_migrating_with_rng_unchecked, create_group_from_fork_with_rng,
      create_group_from_fork_with_rng_unreserved, result_bind;
    repeat case_match; try done; simplify_eq; cbn [snd];
    repeat match goal with u : unit |- _ => destruct u end.
  all: by eapply admitted_guards.
Qed.

Lemma perform_guards o m m' : op_ok o → mr_ok None m → perform o m = Some m' → guards_kept m m'.
Proof.
  intros Ho Hok Hp. destruct o;
    try (eapply constructor_guards; [|exact Hp]; done); cbn [perform] in Hp; try (injection Hp as <-).
  - destruct (install_yieldable_fork_with_rng _ _ _ _ _ _ _) as [[[r e'] m1]|] eqn:Hi; [|done].
    injection Hp as <-. by eapply install_guards.
  - unfold peek_yieldable_fork in Hp. destruct (drain_to_yieldable _ m) as [[r m1]|] eqn:Hd; [|done].
    injection Hp as <-. apply guards_le_kept. by apply drain_to_yieldable_guards in Hd.
  - destruct (MultiRaft_remove_group _ _ _) as [[r m1]|] eqn:Hr; [|done]. injection Hp as <-.
    apply guards_le_kept. by apply remove_group_guards in Hr.
  - unfold MultiRaft_handle_message. delegate_guards.
  - unfold MultiRaft_handle_timeout. delegate_guards.
  - unfold MultiRaft_handle_storage. delegate_guards.
  - unfold MultiRaft_propose. delegate_guards.
  - unfold MultiRaft_flush_appends. delegate_guards.
  - unfold MultiRaft_propose_conf_change. delegate_guards.
  - unfold MultiRaft_propose_conf_change_v2. delegate_guards.
  - unfold MultiRaft_propose_read_mode_change. delegate_guards.
  - unfold MultiRaft_read_index. delegate_guards.
  - unfold MultiRaft_transfer_leader. delegate_guards.
  - unfold MultiRaft_propose_split. delegate_guards.
  - pose proof (some_source_claims_target_lineage (L := L) (S := S) source engine m) as Hl.
    unfold MultiRaft_prepare_merge in Hp. apply guards_le_kept, guards_same.
    destruct (some_source_claims_target source engine m) as [c m1]. cbn [snd] in Hl.
    unfold mbind, option_bind in Hp. repeat (case_match; simplify_eq/=; try done); by rewrite mark_dirty_lineage.
  - unfold MultiRaft_commit_merge, mbind, option_bind in Hp. apply guards_le_kept.
    repeat (case_match; simplify_eq/=; try done); same_guards.
  - unfold MultiRaft_rollback_merge. delegate_guards.
  - destruct (service_ok now engine m Hok) as (res & st' & m1 & Hs & _ & _ & Hg & _). rewrite Hs in Hp.
    injection Hp as <-. by apply guards_le_kept.
  - apply guards_le_kept, guards_same, poll_msgs_lineage.
  - apply guards_le_kept, guards_same, poll_evs_lineage.
  - unfold poll_split_conflict. delegate_guards.
  - unfold poll_split_refusal. delegate_guards.
  - unfold poll_relay_guard_advance. delegate_guards.
  - unfold poll_poisoned. delegate_guards.
  - unfold poll_merge_blocked. delegate_guards.
  - apply guards_le_kept. same_guards.
  - apply guards_le_kept, raise_relay_guard_guards.
  - apply guards_le_kept. unfold MultiRaft_fail_stop_query_panicked. same_guards.
  - apply guards_le_kept, guards_same, plane_panic_lineage.
Qed.
End run.
