(* ===== verification/MultiSafety.v ===== *)
(** * What a host may rely on, and a concrete host

    First a concrete host, for the witnesses: the container over the group engine, with a counter as every group's state
    machine: a group whose log holds two committed splits and one whose log holds
    a committed freeze, restored and driven to where their children can be
    installed and the frozen one retired. *)

From S2P Require Import Prelude Bytes Num Quorum Progress ProgressMap Conf Tracker ConfChange.
From S2P Require Import ConfChangeProps Config Lease Prng ReadOnly Staging Data Frame Entry.
From S2P Require Import Storage Shape EngineLog EngineStable GroupEngine Restart Forwarded.
From S2P Require Import Message Wire Codec Endpoint Sample Merge Invariant Persistence.
From S2P Require Import Replication Election Propose Handlers Commit Apply Boot Reads Snapshot.
From S2P Require Import Append Drive VoteFrame Frames ApplyFrame HandlerFrame Vote BootFrame.
From S2P Require Import SnapshotFrame VoteDrive Multi MultiRemove MultiFork MultiRelay MultiVerbs.
From S2P Require Import MultiMerge MultiInv MultiSteps MultiForkSteps MultiService MultiCrank.
From S2P Require Import MultiAdmit MultiRun.

Module MultiDemo.
Import Sample.

(** Payloads of two bytes: an id and a generation. *)
#[global] Instance payloads : BuffaDecode := {|
  buffa_split := λ d, match d with
    | [c; g] => Ok {| sp_child := data_encode (byte_val c); sp_child_gen := 0;
                      sp_parent_gen_after := byte_val g; sp_instruction := [] |}
    | _ => Err BuffaUnexpectedEof
    end;
  buffa_prepare_merge := λ d, match d with
    | [t; g] => Ok {| pm_target := data_encode (byte_val t); pm_source_gen_after := byte_val g |}
    | _ => Err BuffaUnexpectedEof
    end;
  buffa_commit_merge := λ _, Err BuffaOther;
  buffa_rollback_merge := λ _, Err BuffaOther;
  buffa_thaw_discharged := λ _, Err BuffaOther;
|}.

#[global] Instance payloads_out : BuffaEncode := {|
  buffa_enc_split := λ _, []; buffa_enc_prepare_merge := λ _, []; buffa_enc_commit_merge := λ _, [];
  buffa_enc_rollback_merge := λ _, []; buffa_enc_thaw_discharged := λ _, [] |}.

#[global] Instance no_conf_change : Buffa PbConfChangeV2 := {|
  buffa_encode := λ _, []; buffa_decode := λ _, Err BuffaOther |}.

Definition log_of (es : list Entry) : EngineLog :=
  (EngineLog_release_staged (EngineLog_submit_append (OpId_new 0) es EngineLog_new)).2.

Definition stable_at (commit : Index) : EngineStable N :=
  (EngineStable_release_staged (EngineStable_submit_write (OpId_new 0)
     (HardState_with_commit commit (HardState_with_term 1 HardState_initial))
     (EngineStable_new 4096))).2.

Definition splits : EngineLog :=
  log_of [Entry_new 1 1 EkSplit [x07; x01]; Entry_new 1 2 EkSplit [x08; x02]].
Definition freeze : EngineLog := log_of [Entry_new 1 1 EkPrepareMerge [x01; x01]].

Abbreviation Engine := (GroupEngine (I := N) (G := N)).
Abbreviation Op := (op (G := N) (I := N) (F := N) (R := Prng) (L := EngineLog) (S := EngineStable N)
                       (E := Engine) (X := NoHold)).
Abbreviation Container := (MultiRaft N N N Prng).
Definition now : Now := Now_monotonic 5.

Definition boot (g : N) (log : EngineLog) (commit : Index) : list Op :=
  [OpRestore g (config 1) now (Prng_new g) 0 1 log (stable_at commit);
   OpStorage g now log (stable_at commit)].

(** A leader is heard of. *)
Definition beat : Op :=
  OpMessage 1 now 2 (MHeartbeat (Heartbeat_new 1 2 2 [])) splits (stable_at 2).

Definition calls : list Op := boot 1 splits 2 ++ boot 5 freeze 1 ++ [beat].

Abbreviation run := (performs (X := NoHold) (DG := Data_u64) (DI := Data_u64) (DC := Data_u64) (DS := Data_u64)).
Abbreviation install := (install_yieldable_fork_with_rng (X := NoHold) (DG := Data_u64) (DI := Data_u64)
                           (DC := Data_u64) (DS := Data_u64)).

(** Both groups hosted: one with two staged forks, one frozen. *)
Definition host : Container := default MultiRaft_new (run calls MultiRaft_new).

End MultiDemo.

(** * What a host may rely on

    Theorems about every container a run of calls leads to ([MultiRun.performs]
    from an empty one), and a run of each on the group engine. *)

Section safety.
Context {G I F R L S E X : Type} `{!NodeId G, !NodeId I, !StateMachine F, !Rng R}.
Context `{!LogStore L, !StableStore I S, !StableWriteLaws I S, !StableReadLaws I S}.
Context `{!MultiEngine G I L S E, !ForkGate G X}.
Context {DG : Data G} {DI : Data I} {BS : BuffaSizes} {DC : Data sm_command} {DS : Data sm_snapshot}.
Context {BD : BuffaDecode} {BE : BuffaEncode} {BC : Buffa PbConfChangeV2}.
Abbreviation Endpoint := (Endpoint I F R).
Abbreviation MultiRaft := (MultiRaft G I F R).
Implicit Types (m : MultiRaft) (ep : Endpoint) (g gid : G) (log : L) (stable : S).
Implicit Types (config : Config I).

Abbreviation op := (op (G := G) (I := I) (F := F) (R := R) (L := L) (S := S) (E := E) (X := X)).

(** ** No call panics *)

(** Every call keeps the account of the poisons the host has been told of. *)
Lemma performs_told Q (ops : list op) m :
  Forall op_ok ops → mr_ok (Q := Q) None m →
  ∃ m', performs ops m = Some m' ∧ mr_ok (Q := told ops m Q) None m'.
Proof.
  intros Ho. revert Q m. induction Ho as [|o ops Ho _ IH]; intros Q m Hok; cbn [performs told]; [by eauto|].
  destruct (perform_told Q o m Ho Hok) as (m1 & -> & Hok1). cbn [mbind option_bind]. by apply IH.
Qed.

(** C4: from an empty container, any sequence of calls - constructors, restores,
    messages, timers, storage completions, proposals, splits, merges, the merge
    service, the fork relay, removals, polls, fail-stops - returns, whatever the
    stores hold, provided the configurations have voters and what comes from
    peers and disks is of 64 bits.  The container it leaves satisfies the
    invariant: every endpoint is well formed and of this host, every queue is
    free of duplicates and mirrors its set, every group with an output or a
    staged fork is in the queue that reports it, and every poisoned group is in
    the queue of the poison poll or was handed to the host by a poll since the
    group was admitted - but for the poison of an exhausted log, which the
    container may not be told of. *)
Theorem container_run_returns (ops : list op) :
  Forall op_ok ops →
  ∃ m, performs ops MultiRaft_new = Some m ∧ mr_ok (Q := told ops MultiRaft_new ∅) None m
    ∧ ∀ g ep, mr_groups m !! g = Some ep → is_poisoned ep = true →
        g ∈ mr_poisoned_pending m ∨ g ∈ told ops MultiRaft_new ∅ ∨ exhausted ep.
Proof.
  intros Ho. destruct (performs_told ∅ ops MultiRaft_new Ho mr_ok_new) as (m & ? & Hok).
  exists m. split_and!; [done|done|]. intros g ep Hg Hp.
  destruct (ok_attended _ _ Hok g ep Hg) as [_ _ _ Hat]; [done|]. destruct (Hat Hp) as [Hs|?]; [|by eauto].
  destruct (ok_signalled _ _ Hok g Hs); eauto.
Qed.

Abbreviation mr_ok x m := (mr_ok (Q := mr_poisoned_seen m) x m).

(** A container some run of well-formed calls leads to. *)
Definition reached m : Prop := ∃ ops : list op, Forall op_ok ops ∧ performs ops MultiRaft_new = Some m.

Lemma performs_ok (ops : list op) m :
  Forall op_ok ops → mr_ok None m → ∃ m', performs ops m = Some m' ∧ mr_ok None m'.
Proof.
  intros Ho. revert m. induction Ho as [|o ops Ho _ IH]; intros m Hok; cbn [performs]; [by eauto|].
  destruct (perform_ok o m Ho Hok) as (m1 & -> & Hok1). cbn [mbind option_bind]. by apply IH.
Qed.

Lemma reached_ok m : reached m → mr_ok None m.
Proof.
  intros (ops & Ho & Hp). destruct (performs_ok ops MultiRaft_new Ho mr_ok_new) as (m' & Hm & ?).
  by rewrite Hp in Hm; simplify_eq.
Qed.

(** ** The output polls *)

(** One group's queue lost its head; nothing else of any group moved. *)
Definition polled {A} (queue : Endpoint → list A) (set_queue : list A → Endpoint → Endpoint)
    (r : option (G * A)) m m' : Prop :=
  match r with
  | None => mr_groups m' = mr_groups m
            ∧ ∀ g ep, mr_groups m !! g = Some ep → is_poisoned ep = true ∨ queue ep = []
  | Some (g, out) =>
      ∃ ep q, mr_groups m !! g = Some ep ∧ is_poisoned ep = false ∧ queue ep = out :: q
              ∧ mr_groups m' = <[g := set_queue q ep]> (mr_groups m)
  end.

Definition outgoing ep : list (Outgoing I) := ou_outgoing (ep_outputs ep).
Definition set_outgoing (q : list (Outgoing I)) ep : Endpoint :=
  ep <| ep_outputs ::= λ o, o <| ou_outgoing := q |> |>.
Definition events ep : list (Event I sm_response) := ou_events (ep_outputs ep).
Definition set_events (q : list (Event I sm_response)) ep : Endpoint :=
  ep <| ep_outputs ::= λ o, o <| ou_events := q |> |>.

Lemma quiet_queue (b : bool) {A} (q : list A) :
  negb b && negb (bool_decide (length q = 0%nat)) = false → b = true ∨ q = [].
Proof. destruct b; [by left|]. destruct q; [by right|done]. Qed.

Lemma poll_msgs_groups fuel m :
  match poll_msgs fuel m with
  | (None, m') => mr_groups m' = mr_groups m
  | (Some out, m') => polled outgoing set_outgoing (Some out) m m'
  end.
Proof.
  revert m. induction fuel as [|fuel IH]; intros m; cbn [poll_msgs]; [done|].
  unfold msg_turn. destruct (mr_dirty_msgs m) as [|g q]; [done|].
  specialize (IH (m <| mr_dirty_msgs := q |> <| mr_dirty_msgs_set ::= λ s, s ∖ {[ g ]} |>)).
  destruct (mr_groups m !! g) as [ep|] eqn:Hg; [|exact IH].
  unfold poll_message. destruct (is_poisoned ep) eqn:Hp; [exact IH|].
  destruct (ou_outgoing (ep_outputs ep)) as [|u us] eqn:Ho; [exact IH|]. by exists ep, us.
Qed.

Lemma poll_evs_groups fuel m :
  match poll_evs fuel m with
  | (None, m') => mr_groups m' = mr_groups m
  | (Some out, m') => polled events set_events (Some out) m m'
  end.
Proof.
  revert m. induction fuel as [|fuel IH]; intros m; cbn [poll_evs]; [done|].
  unfold event_turn. destruct (mr_dirty_events m) as [|g q]; [done|].
  specialize (IH (m <| mr_dirty_events := q |> <| mr_dirty_events_set ::= λ s, s ∖ {[ g ]} |>)).
  destruct (mr_groups m !! g) as [ep|] eqn:Hg; [|exact IH].
  unfold poll_event. destruct (is_poisoned ep) eqn:Hp; [exact IH|].
  destruct (ou_events (ep_outputs ep)) as [|u us] eqn:Ho; [exact IH|]. by exists ep, us.
Qed.

Lemma poll_message_polled m :
  mr_ok None m → polled outgoing set_outgoing (MultiRaft_poll_message m).1 m (MultiRaft_poll_message m).2.
Proof.
  intros Hr. unfold MultiRaft_poll_message.
  pose proof (poll_msgs_groups (length (mr_dirty_msgs m)) m) as Hg.
  destruct (poll_msgs_ok (Q := mr_poisoned_seen m) (length (mr_dirty_msgs m)) m) as [Hok Hn]; [done..|].
  destruct (poll_msgs _ m) as [[out|] m']; cbn [fst snd] in *; [done|]. specialize (Hn eq_refl). split; [done|].
  intros g ep He. apply quiet_queue. apply not_true_is_false. intros Hs. rewrite <- Hg in He.
  destruct (ok_attended _ _ Hok g ep He) as [Hat _ _ _]; [done|]. apply Hat in Hs.
  pose proof (ok_msgs _ _ Hok) as [_ Hmi]. apply Hmi in Hs. rewrite Hn in Hs. by apply elem_of_nil in Hs.
Qed.

Lemma poll_event_polled m :
  mr_ok None m → polled events set_events (MultiRaft_poll_event m).1 m (MultiRaft_poll_event m).2.
Proof.
  intros Hr. unfold MultiRaft_poll_event.
  pose proof (poll_evs_groups (length (mr_dirty_events m)) m) as Hg.
  destruct (poll_evs_ok (Q := mr_poisoned_seen m) (length (mr_dirty_events m)) m) as [Hok Hn]; [done..|].
  destruct (poll_evs _ m) as [[out|] m']; cbn [fst snd] in *; [done|]. specialize (Hn eq_refl). split; [done|].
  intros g ep He. apply quiet_queue. apply not_true_is_false. intros Hs. rewrite <- Hg in He.
  destruct (ok_attended _ _ Hok g ep He) as [_ Hat _ _]; [done|]. apply Hat in Hs.
  pose proof (ok_events _ _ Hok) as [_ Hmi]. apply Hmi in Hs. rewrite Hn in Hs. by apply elem_of_nil in Hs.
Qed.

(** Polling a reachable container for a message, or for an event, either takes
    the oldest one of a hosted, unpoisoned group and leaves everything else of
    every group as it was, or answers that there is none - and then no unpoisoned
    hosted group has one waiting. *)
Theorem polls_exact m :
  reached m →
  polled outgoing set_outgoing (MultiRaft_poll_message m).1 m (MultiRaft_poll_message m).2
  ∧ polled events set_events (MultiRaft_poll_event m).1 m (MultiRaft_poll_event m).2.
Proof. intros Hr%reached_ok. split; [by apply poll_message_polled|by apply poll_event_polled]. Qed.

(** ** The fork relay *)

(** C22: the drain of the staged forks ends in every reachable container.  A fork
    it yields is the head of its hosted parent's queue, of a generation above
    the parent's relay guard and admitted by the child's floor, for an id that
    neither the container nor the host's gate holds; when it yields none, every
    group with a staged fork is parked, so nothing it could act on is left. *)
Theorem fork_drain_settles (gate : X) m :
  reached m →
  ∃ o m', drain_to_yieldable gate m = Some (o, m')
    ∧ match o with
      | Yieldable parent plan => yield_checked parent gate m' plan
      | _ => ∀ g ep, mr_groups m' !! g = Some ep → staged_forks ep ≠ [] → is_Some (mr_parked m' !! g)
      end.
Proof.
  intros Hr%reached_ok. destruct (drain_to_yieldable_ok gate m Hr) as (o & m' & ? & _ & ?). eauto.
Qed.

(** C23: a child the install hosts was not hosted before, its generation is
    admitted by the floors of the engine and of the host, and the relay guard of
    its parent rises to the generation of the split that bore it. *)
Theorem install_admits parent child (extra : X) now rng (engine : E) m fk engine' m' :
  reached m →
  install_yieldable_fork_with_rng parent child extra now rng engine m = Some (Installed fk, engine', m') →
  if_parent fk = parent
  ∧ mr_groups m !! child = None ∧ is_Some (mr_groups m' !! child)
  ∧ floor_admits (N.max (fs_floor engine child) (fg_floor extra child)) (if_child_gen fk) = true
  ∧ guard m parent < if_parent_gen_after fk ∧ guard m' parent = if_parent_gen_after fk.
Proof.
  intros Hr%reached_ok Hi.
  destruct (install_yieldable_fork_ok parent child extra now rng engine m Hr) as (r & e & m1 & Hs & _ & Hf).
  rewrite Hi in Hs. injection Hs as <- <- <-. by apply Hf.
Qed.

(** The group is hosted before, between and after the calls. *)
Fixpoint hosted_through g (ops : list op) m : Prop :=
  is_Some (mr_groups m !! g)
  ∧ match ops with
    | [] => True
    | o :: ops => match perform o m with Some m => hosted_through g ops m | None => False end
    end.

Lemma guard_run g (ops : list op) m m' :
  Forall op_ok ops → mr_ok None m → hosted_through g ops m → performs ops m = Some m' →
  guard m g ≤ guard m' g.
Proof.
  intros Ho. revert m. induction Ho as [|o ops Ho _ IH]; intros m Hok Hh Hp; [by injection Hp as <-|].
  cbn [performs hosted_through] in *. destruct Hh as [Hg Hh].
  destruct (perform_ok o m Ho Hok) as (m1 & H1 & Hok1). rewrite H1 in *. cbn [mbind option_bind] in Hp.
  etrans; [by apply (perform_guards o m m1)|by apply IH].
Qed.

(** C5: as long as a parent stays hosted its splits are relayed in the order of
    their generations and each at most once: between two installs under the same
    parent, whatever calls come between them, the generation strictly grows. *)
Theorem fork_relayed_once parent c1 c2 (x1 x2 : X) now1 now2 rng1 rng2 (e1 e2 e1' e2' : E) m m1 m2 m3
    fk1 fk2 (ops : list op) :
  reached m →
  install_yieldable_fork_with_rng parent c1 x1 now1 rng1 e1 m = Some (Installed fk1, e1', m1) →
  Forall op_ok ops → hosted_through parent ops m1 → performs ops m1 = Some m2 →
  install_yieldable_fork_with_rng parent c2 x2 now2 rng2 e2 m2 = Some (Installed fk2, e2', m3) →
  if_parent_gen_after fk1 < if_parent_gen_after fk2.
Proof.
  intros Hr%reached_ok H1 Ho Hh Hp H2.
  destruct (install_yieldable_fork_ok parent c1 x1 now1 rng1 e1 m Hr) as (r & e & m1' & Hs & Hok1 & Hf1).
  rewrite H1 in Hs. injection Hs as <- <- <-. destruct (Hf1 fk1 eq_refl) as (_ & _ & _ & _ & _ & <-). apply mr_ok_seen in Hok1.
  destruct (performs_ok ops m1 Ho Hok1) as (m2' & Hp' & Hok2). rewrite Hp in Hp'. injection Hp' as <-.
  destruct (install_yieldable_fork_ok parent c2 x2 now2 rng2 e2 m2 Hok2) as (r & e & m3' & Hs & _ & Hf2).
  rewrite H2 in Hs. injection Hs as <- <- <-. destruct (Hf2 fk2 eq_refl) as (_ & _ & _ & _ & Hlt & _).
  pose proof (guard_run parent ops m1 m2 Ho Hok1 Hh Hp). lia.
Qed.

(** ** The merge service *)


(** ** One group at a time

    The family of the endpoints alone, without the queues, marks, guards and signals
    the container keeps beside them, as a machine of its own. *)

(** The container's gates read nothing but the endpoints. *)
Definition with_family (fam : gmap G Endpoint) : MultiRaft := MultiRaft_new <| mr_groups := fam |>.

(** The payloads the shape verbs derive; [None] is a refusal. *)
Definition split_proposal fam (child : G) (child_gen : u64) (instruction : bytes) ep : option SplitPayload :=
  match split_gates ep, next_lineage (spl_shape_gen (ep_split ep)), validate_working_generation child_gen with
  | Ok _, Some n, Ok _ =>
      if hosts (with_family fam) child || group_tag_bad (group_key child) then None
      else Some {| sp_child := group_key child; sp_child_gen := child_gen; sp_parent_gen_after := n;
                   sp_instruction := instruction |}
  | _, _, _ => None
  end.

Definition commit_entry (fam : gmap G Endpoint) (target source : G) ep : option CommitMergePayload :=
  if decide (source = target) then None
  else
    sep ← fam !! source;
    match commit_gates source target sep ep with
    | Err _ => None
    | Ok n =>
        freeze_index ← mrg_freeze_index (ep_merge sep);
        freeze_term ← mrg_freeze_term (ep_merge sep);
        Some {| cm_source := group_key source; cm_freeze_index := freeze_index; cm_freeze_term := freeze_term;
                cm_source_gen_after := spl_shape_gen (ep_split sep); cm_target_gen_after := n |}
    end.

Definition rollback_entry (fam : gmap G Endpoint) (target source : G) log ep : option RollbackMergePayload :=
  if decide (source = target) then None
  else
    sep ← fam !! source;
    match rollback_gates source target sep ep log with
    | Err _ => None
    | Ok n => Some (RollbackMergePayload_abort (group_key source) (spl_shape_gen (ep_split sep)) n)
    end.

(** The group a call is for, and the call of its own endpoint it makes, the refusals
    included. *)
Definition endpoint_call (o : op) (fam : gmap G Endpoint) : option (G * (Endpoint → Endpoint)) :=
  match o with
  | OpMessage g now from msg log stable =>
      Some (g, λ ep, if install_blocked (with_family fam) g msg then note_merge_park_unresolvable false ep
                     else (handle_message now from msg log stable ep).2)
  | OpTimeout g now log stable => Some (g, λ ep, (handle_timeout now log stable ep).2)
  | OpStorage g now log stable => Some (g, λ ep, (handle_storage now log stable ep).2)
  | OpPropose g now cmd log => Some (g, λ ep, (propose now cmd log ep).2)
  | OpFlush g now log stable => Some (g, flush_appends now log stable)
  | OpConfChange g now cc log =>
      Some (g, λ ep, if conf_change_moves_voters (cc_ty cc)
                        && some_source_claims_target_unresolved (with_family fam) g then ep
                     else (propose_conf_change now cc log ep).2)
  | OpConfChangeV2 g now cc log =>
      Some (g, λ ep, if existsb (λ c, conf_change_moves_voters (ccs_ty c)) (ccv2_changes cc)
                        && some_source_claims_target_unresolved (with_family fam) g then ep
                     else (propose_conf_change_v2 now cc log ep).2)
  | OpReadMode g now mode log => Some (g, λ ep, (propose_read_mode_change now mode log ep).2)
  | OpReadIndex g now context log => Some (g, λ ep, (read_index now context log ep).2)
  | OpTransfer g now to log stable => Some (g, λ ep, (transfer_leader now to log stable ep).2)
  | OpSplit g now child child_gen instruction log =>
      Some (g, λ ep, match split_proposal fam child child_gen instruction ep with
                     | None => ep
                     | Some p => (propose_split_entry now (group_key child) (encode_split_payload p) log ep).2
                     end)
  | OpCommitMerge g now source log =>
      Some (g, λ ep, match commit_entry fam g source ep with
                     | None => ep
                     | Some p => (propose_merge_entry now EkCommitMerge (encode_commit_merge_payload p) log ep).2
                     end)
  | OpRollbackMerge g now source log =>
      Some (g, λ ep, match rollback_entry fam g source log ep with
                     | None => ep
                     | Some p => (propose_merge_entry now EkRollbackMerge (encode_rollback_merge_payload p) log ep).2
                     end)
  | OpLiftBarrier g index => Some (g, resolve_fork index)
  | OpQueryPanicked g => Some (g, fail_stop_query_panicked)
  | _ => None
  end.

Definition family_step (fam : gmap G Endpoint) (o : op) : gmap G Endpoint :=
  match endpoint_call o fam with Some (g, f) => alter f g fam | None => fam end.

(** A call no group answers, or one that refuses. *)
Lemma alter_absent g (f : Endpoint → Endpoint) m : mr_groups m !! g = None → mr_groups m = alter f g (mr_groups m).
Proof. intros Hg. apply map_eq. intros h. destruct (decide (g = h)) as [->|]; by simplify_map_eq. Qed.

Lemma alter_refused g (f : Endpoint → Endpoint) ep m :
  mr_groups m !! g = Some ep → f ep = ep → mr_groups m = alter f g (mr_groups m).
Proof.
  intros Hg Hf. apply map_eq. intros h. destruct (decide (g = h)) as [->|]; [|by simplify_map_eq].
  rewrite lookup_alter_eq, Hg. cbn. by rewrite Hf.
Qed.

Lemma alter_answered g (f : Endpoint → Endpoint) ep ep' m :
  mr_groups m !! g = Some ep → f ep = ep' →
  mr_groups (mark_dirty g (set_group g ep' m)) = alter f g (mr_groups m).
Proof.
  intros Hg <-. rewrite mark_dirty_groups. cbn. apply map_eq. intros h.
  destruct (decide (g = h)) as [->|]; simplify_map_eq; done.
Qed.

Lemma upd_group_alter g f m : mr_groups (upd_group g f m) = alter f g (mr_groups m).
Proof. done. Qed.

(** The endpoint's call of the goal, and what it makes of [ep]. *)
Ltac name_call ep f Hf :=
  lazymatch goal with |- _ = alter ?f0 _ _ =>
    set (f := f0); assert (f ep = f0 ep) as Hf by reflexivity; cbv beta in Hf; clearbody f
  end.

Lemma split_family g now child child_gen instruction log m :
  mr_groups (MultiRaft_propose_split g now child child_gen instruction log m).2
  = family_step (mr_groups m) (OpSplit g now child child_gen instruction log).
Proof.
  cbn [family_step endpoint_call]. unfold MultiRaft_propose_split.
  destruct (mr_groups m !! g) as [ep|] eqn:Hg; [|by apply alter_absent].
  name_call ep f Hf.
  unfold split_proposal in Hf. change (hosts (with_family (mr_groups m)) child) with (hosts m child) in Hf.
  destruct (split_gates ep); [|by eapply alter_refused].
  destruct (hosts m child); [eapply alter_refused; [done|by rewrite Hf; repeat case_match]|].
  destruct (group_tag_bad _); [eapply alter_refused; [done|by rewrite Hf; repeat case_match]|].
  destruct (next_lineage _); [|by eapply alter_refused].
  destruct (validate_working_generation _); [|by eapply alter_refused]. cbn [orb] in Hf.
  destruct (propose_split_entry _ _ _ _ _) as [[r l] ep']. by eapply alter_answered.
Qed.

Lemma commit_family g now source log m m' :
  perform (OpCommitMerge g now source log) m = Some m' →
  mr_groups m' = family_step (mr_groups m) (OpCommitMerge g now source log).
Proof.
  cbn [family_step endpoint_call perform]. unfold MultiRaft_commit_merge. intros Hp.
  destruct (mr_groups m !! g) as [ep|] eqn:Hg; [|injection Hp as <-; by apply alter_absent].
  name_call ep f Hf.
  unfold commit_entry in Hf. case_decide; [injection Hp as <-; by eapply alter_refused|].
  destruct (mr_groups m !! source) as [sep|]; [|injection Hp as <-; by eapply alter_refused].
  cbn [mbind option_bind] in Hf. destruct (commit_gates _ _ _ _) as [n|]; [|injection Hp as <-; by eapply alter_refused].
  destruct (mrg_freeze_index _) as [fi|]; [|done]. destruct (mrg_freeze_term _) as [ft|]; [|done].
  cbn [mbind option_bind] in Hp, Hf. destruct (propose_merge_entry _ _ _ _ _) as [[r l] ep'].
  injection Hp as <-. by eapply alter_answered.
Qed.

Lemma rollback_family g now source log m :
  mr_groups (MultiRaft_rollback_merge g now source log m).2
  = family_step (mr_groups m) (OpRollbackMerge g now source log).
Proof.
  cbn [family_step endpoint_call]. unfold MultiRaft_rollback_merge.
  destruct (mr_groups m !! g) as [ep|] eqn:Hg; [|by apply alter_absent].
  name_call ep f Hf.
  unfold rollback_entry in Hf. case_decide; [by eapply alter_refused|].
  destruct (mr_groups m !! source) as [sep|]; [|by eapply alter_refused].
  cbn [mbind option_bind] in Hf. destruct (rollback_gates _ _ _ _ _) as [n|]; [|by eapply alter_refused].
  destruct (propose_merge_entry _ _ _ _ _) as [[r l] ep']. by eapply alter_answered.
Qed.

(** A call that is the endpoint's and nothing else. *)
Ltac delegated m g ep Hg f Hf :=
  destruct (mr_groups m !! g) as [ep|] eqn:Hg; [|by apply alter_absent]; name_call ep f Hf.
Ltac answered Hf :=
  lazymatch type of Hf with _ = snd ?r => destruct r as [? ep'] end;
  repeat match goal with p : _ * _ |- _ => destruct p end; by eapply alter_answered.

Lemma perform_family o m m' :
  is_Some (endpoint_call o (mr_groups m)) → perform o m = Some m' → mr_groups m' = family_step (mr_groups m) o.
Proof.
  intros Hs Hp. destruct o; try (by destruct Hs); clear Hs; try (by apply commit_family);
    cbn [perform] in Hp; injection Hp as <-; try apply split_family; try apply rollback_family;
    unfold family_step; cbn [endpoint_call].
  - unfold MultiRaft_handle_message. change (install_blocked (with_family (mr_groups m)) g msg) with (install_blocked m g msg).
    destruct (install_blocked _ _ _); [done|]. delegated m g ep Hg f Hf. answered Hf.
  - unfold MultiRaft_handle_timeout. delegated m g ep Hg f Hf. answered Hf.
  - unfold MultiRaft_handle_storage. delegated m g ep Hg f Hf. answered Hf.
  - unfold MultiRaft_propose. delegated m g ep Hg f Hf. answered Hf.
  - unfold MultiRaft_flush_appends. delegated m g ep Hg f Hf. by eapply alter_answered.
  - unfold MultiRaft_propose_conf_change.
    change (some_source_claims_target_unresolved (with_family (mr_groups m)) g)
      with (some_source_claims_target_unresolved m g). delegated m g ep Hg f Hf.
    destruct (_ && _); [by eapply alter_refused|]. answered Hf.
  - unfold MultiRaft_propose_conf_change_v2.
    change (some_source_claims_target_unresolved (with_family (mr_groups m)) g)
      with (some_source_claims_target_unresolved m g). delegated m g ep Hg f Hf.
    destruct (_ && _); [by eapply alter_refused|]. answered Hf.
  - unfold MultiRaft_propose_read_mode_change. delegated m g ep Hg f Hf. answered Hf.
  - unfold MultiRaft_read_index. delegated m g ep Hg f Hf. answered Hf.
  - unfold MultiRaft_transfer_leader. delegated m g ep Hg f Hf. answered Hf.
  - done.
  - unfold MultiRaft_fail_stop_query_panicked. by rewrite note_if_poisoned_groups.
Qed.

(** The group a call on one group is for. *)
Definition op_group (o : op) : option G := fst <$> endpoint_call o ∅.

Lemma op_group_call o fam : op_group o = fst <$> endpoint_call o fam.
Proof. by destruct o. Qed.

Lemma family_step_other o g fam : op_group o ≠ Some g → family_step fam o !! g = fam !! g.
Proof.
  rewrite (op_group_call o fam). unfold family_step. destruct (endpoint_call o fam) as [[h f]|]; [|done].
  cbn. intros Hne. apply lookup_alter_ne. congruence.
Qed.

(** C7: the container is a family of independent endpoints.  Take any run of calls on
    single groups - messages, timers, storage completions, proposals, membership and
    read-mode changes, splits, commits and roll-backs of merges, reads, transfers,
    fail-stops - and the machine that keeps nothing but the endpoints and lets each
    call act on the endpoint of its group alone, with the refusals decided and the
    payloads derived from the endpoints.  Then container and machine agree on every
    endpoint: the queues, marks, guards and signals the container keeps decide
    nothing, and a group no call is for is left as it was. *)
Theorem container_refines_family (ops : list op) m m' :
  Forall (λ o, is_Some (op_group o)) ops → performs ops m = Some m' →
  mr_groups m' = foldl family_step (mr_groups m) ops
  ∧ ∀ g, Forall (λ o, op_group o ≠ Some g) ops → mr_groups m' !! g = mr_groups m !! g.
Proof.
  intros Hc. revert m. induction Hc as [|o ops Ho _ IH]; intros m; cbn [performs foldl]; [by intros [= <-]|].
  destruct (perform o m) as [m1|] eqn:Hp; [|done]. cbn [mbind option_bind]. intros [Hf Hg]%IH.
  rewrite (op_group_call o (mr_groups m)), fmap_is_Some in Ho.
  rewrite (perform_family o m m1 Ho Hp) in Hf, Hg. split; [done|]. intros g [Hno Hns]%Forall_cons.
  by rewrite Hg, family_step_other.
Qed.

(** ** What a call hosts *)

Definition op_hosts (o : op) : gset G :=
  match o with
  | OpCreate g _ _ _ _ _ | OpFound g _ _ _ _ _ _ _ _ | OpRestore g _ _ _ _ _ _ _
  | OpRestoreMigrating g _ _ _ _ _ _ _ _ | OpFromFork g _ _ _ _ _ _ _ _ _ _ | OpInstall _ g _ _ _ _ => {[ g ]}
  | _ => ∅
  end.

Lemma take_head_hosted g m r m' : take_head_fork g m = Some (r, m') → hosted m' = hosted m.
Proof.
  unfold take_head_fork. destruct (mr_groups m !! g) as [ep|] eqn:Hg; [|by intros [= _ <-]].
  destruct (pop_pending_fork ep) as [[[[f fsm]|] ep']|]; [|by intros [= _ <-]|done].
  intros [= _ <-]. apply hosted_set. by eexists.
Qed.

Lemma hosted_admit g lin ep config m : hosted (admit_group g lin ep (pin_host config m)) ⊆ hosted m ∪ {[ g ]}.
Proof. unfold hosted, admit_group, clear_unresolvable_hints_naming. cbn. rewrite dom_insert_L, dom_fmap_L. set_solver. Qed.

Section gate.
Context {Y : Type} `{!ForkGate G Y}.
Implicit Types (gate : Y).

Lemma act_on_fork_hosted g ep fork v m h m' :
  mr_groups m !! g = Some ep → act_on_fork g ep fork v m = Some (h, m') → hosted m' = hosted m.
Proof.
  intros Hg. assert (Htake : ∀ k : option PendingFork → MultiRaft → HeadFork G I * MultiRaft,
    (∀ r m1, hosted (k r m1).2 = hosted m1) →
    ('(r, m1) ← take_head_fork g m; Some (k r m1)) = Some (h, m') → hosted m' = hosted m).
  { intros k Hk. destruct (take_head_fork g m) as [[r m1]|] eqn:Ht; [|done]. apply take_head_hosted in Ht.
    cbn [mbind option_bind]. intros [= Hr]. specialize (Hk r m1). rewrite Hr in Hk. by rewrite <- Ht. }
  destruct v; cbn [act_on_fork].
  - destruct (drop_forks _ _) as [ep'|]; [|done]. cbn [mbind option_bind]. intros [= _ <-].
    rewrite hosted_note. apply hosted_set. by eexists.
  - by apply (Htake (λ _ m1, (HfResolved, m1))).
  - intros [= _ <-]. unfold park_fork. by case_bool_decide.
  - apply (Htake (λ r m1, (HfResolved, match r with
      Some f => advance_relay_guard g (pf_parent_gen_after f) m1 | None => m1 end))). by intros [f|] m1.
  - destruct (Config_with_voter_set _ _); [by intros [= _ <-]|]. intros He.
    apply (Htake (λ r m1, match r with None => (HfEmpty, m1) | Some f =>
      (HfResolved, push_refusal g child (advance_relay_guard g (pf_parent_gen_after f) m1)) end)).
    + by intros [f|] m1.
    + rewrite <- He. by destruct (take_head_fork g m) as [[[]]|].
  - intros [= _ <-]. unfold park_fork. by case_bool_decide.
  - by apply (Htake (λ _ m1, (HfResolved, push_refusal g child m1))).
Qed.

Lemma examine_hosted g gate m h m' : examine_head_fork g gate m = Some (h, m') → hosted m' = hosted m.
Proof.
  unfold examine_head_fork, consume_abandoned_head_fork. destruct (group_is _ _ _).
  - destruct (take_head_fork g m) as [[r m1]|] eqn:Ht; [|done]. apply take_head_hosted in Ht.
    destruct r as [f|]; intros [= _ <-]; [|done]. rewrite <- Ht. by destruct (decode_exact _).
  - destruct (mr_groups m !! g) as [ep|] eqn:Hg; [|by intros [= _ <-]].
    destruct (peek_pending_fork _); [|by intros [= _ <-]]. by apply act_on_fork_hosted.
Qed.

Lemma hosted_unpark g m : hosted (unpark g m) = hosted m.
Proof. unfold hosted. by rewrite unpark_groups. Qed.

Lemma hosted_mark_forks g m : hosted (mark_forks g m) = hosted m.
Proof. unfold mark_forks. by case_decide. Qed.

Lemma drain_parked_hosted gate gids held m r held' m' :
  drain_parked gate gids held m = Some (r, held', m') → hosted m' = hosted m.
Proof.
  revert held m. induction gids as [|g gids IH]; intros held m; cbn [drain_parked]; [by intros [= _ _ <-]|].
  destruct (examine_head_fork g gate m) as [[h m1]|] eqn:He; [|done]. apply examine_hosted in He. rewrite <- He.
  cbn [mbind option_bind]. destruct h; [intros ->%IH..|intros [= _ _ <-]];
    by rewrite ?hosted_mark_forks, ?hosted_unpark.
Qed.

Lemma drain_dirty_hosted fuel gate held m r held' m' :
  drain_dirty fuel gate held m = Some (r, held', m') → hosted m' = hosted m.
Proof.
  assert (Hpop : ∀ m : MultiRaft, hosted (pop_dirty_fork m) = hosted m).
  { intros m0. unfold pop_dirty_fork. by destruct (mr_dirty_forks m0). }
  revert held m. induction fuel as [|fuel IH]; intros held m; cbn [drain_dirty]; [done|].
  destruct (mr_dirty_forks m) as [|g q]; [by intros [= _ _ <-]|].
  case_decide; [by intros ->%IH|].
  destruct (examine_head_fork g gate m) as [[h m1]|] eqn:He; [|done]. apply examine_hosted in He. rewrite <- He.
  cbn [mbind option_bind]. destruct h; [intros ->%IH..|intros [= _ _ <-]]; by rewrite ?Hpop.
Qed.

Lemma drain_to_yieldable_hosted gate m o m' : drain_to_yieldable gate m = Some (o, m') → hosted m' = hosted m.
Proof.
  unfold drain_to_yieldable. cbv zeta.
  destruct (drain_parked _ _ _ _) as [[[r held] m1]|] eqn:Hp; [|done]. apply drain_parked_hosted in Hp.
  destruct r as [[p pl]|]; [by intros [= _ <-]|].
  destruct (drain_dirty _ _ _ _) as [[[r held'] m2]|] eqn:Hd; [|done]. apply drain_dirty_hosted in Hd.
  destruct r as [[p pl]|]; intros [= _ <-]; by etrans.
Qed.
End gate.

Lemma host_child_hosted parent child plan epoch config fork fsm now rng log stable (engine : E) m :
  hosted (host_child parent child plan epoch config fork fsm now rng log stable engine m).2 ⊆ hosted m ∪ {[ child ]}.
Proof.
  unfold host_child. cbv zeta. destruct (write_fork_baseline _ _ _ _ _ _ _ _) as [log' s'].
  destruct (restart_with_rng _ _ _ _ _ _ _) as [[log2 s2] ep]. cbn [snd]. rewrite hosted_dirty.
  unfold hosted, admit_group, clear_unresolvable_hints_naming. cbn. rewrite dom_insert_L, dom_fmap_L. set_solver.
Qed.

Lemma install_hosted parent child (extra : X) now rng (engine : E) m r engine' m' :
  install_yieldable_fork_with_rng parent child extra now rng engine m = Some (r, engine', m') →
  hosted m' ⊆ hosted m ∪ {[ child ]}.
Proof.
  unfold install_yieldable_fork_with_rng. destruct (prepare_fork_install parent child extra engine m) as [[[p e1] m1]|] eqn:Hp;
    [|done]. assert (hosted m1 = hosted m) as <-.
  { unfold prepare_fork_install in Hp. destruct (examine_head_fork parent _ m) as [[h m2]|] eqn:He; [|done].
    apply examine_hosted in He. cbn [mbind option_bind] in Hp. by repeat (case_match; simplify_eq). }
  clear Hp. cbn [mbind option_bind]. destruct p as [p plan epoch config|o]; [|intros [= _ _ <-]; set_solver].
  destruct (gst_stores child e1) as [[log s]|]; [|intros [= _ _ <-]; set_solver].
  destruct (mr_groups m1 !! p) as [ep|] eqn:Hg; [|intros [= _ _ <-]; set_solver].
  destruct (pop_pending_fork ep) as [[[[fork fsm]|] ep']|]; [|intros [= _ _ <-]; set_solver|done].
  cbn [mbind option_bind]. intros Hh.
  pose proof (host_child_hosted p child plan epoch config fork fsm now rng log s e1 (set_group p ep' m1)) as Hc.
  rewrite hosted_set in Hc by (by eexists).
  destruct (host_child _ _ _ _ _ _ _ _ _ _ _ _ _) as [[] ]. by injection Hh as _ _ <-.
Qed.

Lemma claims_scan_hosted g (st : E) l m : hosted (claims_scan (L := L) (S := S) g st l m).2 = hosted m.
Proof.
  revert m. induction l as [|h l IH]; intros m; cbn [claims_scan]; [done|]. case_decide; [apply IH|].
  destruct (mr_groups m !! h) as [ep|] eqn:Hh; [|apply IH]. destruct (freeze_pending ep); [|apply IH].
  destruct (gst_stores h st) as [[log s]|]; [|done]. destruct (scan_freeze_claims log ep) as [r ep']. cbv zeta.
  assert (hosted (set_group h ep' m) = hosted m) as Hs by (apply hosted_set; by eexists).
  destruct r; [|done]. case_decide; [done|]. by rewrite IH.
Qed.

Lemma some_source_claims_target_hosted g (st : E) m :
  hosted (some_source_claims_target (L := L) (S := S) g st m).2 = hosted m.
Proof. unfold some_source_claims_target. case_match; [done|]. apply claims_scan_hosted. Qed.

Lemma remove_group_hosted g (st : E) m r m' :
  mr_ok None m → MultiRaft_remove_group (L := L) (S := S) g st m = Some (r, m') →
  hosted m' ⊆ hosted m ∧ ∀ o, r = Ok o → g ∉ hosted m'.
Proof.
  intros Hok. assert (Hr : hosted (remove_refusal (L := L) (S := S) g st m).2 = hosted m
      ∧ mr_ok None (remove_refusal (L := L) (S := S) g st m).2).
  { unfold remove_refusal. repeat (case_match; [done|]). case_match; [|done].
    pose proof (some_source_claims_target_hosted g st m). pose proof (some_source_claims_target_ok g st m Hok) as [Hs%mr_ok_seen _].
    destruct (some_source_claims_target g st m). naive_solver. }
  unfold MultiRaft_remove_group. destruct (remove_refusal g st m) as [[|e] m1]; destruct Hr as [<- Hok1]; cbn [snd] in *.
  - destruct (remove_group_inner_ok g m1 Hok1) as (m2 & -> & _ & Hd). cbn. intros [= <- <-].
    unfold hosted in *. rewrite Hd. split; [set_solver|]. intros _ _. set_solver.
  - by intros [= <- <-].
Qed.

Lemma one_group_hosted o m m' : is_Some (op_group o) → perform o m = Some m' → hosted m' = hosted m.
Proof.
  rewrite (op_group_call o (mr_groups m)), fmap_is_Some. intros Ho Hp. unfold hosted.
  rewrite (perform_family o m m' Ho Hp). unfold family_step. destruct (endpoint_call _ _) as [[g f]|]; [|done].
  apply dom_alter_L.
Qed.

Lemma polled_hosted {A} (queue : Endpoint → list A) set_queue r m m' : polled queue set_queue r m m' → hosted m' = hosted m.
Proof.
  unfold hosted. destruct r as [[g out]|]; cbn [polled]; [|by intros [-> _]].
  intros (ep & q & Hg & _ & _ & ->). apply dom_insert_lookup_L. by eexists.
Qed.

Lemma plane_panic_hosted m : hosted (fail_stop_plane_unattributable_panic m) = hosted m.
Proof.
  unfold fail_stop_plane_unattributable_panic. generalize ((btree_map_iter (mr_groups m)).*1). intros l.
  revert m. induction l as [|g l IH]; intros m; cbn [foldl]; [done|]. by rewrite IH, hosted_note, hosted_upd.
Qed.

Lemma prepare_merge_hosted source now target (st st' : E) m r m' :
  MultiRaft_prepare_merge (L := L) (S := S) source now target st m = Some (r, st', m') → hosted m' = hosted m.
Proof.
  unfold MultiRaft_prepare_merge. pose proof (some_source_claims_target_hosted source st m) as Hc.
  destruct (some_source_claims_target source st m) as [b m1]. cbn [snd] in Hc.
  destruct (mr_groups m !! source) as [sep|]; [|by intros [= _ _ <-]].
  repeat (case_match; try (by intros [= _ _ <-])).
  destruct (mr_groups m1 !! source) as [ep|] eqn:Hg; [|done]. cbn [mbind option_bind].
  destruct (propose_merge_entry _ _ _ _ _) as [[? ?] ep']. intros [= _ _ <-]. rewrite hosted_dirty, hosted_set; [done|].
  by eexists.
Qed.

Lemma perform_hosted o m m' : mr_ok None m → perform o m = Some m' → hosted m' ⊆ hosted m ∪ op_hosts o.
Proof.
  intros Hok Hp. assert (∀ g, op_group o = Some g → hosted m' ⊆ hosted m ∪ op_hosts o) as Hg.
  { intros g Hg. rewrite (one_group_hosted o m m' ltac:(by eexists) Hp). set_solver. }
  assert (hosted m' = hosted m → hosted m' ⊆ hosted m ∪ op_hosts o) as He by (intros ->; set_solver).
  destruct o; try (by eapply Hg); clear Hg; cbn [perform op_hosts] in *.
  1-5: injection Hp as <-; unfold create_group_with_rng, create_group_founded_at_with_rng,
      restore_group_with_rng_unchecked, restore_group_migrating_with_rng_unchecked,
      create_group_from_fork_with_rng, create_group_from_fork_with_rng_unreserved, result_bind in *;
    repeat case_match; simplify_eq; cbn [snd] in *; try (by apply He);
    rewrite ?hosted_dirty; by apply hosted_admit.
  - destruct (install_yieldable_fork_with_rng _ _ _ _ _ _ _) as [[[r e'] m1]|] eqn:Hi; [|done].
    injection Hp as <-. by eapply install_hosted.
  - apply He. unfold peek_yieldable_fork in Hp. destruct (drain_to_yieldable _ m) as [[r m1]|] eqn:Hd; [|done].
    injection Hp as <-. by apply drain_to_yieldable_hosted in Hd.
  - destruct (MultiRaft_remove_group _ _ _) as [[r m1]|] eqn:Hr; [|done]. injection Hp as <-.
    apply remove_group_hosted in Hr as [Hr _]; [set_solver|done].
  - destruct (MultiRaft_prepare_merge _ _ _ _ _) as [[[r e1] m1]|] eqn:Hm; [|done]. injection Hp as <-.
    by apply He, (prepare_merge_hosted _ _ _ _ _ _ _ _ Hm).
  - destruct (service_ok now engine m Hok) as (res & st' & m1 & Hs & _ & Hsub & _). rewrite Hs in Hp.
    injection Hp as <-. set_solver.
  - injection Hp as <-. apply He, (polled_hosted _ _ _ _ _ (poll_message_polled m Hok)).
  - injection Hp as <-. apply He, (polled_hosted _ _ _ _ _ (poll_event_polled m Hok)).
  - injection Hp as <-. apply He. unfold poll_split_conflict. by destruct (mr_conflicts m).
  - injection Hp as <-. apply He. unfold poll_split_refusal. by destruct (mr_refusals m).
  - injection Hp as <-. apply He. unfold poll_relay_guard_advance. by destruct (mr_guard_advances m).
  - injection Hp as <-. apply He. unfold poll_poisoned. by destruct (mr_poisoned_pending m).
  - injection Hp as <-. apply He. unfold poll_merge_blocked. by destruct (mr_merge_blocked m).
  - injection Hp as <-. apply He. unfold raise_relay_guard. by destruct (hosts m g).
  - injection Hp as <-. apply He, plane_panic_hosted.
Qed.
End safety.

(** ** A child of the group engine *)

Section engine.
Context {G I F R X : Type} `{!NodeId G, !NodeId I, !StateMachine F, !Rng R, !ForkGate G X}.
Context {DG : Data G} {DI : Data I} {BS : BuffaSizes} {DC : Data sm_command} {DS : Data sm_snapshot}.
Context {BD : BuffaDecode} {BE : BuffaEncode} {BC : Buffa PbConfChangeV2} (alloc : N → bool).
#[local] Instance engine_stable : StableStore I (EngineStable I) := EngineStable_StableStore alloc.
Abbreviation Endpoint := (Endpoint I F R).
Abbreviation MultiRaft := (MultiRaft G I F R).
Abbreviation mr_ok x m := (mr_ok (Q := mr_poisoned_seen m) x m).
Implicit Types (m : MultiRaft) (ep : Endpoint).

Lemma virgin_hard_state (log : EngineLog) (stable : EngineStable I) :
  validate_virgin_stores log stable = Ok tt → stable_hard_state stable = HardState_initial.
Proof.
  unfold validate_virgin_stores, stores_hold_state. case_bool_decide; [done|]. done.
Qed.

(** C24: over the in-tree engine a child installed from a fork boots at term 0,
    not at the term of the baseline that was written for it: the hard state of
    the baseline waits for the barrier, and the boot reads the state before it. *)
Theorem forked_child_boots_at_term_zero parent child (extra : X) now (rng : R)
    (engine engine' : GroupEngine (I := I) (G := G)) m fk m' ep :
  mr_ok None m →
  install_yieldable_fork_with_rng (L := EngineLog) (S := EngineStable I) parent child extra now rng engine m
    = Some (Installed fk, engine', m') →
  mr_groups m' !! child = Some ep → ep_term ep = 0.
Proof.
  intros Hok Hi Hc. unfold install_yieldable_fork_with_rng in Hi.
  destruct (prepare_fork_install_ok (L := EngineLog) (S := EngineStable I) parent child extra engine m Hok)
    as (p & e1 & m1 & Hp & _ & Hrd).
  rewrite Hp in Hi. cbn [mbind option_bind] in Hi. destruct p as [q plan epoch config|o].
  2: { simplify_eq. by destruct (Hrd fk). }
  destruct Hrd as (-> & -> & [_ _ _ _ _ (log & stable & Hst & Hv)] & _). rewrite Hst in Hi.
  destruct (mr_groups m !! parent) as [pep|]; [|done].
  destruct (pop_pending_fork pep) as [[[[fork fsm]|] pep']|]; [|done|done].
  cbn [mbind option_bind] in Hi. unfold host_child, restart_with_rng in Hi. cbv zeta in Hi.
  match type of Hi with context [write_fork_baseline config ?b ?g ?ro ?fid epoch log stable] =>
    assert (Hs : stable_hard_state (write_fork_baseline config b g ro fid epoch log stable).2 = HardState_initial)
      by (unfold write_fork_baseline; cbn; by apply virgin_hard_state in Hv);
    destruct (write_fork_baseline config b g ro fid epoch log stable) as [log' s'] end.
  cbn [snd] in Hs. pose proof (restart_inner_ballot config now rng fsm epoch None log' s') as Hb.
  destruct (restart_inner _ _ _ _ _ _ _ _) as [[log2 s2] ep']. cbn [snd] in Hb. simplify_eq.
  rewrite mark_dirty_groups, admit_group_lookup in Hc. injection Hc as <-. rewrite Hs in Hb.
  by injection Hb.
Qed.
End engine.

(** ** A run on the group engine *)

Module HostRun.
Import Sample MultiDemo.

Lemma calls_ok : Forall op_ok calls.
Proof.
  assert (Hb : ∀ c, bootable (stable_at c)) by (intros c; split; [by cbn|cbn; unfold is_u64, u64_max; lia]).
  repeat (apply Forall_cons; split); try apply Forall_nil; cbn [op_ok]; try done; try (split; [done|apply Hb]).
Qed.

Lemma host_runs : run calls MultiRaft_new = Some host.
Proof. vm_compute. reflexivity. Qed.
#[local] Opaque host.

Abbreviation reached := (reached (L := EngineLog) (S := EngineStable N) (E := Engine) (X := NoHold)
  (DG := Data_u64) (DI := Data_u64) (DC := Data_u64) (DS := Data_u64)).

Lemma host_reached : reached host.
Proof. exists calls. split; [apply calls_ok|apply host_runs]. Qed.

Lemma host_ok : mr_ok (Q := mr_poisoned_seen host) None host.
Proof. apply (reached_ok host host_reached). Qed.

(** Both restored groups have applied what was committed; one then fails, and the
    host is told. *)
Lemma container_run_returns_witness :
  ∃ m, run (calls ++ [OpQueryPanicked 1; OpPollPoisoned]) MultiRaft_new = Some m
    ∧ mr_poisoned_pending m = []
    ∧ ∃ ep, mr_groups m !! 1 = Some ep ∧ ep_applied ep = 2 ∧ is_poisoned ep = true
        ∧ (1 ∈ mr_poisoned_pending m ∨ 1 ∈ told (calls ++ [OpQueryPanicked 1; OpPollPoisoned]) MultiRaft_new ∅
           ∨ exhausted ep).
Proof.
  destruct (container_run_returns (StateMachine0 := Counter) (DG := Data_u64) (DI := Data_u64)
    (DC := Data_u64) (DS := Data_u64) (calls ++ [OpQueryPanicked 1; OpPollPoisoned])) as (m & Hm & _ & Hp).
  { apply Forall_app. split; [apply calls_ok|]. by repeat constructor. }
  assert (Hv : (λ m : Container, (mr_poisoned_pending m,
            (λ ep, (ep_applied ep, is_poisoned ep)) <$> mr_groups m !! 1))
            <$> run (calls ++ [OpQueryPanicked 1; OpPollPoisoned]) MultiRaft_new = Some ([], Some (2, true)))
    by (vm_compute; reflexivity).
  rewrite Hm in Hv. cbn [fmap option_fmap option_map] in Hv. apply (inj Some) in Hv.
  apply pair_equal_spec in Hv as [Hq He].
  exists m. split; [exact Hm|]. split; [exact Hq|].
  destruct (mr_groups m !! 1) as [ep|] eqn:Hg; [|discriminate He]. injection He as Ha Hb.
  exists ep. split_and!; [exact eq_refl|exact Ha|exact Hb|exact (Hp 1 ep Hg Hb)].
Defined.

(** The restored group has a message and an event for its leader's heartbeat. *)
Lemma polls_exact_witness :
  (fst <$> (MultiRaft_poll_message host).1) = Some 1
  ∧ (MultiRaft_poll_event host).1 = Some (1, EvLeaderChanged 1 (Some 2))
  ∧ polled outgoing set_outgoing (MultiRaft_poll_message host).1 host (MultiRaft_poll_message host).2
  ∧ polled events set_events (MultiRaft_poll_event host).1 host (MultiRaft_poll_event host).2.
Proof.
  split; [vm_compute; reflexivity|]. split; [vm_compute; reflexivity|]. exact (polls_exact host host_reached).
Defined.

(** The first of the two staged forks is the one to host. *)
Lemma fork_drain_settles_witness :
  ∃ plan m', drain_to_yieldable (DG := Data_u64) NoHold_ host = Some (Yieldable 1 plan, m')
             ∧ yp_child plan = 7 ∧ yield_checked (DG := Data_u64) 1 NoHold_ m' plan.
Proof.
  destruct (fork_drain_settles NoHold_ host host_reached) as (o & m' & Hd & Ho).
  assert (Hy : (λ r, match r.1 with Yieldable p plan => Some (p, yp_child plan) | _ => None end)
                 <$> drain_to_yieldable (DG := Data_u64) NoHold_ host = Some (Some (1, 7)))
    by (vm_compute; reflexivity).
  rewrite Hd in Hy. cbn in Hy. destruct o as [p plan| | |]; [|discriminate Hy..].
  injection Hy as -> Hc. exists plan, m'. split_and!; [exact Hd|exact Hc|exact Ho].
Defined.

Definition fork_of (r : option (InstallOutcome N N * Engine * Container)) : option (InstalledFork N N) :=
  match r with Some (Installed fk, _, _) => Some fk | _ => None end.
Definition after (r : option (InstallOutcome N N * Engine * Container)) : Container :=
  match r with Some (_, _, m) => m | _ => MultiRaft_new end.

Definition first : option (InstallOutcome N N * Engine * Container) :=
  install 1 7 NoHold_ now (Prng_new 7) GroupEngine_new host.
Definition between : Container := default MultiRaft_new (run [beat] (after first)).
Definition second : option (InstallOutcome N N * Engine * Container) :=
  install 1 8 NoHold_ now (Prng_new 8) GroupEngine_new between.

Lemma first_installs : ∃ fk e, first = Some (Installed fk, e, after first) ∧ if_parent_gen_after fk = 1.
Proof. eexists _, _. split; vm_compute; reflexivity. Qed.

Lemma second_installs : ∃ fk e m, second = Some (Installed fk, e, m) ∧ if_parent_gen_after fk = 2.
Proof. eexists _, _, _. split; vm_compute; reflexivity. Qed.

Lemma install_admits_witness :
  ∃ fk engine', first = Some (Installed fk, engine', after first) ∧ if_parent_gen_after fk = 1
    ∧ mr_groups host !! 7 = None ∧ is_Some (mr_groups (after first) !! 7)
    ∧ guard host 1 < 1 ∧ guard (after first) 1 = 1.
Proof.
  destruct first_installs as (fk & e & Hf & Hg).
  destruct (install_admits 1 7 NoHold_ now (Prng_new 7) GroupEngine_new host fk e (after first) host_reached Hf)
    as (_ & H1 & H2 & _ & H3 & H4).
  rewrite Hg in H3, H4. exists fk, e. split_and!; [exact Hf|exact Hg|exact H1|exact H2|exact H3|exact H4].
Defined.

(** The split of generation 1 is relayed, a message comes, then the split of
    generation 2. *)
Lemma fork_relayed_once_witness :
  ∃ fk1 fk2 e1 e2 m, first = Some (Installed fk1, e1, after first)
    ∧ second = Some (Installed fk2, e2, m) ∧ if_parent_gen_after fk1 < if_parent_gen_after fk2.
Proof.
  destruct first_installs as (fk1 & e1 & H1 & _). destruct second_installs as (fk2 & e2 & m & H2 & _).
  exists fk1, fk2, e1, e2, m. split_and!; [exact H1|exact H2|].
  refine (fork_relayed_once 1 7 8 NoHold_ NoHold_ now now (Prng_new 7) (Prng_new 8) GroupEngine_new
    GroupEngine_new e1 e2 host (after first) between m fk1 fk2 [beat] host_reached H1 _ _ _ H2).
  - by repeat constructor.
  - vm_compute. eauto.
  - vm_compute. reflexivity.
Defined.


(** A leader is heard of again, then the other group is timed out. *)
Definition later : list Op := [beat; OpTimeout 5 now freeze (stable_at 1)].

Lemma container_refines_family_witness :
  ∃ m', run later host = Some m'
    ∧ mr_groups m' = foldl (family_step (StateMachine0 := Counter) (DI := Data_u64) (DC := Data_u64) (DS := Data_u64))
                       (mr_groups host) later
    ∧ ∀ g, Forall (λ o, op_group (StateMachine0 := Counter) (DI := Data_u64) (DC := Data_u64) (DS := Data_u64) o ≠ Some g)
             later → mr_groups m' !! g = mr_groups host !! g.
Proof.
  eexists. split; [reflexivity|].
  apply (container_refines_family (StateMachine0 := Counter) (DG := Data_u64) (DI := Data_u64) (DC := Data_u64)
    (DS := Data_u64) later host); [|reflexivity].
  repeat constructor; by eexists.
Defined.

(** The baseline of the first child is at term 1. *)
Lemma forked_child_boots_at_term_zero_witness :
  ∃ ep, mr_groups (after first) !! 7 = Some ep ∧ ep_term ep = 0.
Proof.
  destruct first_installs as (fk & e & Hf & _).
  assert (Hg : is_Some (mr_groups (after first) !! 7)) by (vm_compute; eauto). destruct Hg as [ep Hep].
  exists ep. split; [exact Hep|].
  pose proof (forked_child_boots_at_term_zero (λ _, true) 1 7 NoHold_ now (Prng_new 7) GroupEngine_new e host fk
    (after first) ep host_ok) as H. unfold engine_stable in H. unfold first at 1, store in Hf.
  exact (H Hf Hep).
Defined.
End HostRun.
