(* ===== verification/MultiCoordinator.v ===== *)
(** * Many groups behind one set of connections

    [MultiStreamCoordinator] of
    [sailing-proto/src/transport/coordinator/multi/mod.rs]: the container of groups
    and a table of connections as one state machine.  One connection per peer
    carries the traffic of every group: a frame is tagged with its group and the
    incarnation of its sender, heartbeats are collected per peer and leave in one
    frame, and an id this host removed or merged away stays fenced. *)

From S2P Require Import Prelude Bytes Num Quorum Progress ProgressMap Conf Tracker ConfChange.
From S2P Require Import ConfChangeProps Config Lease Prng ReadOnly Staging Data Frame Entry.
From S2P Require Import Storage Shape EngineLog EngineStable GroupEngine Restart Forwarded.
From S2P Require Import Message Wire Codec RecordIo Conn Link Endpoint Router RouterInv Merge.
From S2P Require Import Invariant Persistence Replication Election Propose Handlers Commit Apply.
From S2P Require Import Boot Reads Snapshot Append Drive Multi MultiRemove MultiFork MultiRelay.
From S2P Require Import MultiVerbs MultiMerge.

Inductive GroupControl := Quiesce | Wake.

#[global] Instance GroupControl_eq_dec : EqDecision GroupControl.
Proof. solve_decision. Defined.

Definition UNKNOWN_GROUP_SIGNAL_CAP : nat := 64.

(** [flags & COALESCED_FLAG_QUIESCE != 0] *)
Definition quiesce_flag (flags : byte) : bool := negb (N.land (byte_val flags) COALESCED_FLAG_QUIESCE =? 0).

(** [flags & !COALESCED_FLAG_QUIESCE] *)
Definition clear_quiesce (flags : byte) : byte := low_byte (N.ldiff (byte_val flags) COALESCED_FLAG_QUIESCE).

(** The gates over the tombstones: [CoordGate] adds them to the caller's gate,
    [RetiredGate] is the tombstones alone. *)
Record CoordGate (G X : Type) `{!NodeId G} := { cg_retired : gset G; cg_outer : X }.
Arguments Build_CoordGate {G X _}.
Arguments cg_retired {G X _}.
Arguments cg_outer {G X _}.

#[global] Instance CoordGate_ForkGate {G X} `{!NodeId G, !ForkGate G X} : ForkGate G (CoordGate G X) := {|
  fg_contains_group := λ g gid, bool_decide (gid ∈ cg_retired g) || fg_contains_group (cg_outer g) gid;
  fg_floor := λ g gid, fg_floor (cg_outer g) gid;
|}.

Record RetiredGate (G : Type) `{!NodeId G} := { rg_retired : gset G }.
Arguments Build_RetiredGate {G _}.
Arguments rg_retired {G _}.

#[global] Instance RetiredGate_ForkGate {G} `{!NodeId G} : ForkGate G (RetiredGate G) := {|
  fg_contains_group := λ g gid, bool_decide (gid ∈ rg_retired g);
  fg_floor := λ _ _, 0;
|}.

(** [W] is the record layer. *)
Record MultiStreamCoordinator (G I F R W : Type) `{!NodeId G, !NodeId I, !StateMachine F} := {
  mc_multi : MultiRaft G I F R;
  mc_router : PeerRouter I W;
  mc_next_conn_id : u64;
  mc_hb_batches : gmap I (list (CoalescedEntry I));
  mc_quiesce_intents : gset G;
  mc_control_state : gmap G GroupControl;
  mc_controls : list G;
  mc_retired : gset G;
  mc_unknown_pending : list (G * I);
  mc_unknown_seen : gset G;
  mc_fenced_dropped : u64;
}.
Arguments Build_MultiStreamCoordinator {G I F R W _ _ _}.
Arguments mc_multi {G I F R W _ _ _}.
Arguments mc_router {G I F R W _ _ _}.
Arguments mc_next_conn_id {G I F R W _ _ _}.
Arguments mc_hb_batches {G I F R W _ _ _}.
Arguments mc_quiesce_intents {G I F R W _ _ _}.
Arguments mc_control_state {G I F R W _ _ _}.
Arguments mc_controls {G I F R W _ _ _}.
Arguments mc_retired {G I F R W _ _ _}.
Arguments mc_unknown_pending {G I F R W _ _ _}.
Arguments mc_unknown_seen {G I F R W _ _ _}.
Arguments mc_fenced_dropped {G I F R W _ _ _}.

#[global] Instance MultiStreamCoordinator_eta {G I F R W} `{!NodeId G, !NodeId I, !StateMachine F} :
  Eta (MultiStreamCoordinator G I F R W) := λ c,
  Build_MultiStreamCoordinator (mc_multi c) (mc_router c) (mc_next_conn_id c) (mc_hb_batches c)
    (mc_quiesce_intents c) (mc_control_state c) (mc_controls c) (mc_retired c)
    (mc_unknown_pending c) (mc_unknown_seen c) (mc_fenced_dropped c).

Section multi.
Context {G I F R L S W St FL : Type} `{!NodeId G, !NodeId I, !StateMachine F, !Rng R}.
Context `{!LogStore L, !StableStore I S, !GroupStores G L S St, !FloorStore G St, !FloorStore G FL}.
Context {DG : Data G} {DI : Data I} {BS : BuffaSizes} {DC : Data sm_command} {DS : Data sm_snapshot}.
Context {BD : BuffaDecode} {BE : BuffaEncode} {BC : Buffa PbConfChangeV2} `{!RecordIo W}.
Context `{!Buffa PbMessage, !Buffa PbSnapshotMeta, !BuffaWire}.
Abbreviation Endpoint := (Endpoint I F R).
Abbreviation MultiRaft := (MultiRaft G I F R).
Abbreviation Coordinator := (MultiStreamCoordinator G I F R W).
Abbreviation ProposeError := (ProposeError I).
Implicit Types (c : Coordinator) (gid group : G) (now : Now) (log : L) (stable : S).
Implicit Types (stores : St) (floors : FL) (msg : Message I).

Definition MultiStreamCoordinator_new : Coordinator :=
  {| mc_multi := MultiRaft_new; mc_router := PeerRouter_new; mc_next_conn_id := 1; mc_hb_batches := ∅;
     mc_quiesce_intents := ∅; mc_control_state := ∅; mc_controls := []; mc_retired := ∅;
     mc_unknown_pending := []; mc_unknown_seen := ∅; mc_fenced_dropped := 0 |}.

(** ** Messages *)

Definition is_heartbeat msg : bool := match msg with MHeartbeat _ => true | _ => false end.
Definition is_heartbeat_response msg : bool := match msg with MHeartbeatResponse _ => true | _ => false end.

Definition is_initial_shaped msg : bool :=
  match msg with
  | MRequestVote _ => true
  | MHeartbeat hb => hb_commit hb =? 0
  | _ => false
  end.

Definition is_wake_class msg : bool :=
  match msg with
  | MHeartbeatResponse hbr => negb (hr_stuck_boundary hbr =? 0)
  | _ => true
  end.

(** ** Signals *)

Definition note_unknown_group group (from : I) c : Coordinator :=
  if bool_decide (group ∈ mc_unknown_seen c)
     || (UNKNOWN_GROUP_SIGNAL_CAP <=? size (mc_unknown_seen c))%nat then c
  else c <| mc_unknown_seen ::= λ s, {[ group ]} ∪ s |>
         <| mc_unknown_pending ::= λ q, q ++ [(group, from)] |>.

Definition purge_unknown_signal gid c : Coordinator :=
  if bool_decide (gid ∈ mc_unknown_seen c) then
    c <| mc_unknown_seen ::= λ s, s ∖ {[ gid ]} |>
      <| mc_unknown_pending ::= retain (λ p, negb (bool_decide (p.1 = gid))) |>
  else c.

Definition poll_unknown_group c : option (G * I) * Coordinator :=
  match mc_unknown_pending c with
  | [] => (None, c)
  | (group, from) :: q =>
      (Some (group, from), c <| mc_unknown_pending := q |> <| mc_unknown_seen ::= λ s, s ∖ {[ group ]} |>)
  end.

Definition push_control group (ctrl : GroupControl) c : Coordinator :=
  let absent := bool_decide (mc_control_state c !! group = None) in
  let c := c <| mc_control_state ::= insert group ctrl |> in
  if absent then c <| mc_controls ::= λ q, q ++ [group] |> else c.

Definition push_dispatch_controls group (wake : bool) (flags : byte) c : Coordinator :=
  let c := if wake then push_control group Wake c else c in
  if quiesce_flag flags then push_control group Quiesce c else c.

(** The loop takes a group off the queue each round. *)
Fixpoint poll_controls (controls : list G) c : option (G * GroupControl) * Coordinator :=
  match controls with
  | [] => (None, c <| mc_controls := [] |>)
  | gid :: controls =>
      match mc_control_state c !! gid with
      | Some ctrl => (Some (gid, ctrl), c <| mc_controls := controls |> <| mc_control_state ::= delete gid |>)
      | None => poll_controls controls c
      end
  end.

Definition poll_group_control c : option (G * GroupControl) * Coordinator :=
  poll_controls (mc_controls c) c.

Definition note_fenced_frame c : Coordinator :=
  c <| mc_fenced_dropped ::= λ n, saturating_add n 1 |>.

(** ** Sending *)

(** One message a group queued: a beat joins the batch of its peer, anything else is
    routed. *)
Definition send_out (group : G) (out : Outgoing I) (stamped : gset G) c : gset G * Coordinator :=
  let to := out_to out in
  let msg := out_message out in
  let generation := MultiRaft_group_gen (mc_multi c) group in
  if is_heartbeat msg || is_heartbeat_response msg then
    let flagged := is_heartbeat msg && bool_decide (group ∈ mc_quiesce_intents c) in
    let stamped := if flagged then {[ group ]} ∪ stamped else stamped in
    let flags := if flagged then low_byte COALESCED_FLAG_QUIESCE else x00 in
    (stamped,
     c <| mc_hb_batches ::= λ b, <[ to := default [] (b !! to) ++ [(flags, data_encode group, generation, msg)] ]> b |>)
  else
    (stamped, c <| mc_router ::= λ r, (PeerRouter_route (data_encode group) generation to msg r).2 |>).

(** A round takes a message off a group's queue or ends the loop, so as many rounds
    as messages are queued are enough. *)
Fixpoint flush_rounds (fuel : nat) (stamped : gset G) c : gset G * Coordinator :=
  match MultiRaft_poll_message (mc_multi c) with
  | (None, m) => (stamped, c <| mc_multi := m |>)
  | (Some (group, out), m) =>
      let '(stamped, c) := send_out group out stamped (c <| mc_multi := m |>) in
      match fuel with O => (stamped, c) | Datatypes.S fuel => flush_rounds fuel stamped c end
  end.

(** The messages queued in all the groups. *)
Definition queued (m : MultiRaft) : nat :=
  map_fold (λ _ ep n, (length (ou_outgoing (ep_outputs ep)) + n)%nat) 0%nat (mr_groups m).

Definition MultiStreamCoordinator_flush c : Coordinator :=
  let '(stamped, c) := flush_rounds (queued (mc_multi c)) ∅ c in
  c <| mc_quiesce_intents ::= λ s, s ∖ stamped |>.

(** The entries of a batch: one too large for a coalesced frame is routed on its own. *)
Fixpoint ship_entries (to : I) (batch fitting : list (CoalescedEntry I)) c
  : list (CoalescedEntry I) * Coordinator :=
  match batch with
  | [] => (fitting, c)
  | (flags, group_bytes, generation, msg) :: batch =>
      let entry_len := coalesced_entry_len (length group_bytes) generation (length (encode_message msg)) in
      if COALESCED_FRAME_BUDGET <? N.of_nat entry_len then
        let c :=
          match decode_exact group_bytes with
          | Ok gid =>
              if quiesce_flag flags && hosts (mc_multi c) gid
              then c <| mc_quiesce_intents ::= λ s, {[ gid ]} ∪ s |> else c
          | Err _ => c
          end in
        ship_entries to batch fitting
          (c <| mc_router ::= λ r, (PeerRouter_route group_bytes generation to msg r).2 |>)
      else ship_entries to batch (fitting ++ [(flags, group_bytes, generation, msg)]) c
  end.

Definition ship_batch (c : Coordinator) (to : I) (batch : list (CoalescedEntry I)) : Coordinator :=
  let '(fitting, c) := ship_entries to batch [] c in
  match fitting with
  | [] => c
  | [(flags, group_bytes, generation, msg)] =>
      if byte_val flags =? 0 then
        c <| mc_router ::= λ r, (PeerRouter_route group_bytes generation to msg r).2 |>
      else c <| mc_router ::= λ r, (PeerRouter_route_coalesced to fitting r).2 |>
  | _ => c <| mc_router ::= λ r, (PeerRouter_route_coalesced to fitting r).2 |>
  end.

Definition ship_heartbeats c : Coordinator :=
  let batches := btree_map_iter (mc_hb_batches c) in
  foldl (λ c p, ship_batch c p.1 p.2) (c <| mc_hb_batches := ∅ |>) batches.

Definition MultiStreamCoordinator_poll_transmit c : list (ConnId * bytes) * Coordinator :=
  let c := ship_heartbeats c in
  let '(out, r) := PeerRouter_poll_transmit (mc_router c) in (out, c <| mc_router := r |>).

(** ** Admission *)

(** The checks every door shares, in their order. *)
Definition admission_check (gid : G) (generation : u64) floors c : result unit CreateGroupError :=
  let? _ := validate_floor (fs_floor floors gid) generation in
  if bool_decide (gid ∈ mc_retired c) then Err Retired
  else if split_reserved (mc_multi c) gid then Err SplitReserved
  else Ok tt.

(** The generator a seed starts is the argument [rng], here and below. *)
Definition MultiStreamCoordinator_create_group gid (config : Config I) now (rng : R) (fsm : F)
    (generation : u64) floors c : result unit CreateGroupError * Coordinator :=
  match admission_check gid generation floors c with
  | Err e => (Err e, c)
  | Ok _ =>
      let '(r, m) := create_group_with_rng gid generation config now rng fsm (mc_multi c) in
      let c := c <| mc_multi := m |> in
      match r with Err e => (Err e, c) | Ok _ => (Ok tt, purge_unknown_signal gid c) end
  end.

Definition MultiStreamCoordinator_create_group_founded_at gid (config : Config I) now (rng : R) (fsm : F)
    (generation : u64) floors (boot_epoch : u64) log stable c
  : result unit CreateGroupError * S * Coordinator :=
  match admission_check gid generation floors c with
  | Err e => (Err e, stable, c)
  | Ok _ =>
      let '(r, stable, m) :=
        create_group_founded_at_with_rng gid generation config now rng fsm boot_epoch log stable (mc_multi c) in
      let c := c <| mc_multi := m |> in
      match r with Err e => (Err e, stable, c) | Ok _ => (Ok tt, stable, purge_unknown_signal gid c) end
  end.

Definition MultiStreamCoordinator_restore_group gid (config : Config I) now (rng : R) (fsm : F)
    (boot_epoch generation : u64) floors log stable c
  : result unit CreateGroupError * L * S * Coordinator :=
  match (let? _ := admission_check gid generation floors c in
         validate_restore (fs_lineage floors gid) (fs_floor floors gid) generation log stable) with
  | Err e => (Err e, log, stable, c)
  | Ok _ =>
      let '(r, log, stable, m) :=
        restore_group_with_rng_unchecked gid config now rng fsm boot_epoch log stable (mc_multi c) in
      let c := c <| mc_multi := m |> in
      match r with
      | Err e => (Err e, log, stable, c)
      | Ok _ =>
          let c := c <| mc_multi ::= raise_relay_guard gid (fs_lineage floors gid) |> in
          (Ok tt, log, stable, purge_unknown_signal gid c)
      end
  end.

Definition MultiStreamCoordinator_create_group_from_fork gid (config : Config I) now (rng : R) (fsm : F)
    (snapshot : bytes) (read_only : option ReadOnlyOption) (boot_epoch generation : u64) floors log stable c
  : result unit CreateGroupError * L * S * Coordinator :=
  match admission_check gid generation floors c with
  | Err e => (Err e, log, stable, c)
  | Ok _ =>
      let '(r, log, stable, m) :=
        create_group_from_fork_with_rng gid generation config now rng fsm snapshot read_only boot_epoch
          log stable (mc_multi c) in
      let c := c <| mc_multi := m |> in
      match r with
      | Err e => (Err e, log, stable, c)
      | Ok _ => (Ok tt, log, stable, purge_unknown_signal gid c)
      end
  end.

(** What every end of a group's life on this host leaves behind. *)
Definition tombstone gid c : Coordinator :=
  purge_unknown_signal gid
    (c <| mc_quiesce_intents ::= λ s, s ∖ {[ gid ]} |> <| mc_control_state ::= delete gid |>
       <| mc_retired ::= λ s, {[ gid ]} ∪ s |>).

(** [None] when the container panics, here and below. *)
Definition MultiStreamCoordinator_remove_group gid stores c
  : option (result (option Endpoint) RemoveError * Coordinator) :=
  '(r, m) ← MultiRaft_remove_group (L := L) (S := S) gid stores (mc_multi c);
  let c := c <| mc_multi := m |> in
  Some (r, match r with Err _ => c | Ok _ => tombstone gid c end).

Definition clear_tombstone gid c : bool * Coordinator :=
  (bool_decide (gid ∈ mc_retired c), c <| mc_retired ::= λ s, s ∖ {[ gid ]} |>).

Definition is_split_reserved c gid : bool := split_reserved (mc_multi c) gid.
Definition is_retired c gid : bool := bool_decide (gid ∈ mc_retired c).

Definition MultiStreamCoordinator_fail_stop_query_panicked gid c : Coordinator :=
  c <| mc_multi ::= MultiRaft_fail_stop_query_panicked gid |>.

Definition MultiStreamCoordinator_fail_stop_plane c : Coordinator :=
  c <| mc_multi ::= fail_stop_plane_unattributable_panic |>.

(** ** Connections *)

Definition refresh_local_id c : Coordinator :=
  match mr_host_id (mc_multi c) with
  | Some me => c <| mc_router ::= set_local_id me |>
  | None => c
  end.

Definition MultiStreamCoordinator_alloc_conn_id c : option (ConnId * Coordinator) :=
  next ← checked_add (mc_next_conn_id c) 1;
  Some (mc_next_conn_id c, c <| mc_next_conn_id := next |>).

Definition MultiStreamCoordinator_on_dial_open (expected : I) (record : W) (now : Instant) c
  : option (ConnId * Coordinator) :=
  '(id, c) ← MultiStreamCoordinator_alloc_conn_id (refresh_local_id c);
  Some (id, c <| mc_router ::= register_dial id expected record now |>).

Definition MultiStreamCoordinator_on_accept_open (record : W) (now : Instant) c
  : option (ConnId * Coordinator) :=
  '(id, c) ← MultiStreamCoordinator_alloc_conn_id (refresh_local_id c);
  Some (id, c <| mc_router ::= register_accept id record now |>).

Definition MultiStreamCoordinator_on_conn_close (conn : ConnId) c : Coordinator :=
  c <| mc_router ::= PeerRouter_remove conn |>.

Definition MultiStreamCoordinator_poll_conn_closed c
  : option (ConnId * option TransportError) * Coordinator :=
  let '(closed, r) := PeerRouter_poll_conn_closed (mc_router c) in (closed, c <| mc_router := r |>).

(** ** Inbound *)

Definition accepted_flags group (flags : byte) (beat_term : Term) (sender : I) c : byte :=
  if negb (quiesce_flag flags) then flags
  else if match mr_groups (mc_multi c) !! group with
          | Some ep => negb (Role_is_leader (ep_role ep)) && (ep_term ep =? beat_term)
                       && bool_decide (ep_leader ep = Some sender)
          | None => false
          end
  then flags else clear_quiesce flags.

(** A frame that passed the fences and whose group has stores. *)
Definition dispatch group (flags : byte) now (from : I) msg log stable stores c : St * Coordinator :=
  let flags := if bool_decide (Message_from msg = from) then flags else clear_quiesce flags in
  let '(r, log, stable, m) := MultiRaft_handle_message group now from msg log stable (mc_multi c) in
  let c := c <| mc_multi := m |> in
  (gst_write group log stable stores,
   match r with
   | Some _ =>
       push_dispatch_controls group (is_wake_class msg)
         (accepted_flags group flags (Message_term msg) from c) c
   | None => c
   end).

(** The fences a decoded frame has to pass, in their order. *)
Inductive FrameVerdict :=
  | FrClose | FrRetired | FrDebt | FrFenced | FrDispatch (group : G) (log : L) (stable : S)
  | FrUnknown (group : G) | FrDrop.

Definition frame_verdict (group_bytes : bytes) (flags : byte) (generation : u64) msg stores c : FrameVerdict :=
  match decode_exact group_bytes with
  | Err _ => FrClose
  | Ok group =>
      if quiesce_flag flags && negb (is_heartbeat msg) then FrClose
      else if bool_decide (group ∈ mc_retired c) then FrRetired
      else if debt_names (mc_multi c) group then FrDebt
      else if negb (floor_admits (fs_floor stores group) generation) then FrFenced
      else match gst_stores group stores with
           | Some (log, stable) => FrDispatch group log stable
           | None => if is_initial_shaped msg && negb (hosts (mc_multi c) group) then FrUnknown group else FrDrop
           end
  end.

Fixpoint demux (conn : ConnId) now (decoded : list (Delivered I)) stores c : St * Coordinator :=
  match decoded with
  | [] => (stores, c)
  | (group_bytes, flags, generation, from, msg) :: decoded =>
      match frame_verdict group_bytes flags generation msg stores c with
      | FrClose => (stores, c <| mc_router ::= PeerRouter_close conn (Some Decode) |>)
      | FrRetired | FrDebt | FrDrop => demux conn now decoded stores c
      | FrFenced => demux conn now decoded stores (note_fenced_frame c)
      | FrDispatch group log stable =>
          let '(stores, c) := dispatch group flags now from msg log stable stores c in
          demux conn now decoded stores c
      | FrUnknown group => demux conn now decoded stores (note_unknown_group group from c)
      end
  end.

Definition MultiStreamCoordinator_handle_conn_data (conn : ConnId) (bytes : bytes) (eof : bool) now
    stores c : option (St * Coordinator) :=
  '(_, decoded, r) ← PeerRouter_handle_conn_data conn bytes eof (now_mono now) (mc_router c);
  let '(stores, c) := demux conn now decoded stores (c <| mc_router := r |>) in
  Some (stores, MultiStreamCoordinator_flush c).

(** ** Proposals *)

Definition propose_floor_check group floors c : result unit ProposeError :=
  let floor := fs_floor floors group in
  if floor_admits floor (MultiRaft_group_gen (mc_multi c) group) then Ok tt else Err (PeBelowFloor floor).

Fixpoint merge_floor_check (participants : list G) floors c : result unit (MergeError I) :=
  match participants with
  | [] => Ok tt
  | gid :: participants =>
      let floor := fs_floor floors gid in
      if negb (floor_admits floor (MultiRaft_group_gen (mc_multi c) gid)) then Err (MeBelowFloor floor)
      else merge_floor_check participants floors c
  end.

Definition fenced_floor c group floors : option u64 :=
  if negb (hosts (mc_multi c) group) then None
  else match propose_floor_check group floors c with Err (PeBelowFloor floor) => Some floor | _ => None end.

(** The head of the propose verbs: the group is hosted and clears its floor. *)
Definition gated_propose group floors log c
    (verb : Coordinator → option (result Index ProposeError) * L * Coordinator)
  : option (result Index ProposeError) * L * Coordinator :=
  if negb (hosts (mc_multi c) group) then (None, log, c)
  else match propose_floor_check group floors c with
  | Err e => (Some (Err e), log, c)
  | Ok _ => verb c
  end.

(** Their tail: what the container proposed is replicated at once. *)
Definition replicate_now {A} group now stable c (x : option A * L * MultiRaft) : option A * L * Coordinator :=
  match x with
  | (None, log, m) => (None, log, c <| mc_multi := m |>)
  | (Some r, log, m) =>
      let m := (MultiRaft_flush_appends group now log stable m).2 in
      (Some r, log, MultiStreamCoordinator_flush (c <| mc_multi := m |>))
  end.

Definition MultiStreamCoordinator_submit_propose group now (cmd : sm_command) log stable floors c
  : option (result Index ProposeError) * L * Coordinator :=
  gated_propose group floors log c (λ c,
    replicate_now group now stable c (MultiRaft_propose group now cmd log (mc_multi c))).

Definition MultiStreamCoordinator_submit_propose_deferred group now (cmd : sm_command) log floors c
  : option (result Index ProposeError) * L * Coordinator :=
  gated_propose group floors log c (λ c,
    match MultiRaft_propose group now cmd log (mc_multi c) with
    | (None, log, m) => (None, log, c <| mc_multi := m |>)
    | (Some r, log, m) => (Some r, log, MultiStreamCoordinator_flush (c <| mc_multi := m |>))
    end).

Definition MultiStreamCoordinator_flush_appends group now log stable c : option unit * Coordinator :=
  match MultiRaft_flush_appends group now log stable (mc_multi c) with
  | (None, m) => (None, c <| mc_multi := m |>)
  | (Some _, m) => (Some tt, MultiStreamCoordinator_flush (c <| mc_multi := m |>))
  end.

Definition MultiStreamCoordinator_propose_conf_change group now (cc : ConfChange I) log stable floors c
  : option (result Index ProposeError) * L * Coordinator :=
  gated_propose group floors log c (λ c,
    replicate_now group now stable c (MultiRaft_propose_conf_change group now cc log (mc_multi c))).

Definition MultiStreamCoordinator_propose_conf_change_v2 group now (cc : ConfChangeV2 I) log stable floors c
  : option (result Index ProposeError) * L * Coordinator :=
  gated_propose group floors log c (λ c,
    replicate_now group now stable c (MultiRaft_propose_conf_change_v2 group now cc log (mc_multi c))).

Definition MultiStreamCoordinator_propose_read_mode_change group now (mode : ReadOnlyOption) log stable floors c
  : option (result Index ProposeError) * L * Coordinator :=
  gated_propose group floors log c (λ c,
    replicate_now group now stable c (MultiRaft_propose_read_mode_change group now mode log (mc_multi c))).

Definition MultiStreamCoordinator_propose_split group now (child : G) (child_gen : u64)
    (instruction : bytes) log stable floors c : option (result Index (SplitError I)) * L * Coordinator :=
  if negb (hosts (mc_multi c) group) then (None, log, c)
  else match propose_floor_check group floors c with
  | Err e => (Some (Err (SePropose e)), log, c)
  | Ok _ =>
      if bool_decide (child ∈ mc_retired c) then (Some (Err SeChildRetired), log, c)
      else match validate_floor (fs_floor floors child) child_gen with
      | Err (BelowFloor floor) => (Some (Err (SeBelowFloor floor)), log, c)
      | Err _ => (Some (Err SeReservedGeneration), log, c)
      | Ok _ =>
          replicate_now group now stable c
            (MultiRaft_propose_split group now child child_gen instruction log (mc_multi c))
      end
  end.

Definition MultiStreamCoordinator_prepare_merge (source : G) now stores (target : G) floors c
  : option (option (result Index (MergeError I)) * St * Coordinator) :=
  if negb (hosts (mc_multi c) source) then Some (None, stores, c)
  else match merge_floor_check [source; target] floors c with
  | Err e => Some (Some (Err e), stores, c)
  | Ok _ =>
      '(r, stores, m) ← MultiRaft_prepare_merge (L := L) (S := S) source now target stores (mc_multi c);
      Some (match r with
            | None => (None, stores, c <| mc_multi := m |>)
            | Some r =>
                let m :=
                  match gst_stores source stores with
                  | Some (log, stable) => (MultiRaft_flush_appends source now log stable m).2
                  | None => m
                  end in
                (Some r, stores, MultiStreamCoordinator_flush (c <| mc_multi := m |>))
            end)
  end.

Definition MultiStreamCoordinator_commit_merge (target : G) now log stable (source : G) floors c
  : option (option (result Index (MergeError I)) * L * Coordinator) :=
  if negb (hosts (mc_multi c) target) then Some (None, log, c)
  else match merge_floor_check [source; target] floors c with
  | Err e => Some (Some (Err e), log, c)
  | Ok _ =>
      x ← MultiRaft_commit_merge target now source log (mc_multi c);
      Some (replicate_now target now stable c x)
  end.

Definition MultiStreamCoordinator_rollback_merge (target : G) now log stable (source : G) floors c
  : option (result Index (MergeError I)) * L * Coordinator :=
  if negb (hosts (mc_multi c) target) then (None, log, c)
  else match merge_floor_check [target] floors c with
  | Err e => (Some (Err e), log, c)
  | Ok _ => replicate_now target now stable c (MultiRaft_rollback_merge target now source log (mc_multi c))
  end.

Definition resolved_terminally (r : MergeResolution G) : option G :=
  match r with ResMerged source _ | ResRetired source => Some source | _ => None end.

Definition MultiStreamCoordinator_service_merge_applies now stores c
  : option (list (MergeResolution G) * St * Coordinator) :=
  '(res, stores, m) ← service_merge_applies (L := L) (S := S) now stores (mc_multi c);
  Some (res, stores,
        foldl (λ c r, match resolved_terminally r with Some source => tombstone source c | None => c end)
          (c <| mc_multi := m |>) res).

(** ** The fork relay *)

Definition MultiStreamCoordinator_peek_yieldable_fork {X} `{!ForkGate G X} (gate : X) c
  : option (option (G * YieldPlan G I) * Coordinator) :=
  '(o, m) ← peek_yieldable_fork {| cg_retired := mc_retired c; cg_outer := gate |} (mc_multi c);
  Some (o, c <| mc_multi := m |>).

Definition MultiStreamCoordinator_install_yieldable_fork {E} `{!MultiEngine G I L S E} (parent child : G)
    (engine : E) now (rng : R) c : option (InstallOutcome G I * E * Coordinator) :=
  '(o, engine, m) ←
    install_yieldable_fork_with_rng parent child {| rg_retired := mc_retired c |} now rng engine (mc_multi c);
  Some (o, engine, c <| mc_multi := m |>).

Definition MultiStreamCoordinator_lift_fork_barrier (parent : G) (split_index : Index) c : Coordinator :=
  c <| mc_multi ::= lift_fork_barrier parent split_index |>.

(** The container's queues. *)
Definition mc_poll {A} (poll : MultiRaft → option A * MultiRaft) c : option A * Coordinator :=
  let '(o, m) := poll (mc_multi c) in (o, c <| mc_multi := m |>).

Definition MultiStreamCoordinator_poll_split_conflict : Coordinator → _ := mc_poll poll_split_conflict.
Definition MultiStreamCoordinator_poll_split_refusal : Coordinator → _ := mc_poll poll_split_refusal.
Definition MultiStreamCoordinator_poll_relay_guard_advance : Coordinator → _ := mc_poll poll_relay_guard_advance.
Definition MultiStreamCoordinator_poll_poisoned : Coordinator → _ := mc_poll poll_poisoned.
Definition MultiStreamCoordinator_poll_merge_blocked : Coordinator → _ := mc_poll poll_merge_blocked.
Definition MultiStreamCoordinator_poll_event : Coordinator → _ := mc_poll MultiRaft_poll_event.

(** ** Reads, transfers, timers, storage *)

Definition MultiStreamCoordinator_read_index group now (context : bytes) log c
  : option (result unit ReadIndexError) * Coordinator :=
  match MultiRaft_read_index group now context log (mc_multi c) with
  | (None, m) => (None, c <| mc_multi := m |>)
  | (Some r, m) => (Some r, MultiStreamCoordinator_flush (c <| mc_multi := m |>))
  end.

Definition MultiStreamCoordinator_transfer_leader group now (to : I) log stable c
  : option (result unit (TransferError I)) * Coordinator :=
  match MultiRaft_transfer_leader group now to log stable (mc_multi c) with
  | (None, m) => (None, c <| mc_multi := m |>)
  | (Some r, m) => (Some r, MultiStreamCoordinator_flush (c <| mc_multi := m |>))
  end.

Definition MultiStreamCoordinator_handle_timeout group now log stable c : option unit * L * S * Coordinator :=
  let c := c <| mc_router ::= reap_handshakes (now_mono now) |> in
  match MultiRaft_handle_timeout group now log stable (mc_multi c) with
  | (None, log, stable, m) => (None, log, stable, c <| mc_multi := m |>)
  | (Some _, log, stable, m) => (Some tt, log, stable, MultiStreamCoordinator_flush (c <| mc_multi := m |>))
  end.

Definition MultiStreamCoordinator_handle_storage group now log stable c
  : option StorageProgress * L * S * Coordinator :=
  match MultiRaft_handle_storage group now log stable (mc_multi c) with
  | (None, log, stable, m) => (None, log, stable, c <| mc_multi := m |>)
  | (Some p, log, stable, m) => (Some p, log, stable, MultiStreamCoordinator_flush (c <| mc_multi := m |>))
  end.

(** ** Quiescence and deadlines *)

Definition mark_quiescing group c : Coordinator :=
  if hosts (mc_multi c) group then c <| mc_quiesce_intents ::= λ s, {[ group ]} ∪ s |> else c.

Definition is_quiescing c group : bool := bool_decide (group ∈ mc_quiesce_intents c).

Definition cancel_quiescing group c : Coordinator :=
  c <| mc_quiesce_intents ::= λ s, s ∖ {[ group ]} |>.

Definition transport_timeout c : option Instant :=
  option_min (next_handshake_deadline (mc_router c)) (next_liveness_deadline (mc_router c)).

Definition MultiStreamCoordinator_poll_timeout c : option Instant :=
  option_min (MultiRaft_poll_timeout (mc_multi c)) (transport_timeout c).

Definition handle_transport_timeout now c : Coordinator :=
  c <| mc_router ::= reap_handshakes (now_mono now) |> <| mc_router ::= service_liveness (now_mono now) |>.
End multi.
