(* ===== verification/MultiCoordSafety.v ===== *)
(** * What the driver of many groups may rely on

    Every call a driver makes on a [MultiStreamCoordinator], as data, and what holds
    in every coordinator such calls lead to.  A call on the coordinator is a
    sequence of calls on the container ([MultiRun.op]) and on the table of
    connections, so the theorems about both carry over; on top of them come the
    fences a frame has to pass, the signals for the driver, and the routing of what
    the groups queued. *)

From S2P Require Import Prelude Bytes Num Quorum Progress ProgressMap Conf Tracker ConfChange.
From S2P Require Import ConfChangeProps Config Lease Prng ReadOnly Staging Data Frame Entry.
From S2P Require Import Storage Shape EngineLog EngineStable GroupEngine Restart Forwarded.
From S2P Require Import Message Wire Codec RecordIo Conn Link Endpoint Router RouterInv.
From S2P Require Import RouterSafety Sample Merge Invariant Persistence Replication Election.
From S2P Require Import Propose Handlers Commit Apply Boot Reads Snapshot Append Drive VoteFrame.
From S2P Require Import Frames ApplyFrame HandlerFrame Vote BootFrame SnapshotFrame VoteDrive.
From S2P Require Import VoteSafety Coordinator Multi MultiRemove MultiFork MultiRelay MultiVerbs.
From S2P Require Import MultiMerge MultiInv MultiSteps MultiForkSteps MultiService MultiCrank.
From S2P Require Import MultiAdmit MultiRun MultiSafety MultiCoordinator.

Section safety.
Context {G I F R L S E W : Type} `{!NodeId G, !NodeId I, !StateMachine F, !Rng R}.
Context `{!LogStore L, !StableStore I S, !StableWriteLaws I S, !StableReadLaws I S}.
Context `{!MultiEngine G I L S E}.
Context {DG : Data G} {DI : Data I} {BS : BuffaSizes} {DC : Data sm_command} {DS : Data sm_snapshot}.
Context {BD : BuffaDecode} {BE : BuffaEncode} {BC : Buffa PbConfChangeV2} `{!DataLaws I}.
Context `{!RecordIo W, !RecordIoLaws W}.
Context `{!Buffa PbMessage, !Buffa PbSnapshotMeta, !BuffaWire, !BuffaWidths}.
Abbreviation Endpoint := (Endpoint I F R).
Abbreviation MultiRaft := (MultiRaft G I F R).
Abbreviation mr_ok x m := (mr_ok (Q := mr_poisoned_seen m) x m).
Abbreviation Coordinator := (MultiStreamCoordinator G I F R W).
Abbreviation op := (op (G := G) (I := I) (F := F) (R := R) (L := L) (S := S) (E := E) (X := RetiredGate G)).
Implicit Types (c : Coordinator) (m : MultiRaft) (ep : Endpoint) (g gid group : G) (now : Now).
Implicit Types (log : L) (stable : S) (stores engine floors : E) (msg : Message I).

(** ** The calls *)

Inductive mc_op :=
  | McCreate (gid : G) (config : Config I) (now : Now) (rng : R) (fsm : F) (generation : u64) (floors : E)
  | McFound (gid : G) (config : Config I) (now : Now) (rng : R) (fsm : F) (generation : u64) (floors : E)
      (epoch : u64) (log : L) (stable : S)
  | McRestore (gid : G) (config : Config I) (now : Now) (rng : R) (fsm : F) (epoch generation : u64)
      (floors : E) (log : L) (stable : S)
  | McFromFork (gid : G) (config : Config I) (now : Now) (rng : R) (fsm : F) (snapshot : bytes)
      (read_only : option ReadOnlyOption) (epoch generation : u64) (floors : E) (log : L) (stable : S)
  | McRemove (gid : G) (stores : E)
  | McClear (gid : G)
  | McQueryPanicked (gid : G)
  | McPlanePanicked
  | McPollUnknown
  | McDial (expected : I) (record : W) (now : Instant)
  | McAccept (record : W) (now : Instant)
  | McConnClose (conn : ConnId)
  | McPollClosed
  | McData (conn : ConnId) (bytes : bytes) (eof : bool) (now : Now) (stores : E)
  | McPropose (group : G) (now : Now) (cmd : sm_command) (log : L) (stable : S) (floors : E)
  | McProposeDeferred (group : G) (now : Now) (cmd : sm_command) (log : L) (floors : E)
  | McFlushAppends (group : G) (now : Now) (log : L) (stable : S)
  | McConfChange (group : G) (now : Now) (cc : ConfChange I) (log : L) (stable : S) (floors : E)
  | McConfChangeV2 (group : G) (now : Now) (cc : ConfChangeV2 I) (log : L) (stable : S) (floors : E)
  | McReadMode (group : G) (now : Now) (mode : ReadOnlyOption) (log : L) (stable : S) (floors : E)
  | McSplit (group : G) (now : Now) (child : G) (child_gen : u64) (instruction : bytes) (log : L)
      (stable : S) (floors : E)
  | McPrepareMerge (source : G) (now : Now) (stores : E) (target : G) (floors : E)
  | McCommitMerge (target : G) (now : Now) (log : L) (stable : S) (source : G) (floors : E)
  | McRollbackMerge (target : G) (now : Now) (log : L) (stable : S) (source : G) (floors : E)
  | McService (now : Now) (stores : E)
  | McPeekFork (Y : Type) (judge : ForkGate G Y) (gate : Y)
  | McInstall (parent child : G) (engine : E) (now : Now) (rng : R)
  | McLiftBarrier (parent : G) (index : Index)
  | McPollConflict
  | McPollRefusal
  | McPollGuardAdvance
  | McPollPoisoned
  | McPollBlocked
  | McPollEvent
  | McReadIndex (group : G) (now : Now) (context : bytes) (log : L)
  | McTransfer (group : G) (now : Now) (to : I) (log : L) (stable : S)
  | McTimeout (group : G) (now : Now) (log : L) (stable : S)
  | McStorage (group : G) (now : Now) (log : L) (stable : S)
  | McTransmit
  | McMarkQuiescing (group : G)
  | McCancelQuiescing (group : G)
  | McPollControl
  | McTransportTimeout (now : Now).

Definition mc_op_ok (o : mc_op) : Prop :=
  match o with
  | McCreate _ config _ _ _ _ _ | McFound _ config _ _ _ _ _ _ _ _
  | McFromFork _ config _ _ _ _ _ _ _ _ _ _ => cfg_voters config ≠ []
  | McRestore _ config _ _ _ _ _ _ _ stable => cfg_voters config ≠ [] ∧ bootable stable
  | McDial _ record _ | McAccept record _ => record_fresh record
  | _ => True
  end.

(** The coordinator after the call; [None] is a panic. *)
Definition mc_step (o : mc_op) c : option Coordinator :=
  match o with
  | McCreate gid config now rng fsm generation floors =>
      Some (MultiStreamCoordinator_create_group gid config now rng fsm generation floors c).2
  | McFound gid config now rng fsm generation floors epoch log stable =>
      Some (MultiStreamCoordinator_create_group_founded_at gid config now rng fsm generation floors epoch
              log stable c).2
  | McRestore gid config now rng fsm epoch generation floors log stable =>
      Some (MultiStreamCoordinator_restore_group gid config now rng fsm epoch generation floors log stable c).2
  | McFromFork gid config now rng fsm snapshot read_only epoch generation floors log stable =>
      Some (MultiStreamCoordinator_create_group_from_fork gid config now rng fsm snapshot read_only epoch
              generation floors log stable c).2
  | McRemove gid stores => snd <$> MultiStreamCoordinator_remove_group (L := L) (S := S) gid stores c
  | McClear gid => Some (clear_tombstone gid c).2
  | McQueryPanicked gid => Some (MultiStreamCoordinator_fail_stop_query_panicked gid c)
  | McPlanePanicked => Some (MultiStreamCoordinator_fail_stop_plane c)
  | McPollUnknown => Some (poll_unknown_group c).2
  | McDial expected record now => snd <$> MultiStreamCoordinator_on_dial_open expected record now c
  | McAccept record now => snd <$> MultiStreamCoordinator_on_accept_open record now c
  | McConnClose conn => Some (MultiStreamCoordinator_on_conn_close conn c)
  | McPollClosed => Some (MultiStreamCoordinator_poll_conn_closed c).2
  | McData conn bytes eof now stores =>
      snd <$> MultiStreamCoordinator_handle_conn_data (L := L) (S := S) conn bytes eof now stores c
  | McPropose group now cmd log stable floors =>
      Some (MultiStreamCoordinator_submit_propose group now cmd log stable floors c).2
  | McProposeDeferred group now cmd log floors =>
      Some (MultiStreamCoordinator_submit_propose_deferred group now cmd log floors c).2
  | McFlushAppends group now log stable => Some (MultiStreamCoordinator_flush_appends group now log stable c).2
  | McConfChange group now cc log stable floors =>
      Some (MultiStreamCoordinator_propose_conf_change group now cc log stable floors c).2
  | McConfChangeV2 group now cc log stable floors =>
      Some (MultiStreamCoordinator_propose_conf_change_v2 group now cc log stable floors c).2
  | McReadMode group now mode log stable floors =>
      Some (MultiStreamCoordinator_propose_read_mode_change group now mode log stable floors c).2
  | McSplit group now child child_gen instruction log stable floors =>
      Some (MultiStreamCoordinator_propose_split group now child child_gen instruction log stable floors c).2
  | McPrepareMerge source now stores target floors =>
      snd <$> MultiStreamCoordinator_prepare_merge (L := L) (S := S) source now stores target floors c
  | McCommitMerge target now log stable source floors =>
      snd <$> MultiStreamCoordinator_commit_merge target now log stable source floors c
  | McRollbackMerge target now log stable source floors =>
      Some (MultiStreamCoordinator_rollback_merge target now log stable source floors c).2
  | McService now stores => snd <$> MultiStreamCoordinator_service_merge_applies (L := L) (S := S) now stores c
  | McPeekFork Y judge gate => snd <$> MultiStreamCoordinator_peek_yieldable_fork gate c
  | McInstall parent child engine now rng =>
      snd <$> MultiStreamCoordinator_install_yieldable_fork (L := L) (S := S) parent child engine now rng c
  | McLiftBarrier parent index => Some (MultiStreamCoordinator_lift_fork_barrier parent index c)
  | McPollConflict => Some (MultiStreamCoordinator_poll_split_conflict c).2
  | McPollRefusal => Some (MultiStreamCoordinator_poll_split_refusal c).2
  | McPollGuardAdvance => Some (MultiStreamCoordinator_poll_relay_guard_advance c).2
  | McPollPoisoned => Some (MultiStreamCoordinator_poll_poisoned c).2
  | McPollBlocked => Some (MultiStreamCoordinator_poll_merge_blocked c).2
  | McPollEvent => Some (MultiStreamCoordinator_poll_event c).2
  | McReadIndex group now context log => Some (MultiStreamCoordinator_read_index group now context log c).2
  | McTransfer group now to log stable => Some (MultiStreamCoordinator_transfer_leader group now to log stable c).2
  | McTimeout group now log stable => Some (MultiStreamCoordinator_handle_timeout group now log stable c).2
  | McStorage group now log stable => Some (MultiStreamCoordinator_handle_storage group now log stable c).2
  | McTransmit => Some (MultiStreamCoordinator_poll_transmit c).2
  | McMarkQuiescing group => Some (mark_quiescing group c)
  | McCancelQuiescing group => Some (cancel_quiescing group c)
  | McPollControl => Some (poll_group_control c).2
  | McTransportTimeout now => Some (handle_transport_timeout now c)
  end.

(** ** What holds between calls *)

(** An entry of a batch of heartbeats. *)
Definition beat_entry (e : CoalescedEntry I) : Prop :=
  let '(flags, group_bytes, generation, msg) := e in
  (∃ g, group_bytes = data_encode g) ∧ (is_heartbeat msg || is_heartbeat_response msg) = true
  ∧ (flags = x00 ∨ quiesce_flag flags = true ∧ is_heartbeat msg = true).

(** [D] are the children the fork relay was asked to host so far. *)
Record mc_inv (D : gset G) c : Prop := {
  mi_multi : mr_ok None (mc_multi c);
  mi_table : table_ok (λ _, True) (mc_next_conn_id c) (mc_router c);
  mi_unknown : mirror (mc_unknown_pending c).*1 (mc_unknown_seen c);
  mi_cap : (size (mc_unknown_seen c) ≤ UNKNOWN_GROUP_SIGNAL_CAP)%nat;
  mi_stale : ∀ g, g ∈ mc_unknown_seen c → (g ∉ mc_retired c) ∧ (g ∈ hosted (mc_multi c) → g ∈ D);
  mi_controls : ∀ g, is_Some (mc_control_state c !! g) → g ∈ mc_controls c;
  mi_batches : ∀ to batch, mc_hb_batches c !! to = Some batch → Forall beat_entry batch;
}.

Lemma mc_inv_new : mc_inv ∅ MultiStreamCoordinator_new.
Proof.
  split; cbn; [apply mr_ok_new|apply table_new|apply mirror_nil|rewrite size_empty; unfold UNKNOWN_GROUP_SIGNAL_CAP; lia|set_solver|..];
    [intros g [? ?]|intros to b ?]; by simplify_map_eq.
Qed.

(** The container moved by well-formed calls of its own. *)
Definition container_runs m m' : Prop := ∃ ops : list op, Forall op_ok ops ∧ performs ops m = Some m'.

Lemma performs_app (o1 o2 : list op) m : performs (o1 ++ o2) m = performs o1 m ≫= performs o2.
Proof. revert m. induction o1 as [|o o1 IH]; intros m; [done|]. cbn. destruct (perform o m); [apply IH|done]. Qed.

#[global] Instance container_runs_refl : Reflexive container_runs.
Proof. intros m. exists []. by split. Qed.

#[global] Instance container_runs_trans : Transitive container_runs.
Proof.
  intros m1 m2 m3 (o1 & F1 & H1) (o2 & F2 & H2). exists (o1 ++ o2). split; [by apply Forall_app|].
  by rewrite performs_app, H1.
Qed.

Lemma container_runs_one o m m' : op_ok o → perform o m = Some m' → container_runs m m'.
Proof. intros Ho Hp. exists [o]. split; [by constructor|]. cbn. by rewrite Hp. Qed.

(** A call keeps the invariant and moves the container by its own calls. *)
Definition mc_keeps c c' : Prop :=
  ∀ D, mc_inv D c → mc_inv D c' ∧ container_runs (mc_multi c) (mc_multi c').

#[global] Instance mc_keeps_refl : Reflexive mc_keeps.
Proof. by intros c D Hc. Qed.

#[global] Instance mc_keeps_trans : Transitive mc_keeps.
Proof.
  intros c1 c2 c3 H1 H2 D Hc. destruct (H1 D Hc) as [Hc2 ?]. destruct (H2 D Hc2) as [Hc3 ?]. split; [done|by etrans].
Qed.

Lemma keeps_op o c m' :
  op_ok o → op_hosts o = ∅ → perform o (mc_multi c) = Some m' → mc_keeps c (c <| mc_multi := m' |>).
Proof.
  intros Ho Hh Hp D [Hm ? ? ? Hs ? ?]. destruct (perform_ok o _ Ho Hm) as (m1 & H1 & Hok1).
  assert (m1 = m') as -> by congruence. split; [|by eapply container_runs_one]. split; try done.
  intros g [? Hg]%Hs. split; [done|]. intros Hin. apply Hg.
  pose proof (perform_hosted o _ _ Hm Hp) as Hsub. rewrite Hh in Hsub. set_solver.
Qed.

Lemma keeps_router c f :
  (∀ r, table_ok (λ _, True) (mc_next_conn_id c) r → table_ok (λ _, True) (mc_next_conn_id c) (f r)) →
  mc_keeps c (c <| mc_router ::= f |>).
Proof. intros Hf D []. split; [|done]. split; try done. by apply Hf. Qed.

Lemma keeps_route c group_bytes generation to msg :
  mc_keeps c (c <| mc_router ::= λ r, (PeerRouter_route group_bytes generation to msg r).2 |>).
Proof. apply keeps_router. intros r Hr. apply table_route; [|done]. apply Conn_send_message_ok. Qed.

Lemma keeps_route_coalesced c to entries :
  mc_keeps c (c <| mc_router ::= λ r, (PeerRouter_route_coalesced to entries r).2 |>).
Proof. apply keeps_router. intros r Hr. apply table_route; [|done]. apply Conn_send_coalesced_ok. Qed.

Lemma keeps_intents c f : mc_keeps c (c <| mc_quiesce_intents ::= f |>).
Proof. intros D []. split; [|done]. by split. Qed.

(** ** Signals *)

Lemma keeps_note_unknown group from c :
  group ∉ mc_retired c → group ∉ hosted (mc_multi c) → mc_keeps c (note_unknown_group group from c).
Proof.
  intros Hr Hh D [? ? Hu Hc Hs ? ?]. unfold note_unknown_group.
  case_bool_decide as Hseen; cbn [orb]; [by split|]. destruct (Nat.leb_spec UNKNOWN_GROUP_SIGNAL_CAP (size (mc_unknown_seen c)));
    [by split|]. split; [|done]. split; try done; cbn.
  - rewrite fmap_app. by apply mirror_push.
  - rewrite size_union, size_singleton by set_solver. lia.
  - intros g [->%elem_of_singleton|Hg]%elem_of_union; [done|by apply Hs].
Qed.

Lemma retain_mirror (q : list (G * I)) s gid :
  mirror q.*1 s → mirror (retain (λ p, negb (bool_decide (p.1 = gid))) q).*1 (s ∖ {[ gid ]}).
Proof.
  intros [Hn Hm]. assert ((retain (λ p, negb (bool_decide (p.1 = gid))) q).*1 = filter (λ g, g ≠ gid) q.*1) as ->.
  { unfold retain. clear. induction q as [|[g i] q IH]; [done|]. rewrite fmap_cons, !filter_cons. cbn [fst].
    destruct (decide (g = gid)) as [->|Hne].
    - rewrite bool_decide_eq_true_2 by done. rewrite decide_False by done. by rewrite decide_False by naive_solver.
    - rewrite bool_decide_eq_false_2 by done. rewrite !decide_True by done. by rewrite fmap_cons, IH. }
  split; [by apply NoDup_filter|]. intros g. rewrite list_elem_of_filter, Hm. set_solver.
Qed.

Lemma purge_seen gid c : mc_unknown_seen (purge_unknown_signal gid c) = mc_unknown_seen c ∖ {[ gid ]}.
Proof. unfold purge_unknown_signal. case_bool_decide; [done|]. set_solver. Qed.

Lemma purge_pending gid c :
  mirror (mc_unknown_pending c).*1 (mc_unknown_seen c) →
  mirror (mc_unknown_pending (purge_unknown_signal gid c)).*1 (mc_unknown_seen (purge_unknown_signal gid c)).
Proof. intros Hm. unfold purge_unknown_signal. case_bool_decide; [by apply retain_mirror|done]. Qed.

(** After [gid] is admitted, or its tombstone set, its signal is dropped. *)
Lemma purge_inv D gid c c0 :
  mc_inv D c0 → mr_ok None (mc_multi c) → table_ok (λ _, True) (mc_next_conn_id c) (mc_router c) →
  mc_unknown_pending c = mc_unknown_pending c0 → mc_unknown_seen c = mc_unknown_seen c0 →
  mc_retired c ⊆ mc_retired c0 ∪ {[ gid ]} → hosted (mc_multi c) ⊆ hosted (mc_multi c0) ∪ {[ gid ]} →
  (∀ g, is_Some (mc_control_state c !! g) → g ∈ mc_controls c) → mc_hb_batches c = mc_hb_batches c0 →
  mc_inv D (purge_unknown_signal gid c).
Proof.
  intros [_ _ Hu Hc Hs _ Hb] Hm Ht Hp Hse Hr Hh Hct Hba.
  assert (∀ {A} (f : Coordinator → A), (∀ c s q, f (c <| mc_unknown_seen ::= s |> <| mc_unknown_pending ::= q |>) = f c) →
    f (purge_unknown_signal gid c) = f c) as Hf.
  { intros A f Hf. unfold purge_unknown_signal. case_bool_decide; [apply Hf|done]. }
  split.
  - by rewrite (Hf _ mc_multi).
  - by rewrite (Hf _ mc_router), (Hf _ mc_next_conn_id) by done.
  - apply purge_pending. by rewrite Hp, Hse.
  - rewrite purge_seen, Hse. etrans; [|exact Hc]. apply subseteq_size. set_solver.
  - intros g. rewrite purge_seen, (Hf _ mc_retired), (Hf _ mc_multi), Hse by done. intros [Hg Hne]%elem_of_difference.
    apply Hs in Hg as [? ?]. split.
    + intros Hin%Hr. apply elem_of_union in Hin as [?|Heq%elem_of_singleton]; [done|]. by apply Hne, elem_of_singleton.
    + intros Hin%Hh. apply elem_of_union in Hin as [?|Heq%elem_of_singleton]; [by auto|]. by destruct Hne; apply elem_of_singleton.
  - by rewrite (Hf _ mc_control_state), (Hf _ mc_controls) by done.
  - by rewrite (Hf _ mc_hb_batches), Hba by done.
Qed.

Lemma keeps_push_control group ctrl c : mc_keeps c (push_control group ctrl c).
Proof.
  intros D [? ? ? ? ? Hc ?]. unfold push_control. cbv zeta. case_bool_decide as Ha; (split; [|done]); split; try done;
    cbn; intros g; (destruct (decide (group = g)) as [->|]; [|rewrite lookup_insert_ne by done]).
  - set_solver.
  - intros ?%Hc. set_solver.
  - intros _. apply Hc. by destruct (mc_control_state c !! g).
  - apply Hc.
Qed.

Lemma keeps_dispatch_controls group wake flags c : mc_keeps c (push_dispatch_controls group wake flags c).
Proof.
  unfold push_dispatch_controls. cbv zeta. transitivity (if wake then push_control group Wake c else c);
    [destruct wake|destruct (quiesce_flag flags)]; try done; apply keeps_push_control.
Qed.

Lemma keeps_poll_unknown c : mc_keeps c (poll_unknown_group c).2.
Proof.
  intros D Hi. unfold poll_unknown_group. destruct (mc_unknown_pending c) as [|[g i] q] eqn:Hq; [done|].
  destruct Hi as [? ? Hu Hc Hs ? ?]. rewrite Hq, fmap_cons in Hu. split; [|done]. split; try done; cbn.
  - by apply mirror_pop.
  - etrans; [|exact Hc]. apply subseteq_size. set_solver.
  - intros h [Hh _]%elem_of_difference. by apply Hs.
Qed.

Lemma poll_controls_step controls c :
  match poll_controls controls c with
  | (None, c') => c' = c <| mc_controls := [] |> ∧ ∀ g, g ∈ controls → mc_control_state c !! g = None
  | (Some (g, ctrl), c') => ∃ skipped rest, controls = skipped ++ g :: rest
      ∧ (∀ h, h ∈ skipped → mc_control_state c !! h = None) ∧ mc_control_state c !! g = Some ctrl
      ∧ c' = c <| mc_controls := rest |> <| mc_control_state ::= delete g |>
  end.
Proof.
  induction controls as [|g controls IH]; cbn [poll_controls]; [by split; [|intros ? ?%elem_of_nil]|].
  destruct (mc_control_state c !! g) as [ctrl|] eqn:Hg.
  - exists [], controls. split_and!; try done. by intros h ?%elem_of_nil.
  - destruct (poll_controls controls c) as [[[h ctrl]|] c'].
    + destruct IH as (skipped & rest & -> & Hs & Hc & ->). exists (g :: skipped), rest. split_and!; try done.
      intros k [->|?]%elem_of_cons; auto.
    + destruct IH as [-> Hs]. split; [done|]. intros k [->|?]%elem_of_cons; auto.
Qed.

Lemma keeps_poll_control c : mc_keeps c (poll_group_control c).2.
Proof.
  intros D [? ? ? ? ? Hc ?]. unfold poll_group_control. pose proof (poll_controls_step (mc_controls c) c) as Hp.
  destruct (poll_controls (mc_controls c) c) as [[[g ctrl]|] c']; cbn [snd].
  - destruct Hp as (skipped & rest & He & Hs & Hg & ->). split; [|done]. split; try done. cbn. intros h Hh.
    assert (h ≠ g) by (intros ->; rewrite lookup_delete_eq in Hh; by destruct Hh).
    rewrite lookup_delete_ne in Hh by done. pose proof (Hc h Hh) as Hin. rewrite He in Hin.
    apply elem_of_app in Hin as [Hin|[->|Hin]%elem_of_cons]; [|done|done].
    rewrite (Hs h Hin) in Hh. by destruct Hh.
  - destruct Hp as [-> Hs]. split; [|done]. split; try done. cbn. intros h Hh. pose proof (Hs h (Hc h Hh)) as Hn.
    rewrite Hn in Hh. by destruct Hh.
Qed.

(** ** Sending *)

Lemma low_quiesce : quiesce_flag (low_byte COALESCED_FLAG_QUIESCE) = true.
Proof. done. Qed.

Lemma keeps_send_out group out stamped c : mc_keeps c (send_out group out stamped c).2.
Proof.
  unfold send_out. cbv zeta. destruct (is_heartbeat (out_message out) || _) eqn:Hb; cbn [snd]; [|apply keeps_route].
  intros D [? ? ? ? ? ? Hba]. split; [|done]. split; try done. cbn. intros to batch.
  destruct (decide (out_to out = to)) as [->|]; [|rewrite lookup_insert_ne by done; apply Hba].
  rewrite lookup_insert_eq. intros [= <-]. apply Forall_app. split.
  - destruct (mc_hb_batches c !! to) as [b|] eqn:Hto; [by eapply Hba|constructor].
  - apply Forall_singleton. split; [by eexists|]. split; [done|].
    destruct (is_heartbeat (out_message out)) eqn:Hh; cbn [andb]; [|by left].
    case_bool_decide; [right; by rewrite low_quiesce|by left].
Qed.

Lemma keeps_poll_message c : mc_keeps c (c <| mc_multi := (MultiRaft_poll_message (mc_multi c)).2 |>).
Proof. by apply (keeps_op OpPollMessage). Qed.

Lemma keeps_flush_rounds fuel stamped c : mc_keeps c (flush_rounds fuel stamped c).2.
Proof.
  revert stamped c. induction fuel as [|fuel IH]; intros stamped c; cbn [flush_rounds];
    pose proof (keeps_poll_message c) as Hp; destruct (MultiRaft_poll_message (mc_multi c)) as [[[g out]|] m];
    cbn [snd] in *; try done;
    pose proof (keeps_send_out g out stamped (c <| mc_multi := m |>)) as Hs;
    destruct (send_out g out stamped _) as [stamped' c']; cbn [snd] in *; [by etrans|].
  etrans; [exact Hp|]. etrans; [exact Hs|]. apply IH.
Qed.

Lemma keeps_flush c : mc_keeps c (MultiStreamCoordinator_flush c).
Proof.
  unfold MultiStreamCoordinator_flush. pose proof (keeps_flush_rounds (queued (mc_multi c)) ∅ c) as Hf.
  destruct (flush_rounds _ _ _) as [stamped c']. etrans; [exact Hf|]. apply keeps_intents.
Qed.

Lemma mc_multi_twice c m m' : c <| mc_multi := m |> <| mc_multi := m' |> = c <| mc_multi := m' |>.
Proof. done. Qed.

Lemma keeps_op_flush o c m' :
  op_ok o → op_hosts o = ∅ → perform o (mc_multi c) = Some m' →
  mc_keeps c (MultiStreamCoordinator_flush (c <| mc_multi := m' |>)).
Proof. intros. etrans; [by eapply keeps_op|apply keeps_flush]. Qed.

Lemma keeps_ship_entries to batch fitting c : mc_keeps c (ship_entries to batch fitting c).2.
Proof.
  revert fitting c. induction batch as [|[[[flags gb] n] msg] batch IH]; intros fitting c; cbn [ship_entries]; [done|].
  destruct (_ <? _); [|apply IH]. etrans; [|apply IH]. etrans; [|apply keeps_route].
  destruct (decode_exact gb); [|done]. destruct (_ && _); [apply keeps_intents|done].
Qed.

Lemma keeps_ship_batch to batch c : mc_keeps c (ship_batch c to batch).
Proof.
  unfold ship_batch. pose proof (keeps_ship_entries to batch [] c) as Hs.
  destruct (ship_entries to batch [] c) as [fitting c']. etrans; [exact Hs|].
  destruct fitting as [|[[[flags gb] n] msg] [|]]; [done| |apply keeps_route_coalesced].
  destruct (_ =? _); [apply keeps_route|apply keeps_route_coalesced].
Qed.

Lemma keeps_ship c : mc_keeps c (ship_heartbeats c).
Proof.
  unfold ship_heartbeats. cbv zeta. transitivity (c <| mc_hb_batches := ∅ |>).
  { intros D []. split; [|done]. by split. }
  generalize (btree_map_iter (mc_hb_batches c)). intros l. generalize (c <| mc_hb_batches := ∅ |>). intros c0.
  revert c0. induction l as [|[to batch] l IH]; intros c0; cbn [foldl]; [done|].
  etrans; [apply keeps_ship_batch|apply IH].
Qed.

(** ** Inbound *)

Lemma frame_dispatch gb flags n msg stores c group log stable :
  frame_verdict gb flags n msg stores c = FrDispatch group log stable →
  decode_exact gb = Ok group ∧ (quiesce_flag flags = true → is_heartbeat msg = true) ∧ (group ∉ mc_retired c)
  ∧ debt_names (mc_multi c) group = false ∧ floor_admits (fs_floor stores group) n = true
  ∧ gst_stores group stores = Some (log, stable).
Proof.
  unfold frame_verdict. destruct (decode_exact gb) as [g|]; [|done]. destruct (quiesce_flag flags && negb (is_heartbeat msg)) eqn:Hq; [done|].
  case_bool_decide as Hr; [done|]. destruct (debt_names (mc_multi c) g) eqn:Hd; [done|].
  destruct (floor_admits _ n) eqn:Hf; [|done]. cbn [negb].
  destruct (gst_stores g stores) as [[log' stable']|] eqn:Hst; [|by destruct (is_initial_shaped msg && _)].
  intros [= -> -> ->]. split_and!; try done. intros Hqf. rewrite Hqf in Hq. by destruct (is_heartbeat msg).
Qed.

Lemma frame_unknown gb flags n msg stores c group :
  frame_verdict (L := L) (S := S) gb flags n msg stores c = FrUnknown group →
  (group ∉ mc_retired c) ∧ (group ∉ hosted (mc_multi c)).
Proof.
  unfold frame_verdict. destruct (decode_exact gb) as [g|]; [|done]. destruct (_ && negb (is_heartbeat msg)); [done|].
  case_bool_decide as Hr; [done|]. destruct (debt_names _ g); [done|]. destruct (negb (floor_admits _ n)); [done|].
  destruct (gst_stores g stores) as [[? ?]|]; [done|]. destruct (is_initial_shaped msg && _) eqn:Hi; [|done].
  intros [= ->]. split; [done|]. apply andb_true_iff in Hi as [_ Hi]. rewrite hosted_elem, <- hosts_Some.
  by destruct (hosts _ _).
Qed.

Lemma keeps_dispatch group flags now from msg log stable stores c :
  message_u64 msg → mc_keeps c (dispatch group flags now from msg log stable stores c).2.
Proof.
  intros Hu. unfold dispatch. cbv zeta.
  assert (mc_keeps c (c <| mc_multi := (MultiRaft_handle_message group now from msg log stable (mc_multi c)).2 |>)) as Hk
    by (by apply (keeps_op (OpMessage group now from msg log stable))).
  destruct (MultiRaft_handle_message _ _ _ _ _ _ _) as [[[[[]|] log'] stable'] m]; cbn [snd] in *; [|done].
  etrans; [exact Hk|]. apply keeps_dispatch_controls.
Qed.

Lemma keeps_demux conn now decoded stores c :
  (∀ gb f n p msg, (gb, f, n, p, msg) ∈ decoded → message_u64 msg) →
  mc_keeps c (demux (L := L) (S := S) conn now decoded stores c).2.
Proof.
  revert stores c. induction decoded as [|[[[[gb flags] n] from] msg] decoded IH]; intros stores c Hu; cbn [demux]; [done|].
  assert (∀ gb f n p msg, (gb, f, n, p, msg) ∈ decoded → message_u64 msg) as Hu'.
  { intros g' f' n' p' m' Hin. apply (Hu g' f' n' p'). by right. }
  destruct (frame_verdict gb flags n msg stores c) as [| | | |group log stable|group|] eqn:Hv; try by apply IH.
  - cbn [snd]. apply keeps_router. intros r. by apply table_close.
  - etrans; [|by apply IH]. intros D []. split; [|done]. by split.
  - pose proof (keeps_dispatch group flags now from msg log stable stores c (Hu gb flags n from msg ltac:(left))) as Hd.
    destruct (dispatch _ _ _ _ _ _ _ _ _) as [stores' c']. etrans; [exact Hd|by apply IH].
  - etrans; [by apply keeps_note_unknown; eapply frame_unknown|by apply IH].
Qed.

Lemma keeps_data conn bytes eof now stores c stores' c' :
  MultiStreamCoordinator_handle_conn_data (L := L) (S := S) conn bytes eof now stores c = Some (stores', c') →
  mc_keeps c c'.
Proof.
  unfold MultiStreamCoordinator_handle_conn_data.
  destruct (PeerRouter_handle_conn_data _ _ _ _ _) as [[[res decoded] r]|] eqn:Hd; [|done]. cbn [mbind option_bind].
  pose proof (keeps_demux conn now decoded stores (c <| mc_router := r |>)) as Hk.
  destruct (demux _ _ _ _ _) as [stores1 c1]. intros [= _ <-]. transitivity (c <| mc_router := r |>).
  - intros D []. split; [|done]. split; try done. by eapply table_data.
  - etrans; [apply Hk|apply keeps_flush]. intros g f n p m Hin.
    destruct (handle_conn_data_decoded _ _ _ _ _ _ _ _ _ _ _ _ _ Hd Hin) as [b Hb]. by eapply decode_message_u64.
Qed.

(** ** Admission and removal *)

Lemma keeps_admitted o gid c m' :
  op_ok o → op_hosts o = {[ gid ]} → perform o (mc_multi c) = Some m' →
  mc_keeps c (purge_unknown_signal gid (c <| mc_multi := m' |>)).
Proof.
  intros Ho Hh Hp D Hi. pose proof (mi_multi _ _ Hi) as Hm. destruct (perform_ok o _ Ho Hm) as (m1 & H1 & Hok1).
  assert (m1 = m') as -> by congruence. pose proof (perform_hosted o _ _ Hm Hp) as Hsub. rewrite Hh in Hsub. split.
  - apply (purge_inv D gid (c <| mc_multi := m' |>) c); try done; try apply Hi. cbn. set_solver.
  - unfold purge_unknown_signal. case_bool_decide; by eapply container_runs_one.
Qed.

Lemma keeps_tombstone gid c : mc_keeps c (tombstone gid c).
Proof.
  intros D Hi. unfold tombstone. split; [|by unfold purge_unknown_signal; case_bool_decide].
  eapply (purge_inv D gid _ c); try done; try apply Hi; cbn; [set_solver|set_solver|].
  intros g. destruct (decide (gid = g)) as [->|]; [rewrite lookup_delete_eq; by intros []|].
  rewrite lookup_delete_ne by done. apply Hi.
Qed.

Lemma keeps_tombstones res c :
  mc_keeps c (foldl (λ c r, match resolved_terminally r with Some source => tombstone source c | None => c end) c res).
Proof.
  revert c. induction res as [|r res IH]; intros c; cbn [foldl]; [done|]. etrans; [|apply IH].
  destruct (resolved_terminally r); [apply keeps_tombstone|done].
Qed.

(** A door that refuses leaves the container as it was. *)
Lemma create_refused gid generation config now (rng : R) (fsm : F) m e :
  (create_group_with_rng gid generation config now rng fsm m).1 = Err e →
  (create_group_with_rng gid generation config now rng fsm m).2 = m.
Proof. unfold create_group_with_rng. by repeat case_match. Qed.

Lemma found_refused gid generation config now (rng : R) (fsm : F) epoch log stable m e :
  (create_group_founded_at_with_rng gid generation config now rng fsm epoch log stable m).1.1 = Err e →
  (create_group_founded_at_with_rng gid generation config now rng fsm epoch log stable m).2 = m.
Proof. unfold create_group_founded_at_with_rng. by repeat case_match. Qed.

Lemma restore_refused gid config now (rng : R) (fsm : F) epoch log stable m e :
  (restore_group_with_rng_unchecked gid config now rng fsm epoch log stable m).1.1.1 = Err e →
  (restore_group_with_rng_unchecked gid config now rng fsm epoch log stable m).2 = m.
Proof. unfold restore_group_with_rng_unchecked. by repeat case_match. Qed.

Lemma from_fork_refused gid generation config now (rng : R) (fsm : F) snapshot read_only epoch log stable m e :
  (create_group_from_fork_with_rng gid generation config now rng fsm snapshot read_only epoch log stable m).1.1.1 = Err e →
  (create_group_from_fork_with_rng gid generation config now rng fsm snapshot read_only epoch log stable m).2 = m.
Proof. unfold create_group_from_fork_with_rng, create_group_from_fork_with_rng_unreserved. by repeat case_match. Qed.

Lemma mc_multi_same c : c <| mc_multi := mc_multi c |> = c.
Proof. by destruct c. Qed.

Lemma keeps_create gid config now rng fsm generation floors c :
  cfg_voters config ≠ [] →
  mc_keeps c (MultiStreamCoordinator_create_group gid config now rng fsm generation floors c).2.
Proof.
  intros Hv. unfold MultiStreamCoordinator_create_group. destruct (admission_check _ _ _ _); [|done].
  pose proof (keeps_admitted (OpCreate gid generation config now rng fsm) gid c _ Hv eq_refl eq_refl) as Hk.
  pose proof (create_refused gid generation config now rng fsm (mc_multi c)) as Hr.
  destruct (create_group_with_rng _ _ _ _ _ _ _) as [[[]|e] m]; cbn [fst snd] in *; [done|].
  by rewrite (Hr e eq_refl), mc_multi_same.
Qed.

Lemma keeps_found gid config now rng fsm generation floors epoch log stable c :
  cfg_voters config ≠ [] →
  mc_keeps c (MultiStreamCoordinator_create_group_founded_at gid config now rng fsm generation floors epoch log stable c).2.
Proof.
  intros Hv. unfold MultiStreamCoordinator_create_group_founded_at. destruct (admission_check _ _ _ _); [|done].
  pose proof (keeps_admitted (OpFound gid generation config now rng fsm epoch log stable) gid c _ Hv eq_refl eq_refl) as Hk.
  pose proof (found_refused gid generation config now rng fsm epoch log stable (mc_multi c)) as Hr.
  destruct (create_group_founded_at_with_rng _ _ _ _ _ _ _ _ _ _) as [[[[]|e] s'] m]; cbn [fst snd] in *; [done|].
  by rewrite (Hr e eq_refl), mc_multi_same.
Qed.

Lemma purge_multi gid c f : purge_unknown_signal gid (c <| mc_multi ::= f |>) = (purge_unknown_signal gid c) <| mc_multi ::= f |>.
Proof. unfold purge_unknown_signal. change (mc_unknown_seen (c <| mc_multi ::= f |>)) with (mc_unknown_seen c). by case_bool_decide. Qed.

Lemma keeps_restore gid config now rng fsm epoch generation floors log stable c :
  cfg_voters config ≠ [] → bootable stable →
  mc_keeps c (MultiStreamCoordinator_restore_group gid config now rng fsm epoch generation floors log stable c).2.
Proof.
  intros Hv Hb. unfold MultiStreamCoordinator_restore_group. destruct (result_bind _ _); [|done].
  pose proof (keeps_admitted (OpRestore gid config now rng fsm epoch log stable) gid c _ (conj Hv Hb) eq_refl eq_refl) as Hk.
  pose proof (restore_refused gid config now rng fsm epoch log stable (mc_multi c)) as Hr.
  destruct (restore_group_with_rng_unchecked _ _ _ _ _ _ _ _ _) as [[[[[]|e] l'] s'] m]; cbn [fst snd] in *.
  - rewrite purge_multi. etrans; [exact Hk|]. by apply (keeps_op (OpRaiseGuard gid (fs_lineage floors gid))).
  - by rewrite (Hr e eq_refl), mc_multi_same.
Qed.

Lemma keeps_from_fork gid config now rng fsm snapshot read_only epoch generation floors log stable c :
  cfg_voters config ≠ [] →
  mc_keeps c (MultiStreamCoordinator_create_group_from_fork gid config now rng fsm snapshot read_only epoch
                generation floors log stable c).2.
Proof.
  intros Hv. unfold MultiStreamCoordinator_create_group_from_fork. destruct (admission_check _ _ _ _); [|done].
  pose proof (keeps_admitted (OpFromFork gid generation config now rng fsm snapshot read_only epoch log stable)
    gid c _ Hv eq_refl eq_refl) as Hk.
  pose proof (from_fork_refused gid generation config now rng fsm snapshot read_only epoch log stable (mc_multi c)) as Hr.
  destruct (create_group_from_fork_with_rng _ _ _ _ _ _ _ _ _ _ _ _) as [[[[[]|e] l'] s'] m]; cbn [fst snd] in *; [done|].
  by rewrite (Hr e eq_refl), mc_multi_same.
Qed.

Lemma keeps_remove gid stores c r c' :
  MultiStreamCoordinator_remove_group (L := L) (S := S) gid stores c = Some (r, c') → mc_keeps c c'.
Proof.
  unfold MultiStreamCoordinator_remove_group.
  destruct (MultiRaft_remove_group gid stores (mc_multi c)) as [[r' m]|] eqn:Hr; [|done]. cbn [mbind option_bind].
  intros [= _ <-]. assert (mc_keeps c (c <| mc_multi := m |>)) as Hk
    by (apply (keeps_op (OpRemove gid stores)); [done..|cbn [perform]; by rewrite Hr]).
  destruct r'; [|done]. etrans; [exact Hk|apply keeps_tombstone].
Qed.

(** ** Verbs *)

Lemma keeps_replicate {A} o group now stable c (x : option A * L * MultiRaft) :
  op_ok o → op_hosts o = ∅ → perform o (mc_multi c) = Some x.2 → mc_keeps c (replicate_now group now stable c x).2.
Proof.
  intros Ho Hh Hp. pose proof (keeps_op o c _ Ho Hh Hp) as Hk. destruct x as [[[a|] log] m]; cbn [replicate_now snd] in *; [|done].
  etrans; [exact Hk|]. rewrite <- (mc_multi_twice c m (MultiRaft_flush_appends group now log stable m).2).
  by eapply (keeps_op_flush (OpFlush group now log stable)).
Qed.

Lemma keeps_gated group floors log c verb :
  (mc_keeps c (verb c).2) → mc_keeps c (gated_propose (L := L) group floors log c verb).2.
Proof.
  intros Hv. unfold gated_propose. destruct (negb _); [done|]. by destruct (propose_floor_check _ _ _).
Qed.

Lemma keeps_maybe_flush {A} o c (x : option A * MultiRaft) :
  op_ok o → op_hosts o = ∅ → perform o (mc_multi c) = Some x.2 →
  mc_keeps c (match x with
              | (None, m) => c <| mc_multi := m |>
              | (Some _, m) => MultiStreamCoordinator_flush (c <| mc_multi := m |>)
              end).
Proof.
  intros Ho Hh Hp. destruct x as [[a|] m]; [by eapply keeps_op_flush|by eapply keeps_op].
Qed.

Lemma keeps_prepare_merge source now stores target floors c r stores' c' :
  MultiStreamCoordinator_prepare_merge (L := L) (S := S) source now stores target floors c = Some (r, stores', c') →
  mc_keeps c c'.
Proof.
  unfold MultiStreamCoordinator_prepare_merge. destruct (negb _); [by intros [= _ _ <-]|].
  destruct (merge_floor_check _ _ _); [|by intros [= _ _ <-]].
  destruct (MultiRaft_prepare_merge source now target stores (mc_multi c)) as [[[r1 st1] m]|] eqn:Hp; [|done].
  assert (mc_keeps c (c <| mc_multi := m |>)) as Hk
    by (apply (keeps_op (OpPrepareMerge source now target stores)); [done..|cbn [perform]; by rewrite Hp]).
  cbn [mbind option_bind]. destruct r1; intros [= _ _ <-]; [|done].
  destruct (gst_stores source st1) as [[log stable]|]; (etrans; [exact Hk|]); [|apply keeps_flush].
  rewrite <- (mc_multi_twice c m (MultiRaft_flush_appends source now log stable m).2).
  by eapply (keeps_op_flush (OpFlush source now log stable)).
Qed.

Lemma keeps_commit_merge target now log stable source floors c r log' c' :
  MultiStreamCoordinator_commit_merge target now log stable source floors c = Some (r, log', c') → mc_keeps c c'.
Proof.
  unfold MultiStreamCoordinator_commit_merge. destruct (negb _); [by intros [= _ _ <-]|].
  destruct (merge_floor_check _ _ _); [|by intros [= _ _ <-]].
  destruct (MultiRaft_commit_merge target now source log (mc_multi c)) as [x|] eqn:Hp; [|done].
  cbn [mbind option_bind]. intros [= Hx].
  pose proof (keeps_replicate (OpCommitMerge target now source log) target now stable c x) as Hk.
  cbn [perform] in Hk. rewrite Hp, Hx in Hk. by apply Hk.
Qed.

Lemma keeps_service now stores c res stores' c' :
  MultiStreamCoordinator_service_merge_applies (L := L) (S := S) now stores c = Some (res, stores', c') → mc_keeps c c'.
Proof.
  unfold MultiStreamCoordinator_service_merge_applies.
  destruct (service_merge_applies now stores (mc_multi c)) as [[[res1 st1] m]|] eqn:Hp; [|done].
  cbn [mbind option_bind]. intros [= _ _ <-]. etrans; [|apply keeps_tombstones].
  apply (keeps_op (OpService now stores)); [done..|]. cbn [perform]. by rewrite Hp.
Qed.

Lemma keeps_open prov record (now : Instant) c c1 id :
  record_fresh record → MultiStreamCoordinator_alloc_conn_id (refresh_local_id c) = Some (id, c1) →
  mc_keeps c (c1 <| mc_router ::= register id prov record now |>).
Proof.
  intros Hf Ha D Hi. assert (mc_inv D (refresh_local_id c)) as Hi'.
  { unfold refresh_local_id. destruct (mr_host_id _); [|done]. destruct Hi as [? Ht ? ? ? ? ?]. split; try done.
    destruct Ht as [Hok Hids]. split; [by destruct Hok; split|done]. }
  assert (mc_multi (refresh_local_id c) = mc_multi c) as Hm by (unfold refresh_local_id; by destruct (mr_host_id _)).
  unfold MultiStreamCoordinator_alloc_conn_id in Ha. destruct (checked_add _ 1) as [next|] eqn:Hn; [|done].
  apply checked_add_Some in Hn as [-> _]. cbn [mbind option_bind] in Ha. injection Ha as <- <-.
  destruct Hi' as [? Ht ? ? ? ? ?]. split; [|cbn; by rewrite Hm]. split; try done. by apply table_open.
Qed.

(** ** Every call *)

Definition mc_installs (o : mc_op) : gset G := match o with McInstall _ child _ _ _ => {[ child ]} | _ => ∅ end.

Lemma keeps_install parent child engine now rng c r engine' c' D :
  MultiStreamCoordinator_install_yieldable_fork (L := L) (S := S) parent child engine now rng c = Some (r, engine', c') →
  mc_inv D c → mc_inv (D ∪ {[ child ]}) c' ∧ container_runs (mc_multi c) (mc_multi c').
Proof.
  unfold MultiStreamCoordinator_install_yieldable_fork.
  destruct (install_yieldable_fork_with_rng _ _ _ _ _ _ _) as [[[o e1] m]|] eqn:Hp; [|done].
  cbn [mbind option_bind]. intros [= _ _ <-] [Hm ? ? ? Hs ? ?].
  set (op := OpInstall parent child {| rg_retired := mc_retired c |} now rng engine : op).
  assert (perform op (mc_multi c) = Some m) as Hpf by (cbn [perform op]; by rewrite Hp).
  destruct (perform_ok op (mc_multi c) (Logic.I : op_ok op) Hm) as (m1 & H1 & Hok1).
  assert (m1 = m) as -> by congruence. split; [|by eapply (container_runs_one op)]. split; try done.
  intros g [? Hg]%Hs. split; [done|]. pose proof (perform_hosted op _ _ Hm Hpf) as Hsub. cbn [op_hosts op] in Hsub.
  intros [?|?]%Hsub%elem_of_union; apply elem_of_union; auto.
Qed.

Lemma keeps_poll {A} o (poll : MultiRaft → option A * MultiRaft) c :
  op_ok o → op_hosts o = ∅ → (∀ m, perform o m = Some (poll m).2) → mc_keeps c (mc_poll poll c).2.
Proof.
  intros Ho Hh Hp. pose proof (keeps_op o c _ Ho Hh (Hp (mc_multi c))) as Hk. unfold mc_poll. by destruct (poll (mc_multi c)).
Qed.

Lemma mc_step_keeps o c c' :
  mc_op_ok o → mc_installs o = ∅ → mc_step o c = Some c' → mc_keeps c c'.
Proof.
  intros Ho Hin. destruct o; cbn [mc_op_ok mc_step] in *; try (intros [= <-]).
  - by apply keeps_create.
  - by apply keeps_found.
  - destruct Ho. by apply keeps_restore.
  - by apply keeps_from_fork.
  - destruct (MultiStreamCoordinator_remove_group _ _ _) as [[r c1]|] eqn:Hr; [|done]. intros [= <-]. by eapply keeps_remove.
  - intros D []. split; [|done]. split; try done. cbn. intros g [? ?]%mi_stale0. split; [set_solver|done].
  - by apply (keeps_op (OpQueryPanicked gid)).
  - by apply (keeps_op OpPlanePanicked).
  - apply keeps_poll_unknown.
  - unfold MultiStreamCoordinator_on_dial_open. destruct (MultiStreamCoordinator_alloc_conn_id _) as [[id c1]|] eqn:Ha; [|done].
    intros [= <-]. by apply (keeps_open (Dialed expected)).
  - unfold MultiStreamCoordinator_on_accept_open. destruct (MultiStreamCoordinator_alloc_conn_id _) as [[id c1]|] eqn:Ha; [|done].
    intros [= <-]. by apply (keeps_open Accepted).
  - apply keeps_router. intros r. apply table_remove.
  - apply (keeps_router c (λ r, (PeerRouter_poll_conn_closed r).2)). intros r. apply table_poll_closed.
  - destruct (MultiStreamCoordinator_handle_conn_data _ _ _ _ _ _) as [[st' c1]|] eqn:Hd; [|done]. intros [= <-]. by eapply keeps_data.
  - apply keeps_gated. by apply (keeps_replicate (OpPropose group now cmd log)).
  - apply keeps_gated. pose proof (keeps_op (OpPropose group now cmd log) c _ Logic.I eq_refl eq_refl) as Hk.
    destruct (MultiRaft_propose _ _ _ _ _) as [[[r|] log'] m]; cbn [snd] in *; [|done]. etrans; [exact Hk|apply keeps_flush].
  - unfold MultiStreamCoordinator_flush_appends.
    pose proof (keeps_maybe_flush (OpFlush group now log stable) c (MultiRaft_flush_appends group now log stable (mc_multi c))
      Logic.I eq_refl eq_refl) as Hk. by destruct (MultiRaft_flush_appends _ _ _ _ _) as [[]].
  - apply keeps_gated. by apply (keeps_replicate (OpConfChange group now cc log)).
  - apply keeps_gated. by apply (keeps_replicate (OpConfChangeV2 group now cc log)).
  - apply keeps_gated. by apply (keeps_replicate (OpReadMode group now mode log)).
  - unfold MultiStreamCoordinator_propose_split. destruct (negb _); [done|]. destruct (propose_floor_check _ _ _); [|done].
    case_bool_decide; [done|]. destruct (validate_floor _ _) as [|[]]; try done.
    by apply (keeps_replicate (OpSplit group now child child_gen instruction log)).
  - destruct (MultiStreamCoordinator_prepare_merge _ _ _ _ _ _) as [[[r st'] c1]|] eqn:Hp; [|done]. intros [= <-].
    by eapply keeps_prepare_merge.
  - destruct (MultiStreamCoordinator_commit_merge _ _ _ _ _ _ _) as [[[r log'] c1]|] eqn:Hp; [|done]. intros [= <-].
    by eapply keeps_commit_merge.
  - unfold MultiStreamCoordinator_rollback_merge. destruct (negb _); [done|]. destruct (merge_floor_check _ _ _); [|done].
    by apply (keeps_replicate (OpRollbackMerge target now source log)).
  - destruct (MultiStreamCoordinator_service_merge_applies _ _ _) as [[[r st'] c1]|] eqn:Hp; [|done]. intros [= <-].
    by eapply keeps_service.
  - unfold MultiStreamCoordinator_peek_yieldable_fork. destruct (peek_yieldable_fork _ _) as [[r m]|] eqn:Hp; [|done].
    intros [= <-]. apply (keeps_op (OpPeekFork (CoordGate G Y) _ {| cg_retired := mc_retired c; cg_outer := gate |})); [done..|].
    cbn [perform]. by rewrite Hp.
  - exfalso. cbn in Hin. assert (child ∈ (∅ : gset G)) as ?%not_elem_of_empty by (rewrite <- Hin; by apply elem_of_singleton). done.
  - by apply (keeps_op (OpLiftBarrier parent index)).
  - by apply (keeps_poll OpPollConflict).
  - by apply (keeps_poll OpPollRefusal).
  - by apply (keeps_poll OpPollGuardAdvance).
  - by apply (keeps_poll OpPollPoisoned).
  - by apply (keeps_poll OpPollBlocked).
  - by apply (keeps_poll OpPollEvent).
  - unfold MultiStreamCoordinator_read_index.
    pose proof (keeps_maybe_flush (OpReadIndex group now context log) c (MultiRaft_read_index group now context log (mc_multi c))
      Logic.I eq_refl eq_refl) as Hk. by destruct (MultiRaft_read_index _ _ _ _ _) as [[]].
  - unfold MultiStreamCoordinator_transfer_leader.
    pose proof (keeps_maybe_flush (OpTransfer group now to log stable) c (MultiRaft_transfer_leader group now to log stable (mc_multi c))
      Logic.I eq_refl eq_refl) as Hk. by destruct (MultiRaft_transfer_leader _ _ _ _ _ _) as [[]].
  - unfold MultiStreamCoordinator_handle_timeout.
    assert (mc_keeps c (c <| mc_router ::= reap_handshakes (now_mono now) |>)) as Hr by (apply keeps_router; intros r; apply table_reap).
    set (c1 := c <| mc_router ::= _ |>) in *. etrans; [exact Hr|].
    pose proof (keeps_op (OpTimeout group now log stable) c1 _ Logic.I eq_refl eq_refl) as Hk.
    destruct (MultiRaft_handle_timeout _ _ _ _ _) as [[[[r|] l'] s'] m]; cbn [snd] in *; [|done]. etrans; [exact Hk|apply keeps_flush].
  - unfold MultiStreamCoordinator_handle_storage.
    pose proof (keeps_op (OpStorage group now log stable) c _ Logic.I eq_refl eq_refl) as Hk.
    destruct (MultiRaft_handle_storage _ _ _ _ _) as [[[[r|] l'] s'] m]; cbn [snd] in *; [|done]. etrans; [exact Hk|apply keeps_flush].
  - unfold MultiStreamCoordinator_poll_transmit. cbv zeta. etrans; [apply keeps_ship|].
    pose proof (keeps_router (ship_heartbeats c) (λ r, (PeerRouter_poll_transmit r).2)) as Hk.
    destruct (PeerRouter_poll_transmit _) as [out r] eqn:Hr. etrans; [apply Hk; intros r'; apply table_transmit|].
    cbn [snd]. unfold upd. by rewrite Hr.
  - unfold mark_quiescing. destruct (hosts _ _); [apply keeps_intents|done].
  - apply keeps_intents.
  - apply keeps_poll_control.
  - etrans; [apply (keeps_router c (reap_handshakes (now_mono now))); intros r; apply table_reap|].
    apply (keeps_router _ (service_liveness (now_mono now))). intros r. apply table_liveness.
Qed.

Lemma mc_step_inv o c c' D :
  mc_op_ok o → mc_step o c = Some c' → mc_inv D c →
  mc_inv (D ∪ mc_installs o) c' ∧ container_runs (mc_multi c) (mc_multi c').
Proof.
  intros Ho Hs Hi. destruct (decide (mc_installs o = ∅)) as [Hn|Hn].
  - rewrite Hn, (right_id_L ∅ (∪)). by apply (mc_step_keeps o).
  - destruct o; try done. cbn [mc_step] in Hs.
    destruct (MultiStreamCoordinator_install_yieldable_fork _ _ _ _ _ _) as [[[r e'] c1]|] eqn:Hp; [|done].
    injection Hs as <-. by eapply keeps_install.
Qed.

Lemma mc_step_returns o c D :
  mc_inv D c → mc_next_conn_id c < u64_max → ∃ c', mc_step o c = Some c'.
Proof.
  intros [Hm Ht _ _ _ _ _] Hn. assert (mc_next_conn_id (refresh_local_id c) = mc_next_conn_id c) as Hr
    by (unfold refresh_local_id; by destruct (mr_host_id _)).
  assert (checked_add (mc_next_conn_id c) 1 = Some (mc_next_conn_id c + 1)) as Ha
    by (apply checked_add_Some; split; [done|lia]).
  destruct o; cbn [mc_step]; try by eauto.
  - unfold MultiStreamCoordinator_remove_group.
    destruct (remove_group_ok gid stores (mc_multi c) Hm) as (r & m' & -> & _). cbn. by eauto.
  - unfold MultiStreamCoordinator_on_dial_open, MultiStreamCoordinator_alloc_conn_id. rewrite Hr, Ha. cbn. by eauto.
  - unfold MultiStreamCoordinator_on_accept_open, MultiStreamCoordinator_alloc_conn_id. rewrite Hr, Ha. cbn. by eauto.
  - unfold MultiStreamCoordinator_handle_conn_data.
    destruct (PeerRouter_handle_conn_data_ok conn bytes eof (now_mono now) (mc_router c) (tk_ok _ _ _ Ht))
      as (res & out & r & -> & _). cbn [mbind option_bind]. destruct (demux _ _ _ _ _). cbn. by eauto.
  - unfold MultiStreamCoordinator_prepare_merge. destruct (negb _); [cbn; by eauto|].
    destruct (merge_floor_check _ _ _); [|cbn; by eauto].
    destruct (prepare_merge_ok source now target stores (mc_multi c) Hm) as (r & st' & m' & -> & _).
    cbn [mbind option_bind]. destruct r; cbn; by eauto.
  - unfold MultiStreamCoordinator_commit_merge. destruct (negb _); [cbn; by eauto|].
    destruct (merge_floor_check _ _ _); [|cbn; by eauto].
    destruct (commit_merge_ok target now source log (mc_multi c) Hm) as (r & l' & m' & -> & _).
    cbn [mbind option_bind]. destruct (replicate_now _ _ _ _ _) as [[]]. cbn. by eauto.
  - unfold MultiStreamCoordinator_service_merge_applies.
    destruct (service_ok now stores (mc_multi c) Hm) as (res & st' & m' & -> & _). cbn. by eauto.
  - unfold MultiStreamCoordinator_peek_yieldable_fork, peek_yieldable_fork.
    destruct (drain_to_yieldable_ok {| cg_retired := mc_retired c; cg_outer := gate |} (mc_multi c) Hm)
      as (r & m' & -> & _). cbn. by eauto.
  - unfold MultiStreamCoordinator_install_yieldable_fork.
    destruct (install_yieldable_fork_ok parent child {| rg_retired := mc_retired c |} now rng engine (mc_multi c) Hm)
      as (r & e' & m' & -> & _). cbn. by eauto.
Qed.

Fixpoint mc_run (ops : list mc_op) c : option Coordinator :=
  match ops with [] => Some c | o :: ops => c ← mc_step o c; mc_run ops c end.

(** The children the fork relay was asked to host. *)
Definition installed (ops : list mc_op) : gset G := ⋃ (mc_installs <$> ops).

Lemma mc_run_inv ops c c' D :
  Forall mc_op_ok ops → mc_run ops c = Some c' → mc_inv D c →
  mc_inv (D ∪ installed ops) c' ∧ container_runs (mc_multi c) (mc_multi c').
Proof.
  intros Ho. revert c D. induction Ho as [|o ops Ho _ IH]; intros c D; cbn [mc_run].
  - intros [= <-] Hi. split; [|done]. unfold installed. cbn. by rewrite (right_id_L ∅ (∪)).
  - destruct (mc_step o c) as [c1|] eqn:Hs; [|done]. intros Hr Hi.
    destruct (mc_step_inv o c c1 D Ho Hs Hi) as [Hi1 Hc1]. destruct (IH c1 _ Hr Hi1) as [Hi2 Hc2].
    split; [|by etrans]. unfold installed in *. rewrite fmap_cons, union_list_cons, (assoc_L (∪)). done.
Qed.

(** A coordinator some run of well-formed calls leads to. *)
Definition mc_reached (ops : list mc_op) c : Prop :=
  Forall mc_op_ok ops ∧ mc_run ops MultiStreamCoordinator_new = Some c.

Lemma mc_reached_inv ops c : mc_reached ops c → mc_inv (installed ops) c ∧ container_runs MultiRaft_new (mc_multi c).
Proof.
  intros [Ho Hr]. destruct (mc_run_inv ops _ _ ∅ Ho Hr mc_inv_new) as [Hi Hc].
  by rewrite (left_id_L ∅ (∪)) in Hi.
Qed.

(** ** The flush *)

Definition group_pending m g : list (Outgoing I) :=
  match mr_groups m !! g with Some ep => pending ep | None => [] end.

Definition is_beat (o : Outgoing I) : bool := is_heartbeat (out_message o) || is_heartbeat_response (out_message o).

(** What of a drained sequence is one group's. *)
Definition of_group g (outs : list (G * Outgoing I)) : list (Outgoing I) :=
  omap (λ p, if decide (p.1 = g) then Some p.2 else None) outs.

Definition route_out (gen : G → u64) (r : PeerRouter I W) (p : G * Outgoing I) : PeerRouter I W :=
  (PeerRouter_route (data_encode p.1) (gen p.1) (out_to p.2) (out_message p.2) r).2.

(** The beats of a drained sequence for one peer, as entries of its batch. *)
Definition beats_to (gen : G → u64) (intents : gset G) (to : I) (outs : list (G * Outgoing I))
  : list (CoalescedEntry I) :=
  omap (λ p, if decide (out_to p.2 = to ∧ is_beat p.2 = true) then
               Some (if is_heartbeat (out_message p.2) && bool_decide (p.1 ∈ intents)
                     then low_byte COALESCED_FLAG_QUIESCE else x00,
                     data_encode p.1, gen p.1, out_message p.2)
             else None) outs.

Lemma queued_lookup m g ep : mr_groups m !! g = Some ep → (length (outgoing ep) ≤ queued m)%nat.
Proof.
  intros Hg. unfold queued. rewrite (map_fold_delete_L _ _ g ep); [unfold outgoing; lia| |done]. intros. lia.
Qed.

Lemma queued_insert m m' g ep ep' :
  mr_groups m !! g = Some ep → mr_groups m' = <[g := ep']> (mr_groups m) →
  (queued m' + length (outgoing ep) = queued m + length (outgoing ep'))%nat.
Proof.
  intros Hg Hm. unfold queued. rewrite Hm, <- insert_delete_eq.
  rewrite (map_fold_insert_L _ _ g ep' (delete g (mr_groups m))); [|intros; lia|apply lookup_delete_eq].
  rewrite (map_fold_delete_L _ _ g ep (mr_groups m)); [unfold outgoing; lia|intros; lia|done].
Qed.

Lemma polled_none m : mr_ok None m → (MultiRaft_poll_message m).1 = None → ∀ g, group_pending m g = [].
Proof.
  intros Hok Hn g. pose proof (poll_message_polled m Hok) as Hp. rewrite Hn in Hp. destruct Hp as [_ Hq].
  unfold group_pending, pending. destruct (mr_groups m !! g) as [ep|] eqn:Hg; [|done].
  destruct (Hq g ep Hg) as [->|Ho]; [done|]. unfold outgoing in Ho. rewrite Ho. by destruct (is_poisoned ep).
Qed.

Lemma pending_none m : mr_ok None m → (∀ g, group_pending m g = []) → (MultiRaft_poll_message m).1 = None.
Proof.
  intros Hok Hn. pose proof (poll_message_polled m Hok) as Hp. destruct ((MultiRaft_poll_message m).1) as [[g out]|]; [|done].
  destruct Hp as (ep & q & Hg & Hpo & Ho & _). specialize (Hn g). unfold group_pending, pending in Hn.
  rewrite Hg, Hpo in Hn. unfold outgoing in Ho. congruence.
Qed.

(** One poll: the head of one group's queue. *)
Record one_polled m g (out : Outgoing I) m' : Prop := {
  op_head : group_pending m g = out :: group_pending m' g;
  op_other : ∀ h, h ≠ g → group_pending m' h = group_pending m h;
  op_fuel : (queued m' < queued m)%nat;
  op_gen : ∀ h, MultiRaft_group_gen m' h = MultiRaft_group_gen m h;
}.

Lemma poll_message_one m g out m' :
  mr_ok None m → MultiRaft_poll_message m = (Some (g, out), m') → one_polled m g out m'.
Proof.
  intros Hok Hp. pose proof (poll_message_polled m Hok) as Hpd.
  pose proof (poll_msgs_lineage (length (mr_dirty_msgs m)) m) as Hl.
  change (poll_msgs (length (mr_dirty_msgs m)) m) with (MultiRaft_poll_message m) in Hl.
  rewrite Hp in Hpd, Hl. cbn [fst snd] in *. destruct Hpd as (ep & q & Hg & Hpo & Ho & Hm). split.
  - unfold group_pending, pending. rewrite Hg, Hm, lookup_insert_eq, Hpo.
    change (is_poisoned (set_outgoing q ep)) with (is_poisoned ep). by rewrite Hpo.
  - intros h Hh. unfold group_pending. by rewrite Hm, lookup_insert_ne.
  - pose proof (queued_insert m m' g ep _ Hg Hm) as Hq. rewrite Ho in Hq. cbn in Hq. lia.
  - intros h. unfold MultiRaft_group_gen. rewrite Hl, Hm. f_equal. destruct (decide (g = h)) as [->|];
      [by rewrite lookup_insert_eq, Hg|by rewrite lookup_insert_ne].
Qed.

(** What a drain that took [outs] did. *)
Record drained_as c (outs : list (G * Outgoing I)) (stamped stamped' : gset G) c' : Prop := {
  da_groups : ∀ g, of_group g outs = group_pending (mc_multi c) g;
  da_empty : (MultiRaft_poll_message (mc_multi c')).1 = None;
  da_router : mc_router c' =
    foldl (route_out (MultiRaft_group_gen (mc_multi c))) (mc_router c) (filter (λ p, is_beat p.2 = false) outs);
  da_batches : ∀ to, default [] (mc_hb_batches c' !! to) = default [] (mc_hb_batches c !! to)
    ++ beats_to (MultiRaft_group_gen (mc_multi c)) (mc_quiesce_intents c) to outs;
  da_intents : mc_quiesce_intents c' = mc_quiesce_intents c;
  da_stamped : ∀ g, g ∈ stamped' ↔ g ∈ stamped
    ∨ g ∈ mc_quiesce_intents c ∧ ∃ o, (g, o) ∈ outs ∧ is_heartbeat (out_message o) = true;
}.

Lemma routes_ext gen gen' r outs : (∀ g, gen g = gen' g) → foldl (route_out gen) r outs = foldl (route_out gen') r outs.
Proof.
  intros He. revert r. induction outs as [|p outs IH]; intros r; [done|]. cbn [foldl]. rewrite IH. unfold route_out.
  by rewrite He.
Qed.

Lemma beats_ext gen gen' intents to outs : (∀ g, gen g = gen' g) → beats_to gen intents to outs = beats_to gen' intents to outs.
Proof.
  intros He. unfold beats_to. induction outs as [|p outs IH]; [done|]. cbn [omap list_omap]. rewrite IH, He. done.
Qed.

Record sent_out c g out (stamped stamped' : gset G) c' : Prop := {
  so_multi : mc_multi c' = mc_multi c;
  so_intents : mc_quiesce_intents c' = mc_quiesce_intents c;
  so_router : mc_router c' = if is_beat out then mc_router c
                             else route_out (MultiRaft_group_gen (mc_multi c)) (mc_router c) (g, out);
  so_batches : ∀ to, default [] (mc_hb_batches c' !! to) = default [] (mc_hb_batches c !! to)
    ++ beats_to (MultiRaft_group_gen (mc_multi c)) (mc_quiesce_intents c) to [(g, out)];
  so_stamped : ∀ h, h ∈ stamped' ↔ h ∈ stamped
    ∨ h = g ∧ h ∈ mc_quiesce_intents c ∧ is_heartbeat (out_message out) = true;
}.

Lemma send_out_spec c g out stamped :
  sent_out c g out stamped (send_out g out stamped c).1 (send_out g out stamped c).2.
Proof.
  unfold send_out. cbv zeta. fold (is_beat out). destruct (is_beat out) eqn:Hb; cbn [fst snd].
  - split; try done; cbn; [by rewrite Hb|..].
    + intros to. rewrite Hb. destruct (decide (out_to out = to)) as [->|Hne].
      * rewrite lookup_insert_eq. cbn. by rewrite decide_True.
      * rewrite lookup_insert_ne, decide_False by naive_solver. by rewrite app_nil_r.
    + intros h. destruct (is_heartbeat (out_message out)); cbn [andb]; [|naive_solver].
      case_bool_decide; [rewrite elem_of_union, elem_of_singleton|]; naive_solver.
  - split; try done; cbn; [by rewrite Hb|..].
    + intros to. rewrite Hb, decide_False by naive_solver. by rewrite app_nil_r.
    + intros h. unfold is_beat in Hb. destruct (is_heartbeat (out_message out)); [done|]. naive_solver.
Qed.

Lemma drained_nil c m stamped :
  mr_ok None (mc_multi c) → MultiRaft_poll_message (mc_multi c) = (None, m) →
  drained_as c [] stamped stamped (c <| mc_multi := m |>).
Proof.
  intros Hok Hp. pose proof (poll_message_kept _ Hok) as Hok'. pose proof (poll_message_polled _ Hok) as Hq.
  assert ((MultiRaft_poll_message (mc_multi c)).1 = None) as Hn by (by rewrite Hp).
  pose proof (polled_none _ Hok Hn) as Hg. rewrite Hp in Hq, Hok'. destruct Hq as [Hm _]. cbn [fst snd] in *. split; try done.
  - apply pending_none; [done|]. intros g. unfold group_pending. cbn. rewrite Hm. apply Hg.
  - intros to. by rewrite app_nil_r.
  - intros g. split; [by left|]. intros [?|(_ & o & Hin & _)]; [done|]. by apply elem_of_nil in Hin.
Qed.

Lemma drained_cons c m g out outs st st1 st2 c1 c2 :
  one_polled (mc_multi c) g out m → sent_out (c <| mc_multi := m |>) g out st st1 c1 → drained_as c1 outs st1 st2 c2 →
  drained_as c ((g, out) :: outs) st st2 c2.
Proof.
  intros [Hh Hot _ Hgen] [Hm Hi Hr Hb Hst] [Dg De Dr Db Di Ds]. cbn [mc_multi mc_quiesce_intents mc_router mc_hb_batches] in *.
  change (mc_multi (c <| mc_multi := m |>)) with m in *.
  change (mc_quiesce_intents (c <| mc_multi := m |>)) with (mc_quiesce_intents c) in *.
  change (mc_router (c <| mc_multi := m |>)) with (mc_router c) in *.
  change (mc_hb_batches (c <| mc_multi := m |>)) with (mc_hb_batches c) in *. rewrite Hm, Hi in *. split; try done.
  - intros h. unfold of_group in *. cbn. case_decide as Hd; [subst h; by rewrite Dg, Hh|]. by rewrite Dg, Hot.
  - rewrite Dr, Hr, filter_cons. cbn [snd]. rewrite (routes_ext _ _ _ _ Hgen). destruct (is_beat out); [by rewrite decide_False|].
    rewrite decide_True by done. cbn [foldl]. f_equal. unfold route_out. by rewrite Hgen.
  - intros to. rewrite Db, Hb, <- (assoc_L (++)), !(beats_ext _ _ _ _ _ Hgen). f_equal. unfold beats_to. by rewrite <- omap_app.
  - intros h. rewrite Ds, Hst. setoid_rewrite elem_of_cons. naive_solver.
Qed.

Lemma flush_rounds_drains fuel stamped c :
  mr_ok None (mc_multi c) → (queued (mc_multi c) ≤ fuel)%nat →
  ∃ outs, drained_as c outs stamped (flush_rounds fuel stamped c).1 (flush_rounds fuel stamped c).2.
Proof.
  revert stamped c. induction fuel as [|fuel IH]; intros stamped c Hok Hf; cbn [flush_rounds];
    pose proof (poll_message_kept _ Hok) as Hok';
    destruct (MultiRaft_poll_message (mc_multi c)) as [[[g out]|] m] eqn:Hp; cbn [snd] in Hok';
    try (eexists; by apply drained_nil); pose proof (poll_message_one _ _ _ _ Hok Hp) as Ho;
    pose proof (op_fuel _ _ _ _ Ho); [lia|].
  pose proof (send_out_spec (c <| mc_multi := m |>) g out stamped) as Hs.
  destruct (send_out g out stamped _) as [st1 c1]. cbn [fst snd] in Hs.
  destruct (IH st1 c1) as [outs Hd]; [by rewrite (so_multi _ _ _ _ _ _ Hs)|rewrite (so_multi _ _ _ _ _ _ Hs); cbn; lia|].
  eexists. by eapply drained_cons.
Qed.

Lemma flush_controls c : mc_control_state (MultiStreamCoordinator_flush c) = mc_control_state c.
Proof.
  unfold MultiStreamCoordinator_flush.
  assert (∀ fuel st c, mc_control_state (flush_rounds fuel st c).2 = mc_control_state c) as Hr.
  { intros fuel. induction fuel as [|fuel IH]; intros st c1; cbn [flush_rounds];
      destruct (MultiRaft_poll_message (mc_multi c1)) as [[[g out]|] m]; try done;
      unfold send_out; cbv zeta; destruct (is_heartbeat (out_message out) || _); try done; by rewrite IH. }
  specialize (Hr (queued (mc_multi c)) ∅ c). by destruct (flush_rounds _ _ _).
Qed.

(** ** Where the flush of a call starts

    The calls that end in a flush, and the coordinator each has made when it gets
    there: the container has done its part, and what it queued waits. *)

(** The container answered for the group. *)
Definition ready_answer {A} c (x : option A * MultiRaft) : option Coordinator :=
  match x with (Some _, m) => Some (c <| mc_multi := m |>) | (None, _) => None end.

(** It answered, and what it proposed is replicated at once. *)
Definition ready_replicated {A} group now stable c (x : option A * L * MultiRaft) : option Coordinator :=
  match x with
  | (Some _, log, m) => Some (c <| mc_multi := (MultiRaft_flush_appends group now log stable m).2 |>)
  | (None, _, _) => None
  end.

Definition ready_gated group floors c (r : option Coordinator) : option Coordinator :=
  if hosts (mc_multi c) group then match propose_floor_check group floors c with Ok _ => r | Err _ => None end
  else None.

Definition ready_merge group (participants : list G) floors c (r : option Coordinator) : option Coordinator :=
  if hosts (mc_multi c) group then match merge_floor_check participants floors c with Ok _ => r | Err _ => None end
  else None.

Definition mc_ready (o : mc_op) c : option Coordinator :=
  match o with
  | McData conn bytes eof now stores =>
      '(_, decoded, r) ← PeerRouter_handle_conn_data conn bytes eof (now_mono now) (mc_router c);
      Some (demux (L := L) (S := S) conn now decoded stores (c <| mc_router := r |>)).2
  | McPropose group now cmd log stable floors =>
      ready_gated group floors c
        (ready_replicated group now stable c (MultiRaft_propose group now cmd log (mc_multi c)))
  | McProposeDeferred group now cmd log floors =>
      ready_gated group floors c
        (let '(r, _, m) := MultiRaft_propose group now cmd log (mc_multi c) in ready_answer c (r, m))
  | McFlushAppends group now log stable =>
      ready_answer c (MultiRaft_flush_appends group now log stable (mc_multi c))
  | McConfChange group now cc log stable floors =>
      ready_gated group floors c
        (ready_replicated group now stable c (MultiRaft_propose_conf_change group now cc log (mc_multi c)))
  | McConfChangeV2 group now cc log stable floors =>
      ready_gated group floors c
        (ready_replicated group now stable c (MultiRaft_propose_conf_change_v2 group now cc log (mc_multi c)))
  | McReadMode group now mode log stable floors =>
      ready_gated group floors c
        (ready_replicated group now stable c (MultiRaft_propose_read_mode_change group now mode log (mc_multi c)))
  | McSplit group now child child_gen instruction log stable floors =>
      ready_gated group floors c
        (if bool_decide (child ∈ mc_retired c) then None
         else match validate_floor (fs_floor floors child) child_gen with
         | Ok _ => ready_replicated group now stable c
                     (MultiRaft_propose_split group now child child_gen instruction log (mc_multi c))
         | Err _ => None
         end)
  | McPrepareMerge source now stores target floors =>
      ready_merge source [source; target] floors c
        ('(r, stores, m) ← MultiRaft_prepare_merge (L := L) (S := S) source now target stores (mc_multi c);
         ready_answer c (r, match gst_stores source stores with
                            | Some (log, stable) => (MultiRaft_flush_appends source now log stable m).2
                            | None => m
                            end))
  | McCommitMerge target now log stable source floors =>
      ready_merge target [source; target] floors c
        (x ← MultiRaft_commit_merge target now source log (mc_multi c); ready_replicated target now stable c x)
  | McRollbackMerge target now log stable source floors =>
      ready_merge target [target] floors c
        (ready_replicated target now stable c (MultiRaft_rollback_merge target now source log (mc_multi c)))
  | McReadIndex group now context log => ready_answer c (MultiRaft_read_index group now context log (mc_multi c))
  | McTransfer group now to log stable =>
      ready_answer c (MultiRaft_transfer_leader group now to log stable (mc_multi c))
  | McTimeout group now log stable =>
      let '(r, _, _, m) := MultiRaft_handle_timeout group now log stable (mc_multi c) in
      ready_answer (c <| mc_router ::= reap_handshakes (now_mono now) |>) (r, m)
  | McStorage group now log stable =>
      let '(r, _, _, m) := MultiRaft_handle_storage group now log stable (mc_multi c) in ready_answer c (r, m)
  | _ => None
  end.

Lemma mc_ready_flush o c c1 : mc_ready o c = Some c1 → mc_step o c = Some (MultiStreamCoordinator_flush c1).
Proof.
  destruct o; cbn [mc_ready mc_step]; try done;
    unfold ready_gated, ready_merge, MultiStreamCoordinator_handle_conn_data,
      MultiStreamCoordinator_submit_propose, MultiStreamCoordinator_submit_propose_deferred,
      MultiStreamCoordinator_flush_appends, MultiStreamCoordinator_propose_conf_change,
      MultiStreamCoordinator_propose_conf_change_v2, MultiStreamCoordinator_propose_read_mode_change,
      MultiStreamCoordinator_propose_split, MultiStreamCoordinator_prepare_merge,
      MultiStreamCoordinator_commit_merge, MultiStreamCoordinator_rollback_merge,
      MultiStreamCoordinator_read_index, MultiStreamCoordinator_transfer_leader,
      MultiStreamCoordinator_handle_timeout, MultiStreamCoordinator_handle_storage, gated_propose, replicate_now,
      ready_replicated, ready_answer, mbind, option_bind;
    repeat (case_match; simplify_eq/=; try done); by intros [= <-].
Qed.

(** Up to the flush a call is one of the container, and no batch and no intent moves. *)
Record readied c c1 : Prop := {
  rd_keeps : mc_keeps c c1;
  rd_batches : mc_hb_batches c1 = mc_hb_batches c;
  rd_intents : mc_quiesce_intents c1 = mc_quiesce_intents c;
}.

Lemma readied_op o c m' :
  op_ok o → op_hosts o = ∅ → perform o (mc_multi c) = Some m' → readied c (c <| mc_multi := m' |>).
Proof. intros. by split; [eapply keeps_op|..]. Qed.

Lemma readied_answer {A} o c (x : option A * MultiRaft) c1 :
  op_ok o → op_hosts o = ∅ → perform o (mc_multi c) = Some x.2 → ready_answer c x = Some c1 → readied c c1.
Proof. intros Ho Hh Hp. destruct x as [[a|] m]; [|done]. intros [= <-]. by eapply readied_op. Qed.

Lemma readied_flush_appends o group now log stable c m :
  op_ok o → op_hosts o = ∅ → perform o (mc_multi c) = Some m →
  readied c (c <| mc_multi := (MultiRaft_flush_appends group now log stable m).2 |>).
Proof.
  intros Ho Hh Hp. split; [|done..]. etrans; [exact (keeps_op o c _ Ho Hh Hp)|].
  rewrite <- (mc_multi_twice c m (MultiRaft_flush_appends group now log stable m).2).
  by eapply (keeps_op (OpFlush group now log stable)).
Qed.

Lemma readied_replicated {A} o group now stable c (x : option A * L * MultiRaft) c1 :
  op_ok o → op_hosts o = ∅ → perform o (mc_multi c) = Some x.2 →
  ready_replicated group now stable c x = Some c1 → readied c c1.
Proof. intros Ho Hh Hp. destruct x as [[[a|] log] m]; [|done]. intros [= <-]. by eapply readied_flush_appends. Qed.

Lemma ready_gated_Some group floors c r c1 : ready_gated group floors c r = Some c1 → r = Some c1.
Proof. unfold ready_gated. by repeat case_match. Qed.

Lemma ready_merge_Some group participants floors c r c1 :
  ready_merge group participants floors c r = Some c1 → r = Some c1.
Proof. unfold ready_merge. by repeat case_match. Qed.

Lemma dispatch_outboxes group flags now from msg log stable stores c :
  let c' := (dispatch group flags now from msg log stable stores c).2 in
  mc_hb_batches c' = mc_hb_batches c ∧ mc_quiesce_intents c' = mc_quiesce_intents c.
Proof.
  unfold dispatch. destruct (MultiRaft_handle_message _ _ _ _ _ _ _) as [[[[[]|] l'] s'] m]; [|done].
  cbv zeta. cbn [snd]. unfold push_dispatch_controls, push_control. by repeat case_match.
Qed.

Lemma demux_outboxes conn now decoded stores c :
  let c' := (demux (L := L) (S := S) conn now decoded stores c).2 in
  mc_hb_batches c' = mc_hb_batches c ∧ mc_quiesce_intents c' = mc_quiesce_intents c.
Proof.
  cbv zeta. revert stores c. induction decoded as [|[[[[gb flags] n] from] msg] decoded IH]; intros stores c; cbn [demux]; [done|].
  destruct (frame_verdict gb flags n msg stores c) as [| | | |group log stable|group|]; try done.
  - by destruct (IH stores (note_fenced_frame c)).
  - destruct (dispatch_outboxes group flags now from msg log stable stores c) as [<- <-].
    by destruct (dispatch _ _ _ _ _ _ _ _ _).
  - destruct (IH stores (note_unknown_group group from c)) as [-> ->]. unfold note_unknown_group. by case_match.
Qed.

Lemma readied_data conn bytes eof now stores c res decoded r :
  PeerRouter_handle_conn_data conn bytes eof (now_mono now) (mc_router c) = Some (res, decoded, r) →
  readied c (demux (L := L) (S := S) conn now decoded stores (c <| mc_router := r |>)).2.
Proof.
  intros Hd. destruct (demux_outboxes conn now decoded stores (c <| mc_router := r |>)) as [Hb Hq]. split; [|done..].
  transitivity (c <| mc_router := r |>).
  - intros D []. split; [|done]. split; try done. by eapply table_data.
  - apply keeps_demux. intros g f n p m Hin.
    destruct (handle_conn_data_decoded _ _ _ _ _ _ _ _ _ _ _ _ _ Hd Hin) as [b Hb']. by eapply decode_message_u64.
Qed.

Lemma mc_readied o c c1 : mc_ready o c = Some c1 → readied c c1.
Proof.
  destruct o; cbn [mc_ready]; try done.
  - destruct (PeerRouter_handle_conn_data _ _ _ _ _) as [[[res decoded] r]|] eqn:Hd; [|done].
    intros [= <-]. by eapply readied_data.
  - intros Hr%ready_gated_Some. by eapply (readied_replicated (OpPropose group now cmd log)).
  - intros Hr%ready_gated_Some. pose proof (readied_op (OpPropose group now cmd log) c _ Logic.I eq_refl eq_refl).
    destruct (MultiRaft_propose _ _ _ _ _) as [[[r|] l] m]; [|done]. by injection Hr as <-.
  - by eapply (readied_answer (OpFlush group now log stable)).
  - intros Hr%ready_gated_Some. by eapply (readied_replicated (OpConfChange group now cc log)).
  - intros Hr%ready_gated_Some. by eapply (readied_replicated (OpConfChangeV2 group now cc log)).
  - intros Hr%ready_gated_Some. by eapply (readied_replicated (OpReadMode group now mode log)).
  - intros Hr%ready_gated_Some. case_bool_decide; [done|]. destruct (validate_floor _ _); [|done].
    by eapply (readied_replicated (OpSplit group now child child_gen instruction log)).
  - intros Hr%ready_merge_Some.
    destruct (MultiRaft_prepare_merge _ _ _ _ _) as [[[[r|] st] m]|] eqn:Hp; [injection Hr as <-|done..].
    assert (perform (OpPrepareMerge source now target stores : op) (mc_multi c) = Some m) as Hpf
      by (cbn [perform]; by rewrite Hp).
    destruct (gst_stores source st) as [[log stable]|];
      [by apply (readied_flush_appends (OpPrepareMerge source now target stores))
      |by apply (readied_op (OpPrepareMerge source now target stores))].
  - intros Hr%ready_merge_Some. destruct (MultiRaft_commit_merge _ _ _ _ _) as [x|] eqn:Hp; [|done].
    eapply (readied_replicated (OpCommitMerge target now source log)); [done..| |exact Hr].
    cbn [perform]. by rewrite Hp.
  - intros Hr%ready_merge_Some. by eapply (readied_replicated (OpRollbackMerge target now source log)).
  - by eapply (readied_answer (OpReadIndex group now context log)).
  - by eapply (readied_answer (OpTransfer group now to log stable)).
  - set (c0 := c <| mc_router ::= _ |>).
    pose proof (readied_op (OpTimeout group now log stable) c0 _ Logic.I eq_refl eq_refl) as [Hk Hb Hq].
    change (mc_multi c0) with (mc_multi c) in *.
    destruct (MultiRaft_handle_timeout _ _ _ _ _) as [[[[r|] l'] s'] m]; [|done]. intros [= <-]. split; [|done..].
    etrans; [|exact Hk]. apply keeps_router. intros r0. apply table_reap.
  - pose proof (readied_op (OpStorage group now log stable) c _ Logic.I eq_refl eq_refl) as Hk.
    destruct (MultiRaft_handle_storage _ _ _ _ _) as [[[[r|] l'] s'] m]; [|done]. by intros [= <-].
Qed.

(** ** The frames of a read *)

(** The frames of a read that are dispatched to their groups. *)
Fixpoint delivered now (decoded : list (Delivered I)) stores c : list (Delivered I) :=
  match decoded with
  | [] => []
  | (group_bytes, flags, generation, from, msg) :: decoded =>
      match frame_verdict group_bytes flags generation msg stores c with
      | FrClose => []
      | FrRetired | FrDebt | FrDrop => delivered now decoded stores c
      | FrFenced => delivered now decoded stores (note_fenced_frame c)
      | FrDispatch group log stable =>
          let '(stores, c) := dispatch group flags now from msg log stable stores c in
          (group_bytes, flags, generation, from, msg) :: delivered now decoded stores c
      | FrUnknown group => delivered now decoded stores (note_unknown_group group from c)
      end
  end.

(** The frame names the group, which is not tombstoned; its stamp clears the floor
    the stores hold; no capture debt of the container names the group; the stores
    lend those of the group. *)
Definition admitted (retired : gset G) stores m (d : Delivered I) group log stable : Prop :=
  let '(group_bytes, flags, generation, from, msg) := d in
  decode_exact group_bytes = Ok group ∧ (quiesce_flag flags = true → is_heartbeat msg = true)
  ∧ (group ∉ retired) ∧ floor_admits (fs_floor stores group) generation = true
  ∧ debt_names m group = false ∧ gst_stores group stores = Some (log, stable).

(** Frames in their order, each admitted by the stores and the container that the
    frames before it left, and handled there. *)
Fixpoint all_admitted (retired : gset G) now stores m (frames : list (Delivered I)) stores' m' : Prop :=
  match frames with
  | [] => stores' = stores ∧ m' = m
  | d :: frames =>
      ∃ group log stable log' stable' m1 r,
        admitted retired stores m d group log stable
        ∧ MultiRaft_handle_message group now d.1.2 d.2 log stable m = (r, log', stable', m1)
        ∧ all_admitted retired now (gst_write group log' stable' stores) m1 frames stores' m'
  end.

Lemma dispatch_multi group flags now from msg log stable stores c :
  perform (OpMessage group now from msg log stable : op) (mc_multi c)
  = Some (mc_multi (dispatch group flags now from msg log stable stores c).2).
Proof.
  unfold dispatch. cbn [perform]. destruct (MultiRaft_handle_message _ _ _ _ _ _ _) as [[[[[]|] l'] s'] m]; [|done].
  cbn [snd]. unfold push_dispatch_controls, push_control. by repeat case_match.
Qed.

Lemma dispatch_stores group flags now from msg log stable stores c :
  (dispatch group flags now from msg log stable stores c).1
  = let '(_, log', stable', _) := MultiRaft_handle_message group now from msg log stable (mc_multi c) in
    gst_write group log' stable' stores.
Proof. unfold dispatch. by destruct (MultiRaft_handle_message _ _ _ _ _ _ _) as [[[[[]|] l'] s'] m]. Qed.

Lemma dispatch_retired group flags now from msg log stable stores c :
  mc_retired (dispatch group flags now from msg log stable stores c).2 = mc_retired c.
Proof.
  unfold dispatch. destruct (MultiRaft_handle_message _ _ _ _ _ _ _) as [[[[[]|] l'] s'] m]; [|done].
  cbn [snd]. unfold push_dispatch_controls, push_control. by repeat case_match.
Qed.

Lemma note_unknown_same group from c :
  mc_multi (note_unknown_group group from c) = mc_multi c
  ∧ mc_retired (note_unknown_group group from c) = mc_retired c
  ∧ mc_control_state (note_unknown_group group from c) = mc_control_state c.
Proof. unfold note_unknown_group. by case_match. Qed.

Lemma delivered_sublist now decoded stores c : delivered now decoded stores c `sublist_of` decoded.
Proof.
  revert stores c. induction decoded as [|[[[[gb flags] n] from] msg] decoded IH]; intros stores c; cbn [delivered]; [done|].
  destruct (frame_verdict gb flags n msg stores c) as [| | | |group log stable|group|]; try (by apply sublist_cons);
    [apply sublist_nil_l|]. destruct (dispatch _ _ _ _ _ _ _ _ _) as [stores1 c1]. by apply sublist_skip.
Qed.

Lemma demux_admitted conn now decoded stores c :
  all_admitted (mc_retired c) now stores (mc_multi c) (delivered now decoded stores c)
    (demux (L := L) (S := S) conn now decoded stores c).1
    (mc_multi (demux (L := L) (S := S) conn now decoded stores c).2).
Proof.
  revert stores c. induction decoded as [|[[[[gb flags] n] from] msg] decoded IH]; intros stores c; cbn [demux delivered]; [done|].
  destruct (frame_verdict gb flags n msg stores c) as [| | | |group log stable|group|] eqn:Hv; try apply IH.
  - done.
  - exact (IH stores (note_fenced_frame c)).
  - apply frame_dispatch in Hv as (Hg & Hq & Hr & Hd & Hf & Hst).
    pose proof (dispatch_stores group flags now from msg log stable stores c) as Hs.
    pose proof (dispatch_multi group flags now from msg log stable stores c) as Hm.
    pose proof (dispatch_retired group flags now from msg log stable stores c) as Hrt. cbn [perform] in Hm.
    destruct (MultiRaft_handle_message group now from msg log stable (mc_multi c)) as [[[r l'] s'] m1] eqn:Hh.
    destruct (dispatch _ _ _ _ _ _ _ _ _) as [stores1 c1]. cbn [fst snd] in *. injection Hm as ->. subst stores1.
    exists group, log, stable, l', s', (mc_multi c1), r. split_and!; [by split_and!|done|]. rewrite <- Hrt. apply IH.
  - destruct (note_unknown_same group from c) as (Hm & Hr & _). pose proof (IH stores (note_unknown_group group from c)) as Ha.
    by rewrite Hm, Hr in Ha.
Qed.

(** ** Quiescence *)

Lemma quiesce_cleared flags : quiesce_flag (clear_quiesce flags) = false.
Proof. by destruct flags. Qed.

(** After its own call the group follows the sender of the beat, at the term of the beat. *)
Definition follows m group (from : I) (term : Term) : Prop :=
  ∃ ep, mr_groups m !! group = Some ep ∧ Role_is_leader (ep_role ep) = false ∧ ep_term ep = term ∧ ep_leader ep = Some from.

Lemma accepted_follows group flags term from c :
  quiesce_flag (accepted_flags group flags term from c) = true →
  quiesce_flag flags = true ∧ follows (mc_multi c) group from term.
Proof.
  unfold accepted_flags. destruct (quiesce_flag flags) eqn:Hq; cbn [negb]; [|by rewrite Hq].
  destruct (mr_groups (mc_multi c) !! group) as [ep|] eqn:Hg; [|by rewrite quiesce_cleared].
  destruct (negb (Role_is_leader (ep_role ep)) && (ep_term ep =? term) && bool_decide (ep_leader ep = Some from)) eqn:Ha;
    [|by rewrite quiesce_cleared]. intros _. split; [done|]. exists ep.
  rewrite !andb_true_iff, negb_true_iff, N.eqb_eq, bool_decide_eq_true in Ha. naive_solver.
Qed.

Lemma push_controls_lookup group wake flags c g :
  mc_control_state (push_dispatch_controls group wake flags c) !! g = Some Quiesce →
  mc_control_state c !! g = Some Quiesce ∨ g = group ∧ quiesce_flag flags = true.
Proof.
  assert (∀ ctrl c, mc_control_state (push_control group ctrl c) = <[group := ctrl]> (mc_control_state c)) as Hp
    by (intros; unfold push_control; by case_match).
  unfold push_dispatch_controls. cbv zeta. destruct (quiesce_flag flags), wake; rewrite ?Hp;
    destruct (decide (group = g)) as [->|]; rewrite ?lookup_insert_eq, ?lookup_insert_ne by done; auto; done.
Qed.

Lemma dispatch_quiesce group flags now from msg log stable stores c g :
  let c' := (dispatch group flags now from msg log stable stores c).2 in
  mc_control_state c' !! g = Some Quiesce →
  mc_control_state c !! g = Some Quiesce
  ∨ g = group ∧ quiesce_flag flags = true ∧ Message_from msg = from ∧ follows (mc_multi c') g from (Message_term msg).
Proof.
  unfold dispatch. cbv zeta. destruct (MultiRaft_handle_message _ _ _ _ _ _ _) as [[[[[]|] l'] s'] m]; cbn [snd]; [|by left].
  set (fl := if bool_decide _ then flags else _). set (c1 := c <| mc_multi := m |>).
  intros [Hc|[-> Hq]]%push_controls_lookup; [by left|]. right. split; [done|].
  apply accepted_follows in Hq as [Hf Hfo]. subst fl. case_bool_decide as Hfrom; [|by rewrite quiesce_cleared in Hf].
  split_and!; [done..|]. unfold push_dispatch_controls, push_control. by repeat case_match.
Qed.

(** The read, once past [before], meets a heartbeat for [g] that carries the quiesce
    flag and was sent by its author; it is this frame that turns the signal of [g],
    and right after it the group follows the sender at the term of the beat. *)
Definition quiesce_told conn now (before : list (Delivered I)) (d : Delivered I) stores c g : Prop :=
  let '(gb, flags, n, from, msg) := d in
  let c1 := (demux (L := L) (S := S) conn now before stores c).2 in
  let c2 := (demux (L := L) (S := S) conn now (before ++ [d]) stores c).2 in
  decode_exact gb = Ok g ∧ quiesce_flag flags = true ∧ is_heartbeat msg = true ∧ Message_from msg = from
  ∧ mc_control_state c1 !! g ≠ Some Quiesce ∧ mc_control_state c2 !! g = Some Quiesce
  ∧ follows (mc_multi c2) g from (Message_term msg).

(** The frame that turned the signal of [g] to quiesce, and where it was handled. *)
Lemma demux_quiesce conn now decoded stores c g :
  mc_control_state (demux (L := L) (S := S) conn now decoded stores c).2 !! g = Some Quiesce →
  mc_control_state c !! g ≠ Some Quiesce →
  ∃ (before after : list (Delivered I)) gb flags n from msg,
    decoded = before ++ (gb, flags, n, from, msg) :: after
    ∧ quiesce_told conn now before (gb, flags, n, from, msg) stores c g.
Proof.
  revert stores c. induction decoded as [|d decoded IH]; intros stores c; [done|]. intros Hq Hno.
  assert (∀ stores1 c1, (∀ ds, demux conn now (d :: ds) stores c = demux conn now ds stores1 c1) →
    mc_control_state c1 !! g ≠ Some Quiesce →
    ∃ (before after : list (Delivered I)) gb flags n from msg,
      d :: decoded = before ++ (gb, flags, n, from, msg) :: after
      ∧ quiesce_told conn now before (gb, flags, n, from, msg) stores c g) as Hnext.
  { intros stores1 c1 He Hn1. rewrite He in Hq.
    destruct (IH stores1 c1 Hq Hn1) as (before & after & gb & flags & n & from & msg & -> & Ht).
    exists (d :: before), after, gb, flags, n, from, msg. split; [done|].
    unfold quiesce_told in *. cbn [app]. by rewrite !He. }
  destruct d as [[[[gb flags] n] from] msg]. cbn [demux] in Hq, Hnext.
  destruct (frame_verdict gb flags n msg stores c) as [| | | |group log stable|group|] eqn:Hv;
    [by destruct (Hno Hq)|..]; try (by eapply Hnext).
  - pose proof (frame_dispatch _ _ _ _ _ _ _ _ _ Hv) as (Hg & Hb & _).
    pose proof (dispatch_quiesce group flags now from msg log stable stores c g) as Hd. cbv zeta in Hd.
    destruct (dispatch _ _ _ _ _ _ _ _ _) as [stores1 c1] eqn:Hdi. cbn [snd] in Hd.
    destruct (decide (mc_control_state c1 !! g = Some Quiesce)) as [Hc|Hc]; [|by eapply Hnext].
    destruct (Hd Hc) as [|(-> & Hf & Hfrom & Hfo)]; [done|].
    exists [], decoded, gb, flags, n, from, msg. split; [done|]. unfold quiesce_told. cbn [app demux].
    rewrite Hv, Hdi. split_and!; auto.
  - eapply Hnext; [done|]. by rewrite (proj2 (proj2 (note_unknown_same group from c))).
Qed.

(** ** What a driver may rely on *)

(** C8: a coordinator of many groups is the container behind the table of
    connections.  Whatever a driver calls, with any bytes on any connection: the
    container only ever makes calls of its own on well-formed arguments, so every
    theorem about its runs holds of it - a message a peer sent reaches it only
    decoded, with its fields in range.  The table of connections is consistent and
    a new connection never takes the id of an open one; heartbeats wait in batches that hold nothing
    but heartbeats and their responses, with the quiesce flag only on heartbeats.
    And no call panics while the counter of connection ids has a value left. *)
Theorem multi_coordinator_runs ops c :
  mc_reached ops c →
  container_runs MultiRaft_new (mc_multi c)
  ∧ table_ok (λ _, True) (mc_next_conn_id c) (mc_router c)
  ∧ (∀ to batch, mc_hb_batches c !! to = Some batch → Forall beat_entry batch)
  ∧ ∀ o, mc_op_ok o → mc_next_conn_id c < u64_max →
      ∃ c', mc_step o c = Some c' ∧ container_runs (mc_multi c) (mc_multi c').
Proof.
  intros [Hi Hr]%mc_reached_inv. split_and!; [done|apply Hi|apply Hi|]. intros o Ho Hn.
  destruct (mc_step_returns o c _ Hi Hn) as [c' Hs]. exists c'. split; [done|].
  by apply (mc_step_inv o c c' _ Ho Hs Hi).
Qed.

(** C12: the signals for the driver.  At most 64 groups wait to be announced as
    unknown, each once, none of them tombstoned; and such a group is not hosted,
    unless the fork relay was asked to host it - that door, unlike every other one,
    does not drop the announcement.  Every group with a pending scheduling signal is queued,
    and a poll hands over the latest signal of a group; it returns nothing only
    when no group has one. *)
Theorem signals_delivered ops c :
  mc_reached ops c →
  NoDup (mc_unknown_pending c).*1 ∧ (length (mc_unknown_pending c) ≤ UNKNOWN_GROUP_SIGNAL_CAP)%nat
  ∧ (∀ g i, (g, i) ∈ mc_unknown_pending c →
       (g ∉ mc_retired c) ∧ (is_Some (mr_groups (mc_multi c) !! g) → g ∈ installed ops))
  ∧ match poll_group_control c with
    | (None, _) => mc_control_state c = ∅
    | (Some (g, ctrl), c') => mc_control_state c !! g = Some ctrl
                              ∧ mc_control_state c' = delete g (mc_control_state c)
    end.
Proof.
  intros [[_ _ [Hn Hm] Hc Hs Hct _] _]%mc_reached_inv. split_and!; [done|..].
  - rewrite <- (length_fmap fst). etrans; [|exact Hc]. rewrite <- (size_list_to_set (C := gset G)) by done.
    apply subseteq_size. intros g. rewrite elem_of_list_to_set. apply Hm.
  - intros g i Hin. setoid_rewrite <- hosted_elem. apply Hs, Hm. apply list_elem_of_fmap. by exists (g, i).
  - unfold poll_group_control. pose proof (poll_controls_step (mc_controls c) c) as Hp.
    destruct (poll_controls _ _) as [[[g ctrl]|] c'].
    + destruct Hp as (sk & rest & _ & _ & Hg & ->). by split.
    + destruct Hp as [_ Hp]. apply map_empty. intros g. apply eq_None_not_Some. intros Hg.
      pose proof (Hp g (Hct g Hg)) as Hno. rewrite Hno in Hg. by destruct Hg.
Qed.

(** C11: the flush at the end of a call.  Every call on a reachable coordinator that
    flushes - a read, a proposal, a change of members, a split, a merge verb, a read
    index, a transfer, a timer, a storage completion - ends with the flush of the
    coordinator its own work has made, in which no batch and no quiesce intent has
    moved yet.  The flush takes the queue of every group, whole and in order, and
    leaves nothing: what is neither a heartbeat nor a response to one goes to the
    router at once, tagged with its group and stamped with the generation of the
    group; beats join the batch of their peer, and every copy of a heartbeat of a
    group about to quiesce carries the quiesce flag, after which the intent is gone -
    and only then. *)
Theorem flush_routes ops c o c1 :
  mc_reached ops c → mc_ready o c = Some c1 →
  let gen := MultiRaft_group_gen (mc_multi c1) in
  container_runs (mc_multi c) (mc_multi c1)
  ∧ ∃ c' outs,
    mc_step o c = Some c'
    ∧ (∀ g, of_group g outs = group_pending (mc_multi c1) g)
    ∧ (MultiRaft_poll_message (mc_multi c')).1 = None
    ∧ mc_router c' = foldl (route_out gen) (mc_router c1) (filter (λ p, is_beat p.2 = false) outs)
    ∧ (∀ to, default [] (mc_hb_batches c' !! to)
             = default [] (mc_hb_batches c !! to) ++ beats_to gen (mc_quiesce_intents c) to outs)
    ∧ ∀ g, g ∈ mc_quiesce_intents c' ↔ g ∈ mc_quiesce_intents c
           ∧ ∀ o, (g, o) ∈ outs → is_heartbeat (out_message o) = false.
Proof.
  intros [Hi _]%mc_reached_inv Hrd. cbv zeta. pose proof (mc_ready_flush o c c1 Hrd) as Hs.
  destruct (mc_readied o c c1 Hrd) as [Hk Hbs His]. destruct (Hk _ Hi) as [Hi1 Hrun]. split; [done|].
  rewrite <- Hbs, <- His. exists (MultiStreamCoordinator_flush c1). unfold MultiStreamCoordinator_flush in *.
  destruct (flush_rounds_drains (queued (mc_multi c1)) ∅ c1) as [outs Hd]; [apply Hi1|done|].
  destruct (flush_rounds _ _ _) as [stamped c2]. cbn [fst snd] in Hd. destruct Hd as [Hg He Hr Hb Hin Hst].
  exists outs. split_and!; try done. intros g. cbn. rewrite elem_of_difference, Hin, Hst.
  split.
  - intros [Hg1 Hns]. split; [done|]. intros m Ho. apply not_true_is_false. intros Hh. apply Hns. right. eauto.
  - intros [Hg1 Hno]. split; [done|]. intros [Hem|(_ & m & Ho & Hh)]; [by apply not_elem_of_empty in Hem|].
    rewrite (Hno m Ho) in Hh. done.
Qed.

(** C9: the fences.  Bytes arrive on a connection: the messages that reach a group
    are decoded frames of that read, in order, from the peer the connection
    authenticated as.  Each names its group by a valid tag; the group is not
    tombstoned; the incarnation its sender stamped clears the admission floor the
    stores hold for the group at that moment; no outstanding capture debt names the
    group at that moment; and the quiesce flag was on nothing but a heartbeat.  Each is
    handled once, on the stores lent for its group, which then take what it wrote; the
    container and the stores are touched by nothing else before the flush. *)
Theorem read_admits ops c conn bytes eof now stores :
  mc_reached ops c →
  ∃ res decoded r stores' c1 frames,
    PeerRouter_handle_conn_data conn bytes eof (now_mono now) (mc_router c) = Some (res, decoded, r)
    ∧ MultiStreamCoordinator_handle_conn_data (L := L) (S := S) conn bytes eof now stores c
      = Some (stores', MultiStreamCoordinator_flush c1)
    ∧ frames `sublist_of` decoded
    ∧ all_admitted (mc_retired c) now stores (mc_multi c) frames stores' (mc_multi c1)
    ∧ ∀ gb flags n p msg, (gb, flags, n, p, msg) ∈ decoded →
        ∃ k k', rt_conns (mc_router c) !! conn = Some k
                ∧ Conn_handle_data bytes eof (now_mono now) k = Some (Ok tt, k') ∧ identified k' p.
Proof.
  intros [Hi _]%mc_reached_inv. pose proof (tk_ok _ _ _ (mi_table _ _ Hi)) as Hok.
  destruct (PeerRouter_handle_conn_data_ok conn bytes eof (now_mono now) (mc_router c) Hok) as (res & out & r & Hh & _ & Hat).
  unfold MultiStreamCoordinator_handle_conn_data. rewrite Hh. cbn [mbind option_bind].
  pose proof (demux_admitted conn now out stores (c <| mc_router := r |>)) as Ha.
  pose proof (delivered_sublist now out stores (c <| mc_router := r |>)) as Hs.
  destruct (demux conn now out stores _) as [stores' c1]. cbn [fst snd] in Ha.
  exists res, out, r, stores', c1, (delivered now out stores (c <| mc_router := r |>)). split_and!; try done.
  intros gb flags n p msg Hin. destruct (Hat _ _ _ _ _ Hin) as (k & k' & ? & ? & _ & ?). eauto.
Qed.

(** C10: a group is told to quiesce only by its leader.  If a read leaves a quiesce
    signal for a group that had none, one of the frames it decodes is a heartbeat for
    the group that carries the quiesce flag and whose author is the authenticated
    sender; it is at this frame that the signal turns, and in the container the read
    has reached right after it the group is a follower of exactly that sender at
    exactly the term of the beat. *)
Theorem quiesce_from_leader ops c conn bytes eof now stores stores' c' g :
  mc_reached ops c →
  MultiStreamCoordinator_handle_conn_data (L := L) (S := S) conn bytes eof now stores c = Some (stores', c') →
  mc_control_state c' !! g = Some Quiesce → mc_control_state c !! g ≠ Some Quiesce →
  ∃ res decoded r (before after : list (Delivered I)) gb flags n from msg,
    PeerRouter_handle_conn_data conn bytes eof (now_mono now) (mc_router c) = Some (res, decoded, r)
    ∧ decoded = before ++ (gb, flags, n, from, msg) :: after
    ∧ quiesce_told conn now before (gb, flags, n, from, msg) stores (c <| mc_router := r |>) g
    ∧ ∃ k k', rt_conns (mc_router c) !! conn = Some k
              ∧ Conn_handle_data bytes eof (now_mono now) k = Some (Ok tt, k') ∧ identified k' from.
Proof.
  intros [Hi _]%mc_reached_inv. pose proof (tk_ok _ _ _ (mi_table _ _ Hi)) as Hok.
  destruct (PeerRouter_handle_conn_data_ok conn bytes eof (now_mono now) (mc_router c) Hok)
    as (res & decoded & r & Hh & _ & Hat).
  unfold MultiStreamCoordinator_handle_conn_data. rewrite Hh. cbn [mbind option_bind].
  pose proof (demux_quiesce conn now decoded stores (c <| mc_router := r |>) g) as Hq.
  destruct (demux conn now decoded stores _) as [stores1 c1]. cbn [snd] in Hq. intros [= _ <-] Hc Hno.
  rewrite flush_controls in Hc.
  destruct (Hq Hc Hno) as (before & after & gb & flags & n & from & msg & He & Ht).
  exists res, decoded, r, before, after, gb, flags, n, from, msg. split_and!; try done.
  destruct (Hat gb flags n from msg) as (k & k' & ? & ? & _ & ?); [|by eauto].
  rewrite He. apply elem_of_app. right. by left.
Qed.
End safety.

(** ** A host of the group engine

    Group 1 of [MultiDemo] is restored on a coordinator node 2 is connected to; its
    log holds two committed splits.  Node 2 beats for group 1, with the quiesce flag,
    and for group 7, the child of the first split, which this host does not run yet;
    then the relay hosts group 7. *)

Module McRun.
Import Sample MultiDemo.

#[local] Existing Instances Proto3Wire.wire Proto3Wire.meta.

Definition leader_beat : Message N := MHeartbeat (Heartbeat_new 1 2 0 []).

(** Writes nothing, and reads that beat. *)
#[local] Instance beat_wire : Buffa PbMessage := {|
  buffa_encode := λ _, [];
  buffa_decode := λ b, if decide (b = [x02]) then Ok (pb_message leader_beat) else Err BuffaOther;
|}.

#[local] Instance beat_widths : BuffaWidths.
Proof. intros b w. cbn. case_decide; [|done]. intros [= <-]. by split; [unfold is_u64; vm_compute|]. Qed.

Definition cluster : ClusterId := replicate 16 x07.
Definition hello (id : N) : bytes := build_hello cluster (data_encode id).
Definition accepted : Plain := Build_Labeled Passthrough_new cluster (hello 1) Acceptor [] [] None false.

(** The stores of group 1. *)
Definition engine : Engine :=
  gst_write 1 splits (stable_at 2) (GroupEngine_add_group 1 GroupEngine_new).2.

Definition beats : bytes :=
  encode_frame
    (write_coalesced_entry x00 (data_encode (7 : N)) 0 [x02]
       (write_coalesced_entry x01 (data_encode (1 : N)) 0 [x02] (write_coalesced_marker []))) [].

Abbreviation Call := (mc_op (G := N) (I := N) (F := N) (R := Prng) (L := EngineLog) (S := EngineStable N)
                            (E := Engine) (W := Plain)).
Abbreviation Host := (MultiStreamCoordinator N N N Prng Plain).
Abbreviation mrun := (mc_run (DG := Data_u64) (DI := Data_u64) (DC := Data_u64) (DS := Data_u64)).

Definition opening : list Call :=
  [McAccept accepted 3; McData 1 (hello 2) false now engine;
   McRestore 1 (config 1) now (Prng_new 1) 0 1 0 engine splits (stable_at 2);
   McStorage 1 now splits (stable_at 2)].

Definition host0 : Host := default MultiStreamCoordinator_new (mrun opening MultiStreamCoordinator_new).

Definition beaten : list Call := opening ++ [McData 1 beats false now engine].
Definition host1 : Host := default MultiStreamCoordinator_new (mrun beaten MultiStreamCoordinator_new).

Definition relayed : list Call := beaten ++ [McInstall 1 7 engine now (Prng_new 7)].
Definition host2 : Host := default MultiStreamCoordinator_new (mrun relayed MultiStreamCoordinator_new).

Abbreviation is_reached := (mc_reached (DG := Data_u64) (DI := Data_u64) (DC := Data_u64) (DS := Data_u64)).

Lemma relayed_ok : Forall mc_op_ok relayed.
Proof.
  repeat (apply Forall_cons_2 || apply Forall_nil_2); try done.
  split; [done|]. split; [by cbn|cbn; unfold is_u64, u64_max; lia].
Qed.

Lemma host0_reached : is_reached opening host0.
Proof.
  split; [|vm_compute; reflexivity].
  pose proof relayed_ok as Hc. unfold relayed, beaten in Hc. by apply Forall_app in Hc as [[Hc _]%Forall_app _].
Qed.

Lemma host1_reached : is_reached beaten host1.
Proof.
  split; [|vm_compute; reflexivity].
  pose proof relayed_ok as Hc. unfold relayed in Hc. by apply Forall_app in Hc as [Hc _].
Qed.

Lemma host2_reached : is_reached relayed host2.
Proof. split; [apply relayed_ok|vm_compute; reflexivity]. Qed.

Lemma multi_coordinator_runs_witness :
  table_ok (λ _, True) (mc_next_conn_id host2) (mc_router host2) ∧ mc_next_conn_id host2 = 2.
Proof.
  split; [|vm_compute; reflexivity]. exact (proj1 (proj2 (multi_coordinator_runs relayed host2 host2_reached))).
Defined.

(** The announcement of group 7 outlives its admission by the relay. *)
Lemma signals_delivered_witness :
  mc_unknown_pending host2 = [(7, 2)] ∧ is_Some (mr_groups (mc_multi host2) !! 7)
  ∧ (is_Some (mr_groups (mc_multi host2) !! 7) → 7 ∈ installed relayed).
Proof.
  split; [vm_compute; reflexivity|]. split; [vm_compute; eexists; reflexivity|].
  destruct (signals_delivered relayed host2 host2_reached) as (_ & _ & H & _).
  apply (H 7 2). vm_compute. left.
Defined.

(** The read of the beats leaves group 1 an answer to its leader, which joins the
    batch of node 2. *)
Definition beat_read : Call := McData 1 beats false now engine.
Definition answered : Host := default host0 (mc_ready (DG := Data_u64) (DI := Data_u64) (DC := Data_u64) (DS := Data_u64)
                                               beat_read host0).

Lemma flush_routes_witness :
  group_pending (mc_multi answered) 1 ≠ []
  ∧ ∃ c' outs, mc_step (DG := Data_u64) (DI := Data_u64) (DC := Data_u64) (DS := Data_u64) beat_read host0 = Some c'
    ∧ of_group 1 outs = group_pending (mc_multi answered) 1
    ∧ default [] (mc_hb_batches c' !! 2)
      = default [] (mc_hb_batches host0 !! 2)
        ++ beats_to (MultiRaft_group_gen (mc_multi answered)) (mc_quiesce_intents host0) 2 outs
    ∧ length (default [] (mc_hb_batches c' !! 2)) = 1%nat.
Proof.
  split; [vm_compute; discriminate|].
  destruct (flush_routes (I := N) (StateMachine0 := Counter) (DG := Data_u64) (DI := Data_u64) (DC := Data_u64)
    (DS := Data_u64) opening host0 beat_read answered host0_reached) as (_ & c' & outs & H1 & H2 & _ & _ & H3 & _).
  { vm_compute. reflexivity. }
  exists c', outs. split; [exact H1|]. split; [exact (H2 1)|]. split; [exact (H3 2)|].
  assert ((λ c : Host, length (default [] (mc_hb_batches c !! 2)))
    <$> mc_step (DG := Data_u64) (DI := Data_u64) (DC := Data_u64) (DS := Data_u64) beat_read host0 = Some 1%nat) as Hl
    by (vm_compute; reflexivity).
  rewrite H1 in Hl. exact (inj Some _ _ Hl).
Defined.

Lemma read_admits_witness :
  ∃ res decoded r stores' c1 frames,
    PeerRouter_handle_conn_data 1 beats false (now_mono now) (mc_router host0) = Some (res, decoded, r)
    ∧ MultiStreamCoordinator_handle_conn_data (L := EngineLog) (S := EngineStable N) (DC := Data_u64) (DS := Data_u64)
        1 beats false now engine host0 = Some (stores', MultiStreamCoordinator_flush c1)
    ∧ frames `sublist_of` decoded
    ∧ all_admitted (StateMachine0 := Counter) (DG := Data_u64) (DI := Data_u64) (DC := Data_u64) (DS := Data_u64)
        (mc_retired host0) now engine (mc_multi host0) frames stores' (mc_multi c1).
Proof.
  destruct (read_admits (I := N) (StateMachine0 := Counter) (MultiEngine0 := GroupEngine_MultiEngine) (DG := Data_u64) (DI := Data_u64)
    (DC := Data_u64) (DS := Data_u64) opening host0 1 beats false now engine host0_reached)
    as (res & decoded & r & stores' & c1 & frames & H1 & H2 & H3 & H4 & _).
  exists res, decoded, r, stores', c1, frames. split; [exact H1|]. split; [exact H2|]. split; [exact H3|exact H4].
Defined.

Definition after_beats : option (Engine * Host) :=
  MultiStreamCoordinator_handle_conn_data (L := EngineLog) (S := EngineStable N) (DC := Data_u64) (DS := Data_u64)
    1 beats false now engine host0.

Definition told : Engine * Host := default (engine, host0) after_beats.

Lemma told_read : after_beats = Some (told.1, told.2).
Proof. vm_compute. reflexivity. Qed.

Lemma told_quiesce : mc_control_state told.2 !! 1 = Some Quiesce ∧ mc_control_state host0 !! 1 ≠ Some Quiesce.
Proof. split; vm_compute; [reflexivity|discriminate]. Qed.

Lemma quiesce_from_leader_witness :
  mc_control_state told.2 !! 1 = Some Quiesce
  ∧ ∃ decoded r (before after : list (Delivered N)) gb flags n from msg,
      decoded = before ++ (gb, flags, n, from, msg) :: after
      ∧ quiesce_told (StateMachine0 := Counter) (DG := Data_u64) (DI := Data_u64) (DC := Data_u64) (DS := Data_u64)
          1 now before (gb, flags, n, from, msg) engine (host0 <| mc_router := r |>) 1.
Proof.
  split; [exact (proj1 told_quiesce)|].
  destruct (quiesce_from_leader (I := N) (StateMachine0 := Counter) (MultiEngine0 := GroupEngine_MultiEngine) (DG := Data_u64) (DI := Data_u64)
    (DC := Data_u64) (DS := Data_u64) opening host0 1 beats false now engine told.1 told.2 1
    host0_reached told_read (proj1 told_quiesce) (proj2 told_quiesce))
    as (res & decoded & r & before & after & gb & flags & n & from & msg & _ & H1 & H2 & _).
  exists decoded, r, before, after, gb, flags, n, from, msg. split; [exact H1|exact H2].
Defined.
End McRun.
