(* ===== verification/Driver.v ===== *)
(** * What the drivers share

    The crate [sailing-driver]: the tuning knobs ([config.rs]), the clock and its
    uncertainty gate ([clock.rs], [wall_clock.rs]), the budget of requests in
    flight and the table of parked requests that routes the events of a node to
    the callers waiting for them ([shared.rs]), and the completions a handle
    builds around the closures of its callers ([handle/mod.rs]).

    A [usize] is 64 bits wide.  What a caller is sent is an [Answer]: the channel
    it waits on and what it received; a reply channel that is dropped unanswered
    is one too, since the caller reads it as the driver shutting down.  The
    guard of a reservation is held by whatever holds the channel, so it is
    released with the answer. *)

From S2P Require Import Prelude Bytes Num Conf Config ReadOnly Data Frame Entry Storage Message.
From S2P Require Import Wire Endpoint Propose Router RouterInv Reads.

(** ** Tuning knobs *)

Definition MAX_CHANNEL_CAPACITY : u64 := N.shiftr u64_max 2 - 1.
Definition MAX_BOUNDED_QUEUE_DEPTH : u64 := N.shiftl 1 19.
Definition MAX_REDIAL_BACKOFF : Duration := Duration_from_millis 4294967295.

(** [dv_storage_ready] is the capacity of the channel, when there is one; [None] of
    an unbounded one. *)
Record DriverConfig := {
  dv_max_inflight : u64;
  dv_max_pending_bytes : u64;
  dv_events_cap : u64;
  dv_cmd_budget : u64;
  dv_recv_cap : u64;
  dv_inbound_cap : u64;
  dv_accept_cap : u64;
  dv_max_outbound_backlog : u64;
  dv_max_conns : u64;
  dv_redial_base : Duration;
  dv_redial_cap : Duration;
  dv_storage_ready : option (option u64);
  dv_max_failover_limbo_bytes : u64;
}.

Inductive DriverConfigError :=
| ZeroMaxInflight | MaxInflightOverflow | MaxInflightAboveChannelCeiling
| EventsCapAboveChannelCeiling | RecvCapAboveQueueCeiling | InboundCapAboveQueueCeiling
| AcceptCapAboveQueueCeiling | ZeroCmdBudget | ZeroEventsCap | ZeroRecvCap | ZeroInboundCap
| ZeroAcceptCap | ZeroMaxPendingBytes | ZeroMaxOutboundBacklog | ZeroMaxConns
| ZeroMaxFailoverLimboBytes | ZeroRedialBase | ZeroRedialCap | RedialBaseAboveCap
| RedialBaseTooLarge | RedialCapTooLarge | StorageReadyNotCoalescing.

Definition DriverConfig_validate (c : DriverConfig) : result unit DriverConfigError :=
  if dv_max_inflight c =? 0 then Err ZeroMaxInflight
  else if dv_max_inflight c =? u64_max then Err MaxInflightOverflow
  else if MAX_CHANNEL_CAPACITY - 1 <? dv_max_inflight c then Err MaxInflightAboveChannelCeiling
  else if dv_cmd_budget c =? 0 then Err ZeroCmdBudget
  else if dv_events_cap c =? 0 then Err ZeroEventsCap
  else if MAX_CHANNEL_CAPACITY <? dv_events_cap c then Err EventsCapAboveChannelCeiling
  else if dv_recv_cap c =? 0 then Err ZeroRecvCap
  else if MAX_BOUNDED_QUEUE_DEPTH <? dv_recv_cap c then Err RecvCapAboveQueueCeiling
  else if dv_inbound_cap c =? 0 then Err ZeroInboundCap
  else if MAX_BOUNDED_QUEUE_DEPTH <? dv_inbound_cap c then Err InboundCapAboveQueueCeiling
  else if dv_accept_cap c =? 0 then Err ZeroAcceptCap
  else if MAX_BOUNDED_QUEUE_DEPTH <? dv_accept_cap c then Err AcceptCapAboveQueueCeiling
  else if dv_max_pending_bytes c =? 0 then Err ZeroMaxPendingBytes
  else if dv_max_outbound_backlog c =? 0 then Err ZeroMaxOutboundBacklog
  else if dv_max_conns c =? 0 then Err ZeroMaxConns
  else if dv_max_failover_limbo_bytes c =? 0 then Err ZeroMaxFailoverLimboBytes
  else if dv_redial_base c =? 0 then Err ZeroRedialBase
  else if dv_redial_cap c =? 0 then Err ZeroRedialCap
  else if MAX_REDIAL_BACKOFF <? dv_redial_base c then Err RedialBaseTooLarge
  else if MAX_REDIAL_BACKOFF <? dv_redial_cap c then Err RedialCapTooLarge
  else if dv_redial_cap c <? dv_redial_base c then Err RedialBaseAboveCap
  else match dv_storage_ready c with
  | Some capacity => if bool_decide (capacity = Some 1) then Ok tt else Err StorageReadyNotCoalescing
  | None => Ok tt
  end.

Definition DriverConfig_default : DriverConfig :=
  {| dv_max_inflight := 1024; dv_max_pending_bytes := 64 * 1024 * 1024; dv_events_cap := 1024;
     dv_cmd_budget := 32; dv_recv_cap := 256; dv_inbound_cap := 256; dv_accept_cap := 16;
     dv_max_outbound_backlog := 8 * 1024 * 1024; dv_max_conns := 64;
     dv_redial_base := Duration_from_millis 100; dv_redial_cap := Duration_from_millis 5000;
     dv_storage_ready := None; dv_max_failover_limbo_bytes := 64 * 1024 * 1024 |}.

(** ** The clock *)

Record WallReading := { wr_wall_nanos : u64; wr_max_error_nanos : u64 }.

(** [mono] is the time since the anchor and [reading] what the wall source says. *)
Definition Clock_now (eps_unc_ns : option u64) (mono : Instant) (reading : option WallReading) : Now :=
  let wall :=
    match reading, eps_unc_ns with
    | Some r, Some eps => if wr_max_error_nanos r <=? eps then wr_wall_nanos r else Wall_ABSENT
    | _, _ => Wall_ABSENT
    end in
  Now_synchronized mono wall.

(** The operating system's own error is left out of [BindIo]. *)
Inductive BindError :=
| BindIo
| BindConfig (e : ConfigError)
| BindDriverConfig (e : DriverConfigError)
| BindMissingWallSource.

Definition validate_and_capture_eps {I} `{!NodeId I} (config : Config I) (supplies_wall : bool)
  : result (option u64) BindError :=
  match Config_validate config with
  | Err e => Err (BindConfig e)
  | Ok _ =>
      let eps := cfg_bounded_clock_uncertainty config in
      if bool_decide (is_Some eps) && negb supplies_wall then Err BindMissingWallSource
      else Ok ((λ d, N.min d u64_max) <$> eps)
  end.

(** [Duration * u32] panics on overflow: [None]. *)
Definition Duration_mul (d : Duration) (n : N) : option Duration :=
  if d * n <=? Duration_MAX then Some (d * n) else None.

(** [nanos] is the sub-second part of the wall time. *)
Definition jittered (nanos : N) (base : Duration) : option Duration :=
  scaled ← Duration_mul base (nanos mod 256);
  Duration_add base (scaled / 1024).

Definition maxerror_us_to_ns (maxerror_us : Z) : option u64 :=
  if (maxerror_us <? 0)%Z then None else Some (N.min (Z.to_N maxerror_us * 1000) u64_max).

Definition u64_try_from (z : Z) : option u64 := if (z <? 0)%Z then None else Some (Z.to_N z).

Definition disciplined_reading (status maxerror_us time_sec time_frac unsync_bit nano_bit : Z)
  : option WallReading :=
  if negb (Z.land status unsync_bit =? 0)%Z then None
  else
    max_error_nanos ← maxerror_us_to_ns maxerror_us;
    sec ← u64_try_from time_sec;
    frac ← u64_try_from time_frac;
    let frac_nanos :=
      if negb (Z.land status nano_bit =? 0)%Z then frac else N.min (frac * 1000) u64_max in
    Some {| wr_wall_nanos := saturating_add (N.min (sec * 1000000000) u64_max) frac_nanos;
            wr_max_error_nanos := max_error_nanos |}.

(** ** Errors

    The reason of a rejection is the error its text describes. *)

Inductive RejectReason (I : Type) :=
| RejPropose (e : ProposeError I)
| RejTransfer (e : TransferError I)
| RejReadIndex (e : ReadIndexError).
Arguments RejPropose {I}.
Arguments RejTransfer {I}.
Arguments RejReadIndex {I}.

Inductive DriverError (I : Type) :=
| DeNotLeader (leader : option I)
| DeSuperseded
| DeBusy
| DeRejected (reason : RejectReason I)
| DePoisoned
| DeShuttingDown
| DeSourceAbsorbed
| DeNoStoredState
| DeStoredStateExists
| DeQueryPanicked.
Arguments DeNotLeader {I}.
Arguments DeSuperseded {I}.
Arguments DeBusy {I}.
Arguments DeRejected {I}.
Arguments DePoisoned {I}.
Arguments DeShuttingDown {I}.
Arguments DeSourceAbsorbed {I}.
Arguments DeNoStoredState {I}.
Arguments DeStoredStateExists {I}.
Arguments DeQueryPanicked {I}.

(** ** The budget of requests in flight

    Two counters that every clone of a handle shares.  [fetch_add] and [fetch_sub]
    wrap around. *)

Record InflightBudget := {
  ib_count : u64;
  ib_bytes : u64;
  ib_max_count : u64;
  ib_max_bytes : u64;
}.

#[global] Instance InflightBudget_eta : Eta InflightBudget := λ b,
  Build_InflightBudget (ib_count b) (ib_bytes b) (ib_max_count b) (ib_max_bytes b).

Definition InflightBudget_new (max_count max_bytes : u64) : InflightBudget :=
  {| ib_count := 0; ib_bytes := 0; ib_max_count := max_count; ib_max_bytes := max_bytes |}.

Record ReservationGuard := { rsv_len : u64 }.

Definition fetch_add_count (n : u64) b : InflightBudget := b <| ib_count ::= λ c, wrapping_add c n |>.
Definition fetch_sub_count (n : u64) b : InflightBudget := b <| ib_count ::= λ c, wrapping_sub c n |>.
Definition fetch_add_bytes (n : u64) b : InflightBudget := b <| ib_bytes ::= λ c, wrapping_add c n |>.
Definition fetch_sub_bytes (n : u64) b : InflightBudget := b <| ib_bytes ::= λ c, wrapping_sub c n |>.

(** A reservation that nothing interrupts. *)
Definition InflightBudget_try_reserve {I} (len : u64) b
  : result ReservationGuard (DriverError I) * InflightBudget :=
  let prev_count := ib_count b in
  let b := fetch_add_count 1 b in
  if ib_max_count b <=? prev_count then (Err DeBusy, fetch_sub_count 1 b)
  else
    let prev_bytes := ib_bytes b in
    let b := fetch_add_bytes len b in
    if ib_max_bytes b <? saturating_add prev_bytes len
    then (Err DeBusy, fetch_sub_count 1 (fetch_sub_bytes len b))
    else (Ok {| rsv_len := len |}, b).

Definition ReservationGuard_drop (g : ReservationGuard) b : InflightBudget :=
  fetch_sub_bytes (rsv_len g) (fetch_sub_count 1 b).

(** *** Interleavings

    The callers run on threads of their own: between two of its atomic operations
    a caller may be overtaken by any others.  A task is a caller inside
    [try_reserve] or [drop], by the operation it does next, or a guard that is
    held; [len] is its payload. *)
Inductive BudgetTask :=
| TkCounted (len : u64)    (* counted and below the cap; adds its bytes next *)
| TkFull (len : u64)       (* counted above the cap; gives its slot back next *)
| TkOver (len : u64)       (* its bytes exceed the cap; takes them back next *)
| TkUncounting (len : u64) (* has taken its bytes back; gives its slot back next *)
| TkHeld (len : u64)       (* a guard *)
| TkDropping (len : u64).  (* a guard that gave its slot back; its bytes are next *)

Record BudgetSys := { bs_budget : InflightBudget; bs_tasks : list BudgetTask }.

Definition task_len (t : BudgetTask) : u64 :=
  match t with
  | TkCounted n | TkFull n | TkOver n | TkUncounting n | TkHeld n | TkDropping n => n
  end.

Definition task_total (f : BudgetTask → N) (ts : list BudgetTask) : N := foldr (λ t n, f t + n) 0 ts.
Definition sum_len : list BudgetTask → N := task_total task_len.

(** The payloads are in memory, and so are the callers: together they are fewer
    than [2 ^ 64]. *)
Definition in_memory (ts : list BudgetTask) : Prop :=
  N.of_nat (length ts) < u64_max ∧ sum_len ts ≤ u64_max.

Inductive budget_step : BudgetSys → BudgetSys → Prop :=
| BsReserve b ts len :
    in_memory (TkCounted len :: ts) →
    budget_step {| bs_budget := b; bs_tasks := ts |}
      {| bs_budget := fetch_add_count 1 b;
         bs_tasks := (if ib_max_count b <=? ib_count b then TkFull len else TkCounted len) :: ts |}
| BsFull b ts1 ts2 len :
    budget_step {| bs_budget := b; bs_tasks := ts1 ++ TkFull len :: ts2 |}
      {| bs_budget := fetch_sub_count 1 b; bs_tasks := ts1 ++ ts2 |}
| BsBytes b ts1 ts2 len :
    budget_step {| bs_budget := b; bs_tasks := ts1 ++ TkCounted len :: ts2 |}
      {| bs_budget := fetch_add_bytes len b;
         bs_tasks := ts1 ++ (if ib_max_bytes b <? saturating_add (ib_bytes b) len
                             then TkOver len else TkHeld len) :: ts2 |}
| BsOver b ts1 ts2 len :
    budget_step {| bs_budget := b; bs_tasks := ts1 ++ TkOver len :: ts2 |}
      {| bs_budget := fetch_sub_bytes len b; bs_tasks := ts1 ++ TkUncounting len :: ts2 |}
| BsUncount b ts1 ts2 len :
    budget_step {| bs_budget := b; bs_tasks := ts1 ++ TkUncounting len :: ts2 |}
      {| bs_budget := fetch_sub_count 1 b; bs_tasks := ts1 ++ ts2 |}
| BsDrop b ts1 ts2 len :
    budget_step {| bs_budget := b; bs_tasks := ts1 ++ TkHeld len :: ts2 |}
      {| bs_budget := fetch_sub_count 1 b; bs_tasks := ts1 ++ TkDropping len :: ts2 |}
| BsDropped b ts1 ts2 len :
    budget_step {| bs_budget := b; bs_tasks := ts1 ++ TkDropping len :: ts2 |}
      {| bs_budget := fetch_sub_bytes len b; bs_tasks := ts1 ++ ts2 |}.

(** The slots and the bytes that are given out. *)
Definition is_held (t : BudgetTask) : N := match t with TkHeld _ => 1 | _ => 0 end.
Definition held_len (t : BudgetTask) : N := match t with TkHeld n => n | _ => 0 end.

(** What a task has added to the counters. *)
Definition in_count (t : BudgetTask) : N := match t with TkDropping _ => 0 | _ => 1 end.
Definition in_bytes (t : BudgetTask) : N :=
  match t with TkOver n | TkHeld n | TkDropping n => n | _ => 0 end.
Definition under_cap (t : BudgetTask) : N := match t with TkFull _ | TkDropping _ => 0 | _ => 1 end.

Lemma task_total_app f ts1 ts2 : task_total f (ts1 ++ ts2) = task_total f ts1 + task_total f ts2.
Proof. induction ts1 as [|t ts1 IH]; [done|]. cbn [app task_total foldr]. fold (task_total f (ts1 ++ ts2)) (task_total f ts1). lia. Qed.

Lemma task_total_cons f t ts : task_total f (t :: ts) = f t + task_total f ts.
Proof. done. Qed.

Lemma task_total_mono f g ts : (∀ t, f t ≤ g t) → task_total f ts ≤ task_total g ts.
Proof. intros Hf. induction ts as [|t ts IH]; [done|]. rewrite !task_total_cons. specialize (Hf t). lia. Qed.

Lemma task_total_len f ts : (∀ t, f t ≤ 1) → task_total f ts ≤ N.of_nat (length ts).
Proof. intros Hf. induction ts as [|t ts IH]; [done|]. rewrite task_total_cons. specialize (Hf t). cbn [length]. lia. Qed.

(** The counters are exactly what the tasks have added, and no more slots or bytes
    are given out than there are. *)
Record budget_inv (max_count max_bytes : u64) (x : BudgetSys) : Prop := {
  bi_max_count : ib_max_count (bs_budget x) = max_count;
  bi_max_bytes : ib_max_bytes (bs_budget x) = max_bytes;
  bi_count : ib_count (bs_budget x) = task_total in_count (bs_tasks x);
  bi_bytes : ib_bytes (bs_budget x) = task_total in_bytes (bs_tasks x);
  bi_under : task_total under_cap (bs_tasks x) ≤ max_count;
  bi_held : task_total held_len (bs_tasks x) ≤ max_bytes;
  bi_memory : in_memory (bs_tasks x);
}.

Lemma wrap_add_small a b : a + b ≤ u64_max → wrapping_add a b = a + b.
Proof. intros. unfold wrapping_add. apply N.mod_small. u64_lia. Qed.

Lemma wrap_sub_small a b : b ≤ a → a ≤ u64_max → wrapping_sub a b = a - b.
Proof.
  intros Hb Ha. unfold wrapping_sub. replace (a + u64_mod - b) with (a - b + 1 * u64_mod) by u64_lia.
  rewrite N.Div0.mod_add. apply N.mod_small. u64_lia.
Qed.

Lemma in_bytes_len ts : task_total in_bytes ts ≤ task_total task_len ts.
Proof. apply task_total_mono. intros []; cbn; lia. Qed.

Lemma budget_counters x mc mb : budget_inv mc mb x →
  task_total held_len (bs_tasks x) ≤ task_total in_bytes (bs_tasks x)
  ∧ task_total under_cap (bs_tasks x) ≤ task_total in_count (bs_tasks x)
  ∧ task_total in_bytes (bs_tasks x) ≤ u64_max ∧ task_total in_count (bs_tasks x) < u64_max.
Proof.
  intros [_ _ _ _ _ _ [Hl Hs]]. unfold sum_len in Hs.
  pose proof (in_bytes_len (bs_tasks x)).
  assert (task_total in_count (bs_tasks x) ≤ N.of_nat (length (bs_tasks x))) by (apply task_total_len; intros []; cbn; lia).
  split_and!; [apply task_total_mono; intros []; cbn; lia|apply task_total_mono; intros []; cbn; lia|lia|lia].
Qed.

(** Walks through one step: the counters wrap nowhere. *)
Ltac budget_step_inv :=
  split; unfold in_memory, sum_len, fetch_add_count, fetch_sub_count, fetch_add_bytes, fetch_sub_bytes in *;
  cbn -[N.add N.le wrapping_add wrapping_sub u64_max task_total] in *;
  rewrite ?task_total_app, ?task_total_cons, ?length_app in *;
  cbn [under_cap in_count in_bytes held_len task_len length] in *; try done.

Lemma budget_inv_step mc mb x y : budget_inv mc mb x → budget_step x y → budget_inv mc mb y.
Proof.
  intros Hi Hst. destruct (budget_counters _ _ _ Hi) as (H1 & H2 & H3 & H4). destruct Hi as [Hmc Hmb Hc Hb Hu Hh [Hl Hs]].
  destruct Hst as [b ts len [Hl' Hs']|b ts1 ts2 len|b ts1 ts2 len|b ts1 ts2 len|b ts1 ts2 len|b ts1 ts2 len|b ts1 ts2 len];
    cbn [bs_budget bs_tasks] in *; [destruct (N.leb_spec (ib_max_count b) (ib_count b))| |
      destruct (N.ltb_spec (ib_max_bytes b) (saturating_add (ib_bytes b) len))|..];
    budget_step_inv; try pose proof (in_bytes_len ts1); try pose proof (in_bytes_len ts2).
  all: unfold saturating_add in *.
  all: try rewrite wrap_add_small by lia; try rewrite wrap_sub_small by lia; lia.
Qed.

Lemma budget_inv_reach mc mb x :
  rtc budget_step {| bs_budget := InflightBudget_new mc mb; bs_tasks := [] |} x → budget_inv mc mb x.
Proof.
  intros Hr. remember {| bs_budget := _; bs_tasks := _ |} as x0 eqn:Hx.
  assert (budget_inv mc mb x0) as Hi by (subst; split; cbn; try done; try lia; split; cbn; unfold u64_max; lia).
  clear Hx. induction Hr as [|x y z Hs _ IH]; [done|]. by eapply IH, budget_inv_step.
Qed.

(** Nothing interrupted, the steps of a reservation are [try_reserve]. *)
Lemma try_reserve_steps {I} len b ts :
  in_memory (TkCounted len :: ts) →
  let '(r, b') := InflightBudget_try_reserve (I := I) len b in
  rtc budget_step {| bs_budget := b; bs_tasks := ts |}
    {| bs_budget := b'; bs_tasks := match r with Ok _ => TkHeld len :: ts | Err _ => ts end |}.
Proof.
  intros Hm. pose proof (BsReserve b ts len Hm) as H1. unfold InflightBudget_try_reserve. cbv zeta.
  change (ib_max_count (fetch_add_count 1 b)) with (ib_max_count b).
  destruct (ib_max_count b <=? ib_count b).
  { eapply rtc_l; [exact H1|]. apply rtc_once, (BsFull _ []). }
  pose proof (BsBytes (fetch_add_count 1 b) [] ts len) as H2. cbn [app] in H2.
  change (ib_max_bytes (fetch_add_bytes len (fetch_add_count 1 b))) with (ib_max_bytes (fetch_add_count 1 b)).
  destruct (ib_max_bytes (fetch_add_count 1 b) <? _).
  - eapply rtc_l; [exact H1|]. eapply rtc_l; [exact H2|]. eapply rtc_l; [apply (BsOver _ [])|].
    apply rtc_once, (BsUncount _ []).
  - eapply rtc_l; [exact H1|]. by apply rtc_once.
Qed.

Lemma drop_steps len b ts1 ts2 :
  rtc budget_step {| bs_budget := b; bs_tasks := ts1 ++ TkHeld len :: ts2 |}
    {| bs_budget := ReservationGuard_drop {| rsv_len := len |} b; bs_tasks := ts1 ++ ts2 |}.
Proof. eapply rtc_l; [apply BsDrop|]. apply rtc_once, BsDropped. Qed.

Lemma task_total_held ts :
  Forall (λ t, ∃ n, t = TkHeld n) ts →
  task_total in_count ts = N.of_nat (length ts) ∧ task_total in_bytes ts = sum_len ts.
Proof.
  unfold sum_len. induction 1 as [|t ts [n ->] _ [IH1 IH2]]; [done|]. rewrite !task_total_cons. cbn [in_count in_bytes task_len length]. lia.
Qed.

(** The budget of requests in flight holds whatever the threads of the callers
    do.  However the atomic operations of any number of reservations and releases
    interleave, no more slots are given out than the budget has and no more bytes;
    and when no caller is between two of its operations the counters are exactly
    the guards held and their bytes, so nothing leaks.  A reservation that is not
    interrupted is one of these interleavings, and from such a state it is granted
    exactly when a slot and the bytes are left. *)
Theorem budget_holds (I : Type) max_count max_bytes x :
  rtc budget_step {| bs_budget := InflightBudget_new max_count max_bytes; bs_tasks := [] |} x →
  task_total is_held (bs_tasks x) ≤ max_count ∧ task_total held_len (bs_tasks x) ≤ max_bytes
  ∧ (Forall (λ t, ∃ n, t = TkHeld n) (bs_tasks x) →
     ib_count (bs_budget x) = N.of_nat (length (bs_tasks x)) ∧ ib_bytes (bs_budget x) = sum_len (bs_tasks x)
     ∧ ∀ len, in_memory (TkCounted len :: bs_tasks x) →
         let '(r, b) := InflightBudget_try_reserve (I := I) len (bs_budget x) in
         rtc budget_step x
           {| bs_budget := b; bs_tasks := match r with Ok _ => TkHeld len :: bs_tasks x | Err _ => bs_tasks x end |}
         ∧ (r = Ok {| rsv_len := len |} ↔
            N.of_nat (length (bs_tasks x)) < max_count ∧ sum_len (bs_tasks x) + len ≤ max_bytes)).
Proof.
  intros Hr. apply budget_inv_reach in Hr. pose proof Hr as [Hmc Hmb Hc Hb Hu Hh Hm]. split_and!.
  - etrans; [apply (task_total_mono is_held under_cap); intros []; cbn; lia|done].
  - done.
  - intros Hq. destruct (task_total_held _ Hq) as [Hc' Hb']. rewrite Hc', Hb' in *. split_and!; [done|done|].
    intros len Hl. pose proof (try_reserve_steps (I := I) len (bs_budget x) (bs_tasks x) Hl) as Hs.
    destruct (InflightBudget_try_reserve len (bs_budget x)) as [r b] eqn:He. split; [by destruct x|].
    destruct Hl as [_ Hl]. unfold sum_len in Hl. rewrite task_total_cons in Hl. cbn [task_len] in Hl.
    unfold InflightBudget_try_reserve in He. cbv zeta in He. revert He.
    change (ib_max_count (fetch_add_count 1 _)) with (ib_max_count (bs_budget x)).
    change (ib_max_bytes (fetch_add_bytes len _)) with (ib_max_bytes (bs_budget x)).
    change (ib_bytes (fetch_add_count 1 _)) with (ib_bytes (bs_budget x)).
    rewrite Hmc, Hmb, Hc, Hb. unfold saturating_add. fold (sum_len (bs_tasks x)) in Hl.
    destruct (N.leb_spec max_count (N.of_nat (length (bs_tasks x)))); [intros [= <- _]; split; [done|lia]|].
    destruct (N.ltb_spec max_bytes (N.min (sum_len (bs_tasks x) + len) u64_max)); intros [= <- _]; split; try done; lia.
Qed.

(** ** Parked requests *)

(** The channel a caller waits on. *)
Definition ReplyId := N.




(** The events tail: what does not fit is dropped. *)
Record EventTail (E : Type) := { et_cap : u64; et_queue : list E }.
Arguments et_cap {E}.
Arguments et_queue {E}.


(** [Out] is what the closures of the callers compute. *)
Section shared.
Context {I F Out : Type} `{!NodeId I, !StateMachine F}.
Abbreviation DriverError := (DriverError I).
Abbreviation Event := (Event I sm_response).

(** What a failover read is given: the state machine, the entries in limbo and the
    window; nothing, when there is no window; or the error that voided it. *)
Definition FailoverOutcome : Type := result (option (F * list Entry * FailoverReadWindow)) DriverError.

(** A completion runs, or drops unused, the closure of its caller, and tells the
    caller.  [qc_fn] is the part under [catch_unwind]; [None] when it panics. *)
Record QueryComplete := {
  qc_reply : ReplyId;
  qc_fn : result F DriverError → option (result Out DriverError);
}.

Record FailoverComplete := {
  fc_reply : ReplyId;
  fc_fn : FailoverOutcome → option (result (option Out) DriverError);
}.





(** The completions of [Handle::query], [failover_query] and
    [failover_query_unchecked].  The closure [f] panics where it returns [None];
    [drop_panics] says whether dropping it unused panics. *)
Definition unused {A} (drop_panics : bool) (a : A) : option A := if drop_panics then None else Some a.

Definition query_complete (reply : ReplyId) (f : F → option Out) (drop_panics : bool) : QueryComplete :=
  {| qc_reply := reply;
     qc_fn := λ res, match res with
                     | Ok fsm => Ok <$> f fsm
                     | Err e => unused drop_panics (Err e)
                     end |}.

Definition apply_checked_failover (f : F → FailoverReadWindow → option (option Out)) (drop_panics : bool)
    (outcome : FailoverOutcome) : option (result (option Out) DriverError) :=
  match outcome with
  | Err e => unused drop_panics (Err e)
  | Ok None => unused drop_panics (Ok None)
  | Ok (Some (fsm, limbo, win)) =>
      if bool_decide (limbo = []) then Ok <$> f fsm win else unused drop_panics (Ok None)
  end.

Definition apply_unchecked_failover (f : F → list Entry → FailoverReadWindow → option (option Out))
    (drop_panics : bool) (outcome : FailoverOutcome) : option (result (option Out) DriverError) :=
  match outcome with
  | Err e => unused drop_panics (Err e)
  | Ok None => unused drop_panics (Ok None)
  | Ok (Some (fsm, limbo, win)) => Ok <$> f fsm limbo win
  end.

Definition failover_query_complete reply f drop_panics : FailoverComplete :=
  {| fc_reply := reply; fc_fn := apply_checked_failover f drop_panics |}.

Definition failover_query_unchecked_complete reply f drop_panics : FailoverComplete :=
  {| fc_reply := reply; fc_fn := apply_unchecked_failover f drop_panics |}.

(** What waits for an index of the log, a confirmed read, or a serve window. *)
Inductive PendingRequest :=
| PSubmit (reply : ReplyId) (reservation : ReservationGuard)
| PConf (reply : ReplyId) (reservation : ReservationGuard).

Record ParkedQuery := {
  pq_ready_at : option Index;
  pq_complete : QueryComplete;
  pq_reservation : ReservationGuard;
}.

#[global] Instance ParkedQuery_eta : Eta ParkedQuery := λ q,
  Build_ParkedQuery (pq_ready_at q) (pq_complete q) (pq_reservation q).

Record ParkedFailover := {
  pf_complete : FailoverComplete;
  pf_reservation : ReservationGuard;
}.

Record Routing := {
  ro_pending : gmap Index PendingRequest;
  ro_queries : gmap u64 ParkedQuery;
  ro_next_query_ctx : u64;
  ro_failovers : list ParkedFailover;
  ro_applied : Index;
  ro_events : EventTail Event;
  ro_completion_panicked : bool;
}.

#[global] Instance Routing_eta : Eta Routing := λ r,
  Build_Routing (ro_pending r) (ro_queries r) (ro_next_query_ctx r) (ro_failovers r) (ro_applied r)
    (ro_events r) (ro_completion_panicked r).

Implicit Types (r : Routing) (q : ParkedQuery) (p : ParkedFailover).



Definition mint_query_ctx r : u64 * Routing :=
  (ro_next_query_ctx r, r <| ro_next_query_ctx ::= λ c, wrapping_add c 1 |>).
















(** ** Serving reads *)

Definition LIMBO_ENTRY_OVERHEAD : u64 := 64.

Definition limbo_bounds (window : FailoverReadWindow) : option (Index * Index) :=
  lo ← counter_checked_next (fr_commit window);
  hi ← counter_checked_next (fr_limbo_upper window);
  Some (lo, hi).

(** [Some] of the index after the last entry, when the entries are the ones from
    [expected] on and cost no more than [max_bytes]. *)
Fixpoint limbo_end (expected : Index) (cost max_bytes : u64) (entries : list Entry) : option Index :=
  match entries with
  | [] => Some expected
  | e :: entries =>
      if negb (e_index e =? expected) then None
      else
        expected ← counter_checked_next (e_index e);
        let cost := saturating_add (saturating_add cost LIMBO_ENTRY_OVERHEAD) (blen (e_data e)) in
        if max_bytes <? cost then None else limbo_end expected cost max_bytes entries
  end.

Definition contiguous_normal_entries (entries : list Entry) (lo hi : Index) (max_bytes : u64)
  : option (list Entry) :=
  expected ← limbo_end lo 0 max_bytes entries;
  if negb (expected =? hi) then None
  else Some (filter (λ e, e_kind e = EkNormal) entries).

Definition read_limbo {L} `{!LogStore L} (log : L) (window : FailoverReadWindow) (max_bytes : u64)
  : result (option (list Entry)) log_error :=
  match limbo_bounds window with
  | None => Ok None
  | Some (lo, hi) =>
      if hi <=? lo then Ok (Some [])
      else if N.max (max_bytes / LIMBO_ENTRY_OVERHEAD) 1 <? hi - lo then Ok None
      else
        let? entries := log_entries log lo hi max_bytes in
        match entries with
        | Ready es => Ok (contiguous_normal_entries es lo hi max_bytes)
        | Pending_ => Ok None
        end
  end.






(** ** Every request is answered once *)














(** ** The steps *)











End shared.

(** ** A run of the budget

    One slot and ten bytes: a caller with three bytes takes the slot while another is
    turned away. *)

Module DriverDemo.

Definition budget : InflightBudget := InflightBudget_new 1 10.
Definition empty : BudgetSys := {| bs_budget := budget; bs_tasks := [] |}.
Definition one_held : BudgetSys := {| bs_budget := fetch_add_bytes 3 (fetch_add_count 1 budget); bs_tasks := [TkHeld 3] |}.

Lemma one_held_reached : rtc budget_step empty one_held.
Proof.
  eapply rtc_l; [apply (BsReserve budget [] 3); split; vm_compute; congruence|].
  eapply rtc_l; [|apply rtc_refl]. exact (BsBytes (fetch_add_count 1 budget) [] [] 3).
Qed.

Lemma budget_holds_witness :
  task_total is_held (bs_tasks one_held) ≤ 1
  ∧ (InflightBudget_try_reserve (I := N) 4 (bs_budget one_held)).1 ≠ Ok {| rsv_len := 4 |}.
Proof.
  destruct (budget_holds N 1 10 one_held one_held_reached) as (Hc & _ & Hq). split; [exact Hc|].
  destruct Hq as (_ & _ & Hr); [repeat constructor; by eexists|].
  specialize (Hr 4 ltac:(split; vm_compute; congruence)).
  destruct (InflightBudget_try_reserve 4 (bs_budget one_held)) as [r b]. cbn [fst].
  intros Hok. apply Hr in Hok as [Hlt _]. cbn in Hlt. lia.
Defined.
End DriverDemo.
